(* ===== verification/_CoqProject ===== *)
-Q . S2P
Prelude.v
Hex.v
Json.v
Leaf.v
Effects.v
Sha256.v
AntiReplay.v
Records.v
Token.v
Issuer.v
DemoCose.v
Quota.v
Quorum.v
FailClosed.v
AutoClear.v
Clock.v
Revision.v
Mode.v
Validator.v
PlanContract.v
Admission.v
OPAClient.v
ObjectSeal.v
DryRun.v
Listener.v
Admin.v
Controllers.v
Epoch.v
ProofStore.v
ClassW.v
Promotion.v
Arbiter.v
ArbiterRuns.v
Degradation.v
Guard.v
Alert.v
Watcher.v
Supervision.v
Envelope.v
Registries.v
StrictJson.v
Translation.v
Intent.v
Broker.v
BrokerServer.v
BrokerChain.v
Telemetry.v
Retention.v
Aggregator.v
AntiDribble.v
Exporter.v
Pipeline.v
AsyncWriter.v
Backpressure.v
GoStrings.v
Manifest.v
Provisioning.v
Authorizer.v
Posture.v
GoJson.v
Ano.v
Masking.v
Anonymity.v
GoUrl.v
Proxy.v
AnoService.v
AnoClient.v
Journal.v
Auditor.v
Mirror.v
Operators.v
Examples.v
ClusterExamples.v
BrokerExamples.v
TelemetryExamples.v
RegistryExamples.v
ProvisioningExamples.v
AnonymityExamples.v
ProxyExamples.v
JournalExamples.v
