(* ===== verification/Prelude.v ===== *)
(** * TBP-NETWORK: a verification development of a fail-closed network of cells

    The repository is a fail-closed network of cells written in Go. A cell has a broker
    (src/broker) that issues short-lived CWT/COSE tokens, a policy enforcement point
    or PEP (src/pep) that checks each token before an action, and a registry
    (src/registry) that keeps one hash-only leaf for every decision. Around them are the
    cluster of cells, the supervision, the telemetry, the anonymiser and the translator.
    This library models the core of the PEP, the leaf format of the registry, the broker, the
    cluster, the arbiter, the degradation of the translator, the supervision, the telemetry, the
    anonymiser and the proxy, and proves what makes them correct.

    ** How the parts interact

    An agent asks the broker for an action. The broker resolves the agent in its registry,
    draws an identifier, reads its epoch from the tracker of the cluster, translates the
    request, bounds it by the skill of the action, asks the policy engine, asks the gate of
    class W for a quorum and the plan store for the next step of a plan, reserves the volume of
    a passport in the envelope, and only then has the issuer sign a token. Requests run
    concurrently: between two stages of one, the shared state may change in any way.

    The issuer signs a token. The validator opens it with the pinned keyring, then checks
    its dates, its policy, its epoch, its scope, its seal, its quota and last its identifier
    in the anti-replay cache. Before all of this it asks the fail-closed gate, the one place
    where a tripped condition refuses everything. A condition is tripped by a detector (the
    clock watchdog, the saturated cache, the saturated quota ledger, the plan store) and is
    lifted by an operator, by a quorum of controllers for class W, or by the automatic
    recovery of the OPA conditions. The listener runs the whole chain: after the validator it
    asks the component for a dry run of a governed action, opens the passport of the token in
    the quota ledger and asks the policy engine, through a bounded and fair queue; each of
    them can only turn an allow into a refusal. The posture controller then applies the
    posture of the cell to the verdict. The plan contracts are the second guard: a plan submitted by an
    agent is approved by operators, and each of its steps is granted once and in order. Each
    of these components writes its leaf through the same function, the clear record to the
    encrypted journal first and the leaf to the registry second.

    Between the cells, the controllers of the cluster sign four kinds of documents: the epoch
    that says which cell has authority and until when, the proof that lets one action of
    class W through, the file of anchors a promotion needs, and, by the key of a cell, the
    receipt of a rule bundle. The epoch tracker installs epochs, the gate of class W consumes
    proofs in a durable store, the promotion controller compares receipts with anchors. When
    the translator of a cell is down, its guard asks the degradation controller, and a
    standard subject waits in the queue of the arbiter for the signature of a human. The
    monitor of the supervision reads the chains of all the cells, warns, and triggers a bounded
    number of failovers.

    The telemetry of a cell reads the counters of the quota ledger. At each step of its pipeline the
    exporter makes records of what each passport has consumed, sends them to a collector, and
    feeds them to two sinks: the aggregator, which seals one leaf for each window of records and keeps
    the raw batch in a store for the auditor, and the detector of slow exfiltration, which keeps the
    bytes of each hashed destination over a day and a week and alerts.

    The leaves of all of them go to the log of the cell, at once or through an asynchronous writer that
    accepts a leaf before a checkpoint covers it and cuts when the checkpoints are late. A monitor of the
    disk stops the log before the disk is full, with one last leaf. The clear record of each leaf is a line of an
    encrypted file; an auditor who has the file, its key and the log checks that they explain each other, and a broker
    that starts restores its mirror and the queue of the arbiter from them.

    Before it serves, a daemon is measured. The manifests of its cell are a signed chain of the hashes of its
    components, against which the measured boot compares the machine; its provisioning files (keyrings, quorum
    settings, security switches) are compared with a signed witness, and change only by a transition that a quorum
    of the attested controllers has signed.

    What leaves a cell for a destination outside goes through the anonymiser. The values that the rules, the
    patterns or a local classifier designate are replaced by tokens; the table from tokens to values is kept in memory
    under the identifier of the bearer token, until it expires, and restores the answer. The anonymiser is a service
    behind a Unix socket; the proxy of the PEP is its client. The proxy asks the listener about the method and the
    resource of the request it is about to send, masks its query and its body, sends it, and restores the answer.

    ** Files

    - Prelude: bytes, machine integers, big-endian codecs, Go's times, byte order on
      strings, the order in which Go walks a map ([MapOrder]), its sort, which is not stable
      ([SliceSort]), and the cryptography the code calls ([Crypto]: SHA-256 and Ed25519
      verification), with the shared tactics and hints.
    - Leaf (registry/leaf.go): [Leaf], [Marshal], [UnmarshalLeaf], [HashPayload].
    - Effects (registry/record_store.go, pep/journal.go): the trace of effects and the
      fallible world ([Env]), [Put], [AppendSealed], [AppendLeaf], [appendLeaf].
    - Sha256: an executable SHA-256 checked on the FIPS 180-4 vectors, and a concrete
      [Crypto] built on it. It only serves the examples.
    - AntiReplay (pep/antireplay.go): the ring of consumed identifiers, with the bounded
      queue it implements in its module [Spec].
    - Records (the record and message serialisers of pep): decision, clock, condition,
      posture and plan records, [QuorumMessage], [HashPlan], [ApprovalMessage],
      [RevocationMessage], [SubmissionMessage].
    - Token (pep/validator.go, second half): claims, [decodePayload], [decodeQuota],
      [verifySignedToken], [VerifyPossession]. The CBOR and COSE packages are not in the
      repository; they are the class [Cose], with their documented behaviour in [CoseLaws].
    - Issuer (broker/issuer.go): [NewIssuer] and [Issue], over the signing half of the COSE
      package ([CoseSign]), with what it documents as [CoseRoundTrip]: what decodes to itself is a map with
      short integer keys in canonical order whose texts are valid UTF-8.
    - DemoCose: a deterministic CBOR codec and a COSE_Sign1 envelope, a concrete instance of
      the classes above on which the examples run.
    - Quota (pep/quota.go): [PassportCounter], [QuotaLedger] and their operations. The ledger
      hands out pointers to its counters, so counters live in a heap and the map of the
      ledger holds addresses.
    - Quorum (pep/quorum_verifier.go, pep/quorum_state.go): the signature quorum, and the
      persistent floor of each condition behind the interface [QuorumStateStore].
    - FailClosed (pep/failclosed.go): [Register], [Trip], [Gate], [Clear], [AutoClear].
    - AutoClear (pep/opa_autoclear.go): [NewOPAAutoClearer], [Tick].
    - Clock (pep/clock.go): [Check] and the gates it drives. [Check_states] lists the states
      a reader can observe during a check, because the source releases its lock in between.
    - Mode (pep/mode.go): [SetMode], [Allows].
    - Validator (pep/validator.go, first half): [decide_], [writeLeaf], [ValidateAt], proved
      against the interface [AntiReplayCache], which the ring of AntiReplay implements.
    - PlanContract (pep/plan_contract.go): every operation of the plan store.
    - Admission (pep/opa_admission.go): the critical sections of the queue in front of the
      engine, and [adm_step], which interleaves those of any number of requests.
    - OPAClient (pep/opa_client.go): [opa_Eval] with its counters and alarms. What the engine
      answers is a function of what it is asked.
    - ObjectSeal (pep/object_capability.go): [ComputeObjectSeal].
    - DryRun (pep/dryrun.go): [CanonicalizeDiff], [HashDiff] and the gate [Execute].
    - Listener (pep/listener.go): [evaluate], the decision chain stage by stage, and
      [handleConsume].
    - Admin (pep/listener.go, administration routes): [decodeQuorumProof], the change of
      posture and the lifting of a condition.
    - Hex, Json: the text encodings: hexadecimal and base64, and the
      canonical JSON of Go's [json.Marshal] on flat structures, with their inverses.
    - Controllers (the signature loop of cluster/epoch.go, quorum.go and anchors.go), and the sliding windows of
      one hour that the tracker and the monitor count with.
    - Epoch (cluster/epoch.go): [NewTracker], [Accept], [CurrentEpoch] and the views.
    - ProofStore (cluster/proof_store.go): [ps_Consume], in memory or on a file.
    - ClassW (cluster/quorum.go): [NewQuorumGate], [VerifyClassW].
    - Promotion (cluster/promotion.go, cluster/anchors.go): [Promote] over the interface
      [MasterAnchorSource], and the signed file of anchors that implements it.
    - Arbiter (arbiter/arbiter.go): [Heartbeat], [arb_Enqueue], [arb_Decide], [arb_Take],
      [Restore]; ArbiterRuns: sequences of these calls with restarts, and their theorems.
    - Degradation (translator/degradation.go): [CheckHealth], [ModeFor], [Accept_input], over
      the interface [Arbitration].
    - Guard (broker/cmd/brokerd/translator_guard.go): [Admit], with the queue of Arbiter as the
      [Arbitration] of Degradation.
    - Alert, Watcher, Supervision (supervision/alert.go, watcher.go, monitor.go with
      failover.go): alert records, the verification of one chain over the interface
      [LogClient], and the passes [CheckOnce] of the monitor.
    - Envelope (broker/envelope.go): the ledger of reservations ([Reserve], [Release]) and the
      evaluator [EvalEnvelope].
    - Registries (broker/agent_registry.go, skill_registry.go): agents and skills.
    - StrictJson (strictjson/strictjson.go): [Decode], with the stack machine [duplicateKey] and
      the check [walk] of the names of fields, on document trees and descriptions of types.
    - Translation (broker/broker.go, StructuredTranslator; broker/translator_guard.go): the
      interface [Translator], the structured translator with its refusal of invisible
      characters, and the guarded one, over Guard.
    - Intent (broker/broker.go, structuredIntent): the intention decoded by StrictJson.
    - Broker (broker/broker.go): [HandleAction], one definition per stage, in a monad of
      computations that can end the request, over the interfaces [EpochProvider],
      [QuorumGate], [ContractGate], [Translator], [AgentRegistry] and [SkillRegistry].
    - BrokerServer (broker/server.go): [handleAction].
    - BrokerChain: the interfaces of Broker implemented by Epoch, ClassW, PlanContract and
      Issuer, and the theorem of the whole chain.
    - Telemetry (telemetry/exporter.go, aggregate.go): flow records, aggregates, the Merkle root.
    - Retention (telemetry/retention.go): [rt_Put], [PurgeExpired], [Verify].
    - Aggregator (telemetry/aggregate.go): [ag_Feed], [ag_Tick], [Seal], with the store passed in
      and out because the pipeline shares it.
    - AntiDribble (telemetry/antidribble.go): rings of dated slots, profiles, [det_Feed], [Flush],
      and the abstract [meter] they implement.
    - Exporter (telemetry/exporter.go): [ExportOnce] over the interface [RecordSink], the sinks and
      their fan-out, the IPFIX message.
    - Pipeline (telemetry/pipeline.go): [NewPipeline], [Step], [Close], and the interface [SinkInv] by
      which each sink states what it keeps.
    - AsyncWriter (registry/async_writer.go): the critical sections of the writer, [aw_accept],
      [confirm], the cut and the catch-up.
    - Backpressure (registry/backpressure.go, cell_log.go, the goroutines of async_writer.go): the log
      of a cell as a system of goroutines, [act_step] taking one step of one of them.
    - GoStrings: what the sources use of Go's strings, numbers and scanners.
    - Manifest (registry/manifest.go, measured_boot.go): [marshalRecord], [ParseManifestRecord], [Genesis],
      [Transition], [VerifyManifestChain], [CheckBoot], over the key of the cell ([CellKey]).
    - Provisioning (registry/provisioning.go): [measureProvisioning], the witness and its inverse, the guard
      [pg_Check], [PreviewProvisioning].
    - Authorizer (pep/provisioning_authorize.go, quorum_settings.go, quorum_proof_file.go, and
      [setupProvisioning] of pepd): who may change the provisioning.
    - Posture (pep/posture.go, opa_tuning.go, the readers of the environment of pepd): [pepdPosture].
    - GoJson: what the sources use of encoding/json on raw bytes: the token stream of a decoder, the text
      of a string, [Valid], and that what is written is read back.
    - Ano (ano/ano.go, rules.go, vault.go, classifier.go): [NewRules], [findSpans], [intern], [vault_open],
      [MaskJSON], [MaskField], [Unmask], [expandExponent].
    - Masking: the walks of Ano as functions of the document, and the tables they leave.
    - Anonymity: the service over any sequence of calls, and its theorems.
    - Revision (pep/opa_revision.go): [rev_Check], the watch on the bundle the engine serves.
    - GoUrl: what the sources use of net/url and of the rewriting of net/http/httputil: escaping, [RequestURI],
      [joinURLPath], [ParseQuery], [Values_Encode], with their round trips.
    - Proxy (pep/proxy.go, rewriter.go): the handler of a request, from the guards to the answer.
    - AnoService (ano/svc/server.go, audit.go, pep/token_verifier.go): the handlers of the anonymiser, with the token
      they require and the audit leaf they write.
    - AnoClient (ano/svc/client.go, pepd/proxy_ano.go): the client of the service, and the proxy of Proxy with it.
    - Journal (registry/record_store.go): the file behind the journal lines of Effects, in bytes: [store_Put] and
      [ReadRecords], over the encryption [AEAD].
    - Auditor (registry/record_store.go, registry/cmd/tbp-audit): [VerifyInLog], [VerifyRecordsInLog], [cmdVerify], over the
      log of Watcher and its proofs ([LogProofs]).
    - Mirror (brokerd/mirror.go, persistence.go): the mirror gate and [restorePersistedState]; [mirror_run] interleaves
      promotions and restarts.
    - Operators (brokerd/operators.go, plan_approvals.go): the keyring of the operators and the checks of a start.
    - JournalExamples: a concrete journal with its log and its auditor; defects of the journal.
    - ProxyExamples: a concrete proxy and its anonymiser; defects of the grace period and of the ledger.
    - AnonymityExamples: a concrete deployment of the anonymiser; a defect of its tokens.
    - ProvisioningExamples: the theorems of these files on a concrete pepd; two defects of the witness, and a start on another one.
    - RegistryExamples: the theorems of the registry applied to concrete logs; two
      defects of the writer.
    - TelemetryExamples: a concrete pipeline on which the theorems of these files are applied; four
      divergences between the code and its comments.
    - BrokerExamples: a concrete broker on which the theorems of these files are applied; two
      more defects.
    - ClusterExamples: a concrete cluster, arbiter and monitor, on which the theorems of these
      files are applied; four more defects.
    - Examples: a concrete cell with real hashes, tokens, quorums and plans, on which each
      theorem is applied; four defects shown on that cell.

    ** Conventions

    A Go string is a [string] of bytes, a slice or an array of bytes is [bytes]. An integer
    is a [Z], with [u8], [u16], [u64] or [i64] where the source wraps. A time is a number of
    nanoseconds; a component that reads its clock twice in a call takes two readings. A nil
    callback is [false] in its flag. Effects (journal lines, leaves, alarms, cuts) are
    appended in order to a trace that each operation takes and returns, failures included.
    Whether the journal, the sink or a disk accepts a write is decided by the environment from
    the whole past trace, so a theorem quantified over the environment covers every pattern
    of failures. Errors are values of a sum or an option. A mutex makes each method atomic,
    so a concurrent use is a sequence of calls; the theorems on sequences quantify over all
    of them. The callbacks are recorded, not run: a callback that called back into the
    component that holds the lock would block in the source.
    Go may walk a map in another order each time; [map_range] is one order for each list of entries, and the
    theorems quantify over it, so they cover every order a single walk can take.
    The broker holds no lock across the stages of a request: a request takes a function
    [others] that changes the shared state before each stage, and the theorems quantify over
    it.

    The loops of the source that are not loops over a list or a map are these. [purgeHead]
    runs with the number of occupied slots as fuel, and each turn frees one. [dispatchLocked]
    of Admission repeats its scan with one more than the length of the queue as fuel, and
    each turn but the last removes a waiter. The loop of a tick of the aggregator has the number of
    elapsed windows as fuel, which is proved to be enough; [merkleRoot] has the number of leaves, and
    each level halves them. The walks of the anonymiser have twice the bytes of the payload, proved to be
    enough in [maskValue_total]. The decoder of DemoCose and the block loop of
    Sha256 take the length of their input as fuel.

    ** What the theorems show

    - Validator: the exact conditions of an allow, at most one allow per token while the two
      clock readings agree, a refusal consumes nothing, and a decision leaves one leaf, which commits to
      its verdict, reason, identifier and plan seal, or is turned into a refusal. The need for the agreement of the two readings is a theorem too.
    - AntiReplay: the ring refines a bounded queue, accepts no identifier twice before it
      expires, and refuses a new one only when it is full of fresh ones.
    - Quota: the volume a passport lets through per window, the finality of a cut, the bound
      of the ledger, and that no passport is missed by the exporter.
    - Token, Issuer, Leaf, Records: an issued token verifies and decodes to its claims, the fields of an
      accepted token are its claims within the bounds the decoder checks, leaves and bindings are bijective codecs,
      signed messages determine their content and do not cross domains.
    - Quorum, FailClosed, AutoClear, Mode, Clock: the gate, the exact quorum, governance of
      class-W conditions and of the posture, single use of each proof across restarts, the
      bound on automatic recovery, and the clock gate at each instant of a check.
    - PlanContract: when a step is granted, steps in order and once while the plan is in the store, approval by distinct
      operators other than the submitter, bounds of the store, replay of submissions.
    - Admission, OPAClient: bounds, shares and progress of the queue under every
      interleaving, the choice of the next request, the exact condition of an allow, and the
      alarms as a function of the history of calls.
    - ObjectSeal, DryRun: the seal and the diff hash commit to their contents, for any
      behaviour of the sort on equal keys.
    - Epoch: when an epoch is installed, that no two trackers serve at once while leases do
      not shrink (with a counterexample when they do), the bound on automatic switches, and
      the detection of two epochs with one number.
    - ProofStore, ClassW: when an action of class W goes through, and that a proof is used
      once across restarts, for statements that expire at a whole second.
    - Promotion: a promotion needs the anchors of a quorum; what a key of the cluster signs
      has one reading.
    - Arbiter, Guard: an approval admits once, the journal restores the queue, a degraded
      admission carries the signature of an arbiter.
    - Degradation: who is admitted in which mode, one alarm per outage.
    - Alert, Watcher, Supervision: alert records are a bijective codec, leaves returned by a
      tick were verified, a proved divergence is final, a dead cell is dealt with at most once, exactly once when the
      alerts can be written (with a counterexample when they cannot), after a warning, within the hourly bound.
    - Envelope: the total the engine sees counts every outstanding reservation, and no
      interleaving of requests issues more than the engine allows while epochs do not go back
      (with a counterexample when they do).
    - StrictJson, Intent: what the strict decoder accepts, that its stack machine finds what a
      search of the tree finds, and that all readers of an accepted intention see the action
      that is applied (with a counterexample for targets that keep raw bytes).
    - Translation: a translated request is the one the agent wrote, in visible characters.
    - Broker, BrokerChain: when a token is issued, that each verdict is counted once and has its
      leaf, and what a token proves to whoever verifies it.
    - Listener, Admin: a forwarded flow had the agreement of every component, the last
      decision on record is the verdict rendered, a passport is drawn on by the holder of its
      token only, and a proof of quorum survives the wire whole.

    - Telemetry, Retention: the leaf of a window binds its records, a batch is destroyed only after its
      leaf, and the replay of a window accepts its own records and no others.
    - Aggregator: the windows partition the records that were accepted, with one leaf each, and a
      tick ends.
    - AntiDribble: an evaluation measures exactly the bytes logged over a day and a week, and a heavy
      destination that is awake is alerted or the failure is reported.
    - Exporter: the exported deltas of a passport add up to its consumption, and a message
      determines its records.
    - Pipeline: what is kept in memory is bounded.
    - AsyncWriter, Backpressure: under every interleaving the leaf of stop is the last leaf of the
      log, accepted leaves are confirmed in order and counted, and a cut can end.
    - Manifest: what a cell publishes is a chain a third party accepts, one record fixes the whole past, and
      the measured boot lets a cell start exactly as its last manifest says.
    - Provisioning, Authorizer, Posture: the provisioning files of pepd change only by a transition signed by the
      quorum of the start before, for starts on one witness file (with a counterexample on two); a controller recomputes exactly what the daemon asks; no change of a security
      switch escapes the measure.
    - GoJson, Ano, Masking, Anonymity: a masked document is restored whole (with a counterexample when a digit
      follows a masked part), the masked text tells of the numbers and texts under a masked path only which are equal, the tables
      are bounded and evict nothing, the walks end, and a number with an exponent is judged by its value.
    - GoUrl: what is escaped is read back, and an encoded query parses to the same values.
    - Proxy, AnoClient: what is sent to the backend is what the PEP has decided on, and with the anonymiser plugged
      in nothing is sent that it has not masked and recorded.
    - AnoService: an exchange is reached only with its own token, whatever the other requests do.
    - Journal: what was put is read back, within the bounds of the reader, and an edited file reveals nothing that was not put (with a counterexample when the
      disk tears a write).
    - Auditor: the exact meaning of a successful audit, and that the two verifications against the log agree.
    - Mirror: the mirror is available only on a promotion that the controllers anchored and the log holds.
    - Operators: the keyring is well formed, and a start with separated duties means that plans can be approved.
    - Revision: the mode of the watch and its leaves are a function of the history of the answers.

    ** What is not modelled

    The decoding and writing of HTTP and JSON around the handlers of the listener and of the broker, and net/http
    itself; the daemons apart from the provisioning of pepd and the mirror, the restoration and the operators of brokerd; the kernel clock probe; the
    transport of the OPA client; the transparency log and its anchoring; the hardware signer, the serving
    loop and the health probe of the broker; the console of the supervision, the metrics of the
    translator; the development tools. The components see a journal line as
    one event of the trace; Journal gives its bytes, and AES-GCM is an interface there. The decoding of JSON is modelled from the document tree on, in
    StrictJson, and from the bytes on in GoJson, for the anonymiser; elsewhere an operation that receives bytes takes the decoded value, or [None].
    [TimeParser] stands for the parsing of RFC 3339 dates. *)
From Stdlib Require Export ZArith Lia.
From Stdlib Require Import Strings.Byte.
From stdpp Require Export gmap strings list fin_maps sorting.

(** * Bytes, Go strings and fixed-width integers *)

Abbreviation byte := Byte.byte.
Abbreviation bytes := (list Byte.byte).

#[global] Instance byte_eq_dec : EqDecision byte := Byte.byte_eq_dec.

#[global] Program Instance byte_countable : Countable byte :=
  inj_countable Byte.to_N Byte.of_N _.
Next Obligation. intros b. apply Byte.of_to_N. Qed.

(** Go's [int(b)] on a byte, and Go's [byte(n)], which keeps the low 8 bits. *)
Definition b2z (b : byte) : Z := Z.of_N (Byte.to_N b).
Definition z2b (z : Z) : byte := default Byte.x00 (Byte.of_N (Z.to_N (z mod 256))).

#[global] Instance byte_inhabited : Inhabited byte := populate Byte.x00.

(** Unsigned and signed machine integers, as the residue Go keeps. *)
Definition u8 (z : Z) : Z := z mod 2^8.
Definition u16 (z : Z) : Z := z mod 2^16.
Definition u64 (z : Z) : Z := z mod 2^64.
Definition i64 (z : Z) : Z := (z + 2^63) mod 2^64 - 2^63.

Definition in_u16 (z : Z) : Prop := (0 ≤ z < 2^16)%Z.
Definition in_u64 (z : Z) : Prop := (0 ≤ z < 2^64)%Z.
Definition in_i64 (z : Z) : Prop := (- 2^63 ≤ z < 2^63)%Z.

Lemma b2z_range b : (0 ≤ b2z b < 256)%Z.
Proof. unfold b2z. pose proof (Byte.to_N_bounded b). lia. Qed.

Lemma z2b_b2z b : z2b (b2z b) = b.
Proof.
  unfold z2b. rewrite Z.mod_small by apply b2z_range.
  unfold b2z. by rewrite N2Z.id, Byte.of_to_N.
Qed.

Lemma b2z_z2b z : b2z (z2b z) = (z mod 256)%Z.
Proof.
  unfold z2b. pose proof (Z.mod_pos_bound z 256 ltac:(lia)) as Hb.
  destruct (Byte.of_N (Z.to_N (z mod 256))) as [b|] eqn:E; simpl.
  - apply Byte.to_of_N in E. unfold b2z. lia.
  - apply Byte.of_N_None_iff in E. lia.
Qed.

#[global] Instance b2z_inj : Inj (=) (=) b2z.
Proof. intros a b H. by rewrite <-(z2b_b2z a), H, z2b_b2z. Qed.

Lemma u64_small z : in_u64 z → u64 z = z.
Proof. unfold u64, in_u64. intros. by apply Z.mod_small. Qed.

Lemma u64_range z : in_u64 (u64 z).
Proof. apply Z.mod_pos_bound. lia. Qed.

Lemma i64_small z : in_i64 z → i64 z = z.
Proof. unfold i64, in_i64. intros. rewrite Z.mod_small; lia. Qed.

Lemma i64_u64 z : in_i64 z → i64 (u64 z) = z.
Proof.
  intros H. unfold i64, u64. rewrite Z.add_mod_idemp_l by lia.
  by apply i64_small.
Qed.

Lemma u64_i64 z : u64 (i64 z) = u64 z.
Proof.
  unfold i64, u64. rewrite Zminus_mod_idemp_l. f_equal. lia.
Qed.

Lemma i64_range z : in_i64 (i64 z).
Proof. unfold in_i64, i64. pose proof (Z.mod_pos_bound (z + 2^63) (2^64)). lia. Qed.

(** ** Big-endian encodings ([binary.BigEndian]) *)

(** [be n z] is the [n]-byte big-endian encoding of the low [8n] bits of [z]. *)
Fixpoint be (n : nat) (z : Z) : bytes :=
  match n with
  | O => []
  | S n' => be n' (z / 256) ++ [z2b z]
  end.

(** [binary.BigEndian.UintN]: the value of a byte sequence, first byte highest. *)
Definition be_val (l : bytes) : Z := foldl (λ acc b, acc * 256 + b2z b)%Z 0%Z l.

Lemma length_be n z : length (be n z) = n.
Proof. revert z; induction n as [|n IH]; intros z; simpl; [done|]. rewrite length_app, IH. simpl. lia. Qed.

Lemma be_val_app l b : be_val (l ++ [b]) = (be_val l * 256 + b2z b)%Z.
Proof. unfold be_val. by rewrite foldl_app. Qed.

Lemma be_val_be n z : be_val (be n z) = (z mod 256 ^ Z.of_nat n)%Z.
Proof.
  revert z; induction n as [|n IH]; intros z.
  { simpl. by rewrite Z.mod_1_r. }
  cbn [be]. rewrite be_val_app, IH, b2z_z2b.
  pose proof (Z.pow_pos_nonneg 256 (Z.of_nat n) ltac:(lia) ltac:(lia)).
  rewrite Nat2Z.inj_succ, Z.pow_succ_r by lia.
  rewrite (Z.rem_mul_r z 256) by (assumption || lia). ring.
Qed.

Lemma be_val_range l : (0 ≤ be_val l < 256 ^ Z.of_nat (length l))%Z.
Proof.
  induction l as [|b l IH] using rev_ind; [unfold be_val; simpl; lia|].
  rewrite be_val_app, length_app. simpl length.
  replace (Z.of_nat (length l + 1)) with (Z.succ (Z.of_nat (length l))) by lia.
  rewrite Z.pow_succ_r by lia. pose proof (b2z_range b). nia.
Qed.

Lemma be_be_val l : be (length l) (be_val l) = l.
Proof.
  induction l as [|b l IH] using rev_ind; [done|].
  rewrite length_app. simpl length. rewrite Nat.add_1_r. cbn [be].
  rewrite be_val_app. pose proof (b2z_range b).
  rewrite Z.div_add_l, Z.div_small, Z.add_0_r, IH by lia. do 2 f_equal.
  apply b2z_inj. rewrite b2z_z2b, Z.add_comm, Z.mod_add, Z.mod_small; lia.
Qed.

Lemma be_inj n x y :
  (0 ≤ x < 256 ^ Z.of_nat n)%Z → (0 ≤ y < 256 ^ Z.of_nat n)%Z → be n x = be n y → x = y.
Proof.
  intros Hx Hy H. apply (f_equal be_val) in H. rewrite !be_val_be in H.
  rewrite !Z.mod_small in H; done.
Qed.

(** ** Go strings as byte sequences *)

(** [[]byte(s)]. *)
Definition sb (s : string) : bytes := String.list_byte_of_string s.
(** [string(b)]. *)
Definition bs (b : bytes) : string := String.string_of_list_byte b.
(** [len(s)] for a Go string. *)
Abbreviation slen := String.length.

Lemma bs_sb s : bs (sb s) = s.
Proof. apply String.string_of_list_byte_of_string. Qed.

Lemma sb_bs b : sb (bs b) = b.
Proof. apply String.list_byte_of_string_of_list_byte. Qed.

#[global] Instance sb_inj : Inj (=) (=) sb.
Proof. intros s t H. by rewrite <-(bs_sb s), H, bs_sb. Qed.

Lemma length_sb s : length (sb s) = slen s.
Proof.
  unfold sb, String.list_byte_of_string. rewrite length_map.
  induction s as [|a s IH]; simpl; [done|]. by rewrite IH.
Qed.

(** * Instants and durations *)

(** A [time.Time] is its distance to the Unix epoch in nanoseconds; a
    [time.Duration] is a signed 64-bit count of nanoseconds. *)
Definition second : Z := 1000000000.
Definition millisecond : Z := 1000000.
Definition microsecond : Z := 1000.
Definition minute : Z := 60 * second.
Definition hour : Z := 60 * minute.

(** [t.Unix()] rounds towards minus infinity; [time.Unix(s, 0)]. *)
Definition Unix (t : Z) : Z := t / second.
Definition of_Unix (s : Z) : Z := s * second.
(** [t.UnixNano()], an [int64]. *)
Definition UnixNano (t : Z) : Z := i64 t.
(** [t.Sub(u)] saturates at the bounds of [time.Duration]. *)
Definition Sub (t u : Z) : Z := Z.max (- 2^63) (Z.min (2^63 - 1) (t - u)).
(** The zero [time.Time] (January 1, year 1, UTC), tested by [IsZero]. *)
Definition zero_time : Z := -62135596800 * second.

Lemma Unix_of_Unix s : Unix (of_Unix s) = s.
Proof. unfold Unix, of_Unix, second. by rewrite Z.div_mul. Qed.

Lemma Unix_mono t u : (t ≤ u)%Z → (Unix t ≤ Unix u)%Z.
Proof. unfold Unix, second. intros. apply Z.div_le_mono; lia. Qed.

Lemma Sub_pos_iff t u : (0 < Sub t u)%Z ↔ (u < t)%Z.
Proof. unfold Sub. lia. Qed.

(** * Byte order ([bytes.Compare], string comparison) *)

Fixpoint bytes_leb (a b : bytes) : bool :=
  match a, b with
  | [], _ => true
  | _ :: _, [] => false
  | x :: a', y :: b' =>
      if b2z x <? b2z y then true
      else if b2z y <? b2z x then false
      else bytes_leb a' b'
  end%Z.

Definition bytes_le (a b : bytes) : Prop := bytes_leb a b = true.
Definition string_le (s t : string) : Prop := bytes_le (sb s) (sb t).

#[global] Instance bytes_le_dec : RelDecision bytes_le.
Proof. intros a b. unfold bytes_le. apply _. Defined.
#[global] Instance string_le_dec : RelDecision string_le.
Proof. intros a b. unfold string_le. apply _. Defined.

#[global] Instance bytes_le_total : Total bytes_le.
Proof.
  intros a. induction a as [|x a IH]; intros [|y b]; unfold bytes_le; simpl; auto.
  destruct (Z.ltb_spec (b2z x) (b2z y)), (Z.ltb_spec (b2z y) (b2z x)); auto; try lia.
  apply IH.
Qed.

#[global] Instance bytes_le_antisymm : AntiSymm (=) bytes_le.
Proof.
  intros a. induction a as [|x a IH]; intros [|y b]; unfold bytes_le; simpl; auto; try done.
  destruct (Z.ltb_spec (b2z x) (b2z y)), (Z.ltb_spec (b2z y) (b2z x)); try done; try lia.
  intros Hab Hba. f_equal; [apply b2z_inj; lia|by apply IH].
Qed.

#[global] Instance bytes_le_trans : Transitive bytes_le.
Proof.
  intros a. induction a as [|x a IH]; intros [|y b] [|z c]; unfold bytes_le; simpl; auto; try done.
  intros Hab Hbc.
  destruct (Z.ltb_spec (b2z x) (b2z y)), (Z.ltb_spec (b2z y) (b2z x)); try done; try lia;
    destruct (Z.ltb_spec (b2z y) (b2z z)), (Z.ltb_spec (b2z z) (b2z y)); try done; try lia;
    destruct (Z.ltb_spec (b2z x) (b2z z)), (Z.ltb_spec (b2z z) (b2z x)); try done; try lia.
  by apply (IH b c).
Qed.

#[global] Instance string_le_total : Total string_le.
Proof. intros s t. apply (total bytes_le). Qed.
#[global] Instance string_le_antisymm : AntiSymm (=) string_le.
Proof. intros s t ??. apply (inj sb). by apply (anti_symm bytes_le). Qed.
#[global] Instance string_le_trans : Transitive string_le.
Proof. intros s t u. apply (transitivity (R := bytes_le)). Qed.

(** * Lists *)

(** Two concatenations whose first parts have the same length agree part by part:
    how every length-prefixed or fixed-size record field is read back. *)
Lemma app_inj_len {A} (l1 l2 k1 k2 : list A) :
  length l1 = length l2 → l1 ++ k1 = l2 ++ k2 → l1 = l2 ∧ k1 = k2.
Proof. intros. by apply app_inj_1. Qed.

Lemma take_app_exact {A} (n : nat) (l k : list A) : length l = n → take n (l ++ k) = l.
Proof. intros <-. apply take_app_length. Qed.

Lemma lookup_total_app_exact `{!Inhabited A} (n : nat) (l k : list A) (x : A) :
  length l = n → (l ++ [x] ++ k) !!! n = x.
Proof. intros <-. by apply list_lookup_total_middle. Qed.

Lemma drop_app_exact {A} (n : nat) (l k : list A) : length l = n → drop n (l ++ k) = k.
Proof. intros <-. apply drop_app_length. Qed.

(** The first element of a sorted permutation is a least element. *)
Lemma merge_sort_head {A} (R : relation A) `{!RelDecision R, !Total R, !Transitive R}
    (l : list A) x k :
  merge_sort R l = x :: k → x ∈ l ∧ ∀ y, y ∈ l → R x y ∨ y = x.
Proof.
  intros E. pose proof (merge_sort_Permutation R l) as HP.
  pose proof (StronglySorted_merge_sort R l) as HS. rewrite E in HP, HS.
  apply StronglySorted_inv in HS as [_ HF]. rewrite Forall_forall in HF.
  split; [rewrite <-HP; left|]. intros y Hy. rewrite <-HP in Hy.
  apply elem_of_cons in Hy as [->|Hy]; auto.
Qed.

Lemma merge_sort_nil_iff {A} (R : relation A) `{!RelDecision R} (l : list A) :
  merge_sort R l = [] ↔ l = [].
Proof.
  pose proof (merge_sort_Permutation R l) as HP. split; [intros E|intros ->; done].
  rewrite E in HP. by apply Permutation_nil_l in HP.
Qed.

Lemma sublist_filter_mono {A} (P : A → Prop) `{!∀ x, Decision (P x)} (l k : list A) :
  sublist l k → sublist (filter P l) (filter P k).
Proof.
  induction 1 as [|x l k _ IH|x l k _ IH]; [done|..]; rewrite !filter_cons; case_decide;
    first [by apply sublist_skip | by apply sublist_cons | done].
Qed.

Lemma sublist_filter_weaken {A} (P Q : A → Prop) `{!∀ x, Decision (P x), !∀ x, Decision (Q x)}
    (l : list A) :
  (∀ x, P x → Q x) → sublist (filter P l) (filter Q l).
Proof.
  intros HPQ. induction l as [|x l IH]; [done|]. rewrite !filter_cons.
  destruct (decide (P x)) as [HP|HP].
  - rewrite decide_True by auto. by apply sublist_skip.
  - case_decide; [by apply sublist_cons|done].
Qed.

Lemma StronglySorted_sublist {A} (R : relation A) (l k : list A) :
  sublist l k → StronglySorted R k → StronglySorted R l.
Proof.
  induction 1 as [|x l k HS IH|x l k HS IH]; intros HK; [done|..]; apply StronglySorted_inv in HK as [HK HF].
  - constructor; [by apply IH|]. rewrite Forall_forall in *. intros y Hy. apply HF. by apply (sublist_subseteq _ _ HS).
  - by apply IH.
Qed.

(** * Go maps *)

(** [for k, v := range m] visits the entries of a map once each in an order the language
    leaves unspecified. *)
Class MapOrder := {
  map_range : ∀ {A : Type}, list A → list A;
  map_range_perm : ∀ {A : Type} (l : list A), map_range l ≡ₚ l;
}.

(** The order the examples run with. *)
Definition demo_order : MapOrder := {| map_range _ l := l; map_range_perm _ _ := reflexivity _ |}.

(** * Sorting *)

(** [sort.Slice(l, less)] with [less b a] the negation of [le a b]: a permutation of the slice
    in order. It is not stable, so the order of equivalent elements is left open. *)
Class SliceSort := {
  sort_slice : ∀ {A : Type} (le : relation A) `{!RelDecision le}, list A → list A;
  sort_slice_perm : ∀ {A : Type} (le : relation A) `{!RelDecision le} (l : list A),
    sort_slice le l ≡ₚ l;
  sort_slice_sorted : ∀ {A : Type} (le : relation A) `{!RelDecision le, !Total le, !Transitive le}
    (l : list A), StronglySorted le (sort_slice le l);
}.

(** The sort the examples run with. *)
Definition demo_sort : SliceSort := {|
  sort_slice A le D l := merge_sort le l;
  sort_slice_perm A le D l := merge_sort_Permutation le l;
  sort_slice_sorted A le D T R l := StronglySorted_merge_sort le l |}.

(** The comparison of two keys in turn. *)
Definition lex {A B} `{EqDecision A} (R : relation A) (S : relation B) : relation (A * B) :=
  λ x y, if decide (x.1 = y.1) then S x.2 y.2 else R x.1 y.1.

Section lex.
Context {A B : Type} `{EqDecision A} (R : relation A) (S : relation B).

#[global] Instance lex_dec `{!RelDecision R, !RelDecision S} : RelDecision (lex R S).
Proof. intros x y. unfold lex. destruct (decide (x.1 = y.1)); apply _. Defined.

#[global] Instance lex_total `{!Total R, !Total S} : Total (lex R S).
Proof.
  intros x y. unfold lex. destruct (decide (x.1 = y.1)) as [E|E].
  - rewrite decide_True by done. apply (total S).
  - rewrite decide_False by congruence. apply (total R).
Qed.

#[global] Instance lex_antisymm `{!AntiSymm (=) R, !AntiSymm (=) S} : AntiSymm (=) (lex R S).
Proof.
  intros [x1 x2] [y1 y2]. unfold lex. simpl. destruct (decide (x1 = y1)) as [->|E].
  - rewrite decide_True by done. intros ??. f_equal. by apply (anti_symm S).
  - rewrite decide_False by congruence. intros ??. destruct E. by apply (anti_symm R).
Qed.

#[global] Instance lex_trans `{!AntiSymm (=) R, !Transitive R, !Transitive S} : Transitive (lex R S).
Proof.
  intros [x1 x2] [y1 y2] [z1 z2]. unfold lex. simpl.
  destruct (decide (x1 = y1)) as [->|E1], (decide (y1 = z1)) as [->|E2]; intros H1 H2.
  - by etrans.
  - done.
  - by rewrite decide_False.
  - destruct (decide (x1 = z1)) as [->|E3]; [|by etrans].
    destruct E1. by apply (anti_symm R).
Qed.
End lex.

(** Sorted by a key and without duplicate keys, a set of elements has one order. *)
Lemma sorted_keys_unique {A K} (key : A → K) (R : relation K) `{!AntiSymm (=) R} (xs ys : list A) :
  StronglySorted (λ x y, R (key x) (key y)) xs → StronglySorted (λ x y, R (key x) (key y)) ys →
  xs ≡ₚ ys → NoDup (key <$> xs) → xs = ys.
Proof.
  intros Hf Hg HP Hnd. apply (StronglySorted_unique_strong (λ x y, R (key x) (key y))); auto.
  intros x y Hx Hy Hxy Hyx. rewrite <-HP in Hy.
  assert (key x = key y) as E by by apply (anti_symm R).
  apply list_elem_of_lookup in Hx as [i Hi], Hy as [j Hj].
  assert (i = j) as ->; [|congruence].
  eapply NoDup_lookup; [exact Hnd| |]; rewrite list_lookup_fmap; [by rewrite Hi|by rewrite Hj, E].
Qed.

(** Lists whose elements are encoded by a prefix code [f] are determined by their length and
    the concatenation of the codes. *)
Lemma prefix_code_concat {A} (f : A → bytes) (P : A → Prop) :
  (∀ x y k1 k2, P x → P y → f x ++ k1 = f y ++ k2 → x = y ∧ k1 = k2) →
  ∀ xs ys, Forall P xs → Forall P ys → length xs = length ys →
    concat (f <$> xs) = concat (f <$> ys) → xs = ys.
Proof.
  intros Hf xs. induction xs as [|x xs IH]; intros [|y ys] Hx Hy HL E; try done.
  apply Forall_cons in Hx as [Hx Hxs], Hy as [Hy Hys]. simpl in E, HL.
  apply Hf in E as [-> E]; [|done..]. f_equal. apply IH; auto.
Qed.

(** When no code is empty, the concatenation alone determines the list. *)
Lemma nonempty_code_concat {A} (f : A → bytes) (P : A → Prop) :
  (∀ x y k1 k2, P x → P y → f x ++ k1 = f y ++ k2 → x = y ∧ k1 = k2) → (∀ x, P x → f x ≠ []) →
  ∀ xs ys, Forall P xs → Forall P ys → concat (f <$> xs) = concat (f <$> ys) → xs = ys.
Proof.
  intros Hf Hne xs. induction xs as [|x xs IH]; intros [|y ys] Hx Hy E; try done.
  - apply Forall_cons in Hy as [Hy _]. symmetry in E. apply app_eq_nil in E as [E _]. by apply Hne in E.
  - apply Forall_cons in Hx as [Hx _]. apply app_eq_nil in E as [E _]. by apply Hne in E.
  - apply Forall_cons in Hx as [Hx Hxs], Hy as [Hy Hys]. rewrite !fmap_cons in E. cbn [concat] in E.
    apply Hf in E as [-> E]; [|done..]. f_equal. by apply IH.
Qed.

(** * Automation *)

(** Case analysis on the branches the code takes, one test at a time. *)
Ltac step_case := first [case_match | case_decide]; simplify_eq/=.
Ltac cases := repeat step_case.
(** The same on a hypothesis that states the result of an operation. *)
Ltac run H := repeat (case_match; simplify_eq/=); simplify_eq/=.

Create HintDb tbp.
#[export] Hint Resolve b2z_range u64_range : tbp.
Create Rewrite HintDb tbp_len.
#[export] Hint Rewrite @length_app @length_cons @length_nil length_be length_sb : tbp_len.

(** Lengths of concatenated record fields. *)
Ltac len := autorewrite with tbp_len; simpl; try lia.

(** * Cryptographic primitives *)

(** [crypto/sha256] and [crypto/ed25519] as the code calls them. Every component is
    stated against this interface; nothing is assumed of it except, where a statement
    says so, the laws below. *)
Class Crypto := {
  sha256 : bytes → bytes;                          (* sha256.Sum256 *)
  ed25519_verify : bytes → bytes → bytes → bool;   (* ed25519.Verify pub msg sig *)
}.

(** The documented size of a SHA-256 digest. *)
Class CryptoLaws `{Crypto} := sha256_length : ∀ m, length (sha256 m) = 32.

(** Two distinct messages with the same digest. *)
Definition sha256_collision `{Crypto} : Prop := ∃ m1 m2, m1 ≠ m2 ∧ sha256 m1 = sha256 m2.

(** Equal digests give equal messages, or a collision of the hash. *)
Lemma sha256_eq_or_collision `{Crypto} m1 m2 :
  sha256 m1 = sha256 m2 → m1 = m2 ∨ sha256_collision.
Proof. intros E. destruct (decide (m1 = m2)); [by left|]. right. by exists m1, m2. Qed.
