(* ===== verification/Hex.v ===== *)
(** The texts of bytes: hexadecimal ([encoding/hex]) and the standard base64 ([StdEncoding] of [encoding/base64]), as the sources call them,
    with their round trips. *)
From S2P Require Import Prelude.

(** [hex.EncodeToString]. *)
Definition hex_digit (n : Z) : Ascii.ascii :=
  Ascii.ascii_of_N (Z.to_N (if n <? 10 then 48 + n else 87 + n)%Z).
Definition hex (b : bytes) : string :=
  String.string_of_list_ascii (b ≫= λ x, [hex_digit (b2z x / 16); hex_digit (b2z x mod 16)]).

(** [hex.DecodeString]: both cases are read, an odd length is an error. *)
Definition hex_value (c : Ascii.ascii) : option Z :=
  let n := Z.of_N (Ascii.N_of_ascii c) in
  if ((48 <=? n) && (n <=? 57))%Z then Some (n - 48)%Z
  else if ((97 <=? n) && (n <=? 102))%Z then Some (n - 87)%Z
  else if ((65 <=? n) && (n <=? 70))%Z then Some (n - 55)%Z
  else None.

Fixpoint hex_decode (s : list Ascii.ascii) : option bytes :=
  match s with
  | [] => Some []
  | [_] => None
  | a :: b :: s' =>
      x ← hex_value a; y ← hex_value b; r ← hex_decode s'; Some (z2b (16 * x + y) :: r)
  end.

Definition hex_DecodeString (s : string) : option bytes :=
  hex_decode (String.list_ascii_of_string s).

Lemma hex_value_digit n : (0 ≤ n < 16)%Z → hex_value (hex_digit n) = Some n.
Proof.
  intros Hn. assert (∃ k : nat, n = Z.of_nat k ∧ k < 16) as (k & -> & Hk)
    by (exists (Z.to_nat n); lia).
  do 16 (destruct k as [|k]; [reflexivity|]). lia.
Qed.

Lemma hex_decode_encode b :
  hex_decode (b ≫= λ x, [hex_digit (b2z x / 16); hex_digit (b2z x mod 16)]) = Some b.
Proof.
  induction b as [|x b IH]; [done|].
  rewrite bind_cons. cbn [app hex_decode]. pose proof (b2z_range x) as Hx.
  rewrite !hex_value_digit by
    (split; [apply Z.div_pos || apply Z.mod_pos_bound
            |apply Z.div_lt_upper_bound || apply Z.mod_pos_bound]; lia).
  simpl. rewrite IH. simpl. rewrite <-Z.div_mod by lia. by rewrite z2b_b2z.
Qed.

Lemma hex_roundtrip b : hex_DecodeString (hex b) = Some b.
Proof.
  unfold hex_DecodeString, hex. rewrite String.list_ascii_of_string_of_list_ascii.
  apply hex_decode_encode.
Qed.

Lemma hex_decode_length l b : hex_decode l = Some b → length l = 2 * length b.
Proof.
  revert b. induction l as [l IH] using (induction_ltof1 _ length). unfold ltof in IH. intros b.
  destruct l as [|c1 [|c2 l]]; simpl; [by intros [= <-]|done|].
  destruct (hex_value c1); [|done]. destruct (hex_value c2); [|done]. destruct (hex_decode l) as [r|] eqn:E; [|done].
  simpl. intros [= <-]. apply IH in E; [|simpl; lia]. simpl. lia.
Qed.

Lemma hex_DecodeString_length s b : hex_DecodeString s = Some b → slen s = 2 * length b.
Proof.
  intros E%hex_decode_length. rewrite <-E. unfold slen. clear. induction s as [|c s IH]; simpl; [done|]. by rewrite IH.
Qed.

(** ** Base64 *)

Section base64.
Local Open Scope Z_scope.

Definition b64_pad : byte := Byte.x3d.

(** The character of a value below 64. *)
Definition b64_char (n : Z) : byte :=
  z2b (if n <? 26 then 65 + n else if n <? 52 then 71 + n else if n <? 62 then n - 4 else if n =? 62 then 43 else 47).

Definition b64_value (c : byte) : option Z :=
  let n := b2z c in
  if (65 <=? n) && (n <=? 90) then Some (n - 65)
  else if (97 <=? n) && (n <=? 122) then Some (n - 71)
  else if (48 <=? n) && (n <=? 57) then Some (n + 4)
  else if n =? 43 then Some 62
  else if n =? 47 then Some 63
  else None.

(** The four characters of 24 bits. *)
Definition b64_quad (n : Z) : Z * Z * Z * Z := (n / 262144, n / 4096 mod 64, n / 64 mod 64, n mod 64).

(** [StdEncoding.EncodeToString]. *)
Fixpoint b64_encode (s : bytes) : bytes :=
  match s with
  | [] => []
  | [a] =>
      let '(w, x, _, _) := b64_quad (b2z a * 65536) in [b64_char w; b64_char x; b64_pad; b64_pad]
  | [a; b] =>
      let '(w, x, y, _) := b64_quad (b2z a * 65536 + b2z b * 256) in [b64_char w; b64_char x; b64_char y; b64_pad]
  | a :: b :: c :: s =>
      let '(w, x, y, z) := b64_quad (b2z a * 65536 + b2z b * 256 + b2z c) in
      [b64_char w; b64_char x; b64_char y; b64_char z] ++ b64_encode s
  end.

(** Groups of four characters. Padding ends the text; the bits that it leaves over are not looked at. *)
Fixpoint b64_groups (s : bytes) : option bytes :=
  match s with
  | [] => Some []
  | p :: q :: r :: t :: s =>
      w ← b64_value p; x ← b64_value q;
      let first := z2b (w * 4 + x / 16) in
      if bool_decide (r = b64_pad) then
        if bool_decide (t = b64_pad) && bool_decide (s = []) then Some [first] else None
      else
        y ← b64_value r;
        let second := z2b (x * 16 + y / 4) in
        if bool_decide (t = b64_pad) then if bool_decide (s = []) then Some [first; second] else None
        else
          z ← b64_value t;
          rest ← b64_groups s;
          Some (first :: second :: z2b (y * 64 + z) :: rest)
  | _ => None
  end.

(** [StdEncoding.DecodeString]: line ends are skipped wherever they are. *)
Definition b64_line_end (b : byte) : bool := bool_decide (b = Byte.x0a) || bool_decide (b = Byte.x0d).
Definition b64_decode (s : bytes) : option bytes := b64_groups (filter (λ b, b64_line_end b = false) s).

(** ** The round trip *)

Lemma b64_value_char n : 0 ≤ n < 64 → b64_value (b64_char n) = Some n ∧ b64_char n ≠ b64_pad ∧ b64_line_end (b64_char n) = false.
Proof.
  intros Hn. assert (∃ k : nat, n = Z.of_nat k ∧ (k < 64)%nat) as (k & -> & Hk) by (exists (Z.to_nat n); lia).
  do 64 (destruct k as [|k]; [by vm_compute|]). lia.
Qed.

Lemma b64_quad_range n : 0 ≤ n < 16777216 →
  let '(w, x, y, z) := b64_quad n in 0 ≤ w < 64 ∧ 0 ≤ x < 64 ∧ 0 ≤ y < 64 ∧ 0 ≤ z < 64.
Proof.
  intros Hn. unfold b64_quad. pose proof (Z.mod_pos_bound (n / 4096) 64). pose proof (Z.mod_pos_bound (n / 64) 64). pose proof (Z.mod_pos_bound n 64).
  split_and!; try lia; [apply Z.div_pos; lia|apply Z.div_lt_upper_bound; lia].
Qed.

(** The three bytes of the four characters of 24 bits. *)
Lemma b64_quad_bytes a b c :
  let '(w, x, y, z) := b64_quad (b2z a * 65536 + b2z b * 256 + b2z c) in
  z2b (w * 4 + x / 16) = a ∧ z2b (x * 16 + y / 4) = b ∧ z2b (y * 64 + z) = c.
Proof.
  pose proof (b2z_range a) as Ha. pose proof (b2z_range b) as Hb. pose proof (b2z_range c) as Hc.
  unfold b64_quad. set (n := b2z a * 65536 + b2z b * 256 + b2z c).
  assert (n / 262144 = b2z a / 4) as -> by (unfold n; Z.div_mod_to_equations; lia).
  assert (n / 4096 mod 64 = b2z a mod 4 * 16 + b2z b / 16) as -> by (unfold n; Z.div_mod_to_equations; lia).
  assert (n / 64 mod 64 = b2z b mod 16 * 4 + b2z c / 64) as -> by (unfold n; Z.div_mod_to_equations; lia).
  assert (n mod 64 = b2z c mod 64) as -> by (unfold n; Z.div_mod_to_equations; lia).
  split_and!; apply (inj b2z); rewrite b2z_z2b; Z.div_mod_to_equations; lia.
Qed.

Lemma b64_groups_encode s : b64_groups (b64_encode s) = Some s.
Proof.
  induction s as [s IH] using (induction_ltof1 _ (@length byte)). unfold ltof in IH.
  destruct s as [|a [|b [|c s]]]; [done|..].
  - pose proof (b2z_range a). pose proof (b64_quad_range (b2z a * 65536) ltac:(lia)) as HR.
    pose proof (b64_quad_bytes a Byte.x00 Byte.x00) as HB. change (b2z Byte.x00) with 0 in HB. rewrite Z.mul_0_l, !Z.add_0_r in HB.
    cbn [b64_encode]. destruct (b64_quad (b2z a * 65536)) as [[[w x] y] z]. destruct HR as (Hw & Hx & _). cbn [b64_groups].
    rewrite (proj1 (b64_value_char w Hw)), (proj1 (b64_value_char x Hx)). cbn. by destruct HB as [-> _].
  - pose proof (b2z_range a). pose proof (b2z_range b). pose proof (b64_quad_range (b2z a * 65536 + b2z b * 256) ltac:(lia)) as HR.
    pose proof (b64_quad_bytes a b Byte.x00) as HB. change (b2z Byte.x00) with 0 in HB. rewrite !Z.add_0_r in HB.
    cbn [b64_encode]. destruct (b64_quad (b2z a * 65536 + b2z b * 256)) as [[[w x] y] z]. destruct HR as (Hw & Hx & Hy & _). cbn [b64_groups].
    rewrite (proj1 (b64_value_char w Hw)), (proj1 (b64_value_char x Hx)). cbn [mbind option_bind].
    rewrite bool_decide_false by apply (b64_value_char y Hy). rewrite (proj1 (b64_value_char y Hy)). cbn. by destruct HB as (-> & -> & _).
  - pose proof (b2z_range a). pose proof (b2z_range b). pose proof (b2z_range c).
    pose proof (b64_quad_range (b2z a * 65536 + b2z b * 256 + b2z c) ltac:(lia)) as HR. pose proof (b64_quad_bytes a b c) as HB.
    cbn [b64_encode]. destruct (b64_quad (b2z a * 65536 + b2z b * 256 + b2z c)) as [[[w x] y] z]. destruct HR as (Hw & Hx & Hy & Hz). cbn [b64_groups app].
    rewrite (proj1 (b64_value_char w Hw)), (proj1 (b64_value_char x Hx)). cbn [mbind option_bind].
    rewrite bool_decide_false by apply (b64_value_char y Hy). rewrite (proj1 (b64_value_char y Hy)). cbn [mbind option_bind].
    rewrite bool_decide_false by apply (b64_value_char z Hz). rewrite (proj1 (b64_value_char z Hz)). cbn [mbind option_bind].
    rewrite IH by (simpl; lia). cbn. by destruct HB as (-> & -> & ->).
Qed.

Lemma b64_encode_lines s : Forall (λ b, b64_line_end b = false) (b64_encode s).
Proof.
  assert (∀ n, 0 ≤ n < 64 → b64_line_end (b64_char n) = false) as HC by (intros n Hn; by destruct (b64_value_char n Hn) as (_ & _ & ?)).
  induction s as [s IH] using (induction_ltof1 _ (@length byte)). unfold ltof in IH.
  destruct s as [|a [|b [|c s]]]; [constructor|..]; cbn [b64_encode].
  - pose proof (b2z_range a). pose proof (b64_quad_range (b2z a * 65536) ltac:(lia)) as HR.
    destruct (b64_quad _) as [[[w x] y] z]. destruct HR as (Hw & Hx & _). by repeat constructor; auto.
  - pose proof (b2z_range a). pose proof (b2z_range b). pose proof (b64_quad_range (b2z a * 65536 + b2z b * 256) ltac:(lia)) as HR.
    destruct (b64_quad _) as [[[w x] y] z]. destruct HR as (Hw & Hx & Hy & _). by repeat constructor; auto.
  - pose proof (b2z_range a). pose proof (b2z_range b). pose proof (b2z_range c).
    pose proof (b64_quad_range (b2z a * 65536 + b2z b * 256 + b2z c) ltac:(lia)) as HR.
    destruct (b64_quad _) as [[[w x] y] z]. destruct HR as (Hw & Hx & Hy & Hz). repeat constructor; auto. apply IH. simpl. lia.
Qed.

Lemma filter_Forall_id {A} (P : A → Prop) `{∀ x, Decision (P x)} l : Forall P l → filter P l = l.
Proof. induction 1 as [|x l Hx _ IH]; [done|]. rewrite filter_cons_True by done. by rewrite IH. Qed.

(** What is encoded is read back. *)
Lemma b64_roundtrip s : b64_decode (b64_encode s) = Some s.
Proof.
  unfold b64_decode. rewrite filter_Forall_id by apply b64_encode_lines. apply b64_groups_encode.
Qed.

(** Line ends are not looked at: a token has many texts. *)
Example b64_line_ends : b64_decode (sb "TW" ++ [Byte.x0a] ++ sb "Fu") = Some (sb "Man").
Proof. vm_compute. reflexivity. Qed.
Example b64_left_over : b64_decode (sb "TR==") = b64_decode (sb "TQ==").
Proof. vm_compute. reflexivity. Qed.

End base64.
