(* ===== verification/Json.v ===== *)
(** Canonical JSON: [json.Marshal] on the fixed structs the controllers sign.

    The signed documents of the cluster (src/cluster) are the JSON of structs with a fixed
    order of fields: decimal integers, strings, arrays. A string is written with the escapes of
    [encoding/json]: quotes, backslashes and control characters, the characters [<], [>] and
    [&], the line separators U+2028 and U+2029, and the replacement character for a byte that
    is not valid UTF-8. On valid UTF-8, which is all a JSON decoder returns, the encoding of a
    string or an integer can be read back, whatever follows it. *)
From Stdlib Require Import Numbers.DecimalString Numbers.DecimalZ.
From S2P Require Import Prelude.
From S2P Require Import Hex.

Local Open Scope Z_scope.

(** ** Strings *)

Definition quote : byte := Byte.x22.
Definition backslash : byte := Byte.x5c.
Definition comma : byte := Byte.x2c.
Definition a2b (c : Ascii.ascii) : byte := Ascii.byte_of_ascii c.

(** [\u00XX]. *)
Definition escape_u (b : byte) : bytes :=
  [backslash; Byte.x75; Byte.x30; Byte.x30; a2b (hex_digit (b2z b / 16)); a2b (hex_digit (b2z b mod 16))].

(** A byte below 0x80. *)
Definition escape_ascii (b : byte) : bytes :=
  if bool_decide (b = quote) || bool_decide (b = backslash) then [backslash; b]
  else if bool_decide (b = Byte.x08) then [backslash; Byte.x62]
  else if bool_decide (b = Byte.x0c) then [backslash; Byte.x66]
  else if bool_decide (b = Byte.x0a) then [backslash; Byte.x6e]
  else if bool_decide (b = Byte.x0d) then [backslash; Byte.x72]
  else if bool_decide (b = Byte.x09) then [backslash; Byte.x74]
  else if (b2z b <? 32) || bool_decide (b = Byte.x3c) || bool_decide (b = Byte.x3e)
          || bool_decide (b = Byte.x26) then escape_u b
  else [b].

Definition between (lo hi : Z) (b : byte) : bool := (lo <=? b2z b) && (b2z b <=? hi).
Definition ascii (b : byte) : bool := b2z b <? 128.
Definition cont : byte → bool := between 0x80 0xbf.

(** The well-formed sequences of two, three and four bytes. *)
Definition rune2 (b0 b1 : byte) : bool := between 0xc2 0xdf b0 && cont b1.
Definition rune3 (b0 b1 b2 : byte) : bool :=
  (if b2z b0 =? 0xe0 then between 0xa0 0xbf b1
   else if b2z b0 =? 0xed then between 0x80 0x9f b1
   else between 0xe1 0xef b0 && cont b1) && cont b2.
Definition rune4 (b0 b1 b2 b3 : byte) : bool :=
  (if b2z b0 =? 0xf0 then between 0x90 0xbf b1
   else if b2z b0 =? 0xf4 then between 0x80 0x8f b1
   else between 0xf1 0xf3 b0 && cont b1) && cont b2 && cont b3.

(** U+2028 and U+2029 are escaped. *)
Definition escape3 (b0 b1 b2 : byte) : bytes :=
  if bool_decide ([b0; b1] = [Byte.xe2; Byte.x80]) &&
     (bool_decide (b2 = Byte.xa8) || bool_decide (b2 = Byte.xa9))
  then [backslash; Byte.x75; Byte.x32; Byte.x30; Byte.x32;
        if bool_decide (b2 = Byte.xa8) then Byte.x38 else Byte.x39]
  else [b0; b1; b2].

(** [\ufffd]. *)
Definition escape_bad : bytes := backslash :: sb "ufffd".

Fixpoint escape (s : bytes) : bytes :=
  match s with
  | [] => []
  | b0 :: s1 =>
      if ascii b0 then escape_ascii b0 ++ escape s1
      else match s1 with
           | [] => escape_bad
           | b1 :: s2 =>
               if rune2 b0 b1 then [b0; b1] ++ escape s2
               else match s2 with
                    | [] => escape_bad ++ escape s1
                    | b2 :: s3 =>
                        if rune3 b0 b1 b2 then escape3 b0 b1 b2 ++ escape s3
                        else match s3 with
                             | [] => escape_bad ++ escape s1
                             | b3 :: s4 =>
                                 if rune4 b0 b1 b2 b3 then [b0; b1; b2; b3] ++ escape s4
                                 else escape_bad ++ escape s1
                             end
                    end
           end
  end.

Definition json_string (s : string) : bytes := [quote] ++ escape (sb s) ++ [quote].

(** Valid UTF-8. *)
Inductive utf8 : bytes → Prop :=
  | utf8_nil : utf8 []
  | utf8_1 b0 s : ascii b0 = true → utf8 s → utf8 (b0 :: s)
  | utf8_2 b0 b1 s : rune2 b0 b1 = true → utf8 s → utf8 (b0 :: b1 :: s)
  | utf8_3 b0 b1 b2 s : rune3 b0 b1 b2 = true → utf8 s → utf8 (b0 :: b1 :: b2 :: s)
  | utf8_4 b0 b1 b2 b3 s :
      rune4 b0 b1 b2 b3 = true → utf8 s → utf8 (b0 :: b1 :: b2 :: b3 :: s).

Lemma utf8_of_ascii s : Forall (λ b, ascii b = true) s → utf8 s.
Proof. induction 1; by constructor. Qed.

Lemma utf8_ascii s : forallb ascii (sb s) = true → utf8 (sb s).
Proof. intros Hs. apply utf8_of_ascii, Forall_forall. intros b Hb%list_elem_of_In. by eapply forallb_forall. Qed.

(** ** Reading a string back *)

Definition unescape_char (b : byte) : byte :=
  if bool_decide (b = Byte.x62) then Byte.x08
  else if bool_decide (b = Byte.x66) then Byte.x0c
  else if bool_decide (b = Byte.x6e) then Byte.x0a
  else if bool_decide (b = Byte.x72) then Byte.x0d
  else if bool_decide (b = Byte.x74) then Byte.x09
  else b.

(** The four digits after [\u]. *)
Definition unescape_u (h1 h2 h3 h4 : byte) : bytes :=
  if bool_decide ([h1; h2] = [Byte.x30; Byte.x30]) then
    [z2b (16 * default 0 (hex_value (Ascii.ascii_of_byte h3)) + default 0 (hex_value (Ascii.ascii_of_byte h4)))]
  else [Byte.xe2; Byte.x80; if bool_decide (h4 = Byte.x38) then Byte.xa8 else Byte.xa9].

(** Up to the closing quote; the bytes after it are returned. *)
Fixpoint unescape (s : bytes) : option (bytes * bytes) :=
  match s with
  | [] => None
  | b :: s1 =>
      if bool_decide (b = quote) then Some ([], s1)
      else if bool_decide (b = backslash) then
        match s1 with
        | c :: s2 =>
            if bool_decide (c = Byte.x75) then
              match s2 with
              | h1 :: h2 :: h3 :: h4 :: s3 => prod_map (app (unescape_u h1 h2 h3 h4)) id <$> unescape s3
              | _ => None
              end
            else prod_map (cons (unescape_char c)) id <$> unescape s2
        | [] => None
        end
      else prod_map (cons b) id <$> unescape s1
  end.

Lemma unescape_plain b r :
  b ≠ quote → b ≠ backslash → unescape (b :: r) = prod_map (cons b) id <$> unescape r.
Proof. intros Hq Hb. cbn [unescape]. by rewrite !bool_decide_false. Qed.

Lemma unescape_escape_u b r : unescape (escape_u b ++ r) = prod_map (cons b) id <$> unescape r.
Proof.
  unfold escape_u. cbn [unescape app].
  rewrite bool_decide_false, bool_decide_true, bool_decide_true by done. unfold unescape_u.
  rewrite bool_decide_true by done. unfold a2b. rewrite !Ascii.ascii_of_byte_of_ascii.
  pose proof (b2z_range b) as Hb. rewrite !hex_value_digit.
  - simpl. rewrite <-Z.div_mod by lia. by rewrite z2b_b2z.
  - apply Z.mod_pos_bound. lia.
  - split; [apply Z.div_pos; lia|apply Z.div_lt_upper_bound; lia].
Qed.

Lemma unescape_ascii b r :
  unescape (escape_ascii b ++ r) = prod_map (cons b) id <$> unescape r.
Proof.
  unfold escape_ascii.
  repeat (case_bool_decide; [subst; reflexivity|]); simpl.
  case_match; [apply unescape_escape_u|]. by apply unescape_plain.
Qed.

(** A byte from 0x80 on stands for itself. *)
Lemma unescape_high b r :
  ascii b = false → unescape (b :: r) = prod_map (cons b) id <$> unescape r.
Proof. intros Ha. apply unescape_plain; intros ->; discriminate. Qed.

Lemma between_high lo hi b : (128 <=? lo) = true → between lo hi b = true → ascii b = false.
Proof. unfold between, ascii. intros ? [? ?]%andb_prop. apply Z.ltb_ge. lia. Qed.

Lemma cont_high b : cont b = true → ascii b = false.
Proof. by apply between_high. Qed.

Lemma rune2_high b0 b1 : rune2 b0 b1 = true → ascii b0 = false ∧ ascii b1 = false.
Proof. intros [H0 H1]%andb_prop. split; [by apply (between_high 0xc2 0xdf)|by apply cont_high]. Qed.

Lemma rune3_high b0 b1 b2 :
  rune3 b0 b1 b2 = true → ascii b0 = false ∧ ascii b1 = false ∧ ascii b2 = false ∧ rune2 b0 b1 = false.
Proof.
  unfold rune3, rune2. intros [H01 H2%cont_high]%andb_prop.
  assert (ascii b0 = false ∧ ascii b1 = false ∧ between 0xc2 0xdf b0 = false) as (? & ? & ->); [|done].
  unfold ascii, cont, between in *. case_match; [|case_match]; lia.
Qed.

Lemma rune4_high b0 b1 b2 b3 :
  rune4 b0 b1 b2 b3 = true →
  ascii b0 = false ∧ ascii b1 = false ∧ ascii b2 = false ∧ ascii b3 = false ∧
  rune2 b0 b1 = false ∧ rune3 b0 b1 b2 = false.
Proof.
  unfold rune4, rune3, rune2.
  intros [[H01 H2%cont_high]%andb_prop H3%cont_high]%andb_prop.
  assert (ascii b0 = false ∧ ascii b1 = false ∧ 240 <= b2z b0) as (? & ? & ?).
  { unfold ascii, cont, between in *. case_match; [|case_match]; lia. }
  split_and!; try done.
  - unfold between. rewrite (proj2 (Z.leb_gt (b2z b0) 0xdf)) by lia. by rewrite andb_false_r.
  - rewrite (proj2 (Z.eqb_neq (b2z b0) 0xe0)), (proj2 (Z.eqb_neq (b2z b0) 0xed)) by lia.
    unfold between at 1. rewrite (proj2 (Z.leb_gt (b2z b0) 0xef)) by lia. by rewrite andb_false_r.
Qed.

Lemma fmap_prod_map_cons b s (o : option (bytes * bytes)) :
  prod_map (cons b) id <$> (prod_map (app s) id <$> o) = prod_map (app (b :: s)) id <$> o.
Proof. by destruct o as [[? ?]|]. Qed.

Lemma unescape_highs bs r :
  Forall (λ b, ascii b = false) bs → unescape (bs ++ r) = prod_map (app bs) id <$> unescape r.
Proof.
  induction 1 as [|b bs Hb _ IH]; simpl app; [by destruct (unescape r) as [[??]|]|].
  rewrite unescape_high by done. by rewrite IH, fmap_prod_map_cons.
Qed.

Lemma unescape_3 b0 b1 b2 r :
  rune3 b0 b1 b2 = true →
  unescape (escape3 b0 b1 b2 ++ r) = prod_map (app [b0; b1; b2]) id <$> unescape r.
Proof.
  intros (H0 & H1 & H2 & _)%rune3_high. unfold escape3.
  case_bool_decide as E; [injection E as -> ->|by apply unescape_highs; repeat constructor].
  case_bool_decide as E2; [by subst|].
  case_bool_decide as E3; [by subst|].
  by apply unescape_highs; repeat constructor.
Qed.

Lemma unescape_escape s r : utf8 s → unescape (escape s ++ quote :: r) = Some (s, r).
Proof.
  intros Hs. revert r. induction Hs as [|b0 s H0 _ IH|b0 b1 s Hr _ IH|b0 b1 b2 s Hr _ IH
    |b0 b1 b2 b3 s Hr _ IH]; intros r; cbn [escape].
  - done.
  - rewrite H0, <-app_assoc, unescape_ascii. by rewrite IH.
  - destruct (rune2_high _ _ Hr) as [-> ?]. rewrite Hr, <-app_assoc, (unescape_highs [b0; b1]).
    + by rewrite IH.
    + repeat constructor; by destruct (rune2_high _ _ Hr).
  - destruct (rune3_high _ _ _ Hr) as (-> & _ & _ & ->).
    rewrite Hr, <-app_assoc, unescape_3 by done. by rewrite IH.
  - destruct (rune4_high _ _ _ _ Hr) as (H0 & H1 & H2 & H3 & -> & ->).
    rewrite H0, Hr, <-app_assoc, (unescape_highs [b0; b1; b2; b3]); [by rewrite IH|].
    by repeat constructor.
Qed.

(** The encoding of a string is a prefix code. *)
Lemma json_string_prefix s t r1 r2 :
  utf8 (sb s) → utf8 (sb t) → json_string s ++ r1 = json_string t ++ r2 → s = t ∧ r1 = r2.
Proof.
  unfold json_string. rewrite <-!app_assoc. intros Hs Ht E. injection E as E.
  pose proof (unescape_escape _ r1 Hs) as U1. pose proof (unescape_escape _ r2 Ht) as U2.
  rewrite E, U2 in U1. injection U1 as E1 ->. split; [by apply (inj sb)|done].
Qed.

(** ** Integers *)

Definition json_int (n : Z) : bytes := sb (NilZero.string_of_int (Z.to_int n)).

Definition digit_or_minus (b : byte) : Prop := b = Byte.x2d ∨ between 48 57 b = true.

Lemma uint_digits d : Forall digit_or_minus (sb (NilEmpty.string_of_uint d)).
Proof. induction d; simpl; constructor; auto; by right. Qed.

Lemma nonempty_digits d : Forall digit_or_minus (sb (NilZero.string_of_uint d)).
Proof.
  destruct d; try exact (uint_digits (_ _)). constructor; [by right|constructor].
Qed.

Lemma json_int_digits n : Forall digit_or_minus (json_int n).
Proof.
  unfold json_int. destruct (Z.to_int n) as [d|d]; [apply nonempty_digits|].
  constructor; [by left|apply nonempty_digits].
Qed.

Lemma to_int_nonnil n : Z.to_int n ≠ Decimal.Pos Decimal.Nil ∧ Z.to_int n ≠ Decimal.Neg Decimal.Nil.
Proof.
  split; intros E; pose proof (DecimalZ.of_to n) as H; rewrite E in H; vm_compute in H; subst n;
    discriminate E.
Qed.

#[global] Instance json_int_inj : Inj (=) (=) json_int.
Proof.
  intros n m E. apply (inj sb) in E. apply DecimalZ.to_int_inj.
  apply (f_equal NilZero.int_of_string) in E. destruct (to_int_nonnil n), (to_int_nonnil m).
  rewrite !NilZero.isi in E by done. by injection E.
Qed.

(** Two runs of bytes in [P] followed by a byte outside [P]. *)
Lemma span_prefix (P : byte → Prop) l1 l2 x y r1 r2 :
  Forall P l1 → Forall P l2 → ¬ P x → ¬ P y → l1 ++ x :: r1 = l2 ++ y :: r2 →
  l1 = l2 ∧ x :: r1 = y :: r2.
Proof.
  revert l2. induction l1 as [|a l1 IH]; intros [|b l2] H1 H2 Hx Hy E; simplify_eq/=; auto.
  - by apply Forall_cons in H2 as [? _].
  - by apply Forall_cons in H1 as [? _].
  - apply Forall_cons in H1 as [_ H1], H2 as [_ H2]. destruct (IH l2) as [-> ?]; auto.
Qed.

(** The encoding of an integer ends where a byte that is no digit follows. *)
Lemma json_int_prefix_gen n m x y r1 r2 :
  ¬ digit_or_minus x → ¬ digit_or_minus y →
  json_int n ++ x :: r1 = json_int m ++ y :: r2 → n = m ∧ x :: r1 = y :: r2.
Proof.
  intros Hx Hy E.
  destruct (span_prefix _ _ _ _ _ _ _ (json_int_digits n) (json_int_digits m) Hx Hy E) as [E1 E2].
  by apply (inj json_int) in E1.
Qed.

Lemma comma_no_digit : ¬ digit_or_minus comma.
Proof. intros [|]; discriminate. Qed.

Lemma json_int_prefix n m r1 r2 :
  json_int n ++ [comma] ++ r1 = json_int m ++ [comma] ++ r2 → n = m ∧ r1 = r2.
Proof.
  intros E. apply json_int_prefix_gen in E as [-> E]; [|exact comma_no_digit..]. by injection E.
Qed.

(** ** Objects and arrays *)

Definition json_key (k : string) : bytes := [quote] ++ sb k ++ [quote; Byte.x3a].
Definition open_obj : byte := Byte.x7b.
Definition close_obj : byte := Byte.x7d.

(** Elements separated by commas, in brackets. *)
Definition json_array (es : list bytes) : bytes :=
  [Byte.x5b] ++ match es with [] => [] | e :: es' => e ++ concat ((λ x, comma :: x) <$> es') end ++ [Byte.x5d].

(** Two arrays of prefix codes that begin with the same bytes are the same array. *)
Lemma json_array_prefix {A} (f : A → bytes) (P : A → Prop) xs ys r1 r2 :
  (∀ x y k1 k2, P x → P y → f x ++ k1 = f y ++ k2 → x = y ∧ k1 = k2) →
  (∀ x k, P x → head (f x ++ k) ≠ Some Byte.x5d) →
  Forall P xs → Forall P ys →
  json_array (f <$> xs) ++ r1 = json_array (f <$> ys) ++ r2 → xs = ys ∧ r1 = r2.
Proof.
  intros Hf Hh. unfold json_array. rewrite <-!app_assoc. intros Hxs Hys E. injection E as E.
  assert (∀ xs ys, Forall P xs → Forall P ys →
    concat ((λ x, comma :: x) <$> (f <$> xs)) ++ [Byte.x5d] ++ r1 =
    concat ((λ x, comma :: x) <$> (f <$> ys)) ++ [Byte.x5d] ++ r2 → xs = ys ∧ r1 = r2) as HT.
  { clear E Hxs Hys xs ys. induction xs as [|x xs IH]; intros [|y ys] Hx Hy E; simpl in E;
      try discriminate E; [by injection E|]. apply Forall_cons in Hx as [Hx Hxs], Hy as [Hy Hys].
    rewrite <-!app_assoc in E. injection E as E. apply Hf in E as [-> E]; [|done..].
    destruct (IH ys) as [-> ?]; auto. }
  destruct xs as [|x xs], ys as [|y ys]; simpl in E.
  - split; [done|]. by injection E.
  - exfalso. apply Forall_cons in Hys as [Hy _]. rewrite <-app_assoc in E.
    eapply (Hh y _ Hy). by rewrite <-E.
  - exfalso. apply Forall_cons in Hxs as [Hx _]. rewrite <-app_assoc in E.
    eapply (Hh x _ Hx). by rewrite E.
  - apply Forall_cons in Hxs as [Hx Hxs], Hys as [Hy Hys]. rewrite <-!app_assoc in E.
    apply Hf in E as [-> E]; [|done..]. destruct (HT xs ys) as [-> ?]; auto.
Qed.

(** Two documents with the same beginning: what follows it is the same. *)
Ltac json_skip E := rewrite <-?app_assoc in E; repeat apply app_inv_head in E.
