(* ===== verification/Leaf.v ===== *)
(** Registry leaves: [src/registry/leaf.go].

    [Leaf], its binary serialization [Marshal] and its inverse [UnmarshalLeaf],
    and the salted payload hash [HashPayload]. The theorems show that the fixed
    layout is a bijection between well-formed leaves and the byte strings
    [UnmarshalLeaf] accepts, so that a leaf has exactly one encoding. *)
From S2P Require Import Prelude.

(** Kinds of leaf (the [kind] octet). *)
Definition KindDecision : byte := Byte.x01.
Definition KindTelemetry : byte := Byte.x02.
Definition KindBackpressure : byte := Byte.x03.
Definition KindAnchor : byte := Byte.x04.
Definition KindRetentionPurge : byte := Byte.x05.
Definition KindTelemetryAlert : byte := Byte.x06.
Definition KindEpoch : byte := Byte.x07.
Definition KindQuorum : byte := Byte.x08.
Definition KindPromotion : byte := Byte.x09.
Definition KindContract : byte := Byte.x0a.
Definition KindManifest : byte := Byte.x0b.
Definition KindSupervision : byte := Byte.x0c.

Definition known_kinds : list byte :=
  [KindDecision; KindTelemetry; KindBackpressure; KindAnchor; KindRetentionPurge;
   KindTelemetryAlert; KindEpoch; KindQuorum; KindPromotion; KindContract;
   KindManifest; KindSupervision].

Definition leafVersion : byte := Byte.x01.
Definition maxCellIDLen : nat := 255.

Record Leaf := mkLeaf {
  Kind : byte;
  CellID : string;
  PayloadHash : bytes;   (* [32]byte *)
  Timestamp : Z;         (* int64, nanoseconds *)
}.

#[global] Instance Leaf_eq_dec : EqDecision Leaf.
Proof. solve_decision. Defined.

Inductive leaf_error :=
  | LeafCellIDLength (n : nat)
  | LeafKindUnknown (k : byte)
  | LeafTooShort (n : nat)
  | LeafVersionUnknown (v : byte)
  | LeafCellIDEmpty
  | LeafLengthIncoherent (n idLen : nat).

(** [HashPayload]: sha256(salt ‖ payload). *)
Definition HashPayload `{Crypto} (salt payload : bytes) : bytes := sha256 (salt ++ payload).

(** [Leaf.Marshal]. *)
Definition Marshal (l : Leaf) : leaf_error + bytes :=
  if bool_decide (slen (CellID l) = 0 ∨ maxCellIDLen < slen (CellID l)) then
    inl (LeafCellIDLength (slen (CellID l)))
  else if bool_decide (Kind l ∉ known_kinds) then inl (LeafKindUnknown (Kind l))
  else inr ([leafVersion; Kind l]
            ++ be 8 (u64 (Timestamp l))
            ++ [z2b (Z.of_nat (slen (CellID l)))]
            ++ sb (CellID l)
            ++ PayloadHash l).

(** [UnmarshalLeaf]. *)
Definition UnmarshalLeaf (data : bytes) : leaf_error + Leaf :=
  if length data <? 1 + 1 + 8 + 1 + 32 then inl (LeafTooShort (length data))
  else if bool_decide (data !!! 0 ≠ leafVersion) then inl (LeafVersionUnknown (data !!! 0))
  else if bool_decide (data !!! 1 ∉ known_kinds) then inl (LeafKindUnknown (data !!! 1))
  else
    let ts := i64 (be_val (take 8 (drop 2 data))) in
    let idLen := Z.to_nat (b2z (data !!! 10)) in
    if idLen =? 0 then inl LeafCellIDEmpty
    else if negb (length data =? 1 + 1 + 8 + 1 + idLen + 32) then
      inl (LeafLengthIncoherent (length data) idLen)
    else inr {| Kind := data !!! 1;
                CellID := bs (take idLen (drop 11 data));
                PayloadHash := drop (11 + idLen) data;
                Timestamp := ts |}.

(** A leaf as the producers build it: a 32-byte digest and an [int64] timestamp. *)
Definition wf_leaf (l : Leaf) : Prop := length (PayloadHash l) = 32 ∧ in_i64 (Timestamp l).

(** ** Reading back the fixed layout *)

Lemma layout_lookup (v k c : byte) (ts8 rest : bytes) :
  length ts8 = 8 →
  let d := [v; k] ++ ts8 ++ [c] ++ rest in
  d !!! 0 = v ∧ d !!! 1 = k ∧ take 8 (drop 2 d) = ts8 ∧ d !!! 10 = c ∧ drop 11 d = rest.
Proof.
  intros H8 d. subst d. do 8 (destruct ts8 as [|? ts8]; [discriminate|]).
  by destruct ts8.
Qed.

Lemma layout_split (d : bytes) :
  11 ≤ length d →
  d = [d !!! 0; d !!! 1] ++ take 8 (drop 2 d) ++ [d !!! 10] ++ drop 11 d.
Proof.
  intros H. do 11 (destruct d as [|? d]; [simpl in H; lia|]). done.
Qed.

Lemma be8_i64 (l : bytes) : length l = 8 → be 8 (u64 (i64 (be_val l))) = l.
Proof.
  intros H8. rewrite u64_i64, u64_small.
  - by rewrite <-H8, be_be_val.
  - pose proof (be_val_range l) as Hr. by rewrite H8 in Hr.
Qed.

Lemma idLen_roundtrip (n : nat) : n ≤ maxCellIDLen → Z.to_nat (b2z (z2b (Z.of_nat n))) = n.
Proof. unfold maxCellIDLen. intros. rewrite b2z_z2b, Z.mod_small; lia. Qed.

Lemma Marshal_inv l data :
  Marshal l = inr data →
  1 ≤ slen (CellID l) ≤ maxCellIDLen ∧ Kind l ∈ known_kinds ∧
  data = [leafVersion; Kind l] ++ be 8 (u64 (Timestamp l))
         ++ [z2b (Z.of_nat (slen (CellID l)))] ++ sb (CellID l) ++ PayloadHash l.
Proof.
  unfold Marshal. intros. repeat case_bool_decide; simplify_eq. split_and!; auto; lia.
Qed.

(** [Marshal] followed by [UnmarshalLeaf] gives the leaf back. *)
Lemma unmarshal_marshal l data :
  wf_leaf l → Marshal l = inr data → UnmarshalLeaf data = inr l.
Proof.
  intros [H32 Hts] HM. apply Marshal_inv in HM as (Hlen & Hk & ->).
  set (rest := sb (CellID l) ++ PayloadHash l).
  destruct (layout_lookup leafVersion (Kind l) (z2b (Z.of_nat (slen (CellID l))))
    (be 8 (u64 (Timestamp l))) rest (length_be _ _)) as (E0 & E1 & E8 & E10 & E11).
  unfold UnmarshalLeaf. cbv zeta. rewrite E0, E1, E8, E10, E11. subst rest.
  rewrite idLen_roundtrip by lia.
  assert (length ([leafVersion; Kind l] ++ be 8 (u64 (Timestamp l)) ++
     [z2b (Z.of_nat (slen (CellID l)))] ++ sb (CellID l) ++ PayloadHash l)
     = 43 + slen (CellID l)) as -> by (len; rewrite H32; lia).
  rewrite bool_decide_false, bool_decide_false by (intros ?; done).
  replace (_ <? _) with false by (symmetry; apply Nat.ltb_ge; lia).
  replace (_ =? 0) with false by (symmetry; apply Nat.eqb_neq; lia).
  replace (_ =? _) with true by (symmetry; apply Nat.eqb_eq; lia).
  rewrite <-drop_drop, E11, take_app_exact, drop_app_exact by apply length_sb.
  rewrite bs_sb, be_val_be, Z.mod_small, i64_u64 by (apply u64_range || done).
  by destruct l.
Qed.

(** A byte string [UnmarshalLeaf] accepts is the encoding of the leaf it returns:
    no leaf has a second encoding. *)
Lemma marshal_unmarshal data l :
  UnmarshalLeaf data = inr l → Marshal l = inr data ∧ wf_leaf l.
Proof.
  unfold UnmarshalLeaf. cbv zeta.
  set (n := Z.to_nat (b2z (data !!! 10))).
  destruct (Nat.ltb_spec (length data) (1 + 1 + 8 + 1 + 32)); [done|].
  case_bool_decide as Ev; [done|]. case_bool_decide as Ek; [done|].
  destruct (Nat.eqb_spec n 0); [done|].
  destruct (Nat.eqb_spec (length data) (1 + 1 + 8 + 1 + n + 32)); [|done].
  intros [= <-]. pose proof (b2z_range (data !!! 10)) as Hr.
  assert (length (take n (drop 11 data)) = n) as Hn
    by (rewrite length_take, length_drop; lia).
  assert (length (take 8 (drop 2 data)) = 8) as H8
    by (rewrite length_take, length_drop; lia).
  assert (slen (bs (take n (drop 11 data))) = n) as Hs by (by rewrite <-length_sb, sb_bs).
  split.
  - unfold Marshal. cbn [Kind CellID PayloadHash Timestamp]. rewrite Hs.
    rewrite bool_decide_false by (unfold maxCellIDLen; lia).
    rewrite bool_decide_false by (intros Hn'; by apply Hn'). f_equal.
    rewrite (layout_split data) at 5 by lia.
    rewrite Ev.
    assert (z2b (Z.of_nat n) = data !!! 10) as -> by (subst n; rewrite Z2Nat.id, z2b_b2z; lia || done).
    rewrite sb_bs, be8_i64 by done.
    rewrite <-(take_drop n (drop 11 data)) at 2. by rewrite drop_drop.
  - split; simpl; [rewrite length_drop; lia|].
    apply i64_range.
Qed.

(** C39: leaf codec. [UnmarshalLeaf] inverts [Marshal] on the leaves producers build,
    and accepts nothing but their encodings: the layout is a bijection. *)
Theorem leaf_codec_bijective l data :
  UnmarshalLeaf data = inr l ↔ Marshal l = inr data ∧ wf_leaf l.
Proof.
  split; [apply marshal_unmarshal|]. intros [HM Hwf]. by apply unmarshal_marshal.
Qed.
