(* ===== verification/Effects.v ===== *)
(** Effects shared by the components: the registry journal and the leaf sink
    ([src/registry/record_store.go], [src/pep/journal.go]).

    What a component does outside its own state is a [trace], the chronological
    list of the effects it has performed: journal lines, leaves handed to the
    sink, alarms, session cuts. The outcome of an input/output call is decided by
    [Env], an arbitrary function of the trace so far, which includes the calls that
    failed; so every interleaving of successes and failures is covered.

    [AppendLeaf] is the single write path of every producer of leaves: the plain
    record is journalled first, the leaf appended second. *)
From S2P Require Import Prelude.
From S2P Require Import Leaf.

Inductive event :=
  | EvJournal (l : Leaf) (salt record : bytes)   (* journal line written and synced *)
  | EvJournalFailed (l : Leaf)                   (* write or sync of the line failed *)
  | EvLeaf (l : Leaf)                            (* sink.Append returned nil *)
  | EvLeafFailed (l : Leaf)                      (* sink.Append returned an error *)
  | EvAlarm (reason : string)                    (* OnTrip / OnAlarm callback *)
  | EvCut (jti : bytes) (reason : string)        (* OnCut callback *)
  | EvTrigger (cell : string) (at_ : Z) (ok : bool)  (* FailoverTrigger call *)
  | EvDribble (dst : bytes) (window score signals sum24 sum7 : Z)  (* OnAlert callback of the detector *)
  | EvDatagram (msg : bytes) (ok : bool).        (* datagram given to the collector's socket *)

Abbreviation trace := (list event).

(** The input/output the sources call through interfaces: the leaf sink
    ([LeafSink.Append]) and the journal file. *)
Class Env := {
  sink_accepts : trace → Leaf → bool;
  journal_accepts : trace → Leaf → bool;
}.

Inductive append_error :=
  | ErrJournalSalt                        (* sel < 16 octets *)
  | ErrJournalTimestamp                   (* horodatage nul *)
  | ErrRecordHashMismatch
  | ErrJournalMarshal (e : leaf_error)
  | ErrJournalIO
  | ErrSink.

Definition minSaltLen : nat := 16.

(** [RecordStore.Put]: the checks, then the encrypted line and its sync. *)
Definition Put `{Crypto, Env} (leaf : Leaf) (salt record : bytes) (t : trace) :
    option append_error * trace :=
  if length salt <? minSaltLen then (Some ErrJournalSalt, t)
  else if (Timestamp leaf =? 0)%Z then (Some ErrJournalTimestamp, t)
  else if bool_decide (HashPayload salt record ≠ PayloadHash leaf) then
    (Some ErrRecordHashMismatch, t)
  else match Marshal leaf with
       | inl e => (Some (ErrJournalMarshal e), t)
       | inr _ =>
           if journal_accepts t leaf then (None, t ++ [EvJournal leaf salt record])
           else (Some ErrJournalIO, t ++ [EvJournalFailed leaf])
       end.

(** [LeafSink.Append], as its callers use it: the index it returns is dropped. *)
Definition sink_Append `{Env} (leaf : Leaf) (t : trace) : option append_error * trace :=
  if sink_accepts t leaf then (None, t ++ [EvLeaf leaf])
  else (Some ErrSink, t ++ [EvLeafFailed leaf]).

(** [AppendSealed]: journal first; a refused journal appends no leaf. *)
Definition AppendSealed `{Crypto, Env} (kind : byte) (cellID : string) (salt record : bytes)
    (ts : Z) (t : trace) : option append_error * trace :=
  let leaf := mkLeaf kind cellID (HashPayload salt record) ts in
  match Put leaf salt record t with
  | (Some e, t1) => (Some e, t1)
  | (None, t1) => sink_Append leaf t1
  end.

(** [AppendLeaf] (registry) and [appendLeaf] (pep), which only forwards to it.
    [journal] says whether the optional journal is configured. *)
Definition AppendLeaf `{Crypto, Env} (journal : bool) (kind : byte) (cellID : string)
    (salt record : bytes) (ts : Z) (t : trace) : option append_error * trace :=
  if journal then AppendSealed kind cellID salt record ts t
  else sink_Append (mkLeaf kind cellID (HashPayload salt record) ts) t.

(** The fields every leaf producer of the PEP carries ([cellID], [salt], [leaves],
    [journal]); the constructors refuse a nil sink and a salt under 16 bytes. *)
Record Producer := mkProducer {
  p_cellID : string;
  p_salt : bytes;
  p_journal : bool;
}.

Definition appendLeaf `{Crypto, Env} (p : Producer) (kind : byte) (record : bytes) (ts : Z)
    (t : trace) : option append_error * trace :=
  AppendLeaf (p_journal p) kind (p_cellID p) (p_salt p) record ts t.

(** The alarm raised when a leaf cannot be written (pep/opa_client.go). *)
Definition ReasonLeafWriteFailed : string := "leaf-write-failed".

(** A callback that may be nil. *)
Definition call_alarm (plugged : bool) (reason : string) (t : trace) : trace :=
  if plugged then t ++ [EvAlarm reason] else t.

(** ** Observations on a trace *)

Definition leaves_of (t : trace) : list Leaf :=
  omap (λ e, match e with EvLeaf l => Some l | _ => None end) t.
Definition alarms_of (t : trace) : list string :=
  omap (λ e, match e with EvAlarm r => Some r | _ => None end) t.
Definition cuts_of (t : trace) : list (bytes * string) :=
  omap (λ e, match e with EvCut j r => Some (j, r) | _ => None end) t.

Lemma leaves_of_app t u : leaves_of (t ++ u) = leaves_of t ++ leaves_of u.
Proof. apply omap_app. Qed.
Lemma alarms_of_app t u : alarms_of (t ++ u) = alarms_of t ++ alarms_of u.
Proof. apply omap_app. Qed.
Lemma cuts_of_app t u : cuts_of (t ++ u) = cuts_of t ++ cuts_of u.
Proof. apply omap_app. Qed.

(** The leaf a producer writes for a record. *)
Definition leaf_for `{Crypto} (p : Producer) (kind : byte) (record : bytes) (ts : Z) : Leaf :=
  mkLeaf kind (p_cellID p) (HashPayload (p_salt p) record) ts.

(** What one leaf write adds to the trace. *)
Definition write_events `{Crypto} (p : Producer) kind record ts
    (r : option append_error) (d : trace) : Prop :=
  let l := leaf_for p kind record ts in
  match r with
  | None => d = (if p_journal p then [EvJournal l (p_salt p) record] else []) ++ [EvLeaf l]
  | Some _ => leaves_of d = []
  end ∧ alarms_of d = [] ∧ cuts_of d = [].

Section with_env.
Context `{Crypto, Env}.

(** A leaf write succeeds with exactly its journal line and its leaf, or fails with
    no leaf; it never raises an alarm nor cuts a session by itself. *)
Lemma appendLeaf_spec p kind record ts t :
  ∃ d, (appendLeaf p kind record ts t).2 = t ++ d ∧
       write_events p kind record ts (appendLeaf p kind record ts t).1 d.
Proof.
  unfold appendLeaf, AppendLeaf, AppendSealed, Put, sink_Append, write_events, leaf_for.
  destruct (p_journal p).
  - repeat case_match; simplify_eq/=; eexists;
      first [split; [by rewrite <-?app_assoc|done]
            |split; [symmetry; apply app_nil_r|done]].
  - repeat case_match; simplify_eq/=; eexists; (split; [reflexivity|done]).
Qed.

(** The same, as observed: one leaf exactly when the write succeeds, no alarm, no cut. *)
Lemma appendLeaf_observed p kind record ts t :
  let '(r, t') := appendLeaf p kind record ts t in
  leaves_of t' = leaves_of t ++
    match r with None => [leaf_for p kind record ts] | Some _ => [] end ∧
  alarms_of t' = alarms_of t ∧ cuts_of t' = cuts_of t.
Proof.
  destruct (appendLeaf_spec p kind record ts t) as (d & Et & W & WA & WC).
  destruct (appendLeaf p kind record ts t) as [[e|] t']; simpl in *; subst t';
    rewrite leaves_of_app, alarms_of_app, cuts_of_app, WA, WC, ?app_nil_r; rewrite W.
  - by rewrite app_nil_r.
  - split; [|done]. f_equal. by destruct (p_journal p).
Qed.

Lemma appendLeaf_prefix p kind record ts t : t `prefix_of` (appendLeaf p kind record ts t).2.
Proof. destruct (appendLeaf_spec p kind record ts t) as (d & -> & _). by exists d. Qed.

(** The pattern of the producers whose state change does not wait for its leaf: a leaf
    that cannot be written becomes an alarm. *)
Definition leafOrAlarm (p : Producer) (plugged : bool) (kind : byte) (record : bytes) (ts : Z)
    (t : trace) : trace :=
  match appendLeaf p kind record ts t with
  | (Some _, t1) => call_alarm plugged ReasonLeafWriteFailed t1
  | (None, t1) => t1
  end.

(** The leaf, or the alarm that replaces it; never a cut. *)
Definition leaf_or_alarm (p : Producer) (plugged : bool) (kind : byte) (record : bytes) (ts : Z)
    (d : trace) : Prop :=
  (leaves_of d = [leaf_for p kind record ts] ∧ alarms_of d = []) ∨
  (leaves_of d = [] ∧ alarms_of d = if plugged then [ReasonLeafWriteFailed] else []).

Lemma leafOrAlarm_trace p plugged kind record ts t :
  ∃ d, leafOrAlarm p plugged kind record ts t = t ++ d ∧ cuts_of d = [] ∧
    leaf_or_alarm p plugged kind record ts d.
Proof.
  unfold leafOrAlarm, leaf_or_alarm. destruct (appendLeaf_spec p kind record ts t) as (d & E & W).
  destruct (appendLeaf _ _ _ _ t) as [[e|] t1]; simpl in *; subst t1; unfold write_events in W;
    destruct W as (HL & HA & HC).
  - unfold call_alarm. destruct plugged; [exists (d ++ [EvAlarm ReasonLeafWriteFailed])|by exists d; auto].
    rewrite cuts_of_app, leaves_of_app, alarms_of_app, HL, HA, HC, app_assoc. auto.
  - exists d. split_and!; [done..|]. left. split; [|done]. rewrite HL. by destruct (p_journal p).
Qed.

(** Every leaf of the trace is preceded by the journal line of the record it commits
    to. *)
Definition journalled (t : trace) : Prop :=
  ∀ i l, t !! i = Some (EvLeaf l) →
    ∃ j salt record, j < i ∧ t !! j = Some (EvJournal l salt record) ∧
                     PayloadHash l = HashPayload salt record.

Lemma journalled_app_other t e :
  journalled t → (∀ l, e ≠ EvLeaf l) → journalled (t ++ [e]).
Proof.
  intros Ht Hne i l Hi. apply lookup_app_Some in Hi as [Hi|[Hge Hi]].
  - destruct (Ht i l Hi) as (j & s & r & Hj & Hl & Hh). exists j, s, r.
    split_and!; auto. by apply lookup_app_l_Some.
  - apply list_lookup_singleton_Some in Hi as [_ ->]. by destruct (Hne l).
Qed.

Lemma journalled_app_pair t l salt record :
  journalled t → PayloadHash l = HashPayload salt record →
  journalled (t ++ [EvJournal l salt record; EvLeaf l]).
Proof.
  intros Ht Hh i l' Hi.
  change [EvJournal l salt record; EvLeaf l] with ([EvJournal l salt record] ++ [EvLeaf l]) in *.
  rewrite app_assoc in *. apply lookup_app_Some in Hi as [Hi|[Hge Hi]].
  - destruct (journalled_app_other t (EvJournal l salt record) Ht ltac:(done) i l' Hi)
      as (j & s & r & Hj & Hl & Hh'). exists j, s, r. split_and!; auto. by apply lookup_app_l_Some.
  - apply list_lookup_singleton_Some in Hi as [Hi0 [= <-]].
    exists (length t), salt, record. rewrite length_app in *. simpl in *.
    split_and!; [lia| |done].
    rewrite lookup_app_l by (rewrite length_app; simpl; lia).
    by rewrite lookup_app_r, Nat.sub_diag by lia.
Qed.

(** No leaf without its record. A producer whose journal is configured keeps the
    trace journalled: whatever the sink and the journal answer, every leaf it appends
    comes after the journal line of the record the leaf commits to. *)
Theorem appendLeaf_journalled p kind record ts t :
  p_journal p = true → journalled t → journalled (appendLeaf p kind record ts t).2.
Proof.
  intros Hj Ht. unfold appendLeaf, AppendLeaf, AppendSealed, Put, sink_Append. rewrite Hj.
  repeat case_match; simplify_eq/=; auto using journalled_app_other.
  rewrite <-app_assoc. by apply journalled_app_pair.
Qed.
End with_env.

(** ** Environments of the examples *)

(** Every write succeeds. *)
Definition demo_env : Env := {| sink_accepts _ _ := true; journal_accepts _ _ := true |}.

(** The writes of leaves to the sink whose numbers are listed fail; a write is numbered by
    the attempts before it. *)
Definition sink_attempts (t : trace) : nat :=
  length (omap (λ e, match e with EvLeaf l | EvLeafFailed l => Some l | _ => None end) t).
Definition faulty_env (failures : list nat) : Env := {|
  sink_accepts t _ := negb (bool_decide (sink_attempts t ∈ failures));
  journal_accepts _ _ := true |}.
