(* ===== verification/Sha256.v ===== *)
(** SHA-256 (FIPS 180-4), the function behind [crypto/sha256.Sum256].

    The components are stated against the interface [Crypto] of the prelude. This file
    gives the digest the sources compute, so that every concrete example of the development
    runs on real digests, and the instance [demo_crypto] the examples use. Words are
    integers modulo 2^32. *)
From S2P Require Import Prelude.

Open Scope Z_scope.

Definition w32 (z : Z) : Z := Z.land z 0xffffffff.
Definition rotr (n x : Z) : Z := Z.lor (Z.shiftr x n) (w32 (Z.shiftl x (32 - n))).
Definition Ch (x y z : Z) : Z := Z.lxor (Z.land x y) (Z.land (Z.lxor x 0xffffffff) z).
Definition Maj (x y z : Z) : Z := Z.lxor (Z.lxor (Z.land x y) (Z.land x z)) (Z.land y z).
Definition Sigma0 (x : Z) : Z := Z.lxor (Z.lxor (rotr 2 x) (rotr 13 x)) (rotr 22 x).
Definition Sigma1 (x : Z) : Z := Z.lxor (Z.lxor (rotr 6 x) (rotr 11 x)) (rotr 25 x).
Definition sigma0 (x : Z) : Z := Z.lxor (Z.lxor (rotr 7 x) (rotr 18 x)) (Z.shiftr x 3).
Definition sigma1 (x : Z) : Z := Z.lxor (Z.lxor (rotr 17 x) (rotr 19 x)) (Z.shiftr x 10).

(** The constants are the first 32 bits of the fractional parts of the cube roots of the
    first 64 primes, and of the square roots of the first 8, computed here from that
    definition. *)
Definition is_prime (n : Z) : bool :=
  (2 <=? n) && forallb (λ d, negb (n mod Z.of_nat d =? 0)) (seq 2 (Z.to_nat (n - 2))).

Definition primes : list Z := filter (λ n, is_prime n = true) (Z.of_nat <$> seq 0 312).

(** The integer cube root of [n], whose bits from [b - 1] down are still unknown. *)
Fixpoint cbrt_bits (b : nat) (acc n : Z) : Z :=
  match b with
  | O => acc
  | S b' =>
      let r := acc + Z.shiftl 1 (Z.of_nat b') in
      cbrt_bits b' (if r * r * r <=? n then r else acc) n
  end.

Definition K256 : list Z :=
  Eval vm_compute in (λ p, w32 (cbrt_bits 36 0 (Z.shiftl p 96))) <$> primes.

Definition H256 : list Z :=
  Eval vm_compute in (λ p, w32 (Z.sqrt (Z.shiftl p 64))) <$> take 8 primes.

(** The message followed by 0x80, zeros, and its bit length on 64 bits. *)
Definition pad (m : bytes) : bytes :=
  let n := Z.of_nat (length m) in
  m ++ [Byte.x80] ++ replicate (Z.to_nat ((55 - n) mod 64)) Byte.x00 ++ be 8 (8 * n).

(** The big-endian words of a block. *)
Fixpoint words (b : bytes) : list Z :=
  match b with
  | b0 :: b1 :: b2 :: b3 :: b' => be_val [b0; b1; b2; b3] :: words b'
  | _ => []
  end.

(** The message schedule, latest word first. *)
Fixpoint schedule (n : nat) (w : list Z) : list Z :=
  match n with
  | O => w
  | S n' =>
      schedule n'
        (w32 (sigma1 (nth 1 w 0) + nth 6 w 0 + sigma0 (nth 14 w 0) + nth 15 w 0) :: w)
  end.

Definition round (st : list Z) (kw : Z * Z) : list Z :=
  match st with
  | [a; b; c; d; e; f; g; h] =>
      let t1 := h + Sigma1 e + Ch e f g + kw.1 + kw.2 in
      let t2 := Sigma0 a + Maj a b c in
      [w32 (t1 + t2); a; b; c; w32 (d + t1); e; f; g]
  | _ => st
  end.

Definition compress (hs : list Z) (block : bytes) : list Z :=
  let w := rev (schedule 48 (rev (words block))) in
  zip_with (λ x y, w32 (x + y)) hs (foldl round hs (zip K256 w)).

(** The blocks of a padded message; [fuel] bounds their number. *)
Fixpoint blocks (fuel : nat) (m : bytes) : list bytes :=
  match fuel with
  | O => []
  | S fuel' => match m with [] => [] | _ => take 64 m :: blocks fuel' (drop 64 m) end
  end.

Definition sha256_words (m : bytes) : list Z :=
  let p := pad m in foldl compress H256 (blocks (length p) p).

Definition Sum256 (m : bytes) : bytes := concat (be 4 <$> sha256_words m).

(** ** The digest has 32 bytes *)

Lemma length_round st kw : length st = 8%nat → length (round st kw) = 8%nat.
Proof. do 9 (destruct st as [|? st]; try done). Qed.

Lemma length_rounds kws st : length st = 8%nat → length (foldl round st kws) = 8%nat.
Proof.
  revert st. induction kws as [|kw kws IH]; intros st H; [done|]. simpl. by apply IH, length_round.
Qed.

Lemma length_compress hs b : length hs = 8%nat → length (compress hs b) = 8%nat.
Proof.
  intros H. unfold compress. rewrite length_zip_with, length_rounds by done. rewrite H. done.
Qed.

Lemma length_sha256_words m : length (sha256_words m) = 8%nat.
Proof.
  unfold sha256_words. generalize (blocks (length (pad m)) (pad m)). intros l.
  assert (length H256 = 8%nat) as H by done. revert H. generalize H256.
  induction l as [|b l IH]; intros hs H; [done|]. simpl. by apply IH, length_compress.
Qed.

Lemma length_words_bytes ws : length (concat (be 4 <$> ws)) = (4 * length ws)%nat.
Proof.
  induction ws as [|w ws IH]; [done|].
  change (concat (be 4 <$> w :: ws)) with (be 4 w ++ concat (be 4 <$> ws)).
  rewrite length_app, length_be, IH. simpl. lia.
Qed.

Lemma length_Sum256 m : length (Sum256 m) = 32%nat.
Proof. unfold Sum256. by rewrite length_words_bytes, length_sha256_words. Qed.

(** ** Test vectors of FIPS 180-4 *)

Example sha256_empty :
  be_val (Sum256 []) = 0xe3b0c44298fc1c149afbf4c8996fb92427ae41e4649b934ca495991b7852b855.
Proof. vm_compute. reflexivity. Qed.

Example sha256_abc :
  be_val (Sum256 (sb "abc")) = 0xba7816bf8f01cfea414140de5dae2223b00361a396177a9cb410ff61f20015ad.
Proof. vm_compute. reflexivity. Qed.

Example sha256_two_blocks :
  be_val (Sum256 (sb "abcdbcdecdefdefgefghfghighijhijkijkljklmklmnlmnomnopnopq")) =
    0x248d6a61d20638b8e5c026930c3e6039a33ce45964ff2167f6ecedd419db06c1.
Proof. vm_compute. reflexivity. Qed.

Close Scope Z_scope.

(** ** The instance of the examples *)

(** A stand-in for Ed25519, enough to run the sources on concrete inputs: the signature of a
    message under a key is the digest of both, padded to 64 bytes. *)
Definition demo_sign (pub msg : bytes) : bytes := Sum256 (pub ++ msg) ++ replicate 32 Byte.x00.

Definition demo_crypto : Crypto := {|
  sha256 := Sum256;
  ed25519_verify pub msg sig := bool_decide (sig = demo_sign pub msg);
|}.

Lemma demo_crypto_laws : @CryptoLaws demo_crypto.
Proof. exact length_Sum256. Qed.
