(* ===== verification/AntiReplay.v ===== *)
(** The bounded anti-replay cache: [src/pep/antireplay.go].

    The cache is a ring of fixed capacity and a membership set. [ar_contents] reads the
    occupied slots in insertion order; [Spec] states the cache as a bounded queue, and
    the operations of the ring refine it. The guarantee the validator relies on, that
    a consumed [jti] is refused as long as its token can still be fresh, is proved on
    that queue for every later sequence of calls. *)
From S2P Require Import Prelude.
From S2P Require Import Leaf.
From S2P Require Import Effects.

Definition TripReasonJTISaturated : string := "jti-cache-saturated".

Record replayEntry := mkEntry {
  e_jti : bytes;    (* [16]byte *)
  e_exp : Z;        (* int64, Unix seconds *)
  e_live : bool;
}.

(** The zero value [replayEntry{}]. *)
Definition zeroEntry : replayEntry := mkEntry (replicate 16 Byte.x00) 0 false.
#[global] Instance replayEntry_inhabited : Inhabited replayEntry := populate zeroEntry.

Record AntiReplay := mkAntiReplay {
  ar_ring : list replayEntry;
  ar_head : nat;
  ar_count : nat;
  ar_set : gset bytes;      (* the field [set] *)
  ar_tripped : bool;
  ar_onTrip : bool;          (* whether the callback is plugged *)
}.

(** [NewAntiReplay]: a capacity that is not positive is refused. *)
Definition NewAntiReplay (capacity : Z) (ar_onTrip : bool) : option AntiReplay :=
  if (capacity <=? 0)%Z then None
  else Some (mkAntiReplay (replicate (Z.to_nat capacity) zeroEntry) 0 0 ∅ false ar_onTrip).

Definition ar_Capacity (c : AntiReplay) : nat := length (ar_ring c).
Definition ar_Len (c : AntiReplay) : nat := ar_count c.

(** One turn of the loop of [purgeHead]: drop the entry at the head. *)
Definition purgeHead_turn (c : AntiReplay) : AntiReplay :=
  mkAntiReplay (<[ar_head c := zeroEntry]> (ar_ring c))
    ((ar_head c + 1) `mod` length (ar_ring c)) (ar_count c - 1)
    (ar_set c ∖ {[ e_jti (ar_ring c !!! ar_head c) ]}) (ar_tripped c) (ar_onTrip c).

Definition purgeHead_guard (now : Z) (c : AntiReplay) : bool :=
  (0 <? ar_count c) && (e_exp (ar_ring c !!! ar_head c) <? now)%Z.

Fixpoint purgeHead_loop (fuel : nat) (now : Z) (c : AntiReplay) : AntiReplay :=
  match fuel with
  | O => c
  | S fuel' =>
      if purgeHead_guard now c then purgeHead_loop fuel' now (purgeHead_turn c) else c
  end.

(** [purgeHead]: each turn decrements [count], so [count] turns are enough
    ([purgeHead_done]). *)
Definition purgeHead (now : Z) (c : AntiReplay) : AntiReplay :=
  purgeHead_loop (ar_count c) now c.

(** The loop of [purgeAll] over the occupied slots. *)
Definition purgeAll_scan (now : Z) (c : AntiReplay) : list replayEntry * gset bytes :=
  foldl (λ '(kept, s) i,
      let e := ar_ring c !!! ((ar_head c + i) `mod` length (ar_ring c)) in
      if (now <=? e_exp e)%Z then (kept ++ [e], s) else (kept, s ∖ {[ e_jti e ]}))
    ([], ar_set c) (seq 0 (ar_count c)).

(** [purgeAll]: the ring is cleared, then [copy(c.ring, kept)]. *)
Definition purgeAll (now : Z) (c : AntiReplay) : AntiReplay :=
  if ar_count c =? 0 then c
  else
    let n := length (ar_ring c) in
    let '(kept, s) := purgeAll_scan now c in
    mkAntiReplay (take n kept ++ drop (length kept) (replicate n zeroEntry))
      0 (length kept) s (ar_tripped c) (ar_onTrip c).

(** [trip]: latched, the alarm is raised once. *)
Definition ar_trip (c : AntiReplay) (t : trace) : AntiReplay * trace :=
  if ar_tripped c then (c, t)
  else (mkAntiReplay (ar_ring c) (ar_head c) (ar_count c) (ar_set c) true (ar_onTrip c),
        call_alarm (ar_onTrip c) TripReasonJTISaturated t).

(** The end of [CheckAndConsume]: the slot after the last occupied one. *)
Definition insert_slot (jti : bytes) (expUnix : Z) (c : AntiReplay) : AntiReplay :=
  let slot := (ar_head c + ar_count c) `mod` length (ar_ring c) in
  mkAntiReplay (<[slot := mkEntry jti expUnix true]> (ar_ring c)) (ar_head c) (ar_count c + 1)
    ({[ jti ]} ∪ ar_set c) (ar_tripped c) (ar_onTrip c).

(** [CheckAndConsume jti exp] at clock reading [now] (both [time.Time]). *)
Definition CheckAndConsume (now : Z) (jti : bytes) (exp : Z) (c : AntiReplay) (t : trace) :
    bool * AntiReplay * trace :=
  let nowU := Unix now in
  let expUnix := Unix exp in
  let c1 := purgeHead nowU c in
  if bool_decide (jti ∈ ar_set c1) then (false, c1, t)
  else if ar_count c1 =? length (ar_ring c1) then
    let c2 := purgeAll nowU c1 in
    if ar_count c2 =? length (ar_ring c2) then
      let '(c3, t3) := ar_trip c2 t in (false, c3, t3)
    else (true, insert_slot jti expUnix c2, t)
  else (true, insert_slot jti expUnix c1, t).

(** ** The abstract queue *)

(** The occupied slots, oldest first. *)
Definition ar_contents (c : AntiReplay) : list replayEntry :=
  (λ i, ar_ring c !!! ((ar_head c + i) `mod` length (ar_ring c))) <$> seq 0 (ar_count c).

Definition ar_wf (c : AntiReplay) : Prop :=
  0 < length (ar_ring c) ∧ ar_head c < length (ar_ring c) ∧ ar_count c ≤ length (ar_ring c) ∧
  NoDup (e_jti <$> ar_contents c) ∧ ar_set c = list_to_set (e_jti <$> ar_contents c).

Module Spec.
(** The cache as a queue of consumed entries bounded by [cap]. *)

Fixpoint drop_expired (now : Z) (q : list replayEntry) : list replayEntry :=
  match q with
  | e :: q' => if (e_exp e <? now)%Z then drop_expired now q' else q
  | [] => []
  end.

Definition keep_fresh (now : Z) (q : list replayEntry) : list replayEntry :=
  filter (λ e, (now ≤ e_exp e)%Z) q.

Inductive verdict := Accepted | Replayed | Saturated.

Definition consume (cap : nat) (now : Z) (jti : bytes) (exp : Z) (q : list replayEntry) :
    verdict * list replayEntry :=
  let q1 := drop_expired now q in
  if bool_decide (jti ∈ e_jti <$> q1) then (Replayed, q1)
  else
    let q2 := if length q1 =? cap then keep_fresh now q1 else q1 in
    if length q2 =? cap then (Saturated, q2)
    else (Accepted, q2 ++ [mkEntry jti exp true]).
End Spec.

(** ** The ring refines the queue *)

Lemma wrap_add h j n :
  h < n → j < n → (h + j) `mod` n = if h + j <? n then h + j else h + j - n.
Proof.
  intros. destruct (Nat.ltb_spec (h + j) n).
  - by apply Nat.mod_small.
  - replace (h + j) with (h + j - n + 1 * n) at 1 by lia.
    rewrite Nat.Div0.mod_add. apply Nat.mod_small. lia.
Qed.

Lemma length_contents c : length (ar_contents c) = ar_count c.
Proof. unfold ar_contents. by rewrite length_fmap, length_seq. Qed.

(** Reading the ring past an updated slot. *)
Lemma contents_turn c :
  0 < ar_count c → ar_head c < length (ar_ring c) → ar_count c ≤ length (ar_ring c) →
  ar_contents c = (ar_ring c !!! ar_head c) :: ar_contents (purgeHead_turn c).
Proof.
  intros Hc Hh Hn. unfold ar_contents at 1. destruct (ar_count c) as [|k] eqn:Ek; [lia|].
  simpl. rewrite Nat.add_0_r, Nat.mod_small by done. f_equal.
  unfold ar_contents, purgeHead_turn; simpl. rewrite Ek, Nat.sub_1_r, length_insert. simpl.
  rewrite <-fmap_S_seq, <-list_fmap_compose. apply list_fmap_ext. intros i x Hx.
  apply lookup_seq in Hx as [-> Hi]. simpl. rewrite Nat.Div0.add_mod_idemp_l.
  replace (ar_head c + S i) with (ar_head c + (1 + i)) by lia.
  rewrite Nat.add_assoc, <-(Nat.add_assoc _ 1 i).
  rewrite list_lookup_total_insert_ne; [done|].
  rewrite wrap_add by lia. case_match; [lia|].
  match goal with H : (_ <? _) = false |- _ => apply Nat.ltb_ge in H end. lia.
Qed.

Lemma contents_insert_slot jti exp c :
  ar_head c < length (ar_ring c) → ar_count c < length (ar_ring c) →
  ar_contents (insert_slot jti exp c) = ar_contents c ++ [mkEntry jti exp true].
Proof.
  intros Hh Hc. unfold ar_contents, insert_slot; simpl. rewrite length_insert.
  rewrite Nat.add_1_r, seq_S, fmap_app. simpl. f_equal.
  - apply list_fmap_ext. intros i x Hx. apply lookup_seq in Hx as [-> Hi].
    rewrite list_lookup_total_insert_ne; [done|]. simpl. rewrite !wrap_add by lia.
    repeat case_match; rewrite ?Nat.ltb_ge, ?Nat.ltb_lt in *; lia.
  - f_equal. rewrite list_lookup_total_insert_eq; [done|]. apply Nat.mod_upper_bound. lia.
Qed.

Lemma turn_wf c : ar_wf c → 0 < ar_count c → ar_wf (purgeHead_turn c).
Proof.
  intros (Hn & Hh & Hc & Hnd & Hs) H0. pose proof (contents_turn c H0 Hh Hc) as E.
  rewrite E in Hnd, Hs. apply NoDup_cons in Hnd as [Hni Hnd].
  split_and!; simpl; rewrite ?length_insert; try done; try lia.
  - apply Nat.mod_upper_bound. lia.
  - rewrite Hs. set_solver.
Qed.

Lemma purgeHead_loop_spec fuel now c :
  ar_wf c → ar_count c ≤ fuel →
  let c' := purgeHead_loop fuel now c in
  ar_wf c' ∧ ar_contents c' = Spec.drop_expired now (ar_contents c) ∧
  length (ar_ring c') = length (ar_ring c) ∧ purgeHead_guard now c' = false ∧
  ar_tripped c' = ar_tripped c ∧ ar_onTrip c' = ar_onTrip c.
Proof.
  revert c. induction fuel as [|fuel IH]; intros c Hwf Hf; simpl.
  - assert (ar_contents c = []) as -> by (apply nil_length_inv; rewrite length_contents; lia).
    split_and!; auto. unfold purgeHead_guard. destruct (ar_count c); [done|lia].
  - destruct (purgeHead_guard now c) eqn:G.
    + apply andb_prop in G as [G1%Nat.ltb_lt G2]. destruct Hwf as (Hn & Hh & Hc & Hr).
      pose proof (contents_turn c G1 Hh Hc) as E.
      destruct (IH (purgeHead_turn c)) as (W & C & L & G & T & O);
        [by apply turn_wf|simpl; lia|].
      rewrite E; simpl. rewrite G2. split_and!; auto.
      by rewrite L; simpl; rewrite length_insert.
    + split_and!; auto. unfold purgeHead_guard in G.
      destruct (ar_contents c) as [|e q] eqn:E; [done|]. simpl.
      destruct Hwf as (Hn & Hh & Hc & _).
      assert (0 < ar_count c) as H0 by (rewrite <-length_contents, E; simpl; lia).
      rewrite (contents_turn c) in E by done. injection E as <- _.
      destruct (Nat.ltb_spec 0 (ar_count c)); [|lia]. simpl in G. by rewrite G.
Qed.

(** The fuel given to [purgeHead] lets its loop run to the end. *)
Lemma purgeHead_done now c : ar_wf c → purgeHead_guard now (purgeHead now c) = false.
Proof. intros. by apply (purgeHead_loop_spec (ar_count c)). Qed.

Lemma purgeAll_scan_spec now c :
  purgeAll_scan now c =
    (Spec.keep_fresh now (ar_contents c),
     ar_set c ∖ list_to_set (e_jti <$> filter (λ e, ¬ (now ≤ e_exp e)%Z) (ar_contents c))).
Proof.
  unfold purgeAll_scan, ar_contents, Spec.keep_fresh.
  set (f := λ i, ar_ring c !!! ((ar_head c + i) `mod` length (ar_ring c))).
  induction (seq 0 (ar_count c)) as [|i l IH] using rev_ind; [simpl; f_equal; set_solver|].
  rewrite foldl_app, IH, fmap_app, !filter_app, fmap_app, list_to_set_app_L. simpl.
  change (ar_ring c !!! _) with (f i).
  rewrite !filter_cons, !filter_nil. destruct (Z.leb_spec now (e_exp (f i))).
  - rewrite !decide_True, decide_False by (done || lia). simpl. f_equal. set_solver.
  - rewrite !decide_False, decide_True by (done || lia). simpl. rewrite app_nil_r. f_equal. set_solver.
Qed.

Lemma contents_prefix kept pad hd n s t o :
  hd = 0 → length (kept ++ pad) = n →
  ar_contents (mkAntiReplay (kept ++ pad) hd (length kept) s t o) = kept.
Proof.
  intros -> Hn. unfold ar_contents; simpl. apply list_eq. intros i.
  rewrite list_lookup_fmap. destruct (decide (i < length kept)) as [Hi|Hi].
  - rewrite lookup_seq_lt by done. simpl.
    rewrite Nat.mod_small by (rewrite length_app in *; lia).
    rewrite lookup_total_app_l by done. by rewrite <-list_lookup_lookup_total_lt.
  - rewrite lookup_seq_ge, lookup_ge_None_2 by lia. done.
Qed.

Lemma keep_fresh_jtis now q :
  NoDup (e_jti <$> q) →
  NoDup (e_jti <$> Spec.keep_fresh now q) ∧
  (list_to_set (e_jti <$> q) : gset bytes) ∖
    list_to_set (e_jti <$> filter (λ e, ¬ (now ≤ e_exp e)%Z) q) =
  list_to_set (e_jti <$> Spec.keep_fresh now q).
Proof.
  unfold Spec.keep_fresh. induction q as [|e q IH]; intros Hnd; [split; [done|set_solver]|].
  apply NoDup_cons in Hnd as [Hni Hnd]. destruct (IH Hnd) as [IH1 IH2].
  assert (∀ P `{∀ x, Decision (P x)}, e_jti e ∉ e_jti <$> filter P q) as Hnf.
  { intros P ? Hin. apply Hni. apply list_elem_of_fmap in Hin as (x & -> & Hx).
    apply list_elem_of_filter in Hx as [_ Hx]. by apply list_elem_of_fmap_2. }
  rewrite !filter_cons. destruct (decide (now ≤ e_exp e)%Z).
  - rewrite decide_False by naive_solver. split; [by apply NoDup_cons|].
    rewrite !fmap_cons, !list_to_set_cons, <-IH2. pose proof (Hnf (λ x, ¬ (now ≤ e_exp x)%Z) _). set_solver.
  - rewrite decide_True by done. split; [done|].
    rewrite !fmap_cons, !list_to_set_cons, <-IH2. set_solver.
Qed.

Lemma purgeAll_spec now c :
  ar_wf c →
  let c' := purgeAll now c in
  ar_wf c' ∧ ar_contents c' = Spec.keep_fresh now (ar_contents c) ∧
  length (ar_ring c') = length (ar_ring c) ∧
  ar_tripped c' = ar_tripped c ∧ ar_onTrip c' = ar_onTrip c.
Proof.
  intros (Hn & Hh & Hc & Hnd & Hs). unfold purgeAll.
  destruct (Nat.eqb_spec (ar_count c) 0) as [E0|].
  { assert (ar_contents c = []) as E by (apply nil_length_inv; by rewrite length_contents).
    split_and!; auto; [|by rewrite E]. split_and!; auto. }
  rewrite purgeAll_scan_spec. cbv zeta.
  pose proof (length_filter (λ e, (now ≤ e_exp e)%Z) (ar_contents c)) as Hlf.
  fold (Spec.keep_fresh now (ar_contents c)) in Hlf. rewrite length_contents in Hlf.
  set (kept := Spec.keep_fresh now (ar_contents c)) in *.
  destruct (keep_fresh_jtis now (ar_contents c) Hnd) as [Hnd' Hs']. fold kept in Hnd', Hs'.
  rewrite take_ge by lia.
  assert (length (kept ++ drop (length kept) (replicate (length (ar_ring c)) zeroEntry))
    = length (ar_ring c)) as HL by (rewrite length_app, length_drop, length_replicate; lia).
  pose proof (contents_prefix kept (drop (length kept) (replicate (length (ar_ring c)) zeroEntry))
    0 _ (list_to_set (e_jti <$> kept)) (ar_tripped c) (ar_onTrip c) eq_refl HL) as E.
  rewrite Hs, Hs'. unfold ar_wf. rewrite E. simpl. rewrite HL. split_and!; auto; lia.
Qed.

Lemma insert_slot_wf jti exp c :
  ar_wf c → ar_count c < length (ar_ring c) → jti ∉ ar_set c → ar_wf (insert_slot jti exp c).
Proof.
  intros (Hn & Hh & Hc & Hnd & Hs) Hlt Hni. unfold ar_wf.
  rewrite contents_insert_slot, fmap_app by done. simpl. rewrite length_insert.
  rewrite Hs in Hni |- *.
  split_and!; try lia.
  - apply NoDup_app. split_and!; [done| |apply NoDup_singleton].
    intros x Hx ->%list_elem_of_singleton. apply Hni. by apply elem_of_list_to_set.
  - rewrite list_to_set_app_L. set_solver.
Qed.

(** The verdict of the queue as the boolean [CheckAndConsume] returns. *)
Definition accepted (v : Spec.verdict) : bool :=
  match v with Spec.Accepted => true | _ => false end.

(** The effect of a call on the alarm latch and on the trace. *)
Definition saturation_alarm (v : Spec.verdict) (c : AntiReplay) (t : trace) : bool * trace :=
  match v with
  | Spec.Saturated =>
      (true, if ar_tripped c then t else call_alarm (ar_onTrip c) TripReasonJTISaturated t)
  | _ => (ar_tripped c, t)
  end.

Lemma CheckAndConsume_refines now jti exp c t :
  ar_wf c →
  let '(ok, c', t') := CheckAndConsume now jti exp c t in
  let '(v, q') := Spec.consume (length (ar_ring c)) (Unix now) jti (Unix exp) (ar_contents c) in
  ok = accepted v ∧ ar_contents c' = q' ∧ ar_wf c' ∧
  length (ar_ring c') = length (ar_ring c) ∧ ar_onTrip c' = ar_onTrip c ∧
  (ar_tripped c', t') = saturation_alarm v c t.
Proof.
  intros Hwf. unfold CheckAndConsume, Spec.consume.
  destruct (purgeHead_loop_spec (ar_count c) (Unix now) c Hwf (le_n _))
    as (W1 & C1 & L1 & _ & T1 & O1). fold (purgeHead (Unix now) c) in *.
  set (c1 := purgeHead (Unix now) c) in *. rewrite <-C1.
  assert (jti ∈ ar_set c1 ↔ jti ∈ e_jti <$> ar_contents c1) as Hset.
  { destruct W1 as (_ & _ & _ & _ & ->). by rewrite elem_of_list_to_set. }
  rewrite (bool_decide_ext _ _ Hset). case_bool_decide as Hin.
  { split_and!; auto. simpl. by rewrite T1. }
  rewrite length_contents, <-L1. destruct (Nat.eqb_spec (ar_count c1) (length (ar_ring c1))) as [E|E].
  - destruct (purgeAll_spec (Unix now) c1 W1) as (W2 & C2 & L2 & T2 & O2).
    set (c2 := purgeAll (Unix now) c1) in *. rewrite <-C2, length_contents, L2.
    destruct (Nat.eqb_spec (ar_count c2) (length (ar_ring c1))) as [E2|E2].
    + unfold ar_trip. rewrite T2, T1, O2, O1.
      destruct (ar_tripped c) eqn:Et; simpl; rewrite ?Et; split_and!; auto; congruence.
    + assert (ar_count c2 < length (ar_ring c2)) by (destruct W2 as (_ & _ & ? & _); lia).
      assert (jti ∉ ar_set c2).
      { destruct W2 as (_ & _ & _ & _ & ->). rewrite elem_of_list_to_set, C2.
        intros (x & -> & [_ Hx]%list_elem_of_filter)%list_elem_of_fmap.
        by apply Hin, list_elem_of_fmap_2. }
      rewrite contents_insert_slot by (done || by destruct W2 as (_ & ? & _)).
      split_and!; simpl; rewrite ?length_insert; auto using insert_slot_wf; congruence.
  - rewrite length_contents. destruct (Nat.eqb_spec (ar_count c1) (length (ar_ring c1))); [done|].
    assert (ar_count c1 < length (ar_ring c1)) by (destruct W1 as (_ & _ & ? & _); lia).
    assert (jti ∉ ar_set c1) by (by rewrite Hset).
    rewrite contents_insert_slot by (done || by destruct W1 as (_ & ? & _)).
    split_and!; simpl; rewrite ?length_insert; auto using insert_slot_wf; congruence.
Qed.

(** ** What the cache guarantees over a run *)

(** A call: the clock reading, the [jti] and its expiry. *)
Record call := mkCall { at_ : Z; call_jti : bytes; call_exp : Z }.

(** The calls of a run in order, with the answers given. *)
Fixpoint run_calls (cs : list call) (c : AntiReplay) (t : trace) : list bool * AntiReplay * trace :=
  match cs with
  | [] => ([], c, t)
  | k :: cs' =>
      let '(ok, c1, t1) := CheckAndConsume (at_ k) (call_jti k) (call_exp k) c t in
      let '(oks, c2, t2) := run_calls cs' c1 t1 in (ok :: oks, c2, t2)
  end.

Lemma drop_expired_keeps now e q :
  (now ≤ e_exp e)%Z → e ∈ q → e ∈ Spec.drop_expired now q.
Proof.
  intros Hf. induction q as [|x q IH]; [done|]. simpl.
  destruct (Z.ltb_spec (e_exp x) now); [|done].
  intros [->|Hin]%elem_of_cons; [lia|auto].
Qed.

(** A fresh entry stays in the queue whatever is consumed. *)
Lemma consume_keeps_fresh cap now jti exp e q :
  (now ≤ e_exp e)%Z → e ∈ q → e ∈ (Spec.consume cap now jti exp q).2.
Proof.
  intros Hf Hin%(drop_expired_keeps now); [|done]. unfold Spec.consume.
  case_bool_decide; [done|].
  assert (e ∈ (if length (Spec.drop_expired now q) =? cap
    then Spec.keep_fresh now (Spec.drop_expired now q) else Spec.drop_expired now q)).
  { case_match; [|done]. by apply list_elem_of_filter. }
  generalize dependent (if length (Spec.drop_expired now q) =? cap
    then Spec.keep_fresh now (Spec.drop_expired now q) else Spec.drop_expired now q).
  intros q2 Hq2. destruct (length q2 =? cap); simpl; [done|]. rewrite elem_of_app. by left.
Qed.

Lemma CheckAndConsume_step now jti exp c t :
  ar_wf c →
  let r := CheckAndConsume now jti exp c t in
  let s := Spec.consume (length (ar_ring c)) (Unix now) jti (Unix exp) (ar_contents c) in
  r.1.1 = accepted s.1 ∧ ar_contents r.1.2 = s.2 ∧ ar_wf r.1.2 ∧
  length (ar_ring r.1.2) = length (ar_ring c) ∧ ar_onTrip r.1.2 = ar_onTrip c ∧
  (ar_tripped r.1.2, r.2) = saturation_alarm s.1 c t.
Proof.
  intros Hwf. pose proof (CheckAndConsume_refines now jti exp c t Hwf) as HR.
  destruct (CheckAndConsume now jti exp c t) as [[ok c'] t'].
  by destruct (Spec.consume _ _ _ _ _) as [v q'].
Qed.

(** While an entry is fresh at every clock reading of a run, the cache holds it and
    refuses its [jti] throughout. *)
Lemma run_calls_refuses cs c t e :
  ar_wf c → e ∈ ar_contents c →
  (∀ k, k ∈ cs → (Unix (at_ k) ≤ e_exp e)%Z) →
  let '(oks, c', _) := run_calls cs c t in
  e ∈ ar_contents c' ∧ ar_wf c' ∧
  ∀ i k, cs !! i = Some k → call_jti k = e_jti e → oks !! i = Some false.
Proof.
  revert c t. induction cs as [|k cs IH]; intros c t Hwf Hin Hfr; simpl; [done|].
  pose proof (CheckAndConsume_step (at_ k) (call_jti k) (call_exp k) c t Hwf)
    as (Eok & Ec & Hwf1 & _ & _ & _).
  destruct (CheckAndConsume _ _ _ c t) as [[ok c1] t1]. simpl in *.
  pose proof (Hfr k ltac:(left)) as Hk.
  assert (e ∈ ar_contents c1) as Hin1 by (rewrite Ec; by apply consume_keeps_fresh).
  specialize (IH c1 t1 Hwf1 Hin1 ltac:(intros; apply Hfr; by right)).
  destruct (run_calls cs c1 t1) as [[oks c2] t2]. destruct IH as (I1 & I2 & I3).
  split_and!; auto. intros [|i] k' Hk' Hj; simpl in *; [|by eapply I3]. injection Hk' as <-.
  rewrite Eok. unfold Spec.consume. rewrite bool_decide_true; [done|].
  rewrite Hj. by apply list_elem_of_fmap_2, drop_expired_keeps.
Qed.

(** C8: no replay. Once a [jti] is accepted with expiry [exp], every later call for the
    same [jti] is refused as long as the clock has not gone past [exp], whatever other
    tokens are consumed in between and however full the cache is. *)
Theorem no_double_consumption now jti exp c t c1 t1 cs k i :
  ar_wf c →
  CheckAndConsume now jti exp c t = (true, c1, t1) →
  (∀ k', k' ∈ cs → (at_ k' ≤ exp)%Z) →
  cs !! i = Some k → call_jti k = jti →
  (run_calls cs c1 t1).1.1 !! i = Some false.
Proof.
  intros Hwf Hcc Hfr Hi Hj.
  pose proof (CheckAndConsume_step now jti exp c t Hwf) as (Eok & Ec & Hwf1 & _).
  rewrite Hcc in Eok, Ec, Hwf1. simpl in *.
  assert (mkEntry jti (Unix exp) true ∈ ar_contents c1) as Hin.
  { rewrite Ec. unfold Spec.consume in *. repeat case_match; simplify_eq/=.
    all: rewrite elem_of_app; right; by apply list_elem_of_singleton. }
  pose proof (run_calls_refuses cs c1 t1 _ Hwf1 Hin) as HR. simpl in HR.
  destruct (run_calls cs c1 t1) as [[oks c2] t2]. simpl.
  apply HR with (k := k); auto. intros k' Hk'. apply Unix_mono. by apply Hfr.
Qed.

(** A fresh cache is an empty queue. *)
Lemma NewAntiReplay_wf cap plugged c :
  NewAntiReplay cap plugged = Some c →
  ar_wf c ∧ ar_contents c = [] ∧ length (ar_ring c) = Z.to_nat cap ∧
  ar_tripped c = false ∧ ar_onTrip c = plugged ∧ 0 < Z.to_nat cap.
Proof.
  unfold NewAntiReplay. destruct (Z.leb_spec cap 0); [done|]. intros [= <-].
  unfold ar_wf, ar_contents; simpl. rewrite length_replicate.
  split_and!; try done; try lia; constructor.
Qed.

(** The run of the queue over the same calls. *)
Fixpoint spec_run (cap : nat) (cs : list call) (q : list replayEntry) :
    list Spec.verdict * list replayEntry :=
  match cs with
  | [] => ([], q)
  | k :: cs' =>
      let '(v, q1) := Spec.consume cap (Unix (at_ k)) (call_jti k) (Unix (call_exp k)) q in
      let '(vs, q2) := spec_run cap cs' q1 in (v :: vs, q2)
  end.

(** Whether a run saturates the cache at some call. *)
Definition saturates (vs : list Spec.verdict) : bool :=
  existsb (λ v, match v with Spec.Saturated => true | _ => false end) vs.

Lemma run_calls_refines cs c t :
  ar_wf c →
  let r := run_calls cs c t in
  let s := spec_run (length (ar_ring c)) cs (ar_contents c) in
  r.1.1 = accepted <$> s.1 ∧ ar_contents r.1.2 = s.2 ∧ ar_wf r.1.2 ∧
  length (ar_ring r.1.2) = length (ar_ring c) ∧
  ar_tripped r.1.2 = ar_tripped c || saturates s.1 ∧
  r.2 = (if negb (ar_tripped c) && saturates s.1
         then call_alarm (ar_onTrip c) TripReasonJTISaturated t else t).
Proof.
  revert c t. induction cs as [|k cs IH]; intros c t Hwf; simpl.
  { destruct (ar_tripped c); by split_and!. }
  pose proof (CheckAndConsume_step (at_ k) (call_jti k) (call_exp k) c t Hwf)
    as (Eok & Ec & Hwf1 & L1 & O1 & ET).
  destruct (CheckAndConsume _ _ _ c t) as [[ok c1] t1].
  destruct (Spec.consume _ _ _ _ _) as [v q1]. simpl in *. subst ok q1.
  specialize (IH c1 t1 Hwf1). rewrite L1 in IH.
  destruct (run_calls cs c1 t1) as [[oks c2] t2].
  destruct (spec_run _ cs (ar_contents c1)) as [vs q2]. simpl in *.
  destruct IH as (-> & -> & Hwf2 & L2 & T2 & ->). rewrite O1 in *.
  split_and!; auto; try congruence.
  - rewrite T2. unfold saturates. by destruct v; injection ET as -> ->; simpl; rewrite ?orb_true_r.
  - unfold saturates in *. destruct v; injection ET as -> ->; try done.
    simpl. by destruct (ar_tripped c).
Qed.

(** C9: the cache is a bounded queue. Over any run from a new cache of capacity [cap],
    the ring answers exactly as the queue of consumed entries, occupies at most [cap]
    slots of a ring that never grows, and raises the saturation alarm once if some call
    saturates it, and never otherwise. *)
Theorem antireplay_refines_queue cap plugged c cs t :
  NewAntiReplay cap plugged = Some c →
  let '(oks, c', t') := run_calls cs c t in
  let '(vs, q') := spec_run (Z.to_nat cap) cs [] in
  oks = accepted <$> vs ∧ ar_contents c' = q' ∧
  ar_Len c' ≤ Z.to_nat cap ∧ ar_Capacity c' = Z.to_nat cap ∧
  ar_tripped c' = saturates vs ∧
  t' = t ++ (if plugged && saturates vs then [EvAlarm TripReasonJTISaturated] else []).
Proof.
  intros HN. apply NewAntiReplay_wf in HN as (Hwf & HC & HL & HT & HO & _).
  pose proof (run_calls_refines cs c t Hwf) as HR. rewrite HC, HL, HT, HO in HR.
  destruct (run_calls cs c t) as [[oks c'] t']. destruct (spec_run _ cs []) as [vs q'].
  simpl in HR. destruct HR as (-> & -> & Hwf' & HL' & -> & ->).
  destruct Hwf' as (_ & _ & Hc & _). unfold ar_Len, ar_Capacity, call_alarm.
  split_and!; auto; try lia.
  destruct plugged, (saturates vs); simpl; by rewrite ?app_nil_r.
Qed.

Lemma drop_expired_jtis now q x :
  x ∈ e_jti <$> Spec.drop_expired now q → x ∈ e_jti <$> q.
Proof.
  induction q as [|e q IH]; simpl; [done|]. case_match; [|done].
  intros Hx. apply elem_of_cons. auto.
Qed.

Lemma keep_fresh_drop_expired now q :
  Spec.keep_fresh now (Spec.drop_expired now q) = Spec.keep_fresh now q.
Proof.
  unfold Spec.keep_fresh. induction q as [|e q IH]; simpl; [done|].
  destruct (Z.ltb_spec (e_exp e) now); [|done].
  by rewrite filter_cons, decide_False by lia.
Qed.

(** Saturation is honest. A call for a [jti] the cache does not hold is refused only
    when every slot of the ring is taken by a token that is still fresh, and it leaves
    the saturation latch set. *)
Theorem refusal_means_full now jti exp c t c' t' :
  ar_wf c →
  CheckAndConsume now jti exp c t = (false, c', t') →
  jti ∉ e_jti <$> ar_contents c →
  length (filter (λ e, (Unix now ≤ e_exp e)%Z) (ar_contents c)) = ar_Capacity c ∧
  ar_tripped c' = true.
Proof.
  intros Hwf Hcc Hni.
  pose proof (CheckAndConsume_step now jti exp c t Hwf) as (Eok & _ & _ & _ & _ & ET).
  rewrite Hcc in Eok, ET. simpl in *. unfold Spec.consume in *.
  rewrite bool_decide_false in * by (intros Hin; by apply Hni, (drop_expired_jtis (Unix now))).
  change (filter _ (ar_contents c)) with (Spec.keep_fresh (Unix now) (ar_contents c)).
  rewrite <-(keep_fresh_drop_expired _ (ar_contents c)).
  set (q1 := Spec.drop_expired (Unix now) (ar_contents c)) in *.
  destruct (Nat.eqb_spec (length q1) (length (ar_ring c))) as [E|E];
    [|by destruct (Nat.eqb_spec (length q1) (length (ar_ring c)))].
  destruct (Nat.eqb_spec (length (Spec.keep_fresh (Unix now) q1)) (length (ar_ring c)));
    [|done]. simpl in ET. by injection ET as ->.
Qed.
