(* ===== verification/Records.v ===== *)
(** Canonical byte records and signed messages.

    The records the PEP commits to in its leaves ([decisionLeafRecord] of
    [src/pep/opa_client.go], [clockAlarmRecord], [modeChangeRecord], [failClosedRecord],
    the plan-contract records) and the messages controllers and operators sign
    ([QuorumMessage], [ApprovalMessage], [RevocationMessage], [SubmissionMessage]).

    The theorems show that the signed messages are injective within the bounds the code
    enforces and that no message of one domain is a message of another: a signature for
    one act is never a signature for another act. *)
From S2P Require Import Prelude.

Definition verdict_byte (allow : bool) : byte := if allow then Byte.x01 else Byte.x00.

(** [byte(len(s))]: the length prefix of one byte. *)
Definition len8 (s : string) : byte := z2b (Z.of_nat (slen s)).
(** [uint16(len(s))] in big endian. *)
Definition len16 (n : nat) : bytes := be 2 (u16 (Z.of_nat n)).

(** ** Leaf records *)

(** [decisionLeafRecord] (opa_client.go). *)
Definition decisionLeafRecord (jti : bytes) (allow : bool) (reason : string) : bytes :=
  sb "TBPD1" ++ jti ++ [verdict_byte allow; len8 reason] ++ sb reason.

(** The record of [Validator.writeLeaf]: « TBPD2 » carries the plan seal. *)
Definition validatorRecord (jti : bytes) (allow : bool) (reason : string)
    (planSeal : option bytes) : bytes :=
  (match planSeal with Some _ => sb "TBPD2" | None => sb "TBPD1" end)
  ++ jti ++ [verdict_byte allow; len8 reason] ++ sb reason
  ++ match planSeal with Some seal => seal | None => [] end.

(** [clockAlarmRecord] (clock.go). *)
Definition clockAlarmRecord (reason : string) (priority : byte) : bytes :=
  sb "TBPC1" ++ [len8 reason] ++ sb reason ++ [priority].

(** [failClosedRecord] (failclosed.go). *)
Definition failClosedRecord (action : byte) (name detail : string) : bytes :=
  sb "TBFF1" ++ [action] ++ [len8 name] ++ sb name
  ++ be 2 (u16 (Z.of_nat (slen detail))) ++ sb detail.

(** [modeChangeRecord], [modeReducedRecord] (mode.go) on the number of the posture. *)
Definition modeChangeRecord (m : Z) : bytes := sb "TBPM1" ++ [z2b m].
Definition modeReducedRecord (m : Z) : bytes := sb "TBPM2" ++ [z2b m; Byte.x01].

(** The record of [ContractStore.writeLeafLocked] (plan_contract.go). *)
Definition planLeafRecord (event : byte) (planHash : bytes) (step : Z) (verdict : byte)
    (reason : string) : bytes :=
  sb "TBPL1" ++ [event] ++ planHash ++ be 2 (u16 step) ++ [verdict; len8 reason] ++ sb reason.

(** The record of [ContractStore.writeSignedLeafLocked] (plan_contract.go). *)
Definition planSignedRecord (event : byte) (planHash kid : bytes) (expiry : Z) (sig : bytes) :
    bytes :=
  sb "TBPL2" ++ [event] ++ planHash ++ be 2 (u16 65535) ++ [Byte.x01; len8 "ok"] ++ sb "ok"
  ++ kid ++ be 8 (u64 (Unix expiry)) ++ sig.

(** ** Signed messages *)

(** [QuorumMessage] (quorum_verifier.go). *)
Definition QuorumMessage (condition cellID : string) (expiry : Z) : bytes :=
  sb "TBPQ2" ++ len16 (slen condition) ++ sb condition
  ++ len16 (slen cellID) ++ sb cellID ++ be 8 (u64 (Unix expiry)).

(** [ApprovalMessage], [RevocationMessage] (plan_contract.go). *)
Definition ApprovalMessage (planHash : bytes) (expiry : Z) : bytes :=
  sb "TBPA1" ++ planHash ++ be 8 (u64 (Unix expiry)).
Definition RevocationMessage (planHash : bytes) (expiry : Z) : bytes :=
  sb "TBPR1" ++ planHash ++ be 8 (u64 (Unix expiry)).

(** ** Plan seals *)

Record PlanStep := mkStep {
  Action : string;
  Resource : string;
  ParamsHash : bytes;   (* [32]byte *)
}.

#[global] Instance PlanStep_eq_dec : EqDecision PlanStep.
Proof. solve_decision. Defined.

(** [HashParams]. *)
Definition HashParams `{Crypto} (params : bytes) : bytes := sha256 params.

Definition step_bytes (st : PlanStep) : bytes :=
  [len8 (Action st)] ++ sb (Action st) ++ len16 (slen (Resource st)) ++ sb (Resource st)
  ++ ParamsHash st.

(** The bytes [HashPlan] feeds to SHA-256. *)
Definition plan_preimage (cellID subject : string) (submittedAt : Z) (policyID : bytes)
    (steps : list PlanStep) : bytes :=
  sb "TBPC2" ++ [len8 cellID] ++ sb cellID ++ [len8 subject] ++ sb subject
  ++ be 8 (u64 (Unix submittedAt)) ++ policyID ++ len16 (length steps)
  ++ concat (step_bytes <$> steps).

(** [HashPlan]. *)
Definition HashPlan `{Crypto} (cellID subject : string) (submittedAt : Z) (policyID : bytes)
    (steps : list PlanStep) : bytes :=
  sha256 (plan_preimage cellID subject submittedAt policyID steps).

(** The bytes [SubmissionContentHash] feeds to SHA-256. *)
Definition submission_preimage (cellID subject : string) (steps : list PlanStep) : bytes :=
  sb "TBPS1c" ++ [len8 cellID] ++ sb cellID ++ [len8 subject] ++ sb subject
  ++ len16 (length steps) ++ concat (step_bytes <$> steps).

(** [SubmissionContentHash]. *)
Definition SubmissionContentHash `{Crypto} (cellID subject : string) (steps : list PlanStep) :
    bytes := sha256 (submission_preimage cellID subject steps).

(** [SubmissionMessage]. *)
Definition SubmissionMessage `{Crypto} (cellID subject : string) (steps : list PlanStep)
    (expiry : Z) : bytes :=
  sb "TBPS1" ++ SubmissionContentHash cellID subject steps ++ be 8 (u64 (Unix expiry)).

(** ** Injectivity *)

Lemma len8_inj s t : slen s ≤ 255 → slen t ≤ 255 → len8 s = len8 t → slen s = slen t.
Proof.
  intros Hs Ht E. apply (f_equal b2z) in E. unfold len8 in E. rewrite !b2z_z2b in E.
  rewrite !Z.mod_small in E; lia.
Qed.

Lemma len16_inj n m :
  (Z.of_nat n < 65536)%Z → (Z.of_nat m < 65536)%Z → len16 n = len16 m → n = m.
Proof.
  intros Hn Hm E. unfold len16, u16 in E. apply be_inj in E.
  - rewrite !Z.mod_small in E; lia.
  - rewrite Z.mod_small; lia.
  - rewrite Z.mod_small; lia.
Qed.

Lemma be8_inj x y : in_i64 x → in_i64 y → be 8 (u64 x) = be 8 (u64 y) → x = y.
Proof.
  intros Hx Hy E. apply be_inj in E; [|apply u64_range..].
  by rewrite <-(i64_u64 x), E, i64_u64.
Qed.

(** A length-prefixed string followed by anything is read back. *)
Lemma str8_app_inj s t k1 k2 :
  slen s ≤ 255 → slen t ≤ 255 →
  [len8 s] ++ sb s ++ k1 = [len8 t] ++ sb t ++ k2 → s = t ∧ k1 = k2.
Proof.
  intros Hs Ht E. simpl in E. injection E as El E. apply len8_inj in El; [|done..].
  apply app_inj_len in E as [E ->]; [|by rewrite !length_sb]. by apply (inj sb) in E.
Qed.

Lemma str16_app_inj s t k1 k2 :
  (Z.of_nat (slen s) < 65536)%Z → (Z.of_nat (slen t) < 65536)%Z →
  len16 (slen s) ++ sb s ++ k1 = len16 (slen t) ++ sb t ++ k2 → s = t ∧ k1 = k2.
Proof.
  intros Hs Ht E. apply app_inj_len in E as [El E]; [|done]. apply len16_inj in El; [|done..].
  apply app_inj_len in E as [E ->]; [|by rewrite !length_sb]. by apply (inj sb) in E.
Qed.

(** The record of a decision determines it. *)
Lemma validatorRecord_injective j1 j2 a1 a2 r1 r2 s1 s2 :
  length j1 = 16 → length j2 = 16 → slen r1 ≤ 255 → slen r2 ≤ 255 →
  validatorRecord j1 a1 r1 s1 = validatorRecord j2 a2 r2 s2 → j1 = j2 ∧ a1 = a2 ∧ r1 = r2 ∧ s1 = s2.
Proof.
  intros Hj1 Hj2 Hr1 Hr2 E. unfold validatorRecord in E.
  apply app_inj_len in E as [Et E]; [|by destruct s1, s2]. apply app_inj_len in E as [-> E]; [|by rewrite Hj1].
  change ([verdict_byte a1; len8 r1]) with ([verdict_byte a1] ++ [len8 r1]) in E.
  change ([verdict_byte a2; len8 r2]) with ([verdict_byte a2] ++ [len8 r2]) in E. rewrite <-!app_assoc in E.
  apply app_inj_len in E as [Ea E]; [|done]. apply str8_app_inj in E as [-> Es]; [|done..].
  split_and!; [done|by destruct a1, a2|done|]. destruct s1, s2; try done. by f_equal.
Qed.

(** The bounds [ValidatePlan] enforces on a step, and the size of a digest. *)
Definition step_bounds (st : PlanStep) : Prop :=
  slen (Action st) ≤ 255 ∧ slen (Resource st) ≤ 1024 ∧ length (ParamsHash st) = 32.

Lemma step_bytes_app_inj s t k1 k2 :
  step_bounds s → step_bounds t →
  step_bytes s ++ k1 = step_bytes t ++ k2 → s = t ∧ k1 = k2.
Proof.
  intros (A1 & R1 & P1) (A2 & R2 & P2) E. unfold step_bytes in E. rewrite <-!app_assoc in E.
  apply str8_app_inj in E as [EA E]; [|done..].
  apply str16_app_inj in E as [ER E]; [|lia..].
  apply app_inj_len in E as [EP ->]; [|by rewrite P1]. by destruct s, t; simplify_eq/=.
Qed.

Lemma steps_concat_inj ss ts :
  Forall step_bounds ss → Forall step_bounds ts → length ss = length ts →
  concat (step_bytes <$> ss) = concat (step_bytes <$> ts) → ss = ts.
Proof. apply prefix_code_concat, step_bytes_app_inj. Qed.

(** A quorum proof binds its act. The message controllers sign determines the
    condition, the cell and the expiry (for names under 64 KiB): a signature collected for
    one condition on one cell verifies for no other condition, cell or expiry. *)
Theorem QuorumMessage_injective c1 c2 cell1 cell2 e1 e2 :
  (Z.of_nat (slen c1) < 65536)%Z → (Z.of_nat (slen c2) < 65536)%Z →
  (Z.of_nat (slen cell1) < 65536)%Z → (Z.of_nat (slen cell2) < 65536)%Z →
  in_i64 (Unix e1) → in_i64 (Unix e2) →
  QuorumMessage c1 cell1 e1 = QuorumMessage c2 cell2 e2 →
  c1 = c2 ∧ cell1 = cell2 ∧ Unix e1 = Unix e2.
Proof.
  intros ?????? E. unfold QuorumMessage in E. apply app_inj_len in E as [_ E]; [|done].
  apply str16_app_inj in E as [-> E]; [|done..].
  apply str16_app_inj in E as [-> E]; [|done..]. split_and!; auto. by apply be8_inj.
Qed.

Lemma ApprovalMessage_injective h1 h2 e1 e2 :
  length h1 = length h2 → in_i64 (Unix e1) → in_i64 (Unix e2) →
  ApprovalMessage h1 e1 = ApprovalMessage h2 e2 → h1 = h2 ∧ Unix e1 = Unix e2.
Proof.
  intros Hl ?? E. unfold ApprovalMessage in E. apply app_inj_len in E as [_ E]; [|done].
  apply app_inj_len in E as [-> E]; [|done]. split; [done|]. by apply be8_inj.
Qed.

Lemma plan_preimage_injective cell1 cell2 sub1 sub2 at1 at2 pol1 pol2 ss ts :
  slen cell1 ≤ 255 → slen cell2 ≤ 255 → slen sub1 ≤ 255 → slen sub2 ≤ 255 →
  in_i64 (Unix at1) → in_i64 (Unix at2) → length pol1 = 32 → length pol2 = 32 →
  length ss ≤ 64 → length ts ≤ 64 → Forall step_bounds ss → Forall step_bounds ts →
  plan_preimage cell1 sub1 at1 pol1 ss = plan_preimage cell2 sub2 at2 pol2 ts →
  cell1 = cell2 ∧ sub1 = sub2 ∧ Unix at1 = Unix at2 ∧ pol1 = pol2 ∧ ss = ts.
Proof.
  intros ??????? Hp2 ???? E. unfold plan_preimage in E. apply app_inj_len in E as [_ E]; [|done].
  apply str8_app_inj in E as [-> E]; [|done..].
  apply str8_app_inj in E as [-> E]; [|done..].
  apply app_inj_len in E as [E1 E]; [|by rewrite !length_be].
  apply app_inj_len in E as [-> E]; [|by rewrite Hp2].
  apply app_inj_len in E as [E2 E]; [|done]. apply len16_inj in E2; [|lia..].
  split_and!; auto using be8_inj. by apply steps_concat_inj.
Qed.

(** An approved hash identifies the plan. Two plans within the bounds of
    [ValidatePlan] that have the same seal are the same cell, subject, second of
    submission, policy and steps, or exhibit a SHA-256 collision. *)
Theorem HashPlan_binds_plan `{Crypto} cell1 cell2 sub1 sub2 at1 at2 pol1 pol2 ss ts :
  slen cell1 ≤ 255 → slen cell2 ≤ 255 → slen sub1 ≤ 255 → slen sub2 ≤ 255 →
  in_i64 (Unix at1) → in_i64 (Unix at2) → length pol1 = 32 → length pol2 = 32 →
  length ss ≤ 64 → length ts ≤ 64 → Forall step_bounds ss → Forall step_bounds ts →
  HashPlan cell1 sub1 at1 pol1 ss = HashPlan cell2 sub2 at2 pol2 ts →
  (cell1 = cell2 ∧ sub1 = sub2 ∧ Unix at1 = Unix at2 ∧ pol1 = pol2 ∧ ss = ts)
  ∨ sha256_collision.
Proof.
  intros ???????????? E. apply sha256_eq_or_collision in E as [E|?]; [left|by right].
  by apply plan_preimage_injective in E.
Qed.

(** Signatures do not cross domains. No message signed for a quorum act, a plan
    approval, a plan revocation or a plan submission is a message of another of these
    four domains. *)
Theorem signed_messages_domain_separated `{Crypto} cond cell1 e1 h2 e2 h3 e3 cell4 sub4 st4 e4 :
  let q := QuorumMessage cond cell1 e1 in
  let a := ApprovalMessage h2 e2 in
  let r := RevocationMessage h3 e3 in
  let s := SubmissionMessage cell4 sub4 st4 e4 in
  q ≠ a ∧ q ≠ r ∧ q ≠ s ∧ a ≠ r ∧ a ≠ s ∧ r ≠ s.
Proof. cbv zeta. split_and!; intros E; by apply app_inj_len in E as [E _]. Qed.
