(* ===== verification/Token.v ===== *)
(** Tokens and their strict decoding: [src/pep/validator.go], steps 1 to 5.

    [decodePayload] decodes the CBOR payload of a token against the frozen schema,
    [verifySignedToken] checks the COSE envelope, the headers, the payload, the key and
    the signature. The CBOR and COSE libraries are parameters ([Cose]); what they decode
    to is the type [cbor] of the Go values the code inspects.

    The theorems show that every decoded token satisfies the schema (sizes, ranges,
    versions, no unknown claim, canonical payload), that a conforming claim set decodes
    to the token it describes, and that a token is only reported authentic after a
    signature check with a key of the pinned keyring. *)
From S2P Require Import Prelude.

(** ** Data *)

Definition MaxTokenWireSize : nat := 1024.
Definition minTTLSec : Z := 30.
Definition maxTTLSec : Z := 60.
Definition tokenVersionV1 : Z := 1.
Definition tokenVersionV2 : Z := 2.
Definition maxIssSubActionLen : nat := 255.
Definition maxResourceLen : nat := 1024.
Definition maxQuotaOpLen : nat := 64.

Inductive Class_ := ClassF | ClassI | ClassW | ClassOut.
#[global] Instance Class_eq_dec : EqDecision Class_.
Proof. solve_decision. Defined.

Definition DefaultClass : Class_ := ClassW.

(** [Class(n)] for the values the decoder lets through. *)
Definition Class_of (n : Z) : Class_ :=
  if (n =? 0)%Z then ClassF else if (n =? 1)%Z then ClassI
  else if (n =? 2)%Z then ClassW else ClassOut.

Definition Class_num (c : Class_) : Z :=
  match c with ClassF => 0 | ClassI => 1 | ClassW => 2 | ClassOut => 3 end.

Record Quota := mkQuota {
  q_Resource : string;
  q_Operation : string;
  q_VolumeMax : Z;    (* uint64 *)
  q_WindowS : Z;      (* uint64 *)
}.

Record Token := mkToken {
  t_Iss : string;
  t_Sub : string;
  t_Iat : Z;          (* int64 *)
  t_Exp : Z;          (* int64 *)
  t_JTI : bytes;      (* [16]byte *)
  t_PolicyID : bytes; (* [32]byte *)
  t_Action : string;
  t_Resource : string;
  t_Class : Class_;
  t_ObjectSeal : option bytes;
  t_Epoch : Z;        (* uint64 *)
  t_Quota : option Quota;
  t_PlanSeal : option bytes;
}.

(** Reason codes. *)
Definition ReasonOK : string := "ok".
Definition ReasonTokenTooLarge : string := "token-too-large".
Definition ReasonMalformed : string := "malformed-token".
Definition ReasonBadHeaders : string := "bad-headers".
Definition ReasonBadAlg : string := "bad-alg".
Definition ReasonSchemaViolation : string := "schema-violation".
Definition ReasonUnsupportedVer : string := "unsupported-version".
Definition ReasonUnknownKID : string := "unknown-kid".
Definition ReasonBadSignature : string := "bad-signature".

(** [KeyIDFromPublicKey]: sha256(pub)[:16]. *)
Definition KeyIDFromPublicKey `{Crypto} (pub : bytes) : bytes := take 16 (sha256 pub).

(** ** The CBOR and COSE libraries *)

(** The dynamic values the CBOR decoder produces, as far as the code tells them apart:
    a non-negative integer is a [uint64], a negative one an [int64]. *)
Inductive cbor :=
  | CUint (n : Z)
  | CInt (z : Z)
  | CBytes (b : bytes)
  | CText (s : string)
  | CMap (m : list (cbor * cbor))
  | COther.

(** A decoded [COSE_Sign1] message, as far as the code reads it. *)
Record Sign1Message := mkSign1 {
  n_unprotected : nat;      (* len(msg.Headers.Unprotected) *)
  raw_protected : bytes;    (* msg.Headers.RawProtected *)
  payload : bytes;          (* msg.Payload *)
  signature : bytes;        (* msg.Signature *)
}.

Class Cose := {
  sign1_unmarshal : bytes → option Sign1Message;          (* msg.UnmarshalCBOR *)
  strict_bytes : bytes → option bytes;                    (* strictDec into []byte *)
  strict_map : bytes → option (list (cbor * cbor));       (* strictDec into map[any]any *)
  canonical_map : list (cbor * cbor) → option bytes;      (* canonicalEnc.Marshal *)
  new_verifier : bytes → bool;                            (* cose.NewVerifier succeeds *)
  sign1_verify : Sign1Message → bytes → bool;             (* msg.Verify(nil, verifier) *)
  AlgorithmEd25519 : Z;
}.

(** ** Typing helpers *)

Definition asInt (v : cbor) : option Z :=
  match v with
  | CUint n => if (2^63 - 1 <? n)%Z then None else Some n
  | CInt z => Some z
  | _ => None
  end.

Definition asUint (v : cbor) : option Z :=
  match v with CUint n => Some n | _ => None end.

Definition bytesFromAny (v : cbor) : option bytes :=
  match v with CBytes b => Some b | _ => None end.

Definition stringClaim (claims : gmap Z cbor) (key : Z) (required : bool) (maxLen : nat) :
    option string :=
  match claims !! key with
  | None => if required then None else Some ""
  | Some (CText s) => if (slen s <? 1) || (maxLen <? slen s) then None else Some s
  | Some _ => None
  end.

Definition intClaim (claims : gmap Z cbor) (key : Z) (required : bool) : option Z :=
  match claims !! key with
  | None => if required then None else Some 0%Z
  | Some v => asInt v
  end.

Definition uintClaim (claims : gmap Z cbor) (key : Z) (required : bool) : option Z :=
  match claims !! key with
  | None => if required then None else Some 0%Z
  | Some v => asUint v
  end.

Definition bytesClaim (claims : gmap Z cbor) (key : Z) (required : bool) : option bytes :=
  match claims !! key with
  | None => if required then None else Some []
  | Some v => bytesFromAny v
  end.

(** A byte string of exactly [n] bytes. *)
Definition sized (n : nat) (o : option bytes) : option bytes :=
  match o with Some b => if length b =? n then Some b else None | None => None end.

(** The loop that types the keys of a decoded map. *)
Fixpoint int_keys (raw : list (cbor * cbor)) (acc : gmap Z cbor) : option (gmap Z cbor) :=
  match raw with
  | [] => Some acc
  | (k, v) :: raw' =>
      match asInt k with
      | Some key => int_keys raw' (<[key := v]> acc)
      | None => None
      end
  end.

Definition known_claims : list Z := [1; 2; 4; 6; 7; -1; -2; -3; -4; -5; -6; -7; -8; -9]%Z.

(** An optional claim: absent gives the default, present must decode. *)
Definition optional {A} (claims : gmap Z cbor) (key : Z) (dflt : A) (dec : cbor → option A) :
    option A :=
  match claims !! key with None => Some dflt | Some v => dec v end.

(** Early return on a failed check. *)
Notation "'check' o 'as' x 'else' e 'in' k" :=
  (match o with Some x => k | None => e end)
  (at level 10, o at level 100, x name, e at level 100, k at level 200).

(** [decodeQuota]. *)
Definition decodeQuota (v : cbor) : option Quota :=
  match v with
  | CMap m =>
      if negb (length m =? 4) then None
      else check int_keys m ∅ as claims else None in
           check stringClaim claims 1 true maxResourceLen as res else None in
           check stringClaim claims 2 true maxQuotaOpLen as op else None in
           check uintClaim claims 3 true as vol else None in
           check uintClaim claims 4 true as win else None in
           if (win =? 0)%Z then None else Some (mkQuota res op vol win)
  | _ => None
  end.

Definition decodeClass (v : cbor) : option Class_ :=
  match asUint v with
  | Some n => if (3 <? n)%Z then None else Some (Class_of n)
  | None => None
  end.

Definition decodeSeal (v : cbor) : option (option bytes) :=
  match sized 32 (bytesFromAny v) with Some b => Some (Some b) | None => None end.

(** The claims of a token, once the keys are typed: [decodePayload] after its loops. *)
Definition decodeClaims (claims : gmap Z cbor) : string + Token :=
  let bad := inl ReasonSchemaViolation in
  check stringClaim claims 1 true maxIssSubActionLen as iss else bad in
  check stringClaim claims 2 true maxIssSubActionLen as sub else bad in
  check intClaim claims 4 true as exp else bad in
  check intClaim claims 6 true as iat else bad in
  check sized 16 (bytesClaim claims 7 true) as jti else bad in
  check sized 32 (bytesClaim claims (-1) true) as policyID else bad in
  check stringClaim claims (-2) true maxIssSubActionLen as action else bad in
  check stringClaim claims (-3) true maxResourceLen as resource else bad in
  check optional claims (-4) DefaultClass decodeClass as class else bad in
  check optional claims (-5) None decodeSeal as objectSeal else bad in
  check uintClaim claims (-6) true as epoch else bad in
  check optional claims (-7) None (λ v, Some <$> decodeQuota v) as quota else bad in
  check optional claims (-8) None decodeSeal as planSeal else bad in
  check uintClaim claims (-9) true as ver else bad in
  if negb (ver =? tokenVersionV1)%Z && negb (ver =? tokenVersionV2)%Z then
    inl ReasonUnsupportedVer
  else if (ver =? tokenVersionV1)%Z && bool_decide (planSeal ≠ None) then bad
  else inr (mkToken iss sub iat exp jti policyID action resource class objectSeal epoch
              quota planSeal).

(** [decodePayload]. *)
Definition decodePayload `{Cose} (p : bytes) : string + Token :=
  let bad := inl ReasonSchemaViolation in
  check strict_map p as raw else bad in
  if bool_decide (canonical_map raw ≠ Some p) then bad
  else
    check int_keys raw ∅ as claims else bad in
    if bool_decide (¬ (dom claims ⊆ (list_to_set known_claims : gset Z))) then bad
    else decodeClaims claims.

(** [protected[int64(k)]] and [protected[uint64(k)]] in a [map[any]any]. *)
Fixpoint lookup_int (k : Z) (m : list (cbor * cbor)) : option cbor :=
  match m with
  | (CInt z, v) :: m' => if (z =? k)%Z then Some v else lookup_int k m'
  | _ :: m' => lookup_int k m'
  | [] => None
  end.
Fixpoint lookup_uint (k : Z) (m : list (cbor * cbor)) : option cbor :=
  match m with
  | (CUint n, v) :: m' => if (n =? k)%Z then Some v else lookup_uint k m'
  | _ :: m' => lookup_uint k m'
  | [] => None
  end.

(** A header under its [int64] label, or else under its [uint64] label. *)
Definition header {A} (dec : cbor → option A) (k : Z) (m : list (cbor * cbor)) : option A :=
  match lookup_int k m ≫= dec with
  | Some x => Some x
  | None => lookup_uint k m ≫= dec
  end.

(** [Validator.verifySignedToken]: the token decoded so far and a reason, [""] on success. *)
Definition verifySignedToken `{Cose} (keyring : gmap bytes bytes) (wire : bytes) :
    option Token * string :=
  if MaxTokenWireSize <? length wire then (None, ReasonTokenTooLarge)
  else check sign1_unmarshal wire as msg else (None, ReasonMalformed) in
  if 0 <? n_unprotected msg then (None, ReasonBadHeaders)
  else check strict_bytes (raw_protected msg) as protectedBytes else (None, ReasonBadHeaders) in
  if length protectedBytes =? 0 then (None, ReasonBadHeaders)
  else check strict_map protectedBytes as protected else (None, ReasonBadHeaders) in
  if 2 <? length protected then (None, ReasonBadHeaders)
  else check header asInt 1 protected as alg else (None, ReasonBadHeaders) in
  if negb (alg =? AlgorithmEd25519)%Z then (None, ReasonBadAlg)
  else check sized 16 (header bytesFromAny 4 protected) as kid else (None, ReasonBadHeaders) in
  match decodePayload (payload msg) with
  | inl reason => (None, reason)
  | inr tok =>
      match keyring !! kid with
      | None => (Some tok, ReasonUnknownKID)
      | Some pub =>
          if negb (new_verifier pub) then (Some tok, ReasonBadSignature)
          else if negb (sign1_verify msg pub) then (Some tok, ReasonBadSignature)
          else (Some tok, "")
      end
  end.

(** [Validator.VerifyPossession]: possession, not authorization. *)
Definition VerifyPossession `{Cose} (keyring : gmap bytes bytes) (wire : bytes) :
    string + Token :=
  match verifySignedToken keyring wire with
  | (Some tok, reason) => if bool_decide (reason = "") then inr tok else inl reason
  | (None, reason) => inl reason
  end.

(** [tokJTIOrZero]. *)
Definition zeroJTI : bytes := replicate 16 Byte.x00.
Definition tokJTIOrZero (tok : option Token) : bytes :=
  match tok with Some tk => t_JTI tk | None => zeroJTI end.

(** ** Conformance of decoded tokens *)

(** The integer ranges of the values the decoder produces. *)
Fixpoint cbor_wf (v : cbor) : Prop :=
  match v with
  | CUint n => in_u64 n
  | CInt z => (- 2^63 ≤ z < 0)%Z
  | CMap m =>
      (fix go (m : list (cbor * cbor)) : Prop :=
         match m with [] => True | (k, x) :: m' => cbor_wf k ∧ cbor_wf x ∧ go m' end) m
  | _ => True
  end.

Definition map_wf (m : list (cbor * cbor)) : Prop := Forall (λ kv, cbor_wf kv.1 ∧ cbor_wf kv.2) m.

Lemma cbor_wf_map m : cbor_wf (CMap m) → map_wf m.
Proof.
  induction m as [|[k v] m IH]; intros Hm; [constructor|].
  destruct Hm as (Hk & Hv & Hm). constructor; [done|]. by apply IH.
Qed.

(** What the CBOR decoder documents: integers come back in their Go types. *)
Class CoseLaws `{Cose} := strict_map_wf : ∀ p raw, strict_map p = Some raw → map_wf raw.

Definition text_ok (s : string) (maxLen : nat) : Prop := 1 ≤ slen s ≤ maxLen.

Definition quota_ok (q : Quota) : Prop :=
  text_ok (q_Resource q) maxResourceLen ∧ text_ok (q_Operation q) maxQuotaOpLen ∧
  in_u64 (q_VolumeMax q) ∧ in_u64 (q_WindowS q) ∧ (0 < q_WindowS q)%Z.

(** The bounds of the frozen schema (schema.cddl) that [decodePayload] checks. The dates are any
    [int64] there: the lifetime of 30 to 60 seconds, and a date that is not negative, are for the
    guards of the validator ([checks] in Validator.v), which compare them with each other and with
    its clock. *)
Definition schema_ok (tok : Token) : Prop :=
  text_ok (t_Iss tok) maxIssSubActionLen ∧ text_ok (t_Sub tok) maxIssSubActionLen ∧
  text_ok (t_Action tok) maxIssSubActionLen ∧ text_ok (t_Resource tok) maxResourceLen ∧
  in_i64 (t_Iat tok) ∧ in_i64 (t_Exp tok) ∧ in_u64 (t_Epoch tok) ∧
  length (t_JTI tok) = 16 ∧ length (t_PolicyID tok) = 32 ∧
  (∀ s, t_ObjectSeal tok = Some s → length s = 32) ∧
  (∀ s, t_PlanSeal tok = Some s → length s = 32) ∧
  (∀ q, t_Quota tok = Some q → quota_ok q).

Definition claims_wf (claims : gmap Z cbor) : Prop := map_Forall (λ _ v, cbor_wf v) claims.

Lemma int_keys_wf raw acc claims :
  map_wf raw → claims_wf acc → int_keys raw acc = Some claims → claims_wf claims.
Proof.
  revert acc. induction raw as [|[k v] raw IH]; intros acc Hr Ha; simpl; [by intros [= <-]|].
  apply Forall_cons in Hr as [[_ Hv] Hr]. case_match; [|done].
  apply IH; [done|]. by apply map_Forall_insert_2.
Qed.

Lemma stringClaim_ok claims k n s : stringClaim claims k true n = Some s → text_ok s n.
Proof.
  unfold stringClaim, text_ok. repeat case_match; try done. intros [= ->].
  match goal with H : _ || _ = false |- _ => apply orb_false_elim in H as [H1 H2] end.
  apply Nat.ltb_ge in H1, H2. lia.
Qed.

Lemma intClaim_ok claims k z : claims_wf claims → intClaim claims k true = Some z → in_i64 z.
Proof.
  unfold intClaim. intros Hw. destruct (claims !! k) as [v|] eqn:E; [|done].
  apply Hw in E. destruct v; simpl in *; try done.
  - unfold in_u64 in E. destruct (Z.ltb_spec (2^63 - 1) n); [done|]. intros [= <-].
    unfold in_i64. lia.
  - intros [= <-]. unfold in_i64. lia.
Qed.

Lemma uintClaim_ok claims k z : claims_wf claims → uintClaim claims k true = Some z → in_u64 z.
Proof.
  unfold uintClaim. intros Hw. destruct (claims !! k) as [v|] eqn:E; [|done].
  apply Hw in E. destruct v; simpl in *; try done. by intros [= <-].
Qed.

Lemma sized_ok n o b : sized n o = Some b → o = Some b ∧ length b = n.
Proof. unfold sized. destruct o; [|done]. case_match eqn:E; [|done]. apply Nat.eqb_eq in E. naive_solver. Qed.

Lemma decodeSeal_ok v o s : decodeSeal v = Some o → o = Some s → length s = 32.
Proof.
  unfold decodeSeal. destruct (sized 32 (bytesFromAny v)) as [b|] eqn:E; [|done].
  apply sized_ok in E as [_ E]. naive_solver.
Qed.

Lemma decodeQuota_ok v q : cbor_wf v → decodeQuota v = Some q → quota_ok q.
Proof.
  unfold decodeQuota. intros Hw. destruct v; try done. case_match; [done|].
  destruct (int_keys m ∅) as [claims|] eqn:E; [|done].
  assert (claims_wf claims) as Hc.
  { eapply int_keys_wf; [by apply cbor_wf_map| |done]. apply map_Forall_empty. }
  repeat (case_match; try done); intros; simplify_eq.
  match goal with H : (_ =? 0)%Z = false |- _ => apply Z.eqb_neq in H end.
  split_and!; simpl; eauto using stringClaim_ok, uintClaim_ok.
  match goal with H : uintClaim _ 4 _ = _ |- _ => apply uintClaim_ok in H; [|done] end.
  unfold in_u64 in *. lia.
Qed.

Lemma optional_seal_ok claims k o s :
  optional claims k None decodeSeal = Some o → o = Some s → length s = 32.
Proof. unfold optional. case_match; [apply decodeSeal_ok|]. congruence. Qed.

Lemma optional_quota_ok claims k o q :
  claims_wf claims → optional claims k None (λ v, Some <$> decodeQuota v) = Some o →
  o = Some q → quota_ok q.
Proof.
  unfold optional. intros Hw. destruct (claims !! k) as [v|] eqn:E; [|congruence].
  destruct (decodeQuota v) eqn:Eq; simpl; [|done]. intros [= <-] [= <-].
  apply decodeQuota_ok in Eq; [done|]. by apply (Hw k).
Qed.

Lemma decodeClaims_ok claims tok :
  claims_wf claims → decodeClaims claims = inr tok → schema_ok tok.
Proof.
  intros Hw. unfold decodeClaims. cbv zeta. repeat (case_match; try done).
  intros [= <-]. unfold schema_ok; simpl.
  repeat match goal with H : sized _ _ = Some _ |- _ => apply sized_ok in H as [_ H] end.
  split_and!; eauto using stringClaim_ok, intClaim_ok, uintClaim_ok, optional_seal_ok,
    optional_quota_ok.
Qed.

Lemma decodeClaims_version claims tok :
  decodeClaims claims = inr tok →
  claims !! (-9)%Z = Some (CUint 2) ∨
  claims !! (-9)%Z = Some (CUint 1) ∧ t_PlanSeal tok = None.
Proof.
  unfold decodeClaims. cbv zeta. repeat (case_match; try done). intros [= <-]. simpl.
  match goal with H : uintClaim _ (-9) _ = Some ?v |- _ =>
    rename H into Hv; unfold uintClaim in Hv; destruct (claims !! (-9)%Z) as [w|]; [|done];
    destruct w; simplify_eq/=
  end.
  unfold tokenVersionV1, tokenVersionV2 in *.
  repeat match goal with H : _ && _ = false |- _ => apply andb_false_iff in H end.
  rewrite ?negb_false_iff, ?Z.eqb_eq, ?Z.eqb_neq, ?bool_decide_eq_false in *.
  destruct_or!; subst; try done; auto. right. split; [done|].
  by match goal with |- ?o = None => destruct o; [|done] end; exfalso; eauto.
Qed.

Lemma decodePayload_inv `{Cose} p tok :
  decodePayload p = inr tok →
  ∃ raw claims, strict_map p = Some raw ∧ canonical_map raw = Some p ∧
    int_keys raw ∅ = Some claims ∧ dom claims ⊆ (list_to_set known_claims : gset Z) ∧
    decodeClaims claims = inr tok.
Proof.
  unfold decodePayload. cbv zeta. destruct (strict_map p) as [raw|]; [|done].
  case_bool_decide as E1; [done|]. destruct (int_keys raw ∅) as [claims|] eqn:E2; [|done].
  case_bool_decide as E3; [done|]. intros E. exists raw, claims. split_and!; auto.
Qed.

(** The claims a token was read from, field by field. *)
Definition read_from (claims : gmap Z cbor) (tok : Token) : Prop :=
  claims !! 1%Z = Some (CText (t_Iss tok)) ∧ claims !! 2%Z = Some (CText (t_Sub tok)) ∧
  claims !! 4%Z ≫= asInt = Some (t_Exp tok) ∧ claims !! 6%Z ≫= asInt = Some (t_Iat tok) ∧
  claims !! 7%Z = Some (CBytes (t_JTI tok)) ∧ claims !! (-1)%Z = Some (CBytes (t_PolicyID tok)) ∧
  claims !! (-2)%Z = Some (CText (t_Action tok)) ∧ claims !! (-3)%Z = Some (CText (t_Resource tok)) ∧
  match claims !! (-4)%Z with
  | None => t_Class tok = DefaultClass
  | Some v => ∃ n, v = CUint n ∧ (n ≤ 3)%Z ∧ t_Class tok = Class_of n
  end ∧
  claims !! (-5)%Z = CBytes <$> t_ObjectSeal tok ∧
  claims !! (-6)%Z = Some (CUint (t_Epoch tok)) ∧
  match claims !! (-7)%Z with
  | None => t_Quota tok = None
  | Some v => ∃ q, decodeQuota v = Some q ∧ t_Quota tok = Some q
  end ∧
  claims !! (-8)%Z = CBytes <$> t_PlanSeal tok.

Lemma stringClaim_read claims k n s : stringClaim claims k true n = Some s → claims !! k = Some (CText s).
Proof. unfold stringClaim. repeat case_match; try done. by intros [= ->]. Qed.

Lemma intClaim_read claims k n : intClaim claims k true = Some n → claims !! k ≫= asInt = Some n.
Proof. unfold intClaim. by destruct (claims !! k). Qed.

Lemma uintClaim_read claims k n : uintClaim claims k true = Some n → claims !! k = Some (CUint n).
Proof. unfold uintClaim, asUint. destruct (claims !! k) as [[]|]; naive_solver. Qed.

Lemma bytesClaim_read claims k n b : sized n (bytesClaim claims k true) = Some b → claims !! k = Some (CBytes b).
Proof.
  unfold bytesClaim, sized, bytesFromAny. destruct (claims !! k) as [[]|]; try done. case_match; [|done]. by intros [= ->].
Qed.

Lemma optional_seal_read claims k o : optional claims k None decodeSeal = Some o → claims !! k = CBytes <$> o.
Proof.
  unfold optional, decodeSeal, sized, bytesFromAny. destruct (claims !! k) as [[]|]; try done; [|by intros [= <-]].
  destruct (_ =? _); [|done]. by intros [= <-].
Qed.

Lemma optional_class_read claims c :
  optional claims (-4) DefaultClass decodeClass = Some c →
  match claims !! (-4)%Z with
  | None => c = DefaultClass
  | Some v => ∃ n, v = CUint n ∧ (n ≤ 3)%Z ∧ c = Class_of n
  end.
Proof.
  unfold optional, decodeClass, asUint. destruct (claims !! (-4)%Z) as [[n| | | | |]|]; try done; [|by intros [= <-]].
  destruct (Z.ltb_spec 3 n); [done|]. intros [= <-]. eauto.
Qed.

Lemma optional_quota_read claims o :
  optional claims (-7) None (λ v, Some <$> decodeQuota v) = Some o →
  match claims !! (-7)%Z with
  | None => o = None
  | Some v => ∃ q, decodeQuota v = Some q ∧ o = Some q
  end.
Proof.
  unfold optional. destruct (claims !! (-7)%Z) as [v|]; [|by intros [= <-]].
  destruct (decodeQuota v) as [q|]; [|done]. intros [= <-]. eauto.
Qed.

Lemma decodeClaims_read claims tok : decodeClaims claims = inr tok → read_from claims tok.
Proof.
  unfold decodeClaims. cbv zeta. repeat (case_match; try done). intros [= <-]. unfold read_from; simpl.
  split_and!; first [by eapply stringClaim_read|by eapply intClaim_read|by eapply uintClaim_read|by eapply bytesClaim_read
    |by apply optional_seal_read|by apply optional_class_read|by apply optional_quota_read].
Qed.

(** C38: decoded tokens conform. A payload [decodePayload] accepts re-encodes to itself
    canonically, has no claim outside the schema, carries a supported version (the plan
    seal only in version 2); every field of the token it yields is the claim of its key, and is
    within the bounds [decodePayload] checks: the sizes of the texts, identifiers and seals, the
    class, the quota, and dates that fit an [int64]. *)
Theorem decoded_token_conforms `{CoseLaws} p tok :
  decodePayload p = inr tok →
  schema_ok tok ∧
  ∃ raw claims, strict_map p = Some raw ∧ canonical_map raw = Some p ∧
    int_keys raw ∅ = Some claims ∧
    (∀ key, is_Some (claims !! key) → key ∈ known_claims) ∧
    read_from claims tok ∧
    (claims !! (-9)%Z = Some (CUint 2) ∨
     claims !! (-9)%Z = Some (CUint 1) ∧ t_PlanSeal tok = None).
Proof.
  intros (raw & claims & E1 & E2 & E3 & E4 & E5)%decodePayload_inv. split.
  - apply decodeClaims_ok with claims; [|done].
    apply (int_keys_wf raw ∅); [by eapply strict_map_wf|apply map_Forall_empty|done].
  - exists raw, claims. split_and!; auto.
    + intros key Hk%elem_of_dom. apply E4 in Hk. by apply elem_of_list_to_set in Hk.
    + by apply decodeClaims_read.
    + by apply decodeClaims_version.
Qed.

(** ** Authenticity *)

(** The signature check a token went through: the payload it was decoded from was signed,
    under an Ed25519 header and with no unprotected parameter, by the key the pinned
    keyring holds under the 16-byte [kid] of the header. *)
Definition authentic `{Cose} (keyring : gmap bytes bytes) (wire : bytes) (tok : Token) : Prop :=
  ∃ msg protectedBytes protected kid pub,
    length wire ≤ MaxTokenWireSize ∧ sign1_unmarshal wire = Some msg ∧
    n_unprotected msg = 0 ∧ strict_bytes (raw_protected msg) = Some protectedBytes ∧
    strict_map protectedBytes = Some protected ∧ length protected ≤ 2 ∧
    header asInt 1 protected = Some AlgorithmEd25519 ∧
    header bytesFromAny 4 protected = Some kid ∧ length kid = 16 ∧
    keyring !! kid = Some pub ∧ sign1_verify msg pub = true ∧
    decodePayload (payload msg) = inr tok.

Lemma verifySignedToken_authentic `{Cose} keyring wire tok :
  verifySignedToken keyring wire = (Some tok, "") → authentic keyring wire tok.
Proof.
  unfold verifySignedToken. destruct (Nat.ltb_spec MaxTokenWireSize (length wire)); [done|].
  destruct (sign1_unmarshal wire) as [msg|] eqn:E1; [|done].
  destruct (Nat.ltb_spec 0 (n_unprotected msg)); [done|].
  destruct (strict_bytes (raw_protected msg)) as [pb|] eqn:E2; [|done].
  destruct (length pb =? 0); [done|].
  destruct (strict_map pb) as [prot|] eqn:E3; [|done].
  destruct (Nat.ltb_spec 2 (length prot)); [done|].
  destruct (header asInt 1 prot) as [alg|] eqn:E4; [|done].
  destruct (Z.eqb_spec alg AlgorithmEd25519) as [->|]; [|done]. simpl.
  destruct (sized 16 (header bytesFromAny 4 prot)) as [kid|] eqn:E5; [|done].
  apply sized_ok in E5 as [E5 L5].
  destruct (decodePayload (payload msg)) as [r|tok'] eqn:E6; [done|].
  destruct (keyring !! kid) as [pub|] eqn:E7; [|done].
  destruct (new_verifier pub); [|done]. destruct (sign1_verify msg pub) eqn:E8; [|done].
  intros [= <-]. exists msg, pb, prot, kid, pub. split_and!; auto; lia.
Qed.

(** The reason is empty only when a token is returned. *)
Lemma decodePayload_jti `{Cose} p tok : decodePayload p = inr tok → length (t_JTI tok) = 16.
Proof.
  intros (raw & claims & _ & _ & _ & _ & E)%decodePayload_inv. revert E. unfold decodeClaims. cbv zeta.
  repeat (case_match; try done). intros [= <-]. simpl.
  by repeat match goal with HX : sized _ _ = Some _ |- _ => apply sized_ok in HX as [_ HX] end.
Qed.

Lemma decodePayload_reason_short `{Cose} p r : decodePayload p = inl r → slen r ≤ 255.
Proof. unfold decodePayload, decodeClaims. cbv zeta. repeat (case_match; try done); intros [= <-]; vm_compute; lia. Qed.

Lemma decodePayload_reason `{Cose} p r : decodePayload p = inl r → r ≠ "".
Proof.
  unfold decodePayload, decodeClaims. cbv zeta.
  repeat (case_match; try (intros [= <-]; done)).
Qed.

Lemma verifySignedToken_reason `{Cose} keyring wire tok :
  verifySignedToken keyring wire = (tok, "") → is_Some tok.
Proof.
  unfold verifySignedToken. repeat (case_match; try done); intros; simplify_eq; eauto.
  by match goal with H : decodePayload _ = inl _ |- _ => apply decodePayload_reason in H end.
Qed.

(** Possession is a signature. [VerifyPossession], which guards the decrement of a
    passport, yields a token only if the presented bytes carry that token signed by a key
    of the pinned keyring. *)
Lemma VerifyPossession_authentic `{Cose} keyring wire tok :
  VerifyPossession keyring wire = inr tok → authentic keyring wire tok.
Proof.
  unfold VerifyPossession. destruct (verifySignedToken keyring wire) as [[tk|] r] eqn:E; [|done].
  case_bool_decide; [|done]. intros [= <-]. subst. by apply verifySignedToken_authentic.
Qed.
