(* ===== verification/Issuer.v ===== *)
(** The token issuer of the broker: [src/broker/issuer.go].

    [Issue] checks the claims of a token, encodes them in canonical CBOR, signs them and
    serializes the COSE envelope. The round-trip theorem closes the loop with the
    validator: what [Issue] emits, [verifySignedToken] accepts as authentic and decodes
    to the token that was asked for. *)
From S2P Require Import Prelude.
From S2P Require Import Hex.
From S2P Require Import Json.
From S2P Require Import Token.

Definition tokenVersion : Z := 2.
Definition defaultTTLSec : Z := 45.

Inductive issue_error :=
  | ErrSignerRequired | ErrCellIDInvalid | ErrTTLInvalid | ErrSubjectInvalid
  | ErrActionInvalid | ErrResourceInvalid | ErrClassInvalid | ErrQuotaInvalid
  | ErrTokenTooLarge | ErrEncode | ErrSign | ErrSerialize.

Record IssueParams := mkIssueParams {
  ip_Subject : string;
  ip_Action : string;
  ip_Resource : string;
  ip_Class : option Class_;
  ip_ObjectSeal : option bytes;
  ip_Quota : option Quota;
  ip_PlanSeal : option bytes;
  ip_JTI : bytes;
  ip_Epoch : Z;
  ip_Iat : Z;
}.

Record Issuer := mkIssuer {
  is_cellID : string;
  is_policyID : bytes;
  is_ttlSec : Z;
  is_kid : bytes;
  is_pub : bytes;      (* signer.Public() *)
}.

(** [NewIssuer]; [signer] is the public key of the signer, [None] for a nil signer. *)
Definition NewIssuer `{Crypto} (cellID : string) (signer : option bytes) (policyID : bytes)
    (ttlSec : Z) : issue_error + Issuer :=
  if (slen cellID =? 0) || (maxIssSubActionLen <? slen cellID) then inl ErrCellIDInvalid
  else match signer with
       | None => inl ErrSignerRequired
       | Some pub =>
           let ttl := if (ttlSec =? 0)%Z then defaultTTLSec else ttlSec in
           if ((ttl <? minTTLSec) || (maxTTLSec <? ttl))%Z then inl ErrTTLInvalid
           else inr (mkIssuer cellID policyID ttl (KeyIDFromPublicKey pub) pub)
       end.

(** An integer key of a Go [map[int64]any], as CBOR encodes it. *)
Definition int_key (z : Z) : cbor := if (0 <=? z)%Z then CUint z else CInt z.

Definition when {A} (o : option A) (f : A → cbor * cbor) : list (cbor * cbor) :=
  match o with Some x => [f x] | None => [] end.

Definition quota_claims (q : Quota) : list (cbor * cbor) :=
  [(int_key 1, CText (q_Resource q)); (int_key 2, CText (q_Operation q));
   (int_key 3, CUint (q_VolumeMax q)); (int_key 4, CUint (q_WindowS q))].

(** The claim map of [Issue], listed in canonical key order. *)
Definition issue_claims (i : Issuer) (p : IssueParams) : list (cbor * cbor) :=
  [(int_key 1, CText (is_cellID i)); (int_key 2, CText (ip_Subject p));
   (int_key 4, CUint (u64 (ip_Iat p + is_ttlSec i))); (int_key 6, CUint (u64 (ip_Iat p)));
   (int_key 7, CBytes (ip_JTI p)); (int_key (-1), CBytes (is_policyID i));
   (int_key (-2), CText (ip_Action p)); (int_key (-3), CText (ip_Resource p))]
  ++ when (ip_Class p) (λ c, (int_key (-4), CUint (Class_num c)))
  ++ when (ip_ObjectSeal p) (λ s, (int_key (-5), CBytes s))
  ++ [(int_key (-6), CUint (ip_Epoch p))]
  ++ when (ip_Quota p) (λ q, (int_key (-7), CMap (quota_claims q)))
  ++ when (ip_PlanSeal p) (λ s, (int_key (-8), CBytes s))
  ++ [(int_key (-9), CUint tokenVersion)].

(** The signing half of the COSE library and the [Signer] seam. *)
Class CoseSign `{Cose} := {
  sign1_sign : list (cbor * cbor) → bytes → option bytes;   (* msg.Sign: protected, payload *)
  sign1_marshal : list (cbor * cbor) → bytes → bytes → option bytes; (* msg.MarshalCBOR *)
}.

Definition out_of (s : string) (maxLen : nat) : bool := (slen s <? 1) || (maxLen <? slen s).

Definition quota_invalid (q : Quota) : bool :=
  out_of (q_Resource q) maxResourceLen || out_of (q_Operation q) maxQuotaOpLen
  || (q_WindowS q =? 0)%Z.

(** The protected headers [Issue] sets. *)
Definition issue_headers `{Cose} (i : Issuer) : list (cbor * cbor) :=
  [(int_key 1, int_key AlgorithmEd25519); (int_key 4, CBytes (is_kid i))].

(** [Issuer.Issue]. A class is always within range in the model (ErrClassInvalid is for
    the other values of Go's [uint8]). *)
Definition Issue `{CoseSign} (i : Issuer) (p : IssueParams) : issue_error + bytes :=
  if out_of (ip_Subject p) maxIssSubActionLen then inl ErrSubjectInvalid
  else if out_of (ip_Action p) maxIssSubActionLen then inl ErrActionInvalid
  else if out_of (ip_Resource p) maxResourceLen then inl ErrResourceInvalid
  else if (match ip_Quota p with Some q => quota_invalid q | None => false end) then
    inl ErrQuotaInvalid
  else check canonical_map (issue_claims i p) as payload else inl ErrEncode in
       check sign1_sign (issue_headers i) payload as sig else inl ErrSign in
       check sign1_marshal (issue_headers i) payload sig as wire else inl ErrSerialize in
       if MaxTokenWireSize <? length wire then inl ErrTokenTooLarge else inr wire.

(** The token the validator should recover from an issued one. *)
Definition issued_token (i : Issuer) (p : IssueParams) : Token :=
  mkToken (is_cellID i) (ip_Subject p) (ip_Iat p) (ip_Iat p + is_ttlSec i)%Z (ip_JTI p)
    (is_policyID i) (ip_Action p) (ip_Resource p) (default DefaultClass (ip_Class p))
    (ip_ObjectSeal p) (ip_Epoch p) (ip_Quota p) (ip_PlanSeal p).

(** The texts of a token. *)
Definition issue_texts (i : Issuer) (p : IssueParams) : list string :=
  [is_cellID i; ip_Subject p; ip_Action p; ip_Resource p]
  ++ match ip_Quota p with Some q => [q_Resource q; q_Operation q] | None => [] end.

(** What [Issue] takes for granted: fixed-size arrays, texts in valid UTF-8, a date from 1970
    on, and an expiry that does not overflow. [Issue] checks none of the last three. *)
Definition params_typed (i : Issuer) (p : IssueParams) : Prop :=
  Forall (λ s, utf8 (sb s)) (issue_texts i p) ∧
  length (ip_JTI p) = 16 ∧ length (is_policyID i) = 32 ∧ length (is_kid i) = 16 ∧
  (∀ s, ip_ObjectSeal p = Some s → length s = 32) ∧
  (∀ s, ip_PlanSeal p = Some s → length s = 32) ∧
  text_ok (is_cellID i) maxIssSubActionLen ∧
  (0 ≤ ip_Iat p)%Z ∧ (0 ≤ is_ttlSec i)%Z ∧ (ip_Iat p + is_ttlSec i < 2^63)%Z.

(** ** Decoding what was encoded *)

Lemma out_of_false s n : out_of s n = false → text_ok s n.
Proof.
  unfold out_of, text_ok. intros [H1 H2]%orb_false_elim.
  apply Nat.ltb_ge in H1, H2. lia.
Qed.

Lemma stringClaim_hit claims k n s :
  claims !! k = Some (CText s) → text_ok s n → stringClaim claims k true n = Some s.
Proof.
  unfold stringClaim, text_ok. intros -> Hs.
  destruct (Nat.ltb_spec (slen s) 1), (Nat.ltb_spec n (slen s)); try lia. done.
Qed.

Lemma uintClaim_hit claims k n :
  claims !! k = Some (CUint n) → uintClaim claims k true = Some n.
Proof. unfold uintClaim. by intros ->. Qed.

Lemma sized_hit n b : length b = n → sized n (Some b) = Some b.
Proof. intros <-. simpl. by rewrite Nat.eqb_refl. Qed.

Lemma asInt_u64 z : (0 ≤ z < 2^63)%Z → asInt (CUint (u64 z)) = Some z.
Proof.
  intros Hz. simpl. rewrite u64_small by (unfold in_u64; lia).
  destruct (Z.ltb_spec (2^63 - 1) z); [lia|done].
Qed.

Lemma decodeQuota_hit q : quota_invalid q = false → decodeQuota (CMap (quota_claims q)) = Some q.
Proof.
  unfold quota_invalid. intros [[H1%out_of_false H2%out_of_false]%orb_false_elim H3]%orb_false_elim.
  unfold decodeQuota. cbn [quota_claims length Nat.eqb negb].
  fold (quota_claims q).
  destruct (int_keys (quota_claims q) ∅) as [claims|] eqn:E; [|done].
  assert (claims !! 1%Z = Some (CText (q_Resource q)) ∧
    claims !! 2%Z = Some (CText (q_Operation q)) ∧ claims !! 3%Z = Some (CUint (q_VolumeMax q)) ∧
    claims !! 4%Z = Some (CUint (q_WindowS q))) as (L1 & L2 & L3 & L4).
  { injection E as <-. split_and!; reflexivity. }
  rewrite (stringClaim_hit _ 1 _ (q_Resource q)) by done.
  rewrite (stringClaim_hit _ 2 _ (q_Operation q)) by done.
  rewrite (uintClaim_hit _ 3 (q_VolumeMax q)), (uintClaim_hit _ 4 (q_WindowS q)) by done.
  rewrite H3. by destruct q.
Qed.

(** The typed claims of an issued token, read key by key. *)
Lemma issue_claims_lookup i p :
  ∃ claims, int_keys (issue_claims i p) ∅ = Some claims ∧
    dom claims ⊆ (list_to_set known_claims : gset Z) ∧
    claims !! 1%Z = Some (CText (is_cellID i)) ∧ claims !! 2%Z = Some (CText (ip_Subject p)) ∧
    claims !! 4%Z = Some (CUint (u64 (ip_Iat p + is_ttlSec i))) ∧
    claims !! 6%Z = Some (CUint (u64 (ip_Iat p))) ∧ claims !! 7%Z = Some (CBytes (ip_JTI p)) ∧
    claims !! (-1)%Z = Some (CBytes (is_policyID i)) ∧
    claims !! (-2)%Z = Some (CText (ip_Action p)) ∧
    claims !! (-3)%Z = Some (CText (ip_Resource p)) ∧
    claims !! (-4)%Z = (λ c, CUint (Class_num c)) <$> ip_Class p ∧
    claims !! (-5)%Z = CBytes <$> ip_ObjectSeal p ∧
    claims !! (-6)%Z = Some (CUint (ip_Epoch p)) ∧
    claims !! (-7)%Z = (λ q, CMap (quota_claims q)) <$> ip_Quota p ∧
    claims !! (-8)%Z = CBytes <$> ip_PlanSeal p ∧
    claims !! (-9)%Z = Some (CUint 2).
Proof.
  destruct p as [sub act res cls osl quo psl jti ep iat].
  destruct cls, osl, quo, psl; eexists; (split; [reflexivity|]);
    (split; [rewrite !dom_insert_L; set_solver|]); split_and!; reflexivity.
Qed.

Lemma Class_roundtrip c : decodeClass (CUint (Class_num c)) = Some c.
Proof. by destruct c. Qed.

Lemma optional_seal_hit claims k o :
  claims !! k = CBytes <$> o → (∀ s, o = Some s → length s = 32) →
  optional claims k None decodeSeal = Some o.
Proof.
  unfold optional. intros -> Ho. destruct o as [s|]; [|done]. simpl.
  unfold decodeSeal, bytesFromAny. by rewrite sized_hit by (by apply Ho).
Qed.

Lemma decode_issued i p claims :
  int_keys (issue_claims i p) ∅ = Some claims →
  params_typed i p →
  text_ok (ip_Subject p) maxIssSubActionLen → text_ok (ip_Action p) maxIssSubActionLen →
  text_ok (ip_Resource p) maxResourceLen →
  (∀ q, ip_Quota p = Some q → quota_invalid q = false) →
  dom claims ⊆ (list_to_set known_claims : gset Z) ∧
  decodeClaims claims = inr (issued_token i p).
Proof.
  intros E (_ & Hj & Hp & _ & Hos & Hps & Hcell & Hiat & Httl & Hexp) Hsub Hact Hres Hquo.
  destruct (issue_claims_lookup i p) as (c & E' & Hdom & L1 & L2 & L4 & L6 & L7 & M1 & M2 & M3
    & M4 & M5 & M6 & M7 & M8 & M9).
  rewrite E in E'. injection E' as <-. split; [done|]. unfold decodeClaims. cbv zeta.
  rewrite (stringClaim_hit _ _ _ _ L1), (stringClaim_hit _ _ _ _ L2) by done.
  unfold intClaim at 1 2. rewrite L4, L6, !asInt_u64 by lia.
  unfold bytesClaim at 1 2. rewrite L7, M1. unfold bytesFromAny at 1 2.
  rewrite !sized_hit by done.
  rewrite (stringClaim_hit _ _ _ _ M2), (stringClaim_hit _ _ _ _ M3) by done.
  assert (optional claims (-4) DefaultClass decodeClass = Some (default DefaultClass (ip_Class p)))
    as -> by (unfold optional; rewrite M4; destruct (ip_Class p) as [[]|]; done).
  rewrite (optional_seal_hit _ _ _ M5) by done.
  rewrite (uintClaim_hit _ _ _ M6).
  assert (optional claims (-7) None (λ v, Some <$> decodeQuota v) = Some (ip_Quota p)) as ->.
  { unfold optional. rewrite M7. destruct (ip_Quota p) as [q|]; [|done]. cbn [fmap option_fmap option_map].
    by rewrite decodeQuota_hit by (by apply Hquo). }
  rewrite (optional_seal_hit _ _ _ M8) by done.
  by rewrite (uintClaim_hit _ _ _ M9).
Qed.

(** ** The library laws the round trip rests on *)

(** The place of a short integer key in a canonical map (RFC 8949, 4.2.1: the order of
    the encoded keys). *)
Definition key_rank (k : cbor) : option Z :=
  match k with
  | CUint n => if (n <? 24)%Z then Some n else None
  | CInt z => if (- 25 <? z)%Z then Some (31 - z)%Z else None
  | _ => None
  end.

Fixpoint ranks_increase (last : Z) (m : list (cbor * cbor)) : Prop :=
  match m with
  | [] => True
  | (k, _) :: m' => ∃ r, key_rank k = Some r ∧ (last < r)%Z ∧ ranks_increase r m'
  end.

(** Short integer keys in canonical order, in the map and in the maps it holds. *)
Definition canonical_order (m : list (cbor * cbor)) : Prop :=
  ranks_increase (-1) m ∧ ∀ k m', (k, CMap m') ∈ m → ranks_increase (-1) m'.

(** An item that decodes to itself: a negative number is an integer ([CInt]), any other an
    unsigned one ([CUint], a [uint64]), and a text is valid UTF-8. The encoder writes the bytes
    of any Go string as a text; the decoder refuses the ill-formed ones. *)
Definition readable_item (v : cbor) : Prop :=
  match v with
  | CUint _ | CBytes _ => True
  | CInt z => (z < 0)%Z
  | CText s => utf8 (sb s)
  | CMap _ | COther => False
  end.

Definition readable_value (v : cbor) : Prop :=
  match v with
  | CMap m => Forall (λ kv, readable_item kv.1 ∧ readable_item kv.2) m
  | _ => readable_item v
  end.

Definition readable_map (m : list (cbor * cbor)) : Prop :=
  Forall (λ kv, readable_item kv.1 ∧ readable_value kv.2) m.

(** Documented behaviour of the libraries: decoding a canonical encoding of readable items gives
    the map back, the envelope of a non-empty protected header unmarshals to what was marshalled,
    and a signature made with the signer's key verifies under its public key. *)
Class CoseRoundTrip `{CoseSign} (pub : bytes) := {
  strict_canonical : ∀ m p, canonical_order m → readable_map m →
    canonical_map m = Some p → strict_map p = Some m;
  sign1_roundtrip : ∀ hdr pl sig wire,
    hdr ≠ [] → canonical_order hdr → readable_map hdr →
    sign1_marshal hdr pl sig = Some wire →
    ∃ rawp pb, sign1_unmarshal wire = Some (mkSign1 0 rawp pl sig) ∧
      strict_bytes rawp = Some pb ∧ pb ≠ [] ∧ strict_map pb = Some hdr;
  sign_verifies : ∀ hdr pl sig wire msg,
    sign1_sign hdr pl = Some sig → sign1_marshal hdr pl sig = Some wire →
    sign1_unmarshal wire = Some msg → sign1_verify msg pub = true;
  verifier_ok : new_verifier pub = true;
  alg_int64 : in_i64 AlgorithmEd25519;
}.

Lemma int_key_readable z : readable_item (int_key z).
Proof. unfold int_key. destruct (Z.leb_spec 0 z); simpl; [done|lia]. Qed.

Lemma when_readable {A} (o : option A) f :
  (∀ x, o = Some x → readable_item (f x).1 ∧ readable_value (f x).2) → readable_map (when o f).
Proof. destruct o; simpl; intros HF; [apply Forall_singleton; auto|apply Forall_nil_2]. Qed.

#[local] Hint Resolve int_key_readable : core.

Lemma issue_claims_readable i p :
  Forall (λ s, utf8 (sb s)) (issue_texts i p) → readable_map (issue_claims i p).
Proof.
  unfold issue_texts. intros [HT HQ]%Forall_app.
  apply Forall_cons in HT as [H1 [H2 [H3 [H4 _]%Forall_cons]%Forall_cons]%Forall_cons].
  unfold readable_map, issue_claims. rewrite !Forall_app. split_and!;
    try (apply when_readable; intros x Hx; split; [apply int_key_readable|done]);
    repeat (apply Forall_cons; split; [by split|]); try apply Forall_nil_2.
  apply when_readable. intros q Hq. rewrite Hq in HQ. split; [apply int_key_readable|].
  apply Forall_cons in HQ as [H5 [H6 _]%Forall_cons].
  repeat (apply Forall_cons; split; [by split|]). apply Forall_nil_2.
Qed.

Lemma issue_headers_readable `{Cose} i :
  issue_headers i ≠ [] ∧ canonical_order (issue_headers i) ∧ readable_map (issue_headers i).
Proof.
  split; [done|]. split.
  - split; [simpl; repeat (eexists; split_and!; [reflexivity|lia|]); done|].
    unfold issue_headers. intros k m [Hm|[Hm|Hm%not_elem_of_nil]%elem_of_cons]%elem_of_cons; [|simplify_eq|done].
    injection Hm as _ Hm. unfold int_key in Hm. by case_match.
  - unfold issue_headers. apply Forall_cons. split; [split; [done|]|apply Forall_singleton; done].
    cbn [snd]. pose proof (int_key_readable AlgorithmEd25519). unfold int_key in *. by case_match.
Qed.

Lemma issue_claims_canonical i p : canonical_order (issue_claims i p).
Proof.
  destruct p as [sub act res cls osl quo psl jti ep iat]. split.
  - destruct cls, osl, quo, psl; simpl; repeat (eexists; split_and!; [reflexivity|lia|]); done.
  - unfold issue_claims, when. simpl. intros k m' Hin.
    destruct cls, osl, quo as [q|], psl; simpl in Hin;
      repeat (apply elem_of_cons in Hin as [Hin|Hin]; [simplify_eq|]);
      try (by apply not_elem_of_nil in Hin);
      simpl; repeat (eexists; split_and!; [reflexivity|lia|]); done.
Qed.

Lemma headers_read `{Cose} i :
  in_i64 AlgorithmEd25519 →
  header asInt 1 (issue_headers i) = Some AlgorithmEd25519 ∧
  header bytesFromAny 4 (issue_headers i) = Some (is_kid i).
Proof.
  intros Ha. unfold issue_headers, header, int_key, in_i64 in *. simpl. split; [|done].
  destruct (Z.leb_spec 0 AlgorithmEd25519); simpl; [|done].
  destruct (Z.ltb_spec (2^63 - 1) AlgorithmEd25519); [lia|done].
Qed.

(** What [Issue] emits opens to its claims. *)
Lemma issued_decodes `{CoseSign} i p keyring wire `{!CoseRoundTrip (is_pub i)} :
  params_typed i p →
  keyring !! is_kid i = Some (is_pub i) →
  Issue i p = inr wire →
  verifySignedToken keyring wire = (Some (issued_token i p), "").
Proof.
  intros Hty Hkr. unfold Issue.
  destruct (out_of (ip_Subject p) _) eqn:E1; [done|].
  destruct (out_of (ip_Action p) _) eqn:E2; [done|].
  destruct (out_of (ip_Resource p) _) eqn:E3; [done|].
  destruct (match ip_Quota p with Some _ => _ | None => _ end) eqn:E4; [done|].
  destruct (canonical_map (issue_claims i p)) as [pl|] eqn:E5; [|done].
  destruct (sign1_sign (issue_headers i) pl) as [sig|] eqn:E6; [|done].
  destruct (sign1_marshal (issue_headers i) pl sig) as [w|] eqn:E7; [|done].
  destruct (Nat.ltb_spec MaxTokenWireSize (length w)); [done|]. intros [= <-].
  destruct (issue_headers_readable i) as (R1 & R2 & R3).
  destruct (sign1_roundtrip _ _ _ _ R1 R2 R3 E7) as (rawp & pb & U1 & U2 & U3 & U4).
  destruct (headers_read i alg_int64) as [A1 A2].
  destruct (issue_claims_lookup i p) as (claims & EK & _).
  destruct (decode_issued i p claims EK Hty) as [D1 D2]; auto using out_of_false.
  { intros q Hq. by rewrite Hq in E4. }
  pose proof (strict_canonical _ _ (issue_claims_canonical i p) (issue_claims_readable i p (proj1 Hty)) E5) as SC.
  unfold verifySignedToken. destruct (Nat.ltb_spec MaxTokenWireSize (length w)); [lia|].
  rewrite U1. cbn [n_unprotected raw_protected payload]. rewrite U2. simpl (0 <? 0).
  destruct (Nat.eqb_spec (length pb) 0) as [->%nil_length_inv|]; [done|].
  rewrite U4. simpl (2 <? _). rewrite A1, A2, Z.eqb_refl. simpl (negb true).
  rewrite sized_hit by apply Hty. unfold decodePayload. rewrite SC. cbv zeta.
  rewrite bool_decide_false by (intros Hn; by apply Hn). rewrite EK.
  rewrite bool_decide_false by (intros Hn; by apply Hn). rewrite D2, Hkr.
  by rewrite verifier_ok, (sign_verifies _ _ _ _ _ E6 E7 U1).
Qed.

(** C10: issue, then verify. A token emitted by [Issue] is accepted by [verifySignedToken]
    of any cell whose keyring pins the issuer's key, and decodes to exactly the claims it
    was issued for, when its texts are valid UTF-8, its date is not before 1970 and its expiry
    fits an [int64]. *)
Theorem issued_token_verifies `{CoseSign} i p keyring wire `{!CoseRoundTrip (is_pub i)} :
  params_typed i p →
  keyring !! is_kid i = Some (is_pub i) →
  Issue i p = inr wire →
  verifySignedToken keyring wire = (Some (issued_token i p), "").
Proof. by apply issued_decodes. Qed.
