(* ===== verification/DemoCose.v ===== *)
(** A concrete CBOR and COSE codec for the examples.

    The sources use the fxamacker/cbor and veraison/go-cose libraries through the interface
    [Cose]. This file instantiates that interface: deterministic CBOR (RFC 8949) for the
    values a token is made of, the COSE_Sign1 envelope (RFC 9052), and the stand-in signature
    of Sha256.v, so that the theorems stated against the interface are applied to concrete
    tokens. An encoding is only returned when it decodes back, which is what the interface
    asks of the libraries. *)
From S2P Require Import Prelude.
From S2P Require Import Sha256.
From S2P Require Import Token.
From S2P Require Import Issuer.

(** ** Values *)

Fixpoint cbor_eqb (v w : cbor) : bool :=
  match v, w with
  | CUint n, CUint m => (n =? m)%Z
  | CInt n, CInt m => (n =? m)%Z
  | CBytes a, CBytes b => bool_decide (a = b)
  | CText a, CText b => bool_decide (a = b)
  | CMap a, CMap b =>
      (fix go (a b : list (cbor * cbor)) : bool :=
         match a, b with
         | [], [] => true
         | (k, x) :: a', (l, y) :: b' => cbor_eqb k l && cbor_eqb x y && go a' b'
         | _, _ => false
         end) a b
  | COther, COther => true
  | _, _ => false
  end.

Fixpoint cbor_wfb (v : cbor) : bool :=
  match v with
  | CUint n => (0 <=? n)%Z && (n <? 2^64)%Z
  | CInt z => (- 2^63 <=? z)%Z && (z <? 0)%Z
  | CMap m =>
      (fix go (m : list (cbor * cbor)) : bool :=
         match m with [] => true | (k, x) :: m' => cbor_wfb k && (cbor_wfb x && go m') end) m
  | _ => true
  end.

(** Structural induction that reaches the entries of maps. *)
Definition cbor_induction (P : cbor → Prop)
    (HU : ∀ n, P (CUint n)) (HI : ∀ z, P (CInt z)) (HB : ∀ b, P (CBytes b)) (HT : ∀ s, P (CText s))
    (HM : ∀ m, Forall (λ kv, P kv.1 ∧ P kv.2) m → P (CMap m)) (HO : P COther) : ∀ v, P v :=
  fix rec v :=
    match v with
    | CUint n => HU n
    | CInt z => HI z
    | CBytes b => HB b
    | CText s => HT s
    | CMap m =>
        HM m ((fix go m : Forall (λ kv, P kv.1 ∧ P kv.2) m :=
                 match m with
                 | [] => Forall_nil_2 _
                 | kv :: m' => Forall_cons_2 _ kv m' (conj (rec kv.1) (rec kv.2)) (go m')
                 end) m)
    | COther => HO
    end.

Lemma cbor_eqb_eq v : ∀ w, cbor_eqb v w = true → v = w.
Proof.
  induction v as [n|z|b|s|m IH|] using cbor_induction; intros [n'|z'|b'|s'|m'|]; simpl; try done.
  - by intros ->%Z.eqb_eq.
  - by intros ->%Z.eqb_eq.
  - by intros ->%bool_decide_eq_true.
  - by intros ->%bool_decide_eq_true.
  - intros E. f_equal. revert m' E. induction IH as [|[k x] m [Hk Hx] IH IHm]; intros [|[l y] m'];
      try done. intros [[Ek Ex]%andb_prop Em]%andb_prop. simpl in *.
    by rewrite (Hk _ Ek), (Hx _ Ex), (IHm _ Em).
Qed.

Lemma cbor_wfb_wf v : cbor_wfb v = true → cbor_wf v.
Proof.
  induction v as [n|z|b|s|m IH|] using cbor_induction; simpl; try done.
  - intros [?%Z.leb_le ?%Z.ltb_lt]%andb_prop. done.
  - intros [?%Z.leb_le ?%Z.ltb_lt]%andb_prop. done.
  - induction IH as [|[k x] m [Hk Hx] IH IHm]; [done|].
    intros [Ek [Ex Em]%andb_prop]%andb_prop. split; [by apply Hk|split; [by apply Hx|by apply IHm]].
Qed.

(** ** Encoding *)

Definition cbor_head (major n : Z) : bytes :=
  let mt := (major * 32)%Z in
  if (n <? 24)%Z then [z2b (mt + n)]
  else if (n <? 2^8)%Z then z2b (mt + 24) :: be 1 n
  else if (n <? 2^16)%Z then z2b (mt + 25) :: be 2 n
  else if (n <? 2^32)%Z then z2b (mt + 26) :: be 4 n
  else z2b (mt + 27) :: be 8 n.

Fixpoint enc (v : cbor) : bytes :=
  match v with
  | CUint n => cbor_head 0 n
  | CInt z => cbor_head 1 (-1 - z)
  | CBytes b => cbor_head 2 (Z.of_nat (length b)) ++ b
  | CText s => cbor_head 3 (Z.of_nat (slen s)) ++ sb s
  | CMap m =>
      cbor_head 5 (Z.of_nat (length m)) ++
      (fix go (m : list (cbor * cbor)) : bytes :=
         match m with [] => [] | (k, x) :: m' => enc k ++ enc x ++ go m' end) m
  | COther => [z2b 246]
  end.

(** ** Decoding *)

(** Major type, argument and rest; indefinite lengths are refused. *)
Definition dec_head (l : bytes) : option (Z * Z * bytes) :=
  match l with
  | [] => None
  | b :: l' =>
      let mt := (b2z b / 32)%Z in
      let arg := (b2z b mod 32)%Z in
      let long (n : nat) :=
        if length l' <? n then None else Some (mt, be_val (take n l'), drop n l') in
      if (arg <? 24)%Z then Some (mt, arg, l')
      else if (arg =? 24)%Z then long 1
      else if (arg =? 25)%Z then long 2
      else if (arg =? 26)%Z then long 4
      else if (arg =? 27)%Z then long 8
      else None
  end.

Definition dec_take (n : Z) (l : bytes) : option (bytes * bytes) :=
  if (Z.of_nat (length l) <? n)%Z then None else Some (take (Z.to_nat n) l, drop (Z.to_nat n) l).

(** [fuel] bounds the nesting and the entries: every item takes at least one byte. *)
Fixpoint dec (fuel : nat) (l : bytes) : option (cbor * bytes) :=
  match fuel with
  | O => None
  | S fuel' =>
      '(mt, n, l1) ← dec_head l;
      if (mt =? 0)%Z then Some (CUint n, l1)
      else if (mt =? 1)%Z then Some (CInt (-1 - n), l1)
      else if (mt =? 2)%Z then '(b, l2) ← dec_take n l1; Some (CBytes b, l2)
      else if (mt =? 3)%Z then '(b, l2) ← dec_take n l1; Some (CText (bs b), l2)
      else if (mt =? 5)%Z then
        '(m, l2) ← (fix go (k : nat) (l : bytes) : option (list (cbor * cbor) * bytes) :=
           match k with
           | O => Some ([], l)
           | S k' =>
               '(key, l1) ← dec fuel' l;
               '(val, l2) ← dec fuel' l1;
               '(m, l3) ← go k' l2;
               Some ((key, val) :: m, l3)
           end) (Nat.min (Z.to_nat n) (length l1)) l1;
        Some (CMap m, l2)
      else Some (COther, l1)
  end.

Definition demo_strict_map (p : bytes) : option (list (cbor * cbor)) :=
  match dec 8 p with
  | Some (CMap m, []) => if cbor_wfb (CMap m) then Some m else None
  | _ => None
  end.

Definition demo_strict_bytes (p : bytes) : option bytes :=
  match dec 1 p with Some (CBytes b, []) => Some b | _ => None end.

Definition demo_canonical_map (m : list (cbor * cbor)) : option bytes :=
  let p := enc (CMap m) in
  match demo_strict_map p with
  | Some m' => if cbor_eqb (CMap m') (CMap m) then Some p else None
  | None => None
  end.

(** ** COSE_Sign1 *)

(** The protected header as the envelope carries it. *)
Definition raw_header (hdr : list (cbor * cbor)) : bytes := enc (CBytes (enc (CMap hdr))).

(** The [Sig_structure] of RFC 9052 with an empty external_aad. *)
Definition to_be_signed (rawp pl : bytes) : bytes :=
  [z2b 132] ++ enc (CText "Signature1") ++ rawp ++ enc (CBytes []) ++ enc (CBytes pl).

(** An envelope: tag 18, an array of four, no unprotected header. *)
Definition demo_envelope (rawp pl sig : bytes) : bytes :=
  [z2b 210; z2b 132] ++ rawp ++ [z2b 160] ++ enc (CBytes pl) ++ enc (CBytes sig).

Definition demo_unmarshal (wire : bytes) : option Sign1Message :=
  match wire with
  | a :: b :: l =>
      if negb ((b2z a =? 210)%Z && (b2z b =? 132)%Z) then None
      else
        '(pb, l1) ← dec 1 l;
        match pb with
        | CBytes hdr =>
            '(un, l2) ← dec 8 l1;
            match un with
            | CMap um =>
                '(pl, l3) ← dec 1 l2;
                '(sg, l4) ← dec 1 l3;
                match pl, sg, l4 with
                | CBytes pl, CBytes sg, [] => Some (mkSign1 (length um) (enc (CBytes hdr)) pl sg)
                | _, _, _ => None
                end
            | _ => None
            end
        | _ => None
        end
  | _ => None
  end.

Definition demo_verify (msg : Sign1Message) (pub : bytes) : bool :=
  bool_decide (signature msg = demo_sign pub (to_be_signed (raw_protected msg) (payload msg))).

Definition demo_cose : Cose := {|
  sign1_unmarshal := demo_unmarshal;
  strict_bytes := demo_strict_bytes;
  strict_map := demo_strict_map;
  canonical_map := demo_canonical_map;
  new_verifier pub := length pub =? 32;
  sign1_verify := demo_verify;
  AlgorithmEd25519 := -8;
|}.

(** Whether an envelope reads back as what was put in it. *)
Definition reads_back (hdr : list (cbor * cbor)) (pl sig wire : bytes) : bool :=
  match demo_unmarshal wire with
  | Some msg =>
      (n_unprotected msg =? 0) && bool_decide (raw_protected msg = raw_header hdr) &&
      bool_decide (payload msg = pl) && bool_decide (signature msg = sig) &&
      match demo_strict_bytes (raw_header hdr) with
      | Some pb => negb (bool_decide (pb = [])) &&
                   match demo_strict_map pb with Some h => cbor_eqb (CMap h) (CMap hdr) | None => false end
      | None => false
      end
  | None => false
  end.

Definition demo_marshal (hdr : list (cbor * cbor)) (pl sig : bytes) : option bytes :=
  let wire := demo_envelope (raw_header hdr) pl sig in
  if reads_back hdr pl sig wire then Some wire else None.

(** The signer that holds the key [pub]. *)
Definition demo_signer (pub : bytes) : @CoseSign demo_cose := @Build_CoseSign demo_cose
  (λ hdr pl, Some (demo_sign pub (to_be_signed (raw_header hdr) pl)))
  demo_marshal.

(** ** The laws of the interface *)

Lemma demo_cose_laws : @CoseLaws demo_cose.
Proof.
  intros p raw E. change (demo_strict_map p = Some raw) in E. unfold demo_strict_map in E.
  destruct (dec 8 p) as [[[]  []]|]; try done. destruct (cbor_wfb (CMap m)) eqn:Ew; [|done].
  injection E as <-. apply cbor_wf_map. by apply cbor_wfb_wf.
Qed.

Lemma reads_back_spec hdr pl sig wire :
  reads_back hdr pl sig wire = true →
  demo_unmarshal wire = Some (mkSign1 0 (raw_header hdr) pl sig) ∧
  ∃ pb, demo_strict_bytes (raw_header hdr) = Some pb ∧ pb ≠ [] ∧ demo_strict_map pb = Some hdr.
Proof.
  unfold reads_back. destruct (demo_unmarshal wire) as [[n rp p sg]|]; [|done]. simpl.
  intros [[[[Hn%Nat.eqb_eq Hr%bool_decide_eq_true]%andb_prop Hp%bool_decide_eq_true]%andb_prop
    Hs%bool_decide_eq_true]%andb_prop Hh]%andb_prop. subst. split; [done|].
  destruct (demo_strict_bytes (raw_header hdr)) as [pb|]; [|done].
  apply andb_prop in Hh as [Hne%negb_true_iff%bool_decide_eq_false Hm].
  destruct (demo_strict_map pb) as [h|] eqn:E; [|done].
  apply (cbor_eqb_eq (CMap h) (CMap hdr)) in Hm. injection Hm as ->. eauto.
Qed.

Lemma demo_round_trip pub : length pub = 32 → @CoseRoundTrip demo_cose (demo_signer pub) pub.
Proof.
  intros HL. split.
  - intros m p _ _ E. change (demo_canonical_map m = Some p) in E. unfold demo_canonical_map in E.
    destruct (demo_strict_map (enc (CMap m))) as [m'|] eqn:Em; [|done].
    destruct (cbor_eqb (CMap m') (CMap m)) eqn:Ee; [|done]. injection E as <-.
    apply cbor_eqb_eq in Ee. injection Ee as ->. done.
  - intros hdr pl sig wire _ _ _ E. change (demo_marshal hdr pl sig = Some wire) in E.
    unfold demo_marshal in E. destruct (reads_back _ _ _ _) eqn:Er; [|done]. injection E as <-.
    apply reads_back_spec in Er as (Hu & pb & Hb & Hne & Hm). exists (raw_header hdr), pb. done.
  - intros hdr pl sig wire msg Es E Eu. change (demo_marshal hdr pl sig = Some wire) in E.
    unfold demo_marshal in E. destruct (reads_back _ _ _ _) eqn:Er; [|done]. injection E as <-.
    apply reads_back_spec in Er as [Hu _].
    change (demo_unmarshal (demo_envelope (raw_header hdr) pl sig) = Some msg) in Eu.
    rewrite Hu in Eu. injection Eu as <-. injection Es as <-.
    change (demo_verify (mkSign1 0 (raw_header hdr) pl
      (demo_sign pub (to_be_signed (raw_header hdr) pl))) pub = true).
    unfold demo_verify. by rewrite bool_decide_true.
  - simpl. by rewrite HL.
  - simpl. unfold in_i64. lia.
Qed.
