(* ===== verification/Quota.v ===== *)
(** Quota passports of the data plane: [src/pep/quota.go].

    [PassportCounter] is the counter of one passport and [Consume] takes a quantum from
    it; [QuotaLedger] is the bounded registry of live counters. Counters are shared by
    reference between the ledger and the code that executes the flow, so the ledger is a
    map from [jti] to pointers into a heap of counters.

    The theorems bound what a passport lets through (at most [volumeMax] per window over
    any run), show that a cut is final, proved by a leaf before the session is cut, and
    that a cut passport stays exhausted as long as its token can be fresh; and that the
    ledger never holds more than its capacity. *)
From S2P Require Import Prelude.
From S2P Require Import Leaf.
From S2P Require Import Effects.
From S2P Require Import Records.
From S2P Require Import Token.

Definition ReasonQuotaExceeded : string := "quota-exceeded".
Definition ReasonPassportExpired : string := "passport-expired".
Definition TripReasonQuotaSaturated : string := "quota-ledger-saturated".

Inductive quota_error :=
  | ErrQuotaExceeded | ErrPassportExpired | ErrPassportClosed | ErrPassportDuplicate
  | ErrLedgerSaturated | ErrQuotaVectorMissing | ErrQuotaVectorInvalid.

(** ** One counter *)

Record PassportCounter := mkCounter {
  pc_jti : bytes;
  pc_resource : string;
  pc_operation : string;
  pc_volumeMax : Z;    (* uint64 *)
  pc_windowS : Z;      (* uint64 *)
  pc_windowFrom : Z;   (* int64, Unix seconds *)
  pc_remaining : Z;    (* uint64 *)
  pc_exp : Z;          (* int64, Unix seconds *)
  pc_consumed : Z;     (* uint64 *)
  pc_closed : bool;
}.

Definition set_closed (c : PassportCounter) : PassportCounter :=
  mkCounter (pc_jti c) (pc_resource c) (pc_operation c) (pc_volumeMax c) (pc_windowS c)
    (pc_windowFrom c) (pc_remaining c) (pc_exp c) (pc_consumed c) true.

Definition set_window (from remaining : Z) (c : PassportCounter) : PassportCounter :=
  mkCounter (pc_jti c) (pc_resource c) (pc_operation c) (pc_volumeMax c) (pc_windowS c)
    from remaining (pc_exp c) (pc_consumed c) (pc_closed c).

Definition take_quantum (n : Z) (c : PassportCounter) : PassportCounter :=
  mkCounter (pc_jti c) (pc_resource c) (pc_operation c) (pc_volumeMax c) (pc_windowS c)
    (pc_windowFrom c) (u64 (pc_remaining c - n)) (pc_exp c) (u64 (pc_consumed c + n))
    (pc_closed c).

(** What a counter borrows from its ledger: the leaf producer and the callbacks. *)
Record LedgerConfig := mkLedgerConfig {
  lc_producer : Producer;
  lc_onCut : bool;
  lc_onTrip : bool;
}.

Section counter.
Context `{Crypto, Env} (cfg : LedgerConfig).

(** [QuotaLedger.writeCutLeaf], at clock reading [ts]. *)
Definition writeCutLeaf (ts : Z) (jti : bytes) (reason : string) (t : trace) : trace :=
  leafOrAlarm (lc_producer cfg) (lc_onTrip cfg) KindDecision
    (decisionLeafRecord jti false reason) (UnixNano ts) t.

(** [cutLocked]: closed, then the leaf, then the terminator. *)
Definition cutLocked (ts : Z) (reason : string) (c : PassportCounter) (t : trace) :
    PassportCounter * trace :=
  let c1 := set_closed c in
  let t1 := writeCutLeaf ts (pc_jti c) reason t in
  (c1, if lc_onCut cfg then t1 ++ [EvCut (pc_jti c) reason] else t1).

(** The recharge of an elapsed window. *)
Definition recharge (now : Z) (c : PassportCounter) : PassportCounter :=
  let elapsed := i64 (now - pc_windowFrom c) in
  if ((0 <=? elapsed) && (pc_windowS c <=? u64 elapsed))%Z then
    set_window now (pc_volumeMax c) c
  else c.

(** [PassportCounter.Consume n] at clock reading [now]; [ts] is the reading of the leaf of
    a cut. *)
Definition Consume (now ts n : Z) (c : PassportCounter) (t : trace) :
    option quota_error * PassportCounter * trace :=
  let nowU := Unix now in
  if pc_closed c then (Some ErrPassportClosed, c, t)
  else if (pc_exp c <? nowU)%Z then
    let '(c1, t1) := cutLocked ts ReasonPassportExpired c t in (Some ErrPassportExpired, c1, t1)
  else
    let c1 := recharge nowU c in
    if (pc_remaining c1 <? n)%Z then
      let '(c2, t2) := cutLocked ts ReasonQuotaExceeded c1 t in (Some ErrQuotaExceeded, c2, t2)
    else (None, take_quantum n c1, t).

(** ** Effects of one call *)

(** The trace of a cut: the leaf write first, the cut of the session last. *)
Lemma cutLocked_trace ts reason c t :
  ∃ d, (cutLocked ts reason c t).2 =
         t ++ d ++ (if lc_onCut cfg then [EvCut (pc_jti c) reason] else []) ∧
       cuts_of d = [] ∧
       ((leaves_of d = [leaf_for (lc_producer cfg) KindDecision
                          (decisionLeafRecord (pc_jti c) false reason) (UnixNano ts)]
         ∧ alarms_of d = [])
        ∨ (leaves_of d = [] ∧
           alarms_of d = if lc_onTrip cfg then [ReasonLeafWriteFailed] else [])).
Proof.
  unfold cutLocked, writeCutLeaf; simpl.
  destruct (leafOrAlarm_trace (lc_producer cfg) (lc_onTrip cfg) KindDecision
    (decisionLeafRecord (pc_jti c) false reason) (UnixNano ts) t) as (d & -> & HC & HD).
  exists d. split; [|done]. by destruct (lc_onCut cfg); rewrite <-?app_assoc, ?app_nil_r.
Qed.

(** A cut is final, and proved before it happens. A call that is refused takes
    nothing from the passport and leaves it closed; a closed passport lets nothing more
    through and emits nothing more; and the session is cut only after the write of the
    deny leaf of that passport, whose failure raises the alarm. *)
Theorem cut_is_final_and_traced now ts n c t :
  match Consume now ts n c t with
  | (None, c', t') => pc_closed c' = pc_closed c ∧ t' = t
  | (Some e, c', t') =>
      pc_closed c' = true ∧ pc_consumed c' = pc_consumed c ∧
      (∀ now2 ts2 n2 t2, Consume now2 ts2 n2 c' t2 = (Some ErrPassportClosed, c', t2)) ∧
      (pc_closed c = true ∧ t' = t ∨
       pc_closed c = false ∧
       ∃ reason d, (reason = ReasonPassportExpired ∨ reason = ReasonQuotaExceeded) ∧
         t' = t ++ d ++ (if lc_onCut cfg then [EvCut (pc_jti c) reason] else []) ∧
         cuts_of d = [] ∧
         ((leaves_of d = [leaf_for (lc_producer cfg) KindDecision
                            (decisionLeafRecord (pc_jti c) false reason) (UnixNano ts)]
           ∧ alarms_of d = [])
          ∨ (leaves_of d = [] ∧
             alarms_of d = if lc_onTrip cfg then [ReasonLeafWriteFailed] else [])))
  end.
Proof.
  unfold Consume. destruct (pc_closed c) eqn:Ec.
  { split_and!; auto. intros. by rewrite Ec. }
  destruct (pc_exp c <? Unix now)%Z.
  { destruct (cutLocked_trace ts ReasonPassportExpired c t) as (d & Ed & HC & HD).
    destruct (cutLocked _ _ c t) as [c1 t1] eqn:E. injection E as <- <-. simpl in Ed.
    split_and!; auto. right. split; [done|]. exists ReasonPassportExpired, d. split_and!; auto. }
  assert (pc_closed (recharge (Unix now) c) = false ∧ pc_jti (recharge (Unix now) c) = pc_jti c ∧
    pc_consumed (recharge (Unix now) c) = pc_consumed c) as (Er & Ej & Eq)
    by (unfold recharge; by case_match).
  destruct (pc_remaining _ <? n)%Z; [|by split].
  destruct (cutLocked_trace ts ReasonQuotaExceeded (recharge (Unix now) c) t) as (d & Ed & HC & HD).
  destruct (cutLocked _ _ _ t) as [c1 t1] eqn:E. injection E as <- <-. simpl in Ed.
  rewrite Ej in Ed, HD. split_and!; auto. right. split; [done|].
  exists ReasonQuotaExceeded, d. rewrite Ej. split_and!; auto.
Qed.

(** A call keeps the identity of the counter. *)
Lemma Consume_jti now ts n c t : pc_jti (Consume now ts n c t).1.2 = pc_jti c.
Proof.
  unfold Consume, recharge, cutLocked. destruct (pc_closed c); [done|].
  destruct (pc_exp c <? Unix now)%Z; [done|]. by repeat case_match; simplify_eq/=.
Qed.

(** A call that is let through takes its quanta from an open, unexpired passport. *)
Lemma Consume_taken now ts n c t c' t' :
  Consume now ts n c t = (None, c', t') →
  pc_closed c = false ∧ (Unix now ≤ pc_exp c)%Z ∧ (n ≤ pc_remaining (recharge (Unix now) c))%Z ∧
  c' = take_quantum n (recharge (Unix now) c) ∧ t' = t.
Proof.
  unfold Consume. destruct (pc_closed c); [done|]. destruct (Z.ltb_spec (pc_exp c) (Unix now)); [done|].
  destruct (Z.ltb_spec (pc_remaining (recharge (Unix now) c)) n); [done|]. by intros [= <- <-].
Qed.

(** ** What a passport lets through *)

(** A run of calls [(now, ts, n)] on one counter, with the volume accepted. *)
Fixpoint consume_all (calls : list (Z * Z * Z)) (c : PassportCounter) (t : trace) :
    Z * PassportCounter * trace :=
  match calls with
  | [] => (0%Z, c, t)
  | (now, ts, n) :: calls' =>
      let '(e, c1, t1) := Consume now ts n c t in
      let '(v, c2, t2) := consume_all calls' c1 t1 in
      (match e with Some _ => v | None => v + n end%Z, c2, t2)
  end.

(** The volume a counter can still let through up to its expiry, windows to come
    included. *)
Definition potential (c : PassportCounter) : Z :=
  (pc_remaining c + pc_volumeMax c * ((pc_exp c - pc_windowFrom c) / pc_windowS c))%Z.

Definition counter_wf (c : PassportCounter) : Prop :=
  in_u64 (pc_volumeMax c) ∧ (0 < pc_windowS c)%Z ∧ in_u64 (pc_windowS c) ∧
  (0 ≤ pc_windowFrom c < 2^63)%Z ∧ (0 ≤ pc_remaining c ≤ pc_volumeMax c)%Z ∧
  (pc_windowFrom c ≤ pc_exp c < 2^63)%Z.

Lemma recharge_potential now c :
  counter_wf c → (0 ≤ now ≤ pc_exp c)%Z →
  counter_wf (recharge now c) ∧ (potential (recharge now c) ≤ potential c)%Z ∧
  pc_closed (recharge now c) = pc_closed c ∧ pc_exp (recharge now c) = pc_exp c.
Proof.
  intros Hwf Hn. pose proof Hwf as (HV & HW & HWu & Hf & Hr & He). unfold recharge.
  rewrite i64_small by (unfold in_i64; lia).
  destruct (Z.leb_spec 0 (now - pc_windowFrom c)); simpl; [|by split_and!].
  rewrite u64_small by (unfold in_u64; lia).
  destruct (Z.leb_spec (pc_windowS c) (now - pc_windowFrom c)); [|by split_and!].
  unfold counter_wf, potential; simpl. unfold in_u64 in *. split_and!; try done; try lia.
  replace (pc_exp c - pc_windowFrom c)%Z
    with (pc_exp c - now + (now - pc_windowFrom c))%Z by lia.
  pose proof (Z.div_le_mono (pc_exp c - now + pc_windowS c)
    (pc_exp c - now + (now - pc_windowFrom c)) (pc_windowS c) ltac:(lia) ltac:(lia)) as Hd.
  replace (pc_exp c - now + pc_windowS c)%Z with (pc_exp c - now + 1 * pc_windowS c)%Z in Hd by lia.
  rewrite Z.div_add in Hd by lia. nia.
Qed.

Lemma Consume_potential now ts n c t :
  counter_wf c → (0 ≤ Unix now)%Z → (0 ≤ n)%Z →
  match Consume now ts n c t with
  | (None, c', _) => counter_wf c' ∧ (potential c' + n ≤ potential c)%Z
  | (Some _, c', _) => pc_closed c' = true
  end.
Proof.
  intros Hwf Hn Hq. unfold Consume. destruct (pc_closed c) eqn:Ec; [done|].
  destruct (Z.ltb_spec (pc_exp c) (Unix now)); [done|].
  destruct (recharge_potential (Unix now) c Hwf ltac:(lia)) as (W & P & C & E).
  destruct (Z.ltb_spec (pc_remaining (recharge (Unix now) c)) n); [done|].
  destruct W as (HV & HW & HWu & Hf & Hr & He).
  unfold counter_wf, potential in *; simpl in *. unfold in_u64 in *.
  rewrite u64_small by (unfold in_u64; lia). split_and!; lia.
Qed.

Lemma consume_all_closed calls c t :
  pc_closed c = true → (consume_all calls c t) = (0%Z, c, t).
Proof.
  intros Hc. revert t. induction calls as [|[[now ts] n] calls IH]; intros t; [done|].
  simpl. unfold Consume. rewrite Hc, IH. done.
Qed.

Lemma consume_all_potential calls c t :
  counter_wf c → Forall (λ '(now, ts, n), (0 ≤ Unix now)%Z ∧ (0 ≤ n)%Z) calls →
  (0 ≤ (consume_all calls c t).1.1 ≤ potential c)%Z.
Proof.
  revert c t. induction calls as [|[[now ts] n] calls IH]; intros c t Hwf HF; simpl.
  { destruct Hwf as (HV & HW & HWu & Hf & Hr & He). unfold potential, in_u64 in *.
    pose proof (Z.div_pos (pc_exp c - pc_windowFrom c) (pc_windowS c)). nia. }
  apply Forall_cons in HF as [[Hn Hq] HF].
  pose proof (Consume_potential now ts n c t Hwf Hn Hq) as HP.
  assert (0 ≤ potential c)%Z as Hge by (destruct (IH c t Hwf HF); lia).
  destruct (Consume now ts n c t) as [[[e|] c1] t1].
  - rewrite consume_all_closed by done. simpl. lia.
  - destruct HP as [W HP]. specialize (IH c1 t1 W HF).
    destruct (consume_all calls c1 t1) as [[v c2] t2]. simpl in *. lia.
Qed.
End counter.

(** ** The ledger *)

Record PassportSnapshot := mkPassportSnapshot {
  ps_JTI : bytes;
  ps_Resource : string;
  ps_Operation : string;
  ps_Consumed : Z;
  ps_Closed : bool;
  ps_Exp : Z;
}.

(** [ql_heap] holds every counter the ledger has opened: callers keep pointers to
    counters the ledger may have purged. *)
Record QuotaLedger := mkQuotaLedger {
  ql_max : nat;
  ql_counters : gmap bytes nat;
  ql_heap : list PassportCounter;
  ql_tripped : bool;
  ql_evicted : list PassportSnapshot;
  ql_cfg : LedgerConfig;
}.

(** [NewQuotaLedger]: [None] is the configuration error. *)
Definition NewQuotaLedger (maxPassports : Z) (cellID : string) (salt : bytes)
    (leaves journal onCut onTrip : bool) : option QuotaLedger :=
  if (maxPassports <=? 0)%Z then None
  else if bool_decide (cellID = "") then None
  else if length salt <? 16 then None
  else if negb leaves then None
  else Some (mkQuotaLedger (Z.to_nat maxPassports) ∅ [] false []
               (mkLedgerConfig (mkProducer cellID salt journal) onCut onTrip)).

Definition snap (closed : bool) (c : PassportCounter) : PassportSnapshot :=
  mkPassportSnapshot (pc_jti c) (pc_resource c) (pc_operation c) (pc_consumed c) closed (pc_exp c).

Section ledger.
Context `{Crypto, Env, MapOrder}.

(** The body of the loop of [purgeLocked]. *)
Definition purge_turn (now : Z) (l : QuotaLedger) (kv : bytes * nat) : QuotaLedger :=
  match ql_heap l !! kv.2 with
  | Some c =>
      if (pc_exp c <? now)%Z then
        mkQuotaLedger (ql_max l) (delete kv.1 (ql_counters l)) (ql_heap l) (ql_tripped l)
          (if length (ql_evicted l) <? ql_max l then ql_evicted l ++ [snap true c]
           else ql_evicted l) (ql_cfg l)
      else l
  | None => l
  end.

Definition purgeLocked (now : Z) (l : QuotaLedger) : QuotaLedger :=
  foldl (purge_turn now) l (map_range (map_to_list (ql_counters l))).

Definition tripLocked (l : QuotaLedger) (t : trace) : QuotaLedger * trace :=
  if ql_tripped l then (l, t)
  else (mkQuotaLedger (ql_max l) (ql_counters l) (ql_heap l) true (ql_evicted l) (ql_cfg l),
        call_alarm (lc_onTrip (ql_cfg l)) TripReasonQuotaSaturated t).

Definition new_counter (now : Z) (tok : Token) (q : Quota) : PassportCounter :=
  mkCounter (t_JTI tok) (q_Resource q) (q_Operation q) (q_VolumeMax q) (q_WindowS q) now
    (q_VolumeMax q) (t_Exp tok) 0 false.

(** [Open] at clock reading [now]; the result is the error or the pointer. *)
Definition Open (now : Z) (tok : option Token) (l : QuotaLedger) (t : trace) :
    (quota_error + nat) * QuotaLedger * trace :=
  match tok with
  | None => (inl ErrQuotaVectorMissing, l, t)
  | Some tok =>
    match t_Quota tok with
    | None => (inl ErrQuotaVectorMissing, l, t)
    | Some q =>
      if (q_WindowS q =? 0)%Z then (inl ErrQuotaVectorInvalid, l, t)
      else
        let l1 := purgeLocked (Unix now) l in
        match ql_counters l1 !! t_JTI tok with
        | Some _ => (inl ErrPassportDuplicate, l1, t)
        | None =>
          if size (ql_counters l1) =? ql_max l1 then
            let '(l2, t2) := tripLocked l1 t in (inl ErrLedgerSaturated, l2, t2)
          else
            let p := length (ql_heap l1) in
            (inr p,
             mkQuotaLedger (ql_max l1) (<[t_JTI tok := p]> (ql_counters l1))
               (ql_heap l1 ++ [new_counter (Unix now) tok q]) (ql_tripped l1)
               (ql_evicted l1) (ql_cfg l1), t)
        end
    end
  end.

(** [Counter jti]: the counter of an open passport. *)
Definition Counter (jti : bytes) (l : QuotaLedger) : option PassportCounter :=
  ql_counters l !! jti ≫= λ p, ql_heap l !! p.

Definition Exhausted (jti : bytes) (l : QuotaLedger) : bool :=
  match Counter jti l with Some c => pc_closed c | None => false end.

Definition Len (l : QuotaLedger) : nat := size (ql_counters l).

(** [c.Consume n] through the pointer [p] a caller holds. *)
Definition ConsumeAt (p : nat) (now ts n : Z) (l : QuotaLedger) (t : trace) :
    option (option quota_error * QuotaLedger * trace) :=
  c ← ql_heap l !! p;
  let '(e, c', t') := Consume (ql_cfg l) now ts n c t in
  Some (e, mkQuotaLedger (ql_max l) (ql_counters l) (<[p := c']> (ql_heap l)) (ql_tripped l)
             (ql_evicted l) (ql_cfg l), t').

Definition jti_le (a b : PassportSnapshot) : Prop := bytes_le (ps_JTI a) (ps_JTI b).
#[global] Instance jti_le_dec : RelDecision jti_le.
Proof. intros a b. unfold jti_le. apply _. Defined.

(** [Snapshot]: the live counters, then the evicted ones, sorted by [jti]. *)
Definition Snapshot (now : Z) (l : QuotaLedger) : list PassportSnapshot * QuotaLedger :=
  let l1 := purgeLocked (Unix now) l in
  let live := omap (λ kv, (λ c, snap (pc_closed c) c) <$> ql_heap l1 !! kv.2)
                (map_range (map_to_list (ql_counters l1))) in
  (merge_sort jti_le (live ++ ql_evicted l1),
   mkQuotaLedger (ql_max l1) (ql_counters l1) (ql_heap l1) (ql_tripped l1) [] (ql_cfg l1)).

(** ** The ledger as a state machine *)

Inductive ledger_step : Z → QuotaLedger * trace → QuotaLedger * trace → Prop :=
  | step_open now tok l t r l' t' :
      Open now tok l t = (r, l', t') → ledger_step now (l, t) (l', t')
  | step_consume p now ts n l t e l' t' :
      ConsumeAt p now ts n l t = Some (e, l', t') → ledger_step now (l, t) (l', t')
  | step_snapshot now l t out l' :
      Snapshot now l = (out, l') → ledger_step now (l, t) (l', t).

Definition ledger_wf (l : QuotaLedger) : Prop :=
  0 < ql_max l ∧ size (ql_counters l) ≤ ql_max l ∧ length (ql_evicted l) ≤ ql_max l ∧
  ∀ jti p, ql_counters l !! jti = Some p → ∃ c, ql_heap l !! p = Some c ∧ pc_jti c = jti.

(** Runs of the ledger whose clock readings all satisfy [P]. *)
Inductive ledger_run (P : Z → Prop) : QuotaLedger * trace → QuotaLedger * trace → Prop :=
  | run_refl s : ledger_run P s s
  | run_step now s s1 s2 :
      P (Unix now) → ledger_step now s s1 → ledger_run P s1 s2 → ledger_run P s s2.

(** ** Lemmas on the purge *)

Lemma purge_turn_fields now l kv :
  ql_max (purge_turn now l kv) = ql_max l ∧ ql_heap (purge_turn now l kv) = ql_heap l ∧
  ql_tripped (purge_turn now l kv) = ql_tripped l ∧ ql_cfg (purge_turn now l kv) = ql_cfg l ∧
  (length (ql_evicted l) ≤ ql_max l → length (ql_evicted (purge_turn now l kv)) ≤ ql_max l) ∧
  ql_counters (purge_turn now l kv) ⊆ ql_counters l.
Proof.
  unfold purge_turn. destruct (ql_heap l !! kv.2); [|by split_and!].
  case_match; [|by split_and!].
  destruct (Nat.ltb_spec (length (ql_evicted l)) (ql_max l)); simpl;
    split_and!; try done; try apply delete_subseteq.
  rewrite length_app; simpl; lia.
Qed.

Definition expired_ptr (heap : list PassportCounter) (now : Z) (p : nat) : bool :=
  match heap !! p with Some c => (pc_exp c <? now)%Z | None => false end.

Lemma purge_fold now kvs l :
  let l' := foldl (purge_turn now) l kvs in
  ql_max l' = ql_max l ∧ ql_heap l' = ql_heap l ∧ ql_tripped l' = ql_tripped l ∧
  ql_cfg l' = ql_cfg l ∧
  (length (ql_evicted l) ≤ ql_max l → length (ql_evicted l') ≤ ql_max l) ∧
  ql_counters l' ⊆ ql_counters l.
Proof.
  revert l. induction kvs as [|kv kvs IH]; intros l; simpl; [by split_and!|].
  destruct (IH (purge_turn now l kv)) as (M & Hp & T & C & E & S).
  destruct (purge_turn_fields now l kv) as (M' & Hp' & T' & C' & E' & S').
  rewrite M, Hp, T, C. split_and!; auto; [rewrite M' in E; auto|by etransitivity].
Qed.

Lemma purge_fold_lookup now kvs l k :
  ql_counters (foldl (purge_turn now) l kvs) !! k =
    if existsb (λ kv, bool_decide (kv.1 = k) && expired_ptr (ql_heap l) now kv.2) kvs
    then None else ql_counters l !! k.
Proof.
  revert l. induction kvs as [|[k' p] kvs IH]; intros l; [done|]. simpl. rewrite IH.
  destruct (purge_turn_fields now l (k', p)) as (_ & -> & _).
  destruct (existsb _ kvs); [by rewrite orb_true_r|]. rewrite orb_false_r.
  unfold purge_turn, expired_ptr; simpl. destruct (ql_heap l !! p) as [c|].
  - destruct (pc_exp c <? now)%Z; simpl; [|by rewrite andb_false_r].
    rewrite andb_true_r. case_bool_decide; subst; [apply lookup_delete_eq|by apply lookup_delete_ne].
  - by rewrite andb_false_r.
Qed.

(** The purge removes the expired passports and only them, whatever order the map is
    visited in. *)
Lemma purgeLocked_lookup now l k :
  ql_counters (purgeLocked now l) !! k =
    p ← ql_counters l !! k; if expired_ptr (ql_heap l) now p then None else Some p.
Proof.
  unfold purgeLocked. rewrite purge_fold_lookup.
  set (f := λ kv : bytes * nat, bool_decide (kv.1 = k) && expired_ptr (ql_heap l) now kv.2).
  assert (existsb f (map_range (map_to_list (ql_counters l))) = true ↔
    ∃ p, ql_counters l !! k = Some p ∧ expired_ptr (ql_heap l) now p = true) as HE.
  { rewrite existsb_exists. split.
    - intros ([k' p] & Hin & [Hk Hp]%andb_prop). apply bool_decide_eq_true in Hk. simpl in *. subst.
      apply list_elem_of_In in Hin. rewrite map_range_perm, elem_of_map_to_list in Hin. eauto.
    - intros (p & Hk & Hp). exists (k, p). split.
      + apply list_elem_of_In. by rewrite map_range_perm, elem_of_map_to_list.
      + unfold f; simpl. by rewrite bool_decide_true. }
  destruct (existsb f _).
  - destruct HE as [HE _]. destruct (HE eq_refl) as (p & -> & Hp). simpl. by rewrite Hp.
  - destruct (ql_counters l !! k) as [p|] eqn:E; [|done]. simpl.
    destruct (expired_ptr (ql_heap l) now p) eqn:X; [|done].
    destruct HE as [_ HE]. by discriminate HE; eauto.
Qed.

Lemma purgeLocked_fields now l :
  ql_max (purgeLocked now l) = ql_max l ∧ ql_heap (purgeLocked now l) = ql_heap l ∧
  ql_tripped (purgeLocked now l) = ql_tripped l ∧ ql_cfg (purgeLocked now l) = ql_cfg l ∧
  (length (ql_evicted l) ≤ ql_max l → length (ql_evicted (purgeLocked now l)) ≤ ql_max l) ∧
  ql_counters (purgeLocked now l) ⊆ ql_counters l.
Proof. apply purge_fold. Qed.

Lemma purgeLocked_wf now l : ledger_wf l → ledger_wf (purgeLocked now l).
Proof.
  intros (Hm & HS & HE & HC).
  destruct (purgeLocked_fields now l) as (M & Hp & T & C & E & S).
  unfold ledger_wf. rewrite M, Hp. split_and!; auto.
  - etransitivity; [by apply map_subseteq_size|done].
  - intros jti p Hj. apply HC. by eapply lookup_weaken.
Qed.

(** A passport still fresh at [now] is not purged. *)
Lemma purgeLocked_keeps now l jti p c :
  ql_counters l !! jti = Some p → ql_heap l !! p = Some c → (now ≤ pc_exp c)%Z →
  ql_counters (purgeLocked now l) !! jti = Some p.
Proof.
  intros Hj Hp Hn. rewrite purgeLocked_lookup, Hj. simpl. unfold expired_ptr. rewrite Hp.
  by destruct (Z.ltb_spec (pc_exp c) now); [lia|].
Qed.

(** ** Invariants of a run *)

Lemma ledger_step_wf now s s' : ledger_step now s s' → ledger_wf s.1 → ledger_wf s'.1.
Proof.
  intros Hs Hwf. destruct Hs as [now tok l t r l' t' E|p now ts n l t e l' t' E|now l t out l' E];
    simpl in *.
  - unfold Open, tripLocked in E. pose proof (purgeLocked_wf (Unix now) l Hwf) as W.
    repeat case_match; simplify_eq/=; auto.
    match goal with H : (size _ =? _) = false |- _ => apply Nat.eqb_neq in H end.
    destruct W as (W0 & WS & WE & WC).
    split_and!; simpl; auto.
    + rewrite map_size_insert_None by done. lia.
    + intros jti p. rewrite lookup_insert_Some. intros [[<- <-]|[_ Hj]].
      * eexists. by rewrite lookup_app_r, Nat.sub_diag by lia.
      * destruct (WC jti p Hj) as (c & Hc & <-). exists c. split; [|done]. by apply lookup_app_l_Some.
  - unfold ConsumeAt in E. destruct (ql_heap l !! p) as [c|] eqn:Ep; simplify_eq/=.
    destruct (Consume _ _ _ _ c t) as [[e' c'] t1] eqn:EC. simplify_eq.
    destruct Hwf as (W0 & WS & WE & WC). split_and!; simpl; auto.
    intros jti p' Hj. destruct (WC jti p' Hj) as (c1 & Hc1 & <-).
    destruct (decide (p = p')) as [<-|Hne]; [|by exists c1; rewrite list_lookup_insert_ne].
    rewrite Ep in Hc1. injection Hc1 as <-. exists c'.
    rewrite list_lookup_insert_eq by by eapply lookup_lt_Some.
    split; [done|]. pose proof (Consume_jti (ql_cfg l) now ts n c t) as J. by rewrite EC in J.
  - unfold Snapshot in E. simplify_eq/=. destruct (purgeLocked_wf (Unix now) l Hwf) as (W0 & WS & WE & WC).
    split_and!; simpl; auto; lia.
Qed.

Lemma ledger_run_wf P s s' : ledger_run P s s' → ledger_wf s.1 → ledger_wf s'.1.
Proof. induction 1; eauto using ledger_step_wf. Qed.

(** A closed passport is the same object after every step taken while its token can
    be fresh. *)
Lemma ledger_step_closed now s s' jti c :
  ledger_step now s s' → ledger_wf s.1 → Counter jti s.1 = Some c → pc_closed c = true →
  (Unix now ≤ pc_exp c)%Z → Counter jti s'.1 = Some c.
Proof.
  intros Hs Hwf Hc Hcl Hn. unfold Counter in *.
  apply bind_Some in Hc as (q & Hq & Hh).
  destruct Hs as [now tok l t r l' t' E|p now ts n l t e l' t' E|now l t out l' E]; simpl in *;
    try (pose proof (purgeLocked_keeps (Unix now) l jti q c Hq Hh Hn) as HK;
         destruct (purgeLocked_fields (Unix now) l) as (M & Hp & T & C & EV & S)).
  - unfold Open, tripLocked in E. repeat case_match; simplify_eq/=;
      rewrite ?Hq, ?HK; simpl; rewrite ?Hp; auto.
    destruct (decide (jti = t_JTI t0)) as [->|Hne]; [congruence|].
    rewrite lookup_insert_ne, HK by done. simpl. by apply lookup_app_l_Some.
  - unfold ConsumeAt in E. destruct (ql_heap l !! p) as [c0|] eqn:Ep; simplify_eq/=.
    destruct (Consume _ _ _ _ c0 t) as [[e' c'] t1] eqn:EC. simplify_eq/=. rewrite Hq; simpl.
    destruct (decide (p = q)) as [<-|Hne]; [|by rewrite list_lookup_insert_ne].
    simplify_eq. unfold Consume in EC. rewrite Hcl in EC. simplify_eq.
    apply list_lookup_insert_eq. by eapply lookup_lt_Some.
  - unfold Snapshot in E. simplify_eq/=. rewrite HK; simpl. by rewrite Hp.
Qed.

Lemma ledger_run_closed P s s' jti c :
  ledger_run P s s' → (∀ n, P n → (n ≤ pc_exp c)%Z) → ledger_wf s.1 →
  Counter jti s.1 = Some c → pc_closed c = true → Counter jti s'.1 = Some c.
Proof.
  induction 1; eauto. intros HP Hwf Hc Hcl. apply IHledger_run; eauto using ledger_step_wf.
  eapply ledger_step_closed; eauto.
Qed.

(** ** What the exporter reads *)

(** With room left, the purge records the last state of every passport it removes. *)
Lemma purge_fold_evicted now kvs l :
  length (ql_evicted l) + length kvs ≤ ql_max l →
  ql_evicted (foldl (purge_turn now) l kvs) =
    ql_evicted l ++ omap (λ kv, c ← ql_heap l !! kv.2;
                                if (pc_exp c <? now)%Z then Some (snap true c) else None) kvs.
Proof.
  revert l. induction kvs as [|kv kvs IH]; intros l HL; simpl in *; [by rewrite app_nil_r|].
  destruct (purge_turn_fields now l kv) as (M & Hp & _). rewrite IH, Hp; clear IH.
  - unfold purge_turn. destruct (ql_heap l !! kv.2) as [c|]; simpl; [|done].
    destruct (pc_exp c <? now)%Z; simpl; [|done].
    rewrite (proj2 (Nat.ltb_lt _ _)) by lia. by rewrite <-app_assoc.
  - rewrite M. unfold purge_turn. destruct (ql_heap l !! kv.2) as [c|]; simpl; [|lia].
    destruct (pc_exp c <? now)%Z; simpl; [|lia]. case_match; rewrite ?length_app; simpl; lia.
Qed.

Lemma Snapshot_elem now l x :
  x ∈ (Snapshot now l).1 ↔
    x ∈ ql_evicted (purgeLocked (Unix now) l) ∨
    ∃ jti c, Counter jti l = Some c ∧ (Unix now ≤ pc_exp c)%Z ∧ x = snap (pc_closed c) c.
Proof.
  unfold Snapshot; simpl. rewrite merge_sort_Permutation, elem_of_app, list_elem_of_omap.
  destruct (purgeLocked_fields (Unix now) l) as (_ & Hp & _). rewrite Hp.
  split; [intros [([k p] & Hin & Hx)|]|intros [|(jti & c & Hc & Hn & ->)]]; auto.
  - right. rewrite map_range_perm, elem_of_map_to_list, purgeLocked_lookup in Hin. simpl in Hx.
    apply bind_Some in Hin as (p' & Hk & He). unfold expired_ptr in He.
    apply fmap_Some in Hx as (c & Hc & ->). exists k, c. unfold Counter. rewrite Hk. simpl.
    destruct (ql_heap l !! p') as [c'|] eqn:E; [|simplify_eq].
    destruct (Z.ltb_spec (pc_exp c') (Unix now)); simplify_eq. done.
  - left. unfold Counter in Hc. apply bind_Some in Hc as (p & Hk & Hc).
    exists (jti, p). simpl. rewrite Hc. split; [|done].
    rewrite map_range_perm, elem_of_map_to_list. by eapply purgeLocked_keeps.
Qed.

(** C7: over any sequence of calls and any clock, a passport lets through at most its
    volume per window: the accepted quanta of a counter opened at [now0] add up to no more
    than [volumeMax] for its first window and [volumeMax] for each further window that
    begins before the passport expires. Window lengths range over all of [uint64]. *)
Theorem quota_volume_bound cfg now0 tok q calls t :
  t_Quota tok = Some q → in_u64 (q_VolumeMax q) → in_u64 (q_WindowS q) → q_WindowS q ≠ 0%Z →
  (0 ≤ Unix now0 ≤ t_Exp tok)%Z → (t_Exp tok < 2^63)%Z →
  Forall (λ '(now, ts, n), (0 ≤ Unix now)%Z ∧ (0 ≤ n)%Z) calls →
  (0 ≤ (consume_all cfg calls (new_counter (Unix now0) tok q) t).1.1
     ≤ q_VolumeMax q * (1 + (t_Exp tok - Unix now0) / q_WindowS q))%Z.
Proof.
  intros Hq HV HW HW0 Hn He HF.
  pose proof (consume_all_potential cfg calls (new_counter (Unix now0) tok q) t) as HP.
  unfold potential, counter_wf, in_u64 in *. simpl in HP. rewrite Z.mul_add_distr_l.
  enough (0 ≤ (consume_all cfg calls (new_counter (Unix now0) tok q) t).1.1
     ≤ q_VolumeMax q + q_VolumeMax q * ((t_Exp tok - Unix now0) / q_WindowS q))%Z by lia.
  apply HP; [|done]. split_and!; lia.
Qed.

(** The ledger is bounded in every reachable state. However it is used, it never
    holds more than [max] live counters nor more than [max] evicted snapshots, and each
    key of its map points to the counter of that passport. *)
Theorem ledger_stays_bounded P l t l' t' :
  ledger_run P (l, t) (l', t') → ledger_wf l →
  ledger_wf l' ∧ Len l' ≤ ql_max l' ∧ length (ql_evicted l') ≤ ql_max l'.
Proof.
  intros Hr Hwf. pose proof (ledger_run_wf P _ _ Hr Hwf) as W. split; [done|].
  destruct W as (_ & WS & WE & _). done.
Qed.

(** A passport that was cut stays cut. As long as its token can still be fresh, no
    sequence of operations makes it stop being exhausted, and opening it again is
    refused. *)
Theorem cut_passport_stays_exhausted l t l' t' jti c :
  ledger_wf l → Counter jti l = Some c → pc_closed c = true →
  ledger_run (λ now, (now ≤ pc_exp c)%Z) (l, t) (l', t') →
  Exhausted jti l' = true ∧
  ∀ now tok q, t_JTI tok = jti → t_Quota tok = Some q → q_WindowS q ≠ 0%Z →
    (Unix now ≤ pc_exp c)%Z → (Open now (Some tok) l' t').1.1 = inl ErrPassportDuplicate.
Proof.
  intros Hwf Hc Hcl Hr. pose proof (ledger_run_closed _ _ _ jti c Hr (λ _ Hn, Hn) Hwf Hc Hcl) as HC.
  simpl in HC. split; [unfold Exhausted; by rewrite HC|].
  intros now tok q <- Hq HW Hn. unfold Open. rewrite Hq.
  rewrite (proj2 (Z.eqb_neq _ _)) by done.
  apply bind_Some in HC as (p & Hp & Hh). by rewrite (purgeLocked_keeps _ _ _ _ _ Hp Hh Hn).
Qed.

(** The exporter sees every passport. A snapshot is sorted by [jti], and while the
    ledger has room for the evicted entries it lists the state of every passport the
    ledger holds, those that expired included, whose last state is reported closed. *)
Theorem snapshot_misses_nothing now l :
  length (ql_evicted l) + Len l ≤ ql_max l →
  Sorted jti_le (Snapshot now l).1 ∧
  ∀ jti c, Counter jti l = Some c →
    snap (if (pc_exp c <? Unix now)%Z then true else pc_closed c) c ∈ (Snapshot now l).1.
Proof.
  intros HL. split.
  { apply Sorted_merge_sort. intros a b. apply (total bytes_le). }
  intros jti c Hc. apply Snapshot_elem. destruct (Z.ltb_spec (pc_exp c) (Unix now)); [left|by right; eauto].
  unfold purgeLocked. rewrite purge_fold_evicted.
  - apply elem_of_app. right. apply list_elem_of_omap.
    unfold Counter in Hc. apply bind_Some in Hc as (p & Hk & Hc). exists (jti, p). split.
    + by rewrite map_range_perm, elem_of_map_to_list.
    + simpl. rewrite Hc. simpl. by rewrite (proj2 (Z.ltb_lt _ _)).
  - rewrite map_range_perm, length_map_to_list. done.
Qed.
End ledger.
