(* ===== verification/Quorum.v ===== *)
(** Quorum proofs: [src/pep/quorum_verifier.go] and [src/pep/quorum_state.go].

    [NewSignatureQuorumVerifier] builds the verifier of the class-W acts: [k] distinct
    pinned controllers, a fresh expiry, a message bound to the condition and to this cell.
    [FileQuorumStateStore] keeps the persistent freshness floor of each condition.

    [QuorumStateStore] is the interface the fail-closed point and the mode controller are
    written against, [QuorumStateLaws] what they rely on; the file store discharges it. *)
From S2P Require Import Prelude.
From S2P Require Import Leaf.
From S2P Require Import Effects.
From S2P Require Import Records.

Record QuorumSignature := mkQuorumSignature {
  qs_KeyID : bytes;       (* [16]byte *)
  qs_Signature : bytes;
}.

Record QuorumProof := mkQuorumProof {
  qp_Expiry : Z;          (* time.Time *)
  qp_Signatures : list QuorumSignature;
}.

(** A verifier reads the clock, then the condition and the proof. *)
Definition QuorumVerifier : Type := Z → string → QuorumProof → bool.

Definition DefaultQuorumProofTTL : Z := 5 * minute.
Definition PublicKeySize : nat := 32.

(** ** The signature verifier *)

Section verifier.
Context `{Crypto}.

(** One turn of the counting loop. *)
Definition count_turn (keys : gmap bytes bytes) (msg : bytes)
    (acc : gset bytes * Z) (sig : QuorumSignature) : gset bytes * Z :=
  let '(seen, valid) := acc in
  if bool_decide (qs_KeyID sig ∈ seen) then acc
  else match keys !! qs_KeyID sig with
       | None => acc
       | Some pub =>
           if ed25519_verify pub msg (qs_Signature sig)
           then ({[ qs_KeyID sig ]} ∪ seen, valid + 1)%Z
           else acc
       end.

(** The closure [NewSignatureQuorumVerifier] returns. *)
Definition verify_quorum (cellID : string) (keys : gmap bytes bytes) (k maxTTL : Z) :
    QuorumVerifier := λ t condition proof,
  if (qp_Expiry proof =? zero_time)%Z then false
  else if negb (t <? qp_Expiry proof)%Z then false
  else if (t + maxTTL <? qp_Expiry proof)%Z then false
  else
    let msg := QuorumMessage condition cellID (qp_Expiry proof) in
    let '(seen, valid) := foldl (count_turn keys msg) (∅, 0%Z) (qp_Signatures proof) in
    (k <=? valid)%Z.

(** [None] is a configuration error. *)
Definition NewSignatureQuorumVerifier (cellID : string) (keyring : gmap bytes bytes)
    (k maxTTL : Z) : option QuorumVerifier :=
  if bool_decide (cellID = "") then None
  else if size keyring =? 0 then None
  else if ((k <? 1) || (Z.of_nat (size keyring) <? k))%Z then None
  else if existsb (λ kv, negb (length kv.2 =? PublicKeySize)) (map_to_list keyring) then None
  else Some (verify_quorum cellID keyring k
               (if (maxTTL <=? 0)%Z then DefaultQuorumProofTTL else maxTTL)).

(** A controller whose signature counts. *)
Definition controller_signed (keys : gmap bytes bytes) (msg : bytes)
    (sigs : list QuorumSignature) (kid : bytes) : Prop :=
  ∃ pub sig, keys !! kid = Some pub ∧ mkQuorumSignature kid sig ∈ sigs ∧
             ed25519_verify pub msg sig = true.

(** The loop collects exactly the controllers who signed, each once. *)
Lemma count_loop keys msg sigs :
  let '(seen, valid) := foldl (count_turn keys msg) (∅, 0%Z) sigs in
  valid = Z.of_nat (size seen) ∧ ∀ kid, kid ∈ seen ↔ controller_signed keys msg sigs kid.
Proof.
  induction sigs as [|[kid sg] sigs IH] using rev_ind.
  { simpl. split; [done|]. intros kid. split; [set_solver|].
    intros (? & ? & _ & Hin & _). by apply elem_of_nil in Hin. }
  rewrite foldl_app. simpl. destruct (foldl _ _ sigs) as [seen valid].
  destruct IH as [Hv IH]. simpl.
  assert (∀ x, controller_signed keys msg (sigs ++ [mkQuorumSignature kid sg]) x ↔
    controller_signed keys msg sigs x ∨
    x = kid ∧ ∃ pub, keys !! kid = Some pub ∧ ed25519_verify pub msg sg = true) as HS.
  { intros x. unfold controller_signed. setoid_rewrite elem_of_app.
    setoid_rewrite list_elem_of_singleton. naive_solver. }
  case_bool_decide as Hin.
  { split; [done|]. intros x. rewrite HS, IH. apply IH in Hin. naive_solver. }
  destruct (keys !! kid) as [pub|] eqn:Ek.
  - destruct (ed25519_verify pub msg sg) eqn:Ev.
    + split; [rewrite size_union, size_singleton by set_solver; lia|].
      intros x. rewrite HS, elem_of_union, elem_of_singleton, IH. naive_solver.
    + split; [done|]. intros x. rewrite HS, IH. split; [by left|].
      intros [?|(_ & pub' & [= <-] & E)]; congruence.
  - split; [done|]. intros x. rewrite HS, IH. split; [by left|].
    intros [?|(_ & pub' & [=] & _)]; done.
Qed.

Lemma verify_quorum_exact cellID keyring k ttl now condition proof :
  verify_quorum cellID keyring k ttl now condition proof = true ↔
    qp_Expiry proof ≠ zero_time ∧ (now < qp_Expiry proof ≤ now + ttl)%Z ∧
    ∃ kids, NoDup kids ∧ (k ≤ Z.of_nat (length kids))%Z ∧
      ∀ kid, kid ∈ kids →
        controller_signed keyring (QuorumMessage condition cellID (qp_Expiry proof))
          (qp_Signatures proof) kid.
Proof.
  unfold verify_quorum. set (msg := QuorumMessage condition cellID (qp_Expiry proof)).
  destruct (Z.eqb_spec (qp_Expiry proof) zero_time); [split; [done|by intros (? & _)]|].
  destruct (Z.ltb_spec now (qp_Expiry proof)); simpl;
    [|split; [done|intros (_ & Hw & _); lia]].
  destruct (Z.ltb_spec (now + ttl) (qp_Expiry proof));
    [split; [done|intros (_ & Hw & _); lia]|].
  pose proof (count_loop keyring msg (qp_Signatures proof)) as HL.
  destruct (foldl _ _ _) as [seen valid]. destruct HL as [-> HL]. rewrite Z.leb_le.
  split.
  - intros Hk. split_and!; [done|lia..|]. exists (elements seen).
    split_and!; [apply NoDup_elements|done|]. intros kid. by rewrite elem_of_elements, HL.
  - intros (_ & _ & kids & Hnd & Hk & Hs). etransitivity; [exact Hk|].
    apply inj_le. rewrite <-(size_list_to_set (C := gset bytes)) by done.
    apply subseteq_size. intros kid Hin. apply HL, Hs. by apply elem_of_list_to_set in Hin.
Qed.

(** What the verifier accepts. It returns true exactly when the expiry is set, in
    the future and at most the freshness window away, and at least [k] distinct pinned
    controllers signed the message of this condition on this cell with this expiry. *)
Theorem quorum_verifier_exact cellID keyring k maxTTL v :
  NewSignatureQuorumVerifier cellID keyring k maxTTL = Some v →
  ∀ now condition proof,
    v now condition proof = true ↔
      qp_Expiry proof ≠ zero_time ∧
      (now < qp_Expiry proof ≤
         now + (if maxTTL <=? 0 then DefaultQuorumProofTTL else maxTTL))%Z ∧
      ∃ kids, NoDup kids ∧ (k ≤ Z.of_nat (length kids))%Z ∧
        ∀ kid, kid ∈ kids →
          controller_signed keyring (QuorumMessage condition cellID (qp_Expiry proof))
            (qp_Signatures proof) kid.
Proof.
  unfold NewSignatureQuorumVerifier. destruct (bool_decide _); [done|].
  destruct (size keyring =? 0); [done|]. destruct (_ || _); [done|].
  destruct (existsb _ _); [done|]. intros [= <-] now condition proof.
  apply verify_quorum_exact.
Qed.
End verifier.

(** ** The freshness floor *)

(** [QuorumStateStore.Consume] returns [(ok, nil)] as [Some ok] and an error as [None]. *)
Class QuorumStateStore (S : Type) := {
  qs_Consume : string → Z → S → option bool * S;
  qs_floor : S → string → option Z;    (* what the store remembers of a condition *)
}.

(** The promise in the comment of the interface: an accepted expiry exceeds the floor and
    becomes it; anything else leaves every floor as it was. *)
Class QuorumStateLaws (S : Type) `{QuorumStateStore S} := {
  qs_accept : ∀ cond e s s', qs_Consume cond e s = (Some true, s') →
    (∀ f, qs_floor s cond = Some f → (f < e)%Z) ∧ qs_floor s' cond = Some e ∧
    ∀ c, c ≠ cond → qs_floor s' c = qs_floor s c;
  qs_refuse : ∀ cond e s s' r, qs_Consume cond e s = (r, s') → r ≠ Some true →
    ∀ c, qs_floor s' c = qs_floor s c;
}.

(** [FileQuorumStateStore]: the file (absent or a JSON object) and the outcomes of the
    system calls to come. *)
Inductive qs_io := IoOk | IoRead | IoWrite | IoRename.

Record FileQuorumStateStore := mkFileStore {
  fs_file : option (gmap string Z);
  fs_io : list qs_io;    (* one outcome per call; none left means success *)
}.

Definition fs_load (s : FileQuorumStateStore) : gmap string Z := default ∅ (fs_file s).

Definition fs_Consume (condition : string) (expiryUnix : Z) (s : FileQuorumStateStore) :
    option bool * FileQuorumStateStore :=
  let io := default IoOk (head (fs_io s)) in
  let s1 := mkFileStore (fs_file s) (tail (fs_io s)) in
  match io with
  | IoRead => (None, s1)
  | _ =>
      let state := fs_load s in
      match state !! condition with
      | Some prev =>
          if (expiryUnix <=? prev)%Z then (Some false, s1)
          else match io with
               | IoOk => (Some true, mkFileStore (Some (<[condition := expiryUnix]> state)) (tail (fs_io s)))
               | _ => (None, s1)
               end
      | None =>
          match io with
          | IoOk => (Some true, mkFileStore (Some (<[condition := expiryUnix]> state)) (tail (fs_io s)))
          | _ => (None, s1)
          end
      end
  end.

#[global] Instance file_store : QuorumStateStore FileQuorumStateStore := {
  qs_Consume := fs_Consume;
  qs_floor s c := fs_load s !! c;
}.

#[global] Instance file_store_laws : QuorumStateLaws FileQuorumStateStore.
Proof.
  split.
  - intros cond e s s' E. unfold qs_Consume, qs_floor, file_store, fs_Consume in *.
    destruct (default IoOk (head (fs_io s)));
      destruct (fs_load s !! cond) as [prev|] eqn:Ep; simplify_eq;
      try (destruct (Z.leb_spec e prev); simplify_eq);
      (split_and!; [naive_solver| |intros c Hc]); simpl; unfold fs_load; simpl.
    all: first [apply lookup_insert_eq|by apply lookup_insert_ne].
  - intros cond e s s' r E Hr c. unfold qs_Consume, qs_floor, file_store, fs_Consume in *.
    destruct (default IoOk (head (fs_io s)));
      destruct (fs_load s !! cond) as [prev|] eqn:Ep; simplify_eq; try done;
      destruct (Z.leb_spec e prev); simplify_eq; done.
Qed.

(** A run of [Consume] calls on a store. *)
Section floors.
Context {S : Type} `{QuorumStateLaws S}.

Fixpoint consume_run (acts : list (string * Z)) (s : S) : list (option bool) * S :=
  match acts with
  | [] => ([], s)
  | (c, e) :: acts' =>
      let '(r, s1) := qs_Consume c e s in
      let '(rs, s2) := consume_run acts' s1 in (r :: rs, s2)
  end.

Definition floor_le (s s' : S) : Prop :=
  ∀ c f, qs_floor s c = Some f → ∃ f', qs_floor s' c = Some f' ∧ (f ≤ f')%Z.

#[global] Instance floor_le_preorder : PreOrder floor_le.
Proof.
  split; [intros s c f; eauto with lia|].
  intros s1 s2 s3 H12 H23 c f Hf. destruct (H12 c f Hf) as (f2 & Hf2 & ?).
  destruct (H23 c f2 Hf2) as (f3 & Hf3 & ?). exists f3. split; [done|lia].
Qed.

Lemma qs_Consume_mono c e s : floor_le s (qs_Consume c e s).2.
Proof.
  destruct (qs_Consume c e s) as [r s'] eqn:E. simpl. intros c' f Hf.
  destruct (decide (r = Some true)) as [->|Hr].
  - destruct (qs_accept _ _ _ _ E) as (Hlt & Heq & Hne).
    destruct (decide (c' = c)) as [->|Hc]; [|rewrite Hne by done; eauto with lia].
    exists e. split; [done|]. specialize (Hlt f Hf). lia.
  - rewrite (qs_refuse _ _ _ _ _ E Hr). eauto with lia.
Qed.

Lemma consume_run_mono acts s : floor_le s (consume_run acts s).2.
Proof.
  revert s. induction acts as [|[c e] acts IH]; intros s; simpl; [done|].
  pose proof (qs_Consume_mono c e s) as HM. destruct (qs_Consume c e s) as [r s1].
  specialize (IH s1). destruct (consume_run acts s1) as [rs s2]. by transitivity s1.
Qed.

(** A floor at [f] refuses every expiry up to [f]. *)
Lemma floor_refuses s c f e :
  qs_floor s c = Some f → (e ≤ f)%Z → (qs_Consume c e s).1 ≠ Some true.
Proof.
  intros Hf He E. destruct (qs_Consume c e s) as [r s'] eqn:EC. simpl in E. subst r.
  destruct (qs_accept _ _ _ _ EC) as (Hlt & _). specialize (Hlt f Hf). lia.
Qed.

(** The floor of a condition only rises, restarts included. Once an expiry is
    consumed for a condition, no later call, whatever happened in between, accepts that
    expiry or an older one for that condition. *)
Theorem consumed_expiry_never_accepted_again cond e s s1 acts e' :
  qs_Consume cond e s = (Some true, s1) → (e' ≤ e)%Z →
  (qs_Consume cond e' (consume_run acts s1).2).1 ≠ Some true.
Proof.
  intros E He. destruct (qs_accept _ _ _ _ E) as (_ & Hf & _).
  destruct (consume_run_mono acts s1 cond e Hf) as (f' & Hf' & ?).
  apply (floor_refuses _ _ f'); [done|lia].
Qed.
End floors.
