(* ===== verification/FailClosed.v ===== *)
(** The single fail-closed point: [src/pep/failclosed.go].

    Every detector trips a named condition here and the validator asks [Gate] before each
    decision. The theorems show that [Gate] refuses exactly when a condition is tripped,
    that a trip is effective and never silent even when its leaf cannot be written, that a
    class-W condition is only lifted by a verified quorum proof strictly fresher than any
    consumed before, and that the unproved lifting [AutoClear] never touches class W. *)
From S2P Require Import Prelude.
From S2P Require Import Leaf.
From S2P Require Import Effects.
From S2P Require Import Records.
From S2P Require Import Token.
From S2P Require Import Quorum.

Inductive fc_error :=
  | ErrConditionUnknown | ErrConditionNotTripped | ErrConditionClassChange
  | ErrQuorumVerifierMissing | ErrQuorumRejected | ErrQuorumStateMissing
  | ErrQuorumStateIO | ErrQuorumReplayed | ErrAutoClearRefusedClassW.

Definition failClosedActionTrip : byte := Byte.x01.
Definition failClosedActionClear : byte := Byte.x02.
Definition clearSourceManual : string := "".
Definition clearSourceAuto : string := "auto".

Record Refusal := mkRefusal { rf_Reason : string; rf_Since : Z; rf_Detail : string }.

Record Condition := mkCondition {
  cd_Name : string;
  cd_Class : Class_;
  cd_Tripped : bool;
  cd_Since : Z;
  cd_Detail : string;
}.

Record FailClosed {S : Type} := mkFailClosed {
  fc_producer : Producer;
  fc_onAlarm : bool;
  fc_conds : gmap string Condition;
  fc_verifier : option QuorumVerifier;
  fc_state : option S;
}.
Arguments FailClosed : clear implicits.

(** [NewFailClosed]: [None] is the configuration error. *)
Definition NewFailClosed {S} (cellID : string) (salt : bytes) (leaves journal onAlarm : bool)
    (verifier : option QuorumVerifier) (state : option S) : option (FailClosed S) :=
  if bool_decide (cellID = "") then None
  else if length salt <? 16 then None
  else if negb leaves then None
  else Some (mkFailClosed S (mkProducer cellID salt journal) onAlarm ∅ verifier state).

Section failclosed.
Context {S : Type} `{Crypto, Env, MapOrder, QuorumStateStore S}.

Definition set_conds (m : gmap string Condition) (f : FailClosed S) : FailClosed S :=
  mkFailClosed S (fc_producer f) (fc_onAlarm f) m (fc_verifier f) (fc_state f).
Definition set_state (s : S) (f : FailClosed S) : FailClosed S :=
  mkFailClosed S (fc_producer f) (fc_onAlarm f) (fc_conds f) (fc_verifier f) (Some s).

(** The wiring calls; the daemon makes them before it serves, so the runs below are those of a
    wired point. *)
Definition fc_SetQuorumVerifier (v : option QuorumVerifier) (f : FailClosed S) : FailClosed S :=
  mkFailClosed S (fc_producer f) (fc_onAlarm f) (fc_conds f) v (fc_state f).
Definition fc_SetQuorumState (s : option S) (f : FailClosed S) : FailClosed S :=
  mkFailClosed S (fc_producer f) (fc_onAlarm f) (fc_conds f) (fc_verifier f) s.

(** The forensic view of one condition. *)
Definition fc_Condition (name : string) (f : FailClosed S) : option Condition :=
  fc_conds f !! name.

(** [writeLeafLocked]: a failed write is an alarm, never undoes the change. *)
Definition fc_writeLeafLocked (f : FailClosed S) (action : byte) (name detail : string) (ts : Z)
    (t : trace) : trace :=
  leafOrAlarm (fc_producer f) (fc_onAlarm f) KindTelemetry (failClosedRecord action name detail)
    (UnixNano ts) t.

Definition Register (name : string) (class : Class_) (f : FailClosed S) :
    option fc_error * FailClosed S :=
  match fc_conds f !! name with
  | Some c => if bool_decide (cd_Class c ≠ class) then (Some ErrConditionClassChange, f)
              else (None, f)
  | None =>
      (None, set_conds (<[name := mkCondition name class false zero_time ""]> (fc_conds f)) f)
  end.

(** [Trip] at clock reading [now]; the leaf reads the clock again ([ts]). *)
Definition Trip (now ts : Z) (name detail : string) (f : FailClosed S) (t : trace) :
    FailClosed S * trace :=
  let c := default (mkCondition name ClassW false zero_time "") (fc_conds f !! name) in
  if cd_Tripped c then (f, t)
  else
    let c1 := mkCondition (cd_Name c) (cd_Class c) true now detail in
    let f1 := set_conds (<[name := c1]> (fc_conds f)) f in
    let t1 := fc_writeLeafLocked f1 failClosedActionTrip name detail ts t in
    (f1, call_alarm (fc_onAlarm f) name t1).

(** The names [Gate] collects. *)
Definition tripped_names (f : FailClosed S) : list string :=
  omap (λ kv, if cd_Tripped kv.2 then Some kv.1 else None)
    (map_range (map_to_list (fc_conds f))).

Definition Gate (f : FailClosed S) : option Refusal :=
  match merge_sort string_le (tripped_names f) with
  | [] => None
  | n :: _ => (λ c, mkRefusal (cd_Name c) (cd_Since c) (cd_Detail c)) <$> fc_conds f !! n
  end.

Definition clearLocked (name : string) (c : Condition) (source : string) (ts : Z)
    (f : FailClosed S) (t : trace) : FailClosed S * trace :=
  let c1 := mkCondition (cd_Name c) (cd_Class c) false zero_time "" in
  let f1 := set_conds (<[name := c1]> (fc_conds f)) f in
  (f1, fc_writeLeafLocked f1 failClosedActionClear (cd_Name c) source ts t).

(** The governed part of [Clear]: the error, or the store after the consumption. *)
Definition check_quorum (now : Z) (name : string) (proof : QuorumProof) (f : FailClosed S) :
    option fc_error * FailClosed S :=
  match fc_verifier f with
  | None => (Some ErrQuorumVerifierMissing, f)
  | Some v =>
      if negb (v now name proof) then (Some ErrQuorumRejected, f)
      else match fc_state f with
           | None => (Some ErrQuorumStateMissing, f)
           | Some s =>
               match qs_Consume name (Unix (qp_Expiry proof)) s with
               | (None, s1) => (Some ErrQuorumStateIO, set_state s1 f)
               | (Some false, s1) => (Some ErrQuorumReplayed, set_state s1 f)
               | (Some true, s1) => (None, set_state s1 f)
               end
           end
  end.

Definition Clear (now ts : Z) (name : string) (proof : QuorumProof) (f : FailClosed S)
    (t : trace) : option fc_error * FailClosed S * trace :=
  match fc_conds f !! name with
  | None => (Some ErrConditionUnknown, f, t)
  | Some c =>
      if negb (cd_Tripped c) then (Some ErrConditionNotTripped, f, t)
      else
        let '(e, f1) := if bool_decide (cd_Class c = ClassW) then check_quorum now name proof f
                        else (None, f) in
        match e with
        | Some e => (Some e, f1, t)
        | None => let '(f2, t2) := clearLocked name c clearSourceManual ts f1 t in (None, f2, t2)
        end
  end.

Definition AutoClear (ts : Z) (name : string) (f : FailClosed S) (t : trace) :
    option fc_error * FailClosed S * trace :=
  match fc_conds f !! name with
  | None => (Some ErrConditionUnknown, f, t)
  | Some c =>
      if negb (cd_Tripped c) then (Some ErrConditionNotTripped, f, t)
      else if bool_decide (cd_Class c = ClassW) then (Some ErrAutoClearRefusedClassW, f, t)
      else let '(f1, t1) := clearLocked name c clearSourceAuto ts f t in (None, f1, t1)
  end.

Definition cond_name_le (a b : Condition) : Prop := string_le (cd_Name a) (cd_Name b).
#[global] Instance cond_name_le_dec : RelDecision cond_name_le.
Proof. intros a b. unfold cond_name_le. apply _. Defined.

(** [Tripped]: the tripped conditions, by name. *)
Definition Tripped (f : FailClosed S) : list Condition :=
  merge_sort cond_name_le
    (filter (λ c, cd_Tripped c = true) (snd <$> map_range (map_to_list (fc_conds f)))).

(** [OnTrip]: the adapter the detectors plug. *)
Definition OnTrip (now ts : Z) (reason : string) (f : FailClosed S) (t : trace) :
    FailClosed S * trace := Trip now ts reason "" f t.

(** ** Sequences of calls *)

Inductive fc_op :=
  | OpRegister (name : string) (class : Class_)
  | OpTrip (now ts : Z) (name detail : string)
  | OpClear (now ts : Z) (name : string) (proof : QuorumProof)
  | OpAutoClear (ts : Z) (name : string).

Definition fc_apply (op : fc_op) (f : FailClosed S) (t : trace) :
    option fc_error * FailClosed S * trace :=
  match op with
  | OpRegister name class => (Register name class f, t)
  | OpTrip now ts name detail => (None, (Trip now ts name detail f t).1, (Trip now ts name detail f t).2)
  | OpClear now ts name proof => Clear now ts name proof f t
  | OpAutoClear ts name => AutoClear ts name f t
  end.

Fixpoint fc_run (ops : list fc_op) (f : FailClosed S) (t : trace) : FailClosed S * trace :=
  match ops with
  | [] => (f, t)
  | op :: ops' => let '(_, f1, t1) := fc_apply op f t in fc_run ops' f1 t1
  end.

(** ** Lemmas on one call *)

Definition fc_wf (f : FailClosed S) : Prop :=
  ∀ n c, fc_conds f !! n = Some c → cd_Name c = n.

Definition is_tripped (f : FailClosed S) (name : string) : Prop :=
  ∃ c, fc_conds f !! name = Some c ∧ cd_Tripped c = true.

Lemma tripped_names_elem f n : n ∈ tripped_names f ↔ is_tripped f n.
Proof.
  unfold tripped_names, is_tripped. rewrite list_elem_of_omap. split.
  - intros ([k c] & Hin & Hc). rewrite map_range_perm, elem_of_map_to_list in Hin. simpl in Hc.
    destruct (cd_Tripped c) eqn:E; simplify_eq. eauto.
  - intros (c & Hc & E). exists (n, c). simpl. rewrite E. split; [|done].
    by rewrite map_range_perm, elem_of_map_to_list.
Qed.

Lemma check_quorum_fields now name proof f :
  fc_conds (check_quorum now name proof f).2 = fc_conds f ∧
  fc_verifier (check_quorum now name proof f).2 = fc_verifier f ∧
  fc_producer (check_quorum now name proof f).2 = fc_producer f ∧
  fc_onAlarm (check_quorum now name proof f).2 = fc_onAlarm f.
Proof.
  unfold check_quorum. destruct (fc_verifier f) eqn:Ev; [|done].
  destruct (negb _); [done|]. destruct (fc_state f); [|done].
  destruct (qs_Consume _ _ _) as [[[]|] ?]; done.
Qed.

(** The quorum check passes only with a verified proof whose expiry the store accepts. *)
Lemma check_quorum_ok now name proof f f' :
  check_quorum now name proof f = (None, f') →
  ∃ v s s', fc_verifier f = Some v ∧ v now name proof = true ∧ fc_state f = Some s ∧
    qs_Consume name (Unix (qp_Expiry proof)) s = (Some true, s') ∧ f' = set_state s' f.
Proof.
  unfold check_quorum. intros E. destruct (fc_verifier f) as [v|] eqn:Ev; [|done].
  destruct (v now name proof) eqn:Ep; [simpl in E|done].
  destruct (fc_state f) as [s|] eqn:Es; [|done].
  destruct (qs_Consume _ _ s) as [[[]|] s'] eqn:Ec; simplify_eq. naive_solver.
Qed.

(** The condition [c] is what it was before the call. *)
Ltac unchanged c := exists c; split_and!; [first [done|assumption]|done|intros; congruence].

(** A call changes the tripped flag of a condition in one of three ways. *)
Lemma fc_apply_cond op f t name c :
  fc_conds f !! name = Some c →
  ∃ c', fc_conds (fc_apply op f t).1.2 !! name = Some c' ∧ cd_Class c' = cd_Class c ∧
    (cd_Tripped c = true → cd_Tripped c' = false →
       (∃ ts, op = OpAutoClear ts name ∧ cd_Class c ≠ ClassW) ∨
       (∃ now ts proof, op = OpClear now ts name proof ∧ (fc_apply op f t).1.1 = None ∧
          (cd_Class c = ClassW → (check_quorum now name proof f).1 = None ∧
             fc_state (fc_apply op f t).1.2 = fc_state (check_quorum now name proof f).2))).
Proof.
  intros Hc. destruct op as [n cl|now ts n d|now ts n proof|ts n]; simpl.
  - unfold Register. destruct (fc_conds f !! n) eqn:En; [case_bool_decide; unchanged c|].
    simpl. rewrite lookup_insert_ne by congruence. unchanged c.
  - unfold Trip. destruct (decide (n = name)) as [->|Hne].
    + rewrite Hc. simpl. destruct (cd_Tripped c) eqn:Et; [unchanged c|].
      simpl. rewrite lookup_insert_eq. eexists; split_and!; [done..|congruence].
    + destruct (cd_Tripped _); simpl; [|rewrite lookup_insert_ne by done]; unchanged c.
  - unfold Clear. destruct (fc_conds f !! n) as [c0|] eqn:En; [|unchanged c].
    destruct (cd_Tripped c0) eqn:Et; [simpl|unchanged c].
    destruct (check_quorum_fields now n proof f) as (Fc & _).
    destruct (decide (n = name)) as [->|Hne].
    + rewrite Hc in En. injection En as <-. case_bool_decide as Hw; simpl.
      * destruct (check_quorum now name proof f) as [[e|] f1] eqn:EQ; simpl in *; rewrite ?Fc.
        -- unchanged c.
        -- rewrite lookup_insert_eq. eexists. split_and!; [done..|]. intros _ _. right.
           exists now, ts, proof. by rewrite EQ.
      * rewrite lookup_insert_eq. eexists. split_and!; [done..|]. intros _ _. right.
        by exists now, ts, proof.
    + case_bool_decide; [destruct (check_quorum now n proof f) as [[e|] f1]|]; simpl in *;
        rewrite ?lookup_insert_ne, ?Fc by done; unchanged c.
  - unfold AutoClear. destruct (fc_conds f !! n) as [c0|] eqn:En; [|unchanged c].
    destruct (cd_Tripped c0) eqn:Et; [simpl|unchanged c].
    case_bool_decide as Hw; [unchanged c|]. simpl.
    destruct (decide (n = name)) as [->|Hne]; [|rewrite lookup_insert_ne by done; unchanged c].
    rewrite Hc in En. injection En as <-. rewrite lookup_insert_eq. eexists.
    split_and!; [done..|]. intros _ _. left. by exists ts.
Qed.

Lemma fc_apply_verifier op f t : fc_verifier (fc_apply op f t).1.2 = fc_verifier f.
Proof.
  destruct op as [n cl|now ts n d|now ts n proof|ts n]; simpl.
  - unfold Register. repeat case_match; done.
  - unfold Trip. case_match; done.
  - unfold Clear. destruct (fc_conds f !! n) as [c0|]; [|done]. destruct (cd_Tripped c0); [|done].
    destruct (check_quorum_fields now n proof f) as (_ & Fv & _).
    case_bool_decide; [|done]. by destruct (check_quorum now n proof f) as [[e|] f1].
  - unfold AutoClear. destruct (fc_conds f !! n) as [c0|]; [|done].
    destruct (cd_Tripped c0); [|done]. by case_bool_decide.
Qed.

Lemma fc_run_verifier ops f t : fc_verifier (fc_run ops f t).1 = fc_verifier f.
Proof.
  revert f t. induction ops as [|op ops IH]; intros f t; [done|]. simpl.
  pose proof (fc_apply_verifier op f t) as HV. destruct (fc_apply op f t) as [[e f1] t1].
  simpl in HV. by rewrite IH.
Qed.

Lemma fc_run_class ops f t name c :
  fc_conds f !! name = Some c →
  ∃ c', fc_conds (fc_run ops f t).1 !! name = Some c' ∧ cd_Class c' = cd_Class c.
Proof.
  revert f t c. induction ops as [|op ops IH]; intros f t c Hc; simpl; [eauto|].
  destruct (fc_apply_cond op f t name c Hc) as (c1 & Hc1 & Hcl & _).
  destruct (fc_apply op f t) as [[e f1] t1]. destruct (IH f1 t1 c1 Hc1) as (c2 & Hc2 & ?).
  exists c2. split; [done|congruence].
Qed.

(** The floors of the quorum store, which only rise. *)
Definition fc_floor (f : FailClosed S) (name : string) : option Z :=
  s ← fc_state f; qs_floor s name.

Lemma fc_apply_state op f t :
  fc_state (fc_apply op f t).1.2 = fc_state f ∨
  ∃ now ts name proof, op = OpClear now ts name proof ∧
    fc_state (fc_apply op f t).1.2 = fc_state (check_quorum now name proof f).2.
Proof.
  destruct op as [n cl|now ts n d|now ts n proof|ts n]; simpl.
  - left. unfold Register. repeat case_match; done.
  - left. unfold Trip. case_match; done.
  - unfold Clear. destruct (fc_conds f !! n) as [c0|]; [|by left]. destruct (cd_Tripped c0); [|by left].
    case_bool_decide; [|by left]. simpl. right. exists now, ts, n, proof. split; [done|].
    by destruct (check_quorum now n proof f) as [[e|] f1].
  - left. unfold AutoClear. destruct (fc_conds f !! n) as [c0|]; [|done].
    destruct (cd_Tripped c0); [|done]. by case_bool_decide.
Qed.

Context `{!QuorumStateLaws S}.

Lemma check_quorum_floor now name proof f n fl :
  fc_floor f n = Some fl →
  ∃ fl', fc_floor (check_quorum now name proof f).2 n = Some fl' ∧ (fl ≤ fl')%Z.
Proof.
  intros Hf. assert (∃ fl', fc_floor f n = Some fl' ∧ (fl ≤ fl')%Z) as Hsame by eauto with lia.
  unfold check_quorum. destruct (fc_verifier f); [|done].
  destruct (negb _); [done|]. unfold fc_floor in *. destruct (fc_state f) as [s|] eqn:Es; [|done].
  simpl in Hf. pose proof (qs_Consume_mono name (Unix (qp_Expiry proof)) s n fl Hf) as HM.
  destruct (qs_Consume _ _ s) as [[[]|] s']; done.
Qed.

Lemma fc_run_floor ops f t n fl :
  fc_floor f n = Some fl → ∃ fl', fc_floor (fc_run ops f t).1 n = Some fl' ∧ (fl ≤ fl')%Z.
Proof.
  revert f t fl. induction ops as [|op ops IH]; intros f t fl Hf; simpl; [eauto with lia|].
  assert (∃ fl', fc_floor (fc_apply op f t).1.2 n = Some fl' ∧ (fl ≤ fl')%Z) as (fl1 & Hf1 & Hle).
  { unfold fc_floor at 1. destruct (fc_apply_state op f t) as [->|(now & ts & name & proof & _ & ->)].
    - exists fl. split; [done|lia].
    - apply check_quorum_floor; done. }
  destruct (fc_apply op f t) as [[e f1] t1]. destruct (IH f1 t1 fl1 Hf1) as (fl2 & ? & ?).
  exists fl2. split; [done|lia].
Qed.

(** ** Properties *)

(** The gate. [Gate] lets decisions through exactly when no condition is tripped;
    otherwise it refuses with the recorded diagnosis of the least tripped name, whatever
    order the map is visited in. *)
Theorem gate_refuses_iff_tripped f :
  fc_wf f →
  (Gate f = None ↔ ∀ n, ¬ is_tripped f n) ∧
  ∀ r, Gate f = Some r →
    ∃ c, fc_conds f !! rf_Reason r = Some c ∧ cd_Tripped c = true ∧
         rf_Since r = cd_Since c ∧ rf_Detail r = cd_Detail c ∧
         ∀ n, is_tripped f n → string_le (rf_Reason r) n.
Proof.
  intros Hwf. unfold Gate. destruct (merge_sort _ _) as [|n ns] eqn:E.
  - apply merge_sort_nil_iff in E. split; [|done]. split; [|done]. intros _ n Hn.
    apply tripped_names_elem in Hn. rewrite E in Hn. by apply elem_of_nil in Hn.
  - apply (merge_sort_head string_le) in E as [Hin Hle].
    pose proof (proj1 (tripped_names_elem f n) Hin) as (c & Hc & Ht). rewrite Hc. simpl.
    split; [split; [done|intros Hno; by destruct (Hno n); exists c]|].
    intros r [= <-]. simpl. rewrite (Hwf n c Hc). exists c. split_and!; [done..|].
    intros m Hm. apply tripped_names_elem in Hm.
    destruct (Hle m Hm) as [?|Heq]; [done|]. rewrite Heq. by destruct (total string_le n n).
Qed.

(** A trip is effective and never silent. After [Trip] the gate refuses, an unknown
    condition is registered in the hardest class, and a condition that was not tripped has
    left its leaf, or the alarm that it could not be written, then its own alarm; the
    diagnosis of a condition already tripped is kept. *)
Theorem trip_effective_and_traced now ts name detail f t :
  let '(f', t') := Trip now ts name detail f t in
  is_tripped f' name ∧ Gate f' ≠ None ∧
  (fc_conds f !! name = None →
     fc_conds f' !! name = Some (mkCondition name ClassW true now detail)) ∧
  (is_tripped f name → f' = f ∧ t' = t) ∧
  (¬ is_tripped f name →
     ∃ d, t' = t ++ d ∧
       alarms_of d = (if fc_onAlarm f && bool_decide (leaves_of d = [])
                      then [ReasonLeafWriteFailed] else [])
                     ++ (if fc_onAlarm f then [name] else []) ∧
       (leaves_of d = [] ∨
        leaves_of d = [leaf_for (fc_producer f) KindTelemetry
                         (failClosedRecord failClosedActionTrip name detail) (UnixNano ts)])).
Proof.
  assert (∀ f', is_tripped f' name → Gate f' ≠ None) as HG.
  { intros f' Ht E. unfold Gate in E. apply tripped_names_elem in Ht as Hin.
    destruct (merge_sort _ _) as [|n ns] eqn:Em.
    - apply merge_sort_nil_iff in Em. rewrite Em in Hin. by apply elem_of_nil in Hin.
    - apply (merge_sort_head string_le) in Em as [(c & Hc & _)%tripped_names_elem _]. by rewrite Hc in E. }
  unfold Trip. destruct (cd_Tripped _) eqn:Et.
  - assert (is_tripped f name) as Ht.
    { destruct (fc_conds f !! name) as [c|] eqn:Ec; [|done]. by exists c. }
    split_and!; auto; [|done]. intros Hn. by rewrite Hn in Et.
  - set (f1 := set_conds _ f).
    assert (is_tripped f1 name) as Ht.
    { eexists. split; [apply lookup_insert_eq|done]. }
    split_and!; auto.
    + intros Hn. unfold f1; simpl. rewrite Hn. apply lookup_insert_eq.
    + intros (c & Hc & Hct). rewrite Hc in Et. simpl in Et. congruence.
    + intros _. unfold fc_writeLeafLocked, call_alarm.
      destruct (leafOrAlarm_trace (fc_producer f1) (fc_onAlarm f1) KindTelemetry
        (failClosedRecord failClosedActionTrip name detail) (UnixNano ts) t) as (d & -> & _ & HD).
      exists (d ++ if fc_onAlarm f then [EvAlarm name] else []).
      change (fc_onAlarm f1) with (fc_onAlarm f) in HD.
      destruct (fc_onAlarm f); rewrite ?app_nil_r, <-?app_assoc; (split; [done|]);
        rewrite ?alarms_of_app, ?leaves_of_app; simpl; rewrite ?app_nil_r;
        destruct HD as [[-> ->]|[-> ->]]; auto.
Qed.

(** C5: a class-W condition is lifted only by governance. If a tripped class-W condition
    is no longer tripped after a sequence of calls, the sequence contains a [Clear] of that
    condition whose proof the verifier accepted and whose expiry exceeded every expiry
    consumed for it before. *)
Theorem class_W_lifted_only_by_quorum ops f t name c :
  fc_conds f !! name = Some c → cd_Class c = ClassW → cd_Tripped c = true →
  ¬ is_tripped (fc_run ops f t).1 name →
  ∃ ops1 now ts proof ops2 v,
    ops = ops1 ++ OpClear now ts name proof :: ops2 ∧
    fc_verifier f = Some v ∧ v now name proof = true ∧
    (∀ fl, fc_floor (fc_run ops1 f t).1 name = Some fl → (fl < Unix (qp_Expiry proof))%Z) ∧
    fc_floor (fc_run (ops1 ++ [OpClear now ts name proof]) f t).1 name
      = Some (Unix (qp_Expiry proof)).
Proof.
  revert f t c. induction ops as [|op ops IH]; intros f t c Hc Hw Ht Hn; simpl in Hn.
  { destruct Hn. by exists c. }
  destruct (fc_apply_cond op f t name c Hc) as (c1 & Hc1 & Hcl & HT).
  pose proof (fc_apply_verifier op f t) as HV.
  destruct (fc_apply op f t) as [[e f1] t1] eqn:E. simpl in *.
  destruct (cd_Tripped c1) eqn:Et1.
  - destruct (IH f1 t1 c1 Hc1 ltac:(congruence) Et1 Hn)
      as (ops1 & now & ts & proof & ops2 & v & -> & Hv & Hp & Hlt & Heq).
    exists (op :: ops1), now, ts, proof, ops2, v. simpl. rewrite E.
    split_and!; auto. congruence.
  - destruct (HT Ht eq_refl) as [(ts & _ & Hne)|(now & ts & proof & -> & _ & HQ)]; [done|].
    destruct (HQ Hw) as [Hok Hst].
    destruct (check_quorum now name proof f) as [e' fq] eqn:EQ. simpl in Hok, Hst. subst e'.
    destruct (check_quorum_ok _ _ _ _ _ EQ) as (v & s & s' & Hv & Hp & Hs & HC & ->).
    destruct (qs_accept _ _ _ _ HC) as (Hlt & Heq & _).
    exists [], now, ts, proof, ops, v. simpl in *. rewrite E. unfold fc_floor. simpl. rewrite Hs, Hst.
    split_and!; auto.
Qed.

(** A quorum proof lifts a condition at most once. After a class-W condition was
    lifted with a proof, no later [Clear] of that condition succeeds with this proof or an
    older one, whatever was tripped, registered or lifted in between. *)
Theorem quorum_proof_single_use now ts name proof f t f1 t1 ops now' ts' proof' c :
  fc_conds f !! name = Some c → cd_Class c = ClassW →
  Clear now ts name proof f t = (None, f1, t1) →
  (Unix (qp_Expiry proof') ≤ Unix (qp_Expiry proof))%Z →
  let '(f2, t2) := fc_run ops f1 t1 in
  (Clear now' ts' name proof' f2 t2).1.1 ≠ None.
Proof.
  intros Hc Hw HC Hle. destruct (fc_run ops f1 t1) as [f2 t2] eqn:ER.
  assert (∃ c1, fc_conds f1 !! name = Some c1 ∧ cd_Class c1 = ClassW ∧
    fc_floor f1 name = Some (Unix (qp_Expiry proof))) as (c1 & Hc1 & Hw1 & Hf1).
  { unfold Clear in HC. rewrite Hc in HC. destruct (cd_Tripped c); [simpl in HC|done].
    rewrite bool_decide_true in HC by done.
    destruct (check_quorum now name proof f) as [[e|] fq] eqn:EQ; [done|].
    destruct (check_quorum_ok _ _ _ _ _ EQ) as (v & s & s' & Hv & Hp & Hs & HCo & ->).
    destruct (qs_accept _ _ _ _ HCo) as (_ & Heq & _). injection HC as <- <-. simpl.
    rewrite lookup_insert_eq. eexists. split_and!; [done..|]. exact Heq. }
  destruct (fc_run_class ops f1 t1 name c1 Hc1) as (c2 & Hc2 & Hw2). rewrite ER in Hc2. simpl in Hc2.
  destruct (fc_run_floor ops f1 t1 name _ Hf1) as (fl & Hfl & Hge). rewrite ER in Hfl. simpl in Hfl.
  unfold Clear. rewrite Hc2. destruct (cd_Tripped c2); [simpl|done].
  rewrite bool_decide_true by congruence.
  destruct (check_quorum now' name proof' f2) as [[e|] fq] eqn:EQ; [done|].
  destruct (check_quorum_ok _ _ _ _ _ EQ) as (v & s & s' & Hv & Hp & Hs & HCo & ->).
  destruct (qs_accept _ _ _ _ HCo) as (Hlt & _). unfold fc_floor in Hfl. rewrite Hs in Hfl.
  specialize (Hlt fl Hfl). lia.
Qed.
End failclosed.
