(* ===== verification/AutoClear.v ===== *)
(** Bounded automatic recovery of the OPA conditions: [src/pep/opa_autoclear.go].

    [Tick] is one pass of the recovery loop. It reads the fail-closed point, probes OPA
    without holding a lock, and lifts the candidate conditions once enough consecutive
    probes were healthy; the fail-closed point may change between the reading and the
    lifting, so [tick_end] takes it anew. *)
From S2P Require Import Prelude.
From S2P Require Import Leaf.
From S2P Require Import Effects.
From S2P Require Import Token.
From S2P Require Import Quorum.
From S2P Require Import FailClosed.

Definition DefaultOPAAutoClearProbes : Z := 3.
Definition DefaultOPAAutoClearInterval : Z := 2 * second.
Definition autoClearFlapWindow : Z := 60 * second.
Definition autoClearMaxFactor : Z := 8.

Record OPAAutoClearer := mkAutoClearer {
  ac_cands : gset string;
  ac_probes : Z;
  ac_interval : Z;
  ac_streak : Z;
  ac_required : Z;
  ac_engaged : bool;
  ac_factor : Z;
  ac_lastClear : Z;    (* time.Time *)
}.

(** [NewOPAAutoClearer]: [None] is a configuration error; the first two arguments say
    whether the fail-closed point and the probe are given. *)
Definition NewOPAAutoClearer (fc probe : bool) (conditions : list string) (probes interval : Z) :
    option OPAAutoClearer :=
  if negb fc then None
  else if negb probe then None
  else if length conditions =? 0 then None
  else if ((probes <? 0) || (interval <? 0))%Z then None
  else Some (mkAutoClearer (list_to_set conditions)
               (if probes =? 0 then DefaultOPAAutoClearProbes else probes)%Z
               (if interval =? 0 then DefaultOPAAutoClearInterval else interval)%Z
               0 0 false 1 zero_time).

Definition set_cycle (streak : Z) (engaged : bool) (a : OPAAutoClearer) : OPAAutoClearer :=
  mkAutoClearer (ac_cands a) (ac_probes a) (ac_interval a) streak (ac_required a) engaged
    (ac_factor a) (ac_lastClear a).

Section autoclear.
Context {S : Type} `{Crypto, Env, MapOrder, QuorumStateStore S}.

(** The candidates tripped when the pass begins. *)
Definition tick_candidates (f : FailClosed S) (a : OPAAutoClearer) : list string :=
  cd_Name <$> filter (λ c, cd_Name c ∈ ac_cands a ∧ cd_Class c ≠ ClassW) (Tripped f).

(** A new cycle: the requirement doubles when the condition trips again soon after an
    automatic lifting. *)
Definition engage (now : Z) (a : OPAAutoClearer) : OPAAutoClearer :=
  let factor :=
    if (negb (ac_lastClear a =? zero_time) && (Sub now (ac_lastClear a) <? autoClearFlapWindow))%Z
    then if (ac_factor a <? autoClearMaxFactor)%Z then (ac_factor a * 2)%Z else ac_factor a
    else 1%Z in
  mkAutoClearer (ac_cands a) (ac_probes a) (ac_interval a) 0 (ac_probes a * factor) true factor
    (ac_lastClear a).

(** The first critical section; the list is empty when the pass stops there. *)
Definition tick_begin (now : Z) (f : FailClosed S) (a : OPAAutoClearer) :
    list string * OPAAutoClearer :=
  let tripped := tick_candidates f a in
  match tripped with
  | [] => ([], set_cycle 0 false a)
  | _ => (tripped, if ac_engaged a then a else engage now a)
  end.

(** The loop of liftings; [ts] gives the clock readings of the leaves. *)
Fixpoint clear_all (ts : string → Z) (names : list string) (f : FailClosed S) (t : trace) :
    bool * FailClosed S * trace :=
  match names with
  | [] => (false, f, t)
  | n :: names' =>
      let '(e, f1, t1) := AutoClear (ts n) n f t in
      let '(cleared, f2, t2) := clear_all ts names' f1 t1 in
      (match e with None => true | Some _ => cleared end, f2, t2)
  end.

(** The second critical section, after the probe. *)
Definition tick_end (now : Z) (ts : string → Z) (healthy : bool) (tripped : list string)
    (a : OPAAutoClearer) (f : FailClosed S) (t : trace) :
    OPAAutoClearer * FailClosed S * trace :=
  if negb healthy then (set_cycle 0 (ac_engaged a) a, f, t)
  else
    let a1 := set_cycle (ac_streak a + 1) (ac_engaged a) a in
    if (ac_streak a1 <? ac_required a1)%Z then (a1, f, t)
    else
      let '(cleared, f1, t1) := clear_all ts tripped f t in
      (mkAutoClearer (ac_cands a) (ac_probes a) (ac_interval a) 0 (ac_required a) false
         (ac_factor a) (if cleared then now else ac_lastClear a), f1, t1).

(** One pass: [f0] is the fail-closed point when the pass begins, [f] when it ends. *)
Definition Tick (now1 now2 : Z) (ts : string → Z) (healthy : bool) (f0 : FailClosed S)
    (a : OPAAutoClearer) (f : FailClosed S) (t : trace) : OPAAutoClearer * FailClosed S * trace :=
  match tick_begin now1 f0 a with
  | ([], a1) => (a1, f, t)
  | (tripped, a1) => tick_end now2 ts healthy tripped a1 f t
  end.

(** ** Lemmas *)

Lemma AutoClear_other ts n (f : FailClosed S) t name c :
  fc_conds f !! name = Some c → (name ≠ n ∨ cd_Class c = ClassW) →
  fc_conds (AutoClear ts n f t).1.2 !! name = Some c.
Proof.
  intros Hc Hor. unfold AutoClear. destruct (fc_conds f !! n) as [c0|] eqn:En; [|done].
  destruct (cd_Tripped c0); [simpl|done]. case_bool_decide as Hw; [done|]. simpl.
  destruct (decide (n = name)) as [->|Hne]; [|by rewrite lookup_insert_ne].
  rewrite Hc in En. injection En as ->. by destruct Hor.
Qed.

Lemma clear_all_other ts names (f : FailClosed S) t name c :
  fc_conds f !! name = Some c → (name ∉ names ∨ cd_Class c = ClassW) →
  fc_conds (clear_all ts names f t).1.2 !! name = Some c.
Proof.
  revert f t. induction names as [|n names IH]; intros f t Hc Hor; simpl; [done|].
  assert (fc_conds (AutoClear (ts n) n f t).1.2 !! name = Some c) as Hc1.
  { apply AutoClear_other; [done|]. destruct Hor; [left|by right]. set_solver. }
  destruct (AutoClear (ts n) n f t) as [[e f1] t1]. simpl in Hc1.
  specialize (IH f1 t1 Hc1). destruct (clear_all ts names f1 t1) as [[b f2] t2]. apply IH.
  destruct Hor; [left|by right]. set_solver.
Qed.

Lemma tick_candidates_cand f a n : n ∈ tick_candidates f a → n ∈ ac_cands a.
Proof.
  unfold tick_candidates. intros (c & -> & Hc)%list_elem_of_fmap.
  by apply list_elem_of_filter in Hc as [[? _] _].
Qed.

(** The state of the recovery against the health of the past probes, latest first. *)
Fixpoint healthy_streak (hist : list bool) : Z :=
  match hist with true :: hist' => 1 + healthy_streak hist' | _ => 0 end.

Definition ac_inv (hist : list bool) (a : OPAAutoClearer) : Prop :=
  (0 < ac_probes a)%Z ∧ (0 ≤ ac_streak a ≤ healthy_streak hist)%Z ∧
  ac_factor a ∈ [1; 2; 4; 8]%Z ∧
  (ac_engaged a = true → ac_required a = ac_probes a * ac_factor a)%Z.

Lemma healthy_streak_nonneg hist : (0 ≤ healthy_streak hist)%Z.
Proof. induction hist as [|[] hist IH]; simpl; lia. Qed.

Lemma engage_inv now hist a :
  ac_inv hist a → ac_inv hist (engage now a) ∧ ac_engaged (engage now a) = true.
Proof.
  intros (Hp & Hs & Hf & He). pose proof (healthy_streak_nonneg hist).
  unfold engage, ac_inv; simpl. split_and!; try done; try lia.
  destruct (_ && _)%Z; [|set_solver].
  rewrite !elem_of_cons, elem_of_nil in Hf.
  destruct (Z.ltb_spec (ac_factor a) autoClearMaxFactor); unfold autoClearMaxFactor in *.
  - rewrite !elem_of_cons. destruct Hf as [Hf|[Hf|[Hf|[Hf|[]]]]]; rewrite Hf in *; lia.
  - rewrite !elem_of_cons. tauto.
Qed.

Lemma tick_begin_inv now f a hist :
  ac_inv hist a →
  ac_inv hist (tick_begin now f a).2 ∧ ac_cands (tick_begin now f a).2 = ac_cands a ∧
  ac_probes (tick_begin now f a).2 = ac_probes a ∧
  ((tick_begin now f a).1 ≠ [] → ac_engaged (tick_begin now f a).2 = true) ∧
  ∀ n, n ∈ (tick_begin now f a).1 → n ∈ ac_cands a.
Proof.
  intros Hinv. pose proof (healthy_streak_nonneg hist). unfold tick_begin.
  pose proof (tick_candidates_cand f a) as HC.
  destruct (tick_candidates f a) as [|n ns] eqn:E; simpl.
  - destruct Hinv as (Hp & Hs & Hf & He). split_and!; try done; simpl; try lia.
  - destruct (ac_engaged a) eqn:Ee; [split_and!; auto|].
    destruct (engage_inv now hist a Hinv). split_and!; auto.
Qed.

(** The states the recovery reaches from its construction, with the probes of the cycle in
    progress; a pass that finds nothing to lift makes no probe and ends the cycle. *)
Definition probes_after (f0 : FailClosed S) (a : OPAAutoClearer) (healthy : bool)
    (hist : list bool) : list bool :=
  match tick_candidates f0 a with [] => [] | _ => healthy :: hist end.

Inductive ac_reach : list bool → OPAAutoClearer → Prop :=
  | reach_new conditions probes interval a :
      NewOPAAutoClearer true true conditions probes interval = Some a → ac_reach [] a
  | reach_tick hist a now1 now2 ts healthy f0 f t a' f' t' :
      ac_reach hist a → Tick now1 now2 ts healthy f0 a f t = (a', f', t') →
      ac_reach (probes_after f0 a healthy hist) a'.

Lemma tick_end_inv now ts healthy tripped a f t hist :
  ac_inv hist a → ac_engaged a = true →
  let '(a', f', t') := tick_end now ts healthy tripped a f t in
  ac_inv (healthy :: hist) a' ∧ ac_factor a' = ac_factor a ∧
  (f' = f ∧ t' = t ∨
   healthy = true ∧ (ac_probes a * ac_factor a ≤ healthy_streak (healthy :: hist))%Z).
Proof.
  intros (Hp & Hs & Hf & He) Ee. specialize (He Ee). unfold tick_end.
  pose proof (healthy_streak_nonneg hist).
  destruct healthy; simpl; [|unfold ac_inv; simpl; split_and!; auto; lia].
  destruct (Z.ltb_spec (ac_streak a + 1) (ac_required a)); simpl.
  - unfold ac_inv; simpl. split_and!; auto; lia.
  - destruct (clear_all ts tripped f t) as [[cl f1] t1]. unfold ac_inv; simpl.
    split_and!; auto; try done; try lia.
Qed.

Lemma Tick_inv now1 now2 ts healthy f0 a f t hist :
  ac_inv hist a →
  let '(a', f', t') := Tick now1 now2 ts healthy f0 a f t in
  ac_inv (probes_after f0 a healthy hist) a' ∧
  (f' = f ∧ t' = t ∨
   healthy = true ∧
   (ac_probes a * ac_factor a' ≤ healthy_streak (probes_after f0 a healthy hist))%Z).
Proof.
  intros Hinv. destruct (tick_begin_inv now1 f0 a hist Hinv) as (HI & _ & HP & HE & _).
  unfold Tick, probes_after, tick_begin in *.
  destruct (tick_candidates f0 a) as [|n ns] eqn:E; simpl in *.
  - destruct HI as (? & ? & ? & ?). split; [|by left]. unfold ac_inv; simpl in *. split_and!; auto; lia.
  - set (a1 := if ac_engaged a then a else engage now1 a) in *.
    pose proof (tick_end_inv now2 ts healthy (n :: ns) a1 f t hist HI (HE ltac:(done))) as HT.
    destruct (tick_end _ _ _ _ a1 f t) as [[a' f'] t']. destruct HT as (I & F & C).
    split; [done|]. destruct C as [?|[-> ?]]; [by left|right]. split; [done|].
    by rewrite F, <-HP.
Qed.

Lemma ac_reach_inv hist a : ac_reach hist a → ac_inv hist a.
Proof.
  induction 1 as [conditions probes interval a HN|hist a now1 now2 ts healthy f0 f t a' f' t' _ IH HT].
  - unfold NewOPAAutoClearer in HN. simpl in HN. destruct (length conditions =? 0); [done|].
    destruct (Z.ltb_spec probes 0); [done|]. destruct (interval <? 0)%Z; [done|].
    simpl in HN. injection HN as <-. unfold ac_inv; simpl.
    destruct (Z.eqb_spec probes 0); unfold DefaultOPAAutoClearProbes;
      split_and!; try done; try lia; set_solver.
  - pose proof (Tick_inv now1 now2 ts healthy f0 a f t hist IH) as HI. rewrite HT in HI. apply HI.
Qed.

(** The automatic recovery is bounded. In every state the recovery can reach, a pass
    never touches a class-W or a non-candidate condition, even when the fail-closed point
    changed since the pass began, and it lifts something only if its own probe and the
    probes of the cycle before it make at least [probes] consecutive healthy ones, times the
    anti-flapping factor, which stays between 1 and 8. *)
Theorem auto_clear_bounded hist a now1 now2 ts healthy f0 f t a' f' t' :
  ac_reach hist a → Tick now1 now2 ts healthy f0 a f t = (a', f', t') →
  (∀ name c, fc_conds f !! name = Some c → name ∉ ac_cands a ∨ cd_Class c = ClassW →
     fc_conds f' !! name = Some c) ∧
  (f' ≠ f → healthy = true ∧ ac_factor a' ∈ [1; 2; 4; 8]%Z ∧
     (ac_probes a * ac_factor a' ≤ healthy_streak (probes_after f0 a healthy hist))%Z).
Proof.
  intros Hr HT. apply ac_reach_inv in Hr. split.
  - intros name c Hc Hor. destruct (tick_begin_inv now1 f0 a hist Hr) as (_ & _ & _ & _ & HC).
    unfold Tick in HT. destruct (tick_begin now1 f0 a) as [[|n ns] a1]; [by simplify_eq|].
    unfold tick_end in HT. destruct healthy; simpl in HT; [|by simplify_eq].
    destruct (_ <? _)%Z; [by simplify_eq|].
    assert (fc_conds (clear_all ts (n :: ns) f t).1.2 !! name = Some c) as HA.
    { apply clear_all_other; [done|]. destruct Hor as [Hn|]; [left|by right].
      intros Hin. by apply Hn, HC. }
    simpl in HA. destruct (AutoClear (ts n) n f t) as [[e f1] t1].
    destruct (clear_all ts ns f1 t1) as [[cl f2] t2]. by simplify_eq.
  - intros Hne. pose proof (Tick_inv now1 now2 ts healthy f0 a f t hist Hr) as HI. rewrite HT in HI.
    destruct HI as ((_ & _ & Hf & _) & [[-> _]|[-> ?]]); [done|]. done.
Qed.
End autoclear.
