(* ===== verification/Clock.v ===== *)
(** The clock watchdog: [src/pep/clock.go].

    [Check] polls the kernel clock and moves the gate between normal and degraded. The
    mode is read by the hot path while a transition is in progress, so [Check_states]
    lists every pair of watchdog and trace a concurrent reader can see, in order; [Check]
    ends in the last one. *)
From S2P Require Import Prelude.
From S2P Require Import Leaf.
From S2P Require Import Effects.
From S2P Require Import Records.

Definition DefaultSkewBound : Z := 50 * millisecond.
Definition DefaultClockInterval : Z := second.
Definition ReasonClockUnsync : string := "clock-unsync".
Definition ReasonClockSkew : string := "clock-skew".
Definition ReasonClockResync : string := "clock-resync".
Definition ReasonClockProbeError : string := "clock-probe-error".
Definition ClockPriorityInfo : byte := Byte.x00.
Definition ClockPriorityHigh : byte := Byte.x01.

Inductive ClockMode := ClockModeNormal | ClockModeDegraded.
#[global] Instance ClockMode_eq_dec : EqDecision ClockMode.
Proof. solve_decision. Defined.

Record ClockSample := mkClockSample { cs_Unsync : bool; cs_EstError : Z }.

Record ClockWatchdog := mkClockWatchdog {
  cw_interval : Z;
  cw_skewBound : Z;
  cw_localIssuer : string;
  cw_producer : Producer;
  cw_onTrip : bool;
  cw_mode : ClockMode;
  cw_reason : string;
}.

(** [NewClockWatchdog]: [None] is a configuration error. *)
Definition NewClockWatchdog (localIssuer cellID : string) (salt : bytes)
    (leaves journal onTrip : bool) (interval skewBound : Z) : option ClockWatchdog :=
  if bool_decide (localIssuer = "") then None
  else if bool_decide (cellID = "") then None
  else if length salt <? 16 then None
  else if negb leaves then None
  else if (interval <? 0)%Z then None
  else if (skewBound <? 0)%Z then None
  else Some (mkClockWatchdog
               (if interval =? 0 then DefaultClockInterval else interval)%Z
               (if skewBound =? 0 then DefaultSkewBound else skewBound)%Z
               localIssuer (mkProducer cellID salt journal) onTrip ClockModeNormal "").

Definition set_clock (m : ClockMode) (r : string) (w : ClockWatchdog) : ClockWatchdog :=
  mkClockWatchdog (cw_interval w) (cw_skewBound w) (cw_localIssuer w) (cw_producer w)
    (cw_onTrip w) m r.

(** The reason to degrade, if any; [None] is a probe that failed. *)
Definition clock_fault (w : ClockWatchdog) (sample : option ClockSample) : option string :=
  match sample with
  | None => Some ReasonClockProbeError
  | Some s =>
      if cs_Unsync s then Some ReasonClockUnsync
      else if (cw_skewBound w <? cs_EstError s)%Z then Some ReasonClockSkew
      else None
  end.

Arguments clock_fault : simpl never.

Section clock.
Context `{Crypto, Env}.

Definition cw_writeLeaf (w : ClockWatchdog) (reason : string) (priority : byte) (ts : Z)
    (t : trace) : trace :=
  leafOrAlarm (cw_producer w) (cw_onTrip w) KindTelemetry (clockAlarmRecord reason priority)
    (UnixNano ts) t.

(** The states a reader of the mode can observe during one [Check], the initial one
    first. *)
Definition Check_states (sample : option ClockSample) (ts : Z) (w : ClockWatchdog) (t : trace) :
    list (ClockWatchdog * trace) :=
  match clock_fault w sample with
  | None =>
      match cw_mode w with
      | ClockModeNormal => [(w, t)]
      | ClockModeDegraded =>
          let t1 := cw_writeLeaf w ReasonClockResync ClockPriorityInfo ts t in
          [(w, t); (w, t1); (set_clock ClockModeNormal "" w, t1)]
      end
  | Some reason =>
      if bool_decide (cw_mode w = ClockModeDegraded ∧ cw_reason w = reason) then [(w, t)]
      else
        let t1 := if bool_decide (reason = ReasonClockSkew ∧
                       ¬ (cw_mode w = ClockModeDegraded ∧ cw_reason w = ReasonClockSkew))
                  then call_alarm (cw_onTrip w) ReasonClockSkew t else t in
        let w1 := set_clock ClockModeDegraded reason w in
        [(w, t); (w, t1); (w1, t1); (w1, cw_writeLeaf w reason ClockPriorityHigh ts t1)]
  end.

Definition Check (sample : option ClockSample) (ts : Z) (w : ClockWatchdog) (t : trace) :
    ClockWatchdog * trace :=
  List.last (Check_states sample ts w t) (w, t).

Definition Degraded (w : ClockWatchdog) : bool := bool_decide (cw_mode w = ClockModeDegraded).
Definition NaturalLanguageAllowed (w : ClockWatchdog) : bool :=
  bool_decide (cw_mode w = ClockModeNormal).
Definition IssuerAllowed (w : ClockWatchdog) (iss : string) : bool :=
  if bool_decide (cw_mode w = ClockModeNormal) then true else bool_decide (iss = cw_localIssuer w).

(** A watchdog in degraded mode carries the reason of a fault. *)
Definition cw_wf (w : ClockWatchdog) : Prop :=
  match cw_mode w with
  | ClockModeNormal => cw_reason w = ""
  | ClockModeDegraded =>
      cw_reason w ∈ [ReasonClockProbeError; ReasonClockUnsync; ReasonClockSkew]
  end.

Lemma clock_fault_reason w sample r :
  clock_fault w sample = Some r → r ∈ [ReasonClockProbeError; ReasonClockUnsync; ReasonClockSkew].
Proof. unfold clock_fault. intros. repeat case_match; simplify_eq; set_solver. Qed.

Lemma leaves_of_alarm plugged r t : leaves_of (call_alarm plugged r t) = leaves_of t.
Proof. unfold call_alarm. destruct plugged; [|done]. rewrite leaves_of_app. apply app_nil_r. Qed.

(** The clock gate fails closed at every instant. A check ends degraded exactly when
    the probe fails, the clock is unsynchronised or its error exceeds the bound; while it
    runs, a reader never sees a leaf of the degradation before the degraded mode is in
    force, nor the normal mode before the write of the resynchronisation leaf; a check
    that changes nothing writes nothing; and while degraded only the local issuer and no
    natural language passes. *)
Theorem clock_gate_fails_closed sample ts w t :
  let '(w', t') := Check sample ts w t in
  (cw_mode w' = ClockModeDegraded ↔ clock_fault w sample ≠ None) ∧
  (cw_wf w → cw_wf w' ∧ Check sample ts w' t' = (w', t')) ∧
  (cw_mode w' = ClockModeDegraded → NaturalLanguageAllowed w' = false ∧
     ∀ iss, IssuerAllowed w' iss = true ↔ iss = cw_localIssuer w) ∧
  Forall (λ '(wi, ti),
      (clock_fault w sample ≠ None → leaves_of ti ≠ leaves_of t → cw_mode wi = ClockModeDegraded) ∧
      (cw_mode w = ClockModeDegraded → cw_mode wi = ClockModeNormal →
         ti = cw_writeLeaf w ReasonClockResync ClockPriorityInfo ts t))
    (Check_states sample ts w t).
Proof.
  unfold Check, Check_states. destruct (clock_fault w sample) as [r|] eqn:Ef.
  - pose proof (clock_fault_reason w sample r Ef) as Hr. case_bool_decide as Hd.
    + destruct Hd as [Hm Hr']. simpl. rewrite Ef, bool_decide_true by done. split_and!; auto.
      * done.
      * intros _. unfold NaturalLanguageAllowed, IssuerAllowed. rewrite Hm.
        split; [done|]. intros iss. simpl. by rewrite bool_decide_eq_true.
      * repeat constructor; congruence.
    + set (t1 := if bool_decide _ then _ else t).
      assert (leaves_of t1 = leaves_of t) as Hl.
      { unfold t1. case_bool_decide; [apply leaves_of_alarm|done]. }
      simpl. change (clock_fault (set_clock ClockModeDegraded r w) sample) with (clock_fault w sample).
      rewrite Ef. rewrite bool_decide_true by done. split_and!; try done.
      * intros _. unfold NaturalLanguageAllowed, IssuerAllowed. simpl.
        split; [done|]. intros iss. by rewrite bool_decide_eq_true.
      * repeat constructor; simpl; congruence.
  - destruct (cw_mode w) eqn:Em; simpl.
    + rewrite Ef, Em. split_and!; auto; try done. repeat constructor; congruence.
    + change (clock_fault (set_clock ClockModeNormal "" w) sample) with (clock_fault w sample).
      rewrite Ef. split_and!; auto; try done. repeat constructor; simpl; congruence.
Qed.
End clock.
