(* ===== verification/Revision.v ===== *)
(** The watch on the revision of the policy: [src/pep/opa_revision.go].

    [rev_Check] asks the engine which bundle it serves and compares it with the pinned one; anything but a match, an answer that cannot
    be read included, raises the alarm of the fail-closed point. What the engine answers is [revision_io]. The watcher holds
    its lock during the transition, so a check is atomic. *)
From S2P Require Import Prelude.
From S2P Require Import Leaf.
From S2P Require Import Effects.
From S2P Require Import Records.

Definition DefaultOPARevisionCheckInterval : Z := 10 * second.
Definition defaultOPARevisionCheckTimeout : Z := 2 * second.
Definition ReasonOPARevisionMismatch : string := "opa-revision-mismatch".
Definition ReasonOPARevisionUnverifiable : string := "opa-revision-unverifiable".
Definition ReasonOPARevisionOK : string := "opa-revision-ok".
Definition OPARevisionPriorityInfo : byte := Byte.x00.
Definition OPARevisionPriorityHigh : byte := Byte.x01.

(** The field provenance of an answer: the revision, and the revision of each bundle. *)
Record opaProvenance := mkProvenance { op_Revision : string; op_Bundles : gmap string string }.

Inductive OPARevisionMode := OPARevisionModeOK | OPARevisionModeMismatch.
#[global] Instance OPARevisionMode_eq_dec : EqDecision OPARevisionMode.
Proof. solve_decision. Defined.

Record OPARevisionWatcher := mkRevisionWatcher {
  rv_expected : string;
  rv_interval : Z;
  rv_timeout : Z;
  rv_producer : Producer;
  rv_onTrip : bool;
  rv_mode : OPARevisionMode;
  rv_reason : string;
}.

(** [NewOPARevisionWatcher]: [None] is a configuration error. *)
Definition NewOPARevisionWatcher (endpoint expected : string) (interval timeout : Z) (cellID : string) (salt : bytes)
    (leaves journal onTrip : bool) : option OPARevisionWatcher :=
  if bool_decide (endpoint = "") then None
  else if bool_decide (expected = "") then None
  else if bool_decide (cellID = "") then None
  else if length salt <? 16 then None
  else if negb leaves then None
  else if (interval <? 0)%Z then None
  else if (timeout <? 0)%Z then None
  else Some (mkRevisionWatcher expected
               (if interval =? 0 then DefaultOPARevisionCheckInterval else interval)%Z
               (if timeout =? 0 then defaultOPARevisionCheckTimeout else timeout)%Z
               (mkProducer cellID salt journal) onTrip OPARevisionModeOK "").

(** How the exchange with the engine ends: no answer, another status than 200, an answer that is not JSON, an answer. *)
Inductive revision_io := RevUnreachable | RevStatus (code : Z) | RevNotJSON | RevAnswer (provenance : option opaProvenance).

(** [extractProvenanceRevision]: the revision, or that of the only bundle. [None] is an error. *)
Definition extractProvenanceRevision (p : option opaProvenance) : option string :=
  match p with
  | None => None
  | Some p =>
      if bool_decide (op_Revision p ≠ "") then Some (op_Revision p)
      else match map_to_list (op_Bundles p) with
           | [(_, r)] => if bool_decide (r = "") then None else Some r
           | _ => None
           end
  end.

(** [fetchRevision]. *)
Definition fetchRevision (io : revision_io) : option string :=
  match io with RevAnswer p => extractProvenanceRevision p | _ => None end.

(** The reason to refuse what the engine serves, if any. *)
Definition revision_fault (w : OPARevisionWatcher) (io : revision_io) : option string :=
  match fetchRevision io with
  | None => Some ReasonOPARevisionUnverifiable
  | Some r => if bool_decide (r = rv_expected w) then None else Some ReasonOPARevisionMismatch
  end.

(** [opaRevisionAlarmRecord]. *)
Definition opaRevisionAlarmRecord (reason : string) (priority : byte) : bytes :=
  sb "TBPR1" ++ [len8 reason] ++ sb reason ++ [priority].

Definition set_revision (m : OPARevisionMode) (reason : string) (w : OPARevisionWatcher) : OPARevisionWatcher :=
  mkRevisionWatcher (rv_expected w) (rv_interval w) (rv_timeout w) (rv_producer w) (rv_onTrip w) m reason.

(** [Verify]: nothing is written. *)
Inductive revision_error := ErrRevisionUnreadable | ErrOPARevisionMismatch.
Definition rev_Verify (w : OPARevisionWatcher) (io : revision_io) : option revision_error :=
  match fetchRevision io with
  | None => Some ErrRevisionUnreadable
  | Some r => if bool_decide (r = rv_expected w) then None else Some ErrOPARevisionMismatch
  end.

(** [Mismatch]. *)
Definition rev_Mismatch (w : OPARevisionWatcher) : bool := bool_decide (rv_mode w = OPARevisionModeMismatch).

Section revision.
Context `{Crypto, Env}.

(** [writeLeafLocked]. *)
Definition rev_writeLeaf (w : OPARevisionWatcher) (reason : string) (priority : byte) (ts : Z) (t : trace) : trace :=
  leafOrAlarm (rv_producer w) (rv_onTrip w) KindTelemetry (opaRevisionAlarmRecord reason priority) (UnixNano ts) t.

(** [enterLocked]: the alarm at each detection, the leaf at each change. *)
Definition rev_enterLocked (reason : string) (ts : Z) (w : OPARevisionWatcher) (t : trace) : OPARevisionWatcher * trace :=
  let t1 := call_alarm (rv_onTrip w) reason t in
  if bool_decide (rv_mode w = OPARevisionModeMismatch ∧ rv_reason w = reason) then (w, t1)
  else (set_revision OPARevisionModeMismatch reason w, rev_writeLeaf w reason OPARevisionPriorityHigh ts t1).

(** [exitLocked]. *)
Definition rev_exitLocked (ts : Z) (w : OPARevisionWatcher) (t : trace) : OPARevisionWatcher * trace :=
  if bool_decide (rv_mode w = OPARevisionModeOK) then (w, t)
  else (set_revision OPARevisionModeOK "" w, rev_writeLeaf w ReasonOPARevisionOK OPARevisionPriorityInfo ts t).

(** [Check]. *)
Definition rev_Check (io : revision_io) (ts : Z) (w : OPARevisionWatcher) (t : trace) : OPARevisionWatcher * trace :=
  match revision_fault w io with
  | Some reason => rev_enterLocked reason ts w t
  | None => rev_exitLocked ts w t
  end.

(** [Run]: a check at once, then one at each tick. *)
Definition rev_run (checks : list (revision_io * Z)) (w : OPARevisionWatcher) (t : trace) : OPARevisionWatcher * trace :=
  foldl (λ wt c, rev_Check c.1 c.2 wt.1 wt.2) (w, t) checks.

(** ** The history of the checks *)

(** The leaf of each change of verdict, the first one included when it is not a match. *)
Fixpoint revision_leaves (w : OPARevisionWatcher) (last : option string) (checks : list (revision_io * Z)) : list Leaf :=
  match checks with
  | [] => []
  | (io, ts) :: checks =>
      let v := revision_fault w io in
      (if bool_decide (v = last) then []
       else [leaf_for (rv_producer w) KindTelemetry
               (match v with Some r => opaRevisionAlarmRecord r OPARevisionPriorityHigh
                | None => opaRevisionAlarmRecord ReasonOPARevisionOK OPARevisionPriorityInfo end) (UnixNano ts)])
      ++ revision_leaves w v checks
  end.

(** The verdict that the state of the watcher shows. *)
Definition revision_shows (w : OPARevisionWatcher) (v : option string) : Prop :=
  match v with
  | None => rv_mode w = OPARevisionModeOK ∧ rv_reason w = ""
  | Some r => rv_mode w = OPARevisionModeMismatch ∧ rv_reason w = r
  end.

Lemma rev_Check_spec io ts w t last :
  revision_shows w last →
  (∀ kind record t, kind ∈ known_kinds → (appendLeaf (rv_producer w) kind record (UnixNano ts) t).1 = None) →
  let '(w', t') := rev_Check io ts w t in
  let v := revision_fault w io in
  (rv_expected w', rv_producer w', rv_onTrip w') = (rv_expected w, rv_producer w, rv_onTrip w) ∧ revision_shows w' v ∧
  leaves_of t' = leaves_of t ++ revision_leaves w last [(io, ts)] ∧
  alarms_of t' = alarms_of t ++ match v with Some r => if rv_onTrip w then [r] else [] | None => [] end.
Proof.
  intros HS HW.
  assert (∀ record u, leaves_of (leafOrAlarm (rv_producer w) (rv_onTrip w) KindTelemetry record (UnixNano ts) u) =
            leaves_of u ++ [leaf_for (rv_producer w) KindTelemetry record (UnixNano ts)] ∧
          alarms_of (leafOrAlarm (rv_producer w) (rv_onTrip w) KindTelemetry record (UnixNano ts) u) = alarms_of u) as HL.
  { intros record u. unfold leafOrAlarm. pose proof (appendLeaf_observed (rv_producer w) KindTelemetry record (UnixNano ts) u) as HO.
    pose proof (HW KindTelemetry record u ltac:(by apply (bool_decide_unpack _))) as HA.
    destruct (appendLeaf _ _ _ _ u) as [r u']. simpl in HA. subst r. tauto. }
  assert (∀ r u, leaves_of (call_alarm (rv_onTrip w) r u) = leaves_of u ∧ alarms_of (call_alarm (rv_onTrip w) r u) = alarms_of u ++ if rv_onTrip w then [r] else []) as HC.
  { intros r u. unfold call_alarm. destruct (rv_onTrip w); [|by rewrite app_nil_r]. rewrite leaves_of_app, alarms_of_app. by rewrite app_nil_r. }
  unfold rev_Check, revision_leaves. rewrite app_nil_r. destruct (revision_fault w io) as [r|] eqn:EF.
  - unfold rev_enterLocked, rev_writeLeaf. case_bool_decide as Hd.
    + destruct Hd as [Hm Hr]. assert (last = Some r) as -> by (destruct last; destruct HS; congruence).
      rewrite bool_decide_true by done. destruct (HC r t) as [-> ->]. rewrite app_nil_r. by split_and!.
    + rewrite bool_decide_false by (intros <-; by apply Hd). destruct (HL (opaRevisionAlarmRecord r OPARevisionPriorityHigh) (call_alarm (rv_onTrip w) r t)) as [-> ->].
      destruct (HC r t) as [-> ->]. by split_and!.
  - unfold rev_exitLocked, rev_writeLeaf. case_bool_decide as Hm.
    + assert (last = None) as -> by (destruct last; destruct HS; congruence). rewrite bool_decide_true by done. rewrite !app_nil_r. by split_and!.
    + rewrite bool_decide_false by (intros <-; by destruct HS). destruct (HL (opaRevisionAlarmRecord ReasonOPARevisionOK OPARevisionPriorityInfo) t) as [-> ->].
      rewrite app_nil_r. by split_and!.
Qed.

Lemma revision_fault_expected w w' io : rv_expected w' = rv_expected w → revision_fault w' io = revision_fault w io.
Proof. intros E. unfold revision_fault. by rewrite E. Qed.

Lemma revision_leaves_same w w' v checks : rv_expected w' = rv_expected w → rv_producer w' = rv_producer w → revision_leaves w' v checks = revision_leaves w v checks.
Proof.
  intros E1 E2. revert v. induction checks as [|[io ts] checks IH]; intros v; [done|]. cbn. rewrite (revision_fault_expected w w' io E1), E2, IH. done.
Qed.

(** The watch is exact. Over any sequence of checks, when the journal and the registry take the leaves, the watcher is in mismatch exactly when
    its last check did not read the pinned revision from the engine, with the reason of that check; every such check raised the alarm,
    also those that changed nothing; and the leaves are one for each change of verdict, in order, no other. *)
Theorem revision_watch_exact endpoint expected interval timeout cellID salt leaves journal onTrip w checks :
  NewOPARevisionWatcher endpoint expected interval timeout cellID salt leaves journal onTrip = Some w →
  Forall (λ c, ∀ kind record t, kind ∈ known_kinds → (appendLeaf (rv_producer w) kind record (UnixNano c.2) t).1 = None) checks →
  let '(w', t') := rev_run checks w [] in
  revision_shows w' (last checks ≫= λ c, revision_fault w c.1) ∧
  (rev_Mismatch w' = false ↔ ∀ c, last checks = Some c → fetchRevision c.1 = Some expected) ∧
  alarms_of t' = (if onTrip then omap (λ c, revision_fault w c.1) checks else []) ∧
  leaves_of t' = revision_leaves w None checks.
Proof.
  intros HN. assert (revision_shows w None ∧ rv_expected w = expected ∧ rv_onTrip w = onTrip) as (HS & HE & HT).
  { unfold NewOPARevisionWatcher in HN. by repeat case_match; simplify_eq/=. }
  clear HN. subst expected onTrip. intros HW. unfold rev_run.
  assert (let '(w', t') := foldl (λ wt c, rev_Check c.1 c.2 wt.1 wt.2) (w, []) checks in
    revision_shows w' (last checks ≫= λ c, revision_fault w c.1) ∧ (rv_expected w', rv_producer w', rv_onTrip w') = (rv_expected w, rv_producer w, rv_onTrip w) ∧
    alarms_of t' = (if rv_onTrip w then omap (λ c, revision_fault w c.1) checks else []) ∧ leaves_of t' = revision_leaves w None checks) as HM.
  { induction checks as [|[io ts] checks IH] using rev_ind; [split; [exact HS|]; by destruct (rv_onTrip w)|]. apply Forall_app in HW as [HW [HW1 _]%Forall_cons].
    rewrite foldl_app. specialize (IH HW). destruct (foldl _ (w, []) checks) as [w1 t1]. destruct IH as (I1 & I2 & I3 & I4). cbn [foldl fst snd].
    injection I2 as E1 E2 E3. pose proof (rev_Check_spec io ts w1 t1 _ I1 ltac:(rewrite E2; exact HW1)) as HC.
    destruct (rev_Check io ts w1 t1) as [w2 t2]. destruct HC as (C1 & C2 & C3 & C4). rewrite (revision_fault_expected w w1 io E1) in *.
    rewrite last_snoc. cbn [mbind option_bind fst]. split_and!; [done|congruence| |].
    - rewrite C4, I3, E3, omap_app. cbn. destruct (rv_onTrip w); [|by destruct (revision_fault w io)]. by destruct (revision_fault w io).
    - rewrite C3, I4, (revision_leaves_same w w1) by done. clear -checks. assert (∀ v, revision_leaves w v (checks ++ [(io, ts)]) =
        revision_leaves w v checks ++ revision_leaves w (match last checks with Some c => revision_fault w c.1 | None => v end) [(io, ts)]) as HA.
      { induction checks as [|[io' ts'] checks IH]; intros v; [done|]. cbn [revision_leaves app]. rewrite IH, <-app_assoc. do 2 f_equal.
        destruct checks as [|c checks]; [done|]. rewrite last_cons_cons. destruct (last (c :: checks)) eqn:EL; [done|]. by apply last_None in EL. }
      rewrite HA. by destruct (last checks). }
  destruct (foldl _ (w, []) checks) as [w' t']. destruct HM as (M1 & _ & M2 & M3). split_and!; [done| |done|done].
  unfold rev_Mismatch. destruct (last checks) as [[io ts]|]; cbn in *.
  - unfold revision_fault in M1. destruct (fetchRevision io) as [r|] eqn:EF; [case_bool_decide as Hr|]; destruct M1 as [-> _]; cbn.
    + split; [|done]. intros _ c [= <-]. cbn. by rewrite EF, Hr.
    + split; [done|]. intros HF. specialize (HF _ eq_refl). cbn in HF. congruence.
    + split; [done|]. intros HF. specialize (HF _ eq_refl). cbn in HF. congruence.
  - destruct M1 as [-> _]. done.
Qed.
End revision.
