(* ===== verification/Mode.v ===== *)
(** The posture of the cell: [src/pep/mode.go].

    [SetMode] is governed: a change of posture needs a quorum proof, fresher than any
    consumed before for that posture; only the restriction monitor to closed may pass with
    the reduced quorum. After a restart the cell refuses everything until a full quorum
    confirms a posture. *)
From S2P Require Import Prelude.
From S2P Require Import Leaf.
From S2P Require Import Effects.
From S2P Require Import Records.
From S2P Require Import Token.
From S2P Require Import Quorum.
From S2P Require Import FailClosed.

Inductive PEPMode := ModeMonitor | ModeClosed | ModeRefused.
#[global] Instance PEPMode_eq_dec : EqDecision PEPMode.
Proof. solve_decision. Defined.

Definition mode_num (m : PEPMode) : Z :=
  match m with ModeMonitor => 0 | ModeClosed => 1 | ModeRefused => 2 end.

Definition mode_String (m : PEPMode) : string :=
  match m with ModeClosed => "closed" | ModeRefused => "refused" | ModeMonitor => "monitor" end.

(** [None] is the error. *)
Definition ParsePEPMode (s : string) : option PEPMode :=
  if bool_decide (s = "monitor") then Some ModeMonitor
  else if bool_decide (s = "closed") then Some ModeClosed
  else None.

Definition ReasonModeReducedQuorum : string := "mode-closed-reduced-quorum".

Record ModeController {S : Type} := mkModeController {
  mc_producer : Producer;
  mc_onAlarm : bool;
  mc_mode : PEPMode;
  mc_verifier : option QuorumVerifier;
  mc_restrict : option QuorumVerifier;
  mc_state : option S;
}.
Arguments ModeController : clear implicits.

Inductive mode_error := ErrModeInvalid | ErrModeQuorum (e : fc_error).

Definition mode_condition (m : PEPMode) : string := "mode-" +:+ mode_String m.

Section mode.
Context {S : Type} `{Crypto, Env, QuorumStateStore S}.

Definition set_mode (m : PEPMode) (s : option S) (c : ModeController S) : ModeController S :=
  mkModeController S (mc_producer c) (mc_onAlarm c) m (mc_verifier c) (mc_restrict c) s.

(** The wiring calls, made before the daemon serves. *)
Definition mc_SetQuorumVerifier (v : option QuorumVerifier) (c : ModeController S) :
    ModeController S :=
  mkModeController S (mc_producer c) (mc_onAlarm c) (mc_mode c) v (mc_restrict c) (mc_state c).
Definition mc_SetRestrictVerifier (v : option QuorumVerifier) (c : ModeController S) :
    ModeController S :=
  mkModeController S (mc_producer c) (mc_onAlarm c) (mc_mode c) (mc_verifier c) v (mc_state c).
Definition mc_SetQuorumState (s : option S) (c : ModeController S) : ModeController S :=
  mkModeController S (mc_producer c) (mc_onAlarm c) (mc_mode c) (mc_verifier c) (mc_restrict c) s.

Definition mc_writeLeafLocked (c : ModeController S) (m : PEPMode) (ts : Z) (t : trace) : trace :=
  leafOrAlarm (mc_producer c) (mc_onAlarm c) KindTelemetry (modeChangeRecord (mode_num m))
    (UnixNano ts) t.

Definition mc_writeReducedLeafLocked (c : ModeController S) (m : PEPMode) (ts : Z) (t : trace) :
    trace :=
  leafOrAlarm (mc_producer c) (mc_onAlarm c) KindTelemetry (modeReducedRecord (mode_num m))
    (UnixNano ts) t.

(** [NewModeController]: [None] is a configuration error. *)
Definition NewModeController (cellID : string) (salt : bytes) (leaves journal onAlarm : bool)
    (verifier restrict : option QuorumVerifier) (state : option S) (startRefused : bool)
    (ts : Z) (t : trace) : option (ModeController S * trace) :=
  if bool_decide (cellID = "") then None
  else if length salt <? 16 then None
  else if negb leaves then None
  else
    let c := mkModeController S (mkProducer cellID salt journal) onAlarm ModeMonitor verifier
               restrict state in
    if startRefused then
      let c1 := set_mode ModeRefused state c in
      Some (c1, call_alarm onAlarm "mode-refused-restart" (mc_writeLeafLocked c1 ModeRefused ts t))
    else Some (c, t).

(** The quorum decision of [SetMode]: [Some reduced] when the proof is accepted. *)
Definition mode_quorum (v : QuorumVerifier) (now1 now2 : Z) (m : PEPMode) (proof : QuorumProof)
    (c : ModeController S) : option bool :=
  if v now1 (mode_condition m) proof then Some false
  else if bool_decide (mc_mode c = ModeMonitor) && bool_decide (m = ModeClosed) then
    match mc_restrict c with
    | Some r => if r now2 (mode_condition m) proof then Some true else None
    | None => None
    end
  else None.

(** The traces of an accepted change. *)
Definition mode_traces (reduced : bool) (m : PEPMode) (ts1 ts2 : Z) (c : ModeController S)
    (t : trace) : trace :=
  let t1 := call_alarm (mc_onAlarm c) (mode_condition m) (mc_writeLeafLocked c m ts1 t) in
  if reduced then
    call_alarm (mc_onAlarm c) ReasonModeReducedQuorum (mc_writeReducedLeafLocked c m ts2 t1)
  else t1.

(** [SetMode]; [now1] and [now2] are the clock readings of the two verifiers. *)
Definition SetMode (now1 now2 ts1 ts2 : Z) (m : PEPMode) (proof : QuorumProof)
    (c : ModeController S) (t : trace) : option mode_error * ModeController S * trace :=
  if negb (bool_decide (m = ModeMonitor)) && negb (bool_decide (m = ModeClosed)) then
    (Some ErrModeInvalid, c, t)
  else if bool_decide (mc_mode c = m) then (None, c, t)
  else match mc_verifier c with
  | None => (Some (ErrModeQuorum ErrQuorumVerifierMissing), c, t)
  | Some v =>
      match mode_quorum v now1 now2 m proof c with
      | None => (Some (ErrModeQuorum ErrQuorumRejected), c, t)
      | Some reduced =>
          match mc_state c with
          | None => (Some (ErrModeQuorum ErrQuorumStateMissing), c, t)
          | Some s =>
              match qs_Consume (mode_condition m) (Unix (qp_Expiry proof)) s with
              | (None, s1) => (Some (ErrModeQuorum ErrQuorumStateIO), set_mode (mc_mode c) (Some s1) c, t)
              | (Some false, s1) => (Some (ErrModeQuorum ErrQuorumReplayed), set_mode (mc_mode c) (Some s1) c, t)
              | (Some true, s1) =>
                  (None, set_mode m (Some s1) c, mode_traces reduced m ts1 ts2 c t)
              end
          end
      end
  end.

(** [Allows] on the verdict of a decision. *)
Definition Allows (c : ModeController S) (allow : bool) : bool :=
  match mc_mode c with
  | ModeMonitor => true
  | ModeClosed => allow
  | ModeRefused => false
  end.

(** One governed change, its clock readings and its proof. *)
Record mode_call := mkModeCall {
  ml_now1 : Z; ml_now2 : Z; ml_ts1 : Z; ml_ts2 : Z; ml_mode : PEPMode; ml_proof : QuorumProof }.

Definition mode_apply (k : mode_call) (c : ModeController S) (t : trace) :
    option mode_error * ModeController S * trace :=
  SetMode (ml_now1 k) (ml_now2 k) (ml_ts1 k) (ml_ts2 k) (ml_mode k) (ml_proof k) c t.

Fixpoint mode_run (ks : list mode_call) (c : ModeController S) (t : trace) :
    ModeController S * trace :=
  match ks with
  | [] => (c, t)
  | k :: ks' => let '(_, c1, t1) := mode_apply k c t in mode_run ks' c1 t1
  end.

(** ** Lemmas *)

Definition mc_floor (c : ModeController S) (name : string) : option Z :=
  s ← mc_state c; qs_floor s name.

(** Every outcome of [SetMode]. *)
Lemma SetMode_cases now1 now2 ts1 ts2 m proof c t :
  match SetMode now1 now2 ts1 ts2 m proof c t with
  | (Some _, c', t') =>
      t' = t ∧ mc_mode c' = mc_mode c ∧ mc_verifier c' = mc_verifier c ∧
      mc_restrict c' = mc_restrict c ∧
      (mc_state c' = mc_state c ∨ ∃ s r s1, mc_state c = Some s ∧
         qs_Consume (mode_condition m) (Unix (qp_Expiry proof)) s = (r, s1) ∧ r ≠ Some true ∧
         mc_state c' = Some s1)
  | (None, c', t') =>
      (mc_mode c = m ∧ c' = c ∧ t' = t) ∨
      (mc_mode c ≠ m ∧ ∃ v reduced s s1,
         mc_verifier c = Some v ∧ mode_quorum v now1 now2 m proof c = Some reduced ∧
         mc_state c = Some s ∧
         qs_Consume (mode_condition m) (Unix (qp_Expiry proof)) s = (Some true, s1) ∧
         c' = set_mode m (Some s1) c ∧ t' = mode_traces reduced m ts1 ts2 c t)
  end.
Proof.
  unfold SetMode. destruct (_ && _); [split_and!; auto|].
  case_bool_decide as Hm; [by left|].
  destruct (mc_verifier c) as [v|] eqn:Ev; [|split_and!; auto].
  destruct (mode_quorum v now1 now2 m proof c) as [reduced|] eqn:Eq; [|split_and!; auto].
  destruct (mc_state c) as [s|] eqn:Es; [|split_and!; auto].
  destruct (qs_Consume _ _ s) as [[[]|] s1] eqn:Ec.
  - right. split; [done|]. by exists v, reduced, s, s1.
  - simpl. split_and!; auto. right. by exists s, (Some false), s1.
  - simpl. split_and!; auto. right. by exists s, None, s1.
Qed.

Lemma mode_quorum_inv v now1 now2 m proof c reduced :
  mode_quorum v now1 now2 m proof c = Some reduced →
  (reduced = false ∧ v now1 (mode_condition m) proof = true) ∨
  (reduced = true ∧ mc_mode c = ModeMonitor ∧ m = ModeClosed ∧
   ∃ r, mc_restrict c = Some r ∧ r now2 (mode_condition m) proof = true).
Proof.
  unfold mode_quorum. destruct (v now1 _ proof) eqn:Ev; [intros [= <-]; by left|].
  case_bool_decide; [|done]. case_bool_decide; [simpl|done].
  destruct (mc_restrict c) as [r|]; [|done].
  destruct (r now2 _ proof) eqn:Er; [|done]. intros [= <-]. right. eauto 10.
Qed.

Context `{!QuorumStateLaws S}.

Lemma mode_apply_floor k c t n fl :
  mc_floor c n = Some fl →
  ∃ fl', mc_floor (mode_apply k c t).1.2 n = Some fl' ∧ (fl ≤ fl')%Z.
Proof.
  intros Hf. pose proof (SetMode_cases (ml_now1 k) (ml_now2 k) (ml_ts1 k) (ml_ts2 k) (ml_mode k)
    (ml_proof k) c t) as HC. unfold mode_apply. destruct (SetMode _ _ _ _ _ _ c t) as [[[e|] c'] t'].
  - destruct HC as (_ & _ & _ & _ & [Hs|(s & r & s1 & Hs & Hq & Hr & Hs1)]); unfold mc_floor in *; simpl.
    + rewrite Hs. eauto with lia.
    + rewrite Hs in Hf. rewrite Hs1. simpl in *. rewrite (qs_refuse _ _ _ _ _ Hq Hr). eauto with lia.
  - destruct HC as [(_ & -> & _)|(_ & v & red & s & s1 & _ & _ & Hs & Hq & -> & _)];
      [simpl; eauto with lia|]. unfold mc_floor in *; simpl. rewrite Hs in Hf. simpl in Hf.
    pose proof (qs_Consume_mono (mode_condition (ml_mode k)) (Unix (qp_Expiry (ml_proof k))) s n fl Hf) as HM.
    by rewrite Hq in HM.
Qed.

Lemma mode_run_floor ks c t n fl :
  mc_floor c n = Some fl → ∃ fl', mc_floor (mode_run ks c t).1 n = Some fl' ∧ (fl ≤ fl')%Z.
Proof.
  revert c t fl. induction ks as [|k ks IH]; intros c t fl Hf; simpl; [eauto with lia|].
  destruct (mode_apply_floor k c t n fl Hf) as (fl1 & Hf1 & ?).
  destruct (mode_apply k c t) as [[e c1] t1]. destruct (IH c1 t1 fl1 Hf1) as (fl2 & ? & ?).
  exists fl2. split; [done|lia].
Qed.

Lemma mode_apply_verifier k c t :
  mc_verifier (mode_apply k c t).1.2 = mc_verifier c.
Proof.
  pose proof (SetMode_cases (ml_now1 k) (ml_now2 k) (ml_ts1 k) (ml_ts2 k) (ml_mode k)
    (ml_proof k) c t) as HC. unfold mode_apply. destruct (SetMode _ _ _ _ _ _ c t) as [[[e|] c'] t'].
  - by destruct HC as (_ & _ & ? & _).
  - destruct HC as [(_ & -> & _)|(_ & v & red & s & s1 & _ & _ & _ & _ & -> & _)]; done.
Qed.

(** ** Properties *)

(** C6: a posture changes only by governance, and never silently. A call of [SetMode]
    that fails changes neither the posture nor the trace; one that changes the posture was
    accepted by the full quorum, or is the restriction monitor to closed accepted by the
    reduced one, with an expiry above every expiry consumed for that posture; it leaves the
    traces of the change, those of the reduced quorum in addition. *)
Theorem mode_change_governed now1 now2 ts1 ts2 m proof c t :
  match SetMode now1 now2 ts1 ts2 m proof c t with
  | (Some _, c', t') => mc_mode c' = mc_mode c ∧ t' = t
  | (None, c', t') =>
      mc_mode c' = m ∧ m ≠ ModeRefused ∧
      (mc_mode c ≠ m →
         ∃ v reduced, mc_verifier c = Some v ∧ t' = mode_traces reduced m ts1 ts2 c t ∧
           (∀ fl, mc_floor c (mode_condition m) = Some fl → (fl < Unix (qp_Expiry proof))%Z) ∧
           mc_floor c' (mode_condition m) = Some (Unix (qp_Expiry proof)) ∧
           if reduced then
             mc_mode c = ModeMonitor ∧ m = ModeClosed ∧ v now1 (mode_condition m) proof = false ∧
             ∃ r, mc_restrict c = Some r ∧ r now2 (mode_condition m) proof = true
           else v now1 (mode_condition m) proof = true)
  end.
Proof.
  pose proof (SetMode_cases now1 now2 ts1 ts2 m proof c t) as HC.
  assert (∀ c' t', SetMode now1 now2 ts1 ts2 m proof c t = (None, c', t') → m ≠ ModeRefused) as Hnr.
  { intros c' t' E ->. unfold SetMode in E. done. }
  destruct (SetMode now1 now2 ts1 ts2 m proof c t) as [[[e|] c'] t']; [by destruct HC as (? & ? & _)|].
  specialize (Hnr c' t' eq_refl).
  destruct HC as [(Hm & -> & ->)|(Hm & v & red & s & s1 & Hv & Hq & Hs & HC & -> & ->)].
  - split_and!; auto. by intros.
  - split_and!; auto. intros _. destruct (qs_accept _ _ _ _ HC) as (Hlt & Heq & _).
    exists v, red. unfold mc_floor. rewrite Hs. simpl. split_and!; auto.
    destruct (v now1 (mode_condition m) proof) eqn:Ev.
    + unfold mode_quorum in Hq. rewrite Ev in Hq. by injection Hq as <-.
    + destruct (mode_quorum_inv _ _ _ _ _ _ _ Hq) as [[-> ?]|(-> & ? & ? & r & ? & ?)]; [congruence|].
      split_and!; eauto.
Qed.

(** A restarted cell refuses everything until a full quorum speaks. While the posture
    is [ModeRefused] not even an allowed decision passes, and if a sequence of calls leaves
    it, the sequence contains a call whose proof the full verifier accepted; the reduced
    quorum cannot leave it. *)
Theorem refused_left_only_by_full_quorum ks c t :
  mc_mode c = ModeRefused →
  (∀ allow, Allows c allow = false) ∧
  (mc_mode (mode_run ks c t).1 ≠ ModeRefused →
   ∃ ks1 k ks2 v, ks = ks1 ++ k :: ks2 ∧ mc_mode (mode_run ks1 c t).1 = ModeRefused ∧
     mc_verifier c = Some v ∧
     v (ml_now1 k) (mode_condition (ml_mode k)) (ml_proof k) = true).
Proof.
  intros Hm. split; [intros allow; unfold Allows; by rewrite Hm|].
  revert c t Hm. induction ks as [|k ks IH]; intros c t Hm Hn; simpl in Hn; [done|].
  pose proof (SetMode_cases (ml_now1 k) (ml_now2 k) (ml_ts1 k) (ml_ts2 k) (ml_mode k)
    (ml_proof k) c t) as HC.
  destruct (mode_apply k c t) as [[e c1] t1] eqn:E. unfold mode_apply in E. rewrite E in HC.
  destruct (decide (mc_mode c1 = ModeRefused)) as [Hm1|Hm1].
  - destruct (IH c1 t1 Hm1 Hn) as (ks1 & k' & ks2 & v & -> & Hr & Hv & Hp).
    exists (k :: ks1), k', ks2, v. simpl. unfold mode_apply. rewrite E.
    pose proof (mode_apply_verifier k c t) as HV. unfold mode_apply in HV. rewrite E in HV.
    split_and!; auto. simpl in HV. congruence.
  - exists [], k, ks. destruct e as [e|].
    { destruct HC as (_ & HM & _). congruence. }
    destruct HC as [(_ & -> & _)|(_ & v & red & s & s1 & Hv & Hq & _)]; [done|].
    exists v. split_and!; auto.
    destruct (mode_quorum_inv _ _ _ _ _ _ _ Hq) as [[_ ?]|(_ & HM & _)]; [done|congruence].
Qed.

(** A posture proof is used once. After a proof changed the posture to [m], no later
    call succeeds in changing the posture to [m] with this proof or an older one. *)
Theorem mode_proof_single_use now1 now2 ts1 ts2 m proof c t c1 t1 ks k :
  SetMode now1 now2 ts1 ts2 m proof c t = (None, c1, t1) → mc_mode c ≠ m →
  ml_mode k = m → (Unix (qp_Expiry (ml_proof k)) ≤ Unix (qp_Expiry proof))%Z →
  let '(c2, t2) := mode_run ks c1 t1 in
  mc_mode c2 ≠ m → (mode_apply k c2 t2).1.1 ≠ None.
Proof.
  intros E Hm <- Hle. destruct (mode_run ks c1 t1) as [c2 t2] eqn:ER. intros Hm2 EN.
  pose proof (SetMode_cases now1 now2 ts1 ts2 (ml_mode k) proof c t) as HC. rewrite E in HC.
  destruct HC as [(? & _)|(_ & v & red & s & s1 & Hv & Hq & Hs & HC & -> & _)]; [done|].
  destruct (qs_accept _ _ _ _ HC) as (_ & Heq & _).
  destruct (mode_run_floor ks (set_mode (ml_mode k) (Some s1) c) t1 _ _ Heq) as (fl & Hfl & Hge).
  rewrite ER in Hfl. simpl in Hfl.
  pose proof (SetMode_cases (ml_now1 k) (ml_now2 k) (ml_ts1 k) (ml_ts2 k) (ml_mode k)
    (ml_proof k) c2 t2) as HC2. unfold mode_apply in EN.
  destruct (SetMode _ _ _ _ _ _ c2 t2) as [[e c3] t3]. simpl in EN. subst e.
  destruct HC2 as [(? & _)|(_ & v2 & red2 & s2 & s3 & _ & _ & Hs2 & HC2 & _)]; [done|].
  destruct (qs_accept _ _ _ _ HC2) as (Hlt & _). unfold mc_floor in Hfl. rewrite Hs2 in Hfl.
  specialize (Hlt fl Hfl). lia.
Qed.
End mode.
