(* ===== verification/Validator.v ===== *)
(** The token validator: [src/pep/validator.go].

    [decide] is the validation chain, [ValidateAt] the decision with its leaf. The seams of
    the validator are interfaces: the anti-replay cache is the class [AntiReplayCache] with
    its laws, discharged by the ring of AntiReplay.v; the quota checker, the fail-closed
    gate and the epoch source are consulted through the answers they give at the instant of
    the decision ([Seams]).

    The theorems show exactly when a token is allowed, that a refused token is not consumed,
    that every decision leaves its leaf or is a refusal, and that a token is allowed at most
    once while the clocks have not gone past its expiry; and that this last bound is
    needed. *)
From S2P Require Import Prelude.
From S2P Require Import Leaf.
From S2P Require Import Effects.
From S2P Require Import AntiReplay.
From S2P Require Import Records.
From S2P Require Import Token.
From S2P Require Import Quorum.
From S2P Require Import FailClosed.

Definition ReasonStaleToken : string := "stale-token".
Definition ReasonNotYetValid : string := "not-yet-valid".
Definition ReasonTTLOutOfRange : string := "ttl-out-of-range".
Definition ReasonPolicyMismatch : string := "policy-mismatch".
Definition ReasonEpochMismatch : string := "epoch-mismatch".
Definition ReasonEpochUnavailable : string := "epoch-unavailable".
Definition ReasonScopeMismatch : string := "scope-mismatch".
Definition ReasonSealMismatch : string := "seal-mismatch".
Definition ReasonQuotaExhausted : string := "quota-exhausted".
Definition ReasonQuotaUnverified : string := "quota-unverified".
Definition ReasonReplay : string := "replay".

Record Request := mkRequest {
  r_Action : string;
  r_Resource : string;
  r_ObjectSeal : option bytes;
}.

Record Decision := mkDecision {
  d_Allow : bool;
  d_Reason : string;
  d_Token : option Token;
  d_JTI : bytes;
  d_LeafWritten : bool;
  d_LeafErr : option append_error;
}.

(** ** The interface of the anti-replay cache *)

(** [cac now jti exp] is [CheckAndConsume] at the cache's own clock reading [now];
    [cac_holds c jti e] says that the cache remembers [jti] until second [e]. *)
Class AntiReplayCache (C : Type) := {
  cac : Z → bytes → Z → C → trace → bool * C * trace;
  cac_inv : C → Prop;
  cac_holds : C → bytes → Z → Prop;
}.

Class AntiReplayLaws (C : Type) `{AntiReplayCache C} := {
  cac_step : ∀ now jti exp c t, cac_inv c → cac_inv (cac now jti exp c t).1.2;
  cac_records : ∀ now jti exp c t c' t', cac_inv c →
    cac now jti exp c t = (true, c', t') → cac_holds c' jti (Unix exp);
  cac_keeps : ∀ now jti exp c t j e, cac_inv c → cac_holds c j e → (Unix now ≤ e)%Z →
    cac_holds (cac now jti exp c t).1.2 j e;
  cac_refuses : ∀ now jti exp c t e, cac_inv c → cac_holds c jti e → (Unix now ≤ e)%Z →
    (cac now jti exp c t).1.1 = false;
  cac_no_leaf : ∀ now jti exp c t, leaves_of (cac now jti exp c t).2 = leaves_of t;
}.

(** The ring is such a cache. *)
#[global] Instance ring_cache : AntiReplayCache AntiReplay := {
  cac := CheckAndConsume;
  cac_inv := ar_wf;
  cac_holds c jti e := mkEntry jti e true ∈ ar_contents c;
}.

#[global] Instance ring_cache_laws : AntiReplayLaws AntiReplay.
Proof.
  split; simpl.
  - intros now jti exp c t Hwf. by destruct (CheckAndConsume_step now jti exp c t Hwf) as (_ & _ & ? & _).
  - intros now jti exp c t c' t' Hwf E.
    destruct (CheckAndConsume_step now jti exp c t Hwf) as (Eok & Ec & _).
    rewrite E in Eok, Ec. simpl in *. rewrite Ec. unfold Spec.consume in *.
    repeat case_match; simplify_eq/=; apply elem_of_app; right; by apply list_elem_of_singleton.
  - intros now jti exp c t j e Hwf Hh Hn.
    destruct (CheckAndConsume_step now jti exp c t Hwf) as (_ & -> & _). by apply consume_keeps_fresh.
  - intros now jti exp c t e Hwf Hh Hn.
    destruct (CheckAndConsume_step now jti exp c t Hwf) as (-> & _).
    unfold Spec.consume. rewrite bool_decide_true; [done|].
    apply (drop_expired_keeps (Unix now)) in Hh; [|done]. by apply (list_elem_of_fmap_2 e_jti) in Hh.
  - intros now jti exp c t. unfold CheckAndConsume, ar_trip, call_alarm.
    repeat case_match; simplify_eq/=; rewrite ?leaves_of_app; simpl; by rewrite ?app_nil_r.
Qed.

(** ** The validator *)

(** The fields of a constructed validator. *)
Record Validator := mkValidator {
  v_producer : Producer;
  v_keyring : gmap bytes bytes;
  v_policyID : bytes;
}.

(** [NewValidator]: [None] is a configuration error. *)
Definition NewValidator (cellID : string) (keyring : gmap bytes bytes) (policyID salt : bytes)
    (leaves antiReplay journal : bool) : option Validator :=
  if bool_decide (cellID = "") then None
  else if size keyring =? 0 then None
  else if length salt <? 16 then None
  else if negb leaves then None
  else if negb antiReplay then None
  else Some (mkValidator (mkProducer cellID salt journal) keyring policyID).

(** What the seams answer when consulted; [sm_gate] and [sm_quota] are [None] when not
    plugged, [sm_epoch] is [None] when [CurrentEpoch] fails. *)
Record Seams := mkSeams {
  sm_gate : option (option Refusal);
  sm_epoch : option Z;
  sm_quota : option (bytes → bool);
}.

(** [FixedEpoch.CurrentEpoch]. *)
Definition FixedEpoch (e : Z) : option Z := Some e.

Section validator.
Context {C : Type} `{Crypto, Env, Cose, AntiReplayCache C}.

Definition deny (reason : string) (tok : option Token) (jti : bytes) : Decision :=
  mkDecision false reason tok jti false None.

(** Steps 6 to 9 of the chain on an authentic token: the reason to refuse, if any. *)
Definition checks (v : Validator) (sm : Seams) (req : Request) (now : Z) (tok : Token) :
    option string :=
  let ttl := i64 (t_Exp tok - t_Iat tok) in
  if (Unix now <? t_Iat tok)%Z then Some ReasonNotYetValid
  else if (t_Exp tok <? Unix now)%Z then Some ReasonStaleToken
  else if ((ttl <? minTTLSec) || (maxTTLSec <? ttl))%Z then Some ReasonTTLOutOfRange
  else if bool_decide (t_PolicyID tok ≠ v_policyID v) then Some ReasonPolicyMismatch
  else match sm_epoch sm with
  | None => Some ReasonEpochUnavailable
  | Some currentEpoch =>
  if negb (t_Epoch tok =? currentEpoch)%Z then Some ReasonEpochMismatch
  else if bool_decide (t_Action tok ≠ r_Action req ∨ t_Resource tok ≠ r_Resource req) then
    Some ReasonScopeMismatch
  else if bool_decide (t_ObjectSeal tok ≠ None ∧ r_ObjectSeal req ≠ t_ObjectSeal tok) then
    Some ReasonSealMismatch
  else match t_Quota tok, sm_quota sm with
       | Some _, None => Some ReasonQuotaUnverified
       | Some _, Some exhausted =>
           if exhausted (t_JTI tok) then Some ReasonQuotaExhausted else None
       | None, _ => None
       end
  end.

(** [decide]; [now2] is the clock reading of the anti-replay cache. *)
Definition decide_ (v : Validator) (sm : Seams) (wire : bytes) (req : Request) (now now2 : Z)
    (c : C) (t : trace) : Decision * C * trace :=
  match sm_gate sm with
  | Some (Some ref) => (deny (rf_Reason ref) None zeroJTI, c, t)
  | _ =>
      match verifySignedToken (v_keyring v) wire with
      | (Some tok, "") =>
          match checks v sm req now tok with
          | Some reason => (deny reason (Some tok) (t_JTI tok), c, t)
          | None =>
              let '(fresh, c1, t1) := cac now2 (t_JTI tok) (of_Unix (t_Exp tok)) c t in
              if negb fresh then (deny ReasonReplay (Some tok) (t_JTI tok), c1, t1)
              else (mkDecision true ReasonOK (Some tok) (t_JTI tok) false None, c1, t1)
          end
      | (tok, reason) => (deny reason tok (tokJTIOrZero tok), c, t)
      end
  end.

(** The seal of the plan the record copies. *)
Definition decision_seal (d : Decision) : option bytes := d_Token d ≫= t_PlanSeal.

Definition decision_record (d : Decision) : bytes :=
  validatorRecord (d_JTI d) (d_Allow d) (d_Reason d) (decision_seal d).

(** [writeLeaf]: without its leaf an allow becomes a refusal. *)
Definition writeLeaf (v : Validator) (d : Decision) (now : Z) (t : trace) : Decision * trace :=
  match appendLeaf (v_producer v) KindDecision (decision_record d) (UnixNano now) t with
  | (Some err, t1) =>
      (mkDecision false (if d_Allow d then ReasonLeafWriteFailed else d_Reason d) (d_Token d)
         (d_JTI d) false (Some err), t1)
  | (None, t1) =>
      (mkDecision (d_Allow d) (d_Reason d) (d_Token d) (d_JTI d) true (d_LeafErr d), t1)
  end.

Definition ValidateAt (v : Validator) (sm : Seams) (wire : bytes) (req : Request) (now now2 : Z)
    (c : C) (t : trace) : Decision * C * trace :=
  let '(d, c1, t1) := decide_ v sm wire req now now2 c t in
  let '(d1, t2) := writeLeaf v d now t1 in (d1, c1, t2).

(** [Validate]: the clock reading is the one [ValidateAt] gets. *)
Definition Validate (v : Validator) (sm : Seams) (wire : bytes) (req : Request) (now now2 : Z)
    (c : C) (t : trace) : Decision * C * trace := ValidateAt v sm wire req now now2 c t.

(** ** What the chain checks *)

Definition gate_open (sm : Seams) : Prop := sm_gate sm = None ∨ sm_gate sm = Some None.

(** The conditions of steps 6 to 9, in unbounded arithmetic. *)
Definition acceptable (v : Validator) (sm : Seams) (req : Request) (now : Z) (tok : Token) : Prop :=
  (t_Iat tok ≤ Unix now ≤ t_Exp tok)%Z ∧ (minTTLSec ≤ t_Exp tok - t_Iat tok ≤ maxTTLSec)%Z ∧
  t_PolicyID tok = v_policyID v ∧ sm_epoch sm = Some (t_Epoch tok) ∧
  t_Action tok = r_Action req ∧ t_Resource tok = r_Resource req ∧
  (∀ s, t_ObjectSeal tok = Some s → r_ObjectSeal req = Some s) ∧
  (t_Quota tok ≠ None → ∃ exhausted, sm_quota sm = Some exhausted ∧ exhausted (t_JTI tok) = false).

(** The subtraction of [int64] values cannot hide a lifetime out of range. *)
Lemma ttl_no_wrap iat exp now :
  in_i64 iat → in_i64 exp → (iat ≤ now)%Z → (now ≤ exp)%Z →
  (minTTLSec ≤ i64 (exp - iat) ≤ maxTTLSec)%Z ↔ (minTTLSec ≤ exp - iat ≤ maxTTLSec)%Z.
Proof.
  unfold in_i64, minTTLSec, maxTTLSec. intros Hi He Hn1 Hn2.
  destruct (decide (exp - iat < 2^63)%Z).
  - rewrite i64_small by (unfold in_i64; lia). done.
  - unfold i64. replace (exp - iat + 2^63)%Z with ((exp - iat + 2^63 - 2^64) + 1 * 2^64)%Z by lia.
    rewrite Z.mod_add, Z.mod_small by lia. lia.
Qed.

Lemma checks_None v sm req now tok :
  in_i64 (t_Iat tok) → in_i64 (t_Exp tok) →
  checks v sm req now tok = None ↔ acceptable v sm req now tok.
Proof.
  intros Hi He. unfold checks, acceptable.
  destruct (Z.ltb_spec (Unix now) (t_Iat tok)); [split; [done|intros (? & _); lia]|].
  destruct (Z.ltb_spec (t_Exp tok) (Unix now)); [split; [done|intros (? & _); lia]|].
  rewrite <-(ttl_no_wrap _ _ (Unix now)) by done.
  destruct (Z.ltb_spec (i64 (t_Exp tok - t_Iat tok)) minTTLSec); simpl;
    [split; [done|intros (_ & ? & _); lia]|].
  destruct (Z.ltb_spec maxTTLSec (i64 (t_Exp tok - t_Iat tok)));
    [split; [done|intros (_ & ? & _); lia]|].
  case_bool_decide as Hp; [split; [done|by intros (_ & _ & ? & _)]|].
  destruct (sm_epoch sm) as [ep|]; [|split; [done|by intros (_ & _ & _ & ? & _)]].
  destruct (Z.eqb_spec (t_Epoch tok) ep) as [<-|]; simpl;
    [|split; [done|intros (_ & _ & _ & [= ->] & _); done]].
  case_bool_decide as Hs; [split; [done|intros (_ & _ & _ & _ & ? & ? & _); naive_solver]|].
  case_bool_decide as Ho.
  { split; [done|]. intros (_ & _ & _ & _ & _ & _ & HO & _). destruct Ho as [Hne Hne2].
    destruct (t_ObjectSeal tok) as [sl|]; [|done]. by rewrite (HO sl) in Hne2. }
  apply Decidable.not_or in Hs as [Ha%dec_stable Hr%dec_stable].
  assert (∀ sl, t_ObjectSeal tok = Some sl → r_ObjectSeal req = Some sl) as HO.
  { intros sl Hsl. rewrite Hsl in Ho. destruct (decide (r_ObjectSeal req = Some sl)); naive_solver. }
  destruct (t_Quota tok) as [q|]; [destruct (sm_quota sm) as [ex|]; [destruct (ex (t_JTI tok)) eqn:Ex|]|].
  - split; [done|]. intros (_ & _ & _ & _ & _ & _ & _ & HQ). destruct HQ as (ex' & [= <-] & ?); congruence.
  - split; [intros _|done]. split_and!; try done; try lia. intros _. by exists ex.
  - split; [done|]. intros (_ & _ & _ & _ & _ & _ & _ & HQ). by destruct HQ as (? & ? & _).
  - split; [intros _|done]. split_and!; try done; try lia.
Qed.

(** The outcomes of the chain. *)
Lemma decide_cases v sm wire req now now2 (c : C) t :
  let '(d, c', t') := decide_ v sm wire req now now2 c t in
  (* refused before the cache is consulted *)
  (d_Allow d = false ∧ c' = c ∧ t' = t ∧ d_LeafErr d = None ∧
   (gate_open sm → ¬ ∃ tok, verifySignedToken (v_keyring v) wire = (Some tok, "") ∧
                            checks v sm req now tok = None)) ∨
  (* the cache decides *)
  ∃ tok, gate_open sm ∧ verifySignedToken (v_keyring v) wire = (Some tok, "") ∧
    checks v sm req now tok = None ∧ d_Token d = Some tok ∧ d_JTI d = t_JTI tok ∧
    d_LeafErr d = None ∧
    d_Reason d = (if d_Allow d then ReasonOK else ReasonReplay) ∧
    cac now2 (t_JTI tok) (of_Unix (t_Exp tok)) c t = (d_Allow d, c', t').
Proof.
  unfold decide_, gate_open.
  destruct (sm_gate sm) as [[ref|]|] eqn:Eg.
  - left. simpl. split_and!; try done. by intros [|].
  - destruct (verifySignedToken (v_keyring v) wire) as [[tok|] [|a r]];
      try (left; split_and!; try done; intros _ (tk & ? & _); congruence).
    destruct (checks v sm req now tok) as [reason|] eqn:Ek;
      [left; split_and!; try done; intros _ (tk & [= <-] & ?); congruence|].
    destruct (cac _ _ _ c t) as [[[] c1] t1] eqn:Ec; simpl; right; exists tok; split_and!; auto.
  - destruct (verifySignedToken (v_keyring v) wire) as [[tok|] [|a r]];
      try (left; split_and!; try done; intros _ (tk & ? & _); congruence).
    destruct (checks v sm req now tok) as [reason|] eqn:Ek;
      [left; split_and!; try done; intros _ (tk & [= <-] & ?); congruence|].
    destruct (cac _ _ _ c t) as [[[] c1] t1] eqn:Ec; simpl; right; exists tok; split_and!; auto.
Qed.

Lemma verified_schema `{!CoseLaws} keyring wire tok :
  verifySignedToken keyring wire = (Some tok, "") → schema_ok tok.
Proof.
  intros (msg & pb & prot & kid & pub & HA)%verifySignedToken_authentic.
  destruct HA as (_ & _ & _ & _ & _ & _ & _ & _ & _ & _ & _ & HD).
  apply decodePayload_inv in HD as (raw & claims & E1 & _ & E3 & _ & E5).
  apply decodeClaims_ok with claims; [|done].
  apply (int_keys_wf raw ∅); [by eapply strict_map_wf|apply map_Forall_empty|done].
Qed.

Lemma writeLeaf_allow v d now t :
  d_Allow (writeLeaf v d now t).1 =
    d_Allow d && match (appendLeaf (v_producer v) KindDecision (decision_record d) (UnixNano now) t).1
                 with None => true | Some _ => false end.
Proof.
  unfold writeLeaf. destruct (appendLeaf _ _ _ _ t) as [[e|] t1]; simpl;
    [by rewrite andb_false_r|by rewrite andb_true_r].
Qed.

Lemma decision_record_token d tok :
  d_Token d = Some tok → d_JTI d = t_JTI tok →
  decision_record d = validatorRecord (t_JTI tok) (d_Allow d) (d_Reason d) (t_PlanSeal tok).
Proof. intros Ht Hj. unfold decision_record, decision_seal. by rewrite Ht, Hj. Qed.

Lemma validator_allows_iff `{!CoseLaws} v sm wire req now now2 (c : C) t :
  d_Allow (ValidateAt v sm wire req now now2 c t).1.1 = true ↔
    gate_open sm ∧
    ∃ tok c1 t1,
      verifySignedToken (v_keyring v) wire = (Some tok, "") ∧
      acceptable v sm req now tok ∧
      cac now2 (t_JTI tok) (of_Unix (t_Exp tok)) c t = (true, c1, t1) ∧
      (appendLeaf (v_producer v) KindDecision
         (validatorRecord (t_JTI tok) true ReasonOK (t_PlanSeal tok)) (UnixNano now) t1).1 = None.
Proof.
  unfold ValidateAt. pose proof (decide_cases v sm wire req now now2 c t) as HD.
  destruct (decide_ v sm wire req now now2 c t) as [[d c'] t'].
  pose proof (writeLeaf_allow v d now t') as HW. destruct (writeLeaf v d now t') as [d1 t2].
  simpl in *. rewrite HW; clear HW.
  destruct HD as [(-> & -> & -> & _ & HN)|(tok & Hg & Hv & Hk & Ht & Hj & _ & Hr & Hc)].
  - split; [done|]. intros (Hg & tok & c1 & t1 & Hv & HA & _). destruct (HN Hg). exists tok.
    split; [done|]. apply verified_schema in Hv as (_ & _ & _ & _ & Hi & He & _).
    by apply checks_None.
  - pose proof (verified_schema _ _ _ Hv) as (_ & _ & _ & _ & Hi & He & _).
    rewrite (decision_record_token d tok Ht Hj), Hr. split.
    + intros [Ha Hl]%andb_prop. rewrite Ha in *. split; [done|]. exists tok, c', t'.
      split_and!; [done|by apply checks_None|done|]. by destruct (appendLeaf _ _ _ _ t') as [[e|] ?].
    + intros (_ & tok' & c1 & t1 & Hv' & _ & Hc' & Hl). rewrite Hv in Hv'. injection Hv' as <-.
      rewrite Hc in Hc'. injection Hc' as -> -> ->. simpl. by rewrite Hl.
Qed.

(** ** Properties *)

(** C1: exactly when a token is allowed. [ValidateAt] allows if and only if no
    condition is tripped, the bytes carry a token signed by a pinned key, the token is fresh
    with a lifetime of 30 to 60 seconds, was issued under the local policy and the verified
    epoch for this action, resource and seal, its passport is known not to be exhausted, the
    cache had not seen it, and the leaf of the decision was written. The [int64] subtraction
    of the code decides the lifetime as unbounded arithmetic would. *)
Theorem validator_allows_exactly `{!CoseLaws} v sm wire req now now2 (c : C) t :
  d_Allow (ValidateAt v sm wire req now now2 c t).1.1 = true ↔
    gate_open sm ∧
    ∃ tok c1 t1,
      verifySignedToken (v_keyring v) wire = (Some tok, "") ∧
      acceptable v sm req now tok ∧
      cac now2 (t_JTI tok) (of_Unix (t_Exp tok)) c t = (true, c1, t1) ∧
      (appendLeaf (v_producer v) KindDecision
         (validatorRecord (t_JTI tok) true ReasonOK (t_PlanSeal tok)) (UnixNano now) t1).1 = None.
Proof. apply validator_allows_iff. Qed.

(** What an allowed decision carries. *)
Lemma ValidateAt_allow `{!CoseLaws} v sm wire req now now2 (c : C) t :
  let d := (ValidateAt v sm wire req now now2 c t).1.1 in
  d_Allow d = true →
  gate_open sm ∧ d_Reason d = ReasonOK ∧
  ∃ tok, d_Token d = Some tok ∧ d_JTI d = t_JTI tok ∧ authentic (v_keyring v) wire tok ∧
    acceptable v sm req now tok.
Proof.
  unfold ValidateAt. pose proof (decide_cases v sm wire req now now2 c t) as HD.
  destruct (decide_ v sm wire req now now2 c t) as [[d c'] t'].
  unfold writeLeaf. destruct (appendLeaf _ _ _ _ t') as [[e|] t1]; simpl; [done|]. intros Ha.
  destruct HD as [(? & _)|(tok & Hg & Hv & Hk & Ht & Hj & _ & Hr & _)]; [congruence|].
  rewrite Ha in Hr. split_and!; [done..|]. exists tok. split_and!; try done.
  - by apply verifySignedToken_authentic.
  - pose proof (verified_schema _ _ _ Hv) as (_ & _ & _ & _ & Hi & He & _). by apply checks_None.
Qed.

(** A refusal consumes nothing. When a tripped condition closes the gate the
    decision is its refusal, before the token is even read; and any decision whose reason is
    neither a replay nor a failed leaf, an allow aside, leaves the anti-replay cache as it
    was, so that the token follows its normal course later. *)
Theorem refusal_does_not_consume v sm wire req now now2 (c : C) t :
  let '(d, c', t') := ValidateAt v sm wire req now now2 c t in
  (∀ ref, sm_gate sm = Some (Some ref) →
     d_Allow d = false ∧ d_Reason d = rf_Reason ref ∧ d_Token d = None ∧ c' = c) ∧
  (d_Allow d = false → d_Reason d ≠ ReasonReplay → d_Reason d ≠ ReasonLeafWriteFailed → c' = c).
Proof.
  unfold ValidateAt. pose proof (decide_cases v sm wire req now now2 c t) as HD.
  destruct (decide_ v sm wire req now now2 c t) as [[d c'] t'] eqn:E.
  assert (∀ ref, sm_gate sm = Some (Some ref) → (d, c', t') = (deny (rf_Reason ref) None zeroJTI, c, t)) as HG.
  { intros ref Hg. unfold decide_ in E. rewrite Hg in E. done. }
  unfold writeLeaf. destruct (appendLeaf _ _ _ _ t') as [[e|] t1]; simpl.
  - split; [intros ref Hg; by injection (HG ref Hg) as -> -> ->|]. intros _ Hr Hl.
    destruct HD as [(_ & -> & _)|(tok & _ & _ & _ & _ & _ & _ & HR & _)]; [done|].
    by destruct (d_Allow d).
  - split; [intros ref Hg; by injection (HG ref Hg) as -> -> ->|]. intros Ha Hr _.
    destruct HD as [(_ & -> & _)|(tok & _ & _ & _ & _ & _ & _ & HR & _)]; [done|].
    by rewrite Ha in HR.
Qed.

Context `{!AntiReplayLaws C}.

(** The leaf of a decision. *)
Lemma ValidateAt_leaf v sm wire req now now2 (c : C) t :
  let '(d, c', t') := ValidateAt v sm wire req now now2 c t in
  leaves_of t' = leaves_of t ++
    (if d_LeafWritten d
     then [leaf_for (v_producer v) KindDecision (decision_record d) (UnixNano now)] else []) ∧
  (d_LeafWritten d = true ↔ d_LeafErr d = None) ∧
  (d_LeafWritten d = false → d_Allow d = false).
Proof.
  unfold ValidateAt. pose proof (decide_cases v sm wire req now now2 c t) as HD.
  destruct (decide_ v sm wire req now now2 c t) as [[d c'] t'] eqn:E.
  assert (leaves_of t' = leaves_of t ∧ d_LeafErr d = None) as [HL HE].
  { destruct HD as [(_ & _ & -> & ? & _)|(tok & _ & _ & _ & _ & _ & ? & _ & Hc)]; [done|].
    split; [|done].
    pose proof (cac_no_leaf now2 (t_JTI tok) (of_Unix (t_Exp tok)) c t) as HN. by rewrite Hc in HN. }
  unfold writeLeaf.
  destruct (appendLeaf_spec (v_producer v) KindDecision (decision_record d) (UnixNano now) t')
    as (dl & Et & W).
  destruct (appendLeaf _ _ _ _ t') as [[e|] t1]; simpl in *; subst t1; unfold write_events in W;
    destruct W as [W _]; rewrite leaves_of_app, HL.
  - rewrite W. done.
  - rewrite HE. split_and!; try done. f_equal. rewrite W. by destruct (p_journal _).
Qed.

(** The widths the record of a decision counts on: an identifier of 16 bytes, a reason that fits
    its length byte. *)
Definition recordable (d : Decision) : Prop := length (d_JTI d) = 16 ∧ slen (d_Reason d) ≤ 255.

Lemma verifySignedToken_recordable keyring wire :
  let '(tok, reason) := verifySignedToken keyring wire in length (tokJTIOrZero tok) = 16 ∧ slen reason ≤ 255.
Proof.
  pose proof (λ p tok, decodePayload_jti p tok) as HJ. pose proof (λ p r, decodePayload_reason_short p r) as HR.
  unfold verifySignedToken. repeat case_match; simplify_eq/=; (split; [eauto|]); try (vm_compute; lia); eauto.
Qed.

Lemma checks_short v sm req now tok reason : checks v sm req now tok = Some reason → slen reason ≤ 255.
Proof. unfold checks. cbv zeta. repeat case_match; try done; intros [= <-]; vm_compute; lia. Qed.

Lemma decision_leaf_commits p d1 d2 ts1 ts2 :
  recordable d1 → recordable d2 →
  PayloadHash (leaf_for p KindDecision (decision_record d1) ts1) = PayloadHash (leaf_for p KindDecision (decision_record d2) ts2) →
  (d_Allow d1 = d_Allow d2 ∧ d_Reason d1 = d_Reason d2 ∧ d_JTI d1 = d_JTI d2 ∧ decision_seal d1 = decision_seal d2) ∨ sha256_collision.
Proof.
  intros [Hj1 Hr1] [Hj2 Hr2] E. apply sha256_eq_or_collision in E as [E|?]; [left|by right].
  apply app_inv_head in E. by apply validatorRecord_injective in E as (? & ? & ? & ?).
Qed.

Lemma ValidateAt_recordable v sm wire req now now2 (c : C) t :
  (∀ ref, sm_gate sm = Some (Some ref) → slen (rf_Reason ref) ≤ 255) →
  recordable (ValidateAt v sm wire req now now2 c t).1.1.
Proof.
  intros HG. assert (recordable (decide_ v sm wire req now now2 c t).1.1) as [Hj Hr].
  { unfold decide_, recordable. destruct (sm_gate sm) as [[ref|]|]; [by split; [|apply HG]|..];
      pose proof (verifySignedToken_recordable (v_keyring v) wire) as HV;
      (destruct (verifySignedToken (v_keyring v) wire) as [[tok|] [|a r]]; [|done..];
       pose proof (checks_short v sm req now tok) as HC; destruct (checks v sm req now tok) as [reason|];
       [by split; [apply HV|apply HC]|]; destruct (cac _ _ _ _ _) as [[[] c1] t1]; (split; [apply HV|vm_compute; lia])). }
  unfold ValidateAt, writeLeaf. destruct (decide_ v sm wire req now now2 c t) as [[d c1] t1]. simpl in Hj, Hr.
  destruct (appendLeaf _ _ _ _ t1) as [[e|] t2]; (split; [done|]); simpl; [|done]. destruct (d_Allow d); [vm_compute; lia|done].
Qed.

(** C18: every decision is proved or refused. A decision appends exactly one leaf and says so; a
    decision whose leaf could not be written reports the error and is a refusal. The leaf commits
    to the decision: any other decision (with an identifier of 16 bytes and a reason of at most
    255) whose leaf under the same salt has the same payload hash has the same verdict, reason,
    [jti] and plan seal, or SHA-256 has a collision. The reason of the gate, when it refuses, is
    at most 255 bytes. *)
Theorem every_decision_leaves_its_leaf v sm wire req now now2 (c : C) t :
  (∀ ref, sm_gate sm = Some (Some ref) → slen (rf_Reason ref) ≤ 255) →
  let '(d, c', t') := ValidateAt v sm wire req now now2 c t in
  recordable d ∧
  (∀ d2 ts2, recordable d2 →
     PayloadHash (leaf_for (v_producer v) KindDecision (decision_record d2) ts2) =
     PayloadHash (leaf_for (v_producer v) KindDecision (decision_record d) (UnixNano now)) →
     (d_Allow d2 = d_Allow d ∧ d_Reason d2 = d_Reason d ∧ d_JTI d2 = d_JTI d ∧ decision_seal d2 = decision_seal d)
     ∨ sha256_collision) ∧
  leaves_of t' = leaves_of t ++
    (if d_LeafWritten d
     then [leaf_for (v_producer v) KindDecision (decision_record d) (UnixNano now)] else []) ∧
  (d_LeafWritten d = true ↔ d_LeafErr d = None) ∧
  (d_LeafWritten d = false → d_Allow d = false).
Proof.
  intros HG. pose proof (ValidateAt_recordable v sm wire req now now2 c t HG) as HR.
  pose proof (ValidateAt_leaf v sm wire req now now2 c t) as HL.
  destruct (ValidateAt v sm wire req now now2 c t) as [[d c'] t']. split_and!; try apply HL; [done|].
  intros d2 ts2 HR2 E. by apply decision_leaf_commits in E.
Qed.

(** One validation: the answers of the seams, the request and the two clock readings. *)
Record vcall := mkVcall {
  vc_sm : Seams; vc_wire : bytes; vc_req : Request; vc_now : Z; vc_now2 : Z }.

Fixpoint validate_run (v : Validator) (ks : list vcall) (c : C) (t : trace) :
    list Decision * C * trace :=
  match ks with
  | [] => ([], c, t)
  | k :: ks' =>
      let '(d, c1, t1) := ValidateAt v (vc_sm k) (vc_wire k) (vc_req k) (vc_now k) (vc_now2 k) c t in
      let '(ds, c2, t2) := validate_run v ks' c1 t1 in (d :: ds, c2, t2)
  end.

(** What a validation does to the cache. *)
Lemma ValidateAt_cache v sm wire req now now2 (c : C) t :
  let '(d, c', t') := ValidateAt v sm wire req now now2 c t in
  (c' = c ∧ d_Allow d = false) ∨
  ∃ fresh tok t1, d_Token d = Some tok ∧ d_JTI d = t_JTI tok ∧
    cac now2 (t_JTI tok) (of_Unix (t_Exp tok)) c t = (fresh, c', t1) ∧
    (d_Allow d = true → fresh = true).
Proof.
  unfold ValidateAt. pose proof (decide_cases v sm wire req now now2 c t) as HD.
  destruct (decide_ v sm wire req now now2 c t) as [[d c'] t'].
  unfold writeLeaf. destruct (appendLeaf _ _ _ _ t') as [[e|] t1]; simpl;
    (destruct HD as [(Ha & -> & _)|(tok & _ & _ & _ & Ht & Hj & _ & _ & Hc)];
      [by left|right; exists (d_Allow d), tok, t'; by split_and!]).
Qed.

(** While the cache remembers a [jti], no decision about it allows. *)
Lemma validate_run_held v ks (c : C) t jti e :
  cac_inv c → cac_holds c jti e → Forall (λ k, (Unix (vc_now2 k) ≤ e)%Z) ks →
  Forall (λ d, d_JTI d = jti → d_Allow d = false) (validate_run v ks c t).1.1.
Proof.
  revert c t. induction ks as [|k ks IH]; intros c t Hinv Hh HF; simpl; [done|].
  apply Forall_cons in HF as [Hk HF].
  pose proof (ValidateAt_cache v (vc_sm k) (vc_wire k) (vc_req k) (vc_now k) (vc_now2 k) c t) as HV.
  destruct (ValidateAt _ _ _ _ _ _ c t) as [[d c1] t1].
  assert (cac_inv c1 ∧ cac_holds c1 jti e ∧ (d_JTI d = jti → d_Allow d = false)) as (Hi1 & Hh1 & Hd).
  { destruct HV as [[-> Ha]|(fresh & tok & t2 & Ht & Hj & Hc & Hf)]; [done|].
    pose proof (cac_step (vc_now2 k) (t_JTI tok) (of_Unix (t_Exp tok)) c t Hinv) as HS.
    pose proof (cac_keeps (vc_now2 k) (t_JTI tok) (of_Unix (t_Exp tok)) c t jti e Hinv Hh Hk) as HK.
    rewrite Hc in HS, HK. split_and!; [done..|]. intros <-. destruct (d_Allow d); [|done].
    pose proof (cac_refuses (vc_now2 k) (t_JTI tok) (of_Unix (t_Exp tok)) c t e Hinv) as HR.
    rewrite Hj in Hh. specialize (HR Hh Hk). rewrite Hc in HR. simpl in HR. by rewrite Hf in HR. }
  specialize (IH c1 t1 Hi1 Hh1 HF). destruct (validate_run v ks c1 t1) as [[ds c2] t2].
  by constructor.
Qed.

(** C2: a token is allowed at most once. After a token was allowed, no later validation
    allows its [jti] again, with any request and any other traffic in between, as long as
    the cache's clock readings have not gone past the second of its expiry. *)
Theorem token_allowed_at_most_once v sm wire req now now2 (c : C) t d c1 t1 tok ks :
  cac_inv c → ValidateAt v sm wire req now now2 c t = (d, c1, t1) →
  d_Allow d = true → d_Token d = Some tok →
  Forall (λ k, (Unix (vc_now2 k) ≤ t_Exp tok)%Z) ks →
  Forall (λ d', d_JTI d' = t_JTI tok → d_Allow d' = false) (validate_run v ks c1 t1).1.1.
Proof.
  intros Hinv E Ha Ht HF.
  pose proof (ValidateAt_cache v sm wire req now now2 c t) as HV. rewrite E in HV.
  destruct HV as [[_ ?]|(fresh & tok' & t2 & Ht' & _ & Hc & Hf)]; [congruence|].
  rewrite Ht in Ht'. injection Ht' as <-. rewrite (Hf Ha) in Hc.
  pose proof (cac_records _ _ _ _ _ _ _ Hinv Hc) as Hh. rewrite Unix_of_Unix in Hh.
  pose proof (cac_step now2 (t_JTI tok) (of_Unix (t_Exp tok)) c t Hinv) as HS. rewrite Hc in HS.
  by apply validate_run_held with (t_Exp tok).
Qed.
End validator.

(** ** The expiry second *)

Section boundary.
Context `{Crypto, Env, Cose, !CoseLaws}.

(** Without a journal, a sink that accepts accepts every leaf. *)
Lemma appendLeaf_accepts p kind record ts t :
  p_journal p = false → (∀ t l, sink_accepts t l = true) →
  (appendLeaf p kind record ts t).1 = None.
Proof. intros Hj Hs. unfold appendLeaf, AppendLeaf, sink_Append. by rewrite Hj, Hs. Qed.

(** A cache whose entries have all expired accepts. *)
Lemma ring_accepts_expired now jti exp c t :
  ar_wf c → Forall (λ e, (e_exp e < Unix now)%Z) (ar_contents c) →
  (CheckAndConsume now jti exp c t).1.1 = true ∧
  ar_contents (CheckAndConsume now jti exp c t).1.2 = [mkEntry jti (Unix exp) true].
Proof.
  intros Hwf HF. destruct (CheckAndConsume_step now jti exp c t Hwf) as (-> & -> & _).
  assert (Spec.drop_expired (Unix now) (ar_contents c) = []) as E.
  { induction HF as [|e q He HF IH]; simpl; [done|]. by rewrite (proj2 (Z.ltb_lt _ _)). }
  unfold Spec.consume. rewrite E. destruct Hwf as (Hpos & _).
  rewrite bool_decide_false by (by intros ?%elem_of_nil). simpl.
  destruct (length (ar_ring c)); [lia|done].
Qed.

(** The bound on the clock is needed. The validator and the cache read the clock
    separately; when the first reading is still in the second of expiry and the second one
    past it, the cache has purged the [jti] and the same token is allowed again. *)
Theorem replay_allowed_across_expiry_second v sm wire req now now2 now' now2' tok cap plugged c t :
  (∀ t l, sink_accepts t l = true) → p_journal (v_producer v) = false →
  gate_open sm → verifySignedToken (v_keyring v) wire = (Some tok, "") →
  acceptable v sm req now tok → acceptable v sm req now' tok →
  NewAntiReplay cap plugged = Some c → (t_Exp tok < Unix now2')%Z →
  let '(d1, c1, t1) := ValidateAt v sm wire req now now2 c t in
  d_Allow d1 = true ∧ d_Allow (ValidateAt v sm wire req now' now2' c1 t1).1.1 = true.
Proof.
  intros Hs Hj Hg Hv Ha Ha' HN Hlt. apply NewAntiReplay_wf in HN as (Hwf & HC & _).
  destruct (ring_accepts_expired now2 (t_JTI tok) (of_Unix (t_Exp tok)) c t Hwf) as [Hok1 C1];
    [by rewrite HC|].
  destruct (CheckAndConsume now2 (t_JTI tok) (of_Unix (t_Exp tok)) c t) as [[ok c1'] t1'] eqn:E1.
  simpl in Hok1, C1. subst ok.
  assert (d_Allow (ValidateAt v sm wire req now now2 c t).1.1 = true) as HA1.
  { apply validator_allows_iff. split; [done|]. exists tok, c1', t1'.
    split_and!; auto using appendLeaf_accepts. }
  pose proof (ValidateAt_cache v sm wire req now now2 c t) as HV.
  destruct (ValidateAt v sm wire req now now2 c t) as [[d1 c1] t1] eqn:E. simpl in HA1.
  split; [done|]. destruct HV as [[_ ?]|(fresh & tok' & t2 & Ht & _ & Hc & _)]; [congruence|].
  assert (tok' = tok) as ->.
  { unfold ValidateAt in E. pose proof (decide_cases v sm wire req now now2 c t) as HD.
    destruct (decide_ v sm wire req now now2 c t) as [[d c0] t0].
    unfold writeLeaf in E. destruct (appendLeaf _ _ _ _ t0) as [[e|] t3]; simplify_eq/=.
    destruct HD as [(? & _)|(tk & _ & Hv' & _ & Ht' & _)]; [congruence|]. congruence. }
  change (cac (C := AntiReplay)) with CheckAndConsume in Hc. rewrite E1 in Hc. injection Hc as <- <- _.
  pose proof (CheckAndConsume_step now2 (t_JTI tok) (of_Unix (t_Exp tok)) c t Hwf) as (_ & _ & W1 & _).
  rewrite E1 in W1. simpl in W1.
  destruct (ring_accepts_expired now2' (t_JTI tok) (of_Unix (t_Exp tok)) c1' t1 W1) as [Hok2 _].
  { rewrite C1. constructor; [|done]. simpl. by rewrite Unix_of_Unix. }
  apply validator_allows_iff. split; [done|].
  destruct (CheckAndConsume now2' (t_JTI tok) (of_Unix (t_Exp tok)) c1' t1) as [[ok c2] t2'] eqn:E2.
  simpl in Hok2. subst ok. exists tok, c2, t2'. split_and!; auto using appendLeaf_accepts.
Qed.
End boundary.
