(* ===== verification/PlanContract.v ===== *)
(** Plan contracts: [src/pep/plan_contract.go].

    A plan is submitted, sealed under [HashPlan], approved by operator signatures, and its
    steps are consumed one by one, in order, when the broker issues tokens. [ContractConfig]
    holds what [NewContractStore] fixes, [ContractStore] the mutable maps. Every operation
    first runs [expireLocked], which writes one leaf per expired plan and bounds the number of
    dead entries kept. Each operation reads the clock once ([now]). *)
From S2P Require Import Prelude.
From S2P Require Import Leaf.
From S2P Require Import Effects.
From S2P Require Import Records.
From S2P Require Import Token.

Definition MaxPlanSteps : nat := 64.
Definition MaxPlanApprovalSignatures : nat := 64.
Definition MaxPlanParamsBytes : nat := 4096.
Definition maxPlanActionLen : nat := 255.
Definition maxPlanSubjectLen : nat := 255.
Definition maxPlanResourceLen : nat := 1024.
Definition DefaultMaxPendingPlans : Z := 64.
Definition DefaultMaxApprovedPlans : Z := 64.
Definition DefaultMaxTombstones : Z := 128.
Definition DefaultApprovalTTL : Z := hour.
Definition MinApprovalTTL : Z := 60 * second.
Definition MaxApprovalTTL : Z := 24 * hour.
Definition DefaultPendingTTL : Z := 15 * minute.
Definition MaxSubmissionTTL : Z := 10 * minute.
Definition maxSubmissionReplay : nat := 1024.

Definition planEventSubmit : byte := Byte.x01.
Definition planEventApprove : byte := Byte.x02.
Definition planEventRefuse : byte := Byte.x03.
Definition planEventConsume : byte := Byte.x04.
Definition planEventExpire : byte := Byte.x05.
Definition planEventRevoke : byte := Byte.x06.
Definition planStepNA : Z := 65535.

Inductive plan_error :=
  | ErrPlanSubmissionInvalid | ErrPlanBindingInvalid | ErrPlanUnknown | ErrPlanPending
  | ErrPlanExpired | ErrPlanRevoked | ErrPlanDeviation | ErrPlanSubjectMismatch
  | ErrPlanRevocationSignature | ErrPlanRevocationExpiryInvalid | ErrPlanApprovalExpiryInvalid
  | ErrPlanApprovalSignature | ErrPlanApprovalRole | ErrPlanApprovalSelf
  | ErrPlanSubmissionUnsigned | ErrPlanSubmissionSignature | ErrPlanSubmissionRole
  | ErrPlanSubmissionExpiryInvalid | ErrPlanSubmissionReplayed | ErrPlanRevocationRole
  | ErrPlanApprovalQuorum | ErrPlanApprovalDuplicateSigner | ErrPlanApprovalUnreachable
  | ErrPlanStoreSaturated | ErrPlanStoreFault.

Inductive plan_status := planStatusPending | planStatusApproved | planStatusRevoked.
#[global] Instance plan_status_eq_dec : EqDecision plan_status.
Proof. solve_decision. Defined.

Record planEntry := mkPlan {
  pe_subject : string;
  pe_steps : list PlanStep;
  pe_submittedAt : Z;
  pe_expiresAt : Z;
  pe_status : plan_status;
  pe_required : nat;
  pe_submitter : option bytes;   (* [signed] and [submitter] *)
  pe_cursor : nat;
  pe_expired : bool;
}.

Definition set_expired (e : planEntry) : planEntry :=
  mkPlan (pe_subject e) (pe_steps e) (pe_submittedAt e) (pe_expiresAt e) (pe_status e)
    (pe_required e) (pe_submitter e) (pe_cursor e) true.
Definition set_approved (expiry : Z) (e : planEntry) : planEntry :=
  mkPlan (pe_subject e) (pe_steps e) (pe_submittedAt e) expiry planStatusApproved
    (pe_required e) (pe_submitter e) 0 (pe_expired e).
Definition set_revoked (e : planEntry) : planEntry :=
  mkPlan (pe_subject e) (pe_steps e) (pe_submittedAt e) (pe_expiresAt e) planStatusRevoked
    (pe_required e) (pe_submitter e) (pe_cursor e) (pe_expired e).
Definition advance (e : planEntry) : planEntry :=
  mkPlan (pe_subject e) (pe_steps e) (pe_submittedAt e) (pe_expiresAt e) (pe_status e)
    (pe_required e) (pe_submitter e) (pe_cursor e + 1) (pe_expired e).

Record ContractConfig := mkContractConfig {
  cc_producer : Producer;
  cc_policyID : bytes;
  cc_operatorKeys : list bytes;
  cc_approverKeys : list bytes;
  cc_revokerKeys : list bytes;
  cc_submitterKeys : list bytes;
  cc_separate : bool;
  cc_approvalsReq : option (string → Z);
  cc_distinctKeys : nat;
  cc_maxPending : nat;
  cc_maxApproved : nat;
  cc_maxTombstones : nat;
  cc_approvalTTL : Z;
  cc_pendingTTL : Z;
  cc_onTrip : bool;
}.

Record ContractStore := mkContractStore {
  ct_plans : gmap bytes planEntry;
  ct_submissions : gmap bytes Z;
}.

Definition cc_cellID (g : ContractConfig) : string := p_cellID (cc_producer g).

(** ** Bindings *)

Definition BuildBinding (planHash params : bytes) : option bytes :=
  if MaxPlanParamsBytes <? length params then None
  else Some (sb "TBPB1" ++ planHash ++ be 2 (u16 (Z.of_nat (length params))) ++ params).

(** The hash it extracts, and the parameters unless the blob is malformed. *)
Definition parseBinding (binding : bytes) : bytes * option bytes :=
  if (length binding <? 5 + 32 + 2) || negb (bool_decide (take 5 binding = sb "TBPB1")) then
    (replicate 32 Byte.x00, None)
  else
    let planHash := take 32 (drop 5 binding) in
    let n := Z.to_nat (be_val (take 2 (drop 37 binding))) in
    if negb (length binding =? 39 + n) || (MaxPlanParamsBytes <? n) then (planHash, None)
    else (planHash, Some (drop 39 binding)).

(** The parts of a blob that is long enough. *)
Lemma binding_split (b : bytes) :
  39 ≤ length b → b = take 5 b ++ take 32 (drop 5 b) ++ take 2 (drop 37 b) ++ drop 39 b.
Proof.
  intros HL. rewrite <-(drop_drop b 2 37 : _ = drop 39 b), take_drop,
    <-(drop_drop b 32 5 : _ = drop 37 b), take_drop.
  by rewrite take_drop.
Qed.

(** The binding codec. [parseBinding] accepts exactly the blobs [BuildBinding] builds,
    and reads back the seal and the parameters they were built from. *)
Theorem binding_codec_bijective b h params :
  parseBinding b = (h, Some params) ↔ BuildBinding h params = Some b ∧ length h = 32.
Proof.
  unfold parseBinding, BuildBinding. split.
  - destruct (Nat.ltb_spec (length b) (5 + 32 + 2)); cbn [orb]; [done|].
    case_bool_decide as H5; cbn [negb]; [|done].
    set (n := Z.to_nat (be_val (take 2 (drop 37 b)))).
    destruct (Nat.eqb_spec (length b) (39 + n)) as [HL|]; cbn [negb orb]; [|done].
    destruct (Nat.ltb_spec MaxPlanParamsBytes n); [done|]. intros [= <- <-].
    assert (length (drop 39 b) = n) as Hn by (rewrite length_drop; lia). rewrite Hn.
    destruct (Nat.ltb_spec MaxPlanParamsBytes n); [lia|]. split.
    + f_equal. etransitivity; [|symmetry; apply binding_split; lia]. rewrite H5. do 3 f_equal.
      assert (length (take 2 (drop 37 b)) = 2) as H2 by (rewrite length_take, length_drop; lia).
      pose proof (be_val_range (take 2 (drop 37 b))) as HR. rewrite H2 in HR. simpl in HR.
      unfold n. rewrite Z2Nat.id by lia. unfold u16. rewrite Z.mod_small by lia.
      rewrite <-H2 at 1. apply be_be_val.
    + rewrite length_take, length_drop. lia.
  - intros [HB H32]. destruct (Nat.ltb_spec MaxPlanParamsBytes (length params)); [done|].
    apply (inj Some) in HB. subst b. unfold MaxPlanParamsBytes in *.
    set (l2 := be 2 (u16 (Z.of_nat (length params)))).
    assert (length l2 = 2) as H2 by apply length_be.
    assert (length (sb "TBPB1" ++ h ++ l2 ++ params) = 39 + length params) as HL
      by (rewrite !length_app, H32, H2; done).
    rewrite HL. destruct (Nat.ltb_spec (39 + length params) (5 + 32 + 2)); [lia|].
    assert (∀ k, drop 5 (sb "TBPB1" ++ k) = k) as D5 by done.
    assert (drop 37 (sb "TBPB1" ++ h ++ l2 ++ params) = l2 ++ params) as D37
      by (rewrite <-(drop_drop _ 32 5 : _ = drop 37 _), D5; by apply drop_app_exact).
    rewrite bool_decide_true by done. cbn [orb negb]. rewrite D5, D37.
    rewrite (take_app_exact 32), (take_app_exact 2) by done.
    rewrite <-(drop_drop _ 2 37 : _ = drop 39 _), D37, (drop_app_exact 2) by done.
    unfold l2. rewrite be_val_be. unfold u16.
    rewrite Z.mod_small by (apply Z.mod_pos_bound; lia).
    rewrite Z.mod_small, Nat2Z.id, Nat.eqb_refl by lia. cbn [negb orb].
    by destruct (Nat.ltb_spec 4096 (length params)); [lia|].
Qed.

(** ** Keys and roles *)

Section contract.
Context `{Crypto, Env, MapOrder}.

Definition countDistinctKeys (keys : list bytes) : nat :=
  size (list_to_set (KeyIDFromPublicKey <$> keys) : gset bytes).

(** [roleKeys]: [None] is the configuration error; the subset may be nil. *)
Definition roleKeys (subset : option (list bytes)) (all : list bytes) : option (list bytes) :=
  match subset with
  | None => Some all
  | Some [] => None
  | Some ks =>
      let known : gset bytes := list_to_set (KeyIDFromPublicKey <$> all) in
      if forallb (λ k, bool_decide (KeyIDFromPublicKey k ∈ known)) ks then Some ks else None
  end.

Fixpoint signedBy (keys : list bytes) (msg sig : bytes) : option bytes :=
  match keys with
  | [] => None
  | pub :: keys' =>
      if ed25519_verify pub msg sig then Some (KeyIDFromPublicKey pub) else signedBy keys' msg sig
  end.

Definition with_default (n d : Z) : Z := if (n =? 0)%Z then d else n.

(** [NewContractStore]: [None] is a configuration error. *)
Definition NewContractStore (cellID : string) (policyID : bytes) (operatorKeys : list bytes)
    (approverKeys revokerKeys submitterKeys : option (list bytes)) (separate : bool)
    (approvalsReq : option (string → Z)) (salt : bytes) (leaves journal : bool)
    (maxPending maxApproved maxTombstones approvalTTL pendingTTL : Z) (onTrip : bool) :
    option (ContractConfig * ContractStore) :=
  let maxPending := with_default maxPending DefaultMaxPendingPlans in
  let maxApproved := with_default maxApproved DefaultMaxApprovedPlans in
  let maxTombstones := with_default maxTombstones DefaultMaxTombstones in
  let approvalTTL := with_default approvalTTL DefaultApprovalTTL in
  let pendingTTL := with_default pendingTTL DefaultPendingTTL in
  if bool_decide (cellID = "") || (maxPlanActionLen <? slen cellID) then None
  else if length operatorKeys =? 0 then None
  else if existsb (λ k, negb (length k =? 32)) operatorKeys then None
  else if length salt <? 16 then None
  else if negb leaves then None
  else if ((maxPending <? 0) || (maxApproved <? 0))%Z then None
  else if (maxTombstones <? 0)%Z then None
  else if ((approvalTTL <? MinApprovalTTL) || (MaxApprovalTTL <? approvalTTL))%Z then None
  else if ((pendingTTL <? MinApprovalTTL) || (MaxApprovalTTL <? pendingTTL))%Z then None
  else
    approvers ← roleKeys approverKeys operatorKeys;
    revokers ← roleKeys revokerKeys operatorKeys;
    submitters ← roleKeys submitterKeys operatorKeys;
    Some (mkContractConfig (mkProducer cellID salt journal) policyID operatorKeys approvers
            revokers submitters separate approvalsReq (countDistinctKeys approvers)
            (Z.to_nat maxPending) (Z.to_nat maxApproved) (Z.to_nat maxTombstones)
            approvalTTL pendingTTL onTrip,
          mkContractStore ∅ ∅).

(** [ValidatePlan]. *)
Definition ValidatePlan (subject : string) (steps : list PlanStep) : bool :=
  negb ((slen subject <? 1) || (maxPlanSubjectLen <? slen subject)) &&
  negb ((length steps <? 1) || (MaxPlanSteps <? length steps)) &&
  forallb (λ st, negb ((slen (Action st) <? 1) || (maxPlanActionLen <? slen (Action st)) ||
                       (slen (Resource st) <? 1) || (maxPlanResourceLen <? slen (Resource st))))
    steps.

(** ** Leaves *)

Context (g : ContractConfig).

Definition ct_writeLeaf (event : byte) (planHash : bytes) (step : Z) (verdict : byte)
    (reason : string) (now : Z) (t : trace) : option append_error * trace :=
  appendLeaf (cc_producer g) KindContract (planLeafRecord event planHash step verdict reason)
    (UnixNano now) t.

(** [writeSignedLeafLocked]; [writeApprovalLeafLocked] is its use for approvals. *)
Definition ct_writeSignedLeaf (event : byte) (planHash kid : bytes) (expiry : Z) (sig : bytes)
    (now : Z) (t : trace) : option append_error * trace :=
  appendLeaf (cc_producer g) KindContract (planSignedRecord event planHash kid expiry sig)
    (UnixNano now) t.

Definition tripStoreFault (t : trace) : trace := call_alarm (cc_onTrip g) "plan-store-fault" t.
Definition tripSaturated (t : trace) : trace := call_alarm (cc_onTrip g) "plan-store-saturated" t.

(** A refusal with its leaf: [refuseSubmissionLocked], [refuseApprovalLocked],
    [refuseRevocationLocked] and [writeRefusalLocked] differ in the event they record. *)
Definition ct_refuse (event : byte) (planHash : bytes) (step : Z) (reason : string)
    (err : plan_error) (now : Z) (t : trace) : plan_error * trace :=
  match ct_writeLeaf event planHash step Byte.x00 reason now t with
  | (Some _, t1) => (ErrPlanStoreFault, tripStoreFault t1)
  | (None, t1) => (err, t1)
  end.

Definition refuseSubmissionLocked (subject : string) (steps : list PlanStep) (reason : string)
    (err : plan_error) (now : Z) (t : trace) : plan_error * trace :=
  ct_refuse planEventSubmit (HashPlan (cc_cellID g) subject now (cc_policyID g) steps)
    (Z.of_nat (length steps)) reason err now t.
Definition refuseApprovalLocked (planHash : bytes) (reason : string) (err : plan_error) (now : Z)
    (t : trace) : plan_error * trace :=
  ct_refuse planEventApprove planHash planStepNA reason err now t.
Definition refuseRevocationLocked (planHash : bytes) (reason : string) (err : plan_error) (now : Z)
    (t : trace) : plan_error * trace :=
  ct_refuse planEventRevoke planHash planStepNA reason err now t.
Definition writeRefusalLocked (planHash : bytes) (step : Z) (reason : string) (err : plan_error)
    (now : Z) (t : trace) : plan_error * trace :=
  ct_refuse planEventRefuse planHash step reason err now t.

(** ** Expiry and tombstones *)

Definition expire_turn (now : Z) (acc : gmap bytes planEntry * trace) (he : bytes * planEntry) :
    gmap bytes planEntry * trace :=
  let '(plans, t) := acc in
  let '(hash, e) := he in
  if pe_expired e || negb (pe_expiresAt e <? now)%Z then acc
  else match ct_writeLeaf planEventExpire hash planStepNA Byte.x01 "ok" now t with
       | (Some _, t1) => (plans, tripStoreFault t1)
       | (None, t1) => (<[hash := set_expired e]> plans, t1)
       end.

Definition is_tomb (e : planEntry) : bool :=
  pe_expired e || bool_decide (pe_status e = planStatusRevoked).

Definition tomb_le (a b : bytes * planEntry) : Prop :=
  (pe_submittedAt a.2 ≤ pe_submittedAt b.2)%Z.
#[global] Instance tomb_le_dec : RelDecision tomb_le.
Proof. intros a b. unfold tomb_le. apply _. Defined.

Definition tombs (plans : gmap bytes planEntry) : list (bytes * planEntry) :=
  filter (λ he, is_tomb he.2 = true) (map_range (map_to_list plans)).

(** The entries of equal dates are in the order in which the map was walked, which is any: [sort.Slice] leaves it open too. *)
Definition evictTombstonesLocked (plans : gmap bytes planEntry) : gmap bytes planEntry :=
  let ts := tombs plans in
  if length ts <=? cc_maxTombstones g then plans
  else foldl (λ m he, delete he.1 m) plans
         (take (length ts - cc_maxTombstones g) (merge_sort tomb_le ts)).

Definition expireLocked (now : Z) (s : ContractStore) (t : trace) : ContractStore * trace :=
  let '(plans, t1) := foldl (expire_turn now) (ct_plans s, t)
                        (map_range (map_to_list (ct_plans s))) in
  (mkContractStore (evictTombstonesLocked plans) (ct_submissions s), t1).

Definition countStatusLocked (status : plan_status) (s : ContractStore) : nat :=
  size (filter (λ he, pe_status he.2 = status ∧ pe_expired he.2 = false) (ct_plans s)).

(** ** Submission *)

Record signedSubmission := mkSigned { ss_kid : bytes; ss_expiry : Z; ss_sig : bytes }.

Definition approversApartFrom (sub : option signedSubmission) : nat :=
  match sub with
  | None => cc_distinctKeys g
  | Some sg =>
      size (list_to_set (filter (λ kid, kid ≠ ss_kid sg) (KeyIDFromPublicKey <$> cc_approverKeys g))
            : gset bytes)
  end.

Definition required_for (subject : string) : nat :=
  match cc_approvalsReq g with
  | Some f => if (1 <? f subject)%Z then Z.to_nat (f subject) else 1
  | None => 1
  end.

Definition insert_plan (hash : bytes) (e : planEntry) (s : ContractStore) : ContractStore :=
  mkContractStore (<[hash := e]> (ct_plans s)) (ct_submissions s).

Definition new_plan (subject : string) (steps : list PlanStep) (sub : option signedSubmission)
    (now : Z) : planEntry :=
  mkPlan subject steps now (now + cc_pendingTTL g) planStatusPending (required_for subject)
    (ss_kid <$> sub) 0 false.

Definition submitLocked (subject : string) (steps : list PlanStep) (sub : option signedSubmission)
    (now : Z) (s : ContractStore) (t : trace) : (plan_error + bytes) * ContractStore * trace :=
  let hash := HashPlan (cc_cellID g) subject now (cc_policyID g) steps in
  if approversApartFrom sub <? required_for subject then
    let '(e, t1) := ct_refuse planEventSubmit hash (Z.of_nat (length steps))
                      "plan-approval-unreachable" ErrPlanApprovalUnreachable now t in
    (inl e, s, t1)
  else
    let exists_ := bool_decide (is_Some (ct_plans s !! hash)) in
    if negb exists_ && (cc_maxPending g <=? countStatusLocked planStatusPending s) then
      (inl ErrPlanStoreSaturated, s, tripSaturated t)
    else
      match (match sub with
             | Some sg => ct_writeSignedLeaf planEventSubmit hash (ss_kid sg) (ss_expiry sg)
                            (ss_sig sg) now t
             | None => ct_writeLeaf planEventSubmit hash (Z.of_nat (length steps)) Byte.x01 "ok" now t
             end) with
      | (Some _, t1) => (inl ErrPlanStoreFault, s, tripStoreFault t1)
      | (None, t1) =>
          (inr hash, if exists_ then s else insert_plan hash (new_plan subject steps sub now) s, t1)
      end.

Definition Submit (subject : string) (steps : list PlanStep) (now : Z) (s : ContractStore)
    (t : trace) : (plan_error + bytes) * ContractStore * trace :=
  if negb (ValidatePlan subject steps) then (inl ErrPlanSubmissionInvalid, s, t)
  else
    let '(s1, t1) := expireLocked now s t in
    if cc_separate g then
      let '(e, t2) := refuseSubmissionLocked subject steps "plan-submission-unsigned"
                        ErrPlanSubmissionUnsigned now t1 in
      (inl e, s1, t2)
    else submitLocked subject steps None now s1 t1.

(** The purge of the submissions whose deadline is reached. *)
Definition purge_submissions (now : Z) (s : ContractStore) : ContractStore :=
  mkContractStore (ct_plans s) (filter (λ du, (now < du.2)%Z) (ct_submissions s)).

Definition record_submission (digest : bytes) (expiry : Z) (s : ContractStore) : ContractStore :=
  mkContractStore (ct_plans s) (<[digest := expiry]> (ct_submissions s)).

Definition SubmitSigned (subject : string) (steps : list PlanStep) (expiry : Z) (sig : bytes)
    (now : Z) (s : ContractStore) (t : trace) : (plan_error + bytes) * ContractStore * trace :=
  if negb (ValidatePlan subject steps) then (inl ErrPlanSubmissionInvalid, s, t)
  else
    let '(s1, t1) := expireLocked now s t in
    let refuse reason err s' :=
      let '(e, t2) := refuseSubmissionLocked subject steps reason err now t1 in (inl e, s', t2) in
    let ttl := Sub expiry now in
    if ((ttl <=? 0) || (MaxSubmissionTTL <? ttl))%Z then
      refuse "plan-submission-expiry-invalid" ErrPlanSubmissionExpiryInvalid s1
    else
      let msg := SubmissionMessage (cc_cellID g) subject steps expiry in
      match signedBy (cc_submitterKeys g) msg sig with
      | None =>
          match signedBy (cc_operatorKeys g) msg sig with
          | Some _ => refuse "plan-submission-role-denied" ErrPlanSubmissionRole s1
          | None => refuse "plan-submission-signature-invalid" ErrPlanSubmissionSignature s1
          end
      | Some kid =>
          let s2 := purge_submissions now s1 in
          let digest := sha256 msg in
          if bool_decide (is_Some (ct_submissions s2 !! digest)) then
            refuse "plan-submission-replayed" ErrPlanSubmissionReplayed s2
          else if maxSubmissionReplay <=? size (ct_submissions s2) then
            (inl ErrPlanStoreSaturated, s2, tripSaturated t1)
          else
            match submitLocked subject steps (Some (mkSigned kid expiry sig)) now s2 t1 with
            | (inr hash, s3, t3) => (inr hash, record_submission digest expiry s3, t3)
            | (inl e, s3, t3) => (inl e, s3, t3)
            end
      end.

(** ** Approval and revocation *)

(** The loop over the signatures: the approvers in order, or the refusal. *)
Fixpoint approval_loop (e : planEntry) (msg : bytes) (sigs : list bytes) (seen : list bytes) :
    (string * plan_error) + list bytes :=
  match sigs with
  | [] => inr seen
  | sig :: sigs' =>
      match signedBy (cc_approverKeys g) msg sig with
      | None =>
          match signedBy (cc_operatorKeys g) msg sig with
          | Some _ => inl ("plan-approval-role-denied", ErrPlanApprovalRole)
          | None => inl ("plan-approval-signature-invalid", ErrPlanApprovalSignature)
          end
      | Some kid =>
          if bool_decide (pe_submitter e = Some kid) then inl ("plan-approval-self", ErrPlanApprovalSelf)
          else if bool_decide (kid ∈ seen) then
            inl ("plan-approval-duplicate-signer", ErrPlanApprovalDuplicateSigner)
          else approval_loop e msg sigs' (seen ++ [kid])
      end
  end.

(** The attributed leaves, one per signature; stops at the first failure. *)
Fixpoint approval_leaves (planHash : bytes) (expiry : Z) (kss : list (bytes * bytes)) (now : Z)
    (t : trace) : option append_error * trace :=
  match kss with
  | [] => (None, t)
  | (kid, sig) :: kss' =>
      match ct_writeSignedLeaf planEventApprove planHash kid expiry sig now t with
      | (Some e, t1) => (Some e, t1)
      | (None, t1) => approval_leaves planHash expiry kss' now t1
      end
  end.

Definition ApproveAll (planHash : bytes) (expiry : Z) (sigs : list bytes) (now : Z)
    (s : ContractStore) (t : trace) : option plan_error * ContractStore * trace :=
  let '(s1, t1) := expireLocked now s t in
  let refuse reason err t' :=
    let '(e, t2) := refuseApprovalLocked planHash reason err now t' in (Some e, s1, t2) in
  match ct_plans s1 !! planHash with
  | None => refuse "plan-unknown" ErrPlanUnknown t1
  | Some e =>
      let ttl := Sub expiry now in
      if pe_expired e then refuse "plan-expired" ErrPlanExpired t1
      else if negb (bool_decide (pe_status e = planStatusPending)) then
        refuse "plan-unknown" ErrPlanUnknown t1
      else if ((ttl <? MinApprovalTTL) || (cc_approvalTTL g <? ttl))%Z then
        refuse "plan-approval-expiry-invalid" ErrPlanApprovalExpiryInvalid t1
      else if (length sigs =? 0) || (MaxPlanApprovalSignatures <? length sigs) then
        refuse "plan-approval-signature-invalid" ErrPlanApprovalSignature t1
      else
        match approval_loop e (ApprovalMessage planHash expiry) sigs [] with
        | inl (reason, err) => refuse reason err t1
        | inr approvers =>
            if length approvers <? pe_required e then
              refuse "plan-approval-quorum-insufficient" ErrPlanApprovalQuorum t1
            else if cc_maxApproved g <=? countStatusLocked planStatusApproved s1 then
              refuse "plan-store-saturated" ErrPlanStoreSaturated (tripSaturated t1)
            else
              match approval_leaves planHash expiry (zip approvers sigs) now t1 with
              | (Some _, t2) => (Some ErrPlanStoreFault, s1, tripStoreFault t2)
              | (None, t2) => (None, insert_plan planHash (set_approved expiry e) s1, t2)
              end
        end
  end.

Definition Approve (planHash : bytes) (expiry : Z) (sig : bytes) (now : Z) (s : ContractStore)
    (t : trace) : option plan_error * ContractStore * trace :=
  ApproveAll planHash expiry [sig] now s t.

Definition Revoke (planHash : bytes) (expiry : Z) (sig : bytes) (now : Z) (s : ContractStore)
    (t : trace) : option plan_error * ContractStore * trace :=
  let '(s1, t1) := expireLocked now s t in
  let refuse reason err :=
    let '(e, t2) := refuseRevocationLocked planHash reason err now t1 in (Some e, s1, t2) in
  match ct_plans s1 !! planHash with
  | None => refuse "plan-unknown" ErrPlanUnknown
  | Some e =>
      let ttl := Sub expiry now in
      let msg := RevocationMessage planHash expiry in
      if bool_decide (pe_status e = planStatusRevoked) || pe_expired e then
        refuse "plan-unknown" ErrPlanUnknown
      else if ((ttl <=? 0) || (cc_approvalTTL g <? ttl))%Z then
        refuse "plan-revocation-expiry-invalid" ErrPlanRevocationExpiryInvalid
      else
        match signedBy (cc_revokerKeys g) msg sig with
        | None =>
            match signedBy (cc_operatorKeys g) msg sig with
            | Some _ => refuse "plan-revocation-role-denied" ErrPlanRevocationRole
            | None => refuse "plan-revocation-signature-invalid" ErrPlanRevocationSignature
            end
        | Some revoker =>
            match ct_writeSignedLeaf planEventRevoke planHash revoker expiry sig now t1 with
            | (Some _, t2) => (Some ErrPlanStoreFault, s1, tripStoreFault t2)
            | (None, t2) => (None, insert_plan planHash (set_revoked e) s1, t2)
            end
        end
  end.

(** ** Execution *)

Definition VerifyStep (subject : string) (binding : bytes) (action resource : string) (now : Z)
    (s : ContractStore) (t : trace) : (plan_error + bytes) * ContractStore * trace :=
  let '(s1, t1) := expireLocked now s t in
  let '(planHash, parsed) := parseBinding binding in
  let refuse step reason err :=
    let '(e, t2) := writeRefusalLocked planHash step reason err now t1 in (inl e, s1, t2) in
  match parsed with
  | None => refuse planStepNA "plan-binding-invalid" ErrPlanBindingInvalid
  | Some params =>
    match ct_plans s1 !! planHash with
    | None => refuse planStepNA "plan-unknown" ErrPlanUnknown
    | Some e =>
      if bool_decide (subject ≠ pe_subject e) then
        refuse planStepNA "plan-subject-mismatch" ErrPlanSubjectMismatch
      else if pe_expired e then refuse planStepNA "plan-expired" ErrPlanExpired
      else
        let step := if pe_cursor e <? length (pe_steps e) then u16 (Z.of_nat (pe_cursor e))
                    else planStepNA in
        match pe_status e with
        | planStatusPending => refuse step "plan-pending" ErrPlanPending
        | planStatusRevoked => refuse step "plan-revoked" ErrPlanRevoked
        | planStatusApproved =>
          match pe_steps e !! pe_cursor e with
          | None => refuse planStepNA "plan-deviation" ErrPlanDeviation
          | Some want =>
            if bool_decide (action ≠ Action want ∨ resource ≠ Resource want ∨
                            HashParams params ≠ ParamsHash want) then
              refuse step "plan-deviation" ErrPlanDeviation
            else
              match ct_writeLeaf planEventConsume planHash step Byte.x01 "ok" now t1 with
              | (Some _, t2) => (inl ErrPlanStoreFault, s1, tripStoreFault t2)
              | (None, t2) => (inr planHash, insert_plan planHash (advance e) s1, t2)
              end
          end
        end
    end
  end.

(** ** The arbitration queue *)

Record PendingPlan := mkPendingPlan {
  pp_Hash : bytes; pp_Subject : string; pp_SubmittedAt : Z; pp_ExpiresAt : Z; pp_Steps : nat }.

Definition pending_le (a b : PendingPlan) : Prop :=
  if (pp_SubmittedAt a =? pp_SubmittedAt b)%Z then bytes_le (pp_Hash a) (pp_Hash b)
  else (pp_SubmittedAt a < pp_SubmittedAt b)%Z.
#[global] Instance pending_le_dec : RelDecision pending_le.
Proof. intros a b. unfold pending_le. case_match; apply _. Defined.

Definition pending_view (now : Z) (he : bytes * planEntry) : option PendingPlan :=
  let '(h, e) := he in
  if negb (bool_decide (pe_status e = planStatusPending)) || pe_expired e
     || negb (now <? pe_expiresAt e)%Z then None
  else Some (mkPendingPlan h (pe_subject e) (pe_submittedAt e) (pe_expiresAt e)
               (length (pe_steps e))).

(** [ContractStore.Snapshot]: read only. *)
Definition PlanSnapshot (now : Z) (s : ContractStore) : list PendingPlan :=
  merge_sort pending_le (omap (pending_view now) (map_range (map_to_list (ct_plans s)))).

(** The queue and the policy it is sealed under, read in one call. *)
Definition SnapshotWithPolicy (now : Z) (s : ContractStore) : list PendingPlan * bytes :=
  (PlanSnapshot now s, cc_policyID g).

(** ** Lemmas on expiry *)

Lemma expire_fold now kvs plans t h :
  let r := foldl (expire_turn now) (plans, t) kvs in
  r.1 !! h = plans !! h ∨
  ∃ e, (h, e) ∈ kvs ∧ pe_expired e = false ∧ (pe_expiresAt e < now)%Z ∧
       r.1 !! h = Some (set_expired e).
Proof.
  revert plans t. induction kvs as [|[h' e] kvs IH]; intros plans t; simpl; [by left|].
  assert (∃ plans' t', expire_turn now (plans, t) (h', e) = (plans', t') ∧
    (plans' = plans ∨ pe_expired e = false ∧ (pe_expiresAt e < now)%Z ∧
                      plans' = <[h' := set_expired e]> plans)) as (plans' & t' & Et & Hp).
  { unfold expire_turn. destruct (pe_expired e) eqn:Ex; simpl; [eauto|].
    destruct (Z.ltb_spec (pe_expiresAt e) now); simpl; [|eauto].
    destruct (ct_writeLeaf _ _ _ _ _ _ t) as [[err|] t1]; eauto 10. }
  simpl in Et. rewrite Et.
  destruct (IH plans' t') as [->|(e2 & Hin & Hx2 & Hlt2 & Heq2)].
  - destruct Hp as [->|(Hx & Hlt & ->)]; [by left|].
    destruct (decide (h' = h)) as [->|Hne].
    + right. exists e. rewrite lookup_insert_eq. split_and!; auto. by left.
    + left. by rewrite lookup_insert_ne.
  - right. exists e2. split_and!; auto. by right.
Qed.

Lemma expire_fold_prefix now kvs plans t :
  t `prefix_of` (foldl (expire_turn now) (plans, t) kvs).2.
Proof.
  revert plans t. induction kvs as [|[h' e] kvs IH]; intros plans t; [done|].
  cbn [foldl]. destruct (expire_turn now (plans, t) (h', e)) as [plans' t'] eqn:Et.
  etransitivity; [|apply IH]. unfold expire_turn in Et. destruct (_ || _); [by simplify_eq|].
  pose proof (appendLeaf_prefix (cc_producer g) KindContract
    (planLeafRecord planEventExpire h' planStepNA Byte.x01 "ok") (UnixNano now) t) as HP.
  unfold ct_writeLeaf in Et. destruct (appendLeaf _ _ _ _ t) as [[err|] t1]; simplify_eq/=; [|done].
  etransitivity; [done|]. unfold tripStoreFault, call_alarm. destruct (cc_onTrip g); [by eexists|done].
Qed.

(** Deleting a list of keys. *)
Lemma delete_keys_lookup (l : list (bytes * planEntry)) (m : gmap bytes planEntry) h :
  foldl (λ m he, delete he.1 m) m l !! h = if bool_decide (h ∈ l.*1) then None else m !! h.
Proof.
  revert m. induction l as [|[k e] l IH]; intros m; [done|]. cbn [foldl].
  rewrite IH, fmap_cons. cbn [fst]. destruct (decide (k = h)) as [->|Hne].
  - rewrite lookup_delete_eq, (bool_decide_true (h ∈ h :: _)) by left. by case_bool_decide.
  - rewrite lookup_delete_ne by done. by rewrite (bool_decide_ext (h ∈ k :: l.*1) (h ∈ l.*1)) by set_solver.
Qed.

Lemma tombs_elem plans h e : (h, e) ∈ tombs plans ↔ plans !! h = Some e ∧ is_tomb e = true.
Proof.
  unfold tombs. rewrite list_elem_of_filter, map_range_perm, elem_of_map_to_list. simpl. tauto.
Qed.

(** The entries an eviction removes. *)
Definition evicted (plans : gmap bytes planEntry) : list (bytes * planEntry) :=
  take (length (tombs plans) - cc_maxTombstones g) (merge_sort tomb_le (tombs plans)).

Lemma evict_lookup plans h :
  evictTombstonesLocked plans !! h = if bool_decide (h ∈ (evicted plans).*1) then None else plans !! h.
Proof.
  unfold evictTombstonesLocked, evicted.
  destruct (Nat.leb_spec (length (tombs plans)) (cc_maxTombstones g)); [|apply delete_keys_lookup].
  replace (_ - _) with 0 by lia. done.
Qed.

Lemma evicted_tomb plans h : h ∈ (evicted plans).*1 → ∃ e, plans !! h = Some e ∧ is_tomb e = true.
Proof.
  intros ([h' e] & -> & Hin)%list_elem_of_fmap. unfold evicted in Hin.
  apply elem_of_take in Hin as (i & Hi & _). apply list_elem_of_lookup_2 in Hi.
  rewrite merge_sort_Permutation, tombs_elem in Hi. eauto.
Qed.

(** What expiry does to one entry. *)
Definition expiry_step (now : Z) (e e' : planEntry) : Prop :=
  e' = e ∨ pe_expired e = false ∧ (pe_expiresAt e < now)%Z ∧ e' = set_expired e.

Lemma expireLocked_back now s t h e' :
  ct_plans (expireLocked now s t).1 !! h = Some e' →
  ∃ e, ct_plans s !! h = Some e ∧ expiry_step now e e'.
Proof.
  unfold expireLocked.
  pose proof (expire_fold now (map_range (map_to_list (ct_plans s))) (ct_plans s) t h) as HF.
  destruct (foldl _ _ _) as [plans t1]. simpl in *. rewrite evict_lookup. case_bool_decide; [done|].
  intros He'. destruct HF as [HF|(e & Hin & Hx & Hlt & HF)]; rewrite He' in HF.
  - exists e'. split; [done|]. by left.
  - rewrite map_range_perm, elem_of_map_to_list in Hin. injection HF as ->.
    exists e. split; [done|]. right. auto.
Qed.

(** An entry that is not dead survives, unless its date is past. *)
Lemma expireLocked_forth now s t h e :
  ct_plans s !! h = Some e → is_tomb e = false →
  (∃ e', ct_plans (expireLocked now s t).1 !! h = Some e' ∧ expiry_step now e e') ∨
  (pe_expiresAt e < now)%Z ∧ ct_plans (expireLocked now s t).1 !! h = None.
Proof.
  intros He Ht. unfold expireLocked.
  pose proof (expire_fold now (map_range (map_to_list (ct_plans s))) (ct_plans s) t h) as HF.
  destruct (foldl _ _ _) as [plans t1]. simpl in *. rewrite evict_lookup.
  destruct HF as [HF|(e0 & Hin & Hx & Hlt & HF)].
  - rewrite HF. rewrite bool_decide_false.
    + left. exists e. split; [done|]. by left.
    + intros (e1 & He1 & Ht1)%evicted_tomb. congruence.
  - rewrite map_range_perm, elem_of_map_to_list, He in Hin. injection Hin as ->.
    case_bool_decide; [right; done|]. left. exists (set_expired e0). split; [done|]. right. auto.
Qed.

(** A date that has passed: the entry is marked, or the leaf of its expiry could not be written and the fault was raised. *)
Definition fault_raised (t t' : trace) : Prop :=
  cc_onTrip g = true → ∃ d, alarms_of t' = alarms_of t ++ d ∧ "plan-store-fault" ∈ d.

Lemma fault_raised_mono t t1 t2 t3 : t `prefix_of` t1 → t2 `prefix_of` t3 → fault_raised t1 t2 → fault_raised t t3.
Proof.
  intros [u ->] [w ->] HF Hp. destruct (HF Hp) as (d & E & Hd). rewrite alarms_of_app in E.
  exists (alarms_of u ++ d ++ alarms_of w). rewrite alarms_of_app, E, <-!app_assoc. set_solver.
Qed.

Lemma expire_fold_fault now kvs plans t h e :
  NoDup kvs.*1 → (h, e) ∈ kvs → pe_expired e = false → (pe_expiresAt e < now)%Z →
  let r := foldl (expire_turn now) (plans, t) kvs in
  r.1 !! h = Some (set_expired e) ∨ fault_raised t r.2.
Proof.
  revert plans t. induction kvs as [|[h' e'] kvs IH]; intros plans t HN Hin Hx Hd; [by apply elem_of_nil in Hin|]. cbn [foldl].
  apply NoDup_cons in HN as [Hh HN]. destruct (expire_turn now (plans, t) (h', e')) as [plans' t'] eqn:Et.
  assert (t `prefix_of` t') as HP by (pose proof (expire_fold_prefix now [(h', e')] plans t) as HP; cbn [foldl] in HP; by rewrite Et in HP).
  pose proof (expire_fold_prefix now kvs plans' t') as HP'. apply elem_of_cons in Hin as [[= <- <-]|Hin].
  - unfold expire_turn in Et. rewrite Hx, (proj2 (Z.ltb_lt _ _) Hd) in Et. cbn [orb negb] in Et.
    pose proof (appendLeaf_observed (cc_producer g) KindContract (planLeafRecord planEventExpire h planStepNA Byte.x01 "ok") (UnixNano now) t) as HO.
    unfold ct_writeLeaf in Et. destruct (appendLeaf _ _ _ _ t) as [[err|] t1]; simplify_eq.
    + right. apply (fault_raised_mono t t (tripStoreFault t1)); [done|done|]. intros Hp. exists ["plan-store-fault"].
      unfold tripStoreFault, call_alarm. rewrite Hp, alarms_of_app. destruct HO as (_ & -> & _). split; [done|by left].
    + left. destruct (expire_fold now kvs (<[h := set_expired e]> plans) t' h) as [->|(e2 & Hin2 & _)]; [by rewrite lookup_insert_eq|].
      destruct Hh. by apply list_elem_of_fmap; exists (h, e2).
  - destruct (IH plans' t' HN Hin Hx Hd) as [?|HF]; [by left|right]. by apply (fault_raised_mono t t' _ _ HP (reflexivity _)).
Qed.

(** What the pass leaves unmarked is not past its date, or a fault was raised. *)
Lemma expireLocked_unmarked now s t h e :
  ct_plans (expireLocked now s t).1 !! h = Some e → pe_expired e = false →
  (now ≤ pe_expiresAt e)%Z ∨ fault_raised t (expireLocked now s t).2.
Proof.
  intros He Hx. destruct (expireLocked_back now s t h e He) as (e0 & He0 & [->|(_ & _ & ->)]); [|done].
  destruct (Z.le_gt_cases now (pe_expiresAt e0)) as [?|Hd]; [by left|right]. unfold expireLocked in *.
  pose proof (expire_fold_fault now (map_range (map_to_list (ct_plans s))) (ct_plans s) t h e0) as HF.
  destruct (foldl _ _ _) as [plans t1]. cbn [fst snd ct_plans] in *. rewrite evict_lookup in He. case_bool_decide; [done|].
  destruct HF as [HF|?]; [| | |lia| |done].
  - rewrite (map_range_perm _). apply NoDup_fst_map_to_list.
  - rewrite map_range_perm. by apply elem_of_map_to_list.
  - done.
  - rewrite He in HF. injection HF as E. apply (f_equal pe_expired) in E. simpl in E. congruence.
Qed.

Lemma expireLocked_submissions now s t :
  ct_submissions (expireLocked now s t).1 = ct_submissions s.
Proof. unfold expireLocked. by destruct (foldl _ _ _). Qed.

Lemma expireLocked_prefix now s t : t `prefix_of` (expireLocked now s t).2.
Proof.
  unfold expireLocked.
  pose proof (expire_fold_prefix now (map_range (map_to_list (ct_plans s))) (ct_plans s) t).
  by destruct (foldl _ _ _).
Qed.

(** ** The life of a plan *)

(** The calls the broker and the operators make. *)
Inductive plan_op :=
  | PSubmit (subject : string) (steps : list PlanStep) (now : Z)
  | PSubmitSigned (subject : string) (steps : list PlanStep) (expiry : Z) (sig : bytes) (now : Z)
  | PApprove (planHash : bytes) (expiry : Z) (sigs : list bytes) (now : Z)
  | PRevoke (planHash : bytes) (expiry : Z) (sig : bytes) (now : Z)
  | PVerify (subject : string) (binding : bytes) (action resource : string) (now : Z).

Definition op_now (op : plan_op) : Z :=
  match op with
  | PSubmit _ _ now | PSubmitSigned _ _ _ _ now | PApprove _ _ _ now | PRevoke _ _ _ now
  | PVerify _ _ _ _ now => now
  end.

(** The store after a call, the trace, and the step it consumed. *)
Definition plan_apply (op : plan_op) (s : ContractStore) (t : trace) :
    option (bytes * PlanStep) * ContractStore * trace :=
  match op with
  | PSubmit subject steps now => let '(_, s1, t1) := Submit subject steps now s t in (None, s1, t1)
  | PSubmitSigned subject steps expiry sig now =>
      let '(_, s1, t1) := SubmitSigned subject steps expiry sig now s t in (None, s1, t1)
  | PApprove h expiry sigs now => let '(_, s1, t1) := ApproveAll h expiry sigs now s t in (None, s1, t1)
  | PRevoke h expiry sig now => let '(_, s1, t1) := Revoke h expiry sig now s t in (None, s1, t1)
  | PVerify subject binding action resource now =>
      let '(r, s1, t1) := VerifyStep subject binding action resource now s t in
      (match r, (parseBinding binding).2 with
       | inr h, Some params => Some (h, mkStep action resource (HashParams params))
       | _, _ => None
       end, s1, t1)
  end.

(** What happens to one entry after the expiry pass of a call. *)
Inductive entry_step (op : plan_op) (h : bytes) (s : ContractStore) (t : trace) :
    option (bytes * PlanStep) → planEntry → planEntry → Prop :=
  | es_same log e : (∀ st, log ≠ Some (h, st)) → entry_step op h s t log e e
  | es_approve e expiry sigs now approvers :
      op = PApprove h expiry sigs now → pe_status e = planStatusPending → pe_expired e = false →
      (MinApprovalTTL ≤ Sub expiry now ≤ cc_approvalTTL g)%Z →
      approval_loop e (ApprovalMessage h expiry) sigs [] = inr approvers →
      pe_required e ≤ length approvers →
      countStatusLocked planStatusApproved s < cc_maxApproved g →
      (approval_leaves h expiry (zip approvers sigs) now t).1 = None →
      entry_step op h s t None e (set_approved expiry e)
  | es_revoke e expiry sig now kid :
      op = PRevoke h expiry sig now → pe_status e ≠ planStatusRevoked → pe_expired e = false →
      (0 < Sub expiry now ≤ cc_approvalTTL g)%Z →
      signedBy (cc_revokerKeys g) (RevocationMessage h expiry) sig = Some kid →
      entry_step op h s t None e (set_revoked e)
  | es_consume e binding action resource now params want :
      op = PVerify (pe_subject e) binding action resource now →
      parseBinding binding = (h, Some params) →
      pe_status e = planStatusApproved → pe_expired e = false →
      pe_steps e !! pe_cursor e = Some want →
      want = mkStep action resource (HashParams params) →
      (ct_writeLeaf planEventConsume h (u16 (Z.of_nat (pe_cursor e))) Byte.x01 "ok" now t).1 = None →
      entry_step op h s t (Some (h, want)) e (advance e).

(** The calls whose form is refused before the store is touched. *)
Definition op_valid (op : plan_op) : bool :=
  match op with
  | PSubmit subject steps _ | PSubmitSigned subject steps _ _ _ => ValidatePlan subject steps
  | _ => true
  end.

Definition pre_store (op : plan_op) (s : ContractStore) (t : trace) : ContractStore * trace :=
  if op_valid op then expireLocked (op_now op) s t else (s, t).

(** The plan a submission adds. *)
Definition submits (op : plan_op) (h : bytes) (e : planEntry) (s : ContractStore) : Prop :=
  ∃ subject steps sub now,
    ValidatePlan subject steps = true ∧
    h = HashPlan (cc_cellID g) subject now (cc_policyID g) steps ∧
    e = new_plan subject steps sub now ∧ required_for subject ≤ approversApartFrom sub ∧
    countStatusLocked planStatusPending s < cc_maxPending g ∧
    ((op = PSubmit subject steps now ∧ sub = None ∧ cc_separate g = false) ∨
     ∃ kid expiry sig, op = PSubmitSigned subject steps expiry sig now ∧
       sub = Some (mkSigned kid expiry sig) ∧
       signedBy (cc_submitterKeys g) (SubmissionMessage (cc_cellID g) subject steps expiry) sig
         = Some kid).

Lemma submitLocked_plans subject steps sub now s t r s' t' :
  submitLocked subject steps sub now s t = (r, s', t') →
  ct_submissions s' = ct_submissions s ∧
  (ct_plans s' = ct_plans s ∨
   let h := HashPlan (cc_cellID g) subject now (cc_policyID g) steps in
   ct_plans s !! h = None ∧ ct_plans s' = <[h := new_plan subject steps sub now]> (ct_plans s) ∧
   required_for subject ≤ approversApartFrom sub ∧
   countStatusLocked planStatusPending s < cc_maxPending g).
Proof.
  unfold submitLocked. destruct (Nat.ltb_spec (approversApartFrom sub) (required_for subject)).
  { destruct (ct_refuse _ _ _ _ _ _ t). intros; simplify_eq. auto. }
  set (h := HashPlan _ _ _ _ _). case_bool_decide as Hex; simpl.
  { destruct (match sub with Some _ => _ | None => _ end) as [[e|] t1]; intros; simplify_eq; auto. }
  destruct (Nat.leb_spec (cc_maxPending g) (countStatusLocked planStatusPending s));
    [intros; simplify_eq; auto|].
  destruct (match sub with Some _ => _ | None => _ end) as [[e|] t1]; intros; simplify_eq; auto.
  split; [done|]. right. split_and!; try done. by apply eq_None_not_Some.
Qed.

(** One entry of the store after a call, against the store after its expiry pass. *)
Definition entry_outcome (op : plan_op) (h : bytes) (s1 : ContractStore) (t1 : trace)
    (log : option (bytes * PlanStep)) (s' : ContractStore) : Prop :=
  match ct_plans s1 !! h with
  | Some e => ∃ e', ct_plans s' !! h = Some e' ∧ entry_step op h s1 t1 log e e'
  | None => (∀ st, log ≠ Some (h, st)) ∧
            match ct_plans s' !! h with Some e' => submits op h e' s1 | None => True end
  end.

(** The whole store: unchanged, one entry moved, or one plan added. *)
Inductive store_outcome (op : plan_op) (s1 : ContractStore) (t1 : trace) (s' : ContractStore) :
    option (bytes * PlanStep) → Prop :=
  | so_same : ct_plans s' = ct_plans s1 → store_outcome op s1 t1 s' None
  | so_update log ph e e' :
      ct_plans s1 !! ph = Some e → ct_plans s' = <[ph := e']> (ct_plans s1) →
      entry_step op ph s1 t1 log e e' → (∀ h' st, log = Some (h', st) → h' = ph) →
      store_outcome op s1 t1 s' log
  | so_add ph e :
      ct_plans s1 !! ph = None → ct_plans s' = <[ph := e]> (ct_plans s1) → submits op ph e s1 →
      store_outcome op s1 t1 s' None.

Lemma store_outcome_entry op s1 t1 log s' h :
  store_outcome op s1 t1 s' log → entry_outcome op h s1 t1 log s'.
Proof.
  unfold entry_outcome. intros [Es|log' ph e e' He Es Hst Hl|ph e Hn Es Hs]; rewrite Es.
  - destruct (ct_plans s1 !! h); [|done]. eexists; split; [done|]. by constructor.
  - destruct (decide (h = ph)) as [->|Hne]; [rewrite He, lookup_insert_eq; eauto|].
    assert (∀ st, log' ≠ Some (h, st)) by (intros st ->; by apply Hne, (Hl h st)).
    rewrite lookup_insert_ne by done. destruct (ct_plans s1 !! h); [|done].
    eexists; split; [done|]. by constructor.
  - destruct (decide (h = ph)) as [->|Hne]; [by rewrite Hn, lookup_insert_eq|].
    rewrite lookup_insert_ne by done. destruct (ct_plans s1 !! h); [|done].
    eexists; split; [done|]. by constructor.
Qed.

Lemma Submit_outcome subject steps now s t r s' t' :
  Submit subject steps now s t = (r, s', t') →
  let '(s1, t1) := pre_store (PSubmit subject steps now) s t in
  store_outcome (PSubmit subject steps now) s1 t1 s' None.
Proof.
  unfold Submit, pre_store; simpl. destruct (ValidatePlan subject steps) eqn:Ev; simpl.
  2: { intros; simplify_eq. by apply so_same. }
  destruct (expireLocked now s t) as [s1 t1]. destruct (cc_separate g) eqn:Esep.
  { destruct (refuseSubmissionLocked _ _ _ _ _ _) as [er t2]. intros; simplify_eq. by apply so_same. }
  intros [_ [E|(Hn & E & Hr & Hc)]]%submitLocked_plans; [by apply so_same|].
  eapply so_add; [done..|]. exists subject, steps, None, now. split_and!; auto.
Qed.

Lemma SubmitSigned_outcome subject steps expiry sig now s t r s' t' :
  SubmitSigned subject steps expiry sig now s t = (r, s', t') →
  let '(s1, t1) := pre_store (PSubmitSigned subject steps expiry sig now) s t in
  store_outcome (PSubmitSigned subject steps expiry sig now) s1 t1 s' None.
Proof.
  unfold SubmitSigned, pre_store; simpl. destruct (ValidatePlan subject steps) eqn:Ev; simpl.
  2: { intros; simplify_eq. by apply so_same. }
  destruct (expireLocked now s t) as [s1 t1].
  destruct (_ || _)%Z.
  { destruct (refuseSubmissionLocked _ _ _ _ _ _) as [er t2]. intros; simplify_eq. by apply so_same. }
  destruct (signedBy (cc_submitterKeys g) _ sig) as [kid|] eqn:Ek.
  2: { destruct (signedBy (cc_operatorKeys g) _ sig);
         destruct (refuseSubmissionLocked _ _ _ _ _ _) as [er t2]; intros; simplify_eq; by apply so_same. }
  case_bool_decide.
  { destruct (refuseSubmissionLocked _ _ _ _ _ _) as [er t2]. intros; simplify_eq. by apply so_same. }
  match goal with |- context [if ?full then (inl ErrPlanStoreSaturated, _, _) else _] =>
    destruct full; [intros; simplify_eq; by apply so_same|] end.
  destruct (submitLocked _ _ _ _ _ t1) as [[r2 s2] t2] eqn:E.
  apply submitLocked_plans in E as [_ [E|(Hn & E & Hr & Hc)]];
    destruct r2; intros; simplify_eq/=; try by apply so_same.
  - eapply so_add; [done..|]. exists subject, steps, (Some (mkSigned kid expiry sig)), now.
    split_and!; auto. right. eauto 10.
  - eapply so_add; [done..|]. exists subject, steps, (Some (mkSigned kid expiry sig)), now.
    split_and!; auto. right. eauto 10.
Qed.

Lemma ApproveAll_outcome ph expiry sigs now s t r s' t' :
  ApproveAll ph expiry sigs now s t = (r, s', t') →
  let '(s1, t1) := expireLocked now s t in
  store_outcome (PApprove ph expiry sigs now) s1 t1 s' None.
Proof.
  unfold ApproveAll. destruct (expireLocked now s t) as [s1 t1].
  assert (∀ reason err t0 r s' t', (let '(e, t2) := refuseApprovalLocked ph reason err now t0 in
    (Some e, s1, t2)) = (r, s', t') → store_outcome (PApprove ph expiry sigs now) s1 t1 s' None) as HR.
  { intros reason err t0 r0 s0 t2. destruct (refuseApprovalLocked _ _ _ _ t0). intros; simplify_eq.
    by apply so_same. }
  destruct (ct_plans s1 !! ph) as [e|] eqn:Ee; [|apply HR].
  destruct (pe_expired e) eqn:Ex; [apply HR|].
  case_bool_decide as Hp; simpl; [|apply HR].
  destruct (Z.ltb_spec (Sub expiry now) MinApprovalTTL); simpl; [apply HR|].
  destruct (Z.ltb_spec (cc_approvalTTL g) (Sub expiry now)); [apply HR|].
  destruct (_ || _); [apply HR|].
  destruct (approval_loop e _ sigs []) as [[reason err]|approvers] eqn:El; [apply HR|].
  destruct (Nat.ltb_spec (length approvers) (pe_required e)); [apply HR|].
  destruct (Nat.leb_spec (cc_maxApproved g) (countStatusLocked planStatusApproved s1)); [apply HR|].
  destruct (approval_leaves _ _ _ _ t1) as [[err|] t2] eqn:Ea; intros; simplify_eq; [by apply so_same|].
  apply (so_update _ _ _ _ _ ph e (set_approved expiry e)); [done|done| |done].
  eapply es_approve; eauto. by rewrite Ea.
Qed.

Lemma Revoke_outcome ph expiry sig now s t r s' t' :
  Revoke ph expiry sig now s t = (r, s', t') →
  let '(s1, t1) := expireLocked now s t in
  store_outcome (PRevoke ph expiry sig now) s1 t1 s' None.
Proof.
  unfold Revoke. destruct (expireLocked now s t) as [s1 t1].
  assert (∀ reason err r s' t', (let '(e, t2) := refuseRevocationLocked ph reason err now t1 in
    (Some e, s1, t2)) = (r, s', t') → store_outcome (PRevoke ph expiry sig now) s1 t1 s' None) as HR.
  { intros reason err r0 s0 t2. destruct (refuseRevocationLocked _ _ _ _ t1). intros; simplify_eq.
    by apply so_same. }
  destruct (ct_plans s1 !! ph) as [e|] eqn:Ee; [|apply HR].
  case_bool_decide as Hp; simpl; [apply HR|]. destruct (pe_expired e) eqn:Ex; [apply HR|].
  destruct (Z.leb_spec (Sub expiry now) 0); simpl; [apply HR|].
  destruct (Z.ltb_spec (cc_approvalTTL g) (Sub expiry now)); [apply HR|].
  destruct (signedBy (cc_revokerKeys g) _ sig) as [kid|] eqn:Ek;
    [|destruct (signedBy (cc_operatorKeys g) _ sig); apply HR].
  destruct (ct_writeSignedLeaf _ _ _ _ _ _ t1) as [[err|] t2]; intros; simplify_eq; [by apply so_same|].
  apply (so_update _ _ _ _ _ ph e (set_revoked e)); [done|done| |done].
  eapply es_revoke; eauto.
Qed.

Lemma VerifyStep_cases subject binding action resource now s t :
  let '(s1, t1) := expireLocked now s t in
  match VerifyStep subject binding action resource now s t with
  | (inr h, s', t') =>
      ∃ e params, parseBinding binding = (h, Some params) ∧ ct_plans s1 !! h = Some e ∧
        pe_subject e = subject ∧ pe_status e = planStatusApproved ∧ pe_expired e = false ∧
        pe_steps e !! pe_cursor e = Some (mkStep action resource (HashParams params)) ∧
        s' = insert_plan h (advance e) s1 ∧
        ct_writeLeaf planEventConsume h (u16 (Z.of_nat (pe_cursor e))) Byte.x01 "ok" now t1 = (None, t')
  | (inl _, s', _) => s' = s1
  end.
Proof.
  unfold VerifyStep. destruct (expireLocked now s t) as [s1 t1].
  destruct (parseBinding binding) as [ph parsed] eqn:Eb.
  unfold writeRefusalLocked. destruct parsed as [params|]; [|by destruct (ct_refuse _ _ _ _ _ _ t1)].
  destruct (ct_plans s1 !! ph) as [e|] eqn:Ee; [|by destruct (ct_refuse _ _ _ _ _ _ t1)].
  case_bool_decide as Hsub; [by destruct (ct_refuse _ _ _ _ _ _ t1)|].
  destruct (pe_expired e) eqn:Ex; [by destruct (ct_refuse _ _ _ _ _ _ t1)|].
  destruct (pe_status e) eqn:Est;
    [by destruct (ct_refuse _ _ _ _ _ _ t1)| |by destruct (ct_refuse _ _ _ _ _ _ t1)].
  destruct (pe_steps e !! pe_cursor e) as [want|] eqn:Ew; [|by destruct (ct_refuse _ _ _ _ _ _ t1)].
  case_bool_decide as Hw; [by destruct (ct_refuse _ _ _ _ _ _ t1)|].
  rewrite (proj2 (Nat.ltb_lt _ _)) by by eapply lookup_lt_Some.
  destruct (ct_writeLeaf _ _ _ _ _ _ t1) as [[err|] t2] eqn:El; [done|].
  exists e, params. split_and!; auto. rewrite Ew. destruct want as [wa wr wp]; simpl in *.
  apply Decidable.not_or in Hw as [?%dec_stable [?%dec_stable ?%dec_stable]%Decidable.not_or].
  congruence.
Qed.

(** What [VerifyStep] asks of the plan under its binding. *)
Definition grantable (s1 : ContractStore) (subject : string) (binding : bytes)
    (action resource : string) (h : bytes) (e : planEntry) (params : bytes) : Prop :=
  parseBinding binding = (h, Some params) ∧ ct_plans s1 !! h = Some e ∧
  pe_subject e = subject ∧ pe_status e = planStatusApproved ∧ pe_expired e = false ∧
  pe_steps e !! pe_cursor e = Some (mkStep action resource (HashParams params)).

Lemma VerifyStep_grants subject binding action resource now s t h e params :
  let '(s1, t1) := expireLocked now s t in
  grantable s1 subject binding action resource h e params →
  (ct_writeLeaf planEventConsume h (u16 (Z.of_nat (pe_cursor e))) Byte.x01 "ok" now t1).1 = None →
  (VerifyStep subject binding action resource now s t).1.1 = inr h.
Proof.
  unfold VerifyStep. destruct (expireLocked now s t) as [s1 t1].
  intros (Hb & He & Hs & Hst & Hx & Hw) Hl. rewrite Hb, He.
  rewrite bool_decide_false by congruence. rewrite Hx, Hst, Hw.
  rewrite bool_decide_false by (simpl; naive_solver).
  rewrite (proj2 (Nat.ltb_lt _ _)) by by eapply lookup_lt_Some.
  destruct (ct_writeLeaf _ _ _ _ _ _ t1) as [[err|] t2]; done.
Qed.

Lemma VerifyStep_outcome subject binding action resource now s t r s' t' :
  VerifyStep subject binding action resource now s t = (r, s', t') →
  let '(s1, t1) := expireLocked now s t in
  store_outcome (PVerify subject binding action resource now) s1 t1 s'
    match r, (parseBinding binding).2 with
    | inr h, Some params => Some (h, mkStep action resource (HashParams params))
    | _, _ => None
    end.
Proof.
  intros E. pose proof (VerifyStep_cases subject binding action resource now s t) as HC.
  rewrite E in HC. destruct (expireLocked now s t) as [s1 t1].
  destruct r as [err|h]; [subst; by apply so_same|].
  destruct HC as (e & params & Hb & He & Hs & Hst & Hx & Hw & -> & Hl). rewrite Hb. cbn [snd].
  apply (so_update _ _ _ _ _ h e (advance e)); [done|done| |congruence].
  eapply es_consume; eauto; [by subst|]. by rewrite Hl.
Qed.

(** Every call, on every entry. *)
Lemma plan_apply_outcome op s t log s' t' :
  plan_apply op s t = (log, s', t') →
  let '(s1, t1) := pre_store op s t in store_outcome op s1 t1 s' log.
Proof.
  destruct op as [subject steps now|subject steps expiry sig now
    |ph expiry sigs now|ph expiry sig now|subject binding action resource now]; simpl.
  - destruct (Submit _ _ _ s t) as [[r s2] t2] eqn:E. intros; simplify_eq.
    by apply (Submit_outcome _ _ _ _ _ r _ t').
  - destruct (SubmitSigned _ _ _ _ _ s t) as [[r s2] t2] eqn:E. intros; simplify_eq.
    by apply (SubmitSigned_outcome _ _ _ _ _ _ _ r _ t').
  - destruct (ApproveAll _ _ _ _ s t) as [[r s2] t2] eqn:E. intros; simplify_eq.
    by apply (ApproveAll_outcome _ _ _ _ _ _ r _ t').
  - destruct (Revoke _ _ _ _ s t) as [[r s2] t2] eqn:E. intros; simplify_eq.
    by apply (Revoke_outcome _ _ _ _ _ _ r _ t').
  - destruct (VerifyStep _ _ _ _ _ s t) as [[r s2] t2] eqn:E. intros; simplify_eq.
    by apply (VerifyStep_outcome _ _ _ _ _ _ _ r _ t').
Qed.

(** The expiry pass of a call on one entry. *)
Lemma pre_store_entry op s t h e' :
  ct_plans (pre_store op s t).1 !! h = Some e' →
  ∃ e, ct_plans s !! h = Some e ∧ expiry_step (op_now op) e e'.
Proof.
  unfold pre_store. destruct (op_valid op); [apply expireLocked_back|].
  simpl. intros He. exists e'. split; [done|]. by left.
Qed.

(** ** Runs in which a plan stays in the store *)

Definition steps_of (h : bytes) (log : option (bytes * PlanStep)) : list PlanStep :=
  match log with Some (h', st) => if bool_decide (h' = h) then [st] else [] | None => [] end.

(** [plan_runs h s t l s' t']: a sequence of calls leads from the first store to the second,
    the plan [h] is in the store after each, and [l] are the steps consumed for [h]. *)
Inductive plan_runs (h : bytes) : ContractStore → trace → list PlanStep → ContractStore → trace → Prop :=
  | runs_nil s t : plan_runs h s t [] s t
  | runs_cons op s t log s1 t1 l s2 t2 :
      plan_apply op s t = (log, s1, t1) → is_Some (ct_plans (pre_store op s t).1 !! h) →
      plan_runs h s1 t1 l s2 t2 → plan_runs h s t (steps_of h log ++ l) s2 t2.

Lemma entry_step_cursor op h s t log e e' :
  entry_step op h s t log e e' → (pe_status e = planStatusPending → pe_cursor e = 0) →
  pe_subject e' = pe_subject e ∧ pe_steps e' = pe_steps e ∧
  (pe_status e' = planStatusPending → pe_cursor e' = 0) ∧
  take (pe_cursor e') (pe_steps e) = take (pe_cursor e) (pe_steps e) ++ steps_of h log.
Proof.
  intros Hs H0'. destruct Hs as [log e Hl|e expiry sigs now approvers -> Hst|e expiry sig now kid|
    e binding action resource now params want -> Hb Hst Hx Hw]; simpl.
  - split_and!; auto. unfold steps_of. destruct log as [[h' st]|]; [|by rewrite app_nil_r].
    case_bool_decide; [subst; by destruct (Hl st)|by rewrite app_nil_r].
  - split_and!; auto. rewrite (H0' Hst). done.
  - split_and!; auto; [done|by rewrite app_nil_r].
  - split_and!; auto; [congruence|]. rewrite bool_decide_true by done.
    rewrite Nat.add_1_r. by apply take_S_r.
Qed.

Lemma plan_runs_cursor h s t l s' t' e :
  plan_runs h s t l s' t' → ct_plans s !! h = Some e →
  (pe_status e = planStatusPending → pe_cursor e = 0) →
  ∃ e', ct_plans s' !! h = Some e' ∧ pe_subject e' = pe_subject e ∧ pe_steps e' = pe_steps e ∧
        take (pe_cursor e') (pe_steps e) = take (pe_cursor e) (pe_steps e) ++ l.
Proof.
  intros Hr. revert e. induction Hr as [s t|op s t log s1 t1 l s2 t2 Ha [e1 He1] Hr IH]; intros e He H0'.
  { exists e. by rewrite app_nil_r. }
  destruct (pre_store_entry op s t h e1 He1) as (e0 & He0 & Hx). rewrite He in He0. injection He0 as <-.
  assert (pe_subject e1 = pe_subject e ∧ pe_steps e1 = pe_steps e ∧ pe_cursor e1 = pe_cursor e ∧
    pe_status e1 = pe_status e) as (E1 & E2 & E3 & E4)
    by (destruct Hx as [->|(_ & _ & ->)]; done).
  pose proof (plan_apply_outcome op s t log s1 t1 Ha) as HO.
  destruct (pre_store op s t) as [sp tp]. apply (store_outcome_entry _ _ _ _ _ h) in HO. simpl in He1. unfold entry_outcome in HO. rewrite He1 in HO.
  destruct HO as (e2 & He2 & Hst). apply entry_step_cursor in Hst as (F1 & F2 & F3 & F4);
    [|by rewrite E3, E4]. rewrite E2, E3 in F4.
  destruct (IH e2 He2 F3) as (e3 & He3 & G1 & G2 & G3). exists e3.
  split_and!; try congruence. rewrite F2, E2, F4, <-app_assoc in G3. done.
Qed.

(** ** Lemmas on signatures *)

Lemma signedBy_Some keys msg sig kid :
  signedBy keys msg sig = Some kid →
  ∃ pub, pub ∈ keys ∧ ed25519_verify pub msg sig = true ∧ kid = KeyIDFromPublicKey pub.
Proof.
  induction keys as [|pub keys IH]; simpl; [done|].
  destruct (ed25519_verify pub msg sig) eqn:E.
  - intros [= <-]. exists pub. split_and!; auto. left.
  - intros (p & ? & ? & ?)%IH. exists p. split_and!; auto. by right.
Qed.

Lemma approval_loop_inr e msg sigs seen out :
  approval_loop e msg sigs seen = inr out → NoDup seen →
  NoDup out ∧ ∃ kids, out = seen ++ kids ∧
    Forall2 (λ kid sig, signedBy (cc_approverKeys g) msg sig = Some kid ∧
                        pe_submitter e ≠ Some kid) kids sigs.
Proof.
  revert seen. induction sigs as [|sig sigs IH]; intros seen; simpl.
  { intros [= <-] Hnd. split; [done|]. exists []. by rewrite app_nil_r. }
  destruct (signedBy (cc_approverKeys g) msg sig) as [kid|] eqn:Ek;
    [|by destruct (signedBy (cc_operatorKeys g) msg sig)].
  case_bool_decide as Hs; [done|]. case_bool_decide as Hin; [done|]. intros HL Hnd.
  destruct (IH (seen ++ [kid]) HL) as (Hnd' & kids & -> & HF).
  { apply NoDup_app. split_and!; [done| |apply NoDup_singleton].
    intros x Hx ->%list_elem_of_singleton. done. }
  split; [done|]. exists (kid :: kids). rewrite <-app_assoc. split; [done|]. by constructor.
Qed.

(** The attributed leaf of an approval. *)
Definition approval_leaf (h : bytes) (expiry now : Z) (ks : bytes * bytes) : Leaf :=
  leaf_for (cc_producer g) KindContract (planSignedRecord planEventApprove h ks.1 expiry ks.2)
    (UnixNano now).

Lemma approval_leaves_ok h expiry kss now t :
  (approval_leaves h expiry kss now t).1 = None →
  leaves_of (approval_leaves h expiry kss now t).2 =
    leaves_of t ++ (approval_leaf h expiry now <$> kss).
Proof.
  revert t. induction kss as [|[kid sig] kss IH]; intros t; simpl; [by rewrite app_nil_r|].
  unfold ct_writeSignedLeaf.
  destruct (appendLeaf_spec (cc_producer g) KindContract
    (planSignedRecord planEventApprove h kid expiry sig) (UnixNano now) t) as (d & Ed & W).
  destruct (appendLeaf _ _ _ _ t) as [[e|] t1]; [done|]. simpl in *. subst t1. intros Hok.
  rewrite IH by done. rewrite leaves_of_app, <-app_assoc. f_equal.
  destruct W as [-> _]. by destruct (p_journal _).
Qed.

Lemma ct_writeLeaf_leaves event h step verdict reason now t t' :
  ct_writeLeaf event h step verdict reason now t = (None, t') →
  leaves_of t' = leaves_of t ++
    [leaf_for (cc_producer g) KindContract (planLeafRecord event h step verdict reason) (UnixNano now)].
Proof.
  unfold ct_writeLeaf. intros E.
  destruct (appendLeaf_spec (cc_producer g) KindContract (planLeafRecord event h step verdict reason)
    (UnixNano now) t) as (d & Ed & W). rewrite E in Ed, W. simpl in *. subst t'.
  rewrite leaves_of_app. f_equal. destruct W as [-> _]. by destruct (p_journal _).
Qed.

(** ** Sizes *)

Definition count_plans (P : planEntry → bool) (m : gmap bytes planEntry) : nat :=
  size (filter (λ he, P he.2 = true) m).

Lemma count_insert P m h e :
  count_plans P (<[h := e]> m) ≤ count_plans P m + (if P e then 1 else 0).
Proof.
  unfold count_plans. rewrite map_filter_insert. simpl. case_decide as Hd.
  - rewrite Hd. rewrite map_size_insert. destruct (_ !! h); simpl; lia.
  - destruct (P e); [done|]. rewrite Nat.add_0_r. apply map_subseteq_size.
    apply map_filter_strong_subseteq_ext. intros k x. simpl.
    intros [HP Hl]. split; [done|]. by apply lookup_delete_Some in Hl as [_ ?].
Qed.

Lemma count_mono (P : planEntry → bool) (m m' : gmap bytes planEntry) :
  (∀ h e, m' !! h = Some e → P e = true → m !! h = Some e) → count_plans P m' ≤ count_plans P m.
Proof.
  intros Hsub. unfold count_plans. apply map_subseteq_size.
  apply map_subseteq_spec. intros h e [Hl HP]%map_lookup_filter_Some.
  apply map_lookup_filter_Some. eauto.
Qed.

Lemma size_union_le (X Y : gset bytes) : size (X ∪ Y) ≤ size X + size Y.
Proof.
  rewrite size_union_alt. pose proof (subseteq_size (Y ∖ X) Y ltac:(set_solver)). lia.
Qed.

Lemma size_list_to_set_le (l : list bytes) : size (list_to_set l : gset bytes) ≤ length l.
Proof.
  induction l as [|x l IH]; [done|]. rewrite list_to_set_cons.
  pose proof (size_union_le {[x]} (list_to_set l)) as HU. rewrite size_singleton in HU. simpl. lia.
Qed.

(** An eviction leaves at most [maxTombstones] dead entries. *)
Lemma evict_tombs m : count_plans is_tomb (evictTombstonesLocked m) ≤ cc_maxTombstones g.
Proof.
  set (k := length (tombs m) - cc_maxTombstones g).
  set (rest := drop k (merge_sort tomb_le (tombs m))).
  assert (length rest ≤ cc_maxTombstones g) as HL.
  { unfold rest. rewrite length_drop, (Permutation_length (merge_sort_Permutation tomb_le (tombs m))).
    lia. }
  etransitivity; [|exact HL]. unfold count_plans. rewrite <-size_dom, <-(length_fmap fst rest).
  etransitivity; [|apply size_list_to_set_le]. apply subseteq_size. intros h Hh.
  apply elem_of_dom in Hh as [e [He Ht]%map_lookup_filter_Some]. simpl in Ht.
  rewrite evict_lookup in He. case_bool_decide as Hev; [done|].
  apply elem_of_list_to_set, list_elem_of_fmap. exists (h, e). split; [done|].
  assert ((h, e) ∈ merge_sort tomb_le (tombs m)) as Hin
    by (rewrite merge_sort_Permutation, tombs_elem; done).
  rewrite <-(take_drop k) in Hin. apply elem_of_app in Hin as [Hin|Hin]; [|done].
  destruct Hev. apply list_elem_of_fmap. exists (h, e). done.
Qed.

Definition is_live (st : plan_status) (e : planEntry) : bool :=
  bool_decide (pe_status e = st) && negb (pe_expired e).

Lemma countStatus_count st s : countStatusLocked st s = count_plans (is_live st) (ct_plans s).
Proof.
  unfold countStatusLocked, count_plans. f_equal. apply map_filter_ext. intros h e _. simpl.
  unfold is_live. rewrite andb_true_iff, bool_decide_eq_true, negb_true_iff. done.
Qed.

(** The bounds of the store. *)
Definition store_bounded (s : ContractStore) : Prop :=
  count_plans (is_live planStatusPending) (ct_plans s) ≤ cc_maxPending g ∧
  count_plans (is_live planStatusApproved) (ct_plans s) ≤ cc_maxApproved g ∧
  count_plans is_tomb (ct_plans s) ≤ cc_maxTombstones g + 1.

Lemma expireLocked_counts now s t :
  store_bounded s →
  store_bounded (expireLocked now s t).1 ∧
  count_plans is_tomb (ct_plans (expireLocked now s t).1) ≤ cc_maxTombstones g.
Proof.
  intros (HP & HA & HT).
  assert (∀ st, count_plans (is_live st) (ct_plans (expireLocked now s t).1) ≤
                count_plans (is_live st) (ct_plans s)) as HC.
  { intros st. apply count_mono. intros h e' He' Hl.
    destruct (expireLocked_back now s t h e' He') as (e & He & [->|(_ & _ & ->)]); [done|].
    unfold is_live in Hl. simpl in Hl. by rewrite andb_false_r in Hl. }
  assert (count_plans is_tomb (ct_plans (expireLocked now s t).1) ≤ cc_maxTombstones g) as HE.
  { unfold expireLocked. destruct (foldl _ _ _). apply evict_tombs. }
  pose proof (HC planStatusPending). pose proof (HC planStatusApproved).
  split; [|done]. unfold store_bounded. lia.
Qed.

(** Every entry is live in one of two ways, or dead. *)
Lemma size_split (m : gmap bytes planEntry) :
  size m ≤ count_plans (is_live planStatusPending) m + count_plans (is_live planStatusApproved) m
           + count_plans is_tomb m.
Proof.
  unfold count_plans. rewrite <-!size_dom.
  etransitivity; [|apply Nat.add_le_mono; [apply size_union_le|reflexivity]].
  etransitivity; [|apply size_union_le]. apply subseteq_size. intros h [e He]%elem_of_dom.
  rewrite !elem_of_union, !elem_of_dom.
  destruct (is_tomb e) eqn:Et; [right; exists e; by apply map_lookup_filter_Some|left].
  unfold is_tomb in Et. apply orb_false_iff in Et as [Ex Er].
  apply bool_decide_eq_false in Er.
  destruct (pe_status e) eqn:Es; [left|right|done];
    exists e; apply map_lookup_filter_Some; (split; [done|]); unfold is_live; simpl; by rewrite Es, Ex.
Qed.

Lemma entry_step_counts op h s t log e e' :
  entry_step op h s t log e e' →
  (is_live planStatusPending e' = true → is_live planStatusPending e = true) ∧
  (is_live planStatusApproved e' = true → is_live planStatusApproved e = true ∨
     countStatusLocked planStatusApproved s < cc_maxApproved g).
Proof.
  intros Hs. destruct Hs as [log e Hl|e expiry sigs now approvers ? ? ? ? ? ? Hc|e expiry sig now kid|
    e binding action resource now params want -> Hb Hst Hx Hw]; unfold is_live; simpl; auto;
    (split; [done|]); auto; done.
Qed.

(** Replacing an entry by one that is not newly counted does not raise a count. *)
Lemma count_replace P m h e e' :
  m !! h = Some e → (P e' = true → P e = true) → count_plans P (<[h := e']> m) ≤ count_plans P m.
Proof.
  intros He HP. unfold count_plans. rewrite <-!size_dom. apply subseteq_size. intros k.
  rewrite !elem_of_dom. intros [x [Hx Hp]%map_lookup_filter_Some]. simpl in Hp.
  apply lookup_insert_Some in Hx as [[<- <-]|[Hne Hx]].
  - exists e. apply map_lookup_filter_Some. auto.
  - exists x. by apply map_lookup_filter_Some.
Qed.

Lemma plan_apply_bounded op s t :
  store_bounded s → store_bounded (plan_apply op s t).1.2.
Proof.
  intros HB. destruct (plan_apply op s t) as [[log s'] t'] eqn:E.
  pose proof (plan_apply_outcome op s t log s' t' E) as HO. simpl.
  assert (store_bounded (pre_store op s t).1 ∧ (op_valid op = true →
    count_plans is_tomb (ct_plans (pre_store op s t).1) ≤ cc_maxTombstones g)) as [HB1 HT1].
  { unfold pre_store. destruct (op_valid op); [|done].
    destruct (expireLocked_counts (op_now op) s t HB). auto. }
  destruct (pre_store op s t) as [s1 t1]. simpl in *. destruct HB1 as (HP & HA & HT).
  destruct HO as [Es|log ph e e' He Es Hst _|ph e Hn Es Hs]; unfold store_bounded; rewrite Es; [done| |].
  - destruct (entry_step_counts _ _ _ _ _ _ _ Hst) as [LP LA]. split_and!.
    + etransitivity; [|exact HP]. by eapply count_replace.
    + destruct (is_live planStatusApproved e') eqn:El.
      * destruct (LA eq_refl) as [Hl|Hlt].
        -- etransitivity; [|exact HA]. by apply (count_replace _ _ _ e).
        -- rewrite countStatus_count in Hlt. pose proof (count_insert (is_live planStatusApproved) (ct_plans s1) ph e').
           rewrite El in *. lia.
      * etransitivity; [|exact HA]. apply (count_replace _ _ _ e); [done|congruence].
    + assert (op_valid op = true ∨ is_tomb e' = is_tomb e) as [Hv|Heq].
      { destruct Hst; subst; auto. }
      * pose proof (count_insert is_tomb (ct_plans s1) ph e'). specialize (HT1 Hv). case_match; lia.
      * etransitivity; [|exact HT]. apply (count_replace _ _ _ e); [done|congruence].
  - destruct Hs as (subject & steps & sub & now & Hval & -> & -> & _ & Hc & _).
    rewrite countStatus_count in Hc. set (h := HashPlan _ _ _ _ _).
    pose proof (count_insert (is_live planStatusPending) (ct_plans s1) h (new_plan subject steps sub now)) as C1.
    pose proof (count_insert (is_live planStatusApproved) (ct_plans s1) h (new_plan subject steps sub now)) as C2.
    pose proof (count_insert is_tomb (ct_plans s1) h (new_plan subject steps sub now)) as C3.
    simpl in C1, C2, C3. split_and!; lia.
Qed.

Fixpoint plan_run (ops : list plan_op) (s : ContractStore) (t : trace) : ContractStore * trace :=
  match ops with
  | [] => (s, t)
  | op :: ops' => let '(_, s1, t1) := plan_apply op s t in plan_run ops' s1 t1
  end.

Lemma plan_run_bounded ops s t : store_bounded s → store_bounded (plan_run ops s t).1.
Proof.
  revert s t. induction ops as [|op ops IH]; intros s t HB; simpl; [done|].
  pose proof (plan_apply_bounded op s t HB). destruct (plan_apply op s t) as [[log s1] t1]. by apply IH.
Qed.

(** ** Properties *)

(** C19: steps are consumed in order, each once. As long as a plan stays in the store, that is
    until it is evicted as a tombstone after its end, whatever calls are made, the steps consumed
    for it are exactly the steps of the plan from the cursor on, in their order and without
    repetition; its subject and its steps never change. An evicted plan that is submitted again
    begins at its first step. *)
Theorem plan_steps_in_order h s t l s' t' e :
  plan_runs h s t l s' t' → ct_plans s !! h = Some e →
  (pe_status e = planStatusPending → pe_cursor e = 0) →
  ∃ e', ct_plans s' !! h = Some e' ∧ pe_subject e' = pe_subject e ∧ pe_steps e' = pe_steps e ∧
        take (pe_cursor e') (pe_steps e) = take (pe_cursor e) (pe_steps e) ++ l.
Proof. apply plan_runs_cursor. Qed.


(** C4: an approval is a quorum of distinct operators other than the submitter. When
    [ApproveAll] succeeds, the plan was pending and alive, its expiry lies in the allowed
    window, every signature verifies under a pinned approver key over this plan and this
    expiry, the signers are pairwise distinct, none is the submitter, they number at least
    what the submission fixed, and one attributed leaf per signer was written before the
    plan became active. *)
Theorem approval_needs_distinct_operators h expiry sigs now s t s' t' :
  ApproveAll h expiry sigs now s t = (None, s', t') →
  let '(s1, t1) := expireLocked now s t in
  ∃ e kids, ct_plans s1 !! h = Some e ∧ pe_status e = planStatusPending ∧ pe_expired e = false ∧
    ct_plans s' = <[h := set_approved expiry e]> (ct_plans s1) ∧
    (MinApprovalTTL ≤ Sub expiry now ≤ cc_approvalTTL g)%Z ∧
    NoDup kids ∧ pe_required e ≤ length kids ∧
    (∀ kid, kid ∈ kids → pe_submitter e ≠ Some kid) ∧
    Forall2 (λ kid sig, ∃ pub, pub ∈ cc_approverKeys g ∧ kid = KeyIDFromPublicKey pub ∧
               ed25519_verify pub (ApprovalMessage h expiry) sig = true) kids sigs ∧
    leaves_of t' = leaves_of t1 ++ (approval_leaf h expiry now <$> zip kids sigs).
Proof.
  intros E.
  unfold ApproveAll in E. destruct (expireLocked now s t) as [s1 t1]. unfold refuseApprovalLocked in E.
  destruct (ct_plans s1 !! h) as [e|] eqn:Ee; [|by destruct (ct_refuse _ _ _ _ _ _ t1)].
  destruct (pe_expired e) eqn:Ex; [by destruct (ct_refuse _ _ _ _ _ _ t1)|].
  case_bool_decide as Hp; simpl in E; [|by destruct (ct_refuse _ _ _ _ _ _ t1)].
  destruct (Z.ltb_spec (Sub expiry now) MinApprovalTTL); simpl in E;
    [by destruct (ct_refuse _ _ _ _ _ _ t1)|].
  destruct (Z.ltb_spec (cc_approvalTTL g) (Sub expiry now)); [by destruct (ct_refuse _ _ _ _ _ _ t1)|].
  destruct (_ || _); [by destruct (ct_refuse _ _ _ _ _ _ t1)|].
  destruct (approval_loop e _ sigs []) as [[reason err]|kids] eqn:El;
    [by destruct (ct_refuse _ _ _ _ _ _ t1)|].
  destruct (Nat.ltb_spec (length kids) (pe_required e)); [by destruct (ct_refuse _ _ _ _ _ _ t1)|].
  destruct (_ <=? _); [by destruct (ct_refuse _ _ _ _ _ _ (tripSaturated t1))|].
  pose proof (approval_leaves_ok h expiry (zip kids sigs) now t1) as HL.
  destruct (approval_leaves _ _ _ _ t1) as [[err|] t2]; simplify_eq/=.
  apply approval_loop_inr in El as (Hnd & kids' & -> & HF); [|constructor]. simpl in *.
  exists e, kids'. split_and!; auto.
  - intros kid Hin. apply list_elem_of_lookup in Hin as [i Hi].
    destruct (Forall2_lookup_l _ _ _ _ _ HF Hi) as (sig & _ & _ & ?). done.
  - eapply Forall2_impl; [done|]. intros kid sig [(pub & ? & ? & ?)%signedBy_Some _]. eauto.
Qed.

(** The store is bounded. From a store within its bounds, no sequence of calls makes
    the live pending plans exceed [maxPending], the live approved ones [maxApproved], or the
    whole store [maxPending + maxApproved + maxTombstones + 1] entries. *)
Theorem plan_store_bounded ops s t :
  store_bounded s →
  store_bounded (plan_run ops s t).1 ∧
  size (ct_plans (plan_run ops s t).1) ≤ cc_maxPending g + cc_maxApproved g + cc_maxTombstones g + 1.
Proof.
  intros HB. pose proof (plan_run_bounded ops s t HB) as HR. split; [done|].
  pose proof (size_split (ct_plans (plan_run ops s t).1)). destruct HR as (? & ? & ?). lia.
Qed.

(** ** Signed submissions *)

Lemma SubmitSigned_submissions subject steps expiry sig now s t r s' t' d u :
  SubmitSigned subject steps expiry sig now s t = (r, s', t') →
  ct_submissions s !! d = Some u → (now < u)%Z → ct_submissions s' !! d = Some u.
Proof.
  intros E Hd Hu. unfold SubmitSigned in E.
  destruct (ValidatePlan subject steps); cbn [negb] in E; [|by simplify_eq].
  pose proof (expireLocked_submissions now s t) as HS.
  destruct (expireLocked now s t) as [s1 t1]. simpl in HS. rewrite <-HS in Hd.
  assert (ct_submissions (purge_submissions now s1) !! d = Some u) as Hp
    by (apply map_lookup_filter_Some; done).
  unfold refuseSubmissionLocked in E.
  destruct (_ || _)%Z; [destruct (ct_refuse _ _ _ _ _ _ t1); by simplify_eq|].
  destruct (signedBy (cc_submitterKeys g) _ sig) as [kid|];
    [|destruct (signedBy (cc_operatorKeys g) _ sig); destruct (ct_refuse _ _ _ _ _ _ t1); by simplify_eq].
  case_bool_decide as Hseen; [destruct (ct_refuse _ _ _ _ _ _ t1); by simplify_eq|].
  destruct (maxSubmissionReplay <=? _); [by simplify_eq|].
  destruct (submitLocked _ _ _ _ _ t1) as [[r2 s2] t2] eqn:ES.
  apply submitLocked_plans in ES as [Es _]. destruct r2; simplify_eq/=; rewrite Es; [done|].
  rewrite lookup_insert_ne; [done|]. intros <-. apply Hseen. rewrite Hp. eauto.
Qed.

Lemma ApproveAll_submissions ph expiry sigs now s t :
  ct_submissions (ApproveAll ph expiry sigs now s t).1.2 = ct_submissions s.
Proof.
  pose proof (expireLocked_submissions now s t) as HS. unfold ApproveAll, refuseApprovalLocked.
  destruct (expireLocked now s t) as [s1 t1]. simpl in HS.
  destruct (ct_plans s1 !! ph); [|by destruct (ct_refuse _ _ _ _ _ _ t1)].
  destruct (pe_expired _); [by destruct (ct_refuse _ _ _ _ _ _ t1)|].
  destruct (negb _); [by destruct (ct_refuse _ _ _ _ _ _ t1)|].
  destruct (_ || _)%Z; [by destruct (ct_refuse _ _ _ _ _ _ t1)|].
  destruct (_ || _); [by destruct (ct_refuse _ _ _ _ _ _ t1)|].
  destruct (approval_loop _ _ _ _) as [[reason err]|kids]; [by destruct (ct_refuse _ _ _ _ _ _ t1)|].
  destruct (_ <? _); [by destruct (ct_refuse _ _ _ _ _ _ t1)|].
  destruct (_ <=? _); [by destruct (ct_refuse _ _ _ _ _ _ (tripSaturated t1))|].
  by destruct (approval_leaves _ _ _ _ t1) as [[err|] t2].
Qed.

Lemma Revoke_submissions ph expiry sig now s t :
  ct_submissions (Revoke ph expiry sig now s t).1.2 = ct_submissions s.
Proof.
  pose proof (expireLocked_submissions now s t) as HS. unfold Revoke, refuseRevocationLocked.
  destruct (expireLocked now s t) as [s1 t1]. simpl in HS.
  destruct (ct_plans s1 !! ph); [|by destruct (ct_refuse _ _ _ _ _ _ t1)].
  destruct (_ || _); [by destruct (ct_refuse _ _ _ _ _ _ t1)|].
  destruct (_ || _)%Z; [by destruct (ct_refuse _ _ _ _ _ _ t1)|].
  destruct (signedBy (cc_revokerKeys g) _ sig);
    [|destruct (signedBy (cc_operatorKeys g) _ sig); by destruct (ct_refuse _ _ _ _ _ _ t1)].
  by destruct (ct_writeSignedLeaf _ _ _ _ _ _ t1) as [[err|] t2].
Qed.

Lemma plan_apply_submission op s t d u :
  ct_submissions s !! d = Some u → (op_now op < u)%Z →
  ct_submissions (plan_apply op s t).1.2 !! d = Some u.
Proof.
  intros Hd Hu. destruct op as [subject steps now|subject steps expiry sig now
    |ph expiry sigs now|ph expiry sig now|subject binding action resource now]; simpl in *;
    pose proof (expireLocked_submissions now s t) as HS.
  - unfold Submit. destruct (ValidatePlan _ _); [simpl|done].
    destruct (expireLocked now s t) as [s1 t1]. simpl in HS. rewrite <-HS in Hd.
    destruct (cc_separate g); [by destruct (refuseSubmissionLocked _ _ _ _ _ _)|].
    destruct (submitLocked _ _ _ _ _ t1) as [[r2 s2] t2] eqn:ES.
    apply submitLocked_plans in ES as [Es _]. simpl. by rewrite Es.
  - destruct (SubmitSigned _ _ _ _ _ s t) as [[r s1] t1] eqn:E. simpl.
    by eapply SubmitSigned_submissions.
  - pose proof (ApproveAll_submissions ph expiry sigs now s t) as HA.
    destruct (ApproveAll _ _ _ _ s t) as [[r s1] t1]. simpl in *. congruence.
  - pose proof (Revoke_submissions ph expiry sig now s t) as HA.
    destruct (Revoke _ _ _ _ s t) as [[r s1] t1]. simpl in *. congruence.
  - pose proof (VerifyStep_cases subject binding action resource now s t) as HC.
    destruct (expireLocked now s t) as [s1 t1]. simpl in HS. rewrite <-HS in Hd.
    destruct (VerifyStep _ _ _ _ _ s t) as [[[e|h] s2] t2]; [by subst|].
    by destruct HC as (e & params & _ & _ & _ & _ & _ & _ & -> & _).
Qed.

Lemma plan_run_submission ops s t d u :
  ct_submissions s !! d = Some u → Forall (λ op, (op_now op < u)%Z) ops →
  ct_submissions (plan_run ops s t).1 !! d = Some u.
Proof.
  intros Hd HF. revert s t Hd. induction HF as [|op ops Hop HF IH]; intros s t Hd; simpl; [done|].
  pose proof (plan_apply_submission op s t d u Hd Hop) as H1'.
  destruct (plan_apply op s t) as [[log s1] t1]. by apply IH.
Qed.

(** A signed submission is received once. After a submission message was accepted, the
    same message is refused until its deadline, by whomever it is signed and whatever calls
    are made in between; past the deadline it is refused as expired. *)
Theorem signed_submission_received_once subject steps expiry sig now s t h s1 t1 ops sig' now' :
  SubmitSigned subject steps expiry sig now s t = (inr h, s1, t1) →
  Forall (λ op, (op_now op < expiry)%Z) ops →
  let '(s2, t2) := plan_run ops s1 t1 in
  ∃ e, (SubmitSigned subject steps expiry sig' now' s2 t2).1.1 = inl e.
Proof.
  intros E HF. assert (ct_submissions s1 !! sha256 (SubmissionMessage (cc_cellID g) subject steps expiry)
    = Some expiry) as Hd.
  { unfold SubmitSigned, refuseSubmissionLocked in E.
    destruct (ValidatePlan subject steps); cbn [negb] in E; [|done].
    destruct (expireLocked now s t) as [s0 t0].
    destruct (_ || _)%Z; [by destruct (ct_refuse _ _ _ _ _ _ t0)|].
    destruct (signedBy (cc_submitterKeys g) _ sig) as [kid|];
      [|destruct (signedBy (cc_operatorKeys g) _ sig); by destruct (ct_refuse _ _ _ _ _ _ t0)].
    case_bool_decide; [by destruct (ct_refuse _ _ _ _ _ _ t0)|].
    destruct (maxSubmissionReplay <=? _); [done|].
    destruct (submitLocked _ _ _ _ _ t0) as [[[e|h'] s2] t2]; [done|]. injection E as <- <- <-.
    apply lookup_insert_eq. }
  apply (plan_run_submission ops s1 t1) in Hd; [|done].
  destruct (plan_run ops s1 t1) as [s2 t2]. simpl in Hd. unfold SubmitSigned.
  destruct (ValidatePlan subject steps); cbn [negb]; [|simpl; eauto].
  pose proof (expireLocked_submissions now' s2 t2) as HS.
  destruct (expireLocked now' s2 t2) as [s3 t3]. simpl in HS. rewrite <-HS in Hd.
  unfold refuseSubmissionLocked.
  destruct (Z.leb_spec (Sub expiry now') 0) as [|Hpos]; cbn [orb];
    [destruct (ct_refuse _ _ _ _ _ _ t3); simpl; eauto|].
  destruct (_ <? _)%Z; [destruct (ct_refuse _ _ _ _ _ _ t3); simpl; eauto|].
  destruct (signedBy (cc_submitterKeys g) _ sig');
    [|destruct (signedBy (cc_operatorKeys g) _ sig'); destruct (ct_refuse _ _ _ _ _ _ t3); simpl; eauto].
  rewrite bool_decide_true; [destruct (ct_refuse _ _ _ _ _ _ t3); simpl; eauto|].
  exists expiry. apply map_lookup_filter_Some. split; [done|]. by apply Sub_pos_iff.
Qed.
End contract.
