(* ===== verification/Admission.v ===== *)
(** The bounded queue in front of OPA: [src/pep/opa_admission.go].

    Requests compete for [maxInflight] places; the surplus waits in a bounded queue and is
    served by [dispatchLocked] when a place is returned. Each critical section of the source
    is a function here, and [adm_step] interleaves the sections of any number of requests,
    with a request abandoned at any time by its context. A waiter is named by the request
    that owns it ([w_id]); its flag [done] is that it has left the queue, and the message of
    its channel [granted], which holds at most one, is its entry in [ad_granted]. The sizes are configured integers, far
    below the width of [int]; only the counters of the statistics wrap. *)
From S2P Require Import Prelude.

Local Open Scope Z_scope.

Inductive shed := shedQueueFull | shedSubjectShare | shedExpired.

(** ** Counters by subject *)

(** A Go map of counters: an absent key reads 0, and a key that falls to 0 is deleted. *)
Definition cnt (m : gmap string Z) (s : string) : Z := default 0 (m !! s).
Definition bump (s : string) (m : gmap string Z) : gmap string Z := <[s := cnt m s + 1]> m.
Definition unbump (s : string) (m : gmap string Z) : gmap string Z :=
  let n := cnt m s - 1 in if n =? 0 then delete s m else <[s := n]> m.

Definition one_if (s s' : string) : Z := if decide (s = s') then 1 else 0.

Lemma cnt_bump s m s' : cnt (bump s m) s' = cnt m s' + one_if s s'.
Proof.
  unfold bump, one_if, cnt at 1. destruct (decide (s = s')) as [->|Hne].
  - by rewrite lookup_insert_eq.
  - rewrite lookup_insert_ne by done. unfold cnt. lia.
Qed.

Lemma cnt_unbump s m s' : cnt (unbump s m) s' = cnt m s' - one_if s s'.
Proof.
  unfold unbump, one_if. destruct (Z.eqb_spec (cnt m s - 1) 0) as [E|E]; unfold cnt at 1;
    destruct (decide (s = s')) as [->|Hne].
  - rewrite lookup_delete_eq. simpl. lia.
  - rewrite lookup_delete_ne by done. unfold cnt. lia.
  - by rewrite lookup_insert_eq.
  - rewrite lookup_insert_ne by done. unfold cnt. lia.
Qed.

(** ** State *)

Record waiter := mkWaiter { w_id : nat; w_subject : string; w_deadline : Z }.

Record AdmissionStats := mkAdmStats {
  as_Admitted : Z; as_ShedQueueFull : Z; as_ShedSubjectShare : Z; as_ShedExpired : Z }.

Record admission := mkAdmission {
  ad_maxInflight : Z; ad_maxQueue : Z; ad_subjectCap : Z; ad_minService : Z;
  ad_inflight : Z;
  ad_queue : list waiter;
  ad_perSubject : gmap string Z;
  ad_running : gmap string Z;
  ad_stats : AdmissionStats;
  ad_lastShed : Z;
  ad_granted : gmap nat bool;
}.

(** [newAdmission]: [None] is the disabled queue (nil). *)
Definition newAdmission (maxInflight maxQueue subjectShare minService : Z) : option admission :=
  if maxInflight <=? 0 then None
  else
    let share := if (subjectShare <=? 0) || (100 <? subjectShare) then 100 else subjectShare in
    let cap := Z.quot ((maxInflight + maxQueue) * share + 99) 100 in
    Some (mkAdmission maxInflight maxQueue (if cap <? 1 then 1 else cap)
            (if minService <=? 0 then millisecond else minService)
            0 [] ∅ ∅ (mkAdmStats 0 0 0 0) zero_time ∅).

Definition set_places (inflight : Z) (queue : list waiter) (per run : gmap string Z)
    (granted : gmap nat bool) (a : admission) : admission :=
  mkAdmission (ad_maxInflight a) (ad_maxQueue a) (ad_subjectCap a) (ad_minService a)
    inflight queue per run (ad_stats a) (ad_lastShed a) granted.

Definition count_admitted (a : admission) : admission :=
  let st := ad_stats a in
  mkAdmission (ad_maxInflight a) (ad_maxQueue a) (ad_subjectCap a) (ad_minService a)
    (ad_inflight a) (ad_queue a) (ad_perSubject a) (ad_running a)
    (mkAdmStats (u64 (as_Admitted st + 1)) (as_ShedQueueFull st) (as_ShedSubjectShare st)
       (as_ShedExpired st)) (ad_lastShed a) (ad_granted a).

(** A refusal is counted by its cause and dated. *)
Definition count_shed (c : shed) (now : Z) (a : admission) : admission :=
  let st := ad_stats a in
  let st' := match c with
    | shedQueueFull => mkAdmStats (as_Admitted st) (u64 (as_ShedQueueFull st + 1))
                         (as_ShedSubjectShare st) (as_ShedExpired st)
    | shedSubjectShare => mkAdmStats (as_Admitted st) (as_ShedQueueFull st)
                            (u64 (as_ShedSubjectShare st + 1)) (as_ShedExpired st)
    | shedExpired => mkAdmStats (as_Admitted st) (as_ShedQueueFull st) (as_ShedSubjectShare st)
                       (u64 (as_ShedExpired st + 1))
    end in
  mkAdmission (ad_maxInflight a) (ad_maxQueue a) (ad_subjectCap a) (ad_minService a)
    (ad_inflight a) (ad_queue a) (ad_perSubject a) (ad_running a) st' now (ad_granted a).

(** [queue.Remove]. *)
Definition unqueue (w : waiter) (q : list waiter) : list waiter :=
  filter (λ x, w_id x ≠ w_id w) q.

(** ** Critical sections *)

Inductive acquired := Granted | Refused (c : shed) | Queued.

(** [acquire] up to its wait. *)
Definition acquire_begin (id : nat) (subject : string) (deadline now : Z) (a : admission) :
    acquired * admission :=
  if ad_subjectCap a <=? cnt (ad_perSubject a) subject then
    (Refused shedSubjectShare, count_shed shedSubjectShare now a)
  else if (ad_inflight a <? ad_maxInflight a) && (Z.of_nat (length (ad_queue a)) =? 0) then
    (Granted, count_admitted (set_places (ad_inflight a + 1) (ad_queue a)
                (bump subject (ad_perSubject a)) (bump subject (ad_running a)) (ad_granted a) a))
  else if ad_maxQueue a <=? Z.of_nat (length (ad_queue a)) then
    (Refused shedQueueFull, count_shed shedQueueFull now a)
  else
    (Queued, set_places (ad_inflight a) (ad_queue a ++ [mkWaiter id subject deadline])
               (bump subject (ad_perSubject a)) (ad_running a) (ad_granted a) a).

(** [dispatchLocked]: a waiter with too little time left. *)
Definition expire_waiter (now : Z) (w : waiter) (a : admission) : admission :=
  count_shed shedExpired now
    (set_places (ad_inflight a) (unqueue w (ad_queue a))
       (unbump (w_subject w) (ad_perSubject a)) (ad_running a)
       (<[w_id w := false]> (ad_granted a)) a).

(** [dispatchLocked]: the chosen waiter. *)
Definition grant_waiter (w : waiter) (a : admission) : admission :=
  count_admitted
    (set_places (ad_inflight a + 1) (unqueue w (ad_queue a)) (ad_perSubject a)
       (bump (w_subject w) (ad_running a)) (<[w_id w := true]> (ad_granted a)) a).

Section dispatch.
(** The readings of the clock, in the order the section makes them. *)
Context (clk : nat → Z).

(** The inner loop: the waiter to serve, the number of readings made so far, the state. *)
Fixpoint dispatch_scan (ws : list waiter) (best : option waiter) (k : nat) (a : admission) :
    option waiter * nat * admission :=
  match ws with
  | [] => (best, k, a)
  | w :: ws' =>
      if Sub (w_deadline w) (clk k) <? ad_minService a then
        dispatch_scan ws' best (k + 2) (expire_waiter (clk (k + 1)) w a)
      else
        let better := match best with
          | None => true
          | Some b => cnt (ad_running a) (w_subject w) <? cnt (ad_running a) (w_subject b)
          end in
        dispatch_scan ws' (if better then Some w else best) (k + 1) a
  end.

(** The outer loop: every turn but the last takes a waiter out of the queue. *)
Fixpoint dispatch (fuel k : nat) (a : admission) : admission :=
  match fuel with
  | O => a
  | S fuel' =>
      if ad_inflight a <? ad_maxInflight a then
        match dispatch_scan (ad_queue a) None k a with
        | (None, _, a1) => a1
        | (Some w, k1, a1) => dispatch fuel' k1 (grant_waiter w a1)
        end
      else a
  end.

Definition dispatchLocked (a : admission) : admission := dispatch (S (length (ad_queue a))) 0 a.

(** The function [releaser] returns. *)
Definition release (subject : string) (a : admission) : admission :=
  dispatchLocked
    (set_places (ad_inflight a - 1) (ad_queue a) (unbump subject (ad_perSubject a))
       (unbump subject (ad_running a)) (ad_granted a) a).
End dispatch.

(** The branch of [acquire] whose context ended while the waiter was still queued. *)
Definition cancel_queued (w : waiter) (now : Z) (a : admission) : admission :=
  count_shed shedExpired now
    (set_places (ad_inflight a) (unqueue w (ad_queue a))
       (unbump (w_subject w) (ad_perSubject a)) (ad_running a) (ad_granted a) a).

(** The receipt of the message of a waiter. *)
Definition receive (id : nat) (a : admission) : admission :=
  set_places (ad_inflight a) (ad_queue a) (ad_perSubject a) (ad_running a)
    (delete id (ad_granted a)) a.

(** [snapshot]: places taken, waiters, and the milliseconds since the last refusal. *)
Definition adm_snapshot (now : Z) (a : admission) : Z * Z * AdmissionStats * Z :=
  (ad_inflight a, Z.of_nat (length (ad_queue a)), ad_stats a,
   if ad_lastShed a =? zero_time then -1 else Z.quot (Sub now (ad_lastShed a)) millisecond).

(** ** Interleavings *)

(** A request: waiting on its channel, holding a place, returning because its context ended
    after its waiter left the queue, giving back the place it was granted too late, counting
    that refusal, and gone. *)
Inductive thread :=
  | TWaiting (subject : string) | THolding (subject : string) | TReturning (subject : string)
  | TAbandoning (subject : string) | TCounting | TGone.

Abbreviation adm_state := (admission * gmap nat thread)%type.

Inductive adm_step : adm_state → adm_state → Prop :=
  | step_acquire id subject deadline now a (ts : gmap nat thread) :
      ts !! id = None →
      adm_step (a, ts)
        ((acquire_begin id subject deadline now a).2,
         <[id := match (acquire_begin id subject deadline now a).1 with
                 | Granted => THolding subject | Refused _ => TGone | Queued => TWaiting subject
                 end]> ts)
  | step_receive id subject (ok : bool) a (ts : gmap nat thread) :
      ts !! id = Some (TWaiting subject) → ad_granted a !! id = Some ok →
      adm_step (a, ts) (receive id a, <[id := if ok then THolding subject else TGone]> ts)
  | step_cancel_queued w now a (ts : gmap nat thread) :
      ts !! w_id w = Some (TWaiting (w_subject w)) → w ∈ ad_queue a →
      adm_step (a, ts) (cancel_queued w now a, <[w_id w := TGone]> ts)
  | step_cancel_done id subject a (ts : gmap nat thread) :
      ts !! id = Some (TWaiting subject) → (∀ w, w ∈ ad_queue a → w_id w ≠ id) →
      adm_step (a, ts) (a, <[id := TReturning subject]> ts)
  | step_cancel_receive id subject (ok : bool) a (ts : gmap nat thread) :
      ts !! id = Some (TReturning subject) → ad_granted a !! id = Some ok →
      adm_step (a, ts) (receive id a, <[id := if ok then TAbandoning subject else TGone]> ts)
  | step_abandon id subject clk a (ts : gmap nat thread) :
      ts !! id = Some (TAbandoning subject) →
      adm_step (a, ts) (release clk subject a, <[id := TCounting]> ts)
  | step_count id now a (ts : gmap nat thread) :
      ts !! id = Some TCounting →
      adm_step (a, ts) (count_shed shedExpired now a, <[id := TGone]> ts)
  | step_release id subject clk a (ts : gmap nat thread) :
      ts !! id = Some (THolding subject) →
      adm_step (a, ts) (release clk subject a, <[id := TGone]> ts).

(** ** Counting *)

(** The subject of a request that occupies a place. *)
Definition fly (a : admission) (ts : gmap nat thread) (id : nat) : option string :=
  th ← ts !! id;
  match th with
  | THolding s | TAbandoning s => Some s
  | TWaiting s | TReturning s =>
      match ad_granted a !! id with Some true => Some s | _ => None end
  | TCounting | TGone => None
  end.

(** The requests in flight, with their subjects. *)
Definition flying (a : admission) (ts : gmap nat thread) : gmap nat string :=
  map_imap (λ id _, fly a ts id) ts.

Lemma flying_lookup a ts id : flying a ts !! id = fly a ts id.
Proof.
  unfold flying. rewrite map_lookup_imap. unfold fly. by destruct (ts !! id).
Qed.

Definition count (s : string) (m : gmap nat string) : Z :=
  Z.of_nat (size (filter (λ p : nat * string, p.2 = s) m)).

Lemma count_insert_fresh s m i x : m !! i = None → count s (<[i := x]> m) = count s m + one_if x s.
Proof.
  intros Hi. unfold count, one_if. destruct (decide (x = s)) as [->|Hne].
  - rewrite map_filter_insert_True by done. rewrite map_size_insert_None; [lia|].
    rewrite map_lookup_filter, Hi. done.
  - rewrite map_filter_insert_False by done. rewrite (delete_id m i) by done. lia.
Qed.

(** One request starts, or stops, occupying a place. *)
Lemma flying_starts a ts a' ts' i s :
  fly a ts i = None → fly a' ts' i = Some s → (∀ j, j ≠ i → fly a' ts' j = fly a ts j) →
  Z.of_nat (size (flying a' ts')) = Z.of_nat (size (flying a ts)) + 1 ∧
  ∀ s', count s' (flying a' ts') = count s' (flying a ts) + one_if s s'.
Proof.
  intros Hn Hs Ho. assert (flying a' ts' = <[i := s]> (flying a ts)) as ->.
  { apply map_eq. intros j. rewrite flying_lookup. destruct (decide (j = i)) as [->|Hne].
    - by rewrite lookup_insert_eq.
    - rewrite lookup_insert_ne by done. rewrite flying_lookup. auto. }
  rewrite map_size_insert_None by by rewrite flying_lookup. split; [lia|].
  intros s'. apply count_insert_fresh. by rewrite flying_lookup.
Qed.

Lemma flying_stops a ts a' ts' i s :
  fly a ts i = Some s → fly a' ts' i = None → (∀ j, j ≠ i → fly a' ts' j = fly a ts j) →
  Z.of_nat (size (flying a' ts')) = Z.of_nat (size (flying a ts)) - 1 ∧
  ∀ s', count s' (flying a' ts') = count s' (flying a ts) - one_if s s'.
Proof.
  intros Hs Hn Ho. destruct (flying_starts a' ts' a ts i s Hn Hs) as [H1 H2].
  { intros j Hj. symmetry. auto. }
  split; [lia|]. intros s'. specialize (H2 s'). lia.
Qed.

Lemma flying_keeps a ts a' ts' :
  (∀ j, fly a' ts' j = fly a ts j) → flying a' ts' = flying a ts.
Proof. intros Ho. apply map_eq. intros j. by rewrite !flying_lookup. Qed.

(** Waiters of a subject. *)
Definition qcount (s : string) (q : list waiter) : Z :=
  Z.of_nat (length (filter (λ w, w_subject w = s) q)).

Lemma qcount_cons s w q : qcount s (w :: q) = qcount s q + one_if (w_subject w) s.
Proof.
  unfold qcount, one_if. rewrite filter_cons. destruct (decide (w_subject w = s)); simpl; lia.
Qed.

Lemma qcount_perm s q q' : q ≡ₚ q' → qcount s q = qcount s q'.
Proof. intros Hp. unfold qcount. by rewrite Hp. Qed.

Lemma unqueue_perm w q : NoDup (w_id <$> q) → w ∈ q → q ≡ₚ w :: unqueue w q.
Proof.
  unfold unqueue. induction q as [|x q IH]; simpl; intros Hnd Hin; [by apply elem_of_nil in Hin|].
  apply NoDup_cons in Hnd as [Hx Hnd]. rewrite filter_cons. apply elem_of_cons in Hin as [->|Hin].
  - rewrite decide_False by (intros Hn; by apply Hn). f_equiv.
    assert (filter (λ y, w_id y ≠ w_id x) q = q) as ->; [|done].
    clear -Hx. induction q as [|y q IH]; [done|]. rewrite fmap_cons in Hx.
    apply not_elem_of_cons in Hx as [Hy Hx]. rewrite filter_cons, decide_True by congruence.
    f_equal. by apply IH.
  - rewrite decide_True.
    + rewrite <-Permutation_swap. f_equiv. by apply IH.
    + intros E. apply Hx. rewrite E. by apply list_elem_of_fmap_2.
Qed.

Lemma unqueue_elem w q x : x ∈ unqueue w q ↔ x ∈ q ∧ w_id x ≠ w_id w.
Proof. unfold unqueue. rewrite list_elem_of_filter. naive_solver. Qed.

(** ** The invariant *)

(** What every critical section preserves at each of its turns. *)
Record adm_core (a : admission) (ts : gmap nat thread) : Prop := mkCore {
  core_inflight : ad_inflight a ≤ ad_maxInflight a;
  core_queue : Z.of_nat (length (ad_queue a)) ≤ ad_maxQueue a;
  core_cap : ∀ s, cnt (ad_perSubject a) s ≤ ad_subjectCap a;
  core_places : ad_inflight a = Z.of_nat (size (flying a ts));
  core_running : ∀ s, cnt (ad_running a) s = count s (flying a ts);
  core_per : ∀ s, cnt (ad_perSubject a) s = cnt (ad_running a) s + qcount s (ad_queue a);
  core_ids : NoDup (w_id <$> ad_queue a);
  core_waits : ∀ w, w ∈ ad_queue a →
    ts !! w_id w = Some (TWaiting (w_subject w)) ∧ ad_granted a !! w_id w = None;
  core_served : ∀ id s, ts !! id = Some (TWaiting s) ∨ ts !! id = Some (TReturning s) →
    (∃ w, w ∈ ad_queue a ∧ w_id w = id) ∨ is_Some (ad_granted a !! id);
  core_granted : ∀ id, is_Some (ad_granted a !! id) →
    ∃ s, ts !! id = Some (TWaiting s) ∨ ts !! id = Some (TReturning s);
}.

(** Between critical sections, a request only waits when every place is taken. *)
Definition adm_inv (st : adm_state) : Prop :=
  adm_core st.1 st.2 ∧ (ad_queue st.1 ≠ [] → ad_inflight st.1 = ad_maxInflight st.1).

(** The facts about a waiter that leaves the queue. *)
Lemma core_leave a ts w :
  adm_core a ts → w ∈ ad_queue a →
  Z.of_nat (length (unqueue w (ad_queue a))) = Z.of_nat (length (ad_queue a)) - 1 ∧
  (∀ s, qcount s (unqueue w (ad_queue a)) = qcount s (ad_queue a) - one_if (w_subject w) s) ∧
  NoDup (w_id <$> unqueue w (ad_queue a)) ∧
  fly a ts (w_id w) = None.
Proof.
  intros C Hw. pose proof (unqueue_perm w _ (core_ids _ _ C) Hw) as Hp. split_and!.
  - apply Permutation_length in Hp. simpl in Hp. lia.
  - intros s. rewrite (qcount_perm s _ _ Hp), qcount_cons. lia.
  - pose proof (core_ids _ _ C) as Hnd. rewrite Hp in Hnd. simpl in Hnd. by apply NoDup_cons in Hnd as [_ ?].
  - destruct (core_waits _ _ C w Hw) as [Ht Hg]. unfold fly. rewrite Ht. simpl. by rewrite Hg.
Qed.

Lemma one_if_range s s' : 0 ≤ one_if s s' ≤ 1.
Proof. unfold one_if. destruct (decide _); lia. Qed.

(** A message put in the channel of a queued waiter changes no other request. *)
Lemma fly_other_granted a a' ts i b :
  ad_granted a' = <[i := b]> (ad_granted a) → ∀ j, j ≠ i → fly a' ts j = fly a ts j.
Proof. intros E j Hj. unfold fly. by rewrite E, lookup_insert_ne. Qed.

(** The channel side of the invariant when the waiter [w] gets its message. *)
Lemma core_message a ts w b :
  adm_core a ts → w ∈ ad_queue a →
  let q := unqueue w (ad_queue a) in
  let m := <[w_id w := b]> (ad_granted a) in
  (∀ x, x ∈ q → ts !! w_id x = Some (TWaiting (w_subject x)) ∧ m !! w_id x = None) ∧
  (∀ id s, ts !! id = Some (TWaiting s) ∨ ts !! id = Some (TReturning s) →
     (∃ x, x ∈ q ∧ w_id x = id) ∨ is_Some (m !! id)) ∧
  (∀ id, is_Some (m !! id) → ∃ s, ts !! id = Some (TWaiting s) ∨ ts !! id = Some (TReturning s)).
Proof.
  intros C Hw q m. unfold q, m. split_and!.
  - intros x [Hx Hne]%unqueue_elem. destruct (core_waits _ _ C x Hx) as [? ?].
    by rewrite lookup_insert_ne.
  - intros id s Hid. destruct (decide (id = w_id w)) as [->|Hne].
    { right. rewrite lookup_insert_eq. by eexists. }
    rewrite lookup_insert_ne by done.
    destruct (core_served _ _ C id s Hid) as [(x & Hx & <-)|?]; [left|by right].
    exists x. by rewrite unqueue_elem.
  - intros id Hid. destruct (decide (id = w_id w)) as [->|Hne].
    { exists (w_subject w). left. by apply (core_waits _ _ C). }
    rewrite lookup_insert_ne in Hid by done. by apply (core_granted _ _ C).
Qed.

Lemma core_expire now w a ts :
  adm_core a ts → w ∈ ad_queue a → adm_core (expire_waiter now w a) ts.
Proof.
  intros C Hw. destruct (core_leave _ _ _ C Hw) as (HL & HQ & HN & HF).
  destruct (core_message _ _ _ false C Hw) as (M1 & M2 & M3). destruct C as [C1 C2 C3 C4 C5 C6 _ _ _ _].
  assert (flying (expire_waiter now w a) ts = flying a ts) as EF.
  { apply flying_keeps. intros j. destruct (decide (j = w_id w)) as [->|Hne].
    - rewrite HF. unfold fly. destruct (ts !! w_id w) as [th|] eqn:Et; simpl; [|done].
      unfold fly in HF. rewrite Et in HF. simpl in HF. rewrite lookup_insert_eq. by destruct th.
    - by apply (fly_other_granted a _ ts (w_id w) false). }
  constructor; try rewrite EF; simpl; auto; try lia.
  - intros s. rewrite cnt_unbump. pose proof (one_if_range (w_subject w) s). specialize (C3 s). lia.
  - intros s. rewrite cnt_unbump, HQ, C6. lia.
Qed.

Lemma core_grant w a ts :
  adm_core a ts → w ∈ ad_queue a → ad_inflight a < ad_maxInflight a →
  adm_core (grant_waiter w a) ts.
Proof.
  intros C Hw Hlt. destruct (core_leave _ _ _ C Hw) as (HL & HQ & HN & HF).
  destruct (core_message _ _ _ true C Hw) as (M1 & M2 & M3).
  destruct (core_waits _ _ C w Hw) as [Ht _]. destruct C as [C1 C2 C3 C4 C5 C6 _ _ _ _].
  destruct (flying_starts a ts (grant_waiter w a) ts (w_id w) (w_subject w)) as [E1 E2]; [done| | |].
  { unfold fly. rewrite Ht. simpl. by rewrite lookup_insert_eq. }
  { by apply (fly_other_granted a _ ts (w_id w) true). }
  constructor; simpl; auto; try lia.
  - intros s. rewrite cnt_bump, C5, E2. done.
  - intros s. rewrite cnt_bump, HQ, C6. lia.
Qed.

(** ** Dispatch *)

Section dispatch_lemmas.
Context (clk : nat → Z).

(** The waiter kept so far: the oldest of those whose subject has the fewest requests in
    flight. *)
Definition best_of (run : gmap string Z) (q : list waiter) (best : option waiter) : Prop :=
  match best with
  | None => q = []
  | Some b => ∃ l1 l2, q = l1 ++ b :: l2 ∧
      (∀ x, x ∈ l1 → cnt run (w_subject b) < cnt run (w_subject x)) ∧
      (∀ x, x ∈ l2 → cnt run (w_subject b) ≤ cnt run (w_subject x))
  end.

Lemma best_of_snoc run q best w :
  best_of run q best →
  best_of run (q ++ [w])
    (if match best with
        | None => true
        | Some b => cnt run (w_subject w) <? cnt run (w_subject b)
        end then Some w else best).
Proof.
  destruct best as [b|]; simpl.
  - intros (l1 & l2 & -> & H1 & H2). destruct (Z.ltb_spec (cnt run (w_subject w)) (cnt run (w_subject b))).
    + exists (l1 ++ b :: l2), []. split_and!; [done| |by intros ? ?%elem_of_nil].
      intros x [Hx|[->|Hx]%elem_of_cons]%elem_of_app; [|done|].
      * specialize (H1 x Hx). lia.
      * specialize (H2 x Hx). lia.
    + exists l1, (l2 ++ [w]). split_and!; [by rewrite <-app_assoc|done|].
      intros x [Hx|Hx%list_elem_of_singleton]%elem_of_app; [auto|subst; auto].
  - intros ->. exists [], []. split_and!; [done|by intros ? ?%elem_of_nil..].
Qed.

Lemma unqueue_mid w l1 l2 :
  NoDup (w_id <$> l1 ++ w :: l2) → unqueue w (l1 ++ w :: l2) = l1 ++ l2.
Proof.
  intros Hnd. rewrite fmap_app, fmap_cons in Hnd.
  apply NoDup_app in Hnd as (_ & H1 & [H2 _]%NoDup_cons). unfold unqueue.
  assert (∀ l : list waiter, w_id w ∉ w_id <$> l → filter (λ x, w_id x ≠ w_id w) l = l) as HF.
  { induction l as [|x l IH]; intros Hn; [done|]. rewrite fmap_cons in Hn.
    apply not_elem_of_cons in Hn as [Hx Hn]. rewrite filter_cons, decide_True by congruence.
    f_equal. by apply IH. }
  rewrite filter_app, filter_cons, decide_False by (intros Hn; by apply Hn).
  rewrite !HF; [done|done|]. intros Hin. apply (H1 _ Hin), elem_of_cons. by left.
Qed.

(** The inner loop: what it keeps is in order, with the best of it, and what it removes had
    too little time left when the clock was read. *)
Lemma dispatch_scan_spec ws kept best k a :
  ad_queue a = kept ++ ws → NoDup (w_id <$> ad_queue a) → best_of (ad_running a) kept best →
  let '(best', _, a') := dispatch_scan clk ws best k a in
  ∃ rest, ad_queue a' = kept ++ rest ∧ sublist rest ws ∧
    best_of (ad_running a) (kept ++ rest) best' ∧
    (∀ x, x ∈ rest → ∃ i, ad_minService a ≤ Sub (w_deadline x) (clk i)) ∧
    (∀ x, x ∈ ws → x ∉ rest → ∃ i, Sub (w_deadline x) (clk i) < ad_minService a) ∧
    ad_running a' = ad_running a ∧ ad_inflight a' = ad_inflight a ∧
    ad_maxInflight a' = ad_maxInflight a ∧ (∀ ts, adm_core a ts → adm_core a' ts).
Proof.
  revert kept best k a. induction ws as [|w ws IH]; intros kept best k a Eq Hnd Hb; simpl.
  { exists []. rewrite app_nil_r in *. split_and!; auto; try done; by intros x Hx%elem_of_nil. }
  destruct (Z.ltb_spec (Sub (w_deadline w) (clk k)) (ad_minService a)) as [Hlt|Hge].
  - rewrite Eq in Hnd. specialize (IH kept best (k + 2)%nat (expire_waiter (clk (k + 1)%nat) w a)).
    assert (ad_queue (expire_waiter (clk (k + 1)%nat) w a) = kept ++ ws) as Eq'.
    { simpl. rewrite Eq. by apply unqueue_mid. }
    destruct (dispatch_scan clk ws best (k + 2) _) as [[best' k'] a'].
    destruct IH as (rest & E1 & Hsub & E2 & E3 & E4 & E5 & E6 & E7 & E8); [done| |done|].
    { rewrite Eq'. rewrite fmap_app in *. rewrite fmap_cons in Hnd.
      apply NoDup_app in Hnd as (? & ? & [? ?]%NoDup_cons). apply NoDup_app. split_and!; auto.
      intros x Hx Hin. eapply H0; [done|]. apply elem_of_cons. by right. }
    exists rest. split_and!; auto using sublist_cons.
    + intros x [->|Hx]%elem_of_cons Hn; [by exists k|by apply E4].
    + intros ts C. apply E8, core_expire; [done|]. rewrite Eq. apply elem_of_app. right.
      apply elem_of_cons. by left.
  - apply (best_of_snoc _ _ _ w) in Hb.
    match goal with |- context [dispatch_scan clk ws ?b _ a] => set (nb := b) in * end.
    specialize (IH (kept ++ [w]) nb (k + 1)%nat a).
    destruct (dispatch_scan clk ws nb (k + 1) a) as [[best' k'] a'].
    destruct IH as (rest & E1 & Hsub & E2 & E3 & E4 & E5 & E6 & E7 & E8); [|done|done|].
    { by rewrite <-app_assoc. }
    exists (w :: rest). rewrite <-app_assoc in E1, E2. split_and!; auto using sublist_skip.
    + intros x [->|Hx]%elem_of_cons; [by exists k|by apply E3].
    + intros x [->|Hx]%elem_of_cons Hn.
      * destruct Hn. apply elem_of_cons. by left.
      * apply E4; [done|]. intros Hr. apply Hn, elem_of_cons. by right.
Qed.

Lemma dispatch_ok fuel k a ts :
  adm_core a ts → (length (ad_queue a) < fuel)%nat →
  adm_inv (dispatch clk fuel k a, ts).
Proof.
  revert k a. induction fuel as [|fuel IH]; intros k a C Hf; [lia|]. simpl.
  destruct (Z.ltb_spec (ad_inflight a) (ad_maxInflight a)) as [Hlt|Hge].
  - pose proof (dispatch_scan_spec (ad_queue a) [] None k a eq_refl (core_ids _ _ C) eq_refl) as HS.
    destruct (dispatch_scan clk (ad_queue a) None k a) as [[[w|] k1] a1];
      destruct HS as (rest & E1 & Hsub & HB & _ & _ & _ & EI & EM & HC); simpl in *.
    + destruct HB as (l1 & l2 & HB & _).
      assert (w ∈ ad_queue a1) as Hw.
      { rewrite E1, HB. apply elem_of_app. right. apply elem_of_cons. by left. }
      specialize (HC _ C). apply IH; [apply core_grant; auto; lia|].
      destruct (core_leave _ _ _ HC Hw) as (HL & _). simpl in *.
      apply sublist_length in Hsub. rewrite <-E1 in Hsub. lia.
    + split; [by apply HC|]. simpl. rewrite E1, HB. done.
  - split; [done|]. simpl. intros _. pose proof (core_inflight _ _ C). lia.
Qed.
End dispatch_lemmas.

(** ** Steps *)

Definition settled (th : thread) : Prop :=
  match th with TWaiting _ | TReturning _ => False | _ => True end.

(** The channel side of the invariant when a request stops waiting, or never did. *)
Lemma core_settle a ts id th (q : list waiter) (m : gmap nat bool) :
  adm_core a ts → settled th →
  (∀ x, x ∈ q ↔ x ∈ ad_queue a ∧ w_id x ≠ id) → (∀ i, i ≠ id → m !! i = ad_granted a !! i) →
  m !! id = None →
  (∀ x, x ∈ q → <[id := th]> ts !! w_id x = Some (TWaiting (w_subject x)) ∧ m !! w_id x = None) ∧
  (∀ i s, <[id := th]> ts !! i = Some (TWaiting s) ∨ <[id := th]> ts !! i = Some (TReturning s) →
     (∃ x, x ∈ q ∧ w_id x = i) ∨ is_Some (m !! i)) ∧
  (∀ i, is_Some (m !! i) →
     ∃ s, <[id := th]> ts !! i = Some (TWaiting s) ∨ <[id := th]> ts !! i = Some (TReturning s)).
Proof.
  intros C Hth Hq Hm Hid. split_and!.
  - intros x [Hx Hne]%Hq. rewrite lookup_insert_ne by done. rewrite Hm by done.
    by apply (core_waits _ _ C).
  - intros i s Hi. destruct (decide (i = id)) as [->|Hne].
    { rewrite lookup_insert_eq in Hi. by destruct th, Hi; simplify_eq. }
    rewrite lookup_insert_ne in Hi by done. rewrite Hm by done.
    destruct (core_served _ _ C i s Hi) as [(x & Hx & <-)|?]; [left|by right].
    exists x. by rewrite Hq.
  - intros i Hi. destruct (decide (i = id)) as [->|Hne]; [by rewrite Hid in Hi; destruct Hi|].
    rewrite lookup_insert_ne by done. rewrite Hm in Hi by done. by apply (core_granted _ _ C).
Qed.

(** A request that is not waiting is neither queued nor owed a message. *)
Lemma core_absent a ts id :
  adm_core a ts → (∀ s, ts !! id ≠ Some (TWaiting s) ∧ ts !! id ≠ Some (TReturning s)) →
  (∀ x, x ∈ ad_queue a ↔ x ∈ ad_queue a ∧ w_id x ≠ id) ∧ ad_granted a !! id = None.
Proof.
  intros C Hid. split.
  - intros x. split; [|by intros [? _]]. intros Hx. split; [done|]. intros <-.
    by destruct (core_waits _ _ C x Hx) as [?%Hid _].
  - destruct (ad_granted a !! id) as [b|] eqn:E; [|done].
    destruct (core_granted _ _ C id) as (s & [?%Hid|?%Hid]); [by rewrite E|done..].
Qed.

(** A request that keeps no place changes state. *)
Lemma core_retire a ts id th :
  adm_core a ts → settled th → (∀ s, th ≠ THolding s ∧ th ≠ TAbandoning s) →
  (∀ s, ts !! id ≠ Some (TWaiting s) ∧ ts !! id ≠ Some (TReturning s)) → fly a ts id = None →
  adm_core a (<[id := th]> ts).
Proof.
  intros C Hth Hh Hid Hf. destruct (core_absent _ _ _ C Hid) as [Hq Hm].
  destruct (core_settle a ts id th (ad_queue a) (ad_granted a) C Hth Hq ltac:(done) Hm) as (M1 & M2 & M3).
  assert (flying a (<[id := th]> ts) = flying a ts) as EF.
  { apply flying_keeps. intros j. destruct (decide (j = id)) as [->|Hne].
    - rewrite Hf. unfold fly. rewrite lookup_insert_eq. simpl.
      destruct th as [s|s|s|s| |]; try done; by destruct (Hh s).
    - unfold fly. by rewrite lookup_insert_ne. }
  destruct C. by constructor; rewrite ?EF.
Qed.

(** A place is given back, before the dispatch. *)
Lemma core_unplace a ts id s th :
  adm_core a ts → ts !! id = Some (THolding s) ∨ ts !! id = Some (TAbandoning s) →
  th = TGone ∨ th = TCounting →
  adm_core (set_places (ad_inflight a - 1) (ad_queue a) (unbump s (ad_perSubject a))
              (unbump s (ad_running a)) (ad_granted a) a) (<[id := th]> ts).
Proof.
  intros C Hid Hth.
  assert (∀ s', ts !! id ≠ Some (TWaiting s') ∧ ts !! id ≠ Some (TReturning s')) as Hno.
  { intros s'. destruct Hid as [Hid|Hid]; rewrite Hid; done. }
  destruct (core_absent _ _ _ C Hno) as [Hq Hm].
  destruct (core_settle a ts id th (ad_queue a) (ad_granted a) C) as (M1 & M2 & M3); auto.
  { by destruct Hth; subst. }
  match goal with |- adm_core ?a' ?ts' => destruct (flying_stops a ts a' ts' id s) as [E1 E2] end.
  { unfold fly. by destruct Hid as [Hid|Hid]; rewrite Hid. }
  { unfold fly. rewrite lookup_insert_eq. by destruct Hth; subst. }
  { intros j Hj. unfold fly. by rewrite lookup_insert_ne. }
  destruct C as [C1 C2 C3 C4 C5 C6 C7 _ _ _]. constructor; simpl; auto; try lia.
  - intros s'. rewrite cnt_unbump. pose proof (one_if_range s s'). specialize (C3 s'). lia.
  - intros s'. by rewrite cnt_unbump, C5, E2.
  - intros s'. rewrite !cnt_unbump, C6. lia.
Qed.

Lemma release_ok clk a ts id s th :
  adm_core a ts → ts !! id = Some (THolding s) ∨ ts !! id = Some (TAbandoning s) →
  th = TGone ∨ th = TCounting → adm_inv (release clk s a, <[id := th]> ts).
Proof.
  intros C Hid Hth. unfold release, dispatchLocked.
  apply dispatch_ok; [by apply core_unplace|simpl; lia].
Qed.

(** [acquire] when a place is free and nobody waits. *)
Lemma core_admit a ts id s :
  adm_core a ts → ts !! id = None → ad_inflight a < ad_maxInflight a →
  cnt (ad_perSubject a) s < ad_subjectCap a →
  adm_core (count_admitted (set_places (ad_inflight a + 1) (ad_queue a) (bump s (ad_perSubject a))
              (bump s (ad_running a)) (ad_granted a) a)) (<[id := THolding s]> ts).
Proof.
  intros C Hid Hlt Hcap.
  destruct (core_absent _ _ id C) as [Hq Hm]; [by rewrite Hid|].
  destruct (core_settle a ts id (THolding s) (ad_queue a) (ad_granted a) C I Hq ltac:(done) Hm)
    as (M1 & M2 & M3).
  match goal with |- adm_core ?a' ?ts' => destruct (flying_starts a ts a' ts' id s) as [E1 E2] end.
  { unfold fly. by rewrite Hid. }
  { unfold fly. by rewrite lookup_insert_eq. }
  { intros j Hj. unfold fly. by rewrite lookup_insert_ne. }
  destruct C as [C1 C2 C3 C4 C5 C6 C7 _ _ _]. constructor; simpl; auto; try lia.
  - intros s'. rewrite cnt_bump. specialize (C3 s'). unfold one_if. destruct (decide (s = s')); subst; lia.
  - intros s'. by rewrite cnt_bump, C5, E2.
  - intros s'. rewrite !cnt_bump, C6. lia.
Qed.

(** [acquire] when the request has to wait. *)
Lemma core_enqueue a ts id s deadline :
  adm_core a ts → ts !! id = None → Z.of_nat (length (ad_queue a)) < ad_maxQueue a →
  cnt (ad_perSubject a) s < ad_subjectCap a →
  adm_core (set_places (ad_inflight a) (ad_queue a ++ [mkWaiter id s deadline])
              (bump s (ad_perSubject a)) (ad_running a) (ad_granted a) a) (<[id := TWaiting s]> ts).
Proof.
  intros C Hid Hlt Hcap.
  destruct (core_absent _ _ id C) as [Hq Hm]; [by rewrite Hid|].
  match goal with |- adm_core ?a' ?ts' => assert (flying a' ts' = flying a ts) as EF end.
  { apply flying_keeps. intros j. unfold fly. simpl. destruct (decide (j = id)) as [->|Hne].
    - rewrite lookup_insert_eq, Hid. simpl. by rewrite Hm.
    - by rewrite lookup_insert_ne. }
  destruct C as [C1 C2 C3 C4 C5 C6 C7 C8 C9 C10]. constructor; try rewrite EF; simpl; auto; try lia.
  - rewrite length_app. simpl. lia.
  - intros s'. rewrite cnt_bump. specialize (C3 s'). unfold one_if. destruct (decide (s = s')); subst; lia.
  - intros s'. unfold qcount. rewrite cnt_bump, filter_app, length_app, C6, filter_cons. unfold one_if.
    simpl. destruct (decide (s = s')); simpl; unfold qcount; lia.
  - rewrite fmap_app. apply NoDup_app. split_and!; [done| |apply NoDup_singleton].
    intros x (w & -> & [_ Hw]%Hq)%list_elem_of_fmap. simpl. by intros ?%list_elem_of_singleton.
  - intros w [Hw|Hw%list_elem_of_singleton]%elem_of_app.
    + destruct (proj1 (Hq w) Hw) as [_ Hne]. rewrite lookup_insert_ne by done. auto.
    + subst w. simpl. by rewrite lookup_insert_eq.
  - intros i s' Hi. destruct (decide (i = id)) as [->|Hne].
    { left. eexists. split; [apply elem_of_app; right; by apply list_elem_of_singleton|done]. }
    rewrite lookup_insert_ne in Hi by done. destruct (C9 i s' Hi) as [(w & Hw & <-)|?]; [left|by right].
    exists w. split; [apply elem_of_app; by left|done].
  - intros i Hi. destruct (decide (i = id)) as [->|Hne]; [by rewrite Hm in Hi; destruct Hi|].
    rewrite lookup_insert_ne by done. auto.
Qed.

(** A request receives its message, waiting or returning. *)
Lemma core_receive a ts id s ok th :
  adm_core a ts → ts !! id = Some (TWaiting s) ∨ ts !! id = Some (TReturning s) →
  ad_granted a !! id = Some ok →
  th = (if ok : bool then THolding s else TGone) ∨ th = (if ok then TAbandoning s else TGone) →
  adm_core (receive id a) (<[id := th]> ts).
Proof.
  intros C Hid Hg Hth.
  assert (∀ x, x ∈ ad_queue a ↔ x ∈ ad_queue a ∧ w_id x ≠ id) as Hq.
  { intros x. split; [|by intros [? _]]. intros Hx. split; [done|]. intros <-.
    destruct (core_waits _ _ C x Hx) as [_ ?]. congruence. }
  destruct (core_settle a ts id th (ad_queue a) (delete id (ad_granted a)) C) as (M1 & M2 & M3).
  { by destruct Hth as [-> | ->], ok. }
  { done. }
  { intros i Hi. by rewrite lookup_delete_ne. }
  { by rewrite lookup_delete_eq. }
  assert (flying (receive id a) (<[id := th]> ts) = flying a ts) as EF.
  { apply flying_keeps. intros j. unfold fly. simpl. destruct (decide (j = id)) as [->|Hne].
    - rewrite lookup_insert_eq. simpl.
      destruct Hid as [Hid|Hid]; rewrite Hid; simpl; rewrite Hg; by destruct Hth as [-> | ->], ok.
    - by rewrite lookup_insert_ne, lookup_delete_ne. }
  destruct C. by constructor; rewrite ?EF.
Qed.

Lemma core_cancel a ts w now :
  adm_core a ts → w ∈ ad_queue a → adm_core (cancel_queued w now a) (<[w_id w := TGone]> ts).
Proof.
  intros C Hw. destruct (core_leave _ _ _ C Hw) as (HL & HQ & HN & HF).
  destruct (core_waits _ _ C w Hw) as [Ht Hg].
  destruct (core_settle a ts (w_id w) TGone (unqueue w (ad_queue a)) (ad_granted a) C I) as (M1 & M2 & M3).
  { intros x. apply unqueue_elem. }
  { done. }
  { done. }
  assert (flying (cancel_queued w now a) (<[w_id w := TGone]> ts) = flying a ts) as EF.
  { apply flying_keeps. intros j. unfold fly. simpl. destruct (decide (j = w_id w)) as [->|Hne].
    - rewrite lookup_insert_eq, Ht. simpl. by rewrite Hg.
    - by rewrite lookup_insert_ne. }
  destruct C as [C1 C2 C3 C4 C5 C6 _ _ _ _]. constructor; try rewrite EF; simpl; auto; try lia.
  - intros s. rewrite cnt_unbump. pose proof (one_if_range (w_subject w) s). specialize (C3 s). lia.
  - intros s. rewrite cnt_unbump, HQ, C6. lia.
Qed.

(** The context ended after the waiter left the queue: only the request moves. *)
Lemma core_return a ts id s :
  adm_core a ts → ts !! id = Some (TWaiting s) → (∀ w, w ∈ ad_queue a → w_id w ≠ id) →
  adm_core a (<[id := TReturning s]> ts).
Proof.
  intros C Hid Hq.
  assert (flying a (<[id := TReturning s]> ts) = flying a ts) as EF.
  { apply flying_keeps. intros j. unfold fly. destruct (decide (j = id)) as [->|Hne].
    - by rewrite lookup_insert_eq, Hid.
    - by rewrite lookup_insert_ne. }
  destruct C as [C1 C2 C3 C4 C5 C6 C7 C8 C9 C10]. constructor; try rewrite EF; auto.
  - intros w Hw. rewrite lookup_insert_ne by (intros E; by apply (Hq w Hw)). auto.
  - intros i s' Hi. destruct (decide (i = id)) as [->|Hne]; [by apply (C9 id s); left|].
    rewrite lookup_insert_ne in Hi by done. by apply (C9 i s').
  - intros i Hi. destruct (decide (i = id)) as [->|Hne].
    + exists s. right. by rewrite lookup_insert_eq.
    + rewrite lookup_insert_ne by done. auto.
Qed.

Lemma adm_step_inv st st' : adm_step st st' → adm_inv st → adm_inv st'.
Proof.
  intros Hs [C Hb]. destruct Hs as [id s d now a ts Hid|id s ok a ts Hid Hg|w now a ts Hid Hw
    |id s a ts Hid Hq|id s ok a ts Hid Hg|id s clk a ts Hid|id now a ts Hid|id s clk a ts Hid];
    simpl in *.
  - assert (∀ c, adm_inv (count_shed c now a, <[id := TGone]> ts)) as HR.
    { intros c. split; [|done]. simpl. assert (adm_core a (<[id := TGone]> ts)) as C'.
      { apply core_retire; auto; try done; [by rewrite Hid|]. unfold fly. by rewrite Hid. }
      destruct C'. by constructor. }
    unfold acquire_begin. destruct (Z.leb_spec (ad_subjectCap a) (cnt (ad_perSubject a) s)); [apply HR|].
    destruct (Z.ltb_spec (ad_inflight a) (ad_maxInflight a)); simpl.
    + destruct (Z.eqb_spec (Z.of_nat (length (ad_queue a))) 0) as [E|E]; simpl.
      { split; [by apply core_admit|]. simpl. destruct (ad_queue a); [done|simpl in E; lia]. }
      destruct (Z.leb_spec (ad_maxQueue a) (Z.of_nat (length (ad_queue a)))); [apply HR|].
      split; [by apply core_enqueue|]. simpl. intros _. apply Hb. by destruct (ad_queue a).
    + destruct (Z.leb_spec (ad_maxQueue a) (Z.of_nat (length (ad_queue a)))); [apply HR|].
      split; [by apply core_enqueue|]. simpl. intros _. pose proof (core_inflight _ _ C). lia.
  - split; [|done]. apply (core_receive a ts id s ok); auto.
  - split; [by apply core_cancel|]. simpl. intros Hne. apply Hb. intros E. rewrite E in Hw.
    by apply elem_of_nil in Hw.
  - split; [by apply core_return|done].
  - split; [|done]. apply (core_receive a ts id s ok); auto.
  - apply release_ok; auto.
  - split; [|done]. simpl. assert (adm_core a (<[id := TGone]> ts)) as C'.
    { apply core_retire; auto; try done; [by rewrite Hid|]. unfold fly. by rewrite Hid. }
    destruct C'. by constructor.
  - apply release_ok; auto.
Qed.

(** ** Configuration *)

Definition config (a : admission) : Z * Z * Z * Z :=
  (ad_maxInflight a, ad_maxQueue a, ad_subjectCap a, ad_minService a).

Lemma dispatch_scan_config clk ws best k a : config (dispatch_scan clk ws best k a).2 = config a.
Proof.
  revert best k a. induction ws as [|w ws IH]; intros best k a; simpl; [done|].
  destruct (_ <? _); by rewrite IH.
Qed.

Lemma dispatch_config clk fuel k a : config (dispatch clk fuel k a) = config a.
Proof.
  revert k a. induction fuel as [|fuel IH]; intros k a; simpl; [done|].
  destruct (_ <? _); [|done].
  pose proof (dispatch_scan_config clk (ad_queue a) None k a) as HC.
  destruct (dispatch_scan _ _ _ _ a) as [[[w|] k1] a1]; simpl in HC; [|done]. by rewrite IH.
Qed.

Lemma adm_step_config st st' : adm_step st st' → config st'.1 = config st.1.
Proof.
  intros []; simpl; try done; try (unfold release, dispatchLocked; by rewrite dispatch_config).
  unfold acquire_begin. by repeat case_match.
Qed.

Lemma adm_reach_inv st st' :
  rtc adm_step st st' → adm_inv st → adm_inv st' ∧ config st'.1 = config st.1.
Proof.
  induction 1 as [|st st1 st2 Hs _ IH]; [done|]. intros HI.
  destruct (IH (adm_step_inv _ _ Hs HI)) as [H2 E2]. split; [done|].
  by rewrite E2, (adm_step_config _ _ Hs).
Qed.

Lemma newAdmission_inv mi mq share ms a :
  newAdmission mi mq share ms = Some a → 0 ≤ mq →
  adm_inv (a, ∅) ∧ ad_maxInflight a = mi ∧ ad_maxQueue a = mq.
Proof.
  unfold newAdmission. destruct (Z.leb_spec mi 0); [done|]. intros [= <-] Hq. split; [|done].
  split; [|done]. simpl. constructor; simpl; try lia; try done.
  - intros s. destruct (Z.ltb_spec (Z.quot ((mi + mq) * (if (share <=? 0) || (100 <? share) then 100 else share) + 99) 100) 1);
      unfold cnt; rewrite lookup_empty; simpl; lia.
  - apply NoDup_nil. done.
  - by intros w Hw%elem_of_nil.
  - intros id s [Hi|Hi]; by rewrite lookup_empty in Hi.
  - intros id [x Hx]. by rewrite lookup_empty in Hx.
Qed.

(** ** Properties *)

(** The queue in front of OPA is bounded, fair in share and never idle. Whatever the
    interleaving of arrivals, grants, cancellations and releases, the places taken are
    exactly those of the requests in flight and at most [MaxInflight], the waiters at most
    [MaxQueue], the places and waiters of a subject together at most its share; a request
    waits only while every place is taken; and no waiting request is forgotten: it is in the
    queue or its answer is in its channel. *)
Theorem admission_bounded mi mq share ms a0 a ts :
  newAdmission mi mq share ms = Some a0 → 0 ≤ mq → rtc adm_step (a0, ∅) (a, ts) →
  ad_inflight a = Z.of_nat (size (flying a ts)) ∧ ad_inflight a ≤ mi ∧
  Z.of_nat (length (ad_queue a)) ≤ mq ∧
  (∀ s, count s (flying a ts) + qcount s (ad_queue a) ≤ ad_subjectCap a0) ∧
  (ad_queue a ≠ [] → ad_inflight a = mi) ∧
  (∀ id s, ts !! id = Some (TWaiting s) ∨ ts !! id = Some (TReturning s) →
     (∃ w, w ∈ ad_queue a ∧ w_id w = id) ∨ is_Some (ad_granted a !! id)).
Proof.
  intros HN Hq Hr. destruct (newAdmission_inv _ _ _ _ _ HN Hq) as (HI & E1 & E2).
  destruct (adm_reach_inv _ _ Hr HI) as [[C Hb] EC]. simpl in *. unfold config in EC.
  injection EC as EM EQ ES _. destruct C as [C1 C2 C3 C4 C5 C6 C7 C8 C9 C10].
  split_and!; auto; try lia.
  - intros s. specialize (C3 s). specialize (C6 s). specialize (C5 s). lia.
  - intros Hne. rewrite Hb by done. lia.
Qed.

(** A free place goes to the subject that has the fewest. A pass of [dispatchLocked]
    over the queue keeps the order of the waiters, drops only waiters with less than
    [minService] left, and chooses among the others one whose subject has the fewest requests
    in flight, the oldest of these, with at least [minService] left; when it chooses none,
    none was left. *)
Theorem dispatch_serves_fairly clk k a :
  NoDup (w_id <$> ad_queue a) →
  let '(best, _, a') := dispatch_scan clk (ad_queue a) None k a in
  sublist (ad_queue a') (ad_queue a) ∧
  (∀ x, x ∈ ad_queue a → x ∉ ad_queue a' →
     ∃ i, Sub (w_deadline x) (clk i) < ad_minService a) ∧
  match best with
  | None => ad_queue a' = []
  | Some w => ∃ l1 l2, ad_queue a' = l1 ++ w :: l2 ∧
      (∃ i, ad_minService a ≤ Sub (w_deadline w) (clk i)) ∧
      (∀ x, x ∈ l1 → cnt (ad_running a) (w_subject w) < cnt (ad_running a) (w_subject x)) ∧
      (∀ x, x ∈ l2 → cnt (ad_running a) (w_subject w) ≤ cnt (ad_running a) (w_subject x))
  end.
Proof.
  intros Hnd. pose proof (dispatch_scan_spec clk (ad_queue a) [] None k a eq_refl Hnd eq_refl) as HS.
  destruct (dispatch_scan clk (ad_queue a) None k a) as [[best k1] a1].
  destruct HS as (rest & E1 & Hsub & HB & Hin & Hout & _). simpl in *. rewrite E1.
  split_and!; [done|done|]. destruct best as [w|]; [|done].
  destruct HB as (l1 & l2 & -> & H1 & H2). exists l1, l2. split_and!; auto.
  apply Hin, elem_of_app. right. apply elem_of_cons. by left.
Qed.
