(* ===== verification/OPAClient.v ===== *)
(** The fail-closed client of the policy engine: [src/pep/opa_client.go].

    [opa_Eval] turns whatever happens on the wire into a verdict. What OPA answers is a function
    [answer] of the input it is sent, so that every behaviour of the engine, of the network
    and of the bounded queue in front of it (Admission.v) is covered; the two contexts are the
    flags of [opa_ctx]. The counters of consecutive faults and of unanswered requests are the
    state of the client. The measured duration of a call is not modelled. *)
From S2P Require Import Prelude.
From S2P Require Import Leaf.
From S2P Require Import Effects.
From S2P Require Import Records.
From S2P Require Import Token.
From S2P Require Import Admission.

Local Open Scope Z_scope.

Definition EvalTimeout : Z := 5 * millisecond.

Definition ReasonOPADeny : string := "opa-deny".
Definition ReasonOPAUndefined : string := "opa-undefined".
Definition ReasonOPATimeout : string := "opa-timeout".
Definition ReasonOPAUnreachable : string := "opa-unreachable".
Definition ReasonOPAError : string := "opa-error".
Definition ReasonOPABadResponse : string := "opa-bad-response".
Definition ReasonOPACallerCancelled : string := "opa-caller-cancelled".
Definition ReasonOPAOverloaded : string := "opa-overloaded".
Definition ReasonOPAStalled : string := "opa-stalled".

Definition minUnansweredForStall : Z := 3.
Definition overloadedHoldMS : Z := 5000.

Record DryRunEntry := mkDryRunEntry { dr_Object : string; dr_Field : string; dr_Kind : string }.

Record DryRunInput := mkDryRunInput {
  dr_Available : bool; dr_DiffHash : string; dr_EntryCount : Z; dr_Entries : list DryRunEntry }.

Record SkillInput := mkSkillInput { sk_RiskTier : string; sk_ScopeSize : Z }.

Record OPAInput := mkOPAInput {
  oi_JTI : bytes; oi_Subject : string; oi_Action : string; oi_Resource : string;
  oi_Class : Class_; oi_Epoch : Z; oi_DryRun : option DryRunInput; oi_Skill : option SkillInput }.

(** What comes back: a refusal of the queue, an input that cannot be encoded, a request that
    cannot be built, a transport error, a status other than 200, a body that does not decode,
    or a decoded result, whose [result] and [allow] may each be absent. *)
Inductive opa_io :=
  | IoShed | IoEncode | IoRequest | IoTransport | IoStatus (code : Z) | IoBody
  | IoResult (result : option (option bool)).

(** [ctx.Err() != nil], and [ectx.Err() == DeadlineExceeded]. *)
Record opa_ctx := mkOpaCtx { cx_done : bool; cx_deadline : bool }.

Record OPADecision := mkOPADecision {
  od_Allow : bool; od_Reason : string; od_LeafWritten : bool; od_LeafErr : option append_error }.

Record OPAClient := mkOPAClient {
  oc_producer : Producer;
  oc_timeout : Z;
  oc_onTrip : bool;
  oc_tripAfter : Z;
  oc_stallWindow : Z;
  oc_faults : Z;
  oc_lastAlive : Z;
  oc_unanswered : Z;
}.

Definition set_counters (faults lastAlive unanswered : Z) (c : OPAClient) : OPAClient :=
  mkOPAClient (oc_producer c) (oc_timeout c) (oc_onTrip c) (oc_tripAfter c) (oc_stallWindow c)
    faults lastAlive unanswered.

(** [NewOPAClient] at clock reading [now]: [None] is a configuration error. *)
Definition NewOPAClient (endpoint cellID : string) (salt : bytes) (leaves journal onTrip : bool)
    (timeout tripAfter stallWindow maxInflight maxQueue subjectShare minService now : Z) :
    option OPAClient :=
  if bool_decide (endpoint = "") then None
  else if bool_decide (cellID = "") then None
  else if (length salt <? 16)%nat then None
  else if negb leaves then None
  else if timeout <? 0 then None
  else if tripAfter <? 0 then None
  else if stallWindow <? 0 then None
  else if (maxInflight <? 0) || (maxQueue <? 0) || (subjectShare <? 0) || (100 <? subjectShare)
          || (minService <? 0) then None
  else Some (mkOPAClient (mkProducer cellID salt journal)
               (if timeout =? 0 then EvalTimeout else timeout) onTrip
               (if tripAfter =? 0 then 1 else tripAfter) stallWindow 0 (UnixNano now) 0).

(** [classifyContextFault]: whose time ran out, if anyone's. *)
Definition classifyContextFault (x : opa_ctx) : option string :=
  if cx_done x then Some ReasonOPACallerCancelled
  else if cx_deadline x then Some ReasonOPATimeout
  else None.

(** The verdict of [Eval] before its epilogue. *)
Definition opa_verdict (io : opa_io) (x : opa_ctx) : bool * string :=
  match io with
  | IoShed => (false, if cx_done x then ReasonOPACallerCancelled else ReasonOPAOverloaded)
  | IoEncode => (false, ReasonOPABadResponse)
  | IoRequest => (false, ReasonOPAUnreachable)
  | IoTransport => (false, default ReasonOPAUnreachable (classifyContextFault x))
  | IoStatus _ => (false, ReasonOPAError)
  | IoBody => (false, default ReasonOPABadResponse (classifyContextFault x))
  | IoResult None => (false, ReasonOPAUndefined)
  | IoResult (Some None) => (false, ReasonOPABadResponse)
  | IoResult (Some (Some false)) => (false, ReasonOPADeny)
  | IoResult (Some (Some true)) => (true, ReasonOK)
  end.

(** [Stalled] at clock reading [now]. *)
Definition Stalled (now : Z) (c : OPAClient) : bool :=
  if oc_stallWindow c <=? 0 then false
  else (minUnansweredForStall <=? oc_unanswered c) &&
       (oc_stallWindow c <=? Sub now (oc_lastAlive c)).

Definition noteAlive (now : Z) (c : OPAClient) : OPAClient :=
  set_counters (oc_faults c) (UnixNano now) 0 c.

Definition noteUnanswered (now : Z) (c : OPAClient) (t : trace) : OPAClient * trace :=
  let c1 := set_counters (oc_faults c) (oc_lastAlive c) (i64 (oc_unanswered c + 1)) c in
  (c1, if Stalled now c1 then call_alarm (oc_onTrip c1) ReasonOPAStalled t else t).

(** What the exchange says about the life of OPA. *)
Definition note_exchange (io : opa_io) (reason : string) (now : Z) (c : OPAClient) (t : trace) :
    OPAClient * trace :=
  match io with
  | IoShed | IoEncode | IoRequest => (c, t)
  | IoTransport =>
      if bool_decide (reason ≠ ReasonOPACallerCancelled) then noteUnanswered now c t else (c, t)
  | IoStatus _ | IoBody | IoResult _ => (noteAlive now c, t)
  end.

(** The first half of [finish]: the count of consecutive faults, and the alarm. *)
Definition count_fault (reason : string) (c : OPAClient) (t : trace) : OPAClient * trace :=
  let faults n := set_counters n (oc_lastAlive c) (oc_unanswered c) c in
  if bool_decide (reason ∈ [ReasonOPATimeout; ReasonOPAUnreachable; ReasonOPAError]) then
    let n := i64 (oc_faults c + 1) in
    (faults n, if oc_tripAfter c <=? n then call_alarm (oc_onTrip c) reason t else t)
  else if bool_decide (reason = ReasonOPABadResponse) then
    (faults (i64 (oc_faults c + 1)), call_alarm (oc_onTrip c) reason t)
  else if bool_decide (reason ∈ [ReasonOPACallerCancelled; ReasonOPAOverloaded]) then (c, t)
  else (faults 0, t).

Section opa.
Context `{Crypto, Env}.

(** [finish]; [ts] is the clock reading of the leaf. *)
Definition finish (jti : bytes) (allow : bool) (reason : string) (ts : Z) (c : OPAClient)
    (t : trace) : OPADecision * OPAClient * trace :=
  let '(c1, t1) := count_fault reason c t in
  match appendLeaf (oc_producer c) KindDecision (decisionLeafRecord jti allow reason)
          (UnixNano ts) t1 with
  | (Some e, t2) =>
      (mkOPADecision false (if allow then ReasonLeafWriteFailed else reason) false (Some e), c1, t2)
  | (None, t2) => (mkOPADecision allow reason true None, c1, t2)
  end.

(** [OPAClient.Eval]; [now] is the reading of [noteAlive] or [noteUnanswered]. *)
Definition opa_Eval (answer : OPAInput → opa_io) (x : opa_ctx) (now ts : Z) (inp : OPAInput)
    (c : OPAClient) (t : trace) : OPADecision * OPAClient * trace :=
  let io := answer inp in
  let '(allow, reason) := opa_verdict io x in
  let '(c1, t1) := note_exchange io reason now c t in
  finish (oi_JTI inp) allow reason ts c1 t1.
End opa.

(** [Status]: what a supervisor reads. *)
Record OPAStatus := mkOPAStatus {
  os_State : string; os_Stalled : bool; os_SilentMS : Z; os_Unanswered : Z;
  os_ConsecutiveFaults : Z }.

Definition opa_Status (now now2 now3 : Z) (adm : option admission) (c : OPAClient) : OPAStatus :=
  let stalled := Stalled now2 c in
  let overloaded := match adm with
    | None => false
    | Some a => let '(_, queued, _, since) := adm_snapshot now3 a in
        (0 <? queued) || ((0 <=? since) && (since <? overloadedHoldMS))
    end in
  mkOPAStatus (if stalled then "stalled" else if overloaded then "overloaded" else "healthy")
    stalled (Z.quot (Sub now (oc_lastAlive c)) millisecond) (oc_unanswered c) (oc_faults c).

(** ** One call *)

Section opa_lemmas.
Context `{Crypto, Env}.

(** The alarms of a call before its leaf. *)
Definition trip_alarm (reason : string) (c : OPAClient) : list string :=
  if oc_onTrip c && (bool_decide (reason = ReasonOPABadResponse) ||
       (bool_decide (reason ∈ [ReasonOPATimeout; ReasonOPAUnreachable; ReasonOPAError]) &&
        (oc_tripAfter c <=? oc_faults c)))
  then [reason] else [].

Lemma alarms_of_call plugged r t :
  alarms_of (call_alarm plugged r t) = alarms_of t ++ (if plugged then [r] else []).
Proof. unfold call_alarm. destruct plugged; [|by rewrite app_nil_r]. by rewrite alarms_of_app. Qed.

Lemma count_fault_alarms reason c t :
  alarms_of (count_fault reason c t).2 = alarms_of t ++ trip_alarm reason (count_fault reason c t).1.
Proof.
  unfold count_fault, trip_alarm. case_bool_decide as E1; simpl.
  - rewrite (bool_decide_false (reason = ReasonOPABadResponse)) 
      by (intros ->; by apply (bool_decide_eq_true_2 _) in E1).
    simpl.
    destruct (_ <=? _); [by rewrite alarms_of_call, andb_true_r|by rewrite andb_false_r, app_nil_r].
  - case_bool_decide as E2; simpl.
    + by rewrite alarms_of_call, andb_true_r.
    + case_bool_decide; simpl; by rewrite andb_false_r, app_nil_r.
Qed.

Lemma count_fault_leaves reason c t : leaves_of (count_fault reason c t).2 = leaves_of t.
Proof.
  assert (∀ b r u, leaves_of (call_alarm b r u) = leaves_of u) as HC.
  { intros [] r u; simpl; [|done]. rewrite leaves_of_app. apply app_nil_r. }
  unfold count_fault. repeat case_bool_decide; simpl; try done. by destruct (_ <=? _).
Qed.

Lemma count_fault_producer reason c t : oc_producer (count_fault reason c t).1 = oc_producer c.
Proof. unfold count_fault. by repeat case_bool_decide. Qed.

(** [finish] writes the leaf of its own verdict, or refuses. *)
Lemma finish_spec jti allow reason ts c t :
  let '(d, c', t') := finish jti allow reason ts c t in
  c' = (count_fault reason c t).1 ∧
  alarms_of t' = alarms_of (count_fault reason c t).2 ∧
  leaves_of t' = leaves_of t ++
    (if od_LeafWritten d
     then [leaf_for (oc_producer c) KindDecision (decisionLeafRecord jti allow reason) (UnixNano ts)]
     else []) ∧
  (if od_LeafWritten d then od_Allow d = allow ∧ od_Reason d = reason else od_Allow d = false).
Proof.
  unfold finish. pose proof (count_fault_leaves reason c t) as HL.
  destruct (count_fault reason c t) as [c1 t1]. simpl in HL.
  pose proof (appendLeaf_observed (oc_producer c) KindDecision (decisionLeafRecord jti allow reason)
    (UnixNano ts) t1) as W.
  destruct (appendLeaf _ _ _ _ t1) as [[e|] t2]; destruct W as (W1 & W2 & _); simpl;
    rewrite W1, W2, HL; done.
Qed.

(** What the exchange adds: the stall alarm, and no leaf. *)
Definition stall_alarm (io : opa_io) (reason : string) (now : Z) (c : OPAClient) : list string :=
  match io with
  | IoTransport =>
      if bool_decide (reason ≠ ReasonOPACallerCancelled) && oc_onTrip c && Stalled now c
      then [ReasonOPAStalled] else []
  | _ => []
  end.

Lemma note_exchange_spec io reason now c t :
  let '(c', t') := note_exchange io reason now c t in
  leaves_of t' = leaves_of t ∧ alarms_of t' = alarms_of t ++ stall_alarm io reason now c' ∧
  oc_faults c' = oc_faults c ∧ oc_producer c' = oc_producer c ∧ oc_onTrip c' = oc_onTrip c ∧
  oc_tripAfter c' = oc_tripAfter c ∧ oc_stallWindow c' = oc_stallWindow c.
Proof.
  destruct io; simpl; rewrite ?app_nil_r; try done. case_bool_decide; simpl; [|by rewrite app_nil_r].
  match goal with |- context [Stalled now ?c'] => destruct (Stalled now c') end;
    [|by rewrite andb_false_r, app_nil_r].
  rewrite alarms_of_call, andb_true_r. unfold call_alarm.
  split_and!; try done. destruct (oc_onTrip c); [|done]. rewrite leaves_of_app. apply app_nil_r.
Qed.

(** When OPA lets a request through. *)
Lemma opa_Eval_allow answer x now ts inp c t :
  od_Allow (opa_Eval answer x now ts inp c t).1.1 = true ↔
    answer inp = IoResult (Some (Some true)) ∧
    (appendLeaf (oc_producer c) KindDecision (decisionLeafRecord (oi_JTI inp) true ReasonOK)
       (UnixNano ts) t).1 = None.
Proof.
  unfold opa_Eval, finish. split.
  - destruct (opa_verdict (answer inp) x) as [allow reason] eqn:EV.
    destruct (note_exchange _ _ _ _ _) as [c1 t1] eqn:EN.
    destruct (count_fault reason c1 t1) as [c2 t2] eqn:EC. intros Ha.
    destruct (answer inp) as [| | | |code| |[[[]|]|]] eqn:EA; simpl in EV; simplify_eq;
      try (by destruct (appendLeaf _ _ _ _ t2) as [[e|] t3]).
    split; [done|]. unfold note_exchange in EN. simplify_eq/=.
    assert (t2 = t1) as -> by (change (count_fault ReasonOK (noteAlive now c) t1) with
      (set_counters 0 (UnixNano now) 0 c, t1) in EC; by injection EC).
    destruct (appendLeaf _ _ _ _ t1) as [[e|] t3]; done.
  - intros [-> HL]. simpl. destruct (appendLeaf _ _ _ _ t) as [[e|] t3]; done.
Qed.

(** When OPA lets a request through. [Eval] allows exactly when the engine answered
    200 with [allow = true] and the leaf of that decision was written; every other outcome of
    the queue, the network, the engine or the registry is a refusal. *)
Theorem opa_allows_exactly answer x now ts inp c t :
  od_Allow (opa_Eval answer x now ts inp c t).1.1 = true ↔
    answer inp = IoResult (Some (Some true)) ∧
    (appendLeaf (oc_producer c) KindDecision (decisionLeafRecord (oi_JTI inp) true ReasonOK)
       (UnixNano ts) t).1 = None.
Proof. apply opa_Eval_allow. Qed.
End opa_lemmas.

(** ** Sequences of calls *)

Record opa_call := mkOpaCall {
  k_answer : OPAInput → opa_io; k_ctx : opa_ctx; k_now : Z; k_ts : Z; k_in : OPAInput }.

Definition k_io (k : opa_call) : opa_io := k_answer k (k_in k).
Definition k_reason (k : opa_call) : string := (opa_verdict (k_io k) (k_ctx k)).2.

(** Faults of OPA, and calls that say nothing of its health. *)
Definition is_fault (k : opa_call) : bool :=
  bool_decide (k_reason k ∈
    [ReasonOPATimeout; ReasonOPAUnreachable; ReasonOPAError; ReasonOPABadResponse]).
Definition is_neutral (k : opa_call) : bool :=
  bool_decide (k_reason k ∈ [ReasonOPACallerCancelled; ReasonOPAOverloaded]).

(** A call OPA answered, and one it was sent and did not answer. *)
Definition answered (k : opa_call) : bool :=
  match k_io k with IoStatus _ | IoBody | IoResult _ => true | _ => false end.
Definition unanswered (k : opa_call) : bool :=
  match k_io k with
  | IoTransport => bool_decide (k_reason k ≠ ReasonOPACallerCancelled)
  | _ => false
  end.

(** The number of elements at the head of a list that satisfy [P]. *)
Fixpoint leading {A} (P : A → bool) (l : list A) : Z :=
  match l with [] => 0 | x :: l' => if P x then 1 + leading P l' else 0 end.

Lemma leading_range {A} (P : A → bool) l : 0 ≤ leading P l ≤ Z.of_nat (length l).
Proof. induction l as [|x l IH]; simpl; [lia|]. destruct (P x); lia. Qed.

(** Of a history, oldest call first: the faults since OPA last answered soundly, the calls
    without an answer since its last answer, and the date of that answer. *)
Definition fault_streak (ks : list opa_call) : Z :=
  leading is_fault (reverse (filter (λ k, is_neutral k = false) ks)).
Definition unanswered_streak (ks : list opa_call) : Z :=
  leading unanswered (reverse (filter (λ k, answered k || unanswered k = true) ks)).
Definition last_answer (since : Z) (ks : list opa_call) : Z :=
  default since (UnixNano ∘ k_now <$> head (reverse (filter (λ k, answered k = true) ks))).

Section opa_runs.
Context `{Crypto, Env}.

Definition opa_apply (k : opa_call) (c : OPAClient) (t : trace) :
    OPADecision * OPAClient * trace :=
  opa_Eval (k_answer k) (k_ctx k) (k_now k) (k_ts k) (k_in k) c t.

Fixpoint opa_run (ks : list opa_call) (c : OPAClient) (t : trace) : OPAClient * trace :=
  match ks with
  | [] => (c, t)
  | k :: ks' => let '(_, c1, t1) := opa_apply k c t in opa_run ks' c1 t1
  end.

(** What one call does to the counters and to the alarms. *)
Lemma opa_apply_spec k c t :
  let '(_, c', t') := opa_apply k c t in
  oc_faults c' = (if is_neutral k then oc_faults c
                  else if is_fault k then i64 (oc_faults c + 1) else 0) ∧
  oc_unanswered c' = (if answered k then 0 else if unanswered k then i64 (oc_unanswered c + 1)
                      else oc_unanswered c) ∧
  oc_lastAlive c' = (if answered k then UnixNano (k_now k) else oc_lastAlive c) ∧
  oc_onTrip c' = oc_onTrip c ∧ oc_tripAfter c' = oc_tripAfter c ∧
  oc_stallWindow c' = oc_stallWindow c ∧
  alarms_of t' = alarms_of t ++ stall_alarm (k_io k) (k_reason k) (k_now k) c'
                 ++ trip_alarm (k_reason k) c'.
Proof.
  unfold opa_apply, opa_Eval, is_neutral, is_fault, answered, unanswered, k_reason. fold (k_io k).
  destruct (opa_verdict (k_io k) (k_ctx k)) as [allow reason] eqn:EV. cbn [snd].
  pose proof (note_exchange_spec (k_io k) reason (k_now k) c t) as HN.
  destruct (note_exchange _ _ _ _ _) as [c1 t1] eqn:EN.
  destruct HN as (_ & HA & HF & HP & HT & HTA & HS).
  pose proof (finish_spec (oi_JTI (k_in k)) allow reason (k_ts k) c1 t1) as HD.
  destruct (finish _ _ _ _ _ _) as [[d c'] t']. destruct HD as (-> & HA' & _).
  rewrite HA', count_fault_alarms, HA. rewrite <-app_assoc.
  assert (∀ c2, (count_fault reason c1 t1).1 = c2 →
    oc_unanswered c2 = oc_unanswered c1 ∧ oc_lastAlive c2 = oc_lastAlive c1 ∧
    oc_onTrip c2 = oc_onTrip c1 ∧ oc_tripAfter c2 = oc_tripAfter c1 ∧
    oc_stallWindow c2 = oc_stallWindow c1) as HC.
  { intros c2 <-. unfold count_fault. by repeat case_bool_decide. }
  destruct (HC _ eq_refl) as (C1 & C2 & C3 & C4 & C5).
  assert (stall_alarm (k_io k) reason (k_now k) (count_fault reason c1 t1).1 =
          stall_alarm (k_io k) reason (k_now k) c1) as ->.
  { unfold stall_alarm, Stalled. by rewrite C1, C2, C3, C5. }
  rewrite C1, C2, C3, C4, C5. clear HC C1 C2 C3 C4 C5 HA HA'.
  split_and!; try congruence.
  - rewrite <-HF. clear. unfold count_fault.
    destruct (bool_decide (reason ∈ [ReasonOPATimeout; ReasonOPAUnreachable; ReasonOPAError])) eqn:E1.
    + apply bool_decide_eq_true in E1. repeat (apply elem_of_cons in E1 as [->|E1]; [done|]).
      by apply elem_of_nil in E1.
    + apply bool_decide_eq_false in E1. case_bool_decide as E2; [by subst|]. simpl.
      case_bool_decide as E3; [done|].
      rewrite bool_decide_false; [done|]. intros Hin. apply E1.
      apply elem_of_cons in Hin as [->|Hin]; [by left|].
      apply elem_of_cons in Hin as [->|Hin]; [by right; left|].
      apply elem_of_cons in Hin as [->|Hin]; [by right; right; left|].
      by apply list_elem_of_singleton in Hin.
  - unfold note_exchange, noteUnanswered in EN. destruct (k_io k); simplify_eq; try done.
    case_bool_decide; by simplify_eq.
  - unfold note_exchange, noteUnanswered in EN. destruct (k_io k); simplify_eq; try done.
    case_bool_decide; by simplify_eq.
Qed.

(** Streaks, one call later. *)
Lemma fault_streak_snoc ks k :
  fault_streak (ks ++ [k]) =
    if is_neutral k then fault_streak ks else if is_fault k then fault_streak ks + 1 else 0.
Proof.
  unfold fault_streak. rewrite filter_app, filter_cons, filter_nil, reverse_app.
  destruct (is_neutral k); [by rewrite decide_False|]. rewrite decide_True by done. simpl.
  destruct (is_fault k); lia.
Qed.

Lemma unanswered_streak_snoc ks k :
  unanswered_streak (ks ++ [k]) =
    if answered k then 0 else if unanswered k then unanswered_streak ks + 1
    else unanswered_streak ks.
Proof.
  unfold unanswered_streak. rewrite filter_app, filter_cons, filter_nil, reverse_app.
  destruct (decide (answered k || unanswered k = true)) as [Ed|Ed]; simpl.
  - destruct (unanswered k) eqn:Eu; [|by destruct (answered k)].
    unfold unanswered, answered in *. destruct (k_io k); try done. lia.
  - by destruct (answered k), (unanswered k).
Qed.

Lemma last_answer_snoc since ks k :
  last_answer since (ks ++ [k]) = if answered k then UnixNano (k_now k) else last_answer since ks.
Proof.
  unfold last_answer. rewrite filter_app, filter_cons, filter_nil, reverse_app.
  destruct (answered k); [by rewrite decide_True|by rewrite decide_False].
Qed.

Lemma streaks_short ks :
  0 ≤ fault_streak ks ≤ Z.of_nat (length ks) ∧ 0 ≤ unanswered_streak ks ≤ Z.of_nat (length ks).
Proof.
  unfold fault_streak, unanswered_streak. split.
  - pose proof (leading_range is_fault (reverse (filter (λ k, is_neutral k = false) ks))) as HL.
    rewrite length_reverse in HL. pose proof (length_filter (λ k, is_neutral k = false) ks). lia.
  - pose proof (leading_range unanswered (reverse (filter (λ k, answered k || unanswered k = true) ks))) as HL.
    rewrite length_reverse in HL.
    pose proof (length_filter (λ k, answered k || unanswered k = true) ks). lia.
Qed.

Lemma opa_run_app ks ks' c t :
  opa_run (ks ++ ks') c t = let '(c1, t1) := opa_run ks c t in opa_run ks' c1 t1.
Proof.
  revert c t. induction ks as [|k ks IH]; intros c t; simpl; [done|].
  destruct (opa_apply k c t) as [[d c1] t1]. apply IH.
Qed.

(** The counters are what the history says, as long as it is shorter than [2^63]. *)
Lemma opa_run_counters ks c t :
  oc_faults c = 0 → oc_unanswered c = 0 → Z.of_nat (length ks) < 2^63 →
  let '(c', _) := opa_run ks c t in
  oc_faults c' = fault_streak ks ∧ oc_unanswered c' = unanswered_streak ks ∧
  oc_lastAlive c' = last_answer (oc_lastAlive c) ks ∧
  oc_onTrip c' = oc_onTrip c ∧ oc_tripAfter c' = oc_tripAfter c ∧
  oc_stallWindow c' = oc_stallWindow c.
Proof.
  intros HF HU. induction ks as [|k ks IH] using rev_ind; intros HL; [done|].
  rewrite length_app in HL. simpl in HL. rewrite opa_run_app.
  destruct (opa_run ks c t) as [c1 t1]. destruct IH as (I1 & I2 & I3 & I4 & I5 & I6); [lia|].
  simpl. pose proof (opa_apply_spec k c1 t1) as HS.
  destruct (opa_apply k c1 t1) as [[d c2] t2]. destruct HS as (S1 & S2 & S3 & S4 & S5 & S6 & _).
  rewrite fault_streak_snoc, unanswered_streak_snoc, last_answer_snoc, S1, S2, S3, S4, S5, S6, I1, I2, I3.
  pose proof (streaks_short ks). rewrite !i64_small by (unfold in_i64; lia). done.
Qed.

(** Alarms follow the history. Over any sequence of calls from a new client, a call
    raises the alarm of its reason exactly when it breaks the contract of the answer, or is
    the [tripAfter]-th consecutive fault of OPA or a later one, cancelled and shed calls not
    counting; and it raises the stall alarm exactly when it is at least the third unanswered
    call since the last answer, itself at least the stall window ago. *)
Theorem opa_alarms_follow_history c0 t0 ks k :
  oc_faults c0 = 0 → oc_unanswered c0 = 0 → oc_onTrip c0 = true →
  Z.of_nat (length ks) + 1 < 2^63 →
  let '(c, t) := opa_run ks c0 t0 in
  alarms_of (opa_apply k c t).2 = alarms_of t
    ++ (if unanswered k && (0 <? oc_stallWindow c0) && (3 <=? unanswered_streak (ks ++ [k])) &&
           (oc_stallWindow c0 <=? Sub (k_now k) (last_answer (oc_lastAlive c0) ks))
        then [ReasonOPAStalled] else [])
    ++ (if bool_decide (k_reason k = ReasonOPABadResponse) ||
           (is_fault k && (oc_tripAfter c0 <=? fault_streak (ks ++ [k])))
        then [k_reason k] else []).
Proof.
  intros HF HU HT HL.
  pose proof (opa_run_counters (ks ++ [k]) c0 t0 HF HU) as HC. rewrite opa_run_app in HC.
  destruct (opa_run ks c0 t0) as [c t]. simpl in HC. pose proof (opa_apply_spec k c t) as HS.
  destruct (opa_apply k c t) as [[d c'] t'].
  destruct HC as (C1 & C2 & C3 & C4 & C5 & C6); [rewrite length_app; simpl; lia|].
  destruct HS as (_ & _ & _ & _ & _ & _ & HA). simpl. rewrite HA. f_equal. f_equal.
  - unfold stall_alarm, Stalled. rewrite C2, C3, C4, C6, HT. unfold minUnansweredForStall.
    rewrite last_answer_snoc. unfold unanswered, answered, k_reason.
    destruct (k_io k); try done. rewrite andb_true_r.
    destruct (Z.leb_spec (oc_stallWindow c0) 0), (Z.ltb_spec 0 (oc_stallWindow c0)); try lia.
    + by rewrite !andb_false_r.
    + by rewrite andb_true_r, andb_assoc.
  - unfold trip_alarm, is_fault. rewrite C1, C4, C5, HT. simpl.
    case_bool_decide as E1; [done|]. simpl.
    rewrite (bool_decide_ext (k_reason k ∈ [ReasonOPATimeout; ReasonOPAUnreachable; ReasonOPAError])
      (k_reason k ∈ [ReasonOPATimeout; ReasonOPAUnreachable; ReasonOPAError; ReasonOPABadResponse]));
      [done|]. rewrite !elem_of_cons. naive_solver.
Qed.
End opa_runs.
