(* ===== verification/ObjectSeal.v ===== *)
(** Object capabilities: [src/pep/object_capability.go].

    [ComputeObjectSeal] seals a set of fields under a canonical order. The seal does not
    depend on the order the caller gives, nor on how the sort breaks ties, because two fields
    with the same key are refused; and it determines the set. *)
From S2P Require Import Prelude.
From S2P Require Import Records.

Definition MaxSealFields : nat := 64.
Definition MaxSealObjectLen : nat := 1024.
Definition MaxSealFieldLen : nat := 255.
Definition MaxSealValueLen : nat := 4096.
Definition maxSealCellIDLen : nat := 255.

Record ObjectField := mkObjectField { of_Object : string; of_Field : string; of_Value : bytes }.

#[global] Instance ObjectField_eq_dec : EqDecision ObjectField.
Proof. solve_decision. Defined.

(** The keys the sort compares. *)
Definition field_key (f : ObjectField) : string * string := (of_Object f, of_Field f).
Definition field_le (a b : ObjectField) : Prop := lex string_le string_le (field_key a) (field_key b).
#[global] Instance field_le_dec : RelDecision field_le.
Proof. intros a b. unfold field_le. apply _. Defined.
#[global] Instance field_le_total : Total field_le.
Proof. intros a b. unfold field_le. apply (total (lex string_le string_le)). Qed.
#[global] Instance field_le_trans : Transitive field_le.
Proof. intros a b c. unfold field_le. apply (transitivity (R := lex string_le string_le)). Qed.

Definition field_in_bounds (f : ObjectField) : bool :=
  negb ((slen (of_Object f) =? 0) || (MaxSealObjectLen <? slen (of_Object f))) &&
  negb ((slen (of_Field f) =? 0) || (MaxSealFieldLen <? slen (of_Field f))) &&
  negb (MaxSealValueLen <? length (of_Value f)).

(** Two neighbours of the sorted slice with the same key. *)
Fixpoint has_duplicate (fs : list ObjectField) : bool :=
  match fs with
  | f :: (g :: _) as fs' => bool_decide (field_key f = field_key g) || has_duplicate fs'
  | _ => false
  end.

Definition field_bytes (f : ObjectField) : bytes :=
  len16 (slen (of_Object f)) ++ sb (of_Object f) ++ len16 (slen (of_Field f)) ++ sb (of_Field f)
  ++ be 4 (Z.of_nat (length (of_Value f)) mod 2^32) ++ of_Value f.

Definition seal_preimage (cellID : string) (policyID : bytes) (fs : list ObjectField) : bytes :=
  sb "TBPO1" ++ [len8 cellID] ++ sb cellID ++ policyID ++ len16 (length fs)
  ++ concat (field_bytes <$> fs).

(** [ComputeObjectSeal]: [None] is [ErrSealBounds]. *)
Definition ComputeObjectSeal `{Crypto, SliceSort} (cellID : string) (policyID : bytes)
    (fields : list ObjectField) : option bytes :=
  if (slen cellID =? 0) || (maxSealCellIDLen <? slen cellID) then None
  else if MaxSealFields <? length fields then None
  else if negb (forallb field_in_bounds fields) then None
  else
    let sorted := sort_slice field_le fields in
    if has_duplicate sorted then None
    else Some (sha256 (seal_preimage cellID policyID sorted)).

(** ** Lemmas *)

(** On a sorted list, the comparison of neighbours finds every duplicate key. *)
Lemma has_duplicate_sorted fs :
  StronglySorted field_le fs → has_duplicate fs = false ↔ NoDup (field_key <$> fs).
Proof.
  induction 1 as [|f fs HS IH HF]; [split; [constructor|done]|].
  rewrite fmap_cons, NoDup_cons. rewrite <-IH. destruct fs as [|g fs]; simpl.
  { split; [|done]. split; [|done]. by intros ?%elem_of_nil. }
  rewrite orb_false_iff, bool_decide_eq_false. split; [|intros [Hn ?]; split; [|done]].
  - intros [Hne HD]. split; [|done].
    rewrite elem_of_cons. intros [?|(h & Eh & Hh)%list_elem_of_fmap]; [done|].
    apply Hne. apply Forall_cons in HF as [Hfg _]. apply StronglySorted_inv in HS as [_ HF].
    rewrite Forall_forall in HF. specialize (HF h Hh). unfold field_le in *.
    rewrite <-Eh in HF. by apply (anti_symm (lex string_le string_le)).
  - intros E. apply Hn. rewrite E. apply elem_of_cons. by left.
Qed.

Definition field_fits (f : ObjectField) : Prop :=
  slen (of_Object f) ≤ 1024 ∧ slen (of_Field f) ≤ 255 ∧ length (of_Value f) ≤ 4096.

Lemma in_bounds_fits f : field_in_bounds f = true → field_fits f.
Proof.
  unfold field_in_bounds, MaxSealObjectLen, MaxSealFieldLen, MaxSealValueLen, field_fits.
  destruct (Nat.ltb_spec 1024 (slen (of_Object f))), (Nat.ltb_spec 255 (slen (of_Field f))),
    (Nat.ltb_spec 4096 (length (of_Value f)));
    rewrite ?orb_true_r, ?andb_false_r; cbn [negb andb]; try done.
Qed.

Lemma field_bytes_app_inj f g k1 k2 :
  field_fits f → field_fits g → field_bytes f ++ k1 = field_bytes g ++ k2 → f = g ∧ k1 = k2.
Proof.
  intros (O1 & F1 & V1) (O2 & F2 & V2) E. unfold field_bytes in E. rewrite <-!app_assoc in E.
  apply str16_app_inj in E as [EO E]; [|lia..]. apply str16_app_inj in E as [EF E]; [|lia..].
  apply app_inj_len in E as [EL E]; [|by rewrite !length_be]. apply be_inj in EL.
  - rewrite !Z.mod_small in EL by lia. apply app_inj_len in E as [EV ->]; [|lia].
    by destruct f, g; simplify_eq/=.
  - rewrite Z.mod_small; lia.
  - rewrite Z.mod_small; lia.
Qed.

Section seal.
Context `{Crypto}.

Lemma seal_preimage_inj cell1 cell2 pol1 pol2 fs gs :
  slen cell1 ≤ 255 → slen cell2 ≤ 255 → length pol1 = 32 → length pol2 = 32 →
  length fs ≤ 64 → length gs ≤ 64 → Forall field_fits fs → Forall field_fits gs →
  seal_preimage cell1 pol1 fs = seal_preimage cell2 pol2 gs →
  cell1 = cell2 ∧ pol1 = pol2 ∧ fs = gs.
Proof.
  intros ??? Hp2 ???? E. unfold seal_preimage in E. apply app_inj_len in E as [_ E]; [|done].
  apply str8_app_inj in E as [-> E]; [|done..].
  apply app_inj_len in E as [-> E]; [|by rewrite Hp2].
  apply app_inj_len in E as [E2 E]; [|done]. apply len16_inj in E2; [|lia..].
  split_and!; auto. by apply (prefix_code_concat _ _ field_bytes_app_inj).
Qed.

(** What a computed seal is made of. *)
Lemma ComputeObjectSeal_Some (S : SliceSort) cell pol fs h :
  ComputeObjectSeal cell pol fs = Some h →
  slen cell ≤ 255 ∧ length fs ≤ 64 ∧ Forall field_fits fs ∧
  NoDup (field_key <$> fs) ∧ h = sha256 (seal_preimage cell pol (sort_slice field_le fs)).
Proof.
  unfold ComputeObjectSeal, MaxSealFields, maxSealCellIDLen.
  destruct (Nat.ltb_spec 255 (slen cell)); [by rewrite orb_true_r|]. destruct (_ || _); [done|].
  destruct (Nat.ltb_spec 64 (length fs)); [done|].
  destruct (forallb field_in_bounds fs) eqn:EB; cbn [negb]; [|done].
  destruct (has_duplicate _) eqn:ED; [done|]. intros [= <-]. split_and!; auto.
  - apply Forall_forall. intros f Hf. apply in_bounds_fits.
    rewrite forallb_forall in EB. by apply EB, list_elem_of_In.
  - apply has_duplicate_sorted in ED; [|apply sort_slice_sorted; apply _].
    by rewrite (sort_slice_perm field_le fs) in ED.
Qed.

(** An object seal is a commitment to a set of fields. It does not depend on the order
    the fields are given in nor on how the sort treats equal keys; and two sets sealed to the
    same value are the same set, for the same cell and the same policy, or exhibit a SHA-256
    collision. *)
Theorem object_seal_canonical (S1 S2 : SliceSort) cell1 cell2 pol1 pol2 fs gs :
  length pol1 = 32 → length pol2 = 32 →
  (fs ≡ₚ gs → ComputeObjectSeal (H0 := S1) cell1 pol1 fs = ComputeObjectSeal (H0 := S2) cell1 pol1 gs) ∧
  (∀ h, ComputeObjectSeal (H0 := S1) cell1 pol1 fs = Some h →
        ComputeObjectSeal (H0 := S2) cell2 pol2 gs = Some h →
        (cell1 = cell2 ∧ pol1 = pol2 ∧ fs ≡ₚ gs) ∨ sha256_collision).
Proof.
  intros L1 L2. split.
  - intros HP. unfold ComputeObjectSeal. destruct (_ || _); [done|]. rewrite <-(Permutation_length HP).
    destruct (_ <? _); [done|].
    assert (forallb field_in_bounds fs = forallb field_in_bounds gs) as ->.
    { apply eq_iff_eq_true. rewrite !forallb_forall. split; intros HF x Hx; apply HF;
        apply list_elem_of_In; apply list_elem_of_In in Hx; [by rewrite HP|by rewrite <-HP]. }
    destruct (negb _); [done|].
    assert (@sort_slice S1 _ field_le _ fs ≡ₚ @sort_slice S2 _ field_le _ gs) as HS.
    { by rewrite !sort_slice_perm. }
    pose proof (@sort_slice_sorted S1 _ field_le _ _ _ fs) as H1.
    pose proof (@sort_slice_sorted S2 _ field_le _ _ _ gs) as H2.
    destruct (has_duplicate (@sort_slice S1 _ field_le _ fs)) eqn:D1,
      (has_duplicate (@sort_slice S2 _ field_le _ gs)) eqn:D2; try done.
    + exfalso. apply has_duplicate_sorted in D2; [|done]. rewrite <-HS in D2.
      apply has_duplicate_sorted in D2; [congruence|done].
    + exfalso. apply has_duplicate_sorted in D1; [|done]. rewrite HS in D1.
      apply has_duplicate_sorted in D1; [congruence|done].
    + apply has_duplicate_sorted in D1; [|done]. do 3 f_equal. by apply (sorted_keys_unique field_key (lex string_le string_le)).
  - intros h E1 E2.
    apply ComputeObjectSeal_Some in E1 as (C1 & N1 & B1 & _ & ->).
    apply ComputeObjectSeal_Some in E2 as (C2 & N2 & B2 & _ & E).
    apply sha256_eq_or_collision in E as [E|?]; [left|by right].
    apply seal_preimage_inj in E as (-> & -> & E); auto.
    + split_and!; auto. rewrite <-(@sort_slice_perm S1 _ field_le _ fs), E. apply sort_slice_perm.
    + by rewrite sort_slice_perm.
    + by rewrite sort_slice_perm.
    + by rewrite sort_slice_perm.
    + by rewrite sort_slice_perm.
Qed.
End seal.
