(* ===== verification/DryRun.v ===== *)
(** The dry-run gate: [src/pep/dryrun.go].

    Before a governed action the target component may run it dry and report the state it
    would change. [CanonicalizeDiff] checks and orders that report, [HashDiff] commits to it,
    and [Execute] measures the run, writes its leaves and builds what the policy engine is
    shown. What the component answers is an argument ([None] is its error). *)
From S2P Require Import Prelude.
From S2P Require Import Hex.
From S2P Require Import Leaf.
From S2P Require Import Effects.
From S2P Require Import Records.
From S2P Require Import Token.
From S2P Require Import OPAClient.
From S2P Require Import ObjectSeal.

Definition ReasonDryRunFailed : string := "dryrun-failed".
Definition ReasonDryRunTimeout : string := "dryrun-timeout".
Definition ReasonDryRunCallerCancelled : string := "dryrun-caller-cancelled".

Definition DefaultDryRunTimeout : Z := 2 * second.
Definition MaxDryRunTimeout : Z := 30 * second.
Definition MaxDiffEntries : nat := MaxSealFields.

(** [DiffKind] is a [uint8]; these are its named values. *)
Definition DiffCreate : byte := Byte.x01.
Definition DiffUpdate : byte := Byte.x02.
Definition DiffDelete : byte := Byte.x03.

Definition DiffKind_String (k : byte) : string :=
  if bool_decide (k = DiffCreate) then "create"
  else if bool_decide (k = DiffUpdate) then "update"
  else if bool_decide (k = DiffDelete) then "delete"
  else "unknown".

Record DiffEntry := mkDiffEntry {
  de_Object : string; de_Field : string; de_Kind : byte;
  de_BeforeHash : bytes; de_AfterHash : bytes }.

Definition zeroHash : bytes := replicate 32 Byte.x00.

Definition kind_le (a b : byte) : Prop := (b2z a ≤ b2z b)%Z.
#[global] Instance kind_le_dec : RelDecision kind_le.
Proof. intros a b. unfold kind_le. apply _. Defined.
#[global] Instance kind_le_total : Total kind_le.
Proof. intros a b. unfold kind_le. lia. Qed.
#[global] Instance kind_le_trans : Transitive kind_le.
Proof. intros a b c. unfold kind_le. lia. Qed.
#[global] Instance kind_le_antisymm : AntiSymm (=) kind_le.
Proof. intros a b. unfold kind_le. intros ??. apply b2z_inj. lia. Qed.

(** The keys the sort compares: object, field, kind. *)
Definition diff_key (e : DiffEntry) : (string * string) * byte :=
  ((de_Object e, de_Field e), de_Kind e).
Definition diff_order : relation ((string * string) * byte) :=
  lex (lex string_le string_le) kind_le.
Definition diff_le (a b : DiffEntry) : Prop := diff_order (diff_key a) (diff_key b).
#[global] Instance diff_order_antisymm : AntiSymm (=) diff_order.
Proof. unfold diff_order. apply _. Qed.
#[global] Instance diff_le_dec : RelDecision diff_le.
Proof. intros a b. unfold diff_le, diff_order. apply _. Defined.
#[global] Instance diff_le_total : Total diff_le.
Proof. intros a b. unfold diff_le. apply (total (lex (lex string_le string_le) kind_le)). Qed.
#[global] Instance diff_le_trans : Transitive diff_le.
Proof.
  intros a b c. unfold diff_le. apply (transitivity (R := lex (lex string_le string_le) kind_le)).
Qed.

(** The structural checks on one entry. *)
Definition entry_ok (e : DiffEntry) : bool :=
  negb ((slen (de_Object e) =? 0) || (MaxSealObjectLen <? slen (de_Object e))) &&
  negb ((slen (de_Field e) =? 0) || (MaxSealFieldLen <? slen (de_Field e))) &&
  (if bool_decide (de_Kind e = DiffCreate) then bool_decide (de_BeforeHash e = zeroHash)
   else if bool_decide (de_Kind e = DiffDelete) then bool_decide (de_AfterHash e = zeroHash)
   else bool_decide (de_Kind e = DiffUpdate)).

(** [CanonicalizeDiff]: [None] is [ErrDiffBounds]. *)
Definition CanonicalizeDiff `{SliceSort} (d : list DiffEntry) : option (list DiffEntry) :=
  if MaxDiffEntries <? length d then None
  else if negb (forallb entry_ok d) then None
  else Some (sort_slice diff_le d).

Definition entry_bytes (e : DiffEntry) : bytes :=
  len16 (slen (de_Object e)) ++ sb (de_Object e) ++ len16 (slen (de_Field e)) ++ sb (de_Field e)
  ++ [de_Kind e] ++ de_BeforeHash e ++ de_AfterHash e.

Definition diff_preimage (cellID : string) (es : list DiffEntry) : bytes :=
  sb "TBPF1" ++ [len8 cellID] ++ sb cellID ++ len16 (length es) ++ concat (entry_bytes <$> es).

Definition HashDiff `{Crypto, SliceSort} (cellID : string) (d : list DiffEntry) : option bytes :=
  if (slen cellID =? 0) || (maxSealCellIDLen <? slen cellID) then None
  else c ← CanonicalizeDiff d; Some (sha256 (diff_preimage cellID c)).

Record DryRunGate := mkDryRunGate { dg_producer : Producer; dg_timeout : Z; dg_onAlarm : bool }.

(** [NewDryRunGate]: [None] is a configuration error; [runner] says whether one is given. *)
Definition NewDryRunGate (runner : bool) (timeout : Z) (cellID : string) (salt : bytes)
    (leaves journal onAlarm : bool) : option DryRunGate :=
  let timeout := if (timeout =? 0)%Z then DefaultDryRunTimeout else timeout in
  if negb runner then None
  else if (slen cellID =? 0) || (maxSealCellIDLen <? slen cellID) then None
  else if length salt <? 16 then None
  else if negb leaves then None
  else if ((timeout <? 0) || (MaxDryRunTimeout <? timeout))%Z then None
  else Some (mkDryRunGate (mkProducer cellID salt journal) timeout onAlarm).

Definition dryRunTelemetryRecord (jti : bytes) (available : bool) (digest : bytes) (elapsed : Z) :
    bytes :=
  sb "TBPF2" ++ jti ++ [verdict_byte available] ++ digest
  ++ be 8 (u64 (Z.quot elapsed microsecond)).

Section gate.
Context `{Crypto, Env, SliceSort}.

Definition writeDenyLeaf (g : DryRunGate) (jti : bytes) (reason : string) (ts : Z) (t : trace) :
    trace :=
  leafOrAlarm (dg_producer g) (dg_onAlarm g) KindDecision (decisionLeafRecord jti false reason)
    (UnixNano ts) t.

Definition writeTelemetryLeaf (g : DryRunGate) (jti : bytes) (available : bool) (digest : bytes)
    (elapsed ts : Z) (t : trace) : trace :=
  leafOrAlarm (dg_producer g) (dg_onAlarm g) KindTelemetry
    (dryRunTelemetryRecord jti available digest elapsed) (UnixNano ts) t.

Definition entry_view (e : DiffEntry) : DryRunEntry :=
  mkDryRunEntry (de_Object e) (de_Field e) (DiffKind_String (de_Kind e)).

(** [Execute]: [start] and [stop] bracket the run, [ts1] and [ts2] date the leaves. The flags
    of [x] are [ctx.Err() != nil] and [dctx.Err() == DeadlineExceeded]. *)
Definition Execute (g : DryRunGate) (result : option (list DiffEntry)) (x : opa_ctx)
    (start stop ts1 ts2 : Z) (jti : bytes) (t : trace) : (string + DryRunInput) * trace :=
  let elapsed := Sub stop start in
  let fail reason :=
    (inl reason, writeDenyLeaf g jti reason ts2
                   (writeTelemetryLeaf g jti false zeroHash elapsed ts1 t)) in
  match result with
  | None =>
      fail (if cx_done x then ReasonDryRunCallerCancelled
            else if cx_deadline x then ReasonDryRunTimeout
            else ReasonDryRunFailed)
  | Some diff =>
      match CanonicalizeDiff diff with
      | None => fail ReasonDryRunFailed
      | Some canon =>
          match HashDiff (p_cellID (dg_producer g)) canon with
          | None => fail ReasonDryRunFailed
          | Some digest =>
              let entries := entry_view <$> canon in
              (inr (mkDryRunInput true (hex digest) (Z.of_nat (length entries)) entries),
               writeTelemetryLeaf g jti true digest elapsed ts1 t)
          end
      end
  end.
End gate.

(** ** Lemmas *)

(** [BeforeHash] and [AfterHash] are arrays of 32 bytes. *)
Definition entry_sized (e : DiffEntry) : Prop :=
  length (de_BeforeHash e) = 32 ∧ length (de_AfterHash e) = 32.

Definition entry_fits (e : DiffEntry) : Prop :=
  slen (de_Object e) ≤ 1024 ∧ slen (de_Field e) ≤ 255 ∧ entry_sized e.

Lemma entry_ok_fits e : entry_ok e = true → entry_sized e → entry_fits e.
Proof.
  unfold entry_ok, MaxSealObjectLen, MaxSealFieldLen, entry_fits. intros HO HS.
  destruct (Nat.ltb_spec 1024 (slen (de_Object e))); [by rewrite orb_true_r in HO|].
  destruct (Nat.ltb_spec 255 (slen (de_Field e))); [|done].
  by rewrite orb_true_r, andb_false_r in HO.
Qed.

Lemma entry_bytes_app_inj a b k1 k2 :
  entry_fits a → entry_fits b → entry_bytes a ++ k1 = entry_bytes b ++ k2 → a = b ∧ k1 = k2.
Proof.
  intros (O1 & F1 & B1 & A1) (O2 & F2 & B2 & A2) E. unfold entry_bytes in E.
  rewrite <-!app_assoc in E.
  apply str16_app_inj in E as [EO E]; [|lia..]. apply str16_app_inj in E as [EF E]; [|lia..].
  simpl in E. injection E as EK E. apply app_inj_len in E as [EB E]; [|congruence].
  apply app_inj_len in E as [EA ->]; [|congruence]. by destruct a, b; simplify_eq/=.
Qed.

Section diff.
Context `{Crypto}.

Lemma diff_preimage_inj cell1 cell2 es fs :
  slen cell1 ≤ 255 → slen cell2 ≤ 255 → length es ≤ 64 → length fs ≤ 64 →
  Forall entry_fits es → Forall entry_fits fs →
  diff_preimage cell1 es = diff_preimage cell2 fs → cell1 = cell2 ∧ es = fs.
Proof.
  intros ?????? E. unfold diff_preimage in E. apply app_inj_len in E as [_ E]; [|done].
  apply str8_app_inj in E as [-> E]; [|done..].
  apply app_inj_len in E as [E2 E]; [|done]. apply len16_inj in E2; [|lia..].
  split; [done|]. by apply (prefix_code_concat _ _ entry_bytes_app_inj).
Qed.

Lemma HashDiff_Some (S : SliceSort) cell d h :
  HashDiff cell d = Some h → Forall entry_sized d →
  slen cell ≤ 255 ∧ length d ≤ 64 ∧ Forall entry_fits d ∧
  h = sha256 (diff_preimage cell (sort_slice diff_le d)).
Proof.
  unfold HashDiff, CanonicalizeDiff, MaxDiffEntries, MaxSealFields, maxSealCellIDLen.
  destruct (Nat.ltb_spec 255 (slen cell)); [by rewrite orb_true_r|]. destruct (_ || _); [done|].
  destruct (Nat.ltb_spec 64 (length d)); [done|].
  destruct (forallb entry_ok d) eqn:EB; cbn [negb]; [|done]. intros [= <-] HS. split_and!; auto.
  rewrite Forall_forall in HS |- *. intros e He. apply entry_ok_fits; [|auto].
  rewrite forallb_forall in EB. by apply EB, list_elem_of_In.
Qed.

Lemma CanonicalizeDiff_perm (S1 S2 : SliceSort) d1 d2 :
  d1 ≡ₚ d2 → NoDup (diff_key <$> d1) →
  CanonicalizeDiff (H := S1) d1 = CanonicalizeDiff (H := S2) d2.
Proof.
  intros HP Hnd. unfold CanonicalizeDiff. rewrite <-(Permutation_length HP). destruct (_ <? _); [done|].
  assert (forallb entry_ok d1 = forallb entry_ok d2) as ->.
  { apply eq_iff_eq_true. rewrite !forallb_forall. split; intros HF x Hx; apply HF;
      apply list_elem_of_In; apply list_elem_of_In in Hx; [by rewrite HP|by rewrite <-HP]. }
  destruct (negb _); [done|]. f_equal. apply (sorted_keys_unique diff_key diff_order).
  - apply (@sort_slice_sorted S1 _ diff_le); apply _.
  - apply (@sort_slice_sorted S2 _ diff_le); apply _.
  - by rewrite !sort_slice_perm.
  - by rewrite sort_slice_perm.
Qed.

(** The hash shown to the policy commits to the diff. Two reports with the same hash
    list the same changes, for the same cell, or exhibit a SHA-256 collision; and the hash of
    a report that changes no (object, field, kind) twice does not depend on the order the
    component lists the changes in. *)
Theorem diff_hash_binds (S1 S2 : SliceSort) cell1 cell2 d1 d2 :
  Forall entry_sized d1 → Forall entry_sized d2 →
  (d1 ≡ₚ d2 → NoDup (diff_key <$> d1) →
     HashDiff (H0 := S1) cell1 d1 = HashDiff (H0 := S2) cell1 d2) ∧
  (∀ h, HashDiff (H0 := S1) cell1 d1 = Some h → HashDiff (H0 := S2) cell2 d2 = Some h →
     (cell1 = cell2 ∧ d1 ≡ₚ d2) ∨ sha256_collision).
Proof.
  intros Z1 Z2. split.
  - intros HP Hnd. unfold HashDiff. by rewrite (CanonicalizeDiff_perm S1 S2 d1 d2).
  - intros h E1 E2.
    apply HashDiff_Some in E1 as (C1 & N1 & B1 & ->); [|done].
    apply HashDiff_Some in E2 as (C2 & N2 & B2 & E); [|done].
    apply sha256_eq_or_collision in E as [E|?]; [left|by right].
    apply diff_preimage_inj in E as (-> & E); rewrite ?sort_slice_perm; auto.
    split; [done|]. rewrite <-(@sort_slice_perm S1 _ diff_le _ d1), E. apply sort_slice_perm.
Qed.
End diff.

Section gate_theorems.
Context `{Crypto, Env, SliceSort}.

(** A canonical diff is its own canonical form up to the order of equal keys, so the second
    pass of [HashDiff] accepts it. *)
Lemma HashDiff_canonical cell d canon :
  0 < slen cell ≤ 255 → CanonicalizeDiff d = Some canon → is_Some (HashDiff cell canon).
Proof.
  intros Hc. unfold HashDiff, CanonicalizeDiff, maxSealCellIDLen.
  destruct (Nat.eqb_spec (slen cell) 0); [lia|]. destruct (Nat.ltb_spec 255 (slen cell)); [lia|].
  cbn [orb]. destruct (MaxDiffEntries <? length d) eqn:EL; [done|].
  destruct (forallb entry_ok d) eqn:EB; cbn [negb]; [|done]. intros [= <-].
  rewrite (Permutation_length (sort_slice_perm diff_le d)), EL.
  assert (forallb entry_ok (sort_slice diff_le d) = true) as ->; [|simpl; eauto].
  rewrite forallb_forall in EB |- *. intros e He. apply EB. apply list_elem_of_In.
  rewrite <-(sort_slice_perm diff_le d). by apply list_elem_of_In.
Qed.

(** The dry run fails closed, and is measured either way. [Execute] yields an input for the
    policy exactly when the component reported a diff within the bounds; the input carries the
    hash and the structure of that diff, and the telemetry leaf commits to the same hash.
    Otherwise it yields a reason, after the telemetry leaf and the deny leaf of that reason.
    Each leaf that cannot be written raises the alarm in its place. *)
Lemma Execute_spec g result x start stop ts1 ts2 jti t :
  0 < slen (p_cellID (dg_producer g)) ≤ 255 →
  let '(r, t') := Execute g result x start stop ts1 ts2 jti t in
  match r with
  | inr inp => ∃ diff canon digest d,
      result = Some diff ∧ CanonicalizeDiff diff = Some canon ∧
      HashDiff (p_cellID (dg_producer g)) canon = Some digest ∧
      inp = mkDryRunInput true (hex digest) (Z.of_nat (length canon)) (entry_view <$> canon) ∧
      t' = t ++ d ∧ cuts_of d = [] ∧
      leaf_or_alarm (dg_producer g) (dg_onAlarm g) KindTelemetry
        (dryRunTelemetryRecord jti true digest (Sub stop start)) (UnixNano ts1) d
  | inl reason => ∃ d1 d2,
      (∀ diff, result = Some diff → CanonicalizeDiff diff = None ∧ reason = ReasonDryRunFailed) ∧
      t' = t ++ d1 ++ d2 ∧ cuts_of (d1 ++ d2) = [] ∧
      leaf_or_alarm (dg_producer g) (dg_onAlarm g) KindTelemetry
        (dryRunTelemetryRecord jti false zeroHash (Sub stop start)) (UnixNano ts1) d1 ∧
      leaf_or_alarm (dg_producer g) (dg_onAlarm g) KindDecision
        (decisionLeafRecord jti false reason) (UnixNano ts2) d2
  end.
Proof.
  intros Hc. unfold Execute.
  assert (∀ reason, ∃ d1 d2, writeDenyLeaf g jti reason ts2
      (writeTelemetryLeaf g jti false zeroHash (Sub stop start) ts1 t) = t ++ d1 ++ d2 ∧
      cuts_of (d1 ++ d2) = [] ∧
      leaf_or_alarm (dg_producer g) (dg_onAlarm g) KindTelemetry
        (dryRunTelemetryRecord jti false zeroHash (Sub stop start)) (UnixNano ts1) d1 ∧
      leaf_or_alarm (dg_producer g) (dg_onAlarm g) KindDecision
        (decisionLeafRecord jti false reason) (UnixNano ts2) d2) as HF.
  { intros reason. unfold writeTelemetryLeaf, writeDenyLeaf.
    destruct (leafOrAlarm_trace (dg_producer g) (dg_onAlarm g) KindTelemetry
      (dryRunTelemetryRecord jti false zeroHash (Sub stop start)) (UnixNano ts1) t)
      as (d1 & -> & C1 & W1).
    destruct (leafOrAlarm_trace (dg_producer g) (dg_onAlarm g) KindDecision
      (decisionLeafRecord jti false reason) (UnixNano ts2) (t ++ d1)) as (d2 & -> & C2 & W2).
    exists d1, d2. rewrite app_assoc, cuts_of_app, C1, C2. auto. }
  destruct result as [diff|].
  - destruct (CanonicalizeDiff diff) as [canon|] eqn:EC.
    + destruct (HashDiff_canonical _ _ _ Hc EC) as [digest ED]. rewrite ED.
      unfold writeTelemetryLeaf. edestruct leafOrAlarm_trace as (d & -> & C & W).
      exists diff, canon, digest, d. by rewrite length_fmap.
    + destruct (HF ReasonDryRunFailed) as (d1 & d2 & ? & ? & ? & ?). exists d1, d2.
      split_and!; auto. by intros ? [= <-].
  - match goal with |- context [writeDenyLeaf g jti ?r] =>
      destruct (HF r) as (d1 & d2 & ? & ? & ? & ?) end.
    exists d1, d2. split_and!; auto. done.
Qed.
End gate_theorems.
