(* ===== verification/Listener.v ===== *)
(** The decision server: [src/pep/listener.go].

    [evaluate] is the whole decision chain: the gate and the validator, the dry run, the
    passport, the policy engine and the posture, in that order. The handlers are modelled from
    the decoded body on; decoding JSON and base64 and writing the response are not. A reading
    of the clock, an answer of the engine and a report of the component are the fields of
    [eval_env], one per use. The components the validator consults are its [Seams]. *)
From S2P Require Import Prelude.
From S2P Require Import Hex.
From S2P Require Import Leaf.
From S2P Require Import Effects.
From S2P Require Import Records.
From S2P Require Import Token.
From S2P Require Import Quota.
From S2P Require Import Quorum.
From S2P Require Import FailClosed.
From S2P Require Import Mode.
From S2P Require Import Validator.
From S2P Require Import OPAClient.
From S2P Require Import DryRun.

Record ListenerStats := mkListenerStats {
  st_Evaluations : Z; st_Forwarded : Z; st_Denied : Z; st_WouldDeny : Z;
  st_MaxElapsedUs : Z; st_TotalElapsedUs : Z }.

Record Listener {C S : Type} := mkListener {
  ln_validator : Validator;
  ln_cache : C;
  ln_mode : ModeController S;
  ln_ledger : option QuotaLedger;
  ln_opa : option OPAClient;
  ln_dryRun : option DryRunGate;
  ln_failClosed : option (FailClosed S);
  ln_stats : ListenerStats;
}.
Arguments Listener : clear implicits.

(** [NewListener]: [None] is a configuration error. *)
Definition NewListener {C S} (validator : option (Validator * C)) (mode : option (ModeController S))
    (ledger : option QuotaLedger) (opa : option OPAClient) (dryRun : option DryRunGate)
    (failClosed : option (FailClosed S)) : option (Listener C S) :=
  match validator, mode with
  | Some (v, c), Some m =>
      Some (mkListener C S v c m ledger opa dryRun failClosed (mkListenerStats 0 0 0 0 0 0))
  | _, _ => None
  end.

Record evalOutcome := mkEvalOutcome {
  eo_Decision : Decision; eo_Forwarded : bool; eo_PassportOpened : bool; eo_Elapsed : Z }.

Record eval_env := mkEvalEnv {
  ee_now : Z; ee_now2 : Z;                                  (* validator, anti-replay cache *)
  ee_report : string → string → option (list DiffEntry);    (* the dry run of an action *)
  ee_dctx : opa_ctx; ee_start : Z; ee_stop : Z; ee_ts1 : Z; ee_ts2 : Z;
  ee_open : Z; ee_cut : Z;                                  (* the ledger and its leaf *)
  ee_answer : OPAInput → opa_io; ee_octx : opa_ctx; ee_onow : Z; ee_ots : Z;
  ee_elapsed : Z }.

(** [d.Allow = false; d.Reason = reason]: the rest of the decision stays. *)
Definition refuse (reason : string) (d : Decision) : Decision :=
  mkDecision false reason (d_Token d) (d_JTI d) (d_LeafWritten d) (d_LeafErr d).

Definition dry_run_unavailable : DryRunInput := mkDryRunInput false "" 0 [].

Definition set_stats {C S} (c : C) (ledger : option QuotaLedger) (opa : option OPAClient)
    (st : ListenerStats) (l : Listener C S) : Listener C S :=
  mkListener C S (ln_validator l) c (ln_mode l) ledger opa (ln_dryRun l) (ln_failClosed l) st.

(** The counters after a verdict. The totals are [int64], the counts [uint64]. *)
Definition count_verdict (allow forwarded : bool) (elapsed : Z) (st : ListenerStats) :
    ListenerStats :=
  let us := Z.quot elapsed microsecond in
  mkListenerStats (u64 (st_Evaluations st + 1))
    (if forwarded then u64 (st_Forwarded st + 1) else st_Forwarded st)
    (if negb allow && negb forwarded then u64 (st_Denied st + 1) else st_Denied st)
    (if negb allow && forwarded then u64 (st_WouldDeny st + 1) else st_WouldDeny st)
    (Z.max (st_MaxElapsedUs st) us) (i64 (st_TotalElapsedUs st + us)).

Section listener.
Context {C S : Type} `{Crypto, Env, Cose, AntiReplayCache C, MapOrder, SliceSort}.

(** ** The decision chain *)

(** The dry run of a governed action, when there is an engine to show it to. *)
Definition stage_dry_run (l : Listener C S) (x : eval_env) (req : Request) (d : Decision)
    (t : trace) : Decision * option DryRunInput * trace :=
  match d_Allow d, d_Token d, ln_opa l with
  | true, Some tok, Some _ =>
      if bool_decide (t_Class tok = ClassOut) then (d, None, t)
      else match ln_dryRun l with
           | Some g =>
               match Execute g (ee_report x (r_Action req) (r_Resource req)) (ee_dctx x)
                       (ee_start x) (ee_stop x) (ee_ts1 x) (ee_ts2 x) (d_JTI d) t with
               | (inl reason, t1) => (refuse reason d, None, t1)
               | (inr inp, t1) => (d, Some inp, t1)
               end
           | None => (d, Some dry_run_unavailable, t)
           end
  | _, _, _ => (d, None, t)
  end.

(** The passport: opened with the door, or the door stays closed. *)
Definition stage_passport (ledger : option QuotaLedger) (x : eval_env) (d : Decision)
    (t : trace) : Decision * bool * option QuotaLedger * trace :=
  match d_Allow d, d_Token d, ledger with
  | true, Some tok, Some q =>
      match t_Quota tok with
      | None => (d, false, ledger, t)
      | Some _ =>
          match Open (ee_open x) (Some tok) q t with
          | (inl _, q1, t1) =>
              let d1 := refuse TripReasonQuotaSaturated d in
              (d1, false, Some q1, writeCutLeaf (ql_cfg q1) (ee_cut x) (d_JTI d1) (d_Reason d1) t1)
          | (inr _, q1, t1) => (d, true, Some q1, t1)
          end
      end
  | _, _, _ => (d, false, ledger, t)
  end.

(** What the engine is asked about an allowed token. *)
Definition opa_question (jti : bytes) (req : Request) (tok : Token) (dry : option DryRunInput) :
    OPAInput :=
  mkOPAInput jti (t_Sub tok) (r_Action req) (r_Resource req) (t_Class tok) (t_Epoch tok)
    dry None.

(** The engine has the last word. An allowed decision always carries its token. *)
Definition stage_opa (opa : option OPAClient) (x : eval_env) (req : Request)
    (dry : option DryRunInput) (d : Decision) (t : trace) : Decision * option OPAClient * trace :=
  match d_Allow d, d_Token d, opa with
  | true, Some tok, Some o =>
      let '(od, o1, t1) := opa_Eval (ee_answer x) (ee_octx x) (ee_onow x) (ee_ots x)
                             (opa_question (d_JTI d) req tok dry) o t in
      ((if od_Allow od then d else refuse (od_Reason od) d), Some o1, t1)
  | _, _, _ => (d, opa, t)
  end.

(** [evaluate]. *)
Definition evaluate (sm : Seams) (x : eval_env) (wire : bytes) (req : Request) (l : Listener C S)
    (t : trace) : evalOutcome * Listener C S * trace :=
  let '(d0, c1, t0) := ValidateAt (ln_validator l) sm wire req (ee_now x) (ee_now2 x)
                         (ln_cache l) t in
  let '(d1, dry, t1) := stage_dry_run l x req d0 t0 in
  let '(d2, opened, ledger, t2) := stage_passport (ln_ledger l) x d1 t1 in
  let '(d3, opa, t3) := stage_opa (ln_opa l) x req dry d2 t2 in
  let forwarded := Allows (ln_mode l) (d_Allow d3) in
  (mkEvalOutcome d3 forwarded opened (ee_elapsed x),
   set_stats c1 ledger opa (count_verdict (d_Allow d3) forwarded (ee_elapsed x) (ln_stats l)) l,
   t3).

(** ** Consumption of a passport *)

Definition consumeErrReason (e : quota_error) : string :=
  match e with
  | ErrQuotaExceeded => ReasonQuotaExceeded
  | ErrPassportExpired => ReasonPassportExpired
  | ErrPassportClosed => "passport-closed"
  | _ => "consume-error"
  end.

Inductive consume_response :=
  | BadToken                                                   (* 400 *)
  | PossessionRefused                                          (* 403 *)
  | ConsumeResponse (ok : bool) (err : string) (remaining : Z) (closed : bool).

(** [counter.Remaining()] and [counter.Closed()]. *)
Definition counter_state (p : nat) (q : QuotaLedger) : Z * bool :=
  match ql_heap q !! p with Some c => (pc_remaining c, pc_closed c) | None => (0%Z, false) end.

(** [handleConsume], from the decoded body; [wire] is [None] when the token is not base64. *)
Definition handleConsume (wire : option bytes) (n now ts : Z) (l : Listener C S) (t : trace) :
    consume_response * Listener C S * trace :=
  match ln_ledger l with
  | None => (ConsumeResponse false "pas de registre de quotas sur ce listener" 0 false, l, t)
  | Some q =>
    match wire with
    | None => (BadToken, l, t)
    | Some w =>
      match VerifyPossession (v_keyring (ln_validator l)) w with
      | inl _ => (PossessionRefused, l, t)
      | inr tok =>
        match ql_counters q !! t_JTI tok with
        | None => (ConsumeResponse false "passeport inconnu" 0 false, l, t)
        | Some p =>
          match ConsumeAt p now ts n q t with
          | None => (ConsumeResponse false "passeport inconnu" 0 false, l, t)
          | Some (e, q1, t1) =>
              let '(remaining, closed) := counter_state p q1 in
              (ConsumeResponse (match e with None => true | Some _ => false end)
                 (match e with None => "" | Some e' => consumeErrReason e' end) remaining closed,
               set_stats (ln_cache l) (Some q1) (ln_opa l) (ln_stats l) l, t1)
          end
        end
      end
    end
  end.

(** ** Verdicts *)

(** The decision leaves of a trace. *)
Definition decisions (t : trace) : list Leaf := filter (λ l, Kind l = KindDecision) (leaves_of t).

(** The registry ends with a decision leaf that commits to the verdict [d]. *)
Definition verdict_traced (d : Decision) (t : trace) : Prop :=
  ∃ p seal ts, last (decisions t) =
    Some (leaf_for p KindDecision (validatorRecord (d_JTI d) (d_Allow d) (d_Reason d) seal) ts).

(** The journal and the registry take the leaves of [p] dated [ts]. *)
Definition writable (p : Producer) (ts : Z) : Prop :=
  ∀ kind record t, kind ∈ known_kinds → (appendLeaf p kind record ts t).1 = None.

Lemma decisions_snoc t t' l :
  leaves_of t' = leaves_of t ++ [l] → Kind l = KindDecision → last (decisions t') = Some l.
Proof.
  intros E K. unfold decisions. rewrite E, filter_app, filter_cons, decide_True by done.
  apply last_snoc.
Qed.

Lemma leafOrAlarm_writable p plugged kind record ts t :
  writable p ts → kind ∈ known_kinds →
  leaves_of (leafOrAlarm p plugged kind record ts t) = leaves_of t ++ [leaf_for p kind record ts].
Proof.
  intros W K. unfold leafOrAlarm. pose proof (appendLeaf_observed p kind record ts t) as HO.
  specialize (W kind record t K). destruct (appendLeaf _ _ _ _ t) as [r t']. simpl in W. subst r.
  by destruct HO as [-> _].
Qed.

Lemma decisionLeafRecord_validator jti allow reason :
  decisionLeafRecord jti allow reason = validatorRecord jti allow reason None.
Proof. unfold decisionLeafRecord, validatorRecord. by rewrite app_nil_r. Qed.

(** A refusal followed by its own leaf is traced. *)
Lemma refuse_traced p ts reason d t t' :
  leaves_of t' = leaves_of t ++
    [leaf_for p KindDecision (decisionLeafRecord (d_JTI d) false reason) ts] →
  verdict_traced (refuse reason d) t'.
Proof.
  intros E. exists p, None, ts. rewrite <-decisionLeafRecord_validator.
  by apply (decisions_snoc t).
Qed.

Lemma ValidateAt_traced `{!AntiReplayLaws C} v sm wire req now now2 (c : C) t :
  writable (v_producer v) (UnixNano now) →
  let '(d, _, t') := ValidateAt v sm wire req now now2 c t in verdict_traced d t'.
Proof.
  intros W. pose proof (ValidateAt_leaf v sm wire req now now2 c t) as HL.
  assert (d_LeafWritten (ValidateAt v sm wire req now now2 c t).1.1 = true) as HW.
  { unfold ValidateAt. destruct (decide_ _ _ _ _ _ _ _ _) as [[d c'] t']. unfold writeLeaf.
    pose proof (W KindDecision (decision_record d) t' ltac:(by apply (bool_decide_unpack _))) as HA.
    destruct (appendLeaf _ _ _ _ t') as [r t1]. simpl in HA. by subst r. }
  destruct (ValidateAt _ _ _ _ _ _ _ _) as [[d c'] t']. simpl in HW. rewrite HW in HL.
  destruct HL as [HL _]. exists (v_producer v), (decision_seal d), (UnixNano now).
  by apply (decisions_snoc t).
Qed.

Lemma stage_dry_run_traced l x req d t :
  (∀ g, ln_dryRun l = Some g → writable (dg_producer g) (UnixNano (ee_ts1 x)) ∧
                                writable (dg_producer g) (UnixNano (ee_ts2 x))) →
  verdict_traced d t →
  verdict_traced (stage_dry_run l x req d t).1.1 (stage_dry_run l x req d t).2.
Proof.
  intros HW HT. unfold stage_dry_run.
  destruct (d_Allow d); [|done]. destruct (d_Token d) as [tok|]; [|done].
  destruct (ln_opa l); [|done]. case_bool_decide; [done|].
  destruct (ln_dryRun l) as [g|]; [|done]. destruct (HW g eq_refl) as [W1 W2]. clear HW.
  assert (∀ jti a dg el u, leaves_of (writeTelemetryLeaf g jti a dg el (ee_ts1 x) u) = leaves_of u ++
    [leaf_for (dg_producer g) KindTelemetry (dryRunTelemetryRecord jti a dg el) (UnixNano (ee_ts1 x))])
    as HTel.
  { intros. apply leafOrAlarm_writable; [done|]. by apply (bool_decide_unpack _). }
  assert (∀ jti r u, leaves_of (writeDenyLeaf g jti r (ee_ts2 x) u) = leaves_of u ++
    [leaf_for (dg_producer g) KindDecision (decisionLeafRecord jti false r) (UnixNano (ee_ts2 x))]) as HDeny.
  { intros. apply leafOrAlarm_writable; [done|]. by apply (bool_decide_unpack _). }
  unfold Execute. repeat case_match; simplify_eq/=; try (eapply refuse_traced; apply HDeny).
  destruct HT as (p & seal & ts & HT). exists p, seal, ts. rewrite <-HT. unfold decisions.
  by rewrite HTel, filter_app, filter_cons, decide_False, app_nil_r.
Qed.

Lemma Open_leaves now tok q t : leaves_of (Open now tok q t).2 = leaves_of t.
Proof.
  unfold Open, tripLocked, call_alarm. repeat case_match; simplify_eq/=; try done.
  rewrite leaves_of_app. apply app_nil_r.
Qed.

Lemma Open_cfg now tok q t : ql_cfg (Open now tok q t).1.2 = ql_cfg q.
Proof.
  assert (∀ n, ql_cfg (purgeLocked n q) = ql_cfg q) as HP.
  { intros n. apply (purge_fold n (map_range (map_to_list (ql_counters q))) q). }
  unfold Open, tripLocked. by repeat case_match; simplify_eq/=.
Qed.

Lemma stage_passport_traced ledger x d t :
  (∀ q, ledger = Some q → writable (lc_producer (ql_cfg q)) (UnixNano (ee_cut x))) →
  verdict_traced d t →
  verdict_traced (stage_passport ledger x d t).1.1.1 (stage_passport ledger x d t).2.
Proof.
  intros HW HT. unfold stage_passport.
  destruct (d_Allow d) eqn:Ea; [|done]. destruct (d_Token d) as [tok|]; [|done].
  destruct ledger as [q|]; [|done]. destruct (t_Quota tok); [|done].
  pose proof (Open_leaves (ee_open x) (Some tok) q t) as HL.
  pose proof (Open_cfg (ee_open x) (Some tok) q t) as HC.
  destruct (Open _ _ _ _) as [[[e|p] q1] t1]; simpl in *.
  - eapply refuse_traced. unfold writeCutLeaf. apply leafOrAlarm_writable.
    + rewrite HC. by apply HW.
    + by apply (bool_decide_unpack _).
  - destruct HT as (p' & seal & ts & HT). exists p', seal, ts. rewrite <-HT.
    unfold decisions. by rewrite HL.
Qed.

Lemma stage_opa_traced opa x req dry d t :
  (∀ o, opa = Some o → writable (oc_producer o) (UnixNano (ee_ots x))) →
  d_Reason d = ReasonOK ∨ d_Allow d = false → verdict_traced d t →
  verdict_traced (stage_opa opa x req dry d t).1.1 (stage_opa opa x req dry d t).2.
Proof.
  intros HW HR HT. unfold stage_opa.
  destruct (d_Allow d) eqn:Ea; [|done]. destruct (d_Token d) as [tok|]; [|done].
  destruct opa as [o|]; [|done]. destruct HR as [HR|HR]; [|done].
  unfold opa_Eval. destruct (opa_verdict _ _) as [allow reason] eqn:EV.
  pose proof (note_exchange_spec (ee_answer x (opa_question (d_JTI d) req tok dry)) reason
    (ee_onow x) o t) as HN.
  destruct (note_exchange _ _ _ _ _) as [o1 t1]. destruct HN as (_ & _ & _ & HP & _).
  pose proof (finish_spec (d_JTI d) allow reason (ee_ots x) o1 t1) as HF.
  assert (od_LeafWritten (finish (d_JTI d) allow reason (ee_ots x) o1 t1).1.1 = true) as HLW.
  { unfold finish. destruct (count_fault reason o1 t1) as [o2 t2]. rewrite HP.
    pose proof (HW o eq_refl KindDecision (decisionLeafRecord (d_JTI d) allow reason) t2
      ltac:(by apply (bool_decide_unpack _))) as HA.
    destruct (appendLeaf _ _ _ _ t2) as [r t3]. simpl in HA. by subst r. }
  simpl. destruct (finish _ _ _ _ _ _) as [[od o2] t2]. simpl in HLW. rewrite HLW in HF.
  destruct HF as (_ & _ & HL & -> & Hr). destruct allow.
  - exists (oc_producer o1), None, (UnixNano (ee_ots x)). simpl. rewrite Ea, HR.
    rewrite <-decisionLeafRecord_validator. apply (decisions_snoc t1); [|done]. rewrite HL.
    assert (reason = ReasonOK) as ->; [|done].
    unfold opa_verdict in EV. by repeat case_match; simplify_eq.
  - simpl. rewrite Hr. by eapply refuse_traced.
Qed.

(** What each stage keeps of an allowed decision. *)
Lemma stage_dry_run_allow l x req d t d' dry t' :
  stage_dry_run l x req d t = (d', dry, t') → d_Allow d' = true →
  d' = d ∧ (∀ tok o g, d_Token d = Some tok → ln_opa l = Some o → ln_dryRun l = Some g →
    t_Class tok ≠ ClassOut → ∃ inp, dry = Some inp ∧
      (Execute g (ee_report x (r_Action req) (r_Resource req)) (ee_dctx x) (ee_start x) (ee_stop x)
         (ee_ts1 x) (ee_ts2 x) (d_JTI d) t).1 = inr inp) ∧
    (∀ tok, d_Token d = Some tok → t_Class tok = ClassOut → dry = None) ∧
    (∀ tok o, d_Token d = Some tok → ln_opa l = Some o → ln_dryRun l = None →
       t_Class tok ≠ ClassOut → dry = Some dry_run_unavailable).
Proof.
  unfold stage_dry_run. intros E Ha.
  destruct (d_Allow d) eqn:Ed; [|simplify_eq; congruence].
  destruct (d_Token d) as [tok|]; [|by simplify_eq; split_and!].
  destruct (ln_opa l); [|by simplify_eq; split_and!].
  case_bool_decide as Hc; [by simplify_eq; split_and!; intros; simplify_eq|].
  destruct (ln_dryRun l) as [g|]; [|by simplify_eq; split_and!; intros; simplify_eq].
  destruct (Execute _ _ _ _ _ _ _ _ _) as [[reason|inp] t1] eqn:EX; simplify_eq/=.
  split_and!; [done| |by intros; simplify_eq..]. intros ??? _ _ [= <-] _. exists inp. by rewrite EX.
Qed.

Lemma stage_passport_allow ledger x d t d' opened ledger' t' :
  stage_passport ledger x d t = (d', opened, ledger', t') → d_Allow d' = true →
  d' = d ∧ ∀ tok qv q, d_Token d = Some tok → t_Quota tok = Some qv → ledger = Some q →
    opened = true ∧
    ∃ q', ledger' = Some q' ∧ Counter (t_JTI tok) q' = Some (new_counter (Unix (ee_open x)) tok qv).
Proof.
  unfold stage_passport. intros E Ha.
  destruct (d_Allow d) eqn:Ed; [|simplify_eq; congruence]. destruct (d_Token d) as [tok|]; [|by simplify_eq; split].
  destruct ledger as [q|]; [|by simplify_eq; split].
  destruct (t_Quota tok) as [qv|] eqn:Eq; [|split; [by simplify_eq|by intros; simplify_eq]].
  destruct (Open _ _ _ _) as [[[e|p] q1] t1] eqn:EO; simplify_eq/=.
  split; [done|]. intros ? ? ? [= <-] Hqv [= <-]. rewrite Eq in Hqv. injection Hqv as <-.
  split; [done|]. exists q1. split; [done|]. unfold Open in EO. rewrite Eq in EO.
  repeat case_match; simplify_eq/=. unfold Counter. simpl. rewrite lookup_insert_eq. simpl.
  by rewrite lookup_app_r, Nat.sub_diag.
Qed.

Lemma stage_opa_allow opa x req dry d t d' opa' t' :
  stage_opa opa x req dry d t = (d', opa', t') → d_Allow d' = true →
  d' = d ∧ ∀ tok o, d_Token d = Some tok → opa = Some o →
    ee_answer x (opa_question (d_JTI d) req tok dry) = IoResult (Some (Some true)).
Proof.
  unfold stage_opa. intros E Ha.
  destruct (d_Allow d) eqn:Ed; [|simplify_eq; congruence]. destruct (d_Token d) as [tok|]; [|by simplify_eq; split].
  destruct opa as [o|]; [|by simplify_eq; split].
  destruct (opa_Eval _ _ _ _ _ _ _) as [[od o1] t1] eqn:EE.
  destruct (od_Allow od) eqn:Eo; simplify_eq/=. split; [done|]. intros ?? [= <-] _.
  apply (opa_Eval_allow (ee_answer x) (ee_octx x) (ee_onow x) (ee_ots x)
    (opa_question (d_JTI d') req tok dry) o t). by rewrite EE.
Qed.

(** ** The claims *)

(** What the engine was shown of the dry run of an action. *)
Definition shown_dry_run (l : Listener C S) (x : eval_env) (req : Request) (tok : Token)
    (dry : option DryRunInput) : Prop :=
  if bool_decide (t_Class tok = ClassOut) then dry = None
  else match ln_dryRun l with
       | None => dry = Some dry_run_unavailable
       | Some g => ∃ diff canon digest,
           ee_report x (r_Action req) (r_Resource req) = Some diff ∧
           CanonicalizeDiff diff = Some canon ∧
           HashDiff (p_cellID (dg_producer g)) canon = Some digest ∧
           dry = Some (mkDryRunInput true (hex digest) (Z.of_nat (length canon))
                         (entry_view <$> canon))
       end.

Lemma stage_dry_run_shown l x req d t d' dry t' tok :
  (∀ g, ln_dryRun l = Some g → 0 < slen (p_cellID (dg_producer g)) ≤ 255) →
  stage_dry_run l x req d t = (d', dry, t') → d_Allow d' = true → d_Token d = Some tok →
  is_Some (ln_opa l) → shown_dry_run l x req tok dry.
Proof.
  intros Hg E Ha Ht [o Ho]. destruct (stage_dry_run_allow _ _ _ _ _ _ _ _ E Ha) as (_ & HX1 & HX2 & HX3).
  unfold shown_dry_run. case_bool_decide as Hc; [by eapply HX2|].
  destruct (ln_dryRun l) as [g|]; [|by eapply HX3].
  destruct (HX1 tok o g Ht Ho eq_refl Hc) as (inp & -> & HX).
  pose proof (Execute_spec g (ee_report x (r_Action req) (r_Resource req)) (ee_dctx x)
    (ee_start x) (ee_stop x) (ee_ts1 x) (ee_ts2 x) (d_JTI d) t (Hg g eq_refl)) as HS.
  destruct (Execute _ _ _ _ _ _ _ _ _) as [r t1]. simpl in HX. subst r.
  destruct HS as (diff & canon & digest & _ & ? & ? & ? & -> & _). by exists diff, canon, digest.
Qed.

(** What a forwarded flow had, in the closed posture. *)
Lemma evaluate_closed_forwards `{!CoseLaws} sm x wire req l t :
  (∀ g, ln_dryRun l = Some g → 0 < slen (p_cellID (dg_producer g)) ≤ 255) →
  let '(o, l', _) := evaluate sm x wire req l t in
  mc_mode (ln_mode l) = ModeClosed → eo_Forwarded o = true →
  gate_open sm ∧ ∃ tok,
    d_JTI (eo_Decision o) = t_JTI tok ∧
    authentic (v_keyring (ln_validator l)) wire tok ∧
    acceptable (ln_validator l) sm req (ee_now x) tok ∧
    (∀ q qv, ln_ledger l = Some q → t_Quota tok = Some qv →
       eo_PassportOpened o = true ∧ ∃ q', ln_ledger l' = Some q' ∧
         Counter (t_JTI tok) q' = Some (new_counter (Unix (ee_open x)) tok qv)) ∧
    (is_Some (ln_opa l) →
       ∃ dry, shown_dry_run l x req tok dry ∧
         ee_answer x (opa_question (t_JTI tok) req tok dry) = IoResult (Some (Some true))).
Proof.
  intros Hg. unfold evaluate.
  pose proof (ValidateAt_allow (ln_validator l) sm wire req (ee_now x) (ee_now2 x) (ln_cache l) t) as HV.
  destruct (ValidateAt _ _ _ _ _ _ _ _) as [[d0 c1] t0].
  destruct (stage_dry_run l x req d0 t0) as [[d1 dry] t1] eqn:E1.
  destruct (stage_passport (ln_ledger l) x d1 t1) as [[[d2 opened] ledger] t2] eqn:E2.
  destruct (stage_opa (ln_opa l) x req dry d2 t2) as [[d3 opa] t3] eqn:E3.
  simpl in *. unfold Allows. intros -> Ha.
  destruct (stage_opa_allow _ _ _ _ _ _ _ _ _ E3 Ha) as [-> HO].
  destruct (stage_passport_allow _ _ _ _ _ _ _ _ E2 Ha) as [-> HP].
  pose proof (stage_dry_run_allow _ _ _ _ _ _ _ _ E1 Ha) as [-> _].
  destruct (HV Ha) as (Hgate & _ & tok & Ht & Hj & Hau & Hac). split; [done|]. exists tok.
  split_and!; [done..| |].
  - intros q qv Hq Hqv. by apply (HP tok qv q).
  - intros Ho. exists dry. split; [by eapply stage_dry_run_shown|].
    rewrite <-Hj. destruct Ho as [o Ho]. by apply (HO tok o).
Qed.

(** A flow goes through the closed posture only when every component agrees. Then the
    gate was open; the presented bytes carry a token signed by a pinned key, and that token
    is in its window, of this policy and this epoch, for the requested action, resource and
    object; its passport was opened, fresh, when there is a ledger and the token has a quota;
    and the engine, when there is one, answered true to the question about this very token,
    shown the hash and the entries of the canonical dry run whenever the action is governed. *)
Theorem evaluate_allows_only_if_all_agree `{!CoseLaws} sm x wire req l t :
  (∀ g, ln_dryRun l = Some g → 0 < slen (p_cellID (dg_producer g)) ≤ 255) →
  let '(o, l', _) := evaluate sm x wire req l t in
  mc_mode (ln_mode l) = ModeClosed → eo_Forwarded o = true →
  gate_open sm ∧ ∃ tok,
    authentic (v_keyring (ln_validator l)) wire tok ∧
    acceptable (ln_validator l) sm req (ee_now x) tok ∧
    (∀ q qv, ln_ledger l = Some q → t_Quota tok = Some qv →
       ∃ q', ln_ledger l' = Some q' ∧
         Counter (t_JTI tok) q' = Some (new_counter (Unix (ee_open x)) tok qv)) ∧
    (is_Some (ln_opa l) →
       ∃ dry, shown_dry_run l x req tok dry ∧
         ee_answer x (opa_question (t_JTI tok) req tok dry) = IoResult (Some (Some true))).
Proof.
  intros Hg. pose proof (evaluate_closed_forwards sm x wire req l t Hg) as HE.
  destruct (evaluate sm x wire req l t) as [[o l'] t']. intros Hm Hf.
  destruct (HE Hm Hf) as (? & tok & _ & ? & ? & HQ & ?). split; [done|]. exists tok. split_and!; [done..| |done].
  intros q qv Hq Hqv. by apply (HQ q qv).
Qed.

(** Every verdict is on record as rendered. When the journals and the registry accept
    leaves, the last decision leaf of an evaluation commits to the token identifier, the
    verdict and the reason finally rendered, whichever component had the last word, and not
    to an earlier allow that a later stage took back. *)
Theorem evaluate_verdict_traced `{!CoseLaws, !AntiReplayLaws C} sm x wire req l t :
  writable (v_producer (ln_validator l)) (UnixNano (ee_now x)) →
  (∀ g, ln_dryRun l = Some g → writable (dg_producer g) (UnixNano (ee_ts1 x)) ∧
                                writable (dg_producer g) (UnixNano (ee_ts2 x))) →
  (∀ q, ln_ledger l = Some q → writable (lc_producer (ql_cfg q)) (UnixNano (ee_cut x))) →
  (∀ o, ln_opa l = Some o → writable (oc_producer o) (UnixNano (ee_ots x))) →
  let '(o, _, t') := evaluate sm x wire req l t in verdict_traced (eo_Decision o) t'.
Proof.
  intros WV WD WL WO. unfold evaluate.
  pose proof (ValidateAt_allow (ln_validator l) sm wire req (ee_now x) (ee_now2 x) (ln_cache l) t) as HV.
  pose proof (ValidateAt_traced (ln_validator l) sm wire req (ee_now x) (ee_now2 x) (ln_cache l) t WV) as T0.
  destruct (ValidateAt _ _ _ _ _ _ _ _) as [[d0 c1] t0]. simpl in HV, T0.
  pose proof (stage_dry_run_traced l x req d0 t0 WD T0) as T1.
  destruct (stage_dry_run l x req d0 t0) as [[d1 dry] t1] eqn:E1. simpl in T1.
  pose proof (stage_passport_traced (ln_ledger l) x d1 t1 WL T1) as T2.
  destruct (stage_passport (ln_ledger l) x d1 t1) as [[[d2 opened] ledger] t2] eqn:E2. simpl in T2.
  assert (d_Reason d2 = ReasonOK ∨ d_Allow d2 = false) as HR.
  { destruct (d_Allow d2) eqn:Ha; [left|by right].
    destruct (stage_passport_allow _ _ _ _ _ _ _ _ E2 Ha) as [-> _].
    pose proof (stage_dry_run_allow _ _ _ _ _ _ _ _ E1 Ha) as [-> _]. by apply HV. }
  pose proof (stage_opa_traced (ln_opa l) x req dry d2 t2 WO HR T2) as T3.
  by destruct (stage_opa (ln_opa l) x req dry d2 t2) as [[d3 opa] t3].
Qed.
(** ** Consumption *)

Definition consume_ok (r : consume_response) : bool :=
  match r with ConsumeResponse ok _ _ _ => ok | _ => false end.

(** The holder of [wire] asks the passport of the token it carries for [n]. *)
Definition presents (l : Listener C S) (q : QuotaLedger) (wire : option bytes) (jti : bytes)
    (c : PassportCounter) : Prop :=
  ∃ w tok, wire = Some w ∧ VerifyPossession (v_keyring (ln_validator l)) w = inr tok ∧
    authentic (v_keyring (ln_validator l)) w tok ∧ t_JTI tok = jti ∧ Counter jti q = Some c.

(** In a well-formed ledger the call through a pointer touches one passport. *)
Lemma ConsumeAt_counters p now ts n q t jti c :
  ledger_wf q → ql_counters q !! jti = Some p → ql_heap q !! p = Some c →
  ∃ q', ConsumeAt p now ts n q t =
    Some ((Consume (ql_cfg q) now ts n c t).1.1, q', (Consume (ql_cfg q) now ts n c t).2) ∧
  counter_state p q' = (pc_remaining (Consume (ql_cfg q) now ts n c t).1.2,
                        pc_closed (Consume (ql_cfg q) now ts n c t).1.2) ∧
  Counter jti q' = Some (Consume (ql_cfg q) now ts n c t).1.2 ∧
  ∀ jti', jti' ≠ jti → Counter jti' q' = Counter jti' q.
Proof.
  intros (_ & _ & _ & WC) Hp Hc. unfold ConsumeAt. rewrite Hc. simpl.
  pose proof (lookup_lt_Some _ _ _ Hc) as HL.
  destruct (Consume (ql_cfg q) now ts n c t) as [[e c'] t'].
  eexists. split; [done|]. unfold counter_state, Counter; simpl. rewrite Hp. simpl.
  rewrite list_lookup_insert_eq by done. split_and!; [done..|].
  intros jti' Hne. destruct (ql_counters q !! jti') as [p'|] eqn:E'; [|done]. simpl.
  apply list_lookup_insert_ne. intros <-.
  destruct (WC jti p Hp) as (c1 & H1' & <-). destruct (WC jti' p E') as (c2 & H2' & <-). congruence.
Qed.

(** Only the holder of a signed token draws on its passport. A consumption request
    leaves every passport as it was, except the one whose identifier is in a token signed by
    a pinned key and carried by the presented bytes; that one becomes exactly what [Consume]
    makes of it; and the request is accepted exactly when such a passport exists and its
    counter accepts the quantum. *)
Theorem consume_needs_possession wire n now ts l q t :
  ln_ledger l = Some q → ledger_wf q →
  let '(r, l', t') := handleConsume wire n now ts l t in
  ∃ q', ln_ledger l' = Some q' ∧
  (∀ jti, Counter jti q' = Counter jti q ∨
     ∃ c, presents l q wire jti c ∧
          Counter jti q' = Some (Consume (ql_cfg q) now ts n c t).1.2) ∧
  (t' = t ∨ ∃ jti c, presents l q wire jti c ∧ t' = (Consume (ql_cfg q) now ts n c t).2) ∧
  (consume_ok r = true ↔
     ∃ jti c, presents l q wire jti c ∧ (Consume (ql_cfg q) now ts n c t).1.1 = None).
Proof.
  intros Hl Hwf. unfold handleConsume. rewrite Hl.
  destruct wire as [w|]; [|exists q; split_and!; auto; split; [done|by intros (?&?&(?&?&?&_)&_)]].
  destruct (VerifyPossession _ w) as [e|tok] eqn:EV.
  { exists q. split_and!; auto. split; [done|]. intros (? & ? & (? & ? & [= <-] & ? & _) & _).
    congruence. }
  pose proof (VerifyPossession_authentic _ _ _ EV) as HA.
  destruct (ql_counters q !! t_JTI tok) as [p|] eqn:Ep.
  2: { exists q. split_and!; auto. split; [done|].
       intros (jti & c & (w' & tok' & [= <-] & EV' & _ & <- & Hc) & _).
       rewrite EV in EV'. injection EV' as <-.
       unfold Counter in Hc. by rewrite Ep in Hc. }
  destruct (proj2 (proj2 (proj2 Hwf)) _ _ Ep) as (c & Hc & _).
  destruct (ConsumeAt_counters p now ts n q t (t_JTI tok) c Hwf Ep Hc) as (q' & -> & -> & Hq & Ho).
  assert (Counter (t_JTI tok) q = Some c) as HC by (unfold Counter; by rewrite Ep).
  assert (presents l q (Some w) (t_JTI tok) c) as HP by (exists w, tok; auto).
  exists q'. split; [done|]. split_and!.
  - intros jti. destruct (decide (jti = t_JTI tok)) as [->|]; [right; eauto|left; auto].
  - right; eauto.
  - simpl. destruct (Consume (ql_cfg q) now ts n c t).1.1 eqn:EC.
    + split; [done|]. intros (jti & c' & (w' & tok' & [= <-] & EV' & _ & <- & Hc') & HN).
      rewrite EV in EV'. injection EV' as <-. congruence.
    + split; [|done]. intros _. eauto.
Qed.
End listener.
