(* ===== verification/Admin.v ===== *)
(** The administration plane of the decision server: [src/pep/listener.go], the routes
    [AdminHandler] mounts.

    A handler is modelled from its decoded JSON body to the status of its answer. The proof
    of quorum travels in hexadecimal; [decodeQuorumProof] is the only way in. The expiry of a
    request is taken as the exact date [time.Unix] denotes for every count of seconds below
    [2^63 - 62135596800], the offset of Go's internal epoch. *)
From S2P Require Import Prelude.
From S2P Require Import Hex.
From S2P Require Import Leaf.
From S2P Require Import Effects.
From S2P Require Import Records.
From S2P Require Import Token.
From S2P Require Import Quorum.
From S2P Require Import FailClosed.
From S2P Require Import Mode.
From S2P Require Import Validator.
From S2P Require Import DryRun.
From S2P Require Import Listener.

(** ** The proof on the wire *)

Record QuorumSignatureWire := mkSigWire { sw_KeyID : string; sw_Signature : string }.

Record ModeChangeRequest := mkModeChange {
  mr_Mode : string; mr_Expiry : Z; mr_Signatures : list QuorumSignatureWire }.

Record FailClosedClearRequest := mkClearRequest {
  cr_Condition : string; cr_Expiry : Z; cr_Signatures : list QuorumSignatureWire }.

Definition SignatureSize : nat := 64.

Definition decode_signature (s : QuorumSignatureWire) : option QuorumSignature :=
  kid ← hex_DecodeString (sw_KeyID s);
  if negb (length kid =? 16) then None
  else
    sig ← hex_DecodeString (sw_Signature s);
    if negb (length sig =? SignatureSize) then None else Some (mkQuorumSignature kid sig).

(** [decodeQuorumProof]: one unreadable signature fails the whole proof. *)
Definition decodeQuorumProof (r : ModeChangeRequest) : option QuorumProof :=
  sigs ← mapM decode_signature (mr_Signatures r);
  Some (mkQuorumProof (of_Unix (mr_Expiry r)) sigs).

(** ** Handlers *)

Definition className (c : Class_) : string :=
  match c with ClassF => "F" | ClassI => "I" | ClassW => "W" | ClassOut => "Out" end.

Inductive admin_response :=
  | ModeIs (mode : string)                        (* 200 *)
  | Cleared (condition : string)                  (* 200 *)
  | BadRequest                                    (* 400 *)
  | Forbidden                                     (* 403 *)
  | ConditionNotFound                             (* 404 *)
  | ConditionConflict.                            (* 409 *)

Record condition_view := mkConditionView {
  cv_Name : string; cv_Class : string; cv_Since : Z; cv_Detail : string }.

Section admin.
Context {C S : Type} `{Crypto, Env, MapOrder, QuorumStateStore S}.

Definition with_mode (m : ModeController S) (l : Listener C S) : Listener C S :=
  mkListener C S (ln_validator l) (ln_cache l) m (ln_ledger l) (ln_opa l) (ln_dryRun l)
    (ln_failClosed l) (ln_stats l).
Definition with_failClosed (f : FailClosed S) (l : Listener C S) : Listener C S :=
  mkListener C S (ln_validator l) (ln_cache l) (ln_mode l) (ln_ledger l) (ln_opa l) (ln_dryRun l)
    (Some f) (ln_stats l).

(** [handleMode] on GET. *)
Definition handleMode_get (l : Listener C S) : admin_response := ModeIs (mode_String (mc_mode (ln_mode l))).

(** [handleMode] on POST; the clock readings are those of [SetMode]. *)
Definition handleMode_post (now1 now2 ts1 ts2 : Z) (r : ModeChangeRequest) (l : Listener C S)
    (t : trace) : admin_response * Listener C S * trace :=
  match ParsePEPMode (mr_Mode r) with
  | None => (BadRequest, l, t)
  | Some m =>
      match decodeQuorumProof r with
      | None => (BadRequest, l, t)
      | Some proof =>
          let '(e, c1, t1) := SetMode now1 now2 ts1 ts2 m proof (ln_mode l) t in
          let l1 := with_mode c1 l in
          match e with
          | Some _ => (Forbidden, l1, t1)
          | None => (handleMode_get l1, l1, t1)
          end
      end
  end.

(** [handleFailClosedList]; the routes exist when there is a gate. *)
Definition handleFailClosedList (f : FailClosed S) : list condition_view :=
  (λ c, mkConditionView (cd_Name c) (className (cd_Class c)) (Unix (cd_Since c)) (cd_Detail c))
    <$> Tripped f.

Definition handleFailClosedClear (now ts : Z) (r : FailClosedClearRequest) (f : FailClosed S)
    (l : Listener C S) (t : trace) : admin_response * Listener C S * trace :=
  if bool_decide (cr_Condition r = "") then (BadRequest, l, t)
  else match decodeQuorumProof (mkModeChange "" (cr_Expiry r) (cr_Signatures r)) with
       | None => (BadRequest, l, t)
       | Some proof =>
           let '(e, f1, t1) := Clear now ts (cr_Condition r) proof f t in
           (match e with
            | None => Cleared (cr_Condition r)
            | Some ErrConditionUnknown => ConditionNotFound
            | Some ErrConditionNotTripped => ConditionConflict
            | Some _ => Forbidden
            end, with_failClosed f1 l, t1)
       end.
End admin.

(** ** The wire form *)

(** The request a controller builds from a proof. *)
Definition encode_signature (s : QuorumSignature) : QuorumSignatureWire :=
  mkSigWire (hex (qs_KeyID s)) (hex (qs_Signature s)).
Definition encode_proof (mode : string) (p : QuorumProof) : ModeChangeRequest :=
  mkModeChange mode (Unix (qp_Expiry p)) (encode_signature <$> qp_Signatures p).

Definition sig_sized (s : QuorumSignature) : Prop :=
  length (qs_KeyID s) = 16 ∧ length (qs_Signature s) = SignatureSize.

Lemma decode_signature_sized w s : decode_signature w = Some s → sig_sized s.
Proof.
  unfold decode_signature, sig_sized. destruct (hex_DecodeString (sw_KeyID w)) as [kid|]; [|done].
  simpl. destruct (Nat.eqb_spec (length kid) 16); [|done]. simpl.
  destruct (hex_DecodeString (sw_Signature w)) as [sig|]; [|done]. simpl.
  destruct (Nat.eqb_spec (length sig) SignatureSize); [|done]. by intros [= <-].
Qed.

Lemma decode_encode_signature s : sig_sized s → decode_signature (encode_signature s) = Some s.
Proof.
  intros [Hk Hs]. unfold decode_signature, encode_signature; simpl. rewrite !hex_roundtrip. simpl.
  rewrite Hk. simpl. rewrite Hs. by destruct s.
Qed.

Lemma decode_encode_signatures sigs :
  Forall sig_sized sigs → mapM decode_signature (encode_signature <$> sigs) = Some sigs.
Proof.
  intros HF. apply mapM_Some. apply Forall2_fmap_l. apply Forall_Forall2_diag.
  eapply Forall_impl; [exact HF|]. apply decode_encode_signature.
Qed.

(** The proof of quorum survives the wire, and only whole. A proof whose key
    identifiers and signatures have their sizes comes back from the request built from it,
    its expiry cut to the second the signatures cover; and every proof the server reads,
    from any request, has those sizes, carries as many signatures as the request lists and
    the very expiry it states, and is the one its own wire form denotes. *)
Theorem quorum_proof_wire_roundtrip mode :
  (∀ p, Forall sig_sized (qp_Signatures p) →
     decodeQuorumProof (encode_proof mode p) =
       Some (mkQuorumProof (of_Unix (Unix (qp_Expiry p))) (qp_Signatures p))) ∧
  (∀ r p, decodeQuorumProof r = Some p →
     Forall sig_sized (qp_Signatures p) ∧ length (qp_Signatures p) = length (mr_Signatures r) ∧
     qp_Expiry p = of_Unix (mr_Expiry r) ∧ decodeQuorumProof (encode_proof mode p) = Some p).
Proof.
  assert (∀ p, Forall sig_sized (qp_Signatures p) → decodeQuorumProof (encode_proof mode p) =
    Some (mkQuorumProof (of_Unix (Unix (qp_Expiry p))) (qp_Signatures p))) as HE.
  { intros p Hp. unfold decodeQuorumProof, encode_proof; simpl.
    by rewrite decode_encode_signatures. }
  split; [exact HE|]. intros r p Hr. unfold decodeQuorumProof in Hr.
  apply bind_Some in Hr as (sigs & HM & [= <-]). apply mapM_Some in HM. simpl.
  assert (Forall sig_sized sigs) as HS.
  { eapply Forall2_Forall_r; [exact HM|]. apply Forall_true. intros w s. apply decode_signature_sized. }
  split_and!; [done|by rewrite (Forall2_length _ _ _ HM)|done|].
  rewrite HE by done. simpl. by rewrite Unix_of_Unix.
Qed.
