(* ===== verification/Controllers.v ===== *)
(** The signatures of the controllers: the loop that [src/cluster] runs over the signatures of
    an epoch token (epoch.go), of a class-W proof (quorum.go) and of an anchor file (anchors.go).

    The three copies make the same checks in the same order. The class-W gate also reports
    which check failed and how many signatures were valid before it. The last part is another pattern the cluster shares with the
    monitor of the supervision: acts limited to so many per hour by a log of the acts of the last hour. *)
From S2P Require Import Prelude.
From S2P Require Import Hex.

Local Open Scope Z_scope.

Record ControllerSignature := mkCtrlSig { cs_KeyID : Z; cs_Sig : string }.

Inductive sig_fault := DuplicateSigner | UnknownSigner | BadSignature.

Section controllers.
Context `{Crypto}.

(** [hex.DecodeString], the size and the verification of one signature. *)
Definition sig_verifies (pub canonical : bytes) (sig : string) : bool :=
  match hex_DecodeString sig with
  | Some s => bool_decide (length s = 64)%nat && ed25519_verify pub canonical s
  | None => false
  end.

(** The loop: the fault and the count before it, or the count. *)
Fixpoint ctrl_loop (ctrls : gmap Z bytes) (canonical : bytes) (sigs : list ControllerSignature)
    (seen : gset Z) (valid : Z) : (sig_fault * Z) + Z :=
  match sigs with
  | [] => inr valid
  | s :: sigs' =>
      if bool_decide (cs_KeyID s ∈ seen) then inl (DuplicateSigner, valid)
      else match ctrls !! cs_KeyID s with
           | None => inl (UnknownSigner, valid)
           | Some pub =>
               if sig_verifies pub canonical (cs_Sig s) then
                 ctrl_loop ctrls canonical sigs' ({[cs_KeyID s]} ∪ seen) (valid + 1)
               else inl (BadSignature, valid)
           end
  end.

(** The quorum of an epoch token and of an anchor file: every signature is good and there are
    at least [quorum] of them. *)
Definition ctrl_quorum (ctrls : gmap Z bytes) (quorum : Z) (canonical : bytes)
    (sigs : list ControllerSignature) : bool :=
  match ctrl_loop ctrls canonical sigs ∅ 0 with
  | inl _ => false
  | inr valid => negb (valid <? quorum)
  end.

(** A pinned controller signed [canonical]. *)
Definition signed_by (ctrls : gmap Z bytes) (canonical : bytes) (s : ControllerSignature) : Prop :=
  ∃ pub sig, ctrls !! cs_KeyID s = Some pub ∧ hex_DecodeString (cs_Sig s) = Some sig ∧
    length sig = 64%nat ∧ ed25519_verify pub canonical sig = true.

Lemma sig_verifies_spec pub canonical sig :
  sig_verifies pub canonical sig = true ↔
    ∃ s, hex_DecodeString sig = Some s ∧ length s = 64%nat ∧ ed25519_verify pub canonical s = true.
Proof.
  unfold sig_verifies. destruct (hex_DecodeString sig) as [s|].
  - rewrite andb_true_iff, bool_decide_eq_true. naive_solver.
  - naive_solver.
Qed.

Lemma ctrl_loop_ok ctrls canonical sigs seen valid v :
  ctrl_loop ctrls canonical sigs seen valid = inr v ↔
    NoDup (cs_KeyID <$> sigs) ∧ Forall (λ s, cs_KeyID s ∉ seen) sigs ∧
    Forall (signed_by ctrls canonical) sigs ∧ v = valid + Z.of_nat (length sigs).
Proof.
  revert seen valid. induction sigs as [|s sigs IH]; intros seen valid; cbn [ctrl_loop].
  { split; [intros [= <-]|intros (_ & _ & _ & ->)]; [|f_equal; simpl; lia].
    split_and!; [constructor..|simpl; lia]. }
  rewrite fmap_cons, NoDup_cons, !Forall_cons. case_bool_decide as Hs.
  { split; [done|]. by intros (_ & [? _] & _). }
  destruct (ctrls !! cs_KeyID s) as [pub|] eqn:Ep.
  2: { split; [done|]. intros (_ & _ & [(pub & sig & ? & _) _] & _). congruence. }
  destruct (sig_verifies pub canonical (cs_Sig s)) eqn:Ev.
  2: { split; [done|]. intros (_ & _ & [(pub' & sig & Hp & Hd & Hl & Hv) _] & _). exfalso.
       rewrite Ep in Hp. injection Hp as <-. apply not_true_iff_false in Ev. apply Ev.
       apply sig_verifies_spec. eauto. }
  rewrite IH. apply sig_verifies_spec in Ev as (sig & Hd & Hl & Hv).
  assert (Forall (λ x, cs_KeyID x ∉ {[cs_KeyID s]} ∪ seen) sigs ↔
    (cs_KeyID s ∉ cs_KeyID <$> sigs) ∧ Forall (λ x, cs_KeyID x ∉ seen) sigs) as ->.
  { rewrite !Forall_forall. split.
    - intros HF. split.
      + intros (x & Ex & Hx)%list_elem_of_fmap. apply (HF x Hx). rewrite <-Ex. set_solver.
      + intros x Hx. specialize (HF x Hx). set_solver.
    - intros [Hn HF] x Hx. specialize (HF x Hx). rewrite elem_of_union, elem_of_singleton.
      intros [Ex|]; [|done]. apply Hn. rewrite <-Ex. by apply list_elem_of_fmap_2. }
  simpl length. split.
  - intros (H1 & [H2 H3] & H4 & ->). split_and!; try done; [|lia]. exists pub, sig. auto.
  - intros ([H1 H2] & [_ H3] & [_ H4] & ->). split_and!; auto. lia.
Qed.

Lemma ctrl_quorum_spec ctrls quorum canonical sigs :
  ctrl_quorum ctrls quorum canonical sigs = true ↔
    NoDup (cs_KeyID <$> sigs) ∧ Forall (signed_by ctrls canonical) sigs ∧
    quorum ≤ Z.of_nat (length sigs).
Proof.
  unfold ctrl_quorum. destruct (ctrl_loop ctrls canonical sigs ∅ 0) as [f|v] eqn:E.
  - split; [done|]. intros (H1 & H2 & _).
    assert (ctrl_loop ctrls canonical sigs ∅ 0 = inr (0 + Z.of_nat (length sigs))); [|congruence].
    apply ctrl_loop_ok. split_and!; auto. apply Forall_true. set_solver.
  - apply ctrl_loop_ok in E as (H1 & _ & H2 & ->). rewrite negb_true_iff, Z.ltb_ge. naive_solver.
Qed.
End controllers.

(** ** Sliding budgets

    [acts] are the times of all the acts so far, [log] the times the component still remembers, [last] its last reading of the clock. *)

Definition recent (now : Z) (log : list Z) : list Z := filter (λ x, now - hour < x) log.

(** The log remembers the acts of the last hour, and no hour holds more than [max] acts. *)
Definition budgeted (max last : Z) (acts log : list Z) : Prop :=
  Forall (λ x, x ≤ last) acts ∧ sublist (recent last acts) log ∧
  ∀ w, Z.of_nat (length (filter (λ x, w - hour < x ≤ w) acts)) ≤ max.

(** Later windows look at fewer entries. *)
Lemma filter_window (l : list Z) a b :
  a ≤ b → filter (λ x, b < x) l = filter (λ x, b < x) (filter (λ x, a < x) l).
Proof.
  intros Hab. rewrite list_filter_filter. apply list_filter_iff. intros x. split; [|tauto]. intros. lia.
Qed.

Lemma budgeted_nil max last log : 0 ≤ max → budgeted max last [] log.
Proof. intros Hm. split_and!; [constructor|apply sublist_nil_l|by intros w]. Qed.

Lemma budgeted_recent max last now acts log :
  budgeted max last acts log → last ≤ now → sublist (recent now acts) (recent now log).
Proof.
  intros (_ & HL & _) Hle. unfold recent. rewrite (filter_window acts (last - hour)) by lia.
  by apply sublist_filter_mono.
Qed.

(** Time passes, and the log may forget what is older than an hour. *)
Lemma budgeted_later max last now acts log log' :
  budgeted max last acts log → last ≤ now → sublist (recent now log) log' → budgeted max now acts log'.
Proof.
  intros HB Hle Hs. pose proof (budgeted_recent _ _ _ _ _ HB Hle) as HK. destruct HB as (HF & _ & HW).
  split_and!; [|by etrans|done]. eapply Forall_impl; [exact HF|simpl; lia].
Qed.

(** An act within the budget. *)
Lemma budgeted_act max last now acts log :
  budgeted max last acts log → last ≤ now → Z.of_nat (length (recent now log)) < max →
  budgeted max now (acts ++ [now]) (recent now log ++ [now]).
Proof.
  intros HB Hle Hmax. pose proof (budgeted_recent _ _ _ _ _ HB Hle) as HK. destruct HB as (HF & _ & HW). split_and!.
  - apply Forall_app. split; [eapply Forall_impl; [exact HF|simpl; lia]|]. constructor; [lia|constructor].
  - unfold recent. rewrite filter_app, filter_cons_True by (unfold hour, minute, second; lia).
    rewrite filter_nil. by apply sublist_app.
  - intros w. rewrite filter_app, length_app. destruct (decide (now ≤ w)) as [Hw|Hw].
    + apply sublist_length in HK. fold (recent now acts) in HK.
      assert (sublist (filter (λ x, w - hour < x ≤ w) acts) (recent now acts)) as HL2%sublist_length
        by (apply sublist_filter_weaken; intros x Hx; lia).
      assert (sublist (filter (λ x, w - hour < x ≤ w) [now]) [now]) as HL3%sublist_length by apply sublist_filter.
      simpl in HL3. lia.
    + rewrite (filter_cons_False _ now []) by lia. simpl. specialize (HW w). lia.
Qed.
