(* ===== verification/Epoch.v ===== *)
(** Epochs with a single authority: [src/cluster/epoch.go].

    A tracker verifies the tokens of the controllers, installs the epoch of highest number and
    says whether its own cell may serve. [Accept] starts from the decoded token; [now] is its
    reading of the clock and [ts] that of the leaf. The dates of a token are read by
    [time.Parse], of which nothing is assumed. *)
From S2P Require Import Prelude.
From S2P Require Import Hex.
From S2P Require Import Json.
From S2P Require Import Leaf.
From S2P Require Import Effects.
From S2P Require Import Controllers.

Local Open Scope Z_scope.

Definition DefaultMaxAutoFailoversPerHour : Z := 3.
Definition DefaultMinTTLSeconds : Z := 10.
Definition DefaultMaxTTLSeconds : Z := 300.
Definition maxIssuedAtSkew : Z := 5 * second.
Definition ModeAuto : string := "auto".
Definition ModeManual : string := "manual".

Definition epochEventAccept : byte := Byte.x01.
Definition epochEventRefuse : byte := Byte.x02.
Definition epochEventEquivocate : byte := Byte.x03.
Definition epochEventRevoke : byte := Byte.x04.
Definition epochEventBudget : byte := Byte.x05.

(** [time.Parse(time.RFC3339, s)]. *)
Class TimeParser := parse_rfc3339 : string → option Z.

(** [roster] is [None] when the field is absent. *)
Record EpochPayload := mkEpochPayload {
  ep_N : Z; ep_Authority : string; ep_IssuedAt : string; ep_TTLSeconds : Z;
  ep_Mode : string; ep_Roster : option (list string) }.

#[global] Instance EpochPayload_eq_dec : EqDecision EpochPayload.
Proof. solve_decision. Defined.

Record EpochToken := mkEpochToken {
  et_Payload : EpochPayload; et_Quorum : string; et_Signatures : list ControllerSignature }.

(** [canonicalPayload]: an empty mode and an empty roster are omitted. *)
Definition canonicalPayload (p : EpochPayload) : bytes :=
  [open_obj] ++ json_key "n" ++ json_int (ep_N p)
  ++ [comma] ++ json_key "authority" ++ json_string (ep_Authority p)
  ++ [comma] ++ json_key "issued_at" ++ json_string (ep_IssuedAt p)
  ++ [comma] ++ json_key "ttl_s" ++ json_int (ep_TTLSeconds p)
  ++ (if bool_decide (ep_Mode p = "") then [] else [comma] ++ json_key "mode" ++ json_string (ep_Mode p))
  ++ match ep_Roster p with
     | Some (c :: cs) => [comma] ++ json_key "roster" ++ json_array (json_string <$> (c :: cs))
     | _ => []
     end
  ++ [close_obj].

Definition payloadHash `{Crypto} (p : EpochPayload) : bytes := sha256 (canonicalPayload p).

Record epochState := mkEpochState {
  es_payload : EpochPayload; es_hash : bytes;
  es_issuedAt : Z; es_expiresAt : Z; es_notBefore : Z }.

Record Tracker := mkTracker {
  tk_producer : Producer;
  tk_ctrls : gmap Z bytes; tk_quorum : Z; tk_members : gset string;
  tk_maxAutoHr : Z; tk_minTTL : Z; tk_maxTTL : Z; tk_onAlarm : bool;
  tk_current : option epochState; tk_quarantined : gset string; tk_autoLog : list Z }.

Definition or_default (n d : Z) : Z := if n =? 0 then d else n.

(** [NewTracker]: [None] is a configuration error. *)
Definition NewTracker (cellID : string) (salt : bytes) (leaves journal : bool)
    (controllers : gmap Z bytes) (quorum : Z) (members : list string)
    (maxAuto minTTL maxTTL : Z) (onAlarm : bool) : option Tracker :=
  let maxAuto := or_default maxAuto DefaultMaxAutoFailoversPerHour in
  let minTTL := or_default minTTL DefaultMinTTLSeconds in
  let maxTTL := or_default maxTTL DefaultMaxTTLSeconds in
  if bool_decide (cellID = "") then None
  else if (length salt <? 16)%nat then None
  else if negb leaves then None
  else if (size controllers =? 0)%nat then None
  else if (quorum <? 1) || (Z.of_nat (size controllers) <? quorum) then None
  else if (length members =? 0)%nat then None
  else if bool_decide ("" ∈ members) then None
  else if bool_decide (cellID ∉ members) then None
  else if maxAuto <? 0 then None
  else if (minTTL <? 1) || (maxTTL <? minTTL) then None
  else if bool_decide (map_Exists (λ _ pub, length pub ≠ 32%nat) controllers) then None
  else Some (mkTracker (mkProducer cellID salt journal) controllers quorum (list_to_set members)
               maxAuto minTTL maxTTL onAlarm None ∅ []).

Definition set_epoch (current : option epochState) (quarantined : gset string) (autoLog : list Z)
    (t : Tracker) : Tracker :=
  mkTracker (tk_producer t) (tk_ctrls t) (tk_quorum t) (tk_members t) (tk_maxAutoHr t)
    (tk_minTTL t) (tk_maxTTL t) (tk_onAlarm t) current quarantined autoLog.

(** The record of a leaf. *)
Definition epochRecord (event : byte) (n : Z) (authority reason : string) : bytes :=
  sb "TBPE1" ++ [event] ++ be 8 (Z.max 0 n)
  ++ [z2b (Z.of_nat (slen authority))] ++ sb authority
  ++ [z2b (Z.of_nat (slen reason))] ++ sb reason.

(** [time.Duration(n) * time.Second]. *)
Definition seconds (n : Z) : Z := i64 (n * second).

(** [consumeAutoBudgetLocked]. *)
Definition consumeAutoBudget (now : Z) (t : Tracker) : bool * list Z :=
  let kept := filter (λ ts, now - hour < ts) (tk_autoLog t) in
  if tk_maxAutoHr t <=? Z.of_nat (length kept) then (false, kept) else (true, kept ++ [now]).

Inductive epoch_error :=
  | EpochRefused (reason : string)
  | EpochRefusedUntraced (reason : string) (e : append_error)
  | EpochLeafFailed (e : append_error).

Section epoch.
Context `{Crypto, Env, TimeParser}.

Definition ep_leaf (t : Tracker) (event : byte) (n : Z) (authority reason : string) (ts : Z)
    (tr : trace) : option append_error * trace :=
  appendLeaf (tk_producer t) KindEpoch (epochRecord event n authority reason) (UnixNano ts) tr.

Definition ep_refuse (t : Tracker) (event : byte) (n : Z) (authority reason : string) (ts : Z)
    (tr : trace) : option epoch_error * Tracker * trace :=
  match ep_leaf t event n authority reason ts tr with
  | (Some e, tr1) => (Some (EpochRefusedUntraced reason e), t, tr1)
  | (None, tr1) => (Some (EpochRefused reason), t, tr1)
  end.

(** The checks that do not look at the current epoch: the reason of the refusal, or the date
    of issue. *)
Definition check_token (t : Tracker) (now : Z) (tok : EpochToken) : string + Z :=
  let p := et_Payload tok in
  if (ep_N p <? 0) || bool_decide (ep_Authority p = "") || (255 <? slen (ep_Authority p))%nat
  then inl "schema-violation"
  else if (ep_TTLSeconds p <? tk_minTTL t) || (tk_maxTTL t <? ep_TTLSeconds p)
  then inl "ttl-out-of-range"
  else match parse_rfc3339 (ep_IssuedAt p) with
  | None => inl "issued-at-unparseable"
  | Some issuedAt =>
      if now + maxIssuedAtSkew <? issuedAt then inl "epoch-from-future"
      else if bool_decide (ep_Authority p ∉ tk_members t) then inl "authority-not-member"
      else if bool_decide (ep_Mode p ∉ [""; ModeAuto; ModeManual]) then inl "unknown-mode"
      else if negb (ctrl_quorum (tk_ctrls t) (tk_quorum t) (canonicalPayload p) (et_Signatures tok))
      then inl "epoch-quorum-insufficient"
      else inr issuedAt
  end.

(** The comparison with the current epoch: a refusal, a second delivery, or nothing. *)
Inductive standing := Stale | Redelivered | Equivocation | Fresh.
Definition standing_of (t : Tracker) (p : EpochPayload) : standing :=
  match tk_current t with
  | None => Fresh
  | Some c =>
      if ep_N p <? ep_N (es_payload c) then Stale
      else if ep_N p =? ep_N (es_payload c) then
        if bool_decide (payloadHash p = es_hash c) then Redelivered else Equivocation
      else Fresh
  end.

(** The roster of a revocation: the reason of a refusal, or the cells it keeps. *)
Definition check_roster (t : Tracker) (p : EpochPayload) : string + option (gset string) :=
  match ep_Roster p with
  | None => inr None
  | Some roster =>
      if (length roster =? 0)%nat then inl "empty-roster"
      else if bool_decide (Exists (λ c, c ∉ tk_members t) roster) then inl "roster-unknown-cell"
      else if bool_decide (ep_Authority p ∉ roster) then inl "authority-not-in-roster"
      else inr (Some (list_to_set roster))
  end.

(** The date the new authority enters into function. *)
Definition not_before (t : Tracker) (now issuedAt : Z) : Z :=
  match tk_current t with
  | Some c => if (now <? es_expiresAt c) && (issuedAt <? es_expiresAt c) then es_expiresAt c else issuedAt
  | None => issuedAt
  end.

(** The switch: the state changes first, the leaf follows. *)
Definition install (t : Tracker) (now ts issuedAt : Z) (p : EpochPayload)
    (roster : option (gset string)) (tr : trace) : option epoch_error * Tracker * trace :=
  let e := mkEpochState p (payloadHash p) issuedAt (issuedAt + seconds (ep_TTLSeconds p))
             (not_before t now issuedAt) in
  let quarantined := match roster with
    | Some r => tk_quarantined t ∪ (tk_members t ∖ r)
    | None => tk_quarantined t
    end in
  let event := match roster with Some _ => epochEventRevoke | None => epochEventAccept end in
  let t1 := set_epoch (Some e) quarantined (tk_autoLog t) t in
  match ep_leaf t1 event (ep_N p) (ep_Authority p) "ok" ts tr with
  | (Some err, tr1) => (Some (EpochLeafFailed err), t1, tr1)
  | (None, tr1) => (None, t1, tr1)
  end.

Definition expired_on_arrival (t : Tracker) (now issuedAt : Z) (p : EpochPayload) : bool :=
  match tk_current t with
  | Some _ => issuedAt + seconds (ep_TTLSeconds p) <=? now
  | None => false
  end.

(** The rest of [Accept] for a token newer than the current epoch. *)
Definition accept_fresh (now ts issuedAt : Z) (p : EpochPayload) (t : Tracker) (tr : trace) :
    option epoch_error * Tracker * trace :=
  if expired_on_arrival t now issuedAt p then
    ep_refuse t epochEventRefuse (ep_N p) (ep_Authority p) "epoch-token-expired" ts tr
  else
    let '(granted, log) :=
      if bool_decide (ep_Mode p = ModeAuto) then consumeAutoBudget now t else (true, tk_autoLog t) in
    let t1 := set_epoch (tk_current t) (tk_quarantined t) log t in
    if negb granted then
      ep_refuse t1 epochEventBudget (ep_N p) (ep_Authority p) "failover-budget-exhausted" ts
        (call_alarm (tk_onAlarm t) "failover-budget-exhausted" tr)
    else match check_roster t p with
         | inl reason => ep_refuse t1 epochEventRefuse (ep_N p) (ep_Authority p) reason ts tr
         | inr roster => install t1 now ts issuedAt p roster tr
         end.

(** [Accept]; [tok] is [None] when the bytes are not a token. *)
Definition Accept (now ts : Z) (tok : option EpochToken) (t : Tracker) (tr : trace) :
    option epoch_error * Tracker * trace :=
  match tok with
  | None => ep_refuse t epochEventRefuse 0 "" "malformed-epoch-token" ts tr
  | Some tok =>
    let p := et_Payload tok in
    let refuse r := ep_refuse t epochEventRefuse (ep_N p) (ep_Authority p) r ts tr in
    match check_token t now tok with
    | inl reason => refuse reason
    | inr issuedAt =>
      match standing_of t p with
      | Stale => refuse "epoch-regression"
      | Redelivered => (None, t, tr)
      | Equivocation =>
          ep_refuse t epochEventEquivocate (ep_N p) (ep_Authority p) "epoch-equivocation" ts
            (call_alarm (tk_onAlarm t) "epoch-equivocation" tr)
      | Fresh => accept_fresh now ts issuedAt p t tr
      end
    end
  end.

(** ** Reading the state *)

Inductive epoch_unavailable :=
  ErrNoEpoch | ErrCellQuarantined | ErrNotAuthority | ErrEpochNotYetEffective | ErrEpochExpired.

Definition CurrentEpoch (now : Z) (t : Tracker) : epoch_unavailable + Z :=
  match tk_current t with
  | None => inl ErrNoEpoch
  | Some e =>
      if bool_decide (p_cellID (tk_producer t) ∈ tk_quarantined t) then inl ErrCellQuarantined
      else if bool_decide (ep_Authority (es_payload e) ≠ p_cellID (tk_producer t)) then inl ErrNotAuthority
      else if now <? es_notBefore e then inl ErrEpochNotYetEffective
      else if es_expiresAt e <=? now then inl ErrEpochExpired
      else inr (u64 (ep_N (es_payload e)))
  end.

Definition ObservedEpoch (t : Tracker) : option Z := ep_N ∘ es_payload <$> tk_current t.

Definition Quarantined (t : Tracker) : list string :=
  merge_sort string_le (elements (tk_quarantined t)).

#[global] Instance epochState_eq_dec : EqDecision epochState.
Proof. solve_decision. Defined.

Record TrackerStatus := mkTrackerStatus {
  ts_Epoch : Z; ts_Authority : string; ts_NotBefore : Z; ts_ExpiresAt : Z;
  ts_Quarantined : list string; ts_AutoFailoversHour : Z }.

Definition ep_Status (t : Tracker) : TrackerStatus :=
  match tk_current t with
  | None => mkTrackerStatus (-1) "" zero_time zero_time (Quarantined t) (Z.of_nat (length (tk_autoLog t)))
  | Some e => mkTrackerStatus (ep_N (es_payload e)) (ep_Authority (es_payload e)) (es_notBefore e)
                (es_expiresAt e) (Quarantined t) (Z.of_nat (length (tk_autoLog t)))
  end.
(** ** When an epoch is installed *)

(** The conditions on a token alone. *)
Definition token_ok (t : Tracker) (now : Z) (tok : EpochToken) (issuedAt : Z) : Prop :=
  let p := et_Payload tok in
  0 ≤ ep_N p ∧ (0 < slen (ep_Authority p) ≤ 255)%nat ∧ tk_minTTL t ≤ ep_TTLSeconds p ≤ tk_maxTTL t ∧
  parse_rfc3339 (ep_IssuedAt p) = Some issuedAt ∧ issuedAt ≤ now + maxIssuedAtSkew ∧
  ep_Authority p ∈ tk_members t ∧ ep_Mode p ∈ [""; ModeAuto; ModeManual] ∧
  NoDup (cs_KeyID <$> et_Signatures tok) ∧
  Forall (signed_by (tk_ctrls t) (canonicalPayload p)) (et_Signatures tok) ∧
  tk_quorum t ≤ Z.of_nat (length (et_Signatures tok)).

Lemma slen_pos s : (0 < slen s)%nat ↔ s ≠ "".
Proof. destruct s; simpl; split; try done; lia. Qed.

Lemma check_token_spec t now tok issuedAt :
  check_token t now tok = inr issuedAt ↔ token_ok t now tok issuedAt.
Proof.
  unfold check_token, token_ok. rewrite slen_pos, <-ctrl_quorum_spec. cbv zeta.
  destruct (Z.ltb_spec (ep_N (et_Payload tok)) 0); simpl; [split; [done|lia]|].
  case_bool_decide as Ha; simpl; [split; [done|naive_solver]|].
  destruct (Nat.ltb_spec 255 (slen (ep_Authority (et_Payload tok)))); [split; [done|lia]|].
  destruct (Z.ltb_spec (ep_TTLSeconds (et_Payload tok)) (tk_minTTL t)); simpl; [split; [done|lia]|].
  destruct (Z.ltb_spec (tk_maxTTL t) (ep_TTLSeconds (et_Payload tok))); [split; [done|lia]|].
  destruct (parse_rfc3339 _) as [i|]; [|split; [done|naive_solver]].
  destruct (Z.ltb_spec (now + maxIssuedAtSkew) i).
  { split; [done|]. intros (_ & _ & _ & [= <-] & ? & _). lia. }
  case_bool_decide as Hm; [split; [done|naive_solver]|].
  case_bool_decide as Hmode; [split; [done|naive_solver]|]. 
  destruct (ctrl_quorum _ _ _ _); simpl; [|split; [done|naive_solver]].
  split; [intros [= <-]; split_and!; auto; lia|naive_solver].
Qed.

(** The conditions that depend on the state of the tracker. *)
Definition supersedes (t : Tracker) (now issuedAt : Z) (p : EpochPayload) : Prop :=
  ∀ c, tk_current t = Some c →
    ep_N (es_payload c) < ep_N p ∧ now < issuedAt + seconds (ep_TTLSeconds p).

Definition within_budget (t : Tracker) (now : Z) (p : EpochPayload) : Prop :=
  ep_Mode p = ModeAuto →
  Z.of_nat (length (filter (λ ts, now - hour < ts) (tk_autoLog t))) < tk_maxAutoHr t.

Definition roster_ok (t : Tracker) (p : EpochPayload) : Prop :=
  ∀ r, ep_Roster p = Some r → Forall (.∈ tk_members t) r ∧ ep_Authority p ∈ r.

Definition admitted (t : Tracker) (now : Z) (tok : EpochToken) (issuedAt : Z) : Prop :=
  token_ok t now tok issuedAt ∧ supersedes t now issuedAt (et_Payload tok) ∧
  within_budget t now (et_Payload tok) ∧ roster_ok t (et_Payload tok).

Lemma check_roster_spec t p :
  match check_roster t p with
  | inl _ => ¬ roster_ok t p
  | inr roster => roster_ok t p ∧ roster = list_to_set <$> ep_Roster p
  end.
Proof.
  unfold check_roster, roster_ok. destruct (ep_Roster p) as [r|]; [|done].
  destruct (Nat.eqb_spec (length r) 0) as [E%nil_length_inv|E].
  { intros HR. destruct (HR r eq_refl) as [_ Hin]. subst r. by apply elem_of_nil in Hin. }
  case_bool_decide as HE.
  { intros HR. destruct (HR r eq_refl) as [HF _]. apply Exists_exists in HE as (c & Hc & Hn).
    rewrite Forall_forall in HF. auto. }
  case_bool_decide as HA; [intros HR; by destruct (HR r eq_refl)|].
  split; [|done]. intros ? [= <-]. split; [|done]. apply not_Exists_Forall in HE; [|apply _].
  eapply Forall_impl; [exact HE|]. intros c. apply dec_stable.
Qed.

Lemma consumeAutoBudget_spec now t :
  let kept := filter (λ ts, now - hour < ts) (tk_autoLog t) in
  consumeAutoBudget now t =
    if decide (Z.of_nat (length kept) < tk_maxAutoHr t) then (true, kept ++ [now]) else (false, kept).
Proof.
  intros kept. unfold consumeAutoBudget. fold kept.
  destruct (Z.leb_spec (tk_maxAutoHr t) (Z.of_nat (length kept))).
  - rewrite decide_False by lia. done.
  - rewrite decide_True by lia. done.
Qed.

(** The log after an accepted token or one refused later than the budget. *)
Definition log_after (t : Tracker) (now : Z) (p : EpochPayload) : list Z :=
  if bool_decide (ep_Mode p = ModeAuto) then (consumeAutoBudget now t).2 else tk_autoLog t.

Definition new_epoch (t : Tracker) (now issuedAt : Z) (p : EpochPayload) : epochState :=
  mkEpochState p (payloadHash p) issuedAt (issuedAt + seconds (ep_TTLSeconds p))
    (not_before t now issuedAt).

Definition quarantine_after (t : Tracker) (p : EpochPayload) : gset string :=
  match ep_Roster p with
  | Some r => tk_quarantined t ∪ (tk_members t ∖ list_to_set r)
  | None => tk_quarantined t
  end.

Lemma ep_refuse_state t ev n a r ts tr :
  (ep_refuse t ev n a r ts tr).1.2 = t ∧ (ep_refuse t ev n a r ts tr).1.1 ≠ None.
Proof. unfold ep_refuse. by destruct (ep_leaf _ _ _ _ _ _ _) as [[e|] tr1]. Qed.

(** The state after a call that installs, and after one that does not. *)
Definition installs (t : Tracker) (now issuedAt : Z) (p : EpochPayload) (t' : Tracker) : Prop :=
  t' = set_epoch (Some (new_epoch t now issuedAt p)) (quarantine_after t p) (log_after t now p) t.
Definition keeps (t : Tracker) (now : Z) (p : EpochPayload) (t' : Tracker) : Prop :=
  t' = t ∨ t' = set_epoch (tk_current t) (tk_quarantined t) (log_after t now p) t.

Lemma accept_fresh_state now ts issuedAt p t tr :
  let t' := (accept_fresh now ts issuedAt p t tr).1.2 in
  let ready := expired_on_arrival t now issuedAt p = false ∧ within_budget t now p ∧ roster_ok t p in
  (ready ∧ installs t now issuedAt p t') ∨ (¬ ready ∧ keeps t now p t').
Proof.
  cbv zeta. unfold accept_fresh. destruct (expired_on_arrival t now issuedAt p).
  { right. split; [by intros [? _]|]. left. apply ep_refuse_state. }
  assert ((if bool_decide (ep_Mode p = ModeAuto) then consumeAutoBudget now t else (true, tk_autoLog t))
    = (bool_decide (within_budget t now p), log_after t now p)) as ->.
  { unfold within_budget, log_after. case_bool_decide as Hm.
    - rewrite consumeAutoBudget_spec. case_decide.
      + by rewrite bool_decide_true.
      + rewrite bool_decide_false; [done|]. auto.
    - by rewrite bool_decide_true. }
  case_bool_decide as HB; simpl.
  2: { right. split; [by intros (_ & ? & _)|]. right. apply ep_refuse_state. }
  pose proof (check_roster_spec t p) as HR. destruct (check_roster t p) as [reason|roster].
  { right. split; [by intros (_ & _ & ?)|]. right. apply ep_refuse_state. }
  destruct HR as [HR ->]. left. split; [done|]. unfold installs, install.
  assert (not_before (set_epoch (tk_current t) (tk_quarantined t) (log_after t now p) t) now issuedAt
    = not_before t now issuedAt) as -> by done.
  destruct (ep_leaf _ _ _ _ _ _ _) as [[e|] tr1]; simpl; unfold quarantine_after, new_epoch;
    by destruct (ep_Roster p).
Qed.

(** Every call either installs the epoch of an admitted token or leaves the epoch and the
    quarantine as they are. *)
Lemma Accept_state now ts tok t tr :
  let t' := (Accept now ts tok t tr).1.2 in
  (∃ tk issuedAt, tok = Some tk ∧ admitted t now tk issuedAt ∧ installs t now issuedAt (et_Payload tk) t') ∨
  ((∀ tk issuedAt, tok = Some tk → ¬ admitted t now tk issuedAt) ∧
   (t' = t ∨ ∃ tk, tok = Some tk ∧ keeps t now (et_Payload tk) t')).
Proof.
  unfold Accept. destruct tok as [tok|].
  2: { right. split; [done|]. left. apply ep_refuse_state. }
  destruct (check_token t now tok) as [reason|issuedAt] eqn:EC.
  { right. split; [|left; apply ep_refuse_state].
    intros tk i [= <-] [HT _]. apply check_token_spec in HT. congruence. }
  pose proof (proj1 (check_token_spec _ _ _ _) EC) as HT.
  assert (∀ i, token_ok t now tok i → i = issuedAt) as Hi.
  { intros i Hti. apply check_token_spec in Hti. congruence. }
  assert ((∀ c, tk_current t = Some c → ep_N (es_payload c) < ep_N (et_Payload tok)) →
    let t' := (accept_fresh now ts issuedAt (et_Payload tok) t tr).1.2 in
    (∃ tk i, Some tok = Some tk ∧ admitted t now tk i ∧ installs t now i (et_Payload tk) t') ∨
    ((∀ tk i, Some tok = Some tk → ¬ admitted t now tk i) ∧
     (t' = t ∨ ∃ tk, Some tok = Some tk ∧ keeps t now (et_Payload tk) t'))) as HF.
  { intros HN. destruct (accept_fresh_state now ts issuedAt (et_Payload tok) t tr) as
      [[(HE & HB & HR) HI]|[Hnot HK]].
    - left. exists tok, issuedAt. split_and!; auto. split_and!; auto. intros c Hc.
      split; [by apply HN|]. unfold expired_on_arrival in HE. rewrite Hc in HE. lia.
    - right. split; [|right; eauto]. intros tk i [= <-] (Hti & HS & HB & HR).
      rewrite (Hi i Hti) in HS. apply Hnot. split_and!; auto. unfold expired_on_arrival.
      destruct (tk_current t) as [c|] eqn:Ec; [|done]. destruct (HS c Ec). apply Z.leb_gt. lia. }
  unfold standing_of. destruct (tk_current t) as [c|] eqn:Ecur; [|by apply HF].
  destruct (Z.ltb_spec (ep_N (et_Payload tok)) (ep_N (es_payload c))).
  { right. split; [|left; apply ep_refuse_state].
    intros tk i [= <-] (_ & HS & _). destruct (HS c Ecur). lia. }
  destruct (Z.eqb_spec (ep_N (et_Payload tok)) (ep_N (es_payload c))) as [E|E].
  { right. split; [intros tk i [= <-] (_ & HS & _); destruct (HS c Ecur); lia|]. left.
    case_bool_decide; [done|]. apply ep_refuse_state. }
  apply HF. intros ? [= <-]. lia.
Qed.
Lemma CurrentEpoch_serves now t n :
  CurrentEpoch now t = inr n ↔
    ∃ e, tk_current t = Some e ∧ n = u64 (ep_N (es_payload e)) ∧
      (p_cellID (tk_producer t) ∉ tk_quarantined t) ∧
      ep_Authority (es_payload e) = p_cellID (tk_producer t) ∧ es_notBefore e ≤ now < es_expiresAt e.
Proof.
  unfold CurrentEpoch. destruct (tk_current t) as [e|]; [|split; [done|by intros (? & ? & _)]].
  case_bool_decide; [split; [done|naive_solver]|].
  case_bool_decide; [split; [done|naive_solver]|].
  destruct (Z.ltb_spec now (es_notBefore e)); [split; [done|intros (e' & [= <-] & _ & _ & _ & ?); lia]|].
  destruct (Z.leb_spec (es_expiresAt e) now); [split; [done|intros (e' & [= <-] & _ & _ & _ & ?); lia]|].
  split; [intros [= <-]; exists e; split_and!; auto; lia|by intros (e' & [= <-] & -> & _)].
Qed.

(** ** The life of a tracker *)

(** The epoch a call replaces. *)
Definition replaced (t t' : Tracker) : list epochState :=
  if bool_decide (tk_current t = tk_current t') then [] else option_list (tk_current t).

(** The time of an automatic switch. *)
Definition auto_install (t t' : Tracker) (now : Z) : list Z :=
  if bool_decide (tk_current t = tk_current t') then []
  else match tk_current t' with
       | Some e => if bool_decide (ep_Mode (es_payload e) = ModeAuto) then [now] else []
       | None => []
       end.

(** A tracker from its start, fed tokens in the order of a clock, with the epochs it has
    replaced and the times at which it installed an automatic one. *)
Inductive tracked : Z → list epochState → list Z → Tracker → Prop :=
  | tracked_new last t : tk_current t = None → tk_autoLog t = [] → tracked last [] [] t
  | tracked_step last past autos t now ts tok tr :
      tracked last past autos t → last ≤ now →
      let t' := (Accept now ts tok t tr).1.2 in
      tracked now (replaced t t' ++ past)
        (autos ++ auto_install t t' now) t'.

(** The number of an admitted token is above the current one. *)
Lemma installs_changes t now i tk t' :
  admitted t now tk i → installs t now i (et_Payload tk) t' →
  tk_current t' = Some (new_epoch t now i (et_Payload tk)) ∧
  bool_decide (tk_current t = tk_current t') = false ∧
  (∀ c, tk_current t = Some c → ep_N (es_payload c) < ep_N (et_Payload tk)).
Proof.
  intros (_ & HS & _) ->. split; [done|]. split; [|intros c Hc; by destruct (HS c Hc)].
  apply bool_decide_eq_false. simpl. intros E. destruct (HS _ E) as [Hlt _]. simpl in Hlt. lia.
Qed.

Lemma keeps_current t now p t' :
  keeps t now p t' → tk_current t' = tk_current t ∧ bool_decide (tk_current t = tk_current t') = true.
Proof. intros [->| ->]; simpl; by rewrite bool_decide_true. Qed.

(** One step of a tracker, as the history sees it. *)
Lemma tracked_cases now ts tok t tr :
  let t' := (Accept now ts tok t tr).1.2 in
  (∃ i tk, admitted t now tk i ∧ tk_current t' = Some (new_epoch t now i (et_Payload tk)) ∧
     replaced t t' = option_list (tk_current t) ∧
     (∀ c, tk_current t = Some c → ep_N (es_payload c) < ep_N (et_Payload tk)) ∧
     tk_autoLog t' = log_after t now (et_Payload tk) ∧
     auto_install t t' now = if bool_decide (ep_Mode (et_Payload tk) = ModeAuto) then [now] else []) ∨
  (tk_current t' = tk_current t ∧ replaced t t' = [] ∧ auto_install t t' now = [] ∧
   (tk_autoLog t' = tk_autoLog t ∨ ∃ p, tk_autoLog t' = log_after t now p)).
Proof.
  cbv zeta. unfold replaced, auto_install.
  destruct (Accept_state now ts tok t tr) as [(tk & i & _ & HA & HI)|[_ HK]].
  - left. exists i, tk. destruct (installs_changes _ _ _ _ _ HA HI) as (E1 & E2 & E3).
    rewrite E2, E1. split_and!; auto. by rewrite HI.
  - right. destruct HK as [->|(tk & _ & HK)].
    + rewrite bool_decide_true by done. auto.
    + destruct (keeps_current _ _ _ _ HK) as [E1 E2]. rewrite E2. split_and!; auto.
      destruct HK as [->| ->]; eauto.
Qed.

(** What every epoch of a history satisfies. *)
Definition lease_dated (e : epochState) : Prop :=
  ∃ i, parse_rfc3339 (ep_IssuedAt (es_payload e)) = Some i ∧
       es_expiresAt e = i + seconds (ep_TTLSeconds (es_payload e)).

Lemma tracked_history last past autos t :
  tracked last past autos t →
  let es := option_list (tk_current t) ++ past in
  (tk_current t = None → past = []) ∧ Forall lease_dated es ∧
  StronglySorted (λ a b, ep_N (es_payload b) < ep_N (es_payload a)) es.
Proof.
  induction 1 as [last t Hc Hl|last past autos t now ts tok tr _ (IH1 & IH2 & IH3) Hle t'].
  { rewrite Hc. split_and!; [done|constructor..]. }
  destruct (tracked_cases now ts tok t tr) as [(i & tk & HA & E1 & E2 & HN & _)|(E1 & E2 & _)];
    fold t' in E1, E2.
  - rewrite E1, E2. simpl. split_and!; [done| |].
    + constructor; [|done]. exists i. split; [apply HA|done].
    + constructor; [done|]. destruct (tk_current t) as [c|] eqn:Ec; simpl in *.
      * apply StronglySorted_inv in IH3 as [_ HF]. constructor; [by apply HN|].
        eapply Forall_impl; [exact HF|]. simpl. intros x Hx. specialize (HN c eq_refl). lia.
      * by rewrite (IH1 eq_refl).
  - rewrite E1, E2. auto.
Qed.

(** Leases that never shrink: no epoch expires before the one it replaced. *)
Definition non_shrinking (es : list epochState) : Prop :=
  StronglySorted (λ a b, es_expiresAt b ≤ es_expiresAt a) es.

(** An effective epoch finds every earlier lease expired. *)
Lemma tracked_exclusive last past autos t c s :
  tracked last past autos t → tk_current t = Some c → non_shrinking (c :: past) →
  last ≤ s → es_notBefore c ≤ s → Forall (λ h, es_expiresAt h ≤ s) past.
Proof.
  intros HT. revert c s. induction HT as [last t Hc Hl|last past autos t now ts tok tr HT IH Hle t'];
    intros c s Ec HS Hs Hnb; [done|].
  destruct (tracked_cases now ts tok t tr) as [(i & tk & HA & E1 & E2 & _)|(E1 & E2 & _)];
    fold t' in E1, E2; rewrite E2 in *; simpl in *.
  - rewrite Ec in E1. injection E1 as ->. destruct (tk_current t) as [c0|] eqn:Ec0; simpl in *.
    + apply StronglySorted_inv in HS as [HS _]. apply StronglySorted_inv in HS as [_ HF].
      assert (es_expiresAt c0 ≤ s) as Hc0.
      { unfold not_before in Hnb. rewrite Ec0 in Hnb. revert Hnb.
        destruct (Z.ltb_spec now (es_expiresAt c0)), (Z.ltb_spec i (es_expiresAt c0)); simpl; lia. }
      constructor; [done|]. eapply Forall_impl; [exact HF|]. simpl. lia.
    + destruct (tracked_history _ _ _ _ HT) as (HN & _). by rewrite (HN Ec0).
  - apply IH with c; auto; [congruence|lia].
Qed.

Lemma Accept_maxAutoHr now ts tok t tr :
  tk_maxAutoHr (Accept now ts tok t tr).1.2 = tk_maxAutoHr t.
Proof.
  destruct (Accept_state now ts tok t tr) as [(tk & i & _ & _ & ->)|[_ [->|(tk & _ & [->| ->])]]]; done.
Qed.

Lemma log_after_window t now p :
  sublist (recent now (tk_autoLog t)) (log_after t now p).
Proof.
  unfold log_after. case_bool_decide; [|apply sublist_filter].
  rewrite consumeAutoBudget_spec. case_decide; simpl; [|done]. by apply sublist_inserts_r.
Qed.

Lemma tracked_autos last past autos t :
  tracked last past autos t → 0 ≤ tk_maxAutoHr t → budgeted (tk_maxAutoHr t) last autos (tk_autoLog t).
Proof.
  induction 1 as [last t Hc Hl|last past autos t now ts tok tr _ IH Hle t']; intros Hmax.
  { by apply budgeted_nil. }
  unfold t' in *. rewrite Accept_maxAutoHr in *. specialize (IH Hmax).
  assert (∀ p, budgeted (tk_maxAutoHr t) now autos (log_after t now p)) as Hlog
    by (intros p; eapply budgeted_later; [exact IH|done|apply log_after_window]).
  destruct (tracked_cases now ts tok t tr) as [(i & tk & HA & _ & _ & _ & E3 & E4)|(_ & _ & E4 & E3)].
  - rewrite E3, E4. case_bool_decide as Hm; rewrite ?app_nil_r; [|done].
    destruct HA as (_ & _ & HB & _). specialize (HB Hm).
    assert (log_after t now (et_Payload tk) = recent now (tk_autoLog t) ++ [now]) as ->.
    { unfold log_after. rewrite bool_decide_true, consumeAutoBudget_spec by done. by rewrite decide_True. }
    by apply (budgeted_act _ last).
  - rewrite E4, app_nil_r. destruct E3 as [->|[p ->]]; [|done].
    eapply budgeted_later; [exact IH|done|apply sublist_filter].
Qed.

(** ** The signed bytes *)

(** Every string is valid UTF-8 and an empty roster is absent, as after decoding. *)
Definition payload_wf (p : EpochPayload) : Prop :=
  utf8 (sb (ep_Authority p)) ∧ utf8 (sb (ep_IssuedAt p)) ∧ utf8 (sb (ep_Mode p)) ∧
  ∀ r, ep_Roster p = Some r → r ≠ [] ∧ Forall (λ c, utf8 (sb c)) r.

Definition json_mode (m : string) : bytes :=
  if bool_decide (m = "") then [] else [comma] ++ json_key "mode" ++ json_string m.
Definition json_roster (r : option (list string)) : bytes :=
  match r with
  | Some (c :: cs) => [comma] ++ json_key "roster" ++ json_array (json_string <$> (c :: cs))
  | _ => []
  end.

Lemma json_tail_inj m1 m2 r1 r2 :
  utf8 (sb m1) → utf8 (sb m2) →
  (∀ r, r1 = Some r → r ≠ [] ∧ Forall (λ c, utf8 (sb c)) r) →
  (∀ r, r2 = Some r → r ≠ [] ∧ Forall (λ c, utf8 (sb c)) r) →
  json_mode m1 ++ json_roster r1 ++ [close_obj] = json_mode m2 ++ json_roster r2 ++ [close_obj] →
  m1 = m2 ∧ r1 = r2.
Proof.
  intros U1 U2 W1 W2. unfold json_mode.
  assert (∀ r1 r2 : option (list string),
    (∀ r, r1 = Some r → r ≠ [] ∧ Forall (λ c, utf8 (sb c)) r) →
    (∀ r, r2 = Some r → r ≠ [] ∧ Forall (λ c, utf8 (sb c)) r) →
    json_roster r1 ++ [close_obj] = json_roster r2 ++ [close_obj] → r1 = r2) as HR.
  { clear. intros r1 r2 W1 W2 E.
    destruct r1 as [[|c1 r1]|]; [by destruct (W1 [] eq_refl)| |];
      (destruct r2 as [[|c2 r2]|]; [by destruct (W2 [] eq_refl)| |]); try discriminate E; [|done].
    unfold json_roster in E. json_skip E. f_equal.
    destruct (W1 _ eq_refl) as [_ F1], (W2 _ eq_refl) as [_ F2].
    eapply (json_array_prefix json_string (λ c, utf8 (sb c))); [..|exact E]; [|done|exact F1|exact F2].
    intros x y k1 k2 Hx Hy. by apply json_string_prefix. }
  case_bool_decide as E1; case_bool_decide as E2; intros E.
  - subst. split; [done|]. by apply HR.
  - exfalso. destruct r1 as [[|? ?]|]; [by destruct (W1 [] eq_refl)|discriminate E..].
  - exfalso. destruct r2 as [[|? ?]|]; [by destruct (W2 [] eq_refl)|discriminate E..].
  - json_skip E. apply json_string_prefix in E as [-> E]; [|done..]. split; [done|]. by apply HR.
Qed.

Lemma json_tail_head m r : ∃ x k, json_mode m ++ json_roster r ++ [close_obj] = x :: k ∧ ¬ digit_or_minus x.
Proof.
  assert (¬ digit_or_minus close_obj) as Hc by (intros [|]; discriminate).
  unfold json_mode, json_roster. pose proof comma_no_digit.
  case_bool_decide; [destruct r as [[|? ?]|]|]; simpl; eexists _, _; (split; [reflexivity|done]).
Qed.

Lemma canonicalPayload_inj p q :
  payload_wf p → payload_wf q → canonicalPayload p = canonicalPayload q → p = q.
Proof.
  intros (A1 & I1 & M1 & R1) (A2 & I2 & M2 & R2) E.
  destruct p as [n a i ttl m r], q as [n' a' i' ttl' m' r']; simpl in *.
  unfold canonicalPayload in E; cbn [ep_N ep_Authority ep_IssuedAt ep_TTLSeconds ep_Mode ep_Roster] in E.
  fold (json_mode m) (json_mode m') (json_roster r) (json_roster r') in E. json_skip E.
  apply json_int_prefix in E as [-> E]. json_skip E.
  apply json_string_prefix in E as [-> E]; [|done..]. json_skip E.
  apply json_string_prefix in E as [-> E]; [|done..]. json_skip E.
  destruct (json_tail_head m r) as (x & k & Hx & Nx), (json_tail_head m' r') as (y & k' & Hy & Ny).
  rewrite Hx, Hy in E. apply json_int_prefix_gen in E as [-> E]; [|done..].
  rewrite <-Hx, <-Hy in E. by apply json_tail_inj in E as [-> ->].
Qed.

(** ** The claims *)

(** The tracker installs an epoch exactly when its token deserves it: bounded fields, a
    lifetime in range, issued no later than five seconds from now, for a member, signed by
    at least [m] distinct pinned controllers and by nobody else, numbered above the current
    epoch and not already over, within the budget of automatic switches, and with a roster
    of members that contains the authority. The installed state is then determined; in every
    other case the epoch and the quarantine stay as they were. *)
Theorem epoch_installed_exactly now ts tok t tr :
  let t' := (Accept now ts (Some tok) t tr).1.2 in
  (tk_current t' ≠ tk_current t ↔ ∃ issuedAt, admitted t now tok issuedAt) ∧
  (∀ issuedAt, admitted t now tok issuedAt →
     tk_current t' = Some (new_epoch t now issuedAt (et_Payload tok)) ∧
     tk_quarantined t' = quarantine_after t (et_Payload tok)) ∧
  (tk_current t' = tk_current t → tk_quarantined t' = tk_quarantined t).
Proof.
  cbv zeta. destruct (Accept_state now ts (Some tok) t tr) as [(tk & i & [= <-] & HA & HI)|[HN HK]].
  - destruct (installs_changes _ _ _ _ _ HA HI) as (E1 & E2%bool_decide_eq_false & _).
    split_and!; [by split; eauto| |by intros E; rewrite E in E2].
    intros i' HA'. assert (i' = i) as ->; [|by rewrite HI].
    destruct HA as [(_ & _ & _ & P1 & _) _], HA' as [(_ & _ & _ & P2 & _) _]. congruence.
  - assert (tk_current (Accept now ts (Some tok) t tr).1.2 = tk_current t ∧
      tk_quarantined (Accept now ts (Some tok) t tr).1.2 = tk_quarantined t) as [-> ->].
    { destruct HK as [->|(tk & _ & [->| ->])]; done. }
    split_and!; [|intros i HA; by destruct (HN tok i)|done].
    split; [done|]. intros [i HA]. by destruct (HN tok i).
Qed.

(** C20: never two authorities. When the tracker of a cell serves an epoch, every epoch it has
    replaced is older and no cell whose tracker still stands at one of them can serve, as
    long as no epoch was given a lease that ends before the lease it replaced. *)
Theorem no_double_authority last past autos t s n :
  tracked last past autos t → non_shrinking (option_list (tk_current t) ++ past) →
  last ≤ s → CurrentEpoch s t = inr n →
  ∃ e, tk_current t = Some e ∧ Forall (λ h, ep_N (es_payload h) < ep_N (es_payload e) ∧
    ∀ last' past' autos' t', tracked last' past' autos' t' →
      es_payload <$> tk_current t' = Some (es_payload h) →
      ∀ m, CurrentEpoch s t' ≠ inr m) past.
Proof.
  intros HT HS Hs (e & Ee & _ & _ & _ & Hnb & _)%CurrentEpoch_serves. exists e. split; [done|].
  destruct (tracked_history _ _ _ _ HT) as (_ & HD & HN). rewrite Ee in *. simpl in *.
  pose proof (tracked_exclusive _ _ _ _ _ s HT Ee HS Hs Hnb) as HX.
  apply StronglySorted_inv in HN as [_ HN]. apply Forall_cons in HD as [_ HD].
  rewrite Forall_forall in *. intros h Hh. split; [by apply HN|].
  intros last' past' autos' t' HT' Hp m (e' & Ee' & _ & _ & _ & _ & Hlt)%CurrentEpoch_serves.
  rewrite Ee' in Hp. injection Hp as Hp.
  destruct (tracked_history _ _ _ _ HT') as (_ & HD' & _). rewrite Ee' in HD'.
  apply Forall_cons in HD' as [(i' & Pi' & Ei') _]. destruct (HD h Hh) as (i & Pi & Ei).
  rewrite Hp in Pi', Ei'. assert (i' = i) as -> by congruence. specialize (HX h Hh). simpl in HX. lia.
Qed.

(** Automatic switches are rationed. Whatever tokens arrive, in any period of one hour the
    tracker installs at most [maxAutoHr] epochs in automatic mode. *)
Theorem auto_failovers_bounded last past autos t w :
  tracked last past autos t → 0 ≤ tk_maxAutoHr t →
  Z.of_nat (length (filter (λ x, w - hour < x ≤ w) autos)) ≤ tk_maxAutoHr t.
Proof. intros HT Hm. by apply (tracked_autos _ _ _ _ HT). Qed.
(** A divided quorum is caught. A second valid token with the number of the current epoch
    and another content is refused, the state unchanged, with the alarm of the equivocation
    and a leaf that records it, or an error that says the leaf is missing; otherwise the two
    contents exhibit a SHA-256 collision. *)
Theorem equivocation_detected now ts tok t tr c issuedAt :
  tk_current t = Some c → es_hash c = payloadHash (es_payload c) →
  token_ok t now tok issuedAt → ep_N (et_Payload tok) = ep_N (es_payload c) →
  payload_wf (et_Payload tok) → payload_wf (es_payload c) → et_Payload tok ≠ es_payload c →
  sha256_collision ∨
  let '(e, t', tr') := Accept now ts (Some tok) t tr in
  t' = t ∧ alarms_of tr' = alarms_of tr ++ (if tk_onAlarm t then ["epoch-equivocation"] else []) ∧
  match e with
  | Some (EpochRefused reason) => reason = "epoch-equivocation" ∧
      leaves_of tr' = leaves_of tr ++ [leaf_for (tk_producer t) KindEpoch
        (epochRecord epochEventEquivocate (ep_N (et_Payload tok)) (ep_Authority (et_Payload tok)) reason)
        (UnixNano ts)]
  | Some (EpochRefusedUntraced reason _) => reason = "epoch-equivocation" ∧ leaves_of tr' = leaves_of tr
  | _ => False
  end.
Proof.
  intros Hc Hh HT HN W1 W2 Hne.
  destruct (decide (payloadHash (et_Payload tok) = es_hash c)) as [E|E].
  { left. rewrite Hh in E. exists (canonicalPayload (et_Payload tok)), (canonicalPayload (es_payload c)).
    split; [|done]. intros EP. by apply Hne, canonicalPayload_inj. }
  right. unfold Accept. apply check_token_spec in HT. rewrite HT. unfold standing_of. rewrite Hc, HN.
  rewrite Z.ltb_irrefl, Z.eqb_refl, bool_decide_false by done.
  unfold ep_refuse, ep_leaf.
  pose proof (appendLeaf_observed (tk_producer t) KindEpoch (epochRecord epochEventEquivocate
    (ep_N (es_payload c)) (ep_Authority (et_Payload tok)) "epoch-equivocation") (UnixNano ts)
    (call_alarm (tk_onAlarm t) "epoch-equivocation" tr)) as HO.
  destruct (appendLeaf _ _ _ _ _) as [[e|] tr1]; destruct HO as (-> & -> & _);
    unfold call_alarm; destruct (tk_onAlarm t);
    rewrite ?leaves_of_app, ?alarms_of_app; simpl; rewrite ?app_nil_r; auto.
Qed.
End epoch.
