(* ===== verification/ProofStore.v ===== *)
(** The class-W proofs already used: [src/cluster/proof_store.go].

    The store keeps the identities of the proofs in their window and, when it has a path, a file
    with the same content: [ps_file] is what the disk holds. [disk] says whether the writes of
    one call succeed; a failed write leaves the old file. *)
From S2P Require Import Prelude.
From S2P Require Import Hex.

Local Open Scope Z_scope.

Definition DefaultProofStoreCapacity : Z := 4096.

Inductive proof_store_error := ErrProofStoreFull | ErrQuorumProofStoreFail.

Record consumedProofs := mkConsumedProofs {
  ps_entries : gmap string Z;
  ps_capacity : Z;
  ps_file : option (gmap string Z);      (* None: memory only *)
}.

(** What a reading of the file gives: an error, no file, bytes that do not decode, a map. *)
Inductive file_content := FileError | FileAbsent | FileEmpty | FileUnreadable | FileMap (m : gmap string Z).

(** [newConsumedProofs]; [path] is [None] for the store in memory. *)
Definition newConsumedProofs (capacity : Z) (path : option file_content) : option consumedProofs :=
  let capacity := if capacity =? 0 then DefaultProofStoreCapacity else capacity in
  if capacity <? 1 then None
  else match path with
       | None => Some (mkConsumedProofs ∅ capacity None)
       | Some (FileAbsent | FileEmpty) => Some (mkConsumedProofs ∅ capacity (Some ∅))
       | Some (FileMap m) => Some (mkConsumedProofs m capacity (Some m))
       | Some (FileError | FileUnreadable) => None
       end.

Definition NewMemoryProofStore (capacity : Z) : option consumedProofs := newConsumedProofs capacity None.
Definition NewFileProofStore (path : string) (content : file_content) (capacity : Z) :
    option consumedProofs :=
  if bool_decide (path = "") then None else newConsumedProofs capacity (Some content).

(** [persistLocked]: the new content of the file, or a failure. *)
Definition persistLocked (disk : bool) (entries : gmap string Z) (file : option (gmap string Z)) :
    option (option (gmap string Z)) :=
  match file with
  | None => Some None
  | Some _ => if disk then Some (Some entries) else None
  end.

(** [Consume]. *)
Definition ps_Consume (disk : bool) (id : bytes) (expiry now : Z) (c : consumedProofs) :
    (proof_store_error + bool) * consumedProofs :=
  let key := hex id in
  match ps_entries c !! key with
  | Some _ => (inr false, c)
  | None =>
      let kept := filter (λ kv, Unix now < kv.2) (ps_entries c) in
      if ps_capacity c <=? Z.of_nat (size kept) then (inl ErrProofStoreFull, c)
      else
        let entries := <[key := Unix expiry]> kept in
        match persistLocked disk entries (ps_file c) with
        | Some file => (inr true, mkConsumedProofs entries (ps_capacity c) file)
        | None => (inl ErrQuorumProofStoreFail, c)
        end
  end.

Definition ps_Len (c : consumedProofs) : Z := Z.of_nat (size (ps_entries c)).

(** ** The life of a store *)

(** The file and the memory agree, within the capacity. *)
Definition ps_wf (c : consumedProofs) : Prop :=
  1 ≤ ps_capacity c ∧ ps_Len c ≤ ps_capacity c ∧
  (ps_file c = None ∨ ps_file c = Some (ps_entries c)).

(** A restart opens the file again. *)
Definition ps_restart (c : consumedProofs) : option consumedProofs :=
  newConsumedProofs (ps_capacity c) (FileMap <$> ps_file c).

(** Calls whose reading of the clock satisfies [P], and restarts of a store on a file. *)
Inductive ps_step (P : Z → Prop) : consumedProofs → consumedProofs → Prop :=
  | ps_call disk id expiry now c r c' :
      P now → ps_Consume disk id expiry now c = (r, c') → ps_step P c c'
  | ps_reopen c c' : is_Some (ps_file c) → ps_restart c = Some c' → ps_step P c c'.

Lemma ps_Consume_spec disk id expiry now c :
  let '(r, c') := ps_Consume disk id expiry now c in
  ps_capacity c' = ps_capacity c ∧
  ((c' = c ∧ r ≠ inr true) ∨
   (r = inr true ∧ ps_entries c !! hex id = None ∧
    ps_entries c' = <[hex id := Unix expiry]> (filter (λ kv, Unix now < kv.2) (ps_entries c)) ∧
    Z.of_nat (size (filter (λ kv : string * Z, Unix now < kv.2) (ps_entries c))) < ps_capacity c ∧
    ps_file c' = (λ _, ps_entries c') <$> ps_file c)).
Proof.
  unfold ps_Consume. destruct (ps_entries c !! hex id) eqn:E; [by auto|].
  destruct (Z.leb_spec (ps_capacity c) (Z.of_nat (size (filter (λ kv, Unix now < kv.2) (ps_entries c)))));
    [by auto|].
  unfold persistLocked. destruct (ps_file c) as [m|]; [destruct disk|]; simpl; auto 10.
Qed.

Lemma ps_restart_same c c' : ps_wf c → is_Some (ps_file c) → ps_restart c = Some c' → c' = c.
Proof.
  intros (H1 & _ & [Hn|Hf]) [m Hm]; [congruence|]. unfold ps_restart, newConsumedProofs.
  rewrite Hf. simpl. rewrite (proj2 (Z.eqb_neq _ _)), (proj2 (Z.ltb_ge _ _)) by lia.
  intros [= <-]. destruct c; simpl in *. by rewrite Hf.
Qed.

Lemma ps_step_wf P c c' : ps_step P c c' → ps_wf c → ps_wf c'.
Proof.
  intros [disk id expiry now d r d' _ E|d d' Hf E] W; [|by rewrite (ps_restart_same d d')].
  pose proof (ps_Consume_spec disk id expiry now d) as HS. rewrite E in HS.
  destruct HS as (Hc & [[-> _]|(_ & Hn & He & Hs & Hfile)]); [done|].
  destruct W as (W1 & W2 & W3). unfold ps_wf, ps_Len in *. rewrite Hc. split_and!; [done| |].
  - rewrite He, map_size_insert_None; [lia|]. by rewrite map_lookup_filter, Hn.
  - destruct W3 as [W3|W3]; rewrite W3 in Hfile; auto.
Qed.

(** An identity stays while its window is open. *)
Lemma ps_step_keeps P c c' k exp :
  ps_step P c c' → ps_wf c → (∀ now, P now → Unix now < exp) →
  ps_entries c !! k = Some exp → ps_entries c' !! k = Some exp.
Proof.
  intros [disk id expiry now d r d' HP E|d d' Hf E] W HN Hk; [|by rewrite (ps_restart_same d d')].
  pose proof (ps_Consume_spec disk id expiry now d) as HS. rewrite E in HS.
  destruct HS as (_ & [[-> _]|(_ & Hn & -> & _)]); [done|].
  rewrite lookup_insert_ne by congruence. apply map_lookup_filter_Some. auto.
Qed.

(** After a consumption, the identity is there as long as the clock is before its second. *)
Lemma ps_spent disk id expiry now c c1 P c2 :
  ps_wf c → ps_Consume disk id expiry now c = (inr true, c1) →
  (∀ n, P n → Unix n < Unix expiry) → rtc (ps_step P) c1 c2 →
  ps_wf c2 ∧ ps_entries c2 !! hex id = Some (Unix expiry).
Proof.
  intros W E HP HR.
  assert (ps_wf c1 ∧ ps_entries c1 !! hex id = Some (Unix expiry)) as [W1 H1].
  { split; [apply (ps_step_wf (λ _, True) c); [by eapply ps_call|done]|].
    pose proof (ps_Consume_spec disk id expiry now c) as HS. rewrite E in HS.
    destruct HS as (_ & [[_ ?]|(_ & _ & -> & _)]); [done|]. apply lookup_insert_eq. }
  clear W E. induction HR as [c2|c1 c1' c2 Hs _ IH]; [done|].
  apply IH; [by eapply ps_step_wf|by eapply ps_step_keeps].
Qed.

Lemma ps_Consume_replay disk id expiry now c x :
  ps_entries c !! hex id = Some x → ps_Consume disk id expiry now c = (inr false, c).
Proof. intros Hx. unfold ps_Consume. by rewrite Hx. Qed.

(** A proof is spent once. After a consumption succeeded, no later one for the same
    identity succeeds, across any sequence of other consumptions, failed writes and restarts
    of the store, as long as the clock has not reached the second of the expiry; and the
    store never holds more than its capacity. *)
Theorem proof_spent_once disk id expiry now c c1 P c2 disk' expiry' now' :
  ps_wf c → ps_Consume disk id expiry now c = (inr true, c1) →
  (∀ n, P n → Unix n < Unix expiry) → rtc (ps_step P) c1 c2 →
  ps_Consume disk' id expiry' now' c2 = (inr false, c2) ∧ ps_Len c2 ≤ ps_capacity c2.
Proof.
  intros W E HP HR. destruct (ps_spent _ _ _ _ _ _ _ _ W E HP HR) as [W2 H2].
  split; [by eapply ps_Consume_replay|apply W2].
Qed.
