(* ===== verification/ClassW.v ===== *)
(** The co-signature of the most serious actions: [src/cluster/quorum.go].

    [VerifyClassW] checks a proof against the action it is presented for, counts the signatures,
    spends the proof in the store of ProofStore.v and writes a leaf. It starts from the decoded
    proof; [now] is its reading of the clock and [ts] that of the leaf. *)
From S2P Require Import Prelude.
From S2P Require Import Hex.
From S2P Require Import Json.
From S2P Require Import Leaf.
From S2P Require Import Effects.
From S2P Require Import Controllers.
From S2P Require Import Epoch.
From S2P Require Import ProofStore.

Local Open Scope Z_scope.

Definition DefaultMaxProofTTLSeconds : Z := 300.

Record QuorumStatement := mkQuorumStatement {
  st_Action : string; st_Resource : string; st_PolicyID : string; st_Epoch : Z; st_Expiry : string }.

Record ClassWProof := mkClassWProof {
  wp_Statement : QuorumStatement; wp_Quorum : string; wp_Signatures : list ControllerSignature }.

(** [json.Marshal(st)]. *)
Definition canonicalStatement (st : QuorumStatement) : bytes :=
  [open_obj] ++ json_key "action" ++ json_string (st_Action st)
  ++ [comma] ++ json_key "resource" ++ json_string (st_Resource st)
  ++ [comma] ++ json_key "policy_id" ++ json_string (st_PolicyID st)
  ++ [comma] ++ json_key "epoch" ++ json_int (st_Epoch st)
  ++ [comma] ++ json_key "expiry" ++ json_string (st_Expiry st)
  ++ [close_obj].

Definition proofID `{Crypto} (st : QuorumStatement) : bytes := sha256 (canonicalStatement st).

Record ClassWGate := mkClassWGate {
  qg_producer : Producer; qg_ctrls : gmap Z bytes; qg_k : Z; qg_policy : bytes; qg_maxTTL : Z }.

(** [NewQuorumGate]: [None] is a configuration error. *)
Definition NewQuorumGate (cellID : string) (salt : bytes) (leaves journal consumed : bool)
    (controllers : gmap Z bytes) (k : Z) (policyID : bytes) (maxTTL : Z) : option ClassWGate :=
  let maxTTL := or_default maxTTL DefaultMaxProofTTLSeconds in
  if bool_decide (cellID = "") then None
  else if (length salt <? 16)%nat then None
  else if negb leaves then None
  else if (size controllers =? 0)%nat then None
  else if negb consumed then None
  else if (k <? 1) || (Z.of_nat (size controllers) <? k) then None
  else if maxTTL <? 1 then None
  else if bool_decide (map_Exists (λ _ pub, length pub ≠ 32%nat) controllers) then None
  else Some (mkClassWGate (mkProducer cellID salt journal) controllers k policyID (seconds maxTTL)).

(** The record of a leaf; [int8] keeps the low byte of the counts. *)
Definition classWRecord (verdict : byte) (valid k : Z) (action : string) (epoch : Z) (reason : string) :
    bytes :=
  let action := take 255 (sb action) in
  let reason := take 255 (sb reason) in
  sb "TBPQ1" ++ [verdict; z2b valid; z2b k] ++ be 8 epoch
  ++ [z2b (Z.of_nat (length action))] ++ action ++ [z2b (Z.of_nat (length reason))] ++ reason.

Inductive classW_error :=
  | ErrQuorumProofRequired | ErrQuorumBinding | ErrQuorumProofExpired | ErrQuorumProofTTLLong
  | ErrQuorumInsufficient | ErrStoreFull | ErrStoreFail | ErrQuorumProofReplayed
  | ErrUntraced (reason : string) | ErrAdmissionLeaf.

Definition sig_reason (f : sig_fault) : string :=
  match f with
  | DuplicateSigner => "quorum-duplicate-signer"
  | UnknownSigner => "quorum-unknown-signer"
  | BadSignature => "quorum-bad-signature"
  end.

Section classW.
Context `{Crypto, Env, TimeParser}.

Definition qg_leaf (g : ClassWGate) (verdict : byte) (valid k : Z) (action : string) (epoch : Z)
    (reason : string) (ts : Z) (t : trace) : option append_error * trace :=
  appendLeaf (qg_producer g) KindQuorum (classWRecord verdict valid k action epoch reason) (UnixNano ts) t.

(** A refusal: its reason, its cause and the counts of its leaf. *)
Record refusal := mkRefusal { rf_reason : string; rf_cause : classW_error; rf_valid : Z; rf_k : Z }.

(** The checks before the proof is spent: a refusal, or the expiry and the count. *)
Definition check_proof (g : ClassWGate) (now : Z) (proof : option (option ClassWProof)) (action resource : string)
    (epoch : Z) : refusal + (ClassWProof * Z * Z) :=
  let early r c := inl (mkRefusal r c 0 0) in
  match proof with
  | None => early "quorum-proof-required" ErrQuorumProofRequired
  | Some None => early "malformed-quorum-proof" ErrQuorumProofRequired
  | Some (Some p) =>
    let st := wp_Statement p in
    if bool_decide (st_Action st ≠ action) || bool_decide (st_Resource st ≠ resource)
       || negb (st_Epoch st =? epoch) || bool_decide (st_PolicyID st ≠ hex (qg_policy g))
    then early "quorum-binding-mismatch" ErrQuorumBinding
    else match parse_rfc3339 (st_Expiry st) with
    | None => early "expiry-unparseable" ErrQuorumProofExpired
    | Some expiry =>
        if expiry <=? now then early "quorum-proof-expired" ErrQuorumProofExpired
        else if now + qg_maxTTL g <? expiry then early "quorum-proof-ttl-out-of-range" ErrQuorumProofTTLLong
        else match ctrl_loop (qg_ctrls g) (canonicalStatement st) (wp_Signatures p) ∅ 0 with
        | inl (f, valid) => inl (mkRefusal (sig_reason f) ErrQuorumInsufficient valid (qg_k g))
        | inr valid =>
            if valid <? qg_k g then inl (mkRefusal "quorum-insufficient" ErrQuorumInsufficient valid (qg_k g))
            else inr (p, expiry, valid)
        end
    end
  end.

Definition qg_refuse (g : ClassWGate) (r : refusal) (action : string) (epoch ts : Z) (t : trace) :
    option classW_error * trace :=
  match qg_leaf g Byte.x00 (rf_valid r) (rf_k r) action epoch (rf_reason r) ts t with
  | (Some _, t1) => (Some (ErrUntraced (rf_reason r)), t1)
  | (None, t1) => (Some (rf_cause r), t1)
  end.

(** [VerifyClassW]; [proof] is [None] when no bytes were given and [Some None] when they do not
    decode; [disk] is the fate of the writes of the store. *)
Definition VerifyClassW (g : ClassWGate) (now ts : Z) (disk : bool) (proof : option (option ClassWProof))
    (action resource : string) (epoch : Z) (c : consumedProofs) (t : trace) :
    option classW_error * consumedProofs * trace :=
  match check_proof g now proof action resource epoch with
  | inl r => let '(e, t1) := qg_refuse g r action epoch ts t in (e, c, t1)
  | inr (p, expiry, valid) =>
      let '(r, c1) := ps_Consume disk (proofID (wp_Statement p)) expiry now c in
      let spent reason cause :=
        let '(e, t1) := qg_refuse g (mkRefusal reason cause valid (qg_k g)) action epoch ts t in (e, c1, t1) in
      match r with
      | inl ErrProofStoreFull => spent "quorum-proof-store-full" ErrStoreFull
      | inl ErrQuorumProofStoreFail => spent "quorum-proof-store-error" ErrStoreFail
      | inr false => spent "quorum-proof-replayed" ErrQuorumProofReplayed
      | inr true =>
          match qg_leaf g Byte.x01 valid (qg_k g) action epoch "ok" ts t with
          | (Some _, t1) => (Some ErrAdmissionLeaf, c1, t1)
          | (None, t1) => (None, c1, t1)
          end
      end
  end.

(** ** What an admission needs *)

Definition proof_valid (g : ClassWGate) (now : Z) (p : ClassWProof) (action resource : string)
    (epoch expiry : Z) : Prop :=
  let st := wp_Statement p in
  st_Action st = action ∧ st_Resource st = resource ∧ st_Epoch st = epoch ∧
  st_PolicyID st = hex (qg_policy g) ∧ parse_rfc3339 (st_Expiry st) = Some expiry ∧
  now < expiry ≤ now + qg_maxTTL g ∧
  NoDup (cs_KeyID <$> wp_Signatures p) ∧
  Forall (signed_by (qg_ctrls g) (canonicalStatement st)) (wp_Signatures p) ∧
  qg_k g ≤ Z.of_nat (length (wp_Signatures p)).

Lemma check_proof_spec g now proof action resource epoch p expiry valid :
  check_proof g now proof action resource epoch = inr (p, expiry, valid) ↔
    proof = Some (Some p) ∧ proof_valid g now p action resource epoch expiry ∧
    valid = Z.of_nat (length (wp_Signatures p)).
Proof.
  unfold check_proof, proof_valid. destruct proof as [[q|]|]; [|split; [done|by intros [? _]]..].
  case_bool_decide as HA; simpl; [split; [done|intros ([= <-] & [? _] & _); done]|].
  case_bool_decide as HR; simpl; [split; [done|intros ([= <-] & (_ & ? & _) & _); done]|].
  destruct (Z.eqb_spec (st_Epoch (wp_Statement q)) epoch) as [HE|HE]; simpl;
    [|split; [done|intros ([= <-] & (_ & _ & ? & _) & _); done]].
  case_bool_decide as HP; [split; [done|intros ([= <-] & (_ & _ & _ & ? & _) & _); done]|].
  destruct (parse_rfc3339 _) as [x|] eqn:EX;
    [|split; [done|intros ([= <-] & (_ & _ & _ & _ & ? & _) & _); congruence]].
  destruct (Z.leb_spec x now).
  { split; [done|]. intros ([= <-] & (_ & _ & _ & _ & Hx & ? & _) & _). simplify_eq. lia. }
  destruct (Z.ltb_spec (now + qg_maxTTL g) x).
  { split; [done|]. intros ([= <-] & (_ & _ & _ & _ & Hx & ? & _) & _). simplify_eq. lia. }
  destruct (ctrl_loop _ _ _ _ _) as [[f v]|v] eqn:EL.
  { split; [done|]. intros ([= <-] & (_ & _ & _ & _ & _ & _ & HN & HF & _) & _).
    assert (ctrl_loop (qg_ctrls g) (canonicalStatement (wp_Statement q)) (wp_Signatures q) ∅ 0
      = inr (0 + Z.of_nat (length (wp_Signatures q)))); [|congruence].
    apply ctrl_loop_ok. split_and!; auto. apply Forall_true. set_solver. }
  apply ctrl_loop_ok in EL as (HN & _ & HF & ->).
  destruct (Z.ltb_spec (0 + Z.of_nat (length (wp_Signatures q))) (qg_k g)).
  { split; [done|]. intros ([= <-] & (_ & _ & _ & _ & _ & _ & _ & _ & ?) & _). lia. }
  split.
  - intros [= <- <- <-]. split_and!; auto; lia.
  - intros ([= <-] & (_ & _ & _ & _ & Hx & _) & ->). simplify_eq. by rewrite Z.add_0_l.
Qed.

Lemma qg_refuse_error g r action epoch ts t : (qg_refuse g r action epoch ts t).1 ≠ None.
Proof. unfold qg_refuse. by destruct (qg_leaf _ _ _ _ _ _ _ _ _) as [[e|] t1]. Qed.

Lemma qg_refused g r action epoch ts t (c : consumedProofs) :
  (let '(e, t1) := qg_refuse g r action epoch ts t in (e, c, t1)).1.1 = None → False.
Proof. pose proof (qg_refuse_error g r action epoch ts t). by destruct (qg_refuse _ _ _ _ _ _). Qed.

(** The store changes only by a consumption. *)
Lemma VerifyClassW_store g now ts disk proof action resource epoch c t :
  let c' := (VerifyClassW g now ts disk proof action resource epoch c t).1.2 in
  c' = c ∨ ∃ id expiry r, ps_Consume disk id expiry now c = (r, c').
Proof.
  unfold VerifyClassW. destruct (check_proof _ _ _ _ _ _) as [r|[[p expiry] valid]].
  { destruct (qg_refuse _ _ _ _ _ _). by left. }
  right. exists (proofID (wp_Statement p)), expiry. destruct (ps_Consume _ _ _ _ _) as [r c1].
  exists r. destruct r as [[]|[]];
    try (destruct (qg_refuse _ _ _ _ _ _); done); by destruct (qg_leaf _ _ _ _ _ _ _ _ _) as [[]].
Qed.

Lemma VerifyClassW_admits g now ts disk proof action resource epoch c t :
  (VerifyClassW g now ts disk proof action resource epoch c t).1.1 = None ↔
    ∃ p expiry c1, proof = Some (Some p) ∧ proof_valid g now p action resource epoch expiry ∧
      ps_Consume disk (proofID (wp_Statement p)) expiry now c = (inr true, c1) ∧
      (VerifyClassW g now ts disk proof action resource epoch c t).1.2 = c1 ∧
      (qg_leaf g Byte.x01 (Z.of_nat (length (wp_Signatures p))) (qg_k g) action epoch "ok" ts t).1 = None.
Proof.
  unfold VerifyClassW. destruct (check_proof _ _ _ _ _ _) as [r|[[p expiry] valid]] eqn:EC.
  { pose proof (qg_refuse_error g r action epoch ts t) as HN.
    destruct (qg_refuse _ _ _ _ _ _) as [e t1]. split; [done|].
    intros (p & expiry & c1 & Hp & HV & _).
    assert (check_proof g now proof action resource epoch =
      inr (p, expiry, Z.of_nat (length (wp_Signatures p)))); [|congruence].
    by apply check_proof_spec. }
  apply check_proof_spec in EC as (-> & HV & ->).
  assert (∀ q x, proof_valid g now q action resource epoch x →
    Some (Some p) = Some (Some q) → q = p ∧ x = expiry) as HU.
  { intros q x (_ & _ & _ & _ & Hx & _) [= <-]. destruct HV as (_ & _ & _ & _ & Hy & _). split; congruence. }
  destruct (ps_Consume _ _ _ _ _) as [r c1] eqn:ES.
  destruct r as [[|]|[|]].
  1,2,4: (split; [by intros ?%qg_refused|];
    intros (q & x & c2 & Hq & HV2 & HS & _); destruct (HU q x HV2 Hq) as [-> ->]; congruence).
  destruct (qg_leaf _ _ _ _ _ _ _ _ _) as [[e|] t1] eqn:EL; simpl.
  - split; [done|]. intros (q & x & c2 & Hq & HV2 & _ & _ & HL).
    destruct (HU q x HV2 Hq) as [-> ->]. by rewrite EL in HL.
  - split; [|done]. intros _. exists p, expiry, c1. rewrite EL. auto.
Qed.

(** ** The claims *)

(** When an action of class W goes through. [VerifyClassW] admits exactly when the proof
    names this action, resource, epoch and policy, is in its window, carries at least [k]
    signatures of distinct pinned controllers and no other, was not spent before and is now
    spent in the store, and the leaf of the admission was written. *)
Theorem classW_admits_exactly g now ts disk proof action resource epoch c t :
  (VerifyClassW g now ts disk proof action resource epoch c t).1.1 = None ↔
    ∃ p expiry c1, proof = Some (Some p) ∧ proof_valid g now p action resource epoch expiry ∧
      ps_Consume disk (proofID (wp_Statement p)) expiry now c = (inr true, c1) ∧
      (VerifyClassW g now ts disk proof action resource epoch c t).1.2 = c1 ∧
      (qg_leaf g Byte.x01 (Z.of_nat (length (wp_Signatures p))) (qg_k g) action epoch "ok" ts t).1 = None.
Proof. apply VerifyClassW_admits. Qed.

(** Calls of the gate at readings in [P], and restarts of its store. *)
Inductive classW_step (g : ClassWGate) (P : Z → Prop) : consumedProofs → consumedProofs → Prop :=
  | classW_call now ts disk proof action resource epoch c t :
      P now → classW_step g P c (VerifyClassW g now ts disk proof action resource epoch c t).1.2
  | classW_reopen c c' : is_Some (ps_file c) → ps_restart c = Some c' → classW_step g P c c'.

Lemma classW_steps g P c c' : rtc (classW_step g P) c c' → rtc (ps_step P) c c'.
Proof.
  induction 1 as [|c c1 c' Hs _ IH]; [done|].
  destruct Hs as [now ts disk proof action resource epoch c t HP|c c1 Hf Hr].
  - destruct (VerifyClassW_store g now ts disk proof action resource epoch c t) as [<-|(id & x & r & E)];
      [done|]. eapply rtc_l; [|exact IH]. by eapply ps_call.
  - eapply rtc_l; [|exact IH]. by apply ps_reopen.
Qed.

(** C22: one proof, one action. Once a statement was admitted, no proof of that statement is
    admitted again, whoever signed it, whatever was verified in between, with failed writes
    and restarts, provided its expiry is a whole second and the clock does not go back. *)
Theorem classW_proof_single_use g now ts disk p action resource epoch c t c1 t1 s c2
    now' ts' disk' p' action' resource' epoch' t2 :
  ps_wf c → parse_rfc3339 (st_Expiry (wp_Statement p)) = Some (of_Unix s) →
  VerifyClassW g now ts disk (Some (Some p)) action resource epoch c t = (None, c1, t1) →
  rtc (classW_step g (λ n, n ≤ now')) c1 c2 → wp_Statement p' = wp_Statement p →
  (VerifyClassW g now' ts' disk' (Some (Some p')) action' resource' epoch' c2 t2).1.1 ≠ None.
Proof.
  intros W Hs E1 HR Hst Hn.
  apply VerifyClassW_admits in Hn as (q & x & c3 & [= <-] & HV & HC & _).
  assert ((VerifyClassW g now ts disk (Some (Some p)) action resource epoch c t).1.1 = None) as Ha
    by by rewrite E1.
  apply VerifyClassW_admits in Ha as (q & y & c4 & [= <-] & HV' & HC' & Hc4 & _).
  rewrite E1 in Hc4. simpl in Hc4. subst c4.
  destruct HV as (_ & _ & _ & _ & Hx & Hnow & _), HV' as (_ & _ & _ & _ & Hy & _).
  rewrite Hst in Hx. rewrite Hs in Hx, Hy. injection Hx as <-. injection Hy as <-.
  destruct (ps_spent _ _ _ _ _ _ (λ n, n ≤ now') c2 W HC') as [_ Hk].
  - intros n Hle. rewrite Unix_of_Unix. unfold Unix, of_Unix, second in *.
    apply Z.div_lt_upper_bound; lia.
  - by eapply classW_steps.
  - rewrite Hst in HC. by rewrite (ps_Consume_replay _ _ _ _ _ _ Hk) in HC.
Qed.
End classW.
