(* ===== verification/Promotion.v ===== *)
(** Promotions against the anchors of the master: [src/cluster/promotion.go] and
    [src/cluster/anchors.go].

    [Promote] asks its source of anchors for the bundle and the healthy window of an epoch. The
    source is an interface ([MasterAnchorSource]); [FileAnchorSource] implements it over a file
    signed by the controllers, read again at each question. Documents are taken decoded; the
    contents of the file at the two questions of one promotion are independent. *)
From S2P Require Import Prelude.
From S2P Require Import Hex.
From S2P Require Import Json.
From S2P Require Import Leaf.
From S2P Require Import Effects.
From S2P Require Import Controllers.
From S2P Require Import Epoch.
From S2P Require Import ClassW.

Local Open Scope Z_scope.

(** ** The anchors of the master *)

(** The answers of a source during one promotion. *)
Class MasterAnchorSource := {
  BundleAnchor : Z → option bytes;
  HealthyWindow : Z → option (Z * Z);
}.

Definition anchorsKind : string := "tbp-anchors-v1".
Definition MaxAnchorFileBytes : Z := Z.shiftl 256 10.
Definition MaxAnchorEntries : nat := 1024.
Definition MaxAnchorWindow : Z := 7 * 24 * hour.

Record AnchorEntry := mkAnchorEntry {
  ae_Epoch : Z; ae_BundleHash : string; ae_WindowStart : string; ae_WindowEnd : string }.

(** [ap_Anchors] is [None] for a nil slice. *)
Record AnchorPayload := mkAnchorPayload { ap_Kind : string; ap_Anchors : option (list AnchorEntry) }.

Record AnchorFile := mkAnchorFile { af_Payload : AnchorPayload; af_Signatures : list ControllerSignature }.

Definition json_anchor (e : AnchorEntry) : bytes :=
  [open_obj] ++ json_key "epoch" ++ json_int (ae_Epoch e)
  ++ [comma] ++ json_key "bundle_hash" ++ json_string (ae_BundleHash e)
  ++ [comma] ++ json_key "window_start" ++ json_string (ae_WindowStart e)
  ++ [comma] ++ json_key "window_end" ++ json_string (ae_WindowEnd e)
  ++ [close_obj].

(** [json.Marshal(af.Payload)]. *)
Definition canonicalAnchors (p : AnchorPayload) : bytes :=
  [open_obj] ++ json_key "kind" ++ json_string (ap_Kind p)
  ++ [comma] ++ json_key "anchors"
  ++ match ap_Anchors p with Some es => json_array (json_anchor <$> es) | None => sb "null" end
  ++ [close_obj].

(** [fas_controllers] and [fas_quorum] come from the manifest of the genesis. *)
Record FileAnchorSource := mkFileAnchorSource { fas_controllers : gmap Z bytes; fas_quorum : Z }.

Definition NewFileAnchorSource (path : string) (controllers : gmap Z bytes) (quorum : Z) :
    option FileAnchorSource :=
  if bool_decide (path = "") then None
  else if (size controllers =? 0)%nat then None
  else if (quorum <? 1) || (Z.of_nat (size controllers) <? quorum) then None
  else Some (mkFileAnchorSource controllers quorum).

Inductive anchors_error :=
  | AnchorsUnreadable | AnchorsTooBig | AnchorsMalformed | AnchorsBadKind | AnchorsBadQuorum
  | AnchorsCount | AnchorsDuplicate (epoch : Z) | AnchorsBadHash (epoch : Z) | AnchorsBadWindow (epoch : Z).

(** A file as one read finds it: its size, and the document when it decodes. *)
Record anchor_content := mkAnchorContent { fc_size : Z; fc_doc : option AnchorFile }.

Section anchors.
Context `{Crypto, TimeParser}.

(** [time.Parse] of both ends, and the checks on the window. *)
Definition anchor_window (e : AnchorEntry) : option (Z * Z) :=
  match parse_rfc3339 (ae_WindowStart e), parse_rfc3339 (ae_WindowEnd e) with
  | Some start, Some stop =>
      if negb (start <? stop) || (MaxAnchorWindow <? Sub stop start) then None else Some (start, stop)
  | _, _ => None
  end.

Definition bundle_of (hash : string) : option bytes :=
  match hex_DecodeString hash with
  | Some raw => if bool_decide (length raw = 32)%nat then Some raw else None
  | None => None
  end.

(** The loop of [parseAnchors] over the entries. *)
Fixpoint anchors_loop (es : list AnchorEntry) (out : gmap Z AnchorEntry) :
    anchors_error + gmap Z AnchorEntry :=
  match es with
  | [] => inr out
  | e :: es' =>
      match out !! ae_Epoch e with
      | Some _ => inl (AnchorsDuplicate (ae_Epoch e))
      | None =>
          match bundle_of (ae_BundleHash e) with
          | None => inl (AnchorsBadHash (ae_Epoch e))
          | Some _ =>
              match anchor_window e with
              | None => inl (AnchorsBadWindow (ae_Epoch e))
              | Some _ => anchors_loop es' (<[ae_Epoch e := e]> out)
              end
          end
      end
  end.

Definition parseAnchors (doc : option AnchorFile) (ctrls : gmap Z bytes) (quorum : Z) :
    anchors_error + gmap Z AnchorEntry :=
  match doc with
  | None => inl AnchorsMalformed
  | Some af =>
      let es := default [] (ap_Anchors (af_Payload af)) in
      if bool_decide (ap_Kind (af_Payload af) ≠ anchorsKind) then inl AnchorsBadKind
      else if negb (ctrl_quorum ctrls quorum (canonicalAnchors (af_Payload af)) (af_Signatures af))
      then inl AnchorsBadQuorum
      else if (length es =? 0)%nat || (MaxAnchorEntries <? length es)%nat then inl AnchorsCount
      else anchors_loop es ∅
  end.

Definition fas_Verify (s : FileAnchorSource) (file : option anchor_content) :
    anchors_error + gmap Z AnchorEntry :=
  match file with
  | None => inl AnchorsUnreadable
  | Some f =>
      if MaxAnchorFileBytes <? fc_size f then inl AnchorsTooBig
      else parseAnchors (fc_doc f) (fas_controllers s) (fas_quorum s)
  end.

Definition fas_lookup (s : FileAnchorSource) (file : option anchor_content) (epoch : Z) : option AnchorEntry :=
  match fas_Verify s file with inl _ => None | inr m => m !! epoch end.

Definition fas_BundleAnchor (s : FileAnchorSource) (file : option anchor_content) (epoch : Z) : option bytes :=
  match fas_lookup s file epoch with
  | None => None
  | Some e => Some (default [] (hex_DecodeString (ae_BundleHash e)))
  end.

Definition fas_HealthyWindow (s : FileAnchorSource) (file : option anchor_content) (epoch : Z) :
    option (Z * Z) :=
  match fas_lookup s file epoch with
  | None => None
  | Some e => Some (default 0 (parse_rfc3339 (ae_WindowStart e)), default 0 (parse_rfc3339 (ae_WindowEnd e)))
  end.

(** The interface, over the contents at the two reads. *)
#[global] Instance file_anchors (s : FileAnchorSource) (first second : option anchor_content) :
    MasterAnchorSource := {
  BundleAnchor := fas_BundleAnchor s first;
  HealthyWindow := fas_HealthyWindow s second;
}.
End anchors.

(** ** The controller *)

Record Receipt := mkReceipt {
  rc_CellID : string; rc_Epoch : Z; rc_BundleHash : string; rc_ReceivedAt : string }.

Record SignedReceipt := mkSignedReceipt { sr_Receipt : Receipt; sr_Sig : string }.

(** [json.Marshal(r)]. *)
Definition canonicalReceipt (r : Receipt) : bytes :=
  [open_obj] ++ json_key "cell_id" ++ json_string (rc_CellID r)
  ++ [comma] ++ json_key "epoch" ++ json_int (rc_Epoch r)
  ++ [comma] ++ json_key "bundle_hash" ++ json_string (rc_BundleHash r)
  ++ [comma] ++ json_key "received_at" ++ json_string (rc_ReceivedAt r)
  ++ [close_obj].

Record PromotionController := mkPromotion { pc_producer : Producer; pc_keys : gmap string bytes }.

(** [NewPromotionController]: [None] is a configuration error. *)
Definition NewPromotionController (cellID : string) (salt : bytes) (leaves journal source : bool)
    (keys : gmap string bytes) : option PromotionController :=
  if bool_decide (cellID = "") then None
  else if (length salt <? 16)%nat then None
  else if negb leaves then None
  else if negb source then None
  else if (size keys =? 0)%nat then None
  else if bool_decide (map_Exists (λ id pub, id = "" ∨ length pub ≠ 32%nat) keys) then None
  else Some (mkPromotion (mkProducer cellID salt journal) keys).

(** The record of a leaf. *)
Definition promotionRecord (verdict : byte) (cell : string) (epoch : Z) (bundle : bytes) (reason : string) :
    bytes :=
  let cell := take 255 (sb cell) in
  let reason := take 255 (sb reason) in
  sb "TBPP1" ++ [verdict; z2b (Z.of_nat (length cell))] ++ cell ++ be 8 epoch ++ bundle
  ++ [z2b (Z.of_nat (length reason))] ++ reason.

Inductive promotion_error :=
  | ErrPromotionAnchorUnavailable | ErrPromotionBundleMismatch | ErrPromotionWindowUnavailable
  | ErrPromotionWindowExpired | ErrPromotionUnknownCell | ErrPromotionBadReceipt (reason : string)
  | ErrPromotionUntraced (reason : string) | ErrPromotionLeaf.

(** The [switch] of [refuseLocked]. *)
Definition promotion_cause (reason : string) : promotion_error :=
  if bool_decide (reason = "promotion-anchor-unavailable") then ErrPromotionAnchorUnavailable
  else if bool_decide (reason = "bundle-mismatch") then ErrPromotionBundleMismatch
  else if bool_decide (reason = "window-unavailable") then ErrPromotionWindowUnavailable
  else if bool_decide (reason = "window-expired") then ErrPromotionWindowExpired
  else if bool_decide (reason = "unknown-candidate-cell") then ErrPromotionUnknownCell
  else ErrPromotionBadReceipt reason.

Definition no_bundle : bytes := replicate 32 Byte.x00.

Section promotion.
Context `{Crypto, Env, TimeParser}.

Definition pc_leaf (c : PromotionController) (verdict : byte) (cell : string) (epoch : Z) (bundle : bytes)
    (reason : string) (ts : Z) (t : trace) : option append_error * trace :=
  appendLeaf (pc_producer c) KindPromotion (promotionRecord verdict cell epoch bundle reason) (UnixNano ts) t.

Definition pc_refuse (c : PromotionController) (cell : string) (epoch : Z) (bundle : bytes) (reason : string)
    (ts : Z) (t : trace) : option promotion_error * trace :=
  match pc_leaf c Byte.x00 cell epoch bundle reason ts t with
  | (Some _, t1) => (Some (ErrPromotionUntraced reason), t1)
  | (None, t1) => (Some (promotion_cause reason), t1)
  end.

(** The checks of [Promote]: the bundle and the reason of the refusal, or the bundle. *)
Definition check_receipt `{MasterAnchorSource} (c : PromotionController) (now : Z) (sr : SignedReceipt) :
    (bytes * string) + bytes :=
  let r := sr_Receipt sr in
  if bool_decide (rc_CellID r = "") || (255 <? slen (rc_CellID r))%nat then inl (no_bundle, "schema-violation")
  else match pc_keys c !! rc_CellID r with
  | None => inl (no_bundle, "unknown-candidate-cell")
  | Some pub =>
    if negb (sig_verifies pub (canonicalReceipt r) (sr_Sig sr)) then inl (no_bundle, "bad-receipt-signature")
    else match bundle_of (rc_BundleHash r) with
    | None => inl (no_bundle, "bundle-hash-malformed")
    | Some bundle =>
      match parse_rfc3339 (rc_ReceivedAt r) with
      | None => inl (bundle, "received-at-unparseable")
      | Some _ =>
        match BundleAnchor (rc_Epoch r) with
        | None => inl (bundle, "promotion-anchor-unavailable")
        | Some anchored =>
          if bool_decide (bundle ≠ anchored) then inl (bundle, "bundle-mismatch")
          else match HealthyWindow (rc_Epoch r) with
          | None => inl (bundle, "window-unavailable")
          | Some (start, stop) =>
              if (now <? start) || negb (now <? stop) then inl (bundle, "window-expired") else inr bundle
          end
        end
      end
    end
  end.

(** [Promote], on the decoded receipt; [now] is the reading compared with the window and [ts]
    that of the leaf. *)
Definition Promote `{MasterAnchorSource} (c : PromotionController) (now ts : Z) (doc : option SignedReceipt)
    (t : trace) : option promotion_error * trace :=
  match doc with
  | None => pc_refuse c "" 0 no_bundle "malformed-receipt" ts t
  | Some sr =>
      let r := sr_Receipt sr in
      match check_receipt c now sr with
      | inl (bundle, reason) => pc_refuse c (rc_CellID r) (rc_Epoch r) bundle reason ts t
      | inr bundle =>
          match pc_leaf c Byte.x01 (rc_CellID r) (rc_Epoch r) bundle "ok" ts t with
          | (Some _, t1) => (Some ErrPromotionLeaf, t1)
          | (None, t1) => (None, t1)
          end
      end
  end.
End promotion.

(** ** What the anchors of a file say *)

Section anchor_lemmas.
Context `{Crypto, TimeParser}.

Lemma bundle_of_spec hash b :
  bundle_of hash = Some b ↔ hex_DecodeString hash = Some b ∧ length b = 32%nat.
Proof.
  unfold bundle_of. destruct (hex_DecodeString hash) as [raw|]; [|naive_solver].
  case_bool_decide; naive_solver.
Qed.

Definition anchor_ok (e : AnchorEntry) : Prop :=
  is_Some (bundle_of (ae_BundleHash e)) ∧ is_Some (anchor_window e).

Lemma anchors_loop_spec es out m :
  anchors_loop es out = inr m →
    Forall anchor_ok es ∧ NoDup (ae_Epoch <$> es) ∧ Forall (λ e, out !! ae_Epoch e = None) es ∧
    ∀ k e, m !! k = Some e ↔ out !! k = Some e ∨ (e ∈ es ∧ ae_Epoch e = k).
Proof.
  revert out. induction es as [|e es IH]; intros out; simpl.
  { intros [= <-]. split_and!; [constructor..|]. set_solver. }
  destruct (out !! ae_Epoch e) eqn:Eo; [done|].
  destruct (bundle_of _) eqn:Eb; [|done]. destruct (anchor_window e) eqn:Ew; [|done].
  intros (HF & HN & HO & HM)%IH.
  assert (∀ x, x ∈ es → ae_Epoch x ≠ ae_Epoch e ∧ out !! ae_Epoch x = None) as HX.
  { intros x Hx. rewrite Forall_forall in HO. specialize (HO x Hx). by apply lookup_insert_None in HO as [? ?]. }
  split_and!.
  - constructor; [by split; eauto|done].
  - apply NoDup_cons. split; [|done]. intros (x & Ex & Hx)%list_elem_of_fmap. by destruct (HX x Hx).
  - constructor; [done|]. apply Forall_forall. intros x Hx. by apply HX.
  - intros k x. rewrite HM, lookup_insert_Some, elem_of_cons. split.
    + intros [[[<- <-]|[_ ?]]|[? ?]]; auto.
    + intros [Hk|[[->|Hx] <-]]; auto. left. right. split; [|done]. intros <-. congruence.
Qed.

(** A file whose anchors count: signed by the quorum, in bounds, well formed. *)
Definition anchors_valid (s : FileAnchorSource) (f : anchor_content) (es : list AnchorEntry) : Prop :=
  fc_size f ≤ MaxAnchorFileBytes ∧
  ∃ sigs, let p := mkAnchorPayload anchorsKind (Some es) in
    fc_doc f = Some (mkAnchorFile p sigs) ∧
    NoDup (cs_KeyID <$> sigs) ∧ Forall (signed_by (fas_controllers s) (canonicalAnchors p)) sigs ∧
    fas_quorum s ≤ Z.of_nat (length sigs) ∧
    (0 < length es ≤ MaxAnchorEntries)%nat ∧ Forall anchor_ok es ∧ NoDup (ae_Epoch <$> es).

Lemma fas_lookup_spec s file epoch e :
  fas_lookup s file epoch = Some e →
    ∃ f es, file = Some f ∧ anchors_valid s f es ∧ e ∈ es ∧ ae_Epoch e = epoch.
Proof.
  unfold fas_lookup, fas_Verify, parseAnchors. destruct file as [f|]; [|done].
  destruct (Z.ltb_spec MaxAnchorFileBytes (fc_size f)); [done|].
  destruct (fc_doc f) as [[[kind oes] sigs]|] eqn:Ed; [simpl|done].
  case_bool_decide as Hk; simpl; [done|]. subst kind.
  destruct (ctrl_quorum _ _ _ _) eqn:EQ; [|done]. apply ctrl_quorum_spec in EQ as (HN & HF & HQ).
  destruct oes as [es|]; [simpl|done].
  destruct (Nat.eqb_spec (length es) 0); [done|].
  destruct (Nat.ltb_spec MaxAnchorEntries (length es)); [done|]. simpl.
  destruct (anchors_loop es ∅) as [|m] eqn:EL; [done|].
  apply anchors_loop_spec in EL as (HE & HD & _ & HM). intros Hl%HM.
  rewrite lookup_empty in Hl. destruct Hl as [|[He <-]]; [done|].
  exists f, es. split_and!; auto. split; [lia|]. exists sigs. split_and!; auto; lia.
Qed.

Lemma anchor_window_spec e start stop :
  anchor_window e = Some (start, stop) →
    parse_rfc3339 (ae_WindowStart e) = Some start ∧ parse_rfc3339 (ae_WindowEnd e) = Some stop ∧
    start < stop ≤ start + MaxAnchorWindow.
Proof.
  unfold anchor_window. destruct (parse_rfc3339 (ae_WindowStart e)) as [a|]; [|done].
  destruct (parse_rfc3339 (ae_WindowEnd e)) as [b|]; [|done].
  destruct (Z.ltb_spec a b); simpl; [|done].
  destruct (Z.ltb_spec MaxAnchorWindow (Sub b a)) as [|HS]; [done|]. intros [= <- <-].
  split_and!; auto. revert HS. unfold Sub, MaxAnchorWindow, hour, minute, second. lia.
Qed.
End anchor_lemmas.

(** ** When a promotion goes through *)

Section promotion_lemmas.
Context `{Crypto, Env, TimeParser}.

Definition receipt_valid `{MasterAnchorSource} (c : PromotionController) (now : Z) (sr : SignedReceipt)
    (bundle : bytes) : Prop :=
  let r := sr_Receipt sr in
  (0 < slen (rc_CellID r) ≤ 255)%nat ∧
  (∃ pub, pc_keys c !! rc_CellID r = Some pub ∧ sig_verifies pub (canonicalReceipt r) (sr_Sig sr) = true) ∧
  bundle_of (rc_BundleHash r) = Some bundle ∧ is_Some (parse_rfc3339 (rc_ReceivedAt r)) ∧
  BundleAnchor (rc_Epoch r) = Some bundle ∧
  ∃ start stop, HealthyWindow (rc_Epoch r) = Some (start, stop) ∧ start ≤ now < stop.

Lemma check_receipt_spec `{MasterAnchorSource} c now sr bundle :
  check_receipt c now sr = inr bundle ↔ receipt_valid c now sr bundle.
Proof.
  unfold check_receipt, receipt_valid. destruct sr as [[cell epoch bh at_] sig]; simpl.
  case_bool_decide as Hc; simpl; [split; [done|]; subst cell; simpl; intros [? _]; lia|].
  apply slen_pos in Hc.
  destruct (Nat.ltb_spec 255 (slen cell)); [split; [done|intros [? _]; lia]|].
  destruct (pc_keys c !! cell) as [pub|]; [|naive_solver].
  destruct (sig_verifies pub _ sig) eqn:Ev; simpl;
    [|split; [done|intros (_ & (q & [= <-] & ?) & _); congruence]].
  destruct (bundle_of bh) as [b|]; [|naive_solver].
  destruct (parse_rfc3339 at_) as [r|]; [|split; [done|intros (_ & _ & _ & [? ?] & _); done]].
  destruct (BundleAnchor epoch) as [anchored|]; [|naive_solver].
  case_bool_decide as Hb; [naive_solver|subst anchored].
  destruct (HealthyWindow epoch) as [[start stop]|]; [|naive_solver].
  destruct (Z.ltb_spec now start); simpl; [split; [done|]|].
  { intros (_ & _ & _ & _ & _ & a & z & [= <- <-] & ?). lia. }
  destruct (Z.ltb_spec now stop); simpl.
  - split; [intros [= <-]|naive_solver]. split_and!; eauto 6; lia.
  - split; [done|]. intros (_ & _ & _ & _ & _ & a & z & [= <- <-] & ?). lia.
Qed.

Lemma Promote_admits `{MasterAnchorSource} c now ts doc t :
  (Promote c now ts doc t).1 = None ↔
    ∃ sr bundle, doc = Some sr ∧ receipt_valid c now sr bundle ∧
      (pc_leaf c Byte.x01 (rc_CellID (sr_Receipt sr)) (rc_Epoch (sr_Receipt sr)) bundle "ok" ts t).1 = None.
Proof.
  assert (∀ cell epoch b r, (pc_refuse c cell epoch b r ts t).1 ≠ None) as HR.
  { intros cell epoch b r. unfold pc_refuse. by destruct (pc_leaf _ _ _ _ _ _ _ _) as [[]]. }
  unfold Promote. destruct doc as [sr|]; [|split; [intros E; by destruct (HR _ _ _ _ E)|naive_solver]].
  destruct (check_receipt c now sr) as [[b r]|b] eqn:EC.
  - split; [intros E; by destruct (HR _ _ _ _ E)|]. intros (? & b' & [= <-] & HV%check_receipt_spec & _).
    congruence.
  - apply check_receipt_spec in EC.
    destruct (pc_leaf _ _ _ _ b _ _ _) as [[e|] t1] eqn:EL; simpl.
    + split; [done|]. intros (? & b' & [= <-] & HV & HL).
      apply check_receipt_spec in EC, HV. rewrite EC in HV. injection HV as <-. by rewrite EL in HL.
    + split; [|done]. intros _. exists sr, b. by rewrite EL.
Qed.

(** ** The claims *)

(** A promotion follows the anchors and nothing else. Over any source of anchors, [Promote]
    succeeds exactly when a pinned candidate signed a receipt for the bundle the source anchors
    for that epoch, the reading of the clock is in the window the source anchors, and the leaf
    of the promotion was written. *)
Theorem promoted_exactly `{MasterAnchorSource} c now ts doc t :
  (Promote c now ts doc t).1 = None ↔
    ∃ sr bundle, doc = Some sr ∧ receipt_valid c now sr bundle ∧
      (pc_leaf c Byte.x01 (rc_CellID (sr_Receipt sr)) (rc_Epoch (sr_Receipt sr)) bundle "ok" ts t).1 = None.
Proof. apply Promote_admits. Qed.

(** No promotion without the controllers. Over the file of anchors, a promotion means that
    each of the two reads found a document signed by at least [quorum] distinct controllers of
    the genesis and by nobody else; the first holds, for the epoch, the bundle of the receipt
    and the second a window of at most seven days that contains the present. *)
Theorem promotion_needs_signed_anchors s first second c now ts sr t :
  (@Promote _ _ _ (file_anchors s first second) c now ts (Some sr) t).1 = None →
  ∃ f1 es1 e1 f2 es2 e2 bundle start stop,
    first = Some f1 ∧ anchors_valid s f1 es1 ∧ e1 ∈ es1 ∧ ae_Epoch e1 = rc_Epoch (sr_Receipt sr) ∧
    hex_DecodeString (ae_BundleHash e1) = Some bundle ∧
    hex_DecodeString (rc_BundleHash (sr_Receipt sr)) = Some bundle ∧ length bundle = 32%nat ∧
    second = Some f2 ∧ anchors_valid s f2 es2 ∧ e2 ∈ es2 ∧ ae_Epoch e2 = rc_Epoch (sr_Receipt sr) ∧
    parse_rfc3339 (ae_WindowStart e2) = Some start ∧ parse_rfc3339 (ae_WindowEnd e2) = Some stop ∧
    start ≤ now < stop ∧ stop ≤ start + MaxAnchorWindow.
Proof.
  intros (? & bundle & [= <-] & HV & _)%Promote_admits.
  destruct HV as (_ & _ & (HB & HL)%bundle_of_spec & _ & HA & start & stop & HW & Hnow).
  simpl in HA, HW. unfold fas_BundleAnchor in HA. unfold fas_HealthyWindow in HW.
  destruct (fas_lookup s first _) as [e1|] eqn:E1; [|done]. injection HA as HA.
  destruct (fas_lookup s second _) as [e2|] eqn:E2; [|done]. injection HW as HW1 HW2.
  apply fas_lookup_spec in E1 as (f1 & es1 & -> & V1 & M1 & N1).
  apply fas_lookup_spec in E2 as (f2 & es2 & -> & V2 & M2 & N2).
  assert (anchor_ok e1) as [[b1 (D1 & L1)%bundle_of_spec] _].
  { destruct V1 as (_ & sigs & _ & _ & _ & _ & _ & HF & _). rewrite Forall_forall in HF. auto. }
  assert (anchor_ok e2) as [_ [[a z] (P1 & P2 & HZ)%anchor_window_spec]].
  { destruct V2 as (_ & sigs & _ & _ & _ & _ & _ & HF & _). rewrite Forall_forall in HF. auto. }
  rewrite D1 in HA. rewrite P1 in HW1. rewrite P2 in HW2. simpl in HA, HW1, HW2. subst b1 a z.
  exists f1, es1, e1, f2, es2, e2, bundle, start, stop. split_and!; auto; lia.
Qed.
End promotion_lemmas.

(** ** The documents the keys of the cluster sign *)

Inductive document :=
  | DocEpoch (p : EpochPayload) | DocStatement (st : QuorumStatement)
  | DocReceipt (r : Receipt) | DocAnchors (a : AnchorPayload).

Definition canonical (d : document) : bytes :=
  match d with
  | DocEpoch p => canonicalPayload p
  | DocStatement st => canonicalStatement st
  | DocReceipt r => canonicalReceipt r
  | DocAnchors a => canonicalAnchors a
  end.

Definition utf8_string (s : string) : Prop := utf8 (sb s).

(** The strings a decoder returns are UTF-8. *)
Definition document_wf (d : document) : Prop :=
  match d with
  | DocEpoch p => payload_wf p
  | DocStatement st => Forall utf8_string [st_Action st; st_Resource st; st_PolicyID st; st_Expiry st]
  | DocReceipt r => Forall utf8_string [rc_CellID r; rc_BundleHash r; rc_ReceivedAt r]
  | DocAnchors a => utf8_string (ap_Kind a) ∧
      Forall (λ e, Forall utf8_string [ae_BundleHash e; ae_WindowStart e; ae_WindowEnd e])
        (default [] (ap_Anchors a))
  end.

Ltac utf8_fields :=
  repeat match goal with
  | HF : Forall utf8_string (_ :: _) |- _ => apply Forall_cons in HF as [? HF]
  end.
Ltac json_field E :=
  first [apply json_int_prefix in E as [-> E] | apply json_string_prefix in E as [-> E]; [|assumption..]];
  json_skip E.

Lemma canonicalStatement_inj a b :
  document_wf (DocStatement a) → document_wf (DocStatement b) →
  canonicalStatement a = canonicalStatement b → a = b.
Proof.
  destruct a as [a1 a2 a3 a4 a5], b as [b1 b2 b3 b4 b5]; simpl; intros HA HB E. utf8_fields. unfold canonicalStatement in E.
  cbn [st_Action st_Resource st_PolicyID st_Epoch st_Expiry] in E. json_skip E. do 5 json_field E. done.
Qed.

Lemma canonicalReceipt_inj a b :
  document_wf (DocReceipt a) → document_wf (DocReceipt b) →
  canonicalReceipt a = canonicalReceipt b → a = b.
Proof.
  destruct a as [a1 a2 a3 a4], b as [b1 b2 b3 b4]; simpl; intros HA HB E. utf8_fields. unfold canonicalReceipt in E.
  cbn [rc_CellID rc_Epoch rc_BundleHash rc_ReceivedAt] in E. json_skip E. do 4 json_field E. done.
Qed.

Lemma json_anchor_prefix x y k1 k2 :
  Forall utf8_string [ae_BundleHash x; ae_WindowStart x; ae_WindowEnd x] →
  Forall utf8_string [ae_BundleHash y; ae_WindowStart y; ae_WindowEnd y] →
  json_anchor x ++ k1 = json_anchor y ++ k2 → x = y ∧ k1 = k2.
Proof.
  destruct x as [a1 a2 a3 a4], y as [b1 b2 b3 b4].
  intros HA HB E. utf8_fields. unfold json_anchor in E.
  cbn [ae_Epoch ae_BundleHash ae_WindowStart ae_WindowEnd] in E. json_skip E. do 4 json_field E. done.
Qed.

Lemma canonicalAnchors_inj a b :
  document_wf (DocAnchors a) → document_wf (DocAnchors b) →
  canonicalAnchors a = canonicalAnchors b → a = b.
Proof.
  destruct a as [ka ea], b as [kb eb]; simpl; intros [K1 F1] [K2 F2] E. unfold canonicalAnchors in E.
  cbn [ap_Kind ap_Anchors] in E. json_skip E. json_field E.
  destruct ea as [ea|], eb as [eb|]; try discriminate E; [|done].
  eapply (json_array_prefix json_anchor) in E as [-> _]; [done|apply json_anchor_prefix|done|exact F1|exact F2].
Qed.

(** What a key of the cluster signs has one reading. Two documents, each an epoch, a class-W
    statement, a receipt or a list of anchors, with the same canonical bytes are the same
    document: no signature given for one kind is a signature for another kind, nor for other
    contents of the same kind. *)
Theorem signed_document_unique d1 d2 :
  document_wf d1 → document_wf d2 → canonical d1 = canonical d2 → d1 = d2.
Proof.
  destruct d1 as [a|a|a|a], d2 as [b|b|b|b]; intros W1 W2 E; simpl in E;
    try (unfold canonicalPayload, canonicalStatement, canonicalReceipt, canonicalAnchors in E; discriminate E).
  - f_equal. by apply canonicalPayload_inj.
  - f_equal. by apply canonicalStatement_inj.
  - f_equal. by apply canonicalReceipt_inj.
  - f_equal. by apply canonicalAnchors_inj.
Qed.
