(* ===== verification/Arbiter.v ===== *)
(** The queue of the human arbiter: [src/arbiter/arbiter.go].

    A degraded request waits for the signature of an operator and is admitted once. The queue
    has no state file: after a restart it is rebuilt from the journal of its own leaves. An
    operation takes its single reading of the clock as an argument, and [Enqueue] also the
    ticket it draws ([None] when the draw fails). *)
From S2P Require Import Prelude.
From S2P Require Import Leaf.
From S2P Require Import Effects.
From S2P Require Import Token.
From S2P Require Import PlanContract.

Local Open Scope Z_scope.

Definition DefaultPresenceTTL : Z := 60 * second.
Definition MinPresenceTTL : Z := 10 * second.
Definition MaxPresenceTTL : Z := 10 * minute.
Definition DefaultEntryTTL : Z := 10 * minute.
Definition MinEntryTTL : Z := minute.
Definition MaxEntryTTL : Z := hour.
Definition arb_DefaultMaxEntries : Z := 256.
Definition MaxMaxEntries : Z := 4096.
Definition MinDecisionTTL : Z := 30 * second.
Definition HeartbeatSkew : Z := 30 * second.
Definition maxSubjectLen : nat := 255.

Definition VerdictRefuse : byte := Byte.x00.
Definition VerdictApprove : byte := Byte.x01.

Definition actEnqueue : byte := Byte.x01.
Definition actApprove : byte := Byte.x02.
Definition actRefuse : byte := Byte.x03.
Definition actConsume : byte := Byte.x04.
Definition actConsumeRefused : byte := Byte.x05.

Inductive arbiter_error :=
  | ErrSubjectTooLong | ErrQueueFull | ErrTicket | ErrUnknownEntry | ErrArbBadSignature | ErrRoleDenied
  | ErrHeartbeatStale | ErrHeartbeatReplayed | ErrDecisionExpiry | ErrArbLeaf.
#[global] Instance arbiter_error_eq_dec : EqDecision arbiter_error.
Proof. solve_decision. Defined.

(** ** The signed messages *)

Definition appendCell (msg : bytes) (cellID : string) : bytes :=
  msg ++ be 2 (Z.of_nat (slen cellID)) ++ sb cellID.

Definition PresenceMessage (cellID : string) (at_ : Z) : bytes :=
  appendCell (sb "TBAH2") cellID ++ be 8 (Unix at_).

Definition DecisionMessage (cellID : string) (id ticket : bytes) (v : byte) (expiry : Z) : bytes :=
  appendCell (sb "TBAV2") cellID ++ [v] ++ id ++ ticket ++ be 8 (Unix expiry).

Definition IntentID `{Crypto} (subject : string) (intent : bytes) : bytes :=
  sha256 (sb "tbp-degraded-intent-v1" ++ be 2 (Z.of_nat (slen subject)) ++ sb subject ++ intent).

(** ** The queue *)

Inductive status := statusPending | statusApproved | statusRefused.
#[global] Instance status_eq_dec : EqDecision status.
Proof. solve_decision. Defined.

Record entry := mkEntry {
  en_ticket : bytes; en_subject : string; en_created : Z; en_expires : Z;
  en_status : status; en_by : bytes }.

#[global] Instance entry_eq_dec : EqDecision entry.
Proof. solve_decision. Defined.

Definition no_kid : bytes := replicate 16 Byte.x00.

Record Queue := mkQueue {
  q_producer : Producer;
  q_keys : list bytes; q_refuse : list bytes; q_allKeys : list bytes;
  q_presTTL : Z; q_entTTL : Z; q_max : Z; q_alarm : bool;
  q_entries : gmap bytes entry; q_lastHB : Z }.

Definition set_entries (m : gmap bytes entry) (q : Queue) : Queue :=
  mkQueue (q_producer q) (q_keys q) (q_refuse q) (q_allKeys q) (q_presTTL q) (q_entTTL q) (q_max q)
    (q_alarm q) m (q_lastHB q).
Definition set_lastHB (at_ : Z) (q : Queue) : Queue :=
  mkQueue (q_producer q) (q_keys q) (q_refuse q) (q_allKeys q) (q_presTTL q) (q_entTTL q) (q_max q)
    (q_alarm q) (q_entries q) at_.

(** [NewQueue]: [None] is a configuration error; a role that is [None] is a nil slice. *)
Definition NewQueue `{Crypto} (cellID : string) (salt : bytes) (leaves journal : bool)
    (operatorKeys : list bytes) (arbiterKeys refuserKeys : option (list bytes))
    (presenceTTL entryTTL maxEntries : Z) (alarm : bool) : option Queue :=
  let pt := with_default presenceTTL DefaultPresenceTTL in
  let et := with_default entryTTL DefaultEntryTTL in
  let mx := with_default maxEntries arb_DefaultMaxEntries in
  if bool_decide (cellID = "") then None
  else if (length salt <? 16)%nat then None
  else if negb leaves then None
  else if (length operatorKeys =? 0)%nat then None
  else if negb (forallb (λ k, (length k =? 32)%nat) operatorKeys) then None
  else match roleKeys arbiterKeys operatorKeys with
  | None => None
  | Some arb =>
    match (match refuserKeys with Some _ => roleKeys refuserKeys operatorKeys | None => Some arb end) with
    | None => None
    | Some refusers =>
      let have : gset bytes := list_to_set (KeyIDFromPublicKey <$> refusers) in
      if bool_decide (is_Some refuserKeys)
         && negb (forallb (λ k, bool_decide (KeyIDFromPublicKey k ∈ have)) arb) then None
      else if (pt <? MinPresenceTTL) || (MaxPresenceTTL <? pt) then None
      else if (et <? MinEntryTTL) || (MaxEntryTTL <? et) then None
      else if (mx <? 1) || (MaxMaxEntries <? mx) then None
      else Some (mkQueue (mkProducer cellID salt journal) arb refusers operatorKeys pt et mx alarm ∅ zero_time)
    end
  end.

Definition kidOfIn `{Crypto} (q : Queue) (keys : list bytes) (msg sig : bytes) : arbiter_error + bytes :=
  match signedBy keys msg sig with
  | Some kid => inr kid
  | None => match signedBy (q_allKeys q) msg sig with
            | Some _ => inl ErrRoleDenied
            | None => inl ErrArbBadSignature
            end
  end.

Definition kidOf `{Crypto} (q : Queue) (msg sig : bytes) : arbiter_error + bytes := kidOfIn q (q_keys q) msg sig.

Definition Heartbeat `{Crypto} (now at_ : Z) (sig : bytes) (q : Queue) : option arbiter_error * Queue :=
  let d := Sub now at_ in
  if (HeartbeatSkew <? d) || (d <? - HeartbeatSkew) then (Some ErrHeartbeatStale, q)
  else match kidOf q (PresenceMessage (p_cellID (q_producer q)) at_) sig with
  | inl e => (Some e, q)
  | inr _ => if negb (q_lastHB q <? at_) then (Some ErrHeartbeatReplayed, q) else (None, set_lastHB at_ q)
  end.

Definition Reachable (now : Z) (q : Queue) : bool :=
  negb (q_lastHB q =? zero_time) && (Sub now (q_lastHB q) <=? q_presTTL q).

Definition prune_entries (now : Z) (m : gmap bytes entry) : gmap bytes entry :=
  filter (λ p, now < en_expires p.2) m.
Definition pruneLocked (now : Z) (q : Queue) : Queue := set_entries (prune_entries now (q_entries q)) q.

(** The record of a leaf. *)
Definition expiry_unix (expiry : Z) : Z := if expiry =? zero_time then 0 else Unix expiry.
Definition arbRecord (act : byte) (id ticket : bytes) (subject : string) (kid : bytes) (verdict : byte)
    (expiry : Z) : bytes :=
  let subject := take maxSubjectLen (sb subject) in
  sb "TBAR2" ++ [act] ++ id ++ ticket ++ [z2b (Z.of_nat (length subject))] ++ subject
  ++ kid ++ [verdict] ++ be 8 (expiry_unix expiry).

Section queue.
Context `{Crypto, Env}.

(** [leafLocked]: [false] is [ErrLeaf]. *)
Definition arb_leaf (q : Queue) (act : byte) (id ticket : bytes) (subject : string) (kid : bytes)
    (verdict : byte) (expiry now : Z) (t : trace) : bool * trace :=
  match appendLeaf (q_producer q) KindTelemetry (arbRecord act id ticket subject kid verdict expiry)
          (UnixNano now) t with
  | (Some _, t1) => (false, call_alarm (q_alarm q) "arbiter-leaf-write-failed" t1)
  | (None, t1) => (true, t1)
  end.

(** The rest of [Enqueue] once the request is not already waiting, on the pruned queue. *)
Definition enqueue_new (now : Z) (ticket : option bytes) (id : bytes) (subject : string) (q1 : Queue) (t : trace) :
    option arbiter_error * Queue * trace :=
  if q_max q1 <=? Z.of_nat (size (q_entries q1)) then
    (Some ErrQueueFull, q1, call_alarm (q_alarm q1) "arbiter-queue-full" t)
  else match ticket with
  | None => (Some ErrTicket, q1, t)
  | Some tk =>
      let expires := now + q_entTTL q1 in
      match arb_leaf q1 actEnqueue id tk subject no_kid Byte.x00 expires now t with
      | (false, t1) => (Some ErrArbLeaf, q1, t1)
      | (true, t1) =>
          (None, set_entries (<[id := mkEntry tk subject now expires statusPending no_kid]> (q_entries q1)) q1, t1)
      end
  end.

Definition arb_Enqueue (now : Z) (ticket : option bytes) (subject : string) (payload : bytes)
    (q : Queue) (t : trace) : option arbiter_error * Queue * trace :=
  if (maxSubjectLen <? slen subject)%nat then (Some ErrSubjectTooLong, q, t)
  else
    let id := IntentID subject payload in
    let q1 := pruneLocked now q in
    match q_entries q1 !! id with
    | Some e => if bool_decide (en_status e = statusPending) then (None, q1, t)
                else enqueue_new now ticket id subject q1 t
    | None => enqueue_new now ticket id subject q1 t
    end.

Definition arb_Decide (now : Z) (id : bytes) (v : byte) (expiry : Z) (sig : bytes) (q : Queue) (t : trace) :
    option arbiter_error * Queue * trace :=
  if negb (bool_decide (v = VerdictApprove)) && negb (bool_decide (v = VerdictRefuse))
  then (Some ErrUnknownEntry, q, t)
  else
    let q1 := pruneLocked now q in
    match q_entries q1 !! id with
    | None => (Some ErrUnknownEntry, q1, t)
    | Some e =>
      if bool_decide (en_status e ≠ statusPending) then (Some ErrUnknownEntry, q1, t)
      else
        let ttl := Sub expiry now in
        if (ttl <? MinDecisionTTL) || (q_entTTL q1 <? ttl) then (Some ErrDecisionExpiry, q1, t)
        else
          let allowed := if bool_decide (v = VerdictRefuse) then q_refuse q1 else q_keys q1 in
          match kidOfIn q1 allowed
                  (DecisionMessage (p_cellID (q_producer q1)) id (en_ticket e) v expiry) sig with
          | inl err => (Some err, q1, t)
          | inr kid =>
              let act := if bool_decide (v = VerdictApprove) then actApprove else actRefuse in
              match arb_leaf q1 act id (en_ticket e) (en_subject e) kid v expiry now t with
              | (false, t1) => (Some ErrArbLeaf, q1, t1)
              | (true, t1) =>
                  let st := if bool_decide (v = VerdictRefuse) then statusRefused else statusApproved in
                  (None, set_entries (<[id := mkEntry (en_ticket e) (en_subject e) (en_created e) expiry st kid]>
                                        (q_entries q1)) q1, t1)
              end
          end
    end.

Inductive Outcome := OutcomeNone | OutcomePending | OutcomeApproved | OutcomeRefused.
#[global] Instance Outcome_eq_dec : EqDecision Outcome.
Proof. solve_decision. Defined.

(** [Take]: the outcome, the identifier and whether the leaf of a consumption failed. *)
Definition arb_Take (now : Z) (subject : string) (intent : bytes) (q : Queue) (t : trace) :
    Outcome * bytes * option arbiter_error * Queue * trace :=
  let id := IntentID subject intent in
  let q1 := pruneLocked now q in
  match q_entries q1 !! id with
  | None => (OutcomeNone, id, None, q1, t)
  | Some e =>
      let consume act out :=
        match arb_leaf q1 act id (en_ticket e) (en_subject e) (en_by e) Byte.x00 (en_expires e) now t with
        | (false, t1) => (OutcomeNone, id, Some ErrArbLeaf, q1, t1)
        | (true, t1) => (out, id, None, set_entries (delete id (q_entries q1)) q1, t1)
        end in
      match en_status e with
      | statusPending => (OutcomePending, id, None, q1, t)
      | statusApproved => consume actConsume OutcomeApproved
      | statusRefused => consume actConsumeRefused OutcomeRefused
      end
  end.
End queue.

(** The view of the operator. *)
Record Entry := mkEntryView {
  ev_ID : bytes; ev_Ticket : bytes; ev_Subject : string; ev_Status : string;
  ev_CreatedAt : Z; ev_ExpiresAt : Z }.

Definition status_String (s : status) : string :=
  match s with statusPending => "pending" | statusApproved => "approved" | statusRefused => "refused" end.

Definition entry_le : relation Entry :=
  λ x y, lex Z.le string_le (ev_CreatedAt x, bs (ev_ID x)) (ev_CreatedAt y, bs (ev_ID y)).
#[global] Instance entry_le_dec : RelDecision entry_le.
Proof. intros x y. unfold entry_le. apply _. Defined.

Definition arb_Snapshot `{MapOrder, SliceSort} (now : Z) (q : Queue) : list Entry * Queue :=
  let q1 := pruneLocked now q in
  (sort_slice entry_le
     ((λ p : bytes * entry, mkEntryView p.1 (en_ticket p.2) (en_subject p.2) (status_String (en_status p.2))
               (en_created p.2) (en_expires p.2)) <$> map_range (map_to_list (q_entries q1))), q1).

(** ** Restoration from the journal *)

Record SealedRecord := mkSealed { sl_Leaf : Leaf; sl_Salt : bytes; sl_Record : bytes }.

Record arb_fields := mkArbFields {
  ar_act : byte; ar_id : bytes; ar_ticket : bytes; ar_subject : string; ar_kid : bytes;
  ar_verdict : byte; ar_expiry : Z }.

Definition arb_head : nat := 5 + 1 + 32 + 16 + 1.

Definition parseLeafRecord (rec : bytes) : option arb_fields :=
  if (length rec <? arb_head)%nat then None
  else
    let sl := Z.to_nat (b2z (rec !!! 54%nat)) in
    if negb (length rec =? arb_head + sl + 16 + 1 + 8)%nat then None
    else
      let exp := be_val (drop (arb_head + sl + 17) rec) in
      Some (mkArbFields (rec !!! 5%nat) (take 32 (drop 6 rec)) (take 16 (drop 38 rec))
              (bs (take sl (drop arb_head rec))) (take 16 (drop (arb_head + sl) rec))
              (rec !!! (arb_head + sl + 16)%nat)
              (if exp =? 0 then zero_time else of_Unix (i64 exp))).

Definition VerifyHash `{Crypto} (r : SealedRecord) : bool :=
  bool_decide (HashPayload (sl_Salt r) (sl_Record r) = PayloadHash (sl_Leaf r)).

(** The records of the journal that the queue reads. *)
Definition concerns (p : Producer) (r : SealedRecord) : bool :=
  bool_decide (Kind (sl_Leaf r) = KindTelemetry) && bool_decide (CellID (sl_Leaf r) = p_cellID p)
  && bool_decide (take 5 (sl_Record r) = sb "TBAR2").

(** One turn of the loop of [Restore]: the entries, and whether the record was skipped. *)
Definition restore_act (max : Z) (created : Z) (inLog : bool) (f : arb_fields) (m : gmap bytes entry) :
    gmap bytes entry * bool :=
  let decide_as st :=
    match m !! ar_id f with
    | Some e => if bool_decide (en_status e = statusPending) && bool_decide (en_ticket e = ar_ticket f)
                then (<[ar_id f := mkEntry (en_ticket e) (en_subject e) (en_created e) (ar_expiry f) st (ar_kid f)]> m, false)
                else (m, true)
    | None => (m, true)
    end in
  if bool_decide (ar_act f = actEnqueue) then
    if (ar_expiry f =? zero_time) || (max <=? Z.of_nat (size m)) then (m, true)
    else match m !! ar_id f with
         | Some _ => (m, false)
         | None => (<[ar_id f := mkEntry (ar_ticket f) (ar_subject f) created (ar_expiry f) statusPending no_kid]> m, false)
         end
  else if bool_decide (ar_act f = actApprove) then if inLog then decide_as statusApproved else (m, true)
  else if bool_decide (ar_act f = actRefuse) then decide_as statusRefused
  else if bool_decide (ar_act f = actConsume) || bool_decide (ar_act f = actConsumeRefused) then
    match m !! ar_id f with
    | Some e => if bool_decide (en_ticket e = ar_ticket f) then (delete (ar_id f) m, false) else (m, false)
    | None => (m, false)
    end
  else (m, true).

Definition restore_record `{Crypto} (p : Producer) (max : Z) (inLog : SealedRecord → bool) (r : SealedRecord)
    (m : gmap bytes entry) : gmap bytes entry * bool :=
  if negb (concerns p r) then (m, false)
  else if bool_decide (sl_Salt r ≠ p_salt p) || negb (VerifyHash r) then (m, true)
  else match parseLeafRecord (sl_Record r) with
  | None => (m, true)
  | Some f => restore_act max (Timestamp (sl_Leaf r)) (inLog r) f m
  end.

Fixpoint restore_loop `{Crypto} (p : Producer) (max : Z) (inLog : SealedRecord → bool)
    (recs : list SealedRecord) (m : gmap bytes entry) (skipped : nat) : gmap bytes entry * nat :=
  match recs with
  | [] => (m, skipped)
  | r :: recs' =>
      let '(m1, s) := restore_record p max inLog r m in
      restore_loop p max inLog recs' m1 (if s then S skipped else skipped)
  end.

Record RestoreStats := mkRestoreStats { rs_Pending : nat; rs_Approved : nat; rs_Refused : nat; rs_Skipped : nat }.

Definition count_status (s : status) (m : gmap bytes entry) : nat :=
  size (filter (λ p, en_status p.2 = s) m).

(** [Restore]; a nil [inLog] is the function that is always false. *)
Definition Restore `{Crypto} (now : Z) (recs : list SealedRecord) (inLog : SealedRecord → bool) (q : Queue) :
    RestoreStats * Queue :=
  let '(m, skipped) := restore_loop (q_producer q) (q_max q) inLog recs (q_entries q) 0 in
  let m := prune_entries now m in
  (mkRestoreStats (count_status statusPending m) (count_status statusApproved m)
     (count_status statusRefused m) skipped, set_entries m q).

(** ** Records read back *)

(** What the eight bytes of a record keep of an expiry: whole seconds. *)
Definition kept_expiry (expiry : Z) : Z :=
  if expiry_unix expiry =? 0 then zero_time else of_Unix (Unix expiry).

Lemma kept_expiry_le expiry : zero_time ≤ expiry → kept_expiry expiry ≤ expiry.
Proof.
  intros Hz. unfold kept_expiry. case_match; [done|]. unfold of_Unix, Unix, second.
  pose proof (Z.mul_div_le expiry 1000000000). lia.
Qed.

Definition fields_wf (id ticket : bytes) (subject : string) (kid : bytes) : Prop :=
  length id = 32%nat ∧ length ticket = 16%nat ∧ (slen subject ≤ maxSubjectLen)%nat ∧ length kid = 16%nat.

Lemma arb_layout (tag id ticket subject kid tail : bytes) (act verdict len : byte) :
  length tag = 5%nat → length id = 32%nat → length ticket = 16%nat → length kid = 16%nat →
  let rec := tag ++ [act] ++ id ++ ticket ++ [len] ++ subject ++ kid ++ [verdict] ++ tail in
  let sl := length subject in
  rec !!! 5%nat = act ∧ take 32 (drop 6 rec) = id ∧ take 16 (drop 38 rec) = ticket ∧ rec !!! 54%nat = len ∧
  take sl (drop 55 rec) = subject ∧ take 16 (drop (55 + sl) rec) = kid ∧
  rec !!! (55 + sl + 16)%nat = verdict ∧ drop (55 + sl + 17) rec = tail.
Proof.
  intros HT HI HK HD rec sl.
  assert (rec = (tag ++ [act]) ++ id ++ ticket ++ [len] ++ subject ++ kid ++ [verdict] ++ tail) as E6
    by (unfold rec; by rewrite <-!app_assoc).
  assert (rec = (tag ++ [act] ++ id) ++ ticket ++ [len] ++ subject ++ kid ++ [verdict] ++ tail) as E38
    by (unfold rec; by rewrite <-!app_assoc).
  assert (rec = (tag ++ [act] ++ id ++ ticket) ++ [len] ++ subject ++ kid ++ [verdict] ++ tail) as E54
    by (unfold rec; by rewrite <-!app_assoc).
  assert (rec = (tag ++ [act] ++ id ++ ticket ++ [len]) ++ subject ++ kid ++ [verdict] ++ tail) as E55
    by (unfold rec; by rewrite <-!app_assoc).
  assert (rec = (tag ++ [act] ++ id ++ ticket ++ [len] ++ subject) ++ kid ++ [verdict] ++ tail) as EK
    by (unfold rec; by rewrite <-!app_assoc).
  assert (rec = (tag ++ [act] ++ id ++ ticket ++ [len] ++ subject ++ kid) ++ [verdict] ++ tail) as EV
    by (unfold rec; by rewrite <-!app_assoc).
  assert (rec = (tag ++ [act] ++ id ++ ticket ++ [len] ++ subject ++ kid ++ [verdict]) ++ tail) as ET
    by (unfold rec; by rewrite <-!app_assoc).
  split_and!.
  - by apply lookup_total_app_exact.
  - rewrite E6, drop_app_exact by len. by apply take_app_exact.
  - rewrite E38, drop_app_exact by len. by apply take_app_exact.
  - rewrite E54. apply lookup_total_app_exact. len.
  - rewrite E55, drop_app_exact by len. by apply take_app_exact.
  - rewrite EK, drop_app_exact by (unfold sl; len). by apply take_app_exact.
  - rewrite EV. apply lookup_total_app_exact. unfold sl. len.
  - rewrite ET. apply drop_app_exact. unfold sl. len.
Qed.

Lemma arbRecord_length act id ticket subject kid verdict expiry :
  fields_wf id ticket subject kid →
  length (arbRecord act id ticket subject kid verdict expiry) = (arb_head + slen subject + 16 + 1 + 8)%nat.
Proof.
  intros (HI & HT & HS & HK). unfold arbRecord, arb_head. rewrite (take_ge (sb subject)) by len. len.
Qed.

Lemma parse_arbRecord act id ticket subject kid verdict expiry :
  fields_wf id ticket subject kid → in_i64 (Unix expiry) →
  parseLeafRecord (arbRecord act id ticket subject kid verdict expiry) =
    Some (mkArbFields act id ticket subject kid verdict (kept_expiry expiry)).
Proof.
  intros HW HU. pose proof HW as (HI & HT & HS & HK).
  pose proof (arbRecord_length act id ticket subject kid verdict expiry HW) as HL.
  unfold parseLeafRecord. rewrite HL. destruct (Nat.ltb_spec (arb_head + slen subject + 16 + 1 + 8) arb_head); [lia|].
  unfold arbRecord. rewrite (take_ge (sb subject)) by len. cbv zeta.
  destruct (arb_layout (sb "TBAR2") id ticket (sb subject) kid (be 8 (expiry_unix expiry)) act verdict
    (z2b (Z.of_nat (length (sb subject))))) as (E1 & E2 & E3 & E4 & E5 & E6 & E7 & E8); auto.
  rewrite E4, b2z_z2b, Z.mod_small by (rewrite length_sb; unfold maxSubjectLen in HS; lia).
  rewrite length_sb, Nat2Z.id in *. rewrite Nat.eqb_refl. cbn [negb]. change arb_head with 55%nat.
  rewrite E1, E2, E3, E5, E6, E7, E8, bs_sb, be_val_be.
  f_equal. f_equal. unfold kept_expiry.
  assert (i64 (expiry_unix expiry `mod` 256 ^ Z.of_nat 8) = expiry_unix expiry) as Hi.
  { change (256 ^ Z.of_nat 8) with (2 ^ 64). apply i64_u64. unfold expiry_unix. case_match; [|done].
    unfold in_i64. lia. }
  destruct (Z.eqb_spec (expiry_unix expiry) 0) as [E|E].
  - by rewrite E.
  - destruct (Z.eqb_spec (expiry_unix expiry `mod` 256 ^ Z.of_nat 8) 0) as [E0|E0].
    + rewrite E0 in Hi. by rewrite <-Hi in E.
    + rewrite Hi. f_equal. revert E. unfold expiry_unix. by case_match.
Qed.

(** ** The journal of the queue *)

Definition sealed_of (t : trace) : list SealedRecord :=
  omap (λ e, match e with EvJournal l salt record => Some (mkSealed l salt record) | _ => None end) t.

Lemma sealed_of_app t u : sealed_of (t ++ u) = sealed_of t ++ sealed_of u.
Proof. apply omap_app. Qed.

Section journal.
Context `{Crypto, Env}.

(** The entries that the records of a journal restore. *)
Definition restored_map (p : Producer) (max : Z) (inLog : SealedRecord → bool) (recs : list SealedRecord) :
    gmap bytes entry :=
  foldl (λ m r, (restore_record p max inLog r m).1) ∅ recs.

Lemma restore_loop_map p max inLog recs m skipped :
  (restore_loop p max inLog recs m skipped).1 = foldl (λ m r, (restore_record p max inLog r m).1) m recs.
Proof.
  revert m skipped. induction recs as [|r recs IH]; intros m skipped; simpl; [done|].
  destruct (restore_record p max inLog r m) as [m1 s]. apply IH.
Qed.

Lemma Restore_entries now recs inLog q :
  q_entries q = ∅ →
  (Restore now recs inLog q).2 =
    set_entries (prune_entries now (restored_map (q_producer q) (q_max q) inLog recs)) q.
Proof.
  intros Hq. unfold Restore, restored_map. rewrite <-Hq.
  rewrite <-(restore_loop_map (q_producer q) (q_max q) inLog recs (q_entries q) 0).
  by destruct (restore_loop _ _ _ _ _ _).
Qed.

Definition own_record (p : Producer) (now : Z) (act : byte) (id ticket : bytes) (subject : string)
    (kid : bytes) (verdict : byte) (expiry : Z) : SealedRecord :=
  let rec := arbRecord act id ticket subject kid verdict expiry in
  mkSealed (leaf_for p KindTelemetry rec (UnixNano now)) (p_salt p) rec.

(** The queue reads its own records back. *)
Lemma restore_own p max inLog now act id ticket subject kid verdict expiry m :
  fields_wf id ticket subject kid → in_i64 (Unix expiry) →
  let r := own_record p now act id ticket subject kid verdict expiry in
  restore_record p max inLog r m =
    restore_act max (UnixNano now) (inLog r)
      (mkArbFields act id ticket subject kid verdict (kept_expiry expiry)) m.
Proof.
  intros HW HU r. unfold restore_record, concerns, VerifyHash, r, own_record.
  cbn [sl_Leaf sl_Salt sl_Record leaf_for Kind CellID PayloadHash Timestamp].
  rewrite !bool_decide_eq_true_2 by done. rewrite bool_decide_eq_false_2 by (by intros []).
  rewrite bool_decide_eq_true_2 by done. cbn [negb andb orb]. by rewrite parse_arbRecord.
Qed.

(** A write of the queue journals its record before it has an effect; a failed write may have
    journalled it or not. *)
Lemma arb_leaf_sealed q act id ticket subject kid verdict expiry now t b t1 :
  p_journal (q_producer q) = true →
  arb_leaf q act id ticket subject kid verdict expiry now t = (b, t1) →
  sealed_of t1 = sealed_of t ++ [own_record (q_producer q) now act id ticket subject kid verdict expiry] ∨
  (b = false ∧ sealed_of t1 = sealed_of t).
Proof.
  intros Hj. unfold arb_leaf, appendLeaf, AppendLeaf, AppendSealed, Put, sink_Append, call_alarm, own_record, leaf_for.
  rewrite Hj. intros E. repeat case_match; simplify_eq/=; rewrite ?sealed_of_app; simpl;
    rewrite ?app_nil_r, <-?app_assoc; auto.
Qed.
End journal.
