(* ===== verification/ArbiterRuns.v ===== *)
(** The life of the arbiter's queue (Arbiter.v): sequences of calls with failed writes, writes of
    other producers and restarts from the journal, and what holds in all of them. *)
From S2P Require Import Prelude.
From S2P Require Import Leaf.
From S2P Require Import Effects.
From S2P Require Import Token.
From S2P Require Import PlanContract.
From S2P Require Import Arbiter.

Local Open Scope Z_scope.

(** ** The life of a queue *)

Section runs.
Context `{Crypto, !CryptoLaws, Env}.

(** The queue that a new process builds from the journal. *)
Definition reopened (now : Z) (inLog : SealedRecord → bool) (q : Queue) (t : trace) : Queue :=
  (Restore now (sealed_of t) inLog (set_lastHB zero_time (set_entries ∅ q))).2.

Definition foreign (p : Producer) (e : event) : Prop :=
  match e with EvJournal l salt record => concerns p (mkSealed l salt record) = false | _ => True end.

Definition pair_of (a : bytes * bytes * Z) : bytes * bytes := a.1.

(** The admission a call of [Take] makes: the request, its ticket and the instant. *)
Definition admission_of (now : Z) (q : Queue) (out : Outcome) (id : bytes) : list (bytes * bytes * Z) :=
  match out, q_entries q !! id with
  | OutcomeApproved, Some e => [(id, en_ticket e, now)]
  | _, _ => []
  end.

(** A run from [q0] over the trace [t0]: the tickets drawn for each request, the admissions,
    the queue and the trace. No ticket is drawn twice; other producers write in between; the
    process may stop at any step and start again from its journal, whatever part of its
    records [inLog] finds in the log. *)
Inductive arb_run (q0 : Queue) (t0 : trace) :
    list (bytes * bytes) → list (bytes * bytes * Z) → Queue → trace → Prop :=
  | run_start : arb_run q0 t0 [] [] q0 t0
  | run_heartbeat D A q t now at_ sig :
      arb_run q0 t0 D A q t → arb_run q0 t0 D A (Heartbeat now at_ sig q).2 t
  | run_enqueue D A q t now tk subject payload :
      arb_run q0 t0 D A q t → in_i64 now → length tk = 16%nat → (tk ∉ D.*2) →
      let r := arb_Enqueue now (Some tk) subject payload q t in
      arb_run q0 t0 ((IntentID subject payload, tk) :: D) A r.1.2 r.2
  | run_no_ticket D A q t now subject payload :
      arb_run q0 t0 D A q t →
      let r := arb_Enqueue now None subject payload q t in arb_run q0 t0 D A r.1.2 r.2
  | run_decide D A q t now id v expiry sig :
      arb_run q0 t0 D A q t → in_i64 now →
      let r := arb_Decide now id v expiry sig q t in arb_run q0 t0 D A r.1.2 r.2
  | run_take D A q t now subject intent out id err q' t' :
      arb_run q0 t0 D A q t → arb_Take now subject intent q t = (out, id, err, q', t') →
      arb_run q0 t0 D (admission_of now q out id ++ A) q' t'
  | run_snapshot D A q t now : arb_run q0 t0 D A q t → arb_run q0 t0 D A (pruneLocked now q) t
  | run_foreign D A q t d :
      arb_run q0 t0 D A q t → Forall (foreign (q_producer q0)) d → arb_run q0 t0 D A q (t ++ d)
  | run_reopen D A q t now inLog :
      arb_run q0 t0 D A q t → arb_run q0 t0 D A (reopened now inLog q t) t.

(** An arbiter signed the approval of this ticket until [expiry]. *)
Definition approval_signed (q : Queue) (id ticket : bytes) (expiry : Z) : Prop :=
  ∃ pub sig, pub ∈ q_keys q ∧
    ed25519_verify pub (DecisionMessage (p_cellID (q_producer q)) id ticket VerdictApprove expiry) sig = true.

(** An entry of the queue or of its journal: well formed, drawn, never admitted, and signed when
    it is approved. *)
Definition entry_inv (q0 : Queue) (D : list (bytes * bytes)) (A : list (bytes * bytes * Z)) (id : bytes)
    (e : entry) : Prop :=
  fields_wf id (en_ticket e) (en_subject e) (en_by e) ∧ in_i64 (Unix (en_expires e)) ∧
  (id, en_ticket e) ∈ D ∧ ((id, en_ticket e) ∉ pair_of <$> A) ∧
  (en_status e = statusApproved →
   ∃ expiry, en_expires e ≤ expiry ∧ approval_signed q0 id (en_ticket e) expiry).

Definition entries_inv (q0 : Queue) (D : list (bytes * bytes)) (A : list (bytes * bytes * Z))
    (m : gmap bytes entry) : Prop :=
  map_Forall (entry_inv q0 D A) m ∧ Z.of_nat (size m) ≤ q_max q0.

Definition same_config (q0 q : Queue) : Prop := ∃ m h, q = set_lastHB h (set_entries m q0).

Definition journal_inv (q0 : Queue) (D : list (bytes * bytes)) (A : list (bytes * bytes * Z)) (t : trace) : Prop :=
  ∀ inLog, entries_inv q0 D A (restored_map (q_producer q0) (q_max q0) inLog (sealed_of t)).

Definition admitted_inv (q0 : Queue) (D : list (bytes * bytes)) (A : list (bytes * bytes * Z)) : Prop :=
  (∀ a, a ∈ A → pair_of a ∈ D ∧ ∃ expiry, a.2 < expiry ∧ approval_signed q0 a.1.1 a.1.2 expiry) ∧
  NoDup (pair_of <$> A).

Definition run_inv (q0 : Queue) (D : list (bytes * bytes)) (A : list (bytes * bytes * Z)) (q : Queue) (t : trace) :
    Prop :=
  same_config q0 q ∧ entries_inv q0 D A (q_entries q) ∧ journal_inv q0 D A t ∧ admitted_inv q0 D A.

Lemma set_entries_config m' h m q : set_entries m' (set_lastHB h (set_entries m q)) = set_lastHB h (set_entries m' q).
Proof. done. Qed.

Lemma pruneLocked_config now h m q :
  pruneLocked now (set_lastHB h (set_entries m q)) = set_lastHB h (set_entries (prune_entries now m) q).
Proof. done. Qed.

Lemma run_inv_intro q0 D A h m t :
  entries_inv q0 D A m → journal_inv q0 D A t → admitted_inv q0 D A →
  run_inv q0 D A (set_lastHB h (set_entries m q0)) t.
Proof. intros ???. split; [by exists m, h|]. done. Qed.

Lemma entries_inv_sub q0 D A m m' : m' ⊆ m → entries_inv q0 D A m → entries_inv q0 D A m'.
Proof.
  intros Hs [HF HS]. split; [intros i e Hi; apply HF; by eapply lookup_weaken|].
  pose proof (map_subseteq_size m' m Hs). lia.
Qed.

Lemma entries_inv_prune q0 D A now m : entries_inv q0 D A m → entries_inv q0 D A (prune_entries now m).
Proof. apply entries_inv_sub, map_filter_subseteq. Qed.

Lemma entries_inv_replace q0 D A m id e :
  is_Some (m !! id) → entry_inv q0 D A id e → entries_inv q0 D A m → entries_inv q0 D A (<[id := e]> m).
Proof.
  intros Hs He [HF HS]. split; [by apply map_Forall_insert_2|]. by rewrite map_size_insert_Some.
Qed.

Lemma entries_inv_new q0 D A m id e :
  Z.of_nat (size m) < q_max q0 → entry_inv q0 D A id e → entries_inv q0 D A m →
  entries_inv q0 D A (<[id := e]> m).
Proof.
  intros Hs He [HF HS]. split; [by apply map_Forall_insert_2|]. rewrite map_size_insert. destruct (m !! id); simpl; lia.
Qed.

Lemma entry_inv_drawn q0 D A p id e : entry_inv q0 D A id e → entry_inv q0 (p :: D) A id e.
Proof. intros (? & ? & ? & ? & ?). split_and!; auto. by apply elem_of_cons; right. Qed.

Lemma entries_inv_drawn q0 D A p m : entries_inv q0 D A m → entries_inv q0 (p :: D) A m.
Proof. intros [HF HS]. split; [|done]. eapply map_Forall_impl; [exact HF|]. intros. by apply entry_inv_drawn. Qed.

(** The entries without the one that was admitted. *)
Lemma entries_inv_admit q0 D A m id tk n :
  (∀ e, m !! id = Some e → en_ticket e ≠ tk) → entries_inv q0 D A m → entries_inv q0 D ((id, tk, n) :: A) m.
Proof.
  intros Hn [HF HS]. split; [|done]. intros i e Hi. destruct (HF i e Hi) as (? & ? & ? & Hna & ?).
  split_and!; auto. rewrite fmap_cons, not_elem_of_cons. split; [|done]. unfold pair_of. simpl.
  intros [= -> E]. by destruct (Hn e).
Qed.

Definition fields_inv (q0 : Queue) (D : list (bytes * bytes)) (A : list (bytes * bytes * Z)) (f : arb_fields) : Prop :=
  fields_wf (ar_id f) (ar_ticket f) (ar_subject f) (ar_kid f) ∧ in_i64 (Unix (ar_expiry f)) ∧
  (ar_act f = actEnqueue → (ar_id f, ar_ticket f) ∈ D ∧ (ar_id f, ar_ticket f) ∉ pair_of <$> A) ∧
  (ar_act f = actApprove →
   ∃ expiry, ar_expiry f ≤ expiry ∧ approval_signed q0 (ar_id f) (ar_ticket f) expiry).

Lemma no_kid_length : length no_kid = 16%nat.
Proof. done. Qed.

Lemma restore_act_inv q0 D A created inLog f m :
  fields_inv q0 D A f → entries_inv q0 D A m →
  entries_inv q0 D A (restore_act (q_max q0) created inLog f m).1.
Proof.
  intros (HW & HU & HE & HA) HI. unfold restore_act. pose proof HW as (W1 & W2 & W3 & W4).
  assert (∀ st, (st = statusApproved → ar_act f = actApprove) →
    entries_inv q0 D A (match m !! ar_id f with
      | Some e => if bool_decide (en_status e = statusPending) && bool_decide (en_ticket e = ar_ticket f)
          then (<[ar_id f := mkEntry (en_ticket e) (en_subject e) (en_created e) (ar_expiry f) st (ar_kid f)]> m, false)
          else (m, true)
      | None => (m, true) end).1) as HD.
  { intros st Hst. destruct (m !! ar_id f) as [e|] eqn:Em; [|done].
    destruct (bool_decide _ && _) eqn:Eb; [|done]. apply andb_true_iff in Eb as [_ Et%bool_decide_eq_true].
    apply entries_inv_replace; [by eexists| |done].
    destruct HI as [HF _]. destruct (HF _ _ Em) as ((? & ? & ? & ?) & ? & ? & ? & _).
    split; [by split_and!|]. split_and!; simpl; auto. rewrite Et. auto. }
  case_bool_decide; [|case_bool_decide; [|case_bool_decide]].
  - destruct (_ || _) eqn:Eb; [done|]. apply orb_false_iff in Eb as [_ Eb%Z.leb_gt].
    destruct (m !! ar_id f); [done|]. destruct HE as [HE1 HE2]; [done|].
    apply entries_inv_new; [done| |done]. split; [by split_and!|]. split_and!; simpl; auto. done.
  - destruct inLog; [|done]. by apply HD.
  - by apply HD.
  - clear HD. destruct (_ || _); [|done]. destruct (m !! ar_id f) as [e|]; [|done]. case_bool_decide; [|done].
    eapply entries_inv_sub; [apply delete_subseteq|done].
Qed.

(** The record of a consumption takes the request out, with its ticket. *)
Lemma restore_act_consume max created inLog f m e :
  ar_act f = actConsume ∨ ar_act f = actConsumeRefused →
  (restore_act max created inLog f m).1 !! ar_id f = Some e → en_ticket e ≠ ar_ticket f.
Proof.
  unfold restore_act. intros Ha.
  rewrite !bool_decide_eq_false_2 by (by destruct Ha as [-> | ->]).
  assert (bool_decide (ar_act f = actConsume) || bool_decide (ar_act f = actConsumeRefused) = true) as ->.
  { apply orb_true_iff. rewrite !bool_decide_eq_true. done. }
  destruct (m !! ar_id f) as [x|] eqn:Em; simpl; [|congruence].
  case_bool_decide; simpl; [by rewrite lookup_delete_eq|]. rewrite Em. by intros [= <-].
Qed.

(** ** The operations, case by case *)

(** A call without effect: expired entries may go, and the alarm of a full queue sound. *)
Definition idle (now : Z) (q : Queue) (t : trace) (q' : Queue) (t' : trace) : Prop :=
  (q' = q ∨ q' = pruneLocked now q) ∧ (t' = t ∨ t' = call_alarm (q_alarm q) "arbiter-queue-full" t).

Lemma prune_lookup now m id e :
  prune_entries now m !! id = Some e ↔ m !! id = Some e ∧ now < en_expires e.
Proof. unfold prune_entries. by rewrite map_lookup_filter_Some. Qed.

Definition new_entry (now : Z) (q : Queue) (tk : bytes) (subject : string) : entry :=
  mkEntry tk subject now (now + q_entTTL q) statusPending no_kid.

Lemma enqueue_new_cases now ticket id subject q t :
  let r := enqueue_new now ticket id subject (pruneLocked now q) t in
  (r.1.1 ≠ Some ErrArbLeaf ∧ idle now q t r.1.2 r.2) ∨
  ∃ tk b t1, ticket = Some tk ∧ Z.of_nat (size (prune_entries now (q_entries q))) < q_max q ∧
    arb_leaf q actEnqueue id tk subject no_kid Byte.x00 (now + q_entTTL q) now t = (b, t1) ∧
    r = if b then (None, set_entries (<[id := new_entry now q tk subject]> (prune_entries now (q_entries q))) q, t1)
        else (Some ErrArbLeaf, pruneLocked now q, t1).
Proof.
  cbv zeta. unfold enqueue_new, idle. cbn [q_max q_alarm q_entTTL set_entries pruneLocked q_entries].
  destruct (Z.leb_spec (q_max q) (Z.of_nat (size (prune_entries now (q_entries q))))); [by left; auto|].
  destruct ticket as [tk|]; [|by left; auto]. right.
  destruct (arb_leaf (pruneLocked now q) _ _ _ _ _ _ _ _ _) as [b t1] eqn:EL.
  exists tk, b, t1. by destruct b.
Qed.

Lemma arb_Enqueue_cases now ticket subject payload q t :
  let id := IntentID subject payload in
  let r := arb_Enqueue now ticket subject payload q t in
  (r.1.1 ≠ Some ErrArbLeaf ∧ idle now q t r.1.2 r.2) ∨
  ∃ tk b t1, ticket = Some tk ∧ (slen subject ≤ maxSubjectLen)%nat ∧
    (∀ e, prune_entries now (q_entries q) !! id = Some e → en_status e ≠ statusPending) ∧
    Z.of_nat (size (prune_entries now (q_entries q))) < q_max q ∧
    arb_leaf q actEnqueue id tk subject no_kid Byte.x00 (now + q_entTTL q) now t = (b, t1) ∧
    r = if b then (None, set_entries (<[id := new_entry now q tk subject]> (prune_entries now (q_entries q))) q, t1)
        else (Some ErrArbLeaf, pruneLocked now q, t1).
Proof.
  cbv zeta. set (id := IntentID subject payload).
  pose proof (enqueue_new_cases now ticket id subject q t) as HN.
  unfold arb_Enqueue. fold id. destruct (Nat.ltb_spec maxSubjectLen (slen subject)).
  { left. split; [done|]. by split; left. }
  cbn [q_entries pruneLocked set_entries].
  destruct (prune_entries now (q_entries q) !! id) as [e|] eqn:Em; [case_bool_decide as He|].
  { left. split; [done|]. by split; [right|left]. }
  all: destruct HN as [?|(tk & b & t1 & ? & ? & ? & ?)]; [by left|right]; exists tk, b, t1; split_and!; auto; by intros ? [= <-].
Qed.

(** What the decision of an operator needs. *)
Definition decision_valid (q : Queue) (now : Z) (id : bytes) (v : byte) (expiry : Z) (sig : bytes)
    (e : entry) (kid : bytes) : Prop :=
  (v = VerdictApprove ∨ v = VerdictRefuse) ∧
  q_entries q !! id = Some e ∧ now < en_expires e ∧ en_status e = statusPending ∧
  MinDecisionTTL ≤ Sub expiry now ≤ q_entTTL q ∧
  signedBy (if bool_decide (v = VerdictRefuse) then q_refuse q else q_keys q)
    (DecisionMessage (p_cellID (q_producer q)) id (en_ticket e) v expiry) sig = Some kid.

Definition act_of (v : byte) : byte := if bool_decide (v = VerdictApprove) then actApprove else actRefuse.

Definition decided (v : byte) (expiry : Z) (kid : bytes) (e : entry) : entry :=
  mkEntry (en_ticket e) (en_subject e) (en_created e) expiry
    (if bool_decide (v = VerdictRefuse) then statusRefused else statusApproved) kid.

Lemma verdict_known v :
  negb (bool_decide (v = VerdictApprove)) && negb (bool_decide (v = VerdictRefuse)) = false ↔
  v = VerdictApprove ∨ v = VerdictRefuse.
Proof. rewrite andb_false_iff, !negb_false_iff, !bool_decide_eq_true. done. Qed.

Lemma arb_Decide_cases now id v expiry sig q t :
  let r := arb_Decide now id v expiry sig q t in
  (r.1.1 ≠ None ∧ r.1.1 ≠ Some ErrArbLeaf ∧ idle now q t r.1.2 r.2 ∧
   ∀ e kid, ¬ decision_valid q now id v expiry sig e kid) ∨
  ∃ e kid b t1, decision_valid q now id v expiry sig e kid ∧
    arb_leaf q (act_of v) id (en_ticket e) (en_subject e) kid v expiry now t = (b, t1) ∧
    r = if b then (None, set_entries (<[id := decided v expiry kid e]> (prune_entries now (q_entries q))) q, t1)
        else (Some ErrArbLeaf, pruneLocked now q, t1).
Proof.
  cbv zeta. unfold arb_Decide, idle, decision_valid.
  destruct (negb _ && negb _) eqn:Ev.
  { left. split_and!; auto. intros e kid (Hv%verdict_known & _). congruence. }
  apply verdict_known in Ev. cbn [q_entries pruneLocked set_entries].
  destruct (prune_entries now (q_entries q) !! id) as [e|] eqn:Em.
  2: { left. split_and!; auto. intros e kid (_ & Hl & He & _).
       by rewrite (proj2 (prune_lookup now _ id e) (conj Hl He)) in Em. }
  apply prune_lookup in Em as [Hl He].
  destruct (decide (en_status e = statusPending)) as [Hs|Hs].
  2: { rewrite bool_decide_eq_true_2 by done. left. split_and!; auto.
       intros e' kid (_ & Hl' & _ & ? & _). congruence. }
  rewrite (bool_decide_eq_false_2 (en_status e ≠ statusPending)) by (by intros []).
  cbn [q_entTTL set_entries pruneLocked].
  destruct (Z.ltb_spec (Sub expiry now) MinDecisionTTL); simpl.
  { left. split_and!; auto. intros e' kid (_ & _ & _ & _ & ? & _). lia. }
  destruct (Z.ltb_spec (q_entTTL q) (Sub expiry now)).
  { left. split_and!; auto. intros e' kid (_ & _ & _ & _ & ? & _). lia. }
  unfold kidOfIn. cbn [set_entries pruneLocked q_allKeys q_keys q_refuse q_producer].
  destruct (signedBy (if bool_decide (v = VerdictRefuse) then _ else _) _ sig) as [kid|] eqn:ES.
  2: { left. destruct (signedBy (q_allKeys q) _ sig); split_and!; auto;
       intros e' kid (_ & Hl' & _ & _ & _ & HS); congruence. }
  right. destruct (arb_leaf (pruneLocked now q) _ _ _ _ kid _ _ _ _) as [b t1] eqn:EL.
  exists e, kid, b, t1. by destruct b; split_and!.
Qed.

Definition consumed (out : Outcome) : byte :=
  if bool_decide (out = OutcomeApproved) then actConsume else actConsumeRefused.

Lemma arb_Take_cases now subject intent q t out id err q' t' :
  arb_Take now subject intent q t = (out, id, err, q', t') →
  id = IntentID subject intent ∧
  ((out ≠ OutcomeApproved ∧ err = None ∧ q' = pruneLocked now q ∧ t' = t) ∨
   ∃ e out' b, q_entries q !! id = Some e ∧ now < en_expires e ∧
     ((out' = OutcomeApproved ∧ en_status e = statusApproved) ∨ (out' = OutcomeRefused ∧ en_status e = statusRefused)) ∧
     arb_leaf q (consumed out') id (en_ticket e) (en_subject e) (en_by e) Byte.x00 (en_expires e) now t = (b, t') ∧
     if b then out = out' ∧ err = None ∧ q' = set_entries (delete id (prune_entries now (q_entries q))) q
     else out = OutcomeNone ∧ err = Some ErrArbLeaf ∧ q' = pruneLocked now q).
Proof.
  unfold arb_Take. cbn [q_entries pruneLocked set_entries].
  destruct (prune_entries now (q_entries q) !! IntentID subject intent) as [e|] eqn:Em.
  2: { intros [= <- <- <- <- <-]. split; [done|]. by left. }
  apply prune_lookup in Em as [Hl He].
  destruct (en_status e) eqn:Est.
  { intros [= <- <- <- <- <-]. split; [done|]. by left. }
  all: destruct (arb_leaf (pruneLocked now q) _ _ _ _ _ _ _ _ _) as [b t1] eqn:EL; intros HT.
  - assert (id = IntentID subject intent ∧ t' = t1) as [-> ->] by (destruct b; by simplify_eq).
    split; [done|]. right. exists e, OutcomeApproved, b. split_and!; auto. by destruct b; simplify_eq.
  - assert (id = IntentID subject intent ∧ t' = t1) as [-> ->] by (destruct b; by simplify_eq).
    split; [done|]. right. exists e, OutcomeRefused, b. split_and!; auto. by destruct b; simplify_eq.
Qed.

(** ** The invariant of a run *)

Definition fresh_queue (q0 : Queue) : Prop :=
  q_entries q0 = ∅ ∧ p_journal (q_producer q0) = true ∧ 0 ≤ q_max q0 ∧ 0 ≤ q_entTTL q0 ≤ hour.

Lemma kept_in_i64 expiry : in_i64 (Unix expiry) → in_i64 (Unix (kept_expiry expiry)).
Proof.
  intros HU. unfold kept_expiry. case_match; [|by rewrite Unix_of_Unix].
  change (Unix zero_time) with (-62135596800). unfold in_i64. lia.
Qed.

Lemma Unix_near now expiry :
  in_i64 now → now ≤ expiry ≤ now + hour → in_i64 (Unix expiry) ∧ zero_time ≤ expiry.
Proof.
  unfold in_i64, Unix, zero_time, hour, minute, second. intros Hn He. split; [|lia].
  split; [apply Z.div_le_lower_bound; lia|apply Z.div_lt_upper_bound; lia].
Qed.

Lemma kid_length keys msg sig kid : signedBy keys msg sig = Some kid → length kid = 16%nat.
Proof.
  intros (pub & _ & _ & ->)%signedBy_Some. unfold KeyIDFromPublicKey.
  rewrite length_take, sha256_length. lia.
Qed.

(** What a new record does to the restored entries. *)
Lemma restored_snoc p max inLog recs r :
  restored_map p max inLog (recs ++ [r]) = (restore_record p max inLog r (restored_map p max inLog recs)).1.
Proof. unfold restored_map. by rewrite foldl_app. Qed.

Lemma write_inv q0 D A q act id tk subject kid verdict expiry now t b t1 :
  q_producer q = q_producer q0 → p_journal (q_producer q0) = true → in_i64 (Unix expiry) →
  arb_leaf q act id tk subject kid verdict expiry now t = (b, t1) →
  fields_inv q0 D A (mkArbFields act id tk subject kid verdict (kept_expiry expiry)) →
  journal_inv q0 D A t → journal_inv q0 D A t1.
Proof.
  intros Hp Hj HU HL HF HJ inLog. pose proof HF as (HW & _).
  apply arb_leaf_sealed in HL as [->|[_ ->]]; [|done|by rewrite Hp].
  rewrite Hp, restored_snoc, restore_own by done. by apply restore_act_inv.
Qed.

(** The record of an admission. *)
Lemma consume_inv q0 D A q act id tk subject kid verdict expiry now t t1 n :
  q_producer q = q_producer q0 → p_journal (q_producer q0) = true → in_i64 (Unix expiry) →
  act = actConsume ∨ act = actConsumeRefused → fields_wf id tk subject kid →
  arb_leaf q act id tk subject kid verdict expiry now t = (true, t1) →
  journal_inv q0 D A t → journal_inv q0 D ((id, tk, n) :: A) t1.
Proof.
  intros Hp Hj HU Ha HW HL HJ inLog.
  apply arb_leaf_sealed in HL as [->|[? _]]; [|done|by rewrite Hp].
  rewrite Hp, restored_snoc, restore_own by done. apply entries_inv_admit.
  - intros e. by apply restore_act_consume.
  - apply restore_act_inv; [|done]. split; [done|]. split; [by apply kept_in_i64|].
    simpl. split; intros ->; destruct Ha; discriminate.
Qed.

Lemma foreign_restored p max inLog t d :
  Forall (foreign p) d → restored_map p max inLog (sealed_of (t ++ d)) = restored_map p max inLog (sealed_of t).
Proof.
  intros HF. rewrite sealed_of_app. unfold restored_map. rewrite foldl_app.
  generalize (foldl (λ m r, (restore_record p max inLog r m).1) ∅ (sealed_of t)).
  induction HF as [|e d He _ IH]; intros m; [done|].
  destruct e as [l s r| | | | | | | |]; simpl; auto. simpl in He. rewrite IH.
  unfold restore_record. by rewrite He.
Qed.

Lemma foreign_inv q0 D A t d :
  Forall (foreign (q_producer q0)) d → journal_inv q0 D A t → journal_inv q0 D A (t ++ d).
Proof. intros HF HJ inLog. rewrite foreign_restored; [apply HJ|done]. Qed.

Lemma alarm_inv q0 D A b r t : journal_inv q0 D A t → journal_inv q0 D A (call_alarm b r t).
Proof. destruct b; [|done]. apply foreign_inv. by repeat constructor. Qed.

Lemma admitted_drawn q0 D A p : admitted_inv q0 D A → admitted_inv q0 (p :: D) A.
Proof.
  intros [HA HN]. split; [|done]. intros a Ha. destruct (HA a Ha) as [? ?]. split; [|done].
  by apply elem_of_cons; right.
Qed.

Lemma idle_inv q0 D A now q t q' t' : run_inv q0 D A q t → idle now q t q' t' → run_inv q0 D A q' t'.
Proof.
  intros ((m & h & ->) & HL & HJ & HA) [Hq Ht].
  assert (journal_inv q0 D A t') as HJ' by (destruct Ht as [-> | ->]; [done|by apply alarm_inv]).
  destruct Hq as [-> | ->]; [by apply run_inv_intro|].
  rewrite pruneLocked_config. apply run_inv_intro; [by apply entries_inv_prune|done..].
Qed.

Lemma run_inv_drawn q0 D A p q t : run_inv q0 D A q t → run_inv q0 (p :: D) A q t.
Proof.
  intros (HC & HL & HJ & HA).
  split; [done|]. split; [by apply entries_inv_drawn|]. split; [|by apply admitted_drawn].
  intros inLog. by apply entries_inv_drawn.
Qed.

Lemma fresh_not_admitted q0 D A q t id tk : run_inv q0 D A q t → (tk ∉ D.*2) → (id, tk) ∉ pair_of <$> A.
Proof.
  intros (_ & _ & _ & HA & _) Hf (a & Ea & Ha)%list_elem_of_fmap. apply Hf, list_elem_of_fmap.
  exists (pair_of a). rewrite <-Ea. split; [done|]. rewrite Ea. by apply HA.
Qed.

Lemma enqueue_inv q0 D A q t now tk subject payload :
  fresh_queue q0 → run_inv q0 D A q t → in_i64 now → length tk = 16%nat → (tk ∉ D.*2) →
  let r := arb_Enqueue now (Some tk) subject payload q t in
  run_inv q0 ((IntentID subject payload, tk) :: D) A r.1.2 r.2.
Proof.
  intros (_ & Hj & _ & Ht) HR Hn Htk Hfresh r.
  pose proof (fresh_not_admitted _ _ _ _ _ (IntentID subject payload) tk HR Hfresh) as Hna.
  apply (run_inv_drawn _ _ _ (IntentID subject payload, tk)) in HR.
  destruct (arb_Enqueue_cases now (Some tk) subject payload q t) as [[_ HI]|HC]; [by eapply idle_inv|].
  fold r in HC. destruct HC as (? & b & t1 & [= <-] & Hs & _ & Hsize & EL & ->).
  destruct HR as ((m & h & ->) & HL & HJ & HA).
  destruct (Unix_near now (now + q_entTTL q0)) as [HU _]; [done|lia|].
  assert (fields_wf (IntentID subject payload) tk subject no_kid) as HW
    by (split_and!; [apply sha256_length|done..]).
  assert (journal_inv q0 ((IntentID subject payload, tk) :: D) A t1) as HJ1.
  { eapply write_inv; [| |exact HU|exact EL| |exact HJ]; [done..|].
    split; [done|]. split; [by apply kept_in_i64|]. simpl. split; [|done].
    intros _. split; [left|done]. }
  destruct b; simpl; [rewrite set_entries_config|rewrite pruneLocked_config]; apply run_inv_intro; auto;
    [|by apply entries_inv_prune].
  apply entries_inv_new; [done| |by apply entries_inv_prune]. split; [done|].
  split_and!; simpl; auto; [left|done].
Qed.

Lemma no_ticket_inv q0 D A q t now subject payload :
  run_inv q0 D A q t →
  let r := arb_Enqueue now None subject payload q t in run_inv q0 D A r.1.2 r.2.
Proof.
  intros HR r. destruct (arb_Enqueue_cases now None subject payload q t) as [[_ HI]|(? & ? & ? & ? & _)]; [|done].
  by eapply idle_inv.
Qed.

Lemma decide_inv q0 D A q t now id v expiry sig :
  fresh_queue q0 → run_inv q0 D A q t → in_i64 now →
  let r := arb_Decide now id v expiry sig q t in run_inv q0 D A r.1.2 r.2.
Proof.
  intros (_ & Hj & _ & Ht) HR Hn r.
  destruct (arb_Decide_cases now id v expiry sig q t) as [(_ & _ & HI & _)|HC]; [by eapply idle_inv|].
  fold r in HC. destruct HC as (e & kid & b & t1 & (Hv & Hl & He & _ & Hx & ES) & EL & ->).
  destruct HR as ((m & h & ->) & HL & HJ & HA). cbn [q_entTTL set_entries set_lastHB] in Hx.
  destruct (Unix_near now expiry) as [HU Hz]; [done| |].
  { revert Hx Ht. unfold Sub, MinDecisionTTL, hour, minute, second. lia. }
  pose proof HL as [HF _]. destruct (HF _ _ Hl) as ((W1 & W2 & W3 & W4) & _ & HD & HNA & _).
  assert (fields_wf id (en_ticket e) (en_subject e) kid) as HW by (split_and!; eauto using kid_length).
  assert (v = VerdictApprove → approval_signed q0 id (en_ticket e) expiry) as Hsig.
  { intros ->. rewrite bool_decide_eq_false_2 in ES by done. apply signedBy_Some in ES as (pub & ? & ? & _).
    by exists pub, sig. }
  clear ES. assert (journal_inv q0 D A t1) as HJ1.
  { eapply write_inv; [| |exact HU|exact EL| |exact HJ]; [done..|]. clear EL.
    split; [done|]. split; [by apply kept_in_i64|]. simpl. unfold act_of. split.
    - case_bool_decide; done.
    - case_bool_decide; [|done]. intros _. exists expiry. split; [by apply kept_expiry_le|auto]. }
  pose proof (entries_inv_prune q0 D A now m HL) as HP.
  destruct b; simpl; [rewrite set_entries_config|rewrite pruneLocked_config]; apply run_inv_intro; auto.
  apply entries_inv_replace; [exists e; by apply prune_lookup| |done].
  split; [done|]. split_and!; simpl; auto. case_bool_decide; [done|]. intros _. exists expiry.
  split; [done|]. apply Hsig. by destruct Hv.
Qed.

Lemma take_inv q0 D A q t now subject intent out id err q' t' :
  fresh_queue q0 → run_inv q0 D A q t → arb_Take now subject intent q t = (out, id, err, q', t') →
  run_inv q0 D (admission_of now q out id ++ A) q' t'.
Proof.
  intros (_ & Hj & _) HR HT.
  destruct (arb_Take_cases _ _ _ _ _ _ _ _ _ _ HT) as [-> [(Ho & _ & -> & ->)|HC]].
  { assert (admission_of now q out (IntentID subject intent) = []) as -> by by destruct out.
    apply (idle_inv q0 D A now q t); [done|]. split; auto. }
  destruct HC as (e & out' & b & Hl & He & Hst & EL & Hb).
  destruct HR as ((m & h & ->) & HL & HJ & HA). pose proof (entries_inv_prune q0 D A now m HL) as HP.
  pose proof HL as [HF _]. destruct (HF _ _ Hl) as (HW & HU & HD & HNA & HSig).
  assert (consumed out' = actConsume ∨ consumed out' = actConsumeRefused) as Hc
    by (destruct Hst as [[-> _]|[-> _]]; auto).
  assert (journal_inv q0 D A t') as HJ'.
  { eapply write_inv; [| |exact HU|exact EL| |exact HJ]; [done..|].
    split; [done|]. split; [by apply kept_in_i64|]. simpl. split; intros Ha; rewrite Ha in Hc; by destruct Hc. }
  assert (entries_inv q0 D A (delete (IntentID subject intent) (prune_entries now m))) as HDel
    by by eapply entries_inv_sub; [apply delete_subseteq|].
  destruct b; destruct Hb as (-> & -> & ->);
    [rewrite set_entries_config|rewrite pruneLocked_config; by apply run_inv_intro].
  destruct Hst as [[-> Hst]|[-> Hst]]; [|by apply run_inv_intro].
  unfold admission_of. rewrite Hl. simpl. apply run_inv_intro.
  - apply entries_inv_admit; [|done]. intros x. by rewrite lookup_delete_eq.
  - eapply consume_inv; [| |exact HU|exact Hc|exact HW|exact EL|exact HJ]; done.
  - destruct HA as [HA HN]. split; [|rewrite fmap_cons; by apply NoDup_cons].
    intros a [->|Ha]%elem_of_cons; [|auto]. split; [done|]. simpl.
    destruct HSig as (expiry & ? & ?); [done|]. exists expiry. split; [lia|done].
Qed.

Lemma reopen_inv q0 D A q t now inLog :
  run_inv q0 D A q t → run_inv q0 D A (reopened now inLog q t) t.
Proof.
  intros ((m & h & ->) & _ & HJ & HA). unfold reopened. rewrite Restore_entries by done.
  apply (run_inv_intro q0 D A zero_time (prune_entries now (restored_map (q_producer q0) (q_max q0) inLog (sealed_of t))));
    [|done..]. apply entries_inv_prune, HJ.
Qed.

Lemma start_inv q0 t0 :
  fresh_queue q0 → Forall (foreign (q_producer q0)) t0 → run_inv q0 [] [] q0 t0.
Proof.
  intros (HE & _ & Hm & _) HF.
  assert (entries_inv q0 [] [] ∅) as HI by (split; [apply map_Forall_empty|by rewrite map_size_empty]).
  split_and!.
  - exists ∅, (q_lastHB q0). destruct q0; simpl in *. by rewrite HE.
  - by rewrite HE.
  - intros inLog. change t0 with ([] ++ t0). by rewrite foreign_restored.
  - split; [|constructor]. intros a ?%elem_of_nil. done.
Qed.

Lemma Heartbeat_config now at_ sig h m q0 :
  ∃ h', (Heartbeat now at_ sig (set_lastHB h (set_entries m q0))).2 = set_lastHB h' (set_entries m q0).
Proof.
  unfold Heartbeat. destruct (_ || _); [by exists h|]. destruct (kidOf _ _ _); [by exists h|].
  destruct (negb _); [by exists h|]. by exists at_.
Qed.

Lemma run_invariant q0 t0 D A q t :
  fresh_queue q0 → Forall (foreign (q_producer q0)) t0 → arb_run q0 t0 D A q t → run_inv q0 D A q t.
Proof.
  intros Hq Ht0 HR. induction HR.
  - by apply start_inv.
  - destruct IHHR as ((m & h & ->) & HL & HJ & HA).
    destruct (Heartbeat_config now at_ sig h m q0) as [h' ->]. by apply run_inv_intro.
  - by apply enqueue_inv.
  - by apply no_ticket_inv.
  - by apply decide_inv.
  - by eapply take_inv.
  - destruct IHHR as ((m & h & ->) & HL & HJ & HA). rewrite pruneLocked_config.
    apply run_inv_intro; [by apply entries_inv_prune|done..].
  - destruct IHHR as (HC & HL & HJ & HA). split_and!; auto; try apply HA. by apply foreign_inv.
  - by apply reopen_inv.
Qed.

Lemma NewQueue_fresh cellID salt leaves ok ak rk pt et mx al q0 :
  NewQueue cellID salt leaves true ok ak rk pt et mx al = Some q0 → fresh_queue q0.
Proof.
  unfold NewQueue. intros E.
  repeat match type of E with
  | (if ?b then None else _) = _ => destruct b eqn:?; [discriminate E|]
  | match ?o with Some _ => _ | None => None end = _ => destruct o eqn:?; [|discriminate E]
  end. injection E as <-.
  repeat match goal with HB : (_ || _) = false |- _ => apply orb_false_iff in HB as [?%Z.ltb_ge ?%Z.ltb_ge] end.
  unfold fresh_queue. cbn [q_entries q_producer p_journal q_max q_entTTL].
  unfold MinEntryTTL, MaxEntryTTL, minute, hour, second in *. split_and!; [done..|lia|lia|lia].
Qed.

(** ** Restoration of a quiet run *)

(** What the journal keeps of an entry. *)
Definition kept_entry (e : entry) : entry :=
  mkEntry (en_ticket e) (en_subject e) (en_created e) (kept_expiry (en_expires e)) (en_status e) (en_by e).

Definition unexpired (now : Z) (q : Queue) : Prop := prune_entries now (q_entries q) = q_entries q.

#[global] Instance unexpired_dec now q : Decision (unexpired now q).
Proof. unfold unexpired. apply _. Defined.

(** A run in which every write succeeds, nothing expires and no decided request is queued again. *)
Inductive quiet_run (q0 : Queue) (t0 : trace) : Queue → trace → Prop :=
  | quiet_start : quiet_run q0 t0 q0 t0
  | quiet_heartbeat q t now at_ sig :
      quiet_run q0 t0 q t → quiet_run q0 t0 (Heartbeat now at_ sig q).2 t
  | quiet_enqueue q t now tk subject payload :
      quiet_run q0 t0 q t → second ≤ now → in_i64 now → length tk = 16%nat → unexpired now q →
      (∀ e, q_entries q !! IntentID subject payload = Some e → en_status e = statusPending) →
      let r := arb_Enqueue now (Some tk) subject payload q t in
      r.1.1 ≠ Some ErrArbLeaf → quiet_run q0 t0 r.1.2 r.2
  | quiet_decide q t now id v expiry sig :
      quiet_run q0 t0 q t → in_i64 now → unexpired now q →
      let r := arb_Decide now id v expiry sig q t in
      r.1.1 ≠ Some ErrArbLeaf → quiet_run q0 t0 r.1.2 r.2
  | quiet_take q t now subject intent out id q' t' :
      quiet_run q0 t0 q t → unexpired now q →
      arb_Take now subject intent q t = (out, id, None, q', t') → quiet_run q0 t0 q' t'
  | quiet_foreign q t d :
      quiet_run q0 t0 q t → Forall (foreign (q_producer q0)) d → quiet_run q0 t0 q (t ++ d).

(** The log knows at least the leaves that were appended. *)
Definition finds_log (inLog : SealedRecord → bool) (t : trace) : Prop :=
  ∀ r, sl_Leaf r ∈ leaves_of t → inLog r = true.

Definition kept_wf (id : bytes) (e : entry) : Prop :=
  fields_wf id (en_ticket e) (en_subject e) (en_by e) ∧ in_i64 (Unix (en_expires e)).

Definition quiet_inv (q0 q : Queue) (t : trace) : Prop :=
  same_config q0 q ∧ map_Forall kept_wf (q_entries q) ∧
  ∀ inLog, finds_log inLog t →
    restored_map (q_producer q0) (q_max q0) inLog (sealed_of t) = kept_entry <$> q_entries q.

Lemma arb_leaf_found q act id tk subject kid verdict expiry now t t1 inLog :
  p_journal (q_producer q) = true →
  arb_leaf q act id tk subject kid verdict expiry now t = (true, t1) → finds_log inLog t1 →
  finds_log inLog t ∧
  sealed_of t1 = sealed_of t ++ [own_record (q_producer q) now act id tk subject kid verdict expiry] ∧
  inLog (own_record (q_producer q) now act id tk subject kid verdict expiry) = true.
Proof.
  intros Hj HL HF. pose proof (arb_leaf_sealed _ _ _ _ _ _ _ _ _ _ _ _ Hj HL) as [HS|[? _]]; [|done].
  unfold arb_leaf in HL.
  pose proof (appendLeaf_observed (q_producer q) KindTelemetry (arbRecord act id tk subject kid verdict expiry)
    (UnixNano now) t) as HO.
  destruct (appendLeaf _ _ _ _ t) as [[?|] t2]; [done|]. injection HL as <-. destruct HO as (HO & _).
  split_and!; [|done|].
  - intros r Hr. apply HF. rewrite HO. by apply elem_of_app; left.
  - apply HF. rewrite HO. apply elem_of_app. right. by left.
Qed.

(** A write that succeeded, as the restoration sees it. *)
Lemma quiet_write q0 q act id tk subject kid verdict expiry now t t1 m :
  p_journal (q_producer q0) = true → q_producer q = q_producer q0 →
  fields_wf id tk subject kid → in_i64 (Unix expiry) →
  (∀ inLog, finds_log inLog t →
    restored_map (q_producer q0) (q_max q0) inLog (sealed_of t) = kept_entry <$> m) →
  arb_leaf q act id tk subject kid verdict expiry now t = (true, t1) →
  ∀ inLog, finds_log inLog t1 →
    restored_map (q_producer q0) (q_max q0) inLog (sealed_of t1) =
    (restore_act (q_max q0) (UnixNano now) true
       (mkArbFields act id tk subject kid verdict (kept_expiry expiry)) (kept_entry <$> m)).1.
Proof.
  intros Hj Hp HW HU HM HL inLog HF. rewrite <-Hp in Hj.
  destruct (arb_leaf_found _ _ _ _ _ _ _ _ _ _ _ _ Hj HL HF) as (HF' & -> & Hin).
  rewrite Hp in *. rewrite restored_snoc, restore_own, Hin, HM by done. done.
Qed.

Lemma kept_positive expiry : second ≤ expiry → kept_expiry expiry ≠ zero_time.
Proof.
  intros Hs. assert (1 ≤ Unix expiry) as HU by (by apply Z.div_le_lower_bound).
  unfold kept_expiry, expiry_unix. destruct (Z.eqb_spec expiry zero_time) as [->|]; [done|].
  destruct (Z.eqb_spec (Unix expiry) 0); [lia|]. unfold of_Unix, zero_time, second. lia.
Qed.

Lemma quiet_idle q0 now q t q' t' : quiet_inv q0 q t → unexpired now q → idle now q t q' t' → quiet_inv q0 q' t'.
Proof.
  intros (HC & HF & HM) HU [Hq Ht].
  assert (q' = q) as ->.
  { destruct Hq as [->|Hq]; [done|]. rewrite Hq. unfold pruneLocked. rewrite HU. by destruct q. }
  split; [done|]. split; [done|]. intros inLog HL.
  assert (∃ r, t' = t ∨ t' = t ++ [EvAlarm r]) as (r & [-> | ->]).
  { exists "arbiter-queue-full". destruct Ht as [->|Ht]; [by left|]. rewrite Ht. unfold call_alarm.
    destruct (q_alarm q); auto. }
  - auto.
  - rewrite sealed_of_app, app_nil_r. apply HM. intros x Hx. apply HL. rewrite leaves_of_app, app_nil_r. done.
Qed.

Lemma quiet_enqueue_inv q0 q t now tk subject payload :
  fresh_queue q0 → quiet_inv q0 q t → second ≤ now → in_i64 now → length tk = 16%nat → unexpired now q →
  (∀ e, q_entries q !! IntentID subject payload = Some e → en_status e = statusPending) →
  let r := arb_Enqueue now (Some tk) subject payload q t in
  r.1.1 ≠ Some ErrArbLeaf → quiet_inv q0 r.1.2 r.2.
Proof.
  intros (_ & Hj & _ & Ht) HQ Hpos Hn Htk HU Hdec r Hok.
  destruct (arb_Enqueue_cases now (Some tk) subject payload q t) as [[_ HI]|HC].
  { by eapply quiet_idle. }
  fold r in HC. destruct HC as (? & b & t1 & [= <-] & Hs & Hnp & Hsize & EL & Er).
  rewrite Er in *. destruct b; [|done]. simpl. rewrite HU in *.
  destruct HQ as ((m & h & ->) & HF & HM).
  cbn [q_entries set_entries set_lastHB] in *. set (id := IntentID subject payload) in *.
  destruct (Unix_near now (now + q_entTTL q0)) as [HX _]; [done|lia|].
  assert (fields_wf id tk subject no_kid) as HW by (split_and!; [apply sha256_length|done..]).
  assert (m !! id = None) as Hm.
  { destruct (m !! id) as [e|] eqn:E; [|done]. by destruct (Hnp e eq_refl (Hdec e eq_refl)). }
  rewrite set_entries_config. split; [by eexists _, _|]. split.
  { cbn [q_entries set_entries set_lastHB]. apply map_Forall_insert_2; [by split|done]. }
  intros inLog HL. rewrite (quiet_write _ _ _ _ _ _ _ _ _ _ _ _ m Hj) by done.
  unfold restore_act. cbn [ar_act ar_expiry ar_id ar_ticket ar_subject].
  rewrite bool_decide_eq_true_2 by done. rewrite lookup_fmap, Hm, map_size_fmap.
  pose proof (kept_positive (now + q_entTTL q0) ltac:(lia)) as Hz.
  destruct (Z.eqb_spec (kept_expiry (now + q_entTTL q0)) zero_time); [done|]. simpl.
  destruct (Z.leb_spec (q_max q0) (Z.of_nat (size m))); [simpl in *; lia|]. simpl.
  rewrite fmap_insert. f_equal. unfold kept_entry, new_entry. simpl. f_equal. by apply i64_small.
Qed.

Lemma quiet_decide_inv q0 q t now id v expiry sig :
  fresh_queue q0 → quiet_inv q0 q t → in_i64 now → unexpired now q →
  let r := arb_Decide now id v expiry sig q t in
  r.1.1 ≠ Some ErrArbLeaf → quiet_inv q0 r.1.2 r.2.
Proof.
  intros (_ & Hj & _ & Ht) HQ Hn HU r Hok.
  destruct (arb_Decide_cases now id v expiry sig q t) as [(_ & _ & HI & _)|HC].
  { by eapply quiet_idle. }
  fold r in HC. destruct HC as (e & kid & b & t1 & (Hv & Hl & He & Hst & Hx & ES) & EL & Er).
  rewrite Er in *. destruct b; [|done]. simpl. rewrite HU in *.
  destruct HQ as ((m & h & ->) & HF & HM). cbn [q_entries set_entries set_lastHB q_entTTL] in *.
  destruct (Unix_near now expiry) as [HX _]; [done| |].
  { revert Hx Ht. unfold Sub, MinDecisionTTL, hour, minute, second. lia. }
  destruct (HF _ _ Hl) as ((W1 & W2 & W3 & W4) & _).
  assert (fields_wf id (en_ticket e) (en_subject e) kid) as HW by (split_and!; eauto using kid_length).
  rewrite set_entries_config. split; [by eexists _, _|]. split.
  { cbn [q_entries set_entries set_lastHB]. apply map_Forall_insert_2; [by split|done]. }
  intros inLog HL. rewrite (quiet_write _ _ _ _ _ _ _ _ _ _ _ _ m Hj) by done.
  cbn [q_entries set_entries set_lastHB]. rewrite fmap_insert. clear Er r Hok ES EL.
  unfold restore_act, act_of. cbn [ar_act ar_expiry ar_id ar_ticket ar_kid].
  rewrite lookup_fmap, Hl. simpl. rewrite (bool_decide_eq_true_2 (en_status e = _)) by done.
  rewrite (bool_decide_eq_true_2 (en_ticket e = _)) by done. by destruct Hv as [-> | ->].
Qed.

Lemma quiet_take_inv q0 q t now subject intent out id q' t' :
  fresh_queue q0 → quiet_inv q0 q t → unexpired now q →
  arb_Take now subject intent q t = (out, id, None, q', t') → quiet_inv q0 q' t'.
Proof.
  intros (_ & Hj & _ & Ht) HQ HU HT.
  destruct (arb_Take_cases _ _ _ _ _ _ _ _ _ _ HT) as [-> [(Ho & _ & -> & ->)|HC]].
  { eapply quiet_idle; [done..|]. split; auto. }
  destruct HC as (e & out' & b & Hl & He & Hst & EL & Hb).
  destruct b; [|by destruct Hb as (_ & ? & _)]. destruct Hb as (-> & _ & ->). rewrite HU.
  destruct HQ as ((m & h & ->) & HF & HM). cbn [q_entries set_entries set_lastHB q_entTTL] in *.
  destruct (HF _ _ Hl) as (HW & HX).
  rewrite set_entries_config. split; [by eexists _, _|]. split.
  { cbn [q_entries set_entries set_lastHB]. by apply map_Forall_delete. }
  intros inLog HL. rewrite (quiet_write _ _ _ _ _ _ _ _ _ _ _ _ m Hj) by done.
  cbn [q_entries set_entries set_lastHB]. rewrite fmap_delete.
  unfold restore_act. cbn [ar_act ar_expiry ar_id ar_ticket ar_kid].
  rewrite lookup_fmap, Hl. simpl. rewrite (bool_decide_eq_true_2 (en_ticket e = _)) by done.
  by destruct Hst as [[-> _]|[-> _]].
Qed.

Lemma quiet_invariant q0 t0 q t :
  fresh_queue q0 → Forall (foreign (q_producer q0)) t0 → quiet_run q0 t0 q t → quiet_inv q0 q t.
Proof.
  intros Hq Ht0 HR. induction HR.
  - destruct (start_inv q0 t0 Hq Ht0) as (HC & _). split; [done|]. destruct Hq as (-> & _).
    split; [apply map_Forall_empty|]. intros inLog _. change t0 with ([] ++ t0). by rewrite foreign_restored.
  - destruct IHHR as ((m & h & ->) & HF & HM).
    destruct (Heartbeat_config now at_ sig h m q0) as [h' ->]. split; [by eexists _, _|done].
  - by apply quiet_enqueue_inv.
  - by apply quiet_decide_inv.
  - by eapply quiet_take_inv.
  - destruct IHHR as (HC & HF & HM). split; [done|]. split; [done|]. intros inLog HL.
    rewrite foreign_restored by done. apply HM. intros r Hr. apply HL. rewrite leaves_of_app.
    by apply elem_of_app; left.
Qed.

(** ** The claims *)

(** The journal is the queue. When every write succeeded, nothing has expired and the log
    holds the leaves, a process that starts again at [now] from the journal has exactly the
    entries the queue had, less those that expire by then; only the fraction of a second of
    their ends is lost. *)
Theorem restore_refines_queue cellID salt leaves ok ak rk pt et mx al q0 t0 q t now inLog :
  NewQueue cellID salt leaves true ok ak rk pt et mx al = Some q0 →
  Forall (foreign (q_producer q0)) t0 → quiet_run q0 t0 q t → finds_log inLog t →
  q_entries (reopened now inLog q t) = prune_entries now (kept_entry <$> q_entries q).
Proof.
  intros Hq%NewQueue_fresh Ht0 HR HL. destruct (quiet_invariant _ _ _ _ Hq Ht0 HR) as ((m & h & ->) & _ & HM).
  unfold reopened. rewrite Restore_entries by done. rewrite <-(HM inLog HL). done.
Qed.

(** C23: an approval admits once. Whatever the order of the calls, with failed writes, other
    producers and restarts from the journal in between, no two admissions are for the same
    request under the same ticket; and each admission is made before the end of an approval of
    that request and ticket, for this cell, that an arbiter signed. *)
Theorem approval_admits_once cellID salt leaves ok ak rk pt et mx al q0 t0 D A q t :
  NewQueue cellID salt leaves true ok ak rk pt et mx al = Some q0 →
  Forall (foreign (q_producer q0)) t0 → arb_run q0 t0 D A q t →
  NoDup (pair_of <$> A) ∧
  ∀ id ticket now, (id, ticket, now) ∈ A →
    ∃ pub sig expiry, pub ∈ q_keys q0 ∧ now < expiry ∧
      ed25519_verify pub (DecisionMessage (p_cellID (q_producer q0)) id ticket VerdictApprove expiry) sig = true.
Proof.
  intros Hq%NewQueue_fresh Ht0 HR. destruct (run_invariant _ _ _ _ _ _ Hq Ht0 HR) as (_ & _ & _ & HA & HN).
  split; [done|]. intros id ticket now Ha. destruct (HA _ Ha) as (_ & expiry & Hexp & pub & sig & ? & ?).
  exists pub, sig, expiry. done.
Qed.

(** The queue stays bounded. In every run, restarts included, it holds at most [max] entries,
    each with an identifier of 32 bytes, a ticket of 16 bytes and a subject of at most 255 bytes. *)
Theorem arbiter_queue_bounded cellID salt leaves ok ak rk pt et mx al q0 t0 D A q t :
  NewQueue cellID salt leaves true ok ak rk pt et mx al = Some q0 →
  Forall (foreign (q_producer q0)) t0 → arb_run q0 t0 D A q t →
  Z.of_nat (size (q_entries q)) ≤ q_max q0 ∧
  map_Forall (λ id e, fields_wf id (en_ticket e) (en_subject e) (en_by e)) (q_entries q).
Proof.
  intros Hq%NewQueue_fresh Ht0 HR. destruct (run_invariant _ _ _ _ _ _ Hq Ht0 HR) as (_ & [HF HS] & _).
  split; [done|]. intros id e He. by destruct (HF id e He).
Qed.

(** Who decides, and on what. [Decide] succeeds exactly on a request that waits and has not
    expired, for a verdict whose end is in bounds, with a signature over this cell, this request,
    its present ticket, the verdict and the end, by an arbiter, or for a refusal by a refuser; and
    when the leaf was written. The entry then carries that verdict, that end and that key. *)
Theorem arbiter_decides_exactly now id v expiry sig q t :
  (arb_Decide now id v expiry sig q t).1.1 = None ↔
    ∃ e kid, decision_valid q now id v expiry sig e kid ∧
      (arb_leaf q (act_of v) id (en_ticket e) (en_subject e) kid v expiry now t).1 = true ∧
      (arb_Decide now id v expiry sig q t).1.2 =
        set_entries (<[id := decided v expiry kid e]> (prune_entries now (q_entries q))) q.
Proof.
  destruct (arb_Decide_cases now id v expiry sig q t) as [(HN & _ & _ & HV)|(e & kid & b & t1 & HV & EL & ->)].
  - split; [done|]. intros (e & kid & Hv & _). by destruct (HV e kid).
  - destruct b; simpl.
    + split; [|done]. intros _. exists e, kid. by rewrite EL.
    + split; [done|]. intros (e' & kid' & HV' & HL & _).
      destruct HV as (_ & Hl & _ & _ & _ & HS), HV' as (_ & Hl' & _ & _ & _ & HS').
      rewrite Hl in Hl'. injection Hl' as <-. rewrite HS in HS'. injection HS' as <-. by rewrite EL in HL.
Qed.
End runs.
