(* ===== verification/Degradation.v ===== *)
(** The degraded modes of the translator: [src/translator/degradation.go].

    The controller starts degraded and is raised by a green probe. When it is down, a critical
    system goes through the mirror cell or not at all, a standard one to the human arbiter. The
    queue of the arbiter is an interface ([Arbitration]); [mirror] is [None] when no mirror is
    configured and otherwise its answer; [ts] is the reading of the clock for a leaf. *)
From S2P Require Import Prelude.
From S2P Require Import Leaf.
From S2P Require Import Effects.

Local Open Scope Z_scope.

Inductive dmode := ModeNormal | ModeMirrorFailover | ModeHumanEscalation | ModeDefaultDeny.
#[global] Instance dmode_eq_dec : EqDecision dmode.
Proof. solve_decision. Defined.

Inductive SystemClass := SystemStandard | SystemCritical.
#[global] Instance SystemClass_eq_dec : EqDecision SystemClass.
Proof. solve_decision. Defined.

Record System := mkSystem { sy_ID : string; sy_Class : SystemClass }.
Record Input := mkInput { in_JTI : bytes; in_Natural : bool; in_Payload : bytes }.

Inductive degraded_error := ErrDegradedMode | ErrDefaultDeny | ErrPendingArbitration.
#[global] Instance degraded_error_eq_dec : EqDecision degraded_error.
Proof. solve_decision. Defined.

Definition ReasonDown : string := "translator-down".
Definition ReasonNLRejected : string := "nl-rejected-degraded".
Definition ReasonDefaultDeny : string := "translator-default-deny".
Definition ReasonLeafWriteErr : string := "translator-leaf-write-failed".

(** The queue of the arbiter as the controller sees it: whether an arbiter is reachable at an
    instant, and the handing over of a request, which draws a ticket and fails with [false]. *)
Class Arbitration (Q : Type) := {
  reachable : Z → Q → bool;
  hand_over : Z → option bytes → string → bytes → Q → trace → bool * Q * trace;
}.

(** ** Records *)

Definition recordActionDown : byte := Byte.x01.
Definition recordActionRecovered : byte := Byte.x02.
Definition recordActionNLRejected : byte := Byte.x03.
Definition recordActionEscalated : byte := Byte.x04.
Definition recordActionDefaultDeny : byte := Byte.x05.

Definition recordDown (detail : string) : bytes :=
  let detail := take 512 (sb detail) in
  sb "TBTD1" ++ [recordActionDown] ++ be 2 (Z.of_nat (length detail)) ++ detail.
Definition recordRecovered : bytes := sb "TBTD1" ++ [recordActionRecovered].
Definition recordRequest (action : byte) (jti : bytes) (systemID : string) : bytes :=
  let systemID := take 255 (sb systemID) in
  sb "TBTD1" ++ [action] ++ jti ++ [z2b (Z.of_nat (length systemID))] ++ systemID.
Definition recordNLRejected : bytes → string → bytes := recordRequest recordActionNLRejected.
Definition recordEscalated : bytes → string → bytes := recordRequest recordActionEscalated.
Definition recordDefaultDeny : bytes → string → bytes := recordRequest recordActionDefaultDeny.

(** ** The controller *)

Record Controller := mkController {
  dc_producer : Producer; dc_onAlarm : bool; dc_arb : bool;
  dc_up : bool; dc_downSince : Z; dc_episode : bool }.

(** [NewController]: [None] is a configuration error; [now] dates the initial degradation. *)
Definition NewController (cellID : string) (salt : bytes) (leaves journal probe arb onAlarm : bool) (now : Z) :
    option Controller :=
  if bool_decide (cellID = "") then None
  else if (length salt <? 16)%nat then None
  else if negb leaves then None
  else if negb probe then None
  else Some (mkController (mkProducer cellID salt journal) onAlarm arb false now false).

Definition set_health (up : bool) (downSince : Z) (episode : bool) (c : Controller) : Controller :=
  mkController (dc_producer c) (dc_onAlarm c) (dc_arb c) up downSince episode.

Definition dc_State (c : Controller) : bool * Z := (dc_up c, dc_downSince c).

Section controller.
Context `{Crypto, Env}.

Definition alarmLocked (c : Controller) (reason : string) (t : trace) : trace := call_alarm (dc_onAlarm c) reason t.

Definition writeLeafLocked (c : Controller) (record : bytes) (ts : Z) (t : trace) : trace :=
  match appendLeaf (dc_producer c) KindTelemetry record (UnixNano ts) t with
  | (Some _, t1) => alarmLocked c ReasonLeafWriteErr t1
  | (None, t1) => t1
  end.

(** [CheckHealth]; [probe] is the error of the probe, if any. The result says whether it is green. *)
Definition CheckHealth (probe : option string) (now ts : Z) (c : Controller) (t : trace) :
    bool * Controller * trace :=
  match probe with
  | Some err =>
      if dc_up c || negb (dc_episode c) then
        let c1 := set_health false now true c in
        (false, c1, alarmLocked c1 ReasonDown (writeLeafLocked c1 (recordDown err) ts t))
      else (false, c, t)
  | None =>
      if negb (dc_up c) then
        let c1 := set_health true (dc_downSince c) false c in
        (true, c1, writeLeafLocked c1 recordRecovered ts t)
      else (true, c, t)
  end.

Section admission.
Context {Q : Type} `{!Arbitration Q}.

Definition ModeFor (c : Controller) (mirror : option bool) (now : Z) (q : Q) (sys : System) : dmode :=
  if dc_up c then ModeNormal
  else if bool_decide (sy_Class sys = SystemCritical) && bool_decide (mirror = Some true) then ModeMirrorFailover
  else if bool_decide (sy_Class sys = SystemStandard) && dc_arb c && reachable now q then ModeHumanEscalation
  else ModeDefaultDeny.

(** [Accept]; [now] is the reading of the queue for its presence, [now'] for the new entry. *)
Definition Accept_input (c : Controller) (mirror : option bool) (now now' ts : Z) (ticket : option bytes)
    (sys : System) (i : Input) (q : Q) (t : trace) : option degraded_error * Q * trace :=
  match ModeFor c mirror now q sys with
  | ModeNormal => (None, q, t)
  | mode =>
      if in_Natural i then
        (Some ErrDegradedMode, q,
         alarmLocked c ReasonNLRejected (writeLeafLocked c (recordNLRejected (in_JTI i) (sy_ID sys)) ts t))
      else
        let deny q t := (Some ErrDefaultDeny, q,
          alarmLocked c ReasonDefaultDeny (writeLeafLocked c (recordDefaultDeny (in_JTI i) (sy_ID sys)) ts t)) in
        match mode with
        | ModeMirrorFailover => (None, q, t)
        | ModeHumanEscalation =>
            match hand_over now' ticket (sy_ID sys) (in_Payload i) q t with
            | (false, q1, t1) => deny q1 t1
            | (true, q1, t1) =>
                (Some ErrPendingArbitration, q1,
                 writeLeafLocked c (recordEscalated (in_JTI i) (sy_ID sys)) ts t1)
            end
        | _ => deny q t
        end
  end.
End admission.

(** ** Effects *)

Lemma writeLeafLocked_trace c record ts t :
  ∃ d, writeLeafLocked c record ts t = t ++ d ∧
    ((leaves_of d = [leaf_for (dc_producer c) KindTelemetry record (UnixNano ts)] ∧ alarms_of d = []) ∨
     (leaves_of d = [] ∧ alarms_of d = if dc_onAlarm c then [ReasonLeafWriteErr] else [])).
Proof.
  unfold writeLeafLocked. destruct (appendLeaf_spec (dc_producer c) KindTelemetry record (UnixNano ts) t) as (d & E & W).
  destruct (appendLeaf _ _ _ _ t) as [[e|] t1]; simpl in *; subst t1; destruct W as (HL & HA & _).
  - unfold alarmLocked, call_alarm. destruct (dc_onAlarm c).
    + exists (d ++ [EvAlarm ReasonLeafWriteErr]). rewrite app_assoc, leaves_of_app, alarms_of_app, HL, HA. auto.
    + exists d. auto.
  - exists d. split; [done|]. left. split; [|done]. rewrite HL. by destruct (p_journal (dc_producer c)).
Qed.

(** The degradations a trace reports. *)
Definition downs_of (t : trace) : nat := length (filter (λ r, r = ReasonDown) (alarms_of t)).

Lemma downs_of_app t u : downs_of (t ++ u) = (downs_of t + downs_of u)%nat.
Proof. unfold downs_of. by rewrite alarms_of_app, filter_app, length_app. Qed.

Lemma downs_of_down : downs_of [EvAlarm ReasonDown] = 1%nat.
Proof. done. Qed.

Lemma writeLeafLocked_downs c record ts t : downs_of (writeLeafLocked c record ts t) = downs_of t.
Proof.
  destruct (writeLeafLocked_trace c record ts t) as (d & -> & HD). rewrite downs_of_app. unfold downs_of.
  destruct HD as [[_ ->]|[_ ->]]; [simpl; lia|]. destruct (dc_onAlarm c); simpl; lia.
Qed.

(** ** Episodes *)

(** The probes of a supervision loop, each with its two readings of the clock. *)
Fixpoint check_all (ps : list (option string * Z * Z)) (c : Controller) (t : trace) : Controller * trace :=
  match ps with
  | [] => (c, t)
  | (probe, now, ts) :: ps' => let '(_, c1, t1) := CheckHealth probe now ts c t in check_all ps' c1 t1
  end.

(** The maximal runs of failed probes; [down] says whether one is open. *)
Fixpoint episodes (down : bool) (ps : list (option string * Z * Z)) : nat :=
  match ps with
  | [] => 0
  | (Some _, _, _) :: ps' => (if down then 0 else 1) + episodes true ps'
  | (None, _, _) :: ps' => episodes false ps'
  end.

(** The controller is either up or in no episode yet, or in one. *)
Definition episode_wf (c : Controller) : Prop := dc_up c = true → dc_episode c = false.

Lemma check_all_downs ps c t :
  dc_onAlarm c = true → episode_wf c →
  let '(c1, t1) := check_all ps c t in
  downs_of t1 = (downs_of t + episodes (dc_episode c) ps)%nat ∧
  dc_up c1 = match last ps with Some (probe, _, _) => bool_decide (probe = None) | None => dc_up c end.
Proof.
  revert c t. induction ps as [|[[probe now] ts] ps IH]; intros c t HA HW; [simpl; split; [lia|done]|].
  rewrite last_cons. cbn [check_all]. unfold CheckHealth. destruct probe as [err|].
  - destruct (dc_up c) eqn:Eu; [rewrite (HW Eu)|destruct (dc_episode c) eqn:Ee]; cbn [orb negb].
    2: { specialize (IH c t HA HW). destruct (check_all ps c t) as [c1 t1]. rewrite Ee in IH.
         destruct IH as [-> Hu]. split; [done|]. rewrite Hu, Eu. by destruct (last ps) as [[[]]|]. }
    all: set (c0 := set_health false now true c); set (t0 := alarmLocked c0 ReasonDown _);
      specialize (IH c0 t0 HA); destruct (check_all ps c0 t0) as [c1 t1]; destruct IH as [-> ->]; [done|];
      (split; [|by destruct (last ps) as [[[]]|]]); unfold t0, alarmLocked, call_alarm; simpl; rewrite HA,
      downs_of_app, writeLeafLocked_downs, downs_of_down; simpl; lia.
  - destruct (dc_up c) eqn:Eu; cbn [negb].
    + specialize (IH c t HA HW). destruct (check_all ps c t) as [c1 t1]. rewrite (HW Eu) in *.
      destruct IH as [-> Hu]. split; [done|]. rewrite Hu, Eu. by destruct (last ps) as [[[]]|].
    + set (c0 := set_health true (dc_downSince c) false c). set (t0 := writeLeafLocked c0 _ _ _).
      specialize (IH c0 t0 HA). destruct (check_all ps c0 t0) as [c1 t1]. destruct IH as [-> ->]; [done|].
      split; [|by destruct (last ps) as [[[]]|]]. unfold t0. by rewrite writeLeafLocked_downs.
Qed.

(** ** Admissions *)

Lemma degraded_cases `{!Arbitration Q} c mirror now now' ts ticket sys i (q : Q) t :
  let r := (Accept_input c mirror now now' ts ticket sys i q t).1.1 in
  (r = None ↔ dc_up c = true ∨ (in_Natural i = false ∧ sy_Class sys = SystemCritical ∧ mirror = Some true)) ∧
  (r = Some ErrPendingArbitration ↔
     dc_up c = false ∧ in_Natural i = false ∧ sy_Class sys = SystemStandard ∧ dc_arb c = true ∧
     reachable now q = true ∧ (hand_over now' ticket (sy_ID sys) (in_Payload i) q t).1.1 = true).
Proof.
  unfold Accept_input, ModeFor. destruct sys as [sid []], (dc_up c), mirror as [[]|], (dc_arb c), (reachable now q),
    (in_Natural i); simpl; try naive_solver;
    destruct (hand_over now' ticket sid (in_Payload i) q t) as [[[] q1] t1]; simpl; naive_solver.
Qed.

(** ** The claims *)

(** Who is admitted when. [Accept] admits exactly when the translator is up, or for a
    structured request of a critical system when the mirror is available. It says that a request
    waits for the arbiter exactly when a structured request of a standard system was handed over
    while an arbiter was reachable; everything else is refused. *)
Theorem degraded_admission `{!Arbitration Q} c mirror now now' ts ticket sys i (q : Q) t :
  let r := (Accept_input c mirror now now' ts ticket sys i q t).1.1 in
  (r = None ↔ dc_up c = true ∨ (in_Natural i = false ∧ sy_Class sys = SystemCritical ∧ mirror = Some true)) ∧
  (r = Some ErrPendingArbitration ↔
     dc_up c = false ∧ in_Natural i = false ∧ sy_Class sys = SystemStandard ∧ dc_arb c = true ∧
     reachable now q = true ∧ (hand_over now' ticket (sy_ID sys) (in_Payload i) q t).1.1 = true).
Proof. apply degraded_cases. Qed.

(** One alarm per episode. Over any sequence of probes, with an alarm callback, the
    controller reports exactly as many degradations as there are maximal runs of failed probes,
    whatever the journal and the sink do, the degradation of the start included; and it is up
    exactly when the last probe was green. *)
Theorem degradation_episodes cellID salt leaves journal probe arb now c ps :
  NewController cellID salt leaves journal probe arb true now = Some c →
  let '(c1, t1) := check_all ps c [] in
  downs_of t1 = episodes false ps ∧
  dc_up c1 = match last ps with Some (p, _, _) => bool_decide (p = None) | None => false end.
Proof.
  unfold NewController. intros E. repeat (case_match; [discriminate E|]). injection E as <-.
  match goal with |- context [check_all ps ?c0 []] => pose proof (check_all_downs ps c0 [] eq_refl) as HC end.
  destruct (check_all _ _ _) as [c1 t1]. by apply HC.
Qed.
End controller.
