(* ===== verification/Guard.v ===== *)
(** The guard in front of the broker: [src/broker/cmd/brokerd/translator_guard.go] composes the
    controller of the degraded modes (Degradation.v) with the queue of the arbiter (Arbiter.v),
    which implements the interface the controller asks for.

    [up] is the state of the controller read before [Take] and [c] the controller that [Accept]
    finds: a probe may run in between. Each reading of the clock is a parameter. *)
From S2P Require Import Prelude.
From S2P Require Import Leaf.
From S2P Require Import Effects.
From S2P Require Import Token.
From S2P Require Import PlanContract.
From S2P Require Import Arbiter.
From S2P Require Import ArbiterRuns.
From S2P Require Import Degradation.

Local Open Scope Z_scope.

(** The queue of the arbiter is the arbitration of the controller. *)
#[global] Instance queue_arbitration `{Crypto, Env} : Arbitration Queue := {
  reachable := Reachable;
  hand_over now ticket subject payload q t :=
    let '(e, q1, t1) := arb_Enqueue now ticket subject payload q t in (bool_decide (e = None), q1, t1);
}.

Record controllerGate := mkControllerGate { cg_critical : option (string → bool); cg_arb : bool }.

Inductive guard_error :=
  | GuardDraw | GuardArbiter (e : arbiter_error) | ErrArbitrationRefused
  | PendingArbitrationError (id : bytes) | GuardDegraded (e : degraded_error).

(** The readings of one call. *)
Record readings := mkReadings { rd_take : Z; rd_reach : Z; rd_queue : Z; rd_leaf : Z }.

Definition class_of (g : controllerGate) (subject : string) : SystemClass :=
  match cg_critical g with
  | Some critical => if critical subject then SystemCritical else SystemStandard
  | None => SystemStandard
  end.

Section guard.
Context `{Crypto, !CryptoLaws, Env}.

(** The end of [Admit]: the decision of the controller. *)
Definition admit_degraded (g : controllerGate) (c : Controller) (mirror : option bool) (rd : readings)
    (ticket : option bytes) (jti : bytes) (subject : string) (natural : bool) (intent : bytes) (q : Queue) (t : trace) :
    option guard_error * Queue * trace :=
  let '(e, q1, t1) := Accept_input c mirror (rd_reach rd) (rd_queue rd) (rd_leaf rd) ticket
                        (mkSystem subject (class_of g subject)) (mkInput jti natural intent) q t in
  (match e with
   | None => None
   | Some ErrPendingArbitration => Some (PendingArbitrationError (IntentID subject intent))
   | Some e => Some (GuardDegraded e)
   end, q1, t1).

Definition consults (g : controllerGate) (up natural : bool) (subject : string) : bool :=
  cg_arb g && bool_decide (class_of g subject = SystemStandard) && negb natural && negb up.

(** [Admit]; [jti] and [ticket] are the random draws. *)
Definition Admit (g : controllerGate) (up : bool) (c : Controller) (mirror : option bool) (rd : readings)
    (ticket jti : option bytes) (subject : string) (natural : bool) (intent : bytes) (q : Queue) (t : trace) :
    option guard_error * Queue * trace :=
  match jti with
  | None => (Some GuardDraw, q, t)
  | Some jti =>
      if consults g up natural subject then
        match arb_Take (rd_take rd) subject intent q t with
        | (_, _, Some e, q1, t1) => (Some (GuardArbiter e), q1, t1)
        | (OutcomeApproved, _, None, q1, t1) => (None, q1, t1)
        | (OutcomeRefused, _, None, q1, t1) => (Some ErrArbitrationRefused, q1, t1)
        | (OutcomePending, id, None, q1, t1) => (Some (PendingArbitrationError id), q1, t1)
        | (OutcomeNone, _, None, q1, t1) =>
            admit_degraded g c mirror rd ticket jti subject natural intent q1 t1
        end
      else admit_degraded g c mirror rd ticket jti subject natural intent q t
  end.

(** ** A call of the guard in the life of the queue *)

(** The writes of the other producers do not concern the queue. *)
Lemma appendLeaf_foreign p p' kind record ts t :
  take 5 record ≠ sb "TBAR2" →
  ∃ d, (appendLeaf p' kind record ts t).2 = t ++ d ∧ Forall (foreign p) d.
Proof.
  intros HR. assert (∀ l s, foreign p (EvJournal l s record)) as HF.
  { intros l s. simpl. unfold concerns. cbn [sl_Record]. rewrite (bool_decide_eq_false_2 _ HR).
    by rewrite andb_false_r. }
  unfold appendLeaf, AppendLeaf, AppendSealed, Put, sink_Append.
  repeat case_match; simplify_eq/=; rewrite <-?app_assoc;
    first [exists []; rewrite app_nil_r; split; [reflexivity|apply Forall_nil_2]
          |eexists; split; [reflexivity|repeat apply Forall_cons_2; try apply Forall_nil_2; try apply HF; exact I]].
Qed.

Lemma writeLeafLocked_foreign p c record ts t :
  take 5 record ≠ sb "TBAR2" →
  ∃ d, writeLeafLocked c record ts t = t ++ d ∧ Forall (foreign p) d.
Proof.
  intros HR. destruct (appendLeaf_foreign p (dc_producer c) KindTelemetry record (UnixNano ts) t HR) as (d & E & HF).
  unfold writeLeafLocked, alarmLocked, call_alarm. destruct (appendLeaf _ _ _ _ t) as [[e|] t1]; simpl in E; subst t1;
    [|by exists d]. destruct (dc_onAlarm c); [|by exists d].
  exists (d ++ [EvAlarm ReasonLeafWriteErr]). split; [by rewrite app_assoc|]. apply Forall_app. split; [done|by repeat constructor].
Qed.

Section call.
Context (q0 : Queue) (t0 : trace).

Lemma run_leaf D A q t c record ts :
  take 5 record ≠ sb "TBAR2" → arb_run q0 t0 D A q t → arb_run q0 t0 D A q (writeLeafLocked c record ts t).
Proof.
  intros HR Hrun. destruct (writeLeafLocked_foreign (q_producer q0) c record ts t HR) as (d & -> & HF).
  by apply run_foreign.
Qed.

Lemma run_alarm D A q t c r : arb_run q0 t0 D A q t → arb_run q0 t0 D A q (alarmLocked c r t).
Proof.
  intros Hrun. unfold alarmLocked, call_alarm. destruct (dc_onAlarm c); [|done].
  apply run_foreign; [done|]. by repeat constructor.
Qed.

Definition ticket_fresh (D : list (bytes * bytes)) (ticket : option bytes) : Prop :=
  ∀ tk, ticket = Some tk → length tk = 16%nat ∧ tk ∉ D.*2.

Lemma run_hand_over D A q t now ticket subject payload :
  arb_run q0 t0 D A q t → in_i64 now → ticket_fresh D ticket →
  let r := hand_over now ticket subject payload q t in ∃ D', arb_run q0 t0 D' A r.1.2 r.2.
Proof.
  intros Hrun Hn Ht. simpl. destruct ticket as [tk|].
  - destruct (Ht tk eq_refl) as [HL HF].
    pose proof (run_enqueue q0 t0 D A q t now tk subject payload Hrun Hn HL HF) as HE.
    destruct (arb_Enqueue now (Some tk) subject payload q t) as [[e q1] t1]. eauto.
  - pose proof (run_no_ticket q0 t0 D A q t now subject payload Hrun) as HE.
    destruct (arb_Enqueue now None subject payload q t) as [[e q1] t1]. eauto.
Qed.

Lemma run_Accept D A q t c mirror now now' ts ticket sys i :
  arb_run q0 t0 D A q t → in_i64 now' → ticket_fresh D ticket →
  let r := Accept_input c mirror now now' ts ticket sys i q t in ∃ D', arb_run q0 t0 D' A r.1.2 r.2.
Proof.
  intros Hrun Hn Ht. cbv zeta. unfold Accept_input.
  pose proof (run_hand_over D A q t now' ticket (sy_ID sys) (in_Payload i) Hrun Hn Ht) as (D' & HH).
  destruct (hand_over now' ticket (sy_ID sys) (in_Payload i) q t) as [[b q1] t1].
  destruct (ModeFor _ _ _ _ _), (in_Natural i); try destruct b; simpl in *;
    eauto 6 using run_alarm, run_leaf.
  all: eexists; try apply run_alarm; apply run_leaf; [|done]; done.
Qed.

Lemma run_Admit D A q t g up c mirror rd ticket jti subject natural intent :
  arb_run q0 t0 D A q t → in_i64 (rd_queue rd) → ticket_fresh D ticket →
  let r := Admit g up c mirror rd ticket jti subject natural intent q t in
  ∃ D' A', arb_run q0 t0 D' (A' ++ A) r.1.2 r.2 ∧
    (r.1.1 = None → dc_up c = false → class_of g subject = SystemStandard →
     ∃ ticket, A' = [(IntentID subject intent, ticket, rd_take rd)]).
Proof.
  intros Hrun Hn Ht. cbv zeta.
  assert (∀ A0 q1 t1, arb_run q0 t0 D (A0 ++ A) q1 t1 → ∀ j,
    let r := admit_degraded g c mirror rd ticket j subject natural intent q1 t1 in
    ∃ D' A', arb_run q0 t0 D' (A' ++ A) r.1.2 r.2 ∧
      (r.1.1 = None → dc_up c = false → class_of g subject = SystemStandard →
       ∃ ticket, A' = [(IntentID subject intent, ticket, rd_take rd)])) as HD.
  { intros A0 q1 t1 HR1 j. cbv zeta. unfold admit_degraded.
    pose proof (run_Accept D (A0 ++ A) q1 t1 c mirror (rd_reach rd) (rd_queue rd) (rd_leaf rd) ticket
      (mkSystem subject (class_of g subject)) (mkInput j natural intent) HR1 Hn Ht) as (D' & HA).
    pose proof (degraded_cases c mirror (rd_reach rd) (rd_queue rd) (rd_leaf rd) ticket
      (mkSystem subject (class_of g subject)) (mkInput j natural intent) q1 t1) as HC.
    destruct (Accept_input _ _ _ _ _ _ _ _ _ _) as [[e q2] t2]. exists D', A0. split; [done|].
    intros He Hu Hs. simpl in *. destruct e as [[]|]; try done. exfalso.
    destruct (proj1 (proj1 HC) eq_refl) as [?|(_ & ? & _)]; congruence. }
  unfold Admit. destruct jti as [j|]; [|by exists D, []].
  destruct (consults g up natural subject) eqn:EC; [|by apply (HD [])].
  destruct (arb_Take (rd_take rd) subject intent q t) as [[[[out id] err] q1] t1] eqn:ET.
  pose proof (run_take q0 t0 _ _ _ _ _ _ _ _ _ _ _ _ Hrun ET) as HR.
  destruct (arb_Take_cases _ _ _ _ _ _ _ _ _ _ ET) as [-> HC].
  destruct err as [e|], out; try (by eexists D, _; split; [exact HR|]); [by eapply HD|].
  exists D, (admission_of (rd_take rd) q OutcomeApproved (IntentID subject intent)). split; [done|].
  intros _ _ _. destruct HC as [(? & _)|(e & out' & b & Hl & _)]; [done|].
  exists (en_ticket e). unfold admission_of. by rewrite Hl.
Qed.
End call.

(** ** The claims *)

(** A degraded admission is a signature. Whatever happened before to the queue, restarts
    included, when the guard admits a standard subject while the translator is down, an arbiter
    of this cell has signed the approval of this very request under a ticket of the queue, the
    approval has not ended, and no earlier admission was made for that request and ticket. *)
Theorem degraded_admission_signed cellID salt leaves ok ak rk pt et mx al q0 t0 D A q t
    g up c mirror rd ticket jti subject natural intent :
  NewQueue cellID salt leaves true ok ak rk pt et mx al = Some q0 →
  Forall (foreign (q_producer q0)) t0 → arb_run q0 t0 D A q t →
  in_i64 (rd_queue rd) → ticket_fresh D ticket →
  (Admit g up c mirror rd ticket jti subject natural intent q t).1.1 = None →
  dc_up c = false → class_of g subject = SystemStandard →
  ∃ tk pub sig expiry, pub ∈ q_keys q0 ∧ rd_take rd < expiry ∧
    ed25519_verify pub (DecisionMessage (p_cellID (q_producer q0)) (IntentID subject intent) tk VerdictApprove expiry)
      sig = true ∧
    ((IntentID subject intent, tk) ∉ pair_of <$> A).
Proof.
  intros Hq%NewQueue_fresh Ht0 Hrun Hn Ht HN Hup Hcl.
  destruct (run_Admit q0 t0 D A q t g up c mirror rd ticket jti subject natural intent Hrun Hn Ht)
    as (D' & A' & HR & HA). destruct (HA HN Hup Hcl) as [tk ->].
  destruct (run_invariant _ _ _ _ _ _ Hq Ht0 HR) as (_ & _ & _ & HI & HND).
  destruct (HI (IntentID subject intent, tk, rd_take rd)) as (_ & expiry & Hexp & pub & sig & Hp & Hv); [left|].
  exists tk, pub, sig, expiry. split_and!; auto. by apply NoDup_cons in HND as [? _].
Qed.
End guard.
