(* ===== verification/Alert.v ===== *)
(** The alerts of the supervision: [src/supervision/alert.go].

    The canonical record of an alert, its strict inverse, and the write that makes an alert a
    leaf before anything else. [WriteAlert] takes the salt it draws ([None] when the draw
    fails). *)
From S2P Require Import Prelude.
From S2P Require Import Leaf.
From S2P Require Import Effects.

Definition alertMagic : string := "TBPS1".
Definition alertVersion : byte := Byte.x01.

Definition AlertEventChainFault : byte := Byte.x01.
Definition AlertEventAnchorStale : byte := Byte.x02.
Definition AlertEventManifestFault : byte := Byte.x03.
Definition AlertEventFailoverTrigger : byte := Byte.x04.
Definition AlertEventFailoverRefused : byte := Byte.x05.
Definition AlertEventOPARestart : byte := Byte.x06.
Definition AlertEventOPARestartRefused : byte := Byte.x07.

Definition alert_events : list byte :=
  [AlertEventChainFault; AlertEventAnchorStale; AlertEventManifestFault; AlertEventFailoverTrigger;
   AlertEventFailoverRefused; AlertEventOPARestart; AlertEventOPARestartRefused].
Definition validAlertEvent (e : byte) : bool := bool_decide (e ∈ alert_events).

Definition AlertVerdictAlarm : byte := Byte.x00.
Definition AlertVerdictNotice : byte := Byte.x01.
Definition validAlertVerdict (v : byte) : bool :=
  bool_decide (v = AlertVerdictAlarm) || bool_decide (v = AlertVerdictNotice).

Definition maxAlertReasonLen : nat := 255.
Definition maxAlertCellIDLen : nat := 255.

Record AlertRecord := mkAlertRecord {
  al_Event : byte; al_CellID : string; al_DetailHash : bytes; al_Verdict : byte; al_Reason : string }.

Definition MarshalAlertRecord (r : AlertRecord) : option bytes :=
  if negb (validAlertEvent (al_Event r)) then None
  else if negb (validAlertVerdict (al_Verdict r)) then None
  else if (slen (al_CellID r) =? 0) || (maxAlertCellIDLen <? slen (al_CellID r)) then None
  else if (slen (al_Reason r) =? 0) || (maxAlertReasonLen <? slen (al_Reason r)) then None
  else Some (sb alertMagic ++ [alertVersion; al_Event r; z2b (Z.of_nat (slen (al_CellID r)))]
             ++ sb (al_CellID r) ++ al_DetailHash r
             ++ [al_Verdict r; z2b (Z.of_nat (slen (al_Reason r)))] ++ sb (al_Reason r)).

Definition ParseAlertRecord (data : bytes) : option AlertRecord :=
  if length data <? 5 + 1 then None
  else if bool_decide (take 5 data ≠ sb alertMagic) then None
  else if bool_decide (data !!! 5 ≠ alertVersion) then None
  else
    let rest := drop 6 data in
    if length rest <? 1 + 1 then None
    else if negb (validAlertEvent (rest !!! 0)) then None
    else
      let idLen := Z.to_nat (b2z (rest !!! 1)) in
      if idLen =? 0 then None
      else if length rest <? 2 + idLen + 32 + 1 + 1 then None
      else
        let off := 2 + idLen + 32 in
        if negb (validAlertVerdict (rest !!! off)) then None
        else
          let reasonLen := Z.to_nat (b2z (rest !!! (off + 1))) in
          if reasonLen =? 0 then None
          else if negb (length rest =? off + 2 + reasonLen) then None
          else Some (mkAlertRecord (rest !!! 0) (bs (take idLen (drop 2 rest)))
                       (take 32 (drop (2 + idLen) rest)) (rest !!! off) (bs (drop (off + 2) rest))).

Record Alert := mkAlert { a_Record : AlertRecord; a_Raw : bytes; a_Salt : bytes; a_Detail : bytes }.

(** [WriteAlert]: the alert when it is a leaf. *)
Definition WriteAlert `{Crypto, Env} (journal : bool) (logCellID : string) (now : Z) (salt : option bytes)
    (event : byte) (cellID : string) (verdict : byte) (reason : string) (detail : bytes) (t : trace) :
    option Alert * trace :=
  let rec := mkAlertRecord event cellID (sha256 detail) verdict reason in
  match MarshalAlertRecord rec with
  | None => (None, t)
  | Some raw =>
      match salt with
      | None => (None, t)
      | Some salt =>
          match appendLeaf (mkProducer logCellID salt journal) KindSupervision raw (UnixNano now) t with
          | (Some _, t1) => (None, t1)
          | (None, t1) => (Some (mkAlert rec raw salt detail), t1)
          end
      end
  end.

(** ** The record and its inverse *)

Lemma alert_layout (cell detail reason : bytes) (e l v rl : byte) :
  length detail = 32 → length cell = Z.to_nat (b2z l) → length reason = Z.to_nat (b2z rl) →
  validAlertEvent e = true → validAlertVerdict v = true → length cell ≠ 0 → length reason ≠ 0 →
  ParseAlertRecord (sb alertMagic ++ [alertVersion; e; l] ++ cell ++ detail ++ [v; rl] ++ reason) =
    Some (mkAlertRecord e (bs cell) detail v (bs reason)).
Proof.
  intros HD HC HR He Hv Hc0 Hr0. unfold ParseAlertRecord.
  change (take 5 (sb alertMagic ++ ?x)) with (sb alertMagic).
  set (rest := [e; l] ++ cell ++ detail ++ [v; rl] ++ reason).
  change (drop 6 (sb alertMagic ++ [alertVersion; e; l] ++ cell ++ detail ++ [v; rl] ++ reason)) with rest.
  assert (length rest = 2 + length cell + 32 + 2 + length reason) as HL.
  { unfold rest. autorewrite with tbp_len. simpl. lia. }
  rewrite (proj2 (Nat.ltb_ge _ _)) by (simpl; lia).
  rewrite bool_decide_eq_false_2 by (by intros []).
  rewrite bool_decide_eq_false_2 by (by intros []).
  rewrite HL, (proj2 (Nat.ltb_ge _ _)) by lia.
  change (rest !!! 0) with e. change (rest !!! 1) with l. rewrite He. cbn [negb]. rewrite <-HC.
  destruct (Nat.eqb_spec (length cell) 0); [done|].
  rewrite (proj2 (Nat.ltb_ge _ _)) by lia.
  assert (rest = ([e; l] ++ cell) ++ detail ++ [v; rl] ++ reason) as E2 by (unfold rest; by rewrite <-!app_assoc).
  assert (rest = ([e; l] ++ cell ++ detail) ++ [v] ++ [rl] ++ reason) as E3 by (unfold rest; by rewrite <-!app_assoc).
  assert (rest = ([e; l] ++ cell ++ detail ++ [v]) ++ [rl] ++ reason) as E4 by (unfold rest; by rewrite <-!app_assoc).
  assert (rest = ([e; l] ++ cell ++ detail ++ [v; rl]) ++ reason) as E5 by (unfold rest; by rewrite <-!app_assoc).
  assert (rest !!! (2 + length cell + 32) = v) as ->
    by (rewrite E3; apply lookup_total_app_exact; autorewrite with tbp_len; simpl; lia).
  assert (rest !!! (2 + length cell + 32 + 1) = rl) as ->
    by (rewrite E4; apply lookup_total_app_exact; autorewrite with tbp_len; simpl; lia).
  rewrite Hv. cbn [negb]. rewrite <-HR. destruct (Nat.eqb_spec (length reason) 0); [done|].
  rewrite Nat.eqb_refl. cbn [negb].
  assert (take 32 (drop (2 + length cell) rest) = detail) as ->
    by (rewrite E2, drop_app_exact by (autorewrite with tbp_len; simpl; lia); by apply take_app_exact).
  assert (drop (2 + length cell + 32 + 2) rest = reason) as ->
    by (rewrite E5; apply drop_app_exact; autorewrite with tbp_len; simpl; lia).
  assert (take (length cell) (drop 2 rest) = cell) as -> by (by apply take_app_exact). done.
Qed.

Lemma byte_length b n : Z.to_nat (b2z b) = n → z2b (Z.of_nat n) = b ∧ n ≤ 255.
Proof. intros <-. pose proof (b2z_range b). rewrite Z2Nat.id by lia. rewrite z2b_b2z. split; [done|lia]. Qed.

Lemma length_byte n : n ≤ 255 → Z.to_nat (b2z (z2b (Z.of_nat n))) = n.
Proof. intros Hn. rewrite b2z_z2b, Z.mod_small by lia. by rewrite Nat2Z.id. Qed.

Lemma marshal_spec r d :
  MarshalAlertRecord r = Some d ↔
    validAlertEvent (al_Event r) = true ∧ validAlertVerdict (al_Verdict r) = true ∧
    0 < slen (al_CellID r) ≤ 255 ∧ 0 < slen (al_Reason r) ≤ 255 ∧
    d = sb alertMagic ++ [alertVersion; al_Event r; z2b (Z.of_nat (slen (al_CellID r)))]
        ++ sb (al_CellID r) ++ al_DetailHash r
        ++ [al_Verdict r; z2b (Z.of_nat (slen (al_Reason r)))] ++ sb (al_Reason r).
Proof.
  unfold MarshalAlertRecord, maxAlertCellIDLen, maxAlertReasonLen.
  destruct (validAlertEvent _), (validAlertVerdict _); cbn [negb]; try (split; [done|intros (? & ? & _); done]).
  destruct (Nat.eqb_spec (slen (al_CellID r)) 0); cbn [orb]; [split; [done|lia]|].
  destruct (Nat.ltb_spec 255 (slen (al_CellID r))); [split; [done|lia]|].
  destruct (Nat.eqb_spec (slen (al_Reason r)) 0); cbn [orb]; [split; [done|lia]|].
  destruct (Nat.ltb_spec 255 (slen (al_Reason r))); [split; [done|lia]|].
  split; [intros [= <-]|intros (_ & _ & _ & _ & ->)]; [|done]. split_and!; auto; lia.
Qed.

(** What [ParseAlertRecord] accepts has the shape of a record. *)
Lemma parse_shape data r :
  ParseAlertRecord data = Some r →
  ∃ cell detail reason e l v rl,
    data = sb alertMagic ++ [alertVersion; e; l] ++ cell ++ detail ++ [v; rl] ++ reason ∧
    length detail = 32 ∧ length cell = Z.to_nat (b2z l) ∧ length reason = Z.to_nat (b2z rl) ∧
    validAlertEvent e = true ∧ validAlertVerdict v = true ∧ length cell ≠ 0 ∧ length reason ≠ 0 ∧
    r = mkAlertRecord e (bs cell) detail v (bs reason).
Proof.
  unfold ParseAlertRecord. destruct (Nat.ltb_spec (length data) (5 + 1)) as [|HL]; [done|].
  case_bool_decide as Hm; [done|]. case_bool_decide as Hv; [done|].
  assert (data = sb alertMagic ++ [alertVersion] ++ drop 6 data) as Hd.
  { rewrite <-(take_drop 5 data) at 1. rewrite Hm. f_equal. rewrite <-Hv.
    by rewrite (drop_S _ (data !!! 5) 5) by (apply list_lookup_lookup_total_lt; lia). }
  revert Hd. generalize (drop 6 data). intros rest Hd.
  destruct rest as [|e [|l tl]]; [done..|]. cbn [length].
  rewrite (proj2 (Nat.ltb_ge (S (S (length tl))) (1 + 1))) by lia.
  change ((e :: l :: tl) !!! 0) with e. change ((e :: l :: tl) !!! 1) with l.
  destruct (validAlertEvent e) eqn:He; [cbn [negb]|done].
  set (n := Z.to_nat (b2z l)). destruct (Nat.eqb_spec n 0) as [|Hn]; [done|].
  destruct (Nat.ltb_spec (S (S (length tl))) (2 + n + 32 + 1 + 1)) as [|HT]; [done|].
  set (cell := take n tl). set (tl1 := drop n tl). set (detail := take 32 tl1).
  assert (length cell = n) as Hc by (unfold cell; rewrite length_take; lia).
  assert (length detail = 32) as HD by (unfold detail, tl1; rewrite length_take, length_drop; lia).
  destruct (drop 32 tl1) as [|v [|rl reason]] eqn:E1.
  1,2: apply (f_equal length) in E1; unfold tl1 in E1; rewrite !length_drop in E1; simpl in E1; lia.
  assert (tl = cell ++ detail ++ v :: rl :: reason) as Htl.
  { rewrite <-E1. unfold detail. rewrite take_drop. unfold tl1, cell. by rewrite take_drop. }
  assert (e :: l :: tl = ([e; l] ++ cell ++ detail) ++ [v] ++ [rl] ++ reason) as S1
    by (rewrite Htl; by rewrite <-!app_assoc).
  assert (e :: l :: tl = ([e; l] ++ cell ++ detail ++ [v]) ++ [rl] ++ reason) as S2
    by (rewrite Htl; by rewrite <-!app_assoc).
  assert (e :: l :: tl = ([e; l] ++ cell ++ detail ++ [v; rl]) ++ reason) as S3
    by (rewrite Htl; by rewrite <-!app_assoc).
  assert ((e :: l :: tl) !!! (2 + n + 32) = v) as ->
    by (rewrite S1; apply lookup_total_app_exact; autorewrite with tbp_len; simpl; lia).
  assert ((e :: l :: tl) !!! (2 + n + 32 + 1) = rl) as ->
    by (rewrite S2; apply lookup_total_app_exact; autorewrite with tbp_len; simpl; lia).
  destruct (validAlertVerdict v) eqn:Ev; [cbn [negb]|done].
  destruct (Nat.eqb_spec (Z.to_nat (b2z rl)) 0) as [|Hr]; [done|].
  destruct (Nat.eqb_spec (S (S (length tl))) (2 + n + 32 + 2 + Z.to_nat (b2z rl))) as [HR|]; [cbn [negb]|done].
  assert (drop (2 + n + 32 + 2) (e :: l :: tl) = reason) as ->
    by (rewrite S3; apply drop_app_exact; autorewrite with tbp_len; simpl; lia).
  assert (length reason = Z.to_nat (b2z rl)) as Hrl.
  { rewrite Htl in HR. autorewrite with tbp_len in HR. simpl in HR. lia. }
  intros [= <-]. exists cell, detail, reason, e, l, v, rl.
  split; [by rewrite Hd, Htl|]. split_and!; auto; lia.
Qed.

(** ** The claims *)

(** One record, one reading. [ParseAlertRecord] accepts exactly the bytes that
    [MarshalAlertRecord] produces, and returns the record they were made from: the two directions
    admit the same set. *)
Theorem alert_record_symmetric data r :
  ParseAlertRecord data = Some r ↔ length (al_DetailHash r) = 32 ∧ MarshalAlertRecord r = Some data.
Proof.
  rewrite marshal_spec. split.
  - intros (cell & detail & reason & e & l & v & rl & -> & HD & HC & HR & He & Hv & Hc & Hr & ->)%parse_shape.
    cbn [al_Event al_CellID al_DetailHash al_Verdict al_Reason].
    rewrite <-!length_sb, !sb_bs. symmetry in HC, HR. apply byte_length in HC as [HC1 HC2], HR as [HR1 HR2].
    rewrite HC1, HR1. split_and!; auto; lia.
  - intros (HD & He & Hv & Hc & Hr & ->). rewrite alert_layout; rewrite ?length_sb; try done; try lia.
    + rewrite !bs_sb. by destruct r.
    + by rewrite length_byte by lia.
    + by rewrite length_byte by lia.
Qed.
