(* ===== verification/Watcher.v ===== *)
(** The verifying reader of a chain: [src/supervision/watcher.go].

    A tick asks the client of the log for the new checkpoint, then reads the new leaves twice, as
    hashes of the tree and as entries, and compares. The client and the hash of a leaf are
    third-party code: [LogClient] is the hash and the width of a bundle, [log_read] what the
    client answers during one tick. *)
From S2P Require Import Prelude.
From S2P Require Import Leaf.

Local Open Scope Z_scope.

Class LogClient := { EntryBundleWidth : Z; HashLeaf : bytes → bytes }.

(** [ErrChainDivergence], [ErrChainRewind], [ErrChainFetchFault]; [FaultIndex] is the run-time
    panic of an index past the hashes. *)
Inductive chain_fault := FaultDivergence | FaultRewind | FaultFetch | FaultIndex.
#[global] Instance chain_fault_eq_dec : EqDecision chain_fault.
Proof. solve_decision. Defined.

Record ChainWatcher := mkWatcher { wt_cellID : string; wt_size : Z; wt_fault : option chain_fault }.

(** [tracker.Update] with the size of the checkpoint it reached. *)
Inductive update_result := UpdateTo (size : Z) | UpdateInconsistent | UpdateFailed.

Record log_read := mkLogRead {
  lr_update : update_result;
  lr_hashes : option (list bytes);      (* FetchLeafHashes *)
  lr_bundles : Z → option (list bytes); (* GetEntryBundle *)
}.

Section watcher.
Context `{LogClient}.

(** The loop over the bundles [i], [i+1], …: [n] of them. *)
Fixpoint read_bundles (bundles : Z → option (list bytes)) (i : Z) (n : nat) : option (list bytes) :=
  match n with
  | O => Some []
  | S n' =>
      match bundles i with
      | None => None
      | Some es => match read_bundles bundles (i + 1) n' with None => None | Some r => Some (es ++ r) end
      end
  end.

(** The comparison of the entries with the hashes. *)
Fixpoint verify_entries (raw hashes : list bytes) : chain_fault + list Leaf :=
  match raw with
  | [] => inr []
  | entry :: raw' =>
      match hashes with
      | [] => inl FaultIndex
      | h :: hashes' =>
          if bool_decide (HashLeaf entry ≠ h) then inl FaultDivergence
          else match UnmarshalLeaf entry with
          | inl _ => inl FaultDivergence
          | inr leaf =>
              match verify_entries raw' hashes' with inl f => inl f | inr ls => inr (leaf :: ls) end
          end
      end
  end.

Definition fetchAndVerifyLeaves (r : log_read) (from to : Z) : chain_fault + list Leaf :=
  match lr_hashes r with
  | None => inl FaultDivergence
  | Some hashes =>
      let first := from / EntryBundleWidth in
      let stop := (to - 1) / EntryBundleWidth in
      match read_bundles (lr_bundles r) first (Z.to_nat (stop - first + 1)) with
      | None => inl FaultDivergence
      | Some raw =>
          let off := from mod EntryBundleWidth in
          if Z.of_nat (length raw) <? off + (to - from) then inl FaultDivergence
          else verify_entries (take (Z.to_nat (to - from)) (drop (Z.to_nat off) raw)) hashes
      end
  end.

(** [NewChainWatcher], on a log whose checkpoint verifies ([size] is that of the checkpoint); an
    error is [inl]. *)
Definition NewChainWatcher (cellID : string) (verifier : bool) (checkpoint : option Z) (r : log_read)
    (bootstrapFrom : Z) : option chain_fault + (list Leaf * ChainWatcher) :=
  if bool_decide (cellID = "") then inl None
  else if negb verifier then inl None
  else match checkpoint with
  | None => inl None
  | Some size =>
      let w := mkWatcher cellID size None in
      if size <=? bootstrapFrom then inr ([], w)
      else match fetchAndVerifyLeaves r bootstrapFrom size with
           | inl f => inl (Some f)
           | inr leaves => inr (leaves, w)
           end
  end.

Definition tick (r : log_read) (w : ChainWatcher) : chain_fault + (list Leaf * ChainWatcher) :=
  match lr_update r with
  | UpdateInconsistent => inl FaultDivergence
  | UpdateFailed => inl FaultFetch
  | UpdateTo newSize =>
      if newSize <? wt_size w then inl FaultRewind
      else if newSize =? wt_size w then inr ([], w)
      else match fetchAndVerifyLeaves r (wt_size w) newSize with
           | inl f => inl f
           | inr leaves => inr (leaves, mkWatcher (wt_cellID w) newSize (wt_fault w))
           end
  end.

(** [cw_Tick]: a proved divergence locks the watcher, a failed read does not. *)
Definition cw_Tick (r : log_read) (w : ChainWatcher) : (chain_fault + list Leaf) * ChainWatcher :=
  match wt_fault w with
  | Some f => (inl f, w)
  | None =>
      match tick r w with
      | inl f =>
          if bool_decide (f = FaultDivergence) || bool_decide (f = FaultRewind)
          then (inl f, mkWatcher (wt_cellID w) (wt_size w) (Some f)) else (inl f, w)
      | inr (leaves, w1) => (inr leaves, w1)
      end
  end.

(** ** What a tick has verified *)

Lemma read_bundles_spec bundles i n raw :
  read_bundles bundles i n = Some raw →
  ∃ bs, length bs = n ∧ raw = concat bs ∧ ∀ k, (k < n)%nat → bundles (i + Z.of_nat k) = bs !! k.
Proof.
  revert i raw. induction n as [|n IH]; intros i raw; simpl; [intros [= <-]; exists []; split_and!; done || lia|].
  destruct (bundles i) as [es|] eqn:E; [|done].
  destruct (read_bundles bundles (i + 1) n) as [r|] eqn:ER; [|done]. intros [= <-].
  destruct (IH _ _ ER) as (bs & HL & -> & HB). exists (es :: bs). split_and!; [by rewrite <-HL|done|].
  intros [|k] Hk; simpl; [by rewrite Z.add_0_r|]. rewrite <-HB by lia. f_equal. lia.
Qed.

Lemma verify_entries_spec raw hashes ls :
  verify_entries raw hashes = inr ls ↔
    (length raw ≤ length hashes)%nat ∧ length ls = length raw ∧
    ∀ j entry, raw !! j = Some entry →
      hashes !! j = Some (HashLeaf entry) ∧ ∃ leaf, ls !! j = Some leaf ∧ UnmarshalLeaf entry = inr leaf.
Proof.
  revert hashes ls. induction raw as [|entry raw IH]; intros hashes ls; simpl.
  { split; [intros [= <-]; split_and!; [lia|done|done]|]. intros (_ & HL & _). by destruct ls. }
  destruct hashes as [|h hashes]; [split; [done|intros (HL & _); simpl in HL; lia]|].
  case_bool_decide as Hh.
  { split; [done|]. intros (_ & _ & HA). destruct (HA 0%nat entry eq_refl) as [[= E] _]. congruence. }
  destruct (UnmarshalLeaf entry) as [|leaf] eqn:EU.
  { split; [done|]. intros (_ & _ & HA). destruct (HA 0%nat entry eq_refl) as (_ & lf & _ & ?). congruence. }
  assert (∀ ls', (length (entry :: raw) ≤ length (h :: hashes))%nat ∧ length (leaf :: ls') = length (entry :: raw) ∧
    (∀ j x, (entry :: raw) !! j = Some x → (h :: hashes) !! j = Some (HashLeaf x) ∧
       ∃ l, (leaf :: ls') !! j = Some l ∧ UnmarshalLeaf x = inr l) ↔ verify_entries raw hashes = inr ls') as HS.
  { intros ls'. rewrite IH. simpl. split.
    - intros (H1 & H2 & H3). split_and!; [lia..|]. intros j x Hx. by apply (H3 (S j) x).
    - intros (H1 & H2 & H3). split_and!; [lia..|]. intros [|j] x; simpl; [|apply H3].
      intros [= <-]. split; [by rewrite Hh|eauto]. }
  destruct (verify_entries raw hashes) as [f|ls1] eqn:EV; split.
  - done.
  - intros (H1 & H2 & H3). destruct ls as [|l ls]; [done|].
    destruct (H3 0%nat entry eq_refl) as (_ & l' & [= <-] & HU). rewrite EU in HU. injection HU as <-.
    by assert (inl f = inr ls) as ? by (apply HS; auto).
  - intros [= <-]. by apply HS.
  - intros (H1 & H2 & H3). destruct ls as [|l ls]; [done|].
    destruct (H3 0%nat entry eq_refl) as (_ & l' & [= <-] & HU). rewrite EU in HU. injection HU as <-.
    assert (inr ls1 = inr ls) as [= ->] by (apply HS; auto). done.
Qed.

Lemma fetch_spec r from to ls :
  0 < EntryBundleWidth → from ≤ to → fetchAndVerifyLeaves r from to = inr ls →
  Z.of_nat (length ls) = to - from ∧
  ∃ hashes raw, lr_hashes r = Some hashes ∧
    read_bundles (lr_bundles r) (from / EntryBundleWidth)
      (Z.to_nat ((to - 1) / EntryBundleWidth - from / EntryBundleWidth + 1)) = Some raw ∧
    ∀ j leaf, ls !! j = Some leaf →
      ∃ entry, raw !! (Z.to_nat (from mod EntryBundleWidth) + j)%nat = Some entry ∧
        hashes !! j = Some (HashLeaf entry) ∧ UnmarshalLeaf entry = inr leaf.
Proof.
  intros HW Hft. unfold fetchAndVerifyLeaves. destruct (lr_hashes r) as [hashes|]; [|done].
  destruct (read_bundles _ _ _) as [raw|]; [|done].
  destruct (Z.ltb_spec (Z.of_nat (length raw)) (from mod EntryBundleWidth + (to - from))) as [|HL]; [done|].
  intros (_ & Hlen & HE)%verify_entries_spec.
  pose proof (Z.mod_pos_bound from EntryBundleWidth HW) as Hoff.
  assert (length (take (Z.to_nat (to - from)) (drop (Z.to_nat (from mod EntryBundleWidth)) raw)) = Z.to_nat (to - from))
    as HT by (rewrite length_take, length_drop; lia).
  rewrite HT in Hlen. split; [lia|]. exists hashes, raw. split_and!; [done..|].
  intros j leaf Hj. assert (j < Z.to_nat (to - from))%nat as Hlt by (rewrite <-Hlen; by eapply lookup_lt_Some).
  destruct (lookup_lt_is_Some_2 (take (Z.to_nat (to - from)) (drop (Z.to_nat (from mod EntryBundleWidth)) raw)) j)
    as [entry He]; [by rewrite HT|].
  destruct (HE j entry He) as (Hh & l & Hl & HU). rewrite Hj in Hl. injection Hl as <-.
  exists entry. split_and!; auto. rewrite lookup_take_lt, lookup_drop in He by lia. done.
Qed.

Lemma Tick_locked r w f : wt_fault w = Some f → cw_Tick r w = (inl f, w).
Proof. unfold cw_Tick. by intros ->. Qed.

Lemma Tick_size r w : wt_size w ≤ wt_size (cw_Tick r w).2.
Proof.
  unfold cw_Tick, tick. destruct (wt_fault w); [done|]. destruct (lr_update r) as [n| |]; simpl; [|done..].
  destruct (Z.ltb_spec n (wt_size w)); [done|]. destruct (Z.eqb_spec n (wt_size w)); [done|].
  destruct (fetchAndVerifyLeaves _ _ _) as [f|ls]; simpl; [|lia]. by destruct (_ || _).
Qed.

Lemma Tick_faults r w f :
  (cw_Tick r w).1 = inl f → f = FaultDivergence ∨ f = FaultRewind →
  wt_size (cw_Tick r w).2 = wt_size w ∧ wt_fault (cw_Tick r w).2 = Some f.
Proof.
  unfold cw_Tick. destruct (wt_fault w) as [g|] eqn:Ef; [simpl; by intros [= <-]|].
  destruct (tick r w) as [g|[ls w1]]; [|done].
  destruct (_ || _) eqn:Eb; simpl; intros [= ->] Hf; [done|].
  apply orb_false_iff in Eb as [E1%bool_decide_eq_false E2%bool_decide_eq_false]. by destruct Hf.
Qed.

(** A sequence of ticks: their results and the last state. *)
Fixpoint ticks (rs : list log_read) (w : ChainWatcher) : list (chain_fault + list Leaf) * ChainWatcher :=
  match rs with
  | [] => ([], w)
  | r :: rs' => let '(x, w1) := cw_Tick r w in let '(xs, w2) := ticks rs' w1 in (x :: xs, w2)
  end.

Lemma ticks_locked rs w f :
  wt_fault w = Some f → ticks rs w = (replicate (length rs) (inl f), w).
Proof.
  intros Hf. induction rs as [|r rs IH]; simpl; [done|]. by rewrite (Tick_locked _ _ f), IH.
Qed.

(** ** The claims *)

(** What a tick returns was verified. When a tick succeeds, the chain has not moved and there
    is no leaf; or it has grown to the size of the new checkpoint, there is one leaf for each new
    position, and each is the decoding of the entry read at its position, whose hash is the one
    the tree holds there. *)
Theorem tick_verifies r w ls w' :
  0 < EntryBundleWidth → cw_Tick r w = (inr ls, w') →
  (w' = w ∧ ls = []) ∨
  (wt_size w < wt_size w' ∧ lr_update r = UpdateTo (wt_size w') ∧
   Z.of_nat (length ls) = wt_size w' - wt_size w ∧
   ∃ hashes raw, lr_hashes r = Some hashes ∧
     read_bundles (lr_bundles r) (wt_size w / EntryBundleWidth)
       (Z.to_nat ((wt_size w' - 1) / EntryBundleWidth - wt_size w / EntryBundleWidth + 1)) = Some raw ∧
     ∀ j leaf, ls !! j = Some leaf →
       ∃ entry, raw !! (Z.to_nat (wt_size w mod EntryBundleWidth) + j)%nat = Some entry ∧
         hashes !! j = Some (HashLeaf entry) ∧ UnmarshalLeaf entry = inr leaf).
Proof.
  intros HW. unfold cw_Tick, tick. destruct (wt_fault w); [done|]. destruct (lr_update r) as [n| |] eqn:EU; [|done..].
  destruct (Z.ltb_spec n (wt_size w)); [done|].
  destruct (Z.eqb_spec n (wt_size w)); [by intros [= <- <-]; left|].
  destruct (fetchAndVerifyLeaves _ _ _) as [f|l] eqn:EF; [by destruct (_ || _)|].
  intros [= -> <-]. right. simpl. split; [lia|]. split; [done|].
  apply (fetch_spec r (wt_size w) n ls HW); [lia|done].
Qed.

(** A chain never shrinks, and a proved divergence is never forgotten. Over any sequence of
    ticks the verified size does not decrease; and once a tick reports a divergence or a rewind,
    every later tick reports the same and the size stays. *)
Theorem divergence_is_final rs w :
  wt_size w ≤ wt_size (ticks rs w).2 ∧
  ∀ r rs1 rs2 f, rs = rs1 ++ r :: rs2 → (cw_Tick r (ticks rs1 w).2).1 = inl f →
    f = FaultDivergence ∨ f = FaultRewind →
    (ticks rs w).1 = (ticks rs1 w).1 ++ replicate (S (length rs2)) (inl f) ∧
    wt_size (ticks rs w).2 = wt_size (ticks rs1 w).2.
Proof.
  split.
  - revert w. induction rs as [|r rs IH]; intros w; simpl; [done|].
    pose proof (Tick_size r w) as HT. destruct (cw_Tick r w) as [x w1]. specialize (IH w1).
    destruct (ticks rs w1) as [xs w2]. simpl in *. lia.
  - intros r rs1 rs2 f -> Hx Hf. revert w Hx. induction rs1 as [|r1 rs1 IH]; intros w Hx; simpl.
    + destruct (Tick_faults r w f Hx Hf) as [HS HF]. simpl in Hx. destruct (cw_Tick r w) as [x w1]. simpl in *. subst x.
      rewrite (ticks_locked rs2 w1 f HF). done.
    + cbn [ticks] in Hx. destruct (cw_Tick r1 w) as [x w1]. destruct (ticks rs1 w1) as [xs w2] eqn:E1. simpl in Hx.
      specialize (IH w1). rewrite E1 in IH. simpl in IH. destruct (IH Hx) as [H1 H2].
      destruct (ticks (rs1 ++ r :: rs2) w1) as [ys w3]. simpl in *. by rewrite H1.
Qed.
End watcher.
