(* ===== verification/Supervision.v ===== *)
(** The monitor of the cells and the bounded failover: [src/supervision/monitor.go] and
    [src/supervision/failover.go].

    [CheckOnce] is one pass of the verifiers. What it meets outside is gathered in [pass_in]: the
    answers of the logs, the readings of the clock, the salts, the verdict on the manifests, the
    answer of the trigger, and the diagnostic texts, which only enter the hash of an alert. *)
From S2P Require Import Prelude.
From S2P Require Import Leaf.
From S2P Require Import Effects.
From S2P Require Import Controllers.
From S2P Require Import Alert.
From S2P Require Import Watcher.

Local Open Scope Z_scope.

Definition DefaultMaxAnchorLag : Z := 120 * second.
Definition DefaultMaxFailoverTriggers : Z := 2.
Definition failoverWindow : Z := hour.
Definition DefaultFallDelay : Z := 2 * DefaultMaxAnchorLag.

Record fallState := mkFall { fs_lastSize : Z; fs_lastProgress : Z; fs_handled : bool }.

Record Monitor := mkMonitor {
  mo_cellID : string; mo_journal : bool; mo_sink : bool; mo_maxLag : Z; mo_trigger : bool;
  mo_fallDelay : Z; mo_maxTriggers : Z; mo_cells : list string;
  mo_master : ChainWatcher; mo_watchers : gmap string ChainWatcher;
  mo_lastAnchor : gmap string Z; mo_triggerTimes : list Z; mo_falls : gmap string fallState }.

Definition set_chains (master : ChainWatcher) (watchers : gmap string ChainWatcher) (lastAnchor : gmap string Z)
    (m : Monitor) : Monitor :=
  mkMonitor (mo_cellID m) (mo_journal m) (mo_sink m) (mo_maxLag m) (mo_trigger m) (mo_fallDelay m)
    (mo_maxTriggers m) (mo_cells m) master watchers lastAnchor (mo_triggerTimes m) (mo_falls m).
Definition set_falls (triggerTimes : list Z) (falls : gmap string fallState) (m : Monitor) : Monitor :=
  mkMonitor (mo_cellID m) (mo_journal m) (mo_sink m) (mo_maxLag m) (mo_trigger m) (mo_fallDelay m)
    (mo_maxTriggers m) (mo_cells m) (mo_master m) (mo_watchers m) (mo_lastAnchor m) triggerTimes falls.

(** [observeAnchors]. *)
Definition observe_anchor (leaf : Leaf) (anchors : gmap string Z) : gmap string Z :=
  if bool_decide (Kind leaf ≠ KindAnchor) then anchors
  else match anchors !! CellID leaf with
       | Some prev => if prev <? Timestamp leaf then <[CellID leaf := Timestamp leaf]> anchors else anchors
       | None => <[CellID leaf := Timestamp leaf]> anchors
       end.
Definition observeAnchors (leaves : list Leaf) (anchors : gmap string Z) : gmap string Z :=
  foldl (λ a l, observe_anchor l a) anchors leaves.

(** The configuration of a cell, and what the opening of its chain found. *)
Record CellSpec := mkCellSpec {
  sp_CellID : string; sp_complete : bool; sp_open : option chain_fault + (list Leaf * ChainWatcher) }.

(** The loop of [NewMonitor] over the cells; [nows] are its readings of the clock. *)
Fixpoint open_cells (cells : list CellSpec) (nows : list Z) (m : Monitor) : option Monitor :=
  match cells with
  | [] => Some m
  | c :: cells' =>
      if negb (sp_complete c) then None
      else if bool_decide (is_Some (mo_watchers m !! sp_CellID c)) then None
      else match sp_open c with
           | inl _ => None
           | inr (_, w) =>
               let m1 := set_chains (mo_master m) (<[sp_CellID c := w]> (mo_watchers m)) (mo_lastAnchor m) m in
               open_cells cells' (tail nows)
                 (set_falls (mo_triggerTimes m1)
                    (<[sp_CellID c := mkFall (wt_size w) (default 0 (head nows)) false]> (mo_falls m1)) m1)
           end
  end.

(** [NewMonitor]: [None] is an error. *)
Definition NewMonitor (cellID : string) (log journal sink : bool) (cells : list CellSpec) (masterComplete : bool)
    (master : option chain_fault + (list Leaf * ChainWatcher)) (maxLag fallDelay maxTriggers : Z)
    (trigger : bool) (nows : list Z) : option Monitor :=
  if bool_decide (cellID = "") || (maxAlertCellIDLen <? slen cellID)%nat then None
  else if negb log then None
  else if (length cells =? 0)%nat then None
  else if negb masterComplete then None
  else if fallDelay <? 0 then None
  else if maxTriggers <? 0 then None
  else
    let maxLag := if maxLag <=? 0 then DefaultMaxAnchorLag else maxLag in
    let fallDelay := if fallDelay =? 0 then DefaultFallDelay else fallDelay in
    if fallDelay <=? maxLag then None
    else
      let maxTriggers := if maxTriggers =? 0 then DefaultMaxFailoverTriggers else maxTriggers in
      match master with
      | inl _ => None
      | inr (leaves, mw) =>
          open_cells cells nows
            (mkMonitor cellID journal sink maxLag trigger fallDelay maxTriggers (sp_CellID <$> cells)
               mw ∅ (observeAnchors leaves ∅) [] ∅)
      end.

(** ** One pass *)

(** What one alert meets: the reading of the clock and the draw of its salt. *)
Record alert_in := mkAlertIn { ai_now : Z; ai_salt : option bytes; ai_detail : bytes }.

Record cell_in := mkCellIn {
  ci_read : log_read; ci_chain : alert_in;
  ci_freshNow : Z; ci_fresh : alert_in;
  ci_manifestOk : bool; ci_manifest : alert_in;
  ci_fallNow : Z; ci_trigger : option string; ci_fall : alert_in }.

Record pass_in := mkPassIn { pi_read : log_read; pi_alert : alert_in; pi_cell : string → cell_in }.

(** The evidence of a fall. *)
Record FailoverEvidence := mkEvidence { fe_Size : Z; fe_LastAnchor : Z; fe_FallenFor : Z }.

Definition marshal_evidence (e : FailoverEvidence) : bytes :=
  be 8 (fe_Size e)
  ++ be 8 (if fe_LastAnchor e =? zero_time then 0 else UnixNano (fe_LastAnchor e))
  ++ be 8 (fe_FallenFor e).

Section monitor.
Context `{Crypto, Env, LogClient}.

(** [raise]: the leaf, then the notification. A fault of the sink does not count: the callers
    keep the alert; [None] is a fault of the leaf. *)
Definition raise (m : Monitor) (ai : alert_in) (cell : string) (event verdict : byte) (reason : string)
    (detail : bytes) (t : trace) : option Alert * trace :=
  match WriteAlert (mo_journal m) (mo_cellID m) (ai_now ai) (ai_salt ai) event cell verdict reason detail t with
  | (None, t1) => (None, t1)
  | (Some a, t1) => (Some a, call_alarm (mo_sink m) reason t1)
  end.

(** The closure of [CheckOnce] over [raise]: the alert to add to those of the pass. *)
Definition raise_kept (m : Monitor) (ai : alert_in) (cell : string) (event verdict : byte) (reason : string)
    (detail : bytes) (t : trace) : option (list Alert) * trace :=
  match raise m ai cell event verdict reason detail t with
  | (None, t1) => (None, t1)
  | (Some a, t1) => (Some [a], t1)
  end.

Definition checkAnchorFreshness (m : Monitor) (now : Z) (ai : alert_in) (cell : string) (t : trace) :
    option (list Alert) * trace :=
  let alarm reason := raise_kept m ai cell AlertEventAnchorStale AlertVerdictAlarm reason (ai_detail ai) t in
  match mo_lastAnchor m !! cell with
  | None => alarm "anchor-missing"
  | Some last => if mo_maxLag m <? Sub now last then alarm "anchor-stale" else (Some [], t)
  end.

Definition checkManifests (m : Monitor) (ok : bool) (ai : alert_in) (cell : string) (t : trace) :
    option (list Alert) * trace :=
  if ok then (Some [], t)
  else raise_kept m ai cell AlertEventManifestFault AlertVerdictAlarm "manifest-chain-fault" (ai_detail ai) t.

(** What [checkFall] concludes from the two signals. *)
Inductive fall_verdict := Progress | Anchored | NotYet | Handled | Fallen.
#[global] Instance fall_verdict_eq_dec : EqDecision fall_verdict.
Proof. solve_decision. Defined.

Definition judge_fall (m : Monitor) (now size : Z) (cell : string) (st : fallState) : fall_verdict :=
  if negb (size =? fs_lastSize st) then Progress
  else if match mo_lastAnchor m !! cell with Some last => Sub now last <=? mo_fallDelay m | None => false end
  then Anchored
  else if Sub now (fs_lastProgress st) <? mo_fallDelay m then NotYet
  else if fs_handled st then Handled
  else Fallen.

(** [kept]: the triggers of the last hour. *)
Definition kept_triggers (now : Z) (times : list Z) : list Z := filter (λ ts, now - failoverWindow < ts) times.

(** The act on a confirmed fall, the state already marked as handled. *)
Definition act_on_fall (m : Monitor) (now : Z) (trigger : option string) (ai : alert_in) (cell : string)
    (detail : bytes) (t : trace) : option (list Alert) * Monitor * trace :=
  let refuse m reason detail t :=
    let '(r, t1) := raise_kept m ai cell AlertEventFailoverRefused AlertVerdictAlarm reason detail t in (r, m, t1) in
  if negb (mo_trigger m) then refuse m "failover-no-trigger" detail t
  else
    let kept := kept_triggers now (mo_triggerTimes m) in
    let m1 := set_falls kept (mo_falls m) m in
    if mo_maxTriggers m <=? Z.of_nat (length kept) then refuse m1 "failover-budget-exhausted" detail t
    else match trigger with
    | Some err =>
        refuse m1 "failover-trigger-fault" (detail ++ [Byte.x0a] ++ sb "trigger: " ++ sb err)
          (t ++ [EvTrigger cell now false])
    | None =>
        let m2 := set_falls (kept ++ [now]) (mo_falls m) m in
        let '(r, t1) := raise_kept m2 ai cell AlertEventFailoverTrigger AlertVerdictNotice "failover-triggered" detail
                          (t ++ [EvTrigger cell now true]) in (r, m2, t1)
    end.

(** [checkFall]; a cell without a state or a watcher is the nil dereference that the constructor
    excludes. *)
Definition checkFall (m : Monitor) (now : Z) (trigger : option string) (ai : alert_in) (cell : string) (t : trace) :
    option (list Alert) * Monitor * trace :=
  match mo_falls m !! cell, mo_watchers m !! cell with
  | Some st, Some w =>
      let size := wt_size w in
      let put st := set_falls (mo_triggerTimes m) (<[cell := st]> (mo_falls m)) m in
      match judge_fall m now size cell st with
      | Progress => (Some [], put (mkFall size now false), t)
      | Anchored => (Some [], put (mkFall (fs_lastSize st) (fs_lastProgress st) false), t)
      | NotYet | Handled => (Some [], m, t)
      | Fallen =>
          let last := default zero_time (mo_lastAnchor m !! cell) in
          act_on_fall (put (mkFall (fs_lastSize st) (fs_lastProgress st) true)) now trigger ai cell
            (marshal_evidence (mkEvidence size last (Sub now (fs_lastProgress st)))) t
      end
  | _, _ => (None, m, t)
  end.

(** The verifiers of one cell, in the order of [CheckOnce]. *)
Definition check_cell (m : Monitor) (ci : cell_in) (cell : string) (t : trace) :
    option (list Alert) * list Alert * Monitor * trace :=
  match mo_watchers m !! cell with
  | None => (None, [], m, t)
  | Some w =>
      let '(res, w1) := cw_Tick (ci_read ci) w in
      let m1 := set_chains (mo_master m) (<[cell := w1]> (mo_watchers m)) (mo_lastAnchor m) m in
      let '(a1, t1) :=
        match res with
        | inr _ => (Some [], t)
        | inl _ =>
            raise_kept m1 (ci_chain ci) cell AlertEventChainFault AlertVerdictAlarm "cell-chain-fault"
              (ai_detail (ci_chain ci)) t
        end in
      match a1 with
      | None => (None, [], m1, t1)
      | Some a1 =>
          match checkAnchorFreshness m1 (ci_freshNow ci) (ci_fresh ci) cell t1 with
          | (None, t2) => (None, a1, m1, t2)
          | (Some a2, t2) =>
              match checkManifests m1 (ci_manifestOk ci) (ci_manifest ci) cell t2 with
              | (None, t3) => (None, a1 ++ a2, m1, t3)
              | (Some a3, t3) =>
                  match checkFall m1 (ci_fallNow ci) (ci_trigger ci) (ci_fall ci) cell t3 with
                  | (None, m2, t4) => (None, a1 ++ a2 ++ a3, m2, t4)
                  | (Some a4, m2, t4) => (Some (a1 ++ a2 ++ a3 ++ a4), [], m2, t4)
                  end
              end
          end
      end
  end.

Fixpoint check_cells (m : Monitor) (inp : string → cell_in) (cells : list string) (alerts : list Alert) (t : trace) :
    bool * list Alert * Monitor * trace :=
  match cells with
  | [] => (true, alerts, m, t)
  | cell :: cells' =>
      match check_cell m (inp cell) cell t with
      | (None, part, m1, t1) => (false, alerts ++ part, m1, t1)
      | (Some new, _, m1, t1) => check_cells m1 inp cells' (alerts ++ new) t1
      end
  end.

(** [CheckOnce]: whether it ended without a fault of the monitor, and the alerts. *)
Definition CheckOnce (inp : pass_in) (m : Monitor) (t : trace) : bool * list Alert * Monitor * trace :=
  let '(res, mw) := cw_Tick (pi_read inp) (mo_master m) in
  let m1 := set_chains mw (mo_watchers m) (mo_lastAnchor m) m in
  match res with
  | inl _ =>
      match raise_kept m1 (pi_alert inp) (wt_cellID (mo_master m)) AlertEventChainFault AlertVerdictAlarm
              "master-chain-fault" (ai_detail (pi_alert inp)) t with
      | (None, t1) => (false, [], m1, t1)
      | (Some alerts, t1) => check_cells m1 (pi_cell inp) (mo_cells m) alerts t1
      end
  | inr leaves =>
      check_cells (set_chains mw (mo_watchers m) (observeAnchors leaves (mo_lastAnchor m)) m)
        (pi_cell inp) (mo_cells m) [] t
  end.
End monitor.

(** ** The view of the console *)

Record CellView := mkCellView {
  cv_CellID : string; cv_ChainSize : Z; cv_LastAnchor : Z; cv_AnchorLag : Z;
  cv_LastProgress : Z; cv_EpisodeHandled : bool }.
Record MonitorView := mkMonitorView {
  mv_Now : Z; mv_MaxAnchorLag : Z; mv_FallDelay : Z; mv_MaxTriggers : Z; mv_TriggersHour : Z;
  mv_Cells : list CellView }.

(** [View]; the maps hold every cell of the configuration. *)
Definition View (now : Z) (m : Monitor) : MonitorView :=
  mkMonitorView now (mo_maxLag m) (mo_fallDelay m) (mo_maxTriggers m)
    (Z.of_nat (length (kept_triggers now (mo_triggerTimes m))))
    (omap (λ cell,
       match mo_falls m !! cell, mo_watchers m !! cell with
       | Some fs, Some w =>
           Some (mkCellView cell (wt_size w)
                   (default zero_time (mo_lastAnchor m !! cell))
                   (match mo_lastAnchor m !! cell with Some last => Sub now last | None => -1 end)
                   (fs_lastProgress fs) (fs_handled fs))
       | _, _ => None
       end) (mo_cells m)).

(** ** The calls of the trigger *)

Definition triggers_of (t : trace) : list Z :=
  omap (λ e, match e with EvTrigger _ at_ true => Some at_ | _ => None end) t.
Definition trigger_calls (t : trace) : list (string * Z * bool) :=
  omap (λ e, match e with EvTrigger c at_ ok => Some (c, at_, ok) | _ => None end) t.

Lemma triggers_of_app t u : triggers_of (t ++ u) = triggers_of t ++ triggers_of u.
Proof. apply omap_app. Qed.
Lemma trigger_calls_app t u : trigger_calls (t ++ u) = trigger_calls t ++ trigger_calls u.
Proof. apply omap_app. Qed.

Section passes.
Context `{Crypto, Env, LogClient}.

Lemma appendLeaf_calls p kind record ts t :
  ∃ d, (appendLeaf p kind record ts t).2 = t ++ d ∧ trigger_calls d = [] ∧ triggers_of d = [] ∧
    ((appendLeaf p kind record ts t).1 = None → leaf_for p kind record ts ∈ leaves_of d).
Proof.
  unfold appendLeaf, AppendLeaf, AppendSealed, Put, sink_Append, leaf_for.
  repeat case_match; simplify_eq/=; rewrite <-?app_assoc;
    first [exists []; rewrite app_nil_r; split_and!; [reflexivity..|done]
          |eexists; split_and!; [reflexivity|reflexivity|reflexivity|try done; intros _; simpl; by left]].
Qed.

(** What an alert is and what it adds to the trace: no call of the trigger, and its leaf. *)
Definition alert_of (m : Monitor) (ai : alert_in) (cell : string) (event verdict : byte) (reason : string)
    (a : Alert) : Prop :=
  al_Event (a_Record a) = event ∧ al_CellID (a_Record a) = cell ∧ al_Verdict (a_Record a) = verdict ∧
  al_Reason (a_Record a) = reason ∧ MarshalAlertRecord (a_Record a) = Some (a_Raw a).

(** The leaf of an alert, in the log of the monitor. *)
Definition alert_leaf (m : Monitor) (now : Z) (a : Alert) : Leaf :=
  mkLeaf KindSupervision (mo_cellID m) (HashPayload (a_Salt a) (a_Raw a)) (UnixNano now).

Lemma raise_spec m ai cell event verdict reason detail t :
  let '(r, t1) := raise m ai cell event verdict reason detail t in
  ∃ d, t1 = t ++ d ∧ trigger_calls d = [] ∧ triggers_of d = [] ∧
    ∀ a, r = Some a → alert_of m ai cell event verdict reason a ∧ alert_leaf m (ai_now ai) a ∈ leaves_of d.
Proof.
  unfold raise, WriteAlert.
  destruct (MarshalAlertRecord _) as [raw|] eqn:EM; [|exists []; by rewrite app_nil_r].
  destruct (ai_salt ai) as [salt|]; [|exists []; by rewrite app_nil_r].
  destruct (appendLeaf_calls (mkProducer (mo_cellID m) salt (mo_journal m)) KindSupervision raw
    (UnixNano (ai_now ai)) t) as (d & E & HC & HT & HL).
  destruct (appendLeaf _ _ _ _ t) as [[e|] t1]; simpl in *; subst t1; [by exists d|].
  exists (if mo_sink m then d ++ [EvAlarm reason] else d). split_and!.
  - unfold call_alarm. destruct (mo_sink m); [by rewrite app_assoc|done].
  - destruct (mo_sink m); [by rewrite trigger_calls_app, HC|done].
  - destruct (mo_sink m); [by rewrite triggers_of_app, HT|done].
  - intros a [= <-]. split; [done|]. specialize (HL eq_refl). destruct (mo_sink m); [|done].
    rewrite leaves_of_app. apply elem_of_app. by left.
Qed.

(** ** The state after a verifier *)

Definition next_fall (now size : Z) (st : fallState) (v : fall_verdict) : fallState :=
  match v with
  | Progress => mkFall size now false
  | Anchored => mkFall (fs_lastSize st) (fs_lastProgress st) false
  | NotYet | Handled => st
  | Fallen => mkFall (fs_lastSize st) (fs_lastProgress st) true
  end.

(** An alert about a fall: triggered or refused. *)
Definition fall_alert (cell : string) (a : Alert) : bool :=
  bool_decide (al_CellID (a_Record a) = cell) &&
  (bool_decide (al_Event (a_Record a) = AlertEventFailoverTrigger)
   || bool_decide (al_Event (a_Record a) = AlertEventFailoverRefused)).
Definition acts (cell : string) (alerts : list Alert) : nat := length (filter (λ a, fall_alert cell a = true) alerts).

Lemma acts_app cell xs ys : acts cell (xs ++ ys) = (acts cell xs + acts cell ys)%nat.
Proof. unfold acts. by rewrite filter_app, length_app. Qed.

Lemma acts_one m ai cell event verdict reason a cell' :
  alert_of m ai cell event verdict reason a →
  acts cell' [a] = if bool_decide (cell = cell') && (bool_decide (event = AlertEventFailoverTrigger)
    || bool_decide (event = AlertEventFailoverRefused)) then 1%nat else 0%nat.
Proof.
  intros (He & Hc & _).
  assert (fall_alert cell' a = bool_decide (cell = cell') && (bool_decide (event = AlertEventFailoverTrigger)
    || bool_decide (event = AlertEventFailoverRefused))) as <- by (unfold fall_alert; by rewrite He, Hc).
  unfold acts. rewrite filter_cons. by destruct (fall_alert cell' a).
Qed.

Lemma act_on_fall_shape m now trigger ai cell detail t r m' t' :
  act_on_fall m now trigger ai cell detail t = (r, m', t') →
  (∃ times, m' = set_falls times (mo_falls m) m) ∧
  (∀ alerts cell', r = Some alerts → acts cell' alerts = if bool_decide (cell = cell') then 1%nat else 0%nat).
Proof.
  unfold act_on_fall. intros E.
  assert (∀ m1 ev v reason dt u, ev = AlertEventFailoverTrigger ∨ ev = AlertEventFailoverRefused →
    (∃ times, m1 = set_falls times (mo_falls m) m) →
    (let '(r, t1) := raise_kept m1 ai cell ev v reason dt u in (r, m1, t1)) = (r, m', t') →
    (∃ times, m' = set_falls times (mo_falls m) m) ∧
    (∀ alerts cell', r = Some alerts → acts cell' alerts = if bool_decide (cell = cell') then 1%nat else 0%nat)) as HR.
  { intros m1 ev v reason dt u Hev Hm ER.
    pose proof (raise_spec m1 ai cell ev v reason dt u) as HS. unfold raise_kept in ER.
    destruct (raise m1 ai cell ev v reason dt u) as [[a|] t1]; injection ER as <- <- <-; (split; [done|]); [|done].
    destruct HS as (d & _ & _ & _ & HA). intros alerts cell' [= <-].
    destruct (HA a eq_refl) as [Ha _]. rewrite (acts_one _ _ _ _ _ _ _ _ Ha).
    destruct Hev as [-> | ->]; simpl; by rewrite andb_true_r. }
  destruct (negb (mo_trigger m)).
  { eapply HR; [| |exact E]; auto. exists (mo_triggerTimes m). by destruct m. }
  destruct (_ <=? _); [by eapply HR; [| |exact E]; eauto|].
  destruct trigger; by eapply HR; [| |exact E]; eauto.
Qed.

Lemma checkFall_shape m now trigger ai cell t r m' t' st w :
  mo_falls m !! cell = Some st → mo_watchers m !! cell = Some w →
  checkFall m now trigger ai cell t = (r, m', t') →
  let v := judge_fall m now (wt_size w) cell st in
  (∃ times, m' = set_falls times (<[cell := next_fall now (wt_size w) st v]> (mo_falls m)) m) ∧
  (∀ alerts cell', r = Some alerts →
     acts cell' alerts = if bool_decide (cell = cell') && bool_decide (v = Fallen) then 1%nat else 0%nat).
Proof.
  intros Hf Hw E. unfold checkFall in E. rewrite Hf, Hw in E. cbv zeta.
  assert (m = set_falls (mo_triggerTimes m) (<[cell := st]> (mo_falls m)) m) as Hid
    by (rewrite insert_id by done; by destruct m).
  destruct (judge_fall m now (wt_size w) cell st); cbn [next_fall].
  5: { apply act_on_fall_shape in E as [[times ->] HA]. split; [by exists times|].
       intros alerts cell' Hr. rewrite (HA _ _ Hr). by rewrite andb_true_r. }
  all: injection E as <- <- <-; split; [eauto|]; intros alerts cell' [= <-]; simpl; by rewrite andb_false_r.
Qed.

(** The alarm of one verifier, with no act on a fall. *)
Lemma raise_quiet m ai cell event verdict reason detail t alerts t1 cell' :
  event ∉ [AlertEventFailoverTrigger; AlertEventFailoverRefused] →
  raise_kept m ai cell event verdict reason detail t = (Some alerts, t1) → acts cell' alerts = 0%nat.
Proof.
  unfold raise_kept. destruct (raise _ _ _ _ _ _ _ t) as [[a|] u] eqn:E; [|done]. intros Hev [= <- <-]. pose proof (raise_spec m ai cell event verdict reason detail t) as HS. rewrite E in HS.
  destruct HS as (d & _ & _ & _ & HA). destruct (HA a eq_refl) as [Ha _]. rewrite (acts_one _ _ _ _ _ _ _ _ Ha).
  rewrite not_elem_of_cons, list_elem_of_singleton in Hev. destruct Hev as [Hv1 Hv2].
  rewrite !(bool_decide_eq_false_2 (event = _)) by done. by rewrite andb_false_r.
Qed.

Definition ticked (m : Monitor) (cell : string) (w : ChainWatcher) : Monitor :=
  set_chains (mo_master m) (<[cell := w]> (mo_watchers m)) (mo_lastAnchor m) m.

Lemma check_cell_shape m ci cell t st w alerts part m' t' :
  mo_falls m !! cell = Some st → mo_watchers m !! cell = Some w →
  check_cell m ci cell t = (Some alerts, part, m', t') →
  let w1 := (cw_Tick (ci_read ci) w).2 in
  let v := judge_fall m (ci_fallNow ci) (wt_size w1) cell st in
  (∃ times, m' = set_falls times (<[cell := next_fall (ci_fallNow ci) (wt_size w1) st v]> (mo_falls m)) (ticked m cell w1)) ∧
  (∀ cell', acts cell' alerts = if bool_decide (cell = cell') && bool_decide (v = Fallen) then 1%nat else 0%nat).
Proof.
  intros Hf Hw. unfold check_cell. rewrite Hw. destruct (cw_Tick (ci_read ci) w) as [res w1]. simpl.
  fold (ticked m cell w1). intros E.
  match type of E with context [let '(_, _) := ?x in _] => destruct x as [a1 t1] eqn:E1 end.
  destruct a1 as [a1|]; [|done].
  assert (∀ c, acts c a1 = 0%nat) as Ha1.
  { intros c. destruct res; [|by injection E1 as <- <-]. eapply raise_quiet; [|exact E1]. set_solver. }
  destruct (checkAnchorFreshness _ _ _ _ _) as [[a2|] t2] eqn:E2; [|done].
  assert (∀ c, acts c a2 = 0%nat) as Ha2.
  { intros c. unfold checkAnchorFreshness in E2. destruct (mo_lastAnchor _ !! cell) as [last|]; [destruct (_ <? _)|];
      [eapply raise_quiet; [|exact E2]; set_solver|by injection E2 as <- <-|eapply raise_quiet; [|exact E2]; set_solver]. }
  destruct (checkManifests _ _ _ _ _) as [[a3|] t3] eqn:E3; [|done].
  assert (∀ c, acts c a3 = 0%nat) as Ha3.
  { intros c. unfold checkManifests in E3. destruct (ci_manifestOk ci); [by injection E3 as <- <-|].
    eapply raise_quiet; [|exact E3]. set_solver. }
  destruct (checkFall _ _ _ _ _ _) as [[[a4|] m2] t4] eqn:E4; [|done]. injection E as <- <- <- <-.
  destruct (checkFall_shape (ticked m cell w1) _ _ _ _ _ _ _ _ st w1 Hf (lookup_insert_eq _ _ _) E4) as [[times ->] HA].
  split; [by exists times|]. intros c. rewrite !acts_app, Ha1, Ha2, Ha3. simpl. by apply HA.
Qed.

(** Every cell of the configuration has its watcher and its state. *)
Definition monitor_wf (m : Monitor) : Prop :=
  NoDup (mo_cells m) ∧
  ∀ c, c ∈ mo_cells m → is_Some (mo_falls m !! c) ∧ is_Some (mo_watchers m !! c).

(** What the cells of a pass leave alone. *)
Definition same_bounds (m m' : Monitor) : Prop :=
  mo_lastAnchor m' = mo_lastAnchor m ∧ mo_fallDelay m' = mo_fallDelay m ∧ mo_cells m' = mo_cells m ∧
  mo_maxTriggers m' = mo_maxTriggers m.

Lemma check_cells_spec inp cells m alerts t alerts' m' t' :
  NoDup cells → (∀ c, c ∈ cells → is_Some (mo_falls m !! c) ∧ is_Some (mo_watchers m !! c)) →
  check_cells m inp cells alerts t = (true, alerts', m', t') →
  same_bounds m m' ∧
  (∀ c, c ∉ cells → mo_falls m' !! c = mo_falls m !! c ∧ mo_watchers m' !! c = mo_watchers m !! c ∧
     acts c alerts' = acts c alerts) ∧
  ∀ c st w, c ∈ cells → mo_falls m !! c = Some st → mo_watchers m !! c = Some w →
    let w1 := (cw_Tick (ci_read (inp c)) w).2 in
    let v := judge_fall m (ci_fallNow (inp c)) (wt_size w1) c st in
    mo_falls m' !! c = Some (next_fall (ci_fallNow (inp c)) (wt_size w1) st v) ∧ mo_watchers m' !! c = Some w1 ∧
    acts c alerts' = (acts c alerts + if bool_decide (v = Fallen) then 1 else 0)%nat.
Proof.
  revert m alerts t. induction cells as [|cell cells IH]; intros m alerts t Hnd Hwf.
  { intros [= <- <- <-]. split_and!; [done..|]. intros c st w ?%elem_of_nil. done. }
  apply NoDup_cons in Hnd as [Hnot Hnd].
  destruct (Hwf cell ltac:(left)) as [[st Hst] [w Hw]]. cbn [check_cells].
  destruct (check_cell m (inp cell) cell t) as [[[[new|] part] m1] t1] eqn:EC; [|done]. intros E.
  apply (check_cell_shape _ _ _ _ st w) in EC as [[times ->] HA]; [|done..].
  set (w1 := (cw_Tick (ci_read (inp cell)) w).2) in *.
  set (v := judge_fall m (ci_fallNow (inp cell)) (wt_size w1) cell st) in *.
  apply IH in E as ((B1 & B2 & B3 & B4) & HO & HI); [|done|].
  2: { intros c Hc. destruct (Hwf c ltac:(by right)) as [? ?]. simpl.
       destruct (decide (c = cell)) as [->|]; [by rewrite !lookup_insert_eq; eauto|].
       by rewrite !lookup_insert_ne by done. }
  split; [done|]. split.
  - intros c [Hne Hc]%not_elem_of_cons. destruct (HO c Hc) as (-> & -> & ->). simpl.
    rewrite !lookup_insert_ne by done. split_and!; [done..|]. rewrite acts_app, HA.
    rewrite bool_decide_eq_false_2 by done. simpl. lia.
  - intros c st' w' [->|Hc]%elem_of_cons Hf Hw'.
    + rewrite Hst in Hf. injection Hf as <-. rewrite Hw in Hw'. injection Hw' as <-.
      destruct (HO cell Hnot) as (-> & -> & ->). simpl. rewrite !lookup_insert_eq. split_and!; [done..|].
      rewrite acts_app, HA, bool_decide_eq_true_2 by done. done.
    + assert (c ≠ cell) as Hne by (intros ->; done).
      destruct (HI c st' w') as (HI1 & HI2 & HI3); [done|simpl; by rewrite lookup_insert_ne..|].
      split_and!; [exact HI1|exact HI2|]. cbv zeta. etrans; [exact HI3|]. rewrite acts_app, HA.
      rewrite bool_decide_eq_false_2 by done. simpl. f_equal. lia.
Qed.

(** ** Passes over a dead cell *)

(** Passes that end without a fault of the monitor, with their alerts. *)
Inductive passes : Monitor → trace → list pass_in → list Alert → Monitor → trace → Prop :=
  | passes_nil m t : passes m t [] [] m t
  | passes_cons m t inp inps alerts alerts' m1 t1 m2 t2 :
      CheckOnce inp m t = (true, alerts, m1, t1) → passes m1 t1 inps alerts' m2 t2 →
      passes m t (inp :: inps) (alerts ++ alerts') m2 t2.

(** The reading of [checkFall] for a cell. *)
Definition fall_reading (inp : pass_in) (cell : string) : Z := ci_fallNow (pi_cell inp cell).

(** During this pass the chain of the cell does not grow and the master chain brings no anchor of
    the cell, and the last anchor is older than the delay. *)
Definition lifeless (m : Monitor) (size : Z) (cell : string) (inp : pass_in) : Prop :=
  (∀ w, wt_size w = size → wt_size (cw_Tick (ci_read (pi_cell inp cell)) w).2 = size) ∧
  (∀ w leaves w', cw_Tick (pi_read inp) w = (inr leaves, w') →
     Forall (λ l, ¬ (Kind l = KindAnchor ∧ CellID l = cell)) leaves) ∧
  match mo_lastAnchor m !! cell with
  | Some last => mo_fallDelay m < Sub (fall_reading inp cell) last
  | None => True
  end.

Lemma observe_other cell leaves anchors :
  Forall (λ l, ¬ (Kind l = KindAnchor ∧ CellID l = cell)) leaves →
  observeAnchors leaves anchors !! cell = anchors !! cell.
Proof.
  intros HF. revert anchors. induction HF as [|l leaves Hl _ IH]; intros anchors; [done|].
  unfold observeAnchors in *. simpl. rewrite IH. unfold observe_anchor.
  case_bool_decide as Hk; [done|]. assert (CellID l ≠ cell) as Hc by auto.
  destruct (anchors !! CellID l) as [prev|]; [destruct (prev <? Timestamp l)|]; by rewrite ?lookup_insert_ne by done.
Qed.

Lemma CheckOnce_spec inp m t alerts m' t' cell st w :
  monitor_wf m → cell ∈ mo_cells m → mo_falls m !! cell = Some st → mo_watchers m !! cell = Some w →
  CheckOnce inp m t = (true, alerts, m', t') →
  ∃ anchors, anchors = mo_lastAnchor m' ∧
    (∀ c, (∀ x leaves y, cw_Tick (pi_read inp) x = (inr leaves, y) →
        Forall (λ l, ¬ (Kind l = KindAnchor ∧ CellID l = c)) leaves) → anchors !! c = mo_lastAnchor m !! c) ∧
    mo_fallDelay m' = mo_fallDelay m ∧ mo_cells m' = mo_cells m ∧ monitor_wf m' ∧
    let w1 := (cw_Tick (ci_read (pi_cell inp cell)) w).2 in
    let v := judge_fall (set_chains (mo_master m) (mo_watchers m) anchors m) (fall_reading inp cell) (wt_size w1) cell st in
    mo_falls m' !! cell = Some (next_fall (fall_reading inp cell) (wt_size w1) st v) ∧
    mo_watchers m' !! cell = Some w1 ∧ acts cell alerts = if bool_decide (v = Fallen) then 1%nat else 0%nat.
Proof.
  intros [Hnd Hwf] Hc Hf Hw. unfold CheckOnce. destruct (cw_Tick (pi_read inp) (mo_master m)) as [res mw] eqn:ET.
  assert (∀ anchors al t0, (∀ c, acts c al = 0%nat) →
    check_cells (set_chains mw (mo_watchers m) anchors m) (pi_cell inp) (mo_cells m) al t0 = (true, alerts, m', t') →
    anchors = mo_lastAnchor m' ∧ mo_fallDelay m' = mo_fallDelay m ∧ mo_cells m' = mo_cells m ∧ monitor_wf m' ∧
    let w1 := (cw_Tick (ci_read (pi_cell inp cell)) w).2 in
    let v := judge_fall (set_chains (mo_master m) (mo_watchers m) anchors m) (fall_reading inp cell) (wt_size w1) cell st in
    mo_falls m' !! cell = Some (next_fall (fall_reading inp cell) (wt_size w1) st v) ∧
    mo_watchers m' !! cell = Some w1 ∧ acts cell alerts = if bool_decide (v = Fallen) then 1%nat else 0%nat) as HC.
  { intros anchors al t0 Hal E. apply check_cells_spec in E as ((B1 & B2 & B3 & _) & _ & HI); [|done|exact Hwf].
    split; [done|]. split; [done|]. split; [done|]. split.
    - split; [by rewrite B3|]. intros c Hcm. rewrite B3 in Hcm. destruct (Hwf c Hcm) as [[st' Hs] [w' Hw']].
      destruct (HI c st' w' Hcm Hs Hw') as (-> & -> & _). eauto.
    - destruct (HI cell st w Hc Hf Hw) as (HI1 & HI2 & HI3). split_and!; [exact HI1|exact HI2|].
      etrans; [exact HI3|]. by rewrite Hal. }
  destruct res as [f|leaves]; intros E.
  - destruct (raise_kept _ _ _ _ _ _ _ _) as [[al|] t1] eqn:ER; [|done].
    apply HC in E; [|intros c; eapply raise_quiet; [|exact ER]; set_solver].
    exists (mo_lastAnchor m). destruct E as (E0 & E1 & E2 & E3 & E4). split_and!; auto; apply E4.
  - apply HC in E; [|done]. exists (observeAnchors leaves (mo_lastAnchor m)).
    destruct E as (E0 & E1 & E2 & E3 & E4). split_and!; auto; try apply E4.
    intros c Hl. apply observe_other. by eapply Hl.
Qed.

(** The judgement on a cell without a sign of life. *)
Definition overdue (delay progress : Z) (cell : string) (inp : pass_in) : Prop :=
  delay ≤ Sub (fall_reading inp cell) progress.
#[global] Instance overdue_dec delay progress cell inp : Decision (overdue delay progress cell inp).
Proof. unfold overdue. apply _. Defined.

Lemma judge_lifeless m m0 now size cell st :
  size = fs_lastSize st → mo_fallDelay m0 = mo_fallDelay m → mo_lastAnchor m0 !! cell = mo_lastAnchor m !! cell →
  match mo_lastAnchor m !! cell with Some last => mo_fallDelay m < Sub now last | None => True end →
  judge_fall m0 now size cell st =
    if decide (mo_fallDelay m ≤ Sub now (fs_lastProgress st)) then if fs_handled st then Handled else Fallen
    else NotYet.
Proof.
  intros -> Hd Ha Hs. unfold judge_fall. rewrite Z.eqb_refl, Hd, Ha. cbn [negb].
  assert (match mo_lastAnchor m !! cell with Some last => Sub now last <=? mo_fallDelay m | None => false end = false) as ->.
  { destruct (mo_lastAnchor m !! cell); [by apply Z.leb_gt|done]. }
  case_decide; [rewrite (proj2 (Z.ltb_ge _ _)) by done|rewrite (proj2 (Z.ltb_lt _ _)) by lia]; done.
Qed.

Lemma lifeless_same m m1 size cell inp :
  mo_fallDelay m1 = mo_fallDelay m → mo_lastAnchor m1 !! cell = mo_lastAnchor m !! cell →
  lifeless m size cell inp → lifeless m1 size cell inp.
Proof. intros Hd Ha. unfold lifeless. by rewrite Hd, Ha. Qed.

Lemma dead_cell_acts m t inps alerts m' t' cell :
  passes m t inps alerts m' t' → ∀ st w,
  monitor_wf m → cell ∈ mo_cells m → mo_falls m !! cell = Some st → mo_watchers m !! cell = Some w →
  wt_size w = fs_lastSize st → Forall (lifeless m (fs_lastSize st) cell) inps →
  acts cell alerts = if fs_handled st then 0%nat else
    if decide (Exists (overdue (mo_fallDelay m) (fs_lastProgress st) cell) inps) then 1%nat else 0%nat.
Proof.
  induction 1 as [m t|m t inp inps alerts alerts' m1 t1 m2 t2 HC HP IH]; intros st w Hwf Hin Hf Hw Hsize HL.
  { rewrite decide_False by (by intros ?%Exists_nil). by destruct (fs_handled st). }
  apply Forall_cons in HL as [HL HLs]. pose proof HL as (HG & HA & HS).
  destruct (CheckOnce_spec inp m t alerts m1 t1 cell st w Hwf Hin Hf Hw HC)
    as (anchors & -> & Hanch & Hd & Hcells & Hwf1 & HF & HW & Hacts). cbv zeta in HF, HW, Hacts.
  specialize (Hanch cell HA). rewrite (HG w Hsize) in HF, Hacts.
  rewrite (judge_lifeless m) in HF, Hacts by done.
  rewrite acts_app, Hacts.
  assert (∀ h, mo_falls m1 !! cell = Some (mkFall (fs_lastSize st) (fs_lastProgress st) h) →
    acts cell alerts' = if h then 0%nat else if decide (Exists (overdue (mo_fallDelay m) (fs_lastProgress st) cell) inps) then 1%nat else 0%nat) as HI.
  { intros h Hh. rewrite (IH _ _ Hwf1 ltac:(by rewrite Hcells) Hh HW).
    - cbn [fs_handled fs_lastProgress]. destruct h; [done|]. by rewrite Hd.
    - by rewrite (HG w Hsize).
    - cbn [fs_lastSize]. eapply Forall_impl; [exact HLs|]. intros i. by apply lifeless_same. }
  assert (mkFall (fs_lastSize st) (fs_lastProgress st) (fs_handled st) = st) as Hst by by destruct st.
  destruct (decide (mo_fallDelay m ≤ Sub (fall_reading inp cell) (fs_lastProgress st))) as [Ho|Ho].
  - destruct (fs_handled st) eqn:Eh; cbn [next_fall] in HF.
    + rewrite bool_decide_eq_false_2 by done. rewrite <-Hst in HF. by rewrite (HI _ HF).
    + rewrite bool_decide_eq_true_2 by done. rewrite (HI _ HF). rewrite decide_True; [done|]. by left.
  - rewrite bool_decide_eq_false_2 by done. cbn [next_fall] in HF. rewrite <-Hst in HF. rewrite (HI _ HF).
    destruct (fs_handled st); [done|]. simpl.
    destruct (decide (Exists (overdue (mo_fallDelay m) (fs_lastProgress st) cell) inps)) as [He|He].
    + rewrite decide_True; [done|]. by right.
    + rewrite decide_False; [done|]. intros [?|?]%Exists_cons; done.
Qed.

(** ** The budget of the failovers *)

Lemma checkFall_budget m now trigger ai cell t r m' t' last :
  checkFall m now trigger ai cell t = (r, m', t') → last ≤ now →
  budgeted (mo_maxTriggers m) last (triggers_of t) (mo_triggerTimes m) →
  budgeted (mo_maxTriggers m) now (triggers_of t') (mo_triggerTimes m') ∧ mo_maxTriggers m' = mo_maxTriggers m ∧
  mo_cells m' = mo_cells m.
Proof.
  intros E Hle HB.
  assert (budgeted (mo_maxTriggers m) now (triggers_of t) (mo_triggerTimes m)) as Hsame
    by (eapply budgeted_later; [exact HB|done|apply sublist_filter]).
  assert (budgeted (mo_maxTriggers m) now (triggers_of t) (recent now (mo_triggerTimes m))) as Hkept
    by (by eapply budgeted_later).
  unfold checkFall in E. destruct (mo_falls m !! cell) as [st|]; [|by injection E as <- <- <-].
  destruct (mo_watchers m !! cell) as [w|]; [|by injection E as <- <- <-].
  destruct (judge_fall _ _ _ _ _); try by injection E as <- <- <-.
  unfold act_on_fall in E. cbn [mo_trigger mo_maxTriggers mo_triggerTimes set_falls] in E.
  assert (∀ m1 ev v reason dt u, mo_maxTriggers m1 = mo_maxTriggers m → mo_cells m1 = mo_cells m →
    budgeted (mo_maxTriggers m) now (triggers_of u) (mo_triggerTimes m1) →
    (let '(r, t1) := raise_kept m1 ai cell ev v reason dt u in (r, m1, t1)) = (r, m', t') →
    budgeted (mo_maxTriggers m) now (triggers_of t') (mo_triggerTimes m') ∧ mo_maxTriggers m' = mo_maxTriggers m ∧
    mo_cells m' = mo_cells m) as HR.
  { intros m1 ev v reason dt u Hm Hcs HU ER. pose proof (raise_spec m1 ai cell ev v reason dt u) as HS.
    unfold raise_kept in ER. destruct (raise m1 ai cell ev v reason dt u) as [[a|] t1]; injection ER as <- <- <-;
      destruct HS as (d & -> & _ & HT & _); by rewrite triggers_of_app, HT, app_nil_r. }
  destruct (negb (mo_trigger m)); [by eapply HR; [..|exact E]|].
  change (kept_triggers now (mo_triggerTimes m)) with (recent now (mo_triggerTimes m)) in E.
  destruct (Z.leb_spec (mo_maxTriggers m) (Z.of_nat (length (recent now (mo_triggerTimes m))))) as [|Hlt];
    [by eapply HR; [..|exact E]|].
  destruct trigger as [err|]; eapply HR; try exact E; try done; rewrite triggers_of_app; simpl.
  - by rewrite app_nil_r.
  - by apply (budgeted_act _ last).
Qed.

Lemma raise_kept_calls m ai cell ev v reason dt t r t1 :
  raise_kept m ai cell ev v reason dt t = (r, t1) →
  ∃ d, t1 = t ++ d ∧ trigger_calls d = [] ∧ triggers_of d = [] ∧
    ∀ alerts, r = Some alerts →
      ∃ a, alerts = [a] ∧ alert_of m ai cell ev v reason a ∧ alert_leaf m (ai_now ai) a ∈ leaves_of d.
Proof.
  unfold raise_kept. pose proof (raise_spec m ai cell ev v reason dt t) as HS.
  destruct (raise _ _ _ _ _ _ _ t) as [[a|] u]; intros [= <- <-]; destruct HS as (d & -> & HC & HT & HA);
    exists d; split_and!; auto; [|done].
  intros alerts [= <-]. exists a. split; [done|]. by apply HA.
Qed.

(** The verifiers before the fall call no trigger. *)
Lemma checkAnchorFreshness_calls m now ai cell t r t1 :
  checkAnchorFreshness m now ai cell t = (r, t1) →
  ∃ d, t1 = t ++ d ∧ trigger_calls d = [] ∧ triggers_of d = [] ∧
    (mo_lastAnchor m !! cell = None ∨ (∃ last, mo_lastAnchor m !! cell = Some last ∧ mo_maxLag m < Sub now last) →
     ∀ alerts, r = Some alerts →
       ∃ a, al_Event (a_Record a) = AlertEventAnchorStale ∧ al_CellID (a_Record a) = cell ∧
         al_Verdict (a_Record a) = AlertVerdictAlarm ∧ alert_leaf m (ai_now ai) a ∈ leaves_of d).
Proof.
  unfold checkAnchorFreshness. intros E.
  assert (∀ reason, raise_kept m ai cell AlertEventAnchorStale AlertVerdictAlarm reason (ai_detail ai) t = (r, t1) →
    ∃ d, t1 = t ++ d ∧ trigger_calls d = [] ∧ triggers_of d = [] ∧
      ∀ alerts, r = Some alerts →
       ∃ a, al_Event (a_Record a) = AlertEventAnchorStale ∧ al_CellID (a_Record a) = cell ∧
         al_Verdict (a_Record a) = AlertVerdictAlarm ∧ alert_leaf m (ai_now ai) a ∈ leaves_of d) as HR.
  { intros reason (d & Hd & HC & HT & HA)%raise_kept_calls. exists d. split_and!; auto.
    intros alerts Hr. destruct (HA alerts Hr) as (a & _ & (? & ? & ? & _) & ?). by exists a. }
  destruct (mo_lastAnchor m !! cell) as [last|].
  - destruct (Z.ltb_spec (mo_maxLag m) (Sub now last)).
    + destruct (HR _ E) as (d & ? & ? & ? & ?). by exists d.
    + injection E as <- <-. exists []. rewrite app_nil_r. split_and!; [done..|].
      intros [|(x & [= <-] & ?)]; [done|lia].
  - destruct (HR _ E) as (d & ? & ? & ? & ?). by exists d.
Qed.

Lemma checkManifests_calls m ok ai cell t r t1 :
  checkManifests m ok ai cell t = (r, t1) → ∃ d, t1 = t ++ d ∧ trigger_calls d = [] ∧ triggers_of d = [].
Proof.
  unfold checkManifests. destruct ok; [intros [= <- <-]; exists []; by rewrite app_nil_r|].
  intros (d & ? & ? & ? & _)%raise_kept_calls. by exists d.
Qed.

Lemma tick_calls m ci cell (res : chain_fault + list Leaf) t r t1 :
  match res with
  | inr _ => (Some [], t)
  | inl _ => raise_kept m (ci_chain ci) cell AlertEventChainFault AlertVerdictAlarm "cell-chain-fault"
               (ai_detail (ci_chain ci)) t
  end = (r, t1) → ∃ d, t1 = t ++ d ∧ trigger_calls d = [] ∧ triggers_of d = [].
Proof.
  destruct res; [intros (d & ? & ? & ? & _)%raise_kept_calls; by exists d|].
  intros [= <- <-]. exists []. by rewrite app_nil_r.
Qed.

(** The verifiers of a cell up to the fall: what they write, and the pass that reaches it. *)
Lemma check_cell_before m ci cell t r part m' t' w :
  mo_watchers m !! cell = Some w → check_cell m ci cell t = (r, part, m', t') →
  let m1 := ticked m cell (cw_Tick (ci_read ci) w).2 in
  ∃ d, trigger_calls d = [] ∧ triggers_of d = [] ∧
    ((m' = m1 ∧ t' = t ++ d) ∨
     ((∃ r', checkFall m1 (ci_fallNow ci) (ci_trigger ci) (ci_fall ci) cell (t ++ d) = (r', m', t')) ∧
      (mo_lastAnchor m !! cell = None ∨
       (∃ last, mo_lastAnchor m !! cell = Some last ∧ mo_maxLag m < Sub (ci_freshNow ci) last) →
       ∃ a, al_Event (a_Record a) = AlertEventAnchorStale ∧ al_CellID (a_Record a) = cell ∧
         al_Verdict (a_Record a) = AlertVerdictAlarm ∧ alert_leaf m (ai_now (ci_fresh ci)) a ∈ leaves_of d))).
Proof.
  intros Hw. unfold check_cell. rewrite Hw. destruct (cw_Tick (ci_read ci) w) as [res w1]. cbv zeta. simpl.
  fold (ticked m cell w1).
  match goal with |- context [let '(_, _) := ?x in _] => destruct x as [a1 t1] eqn:E1 end.
  apply tick_calls in E1 as (d1 & -> & C1 & T1).
  destruct a1 as [a1|]; [|intros [= <- <- <- <-]; exists d1; auto].
  destruct (checkAnchorFreshness _ _ _ _ _) as [a2 t2] eqn:E2.
  apply checkAnchorFreshness_calls in E2 as (d2 & -> & C2 & T2 & HS).
  assert (trigger_calls (d1 ++ d2) = [] ∧ triggers_of (d1 ++ d2) = []) as [C12 T12]
    by (by rewrite trigger_calls_app, triggers_of_app, C1, C2, T1, T2).
  destruct a2 as [a2|]; [|intros [= <- <- <- <-]; exists (d1 ++ d2); rewrite app_assoc; auto].
  destruct (checkManifests _ _ _ _ _) as [a3 t3] eqn:E3.
  apply checkManifests_calls in E3 as (d3 & -> & C3 & T3).
  assert (trigger_calls ((d1 ++ d2) ++ d3) = [] ∧ triggers_of ((d1 ++ d2) ++ d3) = []) as [C13 T13]
    by (by rewrite trigger_calls_app, triggers_of_app, C12, C3, T12, T3).
  rewrite <-!app_assoc in *.
  destruct a3 as [a3|]; [|intros [= <- <- <- <-]; exists (d1 ++ d2 ++ d3); auto].
  destruct (checkFall _ _ _ _ _ _) as [[a4 m2] t4] eqn:E4. intros HE.
  assert (m' = m2 ∧ t' = t4) as [-> ->] by (by destruct a4; injection HE as <- <- <- <-).
  exists (d1 ++ d2 ++ d3). split_and!; [done..|]. right. split; [by exists a4|].
  intros Hst. destruct (HS Hst a2 eq_refl) as (a & Ha1 & Ha2 & Ha3 & Ha4). exists a. split_and!; auto.
  rewrite !leaves_of_app, !elem_of_app. right. by left.
Qed.

Lemma check_cell_budget m ci cell t r part m' t' last :
  check_cell m ci cell t = (r, part, m', t') → last ≤ ci_fallNow ci →
  budgeted (mo_maxTriggers m) last (triggers_of t) (mo_triggerTimes m) →
  budgeted (mo_maxTriggers m) (ci_fallNow ci) (triggers_of t') (mo_triggerTimes m') ∧
  mo_maxTriggers m' = mo_maxTriggers m ∧ mo_cells m' = mo_cells m.
Proof.
  intros E Hle HB.
  assert (budgeted (mo_maxTriggers m) (ci_fallNow ci) (triggers_of t) (mo_triggerTimes m)) as HB'
    by (eapply budgeted_later; [exact HB|done|apply sublist_filter]).
  destruct (mo_watchers m !! cell) as [w|] eqn:Hw.
  2: { unfold check_cell in E. rewrite Hw in E. by injection E as <- <- <- <-. }
  destruct (check_cell_before m ci cell t r part m' t' w Hw E) as (d & _ & HT & [[-> ->]|[[r' EF] _]]).
  - by rewrite triggers_of_app, HT, app_nil_r.
  - eapply checkFall_budget in EF; [exact EF|exact Hle|]. by rewrite triggers_of_app, HT, app_nil_r.
Qed.

Lemma check_cells_budget inp cells m alerts t ok alerts' m' t' last last' :
  check_cells m inp cells alerts t = (ok, alerts', m', t') →
  StronglySorted Z.le (last :: ((λ c, ci_fallNow (inp c)) <$> cells) ++ [last']) →
  budgeted (mo_maxTriggers m) last (triggers_of t) (mo_triggerTimes m) →
  budgeted (mo_maxTriggers m) last' (triggers_of t') (mo_triggerTimes m') ∧
  mo_maxTriggers m' = mo_maxTriggers m ∧ mo_cells m' = mo_cells m.
Proof.
  revert m alerts t last. induction cells as [|cell cells IH]; intros m alerts t last; cbn [check_cells].
  { intros [= <- <- <- <-] HS HB. split; [|done]. eapply budgeted_later; [exact HB| |apply sublist_filter].
    apply StronglySorted_inv in HS as [_ HF]. by apply Forall_cons in HF as [? _]. }
  destruct (check_cell m (inp cell) cell t) as [[[new part] m1] t1] eqn:EC. intros E HS HB.
  apply StronglySorted_inv in HS as [HS HF]. simpl in HS, HF. apply Forall_cons in HF as [Hle _].
  eapply check_cell_budget in EC as (HB1 & HM1 & HC1); [|exact Hle|exact HB].
  destruct new as [new|].
  - apply (IH _ _ _ _ E) in HS; rewrite ?HM1 in *; [|done]. destruct HS as (? & ? & Hcs). by rewrite Hcs.
  - injection E as <- <- <- <-. split; [|done]. eapply budgeted_later; [exact HB1| |apply sublist_filter].
    apply StronglySorted_inv in HS as [_ HF]. apply Forall_app in HF as [_ HF]. by apply Forall_cons in HF as [? _].
Qed.

(** A monitor from [m0], its passes in the order of a clock; [last] is past every reading. *)
Inductive monitored (m0 : Monitor) (t0 : trace) : Z → Monitor → trace → Prop :=
  | monitored_start last : monitored m0 t0 last m0 t0
  | monitored_pass last last' m t inp ok alerts m' t' :
      monitored m0 t0 last m t → CheckOnce inp m t = (ok, alerts, m', t') →
      StronglySorted Z.le (last :: (fall_reading inp <$> mo_cells m) ++ [last']) →
      monitored m0 t0 last' m' t'.

Lemma monitored_budget m0 t0 last m t :
  triggers_of t0 = [] → mo_triggerTimes m0 = [] → 0 ≤ mo_maxTriggers m0 → monitored m0 t0 last m t →
  budgeted (mo_maxTriggers m0) last (triggers_of t) (mo_triggerTimes m) ∧ mo_maxTriggers m = mo_maxTriggers m0.
Proof.
  intros Ht Hm Hmax. induction 1 as [last|last last' m t inp ok alerts m' t' _ [IH IM] EC HS].
  { rewrite Ht. split; [by apply budgeted_nil|done]. }
  unfold CheckOnce in EC. destruct (cw_Tick (pi_read inp) (mo_master m)) as [[f|leaves] mw].
  - destruct (raise_kept _ _ _ _ _ _ _ _) as [[al|] t1] eqn:ER; apply raise_kept_calls in ER as (d & -> & _ & HT & _).
    + eapply check_cells_budget in EC; [|exact HS|]; cbn [mo_maxTriggers mo_triggerTimes set_chains] in *.
      * rewrite IM in EC. by destruct EC as (? & ? & _).
      * by rewrite IM, triggers_of_app, HT, app_nil_r.
    + injection EC as <- <- <- <-. split; [|done]. rewrite triggers_of_app, HT, app_nil_r.
      eapply budgeted_later; [exact IH| |apply sublist_filter].
      apply StronglySorted_inv in HS as [_ HF]. apply Forall_app in HF as [_ HF]. by apply Forall_cons in HF as [? _].
  - eapply check_cells_budget in EC; [|exact HS|]; cbn [mo_maxTriggers mo_triggerTimes set_chains] in *.
    + rewrite IM in EC. by destruct EC as (? & ? & _).
    + by rewrite IM.
Qed.

(** A call of the trigger comes first in the act, and needs an anchor older than the delay. *)
Lemma checkFall_calls m now trigger ai cell t r m' t' :
  checkFall m now trigger ai cell t = (r, m', t') →
  trigger_calls t' = trigger_calls t ∨
  ((mo_lastAnchor m !! cell = None ∨ ∃ last, mo_lastAnchor m !! cell = Some last ∧ mo_fallDelay m < Sub now last) ∧
   ∃ ok d, t' = t ++ EvTrigger cell now ok :: d).
Proof.
  intros E. unfold checkFall in E. destruct (mo_falls m !! cell) as [st|]; [|injection E as <- <- <-; by left].
  destruct (mo_watchers m !! cell) as [w|]; [|injection E as <- <- <-; by left].
  destruct (judge_fall _ _ _ _ _) eqn:EJ; try (injection E as <- <- <-; by left).
  assert (mo_lastAnchor m !! cell = None ∨ ∃ last, mo_lastAnchor m !! cell = Some last ∧ mo_fallDelay m < Sub now last) as Hst.
  { unfold judge_fall in EJ. destruct (negb _); [done|]. destruct (mo_lastAnchor m !! cell) as [last|]; [right|by left].
    destruct (Z.leb_spec (Sub now last) (mo_fallDelay m)); [done|]. by exists last. }
  unfold act_on_fall in E.
  assert (∀ m1 ev v reason dt u, (let '(r, t1) := raise_kept m1 ai cell ev v reason dt u in (r, m1, t1)) = (r, m', t') →
    ∃ d, t' = u ++ d ∧ trigger_calls d = []) as HR.
  { intros m1 ev v reason dt u ER. destruct (raise_kept m1 ai cell ev v reason dt u) as [x t1] eqn:EK.
    injection ER as -> <- <-. apply raise_kept_calls in EK as (d & -> & HC & _). by exists d. }
  destruct (negb (mo_trigger _)); [apply HR in E as (d & -> & Hd); left; by rewrite trigger_calls_app, Hd, app_nil_r|].
  destruct (_ <=? _); [apply HR in E as (d & -> & Hd); left; by rewrite trigger_calls_app, Hd, app_nil_r|].
  right. split; [done|]. destruct trigger as [err|]; apply HR in E as (d & -> & _); eexists _, d; by rewrite <-app_assoc.
Qed.

(** What the constructor establishes. *)
Lemma open_cells_spec cells nows m m' :
  open_cells cells nows m = Some m' →
  mo_triggerTimes m' = mo_triggerTimes m ∧ mo_maxTriggers m' = mo_maxTriggers m ∧ mo_cells m' = mo_cells m ∧
  mo_maxLag m' = mo_maxLag m ∧ mo_fallDelay m' = mo_fallDelay m ∧
  NoDup (sp_CellID <$> cells) ∧ Forall (λ c, mo_watchers m !! sp_CellID c = None) cells ∧
  (∀ c, is_Some (mo_watchers m !! c) → is_Some (mo_falls m !! c) →
     is_Some (mo_watchers m' !! c) ∧ is_Some (mo_falls m' !! c)) ∧
  ∀ c, c ∈ sp_CellID <$> cells → is_Some (mo_watchers m' !! c) ∧ is_Some (mo_falls m' !! c).
Proof.
  revert nows m. induction cells as [|c cells IH]; intros nows m; cbn [open_cells].
  { intros [= <-]. split_and!; auto; [constructor..|]. intros c ?%elem_of_nil. done. }
  destruct (negb _); [done|]. case_bool_decide as Hw; [done|]. destruct (sp_open c) as [|[ls w]]; [done|].
  intros (E1 & E2 & E3 & E4 & E5 & HN & HF & HK & HI)%IH. simpl in *. rewrite Forall_forall in HF.
  assert (∀ x, x ∈ cells → sp_CellID x ≠ sp_CellID c ∧ mo_watchers m !! sp_CellID x = None) as HX.
  { intros x Hx. specialize (HF x Hx). by apply lookup_insert_None in HF as [? ?]. }
  split_and!; auto.
  - apply NoDup_cons. split; [|done]. intros (x & Ex & Hx)%list_elem_of_fmap. by destruct (HX x Hx).
  - constructor; [by apply eq_None_not_Some|]. apply Forall_forall. intros x Hx. by apply HX.
  - intros x Hx1 Hx2. apply HK; destruct (decide (x = sp_CellID c)) as [->|];
      by rewrite ?lookup_insert_eq, ?lookup_insert_ne by done.
  - intros x [->|Hx]%elem_of_cons; [|auto]. apply HK; rewrite lookup_insert_eq; eauto.
Qed.

Lemma NewMonitor_ok cellID log journal sink cells mc master maxLag fallDelay maxTriggers trigger nows m :
  NewMonitor cellID log journal sink cells mc master maxLag fallDelay maxTriggers trigger nows = Some m →
  monitor_wf m ∧ mo_triggerTimes m = [] ∧ 0 ≤ mo_maxTriggers m ∧ mo_maxLag m < mo_fallDelay m.
Proof.
  unfold NewMonitor. destruct (_ || _); [done|]. destruct (negb log); [done|]. destruct (_ =? _)%nat; [done|].
  destruct (negb mc); [done|]. destruct (fallDelay <? 0); [done|]. destruct (Z.ltb_spec maxTriggers 0); [done|].
  destruct (Z.leb_spec (if fallDelay =? 0 then DefaultFallDelay else fallDelay)
    (if maxLag <=? 0 then DefaultMaxAnchorLag else maxLag)) as [|Hlag]; [done|].
  destruct master as [|[leaves mw]]; [done|]. intros (E1 & E2 & E3 & E4 & E5 & HN & _ & _ & HI)%open_cells_spec.
  cbn [mo_triggerTimes mo_maxTriggers mo_cells mo_maxLag mo_fallDelay] in *. rewrite E1, E2, E4, E5. split_and!; auto.
  - split; [by rewrite E3|]. rewrite E3. intros c Hc. by destruct (HI c Hc).
  - unfold DefaultMaxFailoverTriggers. destruct (maxTriggers =? 0); lia.
Qed.

(** The latest anchor of a cell in a list of leaves. *)
Definition anchor_times (cell : string) (leaves : list Leaf) : list Z :=
  Timestamp <$> filter (λ l, Kind l = KindAnchor ∧ CellID l = cell) leaves.
Definition latest (start : option Z) (xs : list Z) : option Z :=
  foldl (λ o x, Some (match o with Some y => Z.max y x | None => x end)) start xs.

Lemma observe_latest leaves anchors cell :
  observeAnchors leaves anchors !! cell = latest (anchors !! cell) (anchor_times cell leaves).
Proof.
  revert anchors. induction leaves as [|l leaves IH]; intros anchors; [done|].
  unfold observeAnchors in *. simpl. rewrite IH. unfold anchor_times. rewrite filter_cons. unfold observe_anchor.
  case_bool_decide as Hk; [by rewrite decide_False by naive_solver|].
  case_decide as Hd.
  - destruct Hd as [_ <-]. rewrite fmap_cons. unfold latest. simpl. f_equal.
    destruct (anchors !! CellID l) as [prev|] eqn:Ep; [|by rewrite lookup_insert_eq].
    destruct (Z.ltb_spec prev (Timestamp l)); rewrite ?lookup_insert_eq, ?Ep; f_equal; lia.
  - assert (CellID l ≠ cell) as Hc by auto.
    destruct (anchors !! CellID l) as [prev|]; [destruct (prev <? Timestamp l)|]; by rewrite ?lookup_insert_ne by done.
Qed.

(** ** Passes that may end on a fault of the monitor *)

(** The calls of the trigger for a cell. *)
Definition calls (cell : string) (t : trace) : nat := length (filter (λ x, x.1.1 = cell) (trigger_calls t)).

Lemma calls_app cell t u : calls cell (t ++ u) = (calls cell t + calls cell u)%nat.
Proof. unfold calls. by rewrite trigger_calls_app, filter_app, length_app. Qed.
Lemma calls_quiet cell t d : trigger_calls d = [] → calls cell (t ++ d) = calls cell t.
Proof. intros Hd. rewrite calls_app. unfold calls at 2. rewrite Hd. simpl. lia. Qed.

Lemma checkFall_called m now trigger ai cell t r m' t' st w c :
  mo_falls m !! cell = Some st → mo_watchers m !! cell = Some w →
  checkFall m now trigger ai cell t = (r, m', t') →
  (calls c t' ≤ calls c t + if bool_decide (cell = c) && bool_decide (judge_fall m now (wt_size w) cell st = Fallen) then 1 else 0)%nat.
Proof.
  intros Hf Hw E. unfold checkFall in E. rewrite Hf, Hw in E.
  destruct (judge_fall m now (wt_size w) cell st); try (injection E as <- <- <-; lia). rewrite andb_true_r.
  unfold act_on_fall in E.
  assert (∀ m1 ev v reason dt u, (let '(r, t1) := raise_kept m1 ai cell ev v reason dt u in (r, m1, t1)) = (r, m', t') →
    calls c t' = calls c u) as HR.
  { intros m1 ev v reason dt u ER. destruct (raise_kept m1 ai cell ev v reason dt u) as [x t1] eqn:EK.
    injection ER as -> <- <-. apply raise_kept_calls in EK as (d & -> & HC & _). by apply calls_quiet. }
  destruct (negb (mo_trigger _)); [rewrite (HR _ _ _ _ _ _ E); lia|].
  destruct (_ <=? _); [rewrite (HR _ _ _ _ _ _ E); lia|].
  destruct trigger as [err|]; rewrite (HR _ _ _ _ _ _ E), calls_app; unfold calls at 2; simpl;
    rewrite filter_cons, filter_nil; simpl; case_decide; case_bool_decide; simpl; done || lia.
Qed.

(** What a pass may do to a cell, up to [n] acts and [n] calls of the trigger: leave its state, or the step of [checkFall]. *)
Definition fall_step (now size : Z) (st : fallState) (v : fall_verdict) (st' : fallState) (n : nat) : Prop :=
  (st' = st ∧ n = 0%nat) ∨ (st' = next_fall now size st v ∧ n = if bool_decide (v = Fallen) then 1%nat else 0%nat).

Lemma check_cell_any m ci cell t st w r part m' t' :
  mo_falls m !! cell = Some st → mo_watchers m !! cell = Some w →
  check_cell m ci cell t = (r, part, m', t') →
  let w1 := (cw_Tick (ci_read ci) w).2 in
  ∃ times st' n, m' = set_falls times (<[cell := st']> (mo_falls m)) (ticked m cell w1) ∧
    fall_step (ci_fallNow ci) (wt_size w1) st (judge_fall m (ci_fallNow ci) (wt_size w1) cell st) st' n ∧
    ∀ c, (acts c (default part r) ≤ (if bool_decide (cell = c) then n else 0) ∧
          calls c t' ≤ calls c t + (if bool_decide (cell = c) then n else 0))%nat.
Proof.
  intros Hf Hw. unfold check_cell. rewrite Hw. destruct (cw_Tick (ci_read ci) w) as [res w1]. simpl.
  fold (ticked m cell w1). intros E.
  assert (∀ out d, (∀ c, acts c out = 0%nat) → trigger_calls d = [] → m' = ticked m cell w1 → t' = t ++ d → default part r = out →
    ∃ times st' n, m' = set_falls times (<[cell := st']> (mo_falls m)) (ticked m cell w1) ∧
    fall_step (ci_fallNow ci) (wt_size w1) st (judge_fall m (ci_fallNow ci) (wt_size w1) cell st) st' n ∧
    ∀ c, (acts c (default part r) ≤ (if bool_decide (cell = c) then n else 0) ∧
          calls c t' ≤ calls c t + (if bool_decide (cell = c) then n else 0))%nat) as HQ.
  { intros out d Ho Hd -> -> ->. exists (mo_triggerTimes m), st, 0%nat. split; [rewrite insert_id by done; by destruct m|].
    split; [by left|]. intros c. rewrite calls_quiet, Ho by done. lia. }
  match type of E with context [let '(_, _) := ?x in _] => destruct x as [a1 t1] eqn:E1 end.
  pose proof E1 as E1'. apply tick_calls in E1' as (d1 & -> & C1 & _).
  destruct a1 as [a1|]; [|injection E as <- <- <- <-; by eapply (HQ [] d1)].
  assert (∀ c, acts c a1 = 0%nat) as Ha1.
  { intros c. destruct res; [|by injection E1 as <- _]. eapply raise_quiet; [|exact E1]. set_solver. }
  destruct (checkAnchorFreshness _ _ _ _ _) as [a2 t2] eqn:E2.
  pose proof E2 as E2'. apply checkAnchorFreshness_calls in E2' as (d2 & -> & C2 & _). rewrite <-app_assoc in E.
  assert (trigger_calls (d1 ++ d2) = []) as C12 by by rewrite trigger_calls_app, C1, C2.
  destruct a2 as [a2|]; [|injection E as <- <- <- <-; by eapply (HQ a1 (d1 ++ d2))].
  assert (∀ c, acts c (a1 ++ a2) = 0%nat) as Ha2.
  { intros c. rewrite acts_app, Ha1. unfold checkAnchorFreshness in E2. destruct (mo_lastAnchor _ !! cell) as [last|]; [destruct (_ <? _)|];
      [eapply raise_quiet; [|exact E2]; set_solver|by injection E2 as <- _|eapply raise_quiet; [|exact E2]; set_solver]. }
  destruct (checkManifests _ _ _ _ _) as [a3 t3] eqn:E3.
  pose proof E3 as E3'. apply checkManifests_calls in E3' as (d3 & -> & C3 & _). rewrite <-app_assoc in E.
  assert (trigger_calls ((d1 ++ d2) ++ d3) = []) as C13 by by rewrite trigger_calls_app, C12, C3.
  destruct a3 as [a3|]; [|injection E as <- <- <- <-; by eapply (HQ (a1 ++ a2) ((d1 ++ d2) ++ d3))].
  assert (∀ c, acts c (a1 ++ a2 ++ a3) = 0%nat) as Ha3.
  { intros c. rewrite app_assoc, acts_app, Ha2. unfold checkManifests in E3. destruct (ci_manifestOk ci); [by injection E3 as <- _|].
    eapply raise_quiet; [|exact E3]. set_solver. }
  destruct (checkFall _ _ _ _ _ _) as [[a4 m2] t4] eqn:E4.
  destruct (checkFall_shape (ticked m cell w1) _ _ _ _ _ _ _ _ st w1 Hf (lookup_insert_eq _ _ _) E4) as [[times Hm] HA].
  pose proof (λ c, checkFall_called (ticked m cell w1) _ _ _ _ _ _ _ _ st w1 c Hf (lookup_insert_eq _ _ _) E4) as HC.
  change (judge_fall (ticked m cell w1)) with (judge_fall m) in *. set (v := judge_fall m _ _ _ _) in *.
  exists times, (next_fall (ci_fallNow ci) (wt_size w1) st v), (if bool_decide (v = Fallen) then 1%nat else 0%nat).
  assert (m' = m2 ∧ t' = t4) as [-> ->] by (by destruct a4; injection E as <- <- <- <-).
  split; [done|]. split; [by right|]. intros c. specialize (HC c). rewrite calls_quiet in HC by done. split.
  - destruct a4 as [a4|]; injection E as <- <-; simpl.
    + rewrite !acts_app. specialize (Ha3 c). rewrite !acts_app in Ha3. rewrite (HA a4 c eq_refl). repeat case_bool_decide; simpl; done || lia.
    + rewrite Ha3. lia.
  - repeat case_bool_decide; simpl in *; done || lia.
Qed.

Lemma check_cells_any inp cells m alerts t ok alerts' m' t' :
  NoDup cells → (∀ c, c ∈ cells → is_Some (mo_falls m !! c) ∧ is_Some (mo_watchers m !! c)) →
  check_cells m inp cells alerts t = (ok, alerts', m', t') →
  same_bounds m m' ∧
  ∀ c st w, mo_falls m !! c = Some st → mo_watchers m !! c = Some w →
    let w1 := (cw_Tick (ci_read (inp c)) w).2 in
    let v := judge_fall m (ci_fallNow (inp c)) (wt_size w1) c st in
    ∃ st' w' n, mo_falls m' !! c = Some st' ∧ mo_watchers m' !! c = Some w' ∧ (w' = w ∨ w' = w1) ∧
      fall_step (ci_fallNow (inp c)) (wt_size w1) st v st' n ∧ (c ∉ cells → st' = st ∧ w' = w ∧ n = 0%nat) ∧
      (acts c alerts' ≤ acts c alerts + n)%nat ∧ (calls c t' ≤ calls c t + n)%nat.
Proof.
  revert m alerts t. induction cells as [|cell cells IH]; intros m alerts t Hnd Hwf.
  { intros [= <- <- <- <-]. split; [done|]. intros c st w Hf Hw. exists st, w, 0%nat. split_and!; auto; [by left|lia..]. }
  apply NoDup_cons in Hnd as [Hnot Hnd].
  destruct (Hwf cell ltac:(left)) as [[st Hst] [w Hw]]. cbn [check_cells].
  destruct (check_cell m (inp cell) cell t) as [[[new part] m1] t1] eqn:EC. intros E.
  destruct (check_cell_any _ _ _ _ st w _ _ _ _ Hst Hw EC) as (times & st1 & n1 & -> & HS1 & HA1). clear EC.
  set (w1 := (cw_Tick (ci_read (inp cell)) w).2) in *.
  assert (∀ ok0, new = None → (false, alerts ++ part, set_falls times (<[cell:=st1]> (mo_falls m)) (ticked m cell w1), t1) = (ok0, alerts', m', t') →
    alerts' = alerts ++ default part new ∧ m' = set_falls times (<[cell:=st1]> (mo_falls m)) (ticked m cell w1) ∧ t' = t1) as HN
    by (intros ok0 -> [= _ <- <- <-]; done).
  assert (same_bounds m (set_falls times (<[cell:=st1]> (mo_falls m)) (ticked m cell w1))) as HB0 by done.
  destruct new as [new|].
  - apply IH in E as [(B1 & B2 & B3 & B4) HI]; [|done|].
    2: { intros c Hc. destruct (Hwf c ltac:(by right)) as [? ?]. simpl.
         destruct (decide (c = cell)) as [->|]; [by rewrite !lookup_insert_eq; eauto|]. by rewrite !lookup_insert_ne by done. }
    split; [done|]. intros c stc wc Hf Hwc. destruct (HA1 c) as [HA2 HA3]. simpl in HA2. destruct (decide (c = cell)) as [->|Hne].
    + rewrite Hst in Hf. injection Hf as <-. rewrite Hw in Hwc. injection Hwc as <-.
      destruct (HI cell st1 w1) as (st' & w' & n & F1 & F2 & _ & _ & F5 & F6 & F7); [simpl; by rewrite lookup_insert_eq..|].
      destruct (F5 Hnot) as (-> & -> & ->). exists st1, w1, n1. rewrite bool_decide_true in HA2, HA3 by done. rewrite acts_app in F6.
      split_and!; auto; [intros Hn; exfalso; apply Hn; left|lia..].
    + destruct (HI c stc wc) as (st' & w' & n & F1 & F2 & F3 & F4 & F5 & F6 & F7); [simpl; by rewrite lookup_insert_ne..|].
      exists st', w', n. rewrite bool_decide_false in HA2, HA3 by done. rewrite acts_app in F6.
      split_and!; auto; [intros [_ Hn]%not_elem_of_cons; auto|lia..].
  - destruct (HN _ eq_refl E) as (-> & -> & ->). split; [done|]. intros c stc wc Hf Hwc. destruct (HA1 c) as [HA2 HA3].
    destruct (decide (c = cell)) as [->|Hne].
    + rewrite Hst in Hf. injection Hf as <-. rewrite Hw in Hwc. injection Hwc as <-.
      exists st1, w1, n1. rewrite bool_decide_true in HA2, HA3 by done. rewrite acts_app. simpl. rewrite !lookup_insert_eq.
      split_and!; auto; [intros Hn; exfalso; apply Hn; left|simpl in *; lia..].
    + exists stc, wc, 0%nat. rewrite bool_decide_false in HA2, HA3 by done. rewrite acts_app. simpl. rewrite !lookup_insert_ne by done.
      split_and!; auto; [by left|simpl in *; lia..].
Qed.

Lemma CheckOnce_any inp m t ok alerts m' t' cell st w :
  monitor_wf m → mo_falls m !! cell = Some st → mo_watchers m !! cell = Some w → wt_size w = fs_lastSize st →
  lifeless m (fs_lastSize st) cell inp →
  CheckOnce inp m t = (ok, alerts, m', t') →
  monitor_wf m' ∧ mo_fallDelay m' = mo_fallDelay m ∧ mo_lastAnchor m' !! cell = mo_lastAnchor m !! cell ∧
  ∃ h w', mo_falls m' !! cell = Some (mkFall (fs_lastSize st) (fs_lastProgress st) h) ∧ mo_watchers m' !! cell = Some w' ∧
    wt_size w' = fs_lastSize st ∧
    (h = fs_handled st ∧ acts cell alerts = 0%nat ∧ (calls cell t' ≤ calls cell t)%nat ∨
     h = true ∧ fs_handled st = false ∧ overdue (mo_fallDelay m) (fs_lastProgress st) cell inp ∧
     (acts cell alerts ≤ 1)%nat ∧ (calls cell t' ≤ calls cell t + 1)%nat).
Proof.
  intros [Hnd Hwf] Hf Hw Hsize (HG & HA & HS). unfold CheckOnce. destruct (cw_Tick (pi_read inp) (mo_master m)) as [res mw] eqn:ET.
  assert (mkFall (fs_lastSize st) (fs_lastProgress st) (fs_handled st) = st) as Hst by by destruct st.
  assert (∀ anchors al t0, (∀ c, acts c al = 0%nat) → calls cell t0 = calls cell t → anchors !! cell = mo_lastAnchor m !! cell →
    check_cells (set_chains mw (mo_watchers m) anchors m) (pi_cell inp) (mo_cells m) al t0 = (ok, alerts, m', t') →
    monitor_wf m' ∧ mo_fallDelay m' = mo_fallDelay m ∧ mo_lastAnchor m' !! cell = mo_lastAnchor m !! cell ∧
    ∃ h w', mo_falls m' !! cell = Some (mkFall (fs_lastSize st) (fs_lastProgress st) h) ∧ mo_watchers m' !! cell = Some w' ∧
      wt_size w' = fs_lastSize st ∧
      (h = fs_handled st ∧ acts cell alerts = 0%nat ∧ (calls cell t' ≤ calls cell t)%nat ∨
       h = true ∧ fs_handled st = false ∧ overdue (mo_fallDelay m) (fs_lastProgress st) cell inp ∧
       (acts cell alerts ≤ 1)%nat ∧ (calls cell t' ≤ calls cell t + 1)%nat)) as HC.
  { intros anchors al t0 Hal Ht0 Han E. apply check_cells_any in E as [(B1 & B2 & B3 & _) HI]; [|done|exact Hwf].
    split.
    { split; [by rewrite B3|]. intros c Hcm. rewrite B3 in Hcm. destruct (Hwf c Hcm) as [[s0 Hs0] [w0 Hw0]].
      destruct (HI c s0 w0 Hs0 Hw0) as (? & ? & ? & -> & -> & _). eauto. }
    split; [done|]. split; [by rewrite B1|].
    destruct (HI cell st w Hf Hw) as (st' & w' & n & F1 & F2 & F3 & F4 & _ & F6 & F7). cbv zeta in F4. rewrite Hal in F6. rewrite Ht0 in F7.
    rewrite (HG w Hsize), (judge_lifeless m) in F4 by done.
    assert (wt_size w' = fs_lastSize st) as Hw' by (destruct F3 as [->| ->]; [done|by apply HG]).
    destruct F4 as [[-> ->]|[-> ->]]; [exists (fs_handled st), w'; rewrite Hst; split_and!; auto; left; split_and!; auto; lia|].
    case_decide as Ho; [destruct (fs_handled st) eqn:Eh|]; cbn [next_fall] in F1; rewrite ?bool_decide_false, ?bool_decide_true in F6, F7 by done.
    - exists true, w'. rewrite Hst. split_and!; auto. left. split_and!; auto; lia.
    - exists true, w'. split_and!; auto. right. split_and!; auto.
    - exists (fs_handled st), w'. rewrite Hst. split_and!; auto. left. split_and!; auto; lia. }
  destruct res as [f|leaves]; intros E.
  - destruct (raise_kept _ _ _ _ _ _ _ _) as [[al|] t1] eqn:ER; pose proof ER as (d & -> & Hd & _)%raise_kept_calls.
    + apply HC in E; auto using calls_quiet. intros c. eapply raise_quiet; [|exact ER]. set_solver.
    + injection E as <- <- <- <-. split; [done|]. split; [done|]. split; [done|]. exists (fs_handled st), w. rewrite Hst. split_and!; auto. left.
      rewrite calls_quiet by done. split_and!; auto.
  - apply HC in E; auto. apply observe_other. by eapply HA.
Qed.

(** Passes with how each ended, the alerts of all of them. *)
Inductive passes_any : Monitor → trace → list pass_in → list bool → list Alert → Monitor → trace → Prop :=
  | passes_any_nil m t : passes_any m t [] [] [] m t
  | passes_any_cons m t inp inps ok oks alerts alerts' m1 t1 m2 t2 :
      CheckOnce inp m t = (ok, alerts, m1, t1) → passes_any m1 t1 inps oks alerts' m2 t2 →
      passes_any m t (inp :: inps) (ok :: oks) (alerts ++ alerts') m2 t2.

Lemma passes_any_ok m t inps oks alerts m' t' :
  passes_any m t inps oks alerts m' t' → Forall (eq true) oks → passes m t inps alerts m' t'.
Proof. induction 1; [constructor|]. intros [<- HF]%Forall_cons. econstructor; eauto. Qed.

Lemma dead_cell_at_most m t inps oks alerts m' t' cell :
  passes_any m t inps oks alerts m' t' → ∀ st w,
  monitor_wf m → mo_falls m !! cell = Some st → mo_watchers m !! cell = Some w →
  wt_size w = fs_lastSize st → Forall (lifeless m (fs_lastSize st) cell) inps →
  let most := if fs_handled st then 0%nat else
    if decide (Exists (overdue (mo_fallDelay m) (fs_lastProgress st) cell) inps) then 1%nat else 0%nat in
  (acts cell alerts ≤ most)%nat ∧ (calls cell t' ≤ calls cell t + most)%nat.
Proof.
  induction 1 as [m t|m t inp inps ok oks alerts alerts' m1 t1 m2 t2 HC HP IH]; intros st w Hwf Hf Hw Hsize HL.
  { cbv zeta. rewrite decide_False by (by intros ?%Exists_nil). change (acts cell []) with 0%nat. destruct (fs_handled st); lia. }
  apply Forall_cons in HL as [HL HLs].
  destruct (CheckOnce_any inp m t ok alerts m1 t1 cell st w Hwf Hf Hw Hsize HL HC) as (Hwf1 & Hd & Han & h & w' & HF & HW & HW' & Hcase).
  destruct (IH _ w' Hwf1 HF HW HW') as [I1 I2].
  { cbn [fs_lastSize]. eapply Forall_impl; [exact HLs|]. intros i. by apply lifeless_same. }
  cbn [fs_handled fs_lastProgress] in I1, I2. rewrite Hd in I1, I2. rewrite acts_app. cbv zeta.
  set (rest := decide (Exists _ inps)) in *. set (all := decide (Exists _ (inp :: inps))).
  assert ((if rest then 1 else 0) ≤ if all then 1 else 0)%nat as Hmono.
  { destruct rest as [Hr|], all as [|Hn]; try lia. destruct Hn. by right. }
  destruct Hcase as [(-> & -> & Hc)|(-> & -> & Ho & Ha & Hc)].
  - destruct (fs_handled st); cbv beta iota in *; lia.
  - assert ((if all then 1 else 0) = 1)%nat as Hall by (destruct all as [|Hn]; [done|destruct Hn; by left]).
    cbv beta iota in I1, I2 |- *. rewrite Hall. lia.
Qed.

(** ** The claims *)

(** C24: a dead cell is dealt with, once. Over any number of passes in which a cell shows no sign
    of life, whatever the other cells do, the monitor reports on its fall, by a failover or by a
    refusal, at most once and only in a pass that comes after the delay, and calls the trigger of
    its failover at most once, even when passes end on a fault of the monitor; and when none does
    (every alert leaf could be written), it reports exactly once as soon as a pass comes after
    the delay. After a fault in the very act it stays silent until the cell comes back: see
    [unwritten_fall_stays_silent]. *)
Theorem dead_cell_handled_once m t inps oks alerts m' t' cell st w :
  monitor_wf m → cell ∈ mo_cells m → mo_falls m !! cell = Some st → mo_watchers m !! cell = Some w →
  wt_size w = fs_lastSize st → fs_handled st = false →
  Forall (lifeless m (fs_lastSize st) cell) inps → passes_any m t inps oks alerts m' t' →
  let due := if decide (Exists (overdue (mo_fallDelay m) (fs_lastProgress st) cell) inps) then 1%nat else 0%nat in
  (acts cell alerts ≤ due)%nat ∧ (calls cell t' ≤ calls cell t + due)%nat ∧
  (Forall (eq true) oks → acts cell alerts = due).
Proof.
  intros Hwf Hc Hf Hw Hsize Hh Hl HP. destruct (dead_cell_at_most _ _ _ _ _ _ _ _ HP st w Hwf Hf Hw Hsize Hl) as [H1' H2'].
  rewrite Hh in H1', H2'. split_and!; [done..|]. intros HO. rewrite (dead_cell_acts _ _ _ _ _ _ _ (passes_any_ok _ _ _ _ _ _ _ HP HO) st w) by done.
  by rewrite Hh.
Qed.

(** The machine does not act before the human is warned. When a pass over a cell calls the
    trigger of a failover, the log of the monitor already holds, from the same pass, the leaf of
    an alarm on the anchors of that cell; provided the readings of the two verifiers are no
    further apart than the margin between the two bounds. *)
Theorem warned_before_failover m ci cell t r part m' t' :
  mo_maxLag m < mo_fallDelay m → ci_fallNow ci - ci_freshNow ci ≤ mo_fallDelay m - mo_maxLag m →
  check_cell m ci cell t = (r, part, m', t') → trigger_calls t' ≠ trigger_calls t →
  ∃ d1 d2 ok a, t' = t ++ d1 ++ EvTrigger cell (ci_fallNow ci) ok :: d2 ∧
    al_Event (a_Record a) = AlertEventAnchorStale ∧ al_CellID (a_Record a) = cell ∧
    al_Verdict (a_Record a) = AlertVerdictAlarm ∧ alert_leaf m (ai_now (ci_fresh ci)) a ∈ leaves_of d1.
Proof.
  intros Hlag Hgap E Hne. destruct (mo_watchers m !! cell) as [w|] eqn:Hw.
  2: { unfold check_cell in E. rewrite Hw in E. by injection E as <- <- <- <-. }
  destruct (check_cell_before m ci cell t r part m' t' w Hw E) as (d & HC & _ & [[_ ->]|[[r' EF] HA]]).
  { by rewrite trigger_calls_app, HC, app_nil_r in Hne. }
  apply checkFall_calls in EF as [EF|[Hst (ok & d2 & ->)]].
  { by rewrite EF, trigger_calls_app, HC, app_nil_r in Hne. }
  cbn [mo_lastAnchor mo_fallDelay set_chains ticked] in Hst. destruct HA as (a & H1' & H2' & H3' & H4').
  - destruct Hst as [|(last & Hlast & Hs)]; [by left|right]. exists last. split; [done|].
    revert Hs. unfold Sub. lia.
  - exists d, d2, ok, a. split; [by rewrite <-app_assoc|done].
Qed.

(** C40: the failovers of the monitor are bounded. In any run from its construction, whatever
    fails, every hour sees at most [maxTriggers] failovers triggered with success, provided the
    clock does not go back between the readings of the verifier of falls. *)
Theorem failovers_bounded cellID log journal sink cells mc master maxLag fallDelay maxTriggers trigger nows m0
    t0 last m t w :
  NewMonitor cellID log journal sink cells mc master maxLag fallDelay maxTriggers trigger nows = Some m0 →
  triggers_of t0 = [] → monitored m0 t0 last m t →
  Z.of_nat (length (filter (λ x, w - hour < x ≤ w) (triggers_of t))) ≤ mo_maxTriggers m0.
Proof.
  intros (_ & Hm & Hmax & _)%NewMonitor_ok Ht HR.
  destruct (monitored_budget _ _ _ _ _ Ht Hm Hmax HR) as [(_ & _ & HW) _]. apply HW.
Qed.

(** The freshness of a cell is its latest anchor. However the leaves of the master chain are
    ordered, the anchor the monitor keeps for a cell is the maximum of the one it had and of the
    times of the anchors of that cell among the leaves. *)
Theorem anchors_are_latest leaves anchors cell :
  observeAnchors leaves anchors !! cell = latest (anchors !! cell) (anchor_times cell leaves).
Proof. apply observe_latest. Qed.
End passes.
