(* ===== verification/Envelope.v ===== *)
(** The emission envelope of the broker: [src/broker/envelope.go].

    The ledger keeps, for each entity and epoch, the volume of the passports issued or being
    issued; the evaluator asks the policy engine whether that total is acceptable. A volume is
    reserved before the engine is asked and released when the passport is refused later.

    What the ledger stands for is the list of the reservations that were not released, [held]:
    [env_run] is any sequence of calls of any number of requests, and the aggregate of a run is
    the sum of the held volumes, as long as no request arrives with an epoch the ledger has
    already left behind. *)
From S2P Require Import Prelude.
From S2P Require Import Leaf.
From S2P Require Import Effects.
From S2P Require Import OPAClient.

Local Open Scope Z_scope.

Definition EnvelopeEvalTimeout : Z := 5 * millisecond.

Definition ReasonEnvelopeDeny : string := "envelope-deny".
Definition ReasonEnvelopeUndefined : string := "envelope-undefined".
Definition ReasonEnvelopeTimeout : string := "envelope-timeout".
Definition ReasonEnvelopeUnreachable : string := "envelope-unreachable".
Definition ReasonEnvelopeError : string := "envelope-error".
Definition ReasonEnvelopeBadResponse : string := "envelope-bad-response".
Definition TripReasonEnvelopeSaturated : string := "envelope-ledger-saturated".

Inductive envelope_error := ErrEnvelopeSaturated | ErrEnvelopeOverflow.

Record EnvelopeInput := mkEnvelopeInput {
  ei_Subject : string; ei_Epoch : Z; ei_Resource : string; ei_Operation : string;
  ei_Requested : Z; ei_Issued : Z }.

Record EnvelopeDecision := mkEnvelopeDecision { ed_Allow : bool; ed_Reason : string }.

(** ** The ledger *)

(** A key of the ledger: subject and epoch. *)
Abbreviation envelopeKey := (string * Z)%type.

Record EnvelopeLedger := mkEnvelopeLedger {
  el_max : Z; el_agg : gmap envelopeKey Z; el_onTrip : bool; el_tripped : bool }.

Definition set_agg (agg : gmap envelopeKey Z) (l : EnvelopeLedger) : EnvelopeLedger :=
  mkEnvelopeLedger (el_max l) agg (el_onTrip l) (el_tripped l).

Definition NewEnvelopeLedger (maxEntities : Z) (onTrip : bool) : option EnvelopeLedger :=
  if maxEntities <=? 0 then None else Some (mkEnvelopeLedger maxEntities ∅ onTrip false).

(** [purgeLocked]. *)
Definition el_purge (epoch : Z) (l : EnvelopeLedger) : EnvelopeLedger :=
  set_agg (filter (λ kv, epoch ≤ kv.1.2) (el_agg l)) l.

(** [tripLocked]. *)
Definition el_trip (l : EnvelopeLedger) (t : trace) : EnvelopeLedger * trace :=
  if el_tripped l then (l, t)
  else (mkEnvelopeLedger (el_max l) (el_agg l) (el_onTrip l) true,
        call_alarm (el_onTrip l) TripReasonEnvelopeSaturated t).

Definition Aggregate (subject : string) (epoch : Z) (l : EnvelopeLedger) : Z :=
  default 0 (el_agg l !! (subject, epoch)).

Definition el_Len (l : EnvelopeLedger) : Z := Z.of_nat (size (el_agg l)).

Definition Reserve (subject : string) (epoch volume : Z) (l : EnvelopeLedger) (t : trace) :
    (envelope_error + Z) * EnvelopeLedger * trace :=
  let l1 := el_purge epoch l in
  if bool_decide (el_agg l1 !! (subject, epoch) = None) && (el_Len l1 =? el_max l1) then
    let '(l2, t1) := el_trip l1 t in (inl ErrEnvelopeSaturated, l2, t1)
  else if 2^64 - 1 - volume <? Aggregate subject epoch l1 then (inl ErrEnvelopeOverflow, l1, t)
  else let total := Aggregate subject epoch l1 + volume in
       (inr total, set_agg (<[(subject, epoch) := total]> (el_agg l1)) l1, t).

Definition Release (subject : string) (epoch volume : Z) (l : EnvelopeLedger) : EnvelopeLedger :=
  match el_agg l !! (subject, epoch) with
  | None => l
  | Some cur =>
      if cur <=? volume then set_agg (delete (subject, epoch) (el_agg l)) l
      else set_agg (<[(subject, epoch) := cur - volume]> (el_agg l)) l
  end.

(** ** The evaluator *)

Record EnvelopeEvaluator := mkEnvelopeEvaluator { ee_timeout : Z; ee_onTrip : bool }.

Definition NewHTTPEnvelopeEvaluator (endpoint : string) (timeout : Z) (onTrip : bool) :
    option EnvelopeEvaluator :=
  if bool_decide (endpoint = "") then None
  else if timeout <? 0 then None
  else Some (mkEnvelopeEvaluator (if timeout =? 0 then EnvelopeEvalTimeout else timeout) onTrip).

(** The verdict, and whether the answer is a fault. There is no queue in front of this engine:
    [IoShed] does not happen, and is read as a request that could not be sent. *)
Definition envelope_verdict (io : opa_io) (x : opa_ctx) : EnvelopeDecision * bool :=
  let refuse r fault := (mkEnvelopeDecision false r, fault) in
  match io with
  | IoEncode => refuse ReasonEnvelopeBadResponse true
  | IoRequest | IoShed => refuse ReasonEnvelopeUnreachable true
  | IoTransport =>
      if cx_done x then refuse ReasonEnvelopeUnreachable false
      else if cx_deadline x then refuse ReasonEnvelopeTimeout true
      else refuse ReasonEnvelopeUnreachable true
  | IoStatus _ => refuse ReasonEnvelopeError true
  | IoBody => if cx_deadline x then refuse ReasonEnvelopeTimeout true else refuse ReasonEnvelopeBadResponse true
  | IoResult None => refuse ReasonEnvelopeUndefined false
  | IoResult (Some None) => refuse ReasonEnvelopeBadResponse true
  | IoResult (Some (Some false)) => refuse ReasonEnvelopeDeny false
  | IoResult (Some (Some true)) => (mkEnvelopeDecision true "ok", false)
  end.

(** [EvalEnvelope]; [answer] is what the engine does with the input. *)
Definition EvalEnvelope (e : EnvelopeEvaluator) (answer : EnvelopeInput → opa_io) (x : opa_ctx)
    (inp : EnvelopeInput) (t : trace) : EnvelopeDecision * trace :=
  let '(d, fault) := envelope_verdict (answer inp) x in
  (d, if fault then call_alarm (ee_onTrip e) (ed_Reason d) t else t).

Lemma EvalEnvelope_allow e answer x inp t :
  ed_Allow (EvalEnvelope e answer x inp t).1 = true ↔ answer inp = IoResult (Some (Some true)).
Proof.
  unfold EvalEnvelope. destruct (envelope_verdict (answer inp) x) as [d f] eqn:E. simpl.
  split; [|intros HA; rewrite HA in E; by injection E as <- <-].
  destruct (answer inp) as [| | | | | |[[[]|]|]]; simpl in E;
    repeat case_match; simplify_eq/=; done.
Qed.

(** ** Reservations that were not released *)

(** The reservations of a key. *)
Definition of_key (k : envelopeKey) (r : envelopeKey * Z) : Prop := r.1 = k.
#[global] Instance of_key_dec k r : Decision (of_key k r) := decide (r.1 = k).

Definition volume_of (k : envelopeKey) (held : list (envelopeKey * Z)) : Z :=
  foldr (λ r acc, r.2 + acc) 0 (filter (of_key k) held).

(** The reservations a new epoch leaves. *)
Definition current (epoch : Z) (held : list (envelopeKey * Z)) : list (envelopeKey * Z) :=
  filter (λ r, epoch ≤ r.1.2) held.

(** A run: [top] is the last epoch seen, [held] the reservations in force. A release is that of
    a reservation in force, or of one that a new epoch has swept away. *)
Inductive env_run (max : Z) (onTrip : bool) : Z → list (envelopeKey * Z) → EnvelopeLedger → Prop :=
  | env_new l : NewEnvelopeLedger max onTrip = Some l → env_run max onTrip 0 [] l
  | env_reserve top held l t subject epoch volume r l' t' :
      env_run max onTrip top held l → top ≤ epoch → in_u64 volume →
      Reserve subject epoch volume l t = (r, l', t') →
      env_run max onTrip epoch
        (match r with inr _ => [((subject, epoch), volume)] | inl _ => [] end ++ current epoch held) l'
  | env_release top held held' l subject epoch volume :
      env_run max onTrip top held l → held ≡ₚ ((subject, epoch), volume) :: held' →
      env_run max onTrip top held' (Release subject epoch volume l)
  | env_release_late top held l subject epoch volume :
      env_run max onTrip top held l → epoch < top →
      env_run max onTrip top held (Release subject epoch volume l).

Lemma volume_of_cons k r held : volume_of k (r :: held) = (if decide (r.1 = k) then r.2 else 0) + volume_of k held.
Proof. unfold volume_of. rewrite filter_cons. unfold of_key. by destruct (decide (r.1 = k)). Qed.

Lemma volume_of_perm k held held' : held ≡ₚ held' → volume_of k held = volume_of k held'.
Proof.
  induction 1 as [|r h h' _ IH|r1 r2 h|h1 h2 h3 _ IH1 _ IH2]; [done|..].
  - by rewrite !volume_of_cons, IH.
  - rewrite !volume_of_cons. lia.
  - congruence.
Qed.

Lemma volume_of_nonneg k held : Forall (λ r, 0 ≤ r.2) held → 0 ≤ volume_of k held.
Proof.
  induction 1 as [|r h Hr _ IH]; [done|]. rewrite volume_of_cons. case_decide; lia.
Qed.

Lemma volume_of_current epoch k held : volume_of k (current epoch held) = if decide (epoch ≤ k.2) then volume_of k held else 0.
Proof.
  induction held as [|r h IH]; [by case_decide|].
  assert (current epoch (r :: h) = if decide (epoch ≤ r.1.2) then r :: current epoch h else current epoch h) as ->
    by (unfold current; rewrite filter_cons; by destruct (decide _)).
  destruct (decide (epoch ≤ r.1.2)) as [Hr|Hr]; rewrite !volume_of_cons, IH || rewrite volume_of_cons, IH;
    destruct (decide (r.1 = k)) as [<-|]; destruct (decide _); try done; lia.
Qed.

(** What the purge keeps. *)
Lemma el_purge_lookup epoch l k : el_agg (el_purge epoch l) !! k = if decide (epoch ≤ k.2) then el_agg l !! k else None.
Proof.
  simpl. destruct (decide (epoch ≤ k.2)) as [H|H].
  - destruct (el_agg l !! k) as [v|] eqn:E.
    + by apply map_lookup_filter_Some.
    + apply map_lookup_filter_None. by left.
  - apply map_lookup_filter_None. right. intros v _. done.
Qed.

(** The invariant: the aggregate of a key is the volume held for it. *)
Definition env_inv (max : Z) (onTrip : bool) (top : Z) (held : list (envelopeKey * Z)) (l : EnvelopeLedger) : Prop :=
  el_max l = max ∧ el_onTrip l = onTrip ∧ el_Len l ≤ max ∧
  Forall (λ r, in_u64 r.2) held ∧
  (∀ k, default 0 (el_agg l !! k) = volume_of k held) ∧
  (∀ k, k.2 < top → el_agg l !! k = None) ∧
  (∀ k v, el_agg l !! k = Some v → in_u64 v).

Lemma held_nonneg held : Forall (λ r : envelopeKey * Z, in_u64 r.2) held → Forall (λ r, 0 ≤ r.2) held.
Proof. intros HF. eapply Forall_impl; [exact HF|]. by intros r [? _]. Qed.

Lemma el_purge_inv max onTrip top epoch held l :
  env_inv max onTrip top held l → top ≤ epoch →
  env_inv max onTrip epoch (current epoch held) (el_purge epoch l).
Proof.
  intros (H1 & H2 & H3 & H4 & H5 & H6 & H7) Hle. split_and!; try done.
  - unfold el_Len in *. etrans; [|exact H3]. apply inj_le, map_subseteq_size, map_filter_subseteq.
  - rewrite Forall_forall in *. intros r [_ Hr]%list_elem_of_filter. by apply H4.
  - intros k. rewrite el_purge_lookup, volume_of_current. by destruct (decide (epoch ≤ k.2)).
  - intros k Hk. rewrite el_purge_lookup. by rewrite decide_False by lia.
  - intros k v. rewrite el_purge_lookup. destruct (decide _); [apply H7|done].
Qed.

Lemma Reserve_cases subject epoch volume l t r l' t' :
  Reserve subject epoch volume l t = (r, l', t') →
  let l1 := el_purge epoch l in
  match r with
  | inl ErrEnvelopeSaturated =>
      el_agg l1 !! (subject, epoch) = None ∧ el_Len l1 = el_max l ∧ (l', t') = el_trip l1 t
  | inl ErrEnvelopeOverflow => 2^64 ≤ Aggregate subject epoch l1 + volume ∧ l' = l1 ∧ t' = t
  | inr total =>
      total = Aggregate subject epoch l1 + volume ∧ total < 2^64 ∧ t' = t ∧
      (is_Some (el_agg l1 !! (subject, epoch)) ∨ el_Len l1 ≠ el_max l) ∧
      l' = set_agg (<[(subject, epoch) := total]> (el_agg l1)) l1
  end.
Proof.
  unfold Reserve. intros E. cbv zeta in *. change (el_max (el_purge epoch l)) with (el_max l) in E.
  destruct (bool_decide (el_agg (el_purge epoch l) !! (subject, epoch) = None)) eqn:EB; simpl in E.
  - apply bool_decide_eq_true in EB.
    destruct (Z.eqb_spec (el_Len (el_purge epoch l)) (el_max l)).
    { destruct (el_trip (el_purge epoch l) t) as [l2 t1]. by simplify_eq. }
    destruct (Z.ltb_spec (2^64 - 1 - volume) (Aggregate subject epoch (el_purge epoch l))); simplify_eq; [auto with lia|].
    split_and!; auto; lia.
  - apply bool_decide_eq_false in EB.
    destruct (Z.ltb_spec (2^64 - 1 - volume) (Aggregate subject epoch (el_purge epoch l))); simplify_eq; [auto with lia|].
    split_and!; auto; [lia|]. left. by apply not_eq_None_Some.
Qed.

(** Setting the aggregate of a key to the volume now held for it. *)
Lemma env_inv_set max onTrip top held held' l k v :
  env_inv max onTrip top held l → top ≤ k.2 → 0 ≤ v < 2^64 →
  Forall (λ r, in_u64 r.2) held' →
  (is_Some (el_agg l !! k) ∨ el_Len l ≠ el_max l) →
  volume_of k held' = v → (∀ j, j ≠ k → volume_of j held' = volume_of j held) →
  env_inv max onTrip top held' (set_agg (<[k := v]> (el_agg l)) l).
Proof.
  intros (H1 & H2 & H3 & H4 & H5 & H6 & H7) Hk Hv HF HR Hvk Hvj. split_and!; try done; simpl.
  - unfold el_Len in *. simpl. rewrite map_size_insert.
    destruct (el_agg l !! k) as [x|]; [exact H3|]. destruct HR as [[? ?]|HR]; [done|]. rewrite H1 in HR. lia.
  - intros j. destruct (decide (j = k)) as [->|Hj]; [by rewrite lookup_insert_eq|].
    rewrite lookup_insert_ne by done. by rewrite H5, Hvj.
  - intros j Hj. rewrite lookup_insert_ne; [by apply H6|]. intros <-. lia.
  - intros j x. destruct (decide (j = k)) as [->|Hj]; [rewrite lookup_insert_eq; by intros [= <-]|].
    rewrite lookup_insert_ne by done. apply H7.
Qed.

Lemma Release_inv max onTrip top held held' l subject epoch volume :
  env_inv max onTrip top held l → held ≡ₚ ((subject, epoch), volume) :: held' →
  env_inv max onTrip top held' (Release subject epoch volume l).
Proof.
  intros HI HP. pose proof HI as (H1 & H2 & H3 & H4 & H5 & H6 & H7).
  assert (Forall (λ r, in_u64 r.2) held' ∧ in_u64 volume) as [HF HV].
  { rewrite HP in H4. apply Forall_cons in H4 as [? ?]. done. }
  set (k := (subject, epoch)) in *.
  assert (volume_of k held = volume + volume_of k held') as Ek.
  { rewrite (volume_of_perm _ _ _ HP), volume_of_cons. simpl. by rewrite decide_True. }
  assert (∀ j, j ≠ k → volume_of j held' = volume_of j held) as Ej.
  { intros j Hj. rewrite (volume_of_perm _ _ _ HP), volume_of_cons. simpl. by rewrite decide_False. }
  pose proof (volume_of_nonneg k held' (held_nonneg _ HF)) as Hpos. unfold in_u64 in HV.
  pose proof (H5 k) as Hk. unfold Release. fold k. destruct (el_agg l !! k) as [cur|] eqn:El; simpl in Hk.
  - destruct (Z.leb_spec cur volume).
    + split_and!; try done; simpl.
      * unfold el_Len in *. simpl. rewrite map_size_delete, El. simpl. lia.
      * intros j. destruct (decide (j = k)) as [->|Hj]; [rewrite lookup_delete_eq; simpl; lia|].
        rewrite lookup_delete_ne by done. by rewrite H5, Ej.
      * intros j Hj. destruct (decide (j = k)) as [->|]; [by rewrite lookup_delete_eq|].
        rewrite lookup_delete_ne by done. by apply H6.
      * intros j x [_ Hx]%lookup_delete_Some. by eapply H7.
    + pose proof (H7 k cur El) as Hc. unfold in_u64 in Hc.
      apply (env_inv_set max onTrip top held); [done| |lia|done|by left|lia|done].
      destruct (Z.le_gt_cases top k.2); [done|]. by rewrite H6 in El.
  - split_and!; try done. intros j. destruct (decide (j = k)) as [->|Hj]; [rewrite El; simpl; lia|].
    by rewrite H5, Ej.
Qed.

Lemma env_run_inv max onTrip top held l :
  env_run max onTrip top held l → env_inv max onTrip top held l.
Proof.
  induction 1 as [l HN|top held l t subject epoch volume r l' t' _ IH Hle Hv HR
    |top held held' l subject epoch volume _ IH HP|top held l subject epoch volume _ IH Hlt].
  - unfold NewEnvelopeLedger in HN. destruct (Z.leb_spec max 0); [done|]. injection HN as <-.
    split_and!; try done. unfold el_Len. cbn [el_agg]. rewrite map_size_empty. lia.
  - pose proof (el_purge_inv _ _ _ epoch _ _ IH Hle) as HI. apply Reserve_cases in HR. cbv zeta in HR.
    destruct r as [[|]|total].
    + destruct HR as (_ & _ & HT). simpl. unfold el_trip in HT. by destruct (el_tripped _); injection HT as -> ->.
    + destruct HR as (_ & -> & _). done.
    + destruct HR as (-> & Hlt & _ & HS & ->). unfold Aggregate in *.
      pose proof HI as (_ & _ & _ & HF & HA & _). rewrite HA in *. unfold in_u64 in Hv.
      pose proof (volume_of_nonneg (subject, epoch) (current epoch held) (held_nonneg _ HF)).
      apply (env_inv_set _ _ _ (current epoch held)); simpl; try done; try lia.
      * apply Forall_cons. split; [done|done].
      * rewrite volume_of_cons. simpl. rewrite decide_True by done. lia.
      * intros j Hj. rewrite volume_of_cons. simpl. by rewrite decide_False.
  - by apply (Release_inv _ _ _ held).
  - unfold Release. destruct IH as (H1 & H2 & H3 & H4 & H5 & H6 & H7). rewrite H6 by done. done.
Qed.

(** ** The claims *)

(** The envelope counts what is out. In any run of any number of requests, as long as none
    reserves for an epoch the ledger has left behind, the total the engine is asked about is
    exactly the volume of every reservation in force for that entity and epoch, this one
    included, and never wraps; a reservation is refused only when the total would not fit in 64
    bits or a new entity finds the ledger full; and the ledger never holds more than [max]
    entries. *)
Theorem envelope_counts_outstanding max onTrip top held l t subject epoch volume :
  env_run max onTrip top held l → top ≤ epoch → in_u64 volume →
  let '(r, l', t') := Reserve subject epoch volume l t in
  let out := volume_of (subject, epoch) (current epoch held) + volume in
  el_Len l' ≤ max ∧
  match r with
  | inr total => total = out ∧ in_u64 total ∧ Aggregate subject epoch l' = total
  | inl ErrEnvelopeOverflow => 2^64 ≤ out
  | inl ErrEnvelopeSaturated =>
      Aggregate subject epoch l' = 0 ∧ el_Len l' = max ∧ el_tripped l' = true ∧
      alarms_of t' = alarms_of t ++ (if onTrip && negb (el_tripped l) then [TripReasonEnvelopeSaturated] else [])
  end.
Proof.
  intros HR Hle Hv. destruct (Reserve subject epoch volume l t) as [[r l'] t'] eqn:E.
  pose proof (env_run_inv _ _ _ _ _ HR) as HI0. pose proof (el_purge_inv _ _ _ epoch _ _ HI0 Hle) as HI.
  pose proof (env_run_inv _ _ _ _ _ (env_reserve _ _ _ _ _ _ _ _ _ _ _ _ HR Hle Hv E)) as (_ & _ & HL & HF & HA & _).
  cbv zeta. split; [done|]. apply Reserve_cases in E. cbv zeta in E.
  destruct HI as (HM & HO & _ & HF0 & HA0 & _). unfold in_u64 in Hv.
  pose proof (volume_of_nonneg (subject, epoch) (current epoch held) (held_nonneg _ HF0)).
  destruct r as [[|]|total].
  - destruct E as (EN & EL & ET). unfold el_trip in ET. change (el_max l) with (el_max (el_purge epoch l)) in EL.
    rewrite HM in EL. change (el_tripped (el_purge epoch l)) with (el_tripped l) in ET.
    change (el_onTrip (el_purge epoch l)) with (el_onTrip l) in *. subst onTrip.
    destruct (el_tripped l) eqn:ETr; injection ET as -> ->; unfold Aggregate; simpl in *; rewrite EN;
      (split_and!; [done|exact EL|done|]).
    + by rewrite andb_false_r, app_nil_r.
    + rewrite andb_true_r. apply alarms_of_call.
  - destruct E as (E & _ & _). unfold Aggregate in E. by rewrite HA0 in E.
  - destruct E as (-> & Hlt & _ & _ & ->). unfold Aggregate in *. rewrite HA0 in *. simpl.
    rewrite lookup_insert_eq. unfold in_u64. simpl. lia.
Qed.

(** ** Passports in flight *)

(** A passport asked for: its reservation, the total it was reserved under, and whether the engine
    has allowed it. A passport that is refused, or cannot be signed, disappears. *)
Record passport := mkPassport { pt_key : envelopeKey; pt_volume : Z; pt_total : Z; pt_granted : bool }.

Definition reservation (p : passport) : envelopeKey * Z := (pt_key p, pt_volume p).
Definition grant (p : passport) : passport := mkPassport (pt_key p) (pt_volume p) (pt_total p) true.

Definition passport_question (p : passport) (resource operation : string) : EnvelopeInput :=
  mkEnvelopeInput (pt_key p).1 (pt_key p).2 resource operation (pt_volume p) (pt_total p).

Definition give_back (p : passport) (l : EnvelopeLedger) : EnvelopeLedger :=
  Release (pt_key p).1 (pt_key p).2 (pt_volume p) l.

Section passports.
Context (e : EnvelopeEvaluator) (answer : EnvelopeInput → opa_io) (max : Z) (onTrip : bool).

(** Any number of requests, at any stage, in any order: [ps] lists the passports reserved and not
    given back, the latest first. *)
Inductive passport_run : Z → list passport → EnvelopeLedger → Prop :=
  | pr_new l : NewEnvelopeLedger max onTrip = Some l → passport_run 0 [] l
  | pr_reserve top ps l t subject epoch volume r l' t' :
      passport_run top ps l → top ≤ epoch → in_u64 volume →
      Reserve subject epoch volume l t = (r, l', t') →
      passport_run epoch
        (match r with inr total => [mkPassport (subject, epoch) volume total false] | inl _ => [] end ++ ps) l'
  | pr_answer top ps1 p ps2 l x t resource operation :
      passport_run top (ps1 ++ p :: ps2) l → pt_granted p = false →
      let d := (EvalEnvelope e answer x (passport_question p resource operation) t).1 in
      passport_run top (ps1 ++ (if ed_Allow d then [grant p] else []) ++ ps2)
        (if ed_Allow d then l else give_back p l)
  | pr_unsigned top ps1 p ps2 l :
      passport_run top (ps1 ++ p :: ps2) l → pt_granted p = true →
      passport_run top (ps1 ++ ps2) (give_back p l).

Definition held_by (top : Z) (ps : list passport) : list (envelopeKey * Z) := current top (reservation <$> ps).

Lemma current_current top epoch held : top ≤ epoch → current epoch (current top held) = current epoch held.
Proof.
  intros Hle. unfold current. rewrite list_filter_filter. apply list_filter_iff. intros r. naive_solver lia.
Qed.

Lemma held_by_give_back top ps1 p ps2 l :
  env_run max onTrip top (held_by top (ps1 ++ p :: ps2)) l →
  env_run max onTrip top (held_by top (ps1 ++ ps2)) (give_back p l).
Proof.
  intros HR. unfold held_by, current in *. rewrite !fmap_app, !filter_app in *. rewrite fmap_cons, filter_cons in HR.
  unfold give_back. destruct p as [[s ep] v total g]. simpl in *. destruct (decide (top ≤ ep)) as [Hle|Hle].
  - eapply env_release; [exact HR|]. by rewrite Permutation_middle.
  - apply env_release_late; [done|lia].
Qed.

Lemma passport_env top ps l : passport_run top ps l → env_run max onTrip top (held_by top ps) l.
Proof.
  induction 1 as [l HN|top ps l t subject epoch volume r l' t' _ IH Hle Hv HR|top ps1 p ps2 l x t res op _ IH Hg d
    |top ps1 p ps2 l _ IH Hg].
  - by apply env_new.
  - pose proof (env_reserve _ _ _ _ _ _ _ _ _ _ _ _ IH Hle Hv HR) as HE.
    unfold held_by in *. rewrite current_current in HE by done.
    destruct r as [err|total]; simpl in *; [done|]. unfold current at 1. rewrite filter_cons. simpl.
    by rewrite decide_True.
  - destruct (ed_Allow d); [|by apply held_by_give_back].
    replace (held_by top (ps1 ++ [grant p] ++ ps2)) with (held_by top (ps1 ++ p :: ps2)); [done|].
    unfold held_by. by rewrite !fmap_app.
  - by apply held_by_give_back.
Qed.

(** The total of a passport covers it and those reserved before it for the same key. *)
Fixpoint covered (ps : list passport) : Prop :=
  match ps with
  | [] => True
  | p :: ps' => volume_of (pt_key p) (reservation <$> ps) ≤ pt_total p ∧ covered ps'
  end.

Definition volumes_ok (ps : list passport) : Prop := Forall (λ p, 0 ≤ pt_volume p) ps.

Lemma volume_of_sublist k ps ps' :
  sublist ps' ps → volumes_ok ps → volume_of k (reservation <$> ps') ≤ volume_of k (reservation <$> ps).
Proof.
  induction 1 as [|q l1 l2 _ IH|q l1 l2 _ IH]; [done|..]; intros [Hq HV]%Forall_cons;
    rewrite !fmap_cons, !volume_of_cons || rewrite fmap_cons, volume_of_cons; specialize (IH HV); simpl;
    case_decide; lia.
Qed.

Lemma covered_sublist ps ps' : sublist ps' ps → volumes_ok ps → covered ps → covered ps'.
Proof.
  induction 1 as [|q l1 l2 HS IH|q l1 l2 HS IH]; [done|..]; intros [Hq HV]%Forall_cons [HC1 HC2].
  - split; [|by apply IH]. etrans; [|exact HC1]. apply volume_of_sublist; [by constructor|by constructor].
  - by apply IH.
Qed.

Lemma covered_grant ps1 p ps2 : covered (ps1 ++ p :: ps2) → covered (ps1 ++ [grant p] ++ ps2).
Proof.
  induction ps1 as [|q ps1 IH]; [done|]. simpl. intros [HC1 HC2]. split; [|by apply IH].
  revert HC1. by rewrite !fmap_app.
Qed.

Lemma give_back_covered ps1 p ps2 : volumes_ok (ps1 ++ p :: ps2) → covered (ps1 ++ p :: ps2) →
  volumes_ok (ps1 ++ ps2) ∧ covered (ps1 ++ ps2).
Proof.
  intros HV HC. assert (sublist (ps1 ++ ps2) (ps1 ++ p :: ps2)) as HS by (apply sublist_app; [done|by constructor]).
  split; [|by eapply covered_sublist]. revert HV. unfold volumes_ok. rewrite !Forall_app, Forall_cons. naive_solver.
Qed.

Lemma passport_covered top ps l : passport_run top ps l → volumes_ok ps ∧ covered ps.
Proof.
  intros HR. induction HR as [l HN|top ps l t subject epoch volume r l' t' HR [IHV IHC] Hle Hv HRes
    |top ps1 p ps2 l x t res op HR [IHV IHC] Hg d|top ps1 p ps2 l HR [IHV IHC] Hg].
  - by split; [constructor|].
  - pose proof (passport_env _ _ _ HR) as HE. destruct (env_run_inv _ _ _ _ _ HE) as (_ & _ & _ & _ & HA & _).
    destruct r as [err|total]; simpl; [done|]. apply Reserve_cases in HRes as (-> & _).
    unfold in_u64 in Hv. split; [constructor; [simpl; lia|done]|]. split; [|done].
    rewrite volume_of_cons. simpl. rewrite decide_True by done.
    unfold Aggregate. rewrite el_purge_lookup. simpl. rewrite decide_True by lia. rewrite HA.
    unfold held_by. rewrite volume_of_current. simpl. rewrite decide_True by done. unfold fmap. lia.
  - destruct (ed_Allow d); [|by apply give_back_covered with p]. split; [|by apply covered_grant].
    revert IHV. unfold volumes_ok. rewrite !Forall_app, Forall_cons, Forall_singleton. naive_solver.
  - by apply give_back_covered with p.
Qed.

(** Granted passports were allowed under their total. *)
Lemma passport_granted top ps l :
  passport_run top ps l →
  Forall (λ p, pt_granted p = true → ∃ res op, answer (passport_question p res op) = IoResult (Some (Some true))) ps.
Proof.
  induction 1 as [l HN|top ps l t subject epoch volume r l' t' _ IH Hle Hv HRes
    |top ps1 p ps2 l x t res op _ IH Hg d|top ps1 p ps2 l _ IH Hg].
  - constructor.
  - destruct r; simpl; [done|]. by constructor.
  - rewrite Forall_app, Forall_cons in IH. destruct IH as (H1 & _ & H2). rewrite !Forall_app. split_and!; [done| |done].
    destruct (ed_Allow d) eqn:ED; [|constructor]. apply EvalEnvelope_allow in ED.
    apply Forall_singleton. intros _. by exists res, op.
  - rewrite Forall_app, Forall_cons in IH. rewrite Forall_app. naive_solver.
Qed.

(** The granted passports of a key weigh no more than the total of the latest of them. *)
Lemma granted_volume k ps :
  volumes_ok ps → covered ps →
  volume_of k (reservation <$> filter (λ p, pt_granted p = true) ps) = 0 ∨
  ∃ p, p ∈ ps ∧ pt_granted p = true ∧ pt_key p = k ∧
    volume_of k (reservation <$> filter (λ p, pt_granted p = true) ps) ≤ pt_total p.
Proof.
  induction ps as [|p ps IH]; [by left|]. intros HV [HC1 HC2]. pose proof HV as [Hp HV']%Forall_cons.
  destruct (decide (pt_granted p = true ∧ pt_key p = k)) as [[Hg <-]|Hno].
  - right. exists p. split_and!; [by left|done..|]. etrans; [|exact HC1].
    apply volume_of_sublist; [apply sublist_filter|done].
  - rewrite filter_cons. destruct (IH HV' HC2) as [E|(q & Hq & ? & ? & Hle)]; [left|right].
    + destruct (decide _) as [Hg|]; [|done]. rewrite fmap_cons, volume_of_cons. simpl. rewrite decide_False by naive_solver. lia.
    + exists q. split_and!; [by right|done..|]. destruct (decide _) as [Hg|]; [|done].
      rewrite fmap_cons, volume_of_cons. simpl. rewrite decide_False by naive_solver. lia.
Qed.
End passports.

(** C21: concurrent requests never over-issue. When the rule of the engine allows no total beyond the
    limit of an entity and epoch, then however the requests interleave between their reservation,
    the answer of the engine and their signature, the passports granted for that entity and epoch
    never weigh more than the limit; provided no request reserves for an epoch the ledger has
    already left behind. *)
Theorem no_over_issue e answer max onTrip limit top ps l subject epoch :
  (∀ inp, answer inp = IoResult (Some (Some true)) → ei_Issued inp ≤ limit (ei_Subject inp) (ei_Epoch inp)) →
  0 ≤ limit subject epoch →
  passport_run e answer max onTrip top ps l →
  volume_of (subject, epoch) (reservation <$> filter (λ p, pt_granted p = true) ps) ≤ limit subject epoch.
Proof.
  intros HL H0 HR. destruct (passport_covered _ _ _ _ _ _ _ HR) as [HV HC].
  destruct (granted_volume (subject, epoch) ps HV HC) as [E|(p & Hp & Hg & Hk & Hle)]; [lia|].
  pose proof (passport_granted _ _ _ _ _ _ _ HR) as HG. rewrite Forall_forall in HG.
  destruct (HG p Hp Hg) as (res & op & HA). apply HL in HA. simpl in HA. rewrite Hk in HA. simpl in HA. lia.
Qed.
