(* ===== verification/Registries.v ===== *)
(** The registries of the broker: [src/broker/agent_registry.go] and
    [src/broker/skill_registry.go].

    Both are tables provisioned before the broker starts and never changed by it: what an agent
    may ask, over which transport, and which resources each named action may touch. *)
From S2P Require Import Prelude.
From S2P Require Import Token.

Local Open Scope Z_scope.

(** ** Agents *)

Record AgentQuotaPolicy := mkAgentQuotaPolicy { aq_MaxVolume : Z; aq_MaxWindowS : Z }.

Record AgentRecord := mkAgentRecord {
  ag_Class : Class_; ag_Quota : option AgentQuotaPolicy; ag_TransportIdentity : string }.

(** [AgentRegistry], and the static table that implements it. *)
Class AgentRegistry (R : Type) := resolve_agent : R → string → option AgentRecord.

Definition StaticAgentRegistry : Type := gmap string AgentRecord.
#[global] Instance static_agents : AgentRegistry StaticAgentRegistry := λ r subject, r !! subject.

(** ** Skills *)

Definition TierLow : string := "low".
Definition TierMedium : string := "medium".
Definition TierHigh : string := "high".
Definition TierCritical : string := "critical".

Definition tierMaxScope (t : string) : option Z :=
  if bool_decide (t = TierLow) then Some 8
  else if bool_decide (t = TierMedium) then Some 32
  else if bool_decide (t = TierHigh) then Some 128
  else None.

Definition tier_Valid (t : string) : bool := bool_decide (t ∈ [TierLow; TierMedium; TierHigh; TierCritical]).

Record SkillRecord := mkSkillRecord {
  sr_Provenance : string; sr_Scope : list string; sr_RiskTier : string }.

Inductive skill_error := SkillNoProvenance | SkillBadTier | SkillScopeTooWide.

Definition skill_Validate (r : SkillRecord) : option skill_error :=
  if bool_decide (sr_Provenance r = "") then Some SkillNoProvenance
  else if negb (tier_Valid (sr_RiskTier r)) then Some SkillBadTier
  else match tierMaxScope (sr_RiskTier r) with
       | Some max => if max <? Z.of_nat (length (sr_Scope r)) then Some SkillScopeTooWide else None
       | None => None
       end.

(** [allows]: the loop over the scope. *)
Fixpoint scope_allows (scope : list string) (resource : string) : bool :=
  match scope with
  | [] => false
  | allowed :: rest => if bool_decide (allowed = resource) then true else scope_allows rest resource
  end.
Definition skill_allows (r : SkillRecord) (resource : string) : bool := scope_allows (sr_Scope r) resource.

Class SkillRegistry (R : Type) := resolve_skill : R → string → option SkillRecord.

Definition StaticSkillRegistry : Type := gmap string SkillRecord.
#[global] Instance static_skills : SkillRegistry StaticSkillRegistry := λ r action, r !! action.

(** The scope is a set of exact names: no prefix, no pattern. *)
Lemma skill_allows_exactly r resource : skill_allows r resource = true ↔ resource ∈ sr_Scope r.
Proof.
  unfold skill_allows. induction (sr_Scope r) as [|a l IH]; simpl.
  - split; [done|]. by intros ?%not_elem_of_nil.
  - rewrite elem_of_cons. case_bool_decide as E; [split; [by left|done]|]. rewrite IH. naive_solver.
Qed.

(** A validated skill has a known tier, and below the critical one it names at most 128
    resources. *)
Lemma skill_scope_bounded r :
  skill_Validate r = None →
  tier_Valid (sr_RiskTier r) = true ∧
  (sr_RiskTier r ≠ TierCritical → Z.of_nat (length (sr_Scope r)) ≤ 128).
Proof.
  unfold skill_Validate. case_bool_decide; [done|]. destruct (tier_Valid (sr_RiskTier r)) eqn:EV; [|done].
  simpl. intros HV. split; [done|]. intros HT. unfold tier_Valid in EV. apply bool_decide_eq_true in EV.
  unfold tierMaxScope in HV.
  repeat (apply elem_of_cons in EV as [EV|EV]; [rewrite EV in HV; simpl in HV|]); [..|by apply elem_of_nil in EV].
  all: try (match type of HV with context [?a <? ?b] => destruct (Z.ltb_spec a b) end; [done|lia]). done.
Qed.
