(* ===== verification/StrictJson.v ===== *)
(** The strict decoder: [src/strictjson/strictjson.go].

    [Decode] reads one JSON document and refuses what the standard decoder accepts in silence:
    invalid UTF-8, a key twice in an object, a key that is not exactly a field of the target type,
    content after the document. A document is its tree [jdoc]; what the standard decoder makes of
    some bytes is a [reading], the document and what follows it, or the tokens it gives before it
    fails. The target type is described by [gtype], what reflection shows of it. The last pass, the
    standard decoder into the target, is the parameter [unmarshal]. *)
From stdpp Require Import pretty.
From S2P Require Import Prelude.
From S2P Require Import Hex.
From S2P Require Import Json.

Local Open Scope Z_scope.

Definition CodeDuplicateKey : string := "duplicate-key".
Definition CodeUnknownField : string := "unknown-field".
Definition CodeTrailingContent : string := "trailing-content".
Definition CodeInvalidUTF8 : string := "invalid-utf8".
Definition CodeSyntax : string := "syntax".
Definition CodeType : string := "type".
Definition maxKeyEcho : nat := 64.

Record Detail := mkDetail { dt_Code : string; dt_Key : string; dt_Path : string; dt_Accepted : list string }.

(** ** UTF-8 *)

(** [utf8.Valid]. *)
Fixpoint utf8_Valid (s : bytes) : bool :=
  match s with
  | [] => true
  | b0 :: s0 =>
      if ascii b0 then utf8_Valid s0
      else match s0 with
      | b1 :: s1 =>
          if rune2 b0 b1 then utf8_Valid s1
          else match s1 with
          | b2 :: s2 =>
              if rune3 b0 b1 b2 then utf8_Valid s2
              else match s2 with
              | b3 :: s3 => rune4 b0 b1 b2 b3 && utf8_Valid s3
              | [] => false
              end
          | [] => false
          end
      | [] => false
      end
  end.

(** [utf8.RuneStart]. *)
Definition RuneStart (b : byte) : bool := negb (cont b).

(** The loop of [truncKey]: back to the start of a rune. *)
Fixpoint cut_at (k : bytes) (cut : nat) : nat :=
  match cut with
  | O => O
  | S n => match k !! cut with
           | Some b => if RuneStart b then cut else cut_at k n
           | None => cut
           end
  end.

Definition truncKey (k : string) : string :=
  if (slen k <=? maxKeyEcho)%nat then k
  else bs (take (cut_at (sb k) maxKeyEcho) (sb k)) +:+ "…".

Definition fail (code key path : string) (accepted : list string) : Detail :=
  mkDetail code (truncKey key) path accepted.

(** ** Documents *)

(** A number is [m * 10^e]; the keys of an object are decoded and in order, repetitions included. *)
Inductive jdoc :=
  | JNull | JBool (b : bool) | JNum (m e : Z) | JStr (s : string)
  | JArr (l : list jdoc) | JObj (ms : list (string * jdoc)).

Section jdoc_ind.
Context (P : jdoc → Prop).
Context (Hnull : P JNull) (Hbool : ∀ b, P (JBool b)) (Hnum : ∀ m e, P (JNum m e)) (Hstr : ∀ s, P (JStr s)).
Context (Harr : ∀ l, Forall P l → P (JArr l)) (Hobj : ∀ ms, Forall (λ m, P m.2) ms → P (JObj ms)).

Fixpoint jdoc_tree_ind (v : jdoc) : P v :=
  match v with
  | JNull => Hnull | JBool b => Hbool b | JNum m e => Hnum m e | JStr s => Hstr s
  | JArr l => Harr l ((fix go l : Forall P l :=
      match l with [] => Forall_nil_2 _ | v :: l => Forall_cons_2 _ _ _ (jdoc_tree_ind v) (go l) end) l)
  | JObj ms => Hobj ms ((fix go ms : Forall (λ m, P m.2) ms :=
      match ms with [] => Forall_nil_2 _ | m :: ms => Forall_cons_2 _ _ _ (jdoc_tree_ind m.2) (go ms) end) ms)
  end.
End jdoc_ind.

(** Whether a number fits a [float64]: below the midpoint after the largest one. *)
Definition float_bound : Z := 2 ^ 1024 - 2 ^ 970.
Definition in_float (m e : Z) : bool :=
  if 0 <=? e then Z.abs m * 10 ^ e <? float_bound else Z.abs m <? float_bound * 10 ^ (- e).

(** What [Decoder.Token] returns: a delimiter, a string, another scalar, an error. It converts a
    number to a [float64], and fails when it does not fit. *)
Inductive token := TokOpenObj | TokOpenArr | TokClose | TokStr (s : string) | TokScalar | TokErr.

Fixpoint tokens (v : jdoc) : list token :=
  match v with
  | JNull | JBool _ => [TokScalar]
  | JNum m e => [if in_float m e then TokScalar else TokErr]
  | JStr s => [TokStr s]
  | JArr l => TokOpenArr :: concat (map tokens l) ++ [TokClose]
  | JObj ms => TokOpenObj :: concat (map (λ m, TokStr m.1 :: tokens m.2) ms) ++ [TokClose]
  end.

(** What the standard decoder reads in some bytes: no document, after some tokens; or a document,
    and what follows it if anything does. *)
Inductive reading := Malformed (seen : list token) | Document (v : jdoc) (after : option (list token)).

Definition tokens_read (r : reading) : list token :=
  match r with
  | Malformed seen => seen
  | Document v after => tokens v ++ default [] after
  end.

(** ** Duplicate keys *)

(** The two stacks of [duplicateKey], their top first: the keys of each open object, nothing for
    an array; whether its next token is a key. *)
Record dk_state := mkDk { dk_keys : list (option (gset string)); dk_expect : list bool }.

(** After a value, an object expects a key. *)
Definition value_done (s : dk_state) : dk_state :=
  match dk_keys s, dk_expect s with
  | Some _ :: _, _ :: es => mkDk (dk_keys s) (true :: es)
  | _, _ => s
  end.

Definition dk_step (t : token) (s : dk_state) : string + dk_state :=
  match t with
  | TokOpenObj => inr (mkDk (Some ∅ :: dk_keys s) (true :: dk_expect s))
  | TokOpenArr => inr (mkDk (None :: dk_keys s) (false :: dk_expect s))
  | TokClose => inr (value_done (mkDk (tail (dk_keys s)) (tail (dk_expect s))))
  | TokStr k =>
      match dk_keys s, dk_expect s with
      | Some ks :: kss, true :: es =>
          if bool_decide (k ∈ ks) then inl k else inr (mkDk (Some ({[k]} ∪ ks) :: kss) (false :: es))
      | _, _ => inr (value_done s)
      end
  | _ => inr (value_done s)
  end.

Fixpoint dk_run (ts : list token) (s : dk_state) : option string :=
  match ts with
  | [] | TokErr :: _ => None
  | t :: ts => match dk_step t s with inl k => Some k | inr s1 => dk_run ts s1 end
  end.

Definition duplicateKey (ts : list token) : option string := dk_run ts (mkDk [] []).

(** ** Types *)

(** A field as reflection shows it. *)
Record StructField := mkStructField { sf_Name : string; sf_Tag : string; sf_Anonymous : bool; sf_Exported : bool }.

Inductive scalar_kind := KString | KBool | KNumber.

(** [GSelf u] decodes itself and is a [u] otherwise. *)
Inductive gtype :=
  | GScalar (k : scalar_kind) | GIface | GSelf (u : gtype) | GPtr (u : gtype) | GStruct (fs : list (StructField * gtype))
  | GSlice (u : gtype) | GArray (n : nat) (u : gtype) | GMap (u : gtype).

Fixpoint deref (t : gtype) : gtype := match t with GPtr u => deref u | _ => t end.
Fixpoint is_struct (t : gtype) : bool := match t with GSelf u => is_struct u | GStruct _ => true | _ => false end.

Fixpoint before_comma (s : string) : string :=
  match s with
  | EmptyString => EmptyString
  | String c s => if Byte.eqb (Ascii.byte_of_ascii c) Json.comma then EmptyString else String c (before_comma s)
  end.

Definition field_name (f : StructField) : string :=
  if bool_decide (before_comma (sf_Tag f) = "") then sf_Name f else before_comma (sf_Tag f).
Definition embeds (f : StructField) : bool :=
  sf_Anonymous f && (bool_decide (sf_Tag f = "") || String.prefix "," (sf_Tag f)).

(** [collect], which adds to the table [out]. *)
Fixpoint collect (t : gtype) (out : gmap string gtype) : gmap string gtype :=
  match t with
  | GPtr u | GSelf u => collect u out
  | GStruct fs =>
      (fix go fs out := match fs with
       | [] => out
       | (f, u) :: fs =>
           go fs (if bool_decide (sf_Tag f = "-") then out
                  else if embeds f && is_struct (deref u) then collect u out
                  else if negb (sf_Exported f) then out
                  else match out !! field_name f with Some _ => out | None => <[field_name f := u]> out end)
       end) fs out
  | _ => out
  end.

Definition fieldTypes (t : gtype) : gmap string gtype := collect t ∅.

Definition sorted (ks : list string) : list string := merge_sort string_le ks.
Definition sortedNames (fields : gmap string gtype) : list string := sorted (elements (dom fields)).

Definition joinPath (path key : string) : string :=
  if bool_decide (path = "") then truncKey key else path +:+ "." +:+ truncKey key.

(** The first refusal of a list of checks. *)
Fixpoint first_error {A} (f : A → option Detail) (l : list A) : option Detail :=
  match l with
  | [] => None
  | x :: l => match f x with Some e => Some e | None => first_error f l end
  end.

(** [walk]. The object is a Go map of its members, where the last one of a name stays; each holds
    the walk of its value. *)
Definition walker : Type := gtype → string → option Detail.

Definition walk_members (obj : gmap string walker) (visit : string → walker → option Detail) : option Detail :=
  first_error (λ k, match obj !! k with Some w => visit k w | None => None end) (sorted (elements (dom obj))).

Fixpoint walk (v : jdoc) (t : gtype) (path : string) : option Detail :=
  match deref t with
  | GStruct fs =>
      match v with
      | JObj ms =>
          let fields := fieldTypes (GStruct fs) in
          walk_members (list_to_map (reverse (map (λ m, (m.1, walk m.2)) ms))) (λ k w,
            match fields !! k with
            | None => Some (fail CodeUnknownField k path (sortedNames fields))
            | Some ft => w ft (joinPath path k)
            end)
      | _ => None
      end
  | GSlice u | GArray _ u =>
      match v with
      | JArr l => first_error (λ '(i, w), w u (path +:+ "[" +:+ pretty i +:+ "]"))
                    (imap (λ i w, (N.of_nat i, w)) (map walk l))
      | _ => None
      end
  | GMap u =>
      match v with
      | JObj ms => walk_members (list_to_map (reverse (map (λ m, (m.1, walk m.2)) ms)))
                     (λ k w, w u (joinPath path (truncKey k)))
      | _ => None
      end
  | _ => None
  end.

(** ** Decode *)

(** The error of the last pass: a field of the wrong type, or something else. *)
Inductive unmarshal_error := WrongType (field : string) | OtherError.

Section decode.
Context (unmarshal : gtype → jdoc → option unmarshal_error).

Definition Decode (data : bytes) (r : reading) (t : gtype) : Detail + jdoc :=
  if negb (utf8_Valid data) then inl (fail CodeInvalidUTF8 "" "" [])
  else match duplicateKey (tokens_read r) with
  | Some key => inl (fail CodeDuplicateKey key "" [])
  | None =>
      match r with
      | Malformed _ => inl (fail CodeSyntax "" "" [])
      | Document v (Some _) => inl (fail CodeTrailingContent "" "" [])
      | Document v None =>
          match walk v t "" with
          | Some e => inl e
          | None => match unmarshal t v with
                    | Some (WrongType field) => inl (fail CodeType field "" [])
                    | Some OtherError => inl (fail CodeSyntax "" "" [])
                    | None => inr v
                    end
          end
      end
  end.
End decode.

(** ** What a document without surprise is *)

(** No object has a key twice. *)
Fixpoint unique (v : jdoc) : Prop :=
  match v with
  | JArr l => (fix go l := match l with [] => True | v :: l => unique v ∧ go l end) l
  | JObj ms => NoDup ms.*1 ∧ (fix go ms := match ms with [] => True | m :: ms => unique m.2 ∧ go ms end) ms
  | _ => True
  end.

Fixpoint numbers_fit (v : jdoc) : bool :=
  match v with
  | JNum m e => in_float m e
  | JArr l => forallb numbers_fit l
  | JObj ms => forallb (λ m, numbers_fit m.2) ms
  | _ => true
  end.

(** Every key of an object read as a structure is one of its fields, at each depth. *)
Fixpoint exact (v : jdoc) (t : gtype) : Prop :=
  match deref t, v with
  | GStruct fs, JObj ms =>
      (fix go ms := match ms with
       | [] => True
       | m :: ms => (∃ ft, fieldTypes (GStruct fs) !! m.1 = Some ft ∧ exact m.2 ft) ∧ go ms
       end) ms
  | GMap u, JObj ms => (fix go ms := match ms with [] => True | m :: ms => exact m.2 u ∧ go ms end) ms
  | (GSlice u | GArray _ u), JArr l => (fix go l := match l with [] => True | v :: l => exact v u ∧ go l end) l
  | _, _ => True
  end.

(** Every value has the kind of its place, or is null. *)
Definition scalar_fits (k : scalar_kind) (v : jdoc) : bool :=
  match k, v with
  | _, JNull | KString, JStr _ | KBool, JBool _ | KNumber, JNum _ _ => true
  | _, _ => false
  end.
Fixpoint fits (v : jdoc) (t : gtype) : bool :=
  match deref t, v with
  | GScalar k, _ => scalar_fits k v
  | _, JNull => true
  | GStruct fs, JObj ms =>
      forallb (λ m, match fieldTypes (GStruct fs) !! m.1 with Some ft => fits m.2 ft | None => true end) ms
  | GMap u, JObj ms => forallb (λ m, fits m.2 u) ms
  | GSlice u, JArr l => forallb (λ w, fits w u) l
  | (GStruct _ | GMap _ | GSlice _), _ => false
  | _, _ => true
  end.

(** The first key that an object repeats, in the order of the document. *)
Fixpoint first_some (l : list (option string)) : option string :=
  match l with [] => None | Some k :: _ => Some k | None :: l => first_some l end.
Fixpoint first_repeat (seen : gset string) (l : list (string * option string)) : option string :=
  match l with
  | [] => None
  | (k, d) :: l =>
      if bool_decide (k ∈ seen) then Some k
      else match d with Some k1 => Some k1 | None => first_repeat ({[k]} ∪ seen) l end
  end.
Fixpoint first_dup (v : jdoc) : option string :=
  match v with
  | JArr l => first_some (map first_dup l)
  | JObj ms => first_repeat ∅ (map (λ m, (m.1, first_dup m.2)) ms)
  | _ => None
  end.

(** A type no part of which is opaque to the decoder, or keeps only some items of a list. *)
Fixpoint transparent (t : gtype) : bool :=
  match t with
  | GScalar _ => true
  | GPtr u | GSlice u | GMap u => transparent u
  | GStruct fs => forallb (λ f, transparent f.2) fs
  | _ => false
  end.

(** *** As predicates on lists *)

Lemma unique_arr l : unique (JArr l) ↔ Forall unique l.
Proof. simpl. induction l as [|v l IH]; [by split|]. rewrite Forall_cons, <-IH. done. Qed.
Lemma unique_obj ms : unique (JObj ms) ↔ NoDup ms.*1 ∧ Forall (λ m, unique m.2) ms.
Proof.
  simpl. apply and_iff_compat_l. induction ms as [|m ms IH]; [by split|]. rewrite Forall_cons, <-IH. done.
Qed.

Lemma exact_obj ms t : exact (JObj ms) t ↔
  match deref t with
  | GStruct fs => Forall (λ m, ∃ ft, fieldTypes (GStruct fs) !! m.1 = Some ft ∧ exact m.2 ft) ms
  | GMap u => Forall (λ m, exact m.2 u) ms
  | _ => True
  end.
Proof.
  simpl. destruct (deref t); try done; induction ms as [|m ms IH]; try (by split); rewrite Forall_cons, <-IH; done.
Qed.
Lemma exact_arr l t : exact (JArr l) t ↔
  match deref t with GSlice u | GArray _ u => Forall (λ v, exact v u) l | _ => True end.
Proof.
  simpl. destruct (deref t); try done; induction l as [|v l IH]; try (by split); rewrite Forall_cons, <-IH; done.
Qed.

Lemma fits_field (ms : list (string * jdoc)) t fs k w ft : deref t = GStruct fs → fits (JObj ms) t = true →
  (k, w) ∈ ms → fieldTypes (GStruct fs) !! k = Some ft → fits w ft = true.
Proof.
  intros Hd. simpl. rewrite Hd, forallb_forall. intros HF Hin%list_elem_of_In Hk.
  specialize (HF _ Hin). simpl in HF. by rewrite Hk in HF.
Qed.

(** ** The machine of [duplicateKey] is a search of the tree *)

(** A state in which a value comes next. *)
Definition at_value (s : dk_state) : Prop :=
  match dk_keys s, dk_expect s with Some _ :: _, true :: _ => False | _, _ => True end.

Definition after_value (d : option string) (ts : list token) (s : dk_state) : option string :=
  match d with Some k => Some k | None => dk_run ts (value_done s) end.

Definition scans (v : jdoc) : Prop := numbers_fit v = true →
  ∀ ts s, at_value s → dk_run (tokens v ++ ts) s = after_value (first_dup v) ts s.

Lemma scans_items l ts kss es : Forall scans l → forallb numbers_fit l = true →
  dk_run (concat (map tokens l) ++ ts) (mkDk (None :: kss) (false :: es)) =
  match first_some (map first_dup l) with Some k => Some k | None => dk_run ts (mkDk (None :: kss) (false :: es)) end.
Proof.
  induction l as [|v l IH]; [done|]. intros [Hv Hl]%Forall_cons [Hf Hfs]%andb_true_iff. simpl.
  rewrite <-app_assoc, Hv by done. unfold after_value. destruct (first_dup v); [done|]. by apply IH.
Qed.

Lemma scans_members ms ts ks kss es : Forall (λ m, scans m.2) ms → forallb (λ m, numbers_fit m.2) ms = true →
  dk_run (concat (map (λ m, TokStr m.1 :: tokens m.2) ms) ++ ts) (mkDk (Some ks :: kss) (true :: es)) =
  match first_repeat ks (map (λ m, (m.1, first_dup m.2)) ms) with
  | Some k => Some k
  | None => dk_run ts (mkDk (Some (list_to_set ms.*1 ∪ ks) :: kss) (true :: es))
  end.
Proof.
  revert ks. induction ms as [|[k w] ms IH]; intros ks; simpl.
  { intros _ _. by rewrite (left_id_L ∅ (∪)). }
  intros [Hw Hms]%Forall_cons [Hf Hfs]%andb_true_iff. case_bool_decide; [done|].
  rewrite <-app_assoc, Hw by done. unfold after_value. simpl. destruct (first_dup w); [done|]. unfold value_done. simpl.
  rewrite IH by done. case_match; [done|]. do 4 f_equal. unfold fmap. set_solver.
Qed.

Lemma scans_all v : scans v.
Proof.
  induction v as [|b|m e|str|l IH|ms IH] using jdoc_tree_ind; intros Hf ts s Hs; simpl in *.
  - done.
  - done.
  - by rewrite Hf.
  - destruct s as [[|[ks|] kss] [|[|] es]]; done.
  - rewrite <-app_assoc, scans_items by done. unfold after_value. destruct s. by case_match.
  - rewrite <-app_assoc, scans_members by done. unfold after_value. destruct s. by case_match.
Qed.


(** ** When a document passes *)

Lemma first_some_None l : first_some l = None ↔ Forall (λ d, d = None) l.
Proof. induction l as [|[k|] l IH]; simpl; rewrite ?Forall_cons; [by split|by split; [|intros []]|naive_solver]. Qed.

Lemma first_repeat_None seen l :
  first_repeat seen l = None ↔ NoDup l.*1 ∧ Forall (λ m, m.1 ∉ seen) l ∧ Forall (λ m, m.2 = None) l.
Proof.
  revert seen. induction l as [|[k d] l IH]; intros seen; simpl.
  { split; [intros _; split_and!; constructor|done]. }
  rewrite !Forall_cons, NoDup_cons. simpl. case_bool_decide; [naive_solver|]. destruct d; [naive_solver|].
  rewrite IH, !Forall_forall, list_elem_of_fmap. setoid_rewrite not_elem_of_union. split.
  - intros (Hn & Hs & Hd). split_and!; try done; [|naive_solver]. intros ([k1 d1] & -> & Hin). set_solver.
  - intros ((Hk & Hn) & (_ & Hs) & (_ & Hd)). split_and!; try done. intros [k1 d1] Hin. split; [|by apply Hs].
    rewrite elem_of_singleton. simpl. intros ->. apply Hk. by exists (k, d1).
Qed.

Lemma Forall_agree {A} (P Q : A → Prop) l : Forall (λ x, P x ↔ Q x) l → Forall P l ↔ Forall Q l.
Proof. rewrite !Forall_forall. naive_solver. Qed.

Lemma keys_of {A B C} (f : B → C) (ms : list (A * B)) : (map (λ m, (m.1, f m.2)) ms).*1 = ms.*1.
Proof. induction ms as [|m ms IH]; [done|]. simpl. by f_equal. Qed.

Lemma first_dup_None v : first_dup v = None ↔ unique v.
Proof.
  induction v as [|b|m e|str|l IH|ms IH] using jdoc_tree_ind; try done.
  - rewrite unique_arr. simpl. rewrite first_some_None. rewrite Forall_map. by apply Forall_agree.
  - rewrite unique_obj. simpl. rewrite first_repeat_None, keys_of, !Forall_map. simpl.
    rewrite (Forall_agree _ _ _ IH). rewrite !Forall_forall. set_solver.
Qed.

Lemma first_error_None {A} (f : A → option Detail) l : first_error f l = None ↔ Forall (λ x, f x = None) l.
Proof. induction l as [|x l IH]; simpl; rewrite ?Forall_cons; [by split|]. destruct (f x); naive_solver. Qed.

Lemma walk_members_None obj visit :
  walk_members obj visit = None ↔ ∀ k w, obj !! k = Some w → visit k w = None.
Proof.
  unfold walk_members. rewrite first_error_None. unfold sorted. rewrite merge_sort_Permutation, Forall_forall.
  setoid_rewrite elem_of_elements. setoid_rewrite elem_of_dom. split.
  - intros HA k w Hk. specialize (HA k). rewrite Hk in HA. by apply HA.
  - intros HA k [w Hk]. rewrite Hk. by apply HA.
Qed.

(** Without repetitions, every member stays in the map. *)
Lemma object_lookup (f : jdoc → walker) ms k w : NoDup ms.*1 →
  (list_to_map (reverse (map (λ m, (m.1, f m.2)) ms)) : gmap string walker) !! k = Some w ↔ ∃ v, (k, v) ∈ ms ∧ w = f v.
Proof.
  intros HN. rewrite <-elem_of_list_to_map.
  - rewrite elem_of_reverse. rewrite list_elem_of_In, in_map_iff. setoid_rewrite <-list_elem_of_In. split.
    + intros ([k1 v] & [= -> <-] & Hin). by exists v.
    + intros (v & Hin & ->). by exists (k, v).
  - rewrite fmap_reverse, keys_of. by rewrite reverse_Permutation.
Qed.

Lemma walk_object ms visit : NoDup ms.*1 →
  walk_members (list_to_map (reverse (map (λ m, (m.1, walk m.2)) ms))) visit = None ↔
  Forall (λ m, visit m.1 (walk m.2) = None) ms.
Proof.
  intros HN. rewrite walk_members_None, Forall_forall. setoid_rewrite object_lookup; [|done]. split.
  - intros HA [k v] Hin. apply HA. by exists v.
  - intros HA k w (v & Hin & ->). by apply (HA (k, v)).
Qed.

Lemma walk_items l u path :
  first_error (λ '(i, w), w u (path +:+ "[" +:+ pretty i +:+ "]")) (imap (λ i w, (N.of_nat i, w)) (map walk l)) = None ↔
  ∀ i v, l !! i = Some v → walk v u (path +:+ "[" +:+ pretty (N.of_nat i) +:+ "]") = None.
Proof.
  rewrite first_error_None, Forall_lookup. setoid_rewrite list_lookup_imap. setoid_rewrite list_lookup_fmap. split.
  - intros HA i v Hi. specialize (HA i (N.of_nat i, walk v)). simpl in HA. apply HA. by rewrite Hi.
  - intros HA i x Hx. destruct (l !! i) as [v|] eqn:Hi; [|done]. injection Hx as <-. by apply HA.
Qed.

Lemma items_exact l u path : Forall (λ v, ∀ t path, unique v → walk v t path = None ↔ exact v t) l → Forall unique l →
  first_error (λ '(i, w), w u (path +:+ "[" +:+ pretty i +:+ "]")) (imap (λ i w, (N.of_nat i, w)) (map walk l)) = None ↔
  Forall (λ v, exact v u) l.
Proof.
  intros IH HU. rewrite walk_items, Forall_lookup. rewrite Forall_lookup in IH, HU.
  split; intros HA i v Hi; [rewrite <-IH|rewrite IH]; eauto.
Qed.

Lemma walk_exact v : ∀ t path, unique v → walk v t path = None ↔ exact v t.
Proof.
  induction v as [|b|m e|str|l IH|ms IH] using jdoc_tree_ind; intros t path.
  1-4: by simpl; destruct (deref t).
  - rewrite unique_arr, exact_arr. intros HU. simpl. destruct (deref t); try done; by apply items_exact.
  - rewrite unique_obj, exact_obj. intros [HN HU]. simpl. rewrite Forall_forall in IH, HU.
    destruct (deref t); try done; rewrite walk_object by done; rewrite !Forall_forall.
    + split; intros HA m Hm; specialize (HA m Hm); simpl in *.
      * destruct (_ !! m.1) as [ft|]; [|done]. exists ft. split; [done|]. eapply IH; eauto.
      * destruct HA as (ft & -> & HE). by apply IH; auto.
    + split; intros HA m Hm; specialize (HA m Hm); eapply IH; eauto.
Qed.

(** [duplicateKey] on a document that is alone, and before something else. *)
Lemma duplicateKey_tree v ts : numbers_fit v = true →
  duplicateKey (tokens v ++ ts) = match first_dup v with Some k => Some k | None => duplicateKey ts end.
Proof. intros HF. by apply scans_all. Qed.

(** ** Readers *)

(** What a reader of the document could find at a path: among the members of an object it takes
    any one with the right name, and it compares the names of fields by [fold], which may ignore
    case. *)
Inductive place := Field (name : string) | Entry (key : string) | Item (i : nat).

Section readers.
Context (fold : string → string).

Inductive reads : gtype → jdoc → list place → jdoc → Prop :=
  | reads_here t v : reads t v [] v
  | reads_field t fs (ms : list (string * jdoc)) k k1 ft w p x :
      deref t = GStruct fs → fieldTypes (GStruct fs) !! k = Some ft → (k1, w) ∈ ms → fold k1 = fold k →
      reads ft w p x → reads t (JObj ms) (Field k :: p) x
  | reads_entry t u (ms : list (string * jdoc)) k w p x :
      deref t = GMap u → (k, w) ∈ ms → reads u w p x → reads t (JObj ms) (Entry k :: p) x
  | reads_item t u (l : list jdoc) i w p x :
      deref t = GSlice u → l !! i = Some w → reads u w p x → reads t (JArr l) (Item i :: p) x.

(** The structures a document of a type goes through. *)
Inductive reaches : gtype → gtype → Prop :=
  | reaches_self t : reaches t (deref t)
  | reaches_struct t fs k ft u :
      deref t = GStruct fs → fieldTypes (GStruct fs) !! k = Some ft → reaches ft u → reaches t u
  | reaches_elem t e u : deref t = GMap e ∨ deref t = GSlice e → reaches e u → reaches t u.

(** No two fields of one structure have names that [fold] confuses. *)
Definition separated (t : gtype) : Prop :=
  ∀ fs k1 k2, reaches t (GStruct fs) → k1 ∈ dom (fieldTypes (GStruct fs)) → k2 ∈ dom (fieldTypes (GStruct fs)) →
    fold k1 = fold k2 → k1 = k2.
End readers.

Lemma member_unique (ms : list (string * jdoc)) k (w1 w2 : jdoc) : NoDup ms.*1 → (k, w1) ∈ ms → (k, w2) ∈ ms → w1 = w2.
Proof.
  intros HN H1 H2. apply (elem_of_list_to_map (M := gmap string)) in H1, H2; [|done..]. by simplify_eq.
Qed.

Lemma folded_key fold t fs (ms : list (string * jdoc)) k k1 w : separated fold t → deref t = GStruct fs →
  Forall (λ m, ∃ ft, fieldTypes (GStruct fs) !! m.1 = Some ft ∧ exact m.2 ft) ms →
  k ∈ dom (fieldTypes (GStruct fs)) → (k1, w) ∈ ms → fold k1 = fold k → k1 = k.
Proof.
  intros HS Hd HE Hk Hin Hf. rewrite Forall_forall in HE. destruct (HE _ Hin) as (ft & Hft & _).
  apply (HS fs); [rewrite <-Hd; constructor|by eapply elem_of_dom_2|done|done].
Qed.

Lemma separated_field fold t fs k ft : separated fold t → deref t = GStruct fs → fieldTypes (GStruct fs) !! k = Some ft →
  separated fold ft.
Proof. intros HS Hd Hk fs' k1 k2 Hr. apply HS. by eapply reaches_struct. Qed.
Lemma separated_elem fold t e : separated fold t → deref t = GMap e ∨ deref t = GSlice e → separated fold e.
Proof. intros HS Hd fs' k1 k2 Hr. apply HS. by eapply reaches_elem. Qed.

(** Two readers find the same. *)
Lemma reads_once fold fold' t v p x : unique v → exact v t → separated fold t → separated fold' t →
  reads fold t v p x → ∀ y, reads fold' t v p y → x = y.
Proof.
  intros HU HE HS HS' HR. induction HR as [t v|t fs ms k k1 ft w p x Hd Hk Hin Hf HR IH|t u ms k w p x Hd Hin HR IH
    |t u l i w p x Hd Hi HR IH]; intros y Hy.
  - by inversion Hy.
  - inversion Hy as [|? fs2 ? ? k2 ft2 w2 ? ? Hd2 Hk2 Hin2 Hf2 HR2| |]; subst.
    rewrite Hd in Hd2. injection Hd2 as <-. rewrite Hk in Hk2. injection Hk2 as <-.
    apply unique_obj in HU as [HN HU]. apply exact_obj in HE. rewrite Hd in HE.
    pose proof (folded_key _ _ _ _ _ _ _ HS Hd HE (elem_of_dom_2 _ _ _ Hk) Hin Hf) as ->.
    pose proof (folded_key _ _ _ _ _ _ _ HS' Hd HE (elem_of_dom_2 _ _ _ Hk) Hin2 Hf2) as ->.
    pose proof (member_unique _ _ _ _ HN Hin Hin2) as ->. rewrite Forall_forall in HE, HU.
    destruct (HE _ Hin) as (ft' & Hk' & HEw). simpl in *. rewrite Hk in Hk'. injection Hk' as <-.
    apply IH; eauto using separated_field. by apply (HU _ Hin).
  - inversion Hy as [| |? u2 ? ? w2 ? ? Hd2 Hin2 HR2|]; subst. rewrite Hd in Hd2. injection Hd2 as <-.
    apply unique_obj in HU as [HN HU]. apply exact_obj in HE. rewrite Hd in HE. rewrite Forall_forall in HE, HU.
    pose proof (member_unique _ _ _ _ HN Hin Hin2) as ->.
    apply IH; eauto using separated_elem; [by apply (HU _ Hin)|by apply (HE _ Hin)].
  - inversion Hy as [| | |? u2 ? ? w2 ? ? Hd2 Hi2 HR2]; subst. rewrite Hd in Hd2. injection Hd2 as <-.
    apply unique_arr in HU. apply exact_arr in HE. rewrite Hd in HE. rewrite Forall_lookup in HE, HU. simplify_eq.
    apply IH; eauto using separated_elem.
Qed.

(** ** The claims *)

(** The stack machine finds what a search of the tree finds. On a document whose numbers fit, the
    key [duplicateKey] names is the first one, in the order of the document, that an object of any
    depth repeats; and it names none exactly when no object has a key twice. *)
Theorem duplicateKey_searches v :
  numbers_fit v = true →
  duplicateKey (tokens v) = first_dup v ∧ (duplicateKey (tokens v) = None ↔ unique v).
Proof.
  intros HF. pose proof (duplicateKey_tree v [] HF) as E. rewrite app_nil_r in E. rewrite E. split; [by case_match|].
  rewrite <-first_dup_None. by case_match.
Qed.

(** The last pass, for the types of which it checks every part: [Decode] of the standard library
    returns an error for a number that does not fit and for a value of another kind than its
    place, wherever the document has a place in the target. *)
Class UnmarshalLaws (unmarshal : gtype → jdoc → option unmarshal_error) := {
  unmarshal_numbers t v : transparent t = true → unmarshal t v = None → numbers_fit v = true;
  unmarshal_fits t v : transparent t = true → unmarshal t v = None → fits v t = true }.

Section claims.
Context (unmarshal : gtype → jdoc → option unmarshal_error) `{!UnmarshalLaws unmarshal}.

Lemma Decode_accepts data r t v : transparent t = true →
  Decode unmarshal data r t = inr v ↔
  utf8_Valid data = true ∧ r = Document v None ∧ unique v ∧ exact v t ∧ unmarshal t v = None.
Proof.
  intros HT. unfold Decode. destruct (utf8_Valid data); simpl; [|naive_solver]. split.
  - destruct (duplicateKey (tokens_read r)) eqn:ED; [done|]. destruct r as [|w [|]]; [done..|].
    destruct (walk w t "") eqn:EW; [done|]. destruct (unmarshal t w) as [[]|] eqn:EU; [done..|]. intros [= ->].
    simpl in ED. rewrite app_nil_r in ED. pose proof (unmarshal_numbers _ _ HT EU) as HF.
    pose proof (duplicateKey_tree v [] HF) as E. rewrite app_nil_r, ED in E.
    assert (unique v) as HU by (apply first_dup_None; by destruct (first_dup v)).
    split_and!; try done. by eapply walk_exact.
  - intros (_ & -> & HU & HE & EU). pose proof (unmarshal_numbers _ _ HT EU) as HF. simpl. rewrite duplicateKey_tree by done.
    rewrite (proj2 (first_dup_None v) HU). simpl. rewrite (proj2 (walk_exact v t "" HU) HE), EU. done.
Qed.

(** What the strict decoder accepts. Into a type without opaque parts, it accepts some bytes
    exactly when they are valid UTF-8 and hold one document and nothing after it, no object of the
    document repeats a key, every key read as a field is exactly the name of that field, at every
    depth, and the standard decoder accepts the document. *)
Theorem strict_accepts_exactly data r t v :
  transparent t = true →
  Decode unmarshal data r t = inr v ↔
  utf8_Valid data = true ∧ r = Document v None ∧ unique v ∧ exact v t ∧ unmarshal t v = None.
Proof. apply Decode_accepts. Qed.

(** An accepted document has one reading. Take any two readers that follow the type: each may keep
    the first, the last or any other member of a repeated name, and may ignore case, as long as it
    does not confuse two fields of one structure. On a document the decoder accepts, they find the
    same value at every path. *)
Theorem accepted_has_one_reading fold fold' data r t v p x y :
  transparent t = true → separated fold t → separated fold' t →
  Decode unmarshal data r t = inr v → reads fold t v p x → reads fold' t v p y → x = y.
Proof.
  intros HT HS HS' HD Hx. apply Decode_accepts in HD as (_ & _ & HU & HE & _); [|done]. by apply (reads_once fold fold' t v p).
Qed.
End claims.
