(* ===== verification/Translation.v ===== *)
(** What an agent asks, as the broker understands it: [StructuredTranslator] and
    [rejectSmugglingUnicode] of [src/broker/broker.go], and the guarded translator of
    [src/broker/translator_guard.go].

    The intention arrives as decoded by strictjson: a refusal with its detail, or the fields of
    [structuredIntent]. The translator types them, and refuses a string that contains a code
    point that does not show. [runes] is Go's iteration over a string. *)
From S2P Require Import Prelude.
From S2P Require Import Hex.
From S2P Require Import Json.
From S2P Require Import StrictJson.
From S2P Require Import Leaf.
From S2P Require Import Effects.
From S2P Require Import Token.
From S2P Require Import PlanContract.
From S2P Require Import Arbiter.
From S2P Require Import Degradation.
From S2P Require Import Guard.

Local Open Scope Z_scope.

Definition maxIntentBytes : nat := 4096.
Definition maxQuorumProofBytes : nat := 4096.
Definition maxPlanBindingBytes : nat := 5 + 32 + 2 + MaxPlanParamsBytes.

(** ** Runes *)

Definition RuneError : Z := 0xfffd.

(** The low six bits of a continuation byte, and the code points of two, three and four bytes. *)
Definition six (b : byte) : Z := b2z b - 0x80.
Definition point2 (b0 b1 : byte) : Z := (b2z b0 - 0xc0) * 64 + six b1.
Definition point3 (b0 b1 b2 : byte) : Z := ((b2z b0 - 0xe0) * 64 + six b1) * 64 + six b2.
Definition point4 (b0 b1 b2 b3 : byte) : Z :=
  (((b2z b0 - 0xf0) * 64 + six b1) * 64 + six b2) * 64 + six b3.

(** [for _, r := range s]: a byte that starts no valid sequence is [RuneError] and is skipped. *)
Fixpoint runes (s : bytes) : list Z :=
  match s with
  | [] => []
  | b0 :: s1 =>
      if ascii b0 then b2z b0 :: runes s1
      else match s1 with
           | [] => [RuneError]
           | b1 :: s2 =>
               if rune2 b0 b1 then point2 b0 b1 :: runes s2
               else match s2 with
                    | [] => RuneError :: runes s1
                    | b2 :: s3 =>
                        if rune3 b0 b1 b2 then point3 b0 b1 b2 :: runes s3
                        else match s3 with
                             | [] => RuneError :: runes s1
                             | b3 :: s4 =>
                                 if rune4 b0 b1 b2 b3 then point4 b0 b1 b2 b3 :: runes s4
                                 else RuneError :: runes s1
                             end
                    end
           end
  end.

(** [smugglingRanges]. *)
Definition smugglingRanges : list (Z * Z) :=
  [(0x200b, 0x200f); (0x202a, 0x202e); (0x2060, 0x2064); (0xfe00, 0xfe0f); (0xfeff, 0xfeff);
   (0xe0000, 0xe007f); (0xe0100, 0xe01ef)].

(** [unicode.Is(smugglingRanges, r)]. *)
Definition smuggled (r : Z) : bool := existsb (λ lh, (lh.1 <=? r) && (r <=? lh.2)) smugglingRanges.

(** [rejectSmugglingUnicode]: the first offending code point. *)
Definition rejectSmugglingUnicode (strs : list string) : option Z :=
  find smuggled (concat ((λ s, runes (sb s)) <$> strs)).

(** ** The structured intention *)

Record structuredIntent := mkStructuredIntent {
  si_Action : string; si_Resource : string; si_Class : option Z; si_ObjectSeal : string;
  si_QuorumProof : string; si_PlanBinding : string; si_Quota : option Quota }.

Record Translation := mkTranslation {
  tl_Action : string; tl_Resource : string; tl_Class : option Class_; tl_ObjectSeal : option bytes;
  tl_Quota : option Quota; tl_QuorumProof : bytes; tl_PlanBinding : bytes }.

(** The errors a translator returns, as [HandleAction] tells them apart. *)
Inductive translate_error :=
  | TranslatePending (id : bytes) | TranslateRefused | TranslateFailed (detail : option Detail).

Definition missing_field (s : structuredIntent) : Detail :=
  mkDetail "missing-field" (if bool_decide (si_Action s ≠ "") then "resource" else "action") "" [].

(** A decoded seal: absent, malformed or 32 bytes. *)
Definition decodeHex32 (s : string) : option bytes :=
  match hex_DecodeString s with
  | Some b => if (length b =? 32)%nat then Some b else None
  | None => None
  end.

(** An opaque field: absent, out of bounds or malformed, or its bytes. *)
Definition opaque_field (s : string) (maxBytes : nat) : option bytes :=
  if bool_decide (s = "") then Some []
  else if (2 * maxBytes <? slen s)%nat then None
  else hex_DecodeString s.

(** [StructuredTranslator.Translate], from the decoded intention. *)
Definition Translate_structured (doc : Detail + structuredIntent) : translate_error + Translation :=
  match doc with
  | inl d => inl (TranslateFailed (Some d))
  | inr s =>
    if bool_decide (si_Action s = "") || bool_decide (si_Resource s = "") then
      inl (TranslateFailed (Some (missing_field s)))
    else if bool_decide (rejectSmugglingUnicode [si_Action s; si_Resource s] ≠ None) then
      inl (TranslateFailed None)
    else if match si_Class s with Some c => 3 <? c | None => false end then
      inl (TranslateFailed (Some (mkDetail "out-of-range" "class" "" [])))
    else match (if bool_decide (si_ObjectSeal s = "") then Some None else Some <$> decodeHex32 (si_ObjectSeal s)) with
    | None => inl (TranslateFailed None)
    | Some seal =>
      if match si_Quota s with
         | Some q => bool_decide (rejectSmugglingUnicode [q_Resource q; q_Operation q] ≠ None)
         | None => false
         end then inl (TranslateFailed None)
      else match opaque_field (si_QuorumProof s) maxQuorumProofBytes with
      | None => inl (TranslateFailed None)
      | Some proof =>
        match opaque_field (si_PlanBinding s) maxPlanBindingBytes with
        | None => inl (TranslateFailed None)
        | Some binding =>
            inr (mkTranslation (si_Action s) (si_Resource s) (Class_of <$> si_Class s) seal
                   (si_Quota s) proof binding)
        end
      end
    end
  end.

(** ** The interface of a translator *)

(** [Translator]: [X] holds the readings of one call, [S] the state of the translator. *)
Class Translator (X S : Type) :=
  translate : X → string → string → S → trace → (translate_error + Translation) * S * trace.

Section translators.
Context `{Crypto, Env}.
Context (decode_intent : string → Detail + structuredIntent).

(** The structured translator reads nothing but the intention. *)
Definition structured_translator : Translator unit unit :=
  λ _ _ intent s t, (Translate_structured (decode_intent intent), s, t).

Record GuardedTranslator := mkGuardedTranslator { gt_gate : controllerGate; gt_natural : bool }.

(** What a call of the guard reads: the state of the controller before and at its decision, the
    mirror, the clock, the random draws. *)
Record guard_readings := mkGuardReadings {
  gr_up : bool; gr_ctl : Controller; gr_mirror : option bool; gr_clock : readings;
  gr_ticket : option bytes; gr_jti : option bytes }.

Definition guard_verdict (e : guard_error) : translate_error :=
  match e with
  | PendingArbitrationError id => TranslatePending id
  | ErrArbitrationRefused => TranslateRefused
  | _ => TranslateFailed None
  end.

(** [GuardedTranslator.Translate]: the guard, then the translator behind it. *)
Definition guarded_translator {X S} (g : GuardedTranslator) (inner : Translator X S) :
    Translator (guard_readings * X) (Queue * S) :=
  λ x subject intent s t,
    let '(rd, xi) := x in let '(q, si) := s in
    match Admit (gt_gate g) (gr_up rd) (gr_ctl rd) (gr_mirror rd) (gr_clock rd) (gr_ticket rd) (gr_jti rd)
            subject (gt_natural g) (sb intent) q t with
    | (Some e, q1, t1) => (inl (guard_verdict e), (q1, si), t1)
    | (None, q1, t1) =>
        let '(r, si1, t2) := inner xi subject intent si t1 in (r, (q1, si1), t2)
    end.
End translators.

(** ** No invisible code point passes *)

(** UTF-8 of a code point above U+07FF. *)
Definition encode_rune (r : Z) : bytes :=
  if r <? 0x10000 then
    [z2b (0xe0 + r / 4096); z2b (0x80 + (r / 64) mod 64); z2b (0x80 + r mod 64)]
  else
    [z2b (0xf0 + r / 262144); z2b (0x80 + (r / 4096) mod 64); z2b (0x80 + (r / 64) mod 64);
     z2b (0x80 + r mod 64)].

(** The bytes of a code point read back: one rune, started by a byte that continues nothing. *)
Definition rune_reads_back (r : Z) : bool :=
  match encode_rune r with
  | [b0; b1; b2] =>
      negb (ascii b0) && negb (cont b0) && negb (rune2 b0 b1) && rune3 b0 b1 b2 && (point3 b0 b1 b2 =? r)
  | [b0; b1; b2; b3] =>
      negb (ascii b0) && negb (cont b0) && negb (rune2 b0 b1) && negb (rune3 b0 b1 b2)
      && rune4 b0 b1 b2 b3 && (point4 b0 b1 b2 b3 =? r)
  | _ => false
  end.

Definition span (lo : Z) (n : nat) : list Z := (λ i, lo + Z.of_nat i) <$> seq 0 n.

Lemma elem_of_span lo n r : lo ≤ r < lo + Z.of_nat n → r ∈ span lo n.
Proof.
  intros Hr. apply list_elem_of_fmap. exists (Z.to_nat (r - lo)). split; [lia|]. apply elem_of_seq. lia.
Qed.

Lemma smuggled_reads_back r : smuggled r = true → rune_reads_back r = true.
Proof.
  intros HS. apply existsb_exists in HS as ([lo hi] & Hin & Hr). simpl in Hr. apply andb_true_iff in Hr as [H1 H2].
  apply Z.leb_le in H1, H2.
  assert (Forall (λ lh : Z * Z, Forall (λ r, rune_reads_back r = true) (span lh.1 (Z.to_nat (lh.2 - lh.1 + 1)))) smugglingRanges) as HF
    by (repeat constructor; vm_compute; reflexivity).
  rewrite Forall_forall in HF. specialize (HF (lo, hi)). rewrite Forall_forall in HF.
  apply HF; [by apply list_elem_of_In|]. apply elem_of_span. simpl. lia.
Qed.

(** One turn of the iteration skips continuation bytes only. *)
Lemma runes_step a0 s1 :
  ∃ x k, runes (a0 :: s1) = x :: runes (drop k s1) ∧ ∀ i b, (i < k)%nat → s1 !! i = Some b → cont b = true.
Proof.
  assert (∀ lo hi b, 0x80 ≤ lo → hi ≤ 0xbf → between lo hi b = true → cont b = true) as HB.
  { unfold cont, between. intros lo hi b. rewrite !andb_true_iff, !Z.leb_le. lia. }
  assert (∀ b1 b2, rune3 a0 b1 b2 = true → cont b1 = true ∧ cont b2 = true) as H3.
  { unfold rune3. intros b1 b2 [H1 ->]%andb_true_iff. split; [|done].
    repeat case_match; try (by eapply HB; [..|exact H1]). by apply andb_true_iff in H1 as [_ ?]. }
  assert (∀ b1 b2 b3, rune4 a0 b1 b2 b3 = true → cont b1 = true ∧ cont b2 = true ∧ cont b3 = true) as H4.
  { unfold rune4. intros b1 b2 b3 [[H1 ->]%andb_true_iff ->]%andb_true_iff. split; [|done].
    repeat case_match; try (by eapply HB; [..|exact H1]). by apply andb_true_iff in H1 as [_ ?]. }
  destruct s1 as [|b1 s2]; simpl.
  { destruct (ascii a0); eexists _, 0%nat; (split; [reflexivity|]); intros; lia. }
  destruct (ascii a0); [eexists _, 0%nat; split; [reflexivity|intros; lia]|].
  destruct (rune2 a0 b1) eqn:E2.
  { eexists _, 1%nat. split; [reflexivity|]. intros [|i] b Hi; [|lia]. intros [= <-].
    unfold rune2 in E2. by apply andb_true_iff in E2 as [_ ?]. }
  destruct s2 as [|b2 s3]; [eexists _, 0%nat; split; [reflexivity|intros; lia]|].
  destruct (rune3 a0 b1 b2) eqn:E3.
  { eexists _, 2%nat. split; [reflexivity|]. apply H3 in E3 as [? ?].
    intros [|[|i]] b Hi; [..|lia]; by intros [= <-]. }
  destruct s3 as [|b3 s4]; [eexists _, 0%nat; split; [reflexivity|intros; lia]|].
  destruct (rune4 a0 b1 b2 b3) eqn:E4; [|eexists _, 0%nat; split; [reflexivity|intros; lia]].
  eexists _, 3%nat. split; [reflexivity|]. apply H4 in E4 as (? & ? & ?).
  intros [|[|[|i]]] b Hi; [..|lia]; by intros [= <-].
Qed.

(** Where a code point stands in a string, [runes] reads it: its first byte continues no
    sequence begun before it. *)
Lemma runes_reads r p q : rune_reads_back r = true → r ∈ runes (p ++ encode_rune r ++ q).
Proof.
  intros HR. unfold rune_reads_back in HR.
  assert (∃ b0 enc, encode_rune r = b0 :: enc ∧ cont b0 = false ∧ r ∈ runes ((b0 :: enc) ++ q)) as (b0 & enc & -> & HC & H0).
  { destruct (encode_rune r) as [|b0 [|b1 [|b2 [|b3 [|? ?]]]]]; try done; exists b0; eexists; (split; [reflexivity|]);
      repeat (apply andb_true_iff in HR as [HR ?]); repeat match goal with X : negb _ = true |- _ => apply negb_true_iff in X end;
      (split; [done|]); simpl; repeat match goal with X : _ = true |- _ => rewrite X | X : _ = false |- _ => rewrite X end;
      match goal with X : (_ =? r) = true |- _ => apply Z.eqb_eq in X; rewrite X; left end. }
  clear HR. induction p as [p IH] using (induction_ltof1 _ length). unfold ltof in IH.
  destruct p as [|a0 p]; [done|]. change ((a0 :: p) ++ (b0 :: enc) ++ q) with (a0 :: (p ++ (b0 :: enc) ++ q)).
  destruct (runes_step a0 (p ++ (b0 :: enc) ++ q)) as (x & k & -> & HK). right.
  destruct (le_lt_dec k (length p)) as [Hk|Hk].
  - rewrite drop_app_le by done. apply IH. rewrite length_drop. simpl. lia.
  - exfalso. specialize (HK (length p) b0 Hk). rewrite HC in HK. discriminate HK.
    rewrite lookup_app_r by done. by rewrite Nat.sub_diag.
Qed.

Lemma find_none_iff {A} (f : A → bool) l : find f l = None ↔ Forall (λ x, f x = false) l.
Proof.
  induction l as [|x l IH]; simpl; [done|]. rewrite Forall_cons, <-IH. destruct (f x); naive_solver.
Qed.

(** What the translator accepts has no invisible code point, wherever it would stand. *)
Lemma reject_complete strs s p q r :
  rejectSmugglingUnicode strs = None → s ∈ strs → sb s = p ++ encode_rune r ++ q → smuggled r = false.
Proof.
  unfold rejectSmugglingUnicode. rewrite find_none_iff, Forall_forall. intros HN Hs Es.
  destruct (smuggled r) eqn:E; [|done]. rewrite (HN r) in E; [done|]. apply list_elem_of_In, in_concat.
  exists (runes (sb s)). rewrite <-!list_elem_of_In.
  split; [by apply list_elem_of_fmap; exists s|]. rewrite Es. by apply runes_reads, smuggled_reads_back.
Qed.

(** ** What a translation is made of *)

Definition typed_as (s : structuredIntent) (tr : Translation) : Prop :=
  tl_Action tr = si_Action s ∧ tl_Resource tr = si_Resource s ∧ tl_Class tr = Class_of <$> si_Class s ∧
  tl_Quota tr = si_Quota s ∧
  (if decide (si_ObjectSeal s = "") then tl_ObjectSeal tr = None
   else ∃ b, decodeHex32 (si_ObjectSeal s) = Some b ∧ tl_ObjectSeal tr = Some b) ∧
  opaque_field (si_QuorumProof s) maxQuorumProofBytes = Some (tl_QuorumProof tr) ∧
  opaque_field (si_PlanBinding s) maxPlanBindingBytes = Some (tl_PlanBinding tr).

Definition quota_texts (q : option Quota) : list string :=
  match q with Some q => [q_Resource q; q_Operation q] | None => [] end.

Definition visible (strs : list string) : Prop := rejectSmugglingUnicode strs = None.
#[global] Instance visible_dec strs : Decision (visible strs).
Proof. unfold visible. apply _. Defined.

Definition class_known (c : option Z) : Prop := match c with Some c => c ≤ 3 | None => True end.
#[global] Instance class_known_dec c : Decision (class_known c).
Proof. destruct c; apply _. Defined.

Definition translatable (s : structuredIntent) : Prop :=
  si_Action s ≠ "" ∧ si_Resource s ≠ "" ∧ visible [si_Action s; si_Resource s] ∧ visible (quota_texts (si_Quota s)) ∧
  class_known (si_Class s).

Lemma quota_test q :
  (match q with Some q => bool_decide (rejectSmugglingUnicode [q_Resource q; q_Operation q] ≠ None) | None => false end)
  = bool_decide (¬ visible (quota_texts q)).
Proof. destruct q as [q|]; [by apply bool_decide_ext|done]. Qed.

Lemma class_test c : match c with Some c => 3 <? c | None => false end = bool_decide (¬ class_known c).
Proof.
  destruct c as [c|]; simpl; [|done].
  destruct (Z.ltb_spec 3 c); symmetry; [apply bool_decide_eq_true_2|apply bool_decide_eq_false_2]; lia.
Qed.

Lemma seal_test s o :
  (if bool_decide (s = "") then Some None else Some <$> decodeHex32 s) = Some o ↔
  if decide (s = "") then o = None else ∃ b, decodeHex32 s = Some b ∧ o = Some b.
Proof.
  destruct (decide (s = "")) as [E|E]; [rewrite bool_decide_eq_true_2 by done; naive_solver|].
  rewrite bool_decide_eq_false_2 by done. destruct (decodeHex32 s); simpl; naive_solver.
Qed.

Lemma structured_inr doc tr :
  Translate_structured doc = inr tr ↔ ∃ s, doc = inr s ∧ translatable s ∧ typed_as s tr.
Proof.
  unfold Translate_structured, translatable, typed_as. destruct doc as [d|s]; [naive_solver|].
  rewrite quota_test, class_test.
  case_bool_decide as HA; [naive_solver|]. case_bool_decide as HR; [naive_solver|]. simpl.
  case_bool_decide as HS; [unfold visible; naive_solver|]. case_bool_decide as HC; [naive_solver|].
  pose proof (seal_test (si_ObjectSeal s)) as HO.
  destruct (if bool_decide (si_ObjectSeal s = "") then _ else _) as [sl|].
  2: { split; [done|]. intros (s' & [= <-] & _ & (_ & _ & _ & _ & Hs & _)). by apply HO in Hs. }
  case_bool_decide as HQ; [split; [done|]; intros (s' & [= <-] & (_ & _ & _ & ? & _) & _); done|].
  destruct (opaque_field (si_QuorumProof s) _) as [pf|] eqn:EP;
    [|split; [done|intros (s' & [= <-] & _ & (_ & _ & _ & _ & _ & ? & _)); congruence]].
  destruct (opaque_field (si_PlanBinding s) _) as [bd|] eqn:EB;
    [|split; [done|intros (s' & [= <-] & _ & (_ & _ & _ & _ & _ & _ & ?)); congruence]].
  split.
  { intros [= <-]. exists s. split; [done|]. split; [by split_and!|].
    split_and!; try done. by apply HO. }
  intros (s' & [= <-] & _ & (? & ? & ? & ? & Hs & ? & ?)). apply HO in Hs. destruct tr; simpl in *. congruence.
Qed.

Lemma decodeHex32_length s sl : decodeHex32 s = Some sl → length sl = 32%nat.
Proof.
  unfold decodeHex32. destruct (hex_DecodeString s) as [b|]; [|done]. case_match eqn:E; [|done].
  intros [= <-]. by apply Nat.eqb_eq.
Qed.

Lemma opaque_field_length s n b : opaque_field s n = Some b → (length b ≤ n)%nat.
Proof.
  unfold opaque_field. case_bool_decide; [intros [= <-]; simpl; lia|].
  destruct (Nat.ltb_spec (2 * n) (slen s)); [done|]. intros HD%hex_DecodeString_length. lia.
Qed.

(** ** The claims *)

(** What an agent asks is what shows. A translation carries the action, the resource, the class
    and the quota of the intention, unchanged; none of its texts contains, at any position, the
    UTF-8 of an invisible code point; its seal has 32 bytes and its two opaque fields are within
    their bounds. *)
Theorem translation_hides_nothing doc tr :
  Translate_structured doc = inr tr →
  (∃ s, doc = inr s ∧ tl_Action tr = si_Action s ∧ tl_Resource tr = si_Resource s ∧
     tl_Class tr = Class_of <$> si_Class s ∧ tl_Quota tr = si_Quota s) ∧
  (∀ x p q r, x ∈ tl_Action tr :: tl_Resource tr :: quota_texts (tl_Quota tr) →
     sb x = p ++ encode_rune r ++ q → smuggled r = false) ∧
  (∀ sl, tl_ObjectSeal tr = Some sl → length sl = 32%nat) ∧
  (length (tl_QuorumProof tr) ≤ maxQuorumProofBytes)%nat ∧ (length (tl_PlanBinding tr) ≤ maxPlanBindingBytes)%nat.
Proof.
  intros (s & -> & (_ & _ & HV & HQ & _) & (EA & ER & EC & EQ & HS & HP & HB))%structured_inr. split_and!.
  - by exists s.
  - rewrite EA, ER, EQ. intros x p q r [->|[->|Hx]%elem_of_cons]%elem_of_cons.
    + apply (reject_complete _ _ p q r HV). by left.
    + apply (reject_complete _ _ p q r HV). right. by left.
    + by apply (reject_complete _ _ p q r HQ).
  - intros sl Hs. destruct (decide _); [congruence|]. destruct HS as (b & Hb & HE).
    apply decodeHex32_length in Hb. congruence.
  - by eapply opaque_field_length.
  - by eapply opaque_field_length.
Qed.
