(* ===== verification/Intent.v ===== *)
(** The intention of an agent, from its bytes: the decoding of [structuredIntent] by strictjson
    ([StructuredTranslator.Translate] of [src/broker/broker.go], first step), and what the strict
    decoder gives the translator: whoever reads the same bytes reads the same action. *)
From S2P Require Import Prelude.
From S2P Require Import Hex.
From S2P Require Import Json.
From S2P Require Import Leaf.
From S2P Require Import Effects.
From S2P Require Import Token.
From S2P Require Import StrictJson.
From S2P Require Import Translation.

Local Open Scope Z_scope.

(** ** The type *)

Definition tagged (name tag : string) (t : gtype) : StructField * gtype := (mkStructField name tag false true, t).

Definition quota_type : gtype := GStruct [
  tagged "Resource" "resource" (GScalar KString); tagged "Operation" "operation" (GScalar KString);
  tagged "VolumeMax" "volume_max" (GScalar KNumber); tagged "WindowS" "window_s" (GScalar KNumber)].

Definition structuredIntent_type : gtype := GStruct [
  tagged "Action" "action" (GScalar KString); tagged "Resource" "resource" (GScalar KString);
  tagged "Class" "class,omitempty" (GPtr (GScalar KNumber));
  tagged "ObjectSeal" "object_seal,omitempty" (GScalar KString);
  tagged "QuorumProof" "quorum_proof,omitempty" (GScalar KString);
  tagged "PlanBinding" "plan_binding,omitempty" (GScalar KString);
  tagged "Quota" "quota,omitempty" (GPtr quota_type)].

(** ** The value *)

(** What the standard decoder stores: a null leaves a string as it is, and empties a pointer. *)
Definition put_string (v : jdoc) (old : string) : string := match v with JStr s => s | _ => old end.
Definition put_number (v : jdoc) (old : Z) : Z := match v with JNum m _ => m | _ => old end.

Definition put_quota (q : Quota) (m : string * jdoc) : Quota :=
  let '(k, v) := m in
  mkQuota (if bool_decide (k = "resource") then put_string v (q_Resource q) else q_Resource q)
    (if bool_decide (k = "operation") then put_string v (q_Operation q) else q_Operation q)
    (if bool_decide (k = "volume_max") then put_number v (q_VolumeMax q) else q_VolumeMax q)
    (if bool_decide (k = "window_s") then put_number v (q_WindowS q) else q_WindowS q).

Definition put_field (i : structuredIntent) (m : string * jdoc) : structuredIntent :=
  let '(k, v) := m in
  let text name old := if bool_decide (k = name) then put_string v old else old in
  mkStructuredIntent (text "action" (si_Action i)) (text "resource" (si_Resource i))
    (if bool_decide (k = "class") then match v with JNum c _ => Some c | JNull => None | _ => si_Class i end
     else si_Class i)
    (text "object_seal" (si_ObjectSeal i)) (text "quorum_proof" (si_QuorumProof i))
    (text "plan_binding" (si_PlanBinding i))
    (if bool_decide (k = "quota") then
       match v with
       | JObj ms => Some (foldl put_quota (default (mkQuota "" "" 0 0) (si_Quota i)) ms)
       | JNull => None
       | _ => si_Quota i
       end
     else si_Quota i).

Definition intent_of (v : jdoc) : structuredIntent :=
  let zero := mkStructuredIntent "" "" None "" "" "" None in
  match v with JObj ms => foldl put_field zero ms | _ => zero end.

Section intent.
Context (unmarshal : gtype → jdoc → option unmarshal_error) (read : bytes → reading).

(** [strictjson.Decode([]byte(intent), &s)]. *)
Definition decode_intent (intent : string) : Detail + structuredIntent :=
  match Decode unmarshal (sb intent) (read (sb intent)) structuredIntent_type with
  | inl d => inl d
  | inr v => inr (intent_of v)
  end.

(** ** What is stored is what is written *)

#[local] Arguments put_field : simpl never.

Section text_field.
Context (name : string) (get : structuredIntent → string).
Context (get_put : ∀ i k v, get (put_field i (k, v)) = if bool_decide (k = name) then put_string v (get i) else get i).

Lemma text_absent ms i : name ∉ ms.*1 → get (foldl put_field i ms) = get i.
Proof.
  revert i. induction ms as [|[k v] ms IH]; intros i; [done|]. intros [Hk Hms]%not_elem_of_cons. simpl foldl.
  rewrite IH by done. rewrite get_put, bool_decide_false; [done|]. by intros ->.
Qed.

(** A text that is not empty is written in the document, once. *)
Lemma text_written ms i : NoDup ms.*1 → get i = "" → (∀ v, (name, v) ∈ ms → fits v (GScalar KString) = true) →
  get (foldl put_field i ms) ≠ "" → (name, JStr (get (foldl put_field i ms))) ∈ ms.
Proof.
  revert i. induction ms as [|[k v] ms IH]; intros i; [done|]. intros [Hk HN]%NoDup_cons H0 HF. simpl foldl.
  destruct (decide (k = name)) as [->|Hne].
  - rewrite text_absent by done. rewrite get_put, bool_decide_true by done. rewrite H0.
    specialize (HF v (list_elem_of_here _ _)). destruct v; try done. intros _. by left.
  - intros Hg. right. apply IH; try done; [by rewrite get_put, bool_decide_false|]. intros w Hw. apply HF. by right.
Qed.
End text_field.

Lemma intent_action i k v : si_Action (put_field i (k, v)) = if bool_decide (k = "action") then put_string v (si_Action i) else si_Action i.
Proof. done. Qed.
Lemma intent_resource i k v :
  si_Resource (put_field i (k, v)) = if bool_decide (k = "resource") then put_string v (si_Resource i) else si_Resource i.
Proof. done. Qed.

Lemma intent_transparent : transparent structuredIntent_type = true.
Proof. done. Qed.

Lemma intent_fields : ∃ fs, structuredIntent_type = GStruct fs ∧
  fieldTypes (GStruct fs) !! "action" = Some (GScalar KString) ∧ fieldTypes (GStruct fs) !! "resource" = Some (GScalar KString).
Proof. eexists. split; [reflexivity|]. split; vm_compute; reflexivity. Qed.

(** A field of the document, for any reader. *)
Lemma reads_text fold fs ms name s : separated fold (GStruct fs) → unique (JObj ms) → exact (JObj ms) (GStruct fs) →
  fieldTypes (GStruct fs) !! name = Some (GScalar KString) → (name, JStr s) ∈ ms →
  ∀ x, reads fold (GStruct fs) (JObj ms) [Field name] x ↔ x = JStr s.
Proof.
  intros HS HU HE Hn Hin x.
  assert (reads fold (GStruct fs) (JObj ms) [Field name] (JStr s)) as HR by (by eapply reads_field; [..|constructor]).
  split; [|by intros ->]. intros Hx. symmetry. by eapply reads_once.
Qed.

(** Everyone reads the action that is applied. When the translator accepts an intention, the bytes
    of the agent hold one document, and any reader of it, whichever of the members of one name it
    keeps and whether or not it ignores case, finds the action and the resource of the translation
    in the fields of these names. *)
Theorem intention_read_alike `{!UnmarshalLaws unmarshal} intent tr fold :
  Translate_structured (decode_intent intent) = inr tr → separated fold structuredIntent_type →
  ∃ v, read (sb intent) = Document v None ∧
    (∀ x, reads fold structuredIntent_type v [Field "action"] x ↔ x = JStr (tl_Action tr)) ∧
    (∀ x, reads fold structuredIntent_type v [Field "resource"] x ↔ x = JStr (tl_Resource tr)).
Proof.
  intros HT HS. apply structured_inr in HT as (s & Hs & (HA & HR & _) & (-> & -> & _)). unfold decode_intent in Hs.
  destruct (Decode _ _ _ _) as [d|v] eqn:ED; [done|]. injection Hs as <-.
  apply (Decode_accepts unmarshal) in ED as (_ & HRd & HU & HE & HM); [|exact intent_transparent].
  pose proof (unmarshal_fits _ _ intent_transparent HM) as HF. exists v. split; [done|].
  destruct v as [| | | | |ms]; [done..|]. destruct intent_fields as (fs & Hfs & Ha & Hr). rewrite Hfs in *.
  pose proof HU as [HN _]%unique_obj. unfold intent_of in *.
  split; eapply reads_text; eauto;
    [apply (text_written "action" si_Action)|apply (text_written "resource" si_Resource)]; try done;
    intros w Hw; by eapply (fits_field ms (GStruct fs)).
Qed.
End intent.
