(* ===== verification/Broker.v ===== *)
(** The broker: [src/broker/broker.go].

    [HandleAction] takes a request of an agent through every stage, in order, to a token or to a
    refusal. The other components are behind the interfaces of the source, as classes: the
    translator (Translation.v), the provider of epochs, the gate of class W, the contract of
    plans, the registries (Registries.v). The client of the policy engine, the envelope and the
    issuer are the components themselves (OPAClient.v, Envelope.v, Issuer.v).

    The broker serves requests concurrently and holds no lock across its stages. A request is
    therefore run against [others], an arbitrary change of the shared state before each of its
    stages: what the other requests, and the operators, did in the meantime. A theorem that
    quantifies over [others] covers every interleaving.

    The stages are written in a monad of computations on the shared state that can stop with the
    result of the request, as the source returns early. *)
From S2P Require Import Prelude.
From S2P Require Import Hex.
From S2P Require Import Leaf.
From S2P Require Import Effects.
From S2P Require Import Records.
From S2P Require Import Token.
From S2P Require Import Issuer.
From S2P Require Import OPAClient.
From S2P Require Import PlanContract.
From S2P Require Import Envelope.
From S2P Require Import Registries.
From S2P Require Import StrictJson.
From S2P Require Import Translation.

Local Open Scope Z_scope.

Definition ReasonRequestInvalid : string := "request-invalid".
Definition ReasonAgentUnknown : string := "agent-unknown".
Definition ReasonAgentQuotaForbidden : string := "agent-quota-forbidden".
Definition ReasonAgentQuotaExceeded : string := "agent-quota-exceeded".
Definition ReasonAgentTransportUnbound : string := "agent-transport-unbound".
Definition ReasonAgentNetworkOnly : string := "agent-network-only".
Definition ReasonSkillUnknown : string := "skill-unknown".
Definition ReasonSkillScopeViolation : string := "skill-scope-violation".
Definition br_ReasonEpochUnavailable : string := "epoch-unavailable".
Definition ReasonTranslationFailed : string := "translation-failed".
Definition ReasonArbitrationPending : string := "arbitration-pending".
Definition ReasonArbitrationRefused : string := "arbitration-refused".
Definition ReasonQuorumRequired : string := "quorum-required".
Definition ReasonQuorumInsufficient : string := "quorum-insufficient".
Definition ReasonPlanBindingRequired : string := "plan-binding-required".
Definition ReasonPlanUnverified : string := "plan-unverified".
Definition ReasonPlanBindingInvalid : string := "plan-binding-invalid".
Definition ReasonPlanUnknown : string := "plan-unknown".
Definition ReasonPlanPending : string := "plan-pending".
Definition ReasonPlanExpired : string := "plan-expired".
Definition ReasonPlanRevoked : string := "plan-revoked".
Definition ReasonPlanDeviation : string := "plan-deviation".
Definition ReasonPlanSubjectMismatch : string := "plan-subject-mismatch".
Definition ReasonPlanStoreFault : string := "plan-store-fault".
Definition ReasonEnvelopeUnverified : string := "envelope-unverified".
Definition ReasonEnvelopeSaturated : string := "envelope-saturated".
Definition ReasonIssuanceFailed : string := "issuance-failed".

(** ** The interfaces *)

(** [EpochProvider]: [None] is an error. The clock is read by the provider. *)
Class EpochProvider (S : Type) := current_epoch : Z → S → option Z.

(** [StaticEpoch]. *)
#[global] Instance static_epoch : EpochProvider Z := λ _ e, Some e.

(** [QuorumGate]: whether the error is nil. *)
Class QuorumGate (X S : Type) :=
  verify_classW : X → bytes → string → string → Z → S → trace → bool * S * trace.

Class ContractGate (X S : Type) :=
  verify_step : X → string → bytes → string → string → S → trace → (plan_error + bytes) * S * trace.

(** [planDenyReason]. *)
Definition planDenyReason (e : plan_error) : string :=
  match e with
  | ErrPlanBindingInvalid => ReasonPlanBindingInvalid
  | ErrPlanUnknown => ReasonPlanUnknown
  | ErrPlanPending => ReasonPlanPending
  | ErrPlanExpired => ReasonPlanExpired
  | ErrPlanRevoked => ReasonPlanRevoked
  | ErrPlanDeviation => ReasonPlanDeviation
  | ErrPlanSubjectMismatch => ReasonPlanSubjectMismatch
  | _ => ReasonPlanDeviation
  end.

(** ** The data of the broker *)

Record Result := mkResult {
  rs_Allow : bool; rs_Reason : string; rs_Detail : option Detail; rs_ArbitrationID : string;
  rs_Token : option bytes; rs_JTI : bytes; rs_LeafWritten : bool; rs_LeafErr : option append_error;
  rs_OPADecision : option OPADecision }.

(** [Result{Allow: allow, Reason: reason, Token: token, JTI: jti, OPADecision: dec}]. *)
Definition result (allow : bool) (reason : string) (token : option bytes) (jti : bytes)
    (dec : option OPADecision) : Result :=
  mkResult allow reason None "" token jti false None dec.

Inductive counter :=
  | Requests | Allows_ | Denies | TranslationFailures | AgentDenies | SkillDenies | EnvelopeEvals
  | EnvelopeDenies | QuorumDenies | PlanDenies | IssuanceFailures | LeafFailures.
#[global] Instance counter_eq_dec : EqDecision counter.
Proof. solve_decision. Defined.

Record BrokerStats := mkBrokerStats {
  bs_Requests : Z; bs_Allows : Z; bs_Denies : Z; bs_TranslationFailures : Z; bs_AgentDenies : Z;
  bs_SkillDenies : Z; bs_EnvelopeEvals : Z; bs_EnvelopeDenies : Z; bs_QuorumDenies : Z;
  bs_PlanDenies : Z; bs_IssuanceFailures : Z; bs_LeafFailures : Z }.

(** [stats.X++], on 64 bits. *)
Definition bump_stat (c : counter) (s : BrokerStats) : BrokerStats :=
  let inc d n := if bool_decide (c = d) then u64 (n + 1) else n in
  mkBrokerStats (inc Requests (bs_Requests s)) (inc Allows_ (bs_Allows s)) (inc Denies (bs_Denies s))
    (inc TranslationFailures (bs_TranslationFailures s)) (inc AgentDenies (bs_AgentDenies s))
    (inc SkillDenies (bs_SkillDenies s)) (inc EnvelopeEvals (bs_EnvelopeEvals s))
    (inc EnvelopeDenies (bs_EnvelopeDenies s)) (inc QuorumDenies (bs_QuorumDenies s))
    (inc PlanDenies (bs_PlanDenies s)) (inc IssuanceFailures (bs_IssuanceFailures s))
    (inc LeafFailures (bs_LeafFailures s)).

(** The broker itself does not change; [br_quorum], [br_contract] and [br_onTrip] say whether the
    optional parts are there. *)
Record Broker {RA RS : Type} := mkBroker {
  br_producer : Producer; br_issuer : Issuer; br_registry : RA; br_skills : option RS;
  br_quorum : bool; br_contract : bool; br_envelope : option EnvelopeEvaluator; br_onTrip : bool }.
Arguments Broker : clear implicits.

(** [NewBroker]: [None] is a configuration error. [opa], [translator], [epochs] and [ledger] say
    whether those parts are given. *)
Definition NewBroker {RA RS} (cellID : string) (salt : bytes) (leaves journal opa translator epochs : bool)
    (issuer : option Issuer) (registry : option RA) (skills : option RS) (quorum contract : bool)
    (envelope : option EnvelopeEvaluator) (ledger onTrip : bool) : option (Broker RA RS) :=
  if bool_decide (cellID = "") then None
  else if (length salt <? 16)%nat then None
  else if negb leaves then None
  else if negb opa then None
  else if negb translator then None
  else match issuer with
  | None => None
  | Some i =>
    if negb epochs then None
    else match registry with
    | None => None
    | Some r =>
      if bool_decide (bool_decide (envelope = None) ≠ negb ledger) then None
      else Some (mkBroker RA RS (mkProducer cellID salt journal) i r skills quorum contract envelope onTrip)
    end
  end.

(** The state the requests share. *)
Record World {SE ST SQ SP : Type} := mkWorld {
  w_epochs : SE; w_trans : ST; w_opa : OPAClient; w_quorum : SQ; w_plans : SP;
  w_ledger : EnvelopeLedger; w_stats : BrokerStats; w_trace : trace }.
Arguments World : clear implicits.

(** What one request reads from outside: random draws, clocks, the answers of the engine. *)
Record request_env {XT XQ XP : Type} := mkRequestEnv {
  re_jti : option bytes; re_epochNow : Z; re_trans : XT;
  re_answer : OPAInput → opa_io; re_octx : opa_ctx; re_onow : Z; re_ots : Z;
  re_quorum : XQ; re_plan : XP;
  re_envelope : EnvelopeInput → opa_io; re_ectx : opa_ctx;
  re_iat : Z; re_ts : Z }.
Arguments request_env : clear implicits.

Section broker.
Context {SE ST SQ SP XT XQ XP RA RS : Type}.
Context `{CoseSign, !Crypto, !Env}.
Context `{!EpochProvider SE, !Translator XT ST, !QuorumGate XQ SQ, !ContractGate XP SP}.
Context `{!AgentRegistry RA, !SkillRegistry RS}.

Abbreviation world := (World SE ST SQ SP).

Definition set_w_trace (t : trace) (w : world) : world :=
  mkWorld _ _ _ _ (w_epochs w) (w_trans w) (w_opa w) (w_quorum w) (w_plans w) (w_ledger w) (w_stats w) t.
Definition set_w_stats (s : BrokerStats) (w : world) : world :=
  mkWorld _ _ _ _ (w_epochs w) (w_trans w) (w_opa w) (w_quorum w) (w_plans w) (w_ledger w) s (w_trace w).
Definition set_w_trans (s : ST) (t : trace) (w : world) : world :=
  mkWorld _ _ _ _ (w_epochs w) s (w_opa w) (w_quorum w) (w_plans w) (w_ledger w) (w_stats w) t.
Definition set_w_opa (c : OPAClient) (t : trace) (w : world) : world :=
  mkWorld _ _ _ _ (w_epochs w) (w_trans w) c (w_quorum w) (w_plans w) (w_ledger w) (w_stats w) t.
Definition set_w_quorum (s : SQ) (t : trace) (w : world) : world :=
  mkWorld _ _ _ _ (w_epochs w) (w_trans w) (w_opa w) s (w_plans w) (w_ledger w) (w_stats w) t.
Definition set_w_plans (s : SP) (t : trace) (w : world) : world :=
  mkWorld _ _ _ _ (w_epochs w) (w_trans w) (w_opa w) (w_quorum w) s (w_ledger w) (w_stats w) t.
Definition set_w_ledger (l : EnvelopeLedger) (t : trace) (w : world) : world :=
  mkWorld _ _ _ _ (w_epochs w) (w_trans w) (w_opa w) (w_quorum w) (w_plans w) l (w_stats w) t.

(** ** Computations that can end the request *)

Definition M (A : Type) : Type := world → (Result + A) * world.
Definition ret {A} (x : A) : M A := λ w, (inr x, w).
Definition stop {A} (r : Result) : M A := λ w, (inl r, w).
Definition bind {A B} (m : M A) (k : A → M B) : M B :=
  λ w, match m w with (inl r, w1) => (inl r, w1) | (inr x, w1) => k x w1 end.
Definition modify (f : world → world) : M unit := λ w, (inr tt, f w).

Local Notation "'let*' x := m 'in' k" := (bind m (λ x, k)) (at level 10, x pattern, m at level 100, k at level 200).
Local Notation "m ;; k" := (bind m (λ _, k)) (at level 100, k at level 200, right associativity).

Definition tally_up (c : counter) : M unit := modify (λ w, set_w_stats (bump_stat c (w_stats w)) w).

Section request.
Context (b : Broker RA RS) (rd : request_env XT XQ XP) (others : nat → world → world).

(** The other requests run before stage [k]. *)
Definition interleave (k : nat) : M unit := modify (others k).

(** [writeLeaf]: an allow without its leaf becomes a refusal, without its token. *)
Definition br_writeLeaf (r : Result) (w : world) : Result * world :=
  match appendLeaf (br_producer b) KindDecision (decisionLeafRecord (rs_JTI r) (rs_Allow r) (rs_Reason r))
          (UnixNano (re_ts rd)) (w_trace w) with
  | (Some e, t1) =>
      (mkResult false (if rs_Allow r then ReasonLeafWriteFailed else rs_Reason r) (rs_Detail r)
         (rs_ArbitrationID r) (if rs_Allow r then None else rs_Token r) (rs_JTI r) false (Some e)
         (rs_OPADecision r),
       set_w_stats (bump_stat LeafFailures (w_stats w))
         (set_w_trace (call_alarm (br_onTrip b) ReasonLeafWriteFailed t1) w))
  | (None, t1) =>
      (mkResult (rs_Allow r) (rs_Reason r) (rs_Detail r) (rs_ArbitrationID r) (rs_Token r) (rs_JTI r) true
         None (rs_OPADecision r),
       set_w_trace t1 w)
  end.

(** [deny] and [fault] return their result to [HandleAction]. *)
Definition br_deny (jti : bytes) (reason : string) (dec : option OPADecision) : M Result := λ w,
  let '(r, w1) := br_writeLeaf (result false reason None jti dec) w in
  (inr r, set_w_stats (bump_stat Denies (w_stats w1)) w1).

Definition br_fault (jti : bytes) (reason : string) : M Result := λ w,
  let '(r, w1) := br_writeLeaf (result false reason None jti None)
                    (set_w_trace (call_alarm (br_onTrip b) reason (w_trace w)) w) in
  (inr r, set_w_stats (bump_stat Denies (w_stats w1)) w1).

(** [return b.deny(...)] and [return b.fault(...)]. *)
Definition deny_with {A} (jti : bytes) (reason : string) (dec : option OPADecision) : M A :=
  let* r := br_deny jti reason dec in stop r.
Definition fault_with {A} (jti : bytes) (reason : string) : M A :=
  let* r := br_fault jti reason in stop r.

Definition null_jti : bytes := replicate 16 Byte.x00.

(** Stages 1, 1bis and 1ter: the bounds, the agent, the transport. *)
Definition stage_agent (subject intent txID : string) : M AgentRecord :=
  if bool_decide (subject = "") || (maxIssSubActionLen <? slen subject)%nat || bool_decide (intent = "")
     || (maxIntentBytes <? slen intent)%nat
  then deny_with null_jti ReasonRequestInvalid None
  else match resolve_agent (br_registry b) subject with
  | None => tally_up AgentDenies ;; deny_with null_jti ReasonAgentUnknown None
  | Some agent =>
      if bool_decide (txID ≠ "") && bool_decide (ag_TransportIdentity agent ≠ txID) then
        tally_up AgentDenies ;; deny_with null_jti ReasonAgentTransportUnbound None
      else if bool_decide (txID = "") && bool_decide (ag_TransportIdentity agent ≠ "") then
        tally_up AgentDenies ;; deny_with null_jti ReasonAgentNetworkOnly None
      else ret agent
  end.

(** Stage 2. *)
Definition stage_jti : M bytes :=
  match re_jti rd with Some jti => ret jti | None => fault_with null_jti ReasonIssuanceFailed end.

(** Stage 3. *)
Definition stage_epoch (jti : bytes) : M Z := λ w,
  match current_epoch (re_epochNow rd) (w_epochs w) with
  | Some epoch => ret epoch w
  | None => fault_with jti br_ReasonEpochUnavailable w
  end.

(** Stage 4. *)
Definition stage_translate (jti : bytes) (subject intent : string) : M Translation := λ w,
  let '(r, s1, t1) := translate (re_trans rd) subject intent (w_trans w) (w_trace w) in
  let w1 := set_w_trans s1 t1 w in
  match r with
  | inr tr => ret tr w1
  | inl (TranslatePending id) =>
      (let* r := br_deny jti ReasonArbitrationPending None in
       stop (mkResult (rs_Allow r) (rs_Reason r) (rs_Detail r) (hex id) (rs_Token r) (rs_JTI r)
               (rs_LeafWritten r) (rs_LeafErr r) (rs_OPADecision r))) w1
  | inl TranslateRefused => deny_with jti ReasonArbitrationRefused None w1
  | inl (TranslateFailed detail) =>
      (tally_up TranslationFailures ;;
       let* r := br_deny jti ReasonTranslationFailed None in
       stop (mkResult (rs_Allow r) (rs_Reason r) detail (rs_ArbitrationID r) (rs_Token r) (rs_JTI r)
               (rs_LeafWritten r) (rs_LeafErr r) (rs_OPADecision r))) w1
  end.

(** Stage 4bis. *)
Definition stage_skill (jti : bytes) (tr : Translation) : M (option SkillInput) :=
  match br_skills b with
  | None => ret None
  | Some skills =>
      match resolve_skill skills (tl_Action tr) with
      | None => tally_up SkillDenies ;; deny_with jti ReasonSkillUnknown None
      | Some skill =>
          if negb (skill_allows skill (tl_Resource tr)) then
            tally_up SkillDenies ;; deny_with jti ReasonSkillScopeViolation None
          else ret (Some (mkSkillInput (sr_RiskTier skill) (Z.of_nat (length (sr_Scope skill)))))
      end
  end.

(** Stage 5. *)
Definition broker_question (jti : bytes) (subject : string) (tr : Translation) (class : Class_) (epoch : Z)
    (skill : option SkillInput) : OPAInput :=
  mkOPAInput jti subject (tl_Action tr) (tl_Resource tr) class epoch None skill.

Definition stage_policy (jti : bytes) (subject : string) (tr : Translation) (class : Class_) (epoch : Z)
    (skill : option SkillInput) : M OPADecision := λ w,
  let '(dec, c1, t1) := opa_Eval (re_answer rd) (re_octx rd) (re_onow rd) (re_ots rd)
                          (broker_question jti subject tr class epoch skill) (w_opa w) (w_trace w) in
  let w1 := set_w_opa c1 t1 w in
  if od_Allow dec then ret dec w1
  else (tally_up Denies ;;
        stop (mkResult false (od_Reason dec) None "" None jti (od_LeafWritten dec) (od_LeafErr dec) (Some dec))) w1.

(** Stage 6. *)
Definition stage_classW (jti : bytes) (tr : Translation) (class : Class_) (epoch : Z) (dec : OPADecision) : M unit := λ w,
  if bool_decide (class = ClassW) then
    if negb (br_quorum b) || (length (tl_QuorumProof tr) =? 0)%nat then
      (tally_up QuorumDenies ;; deny_with jti ReasonQuorumRequired (Some dec)) w
    else
      let '(ok, s1, t1) := verify_classW (re_quorum rd) (tl_QuorumProof tr) (tl_Action tr) (tl_Resource tr) epoch
                             (w_quorum w) (w_trace w) in
      let w1 := set_w_quorum s1 t1 w in
      if ok then ret tt w1 else (tally_up QuorumDenies ;; deny_with jti ReasonQuorumInsufficient (Some dec)) w1
  else ret tt w.

(** Stages 6bis and 7: the binding, then the contract. *)
Definition plan_bound (class : Class_) : bool :=
  bool_decide (class = ClassF) || bool_decide (class = ClassI) || bool_decide (class = ClassW).

Definition stage_plan (jti : bytes) (subject : string) (tr : Translation) (class : Class_) (dec : OPADecision) :
    M (option bytes) := λ w,
  if plan_bound class && (length (tl_PlanBinding tr) =? 0)%nat then
    (tally_up PlanDenies ;; deny_with jti ReasonPlanBindingRequired (Some dec)) w
  else if (0 <? length (tl_PlanBinding tr))%nat then
    if negb (br_contract b) then (tally_up PlanDenies ;; deny_with jti ReasonPlanUnverified (Some dec)) w
    else
      let '(r, s1, t1) := verify_step (re_plan rd) subject (tl_PlanBinding tr) (tl_Action tr) (tl_Resource tr)
                            (w_plans w) (w_trace w) in
      let w1 := set_w_plans s1 t1 w in
      match r with
      | inr seal => ret (Some seal) w1
      | inl ErrPlanStoreFault => fault_with jti ReasonPlanStoreFault w1
      | inl e => (tally_up PlanDenies ;; deny_with jti (planDenyReason e) (Some dec)) w1
      end
  else ret None w.

(** Stages 7bis and 8: the ceiling of the agent, then the envelope. *)
Definition envelope_question (subject : string) (epoch total : Z) (q : Quota) : EnvelopeInput :=
  mkEnvelopeInput subject epoch (q_Resource q) (q_Operation q) (q_VolumeMax q) total.

Definition stage_reserve (jti : bytes) (subject : string) (agent : AgentRecord) (epoch : Z) (dec : OPADecision)
    (q : Quota) : M (EnvelopeEvaluator * Z) := λ w,
  match ag_Quota agent with
  | None => (tally_up AgentDenies ;; deny_with jti ReasonAgentQuotaForbidden (Some dec)) w
  | Some policy =>
      if (aq_MaxVolume policy <? q_VolumeMax q) || (aq_MaxWindowS policy <? q_WindowS q) then
        (tally_up AgentDenies ;; deny_with jti ReasonAgentQuotaExceeded (Some dec)) w
      else match br_envelope b with
      | None => deny_with jti ReasonEnvelopeUnverified (Some dec) w
      | Some ev =>
          (tally_up EnvelopeEvals ;; λ w,
           let '(r, l1, t1) := Reserve subject epoch (q_VolumeMax q) (w_ledger w) (w_trace w) in
           let w1 := set_w_ledger l1 t1 w in
           match r with
           | inl _ => deny_with jti ReasonEnvelopeSaturated (Some dec) w1
           | inr total => ret (ev, total) w1
           end) w
      end
  end.

(** [b.ledger.Release(subject, epoch, volume)]. *)
Definition release_passport (subject : string) (epoch volume : Z) : M unit :=
  modify (λ w, set_w_ledger (Release subject epoch volume (w_ledger w)) (w_trace w) w).

Definition stage_envelope (jti : bytes) (subject : string) (epoch : Z) (dec : OPADecision) (q : Quota)
    (ev : EnvelopeEvaluator) (total : Z) : M unit := λ w,
  let '(d, t1) := EvalEnvelope ev (re_envelope rd) (re_ectx rd) (envelope_question subject epoch total q) (w_trace w) in
  let w1 := set_w_trace t1 w in
  if ed_Allow d then ret tt w1
  else (release_passport subject epoch (q_VolumeMax q) ;; tally_up EnvelopeDenies ;;
        deny_with jti (ed_Reason d) (Some dec)) w1.

(** Stage 9. *)
Definition issue_params (jti : bytes) (subject : string) (tr : Translation) (class : Class_) (seal : option bytes)
    (epoch : Z) : IssueParams :=
  mkIssueParams subject (tl_Action tr) (tl_Resource tr) (Some class) (tl_ObjectSeal tr) (tl_Quota tr) seal jti epoch
    (Unix (re_iat rd)).

Definition stage_issue (jti : bytes) (subject : string) (tr : Translation) (class : Class_) (seal : option bytes)
    (epoch : Z) : M bytes :=
  match Issue (br_issuer b) (issue_params jti subject tr class seal epoch) with
  | inr wire => ret wire
  | inl _ =>
      match tl_Quota tr with Some q => release_passport subject epoch (q_VolumeMax q) | None => ret tt end ;;
      tally_up IssuanceFailures ;; fault_with jti ReasonIssuanceFailed
  end.

(** Stage 10. *)
Definition stage_emit (jti wire : bytes) (dec : OPADecision) : M Result := λ w,
  let '(r, w1) := br_writeLeaf (result true ReasonOK (Some wire) jti (Some dec)) w in
  (tally_up (if rs_Allow r then Allows_ else Denies) ;; ret r) w1.

(** [HandleAction], stage after stage. *)
Definition handle (subject intent txID : string) : M Result :=
  tally_up Requests ;;
  interleave 1 ;; let* agent := stage_agent subject intent txID in
  let* jti := stage_jti in
  interleave 3 ;; let* epoch := stage_epoch jti in
  interleave 4 ;; let* tr := stage_translate jti subject intent in
  let* skill := stage_skill jti tr in
  let class := ag_Class agent in
  interleave 5 ;; let* dec := stage_policy jti subject tr class epoch skill in
  interleave 6 ;; stage_classW jti tr class epoch dec ;;
  interleave 7 ;; let* seal := stage_plan jti subject tr class dec in
  interleave 8 ;;
  match tl_Quota tr with
  | None => ret tt
  | Some q =>
      let* r := stage_reserve jti subject agent epoch dec q in
      let '(ev, total) := r in
      interleave 9 ;; stage_envelope jti subject epoch dec q ev total
  end ;;
  interleave 10 ;; let* wire := stage_issue jti subject tr class seal epoch in
  interleave 11 ;; stage_emit jti wire dec.

Definition HandleAction (subject intent txID : string) (w : world) : Result * world :=
  match handle subject intent txID w with (inl r, w1) | (inr r, w1) => (r, w1) end.
End request.

(** ** How computations compose *)

Lemma bind_inr {A B} (m : M A) (k : A → M B) w y w2 :
  bind m k w = (inr y, w2) ↔ ∃ x w1, m w = (inr x, w1) ∧ k x w1 = (inr y, w2).
Proof.
  unfold bind. destruct (m w) as [[r|x] w1]; split; try done; [by intros (? & ? & ? & _)|by intros; exists x, w1|].
  intros (? & ? & [= <- <-] & ?). done.
Qed.

Lemma modify_inr f w (x : unit) w' : modify f w = (inr x, w') ↔ w' = f w.
Proof. unfold modify. destruct x. split; [by intros [= <-]|by intros ->]. Qed.

Lemma ret_inr {A} (a : A) w x w' : ret a w = (inr x, w') ↔ x = a ∧ w' = w.
Proof. unfold ret. split; [by intros [= -> ->]|by intros [-> ->]]. Qed.

(** A property of every result a computation stops with. *)
Definition stops_with {A} (P : Result → world → Prop) (m : M A) : Prop :=
  ∀ w r w', m w = (inl r, w') → P r w'.

Lemma stops_ret {A} P (x : A) : stops_with P (ret x).
Proof. done. Qed.
Lemma stops_modify P f : stops_with P (modify f).
Proof. done. Qed.
Lemma stops_bind {A B} P (m : M A) (k : A → M B) :
  stops_with P m → (∀ x, stops_with P (k x)) → stops_with P (bind m k).
Proof. intros Hm Hk w r w'. unfold bind. destruct (m w) as [[r1|x] w1] eqn:E; [intros; simplify_eq; by eapply Hm|apply Hk]. Qed.

Section request_lemmas.
Context (b : Broker RA RS) (rd : request_env XT XQ XP) (others : nat → world → world).

(** A computation that only denies does not continue. *)
Lemma deny_stops {A} jti reason dec w (x : A) w' : deny_with b rd jti reason dec w ≠ (inr x, w').
Proof. unfold deny_with, bind, br_deny, stop. by destruct (br_writeLeaf _ _ _ _). Qed.
Lemma fault_stops {A} jti reason w (x : A) w' : fault_with b rd jti reason w ≠ (inr x, w').
Proof. unfold fault_with, bind, br_fault, stop. by destruct (br_writeLeaf _ _ _ _). Qed.
Lemma count_deny_stops {A} c jti reason dec w (x : A) w' :
  bind (tally_up c) (λ _, deny_with b rd jti reason dec) w ≠ (inr x, w').
Proof. rewrite bind_inr. intros (? & ? & _ & ?%deny_stops). done. Qed.

(** ** What each stage asks to continue *)

Definition agent_admitted (subject intent txID : string) (agent : AgentRecord) : Prop :=
  subject ≠ "" ∧ (slen subject ≤ maxIssSubActionLen)%nat ∧ intent ≠ "" ∧ (slen intent ≤ maxIntentBytes)%nat ∧
  resolve_agent (br_registry b) subject = Some agent ∧ ag_TransportIdentity agent = txID.

Lemma stage_agent_inr subject intent txID w agent w' :
  stage_agent b rd subject intent txID w = (inr agent, w') ↔ agent_admitted subject intent txID agent ∧ w' = w.
Proof.
  unfold stage_agent, agent_admitted.
  destruct (bool_decide (subject = "")) eqn:E1; [apply bool_decide_eq_true in E1|apply bool_decide_eq_false in E1]; simpl.
  { split; [by intros ?%deny_stops|naive_solver]. }
  destruct (Nat.ltb_spec maxIssSubActionLen (slen subject)); simpl.
  { split; [by intros ?%deny_stops|]. intros ((_ & ? & _) & _). lia. }
  destruct (bool_decide (intent = "")) eqn:E2; [apply bool_decide_eq_true in E2|apply bool_decide_eq_false in E2]; simpl.
  { split; [by intros ?%deny_stops|naive_solver]. }
  destruct (Nat.ltb_spec maxIntentBytes (slen intent)); simpl.
  { split; [by intros ?%deny_stops|]. intros ((_ & _ & _ & ? & _) & _). lia. }
  destruct (resolve_agent (br_registry b) subject) as [a|]; [|split; [by intros ?%count_deny_stops|naive_solver]].
  destruct (decide (ag_TransportIdentity a = txID)) as [Ht|Ht].
  - rewrite (bool_decide_eq_false_2 (ag_TransportIdentity a ≠ txID)), andb_false_r by naive_solver.
    assert (bool_decide (txID = "") && bool_decide (ag_TransportIdentity a ≠ "") = false) as ->.
    { subst txID. by destruct (decide (ag_TransportIdentity a = "")) as [->|]; [|rewrite bool_decide_eq_false_2]. }
    rewrite ret_inr. naive_solver lia.
  - split; [|intros (? & _); naive_solver]. intros E. exfalso.
    rewrite (bool_decide_eq_true_2 (ag_TransportIdentity a ≠ txID)), andb_true_r in E by done.
    destruct (decide (txID = "")) as [->|Hn].
    + rewrite bool_decide_eq_false_2, !bool_decide_eq_true_2 in E by naive_solver. by apply count_deny_stops in E.
    + rewrite bool_decide_eq_true_2 in E by done. by apply count_deny_stops in E.
Qed.

Lemma stage_jti_inr w jti w' : stage_jti b rd w = (inr jti, w') ↔ re_jti rd = Some jti ∧ w' = w.
Proof.
  unfold stage_jti. destruct (re_jti rd) as [j|]; [rewrite ret_inr; naive_solver|].
  split; [by intros ?%fault_stops|naive_solver].
Qed.

Lemma stage_epoch_inr jti w epoch w' :
  stage_epoch b rd jti w = (inr epoch, w') ↔ current_epoch (re_epochNow rd) (w_epochs w) = Some epoch ∧ w' = w.
Proof.
  unfold stage_epoch. destruct (current_epoch _ _) as [e|]; [rewrite ret_inr; naive_solver|].
  split; [by intros ?%fault_stops|naive_solver].
Qed.

Lemma stage_translate_inr jti subject intent w tr w' :
  stage_translate b rd jti subject intent w = (inr tr, w') ↔
    ∃ s1 t1, translate (re_trans rd) subject intent (w_trans w) (w_trace w) = (inr tr, s1, t1) ∧
      w' = set_w_trans s1 t1 w.
Proof.
  unfold stage_translate. destruct (translate _ _ _ _ _) as [[[e|tr'] s1] t1].
  - split; [|naive_solver]. destruct e as [id| |d].
    + rewrite bind_inr. by intros (? & ? & _ & [=]).
    + by intros ?%deny_stops.
    + rewrite bind_inr. intros (? & ? & _ & E). rewrite bind_inr in E. by destruct E as (? & ? & _ & [=]).
  - rewrite ret_inr. naive_solver.
Qed.

Definition skill_admitted (tr : Translation) (skill : option SkillInput) : Prop :=
  match br_skills b with
  | None => skill = None
  | Some reg => ∃ sk, resolve_skill reg (tl_Action tr) = Some sk ∧ tl_Resource tr ∈ sr_Scope sk ∧
      skill = Some (mkSkillInput (sr_RiskTier sk) (Z.of_nat (length (sr_Scope sk))))
  end.

Lemma stage_skill_inr jti tr w skill w' :
  stage_skill b rd jti tr w = (inr skill, w') ↔ skill_admitted tr skill ∧ w' = w.
Proof.
  unfold stage_skill, skill_admitted. destruct (br_skills b) as [reg|]; [|rewrite ret_inr; naive_solver].
  destruct (resolve_skill reg (tl_Action tr)) as [sk|]; [|split; [by intros ?%count_deny_stops|naive_solver]].
  destruct (skill_allows sk (tl_Resource tr)) eqn:E; simpl.
  - apply skill_allows_exactly in E. rewrite ret_inr. naive_solver.
  - split; [by intros ?%count_deny_stops|]. intros ((sk' & [= <-] & Hin & _) & _).
    apply skill_allows_exactly in Hin. congruence.
Qed.

Lemma stage_policy_inr jti subject tr class epoch skill w dec w' :
  stage_policy rd jti subject tr class epoch skill w = (inr dec, w') ↔
    ∃ c1 t1, opa_Eval (re_answer rd) (re_octx rd) (re_onow rd) (re_ots rd)
      (broker_question jti subject tr class epoch skill) (w_opa w) (w_trace w) = (dec, c1, t1) ∧
      od_Allow dec = true ∧ w' = set_w_opa c1 t1 w.
Proof.
  unfold stage_policy. destruct (opa_Eval _ _ _ _ _ _ _) as [[d c1] t1]. destruct (od_Allow d) eqn:E.
  - rewrite ret_inr. naive_solver.
  - split; [rewrite bind_inr; by intros (? & ? & _ & [=])|naive_solver congruence].
Qed.

Definition classW_admitted (tr : Translation) (class : Class_) (epoch : Z) (w w' : world) : Prop :=
  (class ≠ ClassW ∧ w' = w) ∨
  (class = ClassW ∧ br_quorum b = true ∧ tl_QuorumProof tr ≠ [] ∧
   ∃ s1 t1, verify_classW (re_quorum rd) (tl_QuorumProof tr) (tl_Action tr) (tl_Resource tr) epoch
     (w_quorum w) (w_trace w) = (true, s1, t1) ∧ w' = set_w_quorum s1 t1 w).

Lemma stage_classW_inr jti tr class epoch dec w x w' :
  stage_classW b rd jti tr class epoch dec w = (inr x, w') ↔ classW_admitted tr class epoch w w'.
Proof.
  unfold stage_classW, classW_admitted. destruct x. case_bool_decide as Hc; [|rewrite ret_inr; naive_solver].
  destruct (br_quorum b); simpl; [|split; [by intros ?%count_deny_stops|naive_solver]].
  destruct (tl_QuorumProof tr) as [|p0 pf]; simpl; [split; [by intros ?%count_deny_stops|naive_solver]|].
  destruct (verify_classW _ _ _ _ _ _ _) as [[[] s1] t1].
  - rewrite ret_inr. naive_solver.
  - split; [by intros ?%count_deny_stops|naive_solver].
Qed.

Definition plan_admitted (subject : string) (tr : Translation) (class : Class_) (seal : option bytes) (w w' : world) : Prop :=
  (class = ClassOut ∧ tl_PlanBinding tr = [] ∧ seal = None ∧ w' = w) ∨
  (tl_PlanBinding tr ≠ [] ∧ br_contract b = true ∧
   ∃ h s1 t1, verify_step (re_plan rd) subject (tl_PlanBinding tr) (tl_Action tr) (tl_Resource tr)
     (w_plans w) (w_trace w) = (inr h, s1, t1) ∧ seal = Some h ∧ w' = set_w_plans s1 t1 w).

Lemma plan_bound_false class : plan_bound class = false ↔ class = ClassOut.
Proof. by destruct class. Qed.

Lemma stage_plan_inr jti subject tr class dec w seal w' :
  stage_plan b rd jti subject tr class dec w = (inr seal, w') ↔ plan_admitted subject tr class seal w w'.
Proof.
  unfold stage_plan, plan_admitted. destruct (tl_PlanBinding tr) as [|b0 bs]; simpl.
  - rewrite andb_true_r. destruct (plan_bound class) eqn:E.
    + split; [by intros ?%count_deny_stops|]. intros [[-> _]|[? _]]; done.
    + apply plan_bound_false in E. rewrite ret_inr. naive_solver.
  - rewrite andb_false_r. destruct (br_contract b); simpl; [|split; [by intros ?%count_deny_stops|naive_solver]].
    destruct (verify_step _ _ _ _ _ _ _) as [[[e|h] s1] t1].
    + split; [|naive_solver]. destruct e; first [by intros ?%count_deny_stops|by intros ?%fault_stops].
    + rewrite ret_inr. naive_solver.
Qed.

(** A passport: the ceilings of the agent, the reservation, the rule asked about the total. *)
Definition passport_admitted (subject : string) (agent : AgentRecord) (epoch : Z) (q : Quota) (w w' : world) : Prop :=
  ∃ policy ev total l1 t1, ag_Quota agent = Some policy ∧
    q_VolumeMax q ≤ aq_MaxVolume policy ∧ q_WindowS q ≤ aq_MaxWindowS policy ∧ br_envelope b = Some ev ∧
    Reserve subject epoch (q_VolumeMax q) (w_ledger w) (w_trace w) = (inr total, l1, t1) ∧
    re_envelope rd (envelope_question subject epoch total q) = IoResult (Some (Some true)) ∧
    w' = others 9 (set_w_ledger l1 t1 (set_w_stats (bump_stat EnvelopeEvals (w_stats w)) w)).

Lemma stage_envelope_inr jti subject epoch dec q ev total w x w' :
  stage_envelope b rd jti subject epoch dec q ev total w = (inr x, w') ↔
    re_envelope rd (envelope_question subject epoch total q) = IoResult (Some (Some true)) ∧ w' = w.
Proof.
  unfold stage_envelope. pose proof (EvalEnvelope_allow ev (re_envelope rd) (re_ectx rd)
    (envelope_question subject epoch total q) (w_trace w)) as HA.
  destruct (EvalEnvelope _ _ _ _ _) as [d t1] eqn:EE. simpl in HA. destruct x. destruct (ed_Allow d).
  - assert (t1 = w_trace w) as ->.
    { unfold EvalEnvelope in EE. rewrite (proj1 HA eq_refl) in EE. by injection EE. }
    replace (set_w_trace (w_trace w) w) with w by by destruct w. rewrite ret_inr. naive_solver.
  - split; [|naive_solver]. intros E. exfalso. rewrite !bind_inr in E. destruct E as (? & ? & _ & E).
    rewrite bind_inr in E. destruct E as (? & ? & _ & E). by apply deny_stops in E.
Qed.

Lemma stage_reserve_inr jti subject agent epoch dec q w ev total w' :
  stage_reserve b rd jti subject agent epoch dec q w = (inr (ev, total), w') ↔
    ∃ policy l1 t1, ag_Quota agent = Some policy ∧
      q_VolumeMax q ≤ aq_MaxVolume policy ∧ q_WindowS q ≤ aq_MaxWindowS policy ∧ br_envelope b = Some ev ∧
      Reserve subject epoch (q_VolumeMax q) (w_ledger w) (w_trace w) = (inr total, l1, t1) ∧
      w' = set_w_ledger l1 t1 (set_w_stats (bump_stat EnvelopeEvals (w_stats w)) w).
Proof.
  unfold stage_reserve. destruct (ag_Quota agent) as [policy|]; [|split; [by intros ?%count_deny_stops|naive_solver]].
  destruct (Z.ltb_spec (aq_MaxVolume policy) (q_VolumeMax q)); simpl.
  { split; [by intros ?%count_deny_stops|naive_solver lia]. }
  destruct (Z.ltb_spec (aq_MaxWindowS policy) (q_WindowS q)).
  { split; [by intros ?%count_deny_stops|naive_solver lia]. }
  destruct (br_envelope b) as [ev'|]; [|split; [by intros ?%deny_stops|naive_solver]].
  rewrite bind_inr. split.
  - intros (x & w1 & E1 & E2). apply modify_inr in E1. subst w1. simpl in E2.
    destruct (Reserve _ _ _ _ _) as [[[err|tot] l1] t1] eqn:ER; [by apply deny_stops in E2|].
    apply ret_inr in E2 as [[= <- <-] ->]. by exists policy, l1, t1.
  - intros (p & l1 & t1 & [= <-] & _ & _ & [= <-] & ER & ->).
    exists tt, (set_w_stats (bump_stat EnvelopeEvals (w_stats w)) w). split; [done|]. simpl. by rewrite ER.
Qed.

Lemma stage_issue_inr jti subject tr class seal epoch w wire w' :
  stage_issue b rd jti subject tr class seal epoch w = (inr wire, w') ↔
    Issue (br_issuer b) (issue_params rd jti subject tr class seal epoch) = inr wire ∧ w' = w.
Proof.
  unfold stage_issue. destruct (Issue _ _) as [e|wi]; [|rewrite ret_inr; naive_solver].
  split; [|naive_solver]. intros E. exfalso. rewrite bind_inr in E. destruct E as (? & ? & _ & E).
  rewrite bind_inr in E. destruct E as (? & ? & _ & E). by apply fault_stops in E.
Qed.

(** ** The specification: every component agrees, in order *)

(** The request got its token [wire]: the agent, the epoch, the translation, the skill, the policy
    engine, the quorum, the plan and the envelope each agreed on the state it found, and the
    issuer signed. [w'] is the state before the leaf of the emission. *)
Definition agreed (subject intent txID : string) (w : world) (jti : bytes) (dec : OPADecision) (wire : bytes)
    (w' : world) : Prop :=
  ∃ agent epoch tr s4 t4 skill c5 t5 w6 w7 w8 seal,
    let w1 := others 1 (set_w_stats (bump_stat Requests (w_stats w)) w) in
    let w3 := others 3 w1 in
    let w4 := others 4 w3 in
    let w5 := others 5 (set_w_trans s4 t4 w4) in
    agent_admitted subject intent txID agent ∧
    re_jti rd = Some jti ∧
    current_epoch (re_epochNow rd) (w_epochs w3) = Some epoch ∧
    translate (re_trans rd) subject intent (w_trans w4) (w_trace w4) = (inr tr, s4, t4) ∧
    skill_admitted tr skill ∧
    opa_Eval (re_answer rd) (re_octx rd) (re_onow rd) (re_ots rd)
      (broker_question jti subject tr (ag_Class agent) epoch skill) (w_opa w5) (w_trace w5) = (dec, c5, t5) ∧
    od_Allow dec = true ∧
    classW_admitted tr (ag_Class agent) epoch (others 6 (set_w_opa c5 t5 w5)) w6 ∧
    plan_admitted subject tr (ag_Class agent) seal (others 7 w6) w7 ∧
    match tl_Quota tr with
    | None => w8 = others 8 w7
    | Some q => passport_admitted subject agent epoch q (others 8 w7) w8
    end ∧
    Issue (br_issuer b) (issue_params rd jti subject tr (ag_Class agent) seal epoch) = inr wire ∧
    w' = others 11 (others 10 w8).

Ltac stage_in E x w lem H :=
  apply bind_inr in E as (x & w & H & E); apply lem in H.
Ltac yield_in E :=
  let w := fresh "w" in let E0 := fresh "E" in
  apply bind_inr in E as ([] & w & E0 & E); apply modify_inr in E0; subst w.
Ltac yield := apply bind_inr; eexists tt, _; split; [by apply modify_inr|].
Ltac stage x lem := apply bind_inr; eexists x, _; split; [by apply lem; eauto 9|].

Lemma quota_stage jti subject agent epoch dec tr w x w' :
  match tl_Quota tr with
  | None => ret tt
  | Some q =>
      bind (stage_reserve b rd jti subject agent epoch dec q) (λ r, let '(ev, total) := r in
        bind (interleave others 9) (λ _, stage_envelope b rd jti subject epoch dec q ev total))
  end w = (inr x, w') ↔
  match tl_Quota tr with None => w' = w | Some q => passport_admitted subject agent epoch q w w' end.
Proof.
  unfold interleave. destruct x, (tl_Quota tr) as [q|]; [|rewrite ret_inr; naive_solver]. split.
  - intros E. apply bind_inr in E as ([ev total] & w9 & E0 & E). yield_in E.
    apply stage_reserve_inr in E0 as (policy & l1 & t1 & ? & ? & ? & ? & ? & ->).
    apply stage_envelope_inr in E as [? ->]. by exists policy, ev, total, l1, t1.
  - intros (policy & ev & total & l1 & t1 & ? & ? & ? & ? & ? & ? & ->).
    stage (ev, total) stage_reserve_inr. yield. by apply stage_envelope_inr.
Qed.

Lemma handle_inr subject intent txID w r w' :
  handle b rd others subject intent txID w = (inr r, w') ↔
    ∃ jti dec wire w11, agreed subject intent txID w jti dec wire w11 ∧ stage_emit b rd jti wire dec w11 = (inr r, w').
Proof.
  unfold handle, agreed. cbv zeta. split.
  - intros E. unfold interleave at 1 2 3 4 5 6 7 9 10 in E. do 2 yield_in E.
    stage_in E agent w1 stage_agent_inr HA. destruct HA as [HA ->]. stage_in E jti w1 stage_jti_inr HJ. destruct HJ as [HJ ->].
    yield_in E. stage_in E epoch w3 stage_epoch_inr HE. destruct HE as [HE ->].
    yield_in E. stage_in E tr w4 stage_translate_inr HT. destruct HT as (s4 & t4 & HT & ->).
    stage_in E skill w4 stage_skill_inr HS. destruct HS as [HS ->].
    yield_in E. stage_in E dec w5 stage_policy_inr HO. destruct HO as (c5 & t5 & HO & HAl & ->).
    yield_in E. stage_in E x6 w6 stage_classW_inr HW.
    yield_in E. stage_in E pseal w7 stage_plan_inr HP.
    yield_in E. stage_in E x8 w8 quota_stage HQ.
    yield_in E. stage_in E wire w10 stage_issue_inr HI. destruct HI as [HI ->]. yield_in E.
    exists jti, dec, wire, (others 11 (others 10 w8)). split; [|done].
    exists agent, epoch, tr, s4, t4, skill, c5, t5, w6, w7, w8, pseal. by split_and!.
  - intros (jti & dec & wire & w11 & (agent & epoch & tr & s4 & t4 & skill & c5 & t5 & w6 & w7 & w8 & seal & HA & HJ & HE
      & HT & HS & HO & HAl & HW & HP & HQ & HI & ->) & HM).
    do 2 yield. stage agent stage_agent_inr. stage jti stage_jti_inr. yield. stage epoch stage_epoch_inr.
    yield. stage tr stage_translate_inr. stage skill stage_skill_inr. yield. stage dec stage_policy_inr.
    yield. stage tt stage_classW_inr. yield. stage seal stage_plan_inr. yield. stage tt quota_stage.
    yield. stage wire stage_issue_inr. yield. done.
Qed.

(** ** What a request leaves behind *)

(** The leaf of a verdict, written by the broker or by its policy client. *)
Definition verdict_leaf (r : Result) (w : world) : Prop :=
  ∃ p ts, (p = br_producer b ∨ p = oc_producer (w_opa w)) ∧
    leaf_for p KindDecision (decisionLeafRecord (rs_JTI r) (rs_Allow r) (rs_Reason r)) ts ∈ leaves_of (w_trace w).

Definition accounted (r : Result) (w : world) : Prop :=
  (is_Some (rs_Token r) ↔ rs_Allow r = true) ∧
  if rs_LeafWritten r then verdict_leaf r w else rs_Allow r = false ∧ is_Some (rs_LeafErr r).

Definition refused (r : Result) (w : world) : Prop := rs_Allow r = false ∧ accounted r w.

Lemma br_writeLeaf_spec r w :
  (is_Some (rs_Token r) ↔ rs_Allow r = true) →
  let '(r', w') := br_writeLeaf b rd r w in
  accounted r' w' ∧ rs_JTI r' = rs_JTI r ∧ (rs_Allow r' = true → rs_Allow r = true ∧ rs_Token r' = rs_Token r) ∧
  (rs_Allow r = false → rs_Reason r' = rs_Reason r) ∧
  (rs_Allow r' = true ↔ rs_Allow r = true ∧
    (appendLeaf (br_producer b) KindDecision (decisionLeafRecord (rs_JTI r) (rs_Allow r) (rs_Reason r))
       (UnixNano (re_ts rd)) (w_trace w)).1 = None).
Proof.
  intros HT. unfold br_writeLeaf, accounted, verdict_leaf.
  pose proof (appendLeaf_observed (br_producer b) KindDecision
    (decisionLeafRecord (rs_JTI r) (rs_Allow r) (rs_Reason r)) (UnixNano (re_ts rd)) (w_trace w)) as HO.
  destruct (appendLeaf _ _ _ _ _) as [[e|] t1]; simpl.
  - split_and!; try done; destruct (rs_Allow r); try done; naive_solver.
  - destruct HO as (HL & _ & _). split_and!; try done; [|naive_solver].
    exists (br_producer b), (UnixNano (re_ts rd)). split; [by left|]. rewrite HL. set_solver.
Qed.

Lemma br_deny_spec jti reason dec w x w' : br_deny b rd jti reason dec w = (x, w') →
  ∃ r, x = inr r ∧ refused r w' ∧ rs_JTI r = jti ∧ rs_Reason r = reason ∧ rs_Token r = None.
Proof.
  unfold br_deny. pose proof (br_writeLeaf_spec (result false reason None jti dec) w) as HS.
  destruct (br_writeLeaf _ _ _ _) as [r w1]. intros [= <- <-]. exists r. split; [done|].
  destruct HS as (HA & HJ & HN & HR & _); [by split; [intros []|]|]. simpl in *.
  assert (rs_Allow r = false) as Hr by (destruct (rs_Allow r); naive_solver).
  split_and!; [by split|done|by apply HR|]. destruct HA as [HT _]. destruct (rs_Token r); naive_solver.
Qed.

Lemma deny_refused {A} jti reason dec : stops_with refused (deny_with (A := A) b rd jti reason dec).
Proof.
  intros w r w'. unfold deny_with, bind. destruct (br_deny _ _ _ _ _ _) as [x w1] eqn:E.
  apply br_deny_spec in E as (r1 & -> & HR & _). by intros [= <- <-].
Qed.

Lemma fault_refused {A} jti reason : stops_with refused (fault_with (A := A) b rd jti reason).
Proof.
  intros w r w'. unfold fault_with, bind, br_fault.
  pose proof (br_writeLeaf_spec (result false reason None jti None)
    (set_w_trace (call_alarm (br_onTrip b) reason (w_trace w)) w)) as HS.
  destruct (br_writeLeaf _ _ _ _) as [r1 w1]. intros [= <- <-].
  destruct HS as (HA & _ & HN & _); [by split; [intros []|]|]. split; [|done]. destruct (rs_Allow r1); naive_solver.
Qed.

Lemma count_refused {A} c (m : M A) : stops_with refused m → stops_with refused (bind (tally_up c) (λ _, m)).
Proof. intros Hm. by apply stops_bind. Qed.
End request_lemmas.

Create HintDb broker.
#[local] Hint Resolve stops_ret stops_modify deny_refused fault_refused count_refused : broker.

Section accounting.
Context (b : Broker RA RS) (rd : request_env XT XQ XP) (others : nat → world → world).
Abbreviation refuses m := (stops_with (refused b) m).

(** Completing the result of a denial keeps its account. *)
Lemma amended_refused jti reason dec (d : Result → option Detail) (i : Result → string) :
  refuses (bind (br_deny b rd jti reason dec) (λ r, stop (A := Translation)
    (mkResult (rs_Allow r) (rs_Reason r) (d r) (i r) (rs_Token r) (rs_JTI r) (rs_LeafWritten r) (rs_LeafErr r)
       (rs_OPADecision r)))).
Proof.
  intros w r w'. unfold bind. destruct (br_deny _ _ _ _ _ _) as [x w1] eqn:E.
  apply br_deny_spec in E as (r1 & -> & HR & _). intros [= <- <-]. done.
Qed.

Lemma policy_refused jti subject tr class epoch skill : refuses (stage_policy rd jti subject tr class epoch skill).
Proof.
  intros w r w'. unfold stage_policy. destruct (opa_Eval _ _ _ _ _ _ _) as [[d c1] t1] eqn:E.
  destruct (od_Allow d) eqn:EA; [done|]. intros [= <- <-]. split; [done|]. split; [by split; [intros []|]|]. simpl.
  unfold opa_Eval in E. destruct (opa_verdict _ _) as [allow reason]. destruct (note_exchange _ _ _ _ _) as [c0 t0].
  pose proof (finish_spec (oi_JTI (broker_question jti subject tr class epoch skill)) allow reason (re_ots rd) c0 t0) as HF.
  unfold finish in *. pose proof (count_fault_producer reason c0 t0) as HC. destruct (count_fault reason c0 t0) as [c2 t2].
  destruct (appendLeaf _ _ _ _ _) as [[er|] t3]; simplify_eq/=; [by eauto|].
  destruct HF as (_ & _ & HL & _). exists (oc_producer c0), (UnixNano (re_ots rd)). split; [right; done|].
  simpl. rewrite HL. set_solver.
Qed.

Lemma agent_refused subject intent txID : refuses (stage_agent b rd subject intent txID).
Proof. unfold stage_agent. repeat case_match; auto with broker. Qed.

Lemma jti_refused : refuses (stage_jti b rd).
Proof. unfold stage_jti. case_match; auto with broker. Qed.

Lemma epoch_refused jti : refuses (stage_epoch b rd jti).
Proof. intros w r w'. unfold stage_epoch. case_match; [done|]. apply fault_refused. Qed.

Lemma translate_refused jti subject intent : refuses (stage_translate b rd jti subject intent).
Proof.
  intros w r w'. unfold stage_translate. destruct (translate _ _ _ _ _) as [[[[id| |d]|tr] s1] t1].
  - apply amended_refused.
  - apply deny_refused.
  - apply count_refused, amended_refused.
  - done.
Qed.

Lemma skill_refused jti tr : refuses (stage_skill b rd jti tr).
Proof. unfold stage_skill. repeat case_match; auto with broker. Qed.

Lemma classW_refused jti tr class epoch dec : refuses (stage_classW b rd jti tr class epoch dec).
Proof.
  intros w r w'. unfold stage_classW. repeat case_match; try done; apply count_refused, deny_refused.
Qed.

Lemma plan_refused jti subject tr class dec : refuses (stage_plan b rd jti subject tr class dec).
Proof.
  intros w r w'. unfold stage_plan. repeat case_match; try done;
    first [apply count_refused, deny_refused|apply fault_refused].
Qed.

Lemma reserve_refused jti subject agent epoch dec q : refuses (stage_reserve b rd jti subject agent epoch dec q).
Proof.
  intros w r w'. unfold stage_reserve. repeat case_match; try done;
    first [apply deny_refused|apply count_refused, deny_refused|idtac].
  apply count_refused. intros w1 r1 w1'. repeat case_match; try done. apply deny_refused.
Qed.

Lemma envelope_refused jti subject epoch dec q ev total : refuses (stage_envelope b rd jti subject epoch dec q ev total).
Proof.
  intros w r w'. unfold stage_envelope. repeat case_match; try done.
  apply stops_bind; [done|]. intros _. apply count_refused, deny_refused.
Qed.

Lemma issue_refused jti subject tr class seal epoch : refuses (stage_issue b rd jti subject tr class seal epoch).
Proof.
  unfold stage_issue. case_match; auto with broker. apply stops_bind; [by destruct (tl_Quota tr)|].
  intros _. auto with broker.
Qed.

Lemma handle_refused subject intent txID : refuses (handle b rd others subject intent txID).
Proof.
  unfold handle. repeat (apply stops_bind; [|intros ?]); try done;
    auto using agent_refused, jti_refused, epoch_refused, translate_refused, skill_refused, policy_refused,
      classW_refused, plan_refused, issue_refused with broker.
  - case_match; [|done]. apply stops_bind; [apply reserve_refused|]. intros [ev total].
    apply stops_bind; [done|]. intros _. apply envelope_refused.
  - intros w r w'. unfold stage_emit. by destruct (br_writeLeaf _ _ _ _).
Qed.

Lemma stage_emit_spec jti wire dec w : ∃ r w',
  stage_emit b rd jti wire dec w = (inr r, w') ∧ accounted b r w' ∧
  (rs_Allow r = true → rs_Token r = Some wire ∧ rs_JTI r = jti) ∧
  (rs_Allow r = true ↔ (appendLeaf (br_producer b) KindDecision (decisionLeafRecord jti true ReasonOK)
    (UnixNano (re_ts rd)) (w_trace w)).1 = None).
Proof.
  unfold stage_emit. pose proof (br_writeLeaf_spec b rd (result true ReasonOK (Some wire) jti (Some dec)) w) as HS.
  destruct (br_writeLeaf _ _ _ _) as [r w1]. destruct HS as (HA & HJ & HT & _ & HL); [done|].
  eexists r, _. split; [reflexivity|]. simpl in *. split_and!; [done| |naive_solver].
  intros Hr. destruct (HT Hr) as [_ ?]. done.
Qed.

(** A granted request has its agreement and its token. *)
Lemma HandleAction_granted subject intent txID w r w' :
  HandleAction b rd others subject intent txID w = (r, w') → rs_Allow r = true →
  ∃ jti dec wire w11, agreed b rd others subject intent txID w jti dec wire w11 ∧
    rs_Token r = Some wire ∧ rs_JTI r = jti ∧
    (appendLeaf (br_producer b) KindDecision (decisionLeafRecord jti true ReasonOK) (UnixNano (re_ts rd))
       (w_trace w11)).1 = None.
Proof.
  unfold HandleAction. destruct (handle b rd others subject intent txID w) as [[r1|r1] w1] eqn:E; intros [= <- <-] HA.
  - pose proof (handle_refused subject intent txID _ _ _ E) as [HR _]. congruence.
  - apply handle_inr in E as (jti & dec & wire & w11 & HAg & HE). exists jti, dec, wire, w11.
    destruct (stage_emit_spec jti wire dec w11) as (r2 & w2 & HE' & _ & HT & HL). rewrite HE in HE'. injection HE' as <- <-.
    destruct (HT HA) as [? ?]. split_and!; try done. by apply HL.
Qed.

Lemma HandleAction_accounted subject intent txID w :
  accounted b (HandleAction b rd others subject intent txID w).1 (HandleAction b rd others subject intent txID w).2.
Proof.
  unfold HandleAction. destruct (handle b rd others subject intent txID w) as [[r|r] w'] eqn:E.
  - by apply (handle_refused subject intent txID) in E as [_ ?].
  - apply handle_inr in E as (jti & dec & wire & w11 & _ & HE).
    destruct (stage_emit_spec jti wire dec w11) as (r1 & w1 & HE' & HA & _). rewrite HE in HE'. by injection HE' as <- <-.
Qed.

Lemma HandleAction_token subject intent txID w :
  let '(r, _) := HandleAction b rd others subject intent txID w in is_Some (rs_Token r) ↔ rs_Allow r = true.
Proof.
  pose proof (HandleAction_accounted subject intent txID w) as [HT _]. by destruct (HandleAction _ _ _ _ _ _ _).
Qed.

(** ** The claims *)

(** C14: when the broker issues a token. However the other requests and the operators change the shared
    state between its stages, a request is granted exactly when the agent is registered and
    comes over the transport it is bound to, the cell holds an epoch, the request translates, the
    skill covers the resource, the engine allows the translated action for the registered class,
    a class-W action has its quorum, an action of class F, I or W has its plan, a passport stays
    under the ceilings of the agent and of the envelope, the issuer signs and the leaf is written;
    and then its token is the one the issuer signed for exactly those facts. *)
Theorem broker_allows_exactly subject intent txID w :
  let '(r, w') := HandleAction b rd others subject intent txID w in
  (rs_Allow r = true ↔ ∃ jti dec wire w11, agreed b rd others subject intent txID w jti dec wire w11 ∧
     (appendLeaf (br_producer b) KindDecision (decisionLeafRecord jti true ReasonOK) (UnixNano (re_ts rd))
        (w_trace w11)).1 = None) ∧
  (rs_Allow r = true → ∃ jti dec wire w11, agreed b rd others subject intent txID w jti dec wire w11 ∧
     rs_Token r = Some wire ∧ rs_JTI r = jti).
Proof.
  destruct (HandleAction b rd others subject intent txID w) as [r w'] eqn:E.
  pose proof (HandleAction_granted subject intent txID w r w' E) as HG. split; [|naive_solver].
  split; [naive_solver|]. intros (jti & dec & wire & w11 & HA & HL).
  destruct (stage_emit_spec jti wire dec w11) as (r1 & w1 & HE & _ & _ & HL1).
  assert (handle b rd others subject intent txID w = (inr r1, w1)) as E1 by (apply handle_inr; by exists jti, dec, wire, w11).
  unfold HandleAction in E. rewrite E1 in E. injection E as -> ->. by apply HL1.
Qed.

(** Every verdict is accounted for. Whatever the other requests do, a result carries a token
    exactly when it is an allow; and either the leaf of that very verdict, with its identifier and
    its reason, is in the registry, or the request is refused and says why its leaf is missing. *)
Theorem broker_verdict_accounted subject intent txID w :
  let '(r, w') := HandleAction b rd others subject intent txID w in accounted b r w'.
Proof.
  pose proof (HandleAction_accounted subject intent txID w) as HA. by destruct (HandleAction _ _ _ _ _ _ _).
Qed.

(** ** The counters *)

Definition tally (w : world) : Z * Z * Z := (bs_Requests (w_stats w), bs_Allows (w_stats w), bs_Denies (w_stats w)).
Definition one_more_deny (n : Z * Z * Z) : Z * Z * Z := (n.1.1, n.1.2, u64 (n.2 + 1)).

(** A stage that counts a denial exactly when it ends the request. *)
Definition counted_from {A} (n : Z * Z * Z) (p : (Result + A) * world) : Prop :=
  tally p.2 = match p.1 with inl _ => one_more_deny n | inr _ => n end.
Definition denies_once {A} (m : M A) : Prop := ∀ w, counted_from (tally w) (m w).

Lemma once_ret {A} (x : A) : denies_once (ret x).
Proof. done. Qed.
Lemma once_bind {A B} (m : M A) (k : A → M B) : denies_once m → (∀ x, denies_once (k x)) → denies_once (bind m k).
Proof.
  intros Hm Hk w. specialize (Hm w). unfold bind, counted_from in *. destruct (m w) as [[r|x] w1]; simpl in *; [done|].
  rewrite (Hk x w1), Hm. done.
Qed.
Lemma once_modify f : (∀ w, tally (f w) = tally w) → denies_once (modify f).
Proof. intros Hf w. apply Hf. Qed.
Lemma once_count c : c ∉ [Requests; Allows_; Denies] → denies_once (tally_up c).
Proof. intros Hc. apply once_modify. intros w. destruct c; set_solver. Qed.

Lemma br_writeLeaf_tally r w : tally (br_writeLeaf b rd r w).2 = tally w.
Proof. unfold br_writeLeaf. by destruct (appendLeaf _ _ _ _ _) as [[e|] t1]. Qed.

Lemma br_deny_tally jti reason dec w : tally (br_deny b rd jti reason dec w).2 = one_more_deny (tally w).
Proof.
  unfold br_deny. pose proof (br_writeLeaf_tally (result false reason None jti dec) w) as HT.
  destruct (br_writeLeaf _ _ _ _) as [r w1]. simpl in *. by rewrite <-HT.
Qed.
Lemma once_deny {A} jti reason dec : denies_once (deny_with (A := A) b rd jti reason dec).
Proof.
  intros w. pose proof (br_deny_tally jti reason dec w) as HT. unfold deny_with, bind.
  destruct (br_deny _ _ _ _ _ w) as [x w1] eqn:E. by apply br_deny_spec in E as (r & -> & _).
Qed.
Lemma once_fault {A} jti reason : denies_once (fault_with (A := A) b rd jti reason).
Proof.
  intros w. unfold fault_with, bind, br_fault.
  pose proof (br_writeLeaf_tally (result false reason None jti None)
    (set_w_trace (call_alarm (br_onTrip b) reason (w_trace w)) w)) as HT.
  destruct (br_writeLeaf _ _ _ _) as [r w1]. simpl in *. change (tally w) with (tally (set_w_trace (call_alarm (br_onTrip b) reason (w_trace w)) w)). by rewrite <-HT.
Qed.
Lemma once_amended {A} jti reason dec (f : Result → Result) :
  denies_once (bind (br_deny b rd jti reason dec) (λ r, stop (A := A) (f r))).
Proof.
  intros w. pose proof (br_deny_tally jti reason dec w) as HT. unfold bind.
  destruct (br_deny _ _ _ _ _ w) as [x w1] eqn:E. by apply br_deny_spec in E as (r & -> & _).
Qed.

Lemma once_count_deny {A} c jti reason dec :
  c ∉ [Requests; Allows_; Denies] → denies_once (bind (tally_up c) (λ _, deny_with (A := A) b rd jti reason dec)).
Proof. intros Hc. apply once_bind; [by apply once_count|]. intros _. apply once_deny. Qed.

(** Running a computation on a state with the same counters. *)
Lemma once_at {A} (m : M A) w w1 : denies_once m → tally w1 = tally w →
  counted_from (tally w) (m w1).
Proof. intros Hm <-. apply Hm. Qed.

Ltac not_verdict := let E := fresh in intros E; repeat (apply elem_of_cons in E as [E|E]; [discriminate E|]); by apply elem_of_nil in E.
Ltac deny_once := first [apply once_ret|apply once_deny|apply once_fault|apply once_count_deny; not_verdict|apply once_amended].
Ltac once_stage := let w := fresh in intros w; repeat case_match; try done; first [done|apply once_at; [deny_once|done]].

Lemma once_agent subject intent txID : denies_once (stage_agent b rd subject intent txID).
Proof. unfold stage_agent. repeat case_match; deny_once. Qed.
Lemma once_jti : denies_once (stage_jti b rd).
Proof. unfold stage_jti. case_match; deny_once. Qed.
Lemma once_epoch jti : denies_once (stage_epoch b rd jti).
Proof. unfold stage_epoch. once_stage. Qed.
Lemma once_translate jti subject intent : denies_once (stage_translate b rd jti subject intent).
Proof.
  unfold stage_translate. intros w. repeat case_match; first [done|apply once_at; [try deny_once|done]].
  apply once_bind; [apply once_count; not_verdict|]. intros _. deny_once.
Qed.
Lemma once_skill jti tr : denies_once (stage_skill b rd jti tr).
Proof. unfold stage_skill. repeat case_match; deny_once. Qed.
Lemma once_policy jti subject tr class epoch skill : denies_once (stage_policy rd jti subject tr class epoch skill).
Proof. unfold stage_policy. intros w. repeat case_match; done. Qed.
Lemma once_classW jti tr class epoch dec : denies_once (stage_classW b rd jti tr class epoch dec).
Proof. unfold stage_classW. once_stage. Qed.
Lemma once_plan jti subject tr class dec : denies_once (stage_plan b rd jti subject tr class dec).
Proof. unfold stage_plan. once_stage. Qed.
Lemma once_reserve jti subject agent epoch dec q : denies_once (stage_reserve b rd jti subject agent epoch dec q).
Proof.
  unfold stage_reserve. intros w. repeat case_match; first [done|apply once_at; [try deny_once|done]].
  apply once_bind; [apply once_count; not_verdict|]. intros _. once_stage.
Qed.
Lemma once_envelope jti subject epoch dec q ev total : denies_once (stage_envelope b rd jti subject epoch dec q ev total).
Proof.
  unfold stage_envelope. intros w. repeat case_match; try done. apply once_at; [|done].
  apply once_bind; [by apply once_modify|]. intros _. deny_once.
Qed.
Lemma once_issue jti subject tr class seal epoch : denies_once (stage_issue b rd jti subject tr class seal epoch).
Proof.
  unfold stage_issue. case_match; [|deny_once]. apply once_bind; [case_match; [by apply once_modify|deny_once]|].
  intros _. apply once_bind; [apply once_count; not_verdict|]. intros _. deny_once.
Qed.

(** A computation that ends the request counts the verdict it renders. *)
Definition verdict_counted (n : Z * Z * Z) (r : Result) : Z * Z * Z :=
  if rs_Allow r then (n.1.1, u64 (n.1.2 + 1), n.2) else one_more_deny n.
Definition renders_once (m : M Result) : Prop :=
  ∀ w, match m w with
       | (inl _, w') => tally w' = one_more_deny (tally w)
       | (inr r, w') => tally w' = verdict_counted (tally w) r
       end.

Lemma renders_bind {A} (m : M A) (k : A → M Result) :
  denies_once m → (∀ x, renders_once (k x)) → renders_once (bind m k).
Proof.
  intros Hm Hk w. specialize (Hm w). unfold bind, counted_from in *. destruct (m w) as [[r|x] w1]; simpl in *; [done|].
  rewrite <-Hm. apply Hk.
Qed.

Lemma once_interleave k : (∀ k w, tally (others k w) = tally w) → denies_once (interleave others k).
Proof. intros HO. apply once_modify, HO. Qed.

Lemma renders_emit jti wire dec : renders_once (stage_emit b rd jti wire dec).
Proof.
  intros w. unfold stage_emit. pose proof (br_writeLeaf_tally (result true ReasonOK (Some wire) jti (Some dec)) w) as HT.
  destruct (br_writeLeaf _ _ _ _) as [r w1]. simpl in *. unfold verdict_counted. rewrite <-HT. by destruct (rs_Allow r).
Qed.

#[local] Hint Resolve once_agent once_jti once_epoch once_translate once_skill once_policy once_classW once_plan
  once_reserve once_envelope once_issue once_ret renders_emit once_interleave : broker.

(** Each request is counted once, as received and by its verdict: when the other requests are not
    counted in between, [Requests] grows by one, and exactly one of [Allows] and [Denies] does, the
    one of the verdict rendered. *)
Theorem requests_counted subject intent txID w :
  (∀ k w, tally (others k w) = tally w) →
  let '(r, w') := HandleAction b rd others subject intent txID w in
  tally w' = (u64 (bs_Requests (w_stats w) + 1),
              if rs_Allow r then u64 (bs_Allows (w_stats w) + 1) else bs_Allows (w_stats w),
              if rs_Allow r then bs_Denies (w_stats w) else u64 (bs_Denies (w_stats w) + 1)).
Proof.
  intros HO. unfold HandleAction, handle. unfold bind at 1. simpl.
  match goal with |- context [?m (set_w_stats ?s w)] => assert (renders_once m) as HM; [|
    pose proof (handle_refused subject intent txID w) as HR; unfold handle in HR; unfold bind at 1 in HR; simpl in HR;
    specialize (HM (set_w_stats s w)); destruct (m (set_w_stats s w)) as [[r|r] w'] ] end.
  - repeat (apply renders_bind; [|intros ?]); auto with broker.
    case_match; auto with broker. apply once_bind; [auto with broker|]. intros [ev total].
    apply once_bind; auto with broker.
  - destruct (HR r w' eq_refl) as [-> _]. done.
  - rewrite HM. unfold verdict_counted. by destruct (rs_Allow r).
Qed.
End accounting.
End broker.
