(* ===== verification/BrokerServer.v ===== *)
(** The door of the broker: [src/broker/server.go].

    A request arrives over the Unix socket of the cell or over mutual TLS; its body is read,
    decoded strictly, and handed to [HandleAction] with the name of the client certificate. The
    decoding is a parameter. The trace of a test bench is not modelled. *)
From S2P Require Import Prelude.
From S2P Require Import Hex.
From S2P Require Import Effects.
From S2P Require Import Issuer.
From S2P Require Import Registries.
From S2P Require Import StrictJson.
From S2P Require Import Translation.
From S2P Require Import Broker.

Local Open Scope Z_scope.

Definition defaultMaxBody : Z := 64 * 1024.

Record Server := mkServer { sv_maxBody : Z }.

(** [NewServer]: [None] is a configuration error. *)
Definition NewServer (broker : bool) (maxBody : Z) : option Server :=
  if negb broker then None
  else if maxBody <? 0 then None
  else Some (mkServer (if maxBody =? 0 then defaultMaxBody else maxBody)).

(** A connection, with the common names of the client certificates of a TLS one. *)
Inductive connection := UnixSocket | MutualTLS (peers : list string).

Definition peerCertCN (c : connection) : string :=
  match c with
  | UnixSocket => ""
  | MutualTLS peers => match peers with [] => "" | cn :: _ => cn end
  end.

Record actionRequest := mkActionRequest { aq_Subject : string; aq_Intent : string }.

Inductive actionResponse :=
  | RequestRefused (detail : Detail)                                     (* 400 *)
  | ActionDecision (allow : bool) (reason token jti : string) (detail : option Detail) (arbitrationID : string).

Section server.
Context {SE ST SQ SP XT XQ XP RA RS : Type}.
Context `{CoseSign, !Crypto, !Env}.
Context `{!EpochProvider SE, !Translator XT ST, !QuorumGate XQ SQ, !ContractGate XP SP}.
Context `{!AgentRegistry RA, !SkillRegistry RS}.
Context (decode_request : bytes → Detail + actionRequest).
Context (b : Broker RA RS) (rd : request_env XT XQ XP) (others : nat → World SE ST SQ SP → World SE ST SQ SP).

(** [handleAction]; [body] is [None] when it cannot be read, or is longer than the bound. *)
Definition read_body (sv : Server) (body : option bytes) : option bytes :=
  match body with
  | Some raw => if sv_maxBody sv <? Z.of_nat (length raw) then None else Some raw
  | None => None
  end.

Definition handleAction (sv : Server) (c : connection) (body : option bytes) (w : World SE ST SQ SP) :
    actionResponse * World SE ST SQ SP :=
  match read_body sv body with
  | None => (RequestRefused (mkDetail "body-unreadable" "" "" []), w)
  | Some raw =>
      match decode_request raw with
      | inl d => (RequestRefused d, w)
      | inr req =>
          let '(r, w1) := HandleAction b rd others (aq_Subject req) (aq_Intent req) (peerCertCN c) w in
          (ActionDecision (rs_Allow r) (rs_Reason r)
             (if rs_Allow r then hex (default [] (rs_Token r)) else "") (hex (rs_JTI r)) (rs_Detail r)
             (rs_ArbitrationID r), w1)
      end
  end.

(** A malformed request changes nothing. *)
Lemma malformed_no_effect sv c body w d w' :
  handleAction sv c body w = (RequestRefused d, w') → w' = w.
Proof.
  unfold handleAction. destruct (read_body sv body); [|by intros [= _ <-]].
  destruct (decode_request _); [by intros [= _ <-]|]. by destruct (HandleAction _ _ _ _ _ _ _).
Qed.

(** What the agent gets is what was decided: the decision of [HandleAction], and the bytes of its
    token exactly when it is an allow. *)
Lemma response_faithful sv c body w allow reason token jti d i w' :
  handleAction sv c body w = (ActionDecision allow reason token jti d i, w') →
  ∃ req r, (∃ raw, body = Some raw ∧ decode_request raw = inr req) ∧
    HandleAction b rd others (aq_Subject req) (aq_Intent req) (peerCertCN c) w = (r, w') ∧
    allow = rs_Allow r ∧ reason = rs_Reason r ∧
    (allow = true → hex_DecodeString token = rs_Token r) ∧ (allow = false → token = "").
Proof.
  unfold handleAction, read_body. destruct body as [raw|]; [|done]. destruct (_ <? _); [done|].
  destruct (decode_request raw) as [d'|req] eqn:ED; [done|].
  pose proof (HandleAction_token b rd others (aq_Subject req) (aq_Intent req) (peerCertCN c) w) as HT.
  destruct (HandleAction _ _ _ _ _ _ _) as [r w1] eqn:EH. intros [= <- <- <- <- <- <- <-].
  exists req, r. split_and!; try done; [by exists raw| |].
  - intros HA. rewrite HA. destruct (proj2 HT HA) as [x Hx]. rewrite Hx. simpl. apply hex_roundtrip.
  - by intros ->.
Qed.

(** ** The claims *)

(** A certificate without a common name is not a name. A request over mutual TLS whose certificate
    has an empty common name is served exactly as one over the Unix socket: the agents that the
    registry keeps off the network can be declared by it. *)
Theorem unnamed_certificate_is_local sv body w :
  handleAction sv (MutualTLS [""]) body w = handleAction sv UnixSocket body w.
Proof. done. Qed.
End server.
