(* ===== verification/BrokerChain.v ===== *)
(** The broker with its components: the epoch tracker, the gate of class W and the plan contracts
    behind the interfaces of Broker.v.

    The theorem follows a token from the request to the enforcement point: what a cell reads in a
    token of this broker was governed, by the registry, by the epoch, by the controllers and by
    the plan. *)
From S2P Require Import Prelude.
From S2P Require Import Hex.
From S2P Require Import Json.
From S2P Require Import Leaf.
From S2P Require Import Effects.
From S2P Require Import Token.
From S2P Require Import Issuer.
From S2P Require Import OPAClient.
From S2P Require Import PlanContract.
From S2P Require Import Epoch.
From S2P Require Import ProofStore.
From S2P Require Import ClassW.
From S2P Require Import Arbiter.
From S2P Require Import Guard.
From S2P Require Import Envelope.
From S2P Require Import Registries.
From S2P Require Import StrictJson.
From S2P Require Import Translation.
From S2P Require Import Broker.

Local Open Scope Z_scope.

(** ** The implementations of the interfaces *)

(** The tracker provides the epoch. *)
#[global] Instance tracker_epochs : EpochProvider Tracker :=
  λ now t, match CurrentEpoch now t with inr n => Some n | inl _ => None end.

Section gates.
Context `{Crypto, Env, TimeParser, MapOrder}.

(** The gate of class W, from the bytes of the proof: [decode] reads the JSON. A call reads the
    clock twice and meets one fate of the disk. *)
Definition classW_gate (g : ClassWGate) (decode : bytes → option ClassWProof) :
    QuorumGate (Z * Z * bool) consumedProofs :=
  λ x proof action resource epoch c t,
    let '(now, ts, disk) := x in
    let '(e, c1, t1) := VerifyClassW g now ts disk
                          (if bool_decide (proof = []) then None else Some (decode proof)) action resource epoch c t in
    (match e with None => true | Some _ => false end, c1, t1).

(** The plan contracts. *)
Definition plan_gate (pg : ContractConfig) : ContractGate Z ContractStore :=
  λ now subject binding action resource s t, VerifyStep pg subject binding action resource now s t.
End gates.

(** ** Types of what goes into a token *)

(** An issuer [NewIssuer] made with the identifier of a cell in valid UTF-8. *)
Definition issuer_typed (i : Issuer) : Prop :=
  utf8 (sb (is_cellID i)) ∧
  length (is_policyID i) = 32%nat ∧ length (is_kid i) = 16%nat ∧ text_ok (is_cellID i) maxIssSubActionLen ∧ 0 ≤ is_ttlSec i.

Lemma NewIssuer_typed `{Crypto, !CryptoLaws} cellID signer policyID ttl i :
  utf8 (sb cellID) → length policyID = 32%nat → NewIssuer cellID signer policyID ttl = inr i → issuer_typed i.
Proof.
  unfold NewIssuer. intros HU HP. destruct (_ || _) eqn:E1; [done|]. destruct signer as [pub|]; [|done].
  cbv zeta. set (tt := if ttl =? 0 then defaultTTLSec else ttl).
  destruct (Z.ltb_spec tt minTTLSec) as [|E2]; [done|]. destruct (maxTTLSec <? tt); [done|]. intros [= <-].
  unfold issuer_typed, text_ok. simpl.
  apply orb_false_elim in E1 as [E1%Nat.eqb_neq E3%Nat.ltb_ge]. 
  unfold minTTLSec in E2. split_and!; [done|done| |lia|done|lia].
  unfold KeyIDFromPublicKey. rewrite length_take, sha256_length. done.
Qed.

Lemma parseBinding_length binding h params : parseBinding binding = (h, Some params) → length h = 32%nat.
Proof.
  unfold parseBinding. destruct (Nat.ltb_spec (length binding) (5 + 32 + 2)); simpl; [done|].
  destruct (negb _); simpl; [done|]. destruct (negb _ || _); [done|]. intros [= <- _].
  rewrite length_take, length_drop. lia.
Qed.

(** The texts of a translation. *)
Definition intent_texts (action resource : string) (q : option Quota) : list string := action :: resource :: quota_texts q.

(** A translator that seals with 32 bytes and whose texts are valid UTF-8. *)
Class TypedTranslator {X S} (T : Translator X S) := translated_typed :
  ∀ x subject intent s t tr s' t', translate x subject intent s t = (inr tr, s', t') →
    (∀ sl, tl_ObjectSeal tr = Some sl → length sl = 32%nat) ∧
    Forall (λ x, utf8 (sb x)) (intent_texts (tl_Action tr) (tl_Resource tr) (tl_Quota tr)).

(** What [encoding/json] guarantees of the strings it decodes: it replaces what is not UTF-8. *)
Class Utf8Intents (decode : string → Detail + structuredIntent) := decoded_utf8 :
  ∀ intent s, decode intent = inr s → Forall (λ x, utf8 (sb x)) (intent_texts (si_Action s) (si_Resource s) (si_Quota s)).

#[global] Instance structured_typed decode : Utf8Intents decode → TypedTranslator (structured_translator decode).
Proof.
  intros HU x subject intent s t tr s' t'. unfold translate, structured_translator.
  intros [= (si & HD & _ & (EA & ER & _ & EQ & HS & _))%structured_inr _ _]. split.
  - intros sl Hs. destruct (decide _); [congruence|]. destruct HS as (b & Hb%decodeHex32_length & ?). congruence.
  - rewrite EA, ER, EQ. by eapply HU.
Qed.

#[global] Instance guarded_typed `{Crypto, Env} {X S} g (T : Translator X S) :
  TypedTranslator T → TypedTranslator (guarded_translator g T).
Proof.
  intros HT [rd xi] subject intent [q si] t tr s' t'. unfold translate, guarded_translator.
  destruct (Admit _ _ _ _ _ _ _ _ _ _ _ _) as [[[e|] q1] t1]; [done|].
  destruct (T xi subject intent si t1) as [[r si1] t2] eqn:E. intros [= -> <- <-]. by eapply HT.
Qed.

(** ** A token of the broker *)

Section chain.
Context {ST XT RA RS : Type}.
Context `{CoseSign, !Crypto, !Env, !TimeParser, !MapOrder}.
Context (T : Translator XT ST) `{!TypedTranslator T, !AgentRegistry RA, !SkillRegistry RS}.
Context (g : ClassWGate) (decode : bytes → option ClassWProof) (pg : ContractConfig).

#[local] Existing Instance T.
#[local] Instance quorum_seam : QuorumGate (Z * Z * bool) consumedProofs := classW_gate g decode.
#[local] Instance plan_seam : ContractGate Z ContractStore := plan_gate pg.

Abbreviation shared := (World Tracker ST consumedProofs ContractStore).
Abbreviation env := (request_env XT (Z * Z * bool) Z).

Lemma classW_seam_admits x proof action resource epoch c t c1 t1 :
  verify_classW x proof action resource epoch c t = (true, c1, t1) →
  ∃ p expiry, decode proof = Some p ∧ proof_valid g x.1.1 p action resource epoch expiry.
Proof.
  unfold verify_classW, quorum_seam, classW_gate. destruct x as [[now ts] disk].
  destruct (VerifyClassW _ _ _ _ _ _ _ _ _ _) as [[[e|] c2] t2] eqn:E; [done|]. intros _.
  destruct (proj1 (VerifyClassW_admits g now ts disk (if bool_decide (proof = []) then None else Some (decode proof))
    action resource epoch c t)) as (p & expiry & _ & Hp & HV & _); [by rewrite E|].
  case_bool_decide; [done|]. injection Hp as Hp. by exists p, expiry.
Qed.

Lemma plan_seam_grants now subject binding action resource s t h s1 t1 :
  verify_step now subject binding action resource s t = (inr h, s1, t1) →
  ∃ e params, grantable (expireLocked pg now s t).1 subject binding action resource h e params ∧ length h = 32%nat.
Proof.
  unfold verify_step, plan_seam, plan_gate. intros E.
  pose proof (VerifyStep_cases pg subject binding action resource now s t) as HC. rewrite E in HC.
  destruct (expireLocked pg now s t) as [s0 t0]. destruct HC as (e & params & HB & HP & HS & HSt & HX & HW & _).
  exists e, params. split; [by split_and!|]. by eapply parseBinding_length.
Qed.

(** What others do to the tracker and to the plans while a request runs. *)
Context (Epochs : Tracker → Prop) (Plans : ContractStore → Prop).

Record relies (others : nat → shared → shared) : Prop := mkRelies {
  rely_epochs : ∀ k w, Epochs (w_epochs w) → Epochs (w_epochs (others k w));
  rely_plans : ∀ k w, Plans (w_plans w) → Plans (w_plans (others k w)) }.

(** The plan of a token: the step under the cursor of a plan sealed and approved for its subject. *)
Definition planned (rd : env) (tok : Token) : Prop :=
  ∃ s t binding h e params, Plans s ∧ t_PlanSeal tok = Some h ∧
    grantable (expireLocked pg (re_plan rd) s t).1 (t_Sub tok) binding (t_Action tok) (t_Resource tok) h e params.

(** C15: a token is governed. However requests interleave, when the broker grants a request, every cell
    that pins the key of its issuer opens the token to claims that were each decided elsewhere
    than in the request: the subject is registered and came over its own transport, the class is
    the one of the registry, the epoch is one this cell holds; a class-W token names an action and
    a resource that a quorum of distinct controllers signed for this epoch and this policy; and a
    token of class F, I or W is the next step of a plan approved for its subject. The names of
    the cell and of the subject are valid UTF-8, and the clock is past 1970. *)
Theorem issued_token_governed b rd others subject intent txID w keyring r w' jti `{!CoseRoundTrip (is_pub (br_issuer b))} :
  relies others → Epochs (w_epochs w) → Plans (w_plans w) →
  issuer_typed (br_issuer b) → utf8 (sb subject) → keyring !! is_kid (br_issuer b) = Some (is_pub (br_issuer b)) →
  re_jti rd = Some jti → length jti = 16%nat →
  0 ≤ Unix (re_iat rd) → Unix (re_iat rd) + is_ttlSec (br_issuer b) < 2^63 →
  HandleAction (b : Broker RA RS) (rd : env) others subject intent txID w = (r, w') → rs_Allow r = true →
  ∃ wire tok agent tracker, rs_Token r = Some wire ∧ verifySignedToken keyring wire = (Some tok, "") ∧
    t_Sub tok = subject ∧ t_JTI tok = jti ∧
    resolve_agent (br_registry b) subject = Some agent ∧ ag_TransportIdentity agent = txID ∧ t_Class tok = ag_Class agent ∧
    Epochs tracker ∧ CurrentEpoch (re_epochNow rd) tracker = inr (t_Epoch tok) ∧
    (t_Class tok = ClassW → ∃ p expiry, proof_valid g (re_quorum rd).1.1 p (t_Action tok) (t_Resource tok) (t_Epoch tok) expiry) ∧
    (t_Class tok ≠ ClassOut → planned rd tok).
Proof.
  intros [HRE HRP] HE HP (HI0 & HI1 & HI2 & HI3 & HI4) HU HK Hj Hjl Hi0 Hi1 EH HA.
  destruct (HandleAction_granted _ _ _ _ _ _ _ _ _ EH HA) as (j & dec & wire & w11 & HAg & HT & <- & _). clear EH.
  destruct HAg as (agent & epoch & tr & s4 & t4 & skill & c5 & t5 & w6 & w7 & w8 & psl & (_ & _ & _ & _ & HR & Htx) & Hj'
    & Hep & Htr & _ & _ & _ & HW & HPl & _ & HIs & _).
  rewrite Hj in Hj'. injection Hj' as Hj'. subst jti.
  assert (Plans (w_plans (others 7%nat w6))) as HPs.
  { apply HRP. destruct HW as [[_ ->]|(_ & _ & _ & s1 & t1 & _ & ->)]; simpl; repeat apply HRP; done. }
  set (p := issue_params rd (rs_JTI r) subject tr (ag_Class agent) psl epoch) in *.
  exists wire, (issued_token (br_issuer b) p), agent, (w_epochs (others 3%nat (others 1%nat (set_w_stats (bump_stat Requests (w_stats w)) w)))).
  assert (∀ sl, psl = Some sl → length sl = 32%nat) as Hsl.
  { intros sl ->. destruct HPl as [(_ & _ & ? & _)|(_ & _ & h & s1 & t1 & Hv & [= <-] & _)]; [done|].
    by apply plan_seam_grants in Hv as (_ & _ & _ & ?). }
  split_and!; try done.
  - refine (issued_decodes _ p keyring wire _ HK HIs). apply translated_typed in Htr as [HSl HTx].
    split_and!; try done. by do 2 (apply Forall_cons; split; [done|]).
  - repeat apply HRE. done.
  - simpl. unfold current_epoch, tracker_epochs in Hep. by destruct (CurrentEpoch _ _); simplify_eq.
  - simpl. intros Hc. destruct HW as [[? _]|(_ & _ & _ & s1 & t1 & Hv & _)]; [done|].
    by apply classW_seam_admits in Hv as (pf & expiry & _ & ?); eauto.
  - simpl. intros Hc. destruct HPl as [[? _]|(_ & _ & h & s1 & t1 & Hv & -> & _)]; [done|].
    apply plan_seam_grants in Hv as (e & params & HG & _). by eexists _, _, _, h, e, params.
Qed.
End chain.
