(* ===== verification/Telemetry.v ===== *)
(** Flow records and window aggregates: the data of [src/telemetry/exporter.go] and
    [src/telemetry/aggregate.go].

    A record is the metadata of a passport over one interval of measure. A window of records
    becomes one leaf of the registry, which commits to an aggregate: counts, the hashed
    destinations with the most bytes, and the root of a Merkle tree over the commitments of the
    records. The order in which Go walks the map of destinations ([MapOrder]) and the behaviour of
    its sort on equal keys ([SliceSort]) are left open. *)
From S2P Require Import Prelude.
From S2P Require Import Leaf.
From S2P Require Import Effects.
From S2P Require Import Records.

Local Open Scope Z_scope.

(** [t.UnixMilli()] and [d.Milliseconds()]. *)
Definition UnixMilli (t : Z) : Z := i64 (t / millisecond).
Definition Milliseconds (d : Z) : Z := Z.quot d millisecond.

(** The errors of the package. *)
Inductive telemetry_error :=
  | ErrCellIDRequired | ErrSourceRequired | ErrSinkRequired | ErrIntervalInvalid | ErrSaltTooShort | ErrLeavesRequired
  | ErrWindowInvalid | ErrTopKInvalid | ErrTTLInvalid | ErrMaxBatchesInvalid | ErrStoreFull | ErrBatchGone
  | ErrParamsInvalid | ErrMaxEntitiesInvalid.

Definition defaultWindow : Z := 60 * second.
Definition defaultTopK : Z := 10.
Definition maxTopK : Z := 255.

(** ** Records *)

(** [Record] of the source. *)
Record FlowRecord := mkFlowRecord {
  fr_JTI : bytes; fr_CellID : string; fr_Resource : string; fr_Operation : string; fr_DstIPv4 : bytes;
  fr_HasDstIPv4 : bool; fr_IngressIf : Z; fr_OctetDelta : Z; fr_FlowStart : Z; fr_FlowEnd : Z }.

#[global] Instance FlowRecord_eq_dec : EqDecision FlowRecord.
Proof. solve_decision. Defined.

Definition telemetryRecord (r : FlowRecord) : bytes :=
  sb "TBTM1" ++ fr_JTI r ++ [len8 (fr_CellID r)] ++ sb (fr_CellID r)
  ++ len16 (slen (fr_Resource r)) ++ sb (fr_Resource r)
  ++ len16 (slen (fr_Operation r)) ++ sb (fr_Operation r)
  ++ be 8 (fr_OctetDelta r) ++ be 8 (u64 (fr_FlowStart r)) ++ be 8 (u64 (fr_FlowEnd r))
  ++ be 4 (fr_IngressIf r) ++ fr_DstIPv4 r.

(** [hashDestination]. *)
Definition hashDestination `{Crypto} (salt : bytes) (dst : string) : bytes := sha256 (salt ++ sb dst).

(** ** The Merkle root *)

(** One turn of the loop of [merkleRoot]: the next level. *)
Fixpoint pair_up `{Crypto} (level : list bytes) : list bytes :=
  match level with
  | [] => []
  | [r] => [sha256 (r ++ r)]
  | r :: s :: level => sha256 (r ++ s) :: pair_up level
  end.

Fixpoint merkle_levels `{Crypto} (fuel : nat) (level : list bytes) : bytes :=
  match level with
  | [] => []
  | [r] => r
  | _ => match fuel with O => [] | S n => merkle_levels n (pair_up level) end
  end.

Definition merkleRoot `{Crypto} (leaves : list bytes) : bytes :=
  match leaves with [] => replicate 32 Byte.x00 | _ => merkle_levels (length leaves) leaves end.

(** ** Aggregates *)

Record WindowAggregate := mkWindowAggregate {
  wa_CellID : string; wa_WindowID : Z; wa_Start : Z; wa_End : Z; wa_Flows : Z; wa_BytesOut : Z;
  wa_DstTop : list bytes; wa_RecordsRoot : bytes }.

#[global] Instance WindowAggregate_eq_dec : EqDecision WindowAggregate.
Proof. solve_decision. Defined.

(** The bytes of each destination, as the loop on the records adds them up. *)
Definition byDst (recs : list FlowRecord) : gmap string Z :=
  foldl (λ m r, <[fr_Resource r := u64 (default 0 (m !! fr_Resource r) + fr_OctetDelta r)]> m) ∅ recs.

(** The order of the ranking: more bytes first, then the hash. A destination is its hash and its
    bytes. *)
Definition rank_le (a b : bytes * Z) : Prop := lex (flip Z.le) bytes_le (a.2, a.1) (b.2, b.1).
#[global] Instance rank_le_dec : RelDecision rank_le.
Proof. intros a b. unfold rank_le. apply _. Defined.

Section aggregate.
Context `{Crypto, MapOrder, SliceSort}.

Definition commitment (salt : bytes) (r : FlowRecord) : bytes := HashPayload salt (telemetryRecord r).

Definition buildAggregate (cellID : string) (windowID start end_ : Z) (recs : list FlowRecord) (salt : bytes)
    (k : nat) : WindowAggregate :=
  let ranked := sort_slice rank_le (map_range ((λ d, (hashDestination salt d.1, d.2)) <$> map_to_list (byDst recs))) in
  mkWindowAggregate cellID windowID start end_ (Z.of_nat (length recs))
    (foldl (λ n r, u64 (n + fr_OctetDelta r)) 0 recs) (fst <$> take k ranked)
    (merkleRoot (commitment salt <$> recs)).
End aggregate.

Definition aggregateBytes (a : WindowAggregate) : bytes :=
  sb "TBAG1" ++ [len8 (wa_CellID a)] ++ sb (wa_CellID a) ++ be 8 (u64 (wa_WindowID a))
  ++ be 8 (u64 (wa_Start a)) ++ be 8 (u64 (wa_End a)) ++ be 8 (wa_Flows a) ++ be 8 (wa_BytesOut a)
  ++ [z2b (Z.of_nat (length (wa_DstTop a)))] ++ concat (wa_DstTop a) ++ wa_RecordsRoot a.

(** ** The serialisations are injective *)

(** The sizes and ranges of the fields; whether there is an address is a function of the
    resource, and is not serialised. *)
Definition record_wf (r : FlowRecord) : Prop :=
  length (fr_JTI r) = 16%nat ∧ (slen (fr_CellID r) ≤ 255)%nat ∧ (slen (fr_Resource r) ≤ 1024)%nat ∧
  (slen (fr_Operation r) ≤ 1024)%nat ∧ length (fr_DstIPv4 r) = 4%nat ∧ 0 ≤ fr_IngressIf r < 2^32 ∧
  in_u64 (fr_OctetDelta r) ∧ in_i64 (fr_FlowStart r) ∧ in_i64 (fr_FlowEnd r).

Definition without_flag (r : FlowRecord) : FlowRecord :=
  mkFlowRecord (fr_JTI r) (fr_CellID r) (fr_Resource r) (fr_Operation r) (fr_DstIPv4 r) false (fr_IngressIf r)
    (fr_OctetDelta r) (fr_FlowStart r) (fr_FlowEnd r).

Lemma be_app_inj n x y k1 k2 : 0 ≤ x < 256 ^ Z.of_nat n → 0 ≤ y < 256 ^ Z.of_nat n →
  be n x ++ k1 = be n y ++ k2 → x = y ∧ k1 = k2.
Proof. intros Hx Hy E. apply app_inj_len in E as [E ->]; [|by rewrite !length_be]. split; [by apply (be_inj n)|done]. Qed.

Lemma be8_app_inj x y k1 k2 : in_i64 x → in_i64 y → be 8 (u64 x) ++ k1 = be 8 (u64 y) ++ k2 → x = y ∧ k1 = k2.
Proof. intros Hx Hy E. apply app_inj_len in E as [E ->]; [|by rewrite !length_be]. split; [by apply be8_inj|done]. Qed.

Lemma telemetryRecord_inj r s : record_wf r → record_wf s → telemetryRecord r = telemetryRecord s →
  without_flag r = without_flag s.
Proof.
  intros (J1 & C1 & R1 & O1 & D1 & I1 & B1 & S1 & E1) (J2 & C2 & R2 & O2 & D2 & I2 & B2 & S2 & E2) E.
  unfold telemetryRecord in E. apply app_inj_len in E as [_ E]; [|done].
  apply app_inj_len in E as [EJ E]; [|congruence]. apply str8_app_inj in E as [EC E]; [|done..].
  apply str16_app_inj in E as [ER E]; [|lia..]. apply str16_app_inj in E as [EO E]; [|lia..].
  apply be_app_inj in E as [EB E]; [|done..]. apply be8_app_inj in E as [ES E]; [|done..].
  apply be8_app_inj in E as [EE E]; [|done..]. apply be_app_inj in E as [EI E]; [|done..].
  unfold without_flag. by destruct r, s; simplify_eq/=.
Qed.

(** *** The Merkle root *)

Section merkle.
Context `{Crypto}.

Lemma length_pair_up_step (P : list bytes → Prop) :
  P [] → (∀ r, P [r]) → (∀ r s l, P l → P (r :: s :: l)) → ∀ l, P l.
Proof.
  intros H0 H1 H2. fix IH 1. intros [|r [|s l]]; [exact H0|exact (H1 r)|exact (H2 r s l (IH l))].
Qed.

Lemma length_pair_up level : (2 * length (pair_up level) = length level + length level mod 2)%nat.
Proof.
  induction level as [|r|r s l IH] using length_pair_up_step; [done..|].
  cbn [pair_up length]. replace (S (S (length l))) with (length l + 1 * 2)%nat by lia. rewrite Nat.Div0.mod_add. lia.
Qed.

Lemma pair_up_shrinks level : (2 ≤ length level)%nat → (1 ≤ length (pair_up level) < length level)%nat.
Proof.
  intros HL. pose proof (length_pair_up level) as E. pose proof (Nat.mod_upper_bound (length level) 2 ltac:(lia)). 
  destruct (decide (length level = 2)%nat) as [E2|]; [rewrite E2 in E; simpl in E; lia|]. lia.
Qed.

Lemma pair_up_inj xs ys : length xs = length ys → Forall (λ x, length x = 32%nat) xs → Forall (λ x, length x = 32%nat) ys →
  pair_up xs = pair_up ys → xs = ys ∨ sha256_collision.
Proof.
  revert ys. induction xs as [|r|r s l IH] using length_pair_up_step; intros [|x [|y k]] HL Hx Hy E; try done; [by left|..].
  - injection E as E. apply sha256_eq_or_collision in E as [E|?]; [left|by right].
    rewrite Forall_singleton in Hx, Hy. apply app_inj_len in E as [-> _]; [done|congruence].
  - simpl in E. injection E as E1 E2. rewrite !Forall_cons in Hx, Hy. destruct Hx as (Hr & Hs & Hl), Hy as (Hx & Hy & Hk).
    apply sha256_eq_or_collision in E1 as [E1|?]; [|by right]. apply app_inj_len in E1 as [-> ->]; [|congruence].
    destruct (IH k) as [->|?]; [by simplify_eq/=|done..|by left|by right].
Qed.

Context `{!CryptoLaws}.

Lemma pair_up_digests l : Forall (λ x, length x = 32%nat) (pair_up l).
Proof. induction l as [|r|r s l IH] using length_pair_up_step; repeat constructor; try done; apply sha256_length. Qed.

Lemma merkle_levels_inj n xs ys : length xs = length ys → (length xs ≤ n)%nat →
  Forall (λ x, length x = 32%nat) xs → Forall (λ x, length x = 32%nat) ys →
  merkle_levels n xs = merkle_levels n ys → xs = ys ∨ sha256_collision.
Proof.
  revert xs ys. induction n as [|n IH]; intros xs ys HL Hn Hx Hy E.
  { destruct xs, ys; simpl in *; try lia. by left. }
  destruct xs as [|x1 [|x2 xs]], ys as [|y1 [|y2 ys]]; try done; [by left|by simpl in E; simplify_eq; left|].
  change (merkle_levels n (pair_up (x1 :: x2 :: xs)) = merkle_levels n (pair_up (y1 :: y2 :: ys))) in E.
  pose proof (length_pair_up (x1 :: x2 :: xs)) as L1. pose proof (length_pair_up (y1 :: y2 :: ys)) as L2. rewrite <-HL in L2.
  apply IH in E as [E|?]; [by apply pair_up_inj|by right|lia| |by apply pair_up_digests..].
  pose proof (pair_up_shrinks (x1 :: x2 :: xs)) as HS. simpl in HS, Hn |- *. lia.
Qed.

(** The loop stops: more turns than items change nothing. *)
Lemma merkle_levels_stops n m level : (length level ≤ n)%nat → (length level ≤ m)%nat →
  merkle_levels n level = merkle_levels m level.
Proof.
  revert m level. induction n as [|n IH]; intros m level Hn Hm.
  { destruct level; simpl in *; [by destruct m|lia]. }
  destruct level as [|x [|y l]]; [by destruct m|by destruct m|]. destruct m as [|m]; [simpl in Hm; lia|].
  pose proof (pair_up_shrinks (x :: y :: l)) as HS. change (merkle_levels n (pair_up (x :: y :: l)) = merkle_levels m (pair_up (x :: y :: l))). apply IH; simpl in *; lia.
Qed.

Lemma merkleRoot_inj xs ys : length xs = length ys →
  Forall (λ x, length x = 32%nat) xs → Forall (λ x, length x = 32%nat) ys →
  merkleRoot xs = merkleRoot ys → xs = ys ∨ sha256_collision.
Proof.
  intros HL Hx Hy E. destruct xs as [|x xs], ys as [|y ys]; try done; [by left|]. unfold merkleRoot in E. rewrite <-HL in E.
  by apply (merkle_levels_inj _ _ _ HL (le_n _)) in E.
Qed.

Lemma merkle_levels_digest n level : level ≠ [] → (length level ≤ n)%nat → Forall (λ x, length x = 32%nat) level →
  length (merkle_levels n level) = 32%nat.
Proof.
  revert level. induction n as [|n IH]; intros level Hne Hn HF; [destruct level; simpl in *; [done|lia]|].
  destruct level as [|x [|y l]]; [done|by rewrite Forall_singleton in HF|].
  pose proof (pair_up_shrinks (x :: y :: l)) as HS. simpl in HS, Hn |- *.
  apply IH; [done| |apply (pair_up_digests (x :: y :: l))]. simpl. lia.
Qed.

Lemma length_merkleRoot leaves : Forall (λ x, length x = 32%nat) leaves → length (merkleRoot leaves) = 32%nat.
Proof.
  intros HF. unfold merkleRoot. destruct leaves as [|x l]; [by rewrite length_replicate|]. by apply merkle_levels_digest.
Qed.
End merkle.

(** *** Aggregates *)

#[global] Instance flip_le_antisymm : AntiSymm (=) (flip Z.le).
Proof. intros x y H1 H2. unfold flip in *. lia. Qed.
#[global] Instance flip_le_total : Total (flip Z.le).
Proof. intros x y. unfold flip. lia. Qed.
#[global] Instance flip_le_trans : Transitive (flip Z.le).
Proof. intros x y z. unfold flip. lia. Qed.
#[global] Instance rank_le_total : Total rank_le.
Proof. intros a b. apply (total (lex (flip Z.le) bytes_le)). Qed.
#[global] Instance rank_le_trans : Transitive rank_le.
Proof. intros a b c. unfold rank_le. apply (transitivity (R := lex (flip Z.le) bytes_le)). Qed.
#[global] Instance rank_le_antisymm : AntiSymm (=) rank_le.
Proof.
  intros [h1 n1] [h2 n2] H1 H2. pose proof (anti_symm (R := (=)) (lex (flip Z.le) bytes_le) _ _ H1 H2) as E. by simplify_eq/=.
Qed.

Definition aggregate_wf (a : WindowAggregate) : Prop :=
  (slen (wa_CellID a) ≤ 255)%nat ∧ in_i64 (wa_WindowID a) ∧ in_i64 (wa_Start a) ∧ in_i64 (wa_End a) ∧
  in_u64 (wa_Flows a) ∧ in_u64 (wa_BytesOut a) ∧ (length (wa_DstTop a) ≤ 255)%nat ∧
  Forall (λ h, length h = 32%nat) (wa_DstTop a).

Lemma digests_concat_inj (xs ys : list bytes) k1 k2 : length xs = length ys →
  Forall (λ h, length h = 32%nat) xs → Forall (λ h, length h = 32%nat) ys →
  concat xs ++ k1 = concat ys ++ k2 → xs = ys ∧ k1 = k2.
Proof.
  revert ys. induction xs as [|x xs IH]; intros [|y ys] HL Hx Hy E; try done. simpl in E. rewrite <-!app_assoc in E.
  rewrite Forall_cons in Hx, Hy. destruct Hx, Hy. apply app_inj_len in E as [-> E]; [|congruence].
  apply IH in E as [-> ->]; [done|by injection HL|done..].
Qed.

Lemma aggregateBytes_inj a b : aggregate_wf a → aggregate_wf b → aggregateBytes a = aggregateBytes b → a = b.
Proof.
  intros (C1 & W1 & S1 & E1 & F1 & B1 & L1 & H1) (C2 & W2 & S2 & E2 & F2 & B2 & L2 & H2) E. unfold aggregateBytes in E.
  apply app_inj_len in E as [_ E]; [|done]. apply str8_app_inj in E as [EC E]; [|done..].
  apply be8_app_inj in E as [EW E]; [|done..]. apply be8_app_inj in E as [ES E]; [|done..].
  apply be8_app_inj in E as [EE E]; [|done..]. apply be_app_inj in E as [EF E]; [|done..].
  apply be_app_inj in E as [EB E]; [|done..]. simpl in E. injection E as EL E.
  apply (f_equal b2z) in EL. rewrite !b2z_z2b, !Z.mod_small in EL by lia. apply digests_concat_inj in E as [ED ER]; [|lia|done..].
  by destruct a, b; simplify_eq/=.
Qed.

Lemma buildAggregate_wf `{Crypto, !CryptoLaws, MapOrder, SliceSort} cellID id start end_ recs salt k :
  (slen cellID ≤ 255)%nat → in_i64 id → in_i64 start → in_i64 end_ → Z.of_nat (length recs) < 2^64 → (k ≤ 255)%nat →
  aggregate_wf (buildAggregate cellID id start end_ recs salt k).
Proof.
  intros. unfold aggregate_wf. simpl. split_and!; try done; [unfold in_u64; lia| | |].
  - assert (∀ n, in_u64 n → in_u64 (foldl (λ n r, u64 (n + fr_OctetDelta r)) n recs)) as HA; [|by apply HA].
    clear. induction recs as [|r recs IH]; intros n Hn; [done|]. apply IH, u64_range.
  - rewrite length_fmap, length_take. lia.
  - apply Forall_fmap, Forall_take, Forall_forall. intros x Hx. rewrite sort_slice_perm, map_range_perm in Hx.
    apply list_elem_of_fmap in Hx as (d & -> & _). apply sha256_length.
Qed.

Lemma commitments_inj `{Crypto} salt xs ys : Forall record_wf xs → Forall record_wf ys →
  commitment salt <$> xs = commitment salt <$> ys → without_flag <$> xs = without_flag <$> ys ∨ sha256_collision.
Proof.
  revert ys. induction xs as [|x xs IH]; intros [|y ys] Wx Wy E; try done; [by left|].
  rewrite Forall_cons in Wx, Wy. destruct Wx as [Wx Wxs], Wy as [Wy Wys].
  injection E as E1 E2. apply sha256_eq_or_collision in E1 as [E1|?]; [|by right]. apply (inj (salt ++.)) in E1.
  apply telemetryRecord_inj in E1; [|done..]. destruct (IH ys) as [E3|?]; [done..|left|by right]. rewrite !fmap_cons. congruence.
Qed.

Lemma leaf_binds `{Crypto, !CryptoLaws} (O1 O2 : MapOrder) (S1 S2 : SliceSort)
    cell1 cell2 id1 id2 start1 start2 end1 end2 recs1 recs2 salt k1 k2 :
  (slen cell1 ≤ 255)%nat → (slen cell2 ≤ 255)%nat → (k1 ≤ 255)%nat → (k2 ≤ 255)%nat →
  in_i64 id1 → in_i64 start1 → in_i64 end1 → in_i64 id2 → in_i64 start2 → in_i64 end2 →
  Z.of_nat (length recs1) < 2^64 → Z.of_nat (length recs2) < 2^64 →
  Forall record_wf recs1 → Forall record_wf recs2 →
  HashPayload salt (aggregateBytes (buildAggregate (H0 := O1) (H1 := S1) cell1 id1 start1 end1 recs1 salt k1)) =
  HashPayload salt (aggregateBytes (buildAggregate (H0 := O2) (H1 := S2) cell2 id2 start2 end2 recs2 salt k2)) →
  (cell1 = cell2 ∧ id1 = id2 ∧ start1 = start2 ∧ end1 = end2 ∧ without_flag <$> recs1 = without_flag <$> recs2) ∨
  sha256_collision.
Proof.
  intros ????????? ??? W1 W2 E. apply sha256_eq_or_collision in E as [E|?]; [|by right].
  apply (inj (salt ++.)) in E. apply aggregateBytes_inj in E; [|by apply buildAggregate_wf..].
  unfold buildAggregate in E. injection E as EC EI ES EE EF _ _ ER.
  apply merkleRoot_inj in ER as [ER|?]; [|by right|by rewrite !length_fmap; lia| |];
    [|apply Forall_fmap, Forall_forall; intros; apply sha256_length..].
  destruct (commitments_inj salt recs1 recs2 W1 W2 ER); [left|by right]. done.
Qed.

(** What the code leaves to Go does not show: an aggregate is the same for every order of the walk
    of the map and for every behaviour of the sort on equal keys. *)
Lemma buildAggregate_deterministic `{Crypto} (O1 O2 : MapOrder) (S1 S2 : SliceSort) cellID id start end_ recs salt k :
  buildAggregate (H0 := O1) (H1 := S1) cellID id start end_ recs salt k =
  buildAggregate (H0 := O2) (H1 := S2) cellID id start end_ recs salt k.
Proof.
  unfold buildAggregate. do 3 f_equal. apply (StronglySorted_unique rank_le); [apply sort_slice_sorted; apply _..|].
  by rewrite !sort_slice_perm, !map_range_perm.
Qed.

(** ** The claims *)

(** A leaf of telemetry binds its window. When two windows sealed with one salt have leaves with the
    same payload, they are the same window of the same cell with the same records, in the same
    order; or they exhibit a SHA-256 collision. The odd commitment that the tree pairs with itself
    is no exception, because the number of records is committed to as well. *)
Theorem leaf_binds_window `{Crypto, !CryptoLaws} (O1 O2 : MapOrder) (S1 S2 : SliceSort)
    cell1 cell2 id1 id2 start1 start2 end1 end2 recs1 recs2 salt k1 k2 :
  (slen cell1 ≤ 255)%nat → (slen cell2 ≤ 255)%nat → (k1 ≤ 255)%nat → (k2 ≤ 255)%nat →
  in_i64 id1 → in_i64 start1 → in_i64 end1 → in_i64 id2 → in_i64 start2 → in_i64 end2 →
  Z.of_nat (length recs1) < 2^64 → Z.of_nat (length recs2) < 2^64 →
  Forall record_wf recs1 → Forall record_wf recs2 →
  HashPayload salt (aggregateBytes (buildAggregate (H0 := O1) (H1 := S1) cell1 id1 start1 end1 recs1 salt k1)) =
  HashPayload salt (aggregateBytes (buildAggregate (H0 := O2) (H1 := S2) cell2 id2 start2 end2 recs2 salt k2)) →
  (cell1 = cell2 ∧ id1 = id2 ∧ start1 = start2 ∧ end1 = end2 ∧ without_flag <$> recs1 = without_flag <$> recs2) ∨
  sha256_collision.
Proof. apply leaf_binds. Qed.
