(* ===== verification/Retention.v ===== *)
(** The retention of raw records: [src/telemetry/retention.go].

    The records of a sealed window stay with the producer for a bounded time, in a bounded store.
    A batch is destroyed after its leaf of purge is in the registry, and never before; as long as it
    is there, an auditor can replay the window and compare it with the leaf. *)
From S2P Require Import Prelude.
From S2P Require Import Leaf.
From S2P Require Import Effects.
From S2P Require Import Records.
From S2P Require Import Telemetry.

Local Open Scope Z_scope.

Definition defaultRetentionTTL : Z := 24 * hour.
Definition defaultMaxBatches : Z := 1440.
Definition ReasonStoreFull : string := "retention-store-full".

Record RawBatch := mkRawBatch {
  rb_WindowID : Z; rb_SealedAt : Z; rb_Aggregate : WindowAggregate; rb_Records : list FlowRecord; rb_LeafHash : bytes }.

Record RetentionStats := mkRetentionStats { rs_BatchesPurged : Z; rs_PurgeLeaves : Z; rs_PurgeFailures : Z }.

Record RetentionStore := mkRetentionStore {
  rt_producer : Producer; rt_ttl : Z; rt_max : Z; rt_onTrip : bool; rt_batches : gmap Z RawBatch;
  rt_stats : RetentionStats }.

(** [NewRetentionStore]; [leaves] says whether the registry is given. *)
Definition NewRetentionStore (cellID : string) (salt : bytes) (leaves journal : bool) (ttl max : Z) (onTrip : bool) :
    telemetry_error + RetentionStore :=
  if bool_decide (cellID = "") then inl ErrCellIDRequired
  else if (length salt <? 16)%nat then inl ErrSaltTooShort
  else if negb leaves then inl ErrLeavesRequired
  else
    let ttl := if ttl =? 0 then defaultRetentionTTL else ttl in
    if ttl <? millisecond then inl ErrTTLInvalid
    else
      let max := if max =? 0 then defaultMaxBatches else max in
      if max <? 0 then inl ErrMaxBatchesInvalid
      else inr (mkRetentionStore (mkProducer cellID salt journal) ttl max onTrip ∅ (mkRetentionStats 0 0 0)).

Definition set_batches (m : gmap Z RawBatch) (s : RetentionStore) : RetentionStore :=
  mkRetentionStore (rt_producer s) (rt_ttl s) (rt_max s) (rt_onTrip s) m (rt_stats s).
Definition set_rt_stats (st : RetentionStats) (s : RetentionStore) : RetentionStore :=
  mkRetentionStore (rt_producer s) (rt_ttl s) (rt_max s) (rt_onTrip s) (rt_batches s) st.

(** [Stats]. *)
Definition rt_Stats (s : RetentionStore) : Z * RetentionStats := (Z.of_nat (size (rt_batches s)), rt_stats s).

(** [Put]. *)
Definition rt_Put (b : RawBatch) (s : RetentionStore) : option telemetry_error * RetentionStore :=
  if (length (rb_Records b) =? 0)%nat then (None, s)
  else if bool_decide (rt_batches s !! rb_WindowID b = None) && (rt_max s <=? Z.of_nat (size (rt_batches s)))
  then (Some ErrStoreFull, s)
  else (None, set_batches (<[rb_WindowID b := b]> (rt_batches s)) s).

(** [Batch]. *)
Definition Batch (windowID : Z) (s : RetentionStore) : option RawBatch := rt_batches s !! windowID.

Definition purgeManifest (cellID : string) (b : RawBatch) (purgedAt : Z) : bytes :=
  sb "TBRP1" ++ [len8 cellID] ++ sb cellID ++ be 8 (u64 (rb_WindowID b))
  ++ be 8 (Z.of_nat (length (rb_Records b))) ++ wa_RecordsRoot (rb_Aggregate b) ++ be 8 (u64 purgedAt).

Definition is_expired (nowMs : Z) (s : RetentionStore) (b : RawBatch) : Prop :=
  i64 (rb_SealedAt b + Milliseconds (rt_ttl s)) ≤ nowMs.
#[global] Instance is_expired_dec nowMs s b : Decision (is_expired nowMs s b).
Proof. unfold is_expired. apply _. Defined.

Definition window_le (a b : RawBatch) : Prop := rb_WindowID a ≤ rb_WindowID b.
#[global] Instance window_le_dec : RelDecision window_le.
Proof. intros a b. unfold window_le. apply _. Defined.

Section retention.
Context `{Crypto, Env, MapOrder, SliceSort}.

(** One turn of the loop of [PurgeExpired]: no leaf, no destruction. *)
Definition purge_batch (nowMs ts : Z) (b : RawBatch) (s : RetentionStore) (t : trace) : bool * RetentionStore * trace :=
  let st := rt_stats s in
  match appendLeaf (rt_producer s) KindRetentionPurge (purgeManifest (p_cellID (rt_producer s)) b nowMs) (UnixNano ts) t with
  | (Some _, t1) =>
      (false, set_rt_stats (mkRetentionStats (rs_BatchesPurged st) (rs_PurgeLeaves st) (u64 (rs_PurgeFailures st + 1))) s,
       call_alarm (rt_onTrip s) ReasonLeafWriteFailed t1)
  | (None, t1) =>
      (true, set_rt_stats (mkRetentionStats (u64 (rs_BatchesPurged st + 1)) (u64 (rs_PurgeLeaves st + 1)) (rs_PurgeFailures st))
               (set_batches (delete (rb_WindowID b) (rt_batches s)) s), t1)
  end.

(** [clock i] is the reading of the clock at turn [i]. *)
Fixpoint purge_loop (nowMs : Z) (clock : nat → Z) (i : nat) (expired : list RawBatch) (s : RetentionStore) (t : trace) :
    Z * RetentionStore * trace :=
  match expired with
  | [] => (0, s, t)
  | b :: expired =>
      let '(ok, s1, t1) := purge_batch nowMs (clock i) b s t in
      let '(n, s2, t2) := purge_loop nowMs clock (S i) expired s1 t1 in
      (if ok then n + 1 else n, s2, t2)
  end.

Definition expired_batches (nowMs : Z) (s : RetentionStore) : list RawBatch :=
  sort_slice window_le (filter (is_expired nowMs s) (snd <$> map_range (map_to_list (rt_batches s)))).

(** [PurgeExpired]; its first reading of the clock is [now]. *)
Definition PurgeExpired (now : Z) (clock : nat → Z) (s : RetentionStore) (t : trace) : Z * RetentionStore * trace :=
  let nowMs := UnixMilli now in purge_loop nowMs clock 0 (expired_batches nowMs s) s t.

(** [Verify]: the window is replayed from the raw records. *)
Definition Verify (windowID : Z) (leafPayloadHash : bytes) (s : RetentionStore) : telemetry_error + bool :=
  match rt_batches s !! windowID with
  | None => inl ErrBatchGone
  | Some b =>
      let a := rb_Aggregate b in
      let k := if (length (wa_DstTop a) =? 0)%nat then 1%nat else length (wa_DstTop a) in
      let rebuilt := buildAggregate (p_cellID (rt_producer s)) (wa_WindowID a) (wa_Start a) (wa_End a) (rb_Records b)
                       (p_salt (rt_producer s)) k in
      if bool_decide (wa_RecordsRoot rebuilt ≠ wa_RecordsRoot a) then inr false
      else inr (bool_decide (HashPayload (p_salt (rt_producer s)) (aggregateBytes rebuilt) = leafPayloadHash))
  end.

(** The batch [sealLocked] makes of a window: its records and its leaf. *)
Definition sealed_batch (p : Producer) (k : nat) (id start end_ sealedAt : Z) (recs : list FlowRecord) : RawBatch :=
  let agg := buildAggregate (p_cellID p) id start end_ recs (p_salt p) k in
  mkRawBatch id sealedAt agg recs (HashPayload (p_salt p) (aggregateBytes agg)).

(** ** Lemmas *)

(** The batches of a store are under their own window, within the bound. *)
Definition store_wf (s : RetentionStore) : Prop :=
  (∀ id b, rt_batches s !! id = Some b → rb_WindowID b = id ∧ rb_Records b ≠ []) ∧
  Z.of_nat (size (rt_batches s)) ≤ Z.max 0 (rt_max s).

(** What the registry sees of a leaf of purge. *)
Definition purge_mark (nowMs : Z) (p : Producer) (b : RawBatch) : byte * bytes :=
  (KindRetentionPurge, HashPayload (p_salt p) (purgeManifest (p_cellID p) b nowMs)).
Definition leaf_mark (l : Leaf) : byte * bytes := (Kind l, PayloadHash l).

Definition same_store (s s' : RetentionStore) : Prop :=
  rt_producer s' = rt_producer s ∧ rt_ttl s' = rt_ttl s ∧ rt_max s' = rt_max s ∧ rt_onTrip s' = rt_onTrip s.

(** What a pass over [todo] does: the batches [gone] are destroyed and marked, the others kept and
    alarmed. *)
Definition purges (nowMs : Z) (todo gone : list RawBatch) (s : RetentionStore) (t : trace) (n : Z)
    (s' : RetentionStore) (t' : trace) : Prop :=
  sublist gone todo ∧ n = Z.of_nat (length gone) ∧ same_store s s' ∧
  (∀ id, rt_batches s' !! id = if decide (id ∈ rb_WindowID <$> gone) then None else rt_batches s !! id) ∧
  (∃ new, leaves_of t' = leaves_of t ++ new ∧ leaf_mark <$> new = purge_mark nowMs (rt_producer s) <$> gone) ∧
  alarms_of t' = alarms_of t ++
    (if rt_onTrip s then replicate (length todo - length gone) ReasonLeafWriteFailed else []).

Lemma purge_batch_spec nowMs ts b s t :
  let '(ok, s', t') := purge_batch nowMs ts b s t in
  purges nowMs [b] (if ok then [b] else []) s t (if ok then 1 else 0) s' t'.
Proof.
  unfold purge_batch.
  pose proof (appendLeaf_observed (rt_producer s) KindRetentionPurge (purgeManifest (p_cellID (rt_producer s)) b nowMs) (UnixNano ts) t) as HO.
  destruct (appendLeaf _ _ _ _ _) as [[e|] t1]; destruct HO as (HL & HA & _).
  - split_and!; [apply sublist_nil_l|done|done| | |].
    + intros id. by rewrite decide_False by set_solver.
    + exists []. unfold call_alarm. destruct (rt_onTrip s); [rewrite leaves_of_app|]; by rewrite HL, !app_nil_r.
    + unfold call_alarm. destruct (rt_onTrip s); [by rewrite alarms_of_app, HA|by rewrite HA, app_nil_r].
  - split_and!; [done..| | |].
    + intros id. simpl. case_decide as Hid; [|rewrite lookup_delete_ne; set_solver].
      apply list_elem_of_singleton in Hid as ->. apply lookup_delete_eq.
    + eexists. split; [exact HL|]. done.
    + rewrite HA. simpl. by destruct (rt_onTrip s); rewrite app_nil_r.
Qed.

Lemma purges_app nowMs l1 l2 g1 g2 s t n1 s1 t1 n2 s2 t2 :
  purges nowMs l1 g1 s t n1 s1 t1 → purges nowMs l2 g2 s1 t1 n2 s2 t2 →
  purges nowMs (l1 ++ l2) (g1 ++ g2) s t (n1 + n2) s2 t2.
Proof.
  intros (S1 & -> & (P1 & T1 & M1 & O1) & B1 & (w1 & L1 & K1) & A1) (S2 & -> & (P2 & T2 & M2 & O2) & B2 & (w2 & L2 & K2) & A2).
  split_and!.
  - by apply sublist_app.
  - rewrite length_app. lia.
  - split_and!; congruence.
  - intros id. rewrite B2, B1, fmap_app. repeat case_decide; set_solver.
  - exists (w1 ++ w2). rewrite L2, L1, !fmap_app, K1, K2, P1. by rewrite app_assoc.
  - rewrite A2, A1, O1, <-app_assoc, !length_app. f_equal. destruct (rt_onTrip s); [|done]. rewrite <-replicate_add.
    apply sublist_length in S1, S2. f_equal. lia.
Qed.

Lemma purge_loop_spec nowMs clock i todo s t :
  let '(n, s', t') := purge_loop nowMs clock i todo s t in ∃ gone, purges nowMs todo gone s t n s' t'.
Proof.
  revert i s t. induction todo as [|b todo IH]; intros i s t; simpl.
  { exists []. split_and!; try done; [by exists []; rewrite app_nil_r|]. by destruct (rt_onTrip s); rewrite app_nil_r. }
  pose proof (purge_batch_spec nowMs (clock i) b s t) as HP1. destruct (purge_batch _ _ _ _ _) as [[ok s1] t1].
  specialize (IH (S i) s1 t1). destruct (purge_loop _ _ _ _ _ _) as [[n s2] t2]. destruct IH as [gone HP2].
  exists ((if ok then [b] else []) ++ gone). pose proof (purges_app _ _ _ _ _ _ _ _ _ _ _ _ _ HP1 HP2) as HP.
  destruct ok; [by rewrite Z.add_comm|done].
Qed.

Lemma expired_batches_spec nowMs s b : store_wf s →
  b ∈ expired_batches nowMs s ↔ rt_batches s !! rb_WindowID b = Some b ∧ is_expired nowMs s b.
Proof.
  intros [HW _]. unfold expired_batches. rewrite sort_slice_perm, list_elem_of_filter, map_range_perm, list_elem_of_fmap.
  split.
  - intros (HE & [id b'] & -> & Hin). split; [|done]. apply elem_of_map_to_list in Hin. simpl in *. by rewrite (proj1 (HW _ _ Hin)).
  - intros [Hb HE]. split; [done|]. exists (rb_WindowID b, b). split; [done|]. by apply elem_of_map_to_list.
Qed.

#[local] Instance window_le_total : Total window_le.
Proof. intros a b. unfold window_le. lia. Qed.
#[local] Instance window_le_trans : Transitive window_le.
Proof. intros a b c. unfold window_le. lia. Qed.

Lemma rt_Put_wf b s : store_wf s → store_wf (rt_Put b s).2.
Proof.
  intros [HW HM]. unfold rt_Put. destruct (Nat.eqb_spec (length (rb_Records b)) 0); [done|].
  destruct (_ && _) eqn:E; [done|]. split; simpl.
  - intros id b'. destruct (decide (id = rb_WindowID b)) as [->|].
    + rewrite lookup_insert_eq. intros [= <-]. split; [done|]. by destruct (rb_Records b).
    + rewrite lookup_insert_ne by done. apply HW.
  - rewrite map_size_insert. destruct (rt_batches s !! rb_WindowID b) eqn:EL; simpl; [done|].
    rewrite bool_decide_true in E by done. simpl in E. lia.
Qed.

Lemma purge_wf now clock s t : store_wf s → store_wf (PurgeExpired now clock s t).1.2.
Proof.
  intros [HW HM]. unfold PurgeExpired. pose proof (purge_loop_spec (UnixMilli now) clock 0 (expired_batches (UnixMilli now) s) s t) as HP.
  destruct (purge_loop _ _ _ _ _ _) as [[n s'] t']. destruct HP as (gone & _ & _ & (_ & _ & EM & _) & HB & _). simpl. split.
  - intros id b. rewrite HB. case_decide; [done|]. apply HW.
  - rewrite EM. etrans; [|exact HM]. apply Nat2Z.inj_le, map_subseteq_size, map_subseteq_spec. intros id b. rewrite HB.
    by case_decide.
Qed.

(** ** The claims *)

(** Destruction is traced. A pass destroys a batch only when its time is over and its leaf of purge
    is in the registry: the new leaves are those of the destroyed batches, in the order of their
    windows, each committing to the window, the number and the root of the records destroyed. Every other
    batch is kept as it was; an expired batch that is kept raises one alarm. *)
Theorem destruction_is_traced now clock s t :
  store_wf s →
  let '(n, s', t') := PurgeExpired now clock s t in
  ∃ gone new, n = Z.of_nat (length gone) ∧ StronglySorted window_le gone ∧
    Forall (λ b, rt_batches s !! rb_WindowID b = Some b ∧ is_expired (UnixMilli now) s b) gone ∧
    (∀ id, rt_batches s' !! id = if decide (id ∈ rb_WindowID <$> gone) then None else rt_batches s !! id) ∧
    leaves_of t' = leaves_of t ++ new ∧
    leaf_mark <$> new = purge_mark (UnixMilli now) (rt_producer s) <$> gone ∧
    alarms_of t' = alarms_of t ++ (if rt_onTrip s then
      replicate (length (expired_batches (UnixMilli now) s) - length gone) ReasonLeafWriteFailed else []).
Proof.
  intros HW. unfold PurgeExpired. pose proof (purge_loop_spec (UnixMilli now) clock 0 (expired_batches (UnixMilli now) s) s t) as HP.
  destruct (purge_loop _ _ _ _ _ _) as [[n s'] t']. destruct HP as (gone & HS & Hn & _ & HB & (new & HL & HK) & HA).
  exists gone, new. split_and!; try done.
  - apply (StronglySorted_sublist _ _ _ HS). apply sort_slice_sorted; apply _.
  - apply Forall_forall. intros b Hb. apply expired_batches_spec; [done|]. by apply (sublist_subseteq _ _ HS).
Qed.
End retention.

Lemma byDst_nonempty recs : recs ≠ [] → map_to_list (byDst recs) ≠ [].
Proof.
  destruct recs as [|r recs _] using rev_ind; [done|]. intros _ E. apply map_to_list_empty_iff in E.
  unfold byDst in E. rewrite foldl_app in E. simpl in E. by apply insert_non_empty in E.
Qed.

Section audit.
Context `{Crypto}.

(** The replay uses the number of destinations that were kept, which changes nothing. *)
Lemma replay_same (O1 O2 : MapOrder) (S1 S2 : SliceSort) cellID id start end_ recs salt k :
  (1 ≤ k)%nat → recs ≠ [] →
  let a := buildAggregate (H0 := O1) (H1 := S1) cellID id start end_ recs salt k in
  let k' := if (length (wa_DstTop a) =? 0)%nat then 1%nat else length (wa_DstTop a) in
  buildAggregate (H0 := O2) (H1 := S2) cellID id start end_ recs salt k' = a.
Proof.
  intros Hk Hr a k'. rewrite (buildAggregate_deterministic O2 O1 S2 S1).
  subst k' a. unfold buildAggregate. simpl. rewrite length_fmap, length_take.
  set (ranked := sort_slice _ _). assert (length ranked ≠ 0%nat) as HN.
  { subst ranked. rewrite (Permutation_length (sort_slice_perm _ _)), (Permutation_length (map_range_perm _)), length_fmap.
    intros E%length_zero_iff_nil. by apply byDst_nonempty in E. }
  destruct (Nat.eqb_spec (k `min` length ranked) 0); [lia|]. do 2 f_equal.
  destruct (decide (k ≤ length ranked)%nat); [by rewrite Nat.min_l|]. rewrite Nat.min_r by lia. by rewrite !take_ge by lia.
Qed.

(** An untouched batch verifies against its leaf, and against no other payload. *)
Lemma audit_complete (O1 O2 : MapOrder) (S1 S2 : SliceSort) s k id start end_ sealedAt recs h :
  (1 ≤ k)%nat → recs ≠ [] →
  let b := sealed_batch (H1 := O1) (H2 := S1) (rt_producer s) k id start end_ sealedAt recs in
  rt_batches s !! id = Some b → Verify (H1 := O2) (H2 := S2) id h s = inr (bool_decide (rb_LeafHash b = h)).
Proof.
  intros Hk Hr b Hb. unfold Verify. rewrite Hb. unfold b, sealed_batch. cbn [rb_Aggregate rb_Records rb_LeafHash].
  pose proof (replay_same O1 O2 S1 S2 (p_cellID (rt_producer s)) id start end_ recs (p_salt (rt_producer s)) k Hk Hr) as HR.
  cbn zeta in HR. set (a := buildAggregate (H0 := O1) (H1 := S1) _ _ _ _ _ _ _) in *.
  change (wa_WindowID a) with id. change (wa_Start a) with start. change (wa_End a) with end_.
  rewrite HR. case_bool_decide as HX; [by destruct HX|done].
Qed.

Context `{!CryptoLaws}.

(** The audit of a window. A batch kept as it was sealed verifies against the leaf of its window, for
    every order of the map and every sort the replay runs with. And whatever is in the store under
    a window, if it verifies against the leaf of a sealed window then it holds the records of that
    window, or exhibits a SHA-256 collision. *)
Theorem audit_exact (O1 O2 : MapOrder) (S1 S2 : SliceSort) s k id start end_ sealedAt recs :
  (1 ≤ k ≤ 255)%nat → recs ≠ [] → (slen (p_cellID (rt_producer s)) ≤ 255)%nat →
  in_i64 id → in_i64 start → in_i64 end_ → Z.of_nat (length recs) < 2^64 → Forall record_wf recs →
  let b := sealed_batch (H1 := O1) (H2 := S1) (rt_producer s) k id start end_ sealedAt recs in
  (rt_batches s !! id = Some b → Verify (H1 := O2) (H2 := S2) id (rb_LeafHash b) s = inr true) ∧
  (∀ id' b', rt_batches s !! id' = Some b' →
     aggregate_wf (rb_Aggregate b') → Z.of_nat (length (rb_Records b')) < 2^64 → Forall record_wf (rb_Records b') →
     Verify (H1 := O2) (H2 := S2) id' (rb_LeafHash b) s = inr true →
     (wa_WindowID (rb_Aggregate b') = id ∧ without_flag <$> rb_Records b' = without_flag <$> recs) ∨ sha256_collision).
Proof.
  intros [Hk Hk'] Hr Hc Hi Hs He Hn HW b. split.
  - intros Hb. rewrite (audit_complete O1 O2 S1 S2 s k id start end_ sealedAt recs _ Hk Hr Hb). by rewrite bool_decide_true.
  - intros id' b' Hb' (_ & Wi & Ws & We & _ & _ & WL & _) Hn' HW' HV. unfold Verify in HV. rewrite Hb' in HV.
    case_bool_decide; [done|]. injection HV as HV. apply bool_decide_eq_true in HV.
    apply leaf_binds in HV; try done.
    + destruct HV as [(_ & HI & _ & _ & HR)|?]; [left|by right]. done.
    + destruct (_ =? _)%nat; lia.
Qed.
End audit.
