(* ===== verification/Aggregator.v ===== *)
(** The windows of telemetry: [src/telemetry/aggregate.go].

    The aggregator gathers the records of the current window and seals each window that is over
    with one leaf, also when it is empty. A window whose leaf cannot be written stays open, with its
    records. The store of raw batches belongs to the pipeline, which purges it; it is passed in and
    out. *)
From S2P Require Import Prelude.
From S2P Require Import Leaf.
From S2P Require Import Effects.
From S2P Require Import Records.
From S2P Require Import Telemetry.
From S2P Require Import Retention.

Local Open Scope Z_scope.

Record AggregatorStats := mkAggregatorStats {
  as_WindowsSealed : Z; as_RecordsIn : Z; as_LeavesWritten : Z; as_LeafFailures : Z; as_StoreFailures : Z;
  as_BatchesStored : Z }.

(** [ag_curID] is -1 before the first window; [ag_store] says whether there is a store. *)
Record Aggregator := mkAggregator {
  ag_producer : Producer; ag_window : Z; ag_topK : Z; ag_store : bool; ag_onTrip : bool;
  ag_curID : Z; ag_curRec : list FlowRecord; ag_stats : AggregatorStats }.

Definition NewAggregator (cellID : string) (salt : bytes) (leaves journal : bool) (window topK : Z) (store onTrip : bool) :
    telemetry_error + Aggregator :=
  if bool_decide (cellID = "") then inl ErrCellIDRequired
  else if (length salt <? 16)%nat then inl ErrSaltTooShort
  else if negb leaves then inl ErrLeavesRequired
  else
    let w := if window =? 0 then defaultWindow else window in
    if w <? millisecond then inl ErrWindowInvalid
    else
      let k := if topK =? 0 then defaultTopK else topK in
      if (k <? 0) || (maxTopK <? k) then inl ErrTopKInvalid
      else inr (mkAggregator (mkProducer cellID salt journal) w k store onTrip (-1) [] (mkAggregatorStats 0 0 0 0 0 0)).

Definition set_window_state (id : Z) (recs : list FlowRecord) (a : Aggregator) : Aggregator :=
  mkAggregator (ag_producer a) (ag_window a) (ag_topK a) (ag_store a) (ag_onTrip a) id recs (ag_stats a).
Definition set_ag_stats (st : AggregatorStats) (a : Aggregator) : Aggregator :=
  mkAggregator (ag_producer a) (ag_window a) (ag_topK a) (ag_store a) (ag_onTrip a) (ag_curID a) (ag_curRec a) st.

Definition inc_sealed (s : AggregatorStats) : AggregatorStats :=
  mkAggregatorStats (u64 (as_WindowsSealed s + 1)) (as_RecordsIn s) (as_LeavesWritten s) (as_LeafFailures s)
    (as_StoreFailures s) (as_BatchesStored s).
Definition inc_in (s : AggregatorStats) : AggregatorStats :=
  mkAggregatorStats (as_WindowsSealed s) (u64 (as_RecordsIn s + 1)) (as_LeavesWritten s) (as_LeafFailures s)
    (as_StoreFailures s) (as_BatchesStored s).
Definition inc_leaf (written : bool) (s : AggregatorStats) : AggregatorStats :=
  mkAggregatorStats (as_WindowsSealed s) (as_RecordsIn s)
    (if written then u64 (as_LeavesWritten s + 1) else as_LeavesWritten s)
    (if written then as_LeafFailures s else u64 (as_LeafFailures s + 1)) (as_StoreFailures s) (as_BatchesStored s).
Definition inc_store (stored : bool) (s : AggregatorStats) : AggregatorStats :=
  mkAggregatorStats (as_WindowsSealed s) (as_RecordsIn s) (as_LeavesWritten s) (as_LeafFailures s)
    (if stored then as_StoreFailures s else u64 (as_StoreFailures s + 1))
    (if stored then u64 (as_BatchesStored s + 1) else as_BatchesStored s).

(** [windowID]. *)
Definition windowID (t : Z) (a : Aggregator) : Z := Z.quot (UnixMilli t) (Milliseconds (ag_window a)).

(** The clock as the sealing of a window reads it: for the leaf, and for the batch. *)
Record seal_clock := mkSealClock { sc_leaf : Z; sc_batch : Z }.

Section aggregator.
Context `{Crypto, Env, MapOrder, SliceSort}.

(** The aggregate of window [id] of the aggregator. *)
Definition window_aggregate (id : Z) (recs : list FlowRecord) (a : Aggregator) : WindowAggregate :=
  let wms := Milliseconds (ag_window a) in
  buildAggregate (p_cellID (ag_producer a)) id (i64 (id * wms)) (i64 ((id + 1) * wms)) recs (p_salt (ag_producer a))
    (Z.to_nat (ag_topK a)).

(** The raw records go to the store, if there is one and there are any. *)
Definition store_batch (id at_ : Z) (a : Aggregator) (s : RetentionStore) (t : trace) : Aggregator * RetentionStore * trace :=
  if ag_store a && negb (length (ag_curRec a) =? 0)%nat then
    let agg := window_aggregate id (ag_curRec a) a in
    let batch := mkRawBatch id (UnixMilli at_) agg (ag_curRec a) (HashPayload (p_salt (ag_producer a)) (aggregateBytes agg)) in
    match rt_Put batch s with
    | (Some _, s1) => (set_ag_stats (inc_store false (ag_stats a)) a, s1, call_alarm (ag_onTrip a) ReasonStoreFull t)
    | (None, s1) => (set_ag_stats (inc_store true (ag_stats a)) a, s1, t)
    end
  else (a, s, t).

Definition sealLocked (ck : seal_clock) (id : Z) (a : Aggregator) (s : RetentionStore) (t : trace) :
    option append_error * Aggregator * RetentionStore * trace :=
  let a1 := set_ag_stats (inc_sealed (ag_stats a)) a in
  match appendLeaf (ag_producer a) KindTelemetry (aggregateBytes (window_aggregate id (ag_curRec a) a)) (UnixNano (sc_leaf ck)) t with
  | (Some e, t1) => (Some e, set_ag_stats (inc_leaf false (ag_stats a1)) a1, s, t1)
  | (None, t1) =>
      let '(a2, s2, t2) := store_batch id (sc_batch ck) (set_ag_stats (inc_leaf true (ag_stats a1)) a1) s t1 in
      (None, set_window_state (i64 (id + 1)) [] a2, s2, t2)
  end.

(** [clk id] is the clock during the sealing of window [id]. *)
Fixpoint tick_loop (clk : Z → seal_clock) (fuel : nat) (id : Z) (a : Aggregator) (s : RetentionStore) (t : trace) :
    option append_error * Aggregator * RetentionStore * trace :=
  if ag_curID a <? id then
    match fuel with
    | O => (None, a, s, t)
    | S n =>
        match sealLocked (clk (ag_curID a)) (ag_curID a) a s t with
        | (Some e, a1, s1, t1) => (Some e, a1, s1, t1)
        | (None, a1, s1, t1) => tick_loop clk n id a1 s1 t1
        end
    end
  else (None, a, s, t).

Definition tickLocked (clk : Z → seal_clock) (now : Z) (a : Aggregator) (s : RetentionStore) (t : trace) :
    option append_error * Aggregator * RetentionStore * trace :=
  let id := windowID now a in
  if ag_curID a =? -1 then (None, a, s, t) else tick_loop clk (Z.to_nat (id - ag_curID a)) id a s t.

(** [Feed] reads the clock twice. *)
Definition ag_Feed (clk : Z → seal_clock) (now now2 : Z) (r : FlowRecord) (a : Aggregator) (s : RetentionStore) (t : trace) :
    option append_error * Aggregator * RetentionStore * trace :=
  match tickLocked clk now a s t with
  | (Some e, a1, s1, t1) => (Some e, a1, s1, t1)
  | (None, a1, s1, t1) =>
      let id := if ag_curID a1 =? -1 then windowID now2 a1 else ag_curID a1 in
      (None, set_ag_stats (inc_in (ag_stats a1)) (set_window_state id (ag_curRec a1 ++ [r]) a1), s1, t1)
  end.

(** [Tick]. *)
Definition ag_Tick (clk : Z → seal_clock) (now : Z) (a : Aggregator) (s : RetentionStore) (t : trace) :=
  tickLocked clk now a s t.

Definition Seal (clk : Z → seal_clock) (now : Z) (a : Aggregator) (s : RetentionStore) (t : trace) :
    option append_error * Aggregator * RetentionStore * trace :=
  let id := if ag_curID a =? -1 then windowID now a else ag_curID a in
  sealLocked (clk id) id (set_window_state id (ag_curRec a) a) s t.

(** ** One operation *)

Definition same_windows (a a' : Aggregator) : Prop :=
  ag_producer a' = ag_producer a ∧ ag_window a' = ag_window a ∧ ag_topK a' = ag_topK a.

(** What the registry sees of the leaf of a window. *)
Definition window_mark (a : Aggregator) (w : Z * list FlowRecord) : byte * bytes :=
  (KindTelemetry, HashPayload (p_salt (ag_producer a)) (aggregateBytes (window_aggregate w.1 w.2 a))).

Lemma window_mark_config a a' w : same_windows a a' → window_mark a' w = window_mark a w.
Proof. unfold window_mark, window_aggregate. by intros (-> & -> & ->). Qed.

(** The windows [ws] were sealed, one leaf each, and nothing of the records was lost. *)
Definition seals (a : Aggregator) (t : trace) (ws : list (Z * list FlowRecord)) (a' : Aggregator) (t' : trace) : Prop :=
  same_windows a a' ∧ ws.*1 = seqZ (ag_curID a) (Z.of_nat (length ws)) ∧
  ag_curID a' = ag_curID a + Z.of_nat (length ws) ∧ concat ws.*2 ++ ag_curRec a' = ag_curRec a ∧
  ∃ new, leaves_of t' = leaves_of t ++ new ∧ leaf_mark <$> new = window_mark a <$> ws.

Lemma seals_nil a t : seals a t [] a t.
Proof. split_and!; try done; [simpl; lia|]. exists []. by rewrite app_nil_r. Qed.

Lemma seals_trans a t ws a1 t1 ws' a2 t2 : seals a t ws a1 t1 → seals a1 t1 ws' a2 t2 → seals a t (ws ++ ws') a2 t2.
Proof.
  intros (C1 & I1 & D1 & R1 & n1 & L1 & M1) (C2 & I2 & D2 & R2 & n2 & L2 & M2). split_and!.
  - destruct C1 as (?&?&?), C2 as (?&?&?). split_and!; congruence.
  - rewrite fmap_app, I1, I2, D1, length_app, Nat2Z.inj_add, seqZ_app by lia. done.
  - rewrite D2, D1, length_app. lia.
  - rewrite fmap_app, concat_app, <-app_assoc, R2. done.
  - exists (n1 ++ n2). rewrite L2, L1, app_assoc. split; [done|]. rewrite !fmap_app, M1, M2. f_equal.
    apply list_fmap_ext. intros _ w _. by apply window_mark_config.
Qed.

Lemma store_batch_spec id at_ a s t : let '(a', s', t') := store_batch id at_ a s t in
  same_windows a a' ∧ ag_curID a' = ag_curID a ∧ ag_curRec a' = ag_curRec a ∧ leaves_of t' = leaves_of t ∧
  (store_wf s → store_wf s').
Proof.
  unfold store_batch. destruct (_ && _); [|done]. set (b := mkRawBatch _ _ _ _ _).
  pose proof (rt_Put_wf b s) as HW. destruct (rt_Put b s) as [[e|] s1]; [|done].
  unfold call_alarm. destruct (ag_onTrip a); [rewrite leaves_of_app, app_nil_r|]; done.
Qed.

(** A window is sealed with its leaf, or nothing of it changes and the error is the one of the
    leaf. *)
Lemma sealLocked_spec ck a s t : in_i64 (ag_curID a + 1) →
  let '(r, a', s', t') := sealLocked ck (ag_curID a) a s t in
  match r with
  | None => seals a t [(ag_curID a, ag_curRec a)] a' t' ∧ ag_curRec a' = []
  | Some e => seals a t [] a' t' ∧ ag_curRec a' = ag_curRec a ∧ s' = s ∧
      (appendLeaf (ag_producer a) KindTelemetry (aggregateBytes (window_aggregate (ag_curID a) (ag_curRec a) a))
         (UnixNano (sc_leaf ck)) t) = (Some e, t')
  end.
Proof.
  intros HI. unfold sealLocked.
  pose proof (appendLeaf_observed (ag_producer a) KindTelemetry (aggregateBytes (window_aggregate (ag_curID a) (ag_curRec a) a))
    (UnixNano (sc_leaf ck)) t) as HO.
  destruct (appendLeaf _ _ _ _ _) as [[e|] t1]; destruct HO as (HL & _ & _).
  - split_and!; try done. split_and!; try done; [simpl; lia|]. exists []. by rewrite HL.
  - pose proof (store_batch_spec (ag_curID a) (sc_batch ck) (set_ag_stats (inc_leaf true (inc_sealed (ag_stats a)))
      (set_ag_stats (inc_sealed (ag_stats a)) a)) s t1) as HB.
    change (inc_leaf true (ag_stats (set_ag_stats (inc_sealed (ag_stats a)) a))) with (inc_leaf true (inc_sealed (ag_stats a))).
    destruct (store_batch _ _ _ _ _) as [[a2 s2] t2]. destruct HB as ((CP & CW & CK) & _ & _ & HL2 & _). split; [|done].
    split_and!; try done; [simpl; by rewrite i64_small|simpl; by rewrite !app_nil_r|].
    eexists. rewrite HL2, HL. split; done.
Qed.

(** The loop reaches the current window, unless a leaf is refused. *)
Lemma tick_loop_spec clk n id a s t :
  0 ≤ ag_curID a → ag_curID a < 2^62 → id < 2^62 → (Z.to_nat (id - ag_curID a) ≤ n)%nat →
  let '(r, a', s', t') := tick_loop clk n id a s t in
  ∃ ws, seals a t ws a' t' ∧
    match r with
    | None => ag_curID a' = Z.max (ag_curID a) id
    | Some e => ag_curID a' < id ∧ ∃ t0 ts, appendLeaf (ag_producer a') KindTelemetry
        (aggregateBytes (window_aggregate (ag_curID a') (ag_curRec a') a')) ts t0 = (Some e, t')
    end.
Proof.
  revert a s t. induction n as [|n IH]; intros a s t Hz H62 Hid Hn; cbn [tick_loop].
  { destruct (Z.ltb_spec (ag_curID a) id); [lia|]. exists []. split; [apply seals_nil|lia]. }
  destruct (Z.ltb_spec (ag_curID a) id); [|exists []; split; [apply seals_nil|lia]].
  pose proof (sealLocked_spec (clk (ag_curID a)) a s t) as HS.
  destruct (sealLocked _ _ _ _ _) as [[[[e|] a1] s1] t1]; [|].
  - destruct HS as (HS & HR & _ & HA); [unfold in_i64; lia|]. exists []. split; [done|].
    destruct HS as (C & _ & HC & _). simpl in HC. rewrite Z.add_0_r in HC. split; [lia|].
    exists t, (UnixNano (sc_leaf (clk (ag_curID a)))). rewrite HC, HR. unfold window_aggregate in *. destruct C as (-> & -> & ->). done.
  - destruct HS as [HS HR]; [unfold in_i64; lia|]. pose proof HS as (C & _ & HC & _). simpl in HC.
    specialize (IH a1 s1 t1). destruct (tick_loop _ _ _ _ _ _) as [[[r a2] s2] t2].
    destruct IH as (ws & HW & HE); [lia..|]. exists ((ag_curID a, ag_curRec a) :: ws).
    split; [by apply (seals_trans _ _ [_] _ _ ws _ _ HS)|]. destruct r; [done|]. lia.
Qed.

Definition sane_time (now : Z) : Prop := 0 ≤ now < 2^62.

Lemma windowID_range now a : sane_time now → millisecond ≤ ag_window a → 0 ≤ windowID now a < 2^62.
Proof.
  unfold sane_time, windowID, UnixMilli, Milliseconds, millisecond. intros Hn Hw.
  assert (0 ≤ now / 1000000 ≤ now) as HM by (split; [apply Z.div_pos; lia|apply Z.div_le_upper_bound; lia]).
  rewrite i64_small by (unfold in_i64; lia).
  assert (1 ≤ Z.quot (ag_window a) 1000000) by (apply Z.quot_le_lower_bound; lia).
  rewrite Z.quot_div_nonneg by lia. split; [apply Z.div_pos; lia|].
  apply Z.le_lt_trans with (now / 1000000); [|lia]. apply Z.div_le_upper_bound; nia.
Qed.

Lemma tickLocked_spec clk now a s t : sane_time now → millisecond ≤ ag_window a → -1 ≤ ag_curID a < 2^62 →
  let '(r, a', s', t') := tickLocked clk now a s t in
  ∃ ws, seals a t ws a' t' ∧ (ag_curID a = -1 → ws = []) ∧
    match r with
    | None => ag_curID a' = if ag_curID a =? -1 then -1 else Z.max (ag_curID a) (windowID now a)
    | Some e => ag_curID a' < windowID now a ∧ ∃ t0 ts, appendLeaf (ag_producer a') KindTelemetry
        (aggregateBytes (window_aggregate (ag_curID a') (ag_curRec a') a')) ts t0 = (Some e, t')
    end.
Proof.
  intros Hn Hw Hc. unfold tickLocked. destruct (Z.eqb_spec (ag_curID a) (-1)) as [E|E].
  { exists []. split_and!; [apply seals_nil|done..]. }
  pose proof (windowID_range now a Hn Hw).
  pose proof (tick_loop_spec clk (Z.to_nat (windowID now a - ag_curID a)) (windowID now a) a s t) as HT.
  destruct (tick_loop _ _ _ _ _ _) as [[[r a'] s'] t']. destruct HT as (ws & HS & HE); [lia..|]. by exists ws.
Qed.

(** ** Runs *)

(** A run of the aggregator. At each call the store and the trace are whatever the rest of the
    cell made of them. [written] is what the aggregator itself put in the registry, [fed] the
    records it accepted. *)
Definition added (t t' : trace) (marks : list (byte * bytes)) : Prop :=
  ∃ new, leaves_of t' = leaves_of t ++ new ∧ marks = leaf_mark <$> new.

Inductive agg_run (a0 : Aggregator) : list (byte * bytes) → list FlowRecord → Aggregator → Prop :=
  | run_start : agg_run a0 [] [] a0
  | run_feed written fed a clk now now2 r s t e a' s' t' marks :
      agg_run a0 written fed a → sane_time now → sane_time now2 → ag_curID a < 2^62 →
      ag_Feed clk now now2 r a s t = (e, a', s', t') → added t t' marks →
      agg_run a0 (written ++ marks) (match e with None => fed ++ [r] | Some _ => fed end) a'
  | run_tick written fed a clk now s t e a' s' t' marks :
      agg_run a0 written fed a → sane_time now → ag_curID a < 2^62 →
      ag_Tick clk now a s t = (e, a', s', t') → added t t' marks → agg_run a0 (written ++ marks) fed a'
  | run_seal written fed a clk now s t e a' s' t' marks :
      agg_run a0 written fed a → sane_time now → ag_curID a < 2^62 →
      Seal clk now a s t = (e, a', s', t') → added t t' marks → agg_run a0 (written ++ marks) fed a'.

Definition new_aggregator (a : Aggregator) : Prop :=
  millisecond ≤ ag_window a ∧ ag_curID a = -1 ∧ ag_curRec a = [].

(** The state after a run, over the windows it sealed. *)
Definition agg_inv (a0 : Aggregator) (first : Z) (ws : list (Z * list FlowRecord)) (written : list (byte * bytes))
    (fed : list FlowRecord) (a : Aggregator) : Prop :=
  same_windows a0 a ∧ written = window_mark a0 <$> ws ∧ ws.*1 = seqZ first (Z.of_nat (length ws)) ∧
  concat ws.*2 ++ ag_curRec a = fed ∧
  ((ag_curID a = first + Z.of_nat (length ws) ∧ 0 ≤ first) ∨ (ag_curID a = -1 ∧ ws = [] ∧ fed = [])).

Lemma agg_inv_seals a0 first ws written fed a t ws' a' t' marks :
  agg_inv a0 first ws written fed a → (ag_curID a = -1 → ws' = []) → seals a t ws' a' t' → added t t' marks →
  agg_inv a0 first (ws ++ ws') (written ++ marks) fed a'.
Proof.
  intros (C & -> & HI & HF & HC) Hopen (C' & HI' & HD & HR & new & HL & HM) (new' & HL' & ->).
  rewrite HL in HL'. apply (inj (leaves_of t ++.)) in HL' as <-. split_and!.
  - destruct C as (?&?&?), C' as (?&?&?). split_and!; congruence.
  - rewrite HM, fmap_app. f_equal. apply list_fmap_ext. intros _ w _. by apply window_mark_config.
  - destruct HC as [[HC ?]|(HC & -> & _)].
    + rewrite fmap_app, HI, HI', HC, length_app, Nat2Z.inj_add, seqZ_app by lia. done.
    + by rewrite (Hopen HC).
  - rewrite fmap_app, concat_app, <-app_assoc, HR. done.
  - destruct HC as [[HC ?]|(HC & -> & ->)]; [left; rewrite length_app; split; [lia|done]|right].
    rewrite (Hopen HC) in *. simpl in *. split_and!; [lia|done|done].
Qed.

Lemma agg_inv_open a0 first ws written fed a id : agg_inv a0 first ws written fed a → 0 ≤ id →
  let a1 := set_window_state (if ag_curID a =? -1 then id else ag_curID a) (ag_curRec a) a in
  ∃ first', agg_inv a0 first' ws written fed a1 ∧ 0 ≤ ag_curID a1.
Proof.
  intros (C & HM & HI & HF & HC) Hid. destruct (Z.eqb_spec (ag_curID a) (-1)) as [E|E]; simpl.
  - destruct HC as [[HC ?]|(_ & -> & ->)]; [lia|]. exists id. split; [|done]. split_and!; try done. left. simpl. split; lia.
  - destruct HC as [[HC ?]|(HC & _)]; [|done]. exists first. split; [|lia]. split_and!; try done. left. done.
Qed.

Lemma agg_run_inv a0 written fed a : new_aggregator a0 → agg_run a0 written fed a →
  ∃ first ws, agg_inv a0 first ws written fed a.
Proof.
  intros (HW & HI0 & HR0) HR.
  assert (∀ first ws written fed a, agg_inv a0 first ws written fed a → millisecond ≤ ag_window a ∧ -1 ≤ ag_curID a) as HB.
  { intros ? ? ? ? ? ((_ & E & _) & _ & _ & _ & HC). rewrite E. split; [done|lia]. }
  induction HR as [|written fed a clk now now2 r s t e a' s' t' marks HR IH Hn Hn2 Hc HF HA
    |written fed a clk now s t e a' s' t' marks HR IH Hn Hc HF HA|written fed a clk now s t e a' s' t' marks HR IH Hn Hc HF HA].
  - exists 0, []. split_and!; try done. by right.
  - destruct IH as (first & ws & HI). destruct (HB _ _ _ _ _ HI) as [Hw Hm].
    pose proof (tickLocked_spec clk now a s t Hn Hw (conj Hm Hc)) as HT. unfold ag_Feed in HF.
    destruct (tickLocked _ _ _ _ _) as [[[[e1|] a1] s1] t1]; destruct HT as (ws' & HS & Ho & _); simplify_eq/=.
    + exists first, (ws ++ ws'). by eapply agg_inv_seals.
    + pose proof (agg_inv_seals _ _ _ _ _ _ _ _ _ _ _ HI Ho HS HA) as HI1. destruct (HB _ _ _ _ _ HI1) as [Hw1 _].
      destruct (agg_inv_open _ _ _ _ _ _ (windowID now2 a1) HI1) as (first' & (C & HM & HI2 & HF2 & HC) & Hp).
      { by apply windowID_range. }
      exists first', (ws ++ ws'). split_and!; try done; [simpl in *; by rewrite app_assoc, HF2|]. left. simpl in *. lia.
  - destruct IH as (first & ws & HI). destruct (HB _ _ _ _ _ HI) as [Hw Hm].
    pose proof (tickLocked_spec clk now a s t Hn Hw (conj Hm Hc)) as HT. unfold ag_Tick in HF. rewrite HF in HT.
    destruct HT as (ws' & HS & Ho & _). exists first, (ws ++ ws'). by eapply agg_inv_seals.
  - destruct IH as (first & ws & HI). destruct (HB _ _ _ _ _ HI) as [Hw Hm].
    destruct (windowID_range now a Hn Hw) as [Hid Hid2].
    destruct (agg_inv_open _ _ _ _ _ _ (windowID now a) HI Hid) as (first' & HI1 & Hp).
    unfold Seal in HF. set (a1 := set_window_state _ _ a) in *.
    assert (ag_curID a1 < 2^62) as Hc1 by (subst a1; simpl; destruct (_ =? _); lia).
    pose proof (sealLocked_spec (clk (ag_curID a1)) a1 s t) as HS. change (if _ =? _ then _ else _) with (ag_curID a1) in HF.
    rewrite HF in HS.
    destruct e as [e|]; destruct HS as [HS _]; try (unfold in_i64; lia); exists first'; eexists; (eapply agg_inv_seals; [exact HI1| |exact HS|exact HA]); lia.
Qed.

(** ** The claims *)

(** C28: the windows partition the flow. Over any sequence of calls, whatever fails and whatever the rest of
    the cell does in between, the aggregator writes one leaf for each window, with consecutive
    numbers from the first one it opened, and the records it accepted are those of these windows, in
    order, followed by those of the window still open: none is lost, none is counted twice. *)
Theorem windows_partition_records a0 written fed a :
  new_aggregator a0 → agg_run a0 written fed a →
  ∃ first ws, written = window_mark a0 <$> ws ∧ ws.*1 = seqZ first (Z.of_nat (length ws)) ∧
    concat ws.*2 ++ ag_curRec a = fed ∧
    (ag_curID a = first + Z.of_nat (length ws) ∨ (ag_curID a = -1 ∧ ws = [] ∧ fed = [])).
Proof.
  intros HN HR. destruct (agg_run_inv _ _ _ _ HN HR) as (first & ws & _ & ? & ? & ? & HC). exists first, ws. naive_solver.
Qed.

(** C29: a tick ends. The loop of a tick, which has no bound in the source, ends after at most one turn for
    each window between the open one and the current one. Unless a leaf is refused it seals every window that
    is over, with one leaf each, and leaves the current one open; and when it stops on a refused
    leaf, that leaf is the one of the window that stays open with its records. *)
Theorem tick_seals_elapsed_windows clk now a s t :
  sane_time now → millisecond ≤ ag_window a → -1 ≤ ag_curID a < 2^62 →
  let '(r, a', s', t') := ag_Tick clk now a s t in
  ∃ ws, seals a t ws a' t' ∧ (ag_curID a = -1 → ws = []) ∧
    match r with
    | None => ag_curID a' = if ag_curID a =? -1 then -1 else Z.max (ag_curID a) (windowID now a)
    | Some e => ag_curID a' < windowID now a ∧ ∃ t0 ts, appendLeaf (ag_producer a') KindTelemetry
        (aggregateBytes (window_aggregate (ag_curID a') (ag_curRec a') a')) ts t0 = (Some e, t')
    end.
Proof. apply tickLocked_spec. Qed.
End aggregator.
