(* ===== verification/AntiDribble.v ===== *)
(** The detection of slow exfiltration: [src/telemetry/antidribble.go].

    The detector keeps, for each hashed destination, the bytes of the last 24 hours by minute and of
    the last 7 days by hour, in two rings of dated slots, and two moving averages. When the
    records reach a new minute, the minutes before it are sealed and each destination is evaluated: a
    score over three signals raises one alert per episode. All arithmetic is on unsigned 64-bit
    integers. *)
From S2P Require Import Prelude.
From S2P Require Import Leaf.
From S2P Require Import Effects.
From S2P Require Import Records.
From S2P Require Import Telemetry.

Local Open Scope Z_scope.

Definition defaultDetWindow : Z := minute.
Definition defaultMaxEntities : Z := 4096.
Definition ring24Slots : nat := 1440.
Definition ring7Slots : nat := 168.
Definition emaFastDen : Z := 8.
Definition emaSlowDen : Z := 64.
Definition sigBytes : Z := 1.
Definition sigRegularity : Z := 2.
Definition sigDrift : Z := 4.
Definition ReasonEntitiesFull : string := "antidribble-entities-full".

(** ** Parameters *)

Record ScoreParams := mkScoreParams {
  sp_Version : Z; sp_ByteThreshold24h : Z; sp_ByteThreshold7d : Z; sp_MinActiveWindows : Z; sp_JitterMaxPerMille : Z;
  sp_DriftPerMille : Z; sp_WBytes : Z; sp_WRegularity : Z; sp_WDrift : Z; sp_AlertThreshold : Z; sp_HysteresisPerMille : Z }.

#[global] Instance ScoreParams_eq_dec : EqDecision ScoreParams.
Proof. solve_decision. Defined.

Definition DefaultScoreParams : ScoreParams :=
  mkScoreParams 1 (2 ^ 30) (4 * 2 ^ 30) 240 200 250 500 300 200 500 100.

(** [validate]: whether the parameters are refused. *)
Definition params_invalid (p : ScoreParams) : bool :=
  (sp_Version p =? 0) || ((sp_ByteThreshold24h p =? 0) || (sp_ByteThreshold7d p =? 0))
  || ((sp_MinActiveWindows p <=? 0) || (Z.of_nat ring24Slots <? sp_MinActiveWindows p))
  || ((sp_JitterMaxPerMille p <=? 0) || (1000 <? sp_JitterMaxPerMille p)) || (sp_DriftPerMille p <? 0)
  || (1000 <? sp_WBytes p + sp_WRegularity p + sp_WDrift p)
  || ((sp_AlertThreshold p =? 0) || (1000 <? sp_AlertThreshold p)) || (sp_AlertThreshold p <=? sp_HysteresisPerMille p).

Definition paramsBytes (p : ScoreParams) (windowMs : Z) : bytes :=
  sb "TBSP1" ++ be 2 (sp_Version p) ++ be 8 (u64 windowMs) ++ be 8 (sp_ByteThreshold24h p) ++ be 8 (sp_ByteThreshold7d p)
  ++ be 4 (sp_MinActiveWindows p) ++ be 4 (sp_JitterMaxPerMille p) ++ be 4 (sp_DriftPerMille p)
  ++ be 2 (sp_WBytes p) ++ be 2 (sp_WRegularity p) ++ be 2 (sp_WDrift p) ++ be 2 (sp_AlertThreshold p)
  ++ be 2 (sp_HysteresisPerMille p).

Definition paramsHash `{Crypto} (p : ScoreParams) (windowMs : Z) : bytes := sha256 (paramsBytes p windowMs).

(** ** Rings of dated slots *)

(** The dates, the values, and the running sum of a ring; a slot dated -1 is empty. *)
Record ring := mkRing { rg_date : list Z; rg_val : list Z; rg_sum : Z }.

Definition new_ring (n : nat) : ring := mkRing (replicate n (-1)) (replicate n 0) 0.

(** The discipline [add] and [commitHour] share: a slot that holds another date is taken off the
    running sum and restarted. *)
Definition ring_put (k amount : Z) (r : ring) : ring :=
  let s := Z.to_nat (Z.rem k (Z.of_nat (length (rg_date r)))) in
  let d := rg_date r !!! s in
  let v := rg_val r !!! s in
  if d =? k then mkRing (rg_date r) (<[s := u64 (v + amount)]> (rg_val r)) (u64 (rg_sum r + amount))
  else mkRing (<[s := k]> (rg_date r)) (<[s := u64 (0 + amount)]> (rg_val r))
         (u64 ((if 0 <=? d then u64 (rg_sum r - v) else rg_sum r) + amount)).

(** The values of the slots dated in a range. *)
Definition in_range (lo hi : Z) (x : Z * Z) : bool := (lo <=? x.1) && (x.1 <=? hi).
Definition ring_scan (lo hi : Z) (r : ring) : list Z := (List.filter (in_range lo hi) (zip (rg_date r) (rg_val r))).*2.

Definition sum64 (l : list Z) : Z := foldl (λ n v, u64 (n + v)) 0 l.

(** ** Profiles *)

Record entityProfile := mkProfile {
  ep_min : ring; ep_hour : ring; ep_curHour : Z; ep_curHourBytes : Z;
  ep_lastEval : Z; ep_seen : Z; ep_emaFast : Z; ep_emaSlow : Z; ep_alerted : bool }.

Definition newEntityProfile : entityProfile :=
  mkProfile (new_ring ring24Slots) (new_ring ring7Slots) (-1) 0 (-1) 0 0 0 false.

Definition set_sums (sum24 sum7 : Z) (p : entityProfile) : entityProfile :=
  mkProfile (mkRing (rg_date (ep_min p)) (rg_val (ep_min p)) sum24) (mkRing (rg_date (ep_hour p)) (rg_val (ep_hour p)) sum7)
    (ep_curHour p) (ep_curHourBytes p) (ep_lastEval p) (ep_seen p) (ep_emaFast p) (ep_emaSlow p) (ep_alerted p).
Definition set_ema (lastEval seen fast slow : Z) (p : entityProfile) : entityProfile :=
  mkProfile (ep_min p) (ep_hour p) (ep_curHour p) (ep_curHourBytes p) lastEval seen fast slow (ep_alerted p).
Definition set_alerted (b : bool) (p : entityProfile) : entityProfile :=
  mkProfile (ep_min p) (ep_hour p) (ep_curHour p) (ep_curHourBytes p) (ep_lastEval p) (ep_seen p) (ep_emaFast p) (ep_emaSlow p) b.

(** [commitHour]. *)
Definition commitHour (p : entityProfile) : entityProfile :=
  mkProfile (ep_min p) (ring_put (ep_curHour p) (ep_curHourBytes p) (ep_hour p)) (ep_curHour p) 0
    (ep_lastEval p) (ep_seen p) (ep_emaFast p) (ep_emaSlow p) (ep_alerted p).

(** [add]. *)
Definition add_bytes (m amount : Z) (p : entityProfile) : entityProfile :=
  let p1 := mkProfile (ring_put m amount (ep_min p)) (ep_hour p) (ep_curHour p) (ep_curHourBytes p)
              (ep_lastEval p) (ep_seen p) (ep_emaFast p) (ep_emaSlow p) (ep_alerted p) in
  let h := Z.quot m 60 in
  let p2 := if (0 <=? ep_curHour p1) && negb (h =? ep_curHour p1) then commitHour p1 else p1 in
  mkProfile (ep_min p2) (ep_hour p2) h (u64 (ep_curHourBytes p2 + amount))
    (ep_lastEval p2) (ep_seen p2) (ep_emaFast p2) (ep_emaSlow p2) (ep_alerted p2).

(** [bytesAt]. *)
Definition bytesAt (m : Z) (p : entityProfile) : Z :=
  let s := Z.to_nat (Z.rem m (Z.of_nat ring24Slots)) in
  if rg_date (ep_min p) !!! s =? m then rg_val (ep_min p) !!! s else 0.

(** The loop of [advanceEMA] over the minutes [j], [j+1], ... *)
Fixpoint ema_loop (n : nat) (j : Z) (p : entityProfile) : entityProfile :=
  match n with
  | O => p
  | S n =>
      let x := u64 (bytesAt j p * 1000) in
      ema_loop n (j + 1)
        (set_ema (ep_lastEval p) (u64 (ep_seen p + 1)) (u64 (x + u64 ((emaFastDen - 1) * ep_emaFast p)) / emaFastDen)
           (u64 (x + u64 ((emaSlowDen - 1) * ep_emaSlow p)) / emaSlowDen) p)
  end.

Definition advanceEMA (t : Z) (p : entityProfile) : entityProfile :=
  if ep_lastEval p <? 0 then set_ema t (ep_seen p) (ep_emaFast p) (ep_emaSlow p) p
  else
    let gap := t - ep_lastEval p in
    if gap <=? 0 then p
    else
      let '(p1, gap) := if Z.of_nat ring24Slots <? gap then (set_ema (t - 1) 0 0 0 p, 1) else (p, gap) in
      let p2 := ema_loop (Z.to_nat gap) (t - gap + 1) p1 in
      set_ema t (ep_seen p2) (ep_emaFast p2) (ep_emaSlow p2) p2.

(** ** The evaluation of a profile *)

Definition fresh24 (t : Z) (p : entityProfile) : list Z := ring_scan (t - Z.of_nat ring24Slots + 1) t (ep_min p).

Definition fresh7 (t : Z) (p : entityProfile) : Z :=
  let hourNow := Z.quot t 60 in
  let minHour := hourNow - Z.of_nat ring7Slots + 1 in
  let s := sum64 (ring_scan minHour hourNow (ep_hour p)) in
  if (minHour <=? ep_curHour p) && (ep_curHour p <=? hourNow) then u64 (s + ep_curHourBytes p) else s.

(** The mean absolute deviation of the active minutes, per mille of the mean, under the bound. *)
Definition regular (pm : ScoreParams) (active : list Z) (sum24 : Z) : bool :=
  let n := Z.of_nat (length active) in
  let mean := sum24 / n in
  (0 <? mean) &&
  (let dev := foldl (λ dev v, u64 (dev + (if mean <? v then v - mean else mean - v))) 0 active in
   u64 ((dev / n) * 1000) / mean <? sp_JitterMaxPerMille pm).

Definition drifting (pm : ScoreParams) (p : entityProfile) : bool :=
  (4 * emaSlowDen <=? ep_seen p) && (0 <? ep_emaSlow p)
  && (u64 (ep_emaSlow p * (1000 + sp_DriftPerMille pm)) <? u64 (ep_emaFast p * 1000)).

Definition signals (pm : ScoreParams) (p : entityProfile) (values : list Z) (sum24 sum7 : Z) : Z :=
  let active := List.filter (λ v, 0 <? v) values in
  let lively := (sp_MinActiveWindows pm <=? Z.of_nat (length active)) && (0 <? sum24) in
  Z.lor (if (sp_ByteThreshold24h pm <? sum24) || (sp_ByteThreshold7d pm <? sum7) then sigBytes else 0)
    (Z.lor (if lively && regular pm active sum24 then sigRegularity else 0) (if lively && drifting pm p then sigDrift else 0)).

Definition score_of (pm : ScoreParams) (sg : Z) : Z :=
  u16 (u16 (u16 (0 + (if Z.land sg sigBytes =? 0 then 0 else sp_WBytes pm))
            + (if Z.land sg sigRegularity =? 0 then 0 else sp_WRegularity pm))
       + (if Z.land sg sigDrift =? 0 then 0 else sp_WDrift pm)).

(** ** The detector *)

(** [Alert] of the package. *)
Record DribbleAlert := mkDribbleAlert {
  da_DstHash : bytes; da_WindowID : Z; da_Score : Z; da_Signals : Z; da_Sum24h : Z; da_Sum7d : Z }.

Record DetectorStats := mkDetectorStats {
  ds_RecordsIn : Z; ds_LateRecords : Z; ds_Evaluations : Z; ds_Alerts : Z; ds_AlertFailures : Z;
  ds_EntitiesCreated : Z; ds_EntitiesDropped : Z }.

Record Detector := mkDetector {
  dt_producer : Producer; dt_params : ScoreParams; dt_paramsH : bytes; dt_window : Z; dt_maxEnt : Z; dt_onAlert : bool;
  dt_onTrip : bool; dt_watermark : Z; dt_entities : gmap bytes entityProfile; dt_stats : DetectorStats }.

Inductive det_counter :=
  | CRecordsIn | CLateRecords | CEvaluations | CAlerts | CAlertFailures | CEntitiesCreated | CEntitiesDropped.
#[global] Instance det_counter_eq_dec : EqDecision det_counter.
Proof. solve_decision. Defined.

(** [atomic.AddUint64(&d.stats.X, 1)]. *)
Definition count_det (c : det_counter) (d : Detector) : Detector :=
  let inc x n := if bool_decide (c = x) then u64 (n + 1) else n in
  let s := dt_stats d in
  mkDetector (dt_producer d) (dt_params d) (dt_paramsH d) (dt_window d) (dt_maxEnt d) (dt_onAlert d) (dt_onTrip d)
    (dt_watermark d) (dt_entities d)
    (mkDetectorStats (inc CRecordsIn (ds_RecordsIn s)) (inc CLateRecords (ds_LateRecords s)) (inc CEvaluations (ds_Evaluations s))
       (inc CAlerts (ds_Alerts s)) (inc CAlertFailures (ds_AlertFailures s)) (inc CEntitiesCreated (ds_EntitiesCreated s))
       (inc CEntitiesDropped (ds_EntitiesDropped s))).
Definition set_watermark (m : Z) (d : Detector) : Detector :=
  mkDetector (dt_producer d) (dt_params d) (dt_paramsH d) (dt_window d) (dt_maxEnt d) (dt_onAlert d) (dt_onTrip d) m
    (dt_entities d) (dt_stats d).
Definition set_profile (k : bytes) (p : entityProfile) (d : Detector) : Detector :=
  mkDetector (dt_producer d) (dt_params d) (dt_paramsH d) (dt_window d) (dt_maxEnt d) (dt_onAlert d) (dt_onTrip d)
    (dt_watermark d) (<[k := p]> (dt_entities d)) (dt_stats d).

Definition NewDetector `{Crypto} (cellID : string) (salt : bytes) (leaves journal : bool) (pm : ScoreParams)
    (window maxEntities : Z) (onAlert onTrip : bool) : telemetry_error + Detector :=
  if bool_decide (cellID = "") then inl ErrCellIDRequired
  else if (length salt <? 16)%nat then inl ErrSaltTooShort
  else if negb leaves then inl ErrLeavesRequired
  else if params_invalid pm then inl ErrParamsInvalid
  else
    let w := if window =? 0 then defaultDetWindow else window in
    if w <? millisecond then inl ErrWindowInvalid
    else
      let me := if maxEntities =? 0 then defaultMaxEntities else maxEntities in
      if me <? 0 then inl ErrMaxEntitiesInvalid
      else inr (mkDetector (mkProducer cellID salt journal) pm (paramsHash pm (Milliseconds w)) w me onAlert onTrip (-1) ∅
                  (mkDetectorStats 0 0 0 0 0 0 0)).

Definition alertManifest (cellID : string) (version : Z) (a : DribbleAlert) (emaFast emaSlow : Z) (paramsH : bytes) (atMs : Z) : bytes :=
  sb "TBAD1" ++ be 2 version ++ [len8 cellID] ++ sb cellID ++ da_DstHash a ++ be 8 (u64 (da_WindowID a)) ++ be 2 (da_Score a)
  ++ [z2b (da_Signals a)] ++ be 8 (da_Sum24h a) ++ be 8 (da_Sum7d a) ++ be 8 emaFast ++ be 8 emaSlow ++ paramsH
  ++ be 8 (u64 atMs).

Section detector.
Context `{Crypto, Env}.

(** [fireAlert]; the clock is read twice, for the manifest and for the leaf. *)
Definition fireAlert (ck : Z * Z) (t : Z) (key : bytes) (p : entityProfile) (score sg sum24 sum7 : Z) (d : Detector) (tr : trace) :
    option append_error * Detector * trace :=
  let a := mkDribbleAlert key t score sg sum24 sum7 in
  let manifest := alertManifest (p_cellID (dt_producer d)) (sp_Version (dt_params d)) a (ep_emaFast p) (ep_emaSlow p)
                    (dt_paramsH d) (UnixMilli ck.1) in
  match appendLeaf (dt_producer d) KindTelemetryAlert manifest (UnixNano ck.2) tr with
  | (Some e, t1) => (Some e, count_det CAlertFailures (set_profile key p d), call_alarm (dt_onTrip d) ReasonLeafWriteFailed t1)
  | (None, t1) =>
      (None, count_det CAlerts (set_profile key (set_alerted true p) d),
       if dt_onAlert d then t1 ++ [EvDribble key t score sg sum24 sum7] else t1)
  end.

(** [evaluate]. *)
Definition evaluate_entity (ck : Z * Z) (t : Z) (key : bytes) (p : entityProfile) (d : Detector) (tr : trace) :
    option append_error * Detector * trace :=
  let pm := dt_params d in
  let values := fresh24 t p in
  let sum24 := sum64 values in
  let sum7 := fresh7 t p in
  let p1 := if (sum24 =? 0) && (ep_emaFast p =? 0) then set_ema (ep_lastEval p) 0 (ep_emaFast p) (ep_emaSlow p) p else p in
  let p2 := set_sums sum24 sum7 p1 in
  let sg := signals pm p2 values sum24 sum7 in
  let score := score_of pm sg in
  let p3 := if ep_alerted p2 && (score <? sp_AlertThreshold pm - sp_HysteresisPerMille pm) then set_alerted false p2 else p2 in
  if negb (ep_alerted p3) && (sp_AlertThreshold pm <=? score) then fireAlert ck t key p3 score sg sum24 sum7 d tr
  else (None, set_profile key p3 d, tr).

(** One turn of the loop of [sealLocked]. *)
Definition seal_entity (ck : Z * Z) (t : Z) (key : bytes) (p : entityProfile) (d : Detector) (tr : trace) :
    option append_error * Detector * trace :=
  if (rg_sum (ep_min p) =? 0) && (ep_emaFast p =? 0) then
    (None, set_profile key (set_ema (t - 1) 0 (ep_emaFast p) (ep_emaSlow p) p) d, tr)
  else evaluate_entity ck t key (advanceEMA t p) (count_det CEvaluations d) tr.

(** [clk key] is the clock during the alert of [key]. *)
Fixpoint seal_loop (clk : bytes → Z * Z) (t : Z) (keys : list bytes) (d : Detector) (tr : trace) :
    option append_error * Detector * trace :=
  match keys with
  | [] => (None, d, tr)
  | k :: keys =>
      match dt_entities d !! k with
      | None => seal_loop clk t keys d tr
      | Some p =>
          let '(e, d1, t1) := seal_entity (clk k) t k p d tr in
          let '(e2, d2, t2) := seal_loop clk t keys d1 t1 in
          (match e with Some x => Some x | None => e2 end, d2, t2)
      end
  end.

Definition det_sealLocked (clk : bytes → Z * Z) (t : Z) (d : Detector) (tr : trace) : option append_error * Detector * trace :=
  seal_loop clk t (merge_sort bytes_le (elements (dom (dt_entities d)))) d tr.

(** What [Feed] does once the record is in minute [m], after the seal. *)
Definition record_bytes (m delta : Z) (key : bytes) (d : Detector) (tr : trace) : Detector * trace :=
  if m <=? dt_watermark d - Z.of_nat ring24Slots then (count_det CLateRecords d, tr)
  else match dt_entities d !! key with
  | Some p => (set_profile key (add_bytes m delta p) d, tr)
  | None =>
      if dt_maxEnt d <=? Z.of_nat (size (dt_entities d)) then
        (count_det CEntitiesDropped d, call_alarm (dt_onTrip d) ReasonEntitiesFull tr)
      else (set_profile key (add_bytes m delta newEntityProfile) (count_det CEntitiesCreated d), tr)
  end.

(** [Feed]. *)
Definition det_Feed (clk : bytes → Z * Z) (r : FlowRecord) (d : Detector) (tr : trace) : option append_error * Detector * trace :=
  if fr_OctetDelta r =? 0 then (None, d, tr)
  else if fr_FlowEnd r <=? 0 then (None, count_det CLateRecords d, tr)
  else
    let d0 := count_det CRecordsIn d in
    let m := Z.quot (fr_FlowEnd r) (Milliseconds (dt_window d)) in
    let key := hashDestination (p_salt (dt_producer d)) (fr_Resource r) in
    let d1 := if dt_watermark d0 <? 0 then set_watermark m d0 else d0 in
    let '(e, d2, t2) :=
      if dt_watermark d1 <? m then
        let '(e, d2, t2) := det_sealLocked clk (m - 1) d1 tr in (e, set_watermark m d2, t2)
      else (None, d1, tr) in
    let '(d3, t3) := record_bytes m (fr_OctetDelta r) key d2 t2 in
    (e, d3, t3).

(** [Flush]. *)
Definition Flush (clk : bytes → Z * Z) (d : Detector) (tr : trace) : option append_error * Detector * trace :=
  if dt_watermark d <? 0 then (None, d, tr) else det_sealLocked clk (dt_watermark d) d tr.
End detector.

(** ** Rings hold what was put *)

Definition total (l : list (Z * Z)) : Z := foldr (λ x n, x.2 + n) 0 l.

(** The amounts of a log dated in a range. *)
Definition vol (lo hi : Z) (log : list (Z * Z)) : Z := total (List.filter (in_range lo hi) log).

Lemma vol_cons lo hi x log : vol lo hi (x :: log) = (if in_range lo hi x then x.2 else 0) + vol lo hi log.
Proof. unfold vol. simpl. by destruct (in_range lo hi x). Qed.

Lemma sum64_total l n : foldl (λ n v, u64 (n + v)) (u64 n) l = u64 (n + foldr Z.add 0 l).
Proof.
  revert n. induction l as [|v l IH]; intros n; simpl; [by rewrite Z.add_0_r|].
  replace (u64 (u64 n + v)) with (u64 (n + v)); [rewrite IH; f_equal; lia|]. unfold u64. by rewrite Z.add_mod_idemp_l.
Qed.

Lemma scan_total lo hi r : foldr Z.add 0 (ring_scan lo hi r) = vol lo hi (zip (rg_date r) (rg_val r)).
Proof.
  unfold ring_scan, vol. induction (List.filter _ _) as [|x l IH]; [done|]. simpl. f_equal. exact IH.
Qed.

Lemma sum64_scan lo hi r : sum64 (ring_scan lo hi r) = u64 (vol lo hi (zip (rg_date r) (rg_val r))).
Proof. unfold sum64. change 0 with (u64 0) at 1. rewrite sum64_total, scan_total. done. Qed.

Lemma u64_cong a b : u64 a = u64 b ↔ ∃ q, a = b + q * 2^64.
Proof.
  unfold u64. split.
  - intros E. exists (a / 2^64 - b / 2^64). pose proof (Z.div_mod a (2^64)). pose proof (Z.div_mod b (2^64)). lia.
  - intros [q ->]. by rewrite Z.mod_add.
Qed.
Lemma u64_wrap a : ∃ q, u64 a = a + q * 2^64.
Proof. exists (- (a / 2^64)). unfold u64. pose proof (Z.div_mod a (2^64)). lia. Qed.

(** Changing one slot. *)
Lemma vol_insert lo hi slots s x y : slots !! s = Some x →
  vol lo hi (<[s := y]> slots) = vol lo hi slots - (if in_range lo hi x then x.2 else 0) + (if in_range lo hi y then y.2 else 0).
Proof.
  revert s. induction slots as [|z slots IH]; intros [|s] Hs; simplify_eq/=.
  - rewrite !vol_cons. lia.
  - rewrite !vol_cons, (IH s Hs). lia.
Qed.

Lemma zip_insert {A B} (l : list A) (k : list B) s x y : <[s := (x, y)]> (zip l k) = zip (<[s := x]> l) (<[s := y]> k).
Proof. apply insert_zip_with. Qed.

(** A ring of [n] slots after the puts of [log], all dated at most [top]: each slot is empty or holds a
    date of its place, and over any range that the ring still covers it weighs what the log does. *)
Definition ring_ok (n : nat) (top : Z) (log : list (Z * Z)) (r : ring) : Prop :=
  length (rg_date r) = n ∧ length (rg_val r) = n ∧
  (∀ s d v, rg_date r !! s = Some d → rg_val r !! s = Some v →
     (d = -1 ∧ v = 0) ∨ (0 ≤ d ≤ top ∧ d mod Z.of_nat n = Z.of_nat s)) ∧
  (∀ lo hi, top - Z.of_nat n < lo → u64 (vol lo hi (zip (rg_date r) (rg_val r))) = u64 (vol lo hi log)).

Lemma vol_replicate lo hi n : vol lo hi (zip (replicate n (-1)) (replicate n 0)) = 0.
Proof. induction n as [|n IH]; [done|]. simpl. rewrite vol_cons, IH. by destruct (in_range _ _ _). Qed.

Lemma new_ring_ok n : ring_ok n (-1) [] (new_ring n).
Proof.
  unfold ring_ok, new_ring. simpl. rewrite !length_replicate. split_and!; [done..| |].
  - intros s d v [-> _]%lookup_replicate [-> _]%lookup_replicate. by left.
  - intros lo hi _. by rewrite vol_replicate.
Qed.

Lemma ring_ok_weaken n top top' log r : top ≤ top' → ring_ok n top log r → ring_ok n top' log r.
Proof.
  intros Ht (L1 & L2 & HD & HV). split_and!; try done.
  - intros s d v Hd Hv. destruct (HD s d v Hd Hv) as [?|[? ?]]; [by left|right; split; [lia|done]].
  - intros lo hi Hlo. apply HV. lia.
Qed.

Lemma ring_put_ok n top log r k amount : (0 < n)%nat → 0 ≤ k → top - Z.of_nat n < k → ring_ok n top log r →
  ring_ok n (Z.max top k) ((k, amount) :: log) (ring_put k amount r).
Proof.
  intros Hn Hk Htop (L1 & L2 & HD & HV). unfold ring_put. rewrite L1, Z.rem_mod_nonneg by lia.
  set (s := Z.to_nat (k mod Z.of_nat n)).
  assert (Z.of_nat s = k mod Z.of_nat n ∧ (s < n)%nat) as [Hs Hsn].
  { pose proof (Z.mod_pos_bound k (Z.of_nat n)). subst s. lia. }
  destruct (lookup_lt_is_Some_2 (rg_date r) s) as [d Hd]; [lia|]. destruct (lookup_lt_is_Some_2 (rg_val r) s) as [v Hv]; [lia|].
  rewrite !list_lookup_total_alt, Hd, Hv. simpl.
  assert (zip (rg_date r) (rg_val r) !! s = Some (d, v)) as Hz by (apply lookup_zip_with_Some; by exists d, v).
  assert (∀ dates, length dates = n → (∀ s', s' ≠ s → dates !! s' = rg_date r !! s') → dates !! s = Some k → ∀ w s' d' v',
    dates !! s' = Some d' → <[s := w]> (rg_val r) !! s' = Some v' →
    (d' = -1 ∧ v' = 0) ∨ (0 ≤ d' ≤ Z.max top k ∧ d' mod Z.of_nat n = Z.of_nat s')) as HD'.
  { intros dates _ He Hk' w s' d' v' Hd' Hv'. destruct (decide (s' = s)) as [->|Hne].
    - rewrite Hk' in Hd'. injection Hd' as <-. right. split; [lia|done].
    - rewrite list_lookup_insert_ne in Hv' by done. rewrite He in Hd' by done.
      destruct (HD s' d' v' Hd' Hv') as [?|[? ?]]; [by left|right; split; [lia|done]]. }
  destruct (Z.eqb_spec d k) as [->|Hdk].
  - unfold ring_ok. simpl. split_and!; [done|by rewrite length_insert|intros s' d' v'; by apply (HD' (rg_date r))|].
    intros lo hi Hlo. rewrite vol_cons. 
    replace (zip (rg_date r) (<[s:=u64 (v + amount)]> (rg_val r))) with (<[s := (k, u64 (v + amount))]> (zip (rg_date r) (rg_val r)))
      by (rewrite zip_insert, (list_insert_id (rg_date r)); done).
    rewrite (vol_insert _ _ _ _ _ _ Hz). specialize (HV lo hi ltac:(lia)). unfold in_range; simpl.
    apply u64_cong in HV as [q HV]. destruct (u64_wrap (v + amount)) as [q' ->]. apply u64_cong.
    destruct ((lo <=? k) && (k <=? hi)); [exists (q + q')|exists q]; lia.
  - unfold ring_ok. simpl. rewrite !length_insert. split_and!; [done..| |].
    + intros s' d' v'. apply (HD' (<[s := k]> (rg_date r))); [by rewrite length_insert|
        intros; by rewrite list_lookup_insert_ne|by rewrite list_lookup_insert_eq by lia].
    + intros lo hi Hlo. rewrite vol_cons, <-zip_insert, (vol_insert _ _ _ _ _ _ Hz). specialize (HV lo hi ltac:(lia)).
      assert ((if in_range lo hi (d, v) then v else 0) = 0) as E0.
      { destruct (HD s d v Hd Hv) as [[-> ->]|[Hr Hm]]; [by destruct (in_range _ _ _)|].
        unfold in_range. simpl. destruct (Z.leb_spec lo d); [|done]. exfalso.
        assert (d ≤ k - Z.of_nat n) as Hle; [|lia]. rewrite Hs in Hm. clear -Hm Hdk Hr Htop Hn Hk.
        pose proof (Z.div_mod d (Z.of_nat n)). pose proof (Z.div_mod k (Z.of_nat n)).
        assert (d / Z.of_nat n < k / Z.of_nat n) as Hq; [|nia].
        destruct (Z.lt_total (d / Z.of_nat n) (k / Z.of_nat n)) as [?|[?|?]]; [done|nia|nia]. }
      cbn [snd]. rewrite E0. apply u64_cong in HV as [q HV]. destruct (u64_wrap (0 + amount)) as [q' ->]. apply u64_cong.
      unfold in_range. cbn [fst]. destruct ((lo <=? k) && (k <=? hi)); [exists (q + q')|exists q]; lia.
Qed.

(** ** Profiles *)

Definition by_hour (log : list (Z * Z)) : list (Z * Z) := (λ x, (x.1 / 60, x.2)) <$> log.

(** A profile after the bytes of [log], when the latest minute is [wm]. The hours already in their
    ring are dated at most a day after the hour being filled. *)
Definition profile_ok (wm : Z) (log : list (Z * Z)) (p : entityProfile) : Prop :=
  0 ≤ wm ∧ ring_ok ring24Slots wm log (ep_min p) ∧
  ∃ H committed, ring_ok ring7Slots H committed (ep_hour p) ∧ H ≤ wm / 60 ∧ ep_curHour p ≤ wm / 60 ∧
    (ep_curHour p = -1 ∧ committed = [] ∧ log = [] ∧ ep_curHourBytes p = 0 ∨
     0 ≤ ep_curHour p ∧ H ≤ ep_curHour p + 24) ∧
    ∀ lo hi, wm / 60 - Z.of_nat ring7Slots < lo →
      u64 (vol lo hi committed + (if in_range lo hi (ep_curHour p, 0) then ep_curHourBytes p else 0)) = u64 (vol lo hi (by_hour log)).

Lemma profile_ok_later wm wm' log p : wm ≤ wm' → profile_ok wm log p → profile_ok wm' log p.
Proof.
  intros Hw (H0' & HR & H & committed & HH & HH1 & HC & HC' & HV). assert (wm / 60 ≤ wm' / 60) by (apply Z.div_le_mono; lia).
  split_and!; [lia|by eapply ring_ok_weaken|]. exists H, committed. split_and!; [done|lia..|done|]. intros lo hi Hlo. apply HV. lia.
Qed.

Lemma newEntityProfile_ok wm : 0 ≤ wm → profile_ok wm [] newEntityProfile.
Proof.
  intros Hw. assert (0 ≤ wm / 60) by (apply Z.div_pos; lia). split_and!; [done| |].
  - apply ring_ok_weaken with (-1); [lia|]. apply new_ring_ok.
  - exists (-1), []. split_and!; [apply new_ring_ok|simpl; lia..|by left|]. intros lo hi _. simpl.
    destruct (in_range _ _ _); done.
Qed.

Lemma add_bytes_ok wm log p m amount : 0 ≤ m → wm - Z.of_nat ring24Slots < m ≤ wm → profile_ok wm log p →
  profile_ok wm ((m, amount) :: log) (add_bytes m amount p).
Proof.
  intros Hm Hlive (Hw & HR & H & committed & HH & HH1 & HC & HC' & HV).
  assert (Z.quot m 60 = m / 60) as Eh by (apply Z.quot_div_nonneg; lia).
  assert (0 ≤ m / 60 ∧ m / 60 ≤ wm / 60 ∧ wm / 60 ≤ m / 60 + 24) as (Hh0 & Hh1 & Hh2).
  { unfold ring24Slots in Hlive. split_and!; [apply Z.div_pos; lia|apply Z.div_le_mono; lia|].
    replace (m / 60 + 24) with ((m + 24 * 60) / 60) by (rewrite Z.div_add; lia). apply Z.div_le_mono; lia. }
  unfold add_bytes. cbn zeta. rewrite Eh. split_and!; [done| |].
  { destruct (_ && _); simpl; apply ring_ok_weaken with (Z.max wm m); try lia; apply ring_put_ok; try done; unfold ring24Slots in *; lia. }
  assert (∀ lo hi, vol lo hi (by_hour ((m, amount) :: log)) =
    (if in_range lo hi (m / 60, 0) then amount else 0) + vol lo hi (by_hour log)) as EV by (intros; apply vol_cons).
  assert (∀ lo hi c x, in_range lo hi (c, x) = in_range lo hi (c, 0)) as EI by done.
  destruct HC' as [(Ec & -> & -> & Eb)|[Hc0 HHc]].
  - rewrite Ec, Eb. cbn -[Z.div u64 vol in_range]. exists H, []. split_and!; [done|lia..|right; lia|].
    intros lo hi Hlo. rewrite EV. change (vol lo hi []) with 0. change (vol lo hi (by_hour [])) with 0.
    destruct (u64_wrap (0 + amount)) as [q ->]. apply u64_cong. destruct (in_range _ _ _); [exists q|exists 0]; lia.
  - cbn [ep_curHour]. rewrite (proj2 (Z.leb_le _ _) Hc0). simpl andb. destruct (Z.eqb_spec (m / 60) (ep_curHour p)) as [E|E].
    + cbn -[Z.div u64 vol in_range]. exists H, committed. split_and!; [done|lia..|right; lia|]. intros lo hi Hlo. rewrite EV.
      specialize (HV lo hi Hlo). apply u64_cong in HV as [q HV]. destruct (u64_wrap (ep_curHourBytes p + amount)) as [q' ->].
      rewrite <-E in HV. apply u64_cong. destruct (in_range _ _ _); [exists (q + q')|exists q]; lia.
    + cbn -[Z.div u64 vol in_range ring_put]. exists (Z.max H (ep_curHour p)), ((ep_curHour p, ep_curHourBytes p) :: committed).
      split_and!; [|lia..|right; lia|].
      { apply ring_put_ok; [unfold ring7Slots; lia|done|unfold ring7Slots; lia|done]. }
      intros lo hi Hlo. rewrite EV, vol_cons, EI. specialize (HV lo hi Hlo). apply u64_cong in HV as [q HV].
      destruct (u64_wrap (0 + amount)) as [q' ->]. apply u64_cong. cbn [snd] in *.
      destruct (in_range lo hi (m / 60, 0)); [exists (q + q')|exists q]; lia.
Qed.

(** The two sums of an evaluation. *)
Lemma fresh_sums wm t log p : profile_ok wm log p → wm ≤ t →
  sum64 (fresh24 t p) = u64 (vol (t - 1439) t log) ∧
  fresh7 t p = u64 (vol (t / 60 - 167) (t / 60) (by_hour log)).
Proof.
  intros (Hw & (_ & _ & _ & HR) & H & committed & (_ & _ & _ & HH) & HH1 & HC & HC' & HV) Ht.
  assert (wm / 60 ≤ t / 60) by (apply Z.div_le_mono; lia). unfold fresh24, fresh7, ring24Slots, ring7Slots in *.
  rewrite !sum64_scan. rewrite Z.quot_div_nonneg by lia. change (Z.of_nat 168) with 168 in *. change (Z.of_nat 1440) with 1440 in *.
  replace (t - 1440 + 1) with (t - 1439) by lia. replace (t / 60 - 168 + 1) with (t / 60 - 167) by lia.
  split; [apply HR; lia|]. rewrite HH by lia. rewrite <-HV by lia.
  change (_ && _) with (in_range (t / 60 - 167) (t / 60) (ep_curHour p, 0)). destruct (in_range _ _ _); [|by rewrite Z.add_0_r].
  unfold u64. by rewrite Z.add_mod_idemp_l.
Qed.

(** *** What does not touch the rings *)

Definition same_rings (p p' : entityProfile) : Prop :=
  rg_date (ep_min p') = rg_date (ep_min p) ∧ rg_val (ep_min p') = rg_val (ep_min p) ∧
  rg_date (ep_hour p') = rg_date (ep_hour p) ∧ rg_val (ep_hour p') = rg_val (ep_hour p) ∧
  ep_curHour p' = ep_curHour p ∧ ep_curHourBytes p' = ep_curHourBytes p.

#[global] Instance same_rings_trans : Transitive same_rings.
Proof. intros p q r (?&?&?&?&?&?) (?&?&?&?&?&?). split_and!; congruence. Qed.

Lemma same_rings_ok wm log p p' : same_rings p p' → profile_ok wm log p → profile_ok wm log p'.
Proof.
  unfold profile_ok, ring_ok. intros (E1 & E2 & E3 & E4 & E5 & E6). rewrite E1, E2, E3, E4, E5, E6. done.
Qed.

Lemma ema_loop_rings n j p : same_rings p (ema_loop n j p).
Proof.
  revert j p. induction n as [|n IH]; intros j p; [done|]. cbn [ema_loop]. etrans; [|apply IH]. done.
Qed.

Lemma advanceEMA_rings t p : same_rings p (advanceEMA t p).
Proof.
  unfold advanceEMA. destruct (_ <? _); [done|]. destruct (_ <=? _); [done|]. destruct (_ <? _).
  - apply (ema_loop_rings _ _ (set_ema (t - 1) 0 0 0 p)).
  - apply ema_loop_rings.
Qed.

Section runs.
Context `{Crypto, Env}.

(** The state of the detector but for its counters and the profile of [k]. *)
Definition only_profile (k : bytes) (d d' : Detector) : Prop :=
  dt_producer d' = dt_producer d ∧ dt_params d' = dt_params d ∧ dt_onAlert d' = dt_onAlert d ∧ dt_window d' = dt_window d ∧ dt_maxEnt d' = dt_maxEnt d ∧
  dt_watermark d' = dt_watermark d ∧ ∀ k', k' ≠ k → dt_entities d' !! k' = dt_entities d !! k'.

Lemma fireAlert_rings ck t k p score sg s24 s7 d tr :
  let '(_, d', _) := fireAlert ck t k p score sg s24 s7 d tr in
  only_profile k d d' ∧ ∃ p', dt_entities d' !! k = Some p' ∧ same_rings p p'.
Proof.
  unfold fireAlert. destruct (appendLeaf _ _ _ _ _) as [[e|] t1]; (split; [split_and!; try done; intros; by apply lookup_insert_ne|]);
    (eexists; split; [apply lookup_insert_eq|done]).
Qed.

Lemma evaluate_rings ck t k p d tr :
  let '(_, d', _) := evaluate_entity ck t k p d tr in
  only_profile k d d' ∧ ∃ p', dt_entities d' !! k = Some p' ∧ same_rings p p'.
Proof.
  assert (∀ p3 score sg, same_rings p p3 →
    let '(_, d', _) := (if negb (ep_alerted p3) && (sp_AlertThreshold (dt_params d) <=? score)
                        then fireAlert ck t k p3 score sg (sum64 (fresh24 t p)) (fresh7 t p) d tr
                        else (None, set_profile k p3 d, tr)) in
    only_profile k d d' ∧ ∃ p', dt_entities d' !! k = Some p' ∧ same_rings p p') as HX.
  { intros p3 score sg HR. destruct (_ && _).
    - pose proof (fireAlert_rings ck t k p3 score sg (sum64 (fresh24 t p)) (fresh7 t p) d tr) as HF.
      destruct (fireAlert _ _ _ _ _ _ _ _ _ _) as [[e d'] tr']. destruct HF as [HO (p' & Hp' & HS)]. split; [done|].
      exists p'. split; [done|]. by etrans.
    - split; [split_and!; try done; intros; by apply lookup_insert_ne|]. exists p3. split; [apply lookup_insert_eq|done]. }
  unfold evaluate_entity. cbn zeta. apply HX. by repeat case_match.
Qed.

Lemma seal_entity_rings ck t k p d tr :
  let '(_, d', _) := seal_entity ck t k p d tr in
  only_profile k d d' ∧ ∃ p', dt_entities d' !! k = Some p' ∧ same_rings p p'.
Proof.
  unfold seal_entity. destruct (_ && _).
  - split; [split_and!; try done; intros; by apply lookup_insert_ne|]. eexists. split; [apply lookup_insert_eq|done].
  - pose proof (evaluate_rings ck t k (advanceEMA t p) (count_det CEvaluations d) tr) as HE.
    destruct (evaluate_entity _ _ _ _ _ _) as [[e d'] tr']. destruct HE as [HO (p' & Hp' & HS)]. split; [done|].
    exists p'. split; [done|]. etrans; [apply advanceEMA_rings|done].
Qed.

(** The logs of the destinations and their profiles. *)
Definition det_ok (logs : gmap bytes (list (Z * Z))) (d : Detector) : Prop :=
  millisecond ≤ dt_window d ∧ (dt_watermark d < 0 → dt_entities d = ∅) ∧
  ∀ k, match dt_entities d !! k, logs !! k with
       | Some p, Some log => profile_ok (dt_watermark d) log p
       | None, None => True
       | _, _ => False
       end.

Lemma det_ok_profile logs d d' k p p' : det_ok logs d → dt_entities d !! k = Some p → only_profile k d d' →
  dt_entities d' !! k = Some p' → same_rings p p' → det_ok logs d'.
Proof.
  intros (HW & HE & HL) Hp (_ & _ & _ & EW & _ & EM & HO) Hp' HS. split_and!.
  - by rewrite EW.
  - rewrite EM. intros Hneg. rewrite (HE Hneg) in Hp. by rewrite lookup_empty in Hp.
  - intros k'. rewrite EM. destruct (decide (k' = k)) as [->|Hne]; [|rewrite HO by done; apply HL].
    specialize (HL k). rewrite Hp in HL. rewrite Hp'. destruct (logs !! k); [|done]. by eapply same_rings_ok.
Qed.

Lemma seal_loop_ok clk t keys d tr logs : det_ok logs d →
  let '(_, d', _) := seal_loop clk t keys d tr in
  det_ok logs d' ∧ dt_watermark d' = dt_watermark d ∧ dt_window d' = dt_window d ∧ dt_maxEnt d' = dt_maxEnt d ∧
  dt_producer d' = dt_producer d ∧ dt_params d' = dt_params d ∧ dom (dt_entities d') = dom (dt_entities d).
Proof.
  revert d tr. induction keys as [|k keys IH]; intros d tr HD; simpl; [done|].
  destruct (dt_entities d !! k) as [p|] eqn:Hp; [|by apply IH].
  pose proof (seal_entity_rings (clk k) t k p d tr) as HE. destruct (seal_entity _ _ _ _ _ _) as [[e d1] t1].
  destruct HE as [HO (p' & Hp' & HS)]. specialize (IH d1 t1 (det_ok_profile _ _ _ _ _ _ HD Hp HO Hp' HS)).
  destruct (seal_loop _ _ _ _ _) as [[e2 d2] t2]. destruct IH as (HD2 & E1 & E2 & E3 & E4 & E6 & E5).
  destruct HO as (EP & EQ & _ & EW & EX & EM & HO). split_and!; [done|congruence..|]. rewrite E5. apply set_eq. intros k'.
  rewrite !elem_of_dom. destruct (decide (k' = k)) as [->|]; [|by rewrite HO]. by rewrite Hp, Hp'.
Qed.

(** ** The abstract meter *)

(** What the detector promises to measure: the latest minute, and for each tracked destination the
    log of its bytes by minute. *)
Record meter := mkMeter { mt_wm : Z; mt_logs : gmap bytes (list (Z * Z)) }.

Definition meter_feed (maxEnt m delta : Z) (k : bytes) (s : meter) : meter :=
  let wm := Z.max (mt_wm s) m in
  mkMeter wm
    (if m <=? wm - Z.of_nat ring24Slots then mt_logs s
     else match mt_logs s !! k with
          | Some log => <[k := (m, delta) :: log]> (mt_logs s)
          | None => if maxEnt <=? Z.of_nat (size (mt_logs s)) then mt_logs s else <[k := [(m, delta)]]> (mt_logs s)
          end).

Definition refines (s : meter) (d : Detector) : Prop := det_ok (mt_logs s) d ∧ dt_watermark d = mt_wm s.

Lemma det_ok_dom logs d : det_ok logs d → dom (dt_entities d) = dom logs.
Proof.
  intros (_ & _ & HL). apply set_eq. intros k. rewrite !elem_of_dom. specialize (HL k).
  destruct (dt_entities d !! k), (logs !! k); by try destruct HL.
Qed.

Lemma det_ok_size logs d : det_ok logs d → size (dt_entities d) = size logs.
Proof. intros HD. rewrite <-!(size_dom (D := gset bytes)). by rewrite (det_ok_dom logs d HD). Qed.

Lemma det_ok_count c logs d : det_ok logs d → det_ok logs (count_det c d).
Proof. done. Qed.

Lemma det_ok_later logs d wm : 0 ≤ wm → dt_watermark d ≤ wm → det_ok logs d → det_ok logs (set_watermark wm d).
Proof.
  intros H0' Hw (HW & HE & HL). split_and!; [done|simpl; lia|]. intros k. simpl. specialize (HL k).
  destruct (dt_entities d !! k), (logs !! k); try done. by eapply profile_ok_later.
Qed.

Lemma det_ok_insert logs d k p log : 0 ≤ dt_watermark d → profile_ok (dt_watermark d) log p → det_ok logs d →
  det_ok (<[k := log]> logs) (set_profile k p d).
Proof.
  intros H0' Hp (HW & HE & HL). split_and!; [done|simpl; lia|]. intros k'. simpl.
  destruct (decide (k' = k)) as [->|Hne]; [by rewrite !lookup_insert_eq|]. rewrite !lookup_insert_ne by done. apply HL.
Qed.

Lemma record_bytes_refines m delta k s d tr : 0 ≤ m ≤ mt_wm s → refines s d →
  refines (meter_feed (dt_maxEnt d) m delta k s) (record_bytes m delta k d tr).1.
Proof.
  intros Hm [HD Ew]. pose proof (proj2 (proj2 HD) k) as HK. unfold refines, record_bytes, meter_feed.
  rewrite Z.max_l by lia. rewrite Ew. simpl. destruct (Z.leb_spec m (mt_wm s - Z.of_nat ring24Slots)); [done|].
  rewrite (det_ok_size _ _ HD). destruct (dt_entities d !! k) as [p|] eqn:Hp, (mt_logs s !! k) as [log|]; try done.
  - split; [|done]. apply det_ok_insert; [lia| |done]. apply add_bytes_ok; [lia..|done].
  - destruct (_ <=? _); [done|]. split; [|done]. apply det_ok_insert; [simpl; lia| |done].
    apply add_bytes_ok; [simpl; lia..|]. apply newEntityProfile_ok. simpl. lia.
Qed.

(** What one record means to the meter. *)
Definition meter_record (d : Detector) (r : FlowRecord) (s : meter) : meter :=
  if (fr_OctetDelta r =? 0) || (fr_FlowEnd r <=? 0) then s
  else meter_feed (dt_maxEnt d) (fr_FlowEnd r / Milliseconds (dt_window d)) (fr_OctetDelta r)
         (hashDestination (p_salt (dt_producer d)) (fr_Resource r)) s.

(** The configuration of a detector. *)
Definition same_settings (d d' : Detector) : Prop :=
  dt_window d' = dt_window d ∧ dt_maxEnt d' = dt_maxEnt d ∧ dt_producer d' = dt_producer d ∧ dt_params d' = dt_params d.

Lemma det_sealLocked_refines clk t s d tr : refines s d →
  let '(_, d', _) := det_sealLocked clk t d tr in refines s d' ∧ same_settings d d'.
Proof.
  intros [HD Ew]. unfold det_sealLocked.
  pose proof (seal_loop_ok clk t (merge_sort bytes_le (elements (dom (dt_entities d)))) d tr _ HD) as HS.
  destruct (seal_loop _ _ _ _ _) as [[e d'] t']. destruct HS as (HD' & E1 & E2 & E3 & E4 & E5 & _). split; [split; [done|congruence]|done].
Qed.

Lemma record_bytes_config m delta k d tr : same_settings d (record_bytes m delta k d tr).1.
Proof. unfold record_bytes. by repeat case_match. Qed.

(** The seal of the minutes before [m]. *)
Lemma advance_refines clk m s d tr : 0 ≤ m → refines s d →
  let '(_, d', _) := (if dt_watermark d <? m then
                        let '(e, d2, t2) := det_sealLocked clk (m - 1) d tr in (e, set_watermark m d2, t2)
                      else (None, d, tr)) in
  refines (mkMeter (Z.max (mt_wm s) m) (mt_logs s)) d' ∧ same_settings d d'.
Proof.
  intros Hm HR. destruct (Z.ltb_spec (dt_watermark d) m) as [Hlt|Hge].
  - pose proof (det_sealLocked_refines clk (m - 1) s d tr HR) as HS. destruct (det_sealLocked _ _ _ _) as [[e d2] t2].
    destruct HS as [[HD2 Ew2] HC]. destruct HR as [_ Ew]. split; [|done]. split; [|simpl; lia]. apply det_ok_later; [done|lia|done].
  - split; [|done]. destruct HR as [HD Ew]. split; [done|]. simpl. lia.
Qed.

Lemma same_settings_trans d1 d2 d3 : same_settings d1 d2 → same_settings d2 d3 → same_settings d1 d3.
Proof. intros (? & ? & ? & ?) (? & ? & ? & ?). split_and!; congruence. Qed.

Lemma det_Feed_refines clk r s d tr : refines s d →
  let '(_, d', _) := det_Feed clk r d tr in refines (meter_record d r s) d' ∧ same_settings d d'.
Proof.
  intros HR. unfold det_Feed, meter_record. destruct (fr_OctetDelta r =? 0); [done|]. cbn [orb].
  destruct (Z.leb_spec (fr_FlowEnd r) 0) as [|Hpos]; [done|].
  assert (0 < Milliseconds (dt_window d)) as Hms.
  { destruct HR as [(HW & _) _]. unfold Milliseconds. rewrite Z.quot_div_nonneg by (unfold millisecond in *; lia).
    apply Z.div_str_pos. unfold millisecond in *. lia. }
  rewrite Z.quot_div_nonneg by lia. set (m := fr_FlowEnd r / _). cbn zeta.
  assert (0 ≤ m) as Hm0 by (apply Z.div_pos; lia). set (k := hashDestination _ _).
  set (d1 := if dt_watermark (count_det CRecordsIn d) <? 0 then set_watermark m (count_det CRecordsIn d) else count_det CRecordsIn d).
  set (s1 := mkMeter (if mt_wm s <? 0 then m else mt_wm s) (mt_logs s)).
  assert (refines s1 d1 ∧ same_settings d d1) as [HR1 HC1].
  { subst s1 d1. destruct HR as [HD Ew]. cbn [dt_watermark count_det]. rewrite Ew.
    destruct (Z.ltb_spec (mt_wm s) 0); [|done]. split; [|done]. split; [|done]. apply det_ok_later; [done|simpl; lia|done]. }
  pose proof (advance_refines clk m s1 d1 tr Hm0 HR1) as HA.
  destruct (if dt_watermark d1 <? m then _ else _) as [[e d2] t2]. destruct HA as [HR2 HC2].
  pose proof (record_bytes_refines m (fr_OctetDelta r) k (mkMeter (Z.max (mt_wm s1) m) (mt_logs s1)) d2 t2 (conj Hm0 (Z.le_max_r _ _)) HR2) as HR3.
  pose proof (record_bytes_config m (fr_OctetDelta r) k d2 t2) as HC3.
  destruct (record_bytes _ _ _ _ _) as [d3 t3]. assert (same_settings d d2) as HC by by eapply same_settings_trans.
  split; [|by eapply same_settings_trans]. replace (dt_maxEnt d2) with (dt_maxEnt d) in HR3 by (symmetry; apply HC).
  replace (meter_feed (dt_maxEnt d) m (fr_OctetDelta r) k s) with
    (meter_feed (dt_maxEnt d) m (fr_OctetDelta r) k (mkMeter (Z.max (mt_wm s1) m) (mt_logs s1))); [done|].
  unfold meter_feed. simpl. replace (Z.max (Z.max _ m) m) with (Z.max (mt_wm s) m); [done|]. destruct (Z.ltb_spec (mt_wm s) 0); lia.
Qed.

(** ** Runs *)

Inductive det_op := OpFeed (clk : bytes → Z * Z) (r : FlowRecord) | OpFlush (clk : bytes → Z * Z).

Definition det_step (o : det_op) (x : Detector * trace) : Detector * trace :=
  let '(_, d, tr) := match o with OpFeed clk r => det_Feed clk r x.1 x.2 | OpFlush clk => Flush clk x.1 x.2 end in (d, tr).

Definition det_run (ops : list det_op) (x : Detector * trace) : Detector * trace := foldl (λ x o, det_step o x) x ops.

Definition meter_run (d : Detector) (ops : list det_op) : meter :=
  foldl (λ s o, match o with OpFeed _ r => meter_record d r s | OpFlush _ => s end) (mkMeter (-1) ∅) ops.

Lemma det_step_refines o s x : refines s x.1 →
  refines (match o with OpFeed _ r => meter_record x.1 r s | OpFlush _ => s end) (det_step o x).1 ∧ same_settings x.1 (det_step o x).1.
Proof.
  intros HR. unfold det_step. destruct o as [clk r|clk].
  - pose proof (det_Feed_refines clk r s x.1 x.2 HR) as HF. by destruct (det_Feed _ _ _ _) as [[e d'] t'].
  - unfold Flush. destruct (_ <? 0); [done|]. pose proof (det_sealLocked_refines clk (dt_watermark x.1) s x.1 x.2 HR) as HF.
    by destruct (det_sealLocked _ _ _ _) as [[e d'] t'].
Qed.

Lemma meter_record_config d d' r s : same_settings d d' → meter_record d' r s = meter_record d r s.
Proof. intros (E1 & E2 & E3 & _). unfold meter_record. by rewrite E1, E2, E3. Qed.

Lemma det_run_refines d tr ops : refines (mkMeter (-1) ∅) d →
  refines (meter_run d ops) (det_run ops (d, tr)).1 ∧ same_settings d (det_run ops (d, tr)).1.
Proof.
  intros HR. unfold meter_run, det_run. induction ops as [|o ops IH] using rev_ind; [done|]. rewrite !foldl_app. simpl.
  destruct IH as [IH HC]. pose proof (det_step_refines o _ _ IH) as [HS HC']. split; [|by eapply same_settings_trans].
  destruct o as [clk r|clk]; [|done]. by rewrite (meter_record_config d) in HS.
Qed.

Lemma new_detector_refines cellID salt leaves journal pm window maxE onA onT d :
  NewDetector cellID salt leaves journal pm window maxE onA onT = inr d → refines (mkMeter (-1) ∅) d.
Proof.
  unfold NewDetector. cbn zeta. destruct (bool_decide _); [done|]. destruct (_ <? 16)%nat; [done|]. destruct (negb _); [done|].
  destruct (params_invalid _); [done|]. destruct (Z.ltb_spec (if window =? 0 then defaultDetWindow else window) millisecond); [done|].
  destruct (_ <? 0); [done|]. intros [= <-]. split; [|done]. split_and!; simpl; [done|done|].
  intros k. by rewrite !lookup_empty.
Qed.

(** ** Alerts *)

(** The alert of [k] at minute [t] with its two sums is in the registry and was called back. *)
Definition alert_traced (d : Detector) (t : Z) (k : bytes) (s24 s7 : Z) (tr : trace) : Prop :=
  ∃ score sg fast slow paramsH (ck : Z * Z),
    Z.land sg sigBytes ≠ 0 ∧ sp_AlertThreshold (dt_params d) ≤ score ∧
    leaf_for (dt_producer d) KindTelemetryAlert
      (alertManifest (p_cellID (dt_producer d)) (sp_Version (dt_params d)) (mkDribbleAlert k t score sg s24 s7) fast slow paramsH
         (UnixMilli ck.1)) (UnixNano ck.2) ∈ leaves_of tr ∧
    (dt_onAlert d = true → EvDribble k t score sg s24 s7 ∈ tr).

(** The weights are 16-bit unsigned integers. *)
Definition weights_typed (pm : ScoreParams) : Prop := 0 ≤ sp_WBytes pm ∧ 0 ≤ sp_WRegularity pm ∧ 0 ≤ sp_WDrift pm.

Definition heavy (pm : ScoreParams) (s24 s7 : Z) : Prop := sp_ByteThreshold24h pm < s24 ∨ sp_ByteThreshold7d pm < s7.

Lemma heavy_signal pm p values s24 s7 : heavy pm s24 s7 → Z.land (signals pm p values s24 s7) sigBytes ≠ 0.
Proof.
  intros HH. unfold signals. replace ((_ <? s24) || (_ <? s7)) with true; [by repeat case_match|].
  symmetry. apply orb_true_iff. rewrite !Z.ltb_lt. exact HH.
Qed.

Lemma heavy_score pm sg : params_invalid pm = false → weights_typed pm → Z.land sg sigBytes ≠ 0 → sp_WBytes pm ≤ score_of pm sg.
Proof.
  unfold params_invalid. rewrite !orb_false_iff. intros HI (W1 & W2 & W3) HS. assert (sp_WBytes pm + sp_WRegularity pm + sp_WDrift pm ≤ 1000) as HW.
  { apply Z.ltb_ge. tauto. }
  unfold score_of, u16. rewrite (proj2 (Z.eqb_neq _ _) HS).
  set (r := if Z.land sg sigRegularity =? 0 then 0 else sp_WRegularity pm). set (q := if Z.land sg sigDrift =? 0 then 0 else sp_WDrift pm).
  assert (0 ≤ r ≤ sp_WRegularity pm ∧ 0 ≤ q ≤ sp_WDrift pm) as [Hr Hq] by (subst r q; repeat case_match; lia).
  rewrite (Z.mod_small (0 + _)) by lia. rewrite (Z.mod_small (_ + r)) by lia. rewrite Z.mod_small by lia. lia.
Qed.

Lemma same_rings_fresh t p p' : same_rings p p' → fresh24 t p' = fresh24 t p ∧ fresh7 t p' = fresh7 t p.
Proof.
  intros (E1 & E2 & E3 & E4 & E5 & E6). unfold fresh24, fresh7, ring_scan. by rewrite E1, E2, E3, E4, E5, E6.
Qed.

Lemma ema_loop_alerted n j p : ep_alerted (ema_loop n j p) = ep_alerted p.
Proof. revert j p. induction n as [|n IH]; intros j p; [done|]. cbn [ema_loop]. by rewrite IH. Qed.

Lemma advanceEMA_alerted t p : ep_alerted (advanceEMA t p) = ep_alerted p.
Proof.
  unfold advanceEMA. destruct (_ <? _); [done|]. destruct (_ <=? _); [done|]. destruct (_ <? _).
  - apply (ema_loop_alerted _ _ (set_ema (t - 1) 0 0 0 p)).
  - apply ema_loop_alerted.
Qed.

Lemma fireAlert_traced ck t k p score sg s24 s7 d tr : Z.land sg sigBytes ≠ 0 → sp_AlertThreshold (dt_params d) ≤ score →
  let '(e, d', tr') := fireAlert ck t k p score sg s24 s7 d tr in is_Some e ∨ alert_traced d t k s24 s7 tr'.
Proof.
  intros HS HT. unfold fireAlert.
  match goal with |- context [appendLeaf ?p ?kd ?r ?ts ?t] => pose proof (appendLeaf_observed p kd r ts t) as HO end.
  destruct (appendLeaf _ _ _ _ _) as [[e|] t1]; [left; by eexists|]. destruct HO as [HL _]. right.
  exists score, sg, (ep_emaFast p), (ep_emaSlow p), (dt_paramsH d), ck. split_and!; [done..| |].
  - destruct (dt_onAlert d); rewrite ?leaves_of_app, HL; set_solver.
  - intros ->. apply elem_of_app. right. apply list_elem_of_singleton. done.
Qed.

Lemma seal_entity_traced ck t k p d tr : params_invalid (dt_params d) = false → weights_typed (dt_params d) →
  sp_AlertThreshold (dt_params d) ≤ sp_WBytes (dt_params d) → ep_alerted p = false → (rg_sum (ep_min p) ≠ 0 ∨ ep_emaFast p ≠ 0) →
  heavy (dt_params d) (sum64 (fresh24 t p)) (fresh7 t p) →
  let '(e, d', tr') := seal_entity ck t k p d tr in is_Some e ∨ alert_traced d t k (sum64 (fresh24 t p)) (fresh7 t p) tr'.
Proof.
  intros HI HW HT HA HN HH. unfold seal_entity.
  replace ((rg_sum (ep_min p) =? 0) && (ep_emaFast p =? 0)) with false by (symmetry; apply andb_false_iff; rewrite !Z.eqb_neq; tauto).
  destruct (same_rings_fresh t _ _ (advanceEMA_rings t p)) as [E1 E2]. unfold evaluate_entity. cbn zeta. rewrite E1, E2.
  match goal with |- context [signals ?a ?b ?c ?d ?e] => set (sg := signals a b c d e); pose proof (heavy_signal a b c d e HH) as HS end.
  fold sg in HS. pose proof (heavy_score _ _ HI HW HS) as HC. cbn [dt_params count_det].
  match goal with |- context [if negb (ep_alerted ?q) && _ then _ else _] => set (p3 := q) end.
  assert (ep_alerted p3 = false) as E3.
  { subst p3. pose proof (advanceEMA_alerted t p) as EA. rewrite HA in EA. repeat case_match; simpl in *; congruence. }
  rewrite E3. replace (sp_AlertThreshold (dt_params d) <=? score_of (dt_params d) sg) with true by (symmetry; apply Z.leb_le; lia).
  simpl andb. apply (fireAlert_traced ck t k p3 _ sg _ _ (count_det CEvaluations d) tr HS). simpl. lia.
Qed.

Lemma alert_traced_mono d d' t k s24 s7 tr tr' : dt_producer d' = dt_producer d → dt_params d' = dt_params d →
  dt_onAlert d' = dt_onAlert d → tr `prefix_of` tr' → alert_traced d' t k s24 s7 tr → alert_traced d t k s24 s7 tr'.
Proof.
  intros E1 E2 E3 [x ->] (score & sg & fast & slow & h & ck & HS & HT & HL & HE). rewrite E1, E2, E3 in *.
  exists score, sg, fast, slow, h, ck. split_and!; [done..| |].
  - rewrite leaves_of_app. apply elem_of_app. by left.
  - intros HA. apply elem_of_app. left. by apply HE.
Qed.

Lemma seal_entity_prefix ck t k p d tr : tr `prefix_of` (seal_entity ck t k p d tr).2.
Proof.
  unfold seal_entity. destruct (_ && _); [done|]. unfold evaluate_entity. cbn zeta. destruct (_ && _); [|done]. unfold fireAlert.
  match goal with |- context [appendLeaf ?p ?kd ?r ?ts ?t] => pose proof (appendLeaf_prefix p kd r ts t) as HP end.
  destruct (appendLeaf _ _ _ _ _) as [[e|] t1]; simpl in *; unfold call_alarm; case_match; try done; by apply prefix_app_r.
Qed.

Lemma seal_loop_prefix clk t keys d tr : tr `prefix_of` (seal_loop clk t keys d tr).2.
Proof.
  revert d tr. induction keys as [|k keys IH]; intros d tr; [done|]. cbn [seal_loop]. destruct (dt_entities d !! k) as [p|]; [|apply IH].
  pose proof (seal_entity_prefix (clk k) t k p d tr) as HP. destruct (seal_entity _ _ _ _ _ _) as [[e d1] t1]. specialize (IH d1 t1).
  destruct (seal_loop _ _ _ _ _) as [[e2 d2] t2]. by etrans.
Qed.

Lemma seal_loop_traced clk t keys k p d tr : NoDup keys → k ∈ keys → dt_entities d !! k = Some p →
  params_invalid (dt_params d) = false → weights_typed (dt_params d) →
  sp_AlertThreshold (dt_params d) ≤ sp_WBytes (dt_params d) → ep_alerted p = false → (rg_sum (ep_min p) ≠ 0 ∨ ep_emaFast p ≠ 0) →
  heavy (dt_params d) (sum64 (fresh24 t p)) (fresh7 t p) →
  let '(e, d', tr') := seal_loop clk t keys d tr in is_Some e ∨ alert_traced d t k (sum64 (fresh24 t p)) (fresh7 t p) tr'.
Proof.
  intros HN Hk Hp HI HW HT HA HNZ HH. revert d tr Hp HI HW HT HH. induction HN as [|k1 keys Hn HN IH]; intros d tr Hp HI HW HT HH;
    [by apply elem_of_nil in Hk|].
  cbn [seal_loop]. destruct (decide (k1 = k)) as [->|Hne].
  - rewrite Hp. pose proof (seal_entity_traced (clk k) t k p d tr HI HW HT HA HNZ HH) as HE.
    destruct (seal_entity _ _ _ _ _ _) as [[e d1] t1]. pose proof (seal_loop_prefix clk t keys d1 t1) as HP.
    destruct (seal_loop _ _ _ _ _) as [[e2 d2] t2]. destruct HE as [[x ->]|HE]; [left; by eexists|].
    right. by eapply alert_traced_mono.
  - apply elem_of_cons in Hk as [->|Hk]; [done|]. specialize (IH Hk).
    destruct (dt_entities d !! k1) as [p1|]; [|by apply IH].
    pose proof (seal_entity_rings (clk k1) t k1 p1 d tr) as HE. destruct (seal_entity _ _ _ _ _ _) as [[e d1] t1].
    destruct HE as [(EP & EQ & EA & _ & _ & _ & HO) _]. specialize (IH d1 t1). rewrite HO, EQ in IH by done.
    destruct (seal_loop _ _ _ _ _) as [[e2 d2] t2]. destruct (IH Hp HI HW HT HH) as [Hs|Ht].
    + left. destruct e; [by eexists|done].
    + right. by eapply (alert_traced_mono d d1).
Qed.

Lemma new_detector_params cellID salt leaves journal pm window maxE onA onT d :
  NewDetector cellID salt leaves journal pm window maxE onA onT = inr d → dt_params d = pm ∧ params_invalid pm = false.
Proof.
  unfold NewDetector. cbn zeta. destruct (bool_decide _); [done|]. destruct (_ <? 16)%nat; [done|]. destruct (negb _); [done|].
  destruct (params_invalid pm) eqn:E; [done|]. destruct (_ <? millisecond); [done|]. destruct (_ <? 0); [done|]. by intros [= <-].
Qed.

(** C30: the detector measures exactly. After any sequence of records and flushes, the detector tracks the
    destinations the meter does, and an evaluation at the latest minute or later finds for each one the
    bytes of the last 1440 minutes and of the last 168 hours that the meter logged, modulo 2^64: reused
    slots, records out of order within a day, and hours still being filled included. *)
Theorem detector_measures_exactly cellID salt leaves journal pm window maxE onA onT d ops tr :
  NewDetector cellID salt leaves journal pm window maxE onA onT = inr d →
  let d' := (det_run ops (d, tr)).1 in
  let s := meter_run d ops in
  dt_watermark d' = mt_wm s ∧ dom (dt_entities d') = dom (mt_logs s) ∧
  ∀ k p log t, dt_entities d' !! k = Some p → mt_logs s !! k = Some log → dt_watermark d' ≤ t →
    sum64 (fresh24 t p) = u64 (vol (t - 1439) t log) ∧
    fresh7 t p = u64 (vol (t / 60 - 167) (t / 60) (by_hour log)).
Proof.
  intros Hn. simpl. destruct (det_run_refines d tr ops (new_detector_refines _ _ _ _ _ _ _ _ _ _ Hn)) as [[HD Ew] _].
  split_and!; [done|by apply det_ok_dom|]. intros k p log t Hp Hl Ht. destruct HD as (_ & _ & HL). specialize (HL k).
  rewrite Hp, Hl in HL. by eapply fresh_sums.
Qed.

(** A heavy destination is alerted. After any sequence of records and flushes of a detector whose
    byte signal alone reaches the threshold of alert, let a destination be awake (its running sum or its
    fast average is not zero) and not yet alerted, and let the bytes logged for it over 24 hours or
    7 days be over their threshold. Then a flush ends with the error of a write, or the alert of the
    destination, with these two volumes, is in the registry and was called back. *)
Theorem heavy_destination_alerted cellID salt leaves journal pm window maxE onA onT d ops tr clk k p log :
  NewDetector cellID salt leaves journal pm window maxE onA onT = inr d →
  weights_typed pm → sp_AlertThreshold pm ≤ sp_WBytes pm →
  let x := det_run ops (d, tr) in
  let t := dt_watermark x.1 in
  let s24 := u64 (vol (t - 1439) t log) in
  let s7 := u64 (vol (t / 60 - 167) (t / 60) (by_hour log)) in
  dt_entities x.1 !! k = Some p → mt_logs (meter_run d ops) !! k = Some log →
  ep_alerted p = false → (rg_sum (ep_min p) ≠ 0 ∨ ep_emaFast p ≠ 0) → heavy pm s24 s7 →
  let '(e, _, tr') := Flush clk x.1 x.2 in is_Some e ∨ alert_traced x.1 t k s24 s7 tr'.
Proof.
  intros Hn HW HT. simpl. intros Hp Hl HA HNZ HH. pose proof (new_detector_params _ _ _ _ _ _ _ _ _ _ Hn) as [EP HI].
  destruct (det_run_refines d tr ops (new_detector_refines _ _ _ _ _ _ _ _ _ _ Hn)) as [[HD Ew] (_ & _ & _ & EQ)].
  rewrite EP in EQ. pose proof HD as (_ & _ & HL). specialize (HL k). rewrite Hp, Hl in HL.
  destruct (fresh_sums _ _ _ _ HL (Z.le_refl _)) as [E24 E7]. rewrite <-E24, <-E7 in HH. rewrite <-E24, <-E7.
  unfold Flush. destruct (Z.ltb_spec (dt_watermark (det_run ops (d, tr)).1) 0); [destruct HL as [? _]; lia|].
  apply seal_loop_traced; rewrite ?EQ; try done.
  - rewrite merge_sort_Permutation. apply NoDup_elements.
  - rewrite merge_sort_Permutation. apply elem_of_elements, elem_of_dom. by eexists.
Qed.
End runs.
