(* ===== verification/Exporter.v ===== *)
(** The export of flow metadata: [src/telemetry/exporter.go], and the fan-out of
    [src/telemetry/antidribble.go].

    At each cycle the exporter takes a snapshot of the sessions, makes a record of what each one has
    consumed since the cycle before, sends the records to a collector as one IPFIX message (RFC 7011),
    and feeds them to a [RecordSink]. Whether the datagram leaves the host is a parameter. *)
From S2P Require Import Prelude.
From S2P Require Import Leaf.
From S2P Require Import Effects.
From S2P Require Import Records.
From S2P Require Import Quota.
From S2P Require Import Telemetry.

Local Open Scope Z_scope.

Definition EnterpriseNumber : Z := 32473.
Definition ipfixVersion : Z := 10.
Definition templateSetID : Z := 2.
Definition templateID : Z := 256.
Definition enterpriseBit : Z := 0x8000.
Definition variableLength : Z := 0xFFFF.
Definition maxRecordsPerMsg : nat := 64.
Definition ReasonSendFailed : string := "telemetry-send-failed".

(** ** IPFIX *)

(** The identifier, the size, and whether the field is of the enterprise. *)
Definition templateFields : list (Z * Z * bool) :=
  [(1, 8, false); (10, 4, false); (12, 4, false); (152, 8, false); (153, 8, false);
   (1, 16, true); (2, variableLength, true); (3, variableLength, true); (4, variableLength, true)].

Definition template_field (f : Z * Z * bool) : bytes :=
  let '(id, size, enterprise) := f in
  be 2 (if enterprise then Z.lor id enterpriseBit else id) ++ be 2 size ++ (if enterprise then be 4 EnterpriseNumber else []).

(** The header of a set, then its body. *)
Definition ipfix_set (id : Z) (body : bytes) : bytes := be 2 id ++ be 2 (u16 (4 + Z.of_nat (length body))) ++ body.

Definition encodeTemplateSet : bytes :=
  ipfix_set templateSetID (be 2 templateID ++ be 2 (Z.of_nat (length templateFields)) ++ concat (template_field <$> templateFields)).

Definition appendVarlen (v : bytes) : bytes :=
  (if (length v <? 255)%nat then [z2b (Z.of_nat (length v))] else z2b 255 :: be 2 (u16 (Z.of_nat (length v)))) ++ v.

(** One record of the data set. *)
Definition data_record (r : FlowRecord) : bytes :=
  be 8 (fr_OctetDelta r) ++ be 4 (fr_IngressIf r) ++ fr_DstIPv4 r ++ be 8 (u64 (fr_FlowStart r)) ++ be 8 (u64 (fr_FlowEnd r))
  ++ fr_JTI r ++ appendVarlen (sb (fr_CellID r)) ++ appendVarlen (sb (fr_Resource r)) ++ appendVarlen (sb (fr_Operation r)).

Definition encodeDataSet (records : list FlowRecord) : bytes := ipfix_set templateID (concat (data_record <$> records)).

Definition encodeMessage (obsDomain seq exportTimeS : Z) (records : list FlowRecord) : bytes :=
  let template := encodeTemplateSet in
  let data := encodeDataSet records in
  let total := 16 + Z.of_nat (length template) + Z.of_nat (length data) in
  be 2 ipfixVersion ++ be 2 (u16 total) ++ be 4 (exportTimeS mod 2^32) ++ be 4 seq ++ be 4 obsDomain ++ template ++ data.

(** ** Literal IPv4 addresses *)

(** [netip.ParseAddr] on the dotted form, the only one whose result [Is4]: [val] and [digits] are
    those of the current octet, [acc] the octets before it. *)
Fixpoint ipv4_fields (val : Z) (digits : nat) (acc : bytes) (s : bytes) : option bytes :=
  match s with
  | [] => if (length acc <? 3)%nat then None else Some (acc ++ [z2b val])
  | c :: s =>
      if (48 <=? b2z c) && (b2z c <=? 57) then
        if (digits =? 1)%nat && (val =? 0) then None
        else
          let val := val * 10 + b2z c - 48 in
          if 255 <? val then None else ipv4_fields val (S digits) acc s
      else if b2z c =? 46 then
        if (digits =? 0)%nat || (length s =? 0)%nat then None
        else if (length acc =? 3)%nat then None
        else ipv4_fields 0 0 (acc ++ [z2b val]) s
      else None
  end.

Definition parse_ipv4 (s : string) : option bytes := ipv4_fields 0 0 [] (sb s).

(** ** Sessions *)

Record Session := mkSession {
  ss_JTI : bytes; ss_Resource : string; ss_Operation : string; ss_Consumed : Z; ss_Closed : bool }.

(** [ledgerSource.Snapshot]. *)
Definition ledger_sessions `{MapOrder} (now : Z) (l : QuotaLedger) : list Session * QuotaLedger :=
  let '(snaps, l') := Snapshot now l in
  ((λ p, mkSession (ps_JTI p) (ps_Resource p) (ps_Operation p) (ps_Consumed p) (ps_Closed p)) <$> snaps, l').

(** ** Sinks *)

Inductive feed_error := FeedLeaf (e : append_error) | FeedConfig (e : telemetry_error).

(** [RecordSink]: what the exporter asks of the place its records go to. [reading] is what the sink
    reads of the clock during one call. *)
Class RecordSink (S : Type) := {
  reading : Type;
  sink_Feed : reading → FlowRecord → S → trace → option feed_error * S * trace }.
Arguments reading S {_}.

Record TelemetryLeafSink := mkTelemetryLeafSink { tl_producer : Producer }.

Definition NewTelemetryLeafSink (cellID : string) (salt : bytes) (leaves : bool) : telemetry_error + TelemetryLeafSink :=
  if bool_decide (cellID = "") then inl ErrCellIDRequired
  else if (length salt <? 16)%nat then inl ErrSaltTooShort
  else if negb leaves then inl ErrLeavesRequired
  else inr (mkTelemetryLeafSink (mkProducer cellID salt false)).

Definition WithJournal (j : bool) (s : TelemetryLeafSink) : TelemetryLeafSink :=
  mkTelemetryLeafSink (mkProducer (p_cellID (tl_producer s)) (p_salt (tl_producer s)) j).

Definition tl_Feed `{Crypto, Env} (now : Z) (r : FlowRecord) (s : TelemetryLeafSink) (t : trace) :
    option feed_error * TelemetryLeafSink * trace :=
  let '(e, t1) := appendLeaf (tl_producer s) KindTelemetry (telemetryRecord r) (UnixNano now) t in (FeedLeaf <$> e, s, t1).

#[global] Instance leaf_sink `{Crypto, Env} : RecordSink TelemetryLeafSink := {| reading := Z; sink_Feed := tl_Feed |}.

(** A sink of either kind. *)
#[global] Instance sum_sink `{RecordSink A, RecordSink B} : RecordSink (A + B) := {|
  reading := reading A * reading B;
  sink_Feed rd r s t :=
    match s with
    | inl a => let '(e, a', t') := sink_Feed rd.1 r a t in (e, inl a', t')
    | inr b => let '(e, b', t') := sink_Feed rd.2 r b t in (e, inr b', t')
    end |}.

(** [FanOut.Feed]: every sink receives the record; the first error is the result. *)
Fixpoint fan_loop `{RecordSink A} (rd : nat → reading A) (i : nat) (r : FlowRecord) (l : list A) (t : trace) :
    option feed_error * list A * trace :=
  match l with
  | [] => (None, [], t)
  | a :: l =>
      let '(e, a', t1) := sink_Feed (rd i) r a t in
      let '(e2, l', t2) := fan_loop rd (S i) r l t1 in
      (match e with Some x => Some x | None => e2 end, a' :: l', t2)
  end.

Definition FanOut_Feed `{RecordSink A} (rd : nat → reading A) (r : FlowRecord) (l : list A) (t : trace) :
    option feed_error * list A * trace :=
  if (length l =? 0)%nat then (Some (FeedConfig ErrSinkRequired), l, t) else fan_loop rd 0 r l t.

#[global] Instance fan_out `{RecordSink A} : RecordSink (list A) := {| reading := nat → reading A; sink_Feed := FanOut_Feed |}.

(** ** The exporter *)

Record ExporterStats := mkExporterStats {
  xs_Exports : Z; xs_Records : Z; xs_SendFailures : Z; xs_LeafFailures : Z; xs_SessionsSeen : Z; xs_RecordsLost : Z }.

Record Exporter := mkExporter {
  ex_cellID : string; ex_collector : string; ex_interval : Z; ex_ingressIf : Z; ex_onTrip : bool; ex_obsDomain : Z;
  ex_last : gmap bytes Z; ex_lastExport : Z; ex_seq : Z; ex_stats : ExporterStats }.

Definition NewExporter `{Crypto} (cellID : string) (source sink : bool) (collector : string) (interval ingressIf : Z) (onTrip : bool) :
    telemetry_error + Exporter :=
  if bool_decide (cellID = "") then inl ErrCellIDRequired
  else if negb source then inl ErrSourceRequired
  else if negb sink then inl ErrSinkRequired
  else if interval <=? 0 then inl ErrIntervalInvalid
  else inr (mkExporter cellID collector interval ingressIf onTrip (be_val (take 4 (sha256 (sb cellID)))) ∅ 0 0
              (mkExporterStats 0 0 0 0 0 0)).

Definition set_measure (last : gmap bytes Z) (lastExport seq : Z) (st : ExporterStats) (e : Exporter) : Exporter :=
  mkExporter (ex_cellID e) (ex_collector e) (ex_interval e) (ex_ingressIf e) (ex_onTrip e) (ex_obsDomain e) last lastExport seq st.
Definition set_ex_stats (st : ExporterStats) (e : Exporter) : Exporter :=
  set_measure (ex_last e) (ex_lastExport e) (ex_seq e) st e.

(** [record]. *)
Definition ex_record (e : Exporter) (s : Session) (delta startMs endMs : Z) : FlowRecord :=
  let dst := parse_ipv4 (ss_Resource s) in
  mkFlowRecord (ss_JTI s) (ex_cellID e) (ss_Resource s) (ss_Operation s) (default (replicate 4 Byte.x00) dst)
    (bool_decide (is_Some dst)) (ex_ingressIf e) delta startMs endMs.

(** The loop on the sessions: the last totals, the number of new sessions, the records. *)
Fixpoint scan_sessions (e : Exporter) (start nowMs : Z) (sessions : list Session) (last : gmap bytes Z) (fresh : Z) :
    gmap bytes Z * Z * list FlowRecord :=
  match sessions with
  | [] => (last, fresh, [])
  | s :: sessions =>
      let delta := u64 (ss_Consumed s - default 0 (last !! ss_JTI s)) in
      let fresh1 := if bool_decide (last !! ss_JTI s = None) then u64 (fresh + 1) else fresh in
      let last1 := if ss_Closed s then delete (ss_JTI s) last else <[ss_JTI s := ss_Consumed s]> last in
      let '(last2, fresh2, records) := scan_sessions e start nowMs sessions last1 fresh1 in
      (last2, fresh2, if delta =? 0 then records else ex_record e s delta start nowMs :: records)
  end.

(** The first section of [ExportOnce] under the lock: the records of the cycle, none of them cut yet. *)
Definition measure (nowMs : Z) (sessions : list Session) (e : Exporter) : list FlowRecord * Exporter :=
  let start := if ex_lastExport e =? 0 then nowMs else ex_lastExport e in
  let st := ex_stats e in
  let '(last1, fresh, records) := scan_sessions e start nowMs sessions (ex_last e) (xs_SessionsSeen st) in
  let last2 := filter (λ kv, kv.1 ∈ ss_JTI <$> sessions) last1 in
  (records, set_measure last2 nowMs (ex_seq e)
     (mkExporterStats (xs_Exports st) (xs_Records st) (xs_SendFailures st) (xs_LeafFailures st) fresh (xs_RecordsLost st)) e).

Definition count_sent (n : Z) (e : Exporter) : Exporter :=
  let st := ex_stats e in
  set_ex_stats (mkExporterStats (u64 (xs_Exports st + 1)) (u64 (xs_Records st + n)) (xs_SendFailures st) (xs_LeafFailures st)
    (xs_SessionsSeen st) (xs_RecordsLost st)) e.
Definition count_send_failure (e : Exporter) : Exporter :=
  let st := ex_stats e in
  set_ex_stats (mkExporterStats (xs_Exports st) (xs_Records st) (u64 (xs_SendFailures st + 1)) (xs_LeafFailures st)
    (xs_SessionsSeen st) (xs_RecordsLost st)) e.
Definition count_leaf_failure (e : Exporter) : Exporter :=
  let st := ex_stats e in
  set_ex_stats (mkExporterStats (xs_Exports st) (xs_Records st) (xs_SendFailures st) (u64 (xs_LeafFailures st + 1))
    (xs_SessionsSeen st) (xs_RecordsLost st)) e.

(** The cut at [maxRecordsPerMsg], and the sequence number of the message. *)
Definition cut_records (records : list FlowRecord) (e : Exporter) : list FlowRecord * Z * Exporter :=
  let st := ex_stats e in
  let '(kept, lost) :=
    if (maxRecordsPerMsg <? length records)%nat
    then (take maxRecordsPerMsg records, u64 (xs_RecordsLost st + Z.of_nat (length records - maxRecordsPerMsg)))
    else (records, xs_RecordsLost st) in
  (kept, ex_seq e,
   set_measure (ex_last e) (ex_lastExport e) ((ex_seq e + Z.of_nat (length kept)) mod 2^32)
     (mkExporterStats (xs_Exports st) (xs_Records st) (xs_SendFailures st) (xs_LeafFailures st) (xs_SessionsSeen st) lost) e).

Section exporter.
Context {D : Type} `{!RecordSink D}.

(** [sent msg]: whether the datagram could be sent. *)
Definition send_records (sent : bytes → bool) (seq nowMs : Z) (records : list FlowRecord) (e : Exporter) (t : trace) : Exporter * trace :=
  if bool_decide (ex_collector e = "") then (e, t)
  else
    let msg := encodeMessage (ex_obsDomain e) seq (Z.quot nowMs 1000) records in
    if sent msg then (e, t ++ [EvDatagram msg true])
    else (count_send_failure e, call_alarm (ex_onTrip e) ReasonSendFailed (t ++ [EvDatagram msg false])).

(** [rd i] is what the sink reads of the clock for record [i]. *)
Fixpoint feed_records (rd : nat → reading D) (i : nat) (records : list FlowRecord) (e : Exporter) (s : D) (t : trace) : Exporter * D * trace :=
  match records with
  | [] => (e, s, t)
  | r :: records =>
      let '(err, s1, t1) := sink_Feed (rd i) r s t in
      let '(e1, t2) :=
        match err with Some _ => (count_leaf_failure e, call_alarm (ex_onTrip e) ReasonLeafWriteFailed t1) | None => (e, t1) end in
      feed_records rd (S i) records e1 s1 t2
  end.

Definition ExportOnce (sent : bytes → bool) (now : Z) (rd : nat → reading D) (sessions : list Session) (e : Exporter) (s : D) (t : trace) :
    Z * Exporter * D * trace :=
  let nowMs := UnixMilli now in
  let '(records, e1) := measure nowMs sessions e in
  if (length records =? 0)%nat then (0, e1, s, t)
  else
    let '(kept, seq, e2) := cut_records records e1 in
    let '(e3, t3) := send_records sent seq nowMs kept e2 t in
    let '(e4, s4, t4) := feed_records rd 0 kept e3 s t3 in
    (Z.of_nat (length kept), count_sent (Z.of_nat (length kept)) e4, s4, t4).
End exporter.

(** ** One cycle *)

(** The octets of the records of a passport. *)
Definition octets (j : bytes) (records : list FlowRecord) : Z :=
  foldr (λ r n, (if bool_decide (fr_JTI r = j) then fr_OctetDelta r else 0) + n) 0 records.

Lemma octets_app j l k : octets j (l ++ k) = octets j l + octets j k.
Proof. induction l as [|r l IH]; simpl; [done|]. rewrite IH. lia. Qed.

Lemma scan_absent e start nowMs j sessions last fresh : j ∉ ss_JTI <$> sessions →
  let '(last', _, records) := scan_sessions e start nowMs sessions last fresh in last' !! j = last !! j ∧ octets j records = 0.
Proof.
  revert last fresh. induction sessions as [|s l IH]; intros last fresh Hj; [done|]. cbn [scan_sessions].
  rewrite fmap_cons, not_elem_of_cons in Hj. destruct Hj as [Hne Hj].
  set (last1 := if ss_Closed s then _ else _). set (fresh1 := if bool_decide _ then _ else _).
  assert (last1 !! j = last !! j) as E1.
  { subst last1. destruct (ss_Closed s); [by rewrite lookup_delete_ne|by rewrite lookup_insert_ne]. }
  specialize (IH last1 fresh1 Hj). destruct (scan_sessions _ _ _ _ _ _) as [[last2 fresh2] records]. destruct IH as [IH1 IH2].
  split; [congruence|]. destruct (_ =? 0); [done|]. simpl. by rewrite bool_decide_eq_false_2.
Qed.

Lemma scan_present e start nowMs sessions s last fresh : NoDup (ss_JTI <$> sessions) → s ∈ sessions →
  let '(last', _, records) := scan_sessions e start nowMs sessions last fresh in
  last' !! ss_JTI s = (if ss_Closed s then None else Some (ss_Consumed s)) ∧
  octets (ss_JTI s) records = u64 (ss_Consumed s - default 0 (last !! ss_JTI s)).
Proof.
  revert last fresh. induction sessions as [|s1 l IH]; intros last fresh HN Hs; [by apply elem_of_nil in Hs|]. cbn [scan_sessions].
  rewrite fmap_cons, NoDup_cons in HN. destruct HN as [Hj HN]. apply elem_of_cons in Hs as [->|Hs].
  - set (last1 := if ss_Closed s1 then _ else _). set (fresh1 := if bool_decide _ then _ else _).
    pose proof (scan_absent e start nowMs (ss_JTI s1) l last1 fresh1 Hj) as HA.
    destruct (scan_sessions _ _ _ _ _ _) as [[last2 fresh2] records]. destruct HA as [HA1 HA2]. split.
    + rewrite HA1. subst last1. destruct (ss_Closed s1); [apply lookup_delete_eq|apply lookup_insert_eq].
    + destruct (Z.eqb_spec (u64 (ss_Consumed s1 - default 0 (last !! ss_JTI s1))) 0) as [E|E]; [congruence|].
      simpl. rewrite bool_decide_eq_true_2, HA2 by done. lia.
  - assert (ss_JTI s1 ≠ ss_JTI s) as Hne. { intros E. apply Hj. rewrite E. apply list_elem_of_fmap. by exists s. }
    set (last1 := if ss_Closed s1 then _ else _). set (fresh1 := if bool_decide _ then _ else _).
    assert (last1 !! ss_JTI s = last !! ss_JTI s) as E1.
    { subst last1. destruct (ss_Closed s1); [by rewrite lookup_delete_ne|by rewrite lookup_insert_ne]. }
    specialize (IH last1 fresh1 HN Hs). destruct (scan_sessions _ _ _ _ _ _) as [[last2 fresh2] records]. rewrite E1 in IH.
    destruct (_ =? 0); [done|]. simpl. by rewrite (bool_decide_eq_false_2 (ss_JTI s1 = ss_JTI s)).
Qed.

Lemma scan_length e start nowMs sessions last fresh :
  (length (scan_sessions e start nowMs sessions last fresh).2 ≤ length sessions)%nat.
Proof.
  revert last fresh. induction sessions as [|s l IH]; intros last fresh; [done|]. cbn [scan_sessions].
  specialize (IH (if ss_Closed s then delete (ss_JTI s) last else <[ss_JTI s:=ss_Consumed s]> last)
    (if bool_decide (last !! ss_JTI s = None) then u64 (fresh + 1) else fresh)).
  destruct (scan_sessions _ _ _ _ _ _) as [[last2 fresh2] records]. simpl in *. destruct (_ =? 0); simpl; lia.
Qed.

(** What a cycle measures of a session, and what it remembers. *)
Lemma measure_session nowMs sessions s e : NoDup (ss_JTI <$> sessions) → s ∈ sessions →
  let '(records, e') := measure nowMs sessions e in
  ex_last e' !! ss_JTI s = (if ss_Closed s then None else Some (ss_Consumed s)) ∧
  octets (ss_JTI s) records = u64 (ss_Consumed s - default 0 (ex_last e !! ss_JTI s)) ∧ (length records ≤ length sessions)%nat.
Proof.
  intros HN Hs. unfold measure.
  set (start := if ex_lastExport e =? 0 then nowMs else ex_lastExport e).
  pose proof (scan_present e start nowMs sessions s (ex_last e) (xs_SessionsSeen (ex_stats e)) HN Hs) as HP.
  pose proof (scan_length e start nowMs sessions (ex_last e) (xs_SessionsSeen (ex_stats e))) as HL.
  destruct (scan_sessions _ _ _ _ _ _) as [[last' fresh] records]. destruct HP as [HP1 HP2]. split_and!; [|done..]. simpl.
  destruct (ss_Closed s).
  - apply map_lookup_filter_None_2. by left.
  - apply map_lookup_filter_Some_2; [done|]. apply list_elem_of_fmap. by exists s.
Qed.

(** ** Cycles with a witness of what the sink is fed *)

(** A sink that also keeps what it is fed. *)
#[global] Instance tap `{RecordSink D} : RecordSink (list FlowRecord * D) := {|
  reading := reading D;
  sink_Feed rd r s t := let '(e, d, t') := sink_Feed rd r s.2 t in (e, (s.1 ++ [r], d), t') |}.

Record cycle (D : Type) `{RecordSink D} := mkCycle {
  cy_sent : bytes → bool; cy_now : Z; cy_rd : nat → reading D; cy_sessions : list Session }.
Arguments mkCycle {D _}.
Arguments cy_sent {D _}.
Arguments cy_now {D _}.
Arguments cy_rd {D _}.
Arguments cy_sessions {D _}.

Section cycles.
Context {D : Type} `{!RecordSink D}.

Definition run_cycle (x : Exporter * (list FlowRecord * D) * trace) (c : cycle D) : Exporter * (list FlowRecord * D) * trace :=
  let '(_, e, s, t) := ExportOnce (D := list FlowRecord * D) (cy_sent c) (cy_now c) (cy_rd c) (cy_sessions c) x.1.1 x.1.2 x.2 in (e, s, t).

Lemma feed_records_log (rd : nat → reading (list FlowRecord * D)) i records e s t :
  let '(e', s', _) := feed_records (D := list FlowRecord * D) rd i records e s t in s'.1 = s.1 ++ records ∧ ex_last e' = ex_last e.
Proof.
  revert i e s t. induction records as [|r l IH]; intros i e s t; [by rewrite app_nil_r|]. cbn [feed_records sink_Feed tap].
  destruct (sink_Feed (S := D) (rd i) r s.2 t) as [[err d] t1].
  destruct err; (match goal with |- context [feed_records _ (S i) l ?e1 ?s1 ?t2] => specialize (IH (S i) e1 s1 t2) end);
    destruct (feed_records _ _ _ _ _ _) as [[e' s'] t']; destruct IH as [-> ->]; simpl; by rewrite <-app_assoc.
Qed.

(** A cycle of at most [maxRecordsPerMsg] sessions feeds all it measures. *)
Lemma run_cycle_log c x : (length (cy_sessions c) ≤ maxRecordsPerMsg)%nat →
  let '(records, e1) := measure (UnixMilli (cy_now c)) (cy_sessions c) x.1.1 in
  (length records ≤ length (cy_sessions c))%nat →
  (run_cycle x c).1.2.1 = x.1.2.1 ++ records ∧ ex_last (run_cycle x c).1.1 = ex_last e1.
Proof.
  intros HL. unfold run_cycle, ExportOnce. destruct (measure _ _ _) as [records e1]. intros HR.
  destruct records as [|r l]; [simpl; by rewrite app_nil_r|]. set (rs := r :: l) in *.
  change (length rs =? 0)%nat with false. cbn iota. unfold cut_records.
  replace (maxRecordsPerMsg <? length rs)%nat with false by (symmetry; apply Nat.ltb_ge; lia).
  unfold send_records. cbn [ex_collector set_measure].
  assert (∀ e3 t3, ex_last e3 = ex_last e1 →
    (let '(_, e, s, t) := (let '(e4, s4, t4) := feed_records (D := list FlowRecord * D) (cy_rd c) 0 rs e3 x.1.2 t3 in
      (Z.of_nat (length rs), count_sent (Z.of_nat (length rs)) e4, s4, t4)) in (e, s, t)).1.2.1 = x.1.2.1 ++ rs ∧
    ex_last (let '(_, e, s, t) := (let '(e4, s4, t4) := feed_records (D := list FlowRecord * D) (cy_rd c) 0 rs e3 x.1.2 t3 in
      (Z.of_nat (length rs), count_sent (Z.of_nat (length rs)) e4, s4, t4)) in (e, s, t)).1.1 = ex_last e1) as HF.
  { intros e3 t3 E3. pose proof (feed_records_log (cy_rd c) 0 rs e3 x.1.2 t3) as HF.
    destruct (feed_records _ _ _ _ _ _) as [[e4 s4] t4]. destruct HF as [HF1 HF2]. simpl. split; [done|]. congruence. }
  destruct (bool_decide _); [by apply HF|]. destruct (cy_sent c _); by apply HF.
Qed.

(** The cycles during which passport [j], last measured at [prev], is in every snapshot, never decreases
    and is not closed before the last of them, where it has consumed [final]. *)
Inductive steady (j : bytes) : Z → list (cycle D) → Z → Prop :=
  | steady_last prev c s :
      s ∈ cy_sessions c → ss_JTI s = j → prev ≤ ss_Consumed s < 2^64 → steady j prev [c] (ss_Consumed s)
  | steady_more prev c s cs final :
      s ∈ cy_sessions c → ss_JTI s = j → prev ≤ ss_Consumed s < 2^64 → ss_Closed s = false →
      steady j (ss_Consumed s) cs final → steady j prev (c :: cs) final.

Definition snapshot_ok (c : cycle D) : Prop :=
  NoDup (ss_JTI <$> cy_sessions c) ∧ (length (cy_sessions c) ≤ maxRecordsPerMsg)%nat.

Lemma cycle_session c s x prev : snapshot_ok c → s ∈ cy_sessions c → default 0 (ex_last x.1.1 !! ss_JTI s) = prev →
  0 ≤ prev ≤ ss_Consumed s → ss_Consumed s < 2^64 →
  octets (ss_JTI s) (run_cycle x c).1.2.1 = octets (ss_JTI s) x.1.2.1 + (ss_Consumed s - prev) ∧
  ex_last (run_cycle x c).1.1 !! ss_JTI s = (if ss_Closed s then None else Some (ss_Consumed s)).
Proof.
  intros [HN HL] Hs Hp Hr Hu. pose proof (run_cycle_log c x HL) as HC.
  pose proof (measure_session (UnixMilli (cy_now c)) (cy_sessions c) s x.1.1 HN Hs) as HM.
  destruct (measure _ _ _) as [records e1]. destruct HM as (HM1 & HM2 & HM3). destruct (HC HM3) as [-> ->].
  rewrite octets_app, HM2, HM1, Hp. split; [|done]. unfold u64. rewrite Z.mod_small by lia. done.
Qed.

Lemma cycles_telescope j prev cs final x : steady j prev cs final → Forall snapshot_ok cs → 0 ≤ prev →
  default 0 (ex_last x.1.1 !! j) = prev →
  octets j (foldl run_cycle x cs).1.2.1 = octets j x.1.2.1 + (final - prev).
Proof.
  intros HS. revert x. induction HS as [prev c s Hs <- Hr|prev c s cs final Hs <- Hr Hc HS IH]; intros x HF H0 Hp.
  - apply Forall_cons in HF as [HO _]. by destruct (cycle_session c s x prev HO Hs Hp ltac:(lia) ltac:(lia)).
  - apply Forall_cons in HF as [HO HF]. destruct (cycle_session c s x prev HO Hs Hp ltac:(lia) ltac:(lia)) as [HC1 HC2].
    rewrite Hc in HC2. simpl. rewrite IH; [rewrite HC1; lia|done|lia|by rewrite HC2].
Qed.

(** The exported deltas add up. Whatever the sink answers and whether or not the datagrams leave, over
    cycles of at most 64 sessions the octets fed to the sink for a passport that the exporter did not know,
    that is in every snapshot and is closed at the last one or not at all, are exactly what the passport
    has consumed. *)
Theorem deltas_add_up j cs final e log d t :
  steady j 0 cs final → Forall snapshot_ok cs → ex_last e !! j = None →
  octets j (foldl run_cycle (e, (log, d), t) cs).1.2.1 = octets j log + final.
Proof.
  intros HS HF HN. rewrite (cycles_telescope j 0 cs final _ HS HF); simpl; [lia|done|by rewrite HN].
Qed.
End cycles.

(** ** Messages are read back one way *)

Lemma be2_len_inj (v w : bytes) : Z.of_nat (length v) < 65536 → Z.of_nat (length w) < 65536 →
  be 2 (u16 (Z.of_nat (length v))) = be 2 (u16 (Z.of_nat (length w))) → length v = length w.
Proof.
  intros Hv Hw E. apply be_inj in E; [|unfold u16; apply Z.mod_pos_bound; lia..]. unfold u16 in E.
  rewrite !Z.mod_small in E by lia. lia.
Qed.

Lemma z2b_len_ne (v : bytes) : (length v < 255)%nat → z2b (Z.of_nat (length v)) ≠ z2b 255.
Proof. intros Hv E. apply (f_equal b2z) in E. rewrite !b2z_z2b, !Z.mod_small in E by lia. lia. Qed.

Lemma appendVarlen_app_inj v w k1 k2 : Z.of_nat (length v) < 65536 → Z.of_nat (length w) < 65536 →
  appendVarlen v ++ k1 = appendVarlen w ++ k2 → v = w ∧ k1 = k2.
Proof.
  intros Hv Hw. unfold appendVarlen. rewrite <-!app_assoc.
  destruct (Nat.ltb_spec (length v) 255) as [Lv|Lv], (Nat.ltb_spec (length w) 255) as [Lw|Lw]; intros E; simpl in E;
    apply (inj2 cons) in E as [E1 E].
  - apply app_inj_len in E; [done|]. apply (f_equal b2z) in E1. rewrite !b2z_z2b, !Z.mod_small in E1 by lia. lia.
  - by apply z2b_len_ne in E1.
  - symmetry in E1. by apply z2b_len_ne in E1.
  - change (?a :: ?b :: ?l) with ([a; b] ++ l) in E. apply app_inj_len in E as [E2 E]; [|done].
    apply app_inj_len in E; [done|]. apply be2_len_inj; [lia..|]. exact E2.
Qed.

Lemma data_record_app_inj r s k1 k2 : record_wf r → record_wf s →
  data_record r ++ k1 = data_record s ++ k2 → without_flag r = without_flag s ∧ k1 = k2.
Proof.
  intros (J1 & C1 & R1 & O1 & D1 & I1 & B1 & S1 & E1) (J2 & C2 & R2 & O2 & D2 & I2 & B2 & S2 & E2).
  unfold data_record. rewrite <-!app_assoc. intros E.
  apply be_app_inj in E as [EB E]; [|done..]. apply be_app_inj in E as [EI E]; [|done..].
  apply app_inj_len in E as [ED E]; [|congruence]. apply be8_app_inj in E as [ES E]; [|done..].
  apply be8_app_inj in E as [EE E]; [|done..]. apply app_inj_len in E as [EJ E]; [|congruence].
  apply appendVarlen_app_inj in E as [EC%sb_inj E]; [|rewrite length_sb; lia..].
  apply appendVarlen_app_inj in E as [ER%sb_inj E]; [|rewrite length_sb; lia..].
  apply appendVarlen_app_inj in E as [EO%sb_inj E]; [|rewrite length_sb; lia..].
  split; [|done]. unfold without_flag. by destruct r, s; simplify_eq/=.
Qed.

Lemma data_record_nonempty r k : data_record r ++ k ≠ [].
Proof. intros E. apply (f_equal length) in E. unfold data_record in E. rewrite !length_app, !length_be in E. simpl in E. lia. Qed.

Lemma data_records_inj l k : Forall record_wf l → Forall record_wf k →
  concat (data_record <$> l) = concat (data_record <$> k) → without_flag <$> l = without_flag <$> k.
Proof.
  intros Hl. revert k. induction Hl as [|r l Hr Hl IH]; intros k Hk E.
  - destruct k as [|s k]; [done|]. symmetry in E. by apply data_record_nonempty in E.
  - destruct Hk as [|s k Hs Hk]; [by apply data_record_nonempty in E|]. rewrite !fmap_cons in E. cbn [concat] in E.
    apply data_record_app_inj in E as [E1 E]; [|done..]. rewrite !fmap_cons, E1. f_equal. by apply IH.
Qed.

Lemma length_message od seq ts l :
  Z.of_nat (length (encodeMessage od seq ts l)) = 16 + Z.of_nat (length encodeTemplateSet) + Z.of_nat (length (encodeDataSet l)).
Proof. unfold encodeMessage. cbn zeta. rewrite !length_app, !length_be. lia. Qed.

(** A message says what it carries. Two messages that are equal are of the same domain, sequence number
    and second, and carry the same records in the same order; and a message under 64 KiB declares its length,
    so that a collector finds its end. *)
Theorem message_faithful od seq ts l od' seq' ts' l' :
  Forall record_wf l → Forall record_wf l' → 0 ≤ od < 2^32 → 0 ≤ od' < 2^32 → 0 ≤ seq < 2^32 → 0 ≤ seq' < 2^32 →
  0 ≤ ts < 2^32 → 0 ≤ ts' < 2^32 →
  (encodeMessage od seq ts l = encodeMessage od' seq' ts' l' →
     od = od' ∧ seq = seq' ∧ ts = ts' ∧ without_flag <$> l = without_flag <$> l') ∧
  (Z.of_nat (length (encodeMessage od seq ts l)) < 65536 →
     be_val (take 2 (drop 2 (encodeMessage od seq ts l))) = Z.of_nat (length (encodeMessage od seq ts l))).
Proof.
  intros Hl Hl' Ho Ho' Hs Hs' Ht Ht'. split.
  - unfold encodeMessage, encodeDataSet, ipfix_set at 2 4. cbn zeta. intros E.
    apply app_inj_len in E as [_ E]; [|done]. apply app_inj_len in E as [_ E]; [|by rewrite !length_be].
    apply be_app_inj in E as [Et E]; [|apply Z.mod_pos_bound; lia..]. apply be_app_inj in E as [Es E]; [|done..].
    apply be_app_inj in E as [Eo E]; [|done..]. apply app_inj_len in E as [_ E]; [|done].
    apply app_inj_len in E as [_ E]; [|done]. apply app_inj_len in E as [_ E]; [|by rewrite !length_be].
    rewrite !Z.mod_small in Et by lia. split_and!; try done. by apply data_records_inj.
  - rewrite length_message. intros HL. unfold encodeMessage. cbn zeta. set (n := 16 + _ + _) in *.
    rewrite drop_app_length' by by rewrite length_be. rewrite take_app_length' by by rewrite length_be.
    rewrite be_val_be. unfold u16. change (256 ^ Z.of_nat 2) with 65536. rewrite Z.mod_mod by lia. apply Z.mod_small. lia.
Qed.
