(* ===== verification/Pipeline.v ===== *)
(** The telemetry pipeline: [src/telemetry/pipeline.go].

    The pipeline exports the sessions of the quota ledger to a fan-out of two sinks, the aggregator with its
    store and the detector, seals the windows that are over and purges the raw batches whose
    time is over. What each sink keeps of its state is stated once, as an instance of [SinkInv], and the
    exporter is proved against that interface. *)
From S2P Require Import Prelude.
From S2P Require Import Leaf.
From S2P Require Import Effects.
From S2P Require Import Records.
From S2P Require Import Quota.
From S2P Require Import Telemetry.
From S2P Require Import Retention.
From S2P Require Import Aggregator.
From S2P Require Import AntiDribble.
From S2P Require Import Exporter.

Local Open Scope Z_scope.

Definition DefaultPipelineInterval : Z := 10 * second.

Section pipeline.
Context `{Crypto, Env, MapOrder, SliceSort}.

(** ** The two sinks *)

(** [Aggregator.Feed], with the store the aggregator shares with the pipeline. *)
#[global] Instance aggregator_sink : RecordSink (Aggregator * RetentionStore) := {|
  reading := (Z → seal_clock) * Z * Z;
  sink_Feed rd r x t := let '(e, a, s, t') := ag_Feed rd.1.1 rd.1.2 rd.2 r x.1 x.2 t in (FeedLeaf <$> e, (a, s), t') |}.

#[global] Instance detector_sink : RecordSink Detector := {|
  reading := bytes → Z * Z;
  sink_Feed clk r d t := let '(e, d', t') := det_Feed clk r d t in (FeedLeaf <$> e, d', t') |}.

(** ** The pipeline *)

Record Pipeline := mkPipeline {
  pl_Exporter : Exporter; pl_Aggregator : Aggregator; pl_Detector : Detector; pl_Store : RetentionStore; pl_interval : Z;
  pl_onTrip : bool }.

Record PipelineOptions := mkPipelineOptions {
  po_CellID : string; po_Salt : bytes; po_Leaves : bool; po_Journal : bool; po_Source : bool; po_Interval : Z; po_Window : Z;
  po_Collector : string; po_RetentionTTL : Z; po_MaxBatches : Z; po_Params : ScoreParams; po_OnTrip : bool; po_OnAlert : bool }.

Definition NewPipeline (o : PipelineOptions) : telemetry_error + Pipeline :=
  if negb (po_Source o) then inl ErrSourceRequired
  else
    let interval := if po_Interval o =? 0 then DefaultPipelineInterval else po_Interval o in
    let params := if bool_decide (po_Params o = mkScoreParams 0 0 0 0 0 0 0 0 0 0 0) then DefaultScoreParams else po_Params o in
    match NewRetentionStore (po_CellID o) (po_Salt o) (po_Leaves o) (po_Journal o) (po_RetentionTTL o) (po_MaxBatches o) (po_OnTrip o) with
    | inl e => inl e
    | inr store =>
        match NewAggregator (po_CellID o) (po_Salt o) (po_Leaves o) (po_Journal o) (po_Window o) 0 true (po_OnTrip o) with
        | inl e => inl e
        | inr agg =>
            match NewDetector (po_CellID o) (po_Salt o) (po_Leaves o) (po_Journal o) params 0 0 (po_OnAlert o) (po_OnTrip o) with
            | inl e => inl e
            | inr det =>
                match NewExporter (po_CellID o) true true (po_Collector o) interval 0 (po_OnTrip o) with
                | inl e => inl e
                | inr exp => inr (mkPipeline exp agg det store interval (po_OnTrip o))
                end
            end
        end
    end.

(** The fan-out over the two sinks, and the pipeline after it. *)
Abbreviation sinks := (list ((Aggregator * RetentionStore) + Detector)).
Definition pipeline_sinks (p : Pipeline) : sinks := [inl (pl_Aggregator p, pl_Store p); inr (pl_Detector p)].
Definition with_sinks (e : Exporter) (l : sinks) (p : Pipeline) : Pipeline :=
  match l with
  | [inl (a, s); inr d] => mkPipeline e a d s (pl_interval p) (pl_onTrip p)
  | _ => p
  end.

(** What one step reads: the clock of the ledger and of the export, of the sinks, of the tick and of the
    purge, and whether the datagram leaves. *)
Record step_input := mkStepInput {
  si_ledger : Z; si_export : Z; si_sent : bytes → bool; si_feed : nat → reading sinks; si_tick : Z; si_seal : Z → seal_clock;
  si_purge : Z; si_purgeLeaf : nat → Z }.

Definition Step (i : step_input) (l : QuotaLedger) (p : Pipeline) (t : trace) : QuotaLedger * Pipeline * trace :=
  let '(sessions, l1) := ledger_sessions (si_ledger i) l in
  let '(_, e1, sk, t1) := ExportOnce (si_sent i) (si_export i) (si_feed i) sessions (pl_Exporter p) (pipeline_sinks p) t in
  let p1 := with_sinks e1 sk p in
  let '(err, a2, s2, t2) := ag_Tick (si_seal i) (si_tick i) (pl_Aggregator p1) (pl_Store p1) t1 in
  let t3 := match err with Some _ => call_alarm (pl_onTrip p1) ReasonLeafWriteFailed t2 | None => t2 end in
  let '(_, s4, t4) := PurgeExpired (si_purge i) (si_purgeLeaf i) s2 t3 in
  (l1, mkPipeline (pl_Exporter p1) a2 (pl_Detector p1) s4 (pl_interval p1) (pl_onTrip p1), t4).

(** [Close]: the errors that are joined. *)
Definition Close (seal : Z → seal_clock) (now : Z) (clk : bytes → Z * Z) (p : Pipeline) (t : trace) :
    list append_error * Pipeline * trace :=
  let '(e1, a1, s1, t1) := Seal seal now (pl_Aggregator p) (pl_Store p) t in
  let '(e2, d2, t2) := Flush clk (pl_Detector p) t1 in
  (option_list e1 ++ option_list e2, mkPipeline (pl_Exporter p) a1 d2 s1 (pl_interval p) (pl_onTrip p), t2).
End pipeline.

(** ** What a sink keeps *)

(** The invariant a sink promises to keep across the records it is fed. *)
Class SinkInv {D : Type} `{!RecordSink D} (I : D → Prop) : Prop :=
  sink_keeps : ∀ rd r s t, I s → I (sink_Feed rd r s t).1.2.

#[global] Instance sum_inv `{RecordSink A, RecordSink B} (I : A → Prop) (J : B → Prop) `{!SinkInv I, !SinkInv J} :
  SinkInv (D := A + B) (λ s, match s with inl a => I a | inr b => J b end).
Proof.
  intros rd r [a|b] t Hs; simpl.
  - pose proof (sink_keeps (I := I) rd.1 r a t Hs) as HK. by destruct (sink_Feed rd.1 r a t) as [[e a'] t'].
  - pose proof (sink_keeps (I := J) rd.2 r b t Hs) as HK. by destruct (sink_Feed rd.2 r b t) as [[e b'] t'].
Qed.

(** A fan-out keeps its sinks: their number, and what each of them keeps. *)
Lemma fan_loop_keeps `{RecordSink A} (Is : list (A → Prop)) rd i r l t :
  Forall (λ I, SinkInv I) Is → Forall2 (λ (I : A → Prop) a, I a) Is l → Forall2 (λ (I : A → Prop) a, I a) Is (fan_loop rd i r l t).1.2.
Proof.
  intros HI HF. revert i t HI. induction HF as [|I a Is l Ha HF IH]; intros i t HI; [constructor|]. apply Forall_cons in HI as [HI1 HI].
  cbn [fan_loop]. pose proof (sink_keeps (rd i) r a t Ha) as HK. destruct (sink_Feed _ _ _ _) as [[e a'] t1].
  specialize (IH (S i) t1 HI). destruct (fan_loop _ _ _ _ _) as [[e2 l'] t2]. by constructor.
Qed.

#[global] Instance fan_out_inv `{RecordSink A} (Is : list (A → Prop)) `{HI : !TCForall SinkInv Is} :
  SinkInv (D := list A) (Forall2 (λ (I : A → Prop) a, I a) Is).
Proof.
  intros rd r l t HF. simpl. unfold FanOut_Feed. destruct (_ =? 0)%nat; [done|]. apply fan_loop_keeps; [|done].
  by apply TCForall_Forall.
Qed.

(** The exporter keeps what its sink keeps. *)
Section client.
Context {D : Type} `{!RecordSink D} (I : D → Prop) `{!SinkInv I}.

Lemma feed_records_keeps rd i records e s t : I s → I (feed_records rd i records e s t).1.2.
Proof.
  revert i e s t. induction records as [|r l IH]; intros i e s t HI; [done|]. cbn [feed_records].
  pose proof (sink_keeps (rd i) r s t HI) as HK. destruct (sink_Feed _ _ _ _) as [[err s1] t1]. destruct err; by apply IH.
Qed.

Lemma ExportOnce_keeps sent now rd sessions e s t : I s → I (ExportOnce sent now rd sessions e s t).1.2.
Proof.
  intros HI. unfold ExportOnce. destruct (measure _ _ _) as [records e1]. destruct (_ =? 0)%nat; [done|].
  destruct (cut_records _ _) as [[kept seq] e2]. destruct (send_records _ _ _ _ _ _) as [e3 t3].
  pose proof (feed_records_keeps rd 0 kept e3 s t3 HI) as HK. by destruct (feed_records _ _ _ _ _ _) as [[e4 s4] t4].
Qed.
End client.

Section invariant.
Context `{Crypto, Env, MapOrder, SliceSort}.

(** ** The store, through the aggregator *)

Definition store_kept (s s' : RetentionStore) : Prop := store_wf s → store_wf s' ∧ rt_max s' = rt_max s.

#[local] Instance store_kept_trans : Transitive store_kept.
Proof. intros s1 s2 s3 H12 H23 HW. destruct (H12 HW) as [HW2 E2]. destruct (H23 HW2) as [HW3 E3]. split; [done|congruence]. Qed.

Lemma rt_Put_kept b s : store_kept s (rt_Put b s).2.
Proof. intros HW. split; [by apply rt_Put_wf|]. unfold rt_Put. by repeat case_match. Qed.

Lemma purge_kept now clock s t : store_kept s (PurgeExpired now clock s t).1.2.
Proof.
  intros HW. split; [by apply purge_wf|]. unfold PurgeExpired.
  pose proof (purge_loop_spec (UnixMilli now) clock 0 (expired_batches (UnixMilli now) s) s t) as HP.
  destruct (purge_loop _ _ _ _ _ _) as [[n s'] t']. by destruct HP as (gone & _ & _ & (_ & _ & EM & _) & _).
Qed.

Lemma sealLocked_kept ck id a s t : store_kept s (sealLocked ck id a s t).1.2.
Proof.
  unfold sealLocked. destruct (appendLeaf _ _ _ _ _) as [[e|] t1]; [done|]. unfold store_batch. destruct (_ && _); [|done]. cbn zeta.
  match goal with |- context [rt_Put ?b s] => pose proof (rt_Put_kept b s) as HP end. by destruct (rt_Put _ _) as [[e|] s1].
Qed.

Lemma tick_loop_kept clk n id a s t : store_kept s (tick_loop clk n id a s t).1.2.
Proof.
  revert a s t. induction n as [|n IH]; intros a s t; cbn [tick_loop]; destruct (_ <? _); try done.
  pose proof (sealLocked_kept (clk (ag_curID a)) (ag_curID a) a s t) as HS.
  destruct (sealLocked _ _ _ _ _) as [[[[e|] a1] s1] t1]; [done|]. etrans; [exact HS|apply IH].
Qed.

Lemma tickLocked_kept clk now a s t : store_kept s (tickLocked clk now a s t).1.2.
Proof. unfold tickLocked. destruct (_ =? -1); [done|]. apply tick_loop_kept. Qed.

Lemma ag_Feed_kept clk now now2 r a s t : store_kept s (ag_Feed clk now now2 r a s t).1.2.
Proof.
  unfold ag_Feed. pose proof (tickLocked_kept clk now a s t) as HT. by destruct (tickLocked _ _ _ _ _) as [[[[e|] a1] s1] t1].
Qed.

Definition store_inv (max : Z) (x : Aggregator * RetentionStore) : Prop := store_wf x.2 ∧ rt_max x.2 = max.

#[global] Instance aggregator_inv max : SinkInv (store_inv max).
Proof.
  intros rd r [a s] t [HW EM]. simpl. pose proof (ag_Feed_kept rd.1.1 rd.1.2 rd.2 r a s t HW) as [HW' EM'].
  destruct (ag_Feed _ _ _ _ _ _ _) as [[[e a'] s'] t']. split; [done|]. simpl in *. congruence.
Qed.

(** ** The detector *)

(** The detector refines a meter that tracks at most [max] destinations. *)
Definition det_inv (max : Z) (d : Detector) : Prop :=
  dt_maxEnt d = max ∧ ∃ s, refines s d ∧ Z.of_nat (size (mt_logs s)) ≤ max.

Lemma meter_record_size d r s : 0 ≤ dt_maxEnt d → Z.of_nat (size (mt_logs s)) ≤ dt_maxEnt d →
  Z.of_nat (size (mt_logs (meter_record d r s))) ≤ dt_maxEnt d.
Proof.
  intros H0' HS. unfold meter_record, meter_feed. destruct (_ || _); [done|]. simpl. destruct (_ <=? _); [done|].
  destruct (mt_logs s !! _) as [log|] eqn:E.
  - rewrite map_size_insert, E. done.
  - destruct (Z.leb_spec (dt_maxEnt d) (Z.of_nat (size (mt_logs s)))); [done|]. rewrite map_size_insert, E. simpl. lia.
Qed.

#[global] Instance detector_inv max : SinkInv (det_inv max).
Proof.
  intros clk r d t [EM (s & HR & HS)]. simpl. pose proof (det_Feed_refines clk r s d t HR) as HF.
  destruct (det_Feed _ _ _ _) as [[e d'] t']. destruct HF as [HF (_ & E2 & _ & _)]. split; [simpl; congruence|].
  exists (meter_record d r s). split; [done|]. subst max. apply meter_record_size; [lia|done].
Qed.

#[global] Instance absurd_inv `{RecordSink A} : SinkInv (λ _ : A, False).
Proof. by intros rd r s t. Qed.

(** ** The pipeline *)

Definition pipeline_wf (maxBatches maxEntities : Z) (p : Pipeline) : Prop :=
  store_inv maxBatches (pl_Aggregator p, pl_Store p) ∧ det_inv maxEntities (pl_Detector p).

(** What the fan-out of the pipeline keeps, sink by sink. *)
Definition sinks_inv (maxBatches maxEntities : Z) : list ((Aggregator * RetentionStore) + Detector → Prop) :=
  [λ s, match s with inl x => store_inv maxBatches x | inr _ => False end;
   λ s, match s with inl _ => False | inr d => det_inv maxEntities d end].

Lemma sinks_inv_ok mb me : Forall (λ I, SinkInv I) (sinks_inv mb me).
Proof. repeat constructor; apply _. Qed.

Lemma Step_wf mb me i l p t : pipeline_wf mb me p → pipeline_wf mb me (Step i l p t).1.2.
Proof.
  intros [HS HD]. unfold Step. destruct (ledger_sessions _ _) as [sessions l1].
  assert (Forall2 (λ (I : _ → Prop) a, I a) (sinks_inv mb me) (pipeline_sinks p)) as HP
    by (apply Forall2_cons_2; [done|]; apply Forall2_cons_2; [done|]; constructor).
  assert (TCForall SinkInv (sinks_inv mb me)) as HT by apply TCForall_Forall, sinks_inv_ok.
  pose proof (ExportOnce_keeps (Forall2 (λ I a, I a) (sinks_inv mb me)) (si_sent i) (si_export i) (si_feed i) sessions (pl_Exporter p)
    (pipeline_sinks p) t) as HK. destruct (ExportOnce _ _ _ _ _ _ _) as [[[n e1] sk] t1].
  specialize (HK HP). cbn in HK. destruct (Forall2_cons_inv_l _ _ _ _ HK) as ([[a s]|] & sk' & Hs & HK' & ->); [|done].
  destruct (Forall2_cons_inv_l _ _ _ _ HK') as ([|d] & sk'' & Hd & HK'' & ->); [done|]. apply Forall2_nil_inv_l in HK'' as ->.
  cbn [with_sinks pl_Aggregator pl_Store]. destruct Hs as [HW EM].
  pose proof (tickLocked_kept (si_seal i) (si_tick i) a s t1 HW) as [HW2 EM2]. unfold ag_Tick.
  destruct (tickLocked _ _ _ _ _) as [[[err a2] s2] t2]. set (t3 := match err with Some _ => _ | None => _ end).
  pose proof (purge_kept (si_purge i) (si_purgeLeaf i) s2 t3 HW2) as [HW4 EM4].
  destruct (PurgeExpired _ _ _ _) as [[n4 s4] t4]. split; [|done]. split; [done|]. simpl in *. congruence.
Qed.

Lemma Close_wf mb me seal now clk p t : pipeline_wf mb me p → pipeline_wf mb me (Close seal now clk p t).1.2.
Proof.
  intros [[HW EM] (ED & s & HR & HS)]. unfold Close, Seal. cbn zeta in *. cbn [snd] in HW, EM.
  match goal with |- context [sealLocked ?ck ?id ?a ?s t] => pose proof (sealLocked_kept ck id a s t HW) as [HW' EM'] end.
  destruct (sealLocked _ _ _ _ _) as [[[e1 a1] s1] t1]. unfold Flush.
  assert (∀ e2 d2 t2, det_inv me d2 → pipeline_wf mb me
    (let '(e2, d2, t2) := (e2, d2, t2) : option append_error * Detector * trace in (option_list e1 ++ option_list e2,
       mkPipeline (pl_Exporter p) a1 d2 s1 (pl_interval p) (pl_onTrip p), t2)).1.2) as HX.
  { intros e2 d2 t2 HD. split; [|done]. split; [done|]. simpl in *. congruence. }
  destruct (_ <? 0); [by apply HX; split; [|exists s]|].
  pose proof (det_sealLocked_refines clk (dt_watermark (pl_Detector p)) s (pl_Detector p) t1 HR) as HF.
  destruct (det_sealLocked _ _ _ _) as [[e2 d2] t2]. destruct HF as [HF (_ & E2 & _)]. apply HX. split; [congruence|by exists s].
Qed.

(** The calls of a pipeline; between them the ledger and the rest of the cell do what they like. *)
Inductive pipeline_run : Pipeline → Pipeline → Prop :=
  | pipe_refl p : pipeline_run p p
  | pipe_step p p1 i l t : pipeline_run p p1 → pipeline_run p (Step i l p1 t).1.2
  | pipe_close p p1 seal now clk t : pipeline_run p p1 → pipeline_run p (Close seal now clk p1 t).1.2.

Lemma new_store cellID salt leaves journal ttl max onTrip s :
  NewRetentionStore cellID salt leaves journal ttl max onTrip = inr s →
  rt_batches s = ∅ ∧ rt_max s = (if max =? 0 then defaultMaxBatches else max) ∧ 0 ≤ rt_max s.
Proof.
  unfold NewRetentionStore. cbn zeta. destruct (bool_decide _); [done|]. destruct (_ <? 16)%nat; [done|]. destruct (negb _); [done|].
  destruct (_ <? millisecond); [done|]. destruct (Z.ltb_spec (if max =? 0 then defaultMaxBatches else max) 0); [done|]. by intros [= <-].
Qed.

Lemma new_detector_max cellID salt leaves journal pm window maxE onA onT d :
  NewDetector cellID salt leaves journal pm window maxE onA onT = inr d →
  dt_maxEnt d = (if maxE =? 0 then defaultMaxEntities else maxE) ∧ 0 ≤ dt_maxEnt d.
Proof.
  unfold NewDetector. cbn zeta. destruct (bool_decide _); [done|]. destruct (_ <? 16)%nat; [done|]. destruct (negb _); [done|].
  destruct (params_invalid pm); [done|]. destruct (_ <? millisecond); [done|].
  destruct (Z.ltb_spec (if maxE =? 0 then defaultMaxEntities else maxE) 0); [done|]. by intros [= <-].
Qed.

Lemma NewPipeline_wf o p : NewPipeline o = inr p →
  pipeline_wf (if po_MaxBatches o =? 0 then defaultMaxBatches else po_MaxBatches o) defaultMaxEntities p ∧
  0 ≤ (if po_MaxBatches o =? 0 then defaultMaxBatches else po_MaxBatches o).
Proof.
  unfold NewPipeline. destruct (negb _); [done|]. cbn zeta.
  destruct (NewRetentionStore _ _ _ _ _ _ _) as [|store] eqn:ES; [done|]. destruct (NewAggregator _ _ _ _ _ _ _ _) as [|agg]; [done|].
  destruct (NewDetector _ _ _ _ _ _ _ _ _) as [|det] eqn:ED; [done|]. destruct (NewExporter _ _ _ _ _ _ _) as [|ex]; [done|].
  intros [= <-]. destruct (new_store _ _ _ _ _ _ _ _ ES) as (EB & EM & HM). destruct (new_detector_max _ _ _ _ _ _ _ _ _ _ ED) as [EX HX].
  rewrite EM in HM. split; [|done]. split.
  - split; [|done]. split; simpl; rewrite EB; [intros id b; by rewrite lookup_empty|]. rewrite map_size_empty. lia.
  - split; [done|]. exists (mkMeter (-1) ∅). split; [by eapply new_detector_refines|done].
Qed.

Lemma pipeline_run_wf mb me p p' : pipeline_run p p' → pipeline_wf mb me p → pipeline_wf mb me p'.
Proof. induction 1; eauto using Step_wf, Close_wf. Qed.

(** The pipeline is bounded. Whatever the sessions, the clock, the registry and the network do, a pipeline
    keeps at most its number of raw batches, each under its own window and with records, and tracks
    at most 4096 destinations, each with 1440 slots of minutes and 168 slots of hours. *)
Theorem pipeline_bounded o p0 p :
  NewPipeline o = inr p0 → pipeline_run p0 p →
  Z.of_nat (size (rt_batches (pl_Store p))) ≤ (if po_MaxBatches o =? 0 then defaultMaxBatches else po_MaxBatches o) ∧
  (∀ id b, Batch id (pl_Store p) = Some b → rb_WindowID b = id ∧ rb_Records b ≠ []) ∧
  Z.of_nat (size (dt_entities (pl_Detector p))) ≤ defaultMaxEntities ∧
  ∀ k e, dt_entities (pl_Detector p) !! k = Some e →
    length (rg_date (ep_min e)) = ring24Slots ∧ length (rg_val (ep_min e)) = ring24Slots ∧
    length (rg_date (ep_hour e)) = ring7Slots ∧ length (rg_val (ep_hour e)) = ring7Slots.
Proof.
  intros Hn HR. destruct (NewPipeline_wf _ _ Hn) as [HW HM]. destruct (pipeline_run_wf _ _ _ _ HR HW) as [[[HB HS] EM] (_ & s & [HD _] & HL)].
  simpl in *. split_and!; [lia|apply HB|by rewrite (det_ok_size _ _ HD)|]. intros k e He. destruct HD as (_ & _ & HP). specialize (HP k).
  rewrite He in HP. destruct (mt_logs s !! k); [|done]. destruct HP as (_ & (L1 & L2 & _) & h & c & (L3 & L4 & _) & _). done.
Qed.
End invariant.
