(* ===== verification/AsyncWriter.v ===== *)
(** The asynchronous writer of leaves: [src/registry/async_writer.go].

    A leaf is accepted when it has been given to the batcher of the log, and confirmed, in order, when a
    checkpoint covers it. The queue of accepted leaves is a slice with an index of its head. When the oldest
    leaf that is not confirmed is older than the window, the writer cuts: it refuses every leaf until the
    queue is empty, and then traces the episode. Each critical section of the source is a function here; how
    they interleave is in Backpressure.

    The log gives its entries their places in the order in which they are added; a future is such a place. *)
From S2P Require Import Prelude.
From S2P Require Import Json.
From S2P Require Import Leaf.
From S2P Require Import Effects.

Local Open Scope Z_scope.

Definition DefaultOpposabilityWindow : Z := second.
Definition DefaultAsyncQueueCapacity : Z := 8192.

(** The verbs of [fmt.Sprintf] the payloads use beside [%d]: [%q], and [%q] of a date. *)
Class GoFmt := { fmt_q : string → bytes; fmt_date : Z → bytes }.

Inductive log_error :=
  | ErrBackpressure | ErrDurabilityCut | ErrDurabilityBacklog | ErrAsyncClosed | ErrLeafInvalid (e : leaf_error) | ErrAwait.

Record pendingFuture := mkPendingFuture { pf_future : nat; pf_enqueued : Z }.

Record AsyncWriter := mkAsyncWriter {
  aw_cellID : string; aw_salt : bytes; aw_journal : bool; aw_onJournalFault : bool; aw_window : Z; aw_capacity : Z;
  aw_onTrip : bool; aw_onClear : bool;
  aw_queue : list pendingFuture; aw_head : nat; aw_tripped : bool; aw_tripAt : Z; aw_refusedCut : Z; aw_episodes : Z;
  aw_catchup : bool; aw_stop : bool; aw_accepted : Z; aw_confirmed : Z; aw_refusedBklog : Z }.

(** [NewAsyncWriter] over a log whose interval of checkpoint is [cpInterval]. *)
Definition NewAsyncWriter (log : bool) (cpInterval : Z) (cellID : string) (salt : bytes) (journal onJournalFault : bool)
    (window capacity : Z) (onTrip onClear : bool) : option AsyncWriter :=
  if negb log then None
  else if bool_decide (cellID = "") then None
  else if (length salt <? 16)%nat then None
  else
    let window := if window =? 0 then DefaultOpposabilityWindow else window in
    if window <? 0 then None
    else if window <? i64 (4 * cpInterval) then None
    else
      let capacity := if capacity =? 0 then DefaultAsyncQueueCapacity else capacity in
      if capacity <? 1 then None
      else Some (mkAsyncWriter cellID salt journal onJournalFault window capacity onTrip onClear
                   [] 0 false 0 0 0 false false 0 0 0).

Definition set_queue (q : list pendingFuture) (h : nat) (w : AsyncWriter) : AsyncWriter :=
  mkAsyncWriter (aw_cellID w) (aw_salt w) (aw_journal w) (aw_onJournalFault w) (aw_window w) (aw_capacity w) (aw_onTrip w)
    (aw_onClear w) q h (aw_tripped w) (aw_tripAt w) (aw_refusedCut w) (aw_episodes w) (aw_catchup w) (aw_stop w)
    (aw_accepted w) (aw_confirmed w) (aw_refusedBklog w).
Definition set_cut (tripped : bool) (tripAt refusedCut episodes : Z) (w : AsyncWriter) : AsyncWriter :=
  mkAsyncWriter (aw_cellID w) (aw_salt w) (aw_journal w) (aw_onJournalFault w) (aw_window w) (aw_capacity w) (aw_onTrip w)
    (aw_onClear w) (aw_queue w) (aw_head w) tripped tripAt refusedCut episodes (aw_catchup w) (aw_stop w)
    (aw_accepted w) (aw_confirmed w) (aw_refusedBklog w).
Definition set_flags (catchup stop : bool) (w : AsyncWriter) : AsyncWriter :=
  mkAsyncWriter (aw_cellID w) (aw_salt w) (aw_journal w) (aw_onJournalFault w) (aw_window w) (aw_capacity w) (aw_onTrip w)
    (aw_onClear w) (aw_queue w) (aw_head w) (aw_tripped w) (aw_tripAt w) (aw_refusedCut w) (aw_episodes w) catchup stop
    (aw_accepted w) (aw_confirmed w) (aw_refusedBklog w).
Definition set_counts (accepted confirmed refused : Z) (w : AsyncWriter) : AsyncWriter :=
  mkAsyncWriter (aw_cellID w) (aw_salt w) (aw_journal w) (aw_onJournalFault w) (aw_window w) (aw_capacity w) (aw_onTrip w)
    (aw_onClear w) (aw_queue w) (aw_head w) (aw_tripped w) (aw_tripAt w) (aw_refusedCut w) (aw_episodes w) (aw_catchup w)
    (aw_stop w) accepted confirmed refused.

(** The leaves that wait to be confirmed. *)
Definition outstanding (w : AsyncWriter) : list pendingFuture := drop (aw_head w) (aw_queue w).

(** [encodeLeaf]; [now] is the local clock, for a leaf without a date. *)
Definition encodeLeaf (now : Z) (l : Leaf) : log_error + bytes :=
  let l := if Timestamp l =? 0 then mkLeaf (Kind l) (CellID l) (PayloadHash l) (UnixNano now) else l in
  match Marshal l with inl e => inl (ErrLeafInvalid e) | inr data => inr data end.

(** ** Critical sections *)

(** [Append], from the second look at the backpressure to the release of the lock. [next] is the place the
    log would give to the entry; the entry is added to the log when the answer is [None]. *)
Definition aw_accept (next : nat) (now : Z) (w : AsyncWriter) : option log_error * AsyncWriter :=
  if aw_tripped w then (Some ErrDurabilityCut, set_cut (aw_tripped w) (aw_tripAt w) (u64 (aw_refusedCut w + 1)) (aw_episodes w) w)
  else if aw_capacity w <=? Z.of_nat (length (aw_queue w) - aw_head w) then
    (Some ErrDurabilityBacklog, set_counts (aw_accepted w) (aw_confirmed w) (u64 (aw_refusedBklog w + 1)) w)
  else
    (None, set_counts (u64 (aw_accepted w + 1)) (aw_confirmed w) (aw_refusedBklog w)
             (set_queue (aw_queue w ++ [mkPendingFuture next now]) (aw_head w) w)).

(** One turn of [cutWatch]: the delay and the number of leaves that wait, when it cuts. The clock is read for
    the delay, then for the date of the cut. *)
Definition cut_tick (now now2 : Z) (w : AsyncWriter) : option (Z * nat) * AsyncWriter :=
  match aw_queue w !! aw_head w with
  | Some oldest =>
      if aw_stop w || aw_tripped w then (None, w)
      else
        let lag := now - pf_enqueued oldest in
        if aw_window w <? lag then
          (Some (lag, (length (aw_queue w) - aw_head w)%nat), set_cut true now2 0 (u64 (aw_episodes w + 1)) w)
        else (None, w)
  | None => (None, w)
  end.

(** [tracker], once a future is confirmed: whether a catch-up begins. *)
Definition confirm (w : AsyncWriter) : bool * AsyncWriter :=
  let h := S (aw_head w) in
  let w1 := if (h =? length (aw_queue w))%nat then set_queue [] 0 w else set_queue (aw_queue w) h w in
  let w2 := set_counts (aw_accepted w1) (u64 (aw_confirmed w1 + 1)) (aw_refusedBklog w1) w1 in
  let recovering := (length (aw_queue w2) <=? aw_head w2)%nat && aw_tripped w2 in
  (recovering, if recovering then set_flags true (aw_stop w2) w2 else w2).

(** The first section of [writeCatchup]. *)
Definition begin_catchup (w : AsyncWriter) : Z * Z * Z * AsyncWriter :=
  (aw_episodes w, aw_refusedCut w, aw_tripAt w, set_cut false (aw_tripAt w) (aw_refusedCut w) (aw_episodes w) w).

(** The payload of the leaf of an episode. *)
Definition episode_payload `{GoFmt} (episodes refused tripAt recoveredAt lag : Z) : bytes :=
  [open_obj] ++ json_key "record" ++ json_string "TBAD1" ++ [comma] ++ json_key "episode" ++ json_int episodes
  ++ [comma] ++ json_key "refusedAtCut" ++ json_int refused ++ [comma] ++ json_key "cutAt" ++ fmt_date tripAt
  ++ [comma] ++ json_key "recoveredAt" ++ fmt_date recoveredAt ++ [comma] ++ json_key "lagMs"
  ++ json_int (Z.quot lag millisecond) ++ [close_obj].

(** The last section of [writeCatchup]. *)
Definition end_catchup (w : AsyncWriter) : AsyncWriter := set_flags false (aw_stop w) w.

(** What [WaitOutstanding] looks at. *)
Definition drained (w : AsyncWriter) : bool := (length (aw_queue w) <=? aw_head w)%nat && negb (aw_catchup w).

(** [Close] up to its wait. *)
Definition begin_close (w : AsyncWriter) : AsyncWriter := set_flags (aw_catchup w) true w.

(** [SealLeafBestEffort] (registry/record_store.go): the leaf, and whether the journal refused its record. *)
Definition SealLeafBestEffort `{Crypto, Env} (store : bool) (kind : byte) (cellID : string) (salt record : bytes) (ts : Z) (t : trace) :
    Leaf * option append_error * trace :=
  let leaf := mkLeaf kind cellID (HashPayload salt record) ts in
  if store then let '(e, t') := Put leaf salt record t in (leaf, e, t') else (leaf, None, t).

(** [SealLeaf]: a refused journal gives no leaf. *)
Definition SealLeaf `{Crypto, Env} (store : bool) (kind : byte) (cellID : string) (salt record : bytes) (ts : Z) (t : trace) :
    (append_error + Leaf) * trace :=
  let leaf := mkLeaf kind cellID (HashPayload salt record) ts in
  if store then match Put leaf salt record t with (Some e, t') => (inl e, t') | (None, t') => (inr leaf, t') end else (inr leaf, t).

(** ** What the sections keep *)

(** The futures that wait are those of consecutive acceptances: the counters agree with the queue. *)
Definition aw_wf (w : AsyncWriter) : Prop :=
  (aw_head w ≤ length (aw_queue w))%nat ∧ (aw_queue w ≠ [] → (aw_head w < length (aw_queue w))%nat) ∧
  Z.of_nat (length (outstanding w)) ≤ aw_capacity w ∧ 1 ≤ aw_capacity w ∧
  aw_accepted w = u64 (aw_confirmed w + Z.of_nat (length (outstanding w))) ∧ in_u64 (aw_confirmed w).

Lemma outstanding_length w : length (outstanding w) = (length (aw_queue w) - aw_head w)%nat.
Proof. apply length_drop. Qed.

Lemma aw_accept_spec next now w : aw_wf w →
  let '(e, w') := aw_accept next now w in
  aw_wf w' ∧ outstanding w' = outstanding w ++ (match e with None => [mkPendingFuture next now] | Some _ => [] end) ∧
  aw_tripped w' = aw_tripped w ∧ aw_catchup w' = aw_catchup w ∧
  (e = None ↔ aw_tripped w = false ∧ Z.of_nat (length (outstanding w)) < aw_capacity w).
Proof.
  intros (HH & HN & HC & HK & HA & HU). unfold aw_accept. rewrite <-outstanding_length.
  destruct (aw_tripped w) eqn:Et; [split_and!; [done|by rewrite app_nil_r|done|done|naive_solver]|].
  destruct (Z.leb_spec (aw_capacity w) (Z.of_nat (length (outstanding w)))) as [Hf|Hf].
  { split_and!; [done|by rewrite app_nil_r|done|done|]. split; [done|lia]. }
  assert (outstanding (set_queue (aw_queue w ++ [mkPendingFuture next now]) (aw_head w) w) = outstanding w ++ [mkPendingFuture next now]) as EO.
  { unfold outstanding. simpl. rewrite drop_app. replace (aw_head w - length (aw_queue w))%nat with 0%nat by lia. done. }
  split_and!; [|done|done|done|done]. unfold aw_wf. simpl. change (outstanding (set_counts _ _ _ ?x)) with (outstanding x). rewrite EO.
  rewrite !length_app. simpl. split_and!; [lia|lia|lia|done| |done].
  rewrite HA. unfold u64. rewrite Z.add_mod_idemp_l by done. f_equal. lia.
Qed.

Lemma confirm_spec w pf rest : aw_wf w → outstanding w = pf :: rest →
  let '(r, w') := confirm w in
  aw_wf w' ∧ outstanding w' = rest ∧ aw_tripped w' = aw_tripped w ∧ r = bool_decide (rest = []) && aw_tripped w ∧
  aw_catchup w' = (if r then true else aw_catchup w).
Proof.
  intros (HH & HN & HC & HK & HA & HU) HO. pose proof (outstanding_length w) as HL. rewrite HO in HL, HA, HC. simpl in HL, HC, HA.
  assert (drop (S (aw_head w)) (aw_queue w) = rest) as HD.
  { unfold outstanding in HO. by apply (f_equal (drop 1)) in HO; rewrite drop_drop, Nat.add_1_r in HO. }
  unfold confirm. set (w1 := if (S (aw_head w) =? length (aw_queue w))%nat then _ else _).
  assert (outstanding w1 = rest ∧ (aw_head w1 ≤ length (aw_queue w1))%nat ∧ (aw_queue w1 ≠ [] → (aw_head w1 < length (aw_queue w1))%nat) ∧
    aw_tripped w1 = aw_tripped w ∧ aw_catchup w1 = aw_catchup w ∧ aw_confirmed w1 = aw_confirmed w ∧ aw_accepted w1 = aw_accepted w ∧
    aw_capacity w1 = aw_capacity w) as (E1 & E2 & E3 & E4 & E5 & E6 & E7 & E8).
  { subst w1. destruct (Nat.eqb_spec (S (aw_head w)) (length (aw_queue w))) as [E|E]; unfold outstanding; simpl.
    - split_and!; try done. rewrite <-HD, E. symmetry. apply drop_all.
    - split_and!; try done; lia. }
  assert (∀ c, aw_wf (set_flags c (aw_stop w1) (set_counts (aw_accepted w1) (u64 (aw_confirmed w1 + 1)) (aw_refusedBklog w1) w1)) ∧
    aw_wf (set_counts (aw_accepted w1) (u64 (aw_confirmed w1 + 1)) (aw_refusedBklog w1) w1)) as HW.
  { intros c. unfold aw_wf. simpl. change (outstanding (set_flags _ _ ?x)) with (outstanding x).
    change (outstanding (set_counts _ _ _ ?x)) with (outstanding x). rewrite E1, E6, E7, E8, HA.
    assert (u64 (aw_confirmed w + Z.of_nat (S (length rest))) = u64 (u64 (aw_confirmed w + 1) + Z.of_nat (length rest))) as EU.
    { unfold u64. rewrite Z.add_mod_idemp_l by done. f_equal. lia. }
    pose proof (u64_range (aw_confirmed w + 1)). split; split_and!; try done; lia. }
  cbn [aw_queue aw_head set_counts].
  assert ((length (aw_queue w1) <=? aw_head w1)%nat = bool_decide (rest = [])) as EB.
  { pose proof (outstanding_length w1) as HL1. rewrite E1 in HL1. destruct rest; simpl in HL1.
    - rewrite bool_decide_true by done. apply Nat.leb_le. lia.
    - rewrite bool_decide_false by done. apply Nat.leb_gt. lia. }
  rewrite EB. simpl. rewrite E4. destruct (_ && _); split_and!; try done; apply (HW true).
Qed.
