(* ===== verification/Backpressure.v ===== *)
(** The log of a cell under backpressure: [src/registry/backpressure.go], [src/registry/cell_log.go], and the
    goroutines of [src/registry/async_writer.go].

    Callers append leaves to the log, at once or through the asynchronous writer; the tracker of the writer
    confirms them; the watch cuts when they are late; the monitor samples the disk and engages. All of them run
    at once. A goroutine is a point of its program, each step between two of its accesses to shared state is
    atomic, and [act_step] takes one step of one of them: the theorems are about every sequence of actions.
    What the clock, the disk, the journal and the contexts answer is part of the action. *)
From S2P Require Import Prelude.
From S2P Require Import Json.
From S2P Require Import Leaf.
From S2P Require Import Effects.
From S2P Require Import AsyncWriter.
From Stdlib Require Import QArith.

Local Open Scope Z_scope.

Definition DefaultInterval : Z := second.

(** The alarm of an engagement. *)
Record DiskAlarm := mkDiskAlarm {
  dk_Reason : string; dk_CellID : string; dk_UsedBytes : Z; dk_QuotaBytes : Z; dk_HostFree : Z; dk_At : Z }.

Definition add_reason (suffix : string) (a : DiskAlarm) : DiskAlarm :=
  mkDiskAlarm (dk_Reason a +:+ suffix) (dk_CellID a) (dk_UsedBytes a) (dk_QuotaBytes a) (dk_HostFree a) (dk_At a).

(** [mn_limit] is the quota times the threshold, in the floating-point arithmetic of the source. *)
Record DiskMonitor := mkDiskMonitor {
  mn_bound : bool; mn_cellID : string; mn_quota : Z; mn_limit : Z; mn_hostFloor : Z; mn_interval : Z; mn_onTrip : bool;
  mn_onAlarm : bool; mn_drain : bool; mn_salt : bytes; mn_journal : bool }.

(** [NewDiskMonitor]; [scale] is [uint64(threshold * float64(quota))], [salt] what the source of random bytes gives. *)
Definition NewDiskMonitor (scale : Q → Z → Z) (dir cellID : string) (quota : Z) (threshold : Q) (hostFloor interval : Z)
    (journal onTrip onAlarm drain : bool) (salt : option bytes) : option DiskMonitor :=
  if bool_decide (dir = "") then None
  else if bool_decide (cellID = "") then None
  else if quota =? 0 then None
  else
    let threshold := if Qeq_bool threshold 0 then (4 # 5)%Q else threshold in
    if Qle_bool threshold 0 || Qle_bool 1 threshold then None
    else
      let interval := if interval =? 0 then DefaultInterval else interval in
      if interval <? 0 then None
      else match salt with
      | None => None
      | Some salt => Some (mkDiskMonitor false cellID quota (scale threshold quota) hostFloor interval onTrip onAlarm drain salt journal)
      end.

(** [Bind]: refused when the monitor has a log. *)
Definition Bind (m : DiskMonitor) : option DiskMonitor :=
  if mn_bound m then None
  else Some (mkDiskMonitor true (mn_cellID m) (mn_quota m) (mn_limit m) (mn_hostFloor m) (mn_interval m) (mn_onTrip m) (mn_onAlarm m)
               (mn_drain m) (mn_salt m) (mn_journal m)).

(** The reason to engage, if there is one; a measure is [None] when it fails. *)
Definition disk_reason (m : DiskMonitor) (used free : option Z) : option string :=
  match used, free with
  | Some used, Some free =>
      if mn_limit m <=? used then Some "registry-disk-80%"
      else if (0 <? mn_hostFloor m) && (free <=? mn_hostFloor m) then Some "registry-host-disk-low"
      else None
  | _, _ => Some "registry-sampler-error"
  end.

(** The payload of the leaf of stop. *)
Definition stop_payload `{GoFmt} (a : DiskAlarm) : bytes :=
  [open_obj] ++ json_key "reason" ++ fmt_q (dk_Reason a) ++ [comma] ++ json_key "cellID" ++ fmt_q (dk_CellID a)
  ++ [comma] ++ json_key "usedBytes" ++ json_int (dk_UsedBytes a) ++ [comma] ++ json_key "quotaBytes"
  ++ json_int (dk_QuotaBytes a) ++ [comma] ++ json_key "at" ++ fmt_date (dk_At a) ++ [close_obj].

(** ** The points of the goroutines *)

(** A call of [CellLog.Append] (the first five) or of [AsyncWriter.Append]. *)
Inductive caller :=
  | PChecked (l : Leaf)                  (* after the first look at the backpressure *)
  | PEntered (l : Leaf)                  (* in flight *)
  | PCleared (l : Leaf)                  (* after the second look *)
  | PWaiting (future : nat)              (* added, waits for a checkpoint *)
  | PExiting (r : log_error + nat)       (* still in flight *)
  | PAChecked (data : bytes)             (* encoded, waits for the lock of the writer *)
  | PALocked (data : bytes)              (* holds the lock, after the second look *)
  | PReturned (r : log_error + nat).

(** The tracker of the writer, and [writeCatchup]. *)
Inductive tracker_pc :=
  | TTop | TAwait (future : nat) | TConfirm | TRecover | TCheck (episodes refused tripAt : Z) | TSeal (episodes refused tripAt : Z)
  | TAdd (l : Leaf) | TWait (future : nat) | TEnd | TDone.

(** The monitor; [dr] says whether the drain of the writer ended. *)
Inductive monitor_pc :=
  | MIdle | MSampled (a : DiskAlarm) | MFlight (a : DiskAlarm) | MDrain (a : DiskAlarm) | MSeal (dr : bool) (a : DiskAlarm)
  | MAdd (dr : bool) (a : DiskAlarm) (l : Leaf) | MAwait (a : DiskAlarm) (future : nat) | MNotify (a : DiskAlarm).

(** The callbacks. *)
Inductive log_call :=
  | CallTrip (a : DiskAlarm) | CallAlarm (a : DiskAlarm) | CallCut (lag window : Z) (pending : nat) | CallJournalFault | CallClear.

(** The log gives entries their places in order; [lg_published] of them are covered by a checkpoint. *)
Record log_sys := mkLogSys {
  lg_added : list bytes; lg_published : nat; lg_inflight : Z; lg_engaged : bool; lg_closed : bool; lg_aw : AsyncWriter; lg_lock : bool;
  lg_callers : gmap nat caller; lg_tracker : tracker_pc; lg_mon : monitor_pc; lg_trace : trace; lg_calls : list log_call }.

Definition set_caller (i : nat) (p : caller) (s : log_sys) : log_sys :=
  mkLogSys (lg_added s) (lg_published s) (lg_inflight s) (lg_engaged s) (lg_closed s) (lg_aw s) (lg_lock s)
    (<[i := p]> (lg_callers s)) (lg_tracker s) (lg_mon s) (lg_trace s) (lg_calls s).
Definition set_flight (n : Z) (s : log_sys) : log_sys :=
  mkLogSys (lg_added s) (lg_published s) n (lg_engaged s) (lg_closed s) (lg_aw s) (lg_lock s)
    (lg_callers s) (lg_tracker s) (lg_mon s) (lg_trace s) (lg_calls s).
Definition add_entry (d : bytes) (s : log_sys) : log_sys :=
  mkLogSys (lg_added s ++ [d]) (lg_published s) (lg_inflight s) (lg_engaged s) (lg_closed s) (lg_aw s) (lg_lock s)
    (lg_callers s) (lg_tracker s) (lg_mon s) (lg_trace s) (lg_calls s).
Definition set_published (n : nat) (s : log_sys) : log_sys :=
  mkLogSys (lg_added s) n (lg_inflight s) (lg_engaged s) (lg_closed s) (lg_aw s) (lg_lock s)
    (lg_callers s) (lg_tracker s) (lg_mon s) (lg_trace s) (lg_calls s).
Definition set_engaged (e c : bool) (s : log_sys) : log_sys :=
  mkLogSys (lg_added s) (lg_published s) (lg_inflight s) e c (lg_aw s) (lg_lock s)
    (lg_callers s) (lg_tracker s) (lg_mon s) (lg_trace s) (lg_calls s).
Definition set_writer (w : AsyncWriter) (lock : bool) (s : log_sys) : log_sys :=
  mkLogSys (lg_added s) (lg_published s) (lg_inflight s) (lg_engaged s) (lg_closed s) w lock
    (lg_callers s) (lg_tracker s) (lg_mon s) (lg_trace s) (lg_calls s).
Definition set_tracker (p : tracker_pc) (s : log_sys) : log_sys :=
  mkLogSys (lg_added s) (lg_published s) (lg_inflight s) (lg_engaged s) (lg_closed s) (lg_aw s) (lg_lock s)
    (lg_callers s) p (lg_mon s) (lg_trace s) (lg_calls s).
Definition set_mon (p : monitor_pc) (s : log_sys) : log_sys :=
  mkLogSys (lg_added s) (lg_published s) (lg_inflight s) (lg_engaged s) (lg_closed s) (lg_aw s) (lg_lock s)
    (lg_callers s) (lg_tracker s) p (lg_trace s) (lg_calls s).
Definition add_effects (t : trace) (calls : list log_call) (s : log_sys) : log_sys :=
  mkLogSys (lg_added s) (lg_published s) (lg_inflight s) (lg_engaged s) (lg_closed s) (lg_aw s) (lg_lock s)
    (lg_callers s) (lg_tracker s) (lg_mon s) t (lg_calls s ++ calls).

(** ** Steps *)

(** The wait for a checkpoint: [ok] when it covers the entry; the context may end it at any time. *)
Definition await (ok : bool) (future : nat) (s : log_sys) : option bool :=
  if ok then if (future <? lg_published s)%nat then Some true else None else Some false.

(** A call begins. *)
Definition begin_append (i : nat) (async : bool) (l : Leaf) (now : Z) (s : log_sys) : option log_sys :=
  match lg_callers s !! i with
  | Some _ => None
  | None =>
      Some (set_caller i
        (if lg_engaged s then PReturned (inl ErrBackpressure)
         else if async then match encodeLeaf now l with inl e => PReturned (inl e) | inr d => PAChecked d end
         else PChecked l) s)
  end.

(** A call goes on. *)
Definition caller_step (i : nat) (ok : bool) (now : Z) (s : log_sys) : option log_sys :=
  match lg_callers s !! i with
  | Some (PChecked l) => Some (set_caller i (PEntered l) (set_flight (lg_inflight s + 1) s))
  | Some (PEntered l) => Some (set_caller i (if lg_engaged s then PExiting (inl ErrBackpressure) else PCleared l) s)
  | Some (PCleared l) =>
      Some (match encodeLeaf now l with
            | inl e => set_caller i (PExiting (inl e)) s
            | inr d => set_caller i (PWaiting (length (lg_added s))) (add_entry d s)
            end)
  | Some (PWaiting future) =>
      (λ b : bool, set_caller i (PExiting (if b then inr future else inl ErrAwait)) s) <$> await ok future s
  | Some (PExiting r) => Some (set_caller i (PReturned r) (set_flight (lg_inflight s - 1) s))
  | Some (PAChecked d) =>
      if lg_lock s then None
      else Some (if aw_stop (lg_aw s) then set_caller i (PReturned (inl ErrAsyncClosed)) s
                 else if lg_engaged s then set_caller i (PReturned (inl ErrBackpressure)) s
                 else set_caller i (PALocked d) (set_writer (lg_aw s) true s))
  | Some (PALocked d) =>
      let '(e, w) := aw_accept (length (lg_added s)) now (lg_aw s) in
      Some (set_caller i (PReturned (match e with Some e => inl e | None => inr 0%nat end))
              (set_writer w false (match e with Some _ => s | None => add_entry d s end)))
  | Some (PReturned _) | None => None
  end.

Section steps.
Context `{Crypto, Env, GoFmt}.

(** The tracker. [now], [now2], [now3] are its readings of the clock. *)
Definition tracker_step (ok : bool) (now now2 now3 : Z) (s : log_sys) : option log_sys :=
  let w := lg_aw s in
  match lg_tracker s with
  | TTop =>
      if lg_lock s then None
      else match aw_queue w !! aw_head w with
           | Some pf => Some (set_tracker (TAwait (pf_future pf)) s)
           | None => if aw_stop w then Some (set_tracker TDone s) else None
           end
  | TAwait future => (λ b : bool, set_tracker (if b then TConfirm else TDone) s) <$> await ok future s
  | TConfirm =>
      if lg_lock s then None
      else let '(recovering, w') := confirm w in
           Some (set_tracker (if recovering then TRecover else TTop) (set_writer w' false s))
  | TRecover =>
      if lg_lock s then None
      else let '(episodes, refused, tripAt, w') := begin_catchup w in
           Some (set_tracker (TCheck episodes refused tripAt) (set_writer w' false s))
  | TCheck episodes refused tripAt => Some (set_tracker (if lg_engaged s then TEnd else TSeal episodes refused tripAt) s)
  | TSeal episodes refused tripAt =>
      let '(leaf, jerr, t) := SealLeafBestEffort (aw_journal w) KindTelemetry (aw_cellID w) (aw_salt w)
                                (episode_payload episodes refused tripAt now2 (now - tripAt)) (UnixNano now3) (lg_trace s) in
      Some (set_tracker (TAdd leaf)
              (add_effects t (match jerr with Some _ => if aw_onJournalFault w then [CallJournalFault] else [] | None => [] end) s))
  | TAdd l =>
      Some (match encodeLeaf now l with
            | inl _ => set_tracker TEnd s
            | inr d => set_tracker (TWait (length (lg_added s))) (add_entry d s)
            end)
  | TWait future => (λ _ : bool, set_tracker TEnd s) <$> await ok future s
  | TEnd =>
      if lg_lock s then None
      else Some (set_tracker TTop (add_effects (lg_trace s) (if aw_onClear w then [CallClear] else []) (set_writer (end_catchup w) false s)))
  | TDone => None
  end.

(** One turn of [cutWatch]. *)
Definition watch_step (now now2 : Z) (s : log_sys) : option log_sys :=
  if lg_lock s then None
  else let '(cut, w) := cut_tick now now2 (lg_aw s) in
       Some (add_effects (lg_trace s)
               (match cut with Some (lag, pending) => if aw_onTrip w then [CallCut lag (aw_window w) pending] else [] | None => [] end)
               (set_writer w false s)).

(** The monitor: [check], then [engage]. *)
Definition monitor_step (m : DiskMonitor) (used free : option Z) (at_ : Z) (ok : bool) (now : Z) (s : log_sys) : option log_sys :=
  match lg_mon s with
  | MIdle =>
      if lg_engaged s || lg_closed s then Some s
      else Some (match disk_reason m used free with
                 | None => s
                 | Some r => set_mon (MSampled (mkDiskAlarm r (mn_cellID m) (default 0 used) (mn_quota m) (default 0 free) at_)) s
                 end)
  | MSampled a =>
      if lg_engaged s then Some (set_mon MIdle s)
      else Some (set_mon (if mn_bound m then MFlight a else MNotify (add_reason "+leaf-write-failed" a)) (set_engaged true (lg_closed s) s))
  | MFlight a => if lg_inflight s =? 0 then Some (set_mon (if mn_drain m then MDrain a else MSeal false a) s) else None
  | MDrain a =>
      if ok then if negb (lg_lock s) && drained (lg_aw s) then Some (set_mon (MSeal true a) s) else None
      else Some (set_mon (MSeal false (add_reason "+async-drain-failed" a)) s)
  | MSeal dr a =>
      let '(leaf, jerr, t) := SealLeafBestEffort (mn_journal m) KindBackpressure (mn_cellID m) (mn_salt m) (stop_payload a)
                                (UnixNano (dk_At a)) (lg_trace s) in
      let a' := match jerr with Some _ => add_reason "+journal-write-failed" a | None => a end in
      Some (set_mon (MAdd dr a' leaf) (add_effects t [] s))
  | MAdd dr a l =>
      Some (match encodeLeaf now l with
            | inl _ => set_mon (MNotify (add_reason "+leaf-write-failed" a)) s
            | inr d => set_mon (MAwait a (length (lg_added s))) (add_entry d s)
            end)
  | MAwait a future =>
      (λ b : bool, set_mon (MNotify (if b then a else add_reason "+leaf-write-failed" a)) s) <$> await ok future s
  | MNotify a =>
      Some (set_mon MIdle (add_effects (lg_trace s)
              ((if mn_onTrip m then [CallTrip a] else []) ++ (if mn_onAlarm m then [CallAlarm a] else [])) s))
  end.

Inductive action :=
  | ACall (i : nat) (async : bool) (l : Leaf) (now : Z)
  | ACaller (i : nat) (ok : bool) (now : Z)
  | ATracker (ok : bool) (now now2 now3 : Z)
  | AWatch (now now2 : Z)
  | AMonitor (used free : option Z) (at_ : Z) (ok : bool) (now : Z)
  | APublish (n : nat)          (* a checkpoint *)
  | ADisengage                  (* the operator *)
  | AMonitorClose
  | AWriterClose.

Definition act_step (m : DiskMonitor) (x : action) (s : log_sys) : option log_sys :=
  match x with
  | ACall i async l now => begin_append i async l now s
  | ACaller i ok now => caller_step i ok now s
  | ATracker ok now now2 now3 => tracker_step ok now now2 now3 s
  | AWatch now now2 => watch_step now now2 s
  | AMonitor used free at_ ok now => monitor_step m used free at_ ok now s
  | APublish n => if (lg_published s <=? n)%nat && (n <=? length (lg_added s))%nat then Some (set_published n s) else None
  | ADisengage => Some (set_engaged false (lg_closed s) s)
  | AMonitorClose => Some (set_engaged (lg_engaged s) true s)
  | AWriterClose => if lg_lock s then None else Some (set_writer (begin_close (lg_aw s)) false s)
  end.

Fixpoint act_run (m : DiskMonitor) (xs : list action) (s : log_sys) : option log_sys :=
  match xs with
  | [] => Some s
  | x :: xs => s1 ← act_step m x s; act_run m xs s1
  end.

(** A log that was opened over [entries], with a new writer and a monitor at rest. *)
Definition opened (entries : list bytes) (w : AsyncWriter) : log_sys :=
  mkLogSys entries (length entries) 0 false false w false ∅ TTop MIdle [] [].
End steps.

(** ** Counting the calls in flight *)

Definition in_flight (p : caller) : bool :=
  match p with PEntered _ | PCleared _ | PWaiting _ | PExiting _ => true | _ => false end.
Definition is_cleared (p : caller) : bool := match p with PCleared _ => true | _ => false end.
Definition is_locked (p : caller) : bool := match p with PALocked _ => true | _ => false end.

Definition flights (m : gmap nat caller) : nat := size (filter (λ kv, in_flight kv.2 = true) m).

Lemma flights_insert m i p :
  (flights (<[i := p]> m) + (if default false (in_flight <$> m !! i) then 1 else 0) = flights m + (if in_flight p then 1 else 0))%nat.
Proof.
  unfold flights. rewrite <-(insert_delete_eq m i p).
  assert (∀ q, size (filter (λ kv, in_flight kv.2 = true) (<[i:=q]> (delete i m))) =
    (size (filter (λ kv, in_flight kv.2 = true) (delete i m)) + (if in_flight q then 1 else 0))%nat) as HX.
  { intros q. destruct (in_flight q) eqn:Eq.
    - rewrite map_filter_insert_True by done. rewrite map_size_insert_None; [lia|].
      apply map_lookup_filter_None_2. left. apply lookup_delete_eq.
    - rewrite map_filter_insert_False by (simpl; congruence). rewrite delete_delete_eq. lia. }
  rewrite HX. destruct (m !! i) as [q|] eqn:Em; simpl.
  - pose proof (HX q) as HQ. rewrite (insert_delete_id m i q Em) in HQ. lia.
  - rewrite delete_id by done. lia.
Qed.

Lemma flights_zero m i p : flights m = 0%nat → m !! i = Some p → in_flight p = false.
Proof.
  intros HZ Hp. destruct (in_flight p) eqn:E; [|done]. apply map_size_empty_inv in HZ.
  assert (filter (λ kv, in_flight kv.2 = true) m !! i = Some p) as HF by by apply map_lookup_filter_Some_2.
  by rewrite HZ, lookup_empty in HF.
Qed.

(** ** The invariant *)

Definition catching (p : tracker_pc) : bool :=
  match p with TRecover | TCheck _ _ _ | TSeal _ _ _ | TAdd _ | TWait _ | TEnd => true | _ => false end.

(** Nobody is on the way to add an entry, but the monitor. *)
Definition sealed (s : log_sys) : Prop :=
  lg_engaged s = true ∧ (∀ i p, lg_callers s !! i = Some p → is_cleared p = false ∧ is_locked p = false) ∧
  outstanding (lg_aw s) = [] ∧ aw_catchup (lg_aw s) = false.

(** The calls: how many are in flight, and who holds the lock of the writer. *)
Definition callers_ok (s : log_sys) : Prop :=
  lg_inflight s = Z.of_nat (flights (lg_callers s)) ∧
  (∀ i p, lg_callers s !! i = Some p → is_locked p = true → lg_lock s = true) ∧
  (∀ i j p q, lg_callers s !! i = Some p → lg_callers s !! j = Some q → is_locked p = true → is_locked q = true → i = j).

Definition writer_ok (s : log_sys) : Prop :=
  aw_wf (lg_aw s) ∧ catching (lg_tracker s) = aw_catchup (lg_aw s) ∧
  match lg_tracker s with TAwait _ | TConfirm => outstanding (lg_aw s) ≠ [] | _ => True end.

Definition monitor_ok (s : log_sys) : Prop :=
  match lg_mon s with
  | MSampled _ => lg_engaged s = false
  | MFlight _ => True
  | p =>
      (lg_engaged s = true → ∀ i p, lg_callers s !! i = Some p → is_cleared p = false) ∧
      match p with
      | MSeal true _ => lg_engaged s = true → sealed s
      | MAdd dr _ l => (dr = true → lg_engaged s = true → sealed s) ∧ Kind l = KindBackpressure
      | _ => True
      end
  end.

Definition log_inv (s : log_sys) : Prop := callers_ok s ∧ writer_ok s ∧ monitor_ok s.

Lemma callers_ok_step s i p n lock : callers_ok s →
  n = lg_inflight s + (if in_flight p then 1 else 0) - (if default false (in_flight <$> lg_callers s !! i) then 1 else 0) →
  (if is_locked p then lg_lock s = false ∧ lock = true else (default false (is_locked <$> lg_callers s !! i) = true) ∨ lock = lg_lock s) →
  callers_ok (set_caller i p (set_flight n (set_writer (lg_aw s) lock s))).
Proof.
  intros (HF & HL & HU) Hn Hl. split_and!; cbn [lg_inflight lg_callers lg_lock set_caller set_flight set_writer].
  - pose proof (flights_insert (lg_callers s) i p). subst n. rewrite HF. destruct (default false (in_flight <$> _)), (in_flight p); lia.
  - intros j q Hj Hq. destruct (decide (j = i)) as [->|Hne].
    + rewrite lookup_insert_eq in Hj. injection Hj as ->. rewrite Hq in Hl. by destruct Hl.
    + rewrite lookup_insert_ne in Hj by done. pose proof (HL j q Hj Hq) as Ht. destruct (is_locked p); [destruct Hl; congruence|].
      destruct Hl as [Hi|?]; [|congruence]. destruct (lg_callers s !! i) as [r|] eqn:Er; [|done]. simpl in Hi. by destruct (Hne (HU j i q r Hj Er Hq Hi)).
  - intros j k q r Hj Hk Hq Hr. destruct (decide (j = i)) as [->|Hji], (decide (k = i)) as [->|Hki]; [done| | |].
    + rewrite lookup_insert_eq in Hj. injection Hj as ->. rewrite lookup_insert_ne in Hk by done. rewrite Hq in Hl.
      destruct Hl as [Hl _]. by rewrite (HL k r Hk Hr) in Hl.
    + rewrite lookup_insert_eq in Hk. injection Hk as ->. rewrite lookup_insert_ne in Hj by done. rewrite Hr in Hl.
      destruct Hl as [Hl _]. by rewrite (HL j q Hj Hq) in Hl.
    + rewrite lookup_insert_ne in Hj by done. rewrite lookup_insert_ne in Hk by done. by apply (HU j k q r).
Qed.

Definition no_cleared (s : log_sys) : Prop := ∀ i p, lg_callers s !! i = Some p → is_cleared p = false.

(** The steps of the others keep what the monitor relies on. *)
Lemma monitor_ok_others s s' : lg_mon s' = lg_mon s → lg_engaged s' = lg_engaged s →
  (lg_engaged s = true → no_cleared s → no_cleared s') → (sealed s → sealed s') → monitor_ok s → monitor_ok s'.
Proof.
  unfold monitor_ok, no_cleared. intros -> -> HC HS. destruct (lg_mon s) as [| | | |[] ?| | |]; naive_solver.
Qed.

(** A caller takes a step that touches neither the writer nor the lock. *)
Lemma caller_keeps s i p n : log_inv s →
  n = lg_inflight s + (if in_flight p then 1 else 0) - (if default false (in_flight <$> lg_callers s !! i) then 1 else 0) →
  is_locked p = false → (is_cleared p = true → lg_engaged s = false) →
  log_inv (set_caller i p (set_flight n s)).
Proof.
  intros (HC & HW & HM) Hn Hl Hc. split_and!; [|done|].
  - apply (callers_ok_step s i p n (lg_lock s) HC Hn). rewrite Hl. by right.
  - apply (monitor_ok_others s); [done..| | |done].
    + intros He HN j q Hj. simpl in Hj. destruct (decide (j = i)) as [->|]; [|rewrite lookup_insert_ne in Hj by done; by eapply HN].
      rewrite lookup_insert_eq in Hj. injection Hj as <-. destruct (is_cleared p); [|done]. rewrite Hc in He; done.
    + intros (He & HN & HR & HR2). split_and!; [done| |done..]. intros j q Hj. simpl in Hj.
      destruct (decide (j = i)) as [->|]; [|rewrite lookup_insert_ne in Hj by done; by eapply HN].
      rewrite lookup_insert_eq in Hj. injection Hj as <-. split; [|done]. destruct (is_cleared p); [|done]. rewrite Hc in He; done.
Qed.

Lemma set_flight_id s : set_flight (lg_inflight s) s = s.
Proof. by destruct s. Qed.

Lemma caller_keeps_flight s i p : log_inv s → in_flight p = default false (in_flight <$> lg_callers s !! i) →
  is_locked p = false → (is_cleared p = true → lg_engaged s = false) → log_inv (set_caller i p s).
Proof.
  intros HI Hf Hl Hc. rewrite <-(set_flight_id s) at 1. apply caller_keeps; [done| |done..]. rewrite Hf. destruct (default _ _); lia.
Qed.

(** Entries do not count in the invariant. *)
Lemma add_entry_keeps d s : log_inv s → log_inv (add_entry d s).
Proof. done. Qed.
Lemma effects_keep t calls s : log_inv s → log_inv (add_effects t calls s).
Proof. done. Qed.

Lemma begin_append_keeps i async l now s s' : begin_append i async l now s = Some s' → log_inv s → log_inv s'.
Proof.
  unfold begin_append. destruct (lg_callers s !! i) eqn:Ei; [done|]. intros [= <-] HI.
  apply caller_keeps_flight; rewrite ?Ei; try done; destruct (lg_engaged s), async; try done; by destruct (encodeLeaf now l).
Qed.

Lemma accept_keeps i d now s : log_inv s → lg_callers s !! i = Some (PALocked d) →
  let '(e, w) := aw_accept (length (lg_added s)) now (lg_aw s) in
  log_inv (set_caller i (PReturned (match e with Some e => inl e | None => inr 0%nat end)) (set_writer w false s)).
Proof.
  intros (HC & (HW & HT & HQ) & HM) Hi. pose proof (aw_accept_spec (length (lg_added s)) now (lg_aw s) HW) as HA.
  destruct (aw_accept _ _ _) as [e w]. destruct HA as (HW' & EO & ET & EC & _).
  assert (sealed s → False) as HS. { intros (_ & HN & _). by destruct (HN i _ Hi). }
  split_and!.
  - apply (callers_ok_step s i (PReturned (match e with Some e => inl e | None => inr 0%nat end)) (lg_inflight s) false HC); rewrite Hi; simpl; [lia|by left].
  - split_and!; simpl; [done|congruence|]. destruct (lg_tracker s); try done; rewrite EO; by destruct (outstanding (lg_aw s)).
  - apply (monitor_ok_others s); [done..| |by intros ?%HS|done]. intros He HN j q Hj. simpl in Hj.
    destruct (decide (j = i)) as [->|]; [rewrite lookup_insert_eq in Hj; by injection Hj as <-|].
    rewrite lookup_insert_ne in Hj by done. by eapply HN.
Qed.

Lemma caller_step_keeps i ok now s s' : caller_step i ok now s = Some s' → log_inv s → log_inv s'.
Proof.
  unfold caller_step. intros E HI. destruct (lg_callers s !! i) as [[l|l|l|f|r|d|d|r]|] eqn:Ei; try done.
  - injection E as <-. apply caller_keeps; rewrite ?Ei; simpl; [done|lia|done..].
  - injection E as <-. apply caller_keeps_flight; rewrite ?Ei; try done; by destruct (lg_engaged s).
  - injection E as <-. destruct (encodeLeaf now l) as [e|d]; [|apply (add_entry_keeps d) in HI]; apply caller_keeps_flight; cbn [lg_callers add_entry]; rewrite ?Ei; done.
  - destruct (await ok f s); [|done]. injection E as <-. apply caller_keeps_flight; rewrite ?Ei; done.
  - injection E as <-. apply caller_keeps; rewrite ?Ei; simpl; [done|lia|done..].
  - destruct (lg_lock s) eqn:EL; [done|]. injection E as <-. destruct (aw_stop (lg_aw s)); [apply caller_keeps_flight; rewrite ?Ei; done|].
    destruct (lg_engaged s) eqn:EE; [apply caller_keeps_flight; rewrite ?Ei; done|]. destruct HI as (HC & HW & HM). split_and!; [|done|].
    + apply (callers_ok_step s i (PALocked d) (lg_inflight s) true HC); rewrite ?Ei; simpl; [lia|done].
    + apply (monitor_ok_others s); [done..| | |done]; [congruence|]. intros (He & _). congruence.
  - pose proof (accept_keeps i d now s HI Ei) as HA. destruct (aw_accept _ _ _) as [[e|] w]; injection E as <-; exact HA.
Qed.

(** A step that only touches the tracker and the writer. *)
Lemma writer_keeps s p w lock : log_inv s → lg_lock s = lock → writer_ok (set_tracker p (set_writer w lock s)) →
  (sealed s → outstanding w = [] ∧ aw_catchup w = false) → log_inv (set_tracker p (set_writer w lock s)).
Proof.
  intros (HC & _ & HM) <- HW HS. split_and!; [done|done|]. apply (monitor_ok_others s); [done..| |done].
  intros Hs. pose proof Hs as (He & HN & _). destruct (HS Hs). split_and!; done.
Qed.

Lemma tracker_keeps s p : log_inv s → catching p = catching (lg_tracker s) →
  (match p with TAwait _ | TConfirm => outstanding (lg_aw s) ≠ [] | _ => True end) → log_inv (set_tracker p s).
Proof.
  intros HI HK HQ. pose proof HI as (_ & (HW & HT & _) & _).
  assert (set_tracker p s = set_tracker p (set_writer (lg_aw s) (lg_lock s) s)) as -> by done.
  apply writer_keeps; [done|done| |by intros (_ & _ & ? & ?)]. split_and!; simpl; [done|congruence|done].
Qed.

Lemma sealed_not_catching s : writer_ok s → catching (lg_tracker s) = true → sealed s → False.
Proof. intros (_ & HT & _) HK (_ & _ & _ & HS). congruence. Qed.

Section keeps.
Context `{Crypto, Env, GoFmt}.

Lemma tracker_step_keeps ok now now2 now3 s s' : tracker_step ok now now2 now3 s = Some s' → log_inv s → log_inv s'.
Proof.
  unfold tracker_step. intros E HI. pose proof HI as (_ & HWO & _). pose proof HWO as (HW & HT & HQ).
  destruct (lg_tracker s) as [|f| | |e r t|e r t|l|f| |] eqn:Et; try done.
  - destruct (lg_lock s); [done|]. destruct (aw_queue (lg_aw s) !! aw_head (lg_aw s)) as [pf|] eqn:Eq.
    + injection E as <-. apply tracker_keeps; [done|by rewrite Et|]. unfold outstanding. intros HD. by rewrite (drop_S _ _ _ Eq) in HD.
    + destruct (aw_stop _); [|done]. injection E as <-. apply tracker_keeps; [done|by rewrite Et|done].
  - destruct (await ok f s) as [b|]; [|done]. injection E as <-. apply tracker_keeps; [done|rewrite Et; by destruct b|by destruct b].
  - destruct (lg_lock s) eqn:EL; [done|]. destruct (outstanding (lg_aw s)) as [|pf rest] eqn:EO; [done|].
    pose proof (confirm_spec (lg_aw s) pf rest HW EO) as HC. destruct (confirm _) as [rc w']. injection E as <-.
    destruct HC as (HW' & EO' & _ & _ & EC). apply writer_keeps; [done|done| |intros (_ & _ & ? & _); congruence].
    split_and!; simpl; [done| |by destruct rc]. rewrite EC. simpl in HT. by destruct rc.
  - destruct (lg_lock s) eqn:EL; [done|]. injection E as <-. apply writer_keeps; [done|done|done|].
    intros HS. exfalso. by eapply sealed_not_catching; [exact HWO|rewrite Et|].
  - injection E as <-. apply tracker_keeps; [done|rewrite Et; by destruct (lg_engaged s)|by destruct (lg_engaged s)].
  - destruct (SealLeafBestEffort _ _ _ _ _ _ _) as [[leaf jerr] tr]. injection E as <-. apply tracker_keeps; [done|simpl; by rewrite Et|done].
  - injection E as <-. destruct (encodeLeaf now l); (apply tracker_keeps; [done|simpl; by rewrite Et|done]).
  - destruct (await ok f s); [|done]. injection E as <-. apply tracker_keeps; [done|by rewrite Et|done].
  - destruct (lg_lock s) eqn:EL; [done|]. injection E as <-.
    apply (effects_keep (lg_trace s) (if aw_onClear (lg_aw s) then [CallClear] else [])
      (set_tracker TTop (set_writer (end_catchup (lg_aw s)) false s))).
    apply writer_keeps; [done|done|by split_and!|]. intros HS. exfalso. by eapply sealed_not_catching; [exact HWO|rewrite Et|].
Qed.

Lemma cut_tick_spec now now2 w : let '(_, w') := cut_tick now now2 w in
  aw_queue w' = aw_queue w ∧ aw_head w' = aw_head w ∧ aw_catchup w' = aw_catchup w ∧ aw_stop w' = aw_stop w ∧
  (aw_wf w → aw_wf w') ∧ (aw_tripped w' = true → aw_tripped w = true ∨ outstanding w ≠ []).
Proof.
  unfold cut_tick. destruct (aw_queue w !! aw_head w) as [pf|] eqn:Eq; [|by split_and!; auto]. destruct (_ || _); [by split_and!; auto|].
  destruct (_ <? _); [|by split_and!; auto]. split_and!; try done. intros _. right. unfold outstanding. intros HD. by rewrite (drop_S _ _ _ Eq) in HD.
Qed.

Lemma watch_step_keeps now now2 s s' : watch_step now now2 s = Some s' → log_inv s → log_inv s'.
Proof.
  unfold watch_step. intros E HI. destruct (lg_lock s) eqn:EL; [done|]. pose proof (cut_tick_spec now now2 (lg_aw s)) as HC.
  destruct (cut_tick _ _ _) as [cut w]. destruct HC as (EQ & EH & EC & _ & HW & _). injection E as <-. apply effects_keep.
  change (set_writer w false s) with (set_tracker (lg_tracker s) (set_writer w false s)).
  destruct HI as (HCo & (HW0 & HT & HQ) & HM). assert (outstanding w = outstanding (lg_aw s)) as EO by (unfold outstanding; congruence).
  apply writer_keeps; [by split_and!|done| |]; [split_and!; simpl; [by apply HW|congruence|by rewrite EO]|].
  intros (_ & _ & ? & ?). split; congruence.
Qed.

Lemma SealLeafBestEffort_kind store kind cellID salt record ts t :
  Kind (SealLeafBestEffort store kind cellID salt record ts t).1.1 = kind.
Proof. unfold SealLeafBestEffort. destruct store; [|done]. by destruct (Put _ _ _ _). Qed.

Lemma monitor_step_keeps m used free at_ ok now s s' : mn_bound m = true → monitor_step m used free at_ ok now s = Some s' →
  log_inv s → log_inv s'.
Proof.
  unfold monitor_step. intros HB E HI. pose proof HI as (HC & HW & HM). unfold monitor_ok in HM.
  destruct (lg_mon s) as [|a|a|a|dr a|dr a l|a f|a] eqn:Em.
  - destruct (lg_engaged s) eqn:Ee; simpl in E; [injection E as <-; done|]. destruct (lg_closed s); [by injection E as <-|].
    destruct (disk_reason m used free); injection E as <-; [|done]. split_and!; [done|done|]. by unfold monitor_ok; simpl.
  - rewrite HM in E. rewrite HB in E. injection E as <-. split_and!; [done|done|]. done.
  - destruct (Z.eqb_spec (lg_inflight s) 0) as [E0|]; [|done]. injection E as <-. destruct HC as (HF & HL & HU).
    assert (no_cleared s) as HN.
    { intros i p Hp. assert (flights (lg_callers s) = 0%nat) as HZ by lia. pose proof (flights_zero _ _ _ HZ Hp). by destruct p. }
    split_and!; [done|done|]. unfold monitor_ok. by destruct (mn_drain m).
  - destruct HM as [HN _]. destruct ok.
    + destruct (lg_lock s) eqn:EL; [done|]. destruct (drained (lg_aw s)) eqn:ED; [|done]. injection E as <-.
      split_and!; [done|done|]. split; [done|]. intros He. destruct HC as (_ & HL & _). unfold drained in ED.
      apply andb_true_iff in ED as [ED1 ED2]. apply Nat.leb_le in ED1. apply negb_true_iff in ED2. split_and!; [done| | |done].
      * intros i p Hp. split; [by apply (HN He i)|]. destruct (is_locked p) eqn:El; [|done]. by rewrite (HL i p Hp El) in EL.
      * unfold outstanding. by apply drop_ge.
    + injection E as <-. split_and!; [done|done|]. by split.
  - destruct (SealLeafBestEffort _ _ _ _ _ _ _) as [[leaf jerr] t] eqn:ES. injection E as <-. split_and!; [done|done|].
    unfold monitor_ok. simpl. destruct HM as [HN HS]. split; [done|]. split; [|]. { intros -> He. by apply HS. }
    pose proof (SealLeafBestEffort_kind (mn_journal m) KindBackpressure (mn_cellID m) (mn_salt m) (stop_payload a) (UnixNano (dk_At a)) (lg_trace s)) as HK.
    by rewrite ES in HK.
  - destruct HM as [HN _]. injection E as <-. destruct (encodeLeaf now l); (split_and!; [done|done|by split]).
  - destruct HM as [HN _]. destruct (await ok f s) as [b|]; [|done]. injection E as <-. split_and!; [done|done|by split].
  - destruct HM as [HN _]. injection E as <-. split_and!; [done|done|by split].
Qed.
End keeps.

Section runs.
Context `{Crypto, Env, GoFmt}.
Variable m : DiskMonitor.
Hypothesis m_bound : mn_bound m = true.

Lemma act_step_keeps x s s' : act_step m x s = Some s' → log_inv s → log_inv s'.
Proof.
  destruct x as [i async l now|i ok now|ok now now2 now3|now now2|used free at_ ok now|n| | |]; simpl; intros E HI.
  - by eapply begin_append_keeps.
  - by eapply caller_step_keeps.
  - by eapply tracker_step_keeps.
  - by eapply watch_step_keeps.
  - by eapply monitor_step_keeps.
  - destruct (_ && _); [|done]. by injection E as <-.
  - injection E as <-. destruct HI as (HC & HW & HM). split_and!; [done|done|]. unfold monitor_ok in *. simpl.
    by destruct (lg_mon s) as [| | | |[] ?| | |]; try done; destruct HM as [_ HM]; split; try done; destruct HM.
  - injection E as <-. destruct HI as (HC & HW & HM). by split_and!.
  - destruct (lg_lock s) eqn:EL; [done|]. injection E as <-.
    change (set_writer _ false s) with (set_tracker (lg_tracker s) (set_writer (begin_close (lg_aw s)) false s)).
    pose proof HI as (_ & HW & _). apply writer_keeps; [done|done|done|]. by intros (_ & _ & ? & ?).
Qed.

Lemma act_run_keeps xs s s' : act_run m xs s = Some s' → log_inv s → log_inv s'.
Proof.
  revert s. induction xs as [|x xs IH]; intros s E HI; simpl in E; [by injection E as <-|].
  apply bind_Some in E as (s1 & E1 & E). eapply IH; [done|]. by eapply act_step_keeps.
Qed.

Lemma opened_inv entries w : aw_wf w → aw_catchup w = false → log_inv (opened entries w).
Proof.
  intros HW HC. split_and!; try done; simpl; intros *; by rewrite lookup_empty.
Qed.

(** ** After the leaf of stop *)

Definition after_stop (p : monitor_pc) : bool := match p with MAwait _ _ | MNotify _ | MIdle => true | _ => false end.

Definition stopped (s : log_sys) : Prop := log_inv s ∧ sealed s ∧ after_stop (lg_mon s) = true.

Lemma sealed_caller i p s : sealed s → is_cleared p = false → is_locked p = false → sealed (set_caller i p s).
Proof.
  intros (He & HN & HR & HR2) Hc Hl. split_and!; [done| |done..]. intros j q Hj. simpl in Hj.
  destruct (decide (j = i)) as [->|]; [rewrite lookup_insert_eq in Hj; by injection Hj as <-|].
  rewrite lookup_insert_ne in Hj by done. by eapply HN.
Qed.

Lemma sealed_begin i async l now s s' : sealed s → begin_append i async l now s = Some s' →
  sealed s' ∧ lg_mon s' = lg_mon s ∧ lg_added s' = lg_added s.
Proof.
  intros HS. unfold begin_append. destruct (lg_callers s !! i); [done|]. intros [= <-]. split; [|done].
  pose proof HS as (He & _). rewrite He. by apply sealed_caller.
Qed.

Lemma sealed_caller_step i ok now s s' : sealed s → caller_step i ok now s = Some s' →
  sealed s' ∧ lg_mon s' = lg_mon s ∧ lg_added s' = lg_added s.
Proof.
  intros HS. pose proof HS as (He & HN & _). unfold caller_step. destruct (lg_callers s !! i) as [p|] eqn:Ei; [|done].
  destruct (HN i p Ei) as [Hc Hl]. destruct p as [l|l|l|f|r|d|d|r]; try done; intros E.
  - injection E as <-. split; [|done]. by apply sealed_caller.
  - rewrite He in E. injection E as <-. split; [|done]. by apply sealed_caller.
  - destruct (await ok f s); [|done]. injection E as <-. split; [|done]. by apply sealed_caller.
  - injection E as <-. split; [|done]. by apply sealed_caller.
  - destruct (lg_lock s); [done|]. rewrite He in E. injection E as <-. destruct (aw_stop _); (split; [by apply sealed_caller|done]).
Qed.

Lemma sealed_tracker_step ok now now2 now3 s s' : writer_ok s → sealed s → tracker_step ok now now2 now3 s = Some s' →
  sealed s' ∧ lg_mon s' = lg_mon s ∧ lg_added s' = lg_added s.
Proof.
  intros (_ & HT & HQ) HS. pose proof HS as (He & HN & HO & HK). unfold tracker_step. rewrite HK in HT. intros E.
  destruct (lg_tracker s); try done. destruct (lg_lock s); [done|]. destruct (aw_queue _ !! _) as [pf|] eqn:Eq.
  - unfold outstanding in HO. by rewrite (drop_S _ _ _ Eq) in HO.
  - destruct (aw_stop _); [|done]. injection E as <-. done.
Qed.

Lemma sealed_watch_step now now2 s s' : sealed s → watch_step now now2 s = Some s' →
  sealed s' ∧ lg_mon s' = lg_mon s ∧ lg_added s' = lg_added s.
Proof.
  intros (He & HN & HO & HK). unfold watch_step. destruct (lg_lock s); [done|]. pose proof (cut_tick_spec now now2 (lg_aw s)) as HC.
  destruct (cut_tick _ _ _) as [cut w]. destruct HC as (EQ & EH & EC & _). intros [= <-]. split; [|done].
  split_and!; [done|done| |simpl; congruence]. unfold outstanding in *. simpl. congruence.
Qed.

Lemma stopped_step x s s' : stopped s → x ≠ ADisengage → act_step m x s = Some s' → stopped s' ∧ lg_added s' = lg_added s.
Proof.
  intros (HI & HS & HA) Hx E. pose proof (act_step_keeps x s s' E HI) as HI'.
  assert (sealed s' ∧ after_stop (lg_mon s') = true ∧ lg_added s' = lg_added s) as (? & ? & ?); [|by split_and!].
  assert (sealed s' ∧ lg_mon s' = lg_mon s ∧ lg_added s' = lg_added s → sealed s' ∧ after_stop (lg_mon s') = true ∧ lg_added s' = lg_added s) as HX
    by (intros (? & EM & ?); by rewrite EM).
  destruct x as [i async l now|i ok now|ok now now2 now3|now now2|used free at_ ok now|n| | |]; simpl in E; try done.
  - apply HX. by eapply sealed_begin.
  - apply HX. by eapply sealed_caller_step.
  - apply HX. eapply sealed_tracker_step; [apply HI|done..].
  - apply HX. by eapply sealed_watch_step.
  - unfold monitor_step in E. pose proof HS as (He & _). destruct (lg_mon s) as [|a|a|a|dr a|dr a l|a f|a] eqn:Em; try done.
    + rewrite He in E. simpl in E. injection E as <-. by rewrite Em.
    + destruct (await ok f s); [|done]. by injection E as <-.
    + by injection E as <-.
  - destruct (_ && _); [|done]. injection E as <-. by apply HX.
  - injection E as <-. by apply HX.
  - destruct (lg_lock s); [done|]. injection E as <-. by apply HX.
Qed.

Lemma stopped_run xs s s' : stopped s → Forall (λ x, x ≠ ADisengage) xs → act_run m xs s = Some s' → lg_added s' = lg_added s.
Proof.
  intros HS HX. revert s HS. induction HX as [|x xs Hx HX IH]; intros s HS E; simpl in E; [by injection E as <-|].
  apply bind_Some in E as (s1 & E1 & E). destruct (stopped_step x s s1 HS Hx E1) as [HS1 <-]. by apply IH.
Qed.

(** C31: the leaf of stop is the last leaf. Take any interleaving of callers, synchronous or not, of the tracker, the
    watch and the monitor, up to the point where the monitor adds its leaf after a drain that ended, without an
    operator having disengaged it meanwhile. Whatever runs after that, and as long as nobody disengages, no entry
    follows the leaf of stop in the log. *)
Theorem stop_leaf_is_last entries w xs s a l used free at_ ok now s1 ys s2 :
  aw_wf w → aw_catchup w = false → act_run m xs (opened entries w) = Some s →
  lg_mon s = MAdd true a l → lg_engaged s = true →
  act_step m (AMonitor used free at_ ok now) s = Some s1 →
  Forall (λ x, x ≠ ADisengage) ys → act_run m ys s1 = Some s2 →
  Kind l = KindBackpressure ∧
  lg_added s2 = lg_added s ++ match encodeLeaf now l with inl _ => [] | inr d => [d] end.
Proof.
  intros HW HC HR HM He HA HY HR2. pose proof (act_run_keeps _ _ _ HR (opened_inv entries w HW HC)) as HI.
  pose proof (act_step_keeps _ _ _ HA HI) as HI1. pose proof HI as (_ & _ & HMO). unfold monitor_ok in HMO. rewrite HM in HMO.
  destruct HMO as (_ & HS & HK). specialize (HS eq_refl He). split; [done|]. simpl in HA. unfold monitor_step in HA. rewrite HM in HA.
  injection HA as HA. destruct (encodeLeaf now l) as [e|d]; subst s1.
  - rewrite app_nil_r. by apply (stopped_run ys (set_mon (MNotify (add_reason "+leaf-write-failed" a)) s) s2).
  - by apply (stopped_run ys (set_mon (MAwait a (length (lg_added s))) (add_entry d s)) s2).
Qed.
End runs.

(** ** The queue of the writer *)

Definition futures (w : AsyncWriter) : list nat := pf_future <$> outstanding w.

(** The leaves that wait are entries of the log, in its order; the tracker waits for the oldest; a cut has leaves
    that wait, or the tracker is about to end it. *)
Definition queue_ok (s : log_sys) : Prop :=
  StronglySorted lt (futures (lg_aw s)) ∧ Forall (λ f, (f < length (lg_added s))%nat) (futures (lg_aw s)) ∧
  (lg_published s ≤ length (lg_added s))%nat ∧
  (aw_tripped (lg_aw s) = true → outstanding (lg_aw s) ≠ [] ∨ lg_tracker s = TRecover) ∧
  (∀ f, lg_tracker s = TAwait f → head (futures (lg_aw s)) = Some f).

Lemma queue_ok_more s s' d : lg_added s' = lg_added s ++ d → (lg_published s' ≤ length (lg_added s'))%nat → lg_aw s' = lg_aw s →
  (lg_tracker s' = lg_tracker s ∨ (lg_tracker s ≠ TRecover ∧ ∀ f, lg_tracker s' = TAwait f → head (futures (lg_aw s)) = Some f)) →
  queue_ok s → queue_ok s'.
Proof.
  intros EA HP EW HT (HS & HF & _ & HC & HA). unfold queue_ok. rewrite EW. split_and!; [done| |done| |].
  - eapply Forall_impl; [exact HF|]. simpl. intros f Hf. rewrite EA, length_app. lia.
  - intros Hc. destruct (HC Hc) as [?|Ht]; [by left|]. right. destruct HT as [->|[? _]]; [done|done].
  - intros f Hf. destruct HT as [E|[_ HT]]; [apply HA; congruence|by apply HT].
Qed.

(** A step that leaves the writer and the tracker alone. *)
Lemma queue_ok_frame s s' d : lg_added s' = lg_added s ++ d → lg_published s' = lg_published s → lg_aw s' = lg_aw s →
  lg_tracker s' = lg_tracker s → queue_ok s → queue_ok s'.
Proof.
  intros EA EP EW ET HQ. apply (queue_ok_more s s' d); try done; [|by left]. destruct HQ as (_ & _ & HP & _).
  rewrite EA, EP, length_app. lia.
Qed.

Lemma futures_sorted_snoc l n : StronglySorted lt l → Forall (λ f, (f < n)%nat) l → StronglySorted lt (l ++ [n]).
Proof.
  induction 1 as [|f l HS IH HF]; intros HA; simpl; [repeat constructor|]. apply Forall_cons in HA as [Hf HA].
  constructor; [by apply IH|]. apply Forall_app. split; [done|]. by apply Forall_singleton.
Qed.

Lemma accept_queue_ok i d now s s' : aw_wf (lg_aw s) → lg_callers s !! i = Some (PALocked d) → caller_step i true now s = Some s' →
  queue_ok s → queue_ok s'.
Proof.
  intros HW Hi. unfold caller_step. rewrite Hi. pose proof (aw_accept_spec (length (lg_added s)) now (lg_aw s) HW) as HA.
  destruct (aw_accept _ _ _) as [e w]. destruct HA as (_ & EO & ET & _ & _). intros [= <-] (HS & HF & HP & HC & HAw).
  assert (futures w = futures (lg_aw s) ++ match e with None => [length (lg_added s)] | Some _ => [] end) as EF.
  { unfold futures. rewrite EO, fmap_app. by destruct e. }
  assert (aw_tripped w = true → outstanding w ≠ [] ∨ lg_tracker s = TRecover) as HC'.
  { rewrite ET. intros Hc. destruct (HC Hc) as [?|?]; [left|by right]. rewrite EO. by destruct (outstanding (lg_aw s)). }
  assert (∀ f, lg_tracker s = TAwait f → head (futures w) = Some f) as HA'.
  { intros f Hf. rewrite EF. specialize (HAw f Hf). by destruct (futures (lg_aw s)). }
  destruct e; unfold queue_ok; simpl; rewrite EF, ?app_nil_r, ?length_app; [by split_and!|]. split_and!; [by apply futures_sorted_snoc| |simpl; lia|done|by rewrite <-EF].
  apply Forall_app. split; [|apply Forall_singleton; simpl; lia]. eapply Forall_impl; [exact HF|]. simpl. lia.
Qed.

Lemma caller_queue_ok i ok now s s' : aw_wf (lg_aw s) → caller_step i ok now s = Some s' → queue_ok s → queue_ok s'.
Proof.
  intros HW E HQ. destruct (lg_callers s !! i) as [p|] eqn:Ei; [|by unfold caller_step in E; rewrite Ei in E].
  destruct p as [l|l|l|f|r|d|d|r]; try (unfold caller_step in E; rewrite Ei in E); try done.
  - injection E as <-. by apply (queue_ok_frame s _ []); rewrite ?app_nil_r.
  - injection E as <-. by apply (queue_ok_frame s _ []); rewrite ?app_nil_r.
  - injection E as <-. destruct (encodeLeaf now l) as [e|d]; [by apply (queue_ok_frame s _ []); rewrite ?app_nil_r|by apply (queue_ok_frame s _ [d])].
  - destruct (await ok f s); [|done]. injection E as <-. by apply (queue_ok_frame s _ []); rewrite ?app_nil_r.
  - injection E as <-. by apply (queue_ok_frame s _ []); rewrite ?app_nil_r.
  - destruct (lg_lock s); [done|]. injection E as <-. repeat case_match; by apply (queue_ok_frame s _ []); rewrite ?app_nil_r.
  - eapply (accept_queue_ok i d now); [done..| |done]. unfold caller_step in *. rewrite Ei in *. done.
Qed.

Section queue.
Context `{Crypto, Env, GoFmt}.

Lemma confirm_queue_ok s rc w' : aw_wf (lg_aw s) → lg_tracker s = TConfirm → outstanding (lg_aw s) ≠ [] → confirm (lg_aw s) = (rc, w') →
  queue_ok s → queue_ok (set_tracker (if rc then TRecover else TTop) (set_writer w' false s)).
Proof.
  intros HW Ht HO EC (HS & HF & HP & HC & _). destruct (outstanding (lg_aw s)) as [|pf rest] eqn:EO; [done|].
  pose proof (confirm_spec (lg_aw s) pf rest HW EO) as HX. rewrite EC in HX. destruct HX as (_ & EO' & ET & ER & _).
  unfold queue_ok, futures in *. simpl. rewrite EO'. rewrite EO in HS, HF. simpl in HS, HF. apply StronglySorted_inv in HS as [HS _].
  apply Forall_cons in HF as [_ HF]. split_and!; [done|done|done| |by destruct rc]. rewrite ET. intros Hc.
  rewrite Hc in ER. rewrite andb_true_r in ER. subst rc. case_bool_decide; [by right|by left].
Qed.

Lemma tracker_queue_ok ok now now2 now3 s s' : writer_ok s → tracker_step ok now now2 now3 s = Some s' → queue_ok s → queue_ok s'.
Proof.
  intros (HW & HT & HO) E HQ. pose proof HQ as (HS & HF & HP & HC & HA). unfold tracker_step in E.
  assert (∀ p, lg_tracker s ≠ TRecover → (∀ f, p = TAwait f → head (futures (lg_aw s)) = Some f) → queue_ok (set_tracker p s)) as HX0.
  { intros p Hr Ha. apply (queue_ok_more s _ []); simpl; rewrite ?app_nil_r; try done. by right. }
  destruct (lg_tracker s) as [|f| | |e r t|e r t|l|f| |] eqn:Et; try done.
  - destruct (lg_lock s); [done|]. destruct (aw_queue _ !! _) as [pf|] eqn:Eq.
    + injection E as <-. apply HX0; [done|]. intros f [= <-]. unfold futures, outstanding. by rewrite (drop_S _ _ _ Eq).
    + destruct (aw_stop _); [|done]. injection E as <-. by apply HX0.
  - destruct (await ok f s) as [b|]; [|done]. injection E as <-. apply HX0; [done|]. by destruct b.
  - destruct (lg_lock s); [done|]. destruct (confirm _) as [rc w'] eqn:EC. injection E as <-. by apply confirm_queue_ok.
  - destruct (lg_lock s); [done|]. injection E as <-. by split_and!.
  - injection E as <-. apply HX0; [done|]. by destruct (lg_engaged s).
  - destruct (SealLeafBestEffort _ _ _ _ _ _ _) as [[leaf jerr] tr]. injection E as <-.
    apply (queue_ok_more s _ []); simpl; rewrite ?app_nil_r; try done. right. by rewrite Et.
  - injection E as <-. destruct (encodeLeaf now l) as [e|d]; [by apply HX0|].
    apply (queue_ok_more s _ [d]); try done; [simpl; rewrite length_app; lia|]. right. by rewrite Et.
  - destruct (await ok f s); [|done]. injection E as <-. by apply HX0.
  - destruct (lg_lock s); [done|]. injection E as <-. split_and!; try done. intros Hc. destruct (HC Hc) as [?|?]; [by left|done].
Qed.

Lemma watch_queue_ok now now2 s s' : watch_step now now2 s = Some s' → queue_ok s → queue_ok s'.
Proof.
  unfold watch_step. destruct (lg_lock s); [done|]. pose proof (cut_tick_spec now now2 (lg_aw s)) as HC.
  destruct (cut_tick _ _ _) as [cut w]. destruct HC as (EQ & EH & _ & _ & _ & ET). intros [= <-] (HS & HF & HP & HC & HA).
  assert (outstanding w = outstanding (lg_aw s)) as EO by (unfold outstanding; congruence).
  unfold queue_ok, futures in *. simpl. rewrite EO. split_and!; try done. intros Ht. destruct (ET Ht); [by apply HC|by left].
Qed.

Lemma monitor_queue_ok m used free at_ ok now s s' : monitor_step m used free at_ ok now s = Some s' → queue_ok s → queue_ok s'.
Proof.
  unfold monitor_step. intros E HQ.
  assert (∀ p, queue_ok (set_mon p s)) as HX0. { intros p. by apply (queue_ok_frame s _ []); rewrite ?app_nil_r. }
  destruct (lg_mon s) as [|a|a|a|dr a|dr a l|a f|a].
  - destruct (_ || _); [by injection E as <-|]. injection E as <-. by destruct (disk_reason m used free).
  - destruct (lg_engaged s); injection E as <-; [done|]. by apply (queue_ok_frame s _ []); rewrite ?app_nil_r.
  - destruct (_ =? 0); [|done]. by injection E as <-.
  - destruct ok; [destruct (_ && _); [|done]|]; by injection E as <-.
  - destruct (SealLeafBestEffort _ _ _ _ _ _ _) as [[leaf jerr] tr]. injection E as <-.
    by apply (queue_ok_frame s _ []); rewrite ?app_nil_r.
  - injection E as <-. destruct (encodeLeaf now l) as [e|d]; [done|]. by apply (queue_ok_frame s _ [d]).
  - destruct (await ok f s); [|done]. by injection E as <-.
  - injection E as <-. by apply (queue_ok_frame s _ []); rewrite ?app_nil_r.
Qed.

Lemma act_queue_ok m x s s' : writer_ok s → act_step m x s = Some s' → queue_ok s → queue_ok s'.
Proof.
  intros HW. destruct x as [i async l now|i ok now|ok now now2 now3|now now2|used free at_ ok now|n| | |]; simpl; intros E HQ.
  - unfold begin_append in E. destruct (lg_callers s !! i); [done|]. injection E as <-. by apply (queue_ok_frame s _ []); rewrite ?app_nil_r.
  - eapply caller_queue_ok; [apply HW|done..].
  - by eapply tracker_queue_ok.
  - by eapply watch_queue_ok.
  - by eapply monitor_queue_ok.
  - destruct (_ && _) eqn:EB; [|done]. injection E as <-. apply andb_true_iff in EB as [_ EB]. apply Nat.leb_le in EB.
    apply (queue_ok_more s _ []); simpl; rewrite ?app_nil_r; try done. by left.
  - injection E as <-. by apply (queue_ok_frame s _ []); rewrite ?app_nil_r.
  - injection E as <-. by apply (queue_ok_frame s _ []); rewrite ?app_nil_r.
  - destruct (lg_lock s); [done|]. injection E as <-. done.
Qed.

Lemma act_run_queue m xs s s' : mn_bound m = true → act_run m xs s = Some s' → log_inv s → queue_ok s → log_inv s' ∧ queue_ok s'.
Proof.
  intros HB. revert s. induction xs as [|x xs IH]; intros s E HI HQ; simpl in E; [by injection E as <-|].
  apply bind_Some in E as (s1 & E1 & E). apply (IH s1 E); [by eapply act_step_keeps|]. eapply act_queue_ok; [apply HI|done..].
Qed.
End queue.

(** ** A cut can always end *)

Section recovery.
Context `{Crypto, Env, GoFmt}.
Variable m : DiskMonitor.
Hypothesis m_bound : mn_bound m = true.

(** The checkpoint covers the leaves that wait, and no caller holds the lock. *)
Definition all_covered (s : log_sys) : Prop :=
  log_inv s ∧ queue_ok s ∧ lg_lock s = false ∧ Forall (λ f, (f < lg_published s)%nat) (futures (lg_aw s)).

Definition rank (p : tracker_pc) : nat :=
  match p with TRecover => 6 | TCheck _ _ _ => 5 | TSeal _ _ _ => 4 | TAdd _ => 3 | TWait _ => 2 | TEnd => 1 | _ => 0 end%nat.

(** A step of the tracker, and only of the tracker. *)
Inductive tracks : log_sys → log_sys → Prop :=
  | tracks_refl s : tracks s s
  | tracks_step ok s s1 s2 : tracker_step ok 0 0 0 s = Some s1 → tracks s1 s2 → tracks s s2.

Lemma tracks_trans s1 s2 s3 : tracks s1 s2 → tracks s2 s3 → tracks s1 s3.
Proof. induction 1; [done|]. intros. eapply tracks_step; eauto. Qed.

Lemma all_covered_step ok s s' : all_covered s → tracker_step ok 0 0 0 s = Some s' → lg_lock s' = false → lg_published s' = lg_published s →
  (∀ f, f ∈ futures (lg_aw s') → f ∈ futures (lg_aw s)) → all_covered s'.
Proof.
  intros (HI & HQ & HL & HF) E HL' HP HS. split_and!; [by eapply tracker_step_keeps| |done|].
  - eapply tracker_queue_ok; [apply HI|done..].
  - rewrite HP. apply Forall_forall. intros f Hf. rewrite Forall_forall in HF. by apply HF, HS.
Qed.

Lemma catch_step s : all_covered s → catching (lg_tracker s) = true →
  ∃ s', tracker_step false 0 0 0 s = Some s' ∧ all_covered s' ∧ outstanding (lg_aw s') = outstanding (lg_aw s) ∧
    (lg_tracker s' = TTop ∨ catching (lg_tracker s') = true ∧ (rank (lg_tracker s') < rank (lg_tracker s))%nat).
Proof.
  intros HC HK. pose proof HC as (_ & _ & HL & _).
  assert (∀ s', tracker_step false 0 0 0 s = Some s' → lg_lock s' = false → lg_published s' = lg_published s →
    outstanding (lg_aw s') = outstanding (lg_aw s) →
    (lg_tracker s' = TTop ∨ catching (lg_tracker s') = true ∧ (rank (lg_tracker s') < rank (lg_tracker s))%nat) →
    ∃ s', tracker_step false 0 0 0 s = Some s' ∧ all_covered s' ∧ outstanding (lg_aw s') = outstanding (lg_aw s) ∧
      (lg_tracker s' = TTop ∨ catching (lg_tracker s') = true ∧ (rank (lg_tracker s') < rank (lg_tracker s))%nat)) as HX.
  { intros s' E HL' HP HO HR. exists s'. split_and!; [done| |done|done]. eapply all_covered_step; [done..|]. unfold futures. by rewrite HO. }
  unfold tracker_step in *. rewrite HL in *. destruct (lg_tracker s) as [|f| | |e r t|e r t|l|f| |] eqn:Et; try done; simpl in HX.
  - eapply HX; [reflexivity|done..|]. right. split; [done|simpl; lia].
  - eapply HX; [reflexivity|done..|]. right. destruct (lg_engaged s); (split; [done|simpl; lia]).
  - destruct (SealLeafBestEffort _ _ _ _ _ _ _) as [[leaf jerr] tr]. eapply HX; [reflexivity|done..|]. right. split; [done|simpl; lia].
  - destruct (encodeLeaf 0 l); (eapply HX; [reflexivity|done..|]; right; split; [done|simpl; lia]).
  - eapply HX; [reflexivity|done..|]. right. split; [done|simpl; lia].
  - eapply HX; [reflexivity|done..|]. by left.
Qed.

Lemma catch_ends s : all_covered s → catching (lg_tracker s) = true →
  ∃ s', tracks s s' ∧ all_covered s' ∧ outstanding (lg_aw s') = outstanding (lg_aw s) ∧ lg_tracker s' = TTop.
Proof.
  remember (rank (lg_tracker s)) as n eqn:En. revert s En. induction n as [n IH] using lt_wf_ind. intros s En HC HK.
  destruct (catch_step s HC HK) as (s1 & E & HC1 & HO1 & [Ht|[HK1 HR]]).
  - exists s1. split_and!; [eapply tracks_step; [done|constructor]|done..].
  - destruct (IH (rank (lg_tracker s1)) ltac:(lia) s1 eq_refl HC1 HK1) as (s2 & HT & HC2 & HO2 & Ht2). exists s2.
    split_and!; [by eapply tracks_step|done|congruence|done].
Qed.

(** From the top of its loop, the tracker confirms the oldest leaf. *)
Lemma confirm_next s : all_covered s → lg_tracker s = TConfirm →
  ∃ s', tracks s s' ∧ all_covered s' ∧ lg_tracker s' = TTop ∧ S (length (outstanding (lg_aw s'))) = length (outstanding (lg_aw s)).
Proof.
  intros HC Ht. pose proof HC as ((_ & (HW & HK & HQ) & _) & _ & HL & HF). rewrite Ht in HQ.
  destruct (outstanding (lg_aw s)) as [|pf rest] eqn:EO; [done|]. pose proof (confirm_spec (lg_aw s) pf rest HW EO) as HX.
  destruct (confirm (lg_aw s)) as [rc w'] eqn:EC. destruct HX as (_ & EO' & _ & _ & _).
  set (s1 := set_tracker (if rc then TRecover else TTop) (set_writer w' false s)).
  assert (tracker_step true 0 0 0 s = Some s1) as E by (unfold tracker_step; by rewrite Ht, HL, EC).
  assert (all_covered s1) as HC1.
  { eapply all_covered_step; [done..|]. unfold futures. simpl. rewrite EO, EO'. intros f Hf. by apply elem_of_cons; right. }
  destruct rc.
  - destruct (catch_ends s1 HC1 eq_refl) as (s2 & HT & HC2 & HO2 & Ht2). exists s2.
    split_and!; [by eapply tracks_step|done|done|]. rewrite HO2. simpl. by rewrite EO'.
  - exists s1. split_and!; [eapply tracks_step; [done|constructor]|done|done|]. simpl. by rewrite EO'.
Qed.

Lemma await_next s f : all_covered s → lg_tracker s = TAwait f →
  ∃ s', tracks s s' ∧ all_covered s' ∧ lg_tracker s' = TTop ∧ S (length (outstanding (lg_aw s'))) = length (outstanding (lg_aw s)).
Proof.
  intros HC Ht. pose proof HC as (_ & (_ & _ & _ & _ & HA) & HL & HF). specialize (HA f Ht).
  assert (await true f s = Some true) as EA.
  { unfold await. destruct (futures (lg_aw s)) as [|g l] eqn:EF; [done|]. injection HA as ->. apply Forall_cons in HF as [HF _].
    by rewrite (proj2 (Nat.ltb_lt _ _) HF). }
  assert (tracker_step true 0 0 0 s = Some (set_tracker TConfirm s)) as E by (unfold tracker_step; by rewrite Ht, EA).
  destruct (confirm_next (set_tracker TConfirm s)) as (s2 & HT & HC2 & Ht2 & HO2); [by eapply all_covered_step|done|].
  exists s2. split_and!; [by eapply tracks_step|done..].
Qed.

Lemma top_next s : all_covered s → lg_tracker s = TTop → outstanding (lg_aw s) ≠ [] →
  ∃ s', tracks s s' ∧ all_covered s' ∧ lg_tracker s' = TTop ∧ S (length (outstanding (lg_aw s'))) = length (outstanding (lg_aw s)).
Proof.
  intros HC Ht HO. pose proof HC as (_ & _ & HL & _). destruct (aw_queue (lg_aw s) !! aw_head (lg_aw s)) as [pf|] eqn:Eq.
  - assert (tracker_step true 0 0 0 s = Some (set_tracker (TAwait (pf_future pf)) s)) as E by (unfold tracker_step; by rewrite Ht, HL, Eq).
    destruct (await_next (set_tracker (TAwait (pf_future pf)) s) (pf_future pf)) as (s2 & HT & HC2 & Ht2 & HO2); [by eapply all_covered_step|done|].
    exists s2. split_and!; [by eapply tracks_step|done..].
  - apply lookup_ge_None in Eq. destruct HO. by apply drop_ge.
Qed.

Lemma tracker_empties n s : all_covered s → lg_tracker s = TTop → length (outstanding (lg_aw s)) = n →
  ∃ s', tracks s s' ∧ all_covered s' ∧ lg_tracker s' = TTop ∧ outstanding (lg_aw s') = [].
Proof.
  revert s. induction n as [|n IH]; intros s HC Ht Hn.
  - exists s. split_and!; [constructor|done|done|]. by destruct (outstanding (lg_aw s)).
  - destruct (top_next s HC Ht) as (s1 & HT1 & HC1 & Ht1 & HL1); [by destruct (outstanding (lg_aw s))|].
    destruct (IH s1 HC1 Ht1) as (s2 & HT2 & HC2 & Ht2 & HO2); [lia|]. exists s2. split_and!; try done. by eapply tracks_trans.
Qed.

Lemma tracks_run s s' : tracks s s' → ∃ ys, act_run m ys s = Some s' ∧ Forall (λ y, ∃ ok, y = ATracker ok 0 0 0) ys.
Proof.
  induction 1 as [s|ok s s1 s2 E HT (ys & HR & HF)]; [by exists []|]. exists (ATracker ok 0 0 0 :: ys). split.
  - simpl. by rewrite E.
  - constructor; [by exists ok|done].
Qed.

(** C32: a cut can always end. In every state that the log can reach with its tracker alive and the lock of the writer
    free, one checkpoint and steps of the tracker alone, whatever the callers and the monitor do, lead to a state where
    every accepted leaf is confirmed, the cut is over and the catch-up too. *)
Theorem cut_can_end entries w xs s :
  aw_wf w → aw_catchup w = false → outstanding w = [] → aw_tripped w = false → act_run m xs (opened entries w) = Some s →
  lg_tracker s ≠ TDone → lg_lock s = false →
  ∃ ys s', act_run m (APublish (length (lg_added s)) :: ys) s = Some s' ∧ Forall (λ y, ∃ ok, y = ATracker ok 0 0 0) ys ∧
    outstanding (lg_aw s') = [] ∧ aw_tripped (lg_aw s') = false ∧ aw_catchup (lg_aw s') = false.
Proof.
  intros HW HC HO HT HR HD HL. destruct (act_run_queue m xs _ _ m_bound HR (opened_inv entries w HW HC)) as [HI HQ].
  { unfold queue_ok, futures. simpl. rewrite HO, HT. split_and!; try done; constructor. }
  set (s0 := set_published (length (lg_added s)) s). pose proof HQ as (_ & HF & HP & _).
  assert (act_step m (APublish (length (lg_added s))) s = Some s0) as E0.
  { simpl. rewrite (proj2 (Nat.leb_le _ _) HP), Nat.leb_refl. done. }
  assert (all_covered s0) as HC0.
  { split_and!; [by eapply act_step_keeps|eapply act_queue_ok; [apply HI|done..]|done|done]. }
  assert (∃ s1, tracks s0 s1 ∧ all_covered s1 ∧ lg_tracker s1 = TTop) as (s1 & HT1 & HC1 & Ht1).
  { destruct (lg_tracker s) as [|f| | |e r t|e r t|l|f| |] eqn:Et; try done;
      [exists s0; by split_and!; [constructor|..]
      |by destruct (await_next s0 f HC0 Et) as (s1 & ? & ? & ? & _); exists s1
      |by destruct (confirm_next s0 HC0 Et) as (s1 & ? & ? & ? & _); exists s1
      |destruct (catch_ends s0 HC0) as (s1 & ? & ? & _ & ?); [simpl; by rewrite Et|by exists s1]..]. }
  destruct (tracker_empties _ s1 HC1 Ht1 eq_refl) as (s2 & HT2 & HC2 & Ht2 & HO2).
  destruct (tracks_run s0 s2 (tracks_trans _ _ _ HT1 HT2)) as (ys & HRy & HFy). exists ys, s2.
  destruct HC2 as ((_ & (_ & HK & _) & _) & (_ & _ & _ & HTr & _) & _). split_and!; [|done|done| |].
  - change (act_step m (APublish (length (lg_added s))) s ≫= act_run m ys = Some s2). by rewrite E0.
  - destruct (aw_tripped (lg_aw s2)); [|done]. destruct (HTr eq_refl) as [?|?]; [done|congruence].
  - by rewrite <-HK, Ht2.
Qed.
End recovery.

Section accounting.
Context `{Crypto, Env, GoFmt}.
Variable m : DiskMonitor.
Hypothesis m_bound : mn_bound m = true.

(** Nothing the writer accepted is lost or overtaken. In every state the log can reach, the leaves that wait are at most
    the capacity, they are entries of the log in its order, and the counter of accepted leaves is that of the
    confirmed ones plus those that wait. *)
Theorem async_accounting entries w xs s :
  aw_wf w → aw_catchup w = false → outstanding w = [] → aw_tripped w = false → act_run m xs (opened entries w) = Some s →
  Z.of_nat (length (outstanding (lg_aw s))) ≤ aw_capacity (lg_aw s) ∧ StronglySorted lt (futures (lg_aw s)) ∧
  Forall (λ f, (f < length (lg_added s))%nat) (futures (lg_aw s)) ∧
  aw_accepted (lg_aw s) = u64 (aw_confirmed (lg_aw s) + Z.of_nat (length (outstanding (lg_aw s)))).
Proof.
  intros HW HC HO HT HR. destruct (act_run_queue m xs _ _ m_bound HR (opened_inv entries w HW HC)) as [HI HQ].
  { unfold queue_ok, futures. simpl. rewrite HO, HT. split_and!; try done; constructor. }
  destruct HI as (_ & ((_ & _ & HB & _ & HA & _) & _) & _). destruct HQ as (HS & HF & _). by split_and!.
Qed.

Lemma tracker_done_stays x s s' : lg_tracker s = TDone → act_step m x s = Some s' → lg_tracker s' = TDone.
Proof.
  intros Ht. destruct x as [i async l now|i ok now|ok now now2 now3|now now2|used free at_ ok now|n| | |]; simpl.
  - unfold begin_append. destruct (lg_callers s !! i); [done|]. by intros [= <-].
  - unfold caller_step. destruct (lg_callers s !! i) as [[]|]; try done; try (by intros [= <-]).
    + intros [= <-]. by destruct (encodeLeaf _ _).
    + destruct (await _ _ _); [|done]. by intros [= <-].
    + destruct (lg_lock s); [done|]. intros [= <-]. by repeat case_match.
    + destruct (aw_accept _ _ _) as [[e|] w']; by intros [= <-].
  - unfold tracker_step. by rewrite Ht.
  - unfold watch_step. destruct (lg_lock s); [done|]. destruct (cut_tick _ _ _). by intros [= <-].
  - unfold monitor_step. destruct (lg_mon s) as [|a|a|a|dr a|dr a l|a f|a].
    + destruct (_ || _); intros [= <-]; [done|]. by destruct (disk_reason _ _ _).
    + destruct (lg_engaged s); by intros [= <-].
    + destruct (_ =? 0); [|done]. by intros [= <-].
    + destruct ok; [destruct (_ && _); [|done]|]; by intros [= <-].
    + destruct (SealLeafBestEffort _ _ _ _ _ _ _) as [[leaf jerr] tr]. by intros [= <-].
    + intros [= <-]. by destruct (encodeLeaf _ _).
    + destruct (await _ _ _); [|done]. by intros [= <-].
    + by intros [= <-].
  - destruct (_ && _); [|done]. by intros [= <-].
  - by intros [= <-].
  - by intros [= <-].
  - destruct (lg_lock s); [done|]. by intros [= <-].
Qed.

(** The tracker ends at the first future that fails, whatever the reason, and nothing starts it again. *)
Lemma tracker_done_final xs s s' : lg_tracker s = TDone → act_run m xs s = Some s' → lg_tracker s' = TDone.
Proof.
  revert s. induction xs as [|x xs IH]; intros s Ht E; simpl in E; [by injection E as <-|].
  apply bind_Some in E as (s1 & E1 & E). apply (IH s1); [|done]. by eapply tracker_done_stays.
Qed.
End accounting.
