(* ===== verification/GoStrings.v ===== *)
(** What the sources use of Go's packages strings, strconv, fmt and bufio, on the bytes of a string: [strings.Split], [strings.Cut],
    [strings.TrimSpace], [strconv.Itoa] and [strconv.Atoi], the lines of a [bufio.Scanner], and the idiom that
    collects the keys of a map, sorts them and walks the map in that order. *)
From S2P Require Import Prelude.
From S2P Require Import Json.
From Stdlib Require Import DecimalString DecimalZ DecimalFacts.

Local Open Scope Z_scope.

(** ** Splitting *)

(** The parts of [l] between the bytes [c]; there is always one. *)
Fixpoint split_on (c : byte) (l : bytes) : list bytes :=
  match l with
  | [] => [[]]
  | b :: l =>
      if decide (b = c) then [] :: split_on c l
      else match split_on c l with [] => [[b]] | p :: ps => (b :: p) :: ps end
  end.

Definition Split (c : byte) (s : string) : list string := bs <$> split_on c (sb s).

(** [strings.Cut]: what is before and after the first [c]. *)
Fixpoint cut_byte (c : byte) (l : bytes) : option (bytes * bytes) :=
  match l with
  | [] => None
  | b :: l => if decide (b = c) then Some ([], l) else '(p, q) ← cut_byte c l; Some (b :: p, q)
  end.

(** The encodings of the code points that [unicode.IsSpace] accepts. *)
Definition go_spaces : list bytes :=
  [[Byte.x09]; [Byte.x0a]; [Byte.x0b]; [Byte.x0c]; [Byte.x0d]; [Byte.x20]; [Byte.xc2; Byte.x85]; [Byte.xc2; Byte.xa0];
   [Byte.xe1; Byte.x9a; Byte.x80]; [Byte.xe2; Byte.x80; Byte.x80]; [Byte.xe2; Byte.x80; Byte.x81]; [Byte.xe2; Byte.x80; Byte.x82];
   [Byte.xe2; Byte.x80; Byte.x83]; [Byte.xe2; Byte.x80; Byte.x84]; [Byte.xe2; Byte.x80; Byte.x85]; [Byte.xe2; Byte.x80; Byte.x86];
   [Byte.xe2; Byte.x80; Byte.x87]; [Byte.xe2; Byte.x80; Byte.x88]; [Byte.xe2; Byte.x80; Byte.x89]; [Byte.xe2; Byte.x80; Byte.x8a];
   [Byte.xe2; Byte.x80; Byte.xa8]; [Byte.xe2; Byte.x80; Byte.xa9]; [Byte.xe2; Byte.x80; Byte.xaf]; [Byte.xe2; Byte.x81; Byte.x9f];
   [Byte.xe3; Byte.x80; Byte.x80]].

(** Drops from the front as long as one of [ps] is there; each turn drops at least one byte. *)
Fixpoint drop_while_prefix (fuel : nat) (ps : list bytes) (l : bytes) : bytes :=
  match fuel with
  | O => l
  | S fuel =>
      match head (filter (λ p, p `prefix_of` l) ps) with
      | None => l
      | Some p => drop_while_prefix fuel ps (drop (length p) l)
      end
  end.

(** [strings.TrimSpace]. *)
Definition TrimSpace (s : string) : string :=
  let l := sb s in
  let l1 := drop_while_prefix (length l) go_spaces l in
  bs (reverse (drop_while_prefix (length l1) (reverse <$> go_spaces) (reverse l1))).

(** ** Numbers *)

Definition Itoa (n : Z) : string := NilZero.string_of_int (Z.to_int n).

(** [strconv.Atoi]: a sign, then digits, in the range of an int. *)
Definition Atoi (s : string) : option Z :=
  let parsed := match s with
                | String c r => if Ascii.eqb c (Ascii.ascii_of_nat 43) then Decimal.Pos <$> NilZero.uint_of_string r else NilZero.int_of_string s
                | EmptyString => None
                end in
  n ← Z.of_int <$> parsed;
  if (- 2 ^ 63 <=? n) && (n <? 2 ^ 63) then Some n else None.

(** ** Lines *)

Definition newline : byte := Byte.x0a.
Definition carriage : byte := Byte.x0d.
Definition maxScanTokenSize : nat := 64 * 1024.

(** The lines that [Scan] returns: without their line feed and a carriage return before it, the last one only if it is not empty, and
    none from the first that does not fit the buffer on. *)
Definition drop_cr (l : bytes) : bytes :=
  match last l with Some b => if decide (b = carriage) then removelast l else l | None => l end.

Fixpoint scan_parts (ps : list bytes) : list bytes :=
  match ps with
  | [] => []
  | p :: rest =>
      if (maxScanTokenSize <=? length p)%nat then []
      else match rest, p with
           | [], [] => []
           | _, _ => drop_cr p :: scan_parts rest
           end
  end.

Definition scan_lines (l : bytes) : list bytes := scan_parts (split_on newline l).

(** ** Facts *)

Lemma cut_byte_app c l r : c ∉ l → cut_byte c (l ++ c :: r) = Some (l, r).
Proof.
  induction l as [|b l IH]; intros HN; simpl; [by rewrite decide_True|].
  rewrite not_elem_of_cons in HN. destruct HN as [Hb HN]. rewrite decide_False by done. by rewrite IH.
Qed.

Lemma split_on_app c l r : c ∉ l → split_on c (l ++ c :: r) = l :: split_on c r.
Proof.
  induction l as [|b l IH]; intros HN; simpl; [by rewrite decide_True|].
  rewrite not_elem_of_cons in HN. destruct HN as [Hb HN]. rewrite decide_False by done. by rewrite IH.
Qed.

Lemma sb_app s t : sb (s +:+ t) = sb s ++ sb t.
Proof. induction s as [|c s IH]; [done|]. change (sb (String c s +:+ t)) with (Ascii.byte_of_ascii c :: sb (s +:+ t)). by rewrite IH. Qed.

Lemma sb_Itoa n : sb (Itoa n) = json_int n.
Proof. done. Qed.

Lemma Atoi_Itoa n : - 2 ^ 63 ≤ n < 2 ^ 63 → Atoi (Itoa n) = Some n.
Proof.
  intros Hn. unfold Atoi, Itoa. pose proof (to_int_nonnil n) as [H1 H2]. pose proof (NilZero.isi (Z.to_int n) H1 H2) as E.
  destruct (NilZero.string_of_int (Z.to_int n)) as [|c r] eqn:Es; [done|].
  destruct (Ascii.eqb_spec c (Ascii.ascii_of_nat 43)) as [->|_].
  - exfalso. pose proof (json_int_digits n) as HD. unfold json_int in HD. rewrite Es in HD. apply Forall_cons in HD as [[HD|HD] _]; done.
  - rewrite E. simpl. rewrite DecimalZ.of_to. destruct (Z.leb_spec (- 2 ^ 63) n), (Z.ltb_spec n (2 ^ 63)); try lia. done.
Qed.

Lemma drop_cr_plain l : carriage ∉ l → drop_cr l = l.
Proof.
  intros HN. unfold drop_cr. destruct (last l) as [b|] eqn:E; [|done]. rewrite decide_False; [done|].
  intros ->. apply HN. rewrite last_lookup in E. by eapply list_elem_of_lookup_2.
Qed.

(** ** The length of a number *)

Lemma nb_digits_double d :
  (Decimal.nb_digits (Decimal.Little.double d) ≤ S (Decimal.nb_digits d))%nat ∧
  (Decimal.nb_digits (Decimal.Little.succ_double d) ≤ S (Decimal.nb_digits d))%nat.
Proof. induction d; simpl; lia. Qed.

Lemma nb_digits_pos p : (Decimal.nb_digits (Pos.to_little_uint p) ≤ Pos.size_nat p)%nat.
Proof.
  induction p as [p IH|p IH|]; simpl; [| |done]; pose proof (nb_digits_double (Pos.to_little_uint p)); lia.
Qed.

Lemma slen_uint d : slen (NilEmpty.string_of_uint d) = Decimal.nb_digits d.
Proof. induction d; simpl; auto. Qed.

Lemma slen_Itoa n : 0 < n < 2 ^ 63 → (slen (Itoa n) ≤ 65)%nat.
Proof.
  intros Hn. destruct n as [|p|p]; [lia| |lia]. unfold Itoa. simpl.
  assert (slen (NilZero.string_of_uint (Pos.to_uint p)) ≤ S (Decimal.nb_digits (Pos.to_uint p)))%nat as HL.
  { unfold NilZero.string_of_uint. destruct (Pos.to_uint p); [simpl; lia|rewrite slen_uint; lia..]. }
  unfold Pos.to_uint in *. rewrite DecimalFacts.nb_digits_rev in HL. pose proof (nb_digits_pos p) as HP.
  assert (Pos.size_nat p ≤ Pos.size_nat (2 ^ 63))%nat as HS by (apply Pos.size_nat_monotone; lia).
  change (Pos.size_nat (2 ^ 63)) with 64%nat in HS. lia.
Qed.

(** ** Maps in the order of their keys *)

Section entries.
Context `{MapOrder, SliceSort} {A : Type}.

(** The entries of a map, by [sort.Strings] on its keys. *)
Definition sorted_entries (zero : A) (m : gmap string A) : list (string * A) :=
  (λ k, (k, default zero (m !! k))) <$> sort_slice string_le (map_range (map_to_list m).*1).

Lemma sorted_entries_perm zero m : sorted_entries zero m ≡ₚ map_to_list m.
Proof.
  unfold sorted_entries. rewrite sort_slice_perm, map_range_perm, <-list_fmap_compose.
  apply reflexive_eq. rewrite <-(list_fmap_id (map_to_list m)) at 2. apply list_fmap_ext. intros i [n c] Hi. simpl.
  apply list_elem_of_lookup_2, elem_of_map_to_list in Hi. by rewrite Hi.
Qed.

Lemma sorted_entries_NoDup zero m : NoDup (sorted_entries zero m).*1.
Proof. rewrite sorted_entries_perm. apply NoDup_fst_map_to_list. Qed.

Lemma sorted_entries_map zero m : list_to_map (sorted_entries zero m) = m.
Proof.
  rewrite (list_to_map_proper (sorted_entries zero m) (map_to_list m)); [apply list_to_map_to_list| |apply sorted_entries_perm].
  apply sorted_entries_NoDup.
Qed.

Lemma sorted_entries_length zero m : length (sorted_entries zero m) = size m.
Proof. by rewrite (Permutation_length (sorted_entries_perm zero m)), length_map_to_list. Qed.

Lemma sorted_entries_Forall (P : string * A → Prop) zero m : map_Forall (λ k v, P (k, v)) m → Forall P (sorted_entries zero m).
Proof.
  intros HM. apply Forall_forall. intros [k v] Hin. rewrite sorted_entries_perm, elem_of_map_to_list in Hin. by apply (HM k v).
Qed.
End entries.
