(* ===== verification/Manifest.v ===== *)
(** The attested state of a cell: [src/registry/manifest.go] and [src/registry/measured_boot.go].

    A manifest is a fixed-layout record of the hashes of the components of a cell, signed by the key of the cell
    and chained to the one before it by its hash. [Manifester] produces the genesis and the transitions, each with
    its leaf; [VerifyManifestChain] is what a third party runs on the published artefacts; [CheckBoot] compares the
    machine that starts with the last manifest.

    The key of the cell comes from the package note, outside the repository: [CellKey] is its signer and its
    verifier, [CellKeyLaws] what the package documents of a pair. *)
From S2P Require Import Prelude.
From S2P Require Import Hex.
From S2P Require Import Json.
From S2P Require Import GoStrings.
From S2P Require Import Leaf.
From S2P Require Import Effects.
From S2P Require Import Records.

Local Open Scope Z_scope.

Definition manifestEventBoot : byte := Byte.x01.
Definition manifestEventTransition : byte := Byte.x02.
Definition manifestEventRefuse : byte := Byte.x03.

Inductive manifest_error :=
  | ErrManifestConfig | ErrManifestNotInitialized | ErrManifestAlreadyGenesis | ErrManifestUnchanged | ErrManifestEpochRegression
  | ErrManifestContinuity | ErrManifestSignature | ErrManifestRecordMalformed | ErrManifestLeafFault | ErrManifestSign
  | ErrManifestArtefact | ErrBootArguments | ErrBootNoManifest | ErrBootMisconfiguration | ErrBootMeasurement | ErrBootDivergence.

(** [[32]byte{}]. *)
Definition zero32 : bytes := replicate 32 Byte.x00.

Record ManifestState := mkManifestState {
  ms_PolicyID : bytes; ms_OPAConfigHash : bytes; ms_BrokerHash : bytes; ms_AIContainerHash : bytes; ms_ChainHead : bytes }.

#[global] Instance ManifestState_eq_dec : EqDecision ManifestState.
Proof. solve_decision. Defined.

Definition state0 : ManifestState := mkManifestState zero32 zero32 zero32 zero32 zero32.

Definition manifestRecordPrefix : string := "TBP-M1".
Definition manifestRecordVer : byte := Byte.x01.
Definition manifestRecordFixedLen : nat := 6 + 1 + 1 + 8 + 8 + 32 + 5 * 32 + 8.

Record ManifestRecord := mkManifestRecord {
  mr_CellID : string; mr_Epoch : Z; mr_Seq : Z; mr_Prev : bytes; mr_State : ManifestState; mr_IssuedAt : Z }.

Definition marshalRecord (cellID : string) (epoch seq : Z) (prev : bytes) (st : ManifestState) (issuedAt : Z) : bytes :=
  sb manifestRecordPrefix ++ [manifestRecordVer; len8 cellID] ++ sb cellID ++ be 8 epoch ++ be 8 seq ++ prev ++
  ms_PolicyID st ++ ms_OPAConfigHash st ++ ms_BrokerHash st ++ ms_AIContainerHash st ++ ms_ChainHead st ++ be 8 (u64 (Unix issuedAt)).

(** [r[o:]] read into [n] bytes. *)
Definition slice (o n : nat) (r : bytes) : bytes := take n (drop o r).

Definition ParseManifestRecord (r : bytes) : manifest_error + ManifestRecord :=
  if (length r <? manifestRecordFixedLen + 1)%nat then inl ErrManifestRecordMalformed
  else if bool_decide (take 6 r ≠ sb manifestRecordPrefix) then inl ErrManifestRecordMalformed
  else if bool_decide (r !!! 6%nat ≠ manifestRecordVer) then inl ErrManifestRecordMalformed
  else
    let idLen := Z.to_nat (b2z (r !!! 7%nat)) in
    if (idLen =? 0)%nat then inl ErrManifestRecordMalformed
    else if negb (length r =? manifestRecordFixedLen + idLen)%nat then inl ErrManifestRecordMalformed
    else
      let off := (8 + idLen)%nat in
      let off1 := (off + 48)%nat in
      let off2 := (off1 + 160)%nat in
      inr (mkManifestRecord (bs (slice 8 idLen r)) (be_val (slice off 8 r)) (be_val (slice (off + 8) 8 r)) (slice (off + 16) 32 r)
             (mkManifestState (slice off1 32 r) (slice (off1 + 32) 32 r) (slice (off1 + 64) 32 r) (slice (off1 + 96) 32 r)
                (slice (off1 + 128) 32 r))
             (of_Unix (i64 (be_val (slice off2 8 r))))).

Definition HashManifest `{Crypto} (record : bytes) : bytes := sha256 record.

Record SignedManifest := mkSignedManifest { sm_Record : bytes; sm_Signature : bytes }.
Record signedManifestJSON := mkSignedManifestJSON { smj_Record : string; smj_Signature : string }.

(** [json.Marshal] on [signedManifestJSON]. *)
Definition signed_manifest_bytes (j : signedManifestJSON) : bytes :=
  [open_obj] ++ json_key "record" ++ json_string (smj_Record j) ++ [comma] ++ json_key "signature" ++ json_string (smj_Signature j)
  ++ [close_obj].

(** The structure [MarshalSignedManifest] gives to [json.Marshal]. *)
Definition manifest_json (sm : SignedManifest) : signedManifestJSON :=
  mkSignedManifestJSON (hex (sm_Record sm)) (hex (sm_Signature sm)).

Definition MarshalSignedManifest (sm : SignedManifest) : option bytes :=
  if (length (sm_Record sm) =? 0)%nat || (length (sm_Signature sm) =? 0)%nat then None
  else Some (signed_manifest_bytes (manifest_json sm)).

(** [ParseSignedManifest]; [data] is what the standard decoder reads, [None] when it fails. *)
Definition ParseSignedManifest (data : option signedManifestJSON) : manifest_error + SignedManifest :=
  match data with
  | None => inl ErrManifestArtefact
  | Some j =>
      match hex_DecodeString (smj_Record j) with
      | None => inl ErrManifestRecordMalformed
      | Some rec =>
          match hex_DecodeString (smj_Signature j) with
          | None => inl ErrManifestArtefact
          | Some sig =>
              match ParseManifestRecord rec with
              | inl e => inl e
              | inr _ => inr (mkSignedManifest rec sig)
              end
          end
      end
  end.

(** The key of the cell: [note.Signer] and [note.Verifier]. Signing can fail, at any moment. *)
Class CellKey := { key_Sign : trace → bytes → option bytes; key_Verify : bytes → bytes → bool }.
Class CellKeyLaws `{CellKey} := sign_verifies : ∀ t m sig, key_Sign t m = Some sig → key_Verify m sig = true.

Record Manifester := mkManifester {
  mf_prod : Producer; mf_onTrip : bool; mf_initialized : bool; mf_lastRecord : bytes; mf_lastSigned : SignedManifest;
  mf_lastState : ManifestState; mf_lastEpoch : Z; mf_lastSeq : Z }.

Section manifester.
Context `{Crypto, Env, CellKey}.

(** [NewManifester]; [signer], [verifier] and [leaves] say whether they are given. *)
Definition NewManifester (cellID : string) (signer verifier leaves journal : bool) (salt : bytes) (last : option SignedManifest)
    (onTrip : bool) : manifest_error + Manifester :=
  if (slen cellID =? 0)%nat || (maxCellIDLen <? slen cellID)%nat then inl ErrManifestConfig
  else if negb signer || negb verifier then inl ErrManifestConfig
  else if negb leaves then inl ErrManifestConfig
  else if (length salt <? 16)%nat then inl ErrManifestConfig
  else
    match last with
    | None => inr (mkManifester (mkProducer cellID salt journal) onTrip false [] (mkSignedManifest [] []) state0 0 0)
    | Some sm =>
        match ParseManifestRecord (sm_Record sm) with
        | inl e => inl e
        | inr rec =>
            if bool_decide (mr_CellID rec ≠ cellID) then inl ErrManifestContinuity
            else if negb (key_Verify (sm_Record sm) (sm_Signature sm)) then inl ErrManifestSignature
            else inr (mkManifester (mkProducer cellID salt journal) onTrip true (sm_Record sm) sm (mr_State rec) (mr_Epoch rec) (mr_Seq rec))
        end
    end.

Definition manifestLeafRecord (event : byte) (manifestHash : bytes) (verdict : byte) (reason : string) : bytes :=
  sb "TBPL2" ++ [event] ++ manifestHash ++ [verdict; len8 reason] ++ sb reason.

(** [writeLeafLocked]; [now] is the reading of the clock for the date of the leaf. *)
Definition mf_writeLeaf (event : byte) (manifestHash : bytes) (verdict : byte) (reason : string) (now : Z) (m : Manifester) (t : trace) :
    option append_error * trace :=
  appendLeaf (mf_prod m) KindManifest (manifestLeafRecord event manifestHash verdict reason) (UnixNano now) t.

Definition mf_trip (m : Manifester) (reason : string) (t : trace) : trace := call_alarm (mf_onTrip m) reason t.

(** [commitLocked]; the clock is read for the record, then for the leaf. *)
Definition commitLocked (epoch seq : Z) (prev : bytes) (st : ManifestState) (event : byte) (reason : string) (now1 now2 : Z)
    (m : Manifester) (t : trace) : (manifest_error + SignedManifest) * Manifester * trace :=
  let record := marshalRecord (p_cellID (mf_prod m)) epoch seq prev st now1 in
  let hash := HashManifest record in
  match key_Sign t record with
  | None =>
      let '(werr, t1) := mf_writeLeaf manifestEventRefuse hash Byte.x00 "manifest-sign-fault" now2 m t in
      let t2 := match werr with Some _ => mf_trip m "manifest-leaf-fault" t1 | None => t1 end in
      (inl ErrManifestSign, m, mf_trip m "manifest-sign-fault" t2)
  | Some sig =>
      match mf_writeLeaf event hash Byte.x01 reason now2 m t with
      | (Some _, t1) => (inl ErrManifestLeafFault, m, mf_trip m "manifest-leaf-fault" t1)
      | (None, t1) =>
          let sm := mkSignedManifest record sig in
          (inr sm, mkManifester (mf_prod m) (mf_onTrip m) true record sm st epoch seq, t1)
      end
  end.

Definition Genesis (epoch : Z) (st : ManifestState) (now1 now2 : Z) (m : Manifester) (t : trace) :
    (manifest_error + SignedManifest) * Manifester * trace :=
  if mf_initialized m then (inl ErrManifestAlreadyGenesis, m, t)
  else commitLocked epoch 0 zero32 st manifestEventBoot "genesis" now1 now2 m t.

Definition Transition (epoch : Z) (st : ManifestState) (now1 now2 : Z) (m : Manifester) (t : trace) :
    (manifest_error + SignedManifest) * Manifester * trace :=
  if negb (mf_initialized m) then (inl ErrManifestNotInitialized, m, t)
  else if bool_decide (st = mf_lastState m) then (inl ErrManifestUnchanged, m, t)
  else if epoch <? mf_lastEpoch m then (inl ErrManifestEpochRegression, m, t)
  else commitLocked epoch (u64 (mf_lastSeq m + 1)) (HashManifest (mf_lastRecord m)) st manifestEventTransition "ok" now1 now2 m t.

(** [State] and [LastSigned]. *)
Definition mf_State (m : Manifester) : option ManifestState := if mf_initialized m then Some (mf_lastState m) else None.
Definition LastSigned (m : Manifester) : option SignedManifest := if mf_initialized m then Some (mf_lastSigned m) else None.

Definition mf_writeRefusal (manifestHash : bytes) (reason : string) (err : manifest_error) (now : Z) (m : Manifester) (t : trace) :
    option manifest_error * trace :=
  match mf_writeLeaf manifestEventRefuse manifestHash Byte.x00 reason now m t with
  | (Some _, t1) => (Some err, mf_trip m "manifest-leaf-fault" t1)
  | (None, t1) => (Some err, t1)
  end.

(** The loop of [VerifyManifestChain] from its [i]-th artefact on. *)
Fixpoint verify_links (first : bool) (prevHash : bytes) (prevSeq prevEpoch : Z) (cellID : string) (chain : list SignedManifest) :
    option manifest_error :=
  match chain with
  | [] => None
  | sm :: rest =>
      match ParseManifestRecord (sm_Record sm) with
      | inl e => Some e
      | inr rec =>
          if first && (negb (mr_Seq rec =? 0) || bool_decide (mr_Prev rec ≠ zero32)) then Some ErrManifestContinuity
          else if negb first && bool_decide (mr_CellID rec ≠ cellID) then Some ErrManifestContinuity
          else if negb first && negb (mr_Seq rec =? u64 (prevSeq + 1)) then Some ErrManifestContinuity
          else if negb first && bool_decide (mr_Prev rec ≠ prevHash) then Some ErrManifestContinuity
          else if mr_Epoch rec <? prevEpoch then Some ErrManifestContinuity
          else if negb (key_Verify (sm_Record sm) (sm_Signature sm)) then Some ErrManifestSignature
          else verify_links false (HashManifest (sm_Record sm)) (mr_Seq rec) (mr_Epoch rec)
                 (if first then mr_CellID rec else cellID) rest
      end
  end.

Definition VerifyManifestChain (chain : list SignedManifest) : option manifest_error :=
  match chain with
  | [] => Some ErrManifestContinuity
  | _ => verify_links true zero32 0 0 "" chain
  end.

(** ** Measured boot *)

(** [MeasureRoot] of [FileRootMeasurer]; [data] is the file. *)
Definition file_MeasureRoot (data : option string) : option bytes :=
  d ← data; b ← hex_DecodeString (TrimSpace d); if (length b =? 32)%nat then Some b else None.

Record ComponentPaths := mkComponentPaths { cp_PolicyBundle : string; cp_OPAConfig : string; cp_BrokerBinary : string; cp_AIContainer : string }.

(** [HashFile] over what reading the file gives. *)
Definition HashFile (content : option bytes) : option bytes := sha256 <$> content.

(** [MeasureComponents]; [files] is what the disk gives for each path. *)
Definition MeasureComponents (files : string → option bytes) (paths : ComponentPaths) : option ManifestState :=
  if bool_decide (cp_PolicyBundle paths = "") || bool_decide (cp_OPAConfig paths = "") || bool_decide (cp_BrokerBinary paths = "")
     || bool_decide (cp_AIContainer paths = "") then None
  else
    policy ← HashFile (files (cp_PolicyBundle paths));
    opa ← HashFile (files (cp_OPAConfig paths));
    broker ← HashFile (files (cp_BrokerBinary paths));
    ai ← HashFile (files (cp_AIContainer paths));
    Some (mkManifestState policy opa broker ai zero32).

Definition lastHash (m : Manifester) : bytes := if mf_initialized m then HashManifest (mf_lastRecord m) else zero32.

(** The comparison of the four components: the head of the chain is left out. *)
Definition same_components (a b : ManifestState) : bool :=
  bool_decide (ms_PolicyID a = ms_PolicyID b) && bool_decide (ms_OPAConfigHash a = ms_OPAConfigHash b) &&
  bool_decide (ms_BrokerHash a = ms_BrokerHash b) && bool_decide (ms_AIContainerHash a = ms_AIContainerHash b).

(** [CheckBoot]. The manifester is not locked between the reading of its state and that of its hash: [others] is what the
    rest of the program does to it and to the log in between. *)
Definition CheckBoot (m : option Manifester) (root : option (option bytes)) (expectedRoot : bytes) (files : string → option bytes)
    (paths : ComponentPaths) (others : Manifester * trace → Manifester * trace) (now : Z) (t : trace) : option manifest_error * trace :=
  match m, root with
  | Some m, Some root =>
      match mf_State m with
      | None => let '(m1, t1) := others (m, t) in mf_writeRefusal zero32 "boot-no-manifest" ErrBootNoManifest now m1 t1
      | Some st =>
          let '(m1, t1) := others (m, t) in
          if bool_decide (expectedRoot = zero32) then
            mf_writeRefusal (lastHash m1) "boot-misconfiguration" ErrBootMisconfiguration now m1 t1
          else
            match root with
            | None => mf_writeRefusal (lastHash m1) "boot-measurement-fault" ErrBootMeasurement now m1 (mf_trip m1 "manifest-boot-fault" t1)
            | Some root =>
                if bool_decide (root ≠ expectedRoot) then
                  mf_writeRefusal (lastHash m1) "boot-divergence" ErrBootDivergence now m1 (mf_trip m1 "manifest-boot-divergence" t1)
                else
                  match MeasureComponents files paths with
                  | None =>
                      mf_writeRefusal (lastHash m1) "boot-measurement-fault" ErrBootMeasurement now m1 (mf_trip m1 "manifest-boot-fault" t1)
                  | Some measured =>
                      if negb (same_components measured st) then
                        mf_writeRefusal (lastHash m1) "boot-divergence" ErrBootDivergence now m1 (mf_trip m1 "manifest-boot-divergence" t1)
                      else
                        match mf_writeLeaf manifestEventBoot (lastHash m1) Byte.x01 "ok" now m1 t1 with
                        | (Some _, t2) => (Some ErrManifestLeafFault, mf_trip m1 "manifest-leaf-fault" t2)
                        | (None, t2) => (None, t2)
                        end
                  end
            end
      end
  | _, _ => (Some ErrBootArguments, t)
  end.
End manifester.

(** ** Slices of a layout *)

Lemma slice_skip o n (a r : bytes) : (length a ≤ o)%nat → slice o n (a ++ r) = slice (o - length a) n r.
Proof. intros Ho. unfold slice. by rewrite drop_app_ge. Qed.

Lemma slice_here n (a r : bytes) : length a = n → slice 0 n (a ++ r) = a.
Proof. intros <-. unfold slice. by rewrite drop_0, take_app_length. Qed.

Lemma slice_all n (a : bytes) : length a = n → slice 0 n a = a.
Proof. intros <-. unfold slice. by rewrite drop_0, firstn_all. Qed.

Lemma slice_cat o n (r : bytes) : drop o r = slice o n r ++ drop (o + n) r.
Proof. unfold slice. by rewrite <-drop_drop, take_drop. Qed.

Lemma length_slice o n (r : bytes) : (o + n ≤ length r)%nat → length (slice o n r) = n.
Proof. intros. unfold slice. rewrite length_take, length_drop. lia. Qed.

(** Reads one field of a concatenation of fields of known lengths. *)
Ltac read_slice :=
  repeat (rewrite slice_skip by len);
  match goal with |- slice ?o _ _ = _ => replace o with 0%nat by len end;
  first [apply slice_here; len | apply slice_all; len].

(** The 32-byte fields. *)
Definition state_typed (st : ManifestState) : Prop :=
  length (ms_PolicyID st) = 32%nat ∧ length (ms_OPAConfigHash st) = 32%nat ∧ length (ms_BrokerHash st) = 32%nat ∧
  length (ms_AIContainerHash st) = 32%nat ∧ length (ms_ChainHead st) = 32%nat.

(** What a parsed record can be. *)
Definition record_typed (m : ManifestRecord) : Prop :=
  (0 < slen (mr_CellID m) ≤ 255)%nat ∧ in_u64 (mr_Epoch m) ∧ in_u64 (mr_Seq m) ∧ length (mr_Prev m) = 32%nat ∧ state_typed (mr_State m) ∧
  of_Unix (Unix (mr_IssuedAt m)) = mr_IssuedAt m ∧ in_i64 (Unix (mr_IssuedAt m)).

Definition manifest_bytes (m : ManifestRecord) : bytes :=
  marshalRecord (mr_CellID m) (mr_Epoch m) (mr_Seq m) (mr_Prev m) (mr_State m) (mr_IssuedAt m).

Lemma be_val_be8 z : in_u64 z → be_val (be 8 z) = z.
Proof. intros Hz. rewrite be_val_be. by apply Z.mod_small. Qed.

Lemma len8_nat s : (slen s ≤ 255)%nat → Z.to_nat (b2z (len8 s)) = slen s.
Proof. intros Hs. unfold len8. rewrite b2z_z2b, Z.mod_small by lia. lia. Qed.

Lemma len8_sb_bs (r : bytes) b : length r = Z.to_nat (b2z b) → len8 (bs r) = b.
Proof.
  intros HL. unfold len8. rewrite <-length_sb, sb_bs, HL. pose proof (b2z_range b). rewrite Z2Nat.id by lia. apply z2b_b2z.
Qed.

(** Reading a record of a cell with a name, at the second. *)
Lemma parse_marshal cellID epoch seq prev st now :
  (0 < slen cellID ≤ 255)%nat → in_u64 epoch → in_u64 seq → length prev = 32%nat → state_typed st →
  ParseManifestRecord (marshalRecord cellID epoch seq prev st now) =
    inr (mkManifestRecord cellID epoch seq prev st (of_Unix (i64 (u64 (Unix now))))).
Proof.
  intros HC HE HS HP (H1 & H2 & H3 & H4 & H5). unfold ParseManifestRecord.
  set (r := marshalRecord _ _ _ _ _ _).
  assert (length r = manifestRecordFixedLen + slen cellID)%nat as HL.
  { unfold r, marshalRecord, manifestRecordFixedLen. len. }
  rewrite HL, (proj2 (Nat.ltb_ge _ _)) by (unfold manifestRecordFixedLen; lia).
  rewrite (bool_decide_eq_false_2 (take 6 r ≠ _)) by (by intros []).
  rewrite (bool_decide_eq_false_2 (r !!! _ ≠ _)) by (by intros []).
  change (r !!! 7%nat) with (len8 cellID). rewrite len8_nat by lia. destruct (Nat.eqb_spec (slen cellID) 0) as [|_]; [lia|].
  rewrite Nat.eqb_refl. cbn [negb].
  assert (r = (sb manifestRecordPrefix ++ [manifestRecordVer; len8 cellID]) ++ sb cellID ++ be 8 epoch ++ be 8 seq ++ prev ++
    ms_PolicyID st ++ ms_OPAConfigHash st ++ ms_BrokerHash st ++ ms_AIContainerHash st ++ ms_ChainHead st ++ be 8 (u64 (Unix now))) as ->
    by (unfold r, marshalRecord; by rewrite <-app_assoc).
  clear HL. assert (length (sb manifestRecordPrefix ++ [manifestRecordVer; len8 cellID]) = 8%nat) as H8 by done.
  revert H8. generalize (sb manifestRecordPrefix ++ [manifestRecordVer; len8 cellID]). intros pre H8.
  do 2 f_equal.
  - rewrite <-(bs_sb cellID) at 3. f_equal. read_slice.
  - rewrite <-(be_val_be8 epoch HE) at 2. f_equal. read_slice.
  - rewrite <-(be_val_be8 seq HS) at 2. f_equal. read_slice.
  - read_slice.
  - destruct st. cbn [ms_PolicyID ms_OPAConfigHash ms_BrokerHash ms_AIContainerHash ms_ChainHead] in *. f_equal; read_slice.
  - do 2 f_equal. rewrite <-(be_val_be8 (u64 (Unix now)) (u64_range _)) at 2. f_equal. read_slice.
Qed.

Lemma parse_shape_manifest r m : ParseManifestRecord r = inr m → record_typed m ∧ manifest_bytes m = r.
Proof.
  unfold ParseManifestRecord. destruct (Nat.ltb_spec (length r) (manifestRecordFixedLen + 1)) as [|HL]; [done|].
  case_bool_decide as Hp; [done|]. case_bool_decide as Hv; [done|].
  set (l := r !!! 7%nat). set (n := Z.to_nat (b2z l)). destruct (Nat.eqb_spec n 0) as [|Hn]; [done|].
  destruct (Nat.eqb_spec (length r) (manifestRecordFixedLen + n)) as [HR|]; [cbn [negb]|done].
  unfold manifestRecordFixedLen in HL, HR. intros [= <-].
  assert (n ≤ 255)%nat as Hn255 by (unfold n; pose proof (b2z_range l); lia).
  assert (r = sb manifestRecordPrefix ++ [manifestRecordVer; l] ++ drop 8 r) as E0.
  { rewrite <-(take_drop 6 r) at 1. rewrite Hp, <-Hv. f_equal. simpl.
    rewrite (drop_S _ (r !!! 6%nat) 6) by (apply list_lookup_lookup_total_lt; lia).
    by rewrite (drop_S _ l 7) by (apply list_lookup_lookup_total_lt; lia). }
  assert (∀ o k, (o + k ≤ length r)%nat → length (slice o k r) = k) as HS by (intros; by apply length_slice).
  split.
  - unfold record_typed, state_typed. cbn [mr_CellID mr_Epoch mr_Seq mr_Prev mr_State mr_IssuedAt ms_PolicyID ms_OPAConfigHash ms_BrokerHash ms_AIContainerHash ms_ChainHead].
    rewrite <-length_sb, sb_bs, Unix_of_Unix, !HS by lia. split_and!; try lia; try done; try apply i64_range.
    all: unfold in_u64; match goal with |- context[be_val ?x] => pose proof (be_val_range x) as Hr; rewrite HS in Hr by lia; simpl in Hr; lia end.
  - unfold manifest_bytes, marshalRecord. cbn [mr_CellID mr_Epoch mr_Seq mr_Prev mr_State mr_IssuedAt ms_PolicyID ms_OPAConfigHash ms_BrokerHash ms_AIContainerHash ms_ChainHead].
    rewrite (len8_sb_bs (slice 8 n r) l) by (apply HS; lia). rewrite Unix_of_Unix, u64_i64, u64_small, sb_bs.
    2: { unfold in_u64. pose proof (be_val_range (slice (8 + n + 48 + 160) 8 r)) as Hr. rewrite HS in Hr by lia. simpl in Hr. lia. }
    assert (∀ o, (o + 8 ≤ length r)%nat → be 8 (be_val (slice o 8 r)) = slice o 8 r) as HB.
    { intros o Ho. rewrite <-(HS o 8%nat Ho) at 1. apply be_be_val. }
    rewrite !HB by lia. etransitivity; [|symmetry; exact E0]. do 2 f_equal. rewrite (slice_cat 8 n). f_equal.
    rewrite (slice_cat (8 + n) 8), (slice_cat (8 + n + 8) 8), (slice_cat (8 + n + 8 + 8) 32), (slice_cat (8 + n + 8 + 8 + 32) 32),
      (slice_cat (8 + n + 8 + 8 + 32 + 32) 32), (slice_cat (8 + n + 8 + 8 + 32 + 32 + 32) 32), (slice_cat (8 + n + 8 + 8 + 32 + 32 + 32 + 32) 32),
      (slice_cat (8 + n + 8 + 8 + 32 + 32 + 32 + 32 + 32) 32), (slice_cat (8 + n + 8 + 8 + 32 + 32 + 32 + 32 + 32 + 32) 8).
    rewrite (drop_ge r (8 + n + 8 + 8 + 32 + 32 + 32 + 32 + 32 + 32 + 8)) by lia. rewrite app_nil_r.
    repeat (apply (f_equal2 app); [f_equal; lia|]). f_equal. lia.
Qed.

(** [ParseManifestRecord] accepts exactly the bytes that [marshalRecord] writes for a record, and returns that record: a
    manifest has one encoding. *)
Theorem manifest_record_bijective r m : ParseManifestRecord r = inr m ↔ record_typed m ∧ manifest_bytes m = r.
Proof.
  split; [apply parse_shape_manifest|]. intros [(HC & HE & HS & HP & HT & HU & HI) <-]. unfold manifest_bytes.
  rewrite parse_marshal by done. rewrite i64_u64 by done. rewrite HU. by destruct m.
Qed.

(** ** What a verified chain is *)
Section chains.
Context `{Crypto, Env, CellKey}.

Definition signed_by_cell (sm : SignedManifest) : Prop :=
  key_Verify (sm_Record sm) (sm_Signature sm) = true ∧ ∃ rec, ParseManifestRecord (sm_Record sm) = inr rec.

Definition starts_chain (sm : SignedManifest) : Prop :=
  ∃ rec, ParseManifestRecord (sm_Record sm) = inr rec ∧ mr_Seq rec = 0 ∧ mr_Prev rec = zero32.

(** [b] continues [a]: same cell, next number, no earlier epoch, sealed by the hash of [a]. *)
Definition continues (a b : SignedManifest) : Prop :=
  ∃ ra rb, ParseManifestRecord (sm_Record a) = inr ra ∧ ParseManifestRecord (sm_Record b) = inr rb ∧
    mr_CellID rb = mr_CellID ra ∧ mr_Seq rb = u64 (mr_Seq ra + 1) ∧ mr_Prev rb = HashManifest (sm_Record a) ∧ mr_Epoch ra ≤ mr_Epoch rb.

Definition linked (chain : list SignedManifest) : Prop :=
  ∀ i a b, chain !! i = Some a → chain !! S i = Some b → continues a b.

Lemma linked_cons a b l : linked (a :: b :: l) ↔ continues a b ∧ linked (b :: l).
Proof.
  split.
  - intros HL. split; [by apply (HL 0%nat)|]. intros i x y Hx Hy. by apply (HL (S i)).
  - intros [HC HL] [|i] x y Hx Hy; [simpl in *; simplify_eq; done|]. by apply (HL i).
Qed.

Lemma verify_links_rest p rp rest :
  ParseManifestRecord (sm_Record p) = inr rp →
  verify_links false (HashManifest (sm_Record p)) (mr_Seq rp) (mr_Epoch rp) (mr_CellID rp) rest = None ↔
    Forall signed_by_cell rest ∧ linked (p :: rest).
Proof.
  revert p rp. induction rest as [|sm rest IH]; intros p rp Hp; simpl.
  { split; [|done]. split; [constructor|]. intros [|i] a b Ha Hb; simpl in *; done. }
  rewrite linked_cons, Forall_cons. unfold signed_by_cell at 1, continues. rewrite Hp. destruct (ParseManifestRecord (sm_Record sm)) as [e|rec] eqn:Er.
  { split; [done|]. intros [[[_ [? ?]] _] _]. done. }
  case_bool_decide as E1; [split; [done|]; intros (_ & (? & ? & ? & ? & ? & _) & _); by simplify_eq|].
  destruct (Z.eqb_spec (mr_Seq rec) (u64 (mr_Seq rp + 1))) as [E2|E2]; cbn [negb];
    [|split; [done|]; intros (_ & (? & ? & ? & ? & _ & ? & _) & _); by simplify_eq].
  case_bool_decide as E3; [split; [done|]; intros (_ & (? & ? & ? & ? & _ & _ & ? & _) & _); by simplify_eq|].
  destruct (Z.ltb_spec (mr_Epoch rec) (mr_Epoch rp)) as [E4|E4];
    [split; [done|]; intros (_ & (? & ? & ? & ? & _ & _ & _ & ?) & _); simplify_eq; lia|].
  destruct (key_Verify _ _) eqn:Hv; cbn [negb]; [|split; [done|]; by intros [[[? _] _] _]].
  rewrite <-E1, (IH sm rec Er). split; intros [HF HL]; split; auto.
  - constructor; [split; [done|by exists rec]|done].
  - split; [|done]. exists rp, rec. split_and!; auto.
  - by inversion HF.
  - by destruct HL.
Qed.

(** The verifier accepts a chain exactly when its artefacts are signed, the first one starts it and each other one continues the
    one before. *)
Lemma chain_verified_exactly chain :
  VerifyManifestChain chain = None ↔
    (∃ g, head chain = Some g ∧ starts_chain g) ∧ Forall signed_by_cell chain ∧ linked chain.
Proof.
  destruct chain as [|g rest]; simpl; [split; [done|by intros [(? & ? & _) _]]|]. rewrite Forall_cons. unfold signed_by_cell at 1, starts_chain.
  destruct (ParseManifestRecord (sm_Record g)) as [e|rec] eqn:Er.
  { split; [done|]. by intros [_ [[[_ [? ?]] _] _]]. }
  destruct (Z.eqb_spec (mr_Seq rec) 0) as [E1|E1]; cbn [negb orb];
    [|split; [done|]; intros [(? & [= <-] & ? & ? & ? & _) _]; congruence].
  case_bool_decide as E2; [split; [done|]; intros [(? & [= <-] & ? & ? & _ & ?) _]; congruence|].
  pose proof (parse_shape_manifest _ _ Er) as [(_ & HE & _) _]. unfold in_u64 in HE.
  destruct (Z.ltb_spec (mr_Epoch rec) 0); [lia|].
  destruct (key_Verify _ _) eqn:Hv; cbn [negb]; [|split; [done|]; by intros [_ [[[? _] _] _]]].
  rewrite (verify_links_rest g rec rest Er). split.
  - intros [HF HL]. split; [exists g; split; [done|by exists rec]|]. split; [split; [split; [done|by exists rec]|done]|done].
  - by intros [_ [[_ HF] HL]].
Qed.

(** The number of an artefact is its place. *)
Lemma chain_seq chain i sm :
  (∃ g, head chain = Some g ∧ starts_chain g) → linked chain → chain !! i = Some sm →
  ∃ rec, ParseManifestRecord (sm_Record sm) = inr rec ∧ mr_Seq rec = u64 (Z.of_nat i).
Proof.
  intros (g & Hg & rec & Hr & Hs & _) HL. revert sm. induction i as [|i IH]; intros sm Hi.
  - destruct chain; simplify_eq/=. by exists rec.
  - destruct (lookup_lt_is_Some_2 chain i) as [a Ha]; [apply lookup_lt_Some in Hi; lia|].
    destruct (IH a Ha) as (ra & Hra & Hsa). destruct (HL i a sm Ha Hi) as (ra' & rb & Ea & Eb & _ & HS & _). rewrite Hra in Ea. injection Ea as <-.
    exists rb. split; [done|]. rewrite HS, Hsa. unfold u64. rewrite Zplus_mod_idemp_l. f_equal. lia.
Qed.

(** The same record in two verified chains is at the same place and has the same past. *)
Lemma same_past c1 c2 i j a b :
  VerifyManifestChain c1 = None → VerifyManifestChain c2 = None →
  Z.of_nat (length c1) < 2 ^ 64 → Z.of_nat (length c2) < 2 ^ 64 →
  c1 !! i = Some a → c2 !! j = Some b → sm_Record a = sm_Record b →
  (i = j ∧ take (S i) (sm_Record <$> c1) = take (S i) (sm_Record <$> c2)) ∨ sha256_collision.
Proof.
  intros (G1 & _ & L1)%chain_verified_exactly (G2 & _ & L2)%chain_verified_exactly N1 N2 Ha Hb E.
  assert (i = j) as <-.
  { destruct (chain_seq c1 i a G1 L1 Ha) as (ra & Era & Sa), (chain_seq c2 j b G2 L2 Hb) as (rb & Erb & Sb).
    rewrite E, Erb in Era. injection Era as <-. rewrite Sa in Sb. apply lookup_lt_Some in Ha, Hb.
    rewrite !u64_small in Sb by (unfold in_u64; lia). lia. }
  revert a b Ha Hb E. induction i as [|i IH]; intros a b Ha Hb E.
  { left. split; [done|]. destruct c1, c2; simplify_eq/=. by rewrite E. }
  destruct (lookup_lt_is_Some_2 c1 i) as [a' Ha']; [apply lookup_lt_Some in Ha; lia|].
  destruct (lookup_lt_is_Some_2 c2 i) as [b' Hb']; [apply lookup_lt_Some in Hb; lia|].
  destruct (L1 i a' a Ha' Ha) as (? & ra & _ & Era & _ & _ & Pa & _), (L2 i b' b Hb' Hb) as (? & rb & _ & Erb & _ & _ & Pb & _).
  rewrite E, Erb in Era. injection Era as <-. rewrite Pa in Pb. unfold HashManifest in Pb.
  destruct (sha256_eq_or_collision _ _ Pb) as [Er|]; [|by right].
  destruct (IH a' b' Ha' Hb' Er) as [[_ ET]|]; [|by right]. left. split; [done|].
  rewrite (take_S_r _ (S i) (sm_Record a)), (take_S_r (sm_Record <$> c2) (S i) (sm_Record b)) by (rewrite list_lookup_fmap; by simplify_option_eq). by rewrite ET, E.
Qed.

(** ** Runs of a manifester *)

(** The calls to a manifester, and a restart on the last artefact it has returned. *)
Inductive mf_op :=
  | OpGenesis (epoch : Z) (st : ManifestState) (now1 now2 : Z)
  | OpTransition (epoch : Z) (st : ManifestState) (now1 now2 : Z)
  | OpReopen.

Definition op_typed (o : mf_op) : Prop :=
  match o with OpGenesis e st _ _ | OpTransition e st _ _ => in_u64 e ∧ state_typed st | OpReopen => True end.

Record mf_world := mkMfWorld { wd_mf : Manifester; wd_published : list SignedManifest; wd_trace : trace }.

Definition publish (r : (manifest_error + SignedManifest) * Manifester * trace) (pub : list SignedManifest) : mf_world :=
  let '(res, m, t) := r in mkMfWorld m (pub ++ match res with inr sm => [sm] | inl _ => [] end) t.

(** [None]: the restart refuses its own artefact. *)
Definition mf_step (o : mf_op) (w : mf_world) : option mf_world :=
  match o with
  | OpGenesis epoch st now1 now2 => Some (publish (Genesis epoch st now1 now2 (wd_mf w) (wd_trace w)) (wd_published w))
  | OpTransition epoch st now1 now2 => Some (publish (Transition epoch st now1 now2 (wd_mf w) (wd_trace w)) (wd_published w))
  | OpReopen =>
      let p := mf_prod (wd_mf w) in
      match NewManifester (p_cellID p) true true true (p_journal p) (p_salt p) (last (wd_published w)) (mf_onTrip (wd_mf w)) with
      | inl _ => None
      | inr m => Some (mkMfWorld m (wd_published w) (wd_trace w))
      end
  end.

Fixpoint mf_run (os : list mf_op) (w : mf_world) : option mf_world :=
  match os with
  | [] => Some w
  | o :: os => w1 ← mf_step o w; mf_run os w1
  end.

(** The leaf that attests an artefact is in the log. *)
Definition attested (p : Producer) (t : trace) (sm : SignedManifest) : Prop :=
  ∃ event reason ts, leaf_for p KindManifest (manifestLeafRecord event (HashManifest (sm_Record sm)) Byte.x01 reason) ts ∈ leaves_of t.

(** Two artefacts attest different states. *)
Definition changes (a b : SignedManifest) : Prop :=
  ∀ ra rb, ParseManifestRecord (sm_Record a) = inr ra → ParseManifestRecord (sm_Record b) = inr rb → mr_State ra ≠ mr_State rb.

(** The manifester knows the artefact it last returned. *)
Definition in_step (m : Manifester) (sm : SignedManifest) : Prop :=
  mf_initialized m = true ∧ mf_lastSigned m = sm ∧ mf_lastRecord m = sm_Record sm ∧
  ∃ rec, ParseManifestRecord (sm_Record sm) = inr rec ∧ mr_CellID rec = p_cellID (mf_prod m) ∧
    mf_lastState m = mr_State rec ∧ mf_lastEpoch m = mr_Epoch rec ∧ mf_lastSeq m = mr_Seq rec.

Definition world_ok (w : mf_world) : Prop :=
  let m := wd_mf w in let p := mf_prod m in let pub := wd_published w in
  (0 < slen (p_cellID p) ≤ 255 ∧ 16 ≤ length (p_salt p))%nat ∧
  Forall (attested p (wd_trace w)) pub ∧
  (∀ i a b, pub !! i = Some a → pub !! S i = Some b → changes a b) ∧
  match last pub with
  | None => mf_initialized m = false
  | Some sm => VerifyManifestChain pub = None ∧ in_step m sm
  end.

Lemma lookup_snoc_next {A} (l : list A) x i a b :
  (l ++ [x]) !! i = Some a → (l ++ [x]) !! S i = Some b → (l !! i = Some a ∧ l !! S i = Some b) ∨ (last l = Some a ∧ b = x).
Proof.
  intros Ha Hb. destruct (decide (S i < length l)%nat) as [Hi|Hi].
  - left. by rewrite !lookup_app_l in * by lia.
  - right. rewrite lookup_app_r in Hb by lia. apply list_lookup_singleton_Some in Hb as [Hi0 ->]. split; [|done].
    rewrite last_lookup. replace (pred (length l)) with i by lia. by rewrite lookup_app_l in Ha by lia.
Qed.

Lemma verify_snoc pub sm g :
  VerifyManifestChain pub = None → last pub = Some g → continues g sm → signed_by_cell sm → VerifyManifestChain (pub ++ [sm]) = None.
Proof.
  intros ((s & Hs & HG) & HF & HL)%chain_verified_exactly Hl HC HA. apply chain_verified_exactly. split_and!.
  - exists s. split; [|done]. by destruct pub.
  - by apply Forall_app_2; [|constructor].
  - intros i a b Ha Hb. destruct (lookup_snoc_next _ _ _ _ _ Ha Hb) as [[Ha' Hb']|[Ha' ->]]; [by eapply HL|]. by simplify_eq.
Qed.

Lemma mf_writeLeaf_ok event hash verdict reason now m t t1 :
  mf_writeLeaf event hash verdict reason now m t = (None, t1) →
  leaves_of t1 = leaves_of t ++ [leaf_for (mf_prod m) KindManifest (manifestLeafRecord event hash verdict reason) (UnixNano now)].
Proof.
  unfold mf_writeLeaf. intros E. pose proof (appendLeaf_observed (mf_prod m) KindManifest (manifestLeafRecord event hash verdict reason) (UnixNano now) t) as HO.
  rewrite E in HO. by destruct HO.
Qed.

Lemma mf_writeLeaf_leaves event hash verdict reason now m t :
  leaves_of t `prefix_of` leaves_of (mf_writeLeaf event hash verdict reason now m t).2.
Proof.
  unfold mf_writeLeaf. pose proof (appendLeaf_prefix (mf_prod m) KindManifest (manifestLeafRecord event hash verdict reason) (UnixNano now) t) as [d ->].
  rewrite leaves_of_app. by eexists.
Qed.

Lemma leaves_of_call_alarm plugged reason t : leaves_of (call_alarm plugged reason t) = leaves_of t.
Proof. unfold call_alarm. destruct plugged; [|done]. rewrite leaves_of_app. apply app_nil_r. Qed.

Lemma attested_mono p t t' sm : leaves_of t `prefix_of` leaves_of t' → attested p t sm → attested p t' sm.
Proof. intros [d Ed] (e & r & ts & HI). exists e, r, ts. rewrite Ed. apply elem_of_app. by left. Qed.

(** A commit returns a signed artefact with its leaf, and moves to it, or changes nothing but the trace. *)
Lemma commitLocked_spec epoch seq prev st event reason now1 now2 m t :
  let '(res, m', t') := commitLocked epoch seq prev st event reason now1 now2 m t in
  leaves_of t `prefix_of` leaves_of t' ∧
  match res with
  | inl _ => m' = m
  | inr sm => sm_Record sm = marshalRecord (p_cellID (mf_prod m)) epoch seq prev st now1 ∧ (∃ t0, key_Sign t0 (sm_Record sm) = Some (sm_Signature sm)) ∧
      attested (mf_prod m) t' sm ∧ m' = mkManifester (mf_prod m) (mf_onTrip m) true (sm_Record sm) sm st epoch seq
  end.
Proof.
  unfold commitLocked. set (record := marshalRecord _ _ _ _ _ _). destruct (key_Sign t record) as [sig|] eqn:Es.
  - pose proof (mf_writeLeaf_leaves event (HashManifest record) Byte.x01 reason now2 m t) as HP.
    destruct (mf_writeLeaf event _ _ _ _ _ _) as [[e|] t1] eqn:Ew; simpl in *.
    + split; [|done]. unfold mf_trip. by rewrite leaves_of_call_alarm.
    + split; [done|]. split_and!; [done|by exists t| |done]. apply mf_writeLeaf_ok in Ew.
      exists event, reason, (UnixNano now2). rewrite Ew. apply elem_of_app. right. by apply list_elem_of_singleton.
  - pose proof (mf_writeLeaf_leaves manifestEventRefuse (HashManifest record) Byte.x00 "manifest-sign-fault" now2 m t) as HP.
    destruct (mf_writeLeaf manifestEventRefuse _ _ _ _ _ _) as [[e|] t1]; simpl in *; (split; [|done]); unfold mf_trip;
      by rewrite !leaves_of_call_alarm.
Qed.

Context `{!CryptoLaws, !CellKeyLaws}.

(** What a commit may be asked after the published chain. *)
Definition commit_fits (m : Manifester) (pub : list SignedManifest) (epoch seq : Z) (prev : bytes) (st : ManifestState) : Prop :=
  in_u64 epoch ∧ in_u64 seq ∧ length prev = 32%nat ∧ state_typed st ∧
  match last pub with
  | None => seq = 0 ∧ prev = zero32
  | Some _ => seq = u64 (mf_lastSeq m + 1) ∧ prev = HashManifest (mf_lastRecord m) ∧ mf_lastEpoch m ≤ epoch ∧ st ≠ mf_lastState m
  end.

Lemma commit_keeps epoch seq prev st event reason now1 now2 w :
  world_ok w → commit_fits (wd_mf w) (wd_published w) epoch seq prev st →
  world_ok (publish (commitLocked epoch seq prev st event reason now1 now2 (wd_mf w) (wd_trace w)) (wd_published w)).
Proof.
  intros (HB & HA & HD & HI) (HE & HS & HP & HT & HC). pose proof (commitLocked_spec epoch seq prev st event reason now1 now2 (wd_mf w) (wd_trace w)) as Hspec.
  destruct (commitLocked _ _ _ _ _ _ _ _ _ _) as [[[e|sm] m'] t']; destruct Hspec as [HL Hspec]; unfold world_ok; simpl.
  { subst m'. rewrite app_nil_r. split_and!; [apply HB..| |done|done]. eapply Forall_impl; [exact HA|]. intros x. by apply attested_mono. }
  destruct Hspec as (Hrec & (t0 & Hsig) & Hatt & ->). simpl. rewrite last_snoc.
  pose proof (parse_marshal (p_cellID (mf_prod (wd_mf w))) epoch seq prev st now1 (proj1 HB) HE HS HP HT) as Hparse. rewrite <-Hrec in Hparse.
  assert (signed_by_cell sm) as Hau by (split; [by eapply sign_verifies|by eexists]).
  split_and!; [apply HB..| | | |].
  - apply Forall_app_2; [|by constructor]. eapply Forall_impl; [exact HA|]. intros x. by apply attested_mono.
  - intros i a b Ha Hb. destruct (lookup_snoc_next _ _ _ _ _ Ha Hb) as [[Ha' Hb']|[Ha' ->]]; [by eapply HD|].
    rewrite Ha' in HI, HC. destruct HI as (_ & _ & _ & _ & ra & Era & _ & Est & _), HC as (_ & _ & _ & Hne).
    intros ra' rb Ea Eb. rewrite Hparse in Eb. injection Eb as <-. simpl. congruence.
  - destruct (last (wd_published w)) as [g|] eqn:El.
    + destruct HI as (HV & _ & _ & Hlr & ra & Era & Ecell & _ & Eep & Eseq), HC as (-> & -> & Hep & _).
      apply (verify_snoc _ _ g); [done..| |done]. exists ra. eexists. split_and!; [done|exact Hparse|..]; simpl; congruence.
    + apply last_None in El. rewrite El. cbn [app]. destruct HC as [-> ->]. apply chain_verified_exactly.
      split_and!; [exists sm; split; [done|]; eexists; split; [exact Hparse|done]|by constructor|].
      intros [|i] a b Ha Hb; done.
  - unfold in_step. simpl. split_and!; try done. eexists. split; [exact Hparse|]. done.
Qed.

Lemma step_keeps o w : op_typed o → world_ok w → ∃ w', mf_step o w = Some w' ∧ world_ok w'.
Proof.
  intros HT HW. pose proof HW as (HB & HA & HD & HI). destruct o as [epoch st now1 now2|epoch st now1 now2|]; simpl in *.
  - eexists. split; [done|]. unfold Genesis. destruct (mf_initialized (wd_mf w)) eqn:Hi.
    { unfold publish. rewrite app_nil_r. by destruct w. }
    apply commit_keeps; [done|]. destruct (last (wd_published w)) eqn:El; [destruct HI as [_ (Hi' & _)]; congruence|].
    unfold commit_fits. rewrite El. destruct HT. split_and!; [done..| | |done|done|done]; [unfold in_u64; lia|done].
  - eexists. split; [done|]. unfold Transition. destruct (mf_initialized (wd_mf w)) eqn:Hi; cbn [negb].
    2: { unfold publish. rewrite app_nil_r. by destruct w. }
    case_bool_decide as Hst; [unfold publish; rewrite app_nil_r; by destruct w|].
    destruct (Z.ltb_spec epoch (mf_lastEpoch (wd_mf w))) as [|Hep]; [unfold publish; rewrite app_nil_r; by destruct w|].
    apply commit_keeps; [done|]. destruct (last (wd_published w)) eqn:El; [|congruence].
    unfold commit_fits. rewrite El. destruct HT. split_and!; [done|apply u64_range|apply sha256_length|done|done|done|done|done].
  - destruct HB as [HB HS]. unfold NewManifester. destruct (Nat.eqb_spec (slen (p_cellID (mf_prod (wd_mf w)))) 0) as [|_]; [lia|].
    unfold maxCellIDLen. rewrite (proj2 (Nat.ltb_ge 255 _)), (proj2 (Nat.ltb_ge _ 16)) by lia. cbn [orb negb].
    destruct (last (wd_published w)) as [sm|] eqn:El.
    + destruct HI as (HV & Hi & Hls & Hlr & rec & Er & Ecell & Est & Eep & Eseq). rewrite Er.
      rewrite bool_decide_eq_false_2 by (by intros []).
      apply chain_verified_exactly in HV as HV'. destruct HV' as (_ & HF & _).
      assert (signed_by_cell sm) as [-> _] by (rewrite last_lookup in El; by eapply Forall_lookup_1). cbn [negb].
      eexists. split; [done|]. unfold world_ok. simpl. rewrite El. split_and!; try done; try lia.
      split_and!; try done. by exists rec.
    + eexists. split; [done|]. unfold world_ok. simpl. rewrite El. split_and!; try done; lia.
Qed.

Lemma run_keeps os w : Forall op_typed os → world_ok w → ∃ w', mf_run os w = Some w' ∧ world_ok w'.
Proof.
  intros HF. revert w. induction HF as [|o os Ho HF IH]; intros w HW; simpl; [by eexists|].
  destruct (step_keeps o w Ho HW) as (w1 & -> & HW1). simpl. by apply IH.
Qed.

Lemma new_world cellID journal salt onTrip m t : NewManifester cellID true true true journal salt None onTrip = inr m → world_ok (mkMfWorld m [] t).
Proof.
  unfold NewManifester, maxCellIDLen. destruct (Nat.eqb_spec (slen cellID) 0); cbn [orb negb]; [done|].
  destruct (Nat.ltb_spec 255 (slen cellID)); [done|]. destruct (Nat.ltb_spec (length salt) 16); [done|].
  intros [= <-]. unfold world_ok. simpl. split_and!; try done; lia.
Qed.

Lemma commitLocked_prod epoch seq prev st event reason now1 now2 m t :
  mf_prod (commitLocked epoch seq prev st event reason now1 now2 m t).1.2 = mf_prod m.
Proof. unfold commitLocked. by repeat case_match. Qed.

Lemma publish_prod r pub : mf_prod (wd_mf (publish r pub)) = mf_prod r.1.2.
Proof. by destruct r as [[res m] t]. Qed.

Lemma step_prod o w w' : mf_step o w = Some w' → mf_prod (wd_mf w') = mf_prod (wd_mf w).
Proof.
  destruct o as [epoch st now1 now2|epoch st now1 now2|]; simpl.
  - intros [= <-]. rewrite publish_prod. unfold Genesis. destruct (mf_initialized _); [done|apply commitLocked_prod].
  - intros [= <-]. rewrite publish_prod. unfold Transition. repeat (case_match; [done|]). apply commitLocked_prod.
  - unfold NewManifester. intros E. repeat case_match; simplify_eq/=; by destruct (mf_prod (wd_mf w)).
Qed.

Lemma run_prod os w w' : mf_run os w = Some w' → mf_prod (wd_mf w') = mf_prod (wd_mf w).
Proof.
  revert w. induction os as [|o os IH]; intros w E; simpl in E; [by injection E as <-|].
  apply bind_Some in E as (w1 & E1 & E). rewrite (IH w1 E). by apply step_prod in E1.
Qed.

(** ** The claims *)

(** C34: the manifests a cell publishes form one verifiable history. Whatever calls are made, whatever fails (the key, the journal, the
    log) and however often the cell restarts on its last artefact, no restart is refused, the published artefacts are a chain
    that a third party accepts with the public key alone, two consecutive ones attest different states, and each of them has
    its leaf in the log. *)
Theorem produced_chain_verifies cellID journal salt onTrip m0 t0 os :
  NewManifester cellID true true true journal salt None onTrip = inr m0 → Forall op_typed os →
  ∃ w, mf_run os (mkMfWorld m0 [] t0) = Some w ∧
    (wd_published w = [] ∨ VerifyManifestChain (wd_published w) = None) ∧
    (∀ i a b, wd_published w !! i = Some a → wd_published w !! S i = Some b → changes a b) ∧
    Forall (attested (mf_prod m0) (wd_trace w)) (wd_published w).
Proof.
  intros Hm HF. destruct (run_keeps os (mkMfWorld m0 [] t0) HF (new_world _ _ _ _ _ _ Hm)) as (w & HR & HW).
  exists w. split; [done|]. destruct HW as (_ & HA & HD & HI). apply run_prod in HR. simpl in HR. rewrite <-HR.
  split; [|done]. destruct (last (wd_published w)) eqn:El; [right; by destruct HI|left; by apply last_None].
Qed.

(** One manifest fixes the whole history of its cell. If the same record occurs in two chains that verify, it occurs at the
    same place and every record before it is the same in both, unless two messages with the same SHA-256 digest are at hand. *)
Theorem manifest_binds_history c1 c2 i j a b :
  VerifyManifestChain c1 = None → VerifyManifestChain c2 = None →
  Z.of_nat (length c1) < 2 ^ 64 → Z.of_nat (length c2) < 2 ^ 64 →
  c1 !! i = Some a → c2 !! j = Some b → sm_Record a = sm_Record b →
  (i = j ∧ take (S i) (sm_Record <$> c1) = take (S i) (sm_Record <$> c2)) ∨ sha256_collision.
Proof. apply same_past. Qed.

(** The file of a component has the hash the manifest gives. *)
Definition component_matches (files : string → option bytes) (path : string) (hash : bytes) : Prop :=
  path ≠ "" ∧ ∃ content, files path = Some content ∧ sha256 content = hash.

Lemma MeasureComponents_matches files paths st :
  (∃ measured, MeasureComponents files paths = Some measured ∧ same_components measured st = true) ↔
  component_matches files (cp_PolicyBundle paths) (ms_PolicyID st) ∧ component_matches files (cp_OPAConfig paths) (ms_OPAConfigHash st) ∧
  component_matches files (cp_BrokerBinary paths) (ms_BrokerHash st) ∧ component_matches files (cp_AIContainer paths) (ms_AIContainerHash st).
Proof.
  unfold MeasureComponents, component_matches, same_components, HashFile. split.
  - intros (ms & E & HS). destruct (bool_decide_reflect (cp_PolicyBundle paths = "")) as [|N1]; [done|].
    destruct (bool_decide_reflect (cp_OPAConfig paths = "")) as [|N2]; [done|].
    destruct (bool_decide_reflect (cp_BrokerBinary paths = "")) as [|N3]; [done|].
    destruct (bool_decide_reflect (cp_AIContainer paths = "")) as [|N4]; [done|]. cbn [orb] in E.
    destruct (files (cp_PolicyBundle paths)) as [f1|]; [|done]. destruct (files (cp_OPAConfig paths)) as [f2|]; [|done].
    destruct (files (cp_BrokerBinary paths)) as [f3|]; [|done]. destruct (files (cp_AIContainer paths)) as [f4|]; [|done].
    simpl in E. injection E as <-. simpl in HS. rewrite !andb_true_iff, !bool_decide_eq_true in HS. destruct HS as [[[? ?] ?] ?]. eauto 20.
  - intros ((N1 & f1 & F1 & E1) & (N2 & f2 & F2 & E2) & (N3 & f3 & F3 & E3) & (N4 & f4 & F4 & E4)).
    rewrite !bool_decide_eq_false_2 by done. cbn [orb]. rewrite F1, F2, F3, F4. eexists. split; [done|]. simpl.
    by rewrite E1, E2, E3, E4, !bool_decide_eq_true_2 by done.
Qed.

(** When [CheckBoot] lets the cell start. *)
Lemma CheckBoot_none m root expectedRoot files paths others now t :
  (CheckBoot (Some m) (Some root) expectedRoot files paths others now t).1 = None ↔
  ∃ st, mf_State m = Some st ∧ expectedRoot ≠ zero32 ∧ root = Some expectedRoot ∧
    (∃ measured, MeasureComponents files paths = Some measured ∧ same_components measured st = true) ∧
    let '(m1, t1) := others (m, t) in (mf_writeLeaf manifestEventBoot (lastHash m1) Byte.x01 "ok" now m1 t1).1 = None.
Proof.
  assert (∀ h r e m' t', (mf_writeRefusal h r e now m' t').1 ≠ None) as HR.
  { intros. unfold mf_writeRefusal. by destruct (mf_writeLeaf _ _ _ _ _ _ _) as [[]]. }
  unfold CheckBoot. destruct (mf_State m) as [st|], (others (m, t)) as [m1 t1].
  2: { split; [by intros ?%HR|by intros (? & ? & _)]. }
  case_bool_decide as H1'; [split; [by intros ?%HR|by intros (? & _ & ? & _)]|].
  destruct root as [r|]; [|split; [by intros ?%HR|by intros (? & _ & _ & ? & _)]].
  case_bool_decide as H2'; [split; [by intros ?%HR|intros (? & _ & _ & ? & _); by simplify_eq]|]. subst r.
  destruct (MeasureComponents files paths) as [ms|]; [|split; [by intros ?%HR|by intros (? & _ & _ & _ & (? & ? & _) & _)]].
  destruct (same_components ms st) eqn:Hs; cbn [negb].
  - destruct (mf_writeLeaf manifestEventBoot _ _ _ _ _ _) as [[e|] t2]; simpl; (split; [try done|intros (? & ? & _ & _ & _ & ?); done]).
    intros _. exists st. split_and!; try done. by exists ms.
  - split; [by intros ?%HR|]. intros (? & [= <-] & _ & _ & (? & [= <-] & ?) & _). congruence.
Qed.

(** C35: a cell starts only as its last published manifest says. After any run, the measured boot lets the cell start exactly when the
    reference of the root is provisioned and was measured, the four files on the disk have the hashes of the last artefact of the
    verified chain, and the leaf of the start was written, whatever else happens to the manifester meanwhile. *)
Theorem boot_allowed_exactly cellID journal salt onTrip m0 t0 os w root expectedRoot files paths others now :
  NewManifester cellID true true true journal salt None onTrip = inr m0 → Forall op_typed os → mf_run os (mkMfWorld m0 [] t0) = Some w →
  (CheckBoot (Some (wd_mf w)) (Some root) expectedRoot files paths others now (wd_trace w)).1 = None ↔
  (∃ sm rec, last (wd_published w) = Some sm ∧ ParseManifestRecord (sm_Record sm) = inr rec ∧ VerifyManifestChain (wd_published w) = None ∧
    component_matches files (cp_PolicyBundle paths) (ms_PolicyID (mr_State rec)) ∧
    component_matches files (cp_OPAConfig paths) (ms_OPAConfigHash (mr_State rec)) ∧
    component_matches files (cp_BrokerBinary paths) (ms_BrokerHash (mr_State rec)) ∧
    component_matches files (cp_AIContainer paths) (ms_AIContainerHash (mr_State rec))) ∧
  expectedRoot ≠ zero32 ∧ root = Some expectedRoot ∧
  let '(m1, t1) := others (wd_mf w, wd_trace w) in (mf_writeLeaf manifestEventBoot (lastHash m1) Byte.x01 "ok" now m1 t1).1 = None.
Proof.
  intros Hm HF HR. destruct (run_keeps os (mkMfWorld m0 [] t0) HF (new_world _ _ _ _ _ _ Hm)) as (w' & HR' & HW).
  rewrite HR in HR'. injection HR' as <-. destruct HW as (_ & _ & _ & HI). rewrite CheckBoot_none. unfold mf_State. split.
  - intros (st & Est & Hroot & -> & HM & HW). apply MeasureComponents_matches in HM. destruct (last (wd_published w)) as [sm|] eqn:El.
    + destruct HI as (HV & Hi & _ & _ & rec & Er & _ & Hst & _). rewrite Hi in Est. injection Est as <-. rewrite Hst in HM.
      split; [exists sm, rec|]; done.
    + by rewrite HI in Est.
  - intros ((sm & rec & El & Er & _ & HM) & Hroot & -> & HW). rewrite El in HI.
    destruct HI as (HV & Hi & _ & _ & rec' & Er' & _ & Hst & _). rewrite Er in Er'. injection Er' as <-. rewrite Hi, Hst.
    exists (mr_State rec). split_and!; try done. by apply MeasureComponents_matches.
Qed.
End chains.
