(* ===== verification/Provisioning.v ===== *)
(** The provisioning files of a daemon: [src/registry/provisioning.go].

    At each start a daemon measures the files that carry the trust of its cell, and compares the digest with a witness
    signed by the key of the cell. The first start commits a witness; a later one with other files is refused unless the
    transition is authorised, against what the last witness attests.

    The disk gives for a path what [file_view] holds; the witness is the file [wit]; [pg_authorize] is the closure
    the daemon gives, which Authorizer defines. *)
From S2P Require Import Prelude.
From S2P Require Import Hex.
From S2P Require Import GoStrings.
From S2P Require Import Leaf.
From S2P Require Import Effects.
From S2P Require Import Records.
From S2P Require Import Manifest.

Local Open Scope Z_scope.

Definition provEventGenesis : byte := Byte.x01.
Definition provEventBoot : byte := Byte.x02.
Definition provEventTransition : byte := Byte.x03.
Definition provEventRefuse : byte := Byte.x04.

Definition maxProvisioningFiles : nat := 256.
Definition maxProvisioningBytes : Z := 32 * 2 ^ 20.
Definition maxProvisioningName : nat := 255.
Definition maxAuthorityBytes : Z := 64 * 2 ^ 10.

Inductive prov_error :=
  | ErrProvisioningConfig | ErrProvisioningMeasure | ErrProvisioningWitnessBad | ErrProvisioningWitnessMissing
  | ErrProvisioningDivergence (changed : string) | ErrProvisioningLeafFault.

(** [Content] is nil for a file. *)
Record ProvisioningFile := mkProvisioningFile { pf_Name : string; pf_Path : string; pf_Authority : bool; pf_Content : option bytes }.
Record ProvisioningFileHash := mkFileHash { ph_Name : string; ph_Hash : bytes }.

#[global] Instance ProvisioningFileHash_eq_dec : EqDecision ProvisioningFileHash.
Proof. solve_decision. Defined.

(** What opening, stat and reading a path give: the mode, the size at the stat, the bytes ([None] when a read fails). *)
Record file_view := mkFileView { fv_regular : bool; fv_size : Z; fv_read : option bytes }.
Abbreviation disk := (string → option file_view).

(** What [io.LimitReader] lets through of a content. *)
Definition limited (n : Z) (content : bytes) : bytes := take (Z.to_nat (Z.min n (Z.of_nat (length content)))) content.

(** [readBoundedBytes]. *)
Definition readBoundedBytes (d : disk) (path : string) (max : Z) : option bytes :=
  v ← d path;
  if negb (fv_regular v) then None
  else
    content ← fv_read v;
    let raw := limited (max + 1) content in
    if max <? Z.of_nat (length raw) then None else Some raw.

(** [hashBoundedFile]. *)
Definition hashBoundedFile `{Crypto} (d : disk) (path : string) : option bytes :=
  v ← d path;
  if negb (fv_regular v) then None
  else if maxProvisioningBytes <? fv_size v then None
  else
    content ← fv_read v;
    let raw := limited (maxProvisioningBytes + 1) content in
    if maxProvisioningBytes <? Z.of_nat (length raw) then None else Some (sha256 raw).

(** The loop of [measureProvisioning]. *)
Fixpoint measure_files `{Crypto} (d : disk) (files : list ProvisioningFile) (seen : gset string) (per : list ProvisioningFileHash)
    (authorities : gmap string bytes) : prov_error + (list ProvisioningFileHash * gmap string bytes) :=
  match files with
  | [] => inr (per, authorities)
  | f :: files =>
      if (slen (pf_Name f) =? 0)%nat || (maxProvisioningName <? slen (pf_Name f))%nat then inl ErrProvisioningConfig
      else if bool_decide (pf_Name f ∈ seen) then inl ErrProvisioningConfig
      else
        let seen := {[pf_Name f]} ∪ seen in
        match pf_Content f with
        | Some content =>
            if maxAuthorityBytes <? Z.of_nat (length content) then inl ErrProvisioningConfig
            else measure_files d files seen (per ++ [mkFileHash (pf_Name f) (sha256 content)]) (<[pf_Name f := content]> authorities)
        | None =>
            if pf_Authority f then
              match readBoundedBytes d (pf_Path f) maxAuthorityBytes with
              | None => inl ErrProvisioningMeasure
              | Some raw => measure_files d files seen (per ++ [mkFileHash (pf_Name f) (sha256 raw)]) (<[pf_Name f := raw]> authorities)
              end
            else
              match hashBoundedFile d (pf_Path f) with
              | None => inl ErrProvisioningMeasure
              | Some h => measure_files d files seen (per ++ [mkFileHash (pf_Name f) h]) authorities
              end
        end
  end.

Definition file_le (a b : ProvisioningFileHash) : Prop := string_le (ph_Name a) (ph_Name b).
#[global] Instance file_le_dec : RelDecision file_le.
Proof. intros a b. unfold file_le. apply _. Defined.

(** One file in the digest and in the witness. *)
Definition file_bytes (p : ProvisioningFileHash) : bytes := [len8 (ph_Name p)] ++ sb (ph_Name p) ++ ph_Hash p.

Definition prov_digest `{Crypto} (per : list ProvisioningFileHash) : bytes := sha256 (sb "TBPV1" ++ concat (file_bytes <$> per)).

Definition measureProvisioning `{Crypto, SliceSort} (d : disk) (files : list ProvisioningFile) :
    prov_error + (bytes * list ProvisioningFileHash * gmap string bytes) :=
  if (length files =? 0)%nat then inl ErrProvisioningConfig
  else if (maxProvisioningFiles <? length files)%nat then inl ErrProvisioningConfig
  else
    match measure_files d files ∅ [] ∅ with
    | inl e => inl e
    | inr (per, authorities) =>
        let per := sort_slice file_le per in
        inr (prov_digest per, per, authorities)
    end.

Definition MeasureProvisioning `{Crypto, SliceSort} (d : disk) (files : list ProvisioningFile) :
    prov_error + (bytes * list ProvisioningFileHash) :=
  match measureProvisioning d files with inl e => inl e | inr (digest, per, _) => inr (digest, per) end.

(** ** The witness *)

Definition witnessPrefix : string := "TBP-V1".
Definition witnessVer : byte := Byte.x02.

Record ProvisioningWitness := mkWitness {
  pw_CellID : string; pw_Component : string; pw_Seq : Z; pw_Prev : bytes; pw_Digest : bytes; pw_Files : list ProvisioningFileHash;
  pw_Authorities : gmap string bytes; pw_Legacy : bool; pw_IssuedAt : Z }.

(** One authority of the witness. *)
Definition authority_bytes (a : string * bytes) : bytes :=
  [len8 a.1] ++ sb a.1 ++ be 4 (Z.of_nat (length a.2) mod 2 ^ 32) ++ a.2.

Definition marshalWitnessRecord `{MapOrder, SliceSort} (w : ProvisioningWitness) : bytes :=
  let auths := sorted_entries [] (pw_Authorities w) in
  sb witnessPrefix ++ [witnessVer; len8 (pw_CellID w)] ++ sb (pw_CellID w) ++ [len8 (pw_Component w)] ++ sb (pw_Component w) ++
  be 8 (pw_Seq w) ++ pw_Prev w ++ pw_Digest w ++ len16 (length (pw_Files w)) ++ concat (file_bytes <$> pw_Files w) ++
  [z2b (Z.of_nat (length auths))] ++ concat (authority_bytes <$> auths) ++ be 8 (u64 (Unix (pw_IssuedAt w))).

(** [readStr]: a string that is not empty, and what follows it. The position of the source is the rest of the bytes. *)
Definition readStr (r : bytes) : option (string * bytes) :=
  match r with
  | [] => None
  | l :: r =>
      let n := Z.to_nat (b2z l) in
      if (n =? 0)%nat || (length r <? n)%nat then None else Some (bs (take n r), drop n r)
  end.

Fixpoint read_files (n : nat) (r : bytes) : option (list ProvisioningFileHash * bytes) :=
  match n with
  | O => Some ([], r)
  | S n =>
      '(name, r1) ← readStr r;
      if (length r1 <? 32)%nat then None
      else '(fs, r2) ← read_files n (drop 32 r1); Some (mkFileHash name (take 32 r1) :: fs, r2)
  end.

Fixpoint read_authorities (n : nat) (r : bytes) (m : gmap string bytes) : option (gmap string bytes * bytes) :=
  match n with
  | O => Some (m, r)
  | S n =>
      '(name, r1) ← readStr r;
      if (length r1 <? 4)%nat then None
      else
        let len := be_val (take 4 r1) in
        let r2 := drop 4 r1 in
        if (maxAuthorityBytes <? len) || (Z.of_nat (length r2) <? len) then None
        else if bool_decide (is_Some (m !! name)) then None
        else read_authorities n (drop (Z.to_nat len) r2) (<[name := take (Z.to_nat len) r2]> m)
  end.

Definition parseWitnessRecord (r : bytes) : option ProvisioningWitness :=
  if (length r <? 6 + 1 + 1)%nat || bool_decide (take 6 r ≠ sb witnessPrefix) then None
  else
    let ver := r !!! 6%nat in
    if bool_decide (ver ≠ Byte.x01) && bool_decide (ver ≠ witnessVer) then None
    else
      '(cellID, r1) ← readStr (drop 7 r);
      '(component, r2) ← readStr r1;
      if (length r2 <? 8 + 32 + 32 + 2)%nat then None
      else
        let n := be_val (slice 72 2 r2) in
        if (n =? 0) || (Z.of_nat maxProvisioningFiles <? n) then None
        else
          '(files, r3) ← read_files (Z.to_nat n) (drop 74 r2);
          '(auths, r4) ← (if 2 <=? b2z ver then
                            match r3 with [] => None | l :: r => read_authorities (Z.to_nat (b2z l)) r ∅ end
                          else Some (∅, r3));
          if negb (length r4 =? 8)%nat then None
          else Some (mkWitness cellID component (be_val (slice 0 8 r2)) (slice 8 32 r2) (slice 40 32 r2) files auths
                       (bool_decide (ver = Byte.x01)) (of_Unix (i64 (be_val r4)))).

(** The witness on the disk: absent, an error other than absence, bytes that are not the JSON of a [witnessFile], its two fields. *)
Inductive wit := WitAbsent | WitError | WitBadJSON | WitFile (record signature : string).

(** [readProvisioningWitness]: [inr None] when there is no witness. *)
Definition readProvisioningWitness `{CellKey} (w : wit) (cellID component : string) : prov_error + option ProvisioningWitness :=
  match w with
  | WitAbsent => inr None
  | WitError | WitBadJSON => inl ErrProvisioningWitnessBad
  | WitFile record signature =>
      match hex_DecodeString record, hex_DecodeString signature with
      | Some rec, Some sig =>
          match parseWitnessRecord rec with
          | None => inl ErrProvisioningWitnessBad
          | Some pw =>
              if negb (key_Verify rec sig) then inl ErrProvisioningWitnessBad
              else if bool_decide (pw_CellID pw ≠ cellID) || bool_decide (pw_Component pw ≠ component) then inl ErrProvisioningWitnessBad
              else inr (Some pw)
          end
      | _, _ => inl ErrProvisioningWitnessBad
      end
  end.

(** ** Names of the files that differ *)

Definition hash_map (l : list ProvisioningFileHash) : gmap string bytes := foldl (λ m f, <[ph_Name f := ph_Hash f]> m) ∅ l.

Definition part (label : string) (names : list string) : list string :=
  if (length names =? 0)%nat then [] else [label +:+ String.concat ", " names].

(** The names of [old] and [cur] whose hash changed, that were added, that were removed. *)
Definition changed_lists `{MapOrder, SliceSort} (old cur : list ProvisioningFileHash) : list string * list string * list string :=
  let om := hash_map old in let cm := hash_map cur in
  let cur_names := map_range (map_to_list cm) in
  (sort_slice string_le (filter (λ n, om !! n ≠ None ∧ om !! n ≠ cm !! n) cur_names.*1),
   sort_slice string_le (filter (λ n, om !! n = None) cur_names.*1),
   sort_slice string_le (filter (λ n, cm !! n = None) (map_range (map_to_list om)).*1)).

Definition changedNames `{MapOrder, SliceSort} (old cur : list ProvisioningFileHash) : string :=
  let '(mod_, add, del) := changed_lists old cur in
  let parts := part "modifié(s) : " mod_ ++ part "ajouté(s) : " add ++ part "retiré(s) : " del in
  if (length parts =? 0)%nat then "condensé différent" else String.concat " ; " parts.

(** ** The guard *)

(** What a daemon gives to authorise a transition: the attested authorities, the attested digest, the measured one. *)
Abbreviation authorizer := (gmap string bytes → bytes → bytes → bool).

Record ProvisioningGuard := mkGuard {
  pg_prod : Producer; pg_component : string; pg_files : list ProvisioningFile; pg_authorize : option authorizer; pg_onTrip : bool }.

Section guard.
Context `{Crypto, Env, CellKey, MapOrder, SliceSort}.

(** [NewProvisioningGuard]; [abs] is [filepath.Abs], the flags say whether the interfaces are given. *)
Definition NewProvisioningGuard (abs : string → option string) (d : disk) (cellID component witnessFile registryDir : string)
    (files : list ProvisioningFile) (signer verifier leaves log : bool) (salt : bytes) (journal : bool) (authorize : option authorizer)
    (onTrip : bool) : prov_error + ProvisioningGuard :=
  if (slen cellID =? 0)%nat || (maxProvisioningName <? slen cellID)%nat then inl ErrProvisioningConfig
  else if (slen component =? 0)%nat || (maxProvisioningName <? slen component)%nat then inl ErrProvisioningConfig
  else if bool_decide (witnessFile = "") then inl ErrProvisioningConfig
  else if negb signer || negb verifier then inl ErrProvisioningConfig
  else if negb leaves || negb log then inl ErrProvisioningConfig
  else if (length salt <? 16)%nat then inl ErrProvisioningConfig
  else if negb (bool_decide (registryDir = "")) &&
          match abs witnessFile, abs registryDir with
          | Some wf, Some rd => bool_decide (wf = rd) || String.prefix (rd +:+ "/") wf
          | _, _ => true
          end then inl ErrProvisioningConfig
  else
    match MeasureProvisioning d files with
    | inl ErrProvisioningConfig => inl ErrProvisioningConfig
    | _ => inr (mkGuard (mkProducer cellID salt journal) component files authorize onTrip)
    end.

Definition pg_trip (g : ProvisioningGuard) (reason : string) (t : trace) : trace := call_alarm (pg_onTrip g) reason t.

Definition provisioningLeafRecord (component : string) (event : byte) (digest : bytes) (seq : Z) (verdict : byte) (reason : string) : bytes :=
  sb "TBPL3" ++ [event; len8 component] ++ sb component ++ digest ++ be 8 seq ++ [verdict; len8 reason] ++ sb reason.

(** [leaf]. *)
Definition pg_leaf (event : byte) (digest : bytes) (seq : Z) (verdict : byte) (reason : string) (now : Z) (g : ProvisioningGuard) (t : trace) :
    option prov_error * trace :=
  match appendLeaf (pg_prod g) KindManifest (provisioningLeafRecord (pg_component g) event digest seq verdict reason) (UnixNano now) t with
  | (Some _, t1) => (Some ErrProvisioningLeafFault, pg_trip g "provisioning-leaf-fault" t1)
  | (None, t1) => (None, t1)
  end.

(** [refuse]. *)
Definition pg_refuse (digest : bytes) (seq : Z) (reason : string) (cause : prov_error) (now : Z) (g : ProvisioningGuard) (t : trace) :
    option prov_error * trace :=
  (Some cause, (pg_leaf provEventRefuse digest seq Byte.x00 reason now g t).2).

(** [commit]; [persists] says whether the write and the rename of the file succeed. *)
Definition pg_commit (event : byte) (seq : Z) (prev : bytes) (authorities : gmap string bytes) (digest : bytes) (per : list ProvisioningFileHash)
    (reason : string) (now1 now2 : Z) (persists : bool) (g : ProvisioningGuard) (w : wit) (t : trace) : option prov_error * wit * trace :=
  let pw := mkWitness (p_cellID (pg_prod g)) (pg_component g) seq prev digest per authorities false now1 in
  let rec := marshalWitnessRecord pw in
  match key_Sign t rec with
  | None => (Some ErrProvisioningLeafFault, w, pg_trip g "provisioning-sign-fault" t)
  | Some sig =>
      match pg_leaf event digest seq Byte.x01 reason now2 g t with
      | (Some e, t1) => (Some e, w, t1)
      | (None, t1) =>
          if persists then (None, WitFile (hex rec) (hex sig), t1)
          else (Some ErrProvisioningLeafFault, w, pg_trip g "provisioning-persist-fault" t1)
      end
  end.

Definition with_wit (w : wit) (r : option prov_error * trace) : option prov_error * wit * trace := (r.1, w, r.2).

(** What the rest of the machine gives to one start: the disk, the size of the log ([None] when it cannot be read), two readings of
    the clock, and whether the new witness can be written. *)
Record boot_env := mkBootEnv { be_disk : disk; be_head : option Z; be_now1 : Z; be_now2 : Z; be_persists : bool }.

(** [Check]. *)
Definition pg_Check (b : boot_env) (g : ProvisioningGuard) (w : wit) (t : trace) : option prov_error * wit * trace :=
  let commit event seq prev auths digest per reason :=
    pg_commit event seq prev auths digest per reason (be_now1 b) (be_now2 b) (be_persists b) g w in
  let refuse reason_trip digest seq reason cause t := with_wit w (pg_refuse digest seq reason cause (be_now2 b) g (pg_trip g reason_trip t)) in
  match measureProvisioning (be_disk b) (pg_files g) with
  | inl e => refuse "provisioning-measure-fault" zero32 0 "measure-fault" e t
  | inr (digest, per, authorities) =>
      match readProvisioningWitness w (p_cellID (pg_prod g)) (pg_component g) with
      | inl e => refuse "provisioning-witness-invalid" digest 0 "witness-invalid" e t
      | inr None =>
          match be_head b with
          | None => refuse "provisioning-log-fault" digest 0 "log-fault" ErrProvisioningMeasure t
          | Some size =>
              if size =? 0 then commit provEventGenesis 0 zero32 authorities digest per "genesis" t
              else
                match pg_authorize g with
                | None => refuse "provisioning-witness-missing" digest 0 "witness-missing" ErrProvisioningWitnessMissing t
                | Some authorize =>
                    if negb (authorize ∅ zero32 digest) then
                      refuse "provisioning-witness-missing" digest 0 "witness-missing" ErrProvisioningWitnessMissing t
                    else commit provEventTransition 0 zero32 authorities digest per "re-engaged" t
                end
          end
      | inr (Some last) =>
          if bool_decide (pw_Digest last = digest) then
            if pw_Legacy last then
              commit provEventTransition (u64 (pw_Seq last + 1)) (HashManifest (marshalWitnessRecord last)) authorities digest per "witness-upgraded" t
            else with_wit w (pg_leaf provEventBoot digest (pw_Seq last) Byte.x01 "ok" (be_now2 b) g t)
          else
            let divergence := ErrProvisioningDivergence (changedNames (pw_Files last) per) in
            if pw_Legacy last then refuse "provisioning-divergence" digest (pw_Seq last) "divergence" divergence t
            else
              match pg_authorize g with
              | Some authorize =>
                  if authorize (pw_Authorities last) (pw_Digest last) digest then
                    commit provEventTransition (u64 (pw_Seq last + 1)) (HashManifest (marshalWitnessRecord last)) authorities digest per "transition" t
                  else refuse "provisioning-divergence" digest (pw_Seq last) "divergence" divergence t
              | None => refuse "provisioning-divergence" digest (pw_Seq last) "divergence" divergence t
              end
      end
  end.

Record ProvisioningPreview := mkPreview {
  pv_WitnessPresent : bool; pv_From : bytes; pv_Seq : Z; pv_To : bytes; pv_Files : list ProvisioningFileHash; pv_Conforming : bool;
  pv_Changed : string }.

(** [PreviewProvisioning]. *)
Definition PreviewProvisioning (d : disk) (files : list ProvisioningFile) (witnessFile : string) (w : wit) (cellID component : string)
    (verifier : bool) : prov_error + ProvisioningPreview :=
  if negb verifier || bool_decide (cellID = "") || bool_decide (component = "") || bool_decide (witnessFile = "") then inl ErrProvisioningConfig
  else
    match measureProvisioning d files with
    | inl e => inl e
    | inr (digest, per, _) =>
        match readProvisioningWitness w cellID component with
        | inl e => inl e
        | inr None => inr (mkPreview false zero32 0 digest per false "")
        | inr (Some pw) =>
            let conforming := bool_decide (pw_Digest pw = digest) in
            inr (mkPreview true (pw_Digest pw) (pw_Seq pw) digest per conforming (if conforming then "" else changedNames (pw_Files pw) per))
        end
    end.
End guard.

(** [ParseProvisioningExtra]: a name before the first [=], unless it would be empty. *)
Definition extra_entry (item : string) : string * string :=
  match cut_byte Byte.x3d (sb item) with
  | Some (b :: name, path) => (bs (b :: name), bs path)
  | _ => (item, item)
  end.

Fixpoint parse_extra (items : list string) (out : list ProvisioningFile) : prov_error + list ProvisioningFile :=
  match items with
  | [] => inr out
  | item :: items =>
      let item := TrimSpace item in
      if bool_decide (item = "") then parse_extra items out
      else
        let '(name, path) := extra_entry item in
        if bool_decide (path = "") then inl ErrProvisioningConfig
        else parse_extra items (out ++ [mkProvisioningFile ("extra:" +:+ name) path false None])
  end.

Definition ParseProvisioningExtra (list_ : string) : prov_error + list ProvisioningFile := parse_extra (Split Byte.x2c list_) [].

(** ** The witness and its inverse *)

Definition name_ok (s : string) : Prop := (0 < slen s ≤ 255)%nat.

Lemma readStr_app s r : name_ok s → readStr ([len8 s] ++ sb s ++ r) = Some (s, r).
Proof.
  intros [Hs0 Hs]. simpl. rewrite len8_nat by done. destruct (Nat.eqb_spec (slen s) 0) as [|_]; [lia|]. cbn [orb].
  rewrite length_app, length_sb, (proj2 (Nat.ltb_ge _ _)) by lia.
  rewrite take_app_exact, drop_app_exact by apply length_sb. by rewrite bs_sb.
Qed.

Definition hash_ok (p : ProvisioningFileHash) : Prop := name_ok (ph_Name p) ∧ length (ph_Hash p) = 32%nat.

Lemma read_files_app fs r : Forall hash_ok fs → read_files (length fs) (concat (file_bytes <$> fs) ++ r) = Some (fs, r).
Proof.
  induction 1 as [|[n h] fs [Hn Hh] HF IH]; [done|]. cbn [length fmap list_fmap concat read_files ph_Name ph_Hash] in *.
  unfold file_bytes at 1. rewrite <-!app_assoc. rewrite readStr_app by done. cbn [mbind option_bind ph_Name ph_Hash].
  rewrite length_app, (proj2 (Nat.ltb_ge _ _)) by lia. rewrite take_app_exact, drop_app_exact by done. by rewrite IH.
Qed.

Definition authority_ok (a : string * bytes) : Prop := name_ok a.1 ∧ Z.of_nat (length a.2) ≤ maxAuthorityBytes.

Lemma read_authorities_app l m r :
  Forall authority_ok l → NoDup l.*1 → (∀ n, n ∈ l.*1 → m !! n = None) →
  read_authorities (length l) (concat (authority_bytes <$> l) ++ r) m = Some (list_to_map l ∪ m, r).
Proof.
  intros HF. revert m. induction HF as [|[n c] l [Hn Hc] HF IH]; intros m HN HM.
  { simpl. by rewrite (left_id_L ∅ (∪)). }
  cbn [length fmap list_fmap concat read_authorities fst snd] in *. apply NoDup_cons in HN as [Hn' HN].
  unfold authority_bytes at 1. cbn [fst snd]. rewrite <-!app_assoc. rewrite readStr_app by done. cbn [mbind option_bind].
  rewrite length_app, length_be, (proj2 (Nat.ltb_ge _ _)) by lia. rewrite take_app_exact, drop_app_exact by apply length_be.
  unfold maxAuthorityBytes in *. rewrite be_val_be, (Z.mod_small (Z.of_nat (length c) mod 2 ^ 32)), Z.mod_small by (rewrite ?Z.mod_small; simpl; lia).
  rewrite Nat2Z.id. destruct (Z.ltb_spec (64 * 2 ^ 10) (Z.of_nat (length c))); [lia|]. cbn [orb].
  rewrite length_app, (proj2 (Z.ltb_ge _ _)) by lia. rewrite bool_decide_eq_false_2 by (rewrite HM by left; by intros [? ?]).
  rewrite take_app_exact, drop_app_exact by done. rewrite IH; [|done|].
  - cbn [list_to_map foldr fst snd]. do 2 f_equal. rewrite <-insert_union_l, insert_union_r; [done|]. by apply not_elem_of_list_to_map_1.
  - intros x Hx. rewrite lookup_insert_ne by (by intros ->). apply HM. by right.
Qed.

Section witness.
Context `{MapOrder, SliceSort}.

(** The sizes of a witness the guard can write. *)
Definition witness_typed (w : ProvisioningWitness) : Prop :=
  name_ok (pw_CellID w) ∧ name_ok (pw_Component w) ∧ in_u64 (pw_Seq w) ∧ length (pw_Prev w) = 32%nat ∧ length (pw_Digest w) = 32%nat ∧
  (0 < length (pw_Files w) ≤ 256)%nat ∧ Forall hash_ok (pw_Files w) ∧
  (size (pw_Authorities w) ≤ 255)%nat ∧ map_Forall (λ n c, authority_ok (n, c)) (pw_Authorities w) ∧ pw_Legacy w = false.

(** The date at the second the record keeps. *)
Definition at_second (w : ProvisioningWitness) : ProvisioningWitness :=
  mkWitness (pw_CellID w) (pw_Component w) (pw_Seq w) (pw_Prev w) (pw_Digest w) (pw_Files w) (pw_Authorities w) (pw_Legacy w)
    (of_Unix (i64 (u64 (Unix (pw_IssuedAt w))))).

Lemma parse_marshal_witness w : witness_typed w → parseWitnessRecord (marshalWitnessRecord w) = Some (at_second w).
Proof.
  intros (HC & HK & HS & HP & HD & [HN0 HN] & HF & HA & HM & HL). unfold parseWitnessRecord.
  set (r := marshalWitnessRecord w). change (take 6 r) with (sb witnessPrefix). change (r !!! 6%nat) with witnessVer.
  rewrite (bool_decide_eq_false_2 (sb witnessPrefix ≠ _)) by (by intros []).
  assert (8 ≤ length r)%nat as HR by (unfold r, marshalWitnessRecord; len).
  rewrite (proj2 (Nat.ltb_ge _ _)) by lia. cbn [orb].
  rewrite (bool_decide_eq_false_2 (witnessVer ≠ witnessVer)) by (by intros []). rewrite andb_false_r.
  set (auths := sorted_entries [] (pw_Authorities w)).
  set (r3 := [z2b (Z.of_nat (length auths))] ++ concat (authority_bytes <$> auths) ++ be 8 (u64 (Unix (pw_IssuedAt w)))).
  set (r2 := be 8 (pw_Seq w) ++ pw_Prev w ++ pw_Digest w ++ len16 (length (pw_Files w)) ++ concat (file_bytes <$> pw_Files w) ++ r3).
  assert (drop 7 r = [len8 (pw_CellID w)] ++ sb (pw_CellID w) ++ [len8 (pw_Component w)] ++ sb (pw_Component w) ++ r2) as -> by done.
  rewrite readStr_app by done. cbn [mbind option_bind]. rewrite readStr_app by done. cbn [mbind option_bind].
  assert (length (len16 (length (pw_Files w))) = 2%nat) as H2 by apply length_be.
  rewrite (proj2 (Nat.ltb_ge _ _)) by (unfold r2; len).
  assert (slice 72 2 r2 = len16 (length (pw_Files w))) as -> by (unfold r2; read_slice).
  assert (slice 0 8 r2 = be 8 (pw_Seq w)) as -> by (unfold r2; read_slice).
  assert (slice 8 32 r2 = pw_Prev w) as -> by (unfold r2; read_slice).
  assert (slice 40 32 r2 = pw_Digest w) as -> by (unfold r2; read_slice).
  assert (drop 74 r2 = concat (file_bytes <$> pw_Files w) ++ r3) as ->.
  { unfold r2. rewrite !app_assoc. rewrite <-app_assoc. apply drop_app_exact. len. }
  assert (be_val (len16 (length (pw_Files w))) = Z.of_nat (length (pw_Files w))) as ->.
  { unfold len16, u16. rewrite be_val_be, !Z.mod_small by (rewrite ?Z.mod_small; simpl; lia). done. }
  rewrite (proj2 (Z.eqb_neq _ 0)) by lia. unfold maxProvisioningFiles. rewrite (proj2 (Z.ltb_ge _ _)) by lia. cbn [orb].
  rewrite Nat2Z.id, read_files_app by done. cbn [mbind option_bind]. change (2 <=? b2z witnessVer) with true. cbn iota.
  unfold r3 at 1. cbn [app]. rewrite b2z_z2b, Z.mod_small, Nat2Z.id by (unfold auths; rewrite sorted_entries_length; lia).
  rewrite read_authorities_app.
  - cbn [mbind option_bind]. rewrite length_be. cbn [negb]. rewrite be_val_be8, be_val_be8 by (done || apply u64_range).
    unfold auths. rewrite sorted_entries_map, (right_id_L ∅ (∪)). unfold at_second. rewrite HL. done.
  - by apply sorted_entries_Forall.
  - apply sorted_entries_NoDup.
  - intros n _. apply lookup_empty.
Qed.

(** The bytes from which the seal of a witness of version 1 is computed are not those of the file. *)
Lemma legacy_is_reencoded rec pw : parseWitnessRecord rec = Some pw → pw_Legacy pw = true → marshalWitnessRecord pw ≠ rec.
Proof.
  unfold parseWitnessRecord. intros E HL <-. change (marshalWitnessRecord pw !!! 6%nat) with witnessVer in E.
  destruct (_ || _); [done|]. destruct (_ && _); [done|].
  repeat (first [apply bind_Some in E as ([] & _ & E) | case_match; try done]). injection E as <-. simpl in HL. done.
Qed.
End witness.

(** ** What a measure says of the files *)
Section measure.
Context `{Crypto, !CryptoLaws, SliceSort}.

(** The bytes a measure reads for a file. *)
Definition measured_content (d : disk) (f : ProvisioningFile) : option bytes :=
  match pf_Content f with
  | Some c => if maxAuthorityBytes <? Z.of_nat (length c) then None else Some c
  | None =>
      if pf_Authority f then readBoundedBytes d (pf_Path f) maxAuthorityBytes
      else
        v ← d (pf_Path f);
        if negb (fv_regular v) then None
        else if maxProvisioningBytes <? fv_size v then None
        else readBoundedBytes d (pf_Path f) maxProvisioningBytes
  end.

(** Whether the witness keeps the bytes of the file. *)
Definition kept (f : ProvisioningFile) : bool := match pf_Content f with Some _ => true | None => pf_Authority f end.

Definition hash_of (fc : ProvisioningFile * bytes) : ProvisioningFileHash := mkFileHash (pf_Name fc.1) (sha256 fc.2).
Definition keep (m : gmap string bytes) (fc : ProvisioningFile * bytes) : gmap string bytes :=
  if kept fc.1 then <[pf_Name fc.1 := fc.2]> m else m.

Lemma hashBoundedFile_content d f : pf_Content f = None → pf_Authority f = false → hashBoundedFile d (pf_Path f) = sha256 <$> measured_content d f.
Proof.
  intros E1 E2. unfold hashBoundedFile, measured_content, readBoundedBytes. rewrite E1, E2.
  destruct (d (pf_Path f)) as [v|]; [simpl|done]. destruct (fv_regular v); [simpl|done]. destruct (_ <? fv_size v); [done|].
  destruct (fv_read v); [simpl|done]. by destruct (_ <? _).
Qed.

Lemma measure_files_spec d files seen per auths per' auths' :
  measure_files d files seen per auths = inr (per', auths') →
  ∃ cs, Forall2 (λ f c, measured_content d f = Some c) files cs ∧ per' = per ++ (hash_of <$> zip files cs) ∧
    auths' = foldl keep auths (zip files cs) ∧ NoDup (pf_Name <$> files) ∧ Forall (λ f, name_ok (pf_Name f) ∧ pf_Name f ∉ seen) files.
Proof.
  revert seen per auths. induction files as [|f files IH]; intros seen per auths E; simpl in E.
  { injection E as <- <-. exists []. rewrite app_nil_r. by split_and!; try constructor. }
  destruct (Nat.eqb_spec (slen (pf_Name f)) 0) as [|Hn0]; cbn [orb] in E; [done|].
  unfold maxProvisioningName in E. destruct (Nat.ltb_spec 255 (slen (pf_Name f))) as [|Hn]; [done|].
  case_bool_decide as Hs; [done|].
  assert (∃ c, measured_content d f = Some c ∧
    measure_files d files ({[pf_Name f]} ∪ seen) (per ++ [hash_of (f, c)]) (keep auths (f, c)) = inr (per', auths')) as (c & Hc & E').
  { unfold hash_of, keep, kept, measured_content. cbn [fst snd]. destruct (pf_Content f) as [c|] eqn:Ec.
    - destruct (_ <? _); [done|]. by exists c.
    - destruct (pf_Authority f) eqn:Ea.
      + destruct (readBoundedBytes _ _ _) as [raw|]; [|done]. by exists raw.
      + rewrite (hashBoundedFile_content d f Ec Ea) in E. unfold measured_content in E. rewrite Ec, Ea in E.
        destruct (v ← d (pf_Path f); _) as [c|]; [|done]. by exists c. }
  destruct (IH _ _ _ E') as (cs & HF & -> & -> & HND & HO). exists (c :: cs).
  split_and!; [by constructor|by rewrite <-app_assoc|done| |].
  - rewrite fmap_cons. apply NoDup_cons. split; [|done]. intros (g & Eg & Hg)%list_elem_of_fmap.
    rewrite Forall_forall in HO. destruct (HO g Hg) as [_ Hg']. apply Hg'. rewrite <-Eg. set_solver.
  - constructor; [split; [split; lia|done]|]. eapply Forall_impl; [exact HO|]. intros g [Hg Hg']. split; [done|set_solver].
Qed.

(** The list has the file [n] with the bytes [c]. *)
Definition has_file (d : disk) (files : list ProvisioningFile) (n : string) (c : bytes) : Prop :=
  ∃ f, f ∈ files ∧ pf_Name f = n ∧ measured_content d f = Some c.

Lemma measure_spec d files digest per auths :
  measureProvisioning d files = inr (digest, per, auths) →
  digest = prov_digest per ∧ ((0 < length per ≤ 256)%nat ∧ length per = length files) ∧ Forall hash_ok per ∧ NoDup (ph_Name <$> per) ∧
  (∀ n h, mkFileHash n h ∈ per ↔ ∃ c, has_file d files n c ∧ h = sha256 c) ∧
  StronglySorted file_le per ∧ ∃ cs, Forall2 (λ f c, measured_content d f = Some c) files cs ∧ auths = foldl keep ∅ (zip files cs).
Proof.
  unfold measureProvisioning, maxProvisioningFiles. destruct (Nat.eqb_spec (length files) 0) as [|Hl0]; [done|].
  destruct (Nat.ltb_spec 256 (length files)) as [|Hl]; [done|]. destruct (measure_files _ _ _ _ _) as [e|[per0 auths0]] eqn:E; [done|].
  intros [= <- <- <-]. destruct (measure_files_spec _ _ _ _ _ _ _ E) as (cs & HF & -> & -> & HND & HO). cbn [app].
  assert (length (zip files cs) = length files) as HZ by (rewrite length_zip_with_l_eq; [done|by eapply Forall2_length]).
  assert (ph_Name <$> (hash_of <$> zip files cs) = pf_Name <$> files) as HNm.
  { rewrite <-list_fmap_compose. transitivity (pf_Name <$> (zip files cs).*1); [by rewrite <-list_fmap_compose|].
    by rewrite fst_zip by (apply Forall2_length in HF; lia). }
  split_and!; [done|..].
  - rewrite (Permutation_length (sort_slice_perm _ _)), length_fmap, HZ. lia.
  - rewrite (Permutation_length (sort_slice_perm _ _)), length_fmap, HZ. lia.
  - by rewrite (Permutation_length (sort_slice_perm _ _)), length_fmap, HZ.
  - rewrite sort_slice_perm. apply Forall_fmap, Forall_forall. intros [f c] Hin%elem_of_zip_l.
    rewrite Forall_forall in HO. destruct (HO f Hin). split; [done|apply sha256_length].
  - by rewrite sort_slice_perm, HNm.
  - intros n h. rewrite sort_slice_perm, list_elem_of_fmap. split.
    + intros ([f c] & [= -> ->] & Hin). exists c. split; [|done]. apply list_elem_of_lookup in Hin as [i Hi].
      apply lookup_zip_with_Some in Hi as (f' & c' & [= <- <-] & Hf & Hc). exists f. split_and!; [by eapply list_elem_of_lookup_2|done|].
      by apply (Forall2_lookup_lr _ _ _ _ _ _ HF Hf Hc).
    + intros (c & (f & Hf & <- & Hc) & ->). exists (f, c). split; [done|]. apply list_elem_of_lookup in Hf as [i Hi].
      destruct (Forall2_lookup_l _ _ _ _ _ HF Hi) as (c' & Hi' & Hc'). rewrite Hc in Hc'. injection Hc' as <-.
      apply list_elem_of_lookup. exists i. apply lookup_zip_with_Some. by exists f, c.
  - apply sort_slice_sorted; [intros x y; apply (total string_le)|intros x y z; apply (transitivity (R := string_le))].
  - by exists cs.
Qed.

Lemma foldl_keep l m n c :
  NoDup (pf_Name <$> l.*1) →
  foldl keep m l !! n = Some c ↔
    (∃ f, (f, c) ∈ l ∧ kept f = true ∧ pf_Name f = n) ∨ (m !! n = Some c ∧ ∀ fc, fc ∈ l → kept fc.1 = true → pf_Name fc.1 ≠ n).
Proof.
  revert m. induction l as [|[f x] l IH]; intros m HN; simpl.
  { split; [intros E; right; split; [done|by intros ? ?%not_elem_of_nil]|]. intros [(? & ?%not_elem_of_nil & _)|[? _]]; done. }
  rewrite !fmap_cons in HN. apply NoDup_cons in HN as [Hf HN]. rewrite (IH _ HN). unfold keep. cbn [fst snd].
  assert (∀ g, (g, c) ∈ l → pf_Name g ≠ pf_Name f) as Hne.
  { intros g Hg E. apply Hf. apply list_elem_of_fmap. exists g. split; [done|]. apply list_elem_of_fmap. by exists (g, c). }
  split.
  - intros [(g & Hg & Hk & <-)|[Hm Hall]]; [left; exists g; split; [by right|done]|].
    destruct (kept f) eqn:Ek.
    + apply lookup_insert_Some in Hm as [[<- <-]|[Hn Hm]]; [left; exists f; split; [by left|done]|].
      right. split; [done|]. intros fc [->|Hin]%elem_of_cons Hk; [done|by apply Hall].
    + right. split; [done|]. intros fc [->|Hin]%elem_of_cons Hk; [simpl in Hk; congruence|by apply Hall].
  - intros [(g & [[= -> ->]|Hin]%elem_of_cons & Hk & <-)|[Hm Hall]].
    + right. rewrite Hk, lookup_insert_eq. split; [done|]. intros [g y] Hg Hkg E. apply Hf. apply list_elem_of_fmap.
      exists g. split; [done|]. apply list_elem_of_fmap. by exists (g, y).
    + left. by exists g.
    + right. split; [|intros fc Hin; by apply Hall, elem_of_cons; right].
      destruct (kept f) eqn:Ek; [|done]. rewrite lookup_insert_ne; [done|]. apply (Hall (f, x)); [by left|done].
Qed.

(** The witness keeps the bytes of the authorities and of the settings, and nothing else. *)
Lemma measure_authorities d files digest per auths n c :
  measureProvisioning d files = inr (digest, per, auths) →
  auths !! n = Some c ↔ ∃ f, f ∈ files ∧ kept f = true ∧ pf_Name f = n ∧ measured_content d f = Some c.
Proof.
  intros E. pose proof E as E'. unfold measureProvisioning, maxProvisioningFiles in E'. destruct (_ =? _)%nat; [done|]. destruct (_ <? _)%nat; [done|].
  destruct (measure_files _ _ _ _ _) as [e|[per0 auths0]] eqn:Em; [done|]. injection E' as _ _ <-.
  destruct (measure_files_spec _ _ _ _ _ _ _ Em) as (cs & HF & _ & -> & HND & _).
  rewrite foldl_keep by (by rewrite fst_zip by (apply Forall2_length in HF; lia)). split.
  - intros [(f & Hin & Hk & <-)|[Hm _]]; [|by rewrite lookup_empty in Hm]. apply list_elem_of_lookup in Hin as [i Hi].
    apply lookup_zip_with_Some in Hi as (f' & c' & [= <- <-] & Hf & Hc). exists f.
    split_and!; [by eapply list_elem_of_lookup_2|done|done|]. by apply (Forall2_lookup_lr _ _ _ _ _ _ HF Hf Hc).
  - intros (f & Hf & Hk & Hn & Hc). left. exists f. split; [|done]. apply list_elem_of_lookup in Hf as [i Hi].
    destruct (Forall2_lookup_l _ _ _ _ _ HF Hi) as (c' & Hi' & Hc'). rewrite Hc in Hc'. injection Hc' as <-.
    apply list_elem_of_lookup. exists i. apply lookup_zip_with_Some. by exists f, c.
Qed.

Lemma kept_bounded d f c : kept f = true → measured_content d f = Some c → Z.of_nat (length c) ≤ maxAuthorityBytes.
Proof.
  unfold kept, measured_content, readBoundedBytes. destruct (pf_Content f) as [c'|].
  - intros _. destruct (Z.ltb_spec maxAuthorityBytes (Z.of_nat (length c'))); [done|]. by intros [= <-].
  - intros ->. intros (v & _ & E)%bind_Some. destruct (fv_regular v); [cbn [negb] in E|done]. apply bind_Some in E as (x & _ & E).
    destruct (Z.ltb_spec maxAuthorityBytes (Z.of_nat (length (limited (maxAuthorityBytes + 1) x)))); [done|]. by injection E as <-.
Qed.

Lemma measure_NoDup d files digest per auths : measureProvisioning d files = inr (digest, per, auths) → NoDup (pf_Name <$> files).
Proof.
  unfold measureProvisioning. destruct (_ =? _)%nat; [done|]. destruct (_ <? _)%nat; [done|].
  destruct (measure_files _ _ _ _ _) as [e|[per0 auths0]] eqn:Em; [done|]. intros _.
  by destruct (measure_files_spec _ _ _ _ _ _ _ Em) as (_ & _ & _ & _ & HND & _).
Qed.

Lemma measure_authorities_ok d files digest per auths :
  measureProvisioning d files = inr (digest, per, auths) →
  map_Forall (λ n c, authority_ok (n, c)) auths ∧ (size auths ≤ length (filter (λ f, kept f = true) files))%nat.
Proof.
  intros E. destruct (measure_spec _ _ _ _ _ E) as (_ & _ & HO & _ & HH & _). split.
  - intros n c Hc. apply (measure_authorities _ _ _ _ _ _ _ E) in Hc as (f & Hf & Hk & <- & Hc). rewrite Forall_forall in HO.
    assert (mkFileHash (pf_Name f) (sha256 c) ∈ per) as Hin by (apply HH; exists c; split; [by exists f|done]).
    split; [by apply HO in Hin as [? _]|by eapply kept_bounded].
  - rewrite <-size_dom, <-(length_fmap pf_Name (filter _ files)), <-(size_list_to_set (C := gset string)).
    + apply subseteq_size. intros n (c & Hc)%elem_of_dom. apply (measure_authorities _ _ _ _ _ _ _ E) in Hc as (f & Hf & Hk & <- & _).
      apply elem_of_list_to_set, list_elem_of_fmap. exists f. split; [done|]. by apply list_elem_of_filter.
    + eapply sublist_NoDup; [exact (measure_NoDup _ _ _ _ _ E)|]. apply fmap_sublist, sublist_filter.
Qed.

Lemma file_bytes_inj a b k1 k2 : hash_ok a → hash_ok b → file_bytes a ++ k1 = file_bytes b ++ k2 → a = b ∧ k1 = k2.
Proof.
  intros [[_ Ha] La] [[_ Hb] Lb]. unfold file_bytes. rewrite <-!app_assoc. intros E.
  apply str8_app_inj in E as [En E]; [|done..]. apply app_inj_len in E as [Eh ->]; [|by rewrite La, Lb]. destruct a, b; simpl in *. by subst.
Qed.

Lemma files_bytes_inj xs ys : Forall hash_ok xs → Forall hash_ok ys → concat (file_bytes <$> xs) = concat (file_bytes <$> ys) → xs = ys.
Proof. apply nonempty_code_concat; [exact file_bytes_inj|done]. Qed.

(** Two measures with the same digest found the same files with the same bytes. *)
Lemma digest_binds_files d1 fs1 d2 fs2 digest per1 per2 a1 a2 n c :
  measureProvisioning d1 fs1 = inr (digest, per1, a1) → measureProvisioning d2 fs2 = inr (digest, per2, a2) →
  has_file d1 fs1 n c → has_file d2 fs2 n c ∨ sha256_collision.
Proof.
  intros E1 E2 Hc. destruct (measure_spec _ _ _ _ _ E1) as (D1 & _ & O1 & _ & M1 & _), (measure_spec _ _ _ _ _ E2) as (D2 & _ & O2 & _ & M2 & _).
  rewrite D1 in D2. unfold prov_digest in D2. destruct (sha256_eq_or_collision _ _ D2) as [E|]; [|by right].
  apply app_inj_len in E as [_ E]; [|done]. apply files_bytes_inj in E; [|done..]. subst per2.
  assert (mkFileHash n (sha256 c) ∈ per1) as Hin by (apply M1; by exists c).
  apply M2 in Hin as (c' & Hc' & Eh). destruct (sha256_eq_or_collision _ _ Eh) as [->|]; auto.
Qed.
End measure.

(** ** Starts *)
Section starts.
Context `{Crypto, !CryptoLaws, Env, CellKey, !CellKeyLaws, MapOrder, SliceSort}.

Lemma pg_leaf_result event digest seq verdict reason now g t e t' :
  pg_leaf event digest seq verdict reason now g t = (Some e, t') → e = ErrProvisioningLeafFault.
Proof. unfold pg_leaf. destruct (appendLeaf _ _ _ _ _) as [[]]; by intros [= <-]. Qed.

Lemma pg_commit_result event seq prev auths digest per reason now1 now2 persists g w t res w' t' :
  pg_commit event seq prev auths digest per reason now1 now2 persists g w t = (res, w', t') →
  match res with
  | Some _ => w' = w
  | None => let pw := mkWitness (p_cellID (pg_prod g)) (pg_component g) seq prev digest per auths false now1 in
            ∃ sig, key_Verify (marshalWitnessRecord pw) sig = true ∧ w' = WitFile (hex (marshalWitnessRecord pw)) (hex sig)
  end.
Proof.
  unfold pg_commit. destruct (key_Sign _ _) as [sig|] eqn:Es; [|by intros [= <- <- _]].
  destruct (pg_leaf _ _ _ _ _ _ _ _) as [[e|] t1]; [by intros [= <- <- _]|]. destruct persists; [|by intros [= <- <- _]].
  intros [= <- <- _]. exists sig. split; [by eapply sign_verifies|done].
Qed.

(** A refused start leaves the witness as it was. *)
Lemma refused_keeps_witness b g w t e w' t' : pg_Check b g w t = (Some e, w', t') → w' = w.
Proof.
  unfold pg_Check, with_wit. intros E.
  repeat (case_match; simplify_eq/=; try done); match goal with HE : pg_commit _ _ _ _ _ _ _ _ _ _ _ _ _ = _ |- _ => by apply pg_commit_result in HE end.
Qed.

(** The guard of a cell and a component, as [NewProvisioningGuard] makes it, with no more kept files than the count in a
    witness can hold. *)
Definition guard_of (cellID component : string) (g : ProvisioningGuard) : Prop :=
  p_cellID (pg_prod g) = cellID ∧ pg_component g = component ∧ (length (filter (λ f, kept f = true) (pg_files g)) ≤ 255)%nat.

(** What was committed is read back. *)
Lemma committed_reads cellID component g d digest per auths seq prev now sig :
  name_ok cellID → name_ok component → guard_of cellID component g → in_u64 seq → length prev = 32%nat →
  measureProvisioning d (pg_files g) = inr (digest, per, auths) →
  let pw := mkWitness cellID component seq prev digest per auths false now in
  key_Verify (marshalWitnessRecord pw) sig = true →
  readProvisioningWitness (WitFile (hex (marshalWitnessRecord pw)) (hex sig)) cellID component = inr (Some (at_second pw)).
Proof.
  intros HC HK (Hc & Hk & HL) HS HP E pw Hv. destruct (measure_spec _ _ _ _ _ E) as (HD & [HN _] & HO & _).
  destruct (measure_authorities_ok _ _ _ _ _ E) as [HA HZ]. unfold readProvisioningWitness. rewrite !hex_roundtrip.
  assert (witness_typed pw) as HT.
  { unfold witness_typed, pw. simpl. split_and!; try done; try lia; try apply HC; try apply HK. rewrite HD. apply sha256_length. }
  rewrite (parse_marshal_witness pw HT), Hv. cbn [negb]. simpl.
  rewrite !bool_decide_eq_false_2 by (by intros []). done.
Qed.

(** The witness [w] attests a measure of the files of some guard, of this cell and component. *)
Definition attests (cellID component : string) (K : string → Prop) (w : wit) (d : disk) (files : list ProvisioningFile) : Prop :=
  ∃ pw, readProvisioningWitness w cellID component = inr (Some pw) ∧ pw_Legacy pw = false ∧ in_u64 (pw_Seq pw) ∧
    measureProvisioning d files = inr (pw_Digest pw, pw_Files pw, pw_Authorities pw) ∧ ∀ n, K n → is_Some (pw_Authorities pw !! n).

Definition wit_inv (cellID component : string) (K : string → Prop) (w : wit) : Prop :=
  w = WitAbsent ∨ ∃ d files, attests cellID component K w d files.

(** The guard keeps in its witness the bytes of the file [n]. *)
Definition pg_keeps (g : ProvisioningGuard) (n : string) : Prop := ∃ f, f ∈ pg_files g ∧ pf_Name f = n ∧ kept f = true.

Lemma keeps_authority b g digest per auths n :
  measureProvisioning (be_disk b) (pg_files g) = inr (digest, per, auths) → pg_keeps g n → is_Some (auths !! n).
Proof.
  intros E (f & Hf & Hn & Hk). destruct (measure_spec _ _ _ _ _ E) as (_ & _ & _ & _ & _ & _ & cs & HF & _).
  apply list_elem_of_lookup in Hf as [i Hi]. destruct (Forall2_lookup_l _ _ _ _ _ HF Hi) as (c & _ & Hc).
  exists c. apply (measure_authorities _ _ _ _ _ _ _ E). exists f. split_and!; try done. by eapply list_elem_of_lookup_2.
Qed.

(** What a start that is let through says of the witness before and after it. *)
Definition started (b : boot_env) (g : ProvisioningGuard) (cellID component : string) (w w' : wit) : Prop :=
  ∃ digest per auths, measureProvisioning (be_disk b) (pg_files g) = inr (digest, per, auths) ∧
    ((w' = w ∧ ∃ pw, readProvisioningWitness w cellID component = inr (Some pw) ∧ pw_Legacy pw = false ∧ pw_Digest pw = digest) ∨
     ((∃ seq prev now sig, in_u64 seq ∧ length prev = 32%nat ∧ let pw := mkWitness cellID component seq prev digest per auths false now in
        key_Verify (marshalWitnessRecord pw) sig = true ∧ w' = WitFile (hex (marshalWitnessRecord pw)) (hex sig)) ∧
      ∀ pw, readProvisioningWitness w cellID component = inr (Some pw) → pw_Legacy pw = false →
        pw_Digest pw ≠ digest ∧ ∃ authorize, pg_authorize g = Some authorize ∧ authorize (pw_Authorities pw) (pw_Digest pw) digest = true)).

Lemma Check_started b g cellID component w t w' t' :
  guard_of cellID component g → pg_Check b g w t = (None, w', t') → started b g cellID component w w'.
Proof.
  intros (<- & <- & _) E. unfold pg_Check, with_wit, pg_refuse in E. unfold started.
  destruct (measureProvisioning _ _) as [e|[[digest per] auths]] eqn:Em; [done|]. exists digest, per, auths. split; [done|].
  destruct (readProvisioningWitness _ _ _) as [e|[pw|]] eqn:Er; [done| |].
  - case_bool_decide as Hd.
    + destruct (pw_Legacy pw) eqn:Hl.
      * right. apply pg_commit_result in E as (sig & Hv & ->). split; [|intros ? [= <-]; congruence].
        do 2 eexists. exists (be_now1 b), sig. split_and!; [apply u64_range|apply sha256_length|exact Hv|done].
      * left. destruct (pg_leaf _ _ _ _ _ _ _ _) as [r t1]. injection E as -> <- <-. split; [done|]. by exists pw.
    + destruct (pw_Legacy pw) eqn:Hl; [done|]. destruct (pg_authorize g) as [a|] eqn:Ha; [|done]. destruct (a _ _ _) eqn:Hau; [|done].
      right. apply pg_commit_result in E as (sig & Hv & ->). split.
      * do 2 eexists. exists (be_now1 b), sig. split_and!; [apply u64_range|apply sha256_length|exact Hv|done].
      * intros ? [= <-] _. split; [done|]. by exists a.
  - right. destruct (be_head b) as [size|]; [|done].
    assert (∃ event reason, pg_commit event 0 zero32 auths digest per reason (be_now1 b) (be_now2 b) (be_persists b) g w t = (None, w', t')) as (ev & re & E').
    { destruct (size =? 0); [by do 2 eexists|]. destruct (pg_authorize g) as [a|]; [|done]. destruct (a _ _ _); [cbn [negb] in E|done]. by do 2 eexists. }
    apply pg_commit_result in E' as (sig & Hv & ->). split; [|done].
    exists 0, zero32, (be_now1 b), sig. split_and!; [unfold in_u64; lia|done|exact Hv|done].
Qed.

(** After a start the witness attests the files measured, or it already attested files with their digest. *)
Lemma started_attests b g cellID component K w w' :
  name_ok cellID → name_ok component → guard_of cellID component g → (∀ n, K n → pg_keeps g n) →
  wit_inv cellID component K w → started b g cellID component w w' →
  ∃ d files digest per per' auths auths', attests cellID component K w' d files ∧
    measureProvisioning d files = inr (digest, per, auths) ∧ measureProvisioning (be_disk b) (pg_files g) = inr (digest, per', auths').
Proof.
  intros HC HK HG HKn HI (digest & per & auths & Em & [[-> (pw & Er & Hl & Hd)]|[(seq & prev & now & sig & HS & HP & Hv & ->) _]]).
  - destruct HI as [->|(d & files & HA)]; [done|]. pose proof HA as (pw' & Er' & _ & _ & Em' & _). rewrite Er in Er'. injection Er' as <-.
    rewrite Hd in Em'. by exists d, files, digest, (pw_Files pw), per, (pw_Authorities pw), auths.
  - exists (be_disk b), (pg_files g), digest, per, per, auths, auths. split_and!; try done.
    pose proof (committed_reads cellID component g (be_disk b) digest per auths seq prev now sig HC HK HG HS HP Em Hv) as Hr.
    eexists. split; [exact Hr|]. simpl. split_and!; try done; try apply HS. intros n Hn. by eapply keeps_authority, HKn.
Qed.

Lemma Check_inv b g cellID component K w t res w' t' :
  name_ok cellID → name_ok component → guard_of cellID component g → (∀ n, K n → pg_keeps g n) →
  wit_inv cellID component K w → pg_Check b g w t = (res, w', t') → wit_inv cellID component K w'.
Proof.
  intros HC HK HG HKn HI E. destruct res as [e|]; [by apply refused_keeps_witness in E as ->|].
  apply (Check_started b g cellID component) in E; [|done]. destruct (started_attests b g cellID component K w w') as (d & files & _ & _ & _ & _ & _ & HA & _); try done.
  right. by exists d, files.
Qed.

(** One start: the guard cannot be made, or it checks. *)
Definition start_one (bg : boot_env * (prov_error + ProvisioningGuard)) (w : wit) (t : trace) : option prov_error * wit * trace :=
  match bg.2 with inl e => (Some e, w, t) | inr g => pg_Check bg.1 g w t end.

(** The starts of a daemon, each with its own configuration and machine. *)
Fixpoint starts (bs : list (boot_env * (prov_error + ProvisioningGuard))) (w : wit) (t : trace) : list (option prov_error) * wit * trace :=
  match bs with
  | [] => ([], w, t)
  | bg :: bs =>
      let '(res, w1, t1) := start_one bg w t in
      let '(rs, w2, t2) := starts bs w1 t1 in
      (res :: rs, w2, t2)
  end.

Lemma starts_app bs1 bs2 w t :
  starts (bs1 ++ bs2) w t =
    let '(r1, w1, t1) := starts bs1 w t in let '(r2, w2, t2) := starts bs2 w1 t1 in (r1 ++ r2, w2, t2).
Proof.
  revert w t. induction bs1 as [|bg bs1 IH]; intros w t; simpl; [by destruct (starts bs2 w t) as [[]]|].
  destruct (start_one bg w t) as [[r w1] t1]. rewrite IH. destruct (starts bs1 w1 t1) as [[r1 w2] t2]. by destruct (starts bs2 w2 t2) as [[]].
Qed.

Lemma starts_length bs w t : length (starts bs w t).1.1 = length bs.
Proof.
  revert w t. induction bs as [|bg bs IH]; intros w t; simpl; [done|]. destruct (start_one bg w t) as [[r w1] t1].
  specialize (IH w1 t1). destruct (starts bs w1 t1) as [[]]. simpl in *. by f_equal.
Qed.

Lemma start_refused bg w t e w' t' : start_one bg w t = (Some e, w', t') → w' = w.
Proof. unfold start_one. destruct bg as [b [e'|g]]; simpl; [by intros [= _ <- _]|apply refused_keeps_witness]. Qed.

Lemma starts_refused bs w t rs w' t' : starts bs w t = (rs, w', t') → Forall (λ r, r ≠ None) rs → w' = w.
Proof.
  revert w t rs. induction bs as [|bg bs IH]; intros w t rs E HF; simpl in E; [by injection E as <- <- <-|].
  destruct (start_one bg w t) as [[r w1] t1] eqn:Ec. destruct (starts bs w1 t1) as [[rs1 w2] t2] eqn:Es. injection E as <- <- <-.
  apply Forall_cons in HF as [Hr HF]. destruct r as [e|]; [|done]. apply start_refused in Ec as ->. by eapply IH.
Qed.

(** Every guard of a list of starts is one of this cell and component, that keeps the files of [K]. *)
Definition starts_of (cellID component : string) (K : string → Prop) (bg : boot_env * (prov_error + ProvisioningGuard)) : Prop :=
  ∀ g, bg.2 = inr g → guard_of cellID component g ∧ ∀ n, K n → pg_keeps g n.

Lemma starts_inv cellID component K bs w t rs w' t' :
  name_ok cellID → name_ok component → Forall (starts_of cellID component K) bs →
  wit_inv cellID component K w → starts bs w t = (rs, w', t') → wit_inv cellID component K w'.
Proof.
  intros HC HK HF. revert w t rs. induction HF as [|[b r] bs HG HF IH]; intros w t rs HI E; simpl in E; [by injection E as <- <- <-|].
  unfold start_one in E. simpl in E. destruct r as [e|g].
  - destruct (starts bs w t) as [[rs1 w2] t2] eqn:Es. injection E as <- <- <-. by eapply IH.
  - destruct (pg_Check b g w t) as [[r w1] t1] eqn:Ec. destruct (starts bs w1 t1) as [[rs1 w2] t2] eqn:Es. injection E as <- <- <-.
    destruct (HG g eq_refl). eapply IH; [|exact Es]. by eapply (Check_inv b g).
Qed.

(** Two starts with the same files, up to a collision of SHA-256. *)
Definition same_files (file1 file2 : string → bytes → Prop) : Prop :=
  ∀ n c, (file1 n c → file2 n c ∨ sha256_collision) ∧ (file2 n c → file1 n c ∨ sha256_collision).

(** Two consecutive starts that were let through: the second one found the files of the first, or its authoriser granted the transition,
    from what the first one measured, in view of the bytes of its files. *)
Lemma next_start cellID component (K : string → Prop) bs1 b1 r1 bs2 b2 r2 t rs1 rs2 w' t' :
  name_ok cellID → name_ok component →
  Forall (starts_of cellID component K) (bs1 ++ (b1, r1) :: bs2 ++ [(b2, r2)]) →
  starts (bs1 ++ (b1, r1) :: bs2 ++ [(b2, r2)]) WitAbsent t = (rs1 ++ None :: rs2 ++ [None], w', t') →
  length rs1 = length bs1 → Forall (λ r, r ≠ None) rs2 →
  ∃ g1 g2, r1 = inr g1 ∧ r2 = inr g2 ∧
  (same_files (has_file (be_disk b1) (pg_files g1)) (has_file (be_disk b2) (pg_files g2)) ∨
  ∃ authorize prev from to, pg_authorize g2 = Some authorize ∧ authorize prev from to = true ∧
    (∃ per auths, measureProvisioning (be_disk b1) (pg_files g1) = inr (from, per, auths)) ∧
    (∃ per auths, measureProvisioning (be_disk b2) (pg_files g2) = inr (to, per, auths)) ∧
    (∀ n c, prev !! n = Some c → has_file (be_disk b1) (pg_files g1) n c ∨ sha256_collision) ∧ (∀ n, K n → is_Some (prev !! n))).
Proof.
  intros HC HK HF E HL HR. rewrite starts_app in E. destruct (starts bs1 WitAbsent t) as [[q1 wa] ta] eqn:E1.
  pose proof (starts_length bs1 WitAbsent t) as HL1. rewrite E1 in HL1. simpl in HL1, E.
  destruct (start_one (b1, r1) wa ta) as [[res1 wb] tb] eqn:Eb. rewrite starts_app in E.
  destruct (starts bs2 wb tb) as [[q2 wc] tc] eqn:E2. simpl in E. destruct (start_one (b2, r2) wc tc) as [[res2 wd] td] eqn:Ed.
  injection E as E <- <-. apply app_inj_len in E as [<- E]; [|congruence]. injection E as -> E.
  apply app_inj_2 in E as [<- [= ->]]; [|done].
  apply Forall_app in HF as [HF1 HF]. apply Forall_cons in HF as [HG1 HF]. apply Forall_app in HF as [HF2 HF].
  apply Forall_cons in HF as [HG2 _]. unfold start_one in Eb, Ed. simpl in Eb, Ed. destruct r1 as [e|g1], r2 as [e'|g2]; try done.
  destruct (HG1 g1 eq_refl) as [HGo1 HK1], (HG2 g2 eq_refl) as [HGo2 _]. exists g1, g2. split_and!; [done..|].
  assert (wit_inv cellID component K wa) as HIa by (apply (starts_inv cellID component K bs1 WitAbsent t q1 wa ta); try done; by left).
  apply (starts_refused _ _ _ _ _ _ E2) in HR. subst wc.
  apply (Check_started _ _ cellID component) in Eb; [|done]. apply (Check_started _ _ cellID component) in Ed; [|done].
  destruct (started_attests b1 g1 cellID component K wa wb) as (d & files & dg & per & per1 & au & au1 & (pw & Er & Hl & _ & Em & HKp) & Em' & Em1); try done.
  rewrite Em in Em'. injection Em' as Hdg _ _.
  destruct Ed as (digest & per2 & au2 & Em2 & [[_ (pw' & Er' & _ & Hd')]|[_ Hauth]]).
  - left. rewrite Er in Er'. injection Er' as <-. intros n c. rewrite Hdg in Hd'. subst digest. split; intros Hc.
    + exact (digest_binds_files _ _ _ _ _ _ _ _ _ n c Em1 Em2 Hc).
    + exact (digest_binds_files _ _ _ _ _ _ _ _ _ n c Em2 Em1 Hc).
  - right. destruct (Hauth pw Er Hl) as (_ & a & Ha & Hau). exists a, (pw_Authorities pw), dg, digest. rewrite Hdg in Hau.
    split_and!; [done|done|by do 2 eexists|by do 2 eexists| |done].
    intros n c Hc. rewrite Hdg in Em. eapply digest_binds_files; [exact Em|exact Em1|].
    apply (measure_authorities _ _ _ _ _ _ _ Em) in Hc as (f & Hf & _ & Hn & Hc). by exists f.
Qed.

Definition set_authorize (a : option authorizer) (g : ProvisioningGuard) : ProvisioningGuard :=
  mkGuard (pg_prod g) (pg_component g) (pg_files g) a (pg_onTrip g).

(** C36: what a controller recomputes is what the daemon asks. When the preview of a copy of the files and of the witness succeeds, the
    start over the same files and witness consults its authoriser at no other transition than the one from [pv_From] to
    [pv_To]: two authorisers that agree there give the same verdict, the same witness and the same trace; and when
    the preview says that the files conform, the start does not depend on any authorisation. *)
Theorem preview_is_what_is_asked b g path w t pv a1 a2 :
  PreviewProvisioning (be_disk b) (pg_files g) path w (p_cellID (pg_prod g)) (pg_component g) true = inr pv →
  (∀ prev, a1 prev (pv_From pv) (pv_To pv) = a2 prev (pv_From pv) (pv_To pv)) →
  pg_Check b (set_authorize (Some a1) g) w t = pg_Check b (set_authorize (Some a2) g) w t ∧
  (pv_Conforming pv = true → pg_Check b (set_authorize (Some a1) g) w t = pg_Check b (set_authorize None g) w t).
Proof.
  unfold PreviewProvisioning. destruct (_ || _); [done|]. destruct (measureProvisioning (be_disk b) (pg_files g)) as [e|[[digest per] auths]] eqn:Em; [done|].
  destruct (readProvisioningWitness _ _ _) as [e|[pw|]] eqn:Er; [done| |]; intros [= <-] Ha; cbn [pv_From pv_To pv_Conforming] in *;
    unfold pg_Check; cbn [set_authorize pg_files pg_prod pg_component pg_authorize]; rewrite Em, Er.
  - destruct (bool_decide_reflect (pw_Digest pw = digest)) as [Hd|Hd]; [split; [done|intros _; done]|].
    split; [|done]. destruct (pw_Legacy pw); [done|]. rewrite Ha. done.
  - split; [|done]. destruct (be_head b) as [size|]; [|done]. destruct (size =? 0); [done|]. rewrite Ha. done.
Qed.
End starts.
