(* ===== verification/Authorizer.v ===== *)
(** Who may change the provisioning files: [src/pep/provisioning_authorize.go], [quorum_settings.go], [quorum_proof_file.go], and
    the list of files of pepd ([src/pep/cmd/pepd/provisioning.go]).

    The closure that a daemon gives to the guard of Provisioning verifies a proof of quorum for the one transition at hand, against
    the keyring and the threshold that the last witness attests. The bytes of the keyring go through the strict decoder of
    StrictJson; the bytes of the proof arrive decoded. *)
From S2P Require Import Prelude.
From S2P Require Import Hex.
From S2P Require Import Json.
From S2P Require Import GoStrings.
From S2P Require Import Leaf.
From S2P Require Import Effects.
From S2P Require Import Records.
From S2P Require Import Quorum.
From S2P Require Import StrictJson.
From S2P Require Import Manifest.
From S2P Require Import Provisioning.

Local Open Scope Z_scope.

Definition ProvisioningQuorumKeyringName : string := "quorum-keyring".
Definition ProvisioningQuorumSettingsName : string := "quorum-settings".
Definition ProvisioningPostureName : string := "security-posture".

(** ** The keyring *)

(** The loop of [ParseKeyring] over the entries of the decoded map. *)
Fixpoint keyring_loop (entries : list (string * string)) (keyring : gmap bytes bytes) (seenPub : gset bytes) : option (gmap bytes bytes) :=
  match entries with
  | [] => Some keyring
  | (kidHex, pubHex) :: entries =>
      kid ← hex_DecodeString kidHex;
      if negb (length kid =? 16)%nat then None
      else
        pub ← hex_DecodeString pubHex;
        if negb (length pub =? PublicKeySize)%nat then None
        else if bool_decide (is_Some (keyring !! kid)) then None
        else if bool_decide (pub ∈ seenPub) then None
        else keyring_loop entries (<[kid := pub]> keyring) ({[pub]} ∪ seenPub)
  end.

(** What the standard decoder stores in a [map[string]string]. *)
Definition string_map (v : jdoc) : gmap string string :=
  match v with
  | JObj ms => foldl (λ m kv, <[kv.1 := match kv.2 with JStr s => s | _ => "" end]> m) ∅ ms
  | _ => ∅
  end.

Definition keyring_type : gtype := GMap (GScalar KString).

Section authorizer.
Context (unmarshal : gtype → jdoc → option unmarshal_error) (read : bytes → reading).
Context `{Crypto, MapOrder}.

Definition ParseKeyring (data : bytes) : option (gmap bytes bytes) :=
  match Decode unmarshal data (read data) keyring_type with
  | inl _ => None
  | inr v =>
      let raw := string_map v in
      if (size raw =? 0)%nat then None else keyring_loop (map_range (map_to_list raw)) ∅ ∅
  end.

(** ** The settings *)

Definition QuorumSettings (k : Z) (topology : string) : bytes :=
  sb "quorum-min=" ++ sb (Itoa k) ++ [newline] ++ sb "topology=" ++ sb topology ++ [newline].

Fixpoint settings_loop (lines : list bytes) (found : option Z) : option Z :=
  match lines with
  | [] => found
  | line :: lines =>
      '(key, val) ← cut_byte Byte.x3d line;
      if bool_decide (key = sb "quorum-min") then
        n ← Atoi (bs val); if n <? 1 then None else settings_loop lines (Some n)
      else settings_loop lines found
  end.

Definition ParseQuorumSettings (raw : bytes) : option Z := settings_loop (scan_lines raw) None.

(** ** The proof *)

Record quorumProofSigWire := mkSigWire { qw_KeyID : string; qw_Signature : string }.
Record quorumProofFile := mkProofFile { qf_Expiry : Z; qf_Signatures : list quorumProofSigWire }.

Definition TransitionCondition (base : string) (from to : bytes) : string := base +:+ "|from=" +:+ hex from +:+ "|to=" +:+ hex to.

(** One signature of the file. *)
Definition wire_signature (s : quorumProofSigWire) : option QuorumSignature :=
  kid ← hex_DecodeString (qw_KeyID s);
  if negb (length kid =? 16)%nat then None
  else
    sig ← hex_DecodeString (qw_Signature s);
    if negb (length sig =? 64)%nat then None else Some (mkQuorumSignature kid sig).

(** [VerifyQuorumProofFile]; [file] is the decoded proof, [None] when it cannot be read or decoded, [now] the reading of the verifier. *)
Definition VerifyQuorumProofFile (file : option quorumProofFile) (condition cellID : string) (keyring : gmap bytes bytes) (k now : Z) : bool :=
  match file with
  | None => false
  | Some pf =>
      match mapM wire_signature (qf_Signatures pf) with
      | None => false
      | Some sigs =>
          match NewSignatureQuorumVerifier cellID keyring k DefaultQuorumProofTTL with
          | None => false
          | Some verify => verify now condition (mkQuorumProof (of_Unix (qf_Expiry pf)) sigs)
          end
      end
  end.

(** [NewProvisioningAuthorizer], and the closure of pepd; [proof] is [None] when no file is configured, then what
    [VerifyQuorumProofFile] finds there. *)
Definition NewProvisioningAuthorizer (condBase cellID : string) (quorumKeyring : gmap bytes bytes) (quorumMin : Z)
    (proof : option (option quorumProofFile)) (now : Z) : authorizer := λ prev from to,
  let cond := TransitionCondition condBase from to in
  match proof with
  | None => false
  | Some file =>
      match (match prev !! ProvisioningQuorumKeyringName with Some raw => ParseKeyring raw | None => Some quorumKeyring end),
            (match prev !! ProvisioningQuorumSettingsName with Some raw => ParseQuorumSettings raw | None => Some quorumMin end) with
      | Some keyring, Some k => VerifyQuorumProofFile file cond cellID keyring k now
      | _, _ => false
      end
  end.

(** ** pepd *)

Definition conditionProvisioningTransition : string := "provisioning-transition-pepd".

Record provisioningInputs := mkInputs {
  in_cellID : string; in_regDir : string; in_salt : bytes; in_keyringFile : string; in_quorumKeyringFile : string;
  in_quorumKeyring : gmap bytes bytes; in_quorumMin : Z; in_topology : string; in_posture : bytes; in_journal : bool }.

Definition pepdProvisioningFiles (i : provisioningInputs) (getenv : string → string) : prov_error + list ProvisioningFile :=
  match ParseProvisioningExtra (getenv "TBP_PROVISIONING_EXTRA_FILES") with
  | inl e => inl e
  | inr extra =>
      inr ([mkProvisioningFile "issuer-keyring" (in_keyringFile i) false None;
            mkProvisioningFile ProvisioningQuorumKeyringName (in_quorumKeyringFile i) true None;
            mkProvisioningFile ProvisioningQuorumSettingsName "" false (Some (QuorumSettings (in_quorumMin i) (in_topology i)));
            mkProvisioningFile ProvisioningPostureName "" false (Some (in_posture i))] ++ extra)
  end.

(** The guard that [setupProvisioning] makes; [proof] is what the file of the proof holds. *)
Definition pepd_guard `{SliceSort} (abs : string → option string) (d : disk) (i : provisioningInputs) (getenv : string → string)
    (proof : option quorumProofFile) (now : Z) : prov_error + ProvisioningGuard :=
  match pepdProvisioningFiles i getenv with
  | inl e => inl e
  | inr files =>
      let proof := if bool_decide (getenv "TBP_PROVISIONING_TRANSITION_PROOF_FILE" = "") then None else Some proof in
      NewProvisioningGuard abs d (in_cellID i) "pepd" (getenv "TBP_PROVISIONING_WITNESS_FILE") (in_regDir i) files true true true true
        (in_salt i) (in_journal i)
        (Some (NewProvisioningAuthorizer conditionProvisioningTransition (in_cellID i) (in_quorumKeyring i) (in_quorumMin i) proof now)) true
  end.

(** [setupProvisioning]: whether pepd starts, the witness and the log after it. *)
Definition setupProvisioning `{SliceSort, Env, CellKey} (abs : string → option string) (b : boot_env) (i : provisioningInputs)
    (getenv : string → string) (proof : option quorumProofFile) (now : Z) (w : wit) (t : trace) : option prov_error * wit * trace :=
  if bool_decide (getenv "TBP_PROVISIONING_DISABLED_DEV_UNSAFE" = "1") then
    if bool_decide (getenv "TBP_PROVISIONING_WITNESS_FILE" = "") then (None, w, t) else (Some ErrProvisioningConfig, w, t)
  else if bool_decide (getenv "TBP_PROVISIONING_WITNESS_FILE" = "") then (Some ErrProvisioningConfig, w, t)
  else
    match pepd_guard abs (be_disk b) i getenv proof now with
    | inl e => (Some e, w, t)
    | inr g => pg_Check b g w t
    end.

(** ** Facts *)

(** A keyring as the quorum needs it: whole identifiers and keys, and no key under two identifiers. *)
Definition keyring_ok (keyring : gmap bytes bytes) : Prop :=
  map_Forall (λ kid pub, length kid = 16%nat ∧ length pub = PublicKeySize) keyring ∧
  ∀ k1 k2 pub, keyring !! k1 = Some pub → keyring !! k2 = Some pub → k1 = k2.

Lemma keyring_loop_ok entries keyring seen keyring' :
  keyring_loop entries keyring seen = Some keyring' → keyring_ok keyring → (∀ k p, keyring !! k = Some p → p ∈ seen) → keyring_ok keyring'.
Proof.
  revert keyring seen. induction entries as [|[kh ph] entries IH]; intros keyring seen E HK HS; simpl in E; [by injection E as <-|].
  apply bind_Some in E as (kid & _ & E). destruct (Nat.eqb_spec (length kid) 16) as [Hk|]; [cbn [negb] in E|done].
  apply bind_Some in E as (pub & _ & E). destruct (Nat.eqb_spec (length pub) PublicKeySize) as [Hp|]; [cbn [negb] in E|done].
  case_bool_decide as Hd; [done|]. case_bool_decide as Hs; [done|]. destruct HK as [HK1 HK2].
  apply (IH _ _ E).
  - split; [by apply map_Forall_insert_2|]. intros k1 k2 q E1 E2.
    apply lookup_insert_Some in E1 as [[<- <-]|[N1 E1]], E2 as [[<- Hq]|[N2 E2]]; try done; [|subst q|].
    + by apply HS in E2.
    + by apply HS in E1.
    + by eapply HK2.
  - intros k q Hq. apply lookup_insert_Some in Hq as [[<- <-]|[_ Hq]]; [set_solver|]. apply HS in Hq. set_solver.
Qed.

(** Whatever the file, a keyring that is accepted counts each key once. *)
Lemma ParseKeyring_ok data keyring : ParseKeyring data = Some keyring → keyring_ok keyring.
Proof.
  unfold ParseKeyring. destruct (Decode _ _ _ _) as [|v]; [done|]. destruct (_ =? _)%nat; [done|].
  intros E. apply (keyring_loop_ok _ _ _ _ E); [|by intros k p Hk%lookup_empty_Some].
  split; [apply map_Forall_empty|]. intros k1 k2 p Hk. by apply lookup_empty_Some in Hk.
Qed.

Lemma split_settings k topology :
  0 < k < 2 ^ 63 → newline ∉ sb topology →
  split_on newline (QuorumSettings k topology) = [sb "quorum-min=" ++ sb (Itoa k); sb "topology=" ++ sb topology; []].
Proof.
  intros Hk HN.
  assert (newline ∉ sb "quorum-min=" ++ sb (Itoa k)) as HN1.
  { rewrite not_elem_of_app. split; [by apply (bool_decide_unpack _); vm_compute|]. rewrite sb_Itoa. intros Hin.
    pose proof (json_int_digits k) as HD. rewrite Forall_forall in HD. by destruct (HD _ Hin). }
  assert (newline ∉ sb "topology=" ++ sb topology) as HN2.
  { rewrite not_elem_of_app. split; [by apply (bool_decide_unpack _); vm_compute|done]. }
  assert (QuorumSettings k topology = (sb "quorum-min=" ++ sb (Itoa k)) ++ newline :: (sb "topology=" ++ sb topology) ++ newline :: []) as ->
    by (unfold QuorumSettings; by rewrite <-!app_assoc).
  rewrite split_on_app by done. by rewrite split_on_app.
Qed.

(** The settings a daemon commits are read back. *)
Lemma settings_roundtrip k topology :
  0 < k < 2 ^ 63 → newline ∉ sb topology → carriage ∉ sb topology → Z.of_nat (slen topology) < 65000 →
  ParseQuorumSettings (QuorumSettings k topology) = Some k.
Proof.
  intros Hk HN HCR HL. unfold ParseQuorumSettings, scan_lines. rewrite split_settings by done.
  pose proof (slen_Itoa k Hk) as HI.
  assert (carriage ∉ sb "quorum-min=" ++ sb (Itoa k)) as HC1.
  { rewrite not_elem_of_app. split; [by apply (bool_decide_unpack _); vm_compute|]. rewrite sb_Itoa. intros Hin.
    pose proof (json_int_digits k) as HD. rewrite Forall_forall in HD. by destruct (HD _ Hin). }
  assert (carriage ∉ sb "topology=" ++ sb topology) as HC2.
  { rewrite not_elem_of_app. split; [by apply (bool_decide_unpack _); vm_compute|done]. }
  assert (length (sb "quorum-min=" ++ sb (Itoa k)) < maxScanTokenSize)%nat as HM1.
  { rewrite length_app, !length_sb. apply Nat2Z.inj_lt. change (Z.of_nat maxScanTokenSize) with 65536. change (slen "quorum-min=") with 11%nat. lia. }
  assert (length (sb "topology=" ++ sb topology) < maxScanTokenSize)%nat as HM2.
  { rewrite length_app, !length_sb. apply Nat2Z.inj_lt. change (Z.of_nat maxScanTokenSize) with 65536. change (slen "topology=") with 9%nat. lia. }
  assert (scan_parts [sb "quorum-min=" ++ sb (Itoa k); sb "topology=" ++ sb topology; []] =
    [sb "quorum-min" ++ Byte.x3d :: sb (Itoa k); sb "topology" ++ Byte.x3d :: sb topology]) as ->.
  { apply Nat.leb_gt in HM1, HM2. cbn [scan_parts]. rewrite HM1, HM2, !drop_cr_plain by done. done. }
  cbn [settings_loop]. rewrite !cut_byte_app by (by apply (bool_decide_unpack _); vm_compute). cbn [mbind option_bind].
  rewrite (bool_decide_eq_true_2 (sb "quorum-min" = sb "quorum-min")), (bool_decide_eq_false_2 (sb "topology" = sb "quorum-min")) by done.
  rewrite bs_sb, Atoi_Itoa by lia. cbn [mbind option_bind]. by rewrite (proj2 (Z.ltb_ge _ _)) by lia.
Qed.

(** A condition names its transition. *)
Lemma TransitionCondition_inj base from1 to1 from2 to2 :
  length from1 = length from2 → TransitionCondition base from1 to1 = TransitionCondition base from2 to2 → from1 = from2 ∧ to1 = to2.
Proof.
  intros HL E. unfold TransitionCondition in E. apply (f_equal sb) in E. rewrite !sb_app in E.
  apply app_inv_head in E. apply app_inv_head in E. apply app_inj_len in E as [E1 E].
  2: { rewrite !length_sb. pose proof (hex_DecodeString_length _ _ (hex_roundtrip from1)). pose proof (hex_DecodeString_length _ _ (hex_roundtrip from2)). lia. }
  apply app_inv_head in E. apply (inj sb) in E1, E. apply (f_equal hex_DecodeString) in E1, E. rewrite !hex_roundtrip in E1, E.
  by injection E1 as ->; injection E as ->.
Qed.

(** A signature for one transition is worthless for another: the signed messages differ. *)
Lemma message_for_one_transition cellID from1 to1 from2 to2 e1 e2 :
  (slen cellID ≤ 255)%nat → length from1 = 32%nat → length to1 = 32%nat → length from2 = 32%nat → length to2 = 32%nat →
  in_i64 (Unix e1) → in_i64 (Unix e2) →
  QuorumMessage (TransitionCondition conditionProvisioningTransition from1 to1) cellID e1 =
    QuorumMessage (TransitionCondition conditionProvisioningTransition from2 to2) cellID e2 → from1 = from2 ∧ to1 = to2 ∧ Unix e1 = Unix e2.
Proof.
  intros HC L1 L2 L3 L4 I1 I2 E.
  assert (∀ f t, length f = 32%nat → length t = 32%nat → Z.of_nat (slen (TransitionCondition conditionProvisioningTransition f t)) < 65536) as HB.
  { intros f x Hf Hx. unfold TransitionCondition. rewrite <-length_sb, !sb_app, !length_app, !length_sb.
    rewrite (hex_DecodeString_length _ _ (hex_roundtrip f)), (hex_DecodeString_length _ _ (hex_roundtrip x)), Hf, Hx. vm_compute. done. }
  apply QuorumMessage_injective in E as (E & _ & He); [|by apply HB..|lia|lia|done|done].
  apply TransitionCondition_inj in E as [-> ->]; [done|congruence].
Qed.

Lemma parse_extra_plain items out files :
  parse_extra items out = inr files → Forall (λ f, kept f = false) out → Forall (λ f, kept f = false) files.
Proof.
  revert out. induction items as [|item items IH]; intros out E HF; cbn [parse_extra] in E; [by injection E as <-|].
  destruct (bool_decide _); [by eapply IH|]. destruct (extra_entry _) as [name path]. destruct (bool_decide _); [done|].
  apply (IH _ E), Forall_app_2; [done|]. by constructor.
Qed.

Lemma filter_plain files : Forall (λ f, kept f = false) files → filter (λ f, kept f = true) files = [].
Proof. induction 1 as [|f files Hf HF IH]; [done|]. by rewrite filter_cons_False by congruence. Qed.

Section pepd.
Context `{!CryptoLaws, SliceSort, Env, CellKey, !CellKeyLaws}.

Lemma pepd_guard_spec abs d i getenv proof now g :
  pepd_guard abs d i getenv proof now = inr g →
  guard_of (in_cellID i) "pepd" g ∧ (∀ n, n = ProvisioningQuorumKeyringName ∨ n = ProvisioningQuorumSettingsName → pg_keeps g n) ∧
  pepdProvisioningFiles i getenv = inr (pg_files g) ∧
  pg_authorize g = Some (NewProvisioningAuthorizer conditionProvisioningTransition (in_cellID i) (in_quorumKeyring i) (in_quorumMin i)
    (if bool_decide (getenv "TBP_PROVISIONING_TRANSITION_PROOF_FILE" = "") then None else Some proof) now).
Proof.
  unfold pepd_guard. destruct (pepdProvisioningFiles i getenv) as [e|files] eqn:Ef; [done|]. intros E.
  assert (p_cellID (pg_prod g) = in_cellID i ∧ pg_component g = "pepd" ∧ pg_files g = files ∧
    pg_authorize g = Some (NewProvisioningAuthorizer conditionProvisioningTransition (in_cellID i) (in_quorumKeyring i) (in_quorumMin i)
      (if bool_decide (getenv "TBP_PROVISIONING_TRANSITION_PROOF_FILE" = "") then None else Some proof) now)) as (HC & HP & HF & HA).
  { unfold NewProvisioningGuard in E. repeat (case_match; try discriminate E); injection E as <-; done. }
  rewrite HF. unfold pepdProvisioningFiles, ParseProvisioningExtra in Ef. destruct (parse_extra _ _) as [|extra] eqn:Ex; [done|].
  injection Ef as <-. apply parse_extra_plain in Ex; [|constructor]. split_and!; [split_and!|..]; try done.
  - rewrite HF. change (?a :: ?b :: ?c :: ?d :: extra) with ([a; b; c; d] ++ extra). rewrite filter_app, length_app.
    rewrite (filter_plain extra Ex). vm_compute. lia.
  - intros n [->| ->]; unfold pg_keeps; rewrite HF; [exists (mkProvisioningFile ProvisioningQuorumKeyringName (in_quorumKeyringFile i) true None)|
      exists (mkProvisioningFile ProvisioningQuorumSettingsName "" false (Some (QuorumSettings (in_quorumMin i) (in_topology i))))];
      (split; [set_solver|done]).
Qed.

(** ** The starts of pepd *)

(** One start: the machine, the configuration and its environment, what the file of the proof holds, the reading of the clock. *)
Record pepd_start := mkPepdStart {
  sp_boot : boot_env; sp_in : provisioningInputs; sp_env : string → string; sp_proof : option quorumProofFile; sp_now : Z;
  sp_abs : string → option string }.

Definition to_start (s : pepd_start) : boot_env * (prov_error + ProvisioningGuard) :=
  (sp_boot s, pepd_guard (sp_abs s) (be_disk (sp_boot s)) (sp_in s) (sp_env s) (sp_proof s) (sp_now s)).

Definition pepd_setup (s : pepd_start) : wit → trace → option prov_error * wit * trace :=
  setupProvisioning (sp_abs s) (sp_boot s) (sp_in s) (sp_env s) (sp_proof s) (sp_now s).

(** The file of the witness that a start reads and writes. *)
Definition witness_path (s : pepd_start) : string := sp_env s "TBP_PROVISIONING_WITNESS_FILE".

(** The starts over the files of the witnesses, each start on the one its environment names; a start whose path is empty reads and
    changes none. *)
Fixpoint pepd_starts (ss : list pepd_start) (ws : gmap string wit) (t : trace) :
    list (option prov_error) * gmap string wit * trace :=
  match ss with
  | [] => ([], ws, t)
  | s :: ss =>
      let '(res, w1, t1) := pepd_setup s (default WitAbsent (ws !! witness_path s)) t in
      let '(rs, ws2, t2) := pepd_starts ss (<[witness_path s := w1]> ws) t1 in
      (res :: rs, ws2, t2)
  end.

(** The measure is not switched off, the witness is in the file [path], and the settings are those pepd can read from its environment. *)
Definition measured_start (cellID path : string) (s : pepd_start) : Prop :=
  sp_env s "TBP_PROVISIONING_DISABLED_DEV_UNSAFE" ≠ "1" ∧ witness_path s = path ∧ in_cellID (sp_in s) = cellID ∧ 0 < in_quorumMin (sp_in s) < 2 ^ 63 ∧
  (in_topology (sp_in s) = "mono" ∨ in_topology (sp_in s) = "multi").

Lemma parse_extra_config items out e : parse_extra items out = inl e → e = ErrProvisioningConfig.
Proof.
  revert out. induction items as [|item items IH]; intros out E; cbn [parse_extra] in E; [done|].
  destruct (bool_decide _); [by eapply IH|]. destruct (extra_entry _) as [name path]. destruct (bool_decide _); [by injection E as <-|by eapply IH].
Qed.

Lemma setup_is_start s w t : sp_env s "TBP_PROVISIONING_DISABLED_DEV_UNSAFE" ≠ "1" → pepd_setup s w t = start_one (to_start s) w t.
Proof.
  intros HD. unfold pepd_setup, setupProvisioning, start_one, to_start. cbn [fst snd]. rewrite bool_decide_eq_false_2 by done.
  destruct (bool_decide_reflect (sp_env s "TBP_PROVISIONING_WITNESS_FILE" = "")) as [HW|_]; [|done].
  unfold pepd_guard, pepdProvisioningFiles, ParseProvisioningExtra. destruct (parse_extra _ _) as [e|extra] eqn:Ex.
  { by apply parse_extra_config in Ex as ->. }
  unfold NewProvisioningGuard. rewrite HW. destruct (_ || _); [done|]. destruct (_ || _); [done|]. by rewrite bool_decide_eq_true_2.
Qed.

Lemma pepd_starts_are cellID path ss ws t rs ws' t' :
  Forall (measured_start cellID path) ss → pepd_starts ss ws t = (rs, ws', t') →
  starts (to_start <$> ss) (default WitAbsent (ws !! path)) t = (rs, default WitAbsent (ws' !! path), t').
Proof.
  intros HF. revert ws t rs. induction HF as [|s ss (HD & HP & _) HF IH]; intros ws t rs; [by intros [= <- <- <-]|].
  rewrite fmap_cons. cbn [pepd_starts starts]. rewrite HP, setup_is_start by done. destruct (start_one _ _ t) as [[r w1] t1]. destruct (pepd_starts ss _ t1) as [[rs1 ws1] t2] eqn:E.
  intros [= <- <- <-]. apply IH in E. rewrite lookup_insert_eq in E. simpl in E. by rewrite E.
Qed.

(** The file [n] of pepd has the bytes [c] at this start. *)
Definition pepd_file (s : pepd_start) (n : string) (c : bytes) : Prop :=
  ∃ files, pepdProvisioningFiles (sp_in s) (sp_env s) = inr files ∧ has_file (be_disk (sp_boot s)) files n c.

(** What pepd commits as its settings. *)
Lemma pepd_settings s files digest per auths c :
  pepdProvisioningFiles (sp_in s) (sp_env s) = inr files → measureProvisioning (be_disk (sp_boot s)) files = inr (digest, per, auths) →
  has_file (be_disk (sp_boot s)) files ProvisioningQuorumSettingsName c → c = QuorumSettings (in_quorumMin (sp_in s)) (in_topology (sp_in s)).
Proof.
  intros Hf Hm (f & Hin & Hn & Hc). apply measure_NoDup in Hm.
  assert (f = mkProvisioningFile ProvisioningQuorumSettingsName "" false (Some (QuorumSettings (in_quorumMin (sp_in s)) (in_topology (sp_in s))))) as ->.
  { unfold pepdProvisioningFiles in Hf. destruct (ParseProvisioningExtra _) as [|extra]; [done|]. injection Hf as <-.
    apply list_elem_of_lookup in Hin as [j Hj]. assert (j = 2%nat) as ->; [|by injection Hj as <-].
    eapply NoDup_lookup; [exact Hm|rewrite list_lookup_fmap, Hj; simpl; by rewrite Hn|done]. }
  unfold measured_content in Hc. simpl in Hc. destruct (_ <? _); [done|]. by injection Hc as <-.
Qed.

(** Enough controllers of a keyring signed this transition of pepd. *)
Definition transition_signed (cellID : string) (keyring : gmap bytes bytes) (k : Z) (from to : bytes) (file : option quorumProofFile) : Prop :=
  ∃ pf sigs kids, file = Some pf ∧ mapM wire_signature (qf_Signatures pf) = Some sigs ∧ NoDup kids ∧ k ≤ Z.of_nat (length kids) ∧
    ∀ kid, kid ∈ kids → controller_signed keyring
      (QuorumMessage (TransitionCondition conditionProvisioningTransition from to) cellID (of_Unix (qf_Expiry pf))) sigs kid.

Lemma VerifyQuorumProofFile_signed file from to cellID keyring k now :
  VerifyQuorumProofFile file (TransitionCondition conditionProvisioningTransition from to) cellID keyring k now = true →
  transition_signed cellID keyring k from to file.
Proof.
  unfold VerifyQuorumProofFile, NewSignatureQuorumVerifier. destruct file as [pf|]; [|done]. destruct (mapM _ _) as [sigs|] eqn:Es; [|done].
  destruct (bool_decide _); [done|]. destruct (_ =? _)%nat; [done|]. destruct (_ || _); [done|]. destruct (existsb _ _); [done|].
  intros (_ & _ & kids & HN & HL & HK)%verify_quorum_exact. by exists pf, sigs, kids.
Qed.

(** C33: the provisioning of pepd changes only with the agreement of the controllers it last started with. Take any history of starts from
    an absent witness, all with the measure enabled and the same path for the witness, which nothing else touches in between; with any
    disks, configurations, failures of the key, the log or the disk, and any refused starts; and two starts let through with none in
    between. Either the second one found the same provisioning files with the same bytes as the first, no more and no less, or a proof
    carries the signatures of at least [k] distinct controllers on the very transition between the two measures, where [k] is the
    threshold and the controllers are the keyring, of distinct public keys, of the FIRST of the two starts, whatever the second one found
    on its disk or in its environment (unless two messages with one SHA-256 digest are at hand). *)
Theorem provisioning_change_needs_quorum cellID path ws ss1 s1 ss2 s2 t rs1 rs2 ws' t' :
  name_ok cellID → Forall (measured_start cellID path) (ss1 ++ s1 :: ss2 ++ [s2]) → ws !! path = None →
  pepd_starts (ss1 ++ s1 :: ss2 ++ [s2]) ws t = (rs1 ++ None :: rs2 ++ [None], ws', t') →
  length rs1 = length ss1 → Forall (λ r, r ≠ None) rs2 →
  same_files (pepd_file s1) (pepd_file s2) ∨
  sha256_collision ∨
  ∃ raw keyring from to, pepd_file s1 ProvisioningQuorumKeyringName raw ∧ ParseKeyring raw = Some keyring ∧ keyring_ok keyring ∧
    transition_signed cellID keyring (in_quorumMin (sp_in s1)) from to (sp_proof s2) ∧
    (∃ files per auths, pepdProvisioningFiles (sp_in s1) (sp_env s1) = inr files ∧ measureProvisioning (be_disk (sp_boot s1)) files = inr (from, per, auths)) ∧
    (∃ files per auths, pepdProvisioningFiles (sp_in s2) (sp_env s2) = inr files ∧ measureProvisioning (be_disk (sp_boot s2)) files = inr (to, per, auths)).
Proof.
  intros HC HF HW E HL HR. apply (pepd_starts_are cellID path) in E; [|done]. rewrite HW in E. simpl (default _ None) in E. rewrite !fmap_app, !fmap_cons, fmap_app in E. simpl in E.
  set (K := λ n, n = ProvisioningQuorumKeyringName ∨ n = ProvisioningQuorumSettingsName).
  destruct (next_start cellID "pepd" K (to_start <$> ss1) (to_start s1).1 (to_start s1).2 (to_start <$> ss2) (to_start s2).1 (to_start s2).2
    t rs1 rs2 (default WitAbsent (ws' !! path)) t') as (g1 & g2 & E1 & E2 & HX); [done|split; vm_compute; lia| |exact E|by rewrite length_fmap|done|].
  { replace ((to_start <$> ss1) ++ _) with (to_start <$> (ss1 ++ s1 :: ss2 ++ [s2])) by (by rewrite !fmap_app, !fmap_cons, fmap_app).
    apply Forall_fmap. eapply Forall_impl; [exact HF|]. intros s (_ & _ & <- & _) g Hg. simpl in Hg.
    apply pepd_guard_spec in Hg as (HG & HK & _). by split. }
  apply pepd_guard_spec in E1 as (_ & _ & F1 & _), E2 as (_ & _ & F2 & A2). simpl in HX. destruct HX as [HX|HX].
  { left. intros n c. destruct (HX n c) as [HX1 HX2]. split.
    - intros (files & Hf & Hc). rewrite F1 in Hf. injection Hf as <-. destruct (HX1 Hc) as [Hc1|]; [left|by right]. by exists (pg_files g2).
    - intros (files & Hf & Hc). rewrite F2 in Hf. injection Hf as <-. destruct (HX2 Hc) as [Hc1|]; [left|by right]. by exists (pg_files g1). }
  right. destruct HX as (a & prev & from & to & Ha & Hau & (per1 & au1 & M1) & (per2 & au2 & M2) & HP & HK).
  rewrite A2 in Ha. injection Ha as <-. apply Forall_app in HF as [_ HF]. apply Forall_cons in HF as [(_ & _ & HC1 & HQ1 & HT1) HF]. apply Forall_app in HF as [_ HF].
  apply Forall_cons in HF as [(_ & _ & HC2 & _) _].
  unfold NewProvisioningAuthorizer in Hau. destruct (bool_decide _); [done|].
  destruct (HK ProvisioningQuorumKeyringName ltac:(by left)) as [raw Hraw], (HK ProvisioningQuorumSettingsName ltac:(by right)) as [rs Hrs].
  rewrite Hraw, Hrs in Hau. destruct (HP _ _ Hraw) as [Hfr|]; [|by left]. destruct (HP _ _ Hrs) as [Hfs|]; [|by left]. right.
  destruct (ParseKeyring raw) as [keyring|] eqn:Ek; [|done]. rewrite (pepd_settings s1 (pg_files g1) from per1 au1 rs F1 M1 Hfs) in Hau.
  rewrite settings_roundtrip in Hau by (first [done | destruct HT1 as [-> | ->]; first [by apply (bool_decide_unpack _); vm_compute | vm_compute; done]]).
  apply VerifyQuorumProofFile_signed in Hau. rewrite HC2 in Hau.
  exists raw, keyring, from, to. split_and!; [by exists (pg_files g1)|done|by apply ParseKeyring_ok in Ek|done|by do 3 eexists|by do 3 eexists].
Qed.
End pepd.
End authorizer.
