(* ===== verification/Posture.v ===== *)
(** The security switches of pepd: [src/pep/posture.go], [src/pep/opa_tuning.go], and the readers of the environment in
    [src/pep/cmd/pepd] (opa_setup.go, telemetry.go, main.go, provisioning.go).

    pepd commits its switches in its witness as one file, [security-posture]. Each is read from the environment by the function the
    daemon itself uses; a value that cannot be read is an error, never a default. *)
From S2P Require Import Prelude.
From S2P Require Import Json.
From S2P Require Import GoStrings.
From S2P Require Import AsyncWriter.

Local Open Scope Z_scope.

Abbreviation Posture := (gmap string string).

Definition OnOff (b : bool) : string := if b then "on" else "off".

(** One line of the file. *)
Definition posture_line (kv : string * string) : bytes := sb kv.1 ++ Byte.x3d :: sb kv.2 ++ [newline].

(** The check of an entry; the source panics when it fails. *)
Definition posture_entry_ok (kv : string * string) : bool :=
  negb (bool_decide (kv.1 = "")) && negb (bool_decide (kv.2 = "")) &&
  negb (existsb (λ b, bool_decide (b = Byte.x3d ∨ b = newline ∨ b = carriage)) (sb kv.1)) &&
  negb (existsb (λ b, bool_decide (b = newline ∨ b = carriage)) (sb kv.2)).

(** [Posture.Bytes]; [None] is the panic. *)
Definition Posture_Bytes `{MapOrder, SliceSort} (p : Posture) : option bytes :=
  let entries := sorted_entries "" p in
  if forallb posture_entry_ok entries then Some (concat (posture_line <$> entries)) else None.

(** ** The readers *)

Definition DefaultOPAMaxInflight : Z := 2.
Definition DefaultOPAMaxQueue : Z := 16.
Definition DefaultOPASubjectShare : Z := 25.
Definition DefaultOPAStallWindow : Z := 3 * second.
Definition minOPAStallWindow : Z := 500 * millisecond.
Definition maxOPAStallWindow : Z := 10 * minute.

Record OPATuning := mkOPATuning { tn_MaxInflight : Z; tn_MaxQueue : Z; tn_SubjectShare : Z; tn_StallWindow : Z }.

Section readers.
Context (getenv : string → string).

(** [intIn] and [intRange]: the default when the variable is empty, an integer within bounds otherwise. *)
Definition int_in (name : string) (def lo hi : Z) : option Z :=
  let s := getenv name in
  if bool_decide (s = "") then Some def
  else n ← Atoi s; if (n <? lo) || (hi <? n) then None else Some n.

(** An integer of at least [lo], or the default. *)
Definition int_from (name : string) (def lo : Z) : option Z :=
  let s := getenv name in
  if bool_decide (s = "") then Some def
  else n ← Atoi s; if n <? lo then None else Some n.

Definition stall_window : option Z :=
  let s := getenv "TBP_OPA_STALL_WINDOW_MS" in
  if bool_decide (s = "") then Some DefaultOPAStallWindow
  else
    ms ← Atoi s;
    if negb (ms =? 0) && ((ms <? minOPAStallWindow / millisecond) || (maxOPAStallWindow / millisecond <? ms)) then None
    else Some (ms * millisecond).

Definition OPATuningFromEnv : option OPATuning :=
  inflight ← int_in "TBP_OPA_MAX_INFLIGHT" DefaultOPAMaxInflight 0 256;
  queue ← int_in "TBP_OPA_MAX_QUEUE" DefaultOPAMaxQueue 0 4096;
  share ← int_in "TBP_OPA_SUBJECT_SHARE" DefaultOPASubjectShare 1 100;
  window ← stall_window;
  if (inflight =? 0) && (negb (bool_decide (getenv "TBP_OPA_MAX_QUEUE" = "")) || negb (bool_decide (getenv "TBP_OPA_SUBJECT_SHARE" = "")))
  then None else Some (mkOPATuning inflight queue share window).

Definition defaultOPATripAfter : Z := 3.
Definition opaTripAfter : option Z := int_from "TBP_OPA_TRIP_AFTER" defaultOPATripAfter 1.

(** [opaAutoClearConfig]; the interval is zero when it is not given. *)
Definition opaAutoClearConfig (defaultProbes : Z) : option (Z * Z) :=
  probes ← int_from "TBP_OPA_AUTOCLEAR_PROBES" defaultProbes 0;
  ms ← int_from "TBP_OPA_AUTOCLEAR_INTERVAL_MS" 0 1;
  Some (probes, i64 (ms * millisecond)).

Record telemetryConfig := mkTelemetryConfig { tc_enabled : bool; tc_interval : Z; tc_window : Z; tc_collector : string }.

(** [telemetryFromEnv]; [host_port] says whether [net.SplitHostPort] accepts an address. *)
Definition telemetryFromEnv (host_port : string → bool) (defaultInterval : Z) : option telemetryConfig :=
  let v := getenv "TBP_TELEMETRY" in
  if bool_decide (v = "") || bool_decide (v = "0") then
    if existsb (λ k, negb (bool_decide (getenv k = ""))) ["TBP_TELEMETRY_INTERVAL_MS"; "TBP_TELEMETRY_WINDOW_S"; "TBP_TELEMETRY_COLLECTOR"]
    then None else Some (mkTelemetryConfig false defaultInterval minute "")
  else if negb (bool_decide (v = "1")) then None
  else
    ms ← int_in "TBP_TELEMETRY_INTERVAL_MS" 10000 1000 3600000;
    ws ← int_in "TBP_TELEMETRY_WINDOW_S" 60 1 3600;
    let c := getenv "TBP_TELEMETRY_COLLECTOR" in
    if negb (bool_decide (c = "")) && negb (host_port c) then None
    else Some (mkTelemetryConfig true (ms * millisecond) (ws * second) c).

(** [durabilityFromEnv]: whether the writer is asynchronous, and its window. *)
Definition durabilityFromEnv : option (bool * Z) :=
  let mode := getenv "TBP_DURABILITY" in
  async ← (if bool_decide (mode = "") || bool_decide (mode = "async-bounded") then Some true
           else if bool_decide (mode = "sync") then Some false else None);
  let s := getenv "TBP_DURABILITY_WINDOW_MS" in
  if bool_decide (s = "") then Some (async, DefaultOpposabilityWindow)
  else ms ← Atoi s; if ms <? 1 then None else Some (async, i64 (ms * millisecond)).

Definition restrictQuorumFromEnv : option Z := int_from "TBP_MODE_RESTRICT_QUORUM_MIN" 1 1.

Definition topologyName (multi : bool) : string := if multi then "multi" else "mono".

Definition topologyFromEnv : option bool :=
  let t := getenv "TBP_TOPOLOGY" in
  if bool_decide (t = "mono") then Some false else if bool_decide (t = "multi") then Some true else None.

(** What [pepdPosture] reads, before it is written as a posture. *)
Record switches := mkSwitches {
  sw_ano : bool; sw_opa : bool; sw_trip : Z; sw_autoclear : bool; sw_admission : bool; sw_stall : bool; sw_telemetry : bool;
  sw_async : bool; sw_restrict : Z }.

Definition read_switches (host_port : string → bool) (defaultProbes defaultInterval : Z) : option switches :=
  trip ← opaTripAfter;
  '(probes, _) ← opaAutoClearConfig defaultProbes;
  tuning ← OPATuningFromEnv;
  tele ← telemetryFromEnv host_port defaultInterval;
  '(async, _) ← durabilityFromEnv;
  restrict ← restrictQuorumFromEnv;
  Some (mkSwitches (negb (bool_decide (getenv "TBP_PROXY_ANO_SOCKET" = ""))) (negb (bool_decide (getenv "TBP_OPA_DISABLED_DEV_UNSAFE" = "1")))
          trip (0 <? probes) (0 <? tn_MaxInflight tuning) (0 <? tn_StallWindow tuning) (tc_enabled tele) async restrict).
End readers.

(** [OPAPosture]. *)
Definition OPAPosture (admission stall : bool) (p : Posture) : Posture :=
  <["opa-stall-detection" := OnOff stall]> (<["opa-admission" := OnOff admission]> p).

Definition posture_of (s : switches) : Posture :=
  <["mode-restrict-quorum" := Itoa (sw_restrict s)]> (
  <["durability" := if sw_async s then "async-bounded" else "sync"]> (
  <["telemetry" := OnOff (sw_telemetry s)]> (
  OPAPosture (sw_admission s) (sw_stall s) (
  <["opa-autoclear" := OnOff (sw_autoclear s)]> (
  <["opa-trip-after" := Itoa (sw_trip s)]> (
  <["opa" := OnOff (sw_opa s)]> (
  <["ano-proxy" := OnOff (sw_ano s)]> ∅))))))).

Inductive posture_result := PostureError | PosturePanic | PostureBytes (b : bytes).

Definition pepdPosture `{MapOrder, SliceSort} (getenv : string → string) (host_port : string → bool) (defaultProbes defaultInterval : Z) :
    posture_result :=
  match read_switches getenv host_port defaultProbes defaultInterval with
  | None => PostureError
  | Some s => match Posture_Bytes (posture_of s) with None => PosturePanic | Some b => PostureBytes b end
  end.

(** ** What the bytes say *)

Lemma existsb_not {A} (P : A → Prop) `{!∀ x, Decision (P x)} (l : list A) : existsb (λ x, bool_decide (P x)) l = false → Forall (λ x, ¬ P x) l.
Proof.
  intros E. apply Forall_forall. intros x Hx HP. apply not_true_iff_false in E. apply E, existsb_exists. exists x.
  split; [by apply list_elem_of_In|by apply bool_decide_eq_true].
Qed.

Lemma forallb_Forall {A} (f : A → bool) (l : list A) : forallb f l = true ↔ Forall (λ x, f x = true) l.
Proof. rewrite forallb_forall, Forall_forall. by setoid_rewrite list_elem_of_In. Qed.

Lemma posture_entry_spec kv : posture_entry_ok kv = true →
  Forall (λ b, b ≠ Byte.x3d) (sb kv.1) ∧ Forall (λ b, b ≠ newline) (sb kv.2).
Proof.
  unfold posture_entry_ok. rewrite !andb_true_iff, !negb_true_iff. intros [[[_ _] HK%existsb_not] HV%existsb_not].
  split; (eapply Forall_impl; [eassumption|]); naive_solver.
Qed.

Lemma posture_line_inj a b k1 k2 :
  posture_entry_ok a = true → posture_entry_ok b = true → posture_line a ++ k1 = posture_line b ++ k2 → a = b ∧ k1 = k2.
Proof.
  intros [Ka Va]%posture_entry_spec [Kb Vb]%posture_entry_spec E. unfold posture_line in E. rewrite <-!app_assoc in E. cbn [app] in E. rewrite <-!app_assoc in E.
  apply (span_prefix (λ b, b ≠ Byte.x3d)) in E as [E1 [= E]]; [|done|done|naive_solver|naive_solver].
  apply (span_prefix (λ b, b ≠ newline)) in E as [E2 [= E]]; [|done|done|naive_solver|naive_solver].
  apply (inj sb) in E1, E2. destruct a, b; simpl in *. by subst.
Qed.

Section bytes.
Context `{MapOrder, SliceSort}.

Lemma Posture_Bytes_inj p q b : Posture_Bytes p = Some b → Posture_Bytes q = Some b → p = q.
Proof.
  unfold Posture_Bytes. destruct (forallb _ (sorted_entries "" p)) eqn:Ep; [|done]. destruct (forallb _ (sorted_entries "" q)) eqn:Eq; [|done].
  intros [= <-] [= E]. rewrite <-(sorted_entries_map "" p), <-(sorted_entries_map "" q). f_equal. symmetry.
  apply (nonempty_code_concat posture_line (λ kv, posture_entry_ok kv = true)); [exact posture_line_inj| | | |exact E].
  - intros x _. unfold posture_line. by destruct (sb x.1).
  - by apply forallb_Forall.
  - by apply forallb_Forall.
Qed.

#[global] Instance Itoa_inj : Inj (=) (=) Itoa.
Proof. intros n m E. apply (inj json_int). by rewrite <-!sb_Itoa, E. Qed.

Definition switch_values (s : switches) : list (string * string) :=
  [("mode-restrict-quorum", Itoa (sw_restrict s)); ("durability", if sw_async s then "async-bounded" else "sync");
   ("telemetry", OnOff (sw_telemetry s)); ("opa-stall-detection", OnOff (sw_stall s)); ("opa-admission", OnOff (sw_admission s));
   ("opa-autoclear", OnOff (sw_autoclear s)); ("opa-trip-after", Itoa (sw_trip s)); ("opa", OnOff (sw_opa s)); ("ano-proxy", OnOff (sw_ano s))].

Lemma posture_of_list s : posture_of s = list_to_map (switch_values s).
Proof. done. Qed.

#[local] Instance OnOff_inj : Inj (=) (=) OnOff.
Proof. by intros [] []. Qed.

Lemma switch_values_inj s1 s2 : switch_values s1 = switch_values s2 → s1 = s2.
Proof.
  intros E. injection E as E1 E2 E3 E4 E5 E6 E7 E8 E9. apply (inj Itoa) in E1, E7. apply (inj OnOff) in E3, E4, E5, E6, E8, E9.
  assert (sw_async s1 = sw_async s2) as E2' by (by destruct (sw_async s1), (sw_async s2)). destruct s1, s2; simpl in *. by subst.
Qed.

Lemma same_keys_eq (l1 l2 : list (string * string)) :
  NoDup l1.*1 → l1.*1 = l2.*1 → list_to_map (M := Posture) l1 = list_to_map l2 → l1 = l2.
Proof.
  intros HN HK HM. apply list_eq. intros i. destruct (l1 !! i) as [[k v]|] eqn:E1.
  - assert ((l2.*1) !! i = Some k) as E2 by (rewrite <-HK, list_lookup_fmap, E1; done). rewrite list_lookup_fmap in E2.
    destruct (l2 !! i) as [[k' v']|] eqn:E3; [|done]. injection E2 as ->. do 2 f_equal.
    assert (list_to_map (M := Posture) l1 !! k = Some v) as M1 by (apply elem_of_list_to_map_1; [done|by eapply list_elem_of_lookup_2]).
    assert (list_to_map (M := Posture) l2 !! k = Some v') as M2 by (apply elem_of_list_to_map_1; [by rewrite <-HK|by eapply list_elem_of_lookup_2]).
    rewrite HM in M1. congruence.
  - apply lookup_ge_None in E1. symmetry. apply lookup_ge_None. apply (f_equal length) in HK. rewrite !length_fmap in HK. lia.
Qed.

Lemma switch_names s : NoDup (switch_values s).*1.
Proof. change (switch_values s).*1 with (switch_values (mkSwitches true true 0 true true true true true 0)).*1. by apply (bool_decide_unpack _); vm_compute. Qed.

Lemma posture_of_inj s1 s2 : posture_of s1 = posture_of s2 → s1 = s2.
Proof. rewrite !posture_of_list. intros E. apply switch_values_inj, same_keys_eq; [apply switch_names|done|done]. Qed.

Lemma Itoa_entry name n : posture_entry_ok (name, "on") = true → posture_entry_ok (name, Itoa n) = true.
Proof.
  unfold posture_entry_ok. cbn [fst snd]. rewrite !andb_true_iff. intros [[[-> _] ->] _]. split_and!; try done.
  - rewrite bool_decide_eq_false_2; [done|]. intros E. pose proof (f_equal sb E) as E'. rewrite sb_Itoa in E'. unfold json_int in E'.
    destruct (to_int_nonnil n) as [N1 N2]. destruct (Z.to_int n) as [[]|[]]; done.
  - apply negb_true_iff. destruct (existsb _ _) eqn:Ex; [|done]. apply existsb_exists in Ex as (b & Hb & Hd).
    apply bool_decide_eq_true in Hd. apply list_elem_of_In in Hb. rewrite sb_Itoa in Hb.
    pose proof (json_int_digits n) as HD. rewrite Forall_forall in HD. by destruct (HD b Hb), Hd; subst.
Qed.

Lemma OnOff_entry name b : posture_entry_ok (name, "on") = true → posture_entry_ok (name, OnOff b) = true.
Proof. intros E. destruct b; [done|]. unfold posture_entry_ok in *. cbn [fst snd] in *. rewrite !andb_true_iff in *. destruct E as [[[-> _] ->] _]. by vm_compute. Qed.

Lemma posture_never_panics s : is_Some (Posture_Bytes (posture_of s)).
Proof.
  unfold Posture_Bytes. rewrite (proj2 (forallb_Forall _ _)); [by eexists|]. apply sorted_entries_Forall. intros k v Hk.
  rewrite posture_of_list in Hk. apply elem_of_list_to_map_2 in Hk. revert Hk. generalize (k, v). apply Forall_forall. unfold switch_values.
  repeat apply Forall_cons_2; try (apply Forall_nil_2); try (apply OnOff_entry; vm_compute; reflexivity); try (apply Itoa_entry; vm_compute; reflexivity).
  by destruct (sw_async s).
Qed.
End bytes.

(** The committed posture says which switches are on. Reading the environment of pepd never panics; and when two environments commit
    the same bytes, every switch has the same value in both: the anonymiser, the policy engine, its trip threshold, its automatic recovery,
    its queue, the detection of a stall, the telemetry, the durability of the log and the quorum that restricts the posture. So no
    change of a switch escapes the measure. *)
Theorem posture_commits_switches `{MapOrder, SliceSort} env1 env2 host_port probes interval :
  pepdPosture env1 host_port probes interval ≠ PosturePanic ∧
  ∀ b, pepdPosture env1 host_port probes interval = PostureBytes b → pepdPosture env2 host_port probes interval = PostureBytes b →
    read_switches env1 host_port probes interval = read_switches env2 host_port probes interval.
Proof.
  unfold pepdPosture. split.
  - destruct (read_switches env1 _ _ _) as [s|]; [|done]. by destruct (posture_never_panics s) as [b ->].
  - intros b. destruct (read_switches env1 _ _ _) as [s1|]; [|done]. destruct (read_switches env2 _ _ _) as [s2|]; [|done].
    destruct (Posture_Bytes (posture_of s1)) as [b1|] eqn:E1; [|done]. destruct (Posture_Bytes (posture_of s2)) as [b2|] eqn:E2; [|done].
    intros [= ->] [= ->]. by rewrite (posture_of_inj s1 s2) by (by eapply Posture_Bytes_inj).
Qed.
