(* ===== verification/GoJson.v ===== *)
(** What the sources use of Go's package encoding/json on raw bytes: [Encoder.Encode] of a string
    without HTML escapes, the token stream of a [Decoder] ([NextToken], [More], with [UseNumber]) and
    [json.Valid].

    A decoder is the bytes it has not read, the state of its token automaton and the states of the
    open arrays and objects. Strings are read as the package reads them: an escape is replaced by its
    character, a pair of surrogates by one character, a lone surrogate or a byte that is not UTF-8 by
    the replacement character. The last part shows that what [print] writes is read back. *)
From S2P Require Import Prelude.
From S2P Require Import Hex.
From S2P Require Import Json.

Local Open Scope Z_scope.

(** ** Runes *)

(** The replacement character U+FFFD. *)
Definition replacement : bytes := [Byte.xef; Byte.xbf; Byte.xbd].

(** One step of a range over a string: the bytes of a rune, or a byte that begins none. *)
Inductive rune := Rune (b : bytes) | BadRune.

(** [utf8.DecodeRune], with what follows. *)
Definition DecodeRune (s : bytes) : option (rune * bytes) :=
  match s with
  | [] => None
  | b0 :: s1 =>
      Some (if ascii b0 then (Rune [b0], s1)
            else match s1 with
                 | [] => (BadRune, s1)
                 | b1 :: s2 =>
                     if rune2 b0 b1 then (Rune [b0; b1], s2)
                     else match s2 with
                          | [] => (BadRune, s1)
                          | b2 :: s3 =>
                              if rune3 b0 b1 b2 then (Rune [b0; b1; b2], s3)
                              else match s3 with
                                   | [] => (BadRune, s1)
                                   | b3 :: s4 =>
                                       if rune4 b0 b1 b2 b3 then (Rune [b0; b1; b2; b3], s4) else (BadRune, s1)
                                   end
                          end
                 end)
  end.

(** The runes of a string; each takes at least one byte, so its length is enough fuel. *)
Fixpoint runes_fuel (n : nat) (s : bytes) : list rune :=
  match n with
  | O => []
  | S n => match DecodeRune s with None => [] | Some (r, s') => r :: runes_fuel n s' end
  end.
Definition string_runes (s : bytes) : list rune := runes_fuel (length s) s.

Definition rune_bytes (r : rune) : bytes := match r with Rune b => b | BadRune => replacement end.

(** The string with the replacement character for every byte that is not UTF-8. *)
Definition sanitize (s : bytes) : bytes := concat (rune_bytes <$> string_runes s).

(** [utf8.EncodeRune]. *)
Definition EncodeRune (u : Z) : bytes :=
  if u <? 0x80 then [z2b u]
  else if u <? 0x800 then [z2b (0xc0 + u / 64); z2b (0x80 + u mod 64)]
  else if u <? 0x10000 then [z2b (0xe0 + u / 4096); z2b (0x80 + u / 64 mod 64); z2b (0x80 + u mod 64)]
  else [z2b (0xf0 + u / 262144); z2b (0x80 + u / 4096 mod 64); z2b (0x80 + u / 64 mod 64); z2b (0x80 + u mod 64)].

(** ** Writing a string *)

(** A byte below 0x80, without the escapes of HTML. *)
Definition escape_ascii_plain (b : byte) : bytes :=
  if bool_decide (b = Byte.x3c) || bool_decide (b = Byte.x3e) || bool_decide (b = Byte.x26) then [b] else escape_ascii b.

Definition escape_rune (r : rune) : bytes :=
  match r with
  | Rune [b0] => escape_ascii_plain b0
  | Rune [b0; b1; b2] => escape3 b0 b1 b2
  | Rune b => b
  | BadRune => escape_bad
  end.

(** [Encoder.Encode] of a string after [SetEscapeHTML(false)], without its line feed. *)
Definition encode_string (s : bytes) : bytes := [quote] ++ concat (escape_rune <$> string_runes s) ++ [quote].
Arguments encode_string : simpl never.

(** ** Reading a scalar *)

Definition hex4 (h1 h2 h3 h4 : byte) : option Z :=
  a ← hex_value (Ascii.ascii_of_byte h1); b ← hex_value (Ascii.ascii_of_byte h2);
  c ← hex_value (Ascii.ascii_of_byte h3); d ← hex_value (Ascii.ascii_of_byte h4);
  Some (((a * 16 + b) * 16 + c) * 16 + d).

(** The escapes of one letter. *)
Definition simple_escape (b : byte) : option byte :=
  if bool_decide (b ∈ [quote; backslash; Byte.x2f]) then Some b
  else if bool_decide (b = Byte.x62) then Some Byte.x08
  else if bool_decide (b = Byte.x66) then Some Byte.x0c
  else if bool_decide (b = Byte.x6e) then Some Byte.x0a
  else if bool_decide (b = Byte.x72) then Some Byte.x0d
  else if bool_decide (b = Byte.x74) then Some Byte.x09
  else None.

Definition surrogate (u : Z) : bool := (0xd800 <=? u) && (u <=? 0xdfff).
(** [utf16.DecodeRune], when the two are a high and a low surrogate. *)
Definition surrogate_pair (u v : Z) : option Z :=
  if (0xd800 <=? u) && (u <? 0xdc00) && (0xdc00 <=? v) && (v <? 0xe000)
  then Some ((u - 0xd800) * 1024 + (v - 0xdc00) + 0x10000) else None.

Definition prepend (b : bytes) (o : option (bytes * bytes)) : option (bytes * bytes) :=
  prod_map (app b) id <$> o.

(** The text of a string up to its closing quote, and the bytes after it; [None] is a syntax error. *)
Fixpoint read_chars (s : bytes) : option (bytes * bytes) :=
  match s with
  | [] => None
  | c :: s1 =>
      if bool_decide (c = quote) then Some ([], s1)
      else if bool_decide (c = backslash) then
        match s1 with
        | [] => None
        | e :: s2 =>
            if bool_decide (e = Byte.x75) then
              match s2 with
              | h1 :: h2 :: h3 :: h4 :: s3 =>
                  match hex4 h1 h2 h3 h4 with
                  | None => None
                  | Some u =>
                      if surrogate u then
                        match s3 with
                        | b1 :: b2 :: g1 :: g2 :: g3 :: g4 :: s4 =>
                            match (if bool_decide ([b1; b2] = [backslash; Byte.x75]) then hex4 g1 g2 g3 g4 else None) ≫= surrogate_pair u with
                            | Some v => prepend (EncodeRune v) (read_chars s4)
                            | None => prepend replacement (read_chars s3)
                            end
                        | _ => prepend replacement (read_chars s3)
                        end
                      else prepend (EncodeRune u) (read_chars s3)
                  end
              | _ => None
              end
            else match simple_escape e with
                 | Some b => prepend [b] (read_chars s2)
                 | None => None
                 end
        end
      else if b2z c <? 32 then None
      else if ascii c then prepend [c] (read_chars s1)
      else match s1 with
           | [] => None
           | b1 :: s2 =>
               if rune2 c b1 then prepend [c; b1] (read_chars s2)
               else match s2 with
                    | [] => prepend replacement (read_chars s1)
                    | b2 :: s3 =>
                        if rune3 c b1 b2 then prepend [c; b1; b2] (read_chars s3)
                        else match s3 with
                             | [] => prepend replacement (read_chars s1)
                             | b3 :: s4 =>
                                 if rune4 c b1 b2 b3 then prepend [c; b1; b2; b3] (read_chars s4)
                                 else prepend replacement (read_chars s1)
                             end
                    end
           end
  end.

Definition digit (b : byte) : bool := between 48 57 b.

(** The digits at the front. *)
Fixpoint read_digits (s : bytes) : bytes * bytes :=
  match s with
  | b :: s' => if digit b then prod_map (cons b) id (read_digits s') else ([], s)
  | [] => ([], [])
  end.

(** A part that must have a digit. *)
Definition read_digits1 (s : bytes) : option (bytes * bytes) :=
  match read_digits s with ([], _) => None | r => Some r end.

Definition minus : byte := Byte.x2d.
Definition plus : byte := Byte.x2b.
Definition dot : byte := Byte.x2e.
Definition zero_digit : byte := Byte.x30.
Definition exp_mark (b : byte) : bool := bool_decide (b = Byte.x65) || bool_decide (b = Byte.x45).

Definition read_sign (s : bytes) : bytes * bytes :=
  match s with b :: s' => if bool_decide (b = minus) then ([b], s') else ([], s) | [] => ([], s) end.

Definition read_int (s : bytes) : option (bytes * bytes) :=
  match s with
  | b :: s' => if bool_decide (b = zero_digit) then Some ([b], s') else read_digits1 s
  | [] => None
  end.

Definition read_frac (s : bytes) : option (bytes * bytes) :=
  match s with
  | b :: s' => if bool_decide (b = dot) then prepend [b] (read_digits1 s') else Some ([], s)
  | [] => Some ([], s)
  end.

Definition read_exp (s : bytes) : option (bytes * bytes) :=
  match s with
  | b :: s' =>
      if exp_mark b then
        match s' with
        | c :: s2 => if bool_decide (c = minus) || bool_decide (c = plus) then prepend [b; c] (read_digits1 s2) else prepend [b] (read_digits1 s')
        | [] => None
        end
      else Some ([], s)
  | [] => Some ([], s)
  end.

Definition read_number (s : bytes) : option (bytes * bytes) :=
  let '(sg, s0) := read_sign s in
  '(i, s1) ← read_int s0; '(f, s2) ← read_frac s1; '(e, s3) ← read_exp s2;
  Some (sg ++ i ++ f ++ e, s3).

Definition read_word (w s : bytes) : option bytes :=
  if bool_decide (take (length w) s = w) then Some (drop (length w) s) else None.

(** ** The token stream *)

Inductive tokenState :=
  | tokenTopValue | tokenArrayStart | tokenArrayValue | tokenArrayComma
  | tokenObjectStart | tokenObjectKey | tokenObjectColon | tokenObjectValue | tokenObjectComma.
#[global] Instance tokenState_eq_dec : EqDecision tokenState.
Proof. solve_decision. Defined.

Record Decoder := mkDecoder { d_rest : bytes; d_state : tokenState; d_stack : list tokenState }.

Definition NewDecoder (s : bytes) : Decoder := mkDecoder s tokenTopValue [].

(** A number keeps its text, as [UseNumber] asks. *)
Inductive jtoken :=
  | OpenObj | CloseObj | OpenArr | CloseArr | StrTok (s : bytes) | NumTok (s : bytes) | BoolTok (b : bool) | NullTok.

Inductive token_result := TokenEOF | TokenSyntax | TokenOK (t : jtoken) (d : Decoder).

Definition json_space (b : byte) : bool := bool_decide (b ∈ [Byte.x20; Byte.x09; Byte.x0d; Byte.x0a]).

Definition tokenValueAllowed (st : tokenState) : bool :=
  match st with tokenTopValue | tokenArrayStart | tokenArrayValue | tokenObjectValue => true | _ => false end.

Definition tokenValueEnd (st : tokenState) : tokenState :=
  match st with
  | tokenArrayStart | tokenArrayValue => tokenArrayComma
  | tokenObjectValue => tokenObjectComma
  | st => st
  end.

(** [Decode] of a scalar into an interface. *)
Definition read_scalar (s : bytes) : option (jtoken * bytes) :=
  match s with
  | [] => None
  | c :: s' =>
      if bool_decide (c = quote) then prod_map StrTok id <$> read_chars s'
      else if bool_decide (c = Byte.x74) then (λ r, (BoolTok true, r)) <$> read_word (sb "true") s
      else if bool_decide (c = Byte.x66) then (λ r, (BoolTok false, r)) <$> read_word (sb "false") s
      else if bool_decide (c = Byte.x6e) then (λ r, (NullTok, r)) <$> read_word (sb "null") s
      else prod_map NumTok id <$> read_number s
  end.

Definition decode_scalar (s : bytes) (st : tokenState) (stack : list tokenState) : token_result :=
  match read_scalar s with
  | Some (t, s') => TokenOK t (mkDecoder s' (tokenValueEnd st) stack)
  | None => TokenSyntax
  end.

Definition close_token (t : jtoken) (s : bytes) (stack : list tokenState) : token_result :=
  match stack with st :: stack => TokenOK t (mkDecoder s (tokenValueEnd st) stack) | [] => TokenSyntax end.

(** The loop of [NextToken]; spaces, colons and commas are passed over. *)
Fixpoint token_loop (s : bytes) (st : tokenState) (stack : list tokenState) : token_result :=
  match s with
  | [] => TokenEOF
  | c :: s' =>
      if json_space c then token_loop s' st stack
      else if bool_decide (c = Byte.x5b) then
        if tokenValueAllowed st then TokenOK OpenArr (mkDecoder s' tokenArrayStart (st :: stack)) else TokenSyntax
      else if bool_decide (c = Byte.x5d) then
        match st with tokenArrayStart | tokenArrayComma => close_token CloseArr s' stack | _ => TokenSyntax end
      else if bool_decide (c = Byte.x7b) then
        if tokenValueAllowed st then TokenOK OpenObj (mkDecoder s' tokenObjectStart (st :: stack)) else TokenSyntax
      else if bool_decide (c = Byte.x7d) then
        match st with tokenObjectStart | tokenObjectComma => close_token CloseObj s' stack | _ => TokenSyntax end
      else if bool_decide (c = Byte.x3a) then
        match st with tokenObjectColon => token_loop s' tokenObjectValue stack | _ => TokenSyntax end
      else if bool_decide (c = comma) then
        match st with
        | tokenArrayComma => token_loop s' tokenArrayValue stack
        | tokenObjectComma => token_loop s' tokenObjectKey stack
        | _ => TokenSyntax
        end
      else if bool_decide (c = quote) && bool_decide (st = tokenObjectStart ∨ st = tokenObjectKey) then
        match read_chars s' with
        | Some (k, r) => TokenOK (StrTok k) (mkDecoder r tokenObjectColon stack)
        | None => TokenSyntax
        end
      else if tokenValueAllowed st then decode_scalar s st stack else TokenSyntax
  end.

Definition NextToken (d : Decoder) : token_result := token_loop (d_rest d) (d_state d) (d_stack d).

(** [More]: the next byte, spaces apart, closes nothing. *)
Fixpoint more (s : bytes) : bool :=
  match s with
  | [] => false
  | c :: s' => if json_space c then more s' else negb (bool_decide (c = Byte.x5d) || bool_decide (c = Byte.x7d))
  end.
Definition More (d : Decoder) : bool := more (d_rest d).

(** [json.Valid]: one value, then nothing but spaces, and at most 10000 open arrays and objects. *)
Definition maxNestingDepth : Z := 10000.

Fixpoint valid_run (fuel : nat) (started : bool) (d : Decoder) : bool :=
  match fuel with
  | O => false
  | S fuel =>
      match NextToken d with
      | TokenEOF => started && bool_decide (d_stack d = [])
      | TokenSyntax => false
      | TokenOK _ d' =>
          if started && bool_decide (d_stack d = []) then false
          else if maxNestingDepth <? Z.of_nat (length (d_stack d')) then false
          else valid_run fuel true d'
      end
  end.
Definition Valid (s : bytes) : bool := valid_run (S (length s)) false (NewDecoder s).

(** ** Documents *)

Inductive jval :=
  | VNull | VBool (b : bool) | VNum (text : bytes) | VStr (s : bytes) | VArr (l : list jval) | VObj (ms : list (bytes * jval)).

Section jval_ind.
Context (P : jval → Prop).
Context (Hnull : P VNull) (Hbool : ∀ b, P (VBool b)) (Hnum : ∀ t, P (VNum t)) (Hstr : ∀ s, P (VStr s)).
Context (Harr : ∀ l, Forall P l → P (VArr l)) (Hobj : ∀ ms, Forall (λ m, P m.2) ms → P (VObj ms)).

Fixpoint jval_tree_ind (v : jval) : P v :=
  match v with
  | VNull => Hnull | VBool b => Hbool b | VNum t => Hnum t | VStr s => Hstr s
  | VArr l => Harr l ((fix go l : Forall P l :=
      match l with [] => Forall_nil_2 _ | v :: l => Forall_cons_2 _ _ _ (jval_tree_ind v) (go l) end) l)
  | VObj ms => Hobj ms ((fix go ms : Forall (λ m, P m.2) ms :=
      match ms with [] => Forall_nil_2 _ | m :: ms => Forall_cons_2 _ _ _ (jval_tree_ind m.2) (go ms) end) ms)
  end.
End jval_ind.

(** Elements separated by commas. *)
Definition comma_sep (es : list bytes) : bytes :=
  match es with [] => [] | e :: es' => e ++ concat ((λ x, comma :: x) <$> es') end.

(** The compact text of a document. *)
Fixpoint print (v : jval) : bytes :=
  match v with
  | VNull => sb "null"
  | VBool b => if b then sb "true" else sb "false"
  | VNum t => t
  | VStr s => encode_string s
  | VArr l => [Byte.x5b] ++ comma_sep (map print l) ++ [Byte.x5d]
  | VObj ms => [Byte.x7b] ++ comma_sep (map (λ m, encode_string m.1 ++ Byte.x3a :: print m.2) ms) ++ [Byte.x7d]
  end.

(** ** Strings are read back *)

Lemma prepend_app a b o : prepend a (prepend b o) = prepend (a ++ b) o.
Proof. destruct o as [[x y]|]; simpl; [by rewrite app_assoc|done]. Qed.

Lemma prepend_Some b o t r : prepend b o = Some (t, r) ↔ ∃ t', o = Some (t', r) ∧ t = b ++ t'.
Proof. unfold prepend. destruct o as [[x y]|]; simpl; naive_solver. Qed.

(** The bytes of a rune. *)
Definition rune_ok (b : bytes) : Prop :=
  match b with
  | [b0] => ascii b0 = true
  | [b0; b1] => rune2 b0 b1 = true
  | [b0; b1; b2] => rune3 b0 b1 b2 = true
  | [b0; b1; b2; b3] => rune4 b0 b1 b2 b3 = true
  | _ => False
  end.

Lemma DecodeRune_cons b s : ∃ r s', DecodeRune (b :: s) = Some (r, s') ∧ (length s' ≤ length s)%nat.
Proof. simpl. cases; eexists _, _; (split; [reflexivity|simpl; lia]). Qed.

Lemma DecodeRune_Rune s b s' : DecodeRune s = Some (Rune b, s') → rune_ok b ∧ s = b ++ s'.
Proof. unfold DecodeRune. intros E. cases; done. Qed.

Lemma DecodeRune_bad s s' : DecodeRune s = Some (BadRune, s') → ∃ b, s = b :: s' ∧ ascii b = false.
Proof. unfold DecodeRune. intros E. cases; eauto. Qed.

Lemma DecodeRune_app b s : rune_ok b → DecodeRune (b ++ s) = Some (Rune b, s).
Proof.
  destruct b as [|b0 [|b1 [|b2 [|b3 [|b4 b]]]]]; simpl; intros Hb; try done.
  - by rewrite Hb.
  - destruct (rune2_high _ _ Hb) as [-> _]. by rewrite Hb.
  - destruct (rune3_high _ _ _ Hb) as (-> & _ & _ & ->). by rewrite Hb.
  - destruct (rune4_high _ _ _ _ Hb) as (-> & _ & _ & _ & -> & ->). by rewrite Hb.
Qed.

Lemma runes_fuel_more n m s : (length s ≤ n)%nat → (length s ≤ m)%nat → runes_fuel n s = runes_fuel m s.
Proof.
  revert m s. induction n as [|n IH]; intros [|m] [|b s] Hn Hm; simpl in Hn, Hm; try (done || lia).
  cbn [runes_fuel]. destruct (DecodeRune_cons b s) as (r & s' & -> & Hs). f_equal. apply IH; lia.
Qed.

Lemma string_runes_step s r s' : DecodeRune s = Some (r, s') → string_runes s = r :: string_runes s'.
Proof.
  intros E. unfold string_runes. destruct s as [|b s]; [done|]. destruct (DecodeRune_cons b s) as (r0 & s0 & E0 & Hs).
  rewrite E in E0. simplify_eq. cbn [runes_fuel length]. rewrite E. f_equal. apply runes_fuel_more; lia.
Qed.

Lemma runes_app b s : rune_ok b → string_runes (b ++ s) = Rune b :: string_runes s.
Proof. intros Hb. by apply string_runes_step, DecodeRune_app. Qed.

(** Induction on the runes of a string. *)
Lemma runes_ind (P : bytes → Prop) :
  P [] → (∀ b s, rune_ok b → P s → P (b ++ s)) → (∀ b s, DecodeRune (b :: s) = Some (BadRune, s) → P s → P (b :: s)) → ∀ s, P s.
Proof.
  intros H0 H1 H2 s. induction s as [s IH] using (Wf_nat.induction_ltof1 _ length). unfold Wf_nat.ltof in IH.
  destruct s as [|b s]; [done|]. destruct (DecodeRune_cons b s) as ([a|] & s' & E & Hs).
  - destruct (DecodeRune_Rune _ _ _ E) as [Ha E']. rewrite E' in *. apply H1; [done|]. apply IH.
    rewrite length_app. destruct a; simpl; [done|lia].
  - destruct (DecodeRune_bad _ _ E) as (b' & [= <- <-] & _). apply H2; [done|]. apply IH. simpl. lia.
Qed.

Lemma sanitize_app b s : rune_ok b → sanitize (b ++ s) = b ++ sanitize s.
Proof. intros Hb. unfold sanitize. by rewrite runes_app. Qed.

Lemma sanitize_utf8 s : utf8 s → sanitize s = s.
Proof.
  induction 1 as [|b0 s H0 _ IH|b0 b1 s Hr _ IH|b0 b1 b2 s Hr _ IH|b0 b1 b2 b3 s Hr _ IH]; [done|..]; rewrite <-IH at 2.
  - by apply (sanitize_app [b0]).
  - by apply (sanitize_app [b0; b1]).
  - by apply (sanitize_app [b0; b1; b2]).
  - by apply (sanitize_app [b0; b1; b2; b3]).
Qed.

Lemma utf8_rune b s : rune_ok b → utf8 s → utf8 (b ++ s).
Proof. destruct b as [|b0 [|b1 [|b2 [|b3 [|b4 b]]]]]; simpl; intros Hb Hs; try done; eauto using utf8. Qed.

Lemma utf8_app s t : utf8 s → utf8 t → utf8 (s ++ t).
Proof. induction 1; intros; simpl; eauto using utf8. Qed.

Lemma utf8_sanitize s : utf8 (sanitize s).
Proof.
  unfold sanitize. induction s as [|b s Hb IH|b s E IH] using runes_ind; [constructor|..].
  - rewrite runes_app by done. simpl. by apply utf8_rune.
  - rewrite (string_runes_step _ _ _ E). simpl. apply (utf8_rune replacement); done.
Qed.

Lemma read_chars_plain c s : c ≠ quote → c ≠ backslash → (b2z c <? 32) = false → ascii c = true → read_chars (c :: s) = prepend [c] (read_chars s).
Proof. intros Hq Hb Hc Ha. cbn [read_chars]. by rewrite !bool_decide_false, Hc, Ha by done. Qed.

Lemma high_not_special c : ascii c = false → c ≠ quote ∧ c ≠ backslash ∧ (b2z c <? 32) = false.
Proof. unfold ascii. intros Hc. apply Z.ltb_ge in Hc. split_and!; [intros ->; done..|]. apply Z.ltb_ge. lia. Qed.

(** A rune above 0x80 stands for itself. *)
Lemma read_chars_high b s : rune_ok b → (1 < length b)%nat → read_chars (b ++ s) = prepend b (read_chars s).
Proof.
  destruct b as [|b0 [|b1 [|b2 [|b3 [|b4 b]]]]]; simpl; intros Hb HL; try (done || lia); cbn [read_chars].
  - destruct (rune2_high _ _ Hb) as [H0 _]. destruct (high_not_special _ H0) as (? & ? & ->). by rewrite !bool_decide_false, H0, Hb by done.
  - destruct (rune3_high _ _ _ Hb) as (H0 & _ & _ & H2). destruct (high_not_special _ H0) as (? & ? & ->). by rewrite !bool_decide_false, H0, H2, Hb by done.
  - destruct (rune4_high _ _ _ _ Hb) as (H0 & _ & _ & _ & H2 & H3). destruct (high_not_special _ H0) as (? & ? & ->). by rewrite !bool_decide_false, H0, H2, H3, Hb by done.
Qed.

Lemma hex4_u b : hex4 Byte.x30 Byte.x30 (a2b (hex_digit (b2z b / 16))) (a2b (hex_digit (b2z b mod 16))) = Some (b2z b).
Proof.
  pose proof (b2z_range b) as Hb. unfold hex4, a2b. rewrite !Ascii.ascii_of_byte_of_ascii, !hex_value_digit.
  - simpl. f_equal. rewrite (Z.div_mod (b2z b) 16) at 3 by lia. lia.
  - split; [apply Z.div_pos; lia|apply Z.div_lt_upper_bound; lia].
  - apply Z.mod_pos_bound. lia.
Qed.

Lemma read_chars_escape_u b s : ascii b = true → read_chars (escape_u b ++ s) = prepend [b] (read_chars s).
Proof.
  intros Ha. unfold ascii in Ha. apply Z.ltb_lt in Ha. pose proof (b2z_range b). unfold escape_u. cbn [read_chars app].
  rewrite (bool_decide_false (backslash = quote)), !bool_decide_true, hex4_u by done.
  unfold surrogate. rewrite (proj2 (Z.leb_gt 0xd800 (b2z b))) by lia. cbn [andb].
  unfold EncodeRune. rewrite (proj2 (Z.ltb_lt (b2z b) 0x80)) by lia. by rewrite z2b_b2z.
Qed.

Lemma read_chars_ascii b s : ascii b = true → read_chars (escape_ascii_plain b ++ s) = prepend [b] (read_chars s).
Proof.
  intros Ha. unfold escape_ascii_plain, escape_ascii.
  repeat (case_bool_decide; [subst; reflexivity|]). cbn [orb].
  destruct (b2z b <? 32) eqn:E; cbn [orb]; [by apply read_chars_escape_u|]. by apply read_chars_plain.
Qed.

Lemma read_chars_rune r s :
  match r with Rune b => rune_ok b | BadRune => True end → read_chars (escape_rune r ++ s) = prepend (rune_bytes r) (read_chars s).
Proof.
  destruct r as [b|]; intros Hb; [|reflexivity].
  destruct b as [|b0 [|b1 [|b2 [|b3 [|b4 b]]]]]; try done; simpl escape_rune.
  - by apply read_chars_ascii.
  - apply (read_chars_high [b0; b1]); [done|simpl; lia].
  - unfold escape3. case_bool_decide as E; [injection E as -> ->|by apply (read_chars_high [b0; b1; b2]); [|simpl; lia]].
    case_bool_decide as E2; [by subst|]. case_bool_decide as E3; [by subst|]. apply (read_chars_high [Byte.xe2; Byte.x80; b2]); [done|simpl; lia].
  - apply (read_chars_high [b0; b1; b2; b3]); [done|simpl; lia].
Qed.

Lemma read_chars_runes s r : read_chars (concat (escape_rune <$> string_runes s) ++ quote :: r) = Some (sanitize s, r).
Proof.
  unfold sanitize. induction s as [|b s Hb IH|b s E IH] using runes_ind; [reflexivity|..].
  - rewrite runes_app by done. rewrite !fmap_cons. cbn [concat]. by rewrite <-app_assoc, (read_chars_rune (Rune b)), IH.
  - rewrite (string_runes_step _ _ _ E), !fmap_cons. cbn [concat]. by rewrite <-app_assoc, (read_chars_rune BadRune), IH.
Qed.

(** ** What is read *)

Lemma between_z2b lo hi x : 0 ≤ x < 256 → lo ≤ x ≤ hi → between lo hi (z2b x) = true.
Proof. intros Hx H. unfold between. rewrite b2z_z2b, Z.mod_small by done. apply andb_true_iff. split; apply Z.leb_le; lia. Qed.

Lemma EncodeRune_ok u : 0 ≤ u < 0x110000 → surrogate u = false → rune_ok (EncodeRune u).
Proof.
  intros Hu Hs. assert (u < 0xd800 ∨ 0xdfff < u) as Hns.
  { unfold surrogate in Hs. apply andb_false_iff in Hs as [?%Z.leb_gt|?%Z.leb_gt]; lia. }
  unfold EncodeRune.
  pose proof (Z.div_mod u 64 ltac:(lia)) as E1. pose proof (Z.mod_pos_bound u 64 ltac:(lia)) as B1.
  pose proof (Z.div_mod u 4096 ltac:(lia)) as E2. pose proof (Z.mod_pos_bound u 4096 ltac:(lia)) as B2.
  pose proof (Z.div_mod u 262144 ltac:(lia)) as E3. pose proof (Z.mod_pos_bound u 262144 ltac:(lia)) as B3.
  pose proof (Z.mod_pos_bound (u / 64) 64 ltac:(lia)) as B4. pose proof (Z.mod_pos_bound (u / 4096) 64 ltac:(lia)) as B5.
  pose proof (Z.div_mod (u / 64) 64 ltac:(lia)) as E4. pose proof (Z.div_mod (u / 4096) 64 ltac:(lia)) as E5.
  rewrite Z.div_div in E4, E5 by lia. change (64 * 64) with 4096 in E4. change (4096 * 64) with 262144 in E5.
  destruct (Z.ltb_spec u 0x80); [|destruct (Z.ltb_spec u 0x800); [|destruct (Z.ltb_spec u 0x10000)]]; cbn [rune_ok].
  - unfold ascii. rewrite b2z_z2b, Z.mod_small by lia. by apply Z.ltb_lt.
  - unfold rune2, cont. rewrite !between_z2b by lia. done.
  - unfold rune3, cont. rewrite (between_z2b _ _ (128 + u mod 64)) by lia. rewrite andb_true_r.
    rewrite b2z_z2b, (Z.mod_small (224 + u / 4096)) by lia.
    destruct (Z.eqb_spec (224 + u / 4096) 0xe0); [apply between_z2b; lia|].
    destruct (Z.eqb_spec (224 + u / 4096) 0xed); [apply between_z2b; lia|]. rewrite !between_z2b by lia. done.
  - unfold rune4, cont. rewrite (between_z2b _ _ (128 + u mod 64)), (between_z2b _ _ (128 + u / 64 mod 64)) by lia. rewrite !andb_true_r.
    rewrite b2z_z2b, (Z.mod_small (240 + u / 262144)) by lia.
    destruct (Z.eqb_spec (240 + u / 262144) 0xf0); [apply between_z2b; lia|].
    destruct (Z.eqb_spec (240 + u / 262144) 0xf4); [apply between_z2b; lia|]. rewrite !between_z2b by lia. done.
Qed.

Lemma hex_value_range c n : hex_value c = Some n → 0 ≤ n < 16.
Proof. unfold hex_value. intros. cases; repeat match goal with H : _ && _ = true |- _ => apply andb_true_iff in H as [?%Z.leb_le ?%Z.leb_le] end; lia. Qed.

Lemma hex4_range h1 h2 h3 h4 u : hex4 h1 h2 h3 h4 = Some u → 0 ≤ u < 0x10000.
Proof.
  unfold hex4. intros (a & Ha%hex_value_range & (b & Hb%hex_value_range & (c & Hc%hex_value_range & (d & Hd%hex_value_range & [= <-])%bind_Some)%bind_Some)%bind_Some)%bind_Some. lia.
Qed.

Lemma surrogate_pair_ok u v w : surrogate_pair u v = Some w → 0x10000 ≤ w < 0x110000.
Proof.
  unfold surrogate_pair. intros. case_match eqn:E; simplify_eq. rewrite !andb_true_iff, !Z.leb_le, !Z.ltb_lt in E. lia.
Qed.

Lemma simple_escape_ascii e b : simple_escape e = Some b → ascii b = true.
Proof.
  unfold simple_escape. case_bool_decide as E; [|by intros; cases].
  intros [= <-]. rewrite !elem_of_cons, elem_of_nil in E. by destruct E as [->|[->|[->|[]]]].
Qed.

(** One character of a string: what it stands for and what follows it. *)
Lemma read_chars_step s t r :
  read_chars s = Some (t, r) →
  (t = [] ∧ s = quote :: r) ∨
  ∃ b s' t', rune_ok b ∧ (length s' < length s)%nat ∧ read_chars s' = Some (t', r) ∧ t = b ++ t'.
Proof.
  destruct s as [|c s1]; [done|]. cbn [read_chars]. case_bool_decide; [intros [= <- <-]; left; by subst|]. intros E. right.
  repeat (case_match; try done);
    apply prepend_Some in E as (t' & E & ->); eexists _, _, _; (split_and!; [..|exact E|reflexivity]); simpl; try lia; try done.
  - match goal with E2 : _ ≫= surrogate_pair _ = Some _ |- _ => apply bind_Some in E2 as (? & ? & HP%surrogate_pair_ok) end.
    apply EncodeRune_ok; [lia|]. unfold surrogate. apply andb_false_iff. right. apply Z.leb_gt. lia.
  - match goal with E2 : hex4 _ _ _ _ = Some _ |- _ => apply hex4_range in E2 end. apply EncodeRune_ok; [lia|done].
  - by eapply simple_escape_ascii.
Qed.

(** A string that was read is UTF-8, and less is left than there was. *)
Lemma read_chars_spec s t r : read_chars s = Some (t, r) → utf8 t ∧ (length r < length s)%nat.
Proof.
  revert t. induction s as [s IH] using (Wf_nat.induction_ltof1 _ length). unfold Wf_nat.ltof in IH.
  intros t [[-> ->]|(b & s' & t' & Hb & HL & HR & ->)]%read_chars_step; [split; [constructor|simpl; lia]|].
  destruct (IH s' HL t' HR) as [Ht HL']. split; [by apply utf8_rune|lia].
Qed.

(** ** Numbers *)

Definition digits (ds : bytes) : Prop := Forall (λ b, digit b = true) ds ∧ ds ≠ [].
Definition is_int (i : bytes) : Prop := i = [zero_digit] ∨ digits i ∧ head i ≠ Some zero_digit.
Definition is_frac (f : bytes) : Prop := f = [] ∨ ∃ ds, f = dot :: ds ∧ digits ds.
Definition is_exp (e : bytes) : Prop :=
  e = [] ∨ ∃ m sg ds, e = m :: sg ++ ds ∧ exp_mark m = true ∧ (sg = [] ∨ sg = [minus] ∨ sg = [plus]) ∧ digits ds.

(** The grammar of a number. *)
Definition number (n : bytes) : Prop :=
  ∃ sg i f e, n = sg ++ i ++ f ++ e ∧ (sg = [] ∨ sg = [minus]) ∧ is_int i ∧ is_frac f ∧ is_exp e.

(** What can follow a number: the end, a delimiter or a space. *)
Definition no_digit (r : bytes) : Prop := match r with [] => True | b :: _ => digit b = false end.
Definition ends_number (r : bytes) : Prop :=
  match r with [] => True | b :: _ => digit b = false ∧ b ≠ dot ∧ exp_mark b = false end.

Lemma digits_cons ds : digits ds → ∃ b u, ds = b :: u ∧ digit b = true.
Proof. intros [HF Hne]. destruct ds as [|b u]; [done|]. apply Forall_cons in HF as [? _]. eauto. Qed.

Lemma digit_not_mark b : digit b = true → b ≠ minus ∧ b ≠ plus ∧ b ≠ dot ∧ exp_mark b = false.
Proof. intros Hb. unfold exp_mark. split_and!; [intros ->; done..|]. rewrite !bool_decide_false; [done|intros ->; done..]. Qed.

Lemma read_digits1_read ds r : digits ds → no_digit r → read_digits1 (ds ++ r) = Some (ds, r).
Proof.
  intros [HF Hne] Hr. assert (read_digits (ds ++ r) = (ds, r)) as E.
  { clear Hne. induction HF as [|b ds Hb _ IH]; simpl.
    - destruct r as [|c r]; [done|]. simpl in *. by rewrite Hr.
    - by rewrite Hb, IH. }
  unfold read_digits1. rewrite E. by destruct ds.
Qed.

Lemma read_digits1_digits s d s' : read_digits1 s = Some (d, s') → s = d ++ s' ∧ digits d.
Proof.
  assert (s = (read_digits s).1 ++ (read_digits s).2 ∧ Forall (λ b, digit b = true) (read_digits s).1) as [HP HF].
  { induction s as [|b s [IH1 IH2]]; simpl; [done|]. destruct (digit b) eqn:Hb; [|done]. simpl. rewrite <-IH1. by auto. }
  unfold read_digits1. destruct (read_digits s) as [[|x xs] y]; [done|]. intros [= <- <-]. done.
Qed.

Lemma read_int_iff s i s' : (s = i ++ s' ∧ is_int i ∧ (i = [zero_digit] ∨ no_digit s')) → read_int s = Some (i, s').
Proof.
  intros (-> & [->|[Hd Hh]] & Hs); cbn [read_int app]; [by rewrite bool_decide_true|].
  destruct Hs as [->|Hs]; [done|]. destruct (digits_cons _ Hd) as (b & u & -> & _). cbn [app read_int].
  rewrite bool_decide_false by (intros ->; done). by apply (read_digits1_read (b :: u)).
Qed.

Lemma read_int_int s i s' : read_int s = Some (i, s') → s = i ++ s' ∧ is_int i.
Proof.
  destruct s as [|b s]; [done|]. cbn [read_int]. case_bool_decide as Hz; [intros [= <- <-]; subst; split; [done|by left]|].
  intros E. destruct (read_digits1_digits _ _ _ E) as [Es Hd]. split; [done|]. right. split; [done|].
  destruct i as [|x i]; [by destruct Hd|]. injection Es as <- _. simpl. congruence.
Qed.

Lemma read_frac_read f r : is_frac f → no_digit r → head r ≠ Some dot → read_frac (f ++ r) = Some (f, r).
Proof.
  intros [->|(ds & -> & Hd)] Hr Hh; cbn [app read_frac].
  - destruct r as [|c r]; [done|]. simpl in *. by rewrite bool_decide_false by congruence.
  - rewrite bool_decide_true by done. by rewrite read_digits1_read.
Qed.

Lemma read_frac_frac s f s' : read_frac s = Some (f, s') → s = f ++ s' ∧ is_frac f.
Proof.
  destruct s as [|b s]; cbn [read_frac]; [intros [= <- <-]; split; [done|by left]|].
  case_bool_decide; [|intros [= <- <-]; split; [done|by left]]. intros (t & [-> Hd]%read_digits1_digits & ->)%prepend_Some. subst.
  split; [done|]. right. eauto.
Qed.

Lemma read_exp_read e r : is_exp e → no_digit r → (e = [] → ends_number r) → read_exp (e ++ r) = Some (e, r).
Proof.
  intros [->|(m & sg & ds & -> & Hm & Hsg & Hd)] Hr He; cbn [app read_exp].
  - specialize (He eq_refl). destruct r as [|c r]; [done|]. simpl in *. by destruct He as (_ & _ & ->).
  - rewrite Hm. destruct Hsg as [->|[->| ->]]; cbn [app].
    + destruct (digits_cons _ Hd) as (b & u & -> & Hb). destruct (digit_not_mark _ Hb) as (? & ? & _). cbn [app].
      rewrite !bool_decide_false by done. cbn [orb]. change (b :: u ++ r) with ((b :: u) ++ r). by rewrite read_digits1_read.
    + cbn [orb bool_decide]. rewrite read_digits1_read by done. done.
    + rewrite read_digits1_read by done. done.
Qed.

Lemma read_exp_exp s e s' : read_exp s = Some (e, s') → s = e ++ s' ∧ is_exp e.
Proof.
  destruct s as [|b s]; cbn [read_exp]; [intros [= <- <-]; split; [done|by left]|].
  destruct (exp_mark b) eqn:Hm; [|intros [= <- <-]; split; [done|by left]]. destruct s as [|c s]; [done|].
  destruct (bool_decide (c = minus) || bool_decide (c = plus)) eqn:Hc; intros (t & [E Hd]%read_digits1_digits & ->)%prepend_Some.
  - rewrite E. split; [done|]. right. exists b, [c], t. split_and!; [done..| |done]. right.
    apply orb_true_iff in Hc as [?%bool_decide_eq_true|?%bool_decide_eq_true]; subst; auto.
  - rewrite E. split; [done|]. right. exists b, [], t. auto.
Qed.

Lemma head_frac_exp f e r : is_frac f → is_exp e → ends_number r →
  no_digit (f ++ e ++ r) ∧ no_digit (e ++ r) ∧ head (e ++ r) ≠ Some dot ∧ no_digit r.
Proof.
  intros Hf He Hr.
  assert (no_digit r) as Hr1 by (destruct r; [done|by destruct Hr]).
  assert (no_digit (e ++ r) ∧ head (e ++ r) ≠ Some dot) as [Hr2 Hr3].
  { destruct He as [->|(m & sg & ds & -> & Hm & _)]; simpl.
    - split; [done|]. destruct r; [done|]. simpl. destruct Hr as (_ & ? & _). congruence.
    - split; [|intros [= ->]; done]. destruct (digit m) eqn:E; [|done]. destruct (digit_not_mark _ E) as (_ & _ & _ & ?). congruence. }
  split_and!; [|done..]. destruct Hf as [->|(ds & -> & _)]; done.
Qed.

(** A number is read whatever delimiter follows it; what is read is a number. *)
Lemma read_number_read n r : number n → ends_number r → read_number (n ++ r) = Some (n, r).
Proof.
  intros (sg & i & f & e & -> & Hsg & Hi & Hf & He) Hr. destruct (head_frac_exp f e r Hf He Hr) as (H1 & H2 & H3 & H4).
  assert (∃ b u, i = b :: u ∧ digit b = true) as (b & u & Ei & Hb).
  { destruct Hi as [->|[Hd _]]; [eauto|by apply digits_cons]. }
  rewrite <-!app_assoc. unfold read_number.
  assert (read_sign (sg ++ i ++ f ++ e ++ r) = (sg, i ++ f ++ e ++ r)) as ->.
  { destruct Hsg as [->| ->]; [|done]. subst i. cbn [app read_sign]. rewrite bool_decide_false; [done|]. by destruct (digit_not_mark _ Hb). }
  rewrite (read_int_iff _ i (f ++ e ++ r)) by auto. simpl. rewrite read_frac_read by done. simpl. by rewrite read_exp_read by auto.
Qed.

Lemma read_number_number s n s' : read_number s = Some (n, s') → s = n ++ s' ∧ number n.
Proof.
  unfold read_number. intros E.
  assert (∃ sg s0, read_sign s = (sg, s0) ∧ s = sg ++ s0 ∧ (sg = [] ∨ sg = [minus])) as (sg & s0 & HS & -> & Hsg).
  { destruct s as [|b u]; [by exists [], []; auto|]. destruct (decide (b = minus)) as [->|Hne].
    - exists [minus], u. auto.
    - exists [], (b :: u). cbn [read_sign]. rewrite bool_decide_false by done. auto. }
  rewrite HS in E. apply bind_Some in E as ([i s1] & [-> Hi]%read_int_int & E).
  apply bind_Some in E as ([f s2] & [-> Hf]%read_frac_frac & E). apply bind_Some in E as ([e s3] & [-> He]%read_exp_exp & [= <- <-]).
  split; [by rewrite <-!app_assoc|]. exists sg, i, f, e. auto.
Qed.

Lemma number_head n : number n → ∃ b u, n = b :: u ∧ (b = minus ∨ digit b = true).
Proof.
  intros (sg & i & f & e & -> & Hsg & Hi & _).
  assert (∃ b u, i = b :: u ∧ digit b = true) as (b & u & -> & Hb) by (destruct Hi as [->|[Hd _]]; [eauto|by apply digits_cons]).
  destruct Hsg as [->| ->]; simpl; eauto 10.
Qed.

(** ** The tokens of a text *)

Lemma read_word_app w s r : read_word w s = Some r ↔ s = w ++ r.
Proof.
  unfold read_word. case_bool_decide as E.
  - split; [|intros ->; by rewrite drop_app_length]. intros [= <-]. rewrite <-E at 1. by rewrite take_drop.
  - split; [done|]. intros ->. by rewrite take_app_length in E.
Qed.

Lemma read_scalar_shorter s t r : read_scalar s = Some (t, r) → (length r < length s)%nat.
Proof.
  destruct s as [|c s]; [done|]. unfold read_scalar.
  assert (∀ w, (0 < length w)%nat → read_word w (c :: s) = Some r → (length r < length (c :: s))%nat) as HW.
  { intros w Hw E%read_word_app. rewrite E, length_app. lia. }
  repeat case_bool_decide; intros (x & E & Ex)%fmap_Some.
  - destruct x. apply read_chars_spec in E as [_ E]. simplify_eq/=. lia.
  - eapply HW; [|by simplify_eq]. simpl. lia.
  - eapply HW; [|by simplify_eq]. simpl. lia.
  - eapply HW; [|by simplify_eq]. simpl. lia.
  - destruct x as [n s']. apply read_number_number in E as [-> (b & u & -> & _)%number_head]. simplify_eq/=. rewrite length_app. lia.
Qed.

(** Each token takes at least one byte. *)
Lemma Token_shorter d t d' : NextToken d = TokenOK t d' → (length (d_rest d') < length (d_rest d))%nat.
Proof.
  unfold NextToken. destruct d as [s st stack]. simpl. revert st stack. induction s as [|c s IH]; intros st stack; cbn [token_loop]; [done|].
  destruct (json_space c); [intros E%IH; simpl; lia|].
  case_bool_decide; [destruct (tokenValueAllowed st); [intros [= <- <-]; simpl; lia|done]|].
  case_bool_decide; [unfold close_token; destruct st; try done; (destruct stack; [done|intros [= <- <-]; simpl; lia])|].
  case_bool_decide; [destruct (tokenValueAllowed st); [intros [= <- <-]; simpl; lia|done]|].
  case_bool_decide; [unfold close_token; destruct st; try done; (destruct stack; [done|intros [= <- <-]; simpl; lia])|].
  case_bool_decide; [destruct st; try done; intros E%IH; simpl; lia|].
  case_bool_decide; [destruct st; try done; intros E%IH; simpl; lia|].
  destruct (_ && _).
  - destruct (read_chars s) as [[k r]|] eqn:E; [|done]. intros [= <- <-]. apply read_chars_spec in E as [_ E]. simpl. lia.
  - destruct (tokenValueAllowed st); [|done]. unfold decode_scalar. destruct (read_scalar (c :: s)) as [[x r]|] eqn:E; [|done].
    intros [= <- <-]. by apply read_scalar_shorter in E.
Qed.

(** The document that the tokens from a decoder on make, and the decoder after it. *)
Inductive reads_value : Decoder → jval → Decoder → Prop :=
  | reads_null d d' : NextToken d = TokenOK NullTok d' → reads_value d VNull d'
  | reads_bool d b d' : NextToken d = TokenOK (BoolTok b) d' → reads_value d (VBool b) d'
  | reads_num d n d' : NextToken d = TokenOK (NumTok n) d' → reads_value d (VNum n) d'
  | reads_str d s d' : NextToken d = TokenOK (StrTok s) d' → reads_value d (VStr s) d'
  | reads_arr d d1 l d2 t d' :
      NextToken d = TokenOK OpenArr d1 → reads_list d1 l d2 → More d2 = false → NextToken d2 = TokenOK t d' → reads_value d (VArr l) d'
  | reads_obj d d1 ms d2 t d' :
      NextToken d = TokenOK OpenObj d1 → reads_members d1 ms d2 → More d2 = false → NextToken d2 = TokenOK t d' → reads_value d (VObj ms) d'
with reads_list : Decoder → list jval → Decoder → Prop :=
  | reads_nil d : reads_list d [] d
  | reads_cons d v d1 l d2 : More d = true → reads_value d v d1 → reads_list d1 l d2 → reads_list d (v :: l) d2
with reads_members : Decoder → list (bytes * jval) → Decoder → Prop :=
  | members_nil d : reads_members d [] d
  | members_cons d k d1 v d2 ms d3 :
      More d = true → NextToken d = TokenOK (StrTok k) d1 → reads_value d1 v d2 → reads_members d2 ms d3 → reads_members d ((k, v) :: ms) d3.

Scheme reads_rec := Minimality for reads_value Sort Prop
  with reads_list_rec := Minimality for reads_list Sort Prop
  with reads_members_rec := Minimality for reads_members Sort Prop.
Combined Scheme reads_mutind from reads_rec, reads_list_rec, reads_members_rec.

(** A document whose strings are UTF-8 and whose numbers are numbers. *)
Fixpoint val_ok (v : jval) : Prop :=
  match v with
  | VNull | VBool _ => True
  | VNum n => number n
  | VStr s => utf8 s
  | VArr l => fold_right (λ v P, val_ok v ∧ P) True l
  | VObj ms => fold_right (λ m P, utf8 m.1 ∧ val_ok m.2 ∧ P) True ms
  end.

(** The first token decides: two decoders with the same first token read the same document. *)
Lemma reads_first d d0 v d' : NextToken d0 = NextToken d → reads_value d v d' → reads_value d0 v d'.
Proof. intros E HR. inversion HR; subst; econstructor; try eassumption; by rewrite E. Qed.

Lemma Token_comma_arr s stack : NextToken (mkDecoder (comma :: s) tokenArrayComma stack) = NextToken (mkDecoder s tokenArrayValue stack).
Proof. done. Qed.
Lemma Token_comma_obj s stack : NextToken (mkDecoder (comma :: s) tokenObjectComma stack) = NextToken (mkDecoder s tokenObjectKey stack).
Proof. done. Qed.
Lemma Token_colon s stack : NextToken (mkDecoder (Byte.x3a :: s) tokenObjectColon stack) = NextToken (mkDecoder s tokenObjectValue stack).
Proof. done. Qed.

Lemma Token_scalar c s st stack :
  json_space c = false → c ∉ [Byte.x5b; Byte.x5d; Byte.x7b; Byte.x7d; Byte.x3a; comma] → tokenValueAllowed st = true →
  NextToken (mkDecoder (c :: s) st stack) = decode_scalar (c :: s) st stack.
Proof.
  intros Hc Hn Hst. unfold NextToken. simpl. rewrite Hc. rewrite !not_elem_of_cons in Hn. destruct Hn as (? & ? & ? & ? & ? & ? & _).
  rewrite !(bool_decide_false (c = _)) by done. rewrite Hst.
  rewrite (bool_decide_false (st = _ ∨ _)) by (intros [->| ->]; done). by rewrite andb_false_r.
Qed.

Lemma Token_str s r st stack : utf8 s → tokenValueAllowed st = true →
  NextToken (mkDecoder (encode_string s ++ r) st stack) = TokenOK (StrTok s) (mkDecoder r (tokenValueEnd st) stack).
Proof.
  intros Hs Hst. unfold encode_string. cbn [app]. rewrite Token_scalar; [|done|set_solver|done].
  unfold decode_scalar, read_scalar. rewrite bool_decide_true by done. rewrite <-app_assoc. cbn [app]. rewrite read_chars_runes, sanitize_utf8 by done. done.
Qed.

Lemma Token_key k r st stack : utf8 k → (st = tokenObjectStart ∨ st = tokenObjectKey) →
  NextToken (mkDecoder (encode_string k ++ r) st stack) = TokenOK (StrTok k) (mkDecoder r tokenObjectColon stack).
Proof.
  intros Hk Hst. unfold NextToken, encode_string. cbn [d_rest d_state d_stack app token_loop]. rewrite <-app_assoc. cbn [app]. rewrite read_chars_runes, sanitize_utf8 by done.
  rewrite (bool_decide_true (st = _ ∨ _)) by done. by destruct Hst as [->| ->].
Qed.

Lemma number_start b :
  (b = minus ∨ digit b = true) →
  json_space b = false ∧ (b ∉ [Byte.x5b; Byte.x5d; Byte.x7b; Byte.x7d; Byte.x3a; comma]) ∧ b ∉ [quote; Byte.x74; Byte.x66; Byte.x6e].
Proof.
  intros Hb. split_and!.
  - apply bool_decide_eq_false. rewrite !elem_of_cons, elem_of_nil. destruct Hb as [->|Hb]; [by intros [|[|[|[|]]]]|]. intros [->|[->|[->|[->|[]]]]]; done.
  - rewrite !elem_of_cons, elem_of_nil. destruct Hb as [->|Hb]; [by intros [|[|[|[|[|[|]]]]]]|]. intros [->|[->|[->|[->|[->|[->|[]]]]]]]; done.
  - rewrite !elem_of_cons, elem_of_nil. destruct Hb as [->|Hb]; [by intros [|[|[|[|]]]]|]. intros [->|[->|[->|[->|[]]]]]; done.
Qed.

Lemma Token_num n r st stack : number n → ends_number r → tokenValueAllowed st = true →
  NextToken (mkDecoder (n ++ r) st stack) = TokenOK (NumTok n) (mkDecoder r (tokenValueEnd st) stack).
Proof.
  intros Hn Hr Hst. destruct (number_head _ Hn) as (b & u & En & Hb). destruct (number_start _ Hb) as (H1 & H2 & H3).
  pose proof (read_number_read n r Hn Hr) as HR. rewrite En in HR |- *. cbn [app] in *. rewrite Token_scalar by done.
  unfold decode_scalar, read_scalar. rewrite !not_elem_of_cons in H3. destruct H3 as (? & ? & ? & ? & _).
  rewrite !(bool_decide_false (b = _)) by done. by rewrite HR.
Qed.

Lemma print_head v : val_ok v → ∃ c u, print v = c :: u ∧ json_space c = false ∧ c ≠ Byte.x5d ∧ c ≠ Byte.x7d.
Proof.
  destruct v as [|[]|n|s|l|ms]; simpl; intros Hv; try (eexists _, _; (split; [reflexivity|done])).
  destruct (number_head _ Hv) as (b & u & -> & Hb). destruct (number_start _ Hb) as (H1 & H2 & _).
  exists b, u. split; [done|]. rewrite !not_elem_of_cons in H2. destruct H2 as (? & ? & ? & ? & _). done.
Qed.

Lemma More_print v r st stack : val_ok v → More (mkDecoder (print v ++ r) st stack) = true.
Proof.
  intros (c & u & -> & Hc & H1 & H2)%print_head. unfold More. simpl. by rewrite Hc, !bool_decide_false.
Qed.

Lemma More_key k r st stack : More (mkDecoder (encode_string k ++ r) st stack) = true.
Proof. done. Qed.

#[local] Opaque encode_string.

Definition read_again (v : jval) : Prop :=
  ∀ st stack r, val_ok v → tokenValueAllowed st = true → ends_number r →
    reads_value (mkDecoder (print v ++ r) st stack) v (mkDecoder r (tokenValueEnd st) stack).

Lemma reads_elements l r stack :
  Forall read_again l → Forall val_ok l →
  reads_list (mkDecoder (concat ((λ x, comma :: x) <$> (print <$> l)) ++ Byte.x5d :: r) tokenArrayComma stack) l
    (mkDecoder (Byte.x5d :: r) tokenArrayComma stack).
Proof.
  induction 1 as [|v l Hv _ IH]; intros HF; [constructor|]. apply Forall_cons in HF as [Ho HF].
  rewrite !fmap_cons. cbn [concat app]. rewrite <-app_assoc. eapply reads_cons; [done| |by apply IH].
  eapply reads_first; [apply Token_comma_arr|]. apply (Hv tokenArrayValue); [done..|]. destruct l; done.
Qed.

Definition member_text (m : bytes * jval) : bytes := encode_string m.1 ++ Byte.x3a :: print m.2.

Lemma reads_pairs ms r stack :
  Forall (λ m, read_again m.2) ms → Forall (λ m, utf8 m.1 ∧ val_ok m.2) ms →
  reads_members (mkDecoder (concat ((λ x, comma :: x) <$> (member_text <$> ms)) ++ Byte.x7d :: r) tokenObjectComma stack) ms
    (mkDecoder (Byte.x7d :: r) tokenObjectComma stack).
Proof.
  induction 1 as [|[k v] ms Hv _ IH]; intros HF; [constructor|]. apply Forall_cons in HF as [[Hk Ho] HF].
  rewrite !fmap_cons. cbn [concat app]. rewrite <-app_assoc. unfold member_text at 1. simpl in *. rewrite <-app_assoc. cbn [app].
  eapply members_cons; [done| | |by apply IH].
  - rewrite Token_comma_obj. apply Token_key; auto.
  - eapply reads_first; [apply Token_colon|]. apply (Hv tokenObjectValue); [done..|]. destruct ms; done.
Qed.

Lemma val_ok_arr l : val_ok (VArr l) ↔ Forall val_ok l.
Proof. induction l as [|v l IH]; [done|]. rewrite Forall_cons, <-IH. done. Qed.
Lemma val_ok_obj ms : val_ok (VObj ms) ↔ Forall (λ m, utf8 m.1 ∧ val_ok m.2) ms.
Proof. induction ms as [|m ms IH]; [done|]. rewrite Forall_cons, <-IH. simpl. tauto. Qed.

(** The text of a document is read back, whatever delimiter follows it. *)
Lemma print_reads v : read_again v.
Proof.
  induction v as [|b|n|s|l IH|ms IH] using jval_tree_ind; intros st stack r Hv Hst Hr.
  - apply reads_null. cbn [print]. change (sb "null" ++ r) with (Byte.x6e :: (Byte.x75 :: Byte.x6c :: Byte.x6c :: r)).
    rewrite Token_scalar; [|done|set_solver|done]. done.
  - apply reads_bool. destruct b; cbn [print].
    + change (sb "true" ++ r) with (Byte.x74 :: (Byte.x72 :: Byte.x75 :: Byte.x65 :: r)). rewrite Token_scalar; [|done|set_solver|done]. done.
    + change (sb "false" ++ r) with (Byte.x66 :: (Byte.x61 :: Byte.x6c :: Byte.x73 :: Byte.x65 :: r)). rewrite Token_scalar; [|done|set_solver|done]. done.
  - apply reads_num. by apply Token_num.
  - apply reads_str. by apply Token_str.
  - apply val_ok_arr in Hv. cbn [print]. rewrite <-app_assoc. cbn [app].
    eapply reads_arr with (d2 := mkDecoder (Byte.x5d :: r) (if bool_decide (l = []) then tokenArrayStart else tokenArrayComma) (st :: stack)).
    + unfold NextToken. simpl. by rewrite Hst.
    + destruct l as [|v l]; [apply reads_nil|]. apply Forall_cons in IH as [IHv IH], Hv as [Hv HF].
      cbn [map comma_sep]. rewrite <-!app_assoc. eapply reads_cons; [by apply More_print| |by apply reads_elements].
      apply (IHv tokenArrayStart); [done..|]. destruct l; done.
    + done.
    + unfold NextToken. simpl. by case_bool_decide.
  - apply val_ok_obj in Hv. cbn [print]. rewrite <-app_assoc. cbn [app].
    eapply reads_obj with (d2 := mkDecoder (Byte.x7d :: r) (if bool_decide (ms = []) then tokenObjectStart else tokenObjectComma) (st :: stack)).
    + unfold NextToken. simpl. by rewrite Hst.
    + destruct ms as [|[k v] ms]; [apply members_nil|]. apply Forall_cons in IH as [IHv IH], Hv as [[Hk Hv] HF].
      cbn [map comma_sep fst snd] in *. rewrite <-!app_assoc. eapply members_cons; [apply More_key|apply Token_key; auto| |by apply reads_pairs].
      cbn [app]. eapply reads_first; [apply Token_colon|]. apply (IHv tokenObjectValue); [done..|]. destruct ms; done.
    + done.
    + unfold NextToken. simpl. by case_bool_decide.
Qed.

(** What is read is well formed. *)
Lemma decode_scalar_ok s st stack t d : decode_scalar s st stack = TokenOK t d →
  match t with StrTok x => utf8 x | NumTok n => number n | _ => True end.
Proof.
  unfold decode_scalar. destruct (read_scalar s) as [[x r]|] eqn:E; [|done]. intros [= <- _]. unfold read_scalar in E.
  destruct s as [|c s]; [done|]. repeat case_bool_decide; apply fmap_Some in E as (y & E & Ey); simplify_eq/=; try done.
  - destruct y. simplify_eq/=. by apply read_chars_spec in E as [? _].
  - destruct y. simplify_eq/=. by apply read_number_number in E as [_ ?].
Qed.

Lemma Token_ok d t d' : NextToken d = TokenOK t d' → match t with StrTok s => utf8 s | NumTok n => number n | _ => True end.
Proof.
  unfold NextToken. destruct d as [s st stack]. simpl. revert st stack. induction s as [|c s IH]; intros st stack; cbn [token_loop]; [done|].
  destruct (json_space c); [apply IH|].
  case_bool_decide; [destruct (tokenValueAllowed st); [by intros [= <- <-]|done]|].
  case_bool_decide; [unfold close_token; destruct st; try done; (destruct stack; [done|by intros [= <- <-]])|].
  case_bool_decide; [destruct (tokenValueAllowed st); [by intros [= <- <-]|done]|].
  case_bool_decide; [unfold close_token; destruct st; try done; (destruct stack; [done|by intros [= <- <-]])|].
  case_bool_decide; [destruct st; try done; apply IH|]. case_bool_decide; [destruct st; try done; apply IH|].
  destruct (_ && _).
  - destruct (read_chars s) as [[k r]|] eqn:E; [|done]. intros [= <- <-]. by apply read_chars_spec in E as [? _].
  - destruct (tokenValueAllowed st); [apply decode_scalar_ok|done].
Qed.

Lemma reads_ok :
  (∀ d v d', reads_value d v d' → val_ok v) ∧ (∀ d l d', reads_list d l d' → Forall val_ok l) ∧
  (∀ d ms d', reads_members d ms d' → Forall (λ m, utf8 m.1 ∧ val_ok m.2) ms).
Proof.
  apply reads_mutind; intros; try done.
  - by eapply (Token_ok _ (NumTok n)).
  - by eapply (Token_ok _ (StrTok s)).
  - by apply val_ok_arr.
  - by apply val_ok_obj.
  - by constructor.
  - constructor; [|done]. split; [|done]. by eapply (Token_ok _ (StrTok k)).
Qed.

(** ** [json.Valid] on the text of a document *)

Lemma valid_run_fuel n m started d :
  (length (d_rest d) < n)%nat → (length (d_rest d) < m)%nat → valid_run n started d = valid_run m started d.
Proof.
  revert m started d. induction n as [|n IH]; intros [|m] started d Hn Hm; try lia. cbn [valid_run].
  destruct (NextToken d) as [| |t d'] eqn:E; [done..|]. apply Token_shorter in E.
  destruct (_ && _); [done|]. destruct (_ <? _); [done|]. apply IH; lia.
Qed.

(** The run from a decoder on, with enough fuel. *)
Definition valid_from (started : bool) (d : Decoder) : bool := valid_run (S (length (d_rest d))) started d.

Lemma valid_from_token started d t d' :
  NextToken d = TokenOK t d' → (started = true → d_stack d ≠ []) → Z.of_nat (length (d_stack d')) ≤ maxNestingDepth →
  valid_from started d = valid_from true d'.
Proof.
  intros E Hs Hd. unfold valid_from at 1. cbn [valid_run]. rewrite E.
  replace (started && bool_decide (d_stack d = [])) with false.
  - rewrite (proj2 (Z.ltb_ge _ _)) by done. apply Token_shorter in E. apply valid_run_fuel; simpl; lia.
  - destruct started; [|done]. by rewrite bool_decide_false by auto.
Qed.

Lemma Token_stack d t d' : NextToken d = TokenOK t d' →
  match t with
  | OpenObj | OpenArr => ∃ st, d_stack d' = st :: d_stack d
  | CloseObj | CloseArr => ∃ st, d_stack d = st :: d_stack d'
  | _ => d_stack d' = d_stack d
  end.
Proof.
  unfold NextToken. destruct d as [s st stack]. simpl. revert st stack. induction s as [|c s IH]; intros st stack; cbn [token_loop]; [done|].
  destruct (json_space c); [apply IH|].
  case_bool_decide; [destruct (tokenValueAllowed st); [intros [= <- <-]; simpl; eauto|done]|].
  case_bool_decide; [unfold close_token; destruct st; try done; (destruct stack; [done|intros [= <- <-]; simpl; eauto])|].
  case_bool_decide; [destruct (tokenValueAllowed st); [intros [= <- <-]; simpl; eauto|done]|].
  case_bool_decide; [unfold close_token; destruct st; try done; (destruct stack; [done|intros [= <- <-]; simpl; eauto])|].
  case_bool_decide; [destruct st; try done; apply IH|]. case_bool_decide; [destruct st; try done; apply IH|].
  destruct (_ && _).
  - destruct (read_chars s) as [[k r]|] eqn:E; [|done]. by intros [= <- <-].
  - destruct (tokenValueAllowed st); [|done]. unfold decode_scalar. destruct (read_scalar (c :: s)) as [[x r]|] eqn:E; [|done].
    intros [= <- <-]. unfold read_scalar in E. repeat case_bool_decide; apply fmap_Some in E as (y & _ & Ey); destruct y || idtac; by simplify_eq/=.
Qed.

Lemma More_false_close d t d' : More d = false → NextToken d = TokenOK t d' → t = CloseArr ∨ t = CloseObj.
Proof.
  unfold More, NextToken. destruct d as [s st stack]. simpl. revert st stack. induction s as [|c s IH]; intros st stack; cbn [more token_loop]; [done|].
  destruct (json_space c); [apply IH|]. intros HM%negb_false_iff. apply orb_true_iff in HM as [Hc%bool_decide_eq_true|Hc%bool_decide_eq_true]; subst c;
    (rewrite bool_decide_false by done); cbn; unfold close_token; destruct st; try done; (destruct stack; [done|intros [= <- <-]; auto]).
Qed.

Fixpoint height (v : jval) : nat :=
  match v with
  | VArr l => S (foldr Nat.max 0%nat (map height l))
  | VObj ms => S (foldr Nat.max 0%nat (map (λ m, height m.2) ms))
  | _ => 0%nat
  end.

(** How deep the values in a document are; what is empty opens one more level than that. *)
Fixpoint levels (v : jval) : nat :=
  match v with
  | VArr l => foldr Nat.max 0%nat (map (λ v, S (levels v)) l)
  | VObj ms => foldr Nat.max 0%nat (map (λ m, S (levels m.2)) ms)
  | _ => 0%nat
  end.

Lemma height_levels v : (height v ≤ S (levels v))%nat.
Proof.
  induction v as [|b|n|s|l IH|ms IH] using jval_tree_ind; simpl; try lia; apply le_n_S.
  - induction IH as [|v l Hv _ IHl]; simpl; lia.
  - induction IH as [|v l Hv _ IHl]; simpl; lia.
Qed.

Definition stays (d : Decoder) (h : nat) (d' : Decoder) : Prop :=
  d_stack d' = d_stack d ∧
  ∀ started, (started = true → d_stack d ≠ []) → Z.of_nat (length (d_stack d) + h) ≤ maxNestingDepth →
    valid_from started d = valid_from true d'.

Lemma stays_scalar d t d' h : NextToken d = TokenOK t d' → match t with StrTok _ | NumTok _ | BoolTok _ | NullTok => True | _ => False end → stays d h d'.
Proof.
  intros E Ht. assert (d_stack d' = d_stack d) as ES by (apply Token_stack in E; by destruct t). split; [done|].
  intros started Hs Hh. eapply valid_from_token; [done..|]. rewrite ES. lia.
Qed.

(** Opening, a body that stays within, closing. *)
Lemma stays_nested d t d1 d2 t' d' h :
  NextToken d = TokenOK t d1 → (t = OpenArr ∨ t = OpenObj) →
  (d_stack d2 = d_stack d1 ∧ (d_stack d1 ≠ [] → Z.of_nat (length (d_stack d1) + h) ≤ maxNestingDepth → valid_from true d1 = valid_from true d2)) →
  More d2 = false → NextToken d2 = TokenOK t' d' → stays d (S h) d'.
Proof.
  intros E Ht [ES HV] HM E'. assert (∃ st, d_stack d1 = st :: d_stack d) as [st E1] by (apply Token_stack in E; by destruct Ht as [->| ->]).
  assert (∃ st, d_stack d2 = st :: d_stack d') as [st' E2] by (pose proof (Token_stack _ _ _ E') as HS; by destruct (More_false_close _ _ _ HM E') as [->| ->]).
  rewrite ES, E1 in E2. injection E2 as <- E2. split; [done|]. intros started Hs Hh. rewrite E1 in HV.
  rewrite (valid_from_token started d t d1) by (rewrite ?E1; simpl; auto; lia). rewrite HV by (done || (simpl; lia)).
  eapply valid_from_token; [done| |rewrite <-E2; lia]. rewrite ES, E1. done.
Qed.

Lemma reads_stays :
  (∀ d v d', reads_value d v d' → stays d (height v) d') ∧
  (∀ d l d', reads_list d l d' → d_stack d' = d_stack d ∧ (d_stack d ≠ [] →
     Z.of_nat (length (d_stack d) + foldr Nat.max 0%nat (map height l)) ≤ maxNestingDepth → valid_from true d = valid_from true d')) ∧
  (∀ d ms d', reads_members d ms d' → d_stack d' = d_stack d ∧ (d_stack d ≠ [] →
     Z.of_nat (length (d_stack d) + foldr Nat.max 0%nat (map (λ m, height m.2) ms)) ≤ maxNestingDepth → valid_from true d = valid_from true d')).
Proof.
  apply reads_mutind; intros.
  - by eapply stays_scalar.
  - by eapply stays_scalar.
  - by eapply stays_scalar.
  - by eapply stays_scalar.
  - eapply stays_nested; eauto.
  - eapply stays_nested; eauto.
  - done.
  - destruct H1 as [E1 V1], H3 as [E3 V3]. split; [congruence|]. intros Hne HL. simpl in HL.
    rewrite V1 by (done || lia). apply V3; [congruence|]. rewrite E1. lia.
  - done.
  - destruct H2 as [E2 V2], H4 as [E4 V4]. pose proof (Token_stack _ _ _ H0) as ES. simpl in ES. split; [congruence|]. intros Hne HL. simpl in HL.
    rewrite (valid_from_token true d (StrTok k) d1) by (done || (rewrite ES; lia)). rewrite V2 by (rewrite ES; done || lia).
    apply V4; [congruence|]. rewrite E2, ES. lia.
Qed.

(** The text of a document that is not too deep is valid. *)
Lemma Valid_print v : val_ok v → Z.of_nat (height v) ≤ maxNestingDepth → Valid (print v) = true.
Proof.
  intros Hv Hh. pose proof (print_reads v tokenTopValue [] [] Hv eq_refl I) as HR. rewrite app_nil_r in HR.
  destruct (proj1 reads_stays _ _ _ HR) as [_ HV]. unfold Valid. change (valid_run _ false _) with (valid_from false (NewDecoder (print v))).
  unfold NewDecoder. rewrite HV; done.
Qed.
