(* ===== verification/Ano.v ===== *)
(** The anonymiser: [src/ano/ano.go], [src/ano/rules.go], [src/ano/vault.go], [src/ano/classifier.go].

    What leaves the cell is masked: the rules, the patterns and a local classifier decide which values of a
    JSON document are replaced by tokens [TBP_VAR_n]; the table from tokens to values is kept in memory for the time
    of an exchange, and a document that comes back gets its values again.

    The walk over a document is the one of the code, token by token on the bytes ([GoJson]), so what it has
    already put in the table when it fails is there too. A text is its bytes. [Regexp] stands for the patterns of the
    deployment; the two expressions that the package fixes itself are written out. [Classifier] says how the
    calls to the classifier end, as a function of their number. One call at a time works on an exchange. *)
From S2P Require Import Prelude.
From S2P Require Import Json.
From S2P Require Import Leaf.
From S2P Require Import Effects.
From S2P Require Import GoStrings.
From S2P Require Import GoJson.

Local Open Scope Z_scope.

Definition DefaultMaxExchanges : Z := 1024.
Definition DefaultMaxEntries : Z := 1024.
Definition DefaultMaxPayloadBytes : Z := 2 ^ 20.
Definition DefaultMaxTTL : Z := 24 * hour.
Definition DefaultMaxClassifyCall : Z := 64.
Definition maxJSONDepth : nat := 32.
Definition maxRulePaths : nat := 256.
Definition maxRulePatterns : nat := 64.
Definition maxPatternLen : nat := 512.
Definition maxPathSegments : nat := 16.
Definition maxExchangeIDLen : nat := 128.
Definition DefaultClassifierTimeout : Z := 5 * millisecond.
Definition minClassifierTimeout : Z := millisecond.
Definition maxClassifierTimeout : Z := 100 * millisecond.
Definition DefaultClassifierInflight : Z := 16.
Definition MaxClassifyBytes : nat := 4096.
Definition TripClassifierFault : string := "ano-classifier-fault".
Definition TripVaultSaturated : string := "ano-vault-saturated".
Definition TripEntriesSaturated : string := "ano-entries-saturated".

Inductive ano_error :=
  | ErrUnparsable | ErrAnoTooLarge | ErrUnknownPlaceholder | ErrReservedToken
  | ErrVaultSaturated | ErrTooManyEntries | ErrExchangeUnknown | ErrBadExpiry | ErrBadExchangeID | ErrEntropy
  | ErrRules | ErrAnoOptions
  | OutOfFuel.   (* never reached: see [maskValue_total] *)

(** The part of a text from [i] to [j]. *)
Definition text_slice {A} (l : list A) (i j : nat) : list A := take (j - i) (drop i l).

(** ** Rules *)

(** The regular expressions of package regexp. *)
Class Regexp := {
  regex : Type;
  Compile : string → option regex;
  FindAllIndex : regex → bytes → list (nat * nat);   (* FindAllStringIndex(s, -1) *)
}.

Record PatternRule := mkPatternRule { pt_Name : string; pt_Regex : string }.
Record RulesConfig := mkRulesConfig { rc_KeepPaths : list string; rc_MaskPaths : list string; rc_Patterns : list PatternRule }.

Abbreviation pathRule := (list string).

Record text_span := mkSpan { sp_start : nat; sp_end : nat }.

Definition name_char (b : byte) : bool := between 97 122 b || between 48 57 b || bool_decide (b = Byte.x5f) || bool_decide (b = Byte.x2d).

(** [validPatternName]: the loop is over runes, and only characters below 0x80 pass. *)
Definition validPatternName (n : string) : bool :=
  (1 <=? slen n)%nat && (slen n <=? 32)%nat && forallb name_char (sb n).

Definition parsePath (p : string) : option pathRule :=
  if bool_decide (p = "") then None
  else
    let segs := Split dot p in
    if (maxPathSegments <? length segs)%nat then None
    else if existsb (λ s, bool_decide (s = "")) segs then None
    else Some segs.

(** The length of the rule when it is a prefix, with jokers, of the path; [None] is -1. *)
Fixpoint matchLen_from (pr : pathRule) (path : list string) : option nat :=
  match pr, path with
  | [], _ => Some O
  | _ :: _, [] => None
  | seg :: pr, p :: path => if bool_decide (seg ≠ "*" ∧ seg ≠ p) then None else S <$> matchLen_from pr path
  end.
Definition matchLen (pr : pathRule) (path : list string) : option nat :=
  if (length path <? length pr)%nat then None else matchLen_from pr path.

Inductive rule_verdict := verdictNone | verdictKeep | verdictMask.
#[global] Instance verdict_eq_dec : EqDecision rule_verdict.
Proof. solve_decision. Defined.

(** The longest match; [None] is -1. *)
Definition longer (a b : option nat) : option nat :=
  match a, b with
  | Some x, Some y => Some (if (x <? y)%nat then y else x)
  | None, b => b
  | a, None => a
  end.
Definition longest (rules : list pathRule) (path : list string) : option nat :=
  foldl (λ best pr, longer best (matchLen pr path)) None rules.

Definition lessSpan (a b : text_span) : bool :=
  if negb (sp_start a =? sp_start b)%nat then (sp_start a <? sp_start b)%nat
  else ((sp_end b - sp_start b) <? (sp_end a - sp_start a))%nat.

(** The inner loop of the sort: [x] goes left past the spans it is less than. The list is reversed. *)
Fixpoint sift (x : text_span) (before : list text_span) : list text_span :=
  match before with
  | y :: before' => if lessSpan x y then y :: sift x before' else x :: before
  | [] => [x]
  end.
Definition sort_spans (all : list text_span) : list text_span := reverse (foldl (λ acc x, sift x acc) [] all).

(** The spans that do not begin before the end of the last one kept. *)
Fixpoint drop_overlaps (last : nat) (all : list text_span) : list text_span :=
  match all with
  | [] => []
  | sp :: all => if (last <=? sp_start sp)%nat then sp :: drop_overlaps (sp_end sp) all else drop_overlaps last all
  end.

Section rules.
Context `{Regexp}.

Record Rules := mkRules { ru_keep : list pathRule; ru_mask : list pathRule; ru_patterns : list (string * regex) }.

(** The loop over the patterns; [seen] holds the names already met. *)
Fixpoint compile_patterns (seen : gset string) (ps : list PatternRule) : option (list (string * regex)) :=
  match ps with
  | [] => Some []
  | p :: ps =>
      if negb (validPatternName (pt_Name p)) then None
      else if bool_decide (pt_Name p ∈ seen) then None
      else if bool_decide (pt_Regex p = "") || (maxPatternLen <? slen (pt_Regex p))%nat then None
      else
        re ← Compile (pt_Regex p);
        (* re.MatchString("") *)
        if negb (length (FindAllIndex re []) =? 0)%nat then None
        else
          rest ← compile_patterns ({[pt_Name p]} ∪ seen) ps;
          Some ((pt_Name p, re) :: rest)
  end.

(** [NewRules]; every error is [ErrRules]. *)
Definition NewRules (cfg : RulesConfig) : option Rules :=
  if (maxRulePaths <? length (rc_KeepPaths cfg))%nat || (maxRulePaths <? length (rc_MaskPaths cfg))%nat then None
  else if (maxRulePatterns <? length (rc_Patterns cfg))%nat then None
  else
    keep ← mapM parsePath (rc_KeepPaths cfg);
    mask ← mapM parsePath (rc_MaskPaths cfg);
    patterns ← compile_patterns ∅ (rc_Patterns cfg);
    Some (mkRules keep mask patterns).

(** [Rules.decide]: the longest prefix wins, and masking wins when they are equal. *)
Definition rules_decide (r : Rules) (path : list string) : rule_verdict :=
  match longest (ru_keep r) path, longest (ru_mask r) path with
  | Some k, Some m => if (k <=? m)%nat then verdictMask else verdictKeep
  | None, Some _ => verdictMask
  | Some _, None => verdictKeep
  | None, None => verdictNone
  end.

(** [findSpans]: the matches of all patterns on the text, sorted, without overlaps. *)
Definition all_matches (r : Rules) (s : bytes) : list text_span :=
  concat ((λ p, (λ m, mkSpan m.1 m.2) <$> filter (λ m, (m.1 < m.2)%nat) (FindAllIndex p.2 s)) <$> ru_patterns r).

Definition findSpans (r : Rules) (s : bytes) : list text_span :=
  if bool_decide (ru_patterns r = []) || bool_decide (s = []) then []
  else drop_overlaps 0 (sort_spans (all_matches r s)).
End rules.

(** ** Tokens in a text *)

Definition token_prefix : bytes := sb "TBP_VAR_".

(** A match of [TBP_VAR_[0-9]{1,9}] at the front: its length. *)
Definition token_at (s : bytes) : option nat :=
  if bool_decide (take 8 s = token_prefix) then
    match length (read_digits (drop 8 s)).1 with
    | O => None
    | n => Some (8 + Nat.min 9 n)%nat
    end
  else None.

(** [tokenRe.FindAllStringIndex(s, -1)]; [skip] bytes belong to the last match. *)
Fixpoint token_locs (skip pos : nat) (s : bytes) : list (nat * nat) :=
  match s with
  | [] => []
  | _ :: s' =>
      match skip with
      | S skip => token_locs skip (S pos) s'
      | O =>
          match token_at s with
          | Some n => (pos, (pos + n)%nat) :: token_locs (n - 1) (S pos) s'
          | None => token_locs 0 (S pos) s'
          end
      end
  end.

(** [tokenRe.MatchString], [exactTokenRe.MatchString]. *)
Definition has_token (s : bytes) : bool := negb (bool_decide (token_locs 0 0 s = [])).
Definition exact_token (s : bytes) : bool := bool_decide (token_at s = Some (length s)).

(** ** Numbers with an exponent *)

Fixpoint drop_zeros (s : bytes) : bytes :=
  match s with b :: s' => if bool_decide (b = zero_digit) then drop_zeros s' else s | [] => [] end.

(** The groups of [^(-?)([0-9]+)(?:\.([0-9]+))?[eE]([+-]?)0*([0-9]{1,2})$]: the sign, the digits before and after the
    point, whether the exponent is negative, its last digits. *)
Definition exponent_groups (text : bytes) : option (bytes * bytes * bytes * bool * bytes) :=
  let '(sign, s0) := read_sign text in
  '(intPart, s1) ← read_digits1 s0;
  '(frac, s2) ← (match s1 with
                 | b :: s' => if bool_decide (b = dot) then read_digits1 s' else Some ([], s1)
                 | [] => Some ([], s1)
                 end : option (bytes * bytes));
  match s2 with
  | m :: s3 =>
      if negb (exp_mark m) then None
      else
        let '(neg, s4) := match s3 with
                          | c :: s' => if bool_decide (c = minus) then (true, s') else if bool_decide (c = plus) then (false, s') else (false, s3)
                          | [] => (false, s3)
                          end in
        '(ds, s5) ← read_digits1 s4;
        if bool_decide (s5 ≠ []) then None
        else match drop_zeros ds with
             | [] => Some (sign, intPart, frac, neg, [zero_digit])
             | e => if (length e <=? 2)%nat then Some (sign, intPart, frac, neg, e) else None
             end
  | [] => None
  end.

Definition digit_value (b : byte) : Z := b2z b - 48.
Definition digits_value (ds : bytes) : Z := foldl (λ n b, 10 * n + digit_value b) 0 ds.

Definition trim_zeros_right (s : bytes) : bytes := reverse (drop_zeros (reverse s)).
Definition trim_dot (s : bytes) : bytes :=
  match last s with Some b => if bool_decide (b = dot) then removelast s else s | None => s end.

(** The digits with a point at [point]. *)
Definition place_point (digs : bytes) (point : Z) : bytes :=
  let n := Z.of_nat (length digs) in
  if n <=? point then digs ++ replicate (Z.to_nat (point - n)) zero_digit
  else if point <=? 0 then [zero_digit; dot] ++ replicate (Z.to_nat (- point)) zero_digit ++ digs
  else take (Z.to_nat point) digs ++ [dot] ++ drop (Z.to_nat point) digs.

(** [expandExponent]: the plain decimal form of a number written with an exponent. *)
Definition expandExponent (text : bytes) : option bytes :=
  match exponent_groups text with
  | None => None
  | Some (sign, intPart, frac, neg, e) =>
      let exp := if neg : bool then - digits_value e else digits_value e in
      let digs := intPart ++ frac in
      let point := Z.of_nat (length intPart) + exp in
      let out := place_point digs point in
      let out := if existsb (λ b, bool_decide (b = dot)) out then trim_dot (trim_zeros_right out) else out in
      let out := drop_zeros out in
      let out := match out with
                 | [] => zero_digit :: out
                 | b :: _ => if bool_decide (b = dot) then zero_digit :: out else out
                 end in
      Some (sign ++ out)
  end.

(** ** The table of an exchange *)

Definition kindLeaf : byte := Byte.x01.
Definition kindSpan : byte := Byte.x02.

Record vault_entry := mkEntry { en_kind : byte; en_orig : bytes }.

Record exchange := mkExchange {
  ex_expires : Z;
  ex_dkey : bytes;
  ex_n : Z;
  ex_byHash : gmap bytes string;
  ex_byTok : gmap string vault_entry;
  ex_lookups : Z;
}.

(** [json.Unmarshal] into a string. *)
Definition unmarshalString (raw : bytes) : option bytes :=
  match NextToken (NewDecoder raw) with
  | TokenOK t d =>
      match NextToken d with
      | TokenEOF => match t with StrTok s => Some s | NullTok => Some [] | _ => None end
      | _ => None
      end
  | _ => None
  end.

(** [entry.text]. *)
Definition entry_text (e : vault_entry) : bytes :=
  if bool_decide (en_kind e = kindLeaf) && bool_decide (head (en_orig e) = Some quote)
  then default (en_orig e) (unmarshalString (en_orig e)) else en_orig e.

Definition alive (now : Z) (e : exchange) : bool := now <? ex_expires e.

Definition token_name (n : Z) : string := "TBP_VAR_" +:+ Itoa n.

Definition set_tables (n : Z) (h : gmap bytes string) (k : gmap string vault_entry) (e : exchange) : exchange :=
  mkExchange (ex_expires e) (ex_dkey e) n h k (ex_lookups e).

Section vault.
Context `{Crypto}.

Definition entry_key (dkey : bytes) (e : vault_entry) : bytes := sha256 (dkey ++ [en_kind e] ++ en_orig e).

(** [exchange.intern]. *)
Definition intern (kind : byte) (orig : bytes) (maxEntries : Z) (e : exchange) : (ano_error + string) * exchange :=
  let ent := mkEntry kind orig in
  let key := entry_key (ex_dkey e) ent in
  match ex_byHash e !! key with
  | Some tok => (inr tok, e)
  | None =>
      if maxEntries <=? Z.of_nat (size (ex_byTok e)) then (inl ErrTooManyEntries, e)
      else
        let n := ex_n e + 1 in
        let tok := token_name n in
        (inr tok, set_tables n (<[key := tok]> (ex_byHash e)) (<[tok := ent]> (ex_byTok e)) e)
  end.

(** [exchange.lookup]. *)
Definition lookup_token (tok : string) (e : exchange) : option vault_entry * exchange :=
  (ex_byTok e !! tok, mkExchange (ex_expires e) (ex_dkey e) (ex_n e) (ex_byHash e) (ex_byTok e) (ex_lookups e + 1)).

(** ** The table of the exchanges *)

Record vault := mkVault {
  va_ex : gmap string exchange;
  va_maxExchanges : Z;
  va_maxEntries : Z;
  va_maxTTL : Z;
  va_trip : bool;
}.

Definition set_ex (m : gmap string exchange) (v : vault) : vault :=
  mkVault m (va_maxExchanges v) (va_maxEntries v) (va_maxTTL v) (va_trip v).

(** [vault_purgeLocked]: the exchanges that have expired leave the table. *)
Definition vault_purgeLocked (now : Z) (v : vault) : vault := set_ex (filter (λ kv, alive now kv.2 = true) (va_ex v)) v.

(** [vault.open]; [dkey] is what the random source gives. An exchange that is there keeps its expiry. *)
Definition vault_open (id : string) (expiry now : Z) (dkey : option bytes) (v : vault) (t : trace) :
    (ano_error + exchange) * vault * trace :=
  if (slen id <? 1)%nat || (maxExchangeIDLen <? slen id)%nat then (inl ErrBadExchangeID, v, t)
  else
    let v1 := vault_purgeLocked now v in
    match va_ex v1 !! id with
    | Some e => (inr e, v1, t)
    | None =>
        if expiry <=? now then (inl ErrBadExpiry, v1, t)
        else
          let limit := now + va_maxTTL v in
          let expires := if limit <? expiry then limit else expiry in
          if va_maxExchanges v <=? Z.of_nat (size (va_ex v1)) then (inl ErrVaultSaturated, v1, call_alarm (va_trip v) TripVaultSaturated t)
          else match dkey with
               | None => (inl ErrEntropy, v1, t)
               | Some k =>
                   let e := mkExchange expires k 0 ∅ ∅ 0 in
                   (inr e, set_ex (<[id := e]> (va_ex v1)) v1, t)
               end
    end.

(** [vault.get], [vault.close], [vault.size]. *)
Definition vault_get (id : string) (now : Z) (v : vault) : (ano_error + exchange) * vault :=
  let v1 := vault_purgeLocked now v in
  (match va_ex v1 !! id with Some e => inr e | None => inl ErrExchangeUnknown end, v1).

Definition vault_close (id : string) (v : vault) : vault := set_ex (delete id (va_ex v)) v.

Definition vault_size (now : Z) (v : vault) : Z * vault :=
  let v1 := vault_purgeLocked now v in (Z.of_nat (size (va_ex v1)), v1).
End vault.

(** ** The engine *)

Record Report := mkReport {
  rp_Leaves : Z; rp_Kept : Z; rp_MaskedPath : Z; rp_MaskedClassifier : Z; rp_MaskedDefault : Z;
  rp_ClassifierFaults : Z; rp_ClassifierCalls : Z; rp_Spans : Z; rp_Restored : Z;
}.
Definition no_report : Report := mkReport 0 0 0 0 0 0 0 0 0.

(** [Report.Masked]. *)
Definition report_Masked (r : Report) : Z :=
  rp_MaskedPath r + rp_MaskedClassifier r + rp_MaskedDefault r + rp_ClassifierFaults r.

Definition report_add (a b : Report) : Report :=
  mkReport (rp_Leaves a + rp_Leaves b) (rp_Kept a + rp_Kept b) (rp_MaskedPath a + rp_MaskedPath b)
    (rp_MaskedClassifier a + rp_MaskedClassifier b) (rp_MaskedDefault a + rp_MaskedDefault b)
    (rp_ClassifierFaults a + rp_ClassifierFaults b) (rp_ClassifierCalls a + rp_ClassifierCalls b)
    (rp_Spans a + rp_Spans b) (rp_Restored a + rp_Restored b).

(** One more of a count. *)
Definition one_Leaf : Report := mkReport 1 0 0 0 0 0 0 0 0.
Definition one_Kept : Report := mkReport 0 1 0 0 0 0 0 0 0.
Definition one_MaskedPath : Report := mkReport 0 0 1 0 0 0 0 0 0.
Definition one_MaskedClassifier : Report := mkReport 0 0 0 1 0 0 0 0 0.
Definition one_MaskedDefault : Report := mkReport 0 0 0 0 1 0 0 0 0.
Definition one_ClassifierFault : Report := mkReport 0 0 0 0 0 1 0 0 0.
Definition one_ClassifierCall : Report := mkReport 0 0 0 0 0 0 1 0 0.
Definition more_Spans (n : Z) : Report := mkReport 0 0 0 0 0 0 0 n 0.
Definition more_Restored (n : Z) : Report := mkReport 0 0 0 0 0 0 0 0 n.

(** How a call to the classifier ends: no place among the calls in flight, too late, an error, an answer. *)
Inductive classify_outcome := ClassifierBusy | ClassifierLate | ClassifierErr | ClassifierSays (mask : bool).

(** The classifier, by the number of the call; [None] is a nil classifier. *)
Abbreviation Classifier := (option (Z → string → bytes → classify_outcome)).

Section engine.
Context `{Crypto, Regexp}.

Record Ano := mkAno {
  an_rules : Rules;
  an_classifier : Classifier;
  an_classifierTimeout : Z;
  an_maxClassifyCalls : Z;
  an_inflight : Z;
  an_maxPayload : Z;
  an_maxEntries : Z;   (* a.v.maxEntries *)
  an_onTrip : bool;
}.

Definition default_if_zero (v d : Z) : Z := if v =? 0 then d else v.

(** [New]. *)
Definition NewAno (rules : option Rules) (classifier : Classifier)
    (timeout inflight calls maxEx maxEnt maxPayload ttl : Z) (onTrip : bool) : option (Ano * vault) :=
  match rules with
  | None => None
  | Some r =>
      let timeout := default_if_zero timeout DefaultClassifierTimeout in
      if (timeout <? minClassifierTimeout) || (maxClassifierTimeout <? timeout) then None
      else
        let inflight := default_if_zero inflight DefaultClassifierInflight in
        let calls := default_if_zero calls DefaultMaxClassifyCall in
        let maxEx := default_if_zero maxEx DefaultMaxExchanges in
        let maxEnt := default_if_zero maxEnt DefaultMaxEntries in
        let maxPayload := default_if_zero maxPayload DefaultMaxPayloadBytes in
        let ttl := default_if_zero ttl DefaultMaxTTL in
        if (inflight <? 0) || (calls <? 0) || (maxEx <? 0) || (maxEnt <? 0) || (maxPayload <? 0) || (ttl <? 0) || (DefaultMaxTTL <? ttl) then None
        else Some (mkAno r classifier timeout calls inflight maxPayload maxEnt onTrip, mkVault ∅ maxEx maxEnt ttl onTrip)
  end.

(** ** The state of one call *)

Record mask_state := mkMaskState { ms_ex : exchange; ms_rep : Report; ms_trace : trace }.

(** A computation on the exchange and the report that may end with an error. *)
Definition mask_m (A : Type) : Type := mask_state → (ano_error + A) * mask_state.
#[global] Instance mask_ret : MRet mask_m := λ A x s, (inr x, s).
#[global] Instance mask_bind : MBind mask_m := λ A B f m s,
  match m s with (inl e, s1) => (inl e, s1) | (inr x, s1) => f x s1 end.
Definition fail_m {A} (e : ano_error) : mask_m A := λ s, (inl e, s).
Definition count_m (r : Report) : mask_m unit := λ s, (inr tt, mkMaskState (ms_ex s) (report_add (ms_rep s) r) (ms_trace s)).
Definition alarm_m (a : Ano) (reason : string) : mask_m unit :=
  λ s, (inr tt, mkMaskState (ms_ex s) (ms_rep s) (call_alarm (an_onTrip a) reason (ms_trace s))).
Definition get_rep : mask_m Report := λ s, (inr (ms_rep s), s).

(** A value put in the table; a full table raises an alarm. *)
Definition intern_m (a : Ano) (kind : byte) (orig : bytes) : mask_m string := λ s,
  match intern kind orig (an_maxEntries a) (ms_ex s) with
  | (inr tok, ex) => (inr tok, mkMaskState ex (ms_rep s) (ms_trace s))
  | (inl e, ex) => (inl e, mkMaskState ex (ms_rep s) (call_alarm (an_onTrip a) TripEntriesSaturated (ms_trace s)))
  end.

Definition lookup_m (tok : bytes) : mask_m vault_entry := λ s,
  let '(r, ex) := lookup_token (bs tok) (ms_ex s) in
  (match r with Some e => inr e | None => inl ErrUnknownPlaceholder end, mkMaskState ex (ms_rep s) (ms_trace s)).

(** ** Masking a leaf *)

(** [classify]: whether to mask, and whether the call failed. *)
Definition classify (a : Ano) (path : string) (value : bytes) : mask_m (bool * bool) := λ s,
  match an_classifier a with
  | None => (inr (true, false), s)
  | Some f =>
      match f (rp_ClassifierCalls (ms_rep s)) path (take MaxClassifyBytes value) with
      | ClassifierSays m => (inr (m, false), s)
      | _ => (inr (true, true), mkMaskState (ms_ex s) (ms_rep s) (call_alarm (an_onTrip a) TripClassifierFault (ms_trace s)))
      end
  end.

(** [numberMatchesPattern]. *)
Definition numberMatchesPattern (a : Ano) (text : bytes) : bool :=
  if (0 <? length (findSpans (an_rules a) text))%nat then true
  else match expandExponent text with
       | Some plain => (0 <? length (findSpans (an_rules a) plain))%nat
       | None => false
       end.

(** [writeLeafToken]. *)
Definition writeLeafToken (a : Ano) (raw : bytes) : mask_m bytes :=
  tok ← intern_m a kindLeaf raw; mret (encode_string (sb tok)).

(** The loop over the spans of a string. *)
Fixpoint splice (a : Ano) (text : bytes) (last : nat) (spans : list text_span) : mask_m bytes :=
  match spans with
  | [] => mret (drop last text)
  | sp :: spans =>
      tok ← intern_m a kindSpan (text_slice text (sp_start sp) (sp_end sp));
      rest ← splice a text (sp_end sp) spans;
      mret (text_slice text last (sp_start sp) ++ sb tok ++ rest)
  end.

(** [emitKept]. *)
Definition emitKept (a : Ano) (raw text : bytes) (isString : bool) : mask_m bytes :=
  if negb isString && numberMatchesPattern a text then
    _ ← count_m (more_Spans 1); writeLeafToken a raw
  else
    let spans := if isString then findSpans (an_rules a) text else [] in
    match spans with
    | [] => _ ← count_m one_Kept; mret raw
    | _ =>
        out ← splice a text 0 spans;
        _ ← count_m (more_Spans (Z.of_nat (length spans)));
        _ ← count_m one_Kept;
        mret (encode_string out)
    end.

(** [strings.Join(path, dot)]. *)
Definition join_path (path : list string) : string := String.concat "." path.

(** [maskLeaf]: the bytes that it writes. *)
Definition maskLeaf (a : Ano) (path : list string) (raw text : bytes) (isString : bool) : mask_m bytes :=
  _ ← count_m one_Leaf;
  if isString && has_token text then fail_m ErrReservedToken
  else match rules_decide (an_rules a) path with
  | verdictMask => _ ← count_m one_MaskedPath; writeLeafToken a raw
  | verdictKeep => emitKept a raw text isString
  | verdictNone =>
      if bool_decide (text = []) then _ ← count_m one_Kept; mret raw
      else
        rep ← get_rep;
        let plugged := match an_classifier a with Some _ => true | None => false end in
        if plugged && (an_maxClassifyCalls a <=? rp_ClassifierCalls (rep : Report)) then
          _ ← count_m one_MaskedDefault; writeLeafToken a raw
        else
          _ ← (if plugged then count_m one_ClassifierCall else mret tt);
          r ← classify a (join_path path) text;
          let '(mask, fault) := (r : bool * bool) in
          _ ← (if fault then count_m one_ClassifierFault
               else if negb plugged then count_m one_MaskedDefault
               else if mask then count_m one_MaskedClassifier else mret tt);
          if mask then writeLeafToken a raw else emitKept a raw text isString
  end.

(** ** Masking a document *)

(** The token that closes an array or an object. *)
Definition close_m {A} (d : Decoder) (k : Decoder → A) : mask_m A :=
  match NextToken d with TokenOK _ d' => mret (k d') | _ => fail_m ErrUnparsable end.

(** [maskValue] and its two loops: what they write, and the decoder after it. *)
Fixpoint maskValue (fuel : nat) (a : Ano) (d : Decoder) (path : list string) (depth : nat) : mask_m (bytes * Decoder) :=
  match fuel with
  | O => fail_m OutOfFuel
  | S fuel =>
      if (maxJSONDepth <? depth)%nat then fail_m ErrUnparsable
      else match NextToken d with
      | TokenEOF | TokenSyntax => fail_m ErrUnparsable
      | TokenOK t d1 =>
          match t with
          | OpenObj =>
              r ← maskMembers fuel a d1 path depth true;
              close_m r.2 (λ d3, ([Byte.x7b] ++ r.1 ++ [Byte.x7d], d3))
          | OpenArr =>
              r ← maskElements fuel a d1 path depth 0;
              close_m r.2 (λ d3, ([Byte.x5b] ++ r.1 ++ [Byte.x5d], d3))
          | CloseObj | CloseArr => fail_m ErrUnparsable
          | StrTok s => w ← maskLeaf a path (encode_string s) s true; mret (w, d1)
          | NumTok n => w ← maskLeaf a path n n false; mret (w, d1)
          | BoolTok b => mret (if b then sb "true" else sb "false", d1)
          | NullTok => mret (sb "null", d1)
          end
      end
  end
with maskMembers (fuel : nat) (a : Ano) (d : Decoder) (path : list string) (depth : nat) (first : bool) : mask_m (bytes * Decoder) :=
  match fuel with
  | O => fail_m OutOfFuel
  | S fuel =>
      if More d then
        match NextToken d with
        | TokenOK (StrTok key) d1 =>
            v ← maskValue fuel a d1 (path ++ [bs key]) (S depth);
            r ← maskMembers fuel a v.2 path depth false;
            mret ((if first then [] else [comma]) ++ encode_string key ++ [Byte.x3a] ++ v.1 ++ r.1, r.2)
        | _ => fail_m ErrUnparsable
        end
      else mret ([], d)
  end
with maskElements (fuel : nat) (a : Ano) (d : Decoder) (path : list string) (depth : nat) (i : Z) : mask_m (bytes * Decoder) :=
  match fuel with
  | O => fail_m OutOfFuel
  | S fuel =>
      if More d then
        v ← maskValue fuel a d (path ++ [Itoa i]) (S depth);
        r ← maskElements fuel a v.2 path depth (i + 1);
        mret ((if 0 <? i then [comma] else []) ++ v.1 ++ r.1, r.2)
      else mret ([], d)
  end.

(** Twice the bytes that are left: a value takes one, and a turn of a loop hands over to a value. *)
Definition enough (s : bytes) : nat := S (S (2 * length s)).

(** What [MaskJSON] and [Unmask] do to the exchange [id] of the table. *)
Definition with_exchange {A} (id : string) (now : Z) (v : vault) (t : trace) (m : mask_m A) :
    (ano_error + A) * Report * vault * trace :=
  match vault_get id now v with
  | (inl e, v1) => (inl e, no_report, v1, t)
  | (inr ex, v1) =>
      let '(r, s) := m (mkMaskState ex no_report t) in
      (r, ms_rep s, set_ex (<[id := ms_ex s]> (va_ex v1)) v1, ms_trace s)
  end.

Definition too_large (a : Ano) (s : bytes) : bool := an_maxPayload a <? Z.of_nat (length s).

(** [MaskJSON]. *)
Definition mask_document (a : Ano) (payload : bytes) : mask_m bytes :=
  r ← maskValue (enough payload) a (NewDecoder payload) [] 0;
  match NextToken r.2 with
  | TokenEOF => if too_large a r.1 then fail_m ErrAnoTooLarge else mret r.1
  | _ => fail_m ErrUnparsable
  end.

Definition MaskJSON (a : Ano) (id : string) (payload : bytes) (now : Z) (v : vault) (t : trace) :
    (ano_error + bytes) * Report * vault * trace :=
  if too_large a payload then (inl ErrAnoTooLarge, no_report, v, t)
  else with_exchange id now v t (mask_document a payload).

(** [MaskField]. *)
Definition mask_field (a : Ano) (path : list string) (value : bytes) : mask_m bytes :=
  out ← maskLeaf a path (encode_string value) value true;
  match unmarshalString out with Some s => mret s | None => fail_m ErrUnparsable end.

Definition MaskField (a : Ano) (id : string) (path : list string) (value : bytes) (now : Z) (v : vault) (t : trace) :
    (ano_error + bytes) * Report * vault * trace :=
  if too_large a value then (inl ErrAnoTooLarge, no_report, v, t)
  else with_exchange id now v t (mask_field a path value).

(** ** Restoring a document *)

(** The loop of [resolveText]; [acc] is what is built so far. *)
Fixpoint resolve_loop (a : Ano) (s : bytes) (last : nat) (acc : bytes) (locs : list (nat * nat)) : mask_m bytes :=
  match locs with
  | [] =>
      let acc := acc ++ drop last s in
      if too_large a acc then fail_m ErrAnoTooLarge else mret acc
  | (i, j) :: locs =>
      e ← lookup_m (text_slice s i j);
      let acc := acc ++ text_slice s last i ++ entry_text e in
      if too_large a acc then fail_m ErrAnoTooLarge else resolve_loop a s j acc locs
  end.

(** [resolveText]: the text, and how many tokens it held. *)
Definition resolveText (a : Ano) (s : bytes) : mask_m (bytes * Z) :=
  let locs := token_locs 0 0 s in
  match locs with
  | [] => mret (s, 0)
  | _ => r ← resolve_loop a s 0 [] locs; mret (r, Z.of_nat (length locs))
  end.

(** A string of the document. *)
Definition unmask_string (a : Ano) (s : bytes) : mask_m bytes :=
  if exact_token s then
    e ← lookup_m s;
    _ ← count_m (more_Restored 1);
    mret (if bool_decide (en_kind e = kindLeaf) then en_orig e else encode_string (en_orig e))
  else if has_token s then
    r ← resolveText a s;
    _ ← count_m (more_Restored r.2);
    mret (encode_string r.1)
  else mret (encode_string s).

(** The last test of [unmaskValue]. *)
Definition bounded_m (a : Ano) (out : bytes) (d : Decoder) : mask_m (bytes * Decoder) :=
  if too_large a out then fail_m ErrAnoTooLarge else mret (out, d).

(** [unmaskValue] and its two loops; [out] is the buffer. *)
Fixpoint unmaskValue (fuel : nat) (a : Ano) (d : Decoder) (out : bytes) (depth : nat) : mask_m (bytes * Decoder) :=
  match fuel with
  | O => fail_m OutOfFuel
  | S fuel =>
      if (maxJSONDepth <? depth)%nat then fail_m ErrUnparsable
      else match NextToken d with
      | TokenEOF | TokenSyntax => fail_m ErrUnparsable
      | TokenOK t d1 =>
          if too_large a out then fail_m ErrAnoTooLarge
          else match t with
          | OpenObj =>
              r ← unmaskMembers fuel a d1 (out ++ [Byte.x7b]) depth true;
              c ← close_m r.2 (λ d3, (r.1 ++ [Byte.x7d], d3));
              bounded_m a c.1 c.2
          | OpenArr =>
              r ← unmaskElements fuel a d1 (out ++ [Byte.x5b]) depth 0;
              c ← close_m r.2 (λ d3, (r.1 ++ [Byte.x5d], d3));
              bounded_m a c.1 c.2
          | CloseObj | CloseArr => bounded_m a out d1
          | StrTok s => w ← unmask_string a s; bounded_m a (out ++ w) d1
          | NumTok n => bounded_m a (out ++ n) d1
          | BoolTok b => bounded_m a (out ++ (if b then sb "true" else sb "false")) d1
          | NullTok => bounded_m a (out ++ sb "null") d1
          end
      end
  end
with unmaskMembers (fuel : nat) (a : Ano) (d : Decoder) (out : bytes) (depth : nat) (first : bool) : mask_m (bytes * Decoder) :=
  match fuel with
  | O => fail_m OutOfFuel
  | S fuel =>
      if More d then
        match NextToken d with
        | TokenOK kt d1 =>
            let key := match kt with StrTok key => key | _ => [] end in
            v ← unmaskValue fuel a d1 (out ++ (if first then [] else [comma]) ++ encode_string key ++ [Byte.x3a]) (S depth);
            unmaskMembers fuel a v.2 v.1 depth false
        | _ => fail_m ErrUnparsable
        end
      else mret (out, d)
  end
with unmaskElements (fuel : nat) (a : Ano) (d : Decoder) (out : bytes) (depth : nat) (i : Z) : mask_m (bytes * Decoder) :=
  match fuel with
  | O => fail_m OutOfFuel
  | S fuel =>
      if More d then
        v ← unmaskValue fuel a d (out ++ (if 0 <? i then [comma] else [])) (S depth);
        unmaskElements fuel a v.2 v.1 depth (i + 1)
      else mret (out, d)
  end.

(** [Unmask]: a payload that is not JSON is a text. *)
Definition unmask_payload (a : Ano) (payload : bytes) : mask_m bytes :=
  if negb (Valid payload) then
    r ← resolveText a payload;
    _ ← count_m (more_Restored r.2);
    mret r.1
  else
    r ← unmaskValue (enough payload) a (NewDecoder payload) [] 0;
    mret r.1.

Definition Unmask (a : Ano) (id : string) (payload : bytes) (now : Z) (v : vault) (t : trace) :
    (ano_error + bytes) * Report * vault * trace :=
  if too_large a payload then (inl ErrAnoTooLarge, no_report, v, t)
  else with_exchange id now v t (unmask_payload a payload).
End engine.
