(* ===== verification/Masking.v ===== *)
(** What the anonymiser guarantees ([Ano]): a masked document is restored, its output says of the values under a
    masked path only which of them are equal, its tables stay bounded and keep the meaning of their tokens, and a
    number is judged by its value. *)
From S2P Require Import Prelude.
From S2P Require Import Json.
From S2P Require Import Leaf.
From S2P Require Import Effects.
From S2P Require Import GoStrings.
From S2P Require Import GoJson.
From S2P Require Import Ano.
From Stdlib Require DecimalString DecimalZ DecimalPos DecimalFacts.

Local Open Scope Z_scope.

(** ** The text of a token *)

Lemma uint_all_digits d : Forall (λ b, digit b = true) (sb (DecimalString.NilEmpty.string_of_uint d)).
Proof. induction d; simpl; constructor; auto. Qed.

Lemma of_uint_acc_lower d acc : 10 ^ Z.of_nat (Decimal.nb_digits d) * Z.pos acc ≤ Z.pos (Pos.of_uint_acc d acc).
Proof.
  revert acc. induction d as [|d IH|d IH|d IH|d IH|d IH|d IH|d IH|d IH|d IH|d IH]; intros acc; cbn [Decimal.nb_digits Pos.of_uint_acc]; [lia|..];
    (etrans; [|apply IH]); rewrite Nat2Z.inj_succ, Z.pow_succ_r by lia; nia.
Qed.

Lemma to_uint_norm p : Decimal.unorm (Pos.to_uint p) = Pos.to_uint p.
Proof. rewrite <-DecimalPos.Unsigned.to_of, DecimalPos.Unsigned.of_to. done. Qed.

(** A number has no zero in front, so its digits bound it from below. *)
Lemma to_uint_lower p : 10 ^ Z.of_nat (Decimal.nb_digits (Pos.to_uint p) - 1) ≤ Z.pos p.
Proof.
  pose proof (to_uint_norm p) as HN. pose proof (DecimalPos.Unsigned.of_to p) as HO. revert HN HO.
  generalize (Pos.to_uint p). intros d HN HO.
  destruct d as [|d|d|d|d|d|d|d|d|d|d]; cbn [Decimal.nb_digits] in *; rewrite ?Nat.sub_succ, ?Nat.sub_0_r; [done| |..].
  - exfalso. rewrite DecimalFacts.unorm_D0 in HN. destruct (Decimal.uint_eq_dec (Decimal.nzhead d) Decimal.Nil) as [E|E].
    + apply DecimalFacts.unorm_0 in E. rewrite E in HN. injection HN as <-. done.
    + rewrite DecimalFacts.unorm_nzhead in HN by done. by apply DecimalFacts.nzhead_nonzero in HN.
  - injection HO as <-. etrans; [|apply of_uint_acc_lower]. lia.
  - injection HO as <-. etrans; [|apply of_uint_acc_lower]. lia.
  - injection HO as <-. etrans; [|apply of_uint_acc_lower]. lia.
  - injection HO as <-. etrans; [|apply of_uint_acc_lower]. lia.
  - injection HO as <-. etrans; [|apply of_uint_acc_lower]. lia.
  - injection HO as <-. etrans; [|apply of_uint_acc_lower]. lia.
  - injection HO as <-. etrans; [|apply of_uint_acc_lower]. lia.
  - injection HO as <-. etrans; [|apply of_uint_acc_lower]. lia.
  - injection HO as <-. etrans; [|apply of_uint_acc_lower]. lia.
Qed.

Lemma Itoa_pos p : sb (Itoa (Z.pos p)) = sb (DecimalString.NilEmpty.string_of_uint (Pos.to_uint p)) ∧ (0 < Decimal.nb_digits (Pos.to_uint p))%nat.
Proof.
  unfold Itoa. simpl. pose proof (DecimalPos.Unsigned.of_to p) as HO. unfold DecimalString.NilZero.string_of_uint.
  destruct (Pos.to_uint p) eqn:E; [done|..]; simpl; split; (done || lia).
Qed.

(** A number of at most nine digits. *)
Lemma Itoa_digits n : 0 < n → digits (sb (Itoa n)) ∧ (n < 10 ^ 9 → (length (sb (Itoa n)) ≤ 9)%nat).
Proof.
  intros Hn. destruct n as [|p|p]; [lia| |lia]. destruct (Itoa_pos p) as [-> HL].
  assert (length (sb (DecimalString.NilEmpty.string_of_uint (Pos.to_uint p))) = Decimal.nb_digits (Pos.to_uint p)) as EL by (rewrite length_sb; apply slen_uint).
  split; [split; [apply uint_all_digits|intros E; rewrite E in EL; simpl in EL; lia]|].
  intros Hlt. rewrite EL. pose proof (to_uint_lower p). destruct (Nat.le_gt_cases (Decimal.nb_digits (Pos.to_uint p)) 9) as [?|HG]; [done|].
  exfalso. assert (10 ^ 9 ≤ 10 ^ Z.of_nat (Decimal.nb_digits (Pos.to_uint p) - 1)); [|lia]. apply Z.pow_le_mono_r; lia.
Qed.

(** The bytes of a token of the table. *)
Definition token_text (t : bytes) : Prop := ∃ i, 1 ≤ i < 10 ^ 9 ∧ t = sb (token_name i).

Lemma token_text_shape t : token_text t → ∃ ds, t = token_prefix ++ ds ∧ digits ds ∧ (length ds ≤ 9)%nat.
Proof.
  intros (i & Hi & ->). exists (sb (Itoa i)). destruct (Itoa_digits i ltac:(lia)) as [HD HL]. split_and!; [|done|apply HL; lia].
  unfold token_name. by rewrite sb_app.
Qed.

Lemma token_text_head t : token_text t → ∃ u, t = Byte.x54 :: u.
Proof. intros (ds & -> & _)%token_text_shape. by eexists. Qed.

Lemma read_digits_front ds r : digits ds → no_digit r → (read_digits (ds ++ r)).1 = ds.
Proof. intros Hd Hr. pose proof (read_digits1_read ds r Hd Hr) as E. unfold read_digits1 in E. destruct (read_digits (ds ++ r)) as [[|x xs] y]; by simplify_eq. Qed.

Lemma token_at_token t r : token_text t → no_digit r → token_at (t ++ r) = Some (length t).
Proof.
  intros (ds & -> & Hd & HL)%token_text_shape Hr. unfold token_at. rewrite <-app_assoc.
  change 8%nat with (length token_prefix). rewrite take_app_length, drop_app_length, bool_decide_true by done.
  rewrite read_digits_front by done. destruct ds as [|b ds]; [by destruct Hd|]. rewrite length_app.
  change (length token_prefix) with 8%nat. simpl length in *. f_equal. lia.
Qed.

Lemma token_at_shape s n : token_at s = Some n → ∃ b r, s = token_prefix ++ b :: r ∧ digit b = true ∧ (0 < n)%nat.
Proof.
  unfold token_at. case_bool_decide as E; [|done]. intros Hn. rewrite <-(take_drop 8 s), E.
  destruct (drop 8 s) as [|b r]; [done|]. exists b, r. simpl in Hn. destruct (digit b); [|done]. split_and!; [done..|].
  simpl in Hn. injection Hn as <-. lia.
Qed.

Lemma token_at_digit b r : digit b = true → token_at (token_prefix ++ b :: r) ≠ None.
Proof.
  intros Hb. unfold token_at. change 8%nat with (length token_prefix). rewrite take_app_length, drop_app_length, bool_decide_true by done.
  cbn [read_digits]. rewrite Hb. by destruct (read_digits r).
Qed.

(** No token begins anywhere in the text. *)
Definition token_free (s : bytes) : Prop := ∀ s1 s2, s = s1 ++ s2 → token_at s2 = None.

Lemma token_free_app s1 s2 : token_free (s1 ++ s2) → token_free s2.
Proof. intros HF u1 u2 ->. apply (HF (s1 ++ u1) u2). by rewrite app_assoc. Qed.

Lemma no_token_free s : has_token s = false → token_free s.
Proof.
  unfold has_token. intros Hs%negb_false_iff%bool_decide_eq_true. revert Hs. generalize 0%nat at 2 as pos.
  induction s as [|b s IH]; intros pos Hs s1 s2 E; [by destruct s1; simplify_eq/=|]. cbn [token_locs] in Hs.
  destruct (token_at (b :: s)) eqn:ET; [done|]. destruct s1 as [|c s1]; simplify_eq/=; [done|]. by eapply (IH _ Hs).
Qed.

Lemma token_free_locs s pos : token_free s → token_locs 0 pos s = [].
Proof.
  revert pos. induction s as [|b s IH]; intros pos HF; [done|]. cbn [token_locs]. rewrite (HF [] (b :: s)) by done. apply IH. by apply (token_free_app [b]).
Qed.

(** A piece of the text before a token, or at the end, holds no token. *)
Lemma piece_no_token q x y :
  q ≠ [] → (x = [] ∨ ∃ u, x = Byte.x54 :: u) → token_free (q ++ y) → token_at (q ++ x) = None.
Proof.
  intros Hq Hx HF. destruct (token_at (q ++ x)) as [n|] eqn:E; [|done]. exfalso. destruct (token_at_shape _ _ E) as (b & r & Es & Hb & _).
  destruct (Nat.le_gt_cases 9 (length q)) as [HL|HL].
  - assert (q = token_prefix ++ b :: drop 9 q) as Eq.
    { rewrite <-(take_drop 9 q) at 1. change (token_prefix ++ b :: drop 9 q) with ((token_prefix ++ [b]) ++ drop 9 q). f_equal.
      apply (f_equal (take 9)) in Es. rewrite take_app_le in Es by done. rewrite Es. done. }
    apply (token_at_digit b (drop 9 q ++ y) Hb). specialize (HF [] (q ++ y) eq_refl). rewrite Eq in HF. rewrite <-app_assoc in HF. exact HF.
  - destruct Hx as [->|(u & ->)].
    + rewrite app_nil_r in Es. rewrite Es in HL. rewrite length_app in HL. change (length token_prefix) with 8%nat in HL. simpl in HL. lia.
    + assert ((token_prefix ++ b :: r) !! length q = Some Byte.x54) as Hl by (rewrite <-Es; by apply list_lookup_middle).
      destruct q as [|q0 q]; [done|]. clear Hq Es E HF. simpl length in *.
      do 8 (destruct q as [|? q]; [simpl in Hl; simplify_eq; done|]). simpl in HL. lia.
Qed.

Lemma locs_piece p x y pos :
  (x = [] ∨ ∃ u, x = Byte.x54 :: u) → token_free (p ++ y) → token_locs 0 pos (p ++ x) = token_locs 0 (pos + length p) x.
Proof.
  intros Hx. revert pos. induction p as [|b p IH]; intros pos HF; [by rewrite Nat.add_0_r|].
  cbn [app token_locs]. change (b :: p ++ x) with ((b :: p) ++ x). rewrite (piece_no_token (b :: p) x y) by done.
  rewrite IH by by apply (token_free_app [b]). simpl. f_equal. lia.
Qed.

Lemma locs_skip k pos s : (k ≤ length s)%nat → token_locs k pos s = token_locs 0 (pos + k) (drop k s).
Proof.
  revert pos s. induction k as [|k IH]; intros pos s Hk; [by rewrite drop_0, Nat.add_0_r|].
  destruct s as [|b s]; simpl in Hk; [lia|]. cbn [token_locs drop]. rewrite IH by lia. f_equal. lia.
Qed.

Lemma locs_token t r pos :
  token_text t → no_digit r → token_locs 0 pos (t ++ r) = (pos, (pos + length t)%nat) :: token_locs 0 (pos + length t) r.
Proof.
  intros Ht Hr. destruct (token_text_head t Ht) as (u & Eu). pose proof (token_at_token t r Ht Hr) as HA. rewrite Eu in HA |- *.
  cbn [app token_locs] in *. rewrite HA. f_equal. rewrite locs_skip by (simpl; rewrite length_app; lia). simpl length.
  rewrite Nat.sub_succ, Nat.sub_0_r, drop_app_length. f_equal. lia.
Qed.
(** ** A text with some parts replaced by tokens *)

(** A piece that is kept, then a token and what it stands for. *)
Record masked_part := mkPart { pa_piece : bytes; pa_token : bytes; pa_orig : bytes }.

Fixpoint plain (ps : list masked_part) (tail : bytes) : bytes :=
  match ps with [] => tail | x :: ps => pa_piece x ++ pa_orig x ++ plain ps tail end.
Fixpoint marked (ps : list masked_part) (tail : bytes) : bytes :=
  match ps with [] => tail | x :: ps => pa_piece x ++ pa_token x ++ marked ps tail end.

(** No token is followed by a digit. *)
Fixpoint sep_parts (ps : list masked_part) (tail : bytes) : Prop :=
  match ps with [] => True | x :: ps => no_digit (marked ps tail) ∧ sep_parts ps tail end.

Fixpoint part_locs (pos : nat) (ps : list masked_part) : list (nat * nat) :=
  match ps with
  | [] => []
  | x :: ps =>
      let i := (pos + length (pa_piece x))%nat in
      let j := (i + length (pa_token x))%nat in
      (i, j) :: part_locs j ps
  end.

Lemma no_digit_marked ps tail : Forall (λ x, token_text (pa_token x)) ps → no_digit (plain ps tail) → no_digit (marked ps tail).
Proof.
  destruct ps as [|x ps]; [done|]. intros [Hx _]%Forall_cons. simpl. destruct (pa_piece x); [|done].
  destruct (token_text_head _ Hx) as (u & ->). done.
Qed.

(** The tokens of the text are found where they were put. *)
Lemma marked_locs ps tail pos :
  Forall (λ x, token_text (pa_token x)) ps → sep_parts ps tail → token_free (plain ps tail) →
  token_locs 0 pos (marked ps tail) = part_locs pos ps.
Proof.
  revert pos. induction ps as [|x ps IH]; intros pos HT HS HF; [by apply token_free_locs|].
  apply Forall_cons in HT as [Hx HT]. destruct HS as [Hd HS]. cbn [plain marked part_locs] in *.
  rewrite (locs_piece _ _ (pa_orig x ++ plain ps tail)); [|right|done].
  - rewrite locs_token by done. by rewrite IH by (rewrite app_assoc in HF; by apply token_free_app in HF).
  - destruct (token_text_head _ Hx) as (u & ->). by eexists.
Qed.

(** ** UTF-8 is kept *)

Lemma utf8_cancel s t : utf8 s → utf8 (s ++ t) → utf8 t.
Proof.
  assert (∀ b u, rune_ok b → utf8 (b ++ u) → utf8 u) as HB.
  { intros b u Hb HU. pose proof (DecodeRune_app b u Hb) as E. destruct b as [|b0 b]; [done|]. cbn [app] in *.
    inversion HU; subst;
      match goal with
      | H1 : ascii ?x = true, HX : utf8 ?y |- _ => pose proof (DecodeRune_app [x] y H1) as E2
      | H1 : rune2 ?x ?x1 = true, HX : utf8 ?y |- _ => pose proof (DecodeRune_app [x; x1] y H1) as E2
      | H1 : rune3 ?x ?x1 ?x2 = true, HX : utf8 ?y |- _ => pose proof (DecodeRune_app [x; x1; x2] y H1) as E2
      | H1 : rune4 ?x ?x1 ?x2 ?x3 = true, HX : utf8 ?y |- _ => pose proof (DecodeRune_app [x; x1; x2; x3] y H1) as E2
      end; cbn [app] in E2; congruence. }
  induction 1 as [|b0 s H0 _ IH|b0 b1 s Hr _ IH|b0 b1 b2 s Hr _ IH|b0 b1 b2 b3 s Hr _ IH]; intros HU; [done|..].
  - apply IH. by apply (HB [b0]).
  - apply IH. by apply (HB [b0; b1]).
  - apply IH. by apply (HB [b0; b1; b2]).
  - apply IH. by apply (HB [b0; b1; b2; b3]).
Qed.

Lemma utf8_token t : token_text t → utf8 t.
Proof.
  intros (ds & -> & [HD _] & _)%token_text_shape. apply utf8_of_ascii, Forall_app. split; [by repeat constructor|].
  eapply Forall_impl; [exact HD|]. intros b Hb. unfold digit, between in Hb. apply andb_true_iff in Hb as [_ ?%Z.leb_le]. apply Z.ltb_lt. lia.
Qed.

(** Where a match of a pattern can begin and end in a text. *)
Definition on_boundary (s : bytes) (i : nat) : Prop := utf8 (take i s) ∧ utf8 (drop i s).

Lemma utf8_slice s i j : (i ≤ j)%nat → on_boundary s i → on_boundary s j → utf8 (text_slice s i j).
Proof.
  intros Hij [Hi _] [Hj _]. unfold text_slice. eapply utf8_cancel; [exact Hi|]. by rewrite take_take_drop, Nat.add_sub_assoc, Nat.add_comm, Nat.add_sub.
Qed.

(** ** The documents behind the tokens *)

Section engine.
Context `{Crypto, Regexp}.

Lemma mask_bind_inr {A B} (m : mask_m A) (f : A → mask_m B) s y s' :
  (m ≫= f) s = (inr y, s') ↔ ∃ x s1, m s = (inr x, s1) ∧ f x s1 = (inr y, s').
Proof. unfold mbind, mask_bind. destruct (m s) as [[e|x] s1]; naive_solver. Qed.

Lemma mask_bind_eq {A B} (m : mask_m A) (f : A → mask_m B) s :
  (m ≫= f) s = match m s with (inl e, s1) => (inl e, s1) | (inr x, s1) => f x s1 end.
Proof. done. Qed.

Lemma mask_ret_eq {A} (x : A) s : (mret x : mask_m A) s = (inr x, s).
Proof. done. Qed.

(** The walk over the elements of an array and the members of an object, with what masks one of them. *)
Definition over_list (f : Z → jval → mask_m bytes) : list jval → Z → mask_m bytes :=
  fix go l i := match l with
  | [] => mret []
  | v :: l => x ← f i v; r ← go l (i + 1); mret ((if 0 <? i then [comma] else []) ++ x ++ r)
  end.
Definition over_members (f : bytes → jval → mask_m bytes) : list (bytes * jval) → bool → mask_m bytes :=
  fix go ms first := match ms with
  | [] => mret []
  | m :: ms => x ← f m.1 m.2; r ← go ms false; mret ((if first : bool then [] else [comma]) ++ encode_string m.1 ++ [Byte.x3a] ++ x ++ r)
  end.

(** The walk over a document that is already read. *)
Fixpoint mask_tree (a : Ano) (path : list string) (depth : nat) (v : jval) : mask_m bytes :=
  if (maxJSONDepth <? depth)%nat then fail_m ErrUnparsable
  else match v with
  | VNull => mret (sb "null")
  | VBool b => mret (if b then sb "true" else sb "false")
  | VNum n => maskLeaf a path n n false
  | VStr s => maskLeaf a path (encode_string s) s true
  | VArr l =>
      r ← over_list (λ i v, mask_tree a (path ++ [Itoa i]) (S depth) v) l 0;
      mret ([Byte.x5b] ++ r ++ [Byte.x5d])
  | VObj ms =>
      r ← over_members (λ k v, mask_tree a (path ++ [bs k]) (S depth) v) ms true;
      mret ([Byte.x7b] ++ r ++ [Byte.x7d])
  end.

(** The same result, with the decoder after the document. *)
Definition then_at {A} (d : Decoder) (r : (ano_error + A) * mask_state) : (ano_error + (A * Decoder)) * mask_state :=
  match r with (inl e, s) => (inl e, s) | (inr x, s) => (inr (x, d), s) end.

Lemma reads_shorter :
  (∀ d v d', reads_value d v d' → (length (d_rest d') < length (d_rest d))%nat) ∧
  (∀ d l d', reads_list d l d' → (length (d_rest d') ≤ length (d_rest d))%nat) ∧
  (∀ d ms d', reads_members d ms d' → (length (d_rest d') ≤ length (d_rest d))%nat).
Proof. apply reads_mutind; intros; repeat match goal with E : NextToken _ = TokenOK _ _ |- _ => apply Token_shorter in E end; lia. Qed.

Lemma maskValue_tree a :
  (∀ d v d', reads_value d v d' → ∀ fuel path depth s, (2 * length (d_rest d) < fuel)%nat →
     maskValue fuel a d path depth s = then_at d' (mask_tree a path depth v s)) ∧
  (∀ d l d', reads_list d l d' → More d' = false → ∀ fuel path depth i s, (S (2 * length (d_rest d)) < fuel)%nat →
     maskElements fuel a d path depth i s = then_at d' (over_list (λ i v, mask_tree a (path ++ [Itoa i]) (S depth) v) l i s)) ∧
  (∀ d ms d', reads_members d ms d' → More d' = false → ∀ fuel path depth first s, (S (2 * length (d_rest d)) < fuel)%nat →
     maskMembers fuel a d path depth first s = then_at d' (over_members (λ k v, mask_tree a (path ++ [bs k]) (S depth) v) ms first s)).
Proof.
  apply reads_mutind.
  - intros d d' E [|fuel] path depth s Hf; [lia|]. cbn [maskValue mask_tree]. rewrite E. by destruct (_ <? _)%nat.
  - intros d b d' E [|fuel] path depth s Hf; [lia|]. cbn [maskValue mask_tree]. rewrite E. by destruct (_ <? _)%nat.
  - intros d n d' E [|fuel] path depth s Hf; [lia|]. cbn [maskValue mask_tree]. rewrite E. destruct (_ <? _)%nat; [done|].
    rewrite mask_bind_eq. by destruct (maskLeaf a path n n false s) as [[]].
  - intros d x d' E [|fuel] path depth s Hf; [lia|]. cbn [maskValue mask_tree]. rewrite E. destruct (_ <? _)%nat; [done|].
    rewrite mask_bind_eq. by destruct (maskLeaf a path (encode_string x) x true s) as [[]].
  - intros d d1 l d2 t d' E _ IH HM E' [|fuel] path depth s Hf; [lia|]. cbn [maskValue mask_tree]. rewrite E. destruct (_ <? _)%nat; [done|].
    rewrite !mask_bind_eq, IH by (done || (apply Token_shorter in E; lia)).
    destruct (over_list _ l 0 s) as [[e|x] s1]; [done|]. cbn [then_at fst snd]. unfold close_m. by rewrite E'.
  - intros d d1 ms d2 t d' E _ IH HM E' [|fuel] path depth s Hf; [lia|]. cbn [maskValue mask_tree]. rewrite E. destruct (_ <? _)%nat; [done|].
    rewrite !mask_bind_eq, IH by (done || (apply Token_shorter in E; lia)).
    destruct (over_members _ ms true s) as [[e|x] s1]; [done|]. cbn [then_at fst snd]. unfold close_m. by rewrite E'.
  - intros d HM [|fuel] path depth i s Hf; [lia|]. cbn [maskElements over_list]. by rewrite HM.
  - intros d v d1 l d2 HM HR IHv _ IHl HM2 [|fuel] path depth i s Hf; [lia|]. cbn [maskElements over_list]. rewrite HM, !mask_bind_eq, IHv by lia.
    destruct (mask_tree a (path ++ [Itoa i]) (S depth) v s) as [[e|x] s1]; [done|]. cbn [then_at fst snd].
    rewrite !mask_bind_eq, IHl by (done || (apply (proj1 reads_shorter) in HR; lia)).
    fold (over_list (λ i v, mask_tree a (path ++ [Itoa i]) (S depth) v)).
    destruct (over_list _ l (i + 1) s1) as [[e|y] s2]; done.
  - intros d HM [|fuel] path depth first s Hf; [lia|]. cbn [maskMembers over_members]. by rewrite HM.
  - intros d k d1 v d2 ms d3 HM E HR IHv _ IHl HM2 [|fuel] path depth first s Hf; [lia|]. apply Token_shorter in E as HL.
    cbn [maskMembers over_members]. rewrite HM, E, !mask_bind_eq, IHv by lia. cbn [fst snd].
    destruct (mask_tree a (path ++ [bs k]) (S depth) v s) as [[e|x] s1]; [done|]. cbn [then_at fst snd].
    rewrite !mask_bind_eq, IHl by (done || (apply (proj1 reads_shorter) in HR; lia)).
    fold (over_members (λ k v, mask_tree a (path ++ [bs k]) (S depth) v)).
    destruct (over_members _ ms false s1) as [[e|y] s2]; done.
Qed.

(** A walk that succeeds has read a document. *)
Lemma maskValue_reads fuel a :
  (∀ d path depth s o d' s', maskValue fuel a d path depth s = (inr (o, d'), s') → ∃ v, reads_value d v d') ∧
  (∀ d path depth i s o d' s', maskElements fuel a d path depth i s = (inr (o, d'), s') → More d' = false ∧ ∃ l, reads_list d l d') ∧
  (∀ d path depth b s o d' s', maskMembers fuel a d path depth b s = (inr (o, d'), s') → More d' = false ∧ ∃ ms, reads_members d ms d').
Proof.
  induction fuel as [|fuel (IHv & IHl & IHm)]; [done|]. split_and!.
  - intros d path depth s o d' s'. cbn [maskValue]. destruct (_ <? _)%nat; [done|]. destruct (NextToken d) as [| |t d1] eqn:E; [done..|].
    destruct t as [| | | |x|n|b|].
    + intros ([o1 d2] & s1 & HE & HC)%mask_bind_inr. apply IHm in HE as [HM (ms & HR)]. unfold close_m in HC. simpl in HC.
      destruct (NextToken d2) as [| |t d3] eqn:E2; try done. simplify_eq/=. exists (VObj ms). injection HC as <- <- <-. by eapply reads_obj.
    + done.
    + intros ([o1 d2] & s1 & HE & HC)%mask_bind_inr. apply IHl in HE as [HM (l & HR)]. unfold close_m in HC. simpl in HC.
      destruct (NextToken d2) as [| |t d3] eqn:E2; try done. exists (VArr l). injection HC as <- <- <-. by eapply reads_arr.
    + done.
    + intros (w & s1 & _ & HC)%mask_bind_inr. injection HC as <- <- <-. exists (VStr x). by apply reads_str.
    + intros (w & s1 & _ & HC)%mask_bind_inr. injection HC as <- <- <-. exists (VNum n). by apply reads_num.
    + intros [= <- <- <-]. exists (VBool b). by apply reads_bool.
    + intros [= <- <- <-]. exists VNull. by apply reads_null.
  - intros d path depth i s o d' s'. cbn [maskElements]. destruct (More d) eqn:HM.
    + intros ([o1 d1] & s1 & HE & HC)%mask_bind_inr. apply IHv in HE as (v & HR). apply mask_bind_inr in HC as ([o2 d2] & s2 & HE & HC).
      injection HC as <- <- <-. apply IHl in HE as [HM2 (l & HL)]. split; [done|]. exists (v :: l). by eapply reads_cons.
    + intros [= <- <- <-]. split; [done|]. exists []. constructor.
  - intros d path depth b s o d' s'. cbn [maskMembers]. destruct (More d) eqn:HM.
    + destruct (NextToken d) as [| |[| | | |k| | |] d0] eqn:E; try done.
      intros ([o1 d1] & s1 & HE & HC)%mask_bind_inr. apply IHv in HE as (v & HR). apply mask_bind_inr in HC as ([o2 d2] & s2 & HE & HC).
      injection HC as <- <- <-. apply IHm in HE as [HM2 (ms & HL)]. split; [done|]. exists ((k, v) :: ms). by eapply members_cons.
    + intros [= <- <- <-]. split; [done|]. exists []. constructor.
Qed.

(** The document of a payload: what its tokens make, with nothing after it. *)
Definition json_document (payload : bytes) (v : jval) : Prop := ∃ d, reads_value (NewDecoder payload) v d ∧ NextToken d = TokenEOF.

(** The text of a document is a payload of that document. *)
Lemma document_print v : val_ok v → json_document (print v) v.
Proof.
  intros Hv. pose proof (print_reads v tokenTopValue [] [] Hv eq_refl I) as HR. rewrite app_nil_r in HR. eexists. split; [exact HR|done].
Qed.

Lemma mask_document_tree a payload v s :
  json_document payload v →
  mask_document a payload s =
  match mask_tree a [] 0 v s with
  | (inr o, s1) => if too_large a o then (inl ErrAnoTooLarge, s1) else (inr o, s1)
  | (inl e, s1) => (inl e, s1)
  end.
Proof.
  intros (d & HR & HE). unfold mask_document. rewrite mask_bind_eq, (proj1 (maskValue_tree a) _ _ _ HR) by (unfold enough; simpl; lia).
  destruct (mask_tree a [] 0 v s) as [[e|o] s1]; [done|]. cbn [then_at fst snd]. rewrite HE. by destruct (too_large a o).
Qed.

Lemma mask_document_reads a payload s o s' : mask_document a payload s = (inr o, s') → ∃ v, json_document payload v.
Proof.
  unfold mask_document. intros ([o1 d] & s1 & HV & HC)%mask_bind_inr. apply (proj1 (maskValue_reads _ a)) in HV as (v & HR).
  exists v, d. split; [done|]. simpl in HC. by destruct (NextToken d).
Qed.

(** ** Termination *)

Definition no_fuel {A} (r : (ano_error + A) * mask_state) : Prop := r.1 ≠ inl OutOfFuel.

Lemma no_fuel_bind {A B} (m : mask_m A) (f : A → mask_m B) s :
  no_fuel (m s) → (∀ x s1, m s = (inr x, s1) → no_fuel (f x s1)) → no_fuel ((m ≫= f) s).
Proof. intros Hm Hf. rewrite mask_bind_eq. destruct (m s) as [[e|x] s1]; [intros [= ->]; by apply Hm|]. by apply Hf. Qed.

Ltac fuel_steps :=
  repeat first
    [ done
    | progress cbn [negb andb orb]
    | match goal with
      | |- no_fuel ((_ ≫= _) _) => apply no_fuel_bind; [|intros ? ? ?]
      | |- no_fuel ((if ?b then _ else _) _) => destruct b
      | |- no_fuel ((match ?x with _ => _ end) _) => destruct x
      | |- no_fuel (mret _ _) => done
      | |- no_fuel (fail_m _ _) => done
      end ].

Lemma intern_m_fuel a kind orig s : no_fuel (intern_m a kind orig s).
Proof.
  unfold intern_m, intern. destruct (ex_byHash (ms_ex s) !! _); [done|]. by destruct (_ <=? _).
Qed.
#[local] Hint Resolve intern_m_fuel : tbp.

Lemma writeLeafToken_fuel a raw s : no_fuel (writeLeafToken a raw s).
Proof. unfold writeLeafToken. fuel_steps. auto with tbp. Qed.
#[local] Hint Resolve writeLeafToken_fuel : tbp.

Lemma splice_fuel a text last spans s : no_fuel (splice a text last spans s).
Proof. revert last s. induction spans as [|sp spans IH]; intros last s; cbn [splice]; fuel_steps; auto with tbp. Qed.
#[local] Hint Resolve splice_fuel : tbp.

Lemma emitKept_fuel a raw text b s : no_fuel (emitKept a raw text b s).
Proof. unfold emitKept. destruct b; fuel_steps; auto with tbp. Qed.
#[local] Hint Resolve emitKept_fuel : tbp.

Lemma classify_fuel a path value s : no_fuel (classify a path value s).
Proof. unfold classify. destruct (an_classifier a) as [f|]; [|done]. by destruct (f _ _ _). Qed.
#[local] Hint Resolve classify_fuel : tbp.

Lemma maskLeaf_fuel a path raw text b s : no_fuel (maskLeaf a path raw text b s).
Proof. unfold maskLeaf. fuel_steps; auto with tbp. Qed.

Lemma no_fuel_close {A} d (k : Decoder → A) s : no_fuel (close_m d k s).
Proof. unfold close_m. by destruct (NextToken d). Qed.

(** The fuel of the walk is enough, whatever the payload: the loops of [maskValue] end. *)
Lemma maskValue_shorter fuel a :
  (∀ d path depth s o d' s', maskValue fuel a d path depth s = (inr (o, d'), s') → (length (d_rest d') < length (d_rest d))%nat).
Proof. intros d path depth s o d' s' (v & HR)%(proj1 (maskValue_reads fuel a)). by apply (proj1 reads_shorter) in HR. Qed.

Lemma maskValue_total fuel a :
  (∀ d path depth s, (2 * length (d_rest d) < fuel)%nat → no_fuel (maskValue fuel a d path depth s)) ∧
  (∀ d path depth i s, (S (2 * length (d_rest d)) < fuel)%nat → no_fuel (maskElements fuel a d path depth i s)) ∧
  (∀ d path depth b s, (S (2 * length (d_rest d)) < fuel)%nat → no_fuel (maskMembers fuel a d path depth b s)).
Proof.
  induction fuel as [|fuel (IHv & IHl & IHm)]; [split_and!; intros; lia|]. split_and!.
  - intros d path depth s Hf. cbn [maskValue]. destruct (_ <? _)%nat; [done|]. destruct (NextToken d) as [| |t d1] eqn:E; [done..|]. apply Token_shorter in E.
    destruct t; try done.
    + apply no_fuel_bind; [apply IHm; lia|]. intros r s1 _. apply no_fuel_close.
    + apply no_fuel_bind; [apply IHl; lia|]. intros r s1 _. apply no_fuel_close.
    + apply no_fuel_bind; [apply maskLeaf_fuel|done].
    + apply no_fuel_bind; [apply maskLeaf_fuel|done].
  - intros d path depth i s Hf. cbn [maskElements]. destruct (More d); [|done]. apply no_fuel_bind; [apply IHv; lia|].
    intros [o d1] s1 HE%maskValue_shorter. apply no_fuel_bind; [apply IHl; simpl; lia|done].
  - intros d path depth b s Hf. cbn [maskMembers]. destruct (More d); [|done]. destruct (NextToken d) as [| |[] d1] eqn:E; try done. apply Token_shorter in E.
    apply no_fuel_bind; [apply IHv; lia|]. intros [o d2] s1 HE%maskValue_shorter. apply no_fuel_bind; [apply IHm; simpl; lia|done].
Qed.

(** ** Restoring a document that is read *)

Definition bounded_out (a : Ano) (out : bytes) : mask_m bytes := if too_large a out then fail_m ErrAnoTooLarge else mret out.

Definition unmask_list (f : bytes → jval → mask_m bytes) : list jval → bytes → Z → mask_m bytes :=
  fix go l out i := match l with
  | [] => mret out
  | v :: l => out1 ← f (out ++ (if 0 <? i then [comma] else [])) v; go l out1 (i + 1)
  end.
Definition unmask_pairs (f : bytes → jval → mask_m bytes) : list (bytes * jval) → bytes → bool → mask_m bytes :=
  fix go ms out first := match ms with
  | [] => mret out
  | m :: ms => out1 ← f (out ++ (if first : bool then [] else [comma]) ++ encode_string m.1 ++ [Byte.x3a]) m.2; go ms out1 false
  end.

Fixpoint unmask_tree (a : Ano) (depth : nat) (v : jval) (out : bytes) : mask_m bytes :=
  if (maxJSONDepth <? depth)%nat then fail_m ErrUnparsable
  else if too_large a out then fail_m ErrAnoTooLarge
  else match v with
  | VNull => bounded_out a (out ++ sb "null")
  | VBool b => bounded_out a (out ++ (if b then sb "true" else sb "false"))
  | VNum n => bounded_out a (out ++ n)
  | VStr s => w ← unmask_string a s; bounded_out a (out ++ w)
  | VArr l => r ← unmask_list (λ out v, unmask_tree a (S depth) v out) l (out ++ [Byte.x5b]) 0; bounded_out a (r ++ [Byte.x5d])
  | VObj ms => r ← unmask_pairs (λ out v, unmask_tree a (S depth) v out) ms (out ++ [Byte.x7b]) true; bounded_out a (r ++ [Byte.x7d])
  end.

Lemma bounded_at a out d s : bounded_m a out d s = then_at d (bounded_out a out s).
Proof. unfold bounded_m, bounded_out. by destruct (too_large a out). Qed.

Lemma unmaskValue_tree a :
  (∀ d v d', reads_value d v d' → ∀ fuel out depth s, (2 * length (d_rest d) < fuel)%nat →
     unmaskValue fuel a d out depth s = then_at d' (unmask_tree a depth v out s)) ∧
  (∀ d l d', reads_list d l d' → More d' = false → ∀ fuel out depth i s, (S (2 * length (d_rest d)) < fuel)%nat →
     unmaskElements fuel a d out depth i s = then_at d' (unmask_list (λ out v, unmask_tree a (S depth) v out) l out i s)) ∧
  (∀ d ms d', reads_members d ms d' → More d' = false → ∀ fuel out depth first s, (S (2 * length (d_rest d)) < fuel)%nat →
     unmaskMembers fuel a d out depth first s = then_at d' (unmask_pairs (λ out v, unmask_tree a (S depth) v out) ms out first s)).
Proof.
  apply reads_mutind.
  - intros d d' E [|fuel] out depth s Hf; [lia|]. cbn [unmaskValue unmask_tree]. rewrite E. destruct (_ <? _)%nat; [done|].
    destruct (too_large a out); [done|]. apply bounded_at.
  - intros d b d' E [|fuel] out depth s Hf; [lia|]. cbn [unmaskValue unmask_tree]. rewrite E. destruct (_ <? _)%nat; [done|].
    destruct (too_large a out); [done|]. apply bounded_at.
  - intros d n d' E [|fuel] out depth s Hf; [lia|]. cbn [unmaskValue unmask_tree]. rewrite E. destruct (_ <? _)%nat; [done|].
    destruct (too_large a out); [done|]. apply bounded_at.
  - intros d x d' E [|fuel] out depth s Hf; [lia|]. cbn [unmaskValue unmask_tree]. rewrite E. destruct (_ <? _)%nat; [done|].
    destruct (too_large a out); [done|]. rewrite !mask_bind_eq. destruct (unmask_string a x s) as [[]]; [done|]. apply bounded_at.
  - intros d d1 l d2 t d' E _ IH HM E' [|fuel] out depth s Hf; [lia|]. cbn [unmaskValue unmask_tree]. rewrite E. destruct (_ <? _)%nat; [done|].
    destruct (too_large a out); [done|]. rewrite !mask_bind_eq, IH by (done || (apply Token_shorter in E; lia)).
    destruct (unmask_list _ l _ 0 s) as [[e|x] s1]; [done|]. cbn [then_at fst snd]. rewrite mask_bind_eq. unfold close_m. rewrite E'. apply bounded_at.
  - intros d d1 ms d2 t d' E _ IH HM E' [|fuel] out depth s Hf; [lia|]. cbn [unmaskValue unmask_tree]. rewrite E. destruct (_ <? _)%nat; [done|].
    destruct (too_large a out); [done|]. rewrite !mask_bind_eq, IH by (done || (apply Token_shorter in E; lia)).
    destruct (unmask_pairs _ ms _ true s) as [[e|x] s1]; [done|]. cbn [then_at fst snd]. rewrite mask_bind_eq. unfold close_m. rewrite E'. apply bounded_at.
  - intros d HM [|fuel] out depth i s Hf; [lia|]. cbn [unmaskElements unmask_list]. by rewrite HM.
  - intros d v d1 l d2 HM HR IHv _ IHl HM2 [|fuel] out depth i s Hf; [lia|]. cbn [unmaskElements unmask_list]. rewrite HM, !mask_bind_eq, IHv by lia.
    destruct (unmask_tree a (S depth) v _ s) as [[e|x] s1]; [done|]. cbn [then_at fst snd].
    by rewrite IHl by (done || (apply (proj1 reads_shorter) in HR; lia)).
  - intros d HM [|fuel] out depth first s Hf; [lia|]. cbn [unmaskMembers unmask_pairs]. by rewrite HM.
  - intros d k d1 v d2 ms d3 HM E HR IHv _ IHl HM2 [|fuel] out depth first s Hf; [lia|]. apply Token_shorter in E as HL.
    cbn [unmaskMembers unmask_pairs]. rewrite HM, E, !mask_bind_eq, IHv by lia. cbn [fst snd].
    destruct (unmask_tree a (S depth) v _ s) as [[e|x] s1]; [done|]. cbn [then_at fst snd].
    by rewrite IHl by (done || (apply (proj1 reads_shorter) in HR; lia)).
Qed.

(** The text of a document is restored as the document. *)
Lemma unmask_payload_tree a v s :
  val_ok v → Z.of_nat (height v) ≤ maxNestingDepth → unmask_payload a (print v) s = unmask_tree a 0 v [] s.
Proof.
  intros Hv Hh. unfold unmask_payload. rewrite Valid_print by done. cbn [negb].
  pose proof (print_reads v tokenTopValue [] [] Hv eq_refl I) as HR. rewrite app_nil_r in HR.
  rewrite mask_bind_eq. unfold NewDecoder. rewrite (proj1 (unmaskValue_tree a) _ _ _ HR) by (unfold enough; simpl; lia).
  by destruct (unmask_tree a 0 v [] s) as [[]].
Qed.

(** ** The table of an exchange *)

(** The tokens are numbered from 1 on, each stands for one entry, and an entry is found under its hash. *)
Record ex_ok (e : exchange) : Prop := mkExOk {
  ok_n : ex_n e = Z.of_nat (size (ex_byTok e));
  ok_names tok en : ex_byTok e !! tok = Some en → ∃ i, 1 ≤ i ≤ ex_n e ∧ tok = token_name i;
  ok_hash k tok : ex_byHash e !! k = Some tok → ∃ en, ex_byTok e !! tok = Some en ∧ k = entry_key (ex_dkey e) en;
  ok_tok tok en : ex_byTok e !! tok = Some en → ex_byHash e !! entry_key (ex_dkey e) en = Some tok;
}.

Lemma token_name_inj i j : token_name i = token_name j → i = j.
Proof.
  unfold token_name. intros E. apply (f_equal sb) in E. rewrite !sb_app in E. apply app_inv_head in E.
  rewrite !sb_Itoa in E. by apply (inj json_int) in E.
Qed.

Lemma ex_ok_new expires dkey : ex_ok (mkExchange expires dkey 0 ∅ ∅ 0).
Proof. by constructor. Qed.

Lemma entry_key_inj dkey e1 e2 : entry_key dkey e1 = entry_key dkey e2 → e1 = e2 ∨ sha256_collision.
Proof.
  intros [E|?]%sha256_eq_or_collision; [left|by right]. apply app_inv_head in E. destruct e1, e2. by simplify_eq/=.
Qed.

(** What one use of the table does. *)
Lemma intern_spec kind orig maxEntries e r e' :
  ex_ok e → intern kind orig maxEntries e = (r, e') →
  ex_ok e' ∧ ex_expires e' = ex_expires e ∧ ex_dkey e' = ex_dkey e ∧ ex_byTok e ⊆ ex_byTok e' ∧
  (ex_n e ≤ maxEntries → ex_n e' ≤ maxEntries) ∧
  match r with
  | inl err => err = ErrTooManyEntries ∧ e' = e ∧ maxEntries ≤ ex_n e
  | inr tok => ∃ en, ex_byTok e' !! tok = Some en ∧ entry_key (ex_dkey e) en = entry_key (ex_dkey e) (mkEntry kind orig)
  end.
Proof.
  intros Hok HI. pose proof (ok_n e Hok) as Hn. unfold intern in HI. destruct (ex_byHash e !! _) as [tok|] eqn:EH.
  - injection HI as <- <-. split_and!; [done..|]. destruct (ok_hash e Hok _ _ EH) as (en & ? & ?). exists en. auto.
  - destruct (Z.leb_spec maxEntries (Z.of_nat (size (ex_byTok e)))).
    { injection HI as <- <-. split_and!; [done..|]. lia. }
    injection HI as <- <-. set (tok := token_name (ex_n e + 1)). set (en := mkEntry kind orig) in *.
    assert (ex_byTok e !! tok = None) as HNone.
    { destruct (ex_byTok e !! tok) as [x|] eqn:E; [|done]. destruct (ok_names e Hok _ _ E) as (i & ? & Ei%token_name_inj). lia. }
    split_and!; [constructor; simpl|done..| | |].
    + rewrite map_size_insert_None by done. lia.
    + intros t x Hx. apply lookup_insert_Some in Hx as [[<- _]|[_ Hx]]; [exists (ex_n e + 1); split; [lia|done]|].
      destruct (ok_names e Hok _ _ Hx) as (i & ? & ->). exists i. split; [lia|done].
    + intros k t Hk. apply lookup_insert_Some in Hk as [[<- <-]|[Hne Hk]].
      * exists en. by rewrite lookup_insert_eq.
      * destruct (ok_hash e Hok _ _ Hk) as (x & Hx & ->). exists x. split; [|done]. rewrite lookup_insert_ne; [done|congruence].
    + intros t x Hx. apply lookup_insert_Some in Hx as [[<- <-]|[Hne Hx]]; [by rewrite lookup_insert_eq|].
      pose proof (ok_tok e Hok _ _ Hx). rewrite lookup_insert_ne; [done|congruence].
    + by apply insert_subseteq.
    + simpl. lia.
    + simpl. exists en. by rewrite lookup_insert_eq.
Qed.

(** ** Spans *)

(** What package regexp documents of its matches: they lie in the text, and begin and end between two characters of it. *)
Class RegexpLaws := FindAllIndex_range : ∀ (r : regex) (s : bytes) i j, (i, j) ∈ FindAllIndex r s →
  (i ≤ j ≤ length s)%nat ∧ (utf8 s → on_boundary s i ∧ on_boundary s j).

(** Spans one after the other, from [last] on. *)
Fixpoint spans_ok (text : bytes) (last : nat) (spans : list text_span) : Prop :=
  match spans with
  | [] => True
  | sp :: spans =>
      (last ≤ sp_start sp < sp_end sp)%nat ∧ (sp_end sp ≤ length text)%nat ∧
      (utf8 text → on_boundary text (sp_start sp) ∧ on_boundary text (sp_end sp)) ∧ spans_ok text (sp_end sp) spans
  end.

Definition span_in (text : bytes) (sp : text_span) : Prop :=
  (sp_start sp < sp_end sp)%nat ∧ (sp_end sp ≤ length text)%nat ∧ (utf8 text → on_boundary text (sp_start sp) ∧ on_boundary text (sp_end sp)).

Lemma sift_perm x l : sift x l ≡ₚ x :: l.
Proof. induction l as [|y l IH]; simpl; [done|]. destruct (lessSpan x y); [|done]. rewrite IH. apply Permutation_swap. Qed.

Lemma sort_spans_perm l : sort_spans l ≡ₚ l.
Proof.
  unfold sort_spans. rewrite reverse_Permutation. assert (∀ acc, foldl (λ acc x, sift x acc) acc l ≡ₚ acc ++ l) as HA; [|by rewrite HA].
  induction l as [|x l IH]; intros acc; simpl; [by rewrite app_nil_r|]. rewrite IH, sift_perm. simpl. by rewrite Permutation_middle.
Qed.

Lemma drop_overlaps_ok text last l : Forall (span_in text) l → spans_ok text last (drop_overlaps last l).
Proof.
  intros HF. revert last. induction HF as [|sp l (H1 & H2 & H3) _ IH]; intros last; simpl; [done|].
  destruct (Nat.leb_spec last (sp_start sp)); [|apply IH]. simpl. split_and!; auto; lia.
Qed.

Lemma findSpans_ok `{!RegexpLaws} r text : spans_ok text 0 (findSpans r text).
Proof.
  unfold findSpans. destruct (_ || _); [done|]. apply drop_overlaps_ok. rewrite sort_spans_perm. unfold all_matches.
  apply Forall_concat, Forall_fmap, Forall_forall. intros p _. apply Forall_fmap, Forall_forall. intros [i j] [Hij Hin]%list_elem_of_filter.
  destruct (FindAllIndex_range _ _ _ _ Hin) as [? ?]. unfold span_in. simpl in *. split_and!; auto; lia.
Qed.

(** ** The growth of a table *)

Definition ex_fits (a : Ano) (e : exchange) : Prop := ex_ok e ∧ ex_n e ≤ an_maxEntries a.

Definition grows (e e' : exchange) : Prop :=
  ex_expires e' = ex_expires e ∧ ex_dkey e' = ex_dkey e ∧ ex_byTok e ⊆ ex_byTok e'.

#[local] Instance grows_preorder : PreOrder grows.
Proof.
  split; [by intros e|]. intros e1 e2 e3 (A1 & B1 & C1) (A2 & B2 & C2). unfold grows. rewrite A2, B2. split_and!; [done..|]. by etrans.
Qed.

Lemma intern_m_spec a kind orig s r s' :
  ex_fits a (ms_ex s) → intern_m a kind orig s = (r, s') →
  ex_fits a (ms_ex s') ∧ grows (ms_ex s) (ms_ex s') ∧
  match r with
  | inl err => err = ErrTooManyEntries
  | inr tok => ex_byTok (ms_ex s') !! tok = Some (mkEntry kind orig) ∨ sha256_collision
  end.
Proof.
  intros [Hok Hfit]. unfold intern_m. destruct (intern kind orig _ _) as [r0 e'] eqn:E.
  apply intern_spec in E as (H1 & H2 & H3 & H4 & H5 & H6); [|done].
  destruct r0 as [err|tok]; intros [= <- <-]; unfold ex_fits, grows; simpl; (split_and!; auto).
  - by destruct H6.
  - destruct H6 as (en & Hen & HK). apply entry_key_inj in HK as [->|?]; [by left|by right].
Qed.

Lemma ex_fits_token a e tok en : an_maxEntries a < 10 ^ 9 → ex_fits a e → ex_byTok e !! tok = Some en → token_text (sb tok).
Proof. intros Ha [Hok Hf] Ht. destruct (ok_names e Hok _ _ Ht) as (i & Hi & ->). exists i. split; [lia|done]. Qed.

(** ** Splicing and resolving *)

Definition part_in (E : gmap string vault_entry) (x : masked_part) : Prop :=
  E !! bs (pa_token x) = Some (mkEntry kindSpan (pa_orig x)) ∧ token_text (pa_token x).

Lemma part_in_mono E E' x : E ⊆ E' → part_in E x → part_in E' x.
Proof. intros HE [H1 H2]. split; [by eapply lookup_weaken|done]. Qed.

Lemma slice_app {A} (l : list A) i j k : (i ≤ j ≤ k)%nat → text_slice l i j ++ text_slice l j k = text_slice l i k.
Proof.
  intros Hij. unfold text_slice. replace (k - i)%nat with ((j - i) + (k - j))%nat by lia. rewrite <-take_take_drop. f_equal. rewrite drop_drop. do 3 f_equal. lia.
Qed.
Lemma slice_drop {A} (l : list A) i j : (i ≤ j)%nat → text_slice l i j ++ drop j l = drop i l.
Proof. intros Hij. unfold text_slice. rewrite <-(take_drop (j - i) (drop i l)) at 2. f_equal. rewrite drop_drop. f_equal. lia. Qed.

Lemma splice_spec a text last spans s out s' :
  an_maxEntries a < 10 ^ 9 → ex_fits a (ms_ex s) → spans_ok text last spans → (utf8 text → on_boundary text last) →
  splice a text last spans s = (inr out, s') →
  ex_fits a (ms_ex s') ∧ grows (ms_ex s) (ms_ex s') ∧
  ((∃ ps tail, out = marked ps tail ∧ drop last text = plain ps tail ∧ length ps = length spans ∧
      Forall (part_in (ex_byTok (ms_ex s'))) ps ∧ (utf8 text → utf8 out) ∧
      (Forall (λ sp, no_digit (drop (sp_end sp) text)) spans → sep_parts ps tail)) ∨ sha256_collision).
Proof.
  intros Ha. revert last s out. induction spans as [|sp spans IH]; intros last s out Hfit Hsp Hb; cbn [splice].
  - intros [= <- <-]. split_and!; [done..|]. left. exists [], (drop last text). split_and!; try done. intros Hu. by destruct (Hb Hu).
  - destruct Hsp as (H1 & H2 & H3 & Hsp). intros (tok & s1 & HI & HC)%mask_bind_inr. apply mask_bind_inr in HC as (rest & s2 & HR & HC).
    injection HC as <- <-. apply intern_m_spec in HI as (Hf1 & Hg1 & HT); [|done].
    destruct (IH (sp_end sp) s1 rest) as (Hf2 & Hg2 & HP); [done..|by intros Hu; apply H3|done|].
    split_and!; [done|by etrans|]. destruct HT as [HT|?]; [|by right]. destruct HP as [(ps & tail & -> & Ep & EL & HF & HU & HS)|?]; [|by right]. left.
    assert (ex_byTok (ms_ex s2) !! tok = Some (mkEntry kindSpan (text_slice text (sp_start sp) (sp_end sp)))) as HT2 by (eapply lookup_weaken; [done|apply Hg2]).
    pose proof (ex_fits_token _ _ _ _ Ha Hf2 HT2) as Htok.
    exists (mkPart (text_slice text last (sp_start sp)) (sb tok) (text_slice text (sp_start sp) (sp_end sp)) :: ps), tail. split_and!; simpl.
    + done.
    + rewrite <-Ep. rewrite app_assoc, slice_app by lia. by rewrite slice_drop by lia.
    + by rewrite EL.
    + constructor; [|done]. split; simpl; [by rewrite bs_sb|done].
    + intros Hu. destruct (H3 Hu) as [B1 B2]. apply utf8_app; [apply utf8_slice; auto; lia|]. apply utf8_app; [by apply utf8_token|auto].
    + intros [Hn HN]%Forall_cons. split; [|auto]. apply no_digit_marked; [|by rewrite <-Ep].
      eapply Forall_impl; [exact HF|]. by intros x [_ ?].
Qed.

Lemma too_large_mono a s t : (length s ≤ length t)%nat → too_large a t = false → too_large a s = false.
Proof. unfold too_large. rewrite !Z.ltb_ge. lia. Qed.

(** The tables are the same, the counts of lookups apart. *)
Definition same_table (s s' : mask_state) : Prop := ex_byTok (ms_ex s') = ex_byTok (ms_ex s).

Lemma resolve_parts a pre ps tail acc s :
  Forall (part_in (ex_byTok (ms_ex s))) ps → too_large a (acc ++ plain ps tail) = false →
  ∃ s', resolve_loop a (pre ++ marked ps tail) (length pre) acc (part_locs (length pre) ps) s = (inr (acc ++ plain ps tail), s') ∧ same_table s s'.
Proof.
  revert pre acc s. induction ps as [|x ps IH]; intros pre acc s HF HL; cbn [part_locs resolve_loop plain marked] in *.
  - rewrite drop_app_length, HL. by exists s.
  - apply Forall_cons in HF as [[Hx _] HF]. rewrite mask_bind_eq. unfold lookup_m at 1, lookup_token at 1.
    assert (text_slice (pre ++ pa_piece x ++ pa_token x ++ marked ps tail) (length pre + length (pa_piece x)) (length pre + length (pa_piece x) + length (pa_token x)) = pa_token x) as ->.
    { unfold text_slice. rewrite app_assoc, <-length_app, drop_app_length. rewrite Nat.add_comm, Nat.add_sub. by rewrite take_app_length. }
    rewrite Hx. cbn [fst snd].
    assert (text_slice (pre ++ pa_piece x ++ pa_token x ++ marked ps tail) (length pre) (length pre + length (pa_piece x)) = pa_piece x) as ->.
    { unfold text_slice. rewrite drop_app_length, Nat.add_comm, Nat.add_sub. by rewrite take_app_length. }
    change (entry_text (mkEntry kindSpan (pa_orig x))) with (pa_orig x).
    rewrite (too_large_mono a _ (acc ++ pa_piece x ++ pa_orig x ++ plain ps tail)) by (done || (rewrite !length_app; lia)).
    replace (pre ++ pa_piece x ++ pa_token x ++ marked ps tail) with ((pre ++ pa_piece x ++ pa_token x) ++ marked ps tail) by by rewrite <-!app_assoc.
    replace (length pre + length (pa_piece x) + length (pa_token x))%nat with (length (pre ++ pa_piece x ++ pa_token x)) by (rewrite !length_app; lia).
    match goal with |- context [resolve_loop _ _ _ _ _ ?st] => destruct (IH (pre ++ pa_piece x ++ pa_token x) (acc ++ pa_piece x ++ pa_orig x) st) as (s' & E & HT); [exact HF|by rewrite <-!app_assoc|] end.
    exists s'. split; [|exact HT]. rewrite E. by rewrite <-!app_assoc.
Qed.

(** ** What restores a leaf *)

(** The leaf that comes back for a text [w], under the table [E]. *)
Inductive restores (E : gmap string vault_entry) : bytes → jval → Prop :=
  | restores_token tok w : token_text (sb tok) → E !! tok = Some (mkEntry kindLeaf w) → restores E w (VStr (sb tok))
  | restores_parts ps tail :
      ps ≠ [] → Forall (part_in E) ps → sep_parts ps tail → token_free (plain ps tail) →
      restores E (encode_string (plain ps tail)) (VStr (marked ps tail))
  | restores_str s : has_token s = false → restores E (encode_string s) (VStr s)
  | restores_num n : restores E n (VNum n).

Lemma restores_mono E E' w v : E ⊆ E' → restores E w v → restores E' w v.
Proof.
  intros HE HR. destruct HR; [eapply restores_token; [done|by eapply lookup_weaken]|apply restores_parts; try done|by apply restores_str|by apply restores_num].
  eapply Forall_impl; [done|]. intros x. by apply part_in_mono.
Qed.

Lemma escape_rune_length b : rune_ok b → (length b ≤ length (escape_rune (Rune b)))%nat.
Proof.
  destruct b as [|b0 [|b1 [|b2 [|b3 [|b4 b]]]]]; simpl; try done; intros Hb; [|unfold escape3; case_match; simpl; lia].
  unfold escape_ascii_plain, escape_ascii. repeat (case_match; simpl; [lia|]); simpl; lia.
Qed.

Lemma encode_string_length s : (length s ≤ length (encode_string s))%nat.
Proof.
  unfold encode_string. rewrite !length_app. cut (length s ≤ length (concat (escape_rune <$> string_runes s)))%nat; [lia|].
  induction s as [|b s Hb IH|b s E IH] using runes_ind; [done|..].
  - rewrite runes_app, fmap_cons by done. cbn [concat]. rewrite !length_app. pose proof (escape_rune_length b Hb). lia.
  - rewrite (string_runes_step _ _ _ E), fmap_cons. cbn [concat]. rewrite !length_app. simpl in *. lia.
Qed.

Lemma token_at_has s n : token_at s = Some n → ∃ l, token_locs 0 0 s = (0%nat, n) :: l.
Proof. intros E. destruct s as [|b s]; [done|]. cbn [token_locs]. rewrite E. by eexists. Qed.

Lemma unmask_string_restores a E x w s :
  restores E w (VStr x) → E ⊆ ex_byTok (ms_ex s) → too_large a w = false →
  ∃ s', unmask_string a x s = (inr w, s') ∧ same_table s s'.
Proof.
  intros HR HE HL. unfold unmask_string. inversion HR as [tok ? Ht Htok|ps tail Hne HF HS Hfree Ew Ex|? Hn|]; subst.
  - assert (exact_token (sb tok) = true) as ->.
    { apply bool_decide_eq_true. pose proof (token_at_token (sb tok) [] Ht I) as HA. by rewrite app_nil_r in HA. }
    rewrite mask_bind_eq. unfold lookup_m, lookup_token. rewrite bs_sb, (lookup_weaken _ _ _ _ Htok HE). by eexists.
  - assert (Forall (λ y, token_text (pa_token y)) ps) as HT by (eapply Forall_impl; [exact HF|]; by intros y [_ ?]).
    pose proof (marked_locs ps tail 0 HT HS Hfree) as Hlocs.
    destruct ps as [|y ps]; [done|]. destruct (exact_token (marked (y :: ps) tail)) eqn:EX.
    + apply bool_decide_eq_true in EX. destruct (token_at_has _ _ EX) as (l & El). rewrite Hlocs in El. simpl in El. injection El as Ep Et _.
      apply Forall_cons in HT as [Hy HT], HF as [[Hin _] HF]. cbn [marked plain] in *. destruct (pa_piece y) as [|]; [|done]. simpl in Et.
      rewrite length_app in Et. assert (marked ps tail = []) as Em by (destruct (marked ps tail); [done|simpl in Et; lia]).
      assert (ps = [] ∧ tail = []) as [-> ->].
      { destruct ps as [|z ps]; [done|]. exfalso. simpl in Em. apply Forall_cons in HT as [Hz _]. destruct (token_text_head _ Hz) as (u & Eu).
        rewrite Eu in Em. by destruct (pa_piece z). }
      simpl. rewrite !app_nil_r. rewrite mask_bind_eq. unfold lookup_m, lookup_token. rewrite (lookup_weaken _ _ _ _ Hin HE). by eexists.
    + assert (has_token (marked (y :: ps) tail) = true) as ->. { unfold has_token. rewrite Hlocs. done. }
      rewrite mask_bind_eq. unfold resolveText. rewrite Hlocs.
      destruct (resolve_parts a [] (y :: ps) tail [] s) as (s' & E' & HT').
      { eapply Forall_impl; [exact HF|]. intros z. by apply part_in_mono. }
      { eapply too_large_mono; [|exact HL]. apply encode_string_length. }
      cbn [app length] in E'. cbn [part_locs] in E' |- *. rewrite mask_bind_eq, E'. cbn [fst snd]. by eexists.
  - apply no_token_free in Hn as HF. assert (exact_token x = false) as ->.
    { apply bool_decide_eq_false. by rewrite (HF [] x). }
    rewrite Hn. by exists s.
Qed.

(** ** What masking a leaf writes *)

Definition separated_spans (a : Ano) (s : bytes) : Prop := Forall (λ sp, no_digit (drop (sp_end sp) s)) (findSpans (an_rules a) s).

(** A leaf that was masked, or kept, so that it can be restored. *)
Definition leaf_written (a : Ano) (raw w : bytes) (s s' : mask_state) : Prop :=
  ex_fits a (ms_ex s') ∧ grows (ms_ex s) (ms_ex s') ∧
  ((∃ v', w = print v' ∧ val_ok v' ∧ restores (ex_byTok (ms_ex s')) raw v') ∨ sha256_collision).

Lemma writeLeafToken_spec a raw s w s' :
  an_maxEntries a < 10 ^ 9 → ex_fits a (ms_ex s) → writeLeafToken a raw s = (inr w, s') → leaf_written a raw w s s'.
Proof.
  intros Ha Hf. unfold writeLeafToken. intros (tok & s1 & HI & HC)%mask_bind_inr. injection HC as <- <-.
  apply intern_m_spec in HI as (Hf1 & Hg & HT); [|done]. split_and!; [done..|]. destruct HT as [HT|?]; [left|by right].
  pose proof (ex_fits_token _ _ _ _ Ha Hf1 HT) as Htok. exists (VStr (sb tok)). split_and!; [done|by apply utf8_token|by apply restores_token].
Qed.

Lemma emitKept_spec `{!RegexpLaws} a v raw text isString s w s' :
  an_maxEntries a < 10 ^ 9 → ex_fits a (ms_ex s) →
  (isString = true ∧ v = VStr text ∧ has_token text = false ∧ separated_spans a text ∨ isString = false ∧ v = VNum text) →
  val_ok v → raw = print v → emitKept a raw text isString s = (inr w, s') → leaf_written a raw w s s'.
Proof.
  intros Ha Hf Hv Hok -> HE. unfold emitKept in HE. destruct Hv as [(-> & -> & Hn & Hsep)|(-> & ->)]; cbn [negb andb] in HE.
  - pose proof (findSpans_ok (an_rules a) text) as Hsp. unfold separated_spans in Hsep. destruct (findSpans (an_rules a) text) as [|sp spans] eqn:ES.
    + apply mask_bind_inr in HE as ([] & s1 & HC & HE). injection HE as <- <-. injection HC as <-. split_and!; [done..|]. left.
      exists (VStr text). split_and!; [done..|]. by apply restores_str.
    + apply mask_bind_inr in HE as (out & s1 & HS & HE). apply mask_bind_inr in HE as ([] & s2 & HC & HE). injection HC as <-.
      apply mask_bind_inr in HE as ([] & s3 & HC & HE). injection HC as <-. injection HE as <- <-.
      apply splice_spec in HS as (Hf1 & Hg & HP); [|done..|by intros Hu; split; [constructor|]]. split_and!; [done..|].
      destruct HP as [(ps & tail & -> & Ep & EL & HF & HU & HSep)|?]; [left|by right]. rewrite drop_0 in Ep. exists (VStr (marked ps tail)).
      split_and!; [done|by apply HU|]. cbn [print]. rewrite Ep at 1. apply restores_parts; [by destruct ps|done|by apply HSep|].
      rewrite <-Ep. by apply no_token_free.
  - destruct (numberMatchesPattern a text).
    + apply mask_bind_inr in HE as ([] & s1 & HC & HE). injection HC as <-. apply writeLeafToken_spec in HE; done.
    + apply mask_bind_inr in HE as ([] & s1 & HC & HE). injection HE as <- <-. injection HC as <-. split_and!; [done..|]. left.
      exists (VNum text). split_and!; [done..|]. apply restores_num.
Qed.

Lemma classify_state a path value s r s' : classify a path value s = (inr r, s') → ms_ex s' = ms_ex s.
Proof. unfold classify. destruct (an_classifier a) as [f|]; [destruct (f _ _ _)|]; intros E; by simplify_eq. Qed.

(** Counting does not touch the exchange. *)
Lemma count_state r s s1 : count_m r s = (inr tt, s1) → ms_ex s1 = ms_ex s.
Proof. by intros [= <-]. Qed.
Lemma mret_state s s1 : (mret tt : mask_m unit) s = (inr tt, s1) → ms_ex s1 = ms_ex s.
Proof. by intros [= <-]. Qed.

Lemma maskLeaf_spec `{!RegexpLaws} a path v raw text isString s w s' :
  an_maxEntries a < 10 ^ 9 → ex_fits a (ms_ex s) →
  (isString = true ∧ v = VStr text ∧ separated_spans a text ∨ isString = false ∧ v = VNum text) →
  val_ok v → raw = print v → maskLeaf a path raw text isString s = (inr w, s') → leaf_written a raw w s s'.
Proof.
  intros Ha Hf Hv Hok Hraw HE. unfold maskLeaf in HE. apply mask_bind_inr in HE as ([] & s1 & HC & HE).
  apply count_state in HC as E1. clear HC.
  destruct (isString && has_token text) eqn:HT; [done|].
  assert (isString = true ∧ v = VStr text ∧ has_token text = false ∧ separated_spans a text ∨ isString = false ∧ v = VNum text) as Hv'.
  { destruct Hv as [(-> & ? & ?)|?]; [left|by right]. simpl in HT. auto. }
  assert (∀ s2, ms_ex s2 = ms_ex s → writeLeafToken a raw s2 = (inr w, s') → leaf_written a raw w s s') as HW.
  { intros s2 E2 HW. unfold leaf_written. rewrite <-E2. eapply writeLeafToken_spec; [done|by rewrite E2|done]. }
  assert (∀ s2, ms_ex s2 = ms_ex s → emitKept a raw text isString s2 = (inr w, s') → leaf_written a raw w s s') as HK.
  { intros s2 E2 HW'. unfold leaf_written. rewrite <-E2. eapply emitKept_spec; [done|by rewrite E2|done..]. }
  destruct (rules_decide (an_rules a) path).
  - case_bool_decide as Hnil.
    + apply mask_bind_inr in HE as ([] & s2 & HC & HE). injection HE as <- <-. injection HC as <-. unfold leaf_written. simpl. rewrite E1.
      split_and!; [done..|]. left. exists v. destruct Hv as [(-> & -> & ?)|(-> & ->)]; (split_and!; [done..|]); subst raw text; [by apply restores_str|by apply restores_num].
    + apply mask_bind_inr in HE as (rep & s2 & HC & HE). injection HC as <- <-.
      destruct (_ && (an_maxClassifyCalls a <=? _)).
      * apply mask_bind_inr in HE as ([] & s3 & HC & HE). injection HC as <-. refine (HW _ _ HE); simpl; congruence.
      * apply mask_bind_inr in HE as ([] & s3 & HC & HE). assert (ms_ex s3 = ms_ex s) as E3 by (destruct (an_classifier a); [apply count_state in HC|apply mret_state in HC]; congruence). clear HC.
        apply mask_bind_inr in HE as ([mask fault] & s4 & HC%classify_state & HE). rewrite E3 in HC.
        apply mask_bind_inr in HE as ([] & s5 & HC5 & HE).
        assert (ms_ex s5 = ms_ex s) as E5 by (destruct fault, (an_classifier a), mask; cbn [negb] in HC5; first [apply count_state in HC5|apply mret_state in HC5]; congruence). clear HC5.
        destruct mask; [refine (HW _ _ HE); simpl; congruence|refine (HK _ _ HE); simpl; congruence].
  - refine (HK _ _ HE); simpl; congruence.
  - apply mask_bind_inr in HE as ([] & s2 & HC & HE). injection HC as <-. refine (HW _ _ HE); simpl; congruence.
Qed.

(** ** What masking a document writes *)

(** Every leaf that is masked can be restored under the table [E]. *)
Inductive back (E : gmap string vault_entry) : jval → jval → Prop :=
  | back_leaf v v' : levels v = 0%nat → restores E (print v) v' → back E v v'
  | back_null : back E VNull VNull
  | back_bool b : back E (VBool b) (VBool b)
  | back_arr l l' : Forall2 (back E) l l' → back E (VArr l) (VArr l')
  | back_obj ms ms' : Forall2 (λ m m', m.1 = m'.1 ∧ back E m.2 m'.2) ms ms' → back E (VObj ms) (VObj ms').

(** The induction that looks into the arrays and the objects. *)
Lemma back_nested_ind E (P : jval → jval → Prop) :
  (∀ v v', levels v = 0%nat → restores E (print v) v' → P v v') → P VNull VNull → (∀ b, P (VBool b) (VBool b)) →
  (∀ l l', Forall2 (back E) l l' → Forall2 P l l' → P (VArr l) (VArr l')) →
  (∀ ms ms', Forall2 (λ m m', m.1 = m'.1 ∧ back E m.2 m'.2) ms ms' → Forall2 (λ m m', m.1 = m'.1 ∧ P m.2 m'.2) ms ms' → P (VObj ms) (VObj ms')) →
  ∀ v v', back E v v' → P v v'.
Proof.
  intros H1 H2 H3 H4 H5. fix IH 3. intros v v' HB. destruct HB as [v v' A C| |b|l l' HF|ms ms' HF]; [by apply H1|done|done| |].
  - apply H4; [done|]. induction HF as [|x y l l' Hxy HF IHF]; constructor; [by apply IH|exact IHF].
  - apply H5; [done|]. induction HF as [|x y l l' [Hk Hxy] HF IHF]; constructor; [split; [done|by apply IH]|exact IHF].
Qed.

Lemma back_mono E E' v v' : E ⊆ E' → back E v v' → back E' v v'.
Proof.
  intros HE. induction 1 as [v v' A C| |b|l l' _ IH|ms ms' _ IH] using back_nested_ind; [eapply back_leaf; [done..|by eapply restores_mono]|constructor..]; done.
Qed.

(** The strings of a document. *)
Fixpoint all_strings (P : bytes → Prop) (v : jval) : Prop :=
  match v with
  | VStr s => P s
  | VArr l => fold_right (λ v Q, all_strings P v ∧ Q) True l
  | VObj ms => fold_right (λ m Q, all_strings P m.2 ∧ Q) True ms
  | _ => True
  end.

Definition tree_written (a : Ano) (depth : nat) (v : jval) (w : bytes) (s s' : mask_state) : Prop :=
  ex_fits a (ms_ex s') ∧ grows (ms_ex s) (ms_ex s') ∧ (depth + levels v ≤ maxJSONDepth)%nat ∧
  ((∃ v', w = print v' ∧ val_ok v' ∧ levels v' = levels v ∧ back (ex_byTok (ms_ex s')) v v') ∨ sha256_collision).

(** A comma before each element but the first. *)
Definition list_text (first : bool) (ws : list bytes) : bytes :=
  if first then comma_sep ws else concat ((λ x, comma :: x) <$> ws).

Lemma list_text_cons first w ws : list_text first (w :: ws) = (if first then [] else [comma]) ++ w ++ list_text false ws.
Proof. by destruct first. Qed.

Definition list_written (a : Ano) (depth : nat) (l : list jval) (first : bool) (w : bytes) (s s' : mask_state) : Prop :=
  ex_fits a (ms_ex s') ∧ grows (ms_ex s) (ms_ex s') ∧ Forall (λ v, (depth + S (levels v) ≤ maxJSONDepth)%nat) l ∧
  ((∃ l', w = list_text first (print <$> l') ∧ Forall val_ok l' ∧ Forall2 (λ v v', S (levels v') = S (levels v)) l l' ∧
      Forall2 (back (ex_byTok (ms_ex s'))) l l') ∨ sha256_collision).

Definition pairs_written (a : Ano) (depth : nat) (ms : list (bytes * jval)) (first : bool) (w : bytes) (s s' : mask_state) : Prop :=
  ex_fits a (ms_ex s') ∧ grows (ms_ex s) (ms_ex s') ∧ Forall (λ m, (depth + S (levels m.2) ≤ maxJSONDepth)%nat) ms ∧
  ((∃ ms', w = list_text first (member_text <$> ms') ∧ Forall (λ m, utf8 m.1 ∧ val_ok m.2) ms' ∧ Forall2 (λ m m', S (levels m'.2) = S (levels m.2)) ms ms' ∧
      Forall2 (λ m m', m.1 = m'.1 ∧ back (ex_byTok (ms_ex s')) m.2 m'.2) ms ms') ∨ sha256_collision).

Lemma levels_eq {A} (f : A → nat) (l l' : list A) :
  Forall2 (λ x y, f y = f x) l l' → foldr Nat.max 0%nat (map f l') = foldr Nat.max 0%nat (map f l).
Proof. induction 1; simpl; [done|]. congruence. Qed.

Lemma levels_bound {A} (f : A → nat) (l : list A) (n : nat) :
  Forall (λ x, (f x ≤ n)%nat) l → (foldr Nat.max 0 (map f l) ≤ n)%nat.
Proof. induction 1; simpl; lia. Qed.

Definition tree_spec (a : Ano) (v : jval) : Prop :=
  ∀ path depth s w s', an_maxEntries a < 10 ^ 9 → ex_fits a (ms_ex s) → val_ok v → all_strings (separated_spans a) v →
    mask_tree a path depth v s = (inr w, s') → tree_written a depth v w s s'.

Lemma over_list_spec a (depth : nat) (f : Z → jval → mask_m bytes) l :
  Forall (λ v, ∀ i s w s', ex_fits a (ms_ex s) → f i v s = (inr w, s') → tree_written a (S depth) v w s s') l →
  ∀ i s w s', 0 ≤ i → ex_fits a (ms_ex s) → over_list f l i s = (inr w, s') → list_written a depth l (bool_decide (i = 0)) w s s'.
Proof.
  induction 1 as [|v l Hv _ IH]; intros i s w s' Hi Hf; cbn [over_list].
  - intros [= <- <-]. split_and!; try done. left. exists []. split_and!; try constructor. by destruct (bool_decide _).
  - fold (over_list f). intros (x & s1 & HE & HC)%mask_bind_inr. apply mask_bind_inr in HC as (r & s2 & HR & HC). injection HC as <- <-.
    destruct (Hv _ _ _ _ Hf HE) as (Hf1 & Hg1 & Hd1 & HP1). destruct (IH (i + 1) s1 r s2) as (Hf2 & Hg2 & Hd2 & HP2); [lia|done..|].
    split_and!; [done|by etrans|constructor; [simpl; lia|done]|]. destruct HP1 as [(v' & -> & Hv' & Hh & HB)|?]; [|by right]. destruct HP2 as [(l' & -> & Hl' & HH & HBl)|?]; [|by right].
    left. exists (v' :: l'). rewrite fmap_cons, list_text_cons, (bool_decide_false (i + 1 = 0)) by lia. split_and!; [|by constructor|constructor; [simpl; congruence|done]|].
    + f_equal. destruct (Z.ltb_spec 0 i); [by rewrite bool_decide_false by lia|by rewrite bool_decide_true by lia].
    + constructor; [|done]. eapply back_mono; [apply Hg2|done].
Qed.

Lemma over_members_spec a (depth : nat) (f : bytes → jval → mask_m bytes) ms :
  Forall (λ m, utf8 m.1 ∧ ∀ s w s', ex_fits a (ms_ex s) → f m.1 m.2 s = (inr w, s') → tree_written a (S depth) m.2 w s s') ms →
  ∀ first s w s', ex_fits a (ms_ex s) → over_members f ms first s = (inr w, s') → pairs_written a depth ms first w s s'.
Proof.
  induction 1 as [|[k v] ms [Hk Hv] _ IH]; intros first s w s' Hf; cbn [over_members].
  - intros [= <- <-]. split_and!; try done. left. exists []. split_and!; try constructor. by destruct first.
  - fold (over_members f). cbn [fst snd] in *. intros (x & s1 & HE & HC)%mask_bind_inr. apply mask_bind_inr in HC as (r & s2 & HR & HC). injection HC as <- <-.
    destruct (Hv _ _ _ Hf HE) as (Hf1 & Hg1 & Hd1 & HP1). destruct (IH false s1 r s2) as (Hf2 & Hg2 & Hd2 & HP2); [done..|].
    split_and!; [done|by etrans|constructor; [simpl; lia|done]|]. destruct HP1 as [(v' & -> & Hv' & Hh & HB)|?]; [|by right]. destruct HP2 as [(ms' & -> & Hl' & HH & HBl)|?]; [|by right].
    left. exists ((k, v') :: ms'). rewrite fmap_cons, list_text_cons. split_and!; [|by constructor|constructor; [simpl; congruence|done]|].
    + f_equal. change (member_text (k, v')) with (encode_string k ++ Byte.x3a :: print v'). unfold encode_string. cbn [app]. by rewrite <-!app_assoc.
    + constructor; [|done]. split; [done|]. eapply back_mono; [apply Hg2|done].
Qed.

Lemma mask_tree_spec `{!RegexpLaws} a v : tree_spec a v.
Proof.
  induction v as [|b|n|x|l IH|ms IH] using jval_tree_ind; intros path depth s w s' Ha Hf Hok Hsep; cbn [mask_tree];
    (destruct (Nat.ltb_spec maxJSONDepth depth); [done|]).
  - intros [= <- <-]. split_and!; [done..|simpl; lia|]. left. exists VNull. split_and!; [done..|apply back_null].
  - intros [= <- <-]. split_and!; [done..|simpl; lia|]. left. exists (VBool b). split_and!; [by destruct b|done..|apply back_bool].
  - intros HE. eapply (maskLeaf_spec a path (VNum n)) in HE as (Hf1 & Hg1 & HP); [|done|done|by right|done..]. split_and!; [done..|simpl; lia|].
    destruct HP as [(v' & -> & Hv' & HR)|?]; [left|by right]. exists v'. split_and!; [done..| |by apply back_leaf]. by inversion HR.
  - intros HE. eapply (maskLeaf_spec a path (VStr x)) in HE as (Hf1 & Hg1 & HP); [|done|done|by left|done..]. split_and!; [done..|simpl; lia|].
    destruct HP as [(v' & -> & Hv' & HR)|?]; [left|by right]. exists v'. split_and!; [done..| |by apply back_leaf]. by inversion HR.
  - intros (r & s1 & HE & HC)%mask_bind_inr. injection HC as <- <-. apply val_ok_arr in Hok.
    apply (over_list_spec a depth) in HE as (Hf1 & Hg1 & Hd & HP); [|..|done|done].
    + split_and!; [done..| |].
      * cbn [levels]. destruct l as [|v0 l]; [simpl; lia|].
        assert (foldr Nat.max 0 (map (λ v, S (levels v)) (v0 :: l)) ≤ maxJSONDepth - depth)%nat; [|lia].
        apply levels_bound. eapply Forall_impl; [exact Hd|]. intros y Hy. simpl in Hy. lia.
      * destruct HP as [(l' & -> & Hl' & Hh & HB)|?]; [left|by right]. exists (VArr l'). split_and!; [done|by apply val_ok_arr| |by apply back_arr].
        simpl. by apply (levels_eq (λ v, S (levels v))).
    + apply Forall_forall. intros v Hv i s2 w2 s2' Hf2 HE2. rewrite Forall_forall in IH. eapply (IH v Hv); [done..| | |exact HE2].
      * by rewrite Forall_forall in Hok; apply Hok.
      * clear -Hsep Hv. simpl in Hsep. induction l as [|y l IHl]; [by apply not_elem_of_nil in Hv|]. simpl in Hsep. apply elem_of_cons in Hv as [->|Hv]; [tauto|]. apply IHl; tauto.
  - intros (r & s1 & HE & HC)%mask_bind_inr. injection HC as <- <-. apply val_ok_obj in Hok.
    apply (over_members_spec a depth) in HE as (Hf1 & Hg1 & Hd & HP); [|..|done].
    + split_and!; [done..| |].
      * cbn [levels]. destruct ms as [|v0 ms]; [simpl; lia|].
        assert (foldr Nat.max 0 (map (λ m : bytes * jval, S (levels m.2)) (v0 :: ms)) ≤ maxJSONDepth - depth)%nat; [|lia].
        apply levels_bound. eapply Forall_impl; [exact Hd|]. intros y Hy. simpl in Hy. lia.
      * destruct HP as [(l' & -> & Hl' & Hh & HB)|?]; [left|by right]. exists (VObj l'). split_and!; [done|by apply val_ok_obj| |by apply back_obj].
        simpl. by apply (levels_eq (λ m : bytes * jval, S (levels m.2))).
    + apply Forall_forall. intros m Hm. rewrite Forall_forall in Hok. split; [by apply Hok|]. intros s2 w2 s2' Hf2 HE2.
      rewrite Forall_forall in IH. eapply (IH m Hm); [done..|by apply Hok| |exact HE2].
      clear -Hsep Hm. simpl in Hsep. induction ms as [|y l IHl]; [by apply not_elem_of_nil in Hm|]. simpl in Hsep. apply elem_of_cons in Hm as [->|Hm]; [tauto|]. apply IHl; tauto.
Qed.

(** ** Restoring *)

Definition restored_by (a : Ano) (E : gmap string vault_entry) (f : bytes → jval → mask_m bytes) (v v' : jval) : Prop :=
  ∀ out s, E ⊆ ex_byTok (ms_ex s) → too_large a (out ++ print v) = false →
    ∃ s', f out v' s = (inr (out ++ print v), s') ∧ same_table s s'.

Lemma unmask_list_restored a E f l l' :
  Forall2 (restored_by a E f) l l' →
  ∀ i out s, 0 ≤ i → E ⊆ ex_byTok (ms_ex s) → too_large a (out ++ list_text (bool_decide (i = 0)) (print <$> l)) = false →
    ∃ s', unmask_list f l' out i s = (inr (out ++ list_text (bool_decide (i = 0)) (print <$> l)), s') ∧ same_table s s'.
Proof.
  induction 1 as [|v v' l l' Hv _ IH]; intros i out s Hi HE HL; cbn [unmask_list].
  - exists s. split; [|done]. rewrite fmap_nil. unfold list_text. case_bool_decide; simpl; by rewrite app_nil_r.
  - fold (unmask_list f). rewrite fmap_cons, list_text_cons in HL |- *. rewrite mask_bind_eq.
    assert ((if 0 <? i then [comma] else []) = if bool_decide (i = 0) then [] else [comma]) as ->.
    { destruct (Z.ltb_spec 0 i); [by rewrite bool_decide_false by lia|by rewrite bool_decide_true by lia]. }
    set (c := if bool_decide (i = 0) then [] else [comma]) in *.
    destruct (Hv (out ++ c) s HE) as (s1 & E1 & T1); [eapply too_large_mono; [|exact HL]; rewrite !length_app; lia|]. rewrite E1.
    destruct (IH (i + 1) ((out ++ c) ++ print v) s1) as (s2 & E2 & T2); [lia|by rewrite T1| |].
    { rewrite (bool_decide_false (i + 1 = 0)) by lia. by rewrite <-!app_assoc. }
    exists s2. rewrite E2, (bool_decide_false (i + 1 = 0)) by lia. rewrite <-!app_assoc. split; [done|]. unfold same_table in *. congruence.
Qed.

Lemma unmask_pairs_restored a E f ms ms' :
  Forall2 (λ m m', m.1 = m'.1 ∧ restored_by a E f m.2 m'.2) ms ms' →
  ∀ first out s, E ⊆ ex_byTok (ms_ex s) → too_large a (out ++ list_text first (member_text <$> ms)) = false →
    ∃ s', unmask_pairs f ms' out first s = (inr (out ++ list_text first (member_text <$> ms)), s') ∧ same_table s s'.
Proof.
  induction 1 as [|[k v] [k' v'] ms ms' [Hk Hv] _ IH]; intros first out s HE HL; cbn [unmask_pairs].
  - exists s. split; [|done]. rewrite fmap_nil. unfold list_text. case_match; simpl; by rewrite app_nil_r.
  - fold (unmask_pairs f). simpl in Hk. subst k'. rewrite fmap_cons, list_text_cons in HL |- *. rewrite mask_bind_eq. cbn [fst snd] in *.
    set (c := if first then [] else [comma]) in *.
    assert (member_text (k, v) = encode_string k ++ [Byte.x3a] ++ print v) as EM by done. rewrite EM in *. clear EM.
    destruct (Hv (out ++ c ++ encode_string k ++ [Byte.x3a]) s HE) as (s1 & E1 & T1); [eapply too_large_mono; [|exact HL]; rewrite !length_app; lia|]. rewrite E1.
    destruct (IH false ((out ++ c ++ encode_string k ++ [Byte.x3a]) ++ print v) s1) as (s2 & E2 & T2); [by rewrite T1| |].
    { repeat rewrite <-app_assoc in HL. repeat rewrite <-app_assoc. exact HL. }
    exists s2. rewrite E2. repeat rewrite <-app_assoc. split; [done|]. unfold same_table in *. congruence.
Qed.

Lemma levels_elem {A} (f : A → nat) (l : list A) x : x ∈ l → (f x ≤ foldr Nat.max 0 (map f l))%nat.
Proof. induction 1; simpl; lia. Qed.

Lemma unmask_back a E v v' :
  back E v v' → ∀ depth, (depth + levels v' ≤ maxJSONDepth)%nat → restored_by a E (λ out v, unmask_tree a depth v out) v v'.
Proof.
  induction 1 as [v v' A C| |b|l l' _ IH|ms ms' _ IH] using back_nested_ind; intros depth Hd out s HE HL.
  - assert (too_large a out = false) as HL1 by (eapply too_large_mono; [|exact HL]; rewrite length_app; lia).
    assert (too_large a (print v) = false) as HL2 by (eapply too_large_mono; [|exact HL]; rewrite length_app; lia).
    destruct v' as [| |n|x| |]; try by inversion C.
    + inversion C; subst. simpl in *. rewrite HL1. destruct (Nat.ltb_spec maxJSONDepth depth); [lia|]. unfold bounded_out. rewrite HL. by exists s.
    + simpl in *. rewrite HL1. destruct (Nat.ltb_spec maxJSONDepth depth); [lia|]. destruct (unmask_string_restores a E x (print v) s C HE HL2) as (s1 & E1 & T1).
      rewrite mask_bind_eq, E1. unfold bounded_out. rewrite HL. by exists s1.
  - assert (too_large a out = false) as HL1 by (eapply too_large_mono; [|exact HL]; rewrite length_app; lia).
    cbn [unmask_tree]. rewrite HL1. destruct (Nat.ltb_spec maxJSONDepth depth); [simpl in Hd; lia|]. unfold bounded_out. simpl in HL. rewrite HL. by exists s.
  - assert (too_large a out = false) as HL1 by (eapply too_large_mono; [|exact HL]; rewrite length_app; lia).
    cbn [unmask_tree]. rewrite HL1. destruct (Nat.ltb_spec maxJSONDepth depth); [simpl in Hd; lia|]. unfold bounded_out. simpl in HL. rewrite HL. by exists s.
  - assert (too_large a out = false) as HL1 by (eapply too_large_mono; [|exact HL]; rewrite length_app; lia).
    cbn [unmask_tree]. rewrite HL1. destruct (Nat.ltb_spec maxJSONDepth depth); [lia|]. rewrite mask_bind_eq.
    assert (print (VArr l) = [Byte.x5b] ++ list_text (bool_decide (0 = 0)) (print <$> l) ++ [Byte.x5d]) as EP by done. rewrite EP in *.
    destruct (unmask_list_restored a E (λ out v, unmask_tree a (S depth) v out) l l') with (i := 0) (out := out ++ [Byte.x5b]) (s := s) as (s1 & E1 & T1); [|done..| |].
    + apply Forall2_same_length_lookup. split; [by eapply Forall2_length|]. intros j x y Hx Hy. eapply (Forall2_lookup_lr _ _ _ _ _ _ IH Hx Hy).
      pose proof (levels_elem (λ v, S (levels v)) l' y (list_elem_of_lookup_2 _ _ _ Hy)) as HLv. cbn [levels] in Hd. simpl in HLv. lia.
    + eapply too_large_mono; [|exact HL]. rewrite !length_app. lia.
    + rewrite E1. unfold bounded_out. rewrite <-!app_assoc in *. rewrite HL. by exists s1.
  - assert (too_large a out = false) as HL1 by (eapply too_large_mono; [|exact HL]; rewrite length_app; lia).
    cbn [unmask_tree]. rewrite HL1. destruct (Nat.ltb_spec maxJSONDepth depth); [lia|]. rewrite mask_bind_eq.
    assert (print (VObj ms) = [Byte.x7b] ++ list_text true (member_text <$> ms) ++ [Byte.x7d]) as EP by done. rewrite EP in *.
    destruct (unmask_pairs_restored a E (λ out v, unmask_tree a (S depth) v out) ms ms') with (first := true) (out := out ++ [Byte.x7b]) (s := s) as (s1 & E1 & T1); [|done..| |].
    + apply Forall2_same_length_lookup. split; [by eapply Forall2_length|]. intros j x y Hx Hy. destruct (Forall2_lookup_lr _ _ _ _ _ _ IH Hx Hy) as [Hk HR].
      split; [done|]. apply HR. pose proof (levels_elem (λ m : bytes * jval, S (levels m.2)) ms' y (list_elem_of_lookup_2 _ _ _ Hy)) as HLv. cbn [levels] in Hd. simpl in HLv. lia.
    + eapply too_large_mono; [|exact HL]. rewrite !length_app. lia.
    + rewrite E1. unfold bounded_out. rewrite <-!app_assoc in *. rewrite HL. by exists s1.
Qed.

(** ** What every call keeps *)

(** Whatever its result, a computation leaves the table in order and only adds to it. *)
Definition keeps_table (a : Ano) {A} (m : mask_m A) : Prop :=
  ∀ s, ex_fits a (ms_ex s) → ex_fits a (ms_ex (m s).2) ∧ grows (ms_ex s) (ms_ex (m s).2).

Lemma keeps_bind a {A B} (m : mask_m A) (f : A → mask_m B) : keeps_table a m → (∀ x, keeps_table a (f x)) → keeps_table a (m ≫= f).
Proof.
  intros Hm Hf s Hs. rewrite mask_bind_eq. destruct (Hm s Hs) as [H1 H2]. destruct (m s) as [[e|x] s1]; [done|]. simpl in *.
  destruct (Hf x s1 H1) as [H3 H4]. split; [done|by etrans].
Qed.

Lemma keeps_same a {A} (m : mask_m A) : (∀ s, ms_ex (m s).2 = ms_ex s) → keeps_table a m.
Proof. intros Hm s Hs. rewrite Hm. done. Qed.

Lemma keeps_intern a kind orig : keeps_table a (intern_m a kind orig).
Proof. intros s Hs. destruct (intern_m a kind orig s) as [r s1] eqn:E. apply intern_m_spec in E as (? & ? & _); done. Qed.

Lemma keeps_lookup a tok : keeps_table a (lookup_m tok).
Proof. intros s [[H1 H2 H3 H4] Hf]. split; [|by repeat split]. split; [by constructor|done]. Qed.

Ltac keep_steps :=
  repeat match goal with
  | |- keeps_table _ (_ ≫= _) => apply keeps_bind; [|intros ?]
  | |- keeps_table _ (if ?b then _ else _) => destruct b
  | |- keeps_table _ (match ?x with _ => _ end) => destruct x
  | |- keeps_table _ (mret _) => by apply keeps_same
  | |- keeps_table _ (fail_m _) => by apply keeps_same
  | |- keeps_table _ (count_m _) => by apply keeps_same
  | |- keeps_table _ get_rep => by apply keeps_same
  | |- keeps_table _ (intern_m _ _ _) => apply keeps_intern
  | |- keeps_table _ (lookup_m _) => apply keeps_lookup
  end.

Lemma keeps_token a raw : keeps_table a (writeLeafToken a raw).
Proof. unfold writeLeafToken. keep_steps. Qed.
#[local] Hint Resolve keeps_token : tbp.

Lemma keeps_splice a text last spans : keeps_table a (splice a text last spans).
Proof. revert last. induction spans; intros last; cbn [splice]; keep_steps; auto. Qed.
#[local] Hint Resolve keeps_splice : tbp.

Lemma keeps_emit a raw text b : keeps_table a (emitKept a raw text b).
Proof. unfold emitKept. destruct b; keep_steps; auto with tbp. Qed.
#[local] Hint Resolve keeps_emit : tbp.

Lemma keeps_classify a path value : keeps_table a (classify a path value).
Proof. apply keeps_same. intros s. unfold classify. destruct (an_classifier a) as [f|]; [by destruct (f _ _ _)|done]. Qed.
#[local] Hint Resolve keeps_classify : tbp.

Lemma keeps_leaf a path raw text b : keeps_table a (maskLeaf a path raw text b).
Proof. unfold maskLeaf. keep_steps; auto with tbp. Qed.

Lemma keeps_close a {A} d (k : Decoder → A) : keeps_table a (close_m d k).
Proof. unfold close_m. keep_steps. Qed.

Lemma keeps_mask fuel a :
  (∀ d path depth, keeps_table a (maskValue fuel a d path depth)) ∧ (∀ d path depth i, keeps_table a (maskElements fuel a d path depth i)) ∧
  (∀ d path depth b, keeps_table a (maskMembers fuel a d path depth b)).
Proof.
  induction fuel as [|fuel (IHv & IHl & IHm)]; [split_and!; intros; by apply keeps_same|]. split_and!; intros.
  - cbn [maskValue]. destruct (_ <? _)%nat; [by apply keeps_same|]. destruct (NextToken d) as [| |[]]; keep_steps; auto using keeps_leaf, keeps_close.
  - cbn [maskElements]. keep_steps; auto.
  - cbn [maskMembers]. destruct (More d); [|by apply keeps_same]. destruct (NextToken d) as [| |[]]; keep_steps; auto.
Qed.

Lemma keeps_mask_document a payload : keeps_table a (mask_document a payload).
Proof. unfold mask_document. keep_steps. apply keeps_mask. Qed.

Lemma keeps_mask_field a path value : keeps_table a (mask_field a path value).
Proof. unfold mask_field. keep_steps; auto using keeps_leaf. Qed.

Lemma keeps_resolve_loop a x last acc locs : keeps_table a (resolve_loop a x last acc locs).
Proof. revert last acc. induction locs as [|[i j] locs IH]; intros last acc; cbn [resolve_loop]; keep_steps; auto. Qed.

Lemma keeps_resolve a x : keeps_table a (resolveText a x).
Proof. unfold resolveText. keep_steps; auto using keeps_resolve_loop. Qed.
#[local] Hint Resolve keeps_resolve : tbp.

Lemma keeps_unmask_string a x : keeps_table a (unmask_string a x).
Proof. unfold unmask_string. keep_steps; auto with tbp. Qed.

Lemma keeps_unmask fuel a :
  (∀ d out depth, keeps_table a (unmaskValue fuel a d out depth)) ∧ (∀ d out depth i, keeps_table a (unmaskElements fuel a d out depth i)) ∧
  (∀ d out depth b, keeps_table a (unmaskMembers fuel a d out depth b)).
Proof.
  induction fuel as [|fuel (IHv & IHl & IHm)]; [split_and!; intros; by apply keeps_same|].
  assert (∀ out d, keeps_table a (bounded_m a out d)) as HB by (intros; unfold bounded_m; keep_steps). split_and!; intros.
  - cbn [unmaskValue]. destruct (_ <? _)%nat; [by apply keeps_same|]. destruct (NextToken d) as [| |[]]; keep_steps; auto using keeps_unmask_string, keeps_close.
  - cbn [unmaskElements]. keep_steps; auto.
  - cbn [unmaskMembers]. destruct (More d); [|by apply keeps_same]. destruct (NextToken d) as [| |]; keep_steps; auto.
Qed.

Lemma keeps_unmask_payload a payload : keeps_table a (unmask_payload a payload).
Proof. unfold unmask_payload. keep_steps; [apply keeps_resolve|apply keeps_unmask]. Qed.
End engine.
