(* ===== verification/Anonymity.v ===== *)
(** The service of the anonymiser over time: any sequence of its calls ([Ano]), what the tables keep, and the
    theorems of the component. *)
From S2P Require Import Prelude.
From S2P Require Import Json.
From S2P Require Import Leaf.
From S2P Require Import Effects.
From S2P Require Import GoStrings.
From S2P Require Import GoJson.
From S2P Require Import Ano.
From S2P Require Import Masking.

Local Open Scope Z_scope.

Section service.
Context `{Crypto, Regexp}.

(** A call to the anonymiser, with the clock it reads and what the random source gives. *)
Inductive ano_op :=
  | OpOpen (id : string) (expiry now : Z) (dkey : option bytes)
  | OpClose (id : string)
  | OpExchanges (now : Z)
  | OpMaskJSON (id : string) (payload : bytes) (now : Z)
  | OpMaskField (id : string) (path : list string) (value : bytes) (now : Z)
  | OpUnmask (id : string) (payload : bytes) (now : Z).

Definition ano_step (a : Ano) (op : ano_op) (vt : vault * trace) : vault * trace :=
  let '(v, t) := vt in
  match op with
  | OpOpen id expiry now dkey => let '(_, v1, t1) := vault_open id expiry now dkey v t in (v1, t1)
  | OpClose id => (vault_close id v, t)
  | OpExchanges now => ((vault_size now v).2, t)
  | OpMaskJSON id payload now => let '(_, _, v1, t1) := MaskJSON a id payload now v t in (v1, t1)
  | OpMaskField id path value now => let '(_, _, v1, t1) := MaskField a id path value now v t in (v1, t1)
  | OpUnmask id payload now => let '(_, _, v1, t1) := Unmask a id payload now v t in (v1, t1)
  end.

Definition ano_run (a : Ano) (ops : list ano_op) (vt : vault * trace) : vault * trace := foldl (λ vt op, ano_step a op vt) vt ops.

Definition ano_op_now (op : ano_op) : option Z :=
  match op with
  | OpOpen _ _ now _ | OpExchanges now | OpMaskJSON _ _ now | OpMaskField _ _ _ now | OpUnmask _ _ now => Some now
  | OpClose _ => None
  end.

(** A call that neither closes the exchange [id] nor reads the clock at its expiry or after. *)
Definition spares (id : string) (expires : Z) (op : ano_op) : Prop :=
  op ≠ OpClose id ∧ ∀ now, ano_op_now op = Some now → now < expires.

Definition vault_ok (a : Ano) (v : vault) : Prop :=
  va_maxEntries v = an_maxEntries a ∧ 0 ≤ va_maxEntries v ∧ Z.of_nat (size (va_ex v)) ≤ va_maxExchanges v ∧ map_Forall (λ _ e, ex_fits a e) (va_ex v).

(** The exchange [id] is still there, with all its tokens. *)
Definition exchange_kept (id : string) (e : exchange) (v : vault) : Prop := ∃ e', va_ex v !! id = Some e' ∧ grows e e'.

Lemma grows_refl e : grows e e.
Proof. done. Qed.
Lemma grows_trans e1 e2 e3 : grows e1 e2 → grows e2 e3 → grows e1 e3.
Proof. intros (A1 & B1 & C1) (A2 & B2 & C2). unfold grows. rewrite A2, B2. split_and!; [done..|]. by etrans. Qed.

Lemma purge_ok a now v : vault_ok a v → vault_ok a (vault_purgeLocked now v).
Proof.
  intros (V1 & V0 & V2 & V3). split_and!; simpl; [done..| |].
  - pose proof (map_size_filter (λ kv, alive now kv.2 = true) (va_ex v)). lia.
  - intros id e [He _]%map_lookup_filter_Some. by apply (V3 id).
Qed.

Lemma vault_purge_kept now v id e : va_ex v !! id = Some e → now < ex_expires e → va_ex (vault_purgeLocked now v) !! id = Some e.
Proof. intros He Hn. apply map_lookup_filter_Some. split; [done|]. unfold alive. by apply Z.ltb_lt. Qed.

Lemma open_ok a id expiry now dkey v t :
  vault_ok a v →
  let '(_, v', _) := vault_open id expiry now dkey v t in
  vault_ok a v' ∧ ∀ i e, va_ex v !! i = Some e → now < ex_expires e → exchange_kept i e v'.
Proof.
  intros Hok. pose proof (purge_ok a now v Hok) as Hp. unfold vault_open.
  assert (∀ i e, va_ex v !! i = Some e → now < ex_expires e → exchange_kept i e v) as HK0 by (intros i e He _; by exists e).
  assert (∀ i e, va_ex v !! i = Some e → now < ex_expires e → exchange_kept i e (vault_purgeLocked now v)) as HK by (intros i e He Hn; exists e; split; [by apply vault_purge_kept|done]).
  destruct (_ || _); [done|]. destruct (va_ex (vault_purgeLocked now v) !! id) as [e0|] eqn:E0; [done|]. destruct (_ <=? _); [done|].
  destruct (Z.leb_spec (va_maxExchanges v) (Z.of_nat (size (va_ex (vault_purgeLocked now v))))); [done|]. destruct dkey as [k|]; [|done]. split.
  - destruct Hp as (V1 & V0 & V2 & V3). split_and!; simpl in *; [done..| |].
    + rewrite map_size_insert_None by done. lia.
    + apply map_Forall_insert_2; [|done]. split; [apply ex_ok_new|simpl]. destruct Hok as (<- & ? & _). done.
  - intros i e He Hn. destruct (HK i e He Hn) as (e' & He' & Hg). exists e'. split; [|done]. simpl. rewrite lookup_insert_ne; [done|].
    intros <-. by rewrite E0 in He'.
Qed.

Lemma with_exchange_ok a {A} id now v t (m : mask_m A) :
  keeps_table a m → vault_ok a v →
  let '(_, _, v', _) := with_exchange id now v t m in
  vault_ok a v' ∧ ∀ i e, va_ex v !! i = Some e → now < ex_expires e → exchange_kept i e v'.
Proof.
  intros Hm Hok. pose proof (purge_ok a now v Hok) as Hp. unfold with_exchange, vault_get.
  assert (∀ i e, va_ex v !! i = Some e → now < ex_expires e → exchange_kept i e (vault_purgeLocked now v)) as HK by (intros i e He Hn; exists e; split; [by apply vault_purge_kept|done]).
  destruct (va_ex (vault_purgeLocked now v) !! id) as [ex|] eqn:EX; [|done].
  destruct Hp as (P1 & P0 & P2 & P3). destruct (Hm (mkMaskState ex no_report t) (P3 id ex EX)) as [Hf Hg].
  destruct (m (mkMaskState ex no_report t)) as [r s]. simpl in *. split.
  - split_and!; simpl; [done..| |by apply map_Forall_insert_2]. rewrite map_size_insert_Some by (by eexists). done.
  - intros i e He Hn. destruct (HK i e He Hn) as (e' & He' & Hge). unfold exchange_kept. simpl in *. destruct (decide (i = id)) as [->|Hne].
    + exists (ms_ex s). rewrite lookup_insert_eq. split; [done|]. rewrite EX in He'. injection He' as <-. by eapply grows_trans.
    + exists e'. by rewrite lookup_insert_ne.
Qed.

(** What one call keeps. *)
Lemma step_ok a op v t :
  vault_ok a v →
  vault_ok a (ano_step a op (v, t)).1 ∧ ∀ i e, va_ex v !! i = Some e → spares i (ex_expires e) op → exchange_kept i e (ano_step a op (v, t)).1.
Proof.
  intros Hok. assert (∀ i e, va_ex v !! i = Some e → exchange_kept i e v) as HK0 by (intros i e He; by exists e).
  destruct op as [id expiry now dkey|id|now|id payload now|id path value now|id payload now]; cbn [ano_step].
  - pose proof (open_ok a id expiry now dkey v t Hok) as HO. destruct (vault_open id expiry now dkey v t) as [[r v'] t']. destruct HO as [HO1 HO2].
    split; [done|]. intros i e He [_ Hs]. by apply HO2; [|apply Hs].
  - split.
    + destruct Hok as (V1 & V0 & V2 & V3). split_and!; simpl; [done..| |by apply map_Forall_delete].
      pose proof (map_subseteq_size _ _ (delete_subseteq (va_ex v) id)). lia.
    + intros i e He [Hs _]. exists e. split; [|done]. simpl. rewrite lookup_delete_ne; [done|congruence].
  - split; [by apply purge_ok|]. intros i e He [_ Hs]. exists e. split; [|done]. by apply vault_purge_kept; [|apply Hs].
  - unfold MaskJSON. destruct (too_large a payload); [auto|]. pose proof (with_exchange_ok a id now v t _ (keeps_mask_document a payload) Hok) as HW.
    destruct (with_exchange _ _ _ _ _) as [[[r rep] v'] t']. destruct HW as [HW1 HW2]. split; [done|]. intros i e He [_ Hs]. by apply HW2; [|apply Hs].
  - unfold MaskField. destruct (too_large a value); [auto|]. pose proof (with_exchange_ok a id now v t _ (keeps_mask_field a path value) Hok) as HW.
    destruct (with_exchange _ _ _ _ _) as [[[r rep] v'] t']. destruct HW as [HW1 HW2]. split; [done|]. intros i e He [_ Hs]. by apply HW2; [|apply Hs].
  - unfold Unmask. destruct (too_large a payload); [auto|]. pose proof (with_exchange_ok a id now v t _ (keeps_unmask_payload a payload) Hok) as HW.
    destruct (with_exchange _ _ _ _ _) as [[[r rep] v'] t']. destruct HW as [HW1 HW2]. split; [done|]. intros i e He [_ Hs]. by apply HW2; [|apply Hs].
Qed.

Lemma run_ok a ops vt : vault_ok a vt.1 → vault_ok a (ano_run a ops vt).1.
Proof.
  revert vt. induction ops as [|op ops IH]; intros [v t] Hok; [done|]. apply IH. by apply step_ok.
Qed.

Lemma run_kept a ops vt id e :
  vault_ok a vt.1 → va_ex vt.1 !! id = Some e → Forall (spares id (ex_expires e)) ops → exchange_kept id e (ano_run a ops vt).1.
Proof.
  revert vt e. induction ops as [|op ops IH]; intros [v t] e Hok He Hs; [by exists e|]. apply Forall_cons in Hs as [Hop Hs].
  destruct (step_ok a op v t Hok) as [Hok' HK]. destruct (HK id e He Hop) as (e1 & He1 & Hg1).
  destruct (IH (ano_step a op (v, t)) e1 Hok' He1) as (e2 & He2 & Hg2); [by rewrite (proj1 Hg1)|].
  exists e2. split; [done|]. by eapply grows_trans.
Qed.

Lemma NewAno_ok rules c t i k mx me mp ttl tr a v0 : NewAno rules c t i k mx me mp ttl tr = Some (a, v0) → vault_ok a v0 ∧ va_ex v0 = ∅.
Proof.
  unfold NewAno. destruct rules as [r|]; [|done]. destruct (_ || _); [done|]. destruct (_ || _) eqn:E; [done|]. intros [= <- <-]. split; [|done].
  rewrite !orb_false_iff, !Z.ltb_ge in E. split_and!; simpl; try done; try tauto; lia.
Qed.

(** The tables of the anonymiser are bounded and never forget. Whatever calls are made from its construction on,
    including the ones that fail halfway, there are at most [maxExchanges] exchanges with at most [maxEntries] tokens each,
    numbered from 1 on without a gap; and whatever calls follow, an exchange that is not closed is there until its expiry, with the
    same expiry, every token still standing for the same value: the tables refuse when they are full, they never evict. *)
Theorem exchanges_bounded_and_kept rules c to inf calls mx me mp ttl tr a v0 ops v t :
  NewAno rules c to inf calls mx me mp ttl tr = Some (a, v0) → ano_run a ops (v0, []) = (v, t) →
  Z.of_nat (size (va_ex v)) ≤ va_maxExchanges v ∧
  (∀ id e, va_ex v !! id = Some e →
     Z.of_nat (size (ex_byTok e)) ≤ an_maxEntries a ∧
     (∀ tok, is_Some (ex_byTok e !! tok) → ∃ i, 1 ≤ i ≤ Z.of_nat (size (ex_byTok e)) ∧ tok = token_name i) ∧
     ∀ ops2, Forall (spares id (ex_expires e)) ops2 →
       ∃ e', va_ex (ano_run a ops2 (v, t)).1 !! id = Some e' ∧ ex_expires e' = ex_expires e ∧
             ∀ tok en, ex_byTok e !! tok = Some en → ex_byTok e' !! tok = Some en).
Proof.
  intros [Hok _]%NewAno_ok HR. pose proof (run_ok a ops (v0, []) Hok) as Hv. rewrite HR in Hv. simpl in Hv.
  split; [apply Hv|]. intros id e He. destruct (proj2 (proj2 (proj2 Hv)) id e He) as [Hex Hfit]. rewrite <-(ok_n e Hex). split_and!; [done| |].
  - intros tok [en Hen]. by eapply ok_names.
  - intros ops2 Hs. destruct (run_kept a ops2 (v, t) id e Hv He Hs) as (e' & He' & (Hx & _ & HT)). exists e'. split_and!; [done..|].
    intros tok en Hen. by eapply lookup_weaken.
Qed.

(** The masked text of a document, in terms of the table at the end of the call. *)
Lemma MaskJSON_inv a id payload now v t out rep v1 t1 :
  MaskJSON a id payload now v t = (inr out, rep, v1, t1) →
  too_large a out = false ∧ ∃ ex s', va_ex v !! id = Some ex ∧ now < ex_expires ex ∧ va_ex v1 !! id = Some (ms_ex s') ∧
    mask_document a payload (mkMaskState ex no_report t) = (inr out, s').
Proof.
  unfold MaskJSON. destruct (too_large a payload); [done|]. unfold with_exchange, vault_get.
  destruct (va_ex (vault_purgeLocked now v) !! id) as [ex|] eqn:EX; [|done].
  destruct (mask_document a payload (mkMaskState ex no_report t)) as [r s'] eqn:ED. intros [= -> <- <- <-].
  apply map_lookup_filter_Some in EX as [EX Hal]. unfold alive in Hal. apply Z.ltb_lt in Hal. split.
  - unfold mask_document in ED. apply mask_bind_inr in ED as (r & s1 & _ & HC). destruct (NextToken r.2); try done. destruct (too_large a r.1) eqn:EL; [done|]. by injection HC as <- <-.
  - exists ex, s'. split_and!; [done..| |done]. simpl. by rewrite lookup_insert_eq.
Qed.

(** What was masked is given back, from any state that the service can be in. *)
Lemma mask_restored `{!RegexpLaws} a v t id payload now out rep v1 t1 w ops2 v2 t2 now2 ex :
  vault_ok a v → an_maxEntries a < 10 ^ 9 →
  MaskJSON a id payload now v t = (inr out, rep, v1, t1) →
  json_document payload w → all_strings (separated_spans a) w → too_large a (print w) = false →
  va_ex v1 !! id = Some ex → Forall (spares id (ex_expires ex)) ops2 → ano_run a ops2 (v1, t1) = (v2, t2) → now2 < ex_expires ex →
  (Unmask a id out now2 v2 t2).1.1.1 = inr (print w) ∨ sha256_collision.
Proof.
  intros Hv Ha HM HD Hsep HL Hex Hs HR2 Hn2.
  destruct (MaskJSON_inv _ _ _ _ _ _ _ _ _ _ HM) as (HLo & ex0 & s' & He0 & Hn & He1 & HE). rewrite Hex in He1. injection He1 as ->.
  assert (vault_ok a v1) as Hv1. { pose proof (proj1 (step_ok a (OpMaskJSON id payload now) v t Hv)) as HS. cbn [ano_step] in HS. by rewrite HM in HS. }
  rewrite (mask_document_tree a payload w) in HE by done. destruct (mask_tree a [] 0 w _) as [[e|o] s1] eqn:ET; [done|].
  destruct (too_large a o); [done|]. injection HE as -> <-.
  destruct HD as (d & HRd & _). apply (proj1 reads_ok) in HRd.
  apply mask_tree_spec in ET as (_ & _ & Hlev & HP); [|done|by apply (proj2 (proj2 (proj2 Hv)) id ex0)|done..].
  destruct HP as [(v' & -> & Hv' & Hl & HB)|?]; [|by right]. left.
  destruct (run_kept a ops2 (v1, t1) id (ms_ex s1) Hv1 Hex Hs) as (e2 & He2 & (Hx2 & _ & HT2)). rewrite HR2 in He2. simpl in He2.
  unfold Unmask. rewrite HLo. unfold with_exchange, vault_get. rewrite (vault_purge_kept now2 v2 id e2) by (done || by rewrite Hx2).
  pose proof (height_levels v') as Hh. rewrite unmask_payload_tree; [|done|unfold maxJSONDepth, maxNestingDepth in *; lia].
  destruct (unmask_back a _ _ _ HB 0 ltac:(simpl; rewrite Hl; exact Hlev) [] (mkMaskState e2 no_report t2) HT2 HL) as (s2 & -> & _). done.
Qed.

(** C17: What was masked is restored. From any state of the service, take a payload that [MaskJSON] masks and of which no
    part that a pattern replaces is followed by a digit; then make any calls that neither close the exchange nor come after
    its expiry. [Unmask] of the masked text gives back the document of the payload, in compact form, every value with its
    type, or SHA-256 has a collision. *)
Theorem masked_document_restored `{!RegexpLaws} rules c to inf calls mx me mp ttl tr a v0 ops v t id payload now out rep v1 t1 w ops2 v2 t2 now2 ex :
  NewAno rules c to inf calls mx me mp ttl tr = Some (a, v0) → an_maxEntries a < 10 ^ 9 → ano_run a ops (v0, []) = (v, t) →
  MaskJSON a id payload now v t = (inr out, rep, v1, t1) →
  json_document payload w → all_strings (separated_spans a) w → too_large a (print w) = false →
  va_ex v1 !! id = Some ex → Forall (spares id (ex_expires ex)) ops2 → ano_run a ops2 (v1, t1) = (v2, t2) → now2 < ex_expires ex →
  (Unmask a id out now2 v2 t2).1.1.1 = inr (print w) ∨ sha256_collision.
Proof.
  intros [Hok _]%NewAno_ok Ha HR. apply mask_restored; [|done]. pose proof (run_ok a ops (v0, []) Hok) as Hv. by rewrite HR in Hv.
Qed.

(** ** What the masked text reveals *)

Section renaming.
(** Another choice of the values under the masked paths. *)
Context (σ : bytes → bytes) `{!Inj (=) (=) σ}.

(** Only whole values are renamed, not the parts of the strings that are kept. *)
Definition rename (e : vault_entry) : vault_entry := if bool_decide (en_kind e = kindLeaf) then mkEntry kindLeaf (σ (en_orig e)) else e.

#[local] Instance rename_inj : Inj (=) (=) rename.
Proof.
  intros [k1 o1] [k2 o2]. unfold rename. simpl. case_bool_decide; case_bool_decide; intros E; by simplify_eq/=.
Qed.

(** The same tokens, for renamed values. *)
Definition alike (e1 e2 : exchange) : Prop :=
  ex_ok e1 ∧ ex_ok e2 ∧ ex_n e1 = ex_n e2 ∧ ∀ tok, ex_byTok e2 !! tok = rename <$> ex_byTok e1 !! tok.

Lemma intern_alike k1 o1 k2 o2 m e1 e2 :
  alike e1 e2 → mkEntry k2 o2 = rename (mkEntry k1 o1) →
  ((intern k1 o1 m e1).1 = (intern k2 o2 m e2).1 ∧ alike (intern k1 o1 m e1).2 (intern k2 o2 m e2).2) ∨ sha256_collision.
Proof.
  intros (O1 & O2 & En & ET) Ee.
  destruct (intern k1 o1 m e1) as [r1 e1'] eqn:I1, (intern k2 o2 m e2) as [r2 e2'] eqn:I2.
  pose proof (intern_spec _ _ _ _ _ _ O1 I1) as (O1' & _). pose proof (intern_spec _ _ _ _ _ _ O2 I2) as (O2' & _). simpl.
  unfold intern in I1, I2. rewrite Ee in I2.
  destruct (ex_byHash e1 !! _) as [tok1|] eqn:H1, (ex_byHash e2 !! _) as [tok2|] eqn:H2.
  - injection I1 as <- <-. injection I2 as <- <-. destruct (ok_hash e1 O1 _ _ H1) as (en & Hen & [<-|?]%entry_key_inj); [|by right]. left.
    assert (ex_byTok e2 !! tok1 = Some (rename (mkEntry k1 o1))) as HT by by rewrite ET, Hen.
    apply (ok_tok e2 O2) in HT. rewrite HT in H2. injection H2 as <-. done.
  - injection I1 as <- <-. destruct (ok_hash e1 O1 _ _ H1) as (en & Hen & [<-|?]%entry_key_inj); [|by right]. exfalso.
    assert (ex_byTok e2 !! tok1 = Some (rename (mkEntry k1 o1))) as HT by by rewrite ET, Hen. apply (ok_tok e2 O2) in HT. congruence.
  - injection I2 as <- <-. destruct (ok_hash e2 O2 _ _ H2) as (en & Hen & [<-|?]%entry_key_inj); [|by right]. exfalso.
    rewrite ET in Hen. apply fmap_Some in Hen as (x & Hx & <-%(inj rename)). apply (ok_tok e1 O1) in Hx. congruence.
  - left. rewrite <-(ok_n e1 O1) in I1. rewrite <-(ok_n e2 O2), <-En in I2. destruct (m <=? ex_n e1); injection I1 as <- <-; injection I2 as <- <-; [done|].
    split; [done|]. split_and!; [done..|]. intros tok. simpl. destruct (decide (tok = token_name (ex_n e1 + 1))) as [->|Hne].
    + by rewrite !lookup_insert_eq.
    + by rewrite !lookup_insert_ne.
Qed.

(** Two computations that an observer of their result, their report and their alarms cannot tell apart. *)
Definition states_alike (s1 s2 : mask_state) : Prop := alike (ms_ex s1) (ms_ex s2) ∧ ms_rep s1 = ms_rep s2 ∧ ms_trace s1 = ms_trace s2.
Definition same_result {A} (m1 m2 : mask_m A) : Prop :=
  ∀ s1 s2, states_alike s1 s2 → ((m1 s1).1 = (m2 s2).1 ∧ states_alike (m1 s1).2 (m2 s2).2) ∨ sha256_collision.

Lemma same_bind {A B} (m1 m2 : mask_m A) (f1 f2 : A → mask_m B) : same_result m1 m2 → (∀ x, same_result (f1 x) (f2 x)) → same_result (m1 ≫= f1) (m2 ≫= f2).
Proof.
  intros Hm Hf s1 s2 Hs. rewrite !mask_bind_eq. destruct (Hm s1 s2 Hs) as [[E Hs']|?]; [|by right].
  destruct (m1 s1) as [[e1|x1] s1'], (m2 s2) as [[e2|x2] s2']; simplify_eq/=; [by left|]. by apply Hf.
Qed.
Lemma same_mret {A} (x : A) : same_result (mret x) (mret x).
Proof. intros s1 s2 Hs. by left. Qed.
Lemma same_fail {A} e : same_result (@fail_m A e) (fail_m e).
Proof. intros s1 s2 Hs. by left. Qed.
Lemma same_count r : same_result (count_m r) (count_m r).
Proof. intros s1 s2 (HA & Hr & Ht). left. split; [done|]. by split_and!; simpl; rewrite ?Hr. Qed.
Lemma same_get_rep : same_result get_rep get_rep.
Proof. intros s1 s2 Hs. left. destruct Hs as (HA & Hr & Ht). simpl. by rewrite Hr. Qed.
Lemma same_classify a path value : same_result (classify a path value) (classify a path value).
Proof.
  intros s1 s2 (HA & Hr & Ht). left. unfold classify. rewrite Hr. destruct (an_classifier a) as [f|]; [destruct (f _ _ _)|]; simpl; (split; [done|]); (split_and!; simpl; congruence || done).
Qed.

Lemma same_intern a k1 o1 k2 o2 : mkEntry k2 o2 = rename (mkEntry k1 o1) → same_result (intern_m a k1 o1) (intern_m a k2 o2).
Proof.
  intros Ee s1 s2 (HA & Hr & Ht). destruct (intern_alike k1 o1 k2 o2 (an_maxEntries a) _ _ HA Ee) as [[E HI]|?]; [left|by right]. unfold intern_m.
  destruct (intern k1 o1 _ _) as [[r1|r1] x1], (intern k2 o2 _ _) as [[r2|r2] x2]; simplify_eq/=; (split; [done|]); (split_and!; simpl; congruence || done).
Qed.
Lemma same_span a o : same_result (intern_m a kindSpan o) (intern_m a kindSpan o).
Proof. by apply same_intern. Qed.

Ltac same_steps :=
  repeat match goal with
  | |- same_result (_ ≫= _) (_ ≫= _) => apply same_bind; [|intros ?]
  | |- same_result (mret _) (mret _) => apply same_mret
  | |- same_result (fail_m _) (fail_m _) => apply same_fail
  | |- same_result (count_m _) (count_m _) => apply same_count
  | |- same_result get_rep get_rep => apply same_get_rep
  | |- same_result (classify _ _ _) (classify _ _ _) => apply same_classify
  | |- same_result (intern_m _ kindSpan _) (intern_m _ kindSpan _) => apply same_span
  | |- same_result (if ?b then _ else _) (if ?b then _ else _) => destruct b
  | |- same_result (match ?x with _ => _ end) (match ?x with _ => _ end) => destruct x
  end.

Lemma same_token a raw : same_result (writeLeafToken a raw) (writeLeafToken a (σ raw)).
Proof. unfold writeLeafToken. same_steps. by apply same_intern. Qed.

Lemma same_token_fixed a raw : σ raw = raw → same_result (writeLeafToken a raw) (writeLeafToken a raw).
Proof. intros E. rewrite <-E at 2. apply same_token. Qed.

Lemma same_splice a text last spans : same_result (splice a text last spans) (splice a text last spans).
Proof. revert last. induction spans as [|sp spans IH]; intros last; cbn [splice]; same_steps; auto. Qed.

Lemma same_emit a raw text b : σ raw = raw → same_result (emitKept a raw text b) (emitKept a raw text b).
Proof. intros E. unfold emitKept. destruct b; same_steps; auto using same_token_fixed, same_splice. Qed.

(** A leaf that both documents have. *)
Lemma same_leaf a path raw text b : σ raw = raw → same_result (maskLeaf a path raw text b) (maskLeaf a path raw text b).
Proof. intros E. unfold maskLeaf. same_steps; auto using same_token_fixed, same_emit. Qed.

(** A leaf under a masked path, which may differ. *)
Lemma same_secret a path raw text1 text2 b1 b2 :
  rules_decide (an_rules a) path = verdictMask → b1 && has_token text1 = false → b2 && has_token text2 = false →
  same_result (maskLeaf a path raw text1 b1) (maskLeaf a path (σ raw) text2 b2).
Proof. intros Hm H1 H2. unfold maskLeaf. rewrite H1, H2, Hm. same_steps. apply same_token. Qed.

(** A string that holds a token is refused wherever it is. *)
Definition no_tokens (v : jval) : Prop := match v with VStr s => has_token s = false | VNum _ => True | _ => False end.

(** Two documents that differ only in the numbers and texts under masked paths, of which the second has the renamed ones. Booleans, null
    and empty containers are under [differ_same] wherever they are: [maskValue] writes them as they are. *)
Inductive differ (a : Ano) : list string → jval → jval → Prop :=
  | differ_same path v : levels v = 0%nat → σ (print v) = print v → differ a path v v
  | differ_secret path v1 v2 :
      rules_decide (an_rules a) path = verdictMask → no_tokens v1 → no_tokens v2 → print v2 = σ (print v1) → differ a path v1 v2
  | differ_arr path l1 l2 : differ_list a path 0 l1 l2 → differ a path (VArr l1) (VArr l2)
  | differ_obj path ms1 ms2 : differ_pairs a path ms1 ms2 → differ a path (VObj ms1) (VObj ms2)
with differ_list (a : Ano) : list string → Z → list jval → list jval → Prop :=
  | differ_nil path i : differ_list a path i [] []
  | differ_cons path i v1 v2 l1 l2 :
      differ a (path ++ [Itoa i]) v1 v2 → differ_list a path (i + 1) l1 l2 → differ_list a path i (v1 :: l1) (v2 :: l2)
with differ_pairs (a : Ano) : list string → list (bytes * jval) → list (bytes * jval) → Prop :=
  | differ_pnil path : differ_pairs a path [] []
  | differ_pcons path k v1 v2 ms1 ms2 :
      differ a (path ++ [bs k]) v1 v2 → differ_pairs a path ms1 ms2 → differ_pairs a path ((k, v1) :: ms1) ((k, v2) :: ms2).

Scheme differ_rec := Minimality for differ Sort Prop
  with differ_list_rec := Minimality for differ_list Sort Prop
  with differ_pairs_rec := Minimality for differ_pairs Sort Prop.
Combined Scheme differ_mutind from differ_rec, differ_list_rec, differ_pairs_rec.

Lemma same_tree a :
  (∀ path v1 v2, differ a path v1 v2 → ∀ depth, same_result (mask_tree a path depth v1) (mask_tree a path depth v2)) ∧
  (∀ path i l1 l2, differ_list a path i l1 l2 → ∀ depth,
     same_result (over_list (λ i v, mask_tree a (path ++ [Itoa i]) (S depth) v) l1 i) (over_list (λ i v, mask_tree a (path ++ [Itoa i]) (S depth) v) l2 i)) ∧
  (∀ path ms1 ms2, differ_pairs a path ms1 ms2 → ∀ depth first,
     same_result (over_members (λ k v, mask_tree a (path ++ [bs k]) (S depth) v) ms1 first) (over_members (λ k v, mask_tree a (path ++ [bs k]) (S depth) v) ms2 first)).
Proof.
  apply differ_mutind.
  - intros path v Hl E depth. destruct v as [|b|n|s|[|v l]|[|m ms]]; simpl in Hl; try lia; cbn [mask_tree]; (destruct (_ <? _)%nat; [apply same_fail|]); same_steps; auto using same_leaf; apply same_mret.
  - intros path v1 v2 Hm H1 H2 E depth. destruct v1 as [| |n1|s1| |], v2 as [| |n2|s2| |]; try done; cbn [mask_tree print] in *; rewrite ?E; (destruct (_ <? _)%nat; [apply same_fail|]).
    all: by apply same_secret.
  - intros path l1 l2 _ IH depth. cbn [mask_tree]. destruct (_ <? _)%nat; [apply same_fail|]. same_steps. apply IH.
  - intros path ms1 ms2 _ IH depth. cbn [mask_tree]. destruct (_ <? _)%nat; [apply same_fail|]. same_steps. apply IH.
  - intros. apply same_mret.
  - intros path i v1 v2 l1 l2 _ IHv _ IHl depth. cbn [over_list]. apply same_bind; [apply IHv|intros x]. apply same_bind; [apply IHl|intros y]. apply same_mret.
  - intros. apply same_mret.
  - intros path k v1 v2 ms1 ms2 _ IHv _ IHl depth first. cbn [over_members fst snd]. apply same_bind; [apply IHv|intros x]. apply same_bind; [apply IHl|intros y]. apply same_mret.
Qed.
End renaming.

(** C16: The masked text does not tell the numbers and the texts under the masked paths. Take two payloads within the size limit whose
    documents differ only there, in their numbers and texts (booleans and null are written in clear also under a masked path, so they are the
    same in both): one has the values of the other renamed, by any injective renaming that leaves the other values of the documents and the
    ones already in the exchange alone. From any state of the service [MaskJSON] gives the same text, or the same refusal, with the same report and the same
    alarms, for both, whatever the classifier answers: what leaves says only which of the masked values are equal. Or SHA-256 has a
    collision. *)
Theorem mask_hides_values (σ : bytes → bytes) `{!Inj (=) (=) σ} rules c to inf calls mx me mp ttl tr a v0 ops v t id now p1 p2 w1 w2 ex :
  NewAno rules c to inf calls mx me mp ttl tr = Some (a, v0) → ano_run a ops (v0, []) = (v, t) →
  va_ex v !! id = Some ex → now < ex_expires ex → (∀ tok en, ex_byTok ex !! tok = Some en → rename σ en = en) →
  json_document p1 w1 → json_document p2 w2 → differ σ a [] w1 w2 → too_large a p1 = false → too_large a p2 = false →
  let '(r1, rep1, _, t1) := MaskJSON a id p1 now v t in
  let '(r2, rep2, _, t2) := MaskJSON a id p2 now v t in
  (r1 = r2 ∧ rep1 = rep2 ∧ t1 = t2) ∨ sha256_collision.
Proof.
  intros [Hok _]%NewAno_ok HR Hex Hn Hfix HD1 HD2 HW L1 L2. pose proof (run_ok a ops (v0, []) Hok) as Hv. rewrite HR in Hv. simpl in Hv.
  destruct (proj2 (proj2 (proj2 Hv)) id ex Hex) as [Hexok _].
  unfold MaskJSON. rewrite L1, L2. unfold with_exchange, vault_get. rewrite (vault_purge_kept now v id ex) by done.
  set (s0 := mkMaskState ex no_report t). assert (states_alike σ s0 s0) as HA.
  { split_and!; [|done..]. split_and!; [done..|]. intros tok. destruct (ex_byTok (ms_ex s0) !! tok) as [en|] eqn:E; [|done]. simpl. by rewrite (Hfix _ _ E). }
  rewrite (mask_document_tree a p1 w1), (mask_document_tree a p2 w2) by done.
  destruct (proj1 (same_tree σ a) [] w1 w2 HW 0%nat s0 s0 HA) as [[E (_ & Hr & Ht)]|?].
  - destruct (mask_tree a [] 0 w1 s0) as [[e1|o1] s1], (mask_tree a [] 0 w2 s0) as [[e2|o2] s2]; simplify_eq/=; [by left|].
    destruct (too_large a o2); by left.
  - repeat case_match; by right.
Qed.
End service.

(** ** Numbers with an exponent *)

Abbreviation all_digits := (Forall (λ b, digit b = true)).

Lemma digits_value_app a b : digits_value (a ++ b) = digits_value a * 10 ^ Z.of_nat (length b) + digits_value b.
Proof.
  unfold digits_value. rewrite foldl_app. generalize (foldl (λ n b, 10 * n + digit_value b) 0 a) as z. intros z.
  induction b as [|c b IH] using rev_ind; [simpl; lia|]. rewrite !foldl_app, length_app. simpl. rewrite IH, Nat2Z.inj_add, Z.pow_add_r by lia.
  change (10 ^ Z.of_nat 1) with 10. lia.
Qed.

Lemma digits_value_zeros k : digits_value (replicate k zero_digit) = 0.
Proof. induction k as [|k IH]; [done|]. rewrite replicate_S_end, digits_value_app, IH. done. Qed.

Lemma drop_zeros_split s : ∃ k, s = replicate k zero_digit ++ drop_zeros s ∧ head (drop_zeros s) ≠ Some zero_digit.
Proof.
  induction s as [|b s (k & IH & Hh)]; [by exists 0%nat|]. simpl. case_bool_decide as Hb.
  - exists (S k). subst b. simpl. by rewrite <-IH.
  - exists 0%nat. split; [done|]. simpl. congruence.
Qed.

Lemma digits_value_drop s : digits_value (drop_zeros s) = digits_value s.
Proof. destruct (drop_zeros_split s) as (k & E & _). rewrite E at 2. by rewrite digits_value_app, digits_value_zeros. Qed.

Lemma digit_value_range b : digit b = true → 0 ≤ digit_value b ≤ 9 ∧ (b ≠ zero_digit → 1 ≤ digit_value b).
Proof.
  unfold digit, between, digit_value. intros [?%Z.leb_le ?%Z.leb_le]%andb_true_iff. split; [lia|]. intros Hb.
  assert (b2z b ≠ 48); [|lia]. intros E. apply Hb. rewrite <-(z2b_b2z b), E. done.
Qed.

Lemma digits_value_one b : digits_value [b] = digit_value b.
Proof. unfold digits_value. simpl. lia. Qed.

Lemma digits_value_range s : all_digits s → 0 ≤ digits_value s < 10 ^ Z.of_nat (length s).
Proof.
  induction s as [|b s IH] using rev_ind; [done|]. intros [HF [Hb _]%Forall_cons]%Forall_app. rewrite digits_value_app, length_app, Nat2Z.inj_add, Z.pow_add_r by lia.
  specialize (IH HF). destruct (digit_value_range b Hb) as [? _]. rewrite digits_value_one. simpl length. change (10 ^ Z.of_nat 1) with 10. lia.
Qed.

(** Without a zero in front, at most two digits is at most 99. *)
Lemma digits_value_two s : all_digits s → head s ≠ Some zero_digit → ((length s ≤ 2)%nat ↔ digits_value s ≤ 99).
Proof.
  intros HF Hh. split.
  - intros HL. destruct (digits_value_range s HF) as [_ HU]. assert (10 ^ Z.of_nat (length s) ≤ 10 ^ 2) by (apply Z.pow_le_mono_r; lia). lia.
  - intros HV. destruct s as [|b s]; [simpl; lia|]. apply Forall_cons in HF as [Hb HF]. destruct (digit_value_range b Hb) as [_ H1]. simpl in Hh. specialize (H1 ltac:(congruence)).
    change (b :: s) with ([b] ++ s) in HV. rewrite digits_value_app in HV. destruct (digits_value_range s HF) as [? _].
    destruct (Nat.le_gt_cases (length s) 1) as [?|HG]; [simpl; lia|]. exfalso.
    assert (10 ^ 2 ≤ 10 ^ Z.of_nat (length s)) by (apply Z.pow_le_mono_r; lia). rewrite digits_value_one in HV. nia.
Qed.

Lemma all_digits_drop s : all_digits s → all_digits (drop_zeros s).
Proof. intros HF. destruct (drop_zeros_split s) as (k & E & _). rewrite E in HF. by apply Forall_app in HF as [_ ?]. Qed.

(** The text of a number with digits [i] before the point and [f] after it. *)
Definition decimal (i f : bytes) : bytes := i ++ match f with [] => [] | _ => dot :: f end.

Lemma digit_not_dot b : digit b = true → b ≠ dot.
Proof. intros Hb. by destruct (digit_not_mark _ Hb) as (_ & _ & ? & _). Qed.

Lemma existsb_dot_app i f : existsb (λ b, bool_decide (b = dot)) (i ++ dot :: f) = true.
Proof. rewrite existsb_app. simpl. by rewrite orb_true_r. Qed.
Lemma existsb_dot_digits s : all_digits s → existsb (λ b, bool_decide (b = dot)) s = false.
Proof. induction 1 as [|b s Hb _ IH]; [done|]. simpl. rewrite IH, bool_decide_false; [done|by apply digit_not_dot]. Qed.

(** The digits with a point keep their value. *)
Lemma place_point_spec digs point :
  all_digits digs → digs ≠ [] →
  (Z.of_nat (length digs) ≤ point ∧ ∃ k, Z.of_nat k = point - Z.of_nat (length digs) ∧ place_point digs point = digs ++ replicate k zero_digit) ∨
  (∃ i f, place_point digs point = i ++ dot :: f ∧ all_digits i ∧ all_digits f ∧ f ≠ [] ∧ digits_value (i ++ f) = digits_value digs ∧
     Z.of_nat (length f) = Z.of_nat (length digs) - point).
Proof.
  intros HF Hne. unfold place_point. destruct (Z.leb_spec (Z.of_nat (length digs)) point).
  { left. split; [done|]. eexists. split; [|reflexivity]. lia. }
  right. destruct (Z.leb_spec point 0).
  - exists [zero_digit], (replicate (Z.to_nat (- point)) zero_digit ++ digs). split_and!; [done|by repeat constructor| |by intros [_ ?]%app_nil| |rewrite length_app, length_replicate; lia].
    + apply Forall_app. split; [by apply Forall_replicate|done].
    + rewrite !digits_value_app, digits_value_zeros. done.
  - exists (take (Z.to_nat point) digs), (drop (Z.to_nat point) digs). split_and!; [done|by apply Forall_take|by apply Forall_drop| |by rewrite take_drop|rewrite length_drop; lia].
    intros E. apply (f_equal length) in E. rewrite length_drop in E. simpl in E. lia.
Qed.

Lemma trim_right_spec i f : all_digits f →
  ∃ f' k, f = f' ++ replicate k zero_digit ∧ trim_dot (trim_zeros_right (i ++ dot :: f)) = decimal i f'.
Proof.
  intros HF. unfold trim_zeros_right. destruct (drop_zeros_split (reverse f)) as (k & E & Hh). set (g := drop_zeros (reverse f)) in *.
  assert (f = reverse g ++ replicate k zero_digit) as Ef. { rewrite <-(reverse_involutive f), E, reverse_app. by rewrite reverse_replicate. }
  exists (reverse g), k. split; [done|].
  assert (drop_zeros (reverse (i ++ dot :: f)) = g ++ dot :: reverse i) as ->.
  { rewrite reverse_app, reverse_cons, <-app_assoc. rewrite E. rewrite <-app_assoc. clear -Hh. induction k as [|k IH]; [|done].
    simpl. destruct g as [|c g]; [done|]. simpl in *. rewrite bool_decide_false; [done|congruence]. }
  rewrite reverse_app, reverse_cons, reverse_involutive, <-app_assoc. simpl. unfold decimal, trim_dot. destruct g as [|c g].
  - rewrite reverse_nil, last_snoc, bool_decide_true by done. by rewrite removelast_last, app_nil_r.
  - rewrite reverse_cons. assert (digit c = true) as Hc. { rewrite Ef, reverse_cons in HF. apply Forall_app in HF as [HF _]. by apply Forall_app in HF as [_ [? _]%Forall_cons]. }
    change (dot :: reverse g ++ [c]) with ((dot :: reverse g) ++ [c]). rewrite app_assoc, last_snoc, bool_decide_false by by apply digit_not_dot.
    rewrite <-app_assoc. f_equal. simpl. by destruct (reverse g).
Qed.

Lemma drop_zeros_app s r : head r ≠ Some zero_digit → drop_zeros (s ++ r) = drop_zeros s ++ r.
Proof.
  intros Hr. induction s as [|b s IH]; simpl; [|by case_bool_decide].
  destruct r as [|c r]; [done|]. simpl in *. rewrite bool_decide_false; [done|congruence].
Qed.

Definition lead_zero (out : bytes) : bytes :=
  match out with [] => zero_digit :: out | b :: _ => if bool_decide (b = dot) then zero_digit :: out else out end.

Lemma lead_zero_spec i f : all_digits i → all_digits f →
  ∃ i', lead_zero (drop_zeros (decimal i f)) = decimal i' f ∧ all_digits i' ∧ i' ≠ [] ∧ digits_value (i' ++ f) = digits_value (i ++ f).
Proof.
  intros Hi Hf. unfold decimal. rewrite drop_zeros_app by by destruct f.
  pose proof (digits_value_drop i) as HV. pose proof (all_digits_drop i Hi) as HD. destruct (drop_zeros i) as [|c j].
  - exists [zero_digit]. split_and!; [by destruct f|by repeat constructor|done|]. rewrite !digits_value_app, <-HV. done.
  - exists (c :: j). split_and!; [|done..|by rewrite !digits_value_app, HV]. simpl. apply Forall_cons in HD as [Hc _]. by rewrite bool_decide_false by by apply digit_not_dot.
Qed.

(** The groups of a number that has an exponent. *)
Lemma exponent_groups_spec sg i fd m es ds :
  (sg = [] ∨ sg = [minus]) → digits i → (fd = [] ∨ digits fd) → exp_mark m = true → (es = [] ∨ es = [minus] ∨ es = [plus]) → digits ds →
  exponent_groups (sg ++ decimal i fd ++ m :: es ++ ds) =
  let e := drop_zeros ds in
  if (length e <=? 2)%nat then Some (sg, i, fd, bool_decide (es = [minus]), if bool_decide (e = []) then [zero_digit] else e) else None.
Proof.
  intros Hsg Hi Hfd Hm Hes Hds. unfold exponent_groups.
  destruct (digits_cons _ Hi) as (b & u & Ei & Hb). destruct (digit_not_mark _ Hb) as (Hbm & _).
  assert (read_sign (sg ++ decimal i fd ++ m :: es ++ ds) = (sg, decimal i fd ++ m :: es ++ ds)) as ->.
  { destruct Hsg as [->| ->]; [|done]. rewrite Ei. simpl. by rewrite bool_decide_false. }
  assert (digit m = false) as Hmd. { destruct (digit m) eqn:E; [|done]. destruct (digit_not_mark _ E) as (_ & _ & _ & ?). congruence. }
  assert (m ≠ dot) as Hmdot by by intros ->.
  assert (read_digits1 (decimal i fd ++ m :: es ++ ds) = Some (i, match fd with [] => [] | _ => dot :: fd end ++ m :: es ++ ds)) as ->.
  { unfold decimal. rewrite <-app_assoc. apply read_digits1_read; [done|]. by destruct fd. }
  cbn [mbind option_bind].
  assert (match match fd with [] => [] | _ => dot :: fd end ++ m :: es ++ ds with
          | b :: s' => if bool_decide (b = dot) then read_digits1 s' else Some ([], match fd with [] => [] | _ => dot :: fd end ++ m :: es ++ ds)
          | [] => Some ([], match fd with [] => [] | _ => dot :: fd end ++ m :: es ++ ds)
          end = Some (fd, m :: es ++ ds)) as ->.
  { destruct Hfd as [->|Hfd]; [simpl; by rewrite bool_decide_false|]. destruct fd as [|c w]; [by destruct Hfd|]. cbn [app].
    rewrite bool_decide_true by done. by apply (read_digits1_read (c :: w)). }
  cbn [mbind option_bind]. rewrite Hm. cbn [negb].
  destruct (digits_cons _ Hds) as (c & w & Ed & Hc). destruct (digit_not_mark _ Hc) as (Hc1 & Hc2 & _).
  assert (match es ++ ds with
          | c :: s' => if bool_decide (c = minus) then (true, s') else if bool_decide (c = plus) then (false, s') else (false, es ++ ds)
          | [] => (false, es ++ ds)
          end = (bool_decide (es = [minus]), ds)) as ->.
  { destruct Hes as [->|[->| ->]]; [|done..]. rewrite Ed. simpl. by rewrite !bool_decide_false. }
  pose proof (read_digits1_read ds [] Hds I) as HR. rewrite app_nil_r in HR. rewrite HR. cbn [mbind option_bind].
  rewrite bool_decide_false by auto. cbn [fst snd]. destruct (drop_zeros ds) as [|x e]; [done|]. simpl. by destruct e as [|y [|z e]].
Qed.

(** A number is judged by its value. For every JSON number with an exponent, [expandExponent] gives a plain decimal form exactly when
    the exponent is at most 99, however it is written, and that form is a number of the same sign with the same value: with [n] the
    digits before and after the point, [E] the exponent, the digits of the form are [n * 10^E] scaled by its places. *)
Theorem expanded_number_same_value sg i fd m es ds :
  (sg = [] ∨ sg = [minus]) → digits i → (fd = [] ∨ digits fd) → exp_mark m = true → (es = [] ∨ es = [minus] ∨ es = [plus]) → digits ds →
  let text := sg ++ decimal i fd ++ m :: es ++ ds in
  (expandExponent text ≠ None ↔ digits_value ds ≤ 99) ∧
  ∀ plain, expandExponent text = Some plain →
    ∃ i' f', plain = sg ++ decimal i' f' ∧ all_digits (i' ++ f') ∧ i' ≠ [] ∧
      digits_value (i' ++ f') * 10 ^ Z.of_nat (length fd) * (if bool_decide (es = [minus]) then 10 ^ digits_value ds else 1) =
      digits_value (i ++ fd) * 10 ^ Z.of_nat (length f') * (if bool_decide (es = [minus]) then 1 else 10 ^ digits_value ds).
Proof.
  intros Hsg Hi Hfd Hm Hes Hds text. unfold expandExponent, text. rewrite exponent_groups_spec by done. cbn zeta.
  pose proof (all_digits_drop ds (proj1 Hds)) as HD. pose proof (digits_value_drop ds) as HV. destruct (drop_zeros_split ds) as (k0 & _ & Hh).
  pose proof (digits_value_two (drop_zeros ds) HD Hh) as H2. rewrite HV in H2.
  destruct (Nat.leb_spec (length (drop_zeros ds)) 2) as [HL|HL]; [|split; [split; [done|intros; lia]|done]].
  split; [split; [intros _; by apply H2|done]|]. intros plain Hp. injection Hp as <-.
  set (e := if bool_decide (drop_zeros ds = []) then [zero_digit] else drop_zeros ds).
  assert (digits_value e = digits_value ds) as ->.
  { unfold e. case_bool_decide as E; [rewrite <-HV, E; done|done]. }
  destruct (digits_value_range ds (proj1 Hds)) as [HE _].
  assert (all_digits (i ++ fd)) as HF. { apply Forall_app. split; [apply Hi|]. destruct Hfd as [->|[? _]]; [constructor|done]. }
  assert (i ++ fd ≠ []) as Hne by (destruct (digits_cons _ Hi) as (? & ? & -> & _); done).
  set (exp := if bool_decide (es = [minus]) then - digits_value ds else digits_value ds).
  set (point := Z.of_nat (length i) + exp).
  assert (Z.of_nat (length (i ++ fd)) = Z.of_nat (length i) + Z.of_nat (length fd)) as HLen by (rewrite length_app; lia).
  fold (lead_zero (drop_zeros (if existsb (λ b, bool_decide (b = dot)) (place_point (i ++ fd) point) then trim_dot (trim_zeros_right (place_point (i ++ fd) point)) else place_point (i ++ fd) point))).
  assert (∃ i0 f0, (if existsb (λ b, bool_decide (b = dot)) (place_point (i ++ fd) point) then trim_dot (trim_zeros_right (place_point (i ++ fd) point)) else place_point (i ++ fd) point) = decimal i0 f0 ∧
    all_digits i0 ∧ all_digits f0 ∧
    digits_value (i0 ++ f0) * 10 ^ Z.of_nat (length fd) * (if bool_decide (es = [minus]) then 10 ^ digits_value ds else 1) =
    digits_value (i ++ fd) * 10 ^ Z.of_nat (length f0) * (if bool_decide (es = [minus]) then 1 else 10 ^ digits_value ds)) as (i0 & f0 & -> & H0i & H0f & HVal).
  { destruct (place_point_spec (i ++ fd) point HF Hne) as [(Hge & k & Hk & ->)|(i0 & f & -> & Hi0 & Hf & _ & HV0 & HLf)].
    - assert (all_digits ((i ++ fd) ++ replicate k zero_digit)) as HA by (apply Forall_app; split; [done|by apply Forall_replicate]).
      rewrite existsb_dot_digits by done. exists ((i ++ fd) ++ replicate k zero_digit), []. split_and!; [by unfold decimal; rewrite app_nil_r|done|constructor|].
      rewrite app_nil_r, digits_value_app, digits_value_zeros, length_replicate, Z.add_0_r, Z.mul_1_r. unfold exp in point. unfold point in *. clearbody e.
      destruct (bool_decide (es = [minus])).
      + rewrite <-!Z.mul_assoc, <-!Z.pow_add_r by lia. f_equal. replace (_ + _) with 0 by lia. done.
      + rewrite Z.mul_1_r, <-Z.mul_assoc, <-Z.pow_add_r by lia. do 2 f_equal. lia.
    - rewrite existsb_dot_app. destruct (trim_right_spec i0 f Hf) as (f0 & k & Ef & ->). exists i0, f0. rewrite Ef in Hf, HV0, HLf.
      apply Forall_app in Hf as [Hf0 _]. split_and!; [done..|].
      rewrite app_assoc, digits_value_app, digits_value_zeros, length_replicate, Z.add_0_r in HV0. rewrite <-HV0. rewrite length_app, length_replicate in HLf.
      unfold point, exp in HLf. clearbody e. destruct (bool_decide (es = [minus])).
      + rewrite Z.mul_1_r, <-!Z.mul_assoc, <-!Z.pow_add_r by lia. do 2 f_equal. lia.
      + rewrite Z.mul_1_r, <-!Z.mul_assoc, <-!Z.pow_add_r by lia. do 2 f_equal. lia. }
  destruct (lead_zero_spec i0 f0 H0i H0f) as (i' & -> & Hi' & Hne' & HV'). exists i', f0. split_and!; [done| |done|by rewrite HV'].
  apply Forall_app. auto.
Qed.
