(* ===== verification/GoUrl.v ===== *)
(** What the sources use of net/url and of the reverse proxy of net/http/httputil, on bytes: percent-encoding,
    [EscapedPath] and [RequestURI] of a URL, [ParseQuery] and [Values.Encode], and the rewriting of a URL by
    [NewSingleHostReverseProxy]. The scheme and the host of a URL do not matter here, but for an opaque one. *)
From S2P Require Import Prelude.
From S2P Require Import Json.
From S2P Require Import GoStrings.

Local Open Scope Z_scope.

Definition percent : byte := Byte.x25.
Definition slash : byte := Byte.x2f.
Definition question : byte := Byte.x3f.
Definition ampersand : byte := Byte.x26.
Definition equals : byte := Byte.x3d.
Definition semicolon : byte := Byte.x3b.
Definition star : byte := Byte.x2a.
Definition blank : byte := Byte.x20.
Definition plus_sign : byte := Byte.x2b.

(** ** Percent-encoding *)

Inductive url_mode := encodePath | encodeQueryComponent.
#[global] Instance url_mode_eq_dec : EqDecision url_mode.
Proof. solve_decision. Defined.

Definition alphanumeric (c : byte) : bool := between 97 122 c || between 65 90 c || between 48 57 c.

(** [shouldEscape]. *)
Definition shouldEscape (mode : url_mode) (c : byte) : bool :=
  if alphanumeric c then false
  else if bool_decide (c ∈ sb "-_.~") then false
  else if bool_decide (c ∈ sb "$&+,/:;=?@") then match mode with encodePath => bool_decide (c = question) | encodeQueryComponent => true end
  else true.

Definition upper_hex (n : Z) : byte := z2b (if n <? 10 then 48 + n else 55 + n).
Definition unhex (c : byte) : option Z :=
  let n := b2z c in
  if (48 <=? n) && (n <=? 57) then Some (n - 48)
  else if (97 <=? n) && (n <=? 102) then Some (n - 87)
  else if (65 <=? n) && (n <=? 70) then Some (n - 55)
  else None.

Definition escape_byte (mode : url_mode) (c : byte) : bytes :=
  if bool_decide (c = blank ∧ mode = encodeQueryComponent) then [plus_sign]
  else if shouldEscape mode c then [percent; upper_hex (b2z c / 16); upper_hex (b2z c mod 16)]
  else [c].
Definition url_escape (mode : url_mode) (s : bytes) : bytes := s ≫= escape_byte mode.

Fixpoint url_unescape (mode : url_mode) (s : bytes) : option bytes :=
  match s with
  | [] => Some []
  | c :: s1 =>
      if bool_decide (c = percent) then
        match s1 with
        | a :: b :: s2 => x ← unhex a; y ← unhex b; r ← url_unescape mode s2; Some (z2b (16 * x + y) :: r)
        | _ => None
        end
      else
        r ← url_unescape mode s1;
        Some ((if bool_decide (c = plus_sign ∧ mode = encodeQueryComponent) then blank else c) :: r)
  end.

(** [validEncoded], for a path. *)
Definition valid_char (c : byte) : bool :=
  bool_decide (c ∈ sb "!$&'()*+,;=:@[]%") || negb (shouldEscape encodePath c).
Definition validEncoded (s : bytes) : bool := forallb valid_char s.

(** ** URLs *)

Record URL := mkURL {
  u_Scheme : bytes; u_Opaque : bytes; u_Path : bytes; u_RawPath : bytes; u_ForceQuery : bool; u_RawQuery : bytes }.

Definition EscapedPath (u : URL) : bytes :=
  if bool_decide (u_RawPath u ≠ []) && validEncoded (u_RawPath u) && bool_decide (url_unescape encodePath (u_RawPath u) = Some (u_Path u))
  then u_RawPath u
  else if bool_decide (u_Path u = [star]) then [star] else url_escape encodePath (u_Path u).

Definition has_prefix (p s : bytes) : bool := bool_decide (p `prefix_of` s).
Definition has_suffix (p s : bytes) : bool := bool_decide (p `suffix_of` s).

Definition query_part (u : URL) : bytes :=
  if u_ForceQuery u || bool_decide (u_RawQuery u ≠ []) then question :: u_RawQuery u else [].

Definition RequestURI (u : URL) : bytes :=
  (if bool_decide (u_Opaque u = []) then match EscapedPath u with [] => [slash] | p => p end
   else if has_prefix [slash; slash] (u_Opaque u) then u_Scheme u ++ [Byte.x3a] ++ u_Opaque u else u_Opaque u)
  ++ query_part u.

(** ** The reverse proxy *)

(** The join of [joinURLPath] and of [singleJoiningSlash]: [x] and [y] with one slash between them, by the ends of [p] and [q]. *)
Definition join_paths (p q x y : bytes) : bytes :=
  if has_suffix [slash] p && has_prefix [slash] q then x ++ drop 1 y
  else if negb (has_suffix [slash] p) && negb (has_prefix [slash] q) then x ++ [slash] ++ y
  else x ++ y.

(** [joinURLPath]: the path and the raw path. *)
Definition joinURLPath (a b : URL) : bytes * bytes :=
  if bool_decide (u_RawPath a = [] ∧ u_RawPath b = []) then (join_paths (u_Path a) (u_Path b) (u_Path a) (u_Path b), [])
  else
    let ap := EscapedPath a in let bp := EscapedPath b in
    (join_paths ap bp (u_Path a) (u_Path b), join_paths ap bp ap bp).

(** The director of [NewSingleHostReverseProxy]. *)
Definition rewriteRequestURL (target u : URL) : URL :=
  let '(p, rp) := joinURLPath target u in
  mkURL (u_Scheme target) (u_Opaque u) p rp (u_ForceQuery u)
    (if bool_decide (u_RawQuery target = [] ∨ u_RawQuery u = []) then u_RawQuery target ++ u_RawQuery u
     else u_RawQuery target ++ [ampersand] ++ u_RawQuery u).

(** ** Queries *)

(** One part of a query: [Some None] is a part to skip, [None] an error. *)
Definition parse_part (part : bytes) : option (option (string * bytes)) :=
  if bool_decide (semicolon ∈ part) then None
  else match part with
  | [] => Some None
  | _ =>
      let '(k, v) := default (part, []) (cut_byte equals part) in
      key ← url_unescape encodeQueryComponent k;
      value ← url_unescape encodeQueryComponent v;
      Some (Some (bs key, value))
  end.

(** [Values.Add]. *)
Definition Values_Add (m : gmap string (list bytes)) (kv : string * bytes) : gmap string (list bytes) :=
  <[kv.1 := default [] (m !! kv.1) ++ [kv.2]]> m.

(** [url.ParseQuery]. *)
Definition ParseQuery (q : bytes) : option (gmap string (list bytes)) :=
  parts ← mapM parse_part (split_on ampersand q);
  Some (foldl Values_Add ∅ (omap id parts)).

(** [strings.Join] of the parts of a query. *)
Fixpoint join_amp (parts : list bytes) : bytes :=
  match parts with
  | [] => []
  | [p] => p
  | p :: parts => p ++ [ampersand] ++ join_amp parts
  end.

Definition query_pair (kv : string * bytes) : bytes :=
  url_escape encodeQueryComponent (sb kv.1) ++ [equals] ++ url_escape encodeQueryComponent kv.2.

Section query.
Context `{MapOrder, SliceSort}.

(** The pairs of a map of values, in the order of the names. *)
Definition values_pairs (m : gmap string (list bytes)) : list (string * bytes) :=
  sorted_entries [] m ≫= λ e, (λ v, (e.1, v)) <$> e.2.

(** [Values.Encode]. *)
Definition Values_Encode (m : gmap string (list bytes)) : bytes := join_amp (query_pair <$> values_pairs m).
End query.

(** ** Facts on percent-encoding *)

Lemma unhex_upper n : 0 ≤ n < 16 → unhex (upper_hex n) = Some n ∧ upper_hex n ≠ slash ∧ upper_hex n ∉ sb "%&=;+".
Proof.
  intros Hn. assert (∃ k : nat, n = Z.of_nat k ∧ (k < 16)%nat) as (k & -> & Hk) by (exists (Z.to_nat n); lia).
  do 16 (destruct k as [|k]; [split_and!; [reflexivity|done|by apply (bool_decide_unpack _)]|]). lia.
Qed.

Lemma nibbles (c : byte) : 0 ≤ b2z c / 16 < 16 ∧ 0 ≤ b2z c mod 16 < 16.
Proof. pose proof (b2z_range c). split; [split; [apply Z.div_pos; lia|apply Z.div_lt_upper_bound; lia]|apply Z.mod_pos_bound; lia]. Qed.

Lemma unescape_byte mode c r : url_unescape mode (escape_byte mode c ++ r) = (λ x, c :: x) <$> url_unescape mode r.
Proof.
  unfold escape_byte. case_bool_decide as Hb.
  { destruct Hb as [-> ->]. simpl. by destruct (url_unescape _ r). }
  destruct (shouldEscape mode c) eqn:ES.
  - cbn [app url_unescape]. rewrite bool_decide_true by done. destruct (nibbles c) as [H1 H2].
    rewrite (proj1 (unhex_upper _ H1)), (proj1 (unhex_upper _ H2)). cbn. rewrite <-Z.div_mod by lia. rewrite z2b_b2z. by destruct (url_unescape _ r).
  - cbn [app url_unescape]. rewrite bool_decide_false by (intros ->; by destruct mode).
    destruct (url_unescape mode r); [|done]. cbn. rewrite bool_decide_false; [done|]. by intros [-> ->].
Qed.

(** What is escaped is read back. *)
Lemma url_unescape_escape mode s : url_unescape mode (url_escape mode s) = Some s.
Proof. induction s as [|c s IH]; [done|]. unfold url_escape in *. rewrite bind_cons, unescape_byte, IH. done. Qed.

Lemma escape_app mode s t : url_escape mode (s ++ t) = url_escape mode s ++ url_escape mode t.
Proof. apply bind_app. Qed.

Lemma unescape_app mode s t x : url_unescape mode s = Some x → url_unescape mode (s ++ t) = (λ y, x ++ y) <$> url_unescape mode t.
Proof.
  revert x. induction s as [s IH] using (induction_ltof1 _ (@length byte)). unfold ltof in IH. intros x.
  destruct s as [|c s]; [intros [= <-]; cbn [app]; by destruct (url_unescape mode t)|]. cbn [url_unescape app]. case_bool_decide as Hc.
  - destruct s as [|a [|b s]]; [done..|]. cbn [app]. destruct (unhex a); [|done]. destruct (unhex b); [|done]. cbn.
    destruct (url_unescape mode s) as [y|] eqn:E; [|done]. intros [= <-]. rewrite (IH s) with (x := y) by (exact E || (simpl; lia)). by destruct (url_unescape mode t).
  - destruct (url_unescape mode s) as [y|] eqn:E; [|done]. intros [= <-]. rewrite (IH s) with (x := y) by (exact E || (simpl; lia)). by destruct (url_unescape mode t).
Qed.

Lemma escape_valid s : validEncoded (url_escape encodePath s) = true.
Proof.
  apply Is_true_true, forallb_True, Forall_bind, Forall_forall. intros c _. unfold compose, escape_byte. rewrite bool_decide_false by by intros [].
  assert (∀ n, 0 ≤ n < 16 → valid_char (upper_hex n)) as HU.
  { intros n Hn. assert (∃ k : nat, n = Z.of_nat k ∧ (k < 16)%nat) as (k & -> & Hk) by (exists (Z.to_nat n); lia).
    do 16 (destruct k as [|k]; [done|]). lia. }
  destruct (nibbles c) as [H1 H2]. destruct (shouldEscape encodePath c) eqn:ES; [by repeat constructor; auto|].
  constructor; [|constructor]. unfold valid_char. rewrite ES. by rewrite orb_true_r.
Qed.

(** A path and its text. *)
Lemma EscapedPath_ok u : url_unescape encodePath (EscapedPath u) = Some (u_Path u) ∧ validEncoded (EscapedPath u) = true.
Proof.
  unfold EscapedPath. destruct (bool_decide (u_RawPath u ≠ [])); cbn [andb].
  - destruct (validEncoded (u_RawPath u)) eqn:EV; cbn [andb].
    + case_bool_decide; [done|]. case_bool_decide as ES; [by rewrite ES|]. split; [apply url_unescape_escape|apply escape_valid].
    + case_bool_decide as ES; [by rewrite ES|]. split; [apply url_unescape_escape|apply escape_valid].
  - case_bool_decide as ES; [by rewrite ES|]. split; [apply url_unescape_escape|apply escape_valid].
Qed.

(** A URL whose raw path encodes its path shows the raw path. *)
Lemma EscapedPath_raw u :
  u_RawPath u ≠ [] → validEncoded (u_RawPath u) = true → url_unescape encodePath (u_RawPath u) = Some (u_Path u) → EscapedPath u = u_RawPath u.
Proof. intros H1 H2 H3. unfold EscapedPath. by rewrite bool_decide_true, H2, bool_decide_true. Qed.

(** A slash is its own text, and only a slash is. *)
Lemma escape_slash mode : mode = encodePath → url_escape mode [slash] = [slash].
Proof. by intros ->. Qed.

Lemma escape_prefix_slash s : has_prefix [slash] (url_escape encodePath s) = has_prefix [slash] s.
Proof.
  unfold has_prefix. apply bool_decide_ext. destruct s as [|c s]; [done|]. unfold url_escape. rewrite bind_cons.
  assert (escape_byte encodePath c = [c] ∨ ∃ r, escape_byte encodePath c = percent :: r ∧ c ≠ slash) as [->|(r & -> & Hc)].
  { unfold escape_byte. rewrite bool_decide_false by by intros []. destruct (shouldEscape encodePath c) eqn:E; [right|by left].
    eexists. split; [done|]. by intros ->. }
  - cbn [app]. split; intros (k & [= -> _]); eexists; reflexivity.
  - cbn [app]. split; intros (k & [= ? _]); congruence.
Qed.

Lemma escape_suffix_slash s : has_suffix [slash] (url_escape encodePath s) = has_suffix [slash] s.
Proof.
  unfold has_suffix. apply bool_decide_ext. destruct s as [|c s] using rev_ind; [done|]. rewrite escape_app.
  assert (url_escape encodePath [c] = [c] ∨ ∃ r n, url_escape encodePath [c] = r ++ [upper_hex n] ∧ 0 ≤ n < 16 ∧ c ≠ slash) as [->|(r & n & -> & Hn & Hc)].
  { unfold url_escape. rewrite bind_cons. cbn [mbind list_bind]. rewrite app_nil_r. unfold escape_byte. rewrite bool_decide_false by by intros [].
    destruct (shouldEscape encodePath c) eqn:E; [right|by left].
    exists [percent; upper_hex (b2z c / 16)], (b2z c mod 16). split_and!; [done|apply (nibbles c)..|]. by intros ->. }
  - split; intros (k & [_ [= <-]]%app_inj_tail); eexists; reflexivity.
  - destruct (unhex_upper n Hn) as (_ & ? & _).
    split; intros (k & E); [rewrite app_assoc in E|]; apply app_inj_tail in E as [_ ?]; congruence.
Qed.

(** ** The URL that leaves the proxy *)

(** The path without the slash at its end. *)
Definition strip_slash (p : bytes) : bytes := if has_suffix [slash] p then removelast p else p.

(** A URL as the request line gives it: its path is empty or begins with a slash. *)
Definition origin_form (u : URL) : Prop := u_Opaque u = [] ∧ (EscapedPath u = [] ∨ has_prefix [slash] (EscapedPath u) = true).

Lemma join_paths_strip p q : q = [] ∨ has_prefix [slash] q = true →
  join_paths p q p q = strip_slash p ++ match q with [] => [slash] | _ => q end.
Proof.
  intros Hq. unfold join_paths, strip_slash. destruct (has_suffix [slash] p) eqn:EP; cbn [andb negb].
  - unfold has_suffix in EP. apply bool_decide_eq_true in EP as (k & ->). rewrite removelast_last.
    destruct Hq as [->|Hq]; [change (has_prefix [slash] []) with false; cbn [andb negb]; by rewrite app_nil_r|]. rewrite Hq. unfold has_prefix in Hq. apply bool_decide_eq_true in Hq as (r & ->). cbn. by rewrite <-app_assoc.
  - destruct Hq as [->|Hq]; [done|]. rewrite Hq. cbn [negb]. by destruct q.
Qed.

Lemma join_paths_slash p q x y :
  (∀ k, p = k ++ [slash] → slash ∈ x) → (∀ k, q = slash :: k → slash ∈ y) → slash ∈ join_paths p q x y.
Proof.
  intros HP HQ. unfold join_paths, has_suffix, has_prefix.
  case_bool_decide as E1; case_bool_decide as E2; cbn [andb negb]; rewrite ?elem_of_app.
  - left. destruct E1 as [k ->]. by eapply HP.
  - left. destruct E1 as [k ->]. by eapply HP.
  - right. destruct E2 as [k ->]. by eapply HQ.
  - right. left. by apply list_elem_of_singleton.
Qed.

Lemma escape_join P Q :
  url_escape encodePath (join_paths P Q P Q) = join_paths (url_escape encodePath P) (url_escape encodePath Q) (url_escape encodePath P) (url_escape encodePath Q).
Proof.
  unfold join_paths. rewrite escape_suffix_slash, escape_prefix_slash.
  destruct (has_suffix [slash] P), (has_prefix [slash] Q) eqn:EQ; cbn [andb negb]; rewrite ?escape_app; try done.
  unfold has_prefix in EQ. apply bool_decide_eq_true in EQ as (r & ->). by rewrite escape_app.
Qed.

Lemma unescape_join p q P Q :
  url_unescape encodePath p = Some P → url_unescape encodePath q = Some Q → url_unescape encodePath (join_paths p q p q) = Some (join_paths p q P Q).
Proof.
  intros HP HQ. unfold join_paths. destruct (has_suffix [slash] p), (has_prefix [slash] q) eqn:EQ; cbn [andb negb]; rewrite (unescape_app _ _ _ P) by done.
  - unfold has_prefix in EQ. apply bool_decide_eq_true in EQ as (r & ->). cbn [app drop] in *. cbn in HQ.
    rewrite drop_0. destruct (url_unescape encodePath r) as [y|]; [|done]. injection HQ as <-. cbn. by rewrite drop_0.
  - by rewrite HQ.
  - by rewrite HQ.
  - cbn. by rewrite HQ.
Qed.

Lemma valid_join p q : validEncoded p = true → validEncoded q = true → validEncoded (join_paths p q p q) = true.
Proof.
  unfold validEncoded. intros HP HQ. unfold join_paths. destruct (_ && _); [|destruct (_ && _)]; rewrite ?forallb_app, ?HP, ?HQ; try done.
  destruct q as [|c q]; [done|]. apply andb_true_iff in HQ as [_ HQ]. cbn. by rewrite drop_0.
Qed.

(** The path that leaves is the path of the target followed by the path of the request. *)
Lemma rewritten_path target u :
  u_Path target ≠ [star] → origin_form u →
  EscapedPath (rewriteRequestURL target u) = join_paths (EscapedPath target) (EscapedPath u) (EscapedPath target) (EscapedPath u).
Proof.
  intros HT [_ HO]. unfold rewriteRequestURL, joinURLPath. case_bool_decide as E.
  - destruct E as [E1 E2].
    assert (slash ∈ join_paths (u_Path target) (u_Path u) (u_Path target) (u_Path u)) as HS
      by (apply join_paths_slash; intros k ->; [rewrite elem_of_app|]; set_solver).
    unfold EscapedPath at 1. cbn [u_RawPath u_Path]. rewrite bool_decide_false by auto. cbn [andb].
    rewrite bool_decide_false by (intros EN; rewrite EN in HS; by apply list_elem_of_singleton in HS).
    rewrite escape_join.
    assert (EscapedPath target = url_escape encodePath (u_Path target)) as -> by (unfold EscapedPath; rewrite E1; cbn; by rewrite bool_decide_false).
    assert (EscapedPath u = url_escape encodePath (u_Path u)) as ->; [|done].
    revert HO. unfold EscapedPath. rewrite E2. cbn. case_bool_decide as ES; [|done]. rewrite ES. intros [?|?]; done.
  - destruct (EscapedPath_ok target) as [T1 T2]. destruct (EscapedPath_ok u) as [U1 U2].
    apply EscapedPath_raw; cbn [u_RawPath u_Path]; [|by apply valid_join|by apply unescape_join].
    intros EN. assert (slash ∈ join_paths (EscapedPath target) (EscapedPath u) (EscapedPath target) (EscapedPath u)) as HS
      by (apply join_paths_slash; intros k ->; [rewrite elem_of_app|]; set_solver). rewrite EN in HS. set_solver.
Qed.

(** What the backend is asked is the path of the target followed by what was asked of the proxy. *)
Lemma rewritten_uri target u :
  u_Path target ≠ [star] → u_RawQuery target = [] → origin_form u →
  RequestURI (rewriteRequestURL target u) = strip_slash (EscapedPath target) ++ RequestURI u.
Proof.
  intros HT HQ HO. pose proof (rewritten_path target u HT HO) as HP. destruct HO as [HOp HO]. rewrite join_paths_strip in HP by done.
  assert (u_Opaque (rewriteRequestURL target u) = [] ∧ query_part (rewriteRequestURL target u) = query_part u) as [E1 E2].
  { unfold rewriteRequestURL. destruct (joinURLPath target u). cbn. split; [done|]. unfold query_part. cbn. rewrite HQ.
    rewrite (bool_decide_true ([] = [] ∨ _)) by by left. done. }
  unfold RequestURI. rewrite E1, E2, HOp, !bool_decide_true, HP by done. rewrite app_assoc. f_equal.
  destruct (EscapedPath u) as [|c q]; [by destruct (strip_slash _)|]. by destruct (strip_slash _).
Qed.

(** An opaque URL leaves as it came. *)
Lemma rewritten_opaque target u :
  u_Opaque u ≠ [] → has_prefix [slash; slash] (u_Opaque u) = false → u_RawQuery target = [] → RequestURI (rewriteRequestURL target u) = RequestURI u.
Proof.
  intros HO HP HQ. unfold RequestURI, rewriteRequestURL. destruct (joinURLPath target u) as [p rp]. cbn. rewrite bool_decide_false by done. rewrite HP.
  f_equal. unfold query_part. cbn. rewrite HQ. by rewrite (bool_decide_true ([] = [] ∨ _)) by by left.
Qed.

(** ** Facts on queries *)

Lemma escape_query_plain s : Forall (λ c, c ∉ sb "&=;") (url_escape encodeQueryComponent s).
Proof.
  apply Forall_bind, Forall_forall. intros c _. unfold compose, escape_byte. case_bool_decide; [by repeat constructor; apply (bool_decide_unpack _)|].
  assert (∀ n, 0 ≤ n < 16 → upper_hex n ∉ sb "&=;") as HU by (intros n Hn; destruct (unhex_upper n Hn) as (_ & _ & HN); intros HC; apply HN; revert HC; cbn; rewrite !elem_of_cons; tauto).
  destruct (nibbles c) as [H1 H2]. destruct (shouldEscape encodeQueryComponent c) eqn:ES.
  - repeat constructor; [by apply (bool_decide_unpack _)|by apply HU..].
  - constructor; [|constructor]. intros HC. revert ES. cbn in HC. rewrite !elem_of_cons in HC. by destruct HC as [->|[->|[->|HC%elem_of_nil]]].
Qed.

Lemma plain_not s c : Forall (λ c, c ∉ sb "&=;") s → c ∈ sb "&=;" → c ∉ s.
Proof. intros HF Hc Hs. rewrite Forall_forall in HF. by apply (HF c). Qed.

Lemma query_pair_parse kv : parse_part (query_pair kv) = Some (Some kv) ∧ ampersand ∉ query_pair kv.
Proof.
  destruct kv as [k v]. unfold query_pair. cbn [fst snd].
  pose proof (escape_query_plain (sb k)) as HK. pose proof (escape_query_plain v) as HV. split.
  - unfold parse_part. rewrite bool_decide_false.
    + destruct (url_escape encodeQueryComponent (sb k) ++ [equals] ++ url_escape encodeQueryComponent v) as [|c r] eqn:E; [by destruct (url_escape _ (sb k))|]. rewrite <-E.
      cbn [app]. rewrite cut_byte_app by by apply plain_not; [|apply (bool_decide_unpack _)]. cbn [default id].
      rewrite !url_unescape_escape. cbn. by rewrite bs_sb.
    + rewrite !elem_of_app, list_elem_of_singleton. intros [HC|[HC|HC]]; [|done|]; revert HC; (by apply plain_not; [|apply (bool_decide_unpack _)]).
  - rewrite !elem_of_app, list_elem_of_singleton. intros [HC|[HC|HC]]; [|done|]; revert HC; (by apply plain_not; [|apply (bool_decide_unpack _)]).
Qed.

Lemma split_on_none c l : c ∉ l → split_on c l = [l].
Proof.
  induction l as [|b l IH]; intros HN; [done|]. rewrite not_elem_of_cons in HN. destruct HN as [Hb HN]. cbn. rewrite decide_False by done. by rewrite IH.
Qed.

Lemma split_on_join parts : Forall (λ p, ampersand ∉ p) parts → parts ≠ [] → split_on ampersand (join_amp parts) = parts.
Proof.
  induction 1 as [|p parts Hp HF IH]; [done|]. intros _. destruct parts as [|q parts]; [by apply split_on_none|].
  change (join_amp (p :: q :: parts)) with (p ++ ampersand :: join_amp (q :: parts)). rewrite split_on_app by done. by rewrite IH.
Qed.

(** The values of a name, one after the other. *)
Lemma Values_Add_all k vs m : m !! k = None → vs ≠ [] → foldl Values_Add m ((λ v, (k, v)) <$> vs) = <[k := vs]> m.
Proof.
  intros Hm. induction vs as [|v vs IH] using rev_ind; [done|]. intros _. rewrite fmap_app, foldl_app. destruct vs as [|w vs].
  - cbn. unfold Values_Add. cbn. by rewrite Hm.
  - rewrite IH by done. cbn. unfold Values_Add. cbn. rewrite lookup_insert_eq. cbn. by rewrite insert_insert_eq.
Qed.

Section query_facts.
Context `{MapOrder, SliceSort}.

Lemma Values_fold (es : list (string * list bytes)) m :
  NoDup es.*1 → Forall (λ e, e.2 ≠ []) es → (∀ k, k ∈ es.*1 → m !! k = None) →
  foldl Values_Add m (es ≫= λ e, (λ v, (e.1, v)) <$> e.2) = list_to_map es ∪ m.
Proof.
  revert m. induction es as [|[k vs] es IH]; intros m HN HF HM; [cbn; by rewrite map_empty_union|].
  rewrite bind_cons, foldl_app. cbn in HN. apply NoDup_cons in HN as [Hk HN]. apply Forall_cons in HF as [Hvs HF]. cbn [fst snd] in *.
  rewrite Values_Add_all by (done || (apply HM; cbn; set_solver)). rewrite IH; [|done..|].
  - cbn. rewrite <-insert_union_r by by apply not_elem_of_list_to_map_1. by rewrite insert_union_l.
  - intros k' Hk'. rewrite lookup_insert_ne by (intros ->; done). apply HM. cbn. set_solver.
Qed.

(** What is encoded is parsed back, name by name and value by value. *)
Lemma ParseQuery_Encode m : map_Forall (λ _ vs, vs ≠ []) m → ParseQuery (Values_Encode m) = Some m.
Proof.
  intros HM. unfold ParseQuery, Values_Encode, values_pairs.
  assert (foldl Values_Add ∅ (sorted_entries [] m ≫= λ e, (λ v, (e.1, v)) <$> e.2) = m) as HV.
  { rewrite Values_fold; [|apply sorted_entries_NoDup|by apply (sorted_entries_Forall (λ e, e.2 ≠ []))|done].
    by rewrite sorted_entries_map, map_union_empty. }
  set (ps := sorted_entries [] m ≫= _) in *. clearbody ps.
  destruct ps as [|p ps]; [cbn in *; by rewrite HV|].
  rewrite split_on_join; [|by apply Forall_fmap, Forall_forall; intros kv _; apply query_pair_parse|done].
  assert (∀ l, mapM parse_part (query_pair <$> l) = Some (Some <$> l)) as HP.
  { induction l as [|kv l IH]; [done|]. cbn [fmap list_fmap]. cbn [mapM]. rewrite (proj1 (query_pair_parse kv)). cbn. by rewrite IH. }
  rewrite HP. cbn [mbind option_bind]. f_equal.
  assert (∀ (l : list (string * bytes)), omap id (Some <$> l) = l) as HO by (induction l as [|x l IH]; [done|]; cbn; by rewrite IH).
  by rewrite HO.
Qed.
End query_facts.
