(* ===== verification/Proxy.v ===== *)
(** The blocking proxy: [src/pep/proxy.go], with the seam of the rewriter [src/pep/rewriter.go].

    The proxy receives the real traffic: it derives the action, the resource and the seal from the request itself, has
    [evaluate] decide, takes one quantum of the passport, has the request rewritten when the destination is outside the
    cell, and only then sends it. The reverse proxy of net/http/httputil is modelled as far as the sources configure it: the URL that it
    asks the backend for, its error handler and its hook on the response; its treatment of the headers of the connection is not.
    A header map has canonical keys, as net/http gives them. Requests run concurrently: [others] changes the shared state
    between the stages of one. *)
From S2P Require Import Prelude.
From S2P Require Import Hex.
From S2P Require Import Json.
From S2P Require Import Leaf.
From S2P Require Import Effects.
From S2P Require Import GoStrings.
From S2P Require Import GoUrl.
From S2P Require Import Token.
From S2P Require Import Quota.
From S2P Require Import Mode.
From S2P Require Import Validator.
From S2P Require Import OPAClient.
From S2P Require Import DryRun.
From S2P Require Import Listener.

Local Open Scope Z_scope.

(** ** Requests and responses of net/http *)

(** A body: its bytes, and whether the connection fails after them. *)
Inductive http_body := NoBody | BodyOf (content : bytes) (broken : bool).

Abbreviation Header := (gmap string (list string)).

Record HttpRequest := mkHttpRequest { hr_Method : string; hr_URL : URL; hr_Header : Header; hr_Body : http_body; hr_ContentLength : Z }.
Record HttpResponse := mkHttpResponse { hs_Status : Z; hs_Header : Header; hs_Body : http_body; hs_ContentLength : Z }.

(** [io.ReadAll(io.LimitReader(body, max+1))], and whether more than [max] bytes came. *)
Inductive read_result := ReadFailed | ReadTooLong | ReadAll (content : bytes).
Definition read_limited (max : Z) (content : bytes) (broken : bool) : read_result :=
  if max <? Z.of_nat (length content) then ReadTooLong else if broken then ReadFailed else ReadAll content.

(** [CanonicalMIMEHeaderKey]. *)
Definition header_char (b : byte) : bool := alphanumeric b || bool_decide (b ∈ sb "!#$%&'*+-.^_`|~").
Definition to_upper (b : byte) : byte := if between 97 122 b then z2b (b2z b - 32) else b.
Definition to_lower (b : byte) : byte := if between 65 90 b then z2b (b2z b + 32) else b.
Fixpoint canonical_from (upper : bool) (s : bytes) : bytes :=
  match s with
  | [] => []
  | b :: s => let c := if upper then to_upper b else to_lower b in c :: canonical_from (bool_decide (c = Byte.x2d)) s
  end.
Definition CanonicalHeaderKey (s : string) : string := if forallb header_char (sb s) then bs (canonical_from true (sb s)) else s.

Definition Header_Get (h : Header) (k : string) : string := default "" (h !! CanonicalHeaderKey k ≫= head).
Definition Header_Set (k v : string) (h : Header) : Header := <[CanonicalHeaderKey k := [v]]> h.
Definition Header_Del (k : string) (h : Header) : Header := delete (CanonicalHeaderKey k) h.

Definition set_header (h : Header) (r : HttpRequest) : HttpRequest :=
  mkHttpRequest (hr_Method r) (hr_URL r) h (hr_Body r) (hr_ContentLength r).
Definition set_url (u : URL) (r : HttpRequest) : HttpRequest :=
  mkHttpRequest (hr_Method r) u (hr_Header r) (hr_Body r) (hr_ContentLength r).
Definition set_body (b : http_body) (n : Z) (r : HttpRequest) : HttpRequest :=
  mkHttpRequest (hr_Method r) (hr_URL r) (hr_Header r) b n.

(** ** What the proxy derives from a request *)

Definition DefaultTokenHeader : string := "X-TBP-Token".
Definition maxProxyBodySeal : Z := 2 ^ 20.

(** [strings.HasPrefix] and [strings.TrimPrefix] with the scheme of the token. *)
Definition bearer : bytes := sb "Bearer ".
Definition bearer_token (h : string) : option string :=
  if has_prefix bearer (sb h) then Some (bs (drop (length bearer) (sb h))) else None.

(** [tokenFromHeader]. *)
Definition tokenFromHeader (header : string) (r : HttpRequest) : option string := bearer_token (Header_Get (hr_Header r) header).

Inductive derive_error := ErrMethodUnmapped | ErrBodyUnreadable | ErrBodyTooLargeToSeal.

Definition method_action (m : string) : option string :=
  if bool_decide (m ∈ ["GET"; "HEAD"; "OPTIONS"]) then Some "read"
  else if bool_decide (m ∈ ["POST"; "PUT"; "PATCH"]) then Some "write"
  else if bool_decide (m = "DELETE") then Some "delete"
  else None.

Section derive.
Context `{Crypto}.

(** [defaultDeriveRequest]: the request to decide on, and the request with its body put back. *)
Definition defaultDeriveRequest (r : HttpRequest) : (derive_error + Request) * HttpRequest :=
  match method_action (hr_Method r) with
  | None => (inl ErrMethodUnmapped, r)
  | Some action =>
      let resource := bs (RequestURI (hr_URL r)) in
      match hr_Body r with
      | NoBody => (inr (mkRequest action resource None), r)
      | BodyOf content broken =>
          match read_limited maxProxyBodySeal content broken with
          | ReadFailed => (inl ErrBodyUnreadable, r)
          | ReadTooLong => (inl ErrBodyTooLargeToSeal, r)
          | ReadAll body =>
              (inr (mkRequest action resource (if bool_decide (body = []) then None else Some (sha256 body))),
               set_body (BodyOf body false) (Z.of_nat (length body)) r)
          end
      end
  end.
End derive.

(** ** The rewriter *)

Record RewriteReport := mkRewriteReport {
  rw_Leaves : Z; rw_MaskedPath : Z; rw_MaskedClassifier : Z; rw_MaskedDefault : Z; rw_ClassifierFaults : Z; rw_Spans : Z; rw_Restored : Z }.

Definition RewriteOpMask : byte := Byte.x01.
Definition RewriteOpUnmask : byte := Byte.x02.

(** [E] is the type of the errors of the rewriter; [None] is success. *)
Record RewriteEvent {E : Type} := mkRewriteEvent { re_Op : byte; re_JTI : bytes; re_Report : RewriteReport; re_Err : option E }.
Arguments RewriteEvent : clear implicits.

(** [Rewriter], over a state [R] and what a call meets [X]. The request and the response are rewritten in place. *)
Class Rewriter (R X E : Type) := {
  RewriteRequest : X → bytes → HttpRequest → R → trace → RewriteReport * option E * HttpRequest * R * trace;
  RewriteResponse : X → bytes → HttpResponse → R → trace → RewriteReport * option E * HttpResponse * R * trace;
  Done : X → bytes → R → trace → R * trace;
}.

(** ** The proxy *)

(** [px_onRewrite] is given the time it reads; [true] is an error. *)
Record BlockingProxy {E : Type} := mkBlockingProxy {
  px_backend : URL;
  px_deriveRequest : HttpRequest → (derive_error + Request) * HttpRequest;
  px_tokenFrom : HttpRequest → option string;
  px_tokenHeader : string;
  px_exposeDecisionHeaders : bool;
  px_rewriter : bool;
  px_onRewrite : option (Z → RewriteEvent E → trace → bool * trace);
}.
Arguments BlockingProxy : clear implicits.

(** [NewBlockingProxy]: [None] is a configuration error. *)
Definition NewBlockingProxy `{Crypto} {E} (listener : bool) (backend : option URL)
    (deriveRequest : option (HttpRequest → (derive_error + Request) * HttpRequest)) (tokenFrom : option (HttpRequest → option string))
    (tokenHeader : string) (expose rewriter : bool) (onRewrite : option (Z → RewriteEvent E → trace → bool * trace)) :
    option (BlockingProxy E) :=
  if negb listener then None
  else match backend with
  | None => None
  | Some b =>
      let header := if bool_decide (tokenHeader = "") then DefaultTokenHeader else tokenHeader in
      Some (mkBlockingProxy E b (default defaultDeriveRequest deriveRequest) (default (tokenFromHeader header) tokenFrom) header expose rewriter onRewrite)
  end.

Inductive proxy_answer :=
  | TokenMissing                       (* 401 *)
  | TokenNotBase64                     (* 401 *)
  | NotDerivable (e : derive_error)    (* 400 *)
  | PolicyRefused (reason : string)    (* 403 *)
  | QuotaSpent (reason : string)       (* 403 *)
  | NotAnonymised                      (* 502, nothing was sent *)
  | BackendFault                       (* 502, [onProxyError] was called *)
  | FromBackend (resp : HttpResponse).

(** The answer to the client, the two headers on the decision when they are exposed, and what was sent to the backend. *)
Record proxy_result := mkProxyResult { pr_headers : option (string * string); pr_answer : proxy_answer; pr_sent : option HttpRequest }.

(** What a request meets: the evaluation, the clock of the passport, the calls to the rewriter, the backend. *)
Record proxy_env {X : Type} := mkProxyEnv {
  pe_eval : eval_env; pe_consume : Z; pe_cut : Z;
  pe_mask : X; pe_maskAt : Z; pe_unmask : X; pe_unmaskAt : Z; pe_done : X;
  pe_backend : HttpRequest → option HttpResponse }.
Arguments proxy_env : clear implicits.

Section proxy.
Context {C S R X E : Type} `{Crypto, Env, Cose, AntiReplayCache C, MapOrder, SliceSort, !Rewriter R X E}.

Record proxy_world := mkProxyWorld { pw_listener : Listener C S; pw_rewriter : R; pw_trace : trace }.

Context (others : nat → proxy_world → proxy_world).

(** [audited]: whether the rewriting is refused. *)
Definition audited (p : BlockingProxy E) (at_ : Z) (ev : RewriteEvent E) (t : trace) : bool * trace :=
  let '(failed, t1) := match px_onRewrite p with Some f => f at_ ev t | None => (false, t) end in
  (match re_Err ev with Some _ => true | None => failed end, t1).

(** One quantum of the passport that was opened for the request. *)
Definition take_passport (x : proxy_env X) (out : evalOutcome) (l : Listener C S) (t : trace) : option quota_error * Listener C S * trace :=
  if eo_PassportOpened out then
    match ln_ledger l with
    | None => (None, l, t)
    | Some q =>
        match ql_counters q !! d_JTI (eo_Decision out) with
        | None => (None, l, t)
        | Some ptr =>
            match ConsumeAt ptr (pe_consume x) (pe_cut x) 1 q t with
            | None => (None, l, t)
            | Some (e, q1, t1) => (e, set_stats (ln_cache l) (Some q1) (ln_opa l) (ln_stats l) l, t1)
            end
        end
    end
  else (None, l, t).

(** The reverse proxy, from the request that it is given; [rc] is the token and its identifier, kept in the context. *)
Definition rp_ServeHTTP (p : BlockingProxy E) (x : proxy_env X) (rc : option (bytes * bytes)) (r : HttpRequest) (w : proxy_world) :
    proxy_answer * HttpRequest * proxy_world :=
  let out := set_url (rewriteRequestURL (px_backend p) (hr_URL r)) r in
  match pe_backend x out with
  | None => (BackendFault, out, w)
  | Some resp =>
      if px_rewriter p then
        match rc with
        | None => (BackendFault, out, w)
        | Some (wire, jti) =>
            let w := others 3 w in
            let '(rep, err, resp1, rw, t1) := RewriteResponse (pe_unmask x) wire resp (pw_rewriter w) (pw_trace w) in
            let '(refused, t2) := audited p (pe_unmaskAt x) (mkRewriteEvent E RewriteOpUnmask jti rep err) t1 in
            (if refused then BackendFault else FromBackend resp1, out, mkProxyWorld (pw_listener w) rw t2)
        end
      else (FromBackend resp, out, w)
  end.

(** The rewriting, the sending and the end of the exchange. *)
Definition send (p : BlockingProxy E) (x : proxy_env X) (wire jti : bytes) (r : HttpRequest) (w : proxy_world) :
    proxy_answer * option HttpRequest * proxy_world :=
  if px_rewriter p then
    let w := others 2 w in
    let '(rep, err, r1, rw, t1) := RewriteRequest (pe_mask x) wire r (pw_rewriter w) (pw_trace w) in
    let '(refused, t2) := audited p (pe_maskAt x) (mkRewriteEvent E RewriteOpMask jti rep err) t1 in
    let w1 := mkProxyWorld (pw_listener w) rw t2 in
    let finish (w : proxy_world) : proxy_world :=
      let w := others 4 w in
      let '(rw, t) := Done (pe_done x) wire (pw_rewriter w) (pw_trace w) in mkProxyWorld (pw_listener w) rw t in
    if refused then (NotAnonymised, None, finish w1)
    else
      let r2 := set_header (Header_Set "Accept-Encoding" "identity" (hr_Header r1)) r1 in
      let '(answer, out, w2) := rp_ServeHTTP p x (Some (wire, jti)) r2 w1 in
      (answer, Some out, finish w2)
  else
    let '(answer, out, w1) := rp_ServeHTTP p x None r w in (answer, Some out, w1).

(** [ServeHTTP]. *)
Definition ServeHTTP (p : BlockingProxy E) (sm : Seams) (x : proxy_env X) (r : HttpRequest) (w : proxy_world) : proxy_result * proxy_world :=
  let token := px_tokenFrom p r in
  let r := set_header (Header_Del (px_tokenHeader p) (hr_Header r)) r in
  match token with
  | None => (mkProxyResult None TokenMissing None, w)
  | Some b64 =>
      match b64_decode (sb b64) with
      | None => (mkProxyResult None TokenNotBase64 None, w)
      | Some wire =>
          match px_deriveRequest p r with
          | (inl e, _) => (mkProxyResult None (NotDerivable e) None, w)
          | (inr req, r1) =>
              let '(out, l1, t1) := evaluate sm (pe_eval x) wire req (pw_listener w) (pw_trace w) in
              let w1 := others 0 (mkProxyWorld l1 (pw_rewriter w) t1) in
              let d := eo_Decision out in
              let headers := if px_exposeDecisionHeaders p then Some (mode_String (mc_mode (ln_mode (pw_listener w1))), d_Reason d) else None in
              if negb (eo_Forwarded out) then (mkProxyResult headers (PolicyRefused (d_Reason d)) None, w1)
              else
                let w2 := others 1 w1 in
                match take_passport x out (pw_listener w2) (pw_trace w2) with
                | (Some e, l2, t2) => (mkProxyResult headers (QuotaSpent (consumeErrReason e)) None, mkProxyWorld l2 (pw_rewriter w2) t2)
                | (None, l2, t2) =>
                    let '(answer, sent, w3) := send p x wire (d_JTI d) r1 (mkProxyWorld l2 (pw_rewriter w2) t2) in
                    (mkProxyResult headers answer sent, w3)
                end
          end
      end
  end.
End proxy.

(** ** The claims *)

Section proxy_claims.
Context {C S R X E : Type} `{Crypto, Env, Cose, AntiReplayCache C, MapOrder, SliceSort, !Rewriter R X E}.
Context (others : nat → proxy_world (C := C) (S := S) (R := R) → proxy_world (C := C) (S := S) (R := R)).

(** The request that the decision was made on, as it is put back. *)
Definition decided_request (p : BlockingProxy E) (r : HttpRequest) : HttpRequest :=
  (px_deriveRequest p (set_header (Header_Del (px_tokenHeader p) (hr_Header r)) r)).2.

(** Deriving changes neither the method nor the URL nor the headers, and keeps the bytes of the body. *)
Lemma derive_keeps r req r' :
  defaultDeriveRequest r = (inr req, r') →
  method_action (hr_Method r) = Some (r_Action req) ∧ r_Resource req = bs (RequestURI (hr_URL r)) ∧
  hr_Method r' = hr_Method r ∧ hr_URL r' = hr_URL r ∧ hr_Header r' = hr_Header r ∧
  (hr_Body r' = hr_Body r) ∧
  ∀ s, r_ObjectSeal req = Some s → ∃ body, hr_Body r' = BodyOf body false ∧ body ≠ [] ∧ s = sha256 body.
Proof.
  unfold defaultDeriveRequest. destruct (method_action (hr_Method r)) as [action|]; [|done].
  destruct (hr_Body r) as [|content broken] eqn:EB; [by intros [= <- <-]|].
  unfold read_limited. destruct (_ <? _); [done|]. destruct broken; [done|]. intros [= <- <-]. cbn. split_and!; try done.
  intros s Hs. exists content. case_bool_decide; [done|]. by injection Hs as <-.
Qed.

(** What is sent, from what is decided. *)
Lemma send_sent p (x : proxy_env X) wire jti r w answer sent w' :
  send others p x wire jti r w = (answer, Some sent, w') →
  if px_rewriter p then
    ∃ rep r1 rw t1 t2,
      RewriteRequest (pe_mask x) wire r (pw_rewriter (others 2%nat w)) (pw_trace (others 2%nat w)) = (rep, None, r1, rw, t1) ∧
      audited p (pe_maskAt x) (mkRewriteEvent E RewriteOpMask jti rep None) t1 = (false, t2) ∧
      sent = set_url (rewriteRequestURL (px_backend p) (hr_URL r1)) (set_header (Header_Set "Accept-Encoding" "identity" (hr_Header r1)) r1)
  else sent = set_url (rewriteRequestURL (px_backend p) (hr_URL r)) r.
Proof.
  assert (∀ rc r0 w0, (rp_ServeHTTP others p x rc r0 w0).1.2 = set_url (rewriteRequestURL (px_backend p) (hr_URL r0)) r0) as HR.
  { intros rc r0 w0. unfold rp_ServeHTTP. destruct (pe_backend x _); [|done]. destruct (px_rewriter p); [|done]. destruct rc as [[]|]; [|done].
    destruct (RewriteResponse _ _ _ _ _) as [[[[? ?] ?] ?] ?]. by destruct (audited _ _ _ _). }
  unfold send. destruct (px_rewriter p) eqn:EP.
  - destruct (RewriteRequest _ _ _ _ _) as [[[[rep err] r1] rw] t1] eqn:ER.
    destruct (audited p (pe_maskAt x) _ t1) as [refused t2] eqn:EA. destruct refused; [done|].
    destruct err as [e|]. { unfold audited in EA. cbn in EA. by destruct (match px_onRewrite p with Some _ => _ | None => _ end). }
    set (r2 := set_header _ r1). set (w1 := mkProxyWorld _ _ _). specialize (HR (Some (wire, jti)) r2 w1).
    destruct (rp_ServeHTTP others p x (Some (wire, jti)) r2 w1) as [[a o] w2]. cbn in HR. subst o. intros [= _ <- _].
    exists rep, r1, rw, t1, t2. split_and!; [done..|]. unfold r2. done.
  - specialize (HR None r w). destruct (rp_ServeHTTP others p x None r w) as [[a o] w2]. cbn in HR. subst o. by intros [= _ <- _].
Qed.

(** What is given back, when answers are rewritten. *)
Lemma send_answer p (x : proxy_env X) wire jti r w resp1 sent w' :
  px_rewriter p = true → send others p x wire jti r w = (FromBackend resp1, Some sent, w') →
  ∃ resp st t rep st1 t1 t2, pe_backend x sent = Some resp ∧ RewriteResponse (pe_unmask x) wire resp st t = (rep, None, resp1, st1, t1) ∧
    audited p (pe_unmaskAt x) (mkRewriteEvent E RewriteOpUnmask jti rep None) t1 = (false, t2).
Proof.
  intros EP. unfold send. rewrite EP. destruct (RewriteRequest _ _ _ _ _) as [[[[rep err] r1] rw] t1].
  destruct (audited p (pe_maskAt x) _ t1) as [[] t2]; [done|].
  destruct (rp_ServeHTTP others p x _ _ _) as [[answer out] w2] eqn:ER. intros [= -> -> _]. unfold rp_ServeHTTP in ER. rewrite EP in ER.
  destruct (pe_backend x _) as [resp|] eqn:EB; [|done]. destruct (RewriteResponse _ _ _ _ _) as [[[[rep2 err2] resp2] st1] t3] eqn:EU.
  destruct (audited p (pe_unmaskAt x) _ t3) as [refused t4] eqn:EA. destruct refused; [done|]. injection ER as -> <- _.
  destruct err2 as [e|]; [unfold audited in EA; cbn in EA; by destruct (match px_onRewrite p with Some _ => _ | None => _ end)|].
  eauto 15.
Qed.

(** Whatever the posture, what is sent comes from [send] on the decided request. *)
Lemma ServeHTTP_sent (p : BlockingProxy E) sm (x : proxy_env X) r w res w' sent :
  ServeHTTP others p sm x r w = (res, w') → pr_sent res = Some sent →
  ∃ wire w2 req, px_tokenFrom p r ≫= (λ b, b64_decode (sb b)) = Some wire ∧
    px_deriveRequest p (set_header (Header_Del (px_tokenHeader p) (hr_Header r)) r) = (inr req, decided_request p r) ∧
    let out := (evaluate sm (pe_eval x) wire req (pw_listener w) (pw_trace w)).1.1 in
    eo_Forwarded out = true ∧ send others p x wire (d_JTI (eo_Decision out)) (decided_request p r) w2 = (pr_answer res, Some sent, w').
Proof.
  unfold ServeHTTP, decided_request. intros HS Hsent. destruct (px_tokenFrom p r) as [b64|]; [|by simplify_eq].
  cbn. destruct (b64_decode (sb b64)) as [wire|]; [|by simplify_eq]. destruct (px_deriveRequest p _) as [[e|req] d]; [by simplify_eq|].
  destruct (evaluate _ _ _ _ _ _) as [[out l1] t1] eqn:EV. destruct (eo_Forwarded out) eqn:EF; cbn [negb] in HS; [|by simplify_eq].
  destruct (take_passport _ _ _ _) as [[[e|] l2] t2]; [by simplify_eq|].
  destruct (send _ _ _ _ _ _ _) as [[answer sent0] w3] eqn:ES. injection HS as <- <-. cbn in Hsent |- *. subst sent0. eexists wire, _, req.
  rewrite EV. split_and!; done.
Qed.

(** One quantum taken between two states of the listener: the counter of the passport, if the ledger of the first still holds it, was open
    and had a quantum left in its window, and in the ledger of the second it has one less. *)
Definition quantum_taken (x : proxy_env X) (jti : bytes) (l l2 : Listener C S) : Prop :=
  ∀ q c, ln_ledger l = Some q → Counter jti q = Some c →
    pc_closed c = false ∧ (Unix (pe_consume x) ≤ pc_exp c)%Z ∧ (1 ≤ pc_remaining (recharge (Unix (pe_consume x)) c))%Z ∧
    ∃ q', ln_ledger l2 = Some q' ∧ Counter jti q' = Some (take_quantum 1 (recharge (Unix (pe_consume x)) c)).

Lemma take_passport_taken (x : proxy_env X) out (l l2 : Listener C S) t t2 :
  eo_PassportOpened out = true → take_passport x out l t = (None, l2, t2) →
  quantum_taken x (d_JTI (eo_Decision out)) l l2.
Proof.
  unfold take_passport, quantum_taken, Counter. intros -> HT q c Hq Hc. rewrite Hq in HT.
  destruct (ql_counters q !! _) as [ptr|] eqn:EC; [|done]. cbn in Hc. unfold ConsumeAt in HT. rewrite Hc in HT. cbn in HT.
  destruct (Consume _ _ _ _ _ _) as [[e c'] t'] eqn:EX. injection HT as -> <- <-. apply Consume_taken in EX as (? & ? & ? & -> & ->).
  split_and!; [done..|]. eexists. split; [done|]. cbn. rewrite EC. cbn. by eapply list_lookup_insert_eq, lookup_lt_Some.
Qed.

(** C11: What reaches the backend is what was decided. In the closed posture, whatever the other requests do in between, a request is
    sent only after the gate was open, the token in its header was signed by a pinned key and is acceptable for the method and for the
    whole path and query of this very request, the engine agreed, and a sealed token covers exactly the body; when a passport was opened
    for it, its counter, if no purge took it away in between, has one quantum less in the ledger from which the request is sent. The
    request is in origin form and the URL of the backend has no query and is not the asterisk. Without a rewriter, what is sent has the method, the headers and the body that were decided on, without the header of
    the token, and asks the backend for its path followed by the evaluated resource. With one, it is what the rewriter made of
    that request, without error and with its audit on record. *)
Theorem proxy_sends_only_what_was_decided `{!CoseLaws} backend header expose rw audit (p : BlockingProxy E) sm (x : proxy_env X) r w res w' sent :
  (∀ g, ln_dryRun (pw_listener w) = Some g → 0 < slen (p_cellID (dg_producer g)) ≤ 255)%nat →
  NewBlockingProxy true (Some backend) None None header expose rw audit = Some p →
  origin_form (hr_URL r) → u_Path backend ≠ [star] → u_RawQuery backend = [] →
  mc_mode (ln_mode (pw_listener w)) = ModeClosed →
  ServeHTTP others p sm x r w = (res, w') → pr_sent res = Some sent →
  ∃ wire tok req out l1 t1 l2 t2,
    let d := decided_request p r in
    let w1 := others 1%nat (others 0%nat (mkProxyWorld l1 (pw_rewriter w) t1)) in
    let w2 := mkProxyWorld l2 (pw_rewriter w1) t2 in
    gate_open sm ∧
    tokenFromHeader (px_tokenHeader p) r ≫= (λ b, b64_decode (sb b)) = Some wire ∧
    authentic (v_keyring (ln_validator (pw_listener w))) wire tok ∧
    (t_Iat tok ≤ Unix (ee_now (pe_eval x)) ≤ t_Exp tok ∧ sm_epoch sm = Some (t_Epoch tok)) ∧
    method_action (hr_Method r) = Some (t_Action tok) ∧ sb (t_Resource tok) = RequestURI (hr_URL r) ∧
    (∀ s, t_ObjectSeal tok = Some s → ∃ body, hr_Body r = BodyOf body false ∧ body ≠ [] ∧ s = sha256 body) ∧
    (is_Some (ln_opa (pw_listener w)) → ∃ dry, r_Action req = t_Action tok ∧ r_Resource req = t_Resource tok ∧
       shown_dry_run (pw_listener w) (pe_eval x) req tok dry ∧
       ee_answer (pe_eval x) (opa_question (t_JTI tok) req tok dry) = IoResult (Some (Some true))) ∧
    evaluate sm (pe_eval x) wire req (pw_listener w) (pw_trace w) = (out, l1, t1) ∧
    take_passport x out (pw_listener w1) (pw_trace w1) = (None, l2, t2) ∧
    (is_Some (ln_ledger (pw_listener w)) → t_Quota tok ≠ None → quantum_taken x (t_JTI tok) (pw_listener w1) l2) ∧
    send others p x wire (t_JTI tok) d w2 = (pr_answer res, Some sent, w') ∧
    (hr_Method d = hr_Method r ∧ hr_URL d = hr_URL r ∧ hr_Body d = hr_Body r ∧ hr_Header d = Header_Del (px_tokenHeader p) (hr_Header r) ∧
     if rw then
       ∃ rep r1 st u1 u2,
         RewriteRequest (pe_mask x) wire d (pw_rewriter (others 2%nat w2)) (pw_trace (others 2%nat w2)) = (rep, None, r1, st, u1) ∧
         audited p (pe_maskAt x) (mkRewriteEvent E RewriteOpMask (t_JTI tok) rep None) u1 = (false, u2) ∧
         sent = set_url (rewriteRequestURL backend (hr_URL r1)) (set_header (Header_Set "Accept-Encoding" "identity" (hr_Header r1)) r1)
     else
       sent = set_url (rewriteRequestURL backend (hr_URL r)) d ∧
       RequestURI (hr_URL sent) = strip_slash (EscapedPath backend) ++ sb (t_Resource tok)).
Proof.
  intros Hg HP HO HB1 HB2 Hmode HS Hsent. unfold NewBlockingProxy in HP. cbn in HP. injection HP as HP. unfold ServeHTTP in HS.
  set (hd := if bool_decide (header = "") then DefaultTokenHeader else header) in *.
  assert (px_backend p = backend ∧ px_deriveRequest p = defaultDeriveRequest ∧ px_tokenFrom p = tokenFromHeader hd ∧ px_tokenHeader p = hd ∧ px_rewriter p = rw)
    as (P1 & P2 & P3 & P4 & P5) by by subst p.
  rewrite P2, P3, P4 in HS. unfold decided_request. rewrite P2, P4.
  destruct (tokenFromHeader hd r) as [b64|] eqn:ET; [|by simplify_eq]. destruct (b64_decode (sb b64)) as [wire|] eqn:EW; [|by simplify_eq].
  destruct (defaultDeriveRequest _) as [[e|req] d] eqn:ED; [by simplify_eq|]. apply derive_keeps in ED as (D1 & D2 & D3 & D4 & D5 & D6 & D7).
  cbn [set_header hr_Method hr_URL hr_Header hr_Body snd] in *.
  pose proof (evaluate_closed_forwards sm (pe_eval x) wire req (pw_listener w) (pw_trace w) Hg) as HE.
  destruct (evaluate _ _ _ _ _ _) as [[out l1] t1] eqn:EV. destruct (eo_Forwarded out) eqn:EF; cbn [negb] in HS; [|by simplify_eq].
  destruct (HE Hmode eq_refl) as (Hgate & tok & Hj & Hau & Hac & HQ & HOpa). destruct Hac as (A1 & A2 & A3 & A4 & A5 & A6 & A7 & A8).
  destruct (take_passport _ _ _ _) as [[[e|] l2] t2] eqn:EP; [by simplify_eq|].
  destruct (send _ _ _ _ _ _ _) as [[answer sent0] w3] eqn:ES. simplify_eq/=. rewrite Hj in *.
  pose proof (send_sent _ _ _ _ _ _ _ _ _ ES) as HSe.
  exists wire, tok, req, out, l1, t1, l2, t2. cbv zeta. split_and!; try done; [apply A1|apply A1|by rewrite A5|by rewrite A6, D2, sb_bs|..].
  - intros s Hs. destruct (D7 s (A7 s Hs)) as (body & Hb & Hne & ->). rewrite D6 in Hb. by exists body.
  - intros Ho. destruct (HOpa Ho) as (dry & ? & ?). exists dry. by rewrite A5, A6.
  - intros [q0 Hq0] HqN. destruct (t_Quota tok) as [qv|]; [|done]. destruct (HQ q0 qv Hq0 eq_refl) as [HPO _].
    rewrite <-Hj. by eapply take_passport_taken.
  - destruct (px_rewriter p).
    + destruct HSe as (rep & r1 & st & u1 & u2 & ? & ? & ?). by exists rep, r1, st, u1, u2.
    + split; [by rewrite D4 in HSe|]. rewrite HSe. cbn. rewrite D4, rewritten_uri by done. by rewrite A6, D2, sb_bs.
Qed.
End proxy_claims.
