(* ===== verification/AnoService.v ===== *)
(** The service around the anonymiser: [src/ano/svc/server.go] and [src/ano/svc/audit.go], with the verification of possession
    [src/pep/token_verifier.go].

    A caller shows the token of its request. An exchange is opened under the identifier of a token that is authentic and fresh, and is
    reached afterwards by whoever shows the same token, fresh or not. The handlers are modelled from the parsed request to the
    payload, or the status and the code of the refusal; a report travels in a header as JSON and is passed on as a value. Between two
    steps of a handler the other requests change the table: [others]. *)
From S2P Require Import Prelude.
From S2P Require Import Hex.
From S2P Require Import Json.
From S2P Require Import Leaf.
From S2P Require Import Effects.
From S2P Require Import GoStrings.
From S2P Require Import GoUrl.
From S2P Require Import GoJson.
From S2P Require Import Token.
From S2P Require Import Proxy.
From S2P Require Import Ano.
From S2P Require Import Masking.
From S2P Require Import Anonymity.

Local Open Scope Z_scope.

(** ** Possession of a token *)

Record PossessionVerifier := mkPossessionVerifier { pv_keyring : gmap bytes bytes }.

(** [NewPossessionVerifier]: an empty keyring is refused. *)
Definition NewPossessionVerifier (keyring : gmap bytes bytes) : option PossessionVerifier :=
  if bool_decide (keyring = ∅) then None else Some (mkPossessionVerifier keyring).

(** [Verify]: the schema and the signature. *)
Definition pv_Verify `{Cose} (v : PossessionVerifier) (wire : bytes) : string + Token := VerifyPossession (pv_keyring v) wire.

(** [Fresh]: whether the token has not expired; [None] is a nil token. *)
Definition pv_Fresh (now : Z) (tok : option Token) : bool :=
  match tok with Some tok => now <? of_Unix (t_Exp tok) | None => false end.

(** ** The server *)

Definition DefaultResponseGrace : Z := 60 * second.
Definition maxResponseGrace : Z := 10 * minute.
Definition maxQueryBytes : Z := 8 * 1024.

Record AnoServer := mkAnoServer { as_ver : PossessionVerifier; as_grace : Z; as_maxBody : Z }.

(** [NewServer]: [None] is a configuration error. *)
Definition NewAnoServer (ano : bool) (verifier : option PossessionVerifier) (grace maxBody : Z) : option AnoServer :=
  if negb ano then None
  else match verifier with
  | None => None
  | Some ver =>
      let grace := if grace =? 0 then DefaultResponseGrace else grace in
      if (grace <? 0) || (maxResponseGrace <? grace) then None
      else
        let maxBody := if maxBody =? 0 then DefaultMaxPayloadBytes else maxBody in
        if maxBody <? 0 then None else Some (mkAnoServer ver grace maxBody)
  end.

(** [toWire] and [wireReport.add]; [toPEP] is the same record. *)
Definition toWire (r : Report) : RewriteReport :=
  mkRewriteReport (rp_Leaves r) (rp_MaskedPath r) (rp_MaskedClassifier r) (rp_MaskedDefault r) (rp_ClassifierFaults r) (rp_Spans r) (rp_Restored r).
Definition wire_zero : RewriteReport := mkRewriteReport 0 0 0 0 0 0 0.
Definition wire_add (a b : RewriteReport) : RewriteReport :=
  mkRewriteReport (rw_Leaves a + rw_Leaves b) (rw_MaskedPath a + rw_MaskedPath b) (rw_MaskedClassifier a + rw_MaskedClassifier b)
    (rw_MaskedDefault a + rw_MaskedDefault b) (rw_ClassifierFaults a + rw_ClassifierFaults b) (rw_Spans a + rw_Spans b) (rw_Restored a + rw_Restored b).

Inductive ano_response :=
  | AnoPayload (out : bytes) (rep : RewriteReport)   (* 200 *)
  | AnoClosed                                        (* 204 *)
  | AnoHealth (exchanges : Z)                        (* 200 *)
  | AnoRefused (status : Z) (code : string)
  | AnoNoRoute.                                      (* 404 or 405, by the multiplexer *)

(** [writeAnoErr]. *)
Definition writeAnoErr (e : ano_error) : ano_response :=
  match e with
  | ErrUnparsable => AnoRefused 422 "unparsable"
  | ErrReservedToken => AnoRefused 422 "reserved-token"
  | ErrUnknownPlaceholder => AnoRefused 422 "unknown-placeholder"
  | ErrAnoTooLarge => AnoRefused 413 "too-large"
  | ErrVaultSaturated | ErrTooManyEntries => AnoRefused 503 "saturated"
  | ErrExchangeUnknown => AnoRefused 404 "exchange-unknown"
  | ErrBadExpiry => AnoRefused 401 "token-expired"
  | _ => AnoRefused 500 "internal"
  end.

(** What a request meets: the clock of [Fresh], of [Open] and of each call to the engine, and the random source. *)
Record ano_env := mkAnoEnv { ae_fresh : Z; ae_open : Z; ae_dkey : option bytes; ae_now : nat → Z }.

Section server.
Context `{Crypto, Regexp, Cose, MapOrder, SliceSort}.
Context (others : nat → vault * trace → vault * trace).

(** [auth]: the identifier of the exchange and the token, or the refusal. *)
Definition auth (s : AnoServer) (fresh : bool) (now : Z) (r : HttpRequest) : ano_response + (string * Token) :=
  match bearer_token (Header_Get (hr_Header r) DefaultTokenHeader) with
  | None => inl (AnoRefused 401 "token-invalid")
  | Some b64 =>
      match b64_decode (sb b64) with
      | None => inl (AnoRefused 401 "token-invalid")
      | Some wire =>
          match pv_Verify (as_ver s) wire with
          | inl _ => inl (AnoRefused 401 "token-invalid")
          | inr tok =>
              if fresh && negb (pv_Fresh now (Some tok)) then inl (AnoRefused 401 "token-expired")
              else inr (hex (t_JTI tok), tok)
          end
      end
  end.

(** [readBody]; a request of net/http always has a body, which may be empty. *)
Definition readBody (max : Z) (r : HttpRequest) : ano_response + bytes :=
  match hr_Body r with
  | NoBody => inr []
  | BodyOf content broken =>
      match read_limited max content broken with
      | ReadFailed => inl (AnoRefused 400 "unreadable")
      | ReadTooLong => inl (AnoRefused 413 "too-large")
      | ReadAll body => inr body
      end
  end.

(** [open]: the exchange lives for the token and the grace. *)
Definition server_open (s : AnoServer) (e : ano_env) (id : string) (tok : Token) (vt : vault * trace) : option ano_error * (vault * trace) :=
  let '(r, v1, t1) := vault_open id (of_Unix (t_Exp tok) + as_grace s) (ae_open e) (ae_dkey e) vt.1 vt.2 in
  (match r with inl e => Some e | inr _ => None end, (v1, t1)).

Definition handleMask (s : AnoServer) (a : Ano) (e : ano_env) (r : HttpRequest) (vt : vault * trace) : ano_response * (vault * trace) :=
  match auth s true (ae_fresh e) r with
  | inl resp => (resp, vt)
  | inr (id, tok) =>
      match readBody (as_maxBody s) r with
      | inl resp => (resp, vt)
      | inr body =>
          match server_open s e id tok (others 0 vt) with
          | (Some err, vt1) => (writeAnoErr err, vt1)
          | (None, vt1) =>
              let vt1 := others 1 vt1 in
              match MaskJSON a id body (ae_now e 0) vt1.1 vt1.2 with
              | (inl err, _, v2, t2) => (writeAnoErr err, (v2, t2))
              | (inr out, rep, v2, t2) => (AnoPayload out (toWire rep), (v2, t2))
              end
          end
      end
  end.

(** The loop over the values of a query: what is masked so far and the reports. *)
Fixpoint mask_pairs (a : Ano) (e : ano_env) (id : string) (i : nat) (pairs : list (string * bytes))
    (masked : gmap string (list bytes)) (total : RewriteReport) (vt : vault * trace) :
    (ano_error + gmap string (list bytes) * RewriteReport) * (vault * trace) :=
  match pairs with
  | [] => (inr (masked, total), vt)
  | (n, v) :: pairs =>
      let vt := others (2 + i) vt in
      match MaskField a id ["query"; n] v (ae_now e i) vt.1 vt.2 with
      | (inl err, _, v1, t1) => (inl err, (v1, t1))
      | (inr mv, rep, v1, t1) => mask_pairs a e id (S i) pairs (Values_Add masked (n, mv)) (wire_add total (toWire rep)) (v1, t1)
      end
  end.

Definition handleMaskQuery (s : AnoServer) (a : Ano) (e : ano_env) (r : HttpRequest) (vt : vault * trace) : ano_response * (vault * trace) :=
  match auth s true (ae_fresh e) r with
  | inl resp => (resp, vt)
  | inr (id, tok) =>
      match readBody maxQueryBytes r with
      | inl resp => (resp, vt)
      | inr body =>
          match server_open s e id tok (others 0 vt) with
          | (Some err, vt1) => (writeAnoErr err, vt1)
          | (None, vt1) =>
              match ParseQuery body with
              | None => (AnoRefused 422 "unparsable", vt1)
              | Some values =>
                  match mask_pairs a e id 0 (values_pairs values) ∅ wire_zero vt1 with
                  | (inl err, vt2) => (writeAnoErr err, vt2)
                  | (inr (masked, total), vt2) => (AnoPayload (Values_Encode masked) total, vt2)
                  end
              end
          end
      end
  end.

Definition handleUnmask (s : AnoServer) (a : Ano) (e : ano_env) (r : HttpRequest) (vt : vault * trace) : ano_response * (vault * trace) :=
  match auth s false (ae_fresh e) r with
  | inl resp => (resp, vt)
  | inr (id, _) =>
      match readBody (as_maxBody s) r with
      | inl resp => (resp, vt)
      | inr body =>
          let vt := others 0 vt in
          match Unmask a id body (ae_now e 0) vt.1 vt.2 with
          | (inl err, _, v1, t1) => (writeAnoErr err, (v1, t1))
          | (inr out, rep, v1, t1) => (AnoPayload out (toWire rep), (v1, t1))
          end
      end
  end.

Definition handleClose (s : AnoServer) (e : ano_env) (r : HttpRequest) (vt : vault * trace) : ano_response * (vault * trace) :=
  match auth s false (ae_fresh e) r with
  | inl resp => (resp, vt)
  | inr (id, _) => let vt := others 0 vt in (AnoClosed, (vault_close id vt.1, vt.2))
  end.

(** [Handler]: the routes of the multiplexer. *)
Definition ano_serve (s : AnoServer) (a : Ano) (e : ano_env) (r : HttpRequest) (vt : vault * trace) : ano_response * (vault * trace) :=
  let path := bs (u_Path (hr_URL r)) in
  if bool_decide (hr_Method r = "POST") then
    if bool_decide (path = "/v1/mask") then handleMask s a e r vt
    else if bool_decide (path = "/v1/mask-query") then handleMaskQuery s a e r vt
    else if bool_decide (path = "/v1/unmask") then handleUnmask s a e r vt
    else if bool_decide (path = "/v1/close") then handleClose s e r vt
    else (AnoNoRoute, vt)
  else if bool_decide (hr_Method r ∈ ["GET"; "HEAD"] ∧ path = "/healthz") then
    let vt := others 0 vt in let '(n, v1) := vault_size (ae_now e 0) vt.1 in (AnoHealth n, (v1, vt.2))
  else (AnoNoRoute, vt).
End server.

(** ** The audit of a rewriting *)

(** The errors of the client, with what the server answered. *)
Inductive svc_error := ErrUnsupported | ErrEncodedBody | ErrBodyTooLarge | SvcError (status : Z) (code : string) | ErrAnoUnreachable | ErrBodyRead.

(** [OutcomeCode]. *)
Definition OutcomeCode (e : option svc_error) : string :=
  match e with
  | None => "ok"
  | Some (SvcError _ code) => if bool_decide (code = "") then "error" else code
  | Some ErrEncodedBody => "encoded"
  | Some ErrUnsupported => "unsupported"
  | Some ErrBodyTooLarge => "too-large"
  | Some (ErrAnoUnreachable | ErrBodyRead) => "error"
  end.

(** [AuditRecord]. *)
Definition u32be (n : Z) : bytes := be 4 (n mod 2 ^ 32).
Definition AuditRecord (ev : RewriteEvent svc_error) : bytes :=
  let outcome := OutcomeCode (re_Err ev) in
  let rep := re_Report ev in
  sb "TBAN1" ++ [re_Op ev] ++ re_JTI ev ++ [z2b (Z.of_nat (slen outcome))] ++ sb outcome ++
  concat (u32be <$> [rw_Leaves rep; rw_MaskedPath rep; rw_MaskedClassifier rep; rw_MaskedDefault rep; rw_ClassifierFaults rep; rw_Spans rep; rw_Restored rep]).

Inductive audit_error := ErrAuditCell | ErrAuditSalt | ErrAuditSink | ErrAuditJournal | ErrAuditAppend (e : append_error).

(** [AppendAuditLeaf]; [leaves] and [store] say whether they are there. *)
Definition AppendAuditLeaf `{Crypto, Env} (leaves store : bool) (cellID : string) (salt : bytes) (ev : RewriteEvent svc_error) (at_ : Z) (t : trace) :
    option audit_error * trace :=
  if bool_decide (cellID = "") then (Some ErrAuditCell, t)
  else if (length salt <? 16)%nat then (Some ErrAuditSalt, t)
  else if negb leaves then (Some ErrAuditSink, t)
  else if negb store then (Some ErrAuditJournal, t)
  else let '(r, t1) := AppendSealed KindTelemetry cellID salt (AuditRecord ev) (UnixNano at_) t in (ErrAuditAppend <$> r, t1).

(** ** The requests as operations on the table *)

Definition ano_op_id (op : ano_op) : option string :=
  match op with
  | OpOpen id _ _ _ | OpClose id | OpMaskJSON id _ _ | OpMaskField id _ _ _ | OpUnmask id _ _ => Some id
  | OpExchanges _ => None
  end.

Section operations.
Context `{Crypto, Regexp, Cose, MapOrder, SliceSort}.

(** The token that a request shows, when it is authentic. *)
Definition shown_token (s : AnoServer) (r : HttpRequest) : option Token :=
  b64 ← bearer_token (Header_Get (hr_Header r) DefaultTokenHeader);
  wire ← b64_decode (sb b64);
  match pv_Verify (as_ver s) wire with inr tok => Some tok | inl _ => None end.

(** An operation that the request makes: on the exchange of its token, at one of its readings of the clock; a close only
    when it is asked for. *)
Definition op_of_request (s : AnoServer) (e : ano_env) (r : HttpRequest) (op : ano_op) : Prop :=
  (∀ now, ano_op_now op = Some now → now = ae_open e ∨ ∃ k, now = ae_now e k) ∧
  (∀ id, op = OpClose id → bs (u_Path (hr_URL r)) = "/v1/close") ∧
  ∀ id, ano_op_id op = Some id → ∃ tok, shown_token s r = Some tok ∧ id = hex (t_JTI tok).

(** The environment of a handler is made of operations that satisfy [P]. *)
Definition rely (a : Ano) (P : ano_op → Prop) (others : nat → vault * trace → vault * trace) : Prop :=
  ∀ k vt, ∃ ops, Forall P ops ∧ others k vt = ano_run a ops vt.

Definition runs (a : Ano) (P : ano_op → Prop) (vt vt' : vault * trace) : Prop := ∃ ops, Forall P ops ∧ vt' = ano_run a ops vt.

Lemma runs_refl a P vt : runs a P vt vt.
Proof. exists []. done. Qed.
Lemma runs_trans a P vt1 vt2 vt3 : runs a P vt1 vt2 → runs a P vt2 vt3 → runs a P vt1 vt3.
Proof.
  intros (o1 & F1 & ->) (o2 & F2 & ->). exists (o1 ++ o2). split; [by apply Forall_app|]. unfold ano_run. by rewrite foldl_app.
Qed.
Lemma runs_step a P op vt : P op → runs a P vt (ano_step a op vt).
Proof. intros HP. exists [op]. split; [by constructor|done]. Qed.
Lemma runs_others a P others k vt : rely a P others → runs a P vt (others k vt).
Proof. intros HR. destruct (HR k vt) as (ops & ? & ?). by exists ops. Qed.

Lemma auth_inr s fresh now r id tok :
  auth s fresh now r = inr (id, tok) → shown_token s r = Some tok ∧ id = hex (t_JTI tok) ∧ (fresh = true → now < of_Unix (t_Exp tok)).
Proof.
  unfold auth, shown_token. destruct (bearer_token _) as [b64|]; [|done]. cbn. destruct (b64_decode _) as [wire|]; [|done]. cbn.
  destruct (pv_Verify _ wire) as [e|tk]; [done|]. destruct (fresh && negb (now <? of_Unix (t_Exp tk))) eqn:EF; [done|]. intros [= <- <-].
  split_and!; [done..|]. intros ->. cbn in EF. apply negb_false_iff in EF. by apply Z.ltb_lt.
Qed.

(** The operations on the table, as steps of the service. *)
Lemma server_open_step s a e id tok vt :
  (server_open s e id tok vt).2 = ano_step a (OpOpen id (of_Unix (t_Exp tok) + as_grace s) (ae_open e) (ae_dkey e)) vt.
Proof. destruct vt as [v t]. unfold server_open. cbn. by destruct (vault_open _ _ _ _ _ _) as [[r v1] t1]. Qed.
Lemma MaskJSON_step a id body now vt r rep v t : MaskJSON a id body now vt.1 vt.2 = (r, rep, v, t) → (v, t) = ano_step a (OpMaskJSON id body now) vt.
Proof. destruct vt as [v0 t0]. cbn. by intros ->. Qed.
Lemma MaskField_step a id path value now vt r rep v t : MaskField a id path value now vt.1 vt.2 = (r, rep, v, t) → (v, t) = ano_step a (OpMaskField id path value now) vt.
Proof. destruct vt as [v0 t0]. cbn. by intros ->. Qed.
Lemma Unmask_step a id body now vt r rep v t : Unmask a id body now vt.1 vt.2 = (r, rep, v, t) → (v, t) = ano_step a (OpUnmask id body now) vt.
Proof. destruct vt as [v0 t0]. cbn. by intros ->. Qed.

Section guarantee.
Context (others : nat → vault * trace → vault * trace) (s : AnoServer) (a : Ano) (e : ano_env) (r : HttpRequest) (P : ano_op → Prop).
Context (HR : rely a P others) (HP : ∀ op, op_of_request s e r op → P op).

Lemma open_runs fresh now id tok vt : auth s fresh now r = inr (id, tok) → runs a P vt (server_open s e id tok (others 0%nat vt)).2.
Proof.
  intros (Hs & -> & _)%auth_inr. rewrite (server_open_step s a). eapply runs_trans; [by apply (runs_others _ _ others 0)|]. apply runs_step, HP.
  split_and!; [cbn; intros n [= <-]; auto|done|]. cbn. intros i [= <-]. eauto.
Qed.

Lemma mask_pairs_runs fresh now id tok i pairs masked total vt :
  auth s fresh now r = inr (id, tok) → runs a P vt (mask_pairs others a e id i pairs masked total vt).2.
Proof.
  intros HA. pose proof (auth_inr _ _ _ _ _ _ HA) as (Hs & -> & _). clear HA.
  revert i masked total vt. induction pairs as [|[n v] pairs IH]; intros i masked total vt; [apply runs_refl|]. cbn [mask_pairs].
  destruct (MaskField _ _ _ _ _ _ _) as [[[res rep] v1] t1] eqn:EM. pose proof (MaskField_step _ _ _ _ _ _ _ _ _ _ EM) as HS.
  assert (runs a P vt (v1, t1)) as HV.
  { eapply runs_trans; [by apply (runs_others _ _ others (2 + i))|]. rewrite HS. apply runs_step, HP.
    split_and!; [cbn; intros now' [= <-]; right; by exists i|done|]. cbn. intros j [= <-]. eauto. }
  destruct res as [err|mv]; [done|]. by eapply runs_trans.
Qed.

(** Whatever a request does to the table is a sequence of its own operations, on the exchange of its token, among those of the
    others. *)
Lemma serve_runs vt : runs a P vt (ano_serve others s a e r vt).2.
Proof.
  unfold ano_serve. case_bool_decide as Hmeth.
  - case_bool_decide as Hp1; [|case_bool_decide as Hp2; [|case_bool_decide as Hp3; [|case_bool_decide as Hp4]]]; [..|apply runs_refl].
    + unfold handleMask. destruct (auth _ _ _ _) as [resp|[id tok]] eqn:EA; [apply runs_refl|]. destruct (readBody _ _) as [resp|body]; [apply runs_refl|].
      pose proof (open_runs _ _ _ _ vt EA) as HO. destruct (server_open _ _ _ _ _) as [[err|] vt1]; [done|]. cbn in HO.
      destruct (MaskJSON _ _ _ _ _ _) as [[[res rep] v2] t2] eqn:EM. pose proof (MaskJSON_step _ _ _ _ _ _ _ _ _ EM) as HS.
      assert (runs a P vt (v2, t2)) as HV.
      { eapply runs_trans; [done|]. eapply runs_trans; [by apply (runs_others _ _ others 1)|]. rewrite HS. apply runs_step, HP.
        apply auth_inr in EA as (Hs & -> & _). split_and!; [cbn; intros now' [= <-]; right; by exists 0%nat|done|]. cbn. intros j [= <-]. eauto. }
      by destruct res.
    + unfold handleMaskQuery. destruct (auth _ _ _ _) as [resp|[id tok]] eqn:EA; [apply runs_refl|]. destruct (readBody _ _) as [resp|body]; [apply runs_refl|].
      pose proof (open_runs _ _ _ _ vt EA) as HO. destruct (server_open _ _ _ _ _) as [[err|] vt1]; [done|]. cbn in HO. destruct (ParseQuery body) as [values|]; [|done].
      pose proof (mask_pairs_runs _ _ _ _ 0 (values_pairs values) ∅ wire_zero vt1 EA) as HM.
      destruct (mask_pairs _ _ _ _ _ _ _ _ _) as [[err|[masked total]] vt2]; by eapply runs_trans.
    + unfold handleUnmask. destruct (auth _ _ _ _) as [resp|[id tok]] eqn:EA; [apply runs_refl|]. destruct (readBody _ _) as [resp|body]; [apply runs_refl|].
      destruct (Unmask _ _ _ _ _ _) as [[[res rep] v2] t2] eqn:EM. pose proof (Unmask_step _ _ _ _ _ _ _ _ _ EM) as HS.
      assert (runs a P vt (v2, t2)) as HV.
      { eapply runs_trans; [by apply (runs_others _ _ others 0)|]. rewrite HS. apply runs_step, HP.
        apply auth_inr in EA as (Hs & -> & _). split_and!; [cbn; intros now' [= <-]; right; by exists 0%nat|done|]. cbn. intros j [= <-]. eauto. }
      by destruct res.
    + unfold handleClose. destruct (auth _ _ _ _) as [resp|[id tok]] eqn:EA; [apply runs_refl|]. cbn.
      eapply runs_trans; [by apply (runs_others _ _ others 0)|].
      assert ((vault_close id (others 0%nat vt).1, (others 0%nat vt).2) = ano_step a (OpClose id) (others 0%nat vt)) as -> by by destruct (others 0%nat vt).
      apply runs_step, HP. apply auth_inr in EA as (Hs & -> & _). split_and!; [done|done|]. cbn. intros j [= <-]. eauto.
  - case_bool_decide; [|apply runs_refl].
    assert (∀ n v, vault_size (ae_now e 0) (others 0%nat vt).1 = (n, v) → (v, (others 0%nat vt).2) = ano_step a (OpExchanges (ae_now e 0)) (others 0%nat vt)) as HS
      by (intros n v; destruct (others 0%nat vt); cbn; by intros [= _ <-]).
    destruct (vault_size _ _) as [n v1] eqn:EV. cbn. rewrite (HS n v1) by done. eapply runs_trans; [by apply (runs_others _ _ others 0)|].
    apply runs_step, HP. split_and!; [cbn; intros now' [= <-]; right; by exists 0%nat|done|done].
Qed.
End guarantee.

(** ** The claims *)

(** An operation on another exchange leaves an exchange that lives as it is, and so does any at all to one that is not there. *)
Lemma step_other a op vt id ex :
  va_ex vt.1 !! id = Some ex → ano_op_id op ≠ Some id → (∀ now, ano_op_now op = Some now → now < ex_expires ex) →
  va_ex (ano_step a op vt).1 !! id = Some ex.
Proof.
  destruct vt as [v t]. intros He Hid Hnow. cbn in He.
  assert (∀ now A (m : mask_m A) id', now < ex_expires ex → id' ≠ id → va_ex (with_exchange id' now v t m).1.2 !! id = Some ex) as HW.
  { intros now A m id' Hn Hne. unfold with_exchange, vault_get. pose proof (vault_purge_kept now v id ex He Hn) as HK.
    destruct (va_ex (vault_purgeLocked now v) !! id') as [e'|]; [|done]. destruct (m _) as [res st]. cbn in *. by rewrite lookup_insert_ne. }
  destruct op as [id' expiry now dkey|id'|now|id' payload now|id' path value now|id' payload now]; cbn [ano_step ano_op_id ano_op_now] in *.
  - assert (id' ≠ id) as Hne by congruence. pose proof (vault_purge_kept now v id ex He (Hnow _ eq_refl)) as HK. unfold vault_open. destruct (_ || _); [done|].
    destruct (va_ex (vault_purgeLocked now v) !! id'); [done|]. destruct (_ <=? _); [done|]. destruct (_ <=? _); [done|]. destruct dkey; [|done].
    cbn in *. by rewrite lookup_insert_ne.
  - cbn. rewrite lookup_delete_ne by congruence. done.
  - cbn. by apply vault_purge_kept, Hnow.
  - unfold MaskJSON. destruct (too_large a payload); [done|]. specialize (HW now _ (mask_document a payload) id' (Hnow _ eq_refl) ltac:(congruence)).
    revert HW. by destruct (with_exchange _ _ _ _ _) as [[[res rep] v'] t'].
  - unfold MaskField. destruct (too_large a value); [done|]. specialize (HW now _ (mask_field a path value) id' (Hnow _ eq_refl) ltac:(congruence)).
    revert HW. by destruct (with_exchange _ _ _ _ _) as [[[res rep] v'] t'].
  - unfold Unmask. destruct (too_large a payload); [done|]. specialize (HW now _ (unmask_payload a payload) id' (Hnow _ eq_refl) ltac:(congruence)).
    revert HW. by destruct (with_exchange _ _ _ _ _) as [[[res rep] v'] t'].
Qed.

Lemma run_other a ops vt id ex :
  va_ex vt.1 !! id = Some ex → Forall (λ op, ano_op_id op ≠ Some id ∧ ∀ now, ano_op_now op = Some now → now < ex_expires ex) ops →
  va_ex (ano_run a ops vt).1 !! id = Some ex.
Proof.
  revert vt. induction ops as [|op ops IH]; intros vt He HF; [done|]. apply Forall_cons in HF as [[Hi Hn] HF]. apply IH; [|done]. by apply step_other.
Qed.

(** A request that does not show the token of the exchange [id], and reads the clock before [expires]. *)
Definition foreign_request (s : AnoServer) (id : string) (expires : Z) (er : ano_env * HttpRequest) : Prop :=
  (∀ tok, shown_token s er.2 = Some tok → hex (t_JTI tok) ≠ id) ∧ ae_open er.1 < expires ∧ ∀ k, ae_now er.1 k < expires.

(** The operations of these requests. *)
Definition issued (s : AnoServer) (reqs : list (ano_env * HttpRequest)) (op : ano_op) : Prop := ∃ er, er ∈ reqs ∧ op_of_request s er.1 er.2 op.

(** C13: An exchange is reached only with its token. Take any requests, served concurrently in any interleaving, none of which
    shows an authentic token with the identifier of the exchange: until the exchange expires they leave it exactly as it was,
    no value read, no entry added, whatever they ask and whatever token they do show. And none of them gets a payload unless it
    shows an authentic token. *)
Theorem exchange_reached_only_with_its_token others s a reqs e r vt id ex :
  rely a (issued s reqs) others → (e, r) ∈ reqs → va_ex vt.1 !! id = Some ex → Forall (foreign_request s id (ex_expires ex)) reqs →
  va_ex (ano_serve others s a e r vt).2.1 !! id = Some ex ∧
  ∀ out rep, (ano_serve others s a e r vt).1 = AnoPayload out rep → ∃ tok, shown_token s r = Some tok.
Proof.
  intros HR Hin He HF. split.
  - destruct (serve_runs others s a e r (issued s reqs) HR ltac:(intros op Hop; by exists (e, r)) vt) as (ops & Hops & ->).
    apply run_other; [done|]. eapply Forall_impl; [done|]. intros op ((e' & r') & Hin' & Hn & _ & Hid). cbn in *.
    rewrite Forall_forall in HF. destruct (HF _ Hin') as (Hf & Ho & Hk). cbn in *. split.
    + intros Hop. destruct (Hid id Hop) as (tok & Htok & ->). by apply (Hf tok).
    + intros now Hnow. destruct (Hn now Hnow) as [->|(k & ->)]; [done|apply Hk].
  - intros out rep. assert (∀ fresh now resp, auth s fresh now r = inl resp → ∀ o p, resp ≠ AnoPayload o p) as HA.
    { intros fresh now resp. unfold auth. repeat case_match; intros; by simplify_eq. }
    unfold ano_serve, handleMask, handleMaskQuery, handleUnmask, handleClose. destruct (shown_token s r) as [tok|] eqn:ES; [by exists tok|].
    assert (∀ fresh now, ∃ resp, auth s fresh now r = inl resp) as HL.
    { intros fresh now. destruct (auth s fresh now r) as [resp|[i tok]] eqn:EA; [by exists resp|]. apply auth_inr in EA as (? & _). congruence. }
    destruct (HL true (ae_fresh e)) as [r1 E1]. destruct (HL false (ae_fresh e)) as [r2 E2]. rewrite E1, E2.
    repeat case_bool_decide; cbn; try done; intros ->; [by destruct (HA _ _ _ E1 out rep)|by destruct (HA _ _ _ E1 out rep)|by destruct (HA _ _ _ E2 out rep)|by destruct (HA _ _ _ E2 out rep)].
Qed.
(** A late answer is restored. Take any state of the service and a payload that it masks for a fresh token, and any requests that
    do not close the exchange nor come after its expiry. Whoever then shows a token with the same identifier, expired or not, gets the document
    of the payload back from the masked text, or SHA-256 has a collision. *)
Theorem late_answer_restored `{!RegexpLaws} others others2 s a vt e r out rep vt1 payload w tok ex vt2 e2 r2 tok2 :
  vault_ok a vt.1 → an_maxEntries a < 10 ^ 9 → rely a (λ _, True) others →
  handleMask others s a e r vt = (AnoPayload out rep, vt1) → shown_token s r = Some tok → readBody (as_maxBody s) r = inr payload →
  json_document payload w → all_strings (separated_spans a) w → too_large a (print w) = false →
  va_ex vt1.1 !! hex (t_JTI tok) = Some ex → runs a (spares (hex (t_JTI tok)) (ex_expires ex)) vt1 vt2 →
  shown_token s r2 = Some tok2 → t_JTI tok2 = t_JTI tok → readBody (as_maxBody s) r2 = inr out →
  rely a (spares (hex (t_JTI tok)) (ex_expires ex)) others2 → ae_now e2 0 < ex_expires ex →
  (∃ rep2, (handleUnmask others2 s a e2 r2 vt2).1 = AnoPayload (print w) rep2) ∨ sha256_collision.
Proof.
  intros Hok Ha HR HM Hs HB HD Hsep HL Hex HRun Hs2 Hj HB2 HR2 Hn. unfold handleMask in HM.
  destruct (auth s true (ae_fresh e) r) as [resp|[id tk]] eqn:EA.
  { unfold auth in EA. repeat case_match; by simplify_eq. }
  apply auth_inr in EA as (Hs' & -> & _). rewrite Hs in Hs'. injection Hs' as <-. rewrite HB in HM.
  assert (∀ vt0 vt3, vault_ok a vt0.1 → runs a (λ _, True) vt0 vt3 → vault_ok a vt3.1) as Hrun by (intros vt0 vt3 Hv (ops & _ & ->); by apply run_ok).
  pose proof (server_open_step s a e (hex (t_JTI tok)) tok (others 0%nat vt)) as HO.
  destruct (server_open _ _ _ _ _) as [[err|] vt3]; [by destruct err|]. cbn in HO.
  assert (vault_ok a (others 1%nat vt3).1) as Hok3.
  { apply (Hrun vt); [done|]. eapply runs_trans; [by apply (runs_others _ _ others 0)|]. eapply runs_trans; [by apply runs_step|]. rewrite <-HO. by apply runs_others. }
  destruct (MaskJSON _ _ _ _ _ _) as [[[[err|o] rp] v4] t4] eqn:EM; [by destruct err|]. injection HM as -> _ <-.
  destruct (HR2 0%nat vt2) as (ops2 & HF2 & HO2). destruct HRun as (ops1 & HF1 & ->).
  unfold handleUnmask. destruct (auth s false (ae_fresh e2) r2) as [resp|[id2 tk2]] eqn:EA2.
  { exfalso. revert Hs2 EA2. unfold shown_token, auth. destruct (bearer_token _); [|done]. cbn. destruct (b64_decode _); [|done]. cbn. by destruct (pv_Verify _ _). }
  apply auth_inr in EA2 as (Hs2' & -> & _). rewrite Hs2 in Hs2'. injection Hs2' as <-. rewrite HB2, Hj.
  destruct (ano_run a (ops1 ++ ops2) (v4, t4)) as [v5 t5] eqn:E5.
  assert (others2 0%nat (ano_run a ops1 (v4, t4)) = (v5, t5)) as -> by (rewrite HO2, <-E5; unfold ano_run; by rewrite foldl_app).
  pose proof (mask_restored a _ _ (hex (t_JTI tok)) payload (ae_now e 0) out rp v4 t4 w (ops1 ++ ops2) v5 t5 (ae_now e2 0) ex Hok3 Ha EM HD Hsep HL Hex
    ltac:(by apply Forall_app) E5 Hn) as [HU|?]; [left|by right]. cbn [fst snd].
  destruct (Unmask _ _ _ _ _ _) as [[[res rp2] v6] t6]. cbn in HU. subst res. by eexists.
Qed.
End operations.
