(* ===== verification/AnoClient.v ===== *)
(** The client of the anonymiser in the blocking proxy: [src/ano/svc/client.go], and its wiring in pepd, [src/pep/cmd/pepd/proxy_ano.go].

    The client is the [Rewriter] of the proxy. A call reaches the service of [AnoService] through a socket that may fail before or
    after the service has served it. Deadlines of the calls are failures of the socket. *)
From S2P Require Import Prelude.
From S2P Require Import Hex.
From S2P Require Import Json.
From S2P Require Import Leaf.
From S2P Require Import Effects.
From S2P Require Import GoStrings.
From S2P Require Import GoUrl.
From S2P Require Import GoJson.
From S2P Require Import Token.
From S2P Require Import Validator.
From S2P Require Import Listener.
From S2P Require Import Proxy.
From S2P Require Import Ano.
From S2P Require Import Masking.
From S2P Require Import Anonymity.
From S2P Require Import AnoService.

Local Open Scope Z_scope.

(** How a call over the socket ends. *)
Inductive socket_outcome := SocketDown | AnswerLost | SocketOK.

(** What a rewriting meets, by the number of the call: the socket, the service, and the other requests to it. *)
Record client_env := mkClientEnv {
  ce_socket : nat → socket_outcome; ce_env : nat → ano_env; ce_others : nat → nat → vault * trace → vault * trace }.

(** [encoded]. *)
Definition encoded (h : Header) : bool :=
  let e := Header_Get h "Content-Encoding" in bool_decide (e ≠ "" ∧ e ≠ "identity").

Definition client_maxBody : Z := DefaultMaxPayloadBytes.

(** [readAll]. *)
Definition client_readAll (content : bytes) (broken : bool) : svc_error + bytes :=
  match read_limited client_maxBody content broken with
  | ReadFailed => inl ErrBodyRead
  | ReadTooLong => inl ErrBodyTooLarge
  | ReadAll b => inr b
  end.

(** The request of [do]. *)
Definition client_request (path : string) (wire body : bytes) : HttpRequest :=
  mkHttpRequest "POST" (mkURL (sb "http") [] (sb path) [] false [])
    (Header_Set "Content-Type" "application/octet-stream" (Header_Set DefaultTokenHeader (bs (bearer ++ b64_encode wire)) ∅))
    (BodyOf body false) (Z.of_nat (length body)).

Section client.
Context `{Crypto, Regexp, Cose, MapOrder, SliceSort}.
Context (s : AnoServer) (a : Ano).

(** [do]. The body of the answer to a probe of health is JSON. *)
Definition client_do (x : client_env) (k : nat) (path : string) (wire body : bytes) (vt : vault * trace) :
    (svc_error + bytes * RewriteReport) * (vault * trace) :=
  let bounded (out : bytes) (rep : RewriteReport) : svc_error + bytes * RewriteReport :=
    if client_maxBody <? Z.of_nat (length out) then inl ErrBodyTooLarge else inr (out, rep) in
  match ce_socket x k with
  | SocketDown => (inl ErrAnoUnreachable, vt)
  | o =>
      let '(resp, vt1) := ano_serve (ce_others x k) s a (ce_env x k) (client_request path wire body) vt in
      (match o, resp with
       | AnswerLost, _ => inl ErrAnoUnreachable
       | _, AnoPayload out rep => bounded out rep
       | _, AnoHealth n => bounded ([Byte.x7b; quote] ++ sb "exchanges" ++ [quote; Byte.x3a] ++ sb (Itoa n) ++ [Byte.x7d; newline]) wire_zero
       | _, AnoClosed => inl (SvcError 204 "")
       | _, AnoRefused status code => inl (SvcError status code)
       | _, AnoNoRoute => inl (SvcError 404 "")
       end, vt1)
  end.

(** The body of a request, masked in place. *)
Definition rewrite_body (x : client_env) (wire : bytes) (r : HttpRequest) (vt : vault * trace) :
    (svc_error + RewriteReport * HttpRequest) * (vault * trace) :=
  match hr_Body r with
  | NoBody => (inr (wire_zero, r), vt)
  | BodyOf content broken =>
      match client_readAll content broken with
      | inl e => (inl e, vt)
      | inr [] => (inr (wire_zero, set_body NoBody 0 r), vt)
      | inr body =>
          if encoded (hr_Header r) then (inl ErrEncodedBody, vt)
          else match client_do x 0 "/v1/mask" wire body vt with
          | (inl e, vt1) => (inl e, vt1)
          | (inr (out, rep), vt1) =>
              (inr (wire_add wire_zero rep,
                    set_header (Header_Set "Content-Length" (Itoa (Z.of_nat (length out))) (hr_Header r)) (set_body (BodyOf out false) (Z.of_nat (length out)) r)), vt1)
          end
      end
  end.

Definition set_query (q : bytes) (u : URL) : URL := mkURL (u_Scheme u) (u_Opaque u) (u_Path u) (u_RawPath u) (u_ForceQuery u) q.

(** [RewriteRequest]. *)
Definition client_RewriteRequest (x : client_env) (wire : bytes) (r : HttpRequest) (vt : vault * trace) :
    RewriteReport * option svc_error * HttpRequest * (vault * trace) :=
  if bool_decide (Header_Get (hr_Header r) "Upgrade" ≠ "") then (wire_zero, Some ErrUnsupported, r, vt)
  else match rewrite_body x wire r vt with
  | (inl e, vt1) => (wire_zero, Some e, r, vt1)
  | (inr (total, r1), vt1) =>
      if bool_decide (u_RawQuery (hr_URL r1) = []) then (total, None, r1, vt1)
      else match client_do x 1 "/v1/mask-query" wire (u_RawQuery (hr_URL r1)) vt1 with
      | (inl e, vt2) => (total, Some e, r1, vt2)
      | (inr (out, rep), vt2) => (wire_add total rep, None, set_url (set_query out (hr_URL r1)) r1, vt2)
      end
  end.

(** [RewriteResponse]. *)
Definition client_RewriteResponse (x : client_env) (wire : bytes) (resp : HttpResponse) (vt : vault * trace) :
    RewriteReport * option svc_error * HttpResponse * (vault * trace) :=
  if hs_Status resp =? 101 then (wire_zero, Some ErrUnsupported, resp, vt)
  else match hs_Body resp with
  | NoBody => (wire_zero, None, resp, vt)
  | BodyOf content broken =>
      match client_readAll content broken with
      | inl e => (wire_zero, Some e, resp, vt)
      | inr [] => (wire_zero, None, mkHttpResponse (hs_Status resp) (hs_Header resp) NoBody (hs_ContentLength resp), vt)
      | inr body =>
          if encoded (hs_Header resp) then (wire_zero, Some ErrEncodedBody, resp, vt)
          else match client_do x 0 "/v1/unmask" wire body vt with
          | (inl e, vt1) => (wire_zero, Some e, resp, vt1)
          | (inr (out, rep), vt1) =>
              (wire_add wire_zero rep, None,
               mkHttpResponse (hs_Status resp) (Header_Set "Content-Length" (Itoa (Z.of_nat (length out))) (hs_Header resp)) (BodyOf out false) (Z.of_nat (length out)), vt1)
          end
      end
  end.

(** [Done]. *)
Definition client_Done (x : client_env) (wire : bytes) (vt : vault * trace) : vault * trace := (client_do x 0 "/v1/close" wire [] vt).2.

(** The client is a rewriter of the proxy. *)
Definition client_rewriter : Rewriter (vault * trace) client_env svc_error := {|
  RewriteRequest x wire r vt t := let '(rep, e, r1, vt1) := client_RewriteRequest x wire r vt in (rep, e, r1, vt1, t);
  RewriteResponse x wire resp vt t := let '(rep, e, resp1, vt1) := client_RewriteResponse x wire resp vt in (rep, e, resp1, vt1, t);
  Done x wire vt t := (client_Done x wire vt, t) |}.
End client.

(** ** The wiring in pepd *)

Definition defaultAnoTimeout : Z := 3 * second.

(** The start of pepd ends with no anonymiser, a rewriter with its deadline, or a refusal. *)
Inductive apply_ano := AnoAbsent | AnoPlugged (timeout : Z) | AnoRefuses.

(** The probes of health, until one answers or the time is up. *)
Fixpoint ano_probe (probes : list (bool * bool)) : bool :=
  match probes with
  | [] => false
  | (healthy, late) :: probes => if healthy : bool then true else if late : bool then false else ano_probe probes
  end.

(** [applyAno]; a probe is whether it answered, and whether its time was up. *)
Definition applyAno (getenv : string → string) (store : bool) (probes : list (bool * bool)) : apply_ano :=
  if bool_decide (getenv "TBP_PROXY_ANO_SOCKET" = "") then
    if bool_decide (getenv "TBP_PROXY_ANO_TIMEOUT_MS" = "") then AnoAbsent else AnoRefuses
  else if negb store then AnoRefuses
  else
    let v := getenv "TBP_PROXY_ANO_TIMEOUT_MS" in
    match (if bool_decide (v = "") then Some defaultAnoTimeout
           else ms ← Atoi v; if (ms <? 100) || (30000 <? ms) then None else Some (ms * millisecond)) with
    | None => AnoRefuses
    | Some timeout => if ano_probe probes then AnoPlugged timeout else AnoRefuses
    end.

(** The [OnRewrite] that it sets. *)
Definition ano_onRewrite `{Crypto, Env} (cellID : string) (salt : bytes) (at_ : Z) (ev : RewriteEvent svc_error) (t : trace) : bool * trace :=
  let '(e, t1) := AppendAuditLeaf true true cellID salt ev at_ t in (bool_decide (e ≠ None), t1).

(** ** What a call does *)

Lemma Header_Get_Set h k v : Header_Get (Header_Set k v h) k = v.
Proof. unfold Header_Get, Header_Set. by rewrite lookup_insert_eq. Qed.
Lemma Header_Get_Set_ne h k k' v : CanonicalHeaderKey k ≠ CanonicalHeaderKey k' → Header_Get (Header_Set k v h) k' = Header_Get h k'.
Proof. intros Hne. unfold Header_Get, Header_Set. by rewrite lookup_insert_ne. Qed.

Lemma bearer_token_of x : bearer_token (bs (bearer ++ x)) = Some (bs x).
Proof.
  unfold bearer_token, has_prefix. rewrite sb_bs, bool_decide_true by by eexists. by rewrite drop_app_length.
Qed.

Section client_facts.
Context `{Crypto, Regexp, Cose, MapOrder, SliceSort}.
Context (s : AnoServer) (a : Ano).

Lemma client_request_token path wire body :
  shown_token s (client_request path wire body) = match pv_Verify (as_ver s) wire with inr tok => Some tok | inl _ => None end.
Proof.
  unfold shown_token. assert (Header_Get (hr_Header (client_request path wire body)) DefaultTokenHeader = bs (bearer ++ b64_encode wire)) as ->.
  { unfold client_request. cbn [hr_Header]. rewrite Header_Get_Set_ne by by vm_compute. apply Header_Get_Set. }
  rewrite bearer_token_of. cbn [mbind option_bind]. by rewrite sb_bs, b64_roundtrip.
Qed.

(** A payload is masked under the identifier of the token, by the engine, in some state of the table. *)
Definition masked_by (wire body out : bytes) (rep : RewriteReport) : Prop :=
  ∃ tok now vt rp v t, pv_Verify (as_ver s) wire = inr tok ∧ MaskJSON a (hex (t_JTI tok)) body now vt.1 vt.2 = (inr out, rp, v, t) ∧ rep = toWire rp.

Lemma read_client max path wire body b : readBody max (client_request path wire body) = inr b → b = body.
Proof. unfold readBody, client_request, read_limited. cbn [hr_Body]. destruct (_ <? _); [done|]. by intros [= <-]. Qed.

Lemma do_mask x k wire body vt out rep vt1 :
  client_do s a x k "/v1/mask" wire body vt = (inr (out, rep), vt1) → masked_by wire body out rep.
Proof.
  unfold client_do. change (ano_serve (ce_others x k) s a (ce_env x k) (client_request "/v1/mask" wire body) vt)
    with (handleMask (ce_others x k) s a (ce_env x k) (client_request "/v1/mask" wire body) vt).
  destruct (ce_socket x k); [done|by destruct (handleMask _ _ _ _ _ _)|].
  unfold handleMask. destruct (auth _ _ _ _) as [resp|[id tok]] eqn:EA; [intros [= E _]; exfalso|].
  { revert EA. unfold auth. repeat case_match; intros; by simplify_eq/=. }
  apply auth_inr in EA as (Hs & -> & _). rewrite client_request_token in Hs.
  destruct (pv_Verify (as_ver s) wire) as [e|tk] eqn:EV; [done|]. injection Hs as ->.
  destruct (readBody _ _) as [resp|b] eqn:EB; [|apply read_client in EB as ->].
  { revert EB. unfold readBody, client_request, read_limited. cbn [hr_Body]. destruct (_ <? _); [|done]. by intros [= <-]. }
  destruct (server_open _ _ _ _ _) as [[err|] vt2]; [by destruct err|].
  destruct (MaskJSON _ _ _ _ _ _) as [[[[err|o] rp] v] t] eqn:EM; [by destruct err|].
  destruct (_ <? _); [done|]. intros [= <- <- _]. unfold masked_by. eauto 10.
Qed.

(** The body that is sent, from the one that came: none for none or an empty one, else its masked text. *)
Definition body_masked (wire : bytes) (b sent : http_body) : Prop :=
  sent = NoBody ∧ (b = NoBody ∨ b = BodyOf [] false) ∨
  ∃ body out rep, b = BodyOf body false ∧ sent = BodyOf out false ∧ masked_by wire body out rep.

(** ** Queries *)

(** The values of a name, masked one by one. *)
Definition masked_value (wire : bytes) (n : string) (v m : bytes) : Prop :=
  ∃ tok now vt rp v' t', pv_Verify (as_ver s) wire = inr tok ∧ MaskField a (hex (t_JTI tok)) ["query"; n] v now vt.1 vt.2 = (inr m, rp, v', t').

(** The same names, with masked values in the same order. *)
Definition masked_query (wire query out : bytes) : Prop :=
  ∃ values masked, ParseQuery query = Some values ∧ ParseQuery out = Some masked ∧ dom masked = dom values ∧
    ∀ n vs, values !! n = Some vs → ∃ ms, masked !! n = Some ms ∧ Forall2 (masked_value wire n) vs ms.

(** The query that is sent: none for none, else the same names with masked values. *)
Definition query_masked (wire query sent : bytes) : Prop :=
  query = [] ∧ sent = [] ∨ masked_query wire query sent.

Lemma mask_pairs_inr others e id i pairs masked total vt masked' total' vt' wire tok :
  pv_Verify (as_ver s) wire = inr tok → id = hex (t_JTI tok) →
  mask_pairs others a e id i pairs masked total vt = (inr (masked', total'), vt') →
  ∃ pairs', masked' = foldl Values_Add masked pairs' ∧ Forall2 (λ p q, p.1 = q.1 ∧ masked_value wire p.1 p.2 q.2) pairs pairs'.
Proof.
  intros HV ->. revert i masked total vt. induction pairs as [|[n v] pairs IH]; intros i masked total vt; cbn [mask_pairs].
  { intros [= <- _ _]. by exists []. }
  destruct (MaskField _ _ _ _ _ _ _) as [[[[err|mv] rep] v1] t1] eqn:EM; [done|]. intros (ps & -> & HF)%IH. exists ((n, mv) :: ps).
  split; [done|]. constructor; [|done]. split; [done|]. unfold masked_value. cbn. eauto 10.
Qed.

(** Pairs that follow the names of the entries are pairs of entries. *)
Lemma regroup {A} (Q : string → A → A → Prop) (es : list (string * list A)) pairs :
  Forall2 (λ p q, p.1 = q.1 ∧ Q p.1 p.2 q.2) (es ≫= λ e, (λ v, (e.1, v)) <$> e.2) pairs →
  ∃ es', pairs = (es' ≫= λ e, (λ v, (e.1, v)) <$> e.2) ∧ Forall2 (λ e e', e.1 = e'.1 ∧ Forall2 (Q e.1) e.2 e'.2) es es'.
Proof.
  revert pairs. induction es as [|[k vs] es IH]; intros pairs.
  { intros ->%Forall2_nil_inv_l. by exists []. }
  rewrite bind_cons. intros (p1 & p2 & HF1 & HF2 & ->)%Forall2_app_inv_l. destruct (IH p2 HF2) as (es' & -> & HE). cbn [fst snd] in *.
  assert (∃ ms, p1 = (λ v, (k, v)) <$> ms ∧ Forall2 (Q k) vs ms) as (ms & -> & Hms).
  { clear -HF1. revert p1 HF1. induction vs as [|v vs IHv]; intros p1; [intros ->%Forall2_nil_inv_l; by exists []|].
    cbn. intros ([k' m] & p2 & [[= Hk] HQ] & HF & ->)%Forall2_cons_inv_l. cbn in *. subst k'. destruct (IHv p2 HF) as (ms & -> & HM).
    exists (m :: ms). split; [done|]. by constructor. }
  exists ((k, ms) :: es'). split; [by rewrite bind_cons|]. by constructor.
Qed.

Lemma parsed_values_nonempty q m : ParseQuery q = Some m → map_Forall (λ _ vs, vs ≠ []) m.
Proof.
  unfold ParseQuery. destruct (mapM _ _) as [parts|]; [|done]. cbn. intros [= <-]. generalize (omap id parts). intros l.
  assert (∀ l m0, map_Forall (λ _ vs, vs ≠ []) m0 → map_Forall (λ _ (vs : list bytes), vs ≠ []) (foldl Values_Add m0 l)) as HF; [|by apply HF].
  clear. induction l as [|kv l IH]; intros m0 Hm; [done|]. cbn. apply IH. unfold Values_Add. apply map_Forall_insert_2; [|done]. by destruct (default _ _).
Qed.

Lemma mask_query_names others e id values total vt masked total' vt' wire tok q :
  pv_Verify (as_ver s) wire = inr tok → id = hex (t_JTI tok) → ParseQuery q = Some values →
  mask_pairs others a e id 0 (values_pairs values) ∅ total vt = (inr (masked, total'), vt') →
  masked_query wire q (Values_Encode masked).
Proof.
  intros HV Hid HQ HM. pose proof (parsed_values_nonempty _ _ HQ) as HN. eapply mask_pairs_inr in HM as (ps & -> & HF); [|done..].
  unfold values_pairs in HF. apply (regroup (masked_value wire)) in HF as (es' & -> & HE).
  assert (es'.*1 = (sorted_entries [] values).*1) as Hnames by (clear -HE; induction HE as [|x y l l' [E _] _ IH]; [done|]; cbn; by rewrite E, IH).
  assert (NoDup es'.*1) as HND by (rewrite Hnames; apply sorted_entries_NoDup).
  assert (Forall (λ e, e.2 ≠ []) es') as Hne.
  { pose proof (sorted_entries_Forall (λ e, e.2 ≠ []) [] values HN) as HS. clear -HE HS. induction HE as [|x y l l' [_ E] _ IH]; [constructor|].
    apply Forall_cons in HS as [Hx HS]. constructor; [|by apply IH]. destruct E; [done|]. done. }
  rewrite Values_fold by done. rewrite map_union_empty. exists values, (list_to_map es').
  assert (∀ n vs, values !! n = Some vs → ∃ ms, list_to_map (M := gmap string (list bytes)) es' !! n = Some ms ∧ Forall2 (masked_value wire n) vs ms) as HL.
  { intros n vs Hn. assert ((n, vs) ∈ sorted_entries [] values) as Hin by by rewrite sorted_entries_perm, elem_of_map_to_list.
    apply list_elem_of_lookup in Hin as (i & Hi). destruct (Forall2_lookup_l _ _ _ _ _ HE Hi) as ([n' ms] & Hi' & [[= Hn'] HF']). cbn in *. subst n'.
    exists ms. split; [|done]. apply elem_of_list_to_map_1; [done|]. by apply list_elem_of_lookup_2 in Hi'. }
  split_and!; [done| |..|done].
  - apply ParseQuery_Encode. intros n ms Hn. apply elem_of_list_to_map_2 in Hn. rewrite Forall_forall in Hne. by apply (Hne (n, ms)).
  - apply set_eq. intros n. rewrite dom_list_to_map_L, elem_of_list_to_set, Hnames, (sorted_entries_perm [] values).
    rewrite elem_of_dom, list_elem_of_fmap. split.
    + intros ([k vs] & -> & Hin). apply elem_of_map_to_list in Hin. by exists vs.
    + intros [vs Hvs]. exists (n, vs). split; [done|]. by apply elem_of_map_to_list.
Qed.

Lemma do_mask_query x k wire body vt out rep vt1 :
  client_do s a x k "/v1/mask-query" wire body vt = (inr (out, rep), vt1) → masked_query wire body out.
Proof.
  unfold client_do. change (ano_serve (ce_others x k) s a (ce_env x k) (client_request "/v1/mask-query" wire body) vt)
    with (handleMaskQuery (ce_others x k) s a (ce_env x k) (client_request "/v1/mask-query" wire body) vt).
  destruct (ce_socket x k); [done|by destruct (handleMaskQuery _ _ _ _ _ _)|].
  unfold handleMaskQuery. destruct (auth _ _ _ _) as [resp|[id tok]] eqn:EA; [intros [= E _]; exfalso|].
  { revert EA. unfold auth. repeat case_match; intros; by simplify_eq/=. }
  apply auth_inr in EA as (Hs & -> & _). rewrite client_request_token in Hs.
  destruct (pv_Verify (as_ver s) wire) as [e|tk] eqn:EV; [done|]. injection Hs as ->.
  destruct (readBody _ _) as [resp|b] eqn:EB; [|apply read_client in EB as ->].
  { revert EB. unfold readBody, client_request, read_limited. cbn [hr_Body]. destruct (_ <? _); [|done]. by intros [= <-]. }
  destruct (server_open _ _ _ _ _) as [[err|] vt2]; [by destruct err|].
  destruct (ParseQuery body) as [values|] eqn:EQ; [|done].
  destruct (mask_pairs _ _ _ _ _ _ _ _ _) as [[err|[masked total]] vt3] eqn:EM; [by destruct err|].
  destruct (_ <? _); [done|]. intros [= <- <- _]. by eapply mask_query_names.
Qed.
End client_facts.

(** ** The claims *)

Section client_claims.
Context {C S : Type} `{Crypto, Regexp, Cose, Env, AntiReplayCache C, MapOrder, SliceSort}.
Context (s : AnoServer) (a : Ano).

(** A rewriting without error masks the body and the query. *)
Lemma client_masks x wire r vt rep r1 vt1 :
  client_RewriteRequest s a x wire r vt = (rep, None, r1, vt1) →
  body_masked s a wire (hr_Body r) (hr_Body r1) ∧ query_masked s a wire (u_RawQuery (hr_URL r)) (u_RawQuery (hr_URL r1)).
Proof.
  unfold client_RewriteRequest. case_bool_decide; [done|].
  assert (∀ total r0 vt0, rewrite_body s a x wire r vt = (inr (total, r0), vt0) → hr_URL r0 = hr_URL r ∧
    body_masked s a wire (hr_Body r) (hr_Body r0)) as HB.
  { intros total r0 vt0. unfold rewrite_body. destruct (hr_Body r) as [|content broken] eqn:EB; [intros [= _ <- _]; rewrite EB; split; [done|]; left; by auto|].
    unfold client_readAll, read_limited. destruct (_ <? _); [done|]. destruct broken; [done|]. destruct content as [|b content]; [intros [= _ <- _]; split; [done|]; left; by auto|].
    destruct (encoded _); [done|]. destruct (client_do _ _ _ _ _ _ _ _) as [[e|[out rep1]] vt2] eqn:ED; [done|]. intros [= _ <- _]. split; [done|]. right.
    apply do_mask in ED. by exists (b :: content), out, rep1. }
  destruct (rewrite_body _ _ _ _ _ _) as [[e|[total r0]] vt0]; [done|]. destruct (HB total r0 vt0 eq_refl) as [HU Hbody].
  case_bool_decide as EQ; [intros [= _ <- _]; split; [done|]; left; by rewrite <-HU|].
  destruct (client_do _ _ _ _ _ _ _ _) as [[e|[out rep1]] vt2] eqn:ED; [done|]. intros [= _ <- _]. apply do_mask_query in ED. rewrite HU in ED.
  split; [done|]. by right.
Qed.

(** An audit that is accepted has its record in the journal and its leaf in the registry. *)
Lemma ano_audit_accepted cellID salt at_ ev t t' :
  ano_onRewrite cellID salt at_ ev t = (false, t') →
  AppendAuditLeaf true true cellID salt ev at_ t = (None, t') ∧
  let leaf := leaf_for (mkProducer cellID salt true) KindTelemetry (AuditRecord ev) (UnixNano at_) in
  t' = t ++ [EvJournal leaf salt (AuditRecord ev); EvLeaf leaf].
Proof.
  unfold ano_onRewrite. destruct (AppendAuditLeaf _ _ _ _ _ _ _) as [[e|] t1] eqn:EA; [done|]. intros [= <-]. split; [done|].
  unfold AppendAuditLeaf in EA. case_bool_decide; [done|]. destruct (_ <? _)%nat; [done|]. cbn in EA.
  pose proof (appendLeaf_spec (mkProducer cellID salt true) KindTelemetry (AuditRecord ev) (UnixNano at_) t) as (d & Et & HW).
  unfold appendLeaf, AppendLeaf in Et, HW. cbn [p_journal p_cellID p_salt] in Et, HW. destruct (AppendSealed _ _ _ _ _ _) as [[e|] t2]; [done|].
  injection EA as ->. cbn in Et. destruct HW as [HW _]. cbn in HW. by rewrite Et, HW.
Qed.

(** The record of an audited rewriting in the journal, then its leaf in the registry. *)
Definition recorded (cellID : string) (salt : bytes) (ev : RewriteEvent svc_error) (at_ : Z) (t : trace) : Prop :=
  let leaf := leaf_for (mkProducer cellID salt true) KindTelemetry (AuditRecord ev) (UnixNano at_) in
  ∃ t0 t1, t = t0 ++ [EvJournal leaf salt (AuditRecord ev); EvLeaf leaf] ++ t1.

Lemma recorded_prefix cellID salt ev at_ t t' : t `prefix_of` t' → recorded cellID salt ev at_ t → recorded cellID salt ev at_ t'.
Proof. intros [t2 ->] (t0 & t1 & ->). exists t0, (t1 ++ t2). by rewrite <-!app_assoc. Qed.

Lemma onRewrite_prefix cellID salt at_ ev t : t `prefix_of` (ano_onRewrite cellID salt at_ ev t).2.
Proof.
  unfold ano_onRewrite, AppendAuditLeaf. case_bool_decide; [done|]. destruct (_ <? _)%nat; [done|].
  pose proof (appendLeaf_spec (mkProducer cellID salt true) KindTelemetry (AuditRecord ev) (UnixNano at_) t) as (d & Et & _).
  unfold appendLeaf, AppendLeaf in Et. cbn [p_journal p_cellID p_salt] in Et. destruct (AppendSealed _ _ _ _ _ _) as [[e|] t2]; cbn in *; subst; by eexists.
Qed.

(** What others write while a request runs comes after what was written. *)
Definition append_only (others : nat → proxy_world (C := C) (S := S) (R := vault * trace) → proxy_world (C := C) (S := S) (R := vault * trace)) : Prop :=
  ∀ k w, pw_trace w `prefix_of` pw_trace (others k w).

#[local] Instance rewriter_inst : Rewriter (vault * trace) client_env svc_error := client_rewriter s a.

(** The audit of a rewriting that is accepted, with what the trace becomes. *)
Lemma audited_recorded (p : BlockingProxy svc_error) cellID salt at_ op jti rep err t t' :
  px_onRewrite p = Some (ano_onRewrite cellID salt) →
  audited p at_ (mkRewriteEvent svc_error op jti rep err) t = (false, t') →
  err = None ∧ recorded cellID salt (mkRewriteEvent svc_error op jti rep None) at_ t'.
Proof.
  intros HP. unfold audited. rewrite HP. destruct (ano_onRewrite _ _ _ _ _) as [f t1] eqn:EO. cbn. intros [= HF <-].
  destruct err; [by destruct f|]. destruct f; [done|]. split; [done|]. apply ano_audit_accepted in EO as [_ ->].
  exists t, []. by rewrite app_nil_r.
Qed.

Lemma audited_prefix (p : BlockingProxy svc_error) cellID salt at_ ev t :
  px_onRewrite p = Some (ano_onRewrite cellID salt) → t `prefix_of` (audited p at_ ev t).2.
Proof.
  intros HP. unfold audited. rewrite HP. pose proof (onRewrite_prefix cellID salt at_ ev t) as HO.
  by destruct (ano_onRewrite _ _ _ _ _).
Qed.

(** What was sent was rewritten, and what came back too; both are on record when the exchange ends. *)
Lemma send_recorded others p cellID salt (x : proxy_env client_env) wire jti r w answer sent w' :
  append_only others → px_rewriter p = true → px_onRewrite p = Some (ano_onRewrite cellID salt) →
  send others p x wire jti r w = (answer, Some sent, w') →
  (∃ rep r1 vt1, client_RewriteRequest s a (pe_mask x) wire r (pw_rewriter (others 2%nat w)) = (rep, None, r1, vt1) ∧
    sent = set_url (rewriteRequestURL (px_backend p) (hr_URL r1)) (set_header (Header_Set "Accept-Encoding" "identity" (hr_Header r1)) r1) ∧
    recorded cellID salt (mkRewriteEvent svc_error RewriteOpMask jti rep None) (pe_maskAt x) (pw_trace w')) ∧
  ∀ resp1, answer = FromBackend resp1 →
    ∃ resp vt rep2 vt2, pe_backend x sent = Some resp ∧ client_RewriteResponse s a (pe_unmask x) wire resp vt = (rep2, None, resp1, vt2) ∧
      recorded cellID salt (mkRewriteEvent svc_error RewriteOpUnmask jti rep2 None) (pe_unmaskAt x) (pw_trace w').
Proof.
  intros HO HR HA. unfold send. rewrite HR. cbn [RewriteRequest rewriter_inst client_rewriter].
  destruct (client_RewriteRequest _ _ _ _ _ _) as [[[rep err] r1] vt1] eqn:ER.
  destruct (audited p (pe_maskAt x) _ _) as [[] t2] eqn:EA; [done|]. apply (audited_recorded p cellID salt) in EA as [-> HM]; [|done].
  unfold rp_ServeHTTP. rewrite HR. cbn [Done RewriteResponse rewriter_inst client_rewriter].
  set (out := set_url _ _). destruct (pe_backend x out) as [resp|] eqn:EB.
  2: { intros [= <- <- <-]. split; [|done]. exists rep, r1, vt1. split_and!; [done..|]. eapply recorded_prefix; [|exact HM]. apply HO. }
  cbn [pw_rewriter pw_trace].
  destruct (client_RewriteResponse _ _ _ _ _ _) as [[[rep2 err2] resp2] vt2] eqn:EU.
  destruct (audited p (pe_unmaskAt x) _ _) as [refused t4] eqn:EA2.
  assert (t2 `prefix_of` t4) as HP.
  { etrans; [apply (HO 3%nat (mkProxyWorld (pw_listener (others 2%nat w)) vt1 t2))|]. change t4 with (refused, t4).2. rewrite <-EA2. by eapply audited_prefix. }
  intros [= <- <- <-]. cbn [pw_trace]. split.
  { exists rep, r1, vt1. split_and!; [done..|]. eapply recorded_prefix; [|exact HM]. etrans; [exact HP|]. apply (HO 4%nat (mkProxyWorld _ _ t4)). }
  intros resp1 Hr. destruct refused; [done|]. injection Hr as ->. apply (audited_recorded p cellID salt) in EA2 as [-> HM2]; [|done].
  eexists _, _, _, _. split; [exact EB|]. split; [exact EU|]. eapply recorded_prefix; [|exact HM2]. apply (HO 4%nat (mkProxyWorld _ _ t4)).
Qed.

(** C12: Nothing leaves unmasked, and no answer comes back unrestored. With the anonymiser plugged in, whatever the posture, the other requests, the
    socket and the service do, a request is sent to the outside only if it is what the client of the service made of the decided request: a
    body only if one came, and then the masked text that the engine made of it under the exchange of the token; a query only if one came,
    and then the same names with every value masked in turn. When the exchange ends, the trace of the cell holds the record of this
    masking, under the identifier that the decision was made on and with the counts of this rewriting, and its leaf. What the agent gets
    back is what the service restored of the answer, recorded in the same way; otherwise it gets an error. The other requests only add to
    the trace, and the URL of the backend has no query. *)
Theorem nothing_leaves_unmasked others backend header expose cellID salt p sm (x : proxy_env client_env) r w res w' sent :
  append_only others →
  NewBlockingProxy true (Some backend) None None header expose true (Some (ano_onRewrite cellID salt)) = Some p → u_RawQuery backend = [] →
  ServeHTTP others p sm x r w = (res, w') → pr_sent res = Some sent →
  ∃ wire req jti,
    tokenFromHeader (px_tokenHeader p) r ≫= (λ b, b64_decode (sb b)) = Some wire ∧
    (defaultDeriveRequest (set_header (Header_Del (px_tokenHeader p) (hr_Header r)) r)).1 = inr req ∧
    jti = d_JTI (eo_Decision (evaluate sm (pe_eval x) wire req (pw_listener w) (pw_trace w)).1.1) ∧
    body_masked s a wire (hr_Body r) (hr_Body sent) ∧
    query_masked s a wire (u_RawQuery (hr_URL r)) (u_RawQuery (hr_URL sent)) ∧
    (∃ vt rep r1 vt1, client_RewriteRequest s a (pe_mask x) wire (decided_request p r) vt = (rep, None, r1, vt1) ∧
       sent = set_url (rewriteRequestURL backend (hr_URL r1)) (set_header (Header_Set "Accept-Encoding" "identity" (hr_Header r1)) r1) ∧
       recorded cellID salt (mkRewriteEvent svc_error RewriteOpMask jti rep None) (pe_maskAt x) (pw_trace w')) ∧
    ∀ resp1, pr_answer res = FromBackend resp1 →
      ∃ resp vt rep2 vt2, pe_backend x sent = Some resp ∧ client_RewriteResponse s a (pe_unmask x) wire resp vt = (rep2, None, resp1, vt2) ∧
        recorded cellID salt (mkRewriteEvent svc_error RewriteOpUnmask jti rep2 None) (pe_unmaskAt x) (pw_trace w').
Proof.
  intros HO HP HB HS Hsent. unfold NewBlockingProxy in HP. cbn in HP. injection HP as HP.
  set (hd := if bool_decide (header = "") then DefaultTokenHeader else header) in *.
  assert (px_backend p = backend ∧ px_deriveRequest p = defaultDeriveRequest ∧ px_tokenFrom p = tokenFromHeader hd ∧ px_tokenHeader p = hd ∧ px_rewriter p = true ∧
    px_onRewrite p = Some (ano_onRewrite cellID salt)) as (P1 & P2 & P3 & P4 & P5 & P6) by by subst p. clear HP.
  destruct (ServeHTTP_sent others p sm x r w res w' sent HS Hsent) as (wire & w2 & req & HT & HD & _ & HSe). rewrite P2 in HD.
  pose proof HD as (_ & _ & _ & DU & _ & DB & _)%derive_keeps. cbn [set_header hr_URL hr_Body] in DU, DB.
  destruct (send_recorded others p cellID salt x wire _ _ _ _ _ _ HO P5 P6 HSe) as [(rep & r1 & vt1 & ER & HE & HRec) Hans]. rewrite P1 in HE.
  pose proof (client_masks _ _ _ _ _ _ _ ER) as [Hbody Hquery]. rewrite DB in Hbody. rewrite DU in Hquery.
  rewrite P3, <-P4 in HT. exists wire, req, (d_JTI (eo_Decision (evaluate sm (pe_eval x) wire req (pw_listener w) (pw_trace w)).1.1)).
  split_and!; [done|by rewrite HD|done|by rewrite HE| |by exists (pw_rewriter (others 2%nat w2)), rep, r1, vt1|done].
  rewrite HE. unfold rewriteRequestURL. destruct (joinURLPath _ _). cbn. rewrite HB, bool_decide_true by by left. done.
Qed.
End client_claims.
