(* ===== verification/Journal.v ===== *)
(** The file behind the journal of records: [src/registry/record_store.go].

    Effects treats a journal line as one event. Here the file is bytes: [store_Put] encrypts the record of a leaf under
    the bytes of that leaf and appends a line of JSON, which the disk may refuse, cut short or fail to sync; [ReadRecords]
    reads the whole file back. AES-GCM is the class [AEAD], with what it documents as [AEADLaws]. *)
From S2P Require Import Prelude.
From S2P Require Import Hex.
From S2P Require Import Json.
From S2P Require Import Leaf.
From S2P Require Import Effects.
From S2P Require Import GoStrings.
From S2P Require Import GoJson.
From S2P Require Import Proxy.
From S2P Require Import Arbiter.

Local Open Scope Z_scope.

(** ** Keys *)

Definition recordStoreVersion : Z := 1.
Definition RecordKeyLen : nat := 32.
Definition maxRecordEntry : Z := 4 * 2 ^ 20.

(** [GenerateRecordKey]: the content of the new file; an existing file is not overwritten. *)
Definition GenerateRecordKey (exists_ : bool) (key : option bytes) : option bytes :=
  match key with
  | None => None
  | Some key => if exists_ then None else Some (sb (hex key) ++ [newline])
  end.

(** [LoadRecordKey], from the permissions of the file and its content. *)
Definition LoadRecordKey (perm : option Z) (raw : option bytes) : option bytes :=
  perm ← perm;
  if negb (Z.land perm 63 =? 0) then None
  else raw ← raw; key ← hex_DecodeString (TrimSpace (bs raw)); if (length key =? RecordKeyLen)%nat then Some key else None.

(** ** Lines *)

Class AEAD := {
  NonceSize : nat;
  gcm_Seal : bytes → bytes → bytes → bytes → bytes;           (* key, nonce, plain, additional data *)
  gcm_Open : bytes → bytes → bytes → bytes → option bytes;    (* key, nonce, ciphertext, additional data *)
}.

Class AEADLaws `{AEAD} : Prop :=
  gcm_open_seal key nonce plain aad :
    length key = RecordKeyLen → length nonce = NonceSize → gcm_Open key nonce (gcm_Seal key nonce plain aad) aad = Some plain.

Record recordLine := mkLine { rl_V : Z; rl_Leaf : string; rl_Nonce : string; rl_CT : string }.

(** [json.Marshal] of a line. *)
Definition marshal_line (l : recordLine) : bytes :=
  [open_obj] ++ json_key "v" ++ json_int (rl_V l) ++ [comma] ++ json_key "leaf" ++ json_string (rl_Leaf l) ++ [comma]
  ++ json_key "nonce" ++ json_string (rl_Nonce l) ++ [comma] ++ json_key "ct" ++ json_string (rl_CT l) ++ [close_obj].

(** The fields of [recordLine]; a name is matched without its case. *)
Inductive line_field := FieldV | FieldLeaf | FieldNonce | FieldCT.
Definition field_of (k : bytes) : option line_field :=
  let k := to_lower <$> k in
  if bool_decide (k = sb "v") then Some FieldV
  else if bool_decide (k = sb "leaf") then Some FieldLeaf
  else if bool_decide (k = sb "nonce") then Some FieldNonce
  else if bool_decide (k = sb "ct") then Some FieldCT
  else None.

(** A member of the object: [null] leaves its field, an unknown name or another type is an error. *)
Definition set_field (k : bytes) (t : jtoken) (l : recordLine) : option recordLine :=
  f ← field_of k;
  match f, t with
  | _, NullTok => Some l
  | FieldV, NumTok n => v ← Atoi (bs n); Some (mkLine v (rl_Leaf l) (rl_Nonce l) (rl_CT l))
  | FieldLeaf, StrTok s => Some (mkLine (rl_V l) (bs s) (rl_Nonce l) (rl_CT l))
  | FieldNonce, StrTok s => Some (mkLine (rl_V l) (rl_Leaf l) (bs s) (rl_CT l))
  | FieldCT, StrTok s => Some (mkLine (rl_V l) (rl_Leaf l) (rl_Nonce l) (bs s))
  | _, _ => None
  end.

(** The members up to the closing brace; each takes a byte at least. *)
Fixpoint read_fields (fuel : nat) (d : Decoder) (l : recordLine) : option (recordLine * Decoder) :=
  match fuel with
  | O => None
  | S fuel =>
      match NextToken d with
      | TokenOK CloseObj d' => Some (l, d')
      | TokenOK (StrTok k) d1 =>
          match NextToken d1 with
          | TokenOK t d2 => l' ← set_field k t l; read_fields fuel d2 l'
          | _ => None
          end
      | _ => None
      end
  end.

(** [dec.Decode(&l)] with [DisallowUnknownFields]; [null] is no error and leaves the line empty. *)
Definition decode_line (s : bytes) : option (recordLine * Decoder) :=
  match NextToken (NewDecoder s) with
  | TokenOK OpenObj d => read_fields (S (length s)) d (mkLine 0 "" "" "")
  | TokenOK NullTok d => Some (mkLine 0 "" "" "", d)
  | _ => None
  end.

(** A record read back: [SealedRecord] with the bytes of its leaf. *)
Record journal_entry := mkJournalEntry { je_LeafData : bytes; je_sealed : SealedRecord }.

Inductive record_error :=
  | RecMalformed | RecTrailing | RecVersion | RecLeafHex | RecLeaf (e : leaf_error) | RecNonce | RecCipherText
  | ErrRecordUndecryptable | RecTruncated | RecSaltLength | RecTooLong.

(** The clear text of a line: the length of the salt on two bytes, the salt, the record. *)
Definition frame (salt record : bytes) : bytes := be 2 (u16 (Z.of_nat (length salt))) ++ salt ++ record.

Section journal.
Context `{Crypto, AEAD}.

(** [openRecordLine]. *)
Definition openRecordLine (key line : bytes) : record_error + journal_entry :=
  match decode_line line with
  | None => inl RecMalformed
  | Some (l, d) =>
      if More d then inl RecTrailing
      else if negb (rl_V l =? recordStoreVersion) then inl RecVersion
      else match hex_DecodeString (rl_Leaf l) with
      | None => inl RecLeafHex
      | Some leafData =>
      match UnmarshalLeaf leafData with
      | inl e => inl (RecLeaf e)
      | inr leaf =>
      match b64_decode (sb (rl_Nonce l)) with
      | None => inl RecNonce
      | Some nonce =>
      if negb (length nonce =? NonceSize)%nat then inl RecNonce
      else match b64_decode (sb (rl_CT l)) with
      | None => inl RecCipherText
      | Some ct =>
      match gcm_Open key nonce ct leafData with
      | None => inl ErrRecordUndecryptable
      | Some plain =>
          if (length plain <? 2)%nat then inl RecTruncated
          else
            let sl := Z.to_nat (be_val (take 2 plain)) in
            if (sl <? minSaltLen)%nat || (length plain <? 2 + sl)%nat then inl RecSaltLength
            else inr (mkJournalEntry leafData (mkSealed leaf (take sl (drop 2 plain)) (drop (2 + sl) plain)))
      end end end end end
  end.

(** The lines that [ReadLine] gives: without their line feed and a carriage return before it; what follows the last
    line feed is a line if it is not empty. *)
Fixpoint journal_lines (ps : list bytes) : list bytes :=
  match ps with
  | [] => []
  | [p] => if bool_decide (p = []) then [] else [p]
  | p :: ps => drop_cr p :: journal_lines ps
  end.

(** [readBoundedLine] and [openRecordLine], line after line from number [n] on. *)
Fixpoint read_records (key : bytes) (n : Z) (lines : list bytes) : (Z * record_error) + list journal_entry :=
  match lines with
  | [] => inr []
  | line :: lines =>
      if maxRecordEntry <? Z.of_nat (length line) then inl (n, RecTooLong)
      else match openRecordLine key line with
           | inl e => inl (n, e)
           | inr r => match read_records key (n + 1) lines with inl e => inl e | inr rs => inr (r :: rs) end
           end
  end.

(** [ReadRecords] on the content of the file; line 0 stands for a bad key or a file that cannot be opened. *)
Definition ReadRecords (key : bytes) (file : option bytes) : (Z * record_error) + list journal_entry :=
  if negb (length key =? RecordKeyLen)%nat then inl (0, RecMalformed)
  else match file with
       | None => inl (0, RecMalformed)
       | Some file => read_records key 1 (journal_lines (split_on newline file))
       end.

(** ** Writing *)

Record RecordStore := mkStore { st_key : bytes; st_file : bytes }.

(** [OpenRecordStore]: the file is created when there is none; [None] is an error. *)
Definition OpenRecordStore (key : bytes) (openable : bool) (file : option bytes) : option RecordStore :=
  if negb (length key =? RecordKeyLen)%nat then None
  else if openable then Some (mkStore key (default [] file)) else None.

(** [OpenRecordStoreFiles]. *)
Definition OpenRecordStoreFiles (path keyFile : string) (perm : option Z) (raw : option bytes) (openable : bool)
    (file : option bytes) : option RecordStore :=
  if bool_decide (path = "") || bool_decide (keyFile = "") then None
  else key ← LoadRecordKey perm raw; OpenRecordStore key openable file.

(** What the disk does with a line: all of it, synced or not, or the first [n] bytes and an error. *)
Inductive write_outcome := WroteAll (synced : bool) | WroteOnly (n : nat).

(** The line of a record, without its line feed. *)
Definition record_text (key nonce leafData salt record : bytes) : bytes :=
  marshal_line (mkLine recordStoreVersion (hex leafData) (bs (b64_encode nonce))
    (bs (b64_encode (gcm_Seal key nonce (frame salt record) leafData)))).

(** [Put]; [nonce] is [None] when the random source fails. *)
Definition store_Put (leaf : Leaf) (salt record : bytes) (nonce : option bytes) (o : write_outcome) (s : RecordStore) :
    option append_error * RecordStore :=
  if (length salt <? minSaltLen)%nat then (Some ErrJournalSalt, s)
  else if Timestamp leaf =? 0 then (Some ErrJournalTimestamp, s)
  else if bool_decide (HashPayload salt record ≠ PayloadHash leaf) then (Some ErrRecordHashMismatch, s)
  else match Marshal leaf with
  | inl e => (Some (ErrJournalMarshal e), s)
  | inr leafData =>
      match nonce with
      | None => (Some ErrJournalIO, s)
      | Some nonce =>
          let line := record_text (st_key s) nonce leafData salt record ++ [newline] in
          match o with
          | WroteAll synced => (if synced then None else Some ErrJournalIO, mkStore (st_key s) (st_file s ++ line))
          | WroteOnly n => (Some ErrJournalIO, mkStore (st_key s) (st_file s ++ take n line))
          end
      end
  end.

(** ** A line is read back *)

(** The characters of hexadecimal and base64 texts, which JSON writes as they are. *)
Definition plain_char (b : byte) : bool :=
  between 48 57 b || between 65 90 b || between 97 122 b || bool_decide (b ∈ sb "+/=").
Definition plain_text (s : bytes) : Prop := Forall (λ b, plain_char b = true) s.

#[local] Instance plain_text_dec s : Decision (plain_text s).
Proof. unfold plain_text. apply _. Defined.
Ltac plain := apply (bool_decide_unpack _); vm_compute; exact I.

Lemma plain_char_facts b : plain_char b = true →
  ascii b = true ∧ b ≠ quote ∧ b ≠ backslash ∧ (b2z b <? 32) = false ∧ escape_ascii b = [b] ∧ b ≠ newline ∧ b ≠ carriage.
Proof. destruct b; vm_compute; intros E; split_and!; done. Qed.

Lemma escape_plain s : plain_text s → escape s = s.
Proof.
  induction 1 as [|b s Hb _ IH]; [done|]. destruct (plain_char_facts b Hb) as (Ha & _ & _ & _ & He & _).
  cbn [escape]. by rewrite Ha, He, IH.
Qed.

Lemma read_chars_plain_text s r : plain_text s → read_chars (s ++ quote :: r) = Some (s, r).
Proof.
  induction 1 as [|b s Hb _ IH]; [done|]. destruct (plain_char_facts b Hb) as (Ha & Hq & Hs & H32 & _).
  cbn [app read_chars]. by rewrite !bool_decide_false, H32, Ha, IH.
Qed.

Lemma json_string_plain s : plain_text (sb s) → json_string s = quote :: sb s ++ [quote].
Proof. intros Hs. unfold json_string. by rewrite escape_plain. Qed.

(** The value of a member, after its colon. *)
Lemma Token_plain s r stack : plain_text (sb s) →
  NextToken (mkDecoder (Byte.x3a :: json_string s ++ r) tokenObjectColon stack) = TokenOK (StrTok (sb s)) (mkDecoder r tokenObjectComma stack).
Proof.
  intros Hs. rewrite Token_colon, json_string_plain by done. cbn [app]. rewrite <-app_assoc. rewrite Token_scalar; [|done|set_solver|done].
  unfold decode_scalar, read_scalar. rewrite bool_decide_true by done. cbn [app]. by rewrite read_chars_plain_text.
Qed.

Lemma hex_plain b : plain_text (sb (hex b)).
Proof.
  unfold hex. induction b as [|x b IH]; [constructor|].
  assert (∀ n, 0 ≤ n < 16 → plain_char (Ascii.byte_of_ascii (hex_digit n)) = true) as HD.
  { intros n Hn. assert (∃ k : nat, n = Z.of_nat k ∧ (k < 16)%nat) as (k & -> & Hk) by (exists (Z.to_nat n); lia).
    do 16 (destruct k as [|k]; [by vm_compute|]). lia. }
  pose proof (b2z_range x). rewrite bind_cons. cbn [app String.string_of_list_ascii].
  repeat (apply Forall_cons; split); [apply HD; split; [apply Z.div_pos|apply Z.div_lt_upper_bound]; lia|apply HD, Z.mod_pos_bound; lia|exact IH].
Qed.

Lemma b64_plain s : plain_text (b64_encode s).
Proof.
  assert (∀ n, 0 ≤ n < 64 → plain_char (b64_char n) = true) as HC.
  { intros n Hn. assert (∃ k : nat, n = Z.of_nat k ∧ (k < 64)%nat) as (k & -> & Hk) by (exists (Z.to_nat n); lia).
    do 64 (destruct k as [|k]; [by vm_compute|]). lia. }
  induction s as [s IH] using (induction_ltof1 _ (@length byte)). unfold ltof in IH. unfold plain_text in *.
  destruct s as [|a [|b [|c s]]]; [constructor|..]; cbn [b64_encode].
  - pose proof (b2z_range a). pose proof (b64_quad_range (b2z a * 65536) ltac:(lia)) as HR.
    destruct (b64_quad _) as [[[w x] y] z]. destruct HR as (Hw & Hx & _). by repeat constructor; auto.
  - pose proof (b2z_range a). pose proof (b2z_range b). pose proof (b64_quad_range (b2z a * 65536 + b2z b * 256) ltac:(lia)) as HR.
    destruct (b64_quad _) as [[[w x] y] z]. destruct HR as (Hw & Hx & Hy & _). by repeat constructor; auto.
  - pose proof (b2z_range a). pose proof (b2z_range b). pose proof (b2z_range c).
    pose proof (b64_quad_range (b2z a * 65536 + b2z b * 256 + b2z c) ltac:(lia)) as HR.
    destruct (b64_quad _) as [[[w x] y] z]. destruct HR as (Hw & Hx & Hy & Hz). repeat constructor; auto. apply IH. simpl. lia.
Qed.

Lemma Token_name name r stack : plain_text (sb name) →
  NextToken (mkDecoder (json_key name ++ r) tokenObjectKey stack) = TokenOK (StrTok (sb name)) (mkDecoder (Byte.x3a :: r) tokenObjectColon stack).
Proof.
  intros Hn. unfold NextToken, json_key. rewrite <-!app_assoc. cbn [d_rest d_state d_stack app token_loop].
  by rewrite read_chars_plain_text.
Qed.

(** One member of a line, from the comma before its name on. *)
Lemma read_member fuel name s r l l' :
  plain_text (sb name) → plain_text (sb s) → set_field (sb name) (StrTok (sb s)) l = Some l' →
  read_fields (S fuel) (mkDecoder (comma :: json_key name ++ json_string s ++ r) tokenObjectComma [tokenTopValue]) l =
  read_fields fuel (mkDecoder r tokenObjectComma [tokenTopValue]) l'.
Proof. intros Hn Hs HF. cbn [read_fields]. by rewrite Token_comma_obj, Token_name, Token_plain, HF. Qed.

Ltac field_set :=
  unfold set_field; match goal with |- context [field_of ?k] => let f := eval vm_compute in (field_of k) in change (field_of k) with f end;
  cbn [mbind option_bind]; by rewrite bs_sb.

Lemma read_version fuel r :
  read_fields (S fuel) (mkDecoder (json_key "v" ++ json_int recordStoreVersion ++ comma :: r) tokenObjectStart [tokenTopValue]) (mkLine 0 "" "" "") =
  read_fields fuel (mkDecoder (comma :: r) tokenObjectComma [tokenTopValue]) (mkLine recordStoreVersion "" "" "").
Proof. reflexivity. Qed.

Lemma decode_marshal_line leaf nonce ct :
  plain_text (sb leaf) → plain_text (sb nonce) → plain_text (sb ct) →
  decode_line (marshal_line (mkLine recordStoreVersion leaf nonce ct)) =
  Some (mkLine recordStoreVersion leaf nonce ct, mkDecoder [] tokenTopValue []).
Proof.
  intros H1 H2 H3. unfold decode_line, marshal_line. cbn [rl_V rl_Leaf rl_Nonce rl_CT].
  set (body := json_key "v" ++ _). change (NextToken (NewDecoder _)) with (TokenOK OpenObj (mkDecoder body tokenObjectStart [tokenTopValue])).
  cbn beta iota. assert (∃ n, S (length ([open_obj] ++ body)) = S (S (S (S (S n))))) as [n ->] by (eexists; reflexivity).
  unfold body. cbn [app]. rewrite read_version.
  rewrite (read_member _ "leaf" leaf _ _ (mkLine recordStoreVersion leaf "" "")); [|plain|done|field_set].
  rewrite (read_member _ "nonce" nonce _ _ (mkLine recordStoreVersion leaf nonce "")); [|plain|done|field_set].
  rewrite (read_member _ "ct" ct _ _ (mkLine recordStoreVersion leaf nonce ct)); [|plain|done|field_set].
  reflexivity.
Qed.

Lemma frame_read salt record : (minSaltLen ≤ length salt)%nat → Z.of_nat (length salt) < 2 ^ 16 →
  let plain := frame salt record in let sl := Z.to_nat (be_val (take 2 plain)) in
  (length plain <? 2)%nat = false ∧ (sl <? minSaltLen)%nat = false ∧ (length plain <? 2 + sl)%nat = false ∧
  take sl (drop 2 plain) = salt ∧ drop (2 + sl) plain = record.
Proof.
  intros Hm Hs. cbv zeta. unfold frame, u16. rewrite take_app_exact, be_val_be by apply length_be.
  rewrite !Z.mod_small by (rewrite ?Z.mod_small by lia; change (256 ^ Z.of_nat 2) with (2 ^ 16); lia). rewrite Nat2Z.id.
  rewrite <-drop_drop, !drop_app_exact, take_app_exact by (apply length_be || done).
  split_and!; try done; apply Nat.ltb_ge; len; rewrite ?length_app; lia.
Qed.

(** A line of [Put] opens to what its clear text says. *)
Lemma open_record_plain `{!AEADLaws} key nonce leaf leafData salt record :
  length key = RecordKeyLen → length nonce = NonceSize → wf_leaf leaf → Marshal leaf = inr leafData →
  openRecordLine key (record_text key nonce leafData salt record) =
  let plain := frame salt record in
  if (length plain <? 2)%nat then inl RecTruncated
  else
    let sl := Z.to_nat (be_val (take 2 plain)) in
    if (sl <? minSaltLen)%nat || (length plain <? 2 + sl)%nat then inl RecSaltLength
    else inr (mkJournalEntry leafData (mkSealed leaf (take sl (drop 2 plain)) (drop (2 + sl) plain))).
Proof.
  intros Hk Hn Hw HM. unfold openRecordLine, record_text.
  rewrite decode_marshal_line by (rewrite ?sb_bs; auto using hex_plain, b64_plain). cbn [rl_V rl_Leaf rl_Nonce rl_CT].
  change (More (mkDecoder [] tokenTopValue [])) with false. cbn beta iota. rewrite Z.eqb_refl. cbn [negb].
  rewrite hex_roundtrip, (unmarshal_marshal leaf leafData), !sb_bs, !b64_roundtrip by done. rewrite Hn, Nat.eqb_refl. cbn [negb].
  by rewrite gcm_open_seal by done.
Qed.

(** With a salt whose length fits two bytes, to the record. *)
Lemma open_record_text `{!AEADLaws} key nonce leaf leafData salt record :
  length key = RecordKeyLen → length nonce = NonceSize → wf_leaf leaf → Marshal leaf = inr leafData →
  (minSaltLen ≤ length salt)%nat → Z.of_nat (length salt) < 2 ^ 16 →
  openRecordLine key (record_text key nonce leafData salt record) = inr (mkJournalEntry leafData (mkSealed leaf salt record)).
Proof.
  intros Hk Hn Hw HM Hs1 Hs2. rewrite (open_record_plain key nonce leaf) by done. cbv zeta.
  destruct (frame_read salt record Hs1 Hs2) as (-> & -> & -> & -> & ->). done.
Qed.

(** A salt of 65536 bytes, which [Put] accepts, wraps to 0 in the line: the line cannot be read. *)
Lemma long_salt_unreadable `{!AEADLaws} key nonce leaf leafData salt record :
  length key = RecordKeyLen → length nonce = NonceSize → wf_leaf leaf → Marshal leaf = inr leafData →
  Z.of_nat (length salt) = 2 ^ 16 →
  openRecordLine key (record_text key nonce leafData salt record) = inl RecSaltLength.
Proof.
  intros Hk Hn Hw HM Hs. rewrite (open_record_plain key nonce leaf) by done. cbv zeta. unfold frame, u16. rewrite Hs.
  change (2 ^ 16 mod 2 ^ 16) with 0. rewrite take_app_exact by apply length_be. change (Z.to_nat (be_val (be 2 0))) with 0%nat.
  rewrite length_app, length_be. done.
Qed.

(** ** The lines of a file *)

(** A file that ends with a line feed. *)
Definition closed (f : bytes) : Prop := f = [] ∨ ∃ g, f = g ++ [newline].

Lemma split_on_nonnil c f : split_on c f ≠ [].
Proof. destruct f; simpl; [done|]. case_decide; [done|]. by destruct (split_on c f). Qed.

Lemma split_on_two c f g : split_on c (f ++ c :: g) = split_on c f ++ split_on c g.
Proof.
  induction f as [|b f IH]; cbn [app split_on]; [by case_decide|]. rewrite IH.
  case_decide; [done|]. pose proof (split_on_nonnil c f). by destruct (split_on c f).
Qed.

Lemma journal_lines_app ps qs : qs ≠ [] → journal_lines (ps ++ qs) = (drop_cr <$> ps) ++ journal_lines qs.
Proof. intros Hq. induction ps as [|p ps IH]; [done|]. cbn [app fmap list_fmap]. rewrite <-IH. cbn. by destruct (ps ++ qs) eqn:E; [destruct ps, qs|]. Qed.

(** A line added to a file that ends with a line feed. *)
Lemma journal_lines_add f line : closed f → newline ∉ line → carriage ∉ line →
  journal_lines (split_on newline (f ++ line ++ [newline])) = journal_lines (split_on newline f) ++ [line] ∧ closed (f ++ line ++ [newline]).
Proof.
  intros Hf Hn Hc. assert (journal_lines (split_on newline (line ++ [newline])) = [line]) as HL.
  { rewrite split_on_app by done. cbn. by rewrite drop_cr_plain. }
  split; [|right; exists (f ++ line); by rewrite app_assoc]. destruct Hf as [->|[g ->]]; [done|].
  rewrite <-app_assoc. cbn [app]. rewrite (split_on_two _ g (line ++ _)), (split_on_two _ g []), !journal_lines_app, HL by apply split_on_nonnil.
  cbn. by rewrite app_nil_r.
Qed.

Lemma read_records_app key n ls line rs r :
  read_records key n ls = inr rs → Z.of_nat (length line) ≤ maxRecordEntry → openRecordLine key line = inr r →
  read_records key n (ls ++ [line]) = inr (rs ++ [r]).
Proof.
  intros HR HL HO. revert n rs HR. induction ls as [|l ls IH]; intros n rs; cbn [app read_records].
  - intros [= <-]. rewrite (proj2 (Z.ltb_ge _ _)) by done. by rewrite HO.
  - destruct (_ <? _); [done|]. destruct (openRecordLine key l) as [e|r0]; [done|].
    destruct (read_records key (n + 1) ls) as [e|rs0] eqn:E; [done|]. intros [= <-]. by rewrite (IH _ _ E).
Qed.

Definition no_break (b : byte) : Prop := b ≠ newline ∧ b ≠ carriage.

Lemma record_text_no_break key nonce leafData salt record : Forall no_break (record_text key nonce leafData salt record).
Proof.
  assert (∀ s, plain_text (sb s) → Forall no_break (json_string s)) as HJ.
  { intros s Hs. rewrite json_string_plain by done. apply Forall_cons; split; [done|]. apply Forall_app; split; [|by repeat constructor].
    eapply Forall_impl; [exact Hs|]. intros b Hb. by destruct (plain_char_facts b Hb) as (_ & _ & _ & _ & _ & ? & ?). }
  unfold record_text, marshal_line. rewrite !Forall_app. cbn [rl_V rl_Leaf rl_Nonce rl_CT].
  split_and!; try (apply HJ; rewrite ?sb_bs; auto using hex_plain, b64_plain); vm_compute; by repeat constructor.
Qed.

(** ** The file over any calls *)

Record put_call := mkPut {
  put_leaf : Leaf; put_salt : bytes; put_record : bytes; put_nonce : option bytes; put_outcome : write_outcome }.

Fixpoint store_run (calls : list put_call) (s : RecordStore) : list (option append_error) * RecordStore :=
  match calls with
  | [] => ([], s)
  | c :: calls =>
      let '(e, s1) := store_Put (put_leaf c) (put_salt c) (put_record c) (put_nonce c) (put_outcome c) s in
      let '(es, s2) := store_run calls s1 in (e :: es, s2)
  end.

(** The entry of a call whose checks pass. *)
Definition put_entry (c : put_call) : option journal_entry :=
  if (length (put_salt c) <? minSaltLen)%nat || (Timestamp (put_leaf c) =? 0)
     || bool_decide (HashPayload (put_salt c) (put_record c) ≠ PayloadHash (put_leaf c)) then None
  else match Marshal (put_leaf c) with
       | inl _ => None
       | inr leafData => Some (mkJournalEntry leafData (mkSealed (put_leaf c) (put_salt c) (put_record c)))
       end.

(** The entry of a call whose line is in the file, whether or not the caller was told so. *)
Definition put_written (c : put_call) : option journal_entry :=
  match put_nonce c, put_outcome c with Some _, WroteAll _ => put_entry c | _, _ => None end.

(** A line that can be read: a leaf as the producers build it, a salt whose length fits two bytes, a line within the
    bound of the reader; and a write that the disk does not tear. *)
Definition put_sound (key : bytes) (c : put_call) : Prop :=
  wf_leaf (put_leaf c) ∧ Z.of_nat (length (put_salt c)) < 2 ^ 16 ∧ put_outcome c ∈ [WroteAll true; WroteAll false; WroteOnly 0] ∧
  ∀ nonce, put_nonce c = Some nonce → length nonce = NonceSize ∧
    ∀ leafData, Marshal (put_leaf c) = inr leafData →
      Z.of_nat (length (record_text key nonce leafData (put_salt c) (put_record c))) ≤ maxRecordEntry.

(** What one call does to the file. *)
Lemma store_Put_cases leaf salt record nonce o s :
  let c := mkPut leaf salt record nonce o in
  let '(e, s') := store_Put leaf salt record nonce o s in
  st_key s' = st_key s ∧
  match put_entry c, nonce with
  | Some je, Some n =>
      (minSaltLen ≤ length salt)%nat ∧ Marshal leaf = inr (je_LeafData je) ∧ HashPayload salt record = PayloadHash leaf ∧
      je_sealed je = mkSealed leaf salt record ∧
      let line := record_text (st_key s) n (je_LeafData je) salt record ++ [newline] in
      match o with
      | WroteAll synced => e = (if synced then None else Some ErrJournalIO) ∧ st_file s' = st_file s ++ line
      | WroteOnly n => e = Some ErrJournalIO ∧ st_file s' = st_file s ++ take n line
      end
  | _, _ => e ≠ None ∧ st_file s' = st_file s
  end.
Proof.
  cbv zeta. unfold store_Put, put_entry. cbn [put_leaf put_salt put_record put_nonce put_outcome].
  destruct (Nat.ltb_spec (length salt) minSaltLen); [done|]. destruct (Z.eqb_spec (Timestamp leaf) 0); [done|].
  case_bool_decide as Hh; [done|]. destruct (Marshal leaf) as [e|d] eqn:EM; [done|].
  destruct nonce as [b|]; [|done]. cbn [orb]. destruct o as [sy|k]; by split_and!.
Qed.

Lemma store_Put_reads `{!AEADLaws} c s rs :
  let s' := (store_Put (put_leaf c) (put_salt c) (put_record c) (put_nonce c) (put_outcome c) s).2 in
  put_sound (st_key s) c → closed (st_file s) → ReadRecords (st_key s) (Some (st_file s)) = inr rs →
  closed (st_file s') ∧ ReadRecords (st_key s') (Some (st_file s')) = inr (rs ++ option_list (put_written c)).
Proof.
  destruct c as [leaf salt record nonce o]. cbv zeta. unfold put_sound, put_written. cbn [put_leaf put_salt put_record put_nonce put_outcome].
  intros (Hw & Hs & Ho & Hn) Hc HR. pose proof (store_Put_cases leaf salt record nonce o s) as HP. cbv zeta in HP.
  destruct (store_Put leaf salt record nonce o s) as [e s']. destruct HP as [Ek HP]. cbn [snd]. rewrite Ek.
  assert (option_list None = @nil journal_entry) as Enil by done.
  destruct (put_entry _) as [je|] eqn:EP, nonce as [n|]; cycle 1;
    [destruct HP as [_ ->]; try (destruct o); rewrite ?Enil, ?app_nil_r; done..|].
  destruct HP as (Hm & HM & Hh & Ej & HF). destruct (Hn n eq_refl) as [HnL HL]. destruct o as [sy|k].
  - destruct HF as [_ ->]. unfold ReadRecords in *. destruct (Nat.eqb_spec (length (st_key s)) RecordKeyLen) as [Hk|]; [|done]. cbn [negb] in *.
    pose proof (record_text_no_break (st_key s) n (je_LeafData je) salt record) as HB. rewrite Forall_forall in HB.
    destruct (journal_lines_add (st_file s) (record_text (st_key s) n (je_LeafData je) salt record) Hc) as [-> HC];
      [intros E%HB; by destruct E..|]. split; [done|]. cbn [option_list]. apply read_records_app; [done|by apply HL|].
    rewrite (open_record_text (st_key s) n leaf (je_LeafData je) salt record) by done. by rewrite <-Ej; destruct je.
  - destruct HF as [_ ->]. rewrite !elem_of_cons, elem_of_nil in Ho. destruct Ho as [?|[?|[[= ->]|[]]]]; [done..|]. rewrite take_0, !app_nil_r. done.
Qed.


(** [Put] of Effects is [store_Put] seen through its result, when its environment accepts what the disk accepts. *)
Lemma store_Put_refines `{Env} leaf salt record nonce o s t :
  journal_accepts t leaf = match nonce, o with Some _, WroteAll true => true | _, _ => false end →
  (store_Put leaf salt record nonce o s).1 = (Put leaf salt record t).1.
Proof.
  intros HA. unfold store_Put, Put. rewrite HA. repeat case_match; simplify_eq/=; done.
Qed.

(** ** A file that was edited *)

(** What AES-GCM promises against who has not the key: a text opens only if it was sealed, under that key and with those
    additional data. *)
Definition unforged (key : bytes) (calls : list put_call) : Prop :=
  ∀ nonce ct aad plain, gcm_Open key nonce ct aad = Some plain →
    ∃ c je, c ∈ calls ∧ put_entry c = Some je ∧ aad = je_LeafData je ∧ plain = frame (put_salt c) (put_record c).

Lemma put_entry_inv c je : put_entry c = Some je →
  (minSaltLen ≤ length (put_salt c))%nat ∧ Marshal (put_leaf c) = inr (je_LeafData je) ∧
  je_sealed je = mkSealed (put_leaf c) (put_salt c) (put_record c) ∧ VerifyHash (je_sealed je) = true.
Proof.
  unfold put_entry. destruct (Nat.ltb_spec (length (put_salt c)) minSaltLen); [done|]. destruct (Timestamp (put_leaf c) =? 0); [done|].
  case_bool_decide as Hh; [done|]. cbn [orb]. destruct (Marshal (put_leaf c)) as [e|d]; [done|]. intros [= <-].
  split_and!; try done. by apply bool_decide_eq_true.
Qed.

Lemma openRecordLine_inv key line r : openRecordLine key line = inr r →
  ∃ nonce ct plain, gcm_Open key nonce ct (je_LeafData r) = Some plain ∧ UnmarshalLeaf (je_LeafData r) = inr (sl_Leaf (je_sealed r)) ∧
    let sl := Z.to_nat (be_val (take 2 plain)) in
    sl_Salt (je_sealed r) = take sl (drop 2 plain) ∧ sl_Record (je_sealed r) = drop (2 + sl) plain.
Proof.
  unfold openRecordLine. destruct (decode_line line) as [[l d]|]; [|done]. destruct (More d); [done|].
  destruct (negb _); [done|]. destruct (hex_DecodeString _) as [ld|]; [|done]. destruct (UnmarshalLeaf ld) as [|leaf] eqn:EU; [done|].
  destruct (b64_decode _) as [nonce|]; [|done]. destruct (negb _); [done|]. destruct (b64_decode _) as [ct|]; [|done].
  destruct (gcm_Open key nonce ct ld) as [plain|] eqn:EO; [|done]. destruct (_ <? 2)%nat; [done|]. cbv zeta. destruct (_ || _); [done|].
  intros [= <-]. by exists nonce, ct, plain.
Qed.

Lemma read_records_lines key n ls rs : read_records key n ls = inr rs → Forall (λ r, ∃ line, openRecordLine key line = inr r) rs.
Proof.
  revert n rs. induction ls as [|l ls IH]; intros n rs; cbn [read_records]; [intros [= <-]; constructor|].
  destruct (_ <? _); [done|]. destruct (openRecordLine key l) as [|r] eqn:EO; [done|].
  destruct (read_records key (n + 1) ls) as [|rs0] eqn:E; [done|]. intros [= <-]. constructor; eauto.
Qed.

(** An edited journal reveals only what was put. Whatever bytes are in the file, as long as no text opens under the key
    that Put did not seal, each record that ReadRecords returns is the record of a call whose checks passed, under the
    leaf of that call, and the leaf commits to it: lines can be dropped, repeated or moved, not altered. *)
Theorem edited_journal_reveals_only_puts key calls file rs r :
  unforged key calls → Forall (λ c, wf_leaf (put_leaf c) ∧ Z.of_nat (length (put_salt c)) < 2 ^ 16) calls →
  ReadRecords key (Some file) = inr rs → r ∈ rs →
  ∃ c, c ∈ calls ∧ put_entry c = Some r ∧ VerifyHash (je_sealed r) = true.
Proof.
  intros HU HF HR Hr. unfold ReadRecords in HR. destruct (negb _); [done|]. apply read_records_lines in HR. rewrite Forall_forall in HR. rewrite Forall_forall in HF.
  destruct (HR r Hr) as (line & (nonce & ct & plain & HO & HL & Hsalt & Hrec)%openRecordLine_inv).
  destruct (HU _ _ _ _ HO) as (c & je & Hc & HP & HA & ->). destruct (HF c Hc) as [Hw Hs].
  destruct (put_entry_inv c je HP) as (Hm & HM & Ej & HV). destruct (frame_read (put_salt c) (put_record c) Hm Hs) as (_ & _ & _ & E1 & E2).
  rewrite E1 in Hsalt. rewrite E2 in Hrec. rewrite HA in HL. rewrite (unmarshal_marshal _ _ Hw HM) in HL. injection HL as HL.
  assert (r = je) as ->; [|by exists c].
  destruct r as [ld [l sa re]], je as [ld' sl']. simpl in *. by subst.
Qed.

(** ** The key file *)

Definition starts_plain (l : bytes) : Prop := match l with [] => True | b :: _ => plain_char b = true end.

Lemma drop_while_plain fuel ps l :
  Forall (λ p, match p with [] => false | b :: _ => negb (plain_char b) end = true) ps → starts_plain l → drop_while_prefix fuel ps l = l.
Proof.
  intros HP Hl. destruct fuel as [|fuel]; [done|]. cbn [drop_while_prefix].
  assert (filter (λ p, p `prefix_of` l) ps = []) as ->; [|done].
  induction HP as [|p ps Hp _ IH]; [done|]. rewrite filter_cons_False; [done|]. destruct p as [|b p]; [done|].
  intros [k E]. destruct l as [|c l]; [done|]. simpl in *. simplify_eq. by rewrite Hl in Hp.
Qed.

Lemma TrimSpace_line s : plain_text s → s ≠ [] → TrimSpace (bs (s ++ [newline])) = bs s.
Proof.
  intros Hs Hne. unfold TrimSpace. rewrite sb_bs. cbv zeta.
  rewrite (drop_while_plain _ go_spaces); [|by apply (bool_decide_unpack _); vm_compute|destruct s; [done|by apply Forall_cons in Hs as [? _]]]. f_equal.
  rewrite reverse_app. change (reverse [newline]) with [newline]. rewrite length_app. cbn [length app]. rewrite Nat.add_1_r. cbn [drop_while_prefix].
  change (head (filter _ (reverse <$> go_spaces))) with (Some [newline]). cbn [length drop]. rewrite drop_0.
  rewrite drop_while_plain; [by rewrite reverse_involutive|by apply (bool_decide_unpack _); vm_compute|].
  apply Forall_reverse in Hs. destruct (reverse s); [done|by apply Forall_cons in Hs as [? _]].
Qed.

(** The key that was generated is loaded, from a file that is private. *)
Lemma record_key_roundtrip key perm : length key = RecordKeyLen → Z.land perm 63 = 0 →
  LoadRecordKey (Some perm) (GenerateRecordKey false (Some key)) = Some key.
Proof.
  intros Hk Hp. unfold LoadRecordKey, GenerateRecordKey. cbn [mbind option_bind]. rewrite Hp. cbn [negb Z.eqb].
  rewrite TrimSpace_line by (apply hex_plain || by destruct key). rewrite bs_sb, hex_roundtrip. cbn [mbind option_bind]. by rewrite Hk.
Qed.

End journal.
