(* ===== verification/Auditor.v ===== *)
(** What an auditor checks: the verification of records against the log of the cell, [src/registry/record_store.go] (second half), and
    the command [src/registry/cmd/tbp-audit/main.go].

    The client of the transparency log, its hashes and its proofs are third-party code: [LogClient] of Watcher, [LogProofs], and
    [log_view] for what one reading of the log answers. The log may change between two readings. *)
From S2P Require Import Prelude.
From S2P Require Import Leaf.
From S2P Require Import GoStrings.
From S2P Require Import Arbiter.
From S2P Require Import Watcher.
From S2P Require Import Journal.

Local Open Scope Z_scope.

(** A signed checkpoint and its text, and the verification of a proof of inclusion: index, size, hash, proof, root. *)
Class LogProofs := {
  note_Open : bytes → option bytes;
  checkpoint_Unmarshal : bytes → option (Z * bytes);
  VerifyInclusion : Z → Z → bytes → list bytes → bytes → bool;
}.

Record log_view := mkLogView {
  lv_checkpoint : option bytes;            (* ReadCheckpoint *)
  lv_hashes : Z → option (list bytes);     (* FetchLeafHashes up to a size *)
  lv_builder : Z → bool;                   (* NewProofBuilder for a size *)
  lv_proof : Z → Z → option (list bytes);  (* InclusionProof in a size, at an index *)
}.

Inductive verify_error := VErrHash | VErrCheckpoint | VErrSignature | VErrRead | VErrNotInLog | VErrBuilder | VErrProof | VErrInclusion.

#[global] Instance Leaf_countable : Countable Leaf :=
  inj_countable' (λ l, (Kind l, CellID l, PayloadHash l, Timestamp l)) (λ x, let '(k, c, h, t) := x in mkLeaf k c h t)
    ltac:(by intros []).

Section audit.
Context `{Crypto, LogClient, LogProofs}.

(** [ParseCheckpoint] ([src/registry/cell_log.go]): the size and the root. *)
Definition ParseCheckpoint (raw : bytes) : option (Z * bytes) := text ← note_Open raw; checkpoint_Unmarshal text.

(** The search of [VerifyInLog]. *)
Fixpoint index_of (want : bytes) (i : Z) (hashes : list bytes) : option Z :=
  match hashes with
  | [] => None
  | h :: hashes => if bool_decide (h = want) then Some i else index_of want (i + 1) hashes
  end.

(** [VerifyInLog]. *)
Definition VerifyInLog (v : log_view) (r : journal_entry) : verify_error + Z :=
  if negb (VerifyHash (je_sealed r)) then inl VErrHash
  else match lv_checkpoint v with
  | None => inl VErrCheckpoint
  | Some raw =>
  match ParseCheckpoint raw with
  | None => inl VErrSignature
  | Some (size, root) =>
      let want := HashLeaf (je_LeafData r) in
      match lv_hashes v size with
      | None => inl VErrRead
      | Some hashes =>
      match index_of want 0 hashes with
      | None => inl VErrNotInLog
      | Some idx =>
          if negb (lv_builder v size) then inl VErrBuilder
          else match lv_proof v size idx with
               | None => inl VErrProof
               | Some p => if VerifyInclusion idx size want p root then inr idx else inl VErrInclusion
               end
      end end
  end end.

(** The map of [VerifyRecordsInLog] from hashes to indices: the first index of a hash is kept. *)
Fixpoint index_map (i : Z) (hashes : list bytes) (m : gmap bytes Z) : gmap bytes Z :=
  match hashes with
  | [] => m
  | h :: hashes => index_map (i + 1) hashes (match m !! h with Some _ => m | None => <[h := i]> m end)
  end.

(** [VerifyRecordsInLog]: one reading for all the records; the error is that of the reading. *)
Definition VerifyRecordsInLog (v : log_view) (recs : list journal_entry) : list bool * option verify_error :=
  let none := (λ _, false) <$> recs in
  if bool_decide (recs = []) then (none, None)
  else match lv_checkpoint v with
  | None => (none, Some VErrCheckpoint)
  | Some raw =>
  match ParseCheckpoint raw with
  | None => (none, Some VErrSignature)
  | Some (size, root) =>
  match lv_hashes v size with
  | None => (none, Some VErrRead)
  | Some hashes =>
      let index := index_map 0 hashes ∅ in
      if negb (lv_builder v size) then (none, Some VErrBuilder)
      else ((λ r,
        if negb (VerifyHash (je_sealed r)) then false
        else
          let want := HashLeaf (je_LeafData r) in
          match index !! want with
          | None => false
          | Some idx =>
              match lv_proof v size idx with
              | None => false
              | Some p => VerifyInclusion idx size want p root
              end
          end) <$> recs, None)
  end end end.

(** ** The command *)

Inductive record_status := HashOk | Included (idx : Z) | Orphan | HashDiffers | Rejected.

(** [failureCode]. *)
Definition failureCode (e : verify_error) : record_status :=
  match e with VErrNotInLog => Orphan | VErrHash => HashDiffers | _ => Rejected end.

Record verify_flags := mkFlags {
  vf_records : string; vf_key : string; vf_log : string; vf_vkey : string; vf_vkeyFile : string;
  vf_index : Z; vf_reveal : bool; vf_coverage : bool; vf_noCoverage : bool }.

(** What the command finds outside: the key file, the journal, the file of the public key, whether a text is a public key,
    the log at the reading of the [n]th record, and the log at the reading of its leaves. *)
Record audit_env := mkAuditEnv {
  ae_keyPerm : option Z; ae_keyRaw : option bytes; ae_file : option bytes; ae_vkeyRaw : option bytes;
  ae_verifier : string → bool; ae_view : nat → log_view; ae_checkpoint : option Z; ae_leaves : log_read }.

(** A line of the output: the number of the record, its leaf, its status, the record if it is revealed. *)
Record audit_line := mkAuditLine { al_number : nat; al_leaf : Leaf; al_status : record_status; al_record : option bytes }.

(** One record: [None] when it is passed over. *)
Definition verify_record (f : verify_flags) (v : log_view) (i : nat) (r : journal_entry) : option (bool * audit_line) :=
  let line failed status :=
    Some (failed, mkAuditLine (S i) (sl_Leaf (je_sealed r)) status
                    (if vf_reveal f && negb failed then Some (sl_Record (je_sealed r)) else None)) in
  if bool_decide (vf_log f = "") then
    if VerifyHash (je_sealed r) then line false HashOk else line true HashDiffers
  else match VerifyInLog v r with
       | inr idx => if (0 <=? vf_index f) && negb (idx =? vf_index f) then None else line false (Included idx)
       | inl e => line true (failureCode e)
       end.

Fixpoint verify_records (f : verify_flags) (views : nat → log_view) (i : nat) (recs : list journal_entry) : list (bool * audit_line) :=
  match recs with
  | [] => []
  | r :: recs =>
      match verify_record f (views i) i r with
      | Some x => x :: verify_records f views (S i) recs
      | None => verify_records f views (S i) recs
      end
  end.

(** The loop of [uncoveredLeaves] over the leaves of the log, with what is left of the journal. *)
Definition journaled (recs : list journal_entry) : gmap Leaf nat :=
  foldl (λ m r, let l := sl_Leaf (je_sealed r) in <[l := S (default 0%nat (m !! l))]> m) ∅ recs.

Fixpoint uncovered_loop (i : Z) (leaves : list Leaf) (m : gmap Leaf nat) : list (Z * Leaf) :=
  match leaves with
  | [] => []
  | l :: leaves =>
      match m !! l with
      | Some (S n) => uncovered_loop (i + 1) leaves (<[l := n]> m)
      | _ => (i, l) :: uncovered_loop (i + 1) leaves m
      end
  end.

(** [uncoveredLeaves]: the leaves without a record, and how many leaves there are. *)
Definition uncoveredLeaves (checkpoint : option Z) (r : log_read) (recs : list journal_entry) :
    option (list (Z * Leaf) * nat) :=
  match NewChainWatcher "tbp-audit" true checkpoint r 0 with
  | inl _ => None
  | inr (leaves, _) => Some (uncovered_loop 0 leaves (journaled recs), length leaves)
  end.

Record audit_result := mkAudit { au_exit : Z; au_lines : list audit_line; au_uncovered : list (Z * Leaf) }.
Definition audit_usage : audit_result := mkAudit 2 [] [].

Definition run_coverage (f : verify_flags) : bool :=
  bool_decide (vf_log f ≠ "") && negb (vf_noCoverage f) && ((vf_index f <? 0) || vf_coverage f).

(** The public key of the log: [None] is an error of its options. *)
Definition audit_verifier (env : audit_env) (f : verify_flags) : option unit :=
  if bool_decide (vf_log f = "") then Some tt
  else
    vk ← (if bool_decide (vf_vkeyFile f = "") then Some (vf_vkey f) else bs <$> ae_vkeyRaw env);
    if bool_decide (TrimSpace vk = "") then None else if ae_verifier env (TrimSpace vk) then Some tt else None.

Definition audit_flags_ok (f : verify_flags) : bool :=
  bool_decide (vf_records f ≠ "") && bool_decide (vf_key f ≠ "")
  && negb ((0 <=? vf_index f) && bool_decide (vf_log f = ""))
  && negb (vf_coverage f && bool_decide (vf_log f = ""))
  && negb (vf_coverage f && vf_noCoverage f).

Context `{AEAD}.

(** [cmdVerify], after its options are parsed. *)
Definition cmdVerify (env : audit_env) (f : verify_flags) : audit_result :=
  if negb (audit_flags_ok f) then audit_usage
  else match LoadRecordKey (ae_keyPerm env) (ae_keyRaw env) with
  | None => audit_usage
  | Some key =>
  match ReadRecords key (ae_file env) with
  | inl _ => audit_usage
  | inr recs =>
  match audit_verifier env f with
  | None => audit_usage
  | Some _ =>
      let out := verify_records f (ae_view env) 0 recs in
      let failed := length (filter (λ x, x.1 = true) out) in
      if (0 <=? vf_index f) && bool_decide (out = []) then mkAudit 1 [] []
      else if run_coverage f then
        match uncoveredLeaves (ae_checkpoint env) (ae_leaves env) recs with
        | None => mkAudit (if (0 <? failed)%nat then 1 else 2) out.*2 []
        | Some (uncovered, _) => mkAudit (if (0 <? failed + length uncovered)%nat then 1 else 0) out.*2 uncovered
        end
      else mkAudit (if (0 <? failed)%nat then 1 else 0) out.*2 []
  end end end.

(** ** One reading for all the records *)

Lemma index_map_lookup i hashes m w :
  index_map i hashes m !! w = match m !! w with Some x => Some x | None => index_of w i hashes end.
Proof.
  revert i m. induction hashes as [|h hashes IH]; intros i m; cbn [index_map index_of]; [by destruct (m !! w)|].
  rewrite IH. destruct (decide (h = w)) as [->|Hw].
  - rewrite bool_decide_true by done. destruct (m !! w) eqn:E; [by rewrite E|]. by rewrite lookup_insert_eq.
  - rewrite bool_decide_false by done. destruct (m !! h); [done|]. by rewrite lookup_insert_ne.
Qed.

(** Whether a record is verified in the log. *)
Definition in_log (v : log_view) (r : journal_entry) : bool := match VerifyInLog v r with inr _ => true | inl _ => false end.

Lemma batch_verdicts v recs :
  (VerifyRecordsInLog v recs).1 = in_log v <$> recs ∧
  ((VerifyRecordsInLog v recs).2 = None ↔
   recs = [] ∨ ∃ raw size root hashes, lv_checkpoint v = Some raw ∧ ParseCheckpoint raw = Some (size, root) ∧
     lv_hashes v size = Some hashes ∧ lv_builder v size = true).
Proof.
  unfold VerifyRecordsInLog. case_bool_decide as Hnil; [subst; split; [done|]; split; auto|].
  assert ((∀ r, in_log v r = false) → (λ _, false) <$> recs = in_log v <$> recs) as HN by (intros HF; apply list_fmap_ext; by intros).
  unfold in_log, VerifyInLog in *.
  destruct (lv_checkpoint v) as [raw|] eqn:EC; [|split; [apply HN; intros r; by destruct (negb _)|split; [done|intros [?|(?&?&?&?&?&_)]; by simplify_eq]]].
  destruct (ParseCheckpoint raw) as [[size root]|] eqn:EP; [|split; [apply HN; intros r; by destruct (negb _)|split; [done|intros [?|(?&?&?&?&[= <-]&?&_)]; by simplify_eq]]].
  destruct (lv_hashes v size) as [hashes|] eqn:EH;
    [|split; [apply HN; intros r; by destruct (negb _)|split; [done|intros [?|(?&?&?&?&[= <-]&?&?&_)]; by simplify_eq]]].
  destruct (lv_builder v size) eqn:EB; cbn [negb].
  - split; [|by split; [right; exists raw, size, root, hashes|]]. apply list_fmap_ext. intros _ r _. cbv beta. destruct (negb (VerifyHash _)); [done|].
    cbv zeta. rewrite index_map_lookup, lookup_empty. destruct (index_of _ 0 hashes) as [idx|]; [|done].
    destruct (lv_proof v size idx); [|done]. by destruct (VerifyInclusion _ _ _ _ _).
  - split; [apply HN; intros r; destruct (negb (VerifyHash _)); [done|]; cbv zeta; by destruct (index_of _ _ _)|].
    split; [done|intros [?|(?&?&?&?&[= <-]&?&?&?)]; simplify_eq; congruence].
Qed.

(** C37: the two verifications agree. On one state of the log, VerifyRecordsInLog, which reads the log once and looks leaves up
    in a map, finds verified exactly the records that VerifyInLog verifies, also when the log cannot be read; it returns an
    error exactly when there is a record and the checkpoint, the hashes or the proofs are unavailable. *)
Theorem batch_verification_equivalent v recs :
  (VerifyRecordsInLog v recs).1 = in_log v <$> recs ∧
  ((VerifyRecordsInLog v recs).2 = None ↔
   recs = [] ∨ ∃ raw size root hashes, lv_checkpoint v = Some raw ∧ ParseCheckpoint raw = Some (size, root) ∧
     lv_hashes v size = Some hashes ∧ lv_builder v size = true).
Proof. apply batch_verdicts. Qed.

(** ** Coverage *)

Definition times (l : Leaf) (ls : list Leaf) : nat := length (filter (λ x, x = l) ls).

Definition leaves_of_journal (recs : list journal_entry) : list Leaf := (λ r, sl_Leaf (je_sealed r)) <$> recs.

Lemma times_cons l x ls : times l (x :: ls) = ((if decide (x = l) then 1 else 0) + times l ls)%nat.
Proof. unfold times. rewrite filter_cons. by case_decide. Qed.

Lemma times_app l ls ks : times l (ls ++ ks) = (times l ls + times l ks)%nat.
Proof. unfold times. by rewrite filter_app, length_app. Qed.

Lemma journaled_lookup recs l : default 0%nat (journaled recs !! l) = times l (leaves_of_journal recs).
Proof.
  unfold journaled, leaves_of_journal. induction recs as [|r recs IH] using rev_ind; [done|].
  rewrite foldl_app, fmap_app, times_app, <-IH. cbn [foldl fmap list_fmap]. rewrite times_cons. change (times l []) with 0%nat.
  case_decide as E; [rewrite E, lookup_insert_eq|rewrite lookup_insert_ne by done]; simpl; lia.
Qed.

(** A leaf is listed as often as it is in the log more than in the journal. *)
Lemma uncovered_times i leaves m l :
  times l (uncovered_loop i leaves m).*2 = (times l leaves - default 0%nat (m !! l))%nat.
Proof.
  revert i m. induction leaves as [|x leaves IH]; intros i m; cbn [uncovered_loop]; [done|]. rewrite times_cons.
  destruct (m !! x) as [[|n]|] eqn:E.
  - cbn [fmap list_fmap snd]. rewrite times_cons, IH. case_decide; [subst; rewrite E; simpl; lia|lia].
  - rewrite IH. case_decide as Hx; [subst; rewrite lookup_insert_eq, E; simpl; lia|by rewrite lookup_insert_ne].
  - cbn [fmap list_fmap snd]. rewrite times_cons, IH. case_decide; [subst; rewrite E; simpl; lia|lia].
Qed.

Lemma times_none ls : (∀ l, times l ls = 0%nat) → ls = [].
Proof. destruct ls as [|x ls]; [done|]. intros HT. specialize (HT x). rewrite times_cons, decide_True in HT by done. lia. Qed.

Lemma uncovered_nil leaves recs :
  uncovered_loop 0 leaves (journaled recs) = [] ↔ ∀ l, (times l leaves ≤ times l (leaves_of_journal recs))%nat.
Proof.
  split.
  - intros E l. pose proof (uncovered_times 0 leaves (journaled recs) l) as HT. rewrite E, journaled_lookup in HT. cbn in HT. lia.
  - intros HL. apply (fmap_nil_inv snd). apply times_none. intros l. rewrite uncovered_times, journaled_lookup. specialize (HL l). lia.
Qed.

(** ** What a successful audit says *)

(** The default verification against a log: no index, coverage not switched off. *)
Definition full_audit (f : verify_flags) : Prop :=
  vf_records f ≠ "" ∧ vf_key f ≠ "" ∧ vf_log f ≠ "" ∧ vf_index f < 0 ∧ vf_noCoverage f = false.

Lemma verify_records_ok f views i recs : vf_log f ≠ "" → vf_index f < 0 →
  (length (filter (λ x, x.1 = true) (verify_records f views i recs)) = 0%nat ↔
   ∀ k r, recs !! k = Some r → in_log (views (i + k)%nat) r = true).
Proof.
  intros HL HI. revert i. induction recs as [|r recs IH]; intros i; cbn [verify_records]; [by split; intros|].
  unfold verify_record. rewrite bool_decide_false by done. rewrite (proj2 (Z.leb_gt 0 _)) by done. cbn [andb].
  assert ((∀ k r', (r :: recs) !! k = Some r' → in_log (views (i + k)%nat) r' = true) ↔
          in_log (views i) r = true ∧ ∀ k r', recs !! k = Some r' → in_log (views (S i + k)%nat) r' = true) as ->.
  { split.
    - intros HK. split; [specialize (HK 0%nat r eq_refl); by rewrite Nat.add_0_r in HK|]. intros k r' Hk.
      specialize (HK (S k) r' Hk). by rewrite <-plus_n_Sm in HK.
    - intros [H1' H2'] [|k] r' Hk; simpl in Hk; [injection Hk as <-; by rewrite Nat.add_0_r|]. rewrite <-plus_n_Sm. by apply H2'. }
  rewrite <-IH. unfold in_log. destruct (VerifyInLog (views i) r) as [e|idx].
  - rewrite filter_cons_True by done. cbn [length]. split; [lia|by intros [? _]].
  - rewrite filter_cons_False by done. cbn [length]. tauto.
Qed.

(** C26: a successful audit. The default tbp-audit verify against a log exits with 0 exactly when its key and the journal can be read,
    every record of the journal explains a leaf found in the signed log with a valid proof of inclusion, the leaves of
    the log verify, and each of them has at least as many records in the journal as it has places in the log: nothing
    was altered, and nothing was erased. *)
Theorem audit_succeeds_exactly env f : full_audit f →
  (au_exit (cmdVerify env f) = 0 ↔
   ∃ key recs leaves w, LoadRecordKey (ae_keyPerm env) (ae_keyRaw env) = Some key ∧ ReadRecords key (ae_file env) = inr recs ∧
     audit_verifier env f = Some tt ∧
     (∀ i r, recs !! i = Some r → VerifyHash (je_sealed r) = true ∧ ∃ idx, VerifyInLog (ae_view env i) r = inr idx) ∧
     NewChainWatcher "tbp-audit" true (ae_checkpoint env) (ae_leaves env) 0 = inr (leaves, w) ∧
     ∀ l, (times l leaves ≤ times l (leaves_of_journal recs))%nat).
Proof.
  intros (HR & HK & HL & HI & HN). unfold cmdVerify. assert (audit_flags_ok f = true) as ->.
  { unfold audit_flags_ok. rewrite HN, !(bool_decide_true (_ ≠ _)), !(bool_decide_false (_ = _)) by done. by rewrite !andb_false_r. }
  cbn [negb]. destruct (LoadRecordKey _ _) as [key|]; [|split; [done|by intros (?&?&?&?&?&_)]].
  destruct (ReadRecords key (ae_file env)) as [e|recs] eqn:ER; [split; [done|intros (?&?&?&?&[= <-]&?&_); congruence]|].
  destruct (audit_verifier env f) as [[]|]; [|split; [done|by intros (?&?&?&?&?&?&?&_)]].
  pose proof (verify_records_ok f (ae_view env) 0 recs HL HI) as HV. cbv zeta. rewrite (proj2 (Z.leb_gt 0 _)) by done. cbn [andb].
  unfold run_coverage. rewrite HN, (proj2 (Z.ltb_lt _ _)), (bool_decide_true (_ ≠ _)) by done. cbn [andb orb negb].
  unfold uncoveredLeaves. destruct (NewChainWatcher _ _ _ _ _) as [e|[leaves w]] eqn:EW.
  { split; [by destruct (_ <? _)%nat|by intros (?&?&?&?&?&?&?&?&?&_)]. }
  set (out := verify_records _ _ _ _) in *. set (un := uncovered_loop _ _ _) in *. cbn [au_exit].
  assert (((if (0 <? length (filter (λ x, x.1 = true) out) + length un)%nat then 1 else 0) = 0) ↔
    length (filter (λ x, x.1 = true) out) = 0%nat ∧ un = []) as ->.
  { destruct (Nat.ltb_spec 0 (length (filter (λ x, x.1 = true) out) + length un)) as [Hlt|Hge]; [split; [done|intros [E1 E2]]; rewrite E1, E2 in Hlt; simpl in Hlt; lia|].
    split; [|done]. intros _. destruct un; simpl in Hge; split; lia || done. }
  rewrite HV. unfold un. rewrite uncovered_nil. split.
  - intros [G1 G2]. exists key, recs, leaves, w. split_and!; try done. intros i r Hi. specialize (G1 i r Hi). simpl in G1. unfold in_log in G1.
    destruct (VerifyInLog (ae_view env i) r) as [|idx] eqn:EV; [done|]. split; [|by exists idx].
    unfold VerifyInLog in EV. by destruct (VerifyHash (je_sealed r)).
  - intros (key' & recs' & leaves' & w' & [= <-] & E1 & _ & G1 & E2 & G2). rewrite ER in E1. simplify_eq. split; [|exact G2].
    intros k r Hk. unfold in_log. destruct (G1 k r Hk) as [_ [idx E3]]. cbn [Nat.add]. by rewrite E3.
Qed.

End audit.
