(* ===== verification/Mirror.v ===== *)
(** The mirror cell of a broker and the state restored at its start: [src/broker/cmd/brokerd/mirror.go] and
    [src/broker/cmd/brokerd/persistence.go].

    The gate keeps the promotion that was last accepted. Its [Promote] decides under the lock of the controller and sets its own state
    afterwards, so two promotions may interleave: [mg_decide] and [mg_set] are its two halves. At a start, the gate and the queue of
    the arbiter are restored from the journal, and what grants a right only from records whose leaf is in the signed log. *)
From S2P Require Import Prelude.
From S2P Require Import Hex.
From S2P Require Import Leaf.
From S2P Require Import Effects.
From S2P Require Import Token.
From S2P Require Import Controllers.
From S2P Require Import Epoch.
From S2P Require Import Promotion.
From S2P Require Import Arbiter.
From S2P Require Import Registries.
From S2P Require Import Watcher.
From S2P Require Import Journal.
From S2P Require Import Auditor.

Local Open Scope Z_scope.

(** ** Configuration *)

Record mirrorConfig := mkMirrorConfig { mc_enabled : bool; mc_anchorsFile : string; mc_cellKeysFile : string }.

(** [mirrorFromEnv]; [None] is an error. *)
Definition mirrorFromEnv (anchors keys : string) (guardEnabled : bool) : option mirrorConfig :=
  if bool_decide (anchors = "") && bool_decide (keys = "") then Some (mkMirrorConfig false anchors keys)
  else if bool_decide (anchors = "") || bool_decide (keys = "") then None
  else if negb guardEnabled then None
  else Some (mkMirrorConfig true anchors keys).

(** [parseMirrorCellKeys], on the decoded map. *)
Definition mirror_key (id h : string) : option bytes :=
  pub ← hex_DecodeString h; if bool_decide (id = "") || negb (length pub =? 32)%nat then None else Some pub.
Definition parseMirrorCellKeys (doc : option (gmap string string)) : option (gmap string bytes) :=
  match doc with
  | None => None
  | Some raw =>
      if (size raw =? 0)%nat then None
      else if bool_decide (map_Forall (λ id h, mirror_key id h ≠ None) raw) then Some (map_imap mirror_key raw) else None
  end.

(** [loadMirrorCellKeys], on the size of the file and the document in it. *)
Definition loadMirrorCellKeys (file : option (Z * option (gmap string string))) : option (gmap string bytes) :=
  match file with
  | None => None
  | Some (size, doc) => if Z.shiftl 64 10 <? size then None else parseMirrorCellKeys doc
  end.

Record mirrorGate := mkMirrorGate {
  mg_self : string; mg_salt : bytes; mg_keys : gmap string bytes; mg_ctl : PromotionController; mg_src : FileAnchorSource;
  mg_cell : string; mg_epoch : Z; mg_end : Z }.

(** [newMirrorGate]. *)
Definition newMirrorGate (cfg : mirrorConfig) (self : string) (salt : bytes) (leaves journal : bool) (controllers : gmap Z bytes)
    (quorum : Z) (file : option (Z * option (gmap string string))) : option mirrorGate :=
  keys ← loadMirrorCellKeys file;
  match keys !! self with
  | Some _ => None
  | None =>
      src ← NewFileAnchorSource (mc_anchorsFile cfg) controllers quorum;
      ctl ← NewPromotionController self salt leaves journal true keys;
      Some (mkMirrorGate self salt keys ctl src "" 0 zero_time)
  end.

(** [systemClassOf]: whether a subject is a critical system. *)
Definition systemClassOf `{AgentRegistry R} (reg : R) (subject : string) : bool :=
  match resolve_agent reg subject with
  | None => false
  | Some rec => match ag_Class rec with ClassF | ClassI | ClassW => true | ClassOut => false end
  end.

(** ** Status *)

(** [Status]: whether the promotion held is available, at the current epoch and a reading of the clock. *)
Definition mg_Available (epoch : option Z) (now : Z) (g : mirrorGate) : bool :=
  if bool_decide (mg_cell g = "") then false
  else match epoch with None => false | Some cur => (cur =? mg_epoch g) && (now <? mg_end g) end.

Definition mg_set (cell : string) (epoch end_ : Z) (g : mirrorGate) : mirrorGate :=
  mkMirrorGate (mg_self g) (mg_salt g) (mg_keys g) (mg_ctl g) (mg_src g) cell epoch end_.

(** ** Records *)

(** [parsePromotionRecord]: cell, epoch, bundle, whether promoted. *)
Definition parsePromotionRecord (rec : bytes) : option (string * Z * bytes * bool) :=
  if (length rec <? 7)%nat then None
  else
    let verdict := rec !!! 5%nat in
    let off := (7 + Z.to_nat (b2z (rec !!! 6%nat)))%nat in
    if (length rec <? off + 8 + 32 + 1)%nat then None
    else
      let cell := bs (take (off - 7) (drop 7 rec)) in
      let epoch := be_val (take 8 (drop off rec)) in
      let bundle := take 32 (drop (off + 8) rec) in
      let rl := Z.to_nat (b2z (rec !!! (off + 8 + 32)%nat)) in
      if negb (length rec =? off + 8 + 32 + 1 + rl)%nat then None
      else Some (cell, epoch, bundle, bool_decide (verdict = Byte.x01)).

Inductive mirror_error := MirrorRefused (e : promotion_error) | MirrorBody | MirrorNoWindow.

Section mirror.
Context `{Crypto, TimeParser}.

(** A record that [Restore] looks at, and the promotion in it. *)
Definition promotion_in (g : mirrorGate) (r : journal_entry) : option (string * Z * bytes) :=
  let s := je_sealed r in
  if bool_decide (Kind (sl_Leaf s) ≠ KindPromotion) || bool_decide (CellID (sl_Leaf s) ≠ mg_self g)
     || bool_decide (take 5 (sl_Record s) ≠ sb "TBPP1") || bool_decide (sl_Salt s ≠ mg_salt g) || negb (VerifyHash s) then None
  else match parsePromotionRecord (sl_Record s) with
       | Some (cell, epoch, bundle, true) => Some (cell, epoch, bundle)
       | _ => None
       end.

(** The loop of [Restore]: the last promotion. *)
Fixpoint last_promotion (g : mirrorGate) (recs : list journal_entry) (found : option (journal_entry * (string * Z * bytes))) :
    option (journal_entry * (string * Z * bytes)) :=
  match recs with
  | [] => found
  | r :: recs => last_promotion g recs (match promotion_in g r with Some p => Some (r, p) | None => found end)
  end.

(** [Restore]: the anchors are read twice; whether a promotion was restored. *)
Definition mg_Restore (recs : list journal_entry) (inLog : journal_entry → bool) (first second : option anchor_content) (now : Z)
    (g : mirrorGate) : bool * mirrorGate :=
  match last_promotion g recs None with
  | None => (false, g)
  | Some (r, (cell, epoch, bundle)) =>
      if negb (inLog r) then (false, g)
      else if bool_decide (mg_keys g !! cell = None) || bool_decide (cell = mg_self g) then (false, g)
      else if bool_decide (fas_BundleAnchor (mg_src g) first epoch ≠ Some bundle) then (false, g)
      else match fas_HealthyWindow (mg_src g) second epoch with
           | None => (false, g)
           | Some (_, end_) => if negb (now <? end_) then (false, g) else (true, mg_set cell epoch end_ g)
           end
  end.

(** ** Promotion *)

(** The first half of [Promote]: the verdict of the controller, then the window, from a third reading of the anchors. *)
Definition mg_decide `{Env} (g : mirrorGate) (first second third : option anchor_content) (now ts : Z) (doc : option SignedReceipt)
    (t : trace) : (mirror_error + (string * Z * Z)) * trace :=
  match @Promote _ _ _ (file_anchors (mg_src g) first second) (mg_ctl g) now ts doc t with
  | (Some e, t1) => (inl (MirrorRefused e), t1)
  | (None, t1) =>
      match doc with
      | None => (inl MirrorBody, t1)
      | Some sr =>
          match fas_HealthyWindow (mg_src g) third (rc_Epoch (sr_Receipt sr)) with
          | None => (inl MirrorNoWindow, t1)
          | Some (_, end_) => (inr (rc_CellID (sr_Receipt sr), rc_Epoch (sr_Receipt sr), end_), t1)
          end
      end
  end.

(** [Promote], when no other promotion comes in between. *)
Definition mg_Promote `{Env} (g : mirrorGate) (first second third : option anchor_content) (now ts : Z) (doc : option SignedReceipt)
    (t : trace) : option mirror_error * mirrorGate * trace :=
  match mg_decide g first second third now ts doc t with
  | (inl e, t1) => (Some e, g, t1)
  | (inr (cell, epoch, end_), t1) => (None, mg_set cell epoch end_ g, t1)
  end.

(** ** The state restored at a start *)

Definition restore_relevant (r : journal_entry) : bool :=
  let l := sl_Leaf (je_sealed r) in
  bool_decide (Kind l = KindPromotion)
  || (bool_decide (Kind l = KindTelemetry) && bool_decide (take 5 (sl_Record (je_sealed r)) = sb "TBAR2")).

(** What a start reads: the key, the journal, the log, the anchors at two readings, and the clock of the gate and of the queue. *)
Record restore_env := mkRestoreEnv {
  re_perm : option Z; re_raw : option bytes; re_file : option bytes; re_view : log_view;
  re_first : option anchor_content; re_second : option anchor_content; re_now : Z; re_queueNow : Z }.

Context `{AEAD, LogClient, LogProofs}.

(** The leaves found in the log, by their bytes. *)
Definition included_leaves (v : log_view) (relevant : list journal_entry) : list bytes :=
  je_LeafData <$> (filter (λ x, x.2 = true) (zip relevant (VerifyRecordsInLog v relevant).1)).*1.

Definition restore_alarm (t : trace) : trace := t ++ [EvAlarm "persistence-restore-failed"].

(** [restorePersistedState]. The queue is given the records without the bytes of their leaves, which are those of [Marshal]. *)
Definition restorePersistedState (env : restore_env) (mirror : option mirrorGate) (queue : option Queue) (t : trace) :
    option mirrorGate * option Queue * trace :=
  if bool_decide (is_Some mirror ∨ is_Some queue) then
    match LoadRecordKey (re_perm env) (re_raw env) with
    | None => (mirror, queue, restore_alarm t)
    | Some key =>
    match ReadRecords key (re_file env) with
    | inl _ => (mirror, queue, restore_alarm t)
    | inr recs =>
        let relevant := filter (λ r, restore_relevant r = true) recs in
        let included := included_leaves (re_view env) relevant in
        let t1 := match (VerifyRecordsInLog (re_view env) relevant).2 with None => t | Some _ => restore_alarm t end in
        let inLog r := bool_decide (je_LeafData r ∈ included) in
        let sealedInLog (s : SealedRecord) :=
          match Marshal (sl_Leaf s) with inr d => bool_decide (d ∈ included) | inl _ => false end in
        let queue := (λ q, (Restore (re_queueNow env) (je_sealed <$> recs) sealedInLog q).2) <$> queue in
        let mirror := (λ g, (mg_Restore recs inLog (re_first env) (re_second env) (re_now env) g).2) <$> mirror in
        (mirror, queue, t1)
    end end
  else (mirror, queue, t).

(** ** Records read back *)

(** The record of a promotion is parsed to what was promoted. *)
Lemma parse_promotionRecord verdict cell epoch bundle reason :
  (slen cell ≤ 255)%nat → 0 ≤ epoch < 2 ^ 64 → length bundle = 32%nat → (slen reason ≤ 255)%nat →
  parsePromotionRecord (promotionRecord verdict cell epoch bundle reason) = Some (cell, epoch, bundle, bool_decide (verdict = Byte.x01)).
Proof.
  intros Hc He Hb Hr. unfold promotionRecord. rewrite !take_ge by (rewrite length_sb; lia). rewrite !length_sb.
  set (tail := be 8 epoch ++ bundle ++ [z2b (Z.of_nat (slen reason))] ++ sb reason).
  set (rec := sb "TBPP1" ++ _).
  assert (Z.to_nat (b2z (z2b (Z.of_nat (slen cell)))) = slen cell) as Ec by (rewrite b2z_z2b, Z.mod_small; lia).
  assert (Z.to_nat (b2z (z2b (Z.of_nat (slen reason)))) = slen reason) as Er by (rewrite b2z_z2b, Z.mod_small; lia).
  assert (length rec = 7 + slen cell + 8 + 32 + 1 + slen reason)%nat as HL by (unfold rec, tail; len; rewrite ?Hb; lia).
  assert (drop 7 rec = sb cell ++ tail) as D7 by (by unfold rec).
  assert (drop (7 + slen cell) rec = tail) as Doff by (rewrite <-drop_drop, D7; apply drop_app_exact, length_sb).
  assert (drop (7 + slen cell + 8) rec = bundle ++ [z2b (Z.of_nat (slen reason))] ++ sb reason) as D8
    by (rewrite <-drop_drop, Doff; apply drop_app_exact, length_be).
  assert (rec !!! (7 + slen cell + 8 + 32)%nat = z2b (Z.of_nat (slen reason))) as EL.
  { rewrite <-(Nat.add_0_r (7 + slen cell + 8 + 32)), <-lookup_total_drop, <-drop_drop, D8, drop_app_exact by done. done. }
  unfold parsePromotionRecord. change (rec !!! 5%nat) with verdict. change (rec !!! 6%nat) with (z2b (Z.of_nat (slen cell))). cbv zeta.
  rewrite Ec, EL, Er, D7, Doff, D8, HL.
  rewrite (proj2 (Nat.ltb_ge _ 7)), (proj2 (Nat.ltb_ge _ _)), Nat.eqb_refl by lia. cbn [negb].
  replace (7 + slen cell - 7)%nat with (slen cell) by lia. unfold tail.
  rewrite !take_app_exact by (apply length_sb || apply length_be || done). rewrite bs_sb, be_val_be.
  by rewrite Z.mod_small.
Qed.

(** ** What a promotion held rests on *)

(** The source was shown a file, signed by the quorum of the controllers, with this entry for the epoch. *)
Definition anchored_entry (s : FileAnchorSource) (epoch : Z) (e : AnchorEntry) : Prop :=
  ∃ f es, anchors_valid s f es ∧ e ∈ es ∧ ae_Epoch e = epoch.

(** A leaf of the log commits to the promotion of the cell at the epoch, for the bundle that the controllers anchored; the
    window ends where they anchored it. *)
Definition promotion_backed (g : mirrorGate) (t : trace) (cell : string) (epoch end_ : Z) : Prop :=
  cell ∈ dom (mg_keys g) ∧ cell ≠ mg_self g ∧
  ∃ l rec bundle e1 e2,
    l ∈ leaves_of t ∧ Kind l = KindPromotion ∧ CellID l = mg_self g ∧ PayloadHash l = HashPayload (mg_salt g) rec ∧
    parsePromotionRecord rec = Some (cell, epoch, bundle, true) ∧
    anchored_entry (mg_src g) epoch e1 ∧ hex_DecodeString (ae_BundleHash e1) = Some bundle ∧
    anchored_entry (mg_src g) epoch e2 ∧ parse_rfc3339 (ae_WindowEnd e2) = Some end_.

(** The parts of a gate that no operation changes. *)
Definition same_gate (g g' : mirrorGate) : Prop :=
  mg_self g' = mg_self g ∧ mg_salt g' = mg_salt g ∧ mg_keys g' = mg_keys g ∧ mg_ctl g' = mg_ctl g ∧ mg_src g' = mg_src g.

Lemma promotion_backed_mono g g' t u cell epoch end_ :
  same_gate g g' → t `prefix_of` u → promotion_backed g t cell epoch end_ → promotion_backed g' u cell epoch end_.
Proof.
  intros (E1 & E2 & E3 & _ & E5) [d ->] (HD & HN & l & rec & bundle & e1 & e2 & Hl & HR). unfold promotion_backed.
  rewrite E1, E2, E3, E5. split_and!; [done..|]. exists l, rec, bundle, e1, e2. split; [|done]. rewrite leaves_of_app. by apply elem_of_app; left.
Qed.

Lemma lookup_anchored s file epoch e : fas_lookup s file epoch = Some e →
  anchored_entry s epoch e ∧ anchor_ok e.
Proof.
  intros (f & es & -> & HV & He & HE)%fas_lookup_spec. split; [by exists f, es|].
  destruct HV as (_ & sigs & _ & _ & _ & _ & _ & HF & _). rewrite Forall_forall in HF. auto.
Qed.

Lemma BundleAnchor_anchored s file epoch b : fas_BundleAnchor s file epoch = Some b →
  ∃ e, anchored_entry s epoch e ∧ hex_DecodeString (ae_BundleHash e) = Some b.
Proof.
  unfold fas_BundleAnchor. destruct (fas_lookup s file epoch) as [e|] eqn:E; [|done]. intros [= <-].
  apply lookup_anchored in E as [HA [[b (D & _)%bundle_of_spec] _]]. exists e. by rewrite D.
Qed.

Lemma HealthyWindow_anchored s file epoch start stop : fas_HealthyWindow s file epoch = Some (start, stop) →
  ∃ e, anchored_entry s epoch e ∧ parse_rfc3339 (ae_WindowEnd e) = Some stop.
Proof.
  unfold fas_HealthyWindow. destruct (fas_lookup s file epoch) as [e|] eqn:E; [|done]. intros [= <- <-].
  apply lookup_anchored in E as [HA [_ [[a z] (_ & P & _)%anchor_window_spec]]]. exists e. by rewrite P.
Qed.

(** What [newMirrorGate] guarantees. *)
Definition gate_ok (g : mirrorGate) : Prop :=
  pc_keys (mg_ctl g) = mg_keys g ∧ p_cellID (pc_producer (mg_ctl g)) = mg_self g ∧ p_salt (pc_producer (mg_ctl g)) = mg_salt g ∧
  mg_keys g !! mg_self g = None.

Lemma newMirrorGate_ok cfg self salt leaves journal controllers quorum file g :
  newMirrorGate cfg self salt leaves journal controllers quorum file = Some g → gate_ok g ∧ mg_cell g = "".
Proof.
  unfold newMirrorGate. destruct (loadMirrorCellKeys file) as [keys|]; [|done]. simpl. destruct (keys !! self) eqn:EK; [done|].
  destruct (NewFileAnchorSource _ _ _); [|done]. simpl. unfold NewPromotionController. repeat case_match; simplify_eq/=; try done.
  by intros [= <-].
Qed.

Lemma gate_ok_same g g' : same_gate g g' → gate_ok g → gate_ok g'.
Proof. intros (E1 & E2 & E3 & E4 & E5). unfold gate_ok. by rewrite E1, E2, E3, E4. Qed.

Lemma mg_set_same cell epoch end_ g : same_gate g (mg_set cell epoch end_ g).
Proof. by unfold same_gate. Qed.

(** The epoch of a decoded receipt is an unsigned integer of 64 bits. *)
Definition receipt_typed (doc : option SignedReceipt) : Prop :=
  match doc with Some sr => 0 ≤ rc_Epoch (sr_Receipt sr) < 2 ^ 64 | None => True end.

Lemma Promote_prefix `{Env, MasterAnchorSource} c now ts doc t : t `prefix_of` (Promote c now ts doc t).2.
Proof.
  assert (∀ v cell epoch b r, t `prefix_of` (pc_leaf c v cell epoch b r ts t).2) as HL by (intros; apply appendLeaf_prefix).
  assert (∀ cell epoch b r, t `prefix_of` (pc_refuse c cell epoch b r ts t).2) as HR.
  { intros cell epoch b r. unfold pc_refuse. specialize (HL Byte.x00 cell epoch b r). by destruct (pc_leaf _ _ _ _ _ _ _ _) as [[]]. }
  unfold Promote. destruct doc as [sr|]; [|done]. destruct (check_receipt c now sr) as [[b r]|b]; [done|].
  specialize (HL Byte.x01 (rc_CellID (sr_Receipt sr)) (rc_Epoch (sr_Receipt sr)) b "ok"). by destruct (pc_leaf _ _ _ _ _ _ _ _) as [[]].
Qed.

Lemma mg_decide_prefix `{Env} g first second third now ts doc t : t `prefix_of` (mg_decide g first second third now ts doc t).2.
Proof.
  unfold mg_decide. pose proof (@Promote_prefix _ (file_anchors (mg_src g) first second) (mg_ctl g) now ts doc t) as HP.
  destruct (Promote _ _ _ _ _) as [[e|] t1]; [done|]. destruct doc; [|done]. by destruct (fas_HealthyWindow _ _ _) as [[]|].
Qed.

(** An accepted promotion is backed by the leaf it wrote. *)
Lemma mg_decide_backed `{Env} g first second third now ts doc t cell epoch end_ t1 :
  gate_ok g → receipt_typed doc → mg_decide g first second third now ts doc t = (inr (cell, epoch, end_), t1) →
  promotion_backed g t1 cell epoch end_.
Proof.
  intros (EK & EC & ES & HS) HT. unfold mg_decide.
  pose proof (@Promote_admits _ _ _ (file_anchors (mg_src g) first second) (mg_ctl g) now ts doc t) as [HA _].
  destruct (Promote _ _ _ _ _) as [[e|] t1'] eqn:EP; [done|]. destruct (HA eq_refl) as (sr & bundle & -> & HV & HL).
  destruct (fas_HealthyWindow (mg_src g) third _) as [[a z]|] eqn:EW; [|done]. intros [= <- <- <- <-].
  destruct (HealthyWindow_anchored _ _ _ _ _ EW) as (e2 & A2 & W2). pose proof HV as EQ%check_receipt_spec.
  destruct HV as (Hlen & (pub & HK & _) & HB & _ & HBA & _).
  destruct (BundleAnchor_anchored _ _ _ _ HBA) as (e1 & A1 & B1). rewrite EK in HK. split_and!.
  - by apply elem_of_dom_2 in HK.
  - intros E. rewrite E in HK. congruence.
  - set (rec := promotionRecord Byte.x01 (rc_CellID (sr_Receipt sr)) (rc_Epoch (sr_Receipt sr)) bundle "ok").
    exists (leaf_for (pc_producer (mg_ctl g)) KindPromotion rec (UnixNano ts)), rec, bundle, e1, e2. split_and!; try done.
    + unfold Promote in EP. rewrite EQ in EP. unfold pc_leaf in *. pose proof (appendLeaf_observed (pc_producer (mg_ctl g)) KindPromotion rec (UnixNano ts) t) as HO.
      unfold rec in *. destruct (appendLeaf _ _ _ _ t) as [[e|] t2]; [done|]. simplify_eq. destruct HO as [-> _]. apply elem_of_app; right. by apply list_elem_of_singleton.
    + unfold leaf_for. simpl. by rewrite ES.
    + unfold rec. rewrite parse_promotionRecord; [done|lia|done| |by vm_compute; lia]. by apply bundle_of_spec in HB as [_ ?].
Qed.

(** ** Restoring *)

(** What the proofs of the log are for: a record verified in a reading of the log has its leaf among those appended. *)
Definition log_sound (v : log_view) (t : trace) : Prop :=
  ∀ r, UnmarshalLeaf (je_LeafData r) = inr (sl_Leaf (je_sealed r)) → in_log v r = true → sl_Leaf (je_sealed r) ∈ leaves_of t.

Lemma included_spec v relevant d : d ∈ included_leaves v relevant →
  ∃ r, r ∈ relevant ∧ je_LeafData r = d ∧ in_log v r = true.
Proof.
  unfold included_leaves. rewrite (proj1 (batch_verdicts v relevant)). intros (r & -> & Hr)%list_elem_of_fmap.
  apply list_elem_of_fmap in Hr as ([r' ok] & -> & [Hok Hz]%list_elem_of_filter). simpl in *. subst ok.
  assert (zip relevant (in_log v <$> relevant) = (λ r, (r, in_log v r)) <$> relevant) as EZ by (clear; induction relevant as [|x l IH]; [done|by cbn; rewrite IH]).
  rewrite EZ in Hz. apply list_elem_of_fmap in Hz as (x & [= -> E] & Hx). by exists x.
Qed.

Lemma ReadRecords_leaf key file rs r : ReadRecords key file = inr rs → r ∈ rs →
  UnmarshalLeaf (je_LeafData r) = inr (sl_Leaf (je_sealed r)).
Proof.
  unfold ReadRecords. destruct (negb _); [done|]. destruct file as [f|]; [|done]. intros HR%read_records_lines Hr. rewrite Forall_forall in HR.
  destruct (HR r Hr) as (line & (nonce & ct & plain & _ & HL & _)%openRecordLine_inv). done.
Qed.

Lemma last_promotion_spec g recs found r p : last_promotion g recs found = Some (r, p) →
  found = Some (r, p) ∨ (r ∈ recs ∧ promotion_in g r = Some p).
Proof.
  revert found. induction recs as [|x recs IH]; intros found; cbn [last_promotion]; [auto|].
  intros [E|[Hr HP]]%IH; [|right; split; [by right|done]]. destruct (promotion_in g x) eqn:EX; [|auto].
  injection E as <- <-. right. split; [by left|done].
Qed.

Lemma mg_Restore_same recs inLog first second now g : same_gate g (mg_Restore recs inLog first second now g).2.
Proof. unfold mg_Restore. repeat case_match; by unfold same_gate. Qed.

Lemma mg_Restore_cases recs inLog first second now g :
  (mg_Restore recs inLog first second now g).2 = g ∨
  ∃ r cell epoch bundle start end_, r ∈ recs ∧ promotion_in g r = Some (cell, epoch, bundle) ∧ inLog r = true ∧
    cell ∈ dom (mg_keys g) ∧ cell ≠ mg_self g ∧ fas_BundleAnchor (mg_src g) first epoch = Some bundle ∧
    fas_HealthyWindow (mg_src g) second epoch = Some (start, end_) ∧ now < end_ ∧
    (mg_Restore recs inLog first second now g).2 = mg_set cell epoch end_ g.
Proof.
  unfold mg_Restore. destruct (last_promotion g recs None) as [[r [[cell epoch] bundle]]|] eqn:EL; [|auto].
  apply last_promotion_spec in EL as [|[Hr HP]]; [done|]. destruct (inLog r) eqn:EI; [|auto]. cbn [negb].
  case_bool_decide as HK; [auto|]. case_bool_decide as HC; [auto|]. cbn [orb]. case_bool_decide as HB; [auto|].
  destruct (fas_HealthyWindow (mg_src g) second epoch) as [[start end_]|] eqn:EW; [|auto].
  destruct (Z.ltb_spec now end_); [|auto]. right. exists r, cell, epoch, bundle, start, end_. split_and!; try done.
  apply elem_of_dom. by apply not_eq_None_Some.
Qed.

Lemma promotion_in_spec g r cell epoch bundle : promotion_in g r = Some (cell, epoch, bundle) →
  Kind (sl_Leaf (je_sealed r)) = KindPromotion ∧ CellID (sl_Leaf (je_sealed r)) = mg_self g ∧
  PayloadHash (sl_Leaf (je_sealed r)) = HashPayload (mg_salt g) (sl_Record (je_sealed r)) ∧
  parsePromotionRecord (sl_Record (je_sealed r)) = Some (cell, epoch, bundle, true).
Proof.
  unfold promotion_in. case_bool_decide as H1'; [done|]. case_bool_decide as H2'; [done|]. case_bool_decide; [done|]. case_bool_decide as H3'; [done|].
  cbn [orb]. destruct (VerifyHash (je_sealed r)) eqn:EV; [|done]. cbn [negb].
  destruct (parsePromotionRecord _) as [[[[c e] b] []]|]; [|done..]. intros [= <- <- <-].
  apply bool_decide_eq_true in EV. rewrite H3' in EV. by split_and!.
Qed.

(** What is restored is backed by a leaf of the log. *)
Lemma restored_backed env g queue t g' q' t1 :
  log_sound (re_view env) t → mg_cell g = "" → restorePersistedState env (Some g) queue t = (Some g', q', t1) →
  t `prefix_of` t1 ∧ same_gate g g' ∧ (mg_cell g' = "" ∨ promotion_backed g' t1 (mg_cell g') (mg_epoch g') (mg_end g')).
Proof.
  intros HS H0'. unfold restorePersistedState. rewrite bool_decide_true by (left; done).
  assert (∀ u : trace, t `prefix_of` u → same_gate g g ∧ (mg_cell g = "" ∨ promotion_backed g u (mg_cell g) (mg_epoch g) (mg_end g))) as HN by (split; [done|auto]).
  assert (t `prefix_of` restore_alarm t) as HA by (by exists [EvAlarm "persistence-restore-failed"]).
  destruct (LoadRecordKey _ _) as [key|]; [|intros [= <- <- <-]; auto]. destruct (ReadRecords key (re_file env)) as [e|recs] eqn:ER; [intros [= <- <- <-]; auto|].
  set (relevant := filter _ recs). cbv zeta. intros [= <- _ Et]. assert (t `prefix_of` t1) as HP by (subst t1; by destruct (VerifyRecordsInLog _ _).2).
  split; [done|]. set (inLog := λ r, bool_decide (je_LeafData r ∈ included_leaves (re_view env) relevant)).
  split; [apply mg_Restore_same|]. destruct (mg_Restore_cases recs inLog (re_first env) (re_second env) (re_now env) g)
    as [->|(r & cell & epoch & bundle & start & end_ & Hr & HI & HL & HD & HC & HB & HW & _ & ->)]; [by left|]. right.
  apply bool_decide_eq_true in HL. apply included_spec in HL as (r' & Hr' & EL & HIL). apply list_elem_of_filter in Hr' as [_ Hr'].
  pose proof (ReadRecords_leaf _ _ _ _ ER Hr) as UR. pose proof (ReadRecords_leaf _ _ _ _ ER Hr') as UR'.
  assert (sl_Leaf (je_sealed r') = sl_Leaf (je_sealed r)) as Eq by (rewrite EL, UR in UR'; by injection UR').
  pose proof (HS r' UR' HIL) as Hin. rewrite Eq in Hin. destruct (promotion_in_spec _ _ _ _ _ HI) as (K1 & K2 & K3 & K4).
  destruct (BundleAnchor_anchored _ _ _ _ HB) as (e1 & A1 & B1). destruct (HealthyWindow_anchored _ _ _ _ _ HW) as (e2 & A2 & W2).
  apply (promotion_backed_mono g _ t); [apply mg_set_same|done|]. split_and!; [done..|].
  exists (sl_Leaf (je_sealed r)), (sl_Record (je_sealed r)), bundle, e1, e2. by split_and!.
Qed.

(** ** Any history *)

(** A gate, the promotions decided whose second half has not come yet, and the trace of the cell: promotions in any interleaving,
    anything other components write, and restarts, which forget everything but the journal and the log. *)
Inductive mirror_run `{Env} (g0 : mirrorGate) : mirrorGate → list (string * Z * Z) → trace → Prop :=
  | run_start : mirror_run g0 g0 [] []
  | run_others g p t u : mirror_run g0 g p t → mirror_run g0 g p (t ++ u)
  | run_decide g p t first second third now ts doc r t1 :
      mirror_run g0 g p t → receipt_typed doc → mg_decide g first second third now ts doc t = (r, t1) →
      mirror_run g0 g (match r with inr c => c :: p | inl _ => p end) t1
  | run_set g p t cell epoch end_ :
      mirror_run g0 g p t → (cell, epoch, end_) ∈ p → mirror_run g0 (mg_set cell epoch end_ g) p t
  | run_restart g p t env queue g' q' t1 :
      mirror_run g0 g p t → log_sound (re_view env) t → restorePersistedState env (Some g0) queue t = (Some g', q', t1) →
      mirror_run g0 g' [] t1.

Lemma mirror_run_backed `{Env} g0 g p t : gate_ok g0 → mg_cell g0 = "" → mirror_run g0 g p t →
  same_gate g0 g ∧ (mg_cell g = "" ∨ promotion_backed g t (mg_cell g) (mg_epoch g) (mg_end g)) ∧
  Forall (λ c, promotion_backed g t c.1.1 c.1.2 c.2) p.
Proof.
  intros HG H0'. induction 1 as [|g p t u _ (IS & IB & IP)|g p t first second third now ts doc r t1 _ (IS & IB & IP) HT HD
    |g p t cell epoch end_ _ (IS & IB & IP) Hin|g p t env queue g' q' t1 _ _ HL HR].
  - split_and!; [done|by left|constructor].
  - assert (t `prefix_of` t ++ u) as HP by (by exists u). split_and!; [done| |].
    + destruct IB as [?|?]; [by left|right; by apply (promotion_backed_mono g g t)].
    + eapply Forall_impl; [exact IP|]. intros c. by apply promotion_backed_mono.
  - pose proof (mg_decide_prefix g first second third now ts doc t) as HP. rewrite HD in HP. simpl in HP.
    assert (Forall (λ c, promotion_backed g t1 c.1.1 c.1.2 c.2) p) as IP1.
    { eapply Forall_impl; [exact IP|]. intros c. by apply promotion_backed_mono. }
    split_and!; [done|destruct IB as [?|?]; [by left|right; by apply (promotion_backed_mono g g t)]|].
    destruct r as [e|[[cell epoch] end_]]; [done|]. constructor; [|done]. eapply mg_decide_backed; [|done..]. by apply (gate_ok_same g0).
  - rewrite Forall_forall in IP. split_and!; [done| |].
    + right. apply (promotion_backed_mono g _ t); [apply mg_set_same|done|]. by apply (IP _ Hin).
    + apply Forall_forall. intros c Hc. apply (promotion_backed_mono g _ t); [apply mg_set_same|done|]. by apply IP.
  - destruct (restored_backed _ _ _ _ _ _ _ HL H0' HR) as (_ & HS & HB). by split_and!.
Qed.

(** C27: the mirror is available only on a promotion the controllers anchored. In any history of promotions in any interleaving,
    of restarts that restore from the journal, and of what other components write, when the gate reports its mirror available
    the promotion is of the current epoch, the present is before the end of a window the quorum of controllers signed, the
    mirror is a pinned cell other than this one, and a leaf of the log commits to its promotion for the anchored bundle. *)
Theorem mirror_available_only_if_promoted `{Env} cfg self salt leaves journal controllers quorum file g0 g p t epoch now :
  newMirrorGate cfg self salt leaves journal controllers quorum file = Some g0 → mirror_run g0 g p t →
  mg_Available epoch now g = true →
  epoch = Some (mg_epoch g) ∧ now < mg_end g ∧ promotion_backed g t (mg_cell g) (mg_epoch g) (mg_end g).
Proof.
  intros [HG H0']%newMirrorGate_ok HR HA. destruct (mirror_run_backed _ _ _ _ HG H0' HR) as (_ & HB & _). unfold mg_Available in HA.
  case_bool_decide as Hc; [done|]. destruct HB as [?|HB]; [done|]. destruct epoch as [cur|]; [|done].
  apply andb_prop in HA as [->%Z.eqb_eq ?%Z.ltb_lt]. done.
Qed.

End mirror.
