(* ===== verification/Operators.v ===== *)
(** The operators of a broker: [src/broker/cmd/brokerd/operators.go] and [plan_approvals.go].

    The keyring gives each key its roles; two checks at the start refuse a configuration under which the plans of an agent could never be
    approved. The last theorem compares them with what the plan store of PlanContract requires of a submission. *)
From S2P Require Import Prelude.
From S2P Require Import Hex.
From S2P Require Import Token.
From S2P Require Import Registries.
From S2P Require Import PlanContract.

Local Open Scope Z_scope.

(** ** The keyring *)

Inductive operator_role := roleSubmit | roleApprove | roleRevoke | roleArbitrate.
#[global] Instance operator_role_eq_dec : EqDecision operator_role.
Proof. solve_decision. Defined.

Definition operatorRoles : list string := ["submit"; "approve"; "revoke"; "arbitrate"].
Definition role_of (s : string) : option operator_role :=
  if bool_decide (s = "submit") then Some roleSubmit
  else if bool_decide (s = "approve") then Some roleApprove
  else if bool_decide (s = "revoke") then Some roleRevoke
  else if bool_decide (s = "arbitrate") then Some roleArbitrate
  else None.

Record operatorKeyring := mkKeyring {
  kr_All : list bytes; kr_Submitters : list bytes; kr_Approvers : list bytes; kr_Revokers : list bytes;
  kr_Arbiters : list bytes; kr_Refusers : list bytes }.

(** An item of the list: an object, with what the strict decoder makes of it, a string, or anything else. *)
Inductive operator_item :=
  | ItemObject (e : option (string * list string))
  | ItemString (pubHex : option string)
  | ItemOther.

(** The key and the roles of an item. *)
Definition item_entry (withRoles : bool) (item : operator_item) : option (string * list string) :=
  match item, withRoles with
  | ItemObject (Some (key, roles)), true => if bool_decide (key = "") || (length roles =? 0)%nat then None else Some (key, roles)
  | ItemString (Some key), false => Some (key, operatorRoles)
  | _, _ => None
  end.

Definition add_role (key : bytes) (r : operator_role) (k : operatorKeyring) : operatorKeyring :=
  let '(mkKeyring all su ap re ar rf) := k in
  match r with
  | roleSubmit => mkKeyring all (su ++ [key]) ap re ar rf
  | roleApprove => mkKeyring all su (ap ++ [key]) re ar rf
  | roleRevoke => mkKeyring all su ap (re ++ [key]) ar rf
  | roleArbitrate => mkKeyring all su ap re (ar ++ [key]) rf
  end.

(** The loop over the roles of a key: a repeated or an unknown role is refused. *)
Fixpoint add_roles (key : bytes) (roles held : list string) (k : operatorKeyring) : option operatorKeyring :=
  match roles with
  | [] => Some k
  | r :: roles =>
      if bool_decide (r ∈ held) then None
      else match role_of r with
           | None => None
           | Some role => add_roles key roles (r :: held) (add_role key role k)
           end
  end.

Definition add_key (key : bytes) (k : operatorKeyring) : operatorKeyring :=
  mkKeyring (kr_All k ++ [key]) (kr_Submitters k) (kr_Approvers k) (kr_Revokers k) (kr_Arbiters k) (kr_Refusers k).

(** The loop over the items; a key already seen is one of [kr_All]. *)
Fixpoint operators_loop (withRoles : bool) (items : list operator_item) (k : operatorKeyring) : option operatorKeyring :=
  match items with
  | [] => Some k
  | item :: items =>
      '(pubHex, roles) ← item_entry withRoles item;
      pub ← hex_DecodeString pubHex;
      if negb (length pub =? 32)%nat then None
      else if bool_decide (pub ∈ kr_All k) then None
      else k1 ← add_roles pub roles [] (add_key pub k); operators_loop withRoles items k1
  end.

(** Each key once, in order. *)
Fixpoint dedup_keys (seen keys : list bytes) : list bytes :=
  match keys with
  | [] => []
  | k :: keys => if bool_decide (k ∈ seen) then dedup_keys seen keys else k :: dedup_keys (k :: seen) keys
  end.

(** [loadOperatorKeyring], on the decoded list. *)
Definition loadOperatorKeyring (doc : option (list operator_item)) : option operatorKeyring :=
  items ← doc;
  match items with
  | [] => None
  | first :: _ =>
      let withRoles := match first with ItemObject _ => true | _ => false end in
      k ← operators_loop withRoles items (mkKeyring [] [] [] [] [] []);
      let k := mkKeyring (kr_All k) (kr_Submitters k) (kr_Approvers k) (kr_Revokers k) (kr_Arbiters k)
                 (dedup_keys [] (kr_Arbiters k ++ kr_Revokers k)) in
      if (length (kr_Approvers k) =? 0)%nat || (length (kr_Revokers k) =? 0)%nat || (length (kr_Arbiters k) =? 0)%nat then None
      else Some k
  end.

(** ** The checks of a start *)

Definition needs_quorum (c : Class_) : bool := match c with ClassF | ClassW => true | _ => false end.

(** [planApprovalsRequired]. *)
Definition planApprovalsRequired `{AgentRegistry R} (reg : R) (quorumMin : Z) (subject : string) : Z :=
  match resolve_agent reg subject with
  | None => 1
  | Some rec => if needs_quorum (ag_Class rec) then quorumMin else 1
  end.

(** [checkOperatorQuorum]: whether there is no error. *)
Definition checkOperatorQuorum (reg : StaticAgentRegistry) (quorumMin distinctOperators : Z) : bool :=
  (quorumMin <=? 1) || (quorumMin <=? distinctOperators) || bool_decide (map_Forall (λ _ rec, needs_quorum (ag_Class rec) = false) reg).

(** [separateDuties]. *)
Definition separateDuties (quorumMin : Z) : bool := 2 <=? quorumMin.

Section operators.
Context `{Crypto}.

Definition approver_kids (ring : operatorKeyring) : gset bytes := list_to_set (KeyIDFromPublicKey <$> kr_Approvers ring).

(** How many approvers a submitter leaves. *)
Definition left_by (ring : operatorKeyring) (submitter : bytes) : Z :=
  let n := Z.of_nat (size (approver_kids ring)) in
  if bool_decide (KeyIDFromPublicKey submitter ∈ approver_kids ring) then n - 1 else n.

Definition best_left (ring : operatorKeyring) : Z :=
  foldl (λ best k, if best <? left_by ring k then left_by ring k else best) 0 (kr_Submitters ring).

(** [checkSeparatedDuties]: whether there is no error. *)
Definition checkSeparatedDuties (reg : StaticAgentRegistry) (quorumMin : Z) (ring : operatorKeyring) : bool :=
  if negb (separateDuties quorumMin) then true
  else if (length (kr_Submitters ring) =? 0)%nat then false
  else
    let best := best_left ring in
    bool_decide (map_Forall (λ subject rec, ag_Class rec = ClassOut ∨ planApprovalsRequired reg quorumMin subject ≤ best) reg).

(** The two checks as the daemon runs them. *)
Definition operators_checked (reg : StaticAgentRegistry) (quorumMin : Z) (ring : operatorKeyring) : bool :=
  checkOperatorQuorum reg quorumMin (Z.of_nat (countDistinctKeys (kr_Approvers ring))) && checkSeparatedDuties reg quorumMin ring.

(** ** What the keyring holds *)

Definition role_keys (r : operator_role) (k : operatorKeyring) : list bytes :=
  match r with roleSubmit => kr_Submitters k | roleApprove => kr_Approvers k | roleRevoke => kr_Revokers k | roleArbitrate => kr_Arbiters k end.

Definition operators_wf (k : operatorKeyring) : Prop :=
  NoDup (kr_All k) ∧ Forall (λ key, length key = 32%nat) (kr_All k) ∧ ∀ r, role_keys r k `sublist_of` kr_All k.

Lemma role_of_inj s s' r : role_of s = Some r → role_of s' = Some r → s = s'.
Proof. unfold role_of. repeat case_bool_decide; naive_solver. Qed.

Lemma add_role_keys key r r' k : role_keys r' (add_role key r k) = role_keys r' k ++ (if decide (r = r') then [key] else []).
Proof. destruct k, r, r'; simpl; by rewrite ?app_nil_r. Qed.

Lemma add_role_All key r k : kr_All (add_role key r k) = kr_All k.
Proof. by destruct k, r. Qed.

(** Within the roles of one key: a role not met yet has only earlier keys. *)
Lemma add_roles_spec key all roles held k k' :
  kr_All k = all ++ [key] →
  (∀ r, role_keys r k `sublist_of` all ∨ (role_keys r k `sublist_of` all ++ [key] ∧ ∃ s, s ∈ held ∧ role_of s = Some r)) →
  add_roles key roles held k = Some k' →
  kr_All k' = all ++ [key] ∧ ∀ r, role_keys r k' `sublist_of` all ++ [key].
Proof.
  revert held k. induction roles as [|s roles IH]; intros held k HA HR; cbn [add_roles].
  { intros [= <-]. split; [done|]. intros r. destruct (HR r) as [Hs|[Hs _]]; [|done]. by apply sublist_inserts_r. }
  case_bool_decide as Hh; [done|]. destruct (role_of s) as [role|] eqn:Er; [|done]. apply IH; [by rewrite add_role_All|].
  intros r. rewrite add_role_keys. destruct (decide (role = r)) as [->|Hr].
  - right. split; [|exists s; split; [by left|done]]. apply sublist_app; [|done]. destruct (HR r) as [Hs|(_ & s' & Hs' & Es')]; [done|].
    destruct Hh. by rewrite (role_of_inj s s' r).
  - rewrite app_nil_r. destruct (HR r) as [Hs|(Hs & s' & Hs' & Es')]; [by left|right]. split; [done|]. exists s'. split; [by right|done].
Qed.

Lemma operators_loop_spec withRoles items k k' : operators_wf k → operators_loop withRoles items k = Some k' → operators_wf k'.
Proof.
  revert k. induction items as [|item items IH]; intros k HK; cbn [operators_loop]; [by intros [= <-]|].
  destruct (item_entry withRoles item) as [[pubHex roles]|]; [|done]. cbn [mbind option_bind].
  destruct (hex_DecodeString pubHex) as [pub|]; [|done]. cbn [mbind option_bind].
  destruct (Nat.eqb_spec (length pub) 32) as [HL|]; [|done]. cbn [negb]. case_bool_decide as Hn; [done|].
  destruct (add_roles pub roles [] (add_key pub k)) as [k1|] eqn:EA; [|done]. cbn [mbind option_bind]. apply IH.
  destruct HK as (HD & HF & HS). apply (add_roles_spec pub (kr_All k)) in EA as [EA ES]; [|done|intros r; left; specialize (HS r); by destruct r].
  split_and!; rewrite ?EA; [|apply Forall_app; split; [done|by constructor]|done].
  apply NoDup_app. split_and!; [done| |apply NoDup_singleton]. intros x Hx ->%list_elem_of_singleton. done.
Qed.

Lemma dedup_keys_spec seen keys :
  NoDup (dedup_keys seen keys) ∧ ∀ x, x ∈ dedup_keys seen keys ↔ x ∈ keys ∧ x ∉ seen.
Proof.
  revert seen. induction keys as [|k keys IH]; intros seen; cbn [dedup_keys]; [split; [constructor|set_solver]|].
  case_bool_decide as Hk.
  - destruct (IH seen) as [HD HE]. split; [done|]. intros x. rewrite HE. set_solver.
  - destruct (IH (k :: seen)) as [HD HE]. split; [constructor; [rewrite HE; set_solver|done]|]. intros x. rewrite elem_of_cons, HE.
    destruct (decide (x = k)) as [->|]; set_solver.
Qed.

(** The keyring that is loaded: distinct keys of 32 bytes; each role is held by some of them, in order and once; whoever arbitrates or
    revokes may refuse; approving, revoking and arbitrating are possible. *)
Theorem keyring_sound doc k : loadOperatorKeyring doc = Some k →
  operators_wf k ∧ NoDup (kr_Refusers k) ∧ (∀ key, key ∈ kr_Refusers k ↔ key ∈ kr_Arbiters k ∨ key ∈ kr_Revokers k) ∧
  kr_Approvers k ≠ [] ∧ kr_Revokers k ≠ [] ∧ kr_Arbiters k ≠ [].
Proof.
  unfold loadOperatorKeyring. destruct doc as [[|first items]|]; [done| |done]. cbn [mbind option_bind].
  destruct (operators_loop _ _ _) as [k0|] eqn:E; [|done]. cbn [mbind option_bind]. apply operators_loop_spec in E as HK;
    [|split_and!; [constructor|constructor|by intros []]]. cbn [kr_All kr_Submitters kr_Approvers kr_Revokers kr_Arbiters].
  destruct (Nat.eqb_spec (length (kr_Approvers k0)) 0); [done|]. destruct (Nat.eqb_spec (length (kr_Revokers k0)) 0); [done|].
  destruct (Nat.eqb_spec (length (kr_Arbiters k0)) 0); [done|]. intros [= <-]. cbn [kr_All kr_Submitters kr_Approvers kr_Revokers kr_Arbiters kr_Refusers].
  destruct (dedup_keys_spec [] (kr_Arbiters k0 ++ kr_Revokers k0)) as [HD HE]. split_and!.
  - by destruct HK as (? & ? & HS); split_and!; [..|intros r; specialize (HS r); by destruct r].
  - done.
  - intros key. rewrite HE, elem_of_app. set_solver.
  - by intros E0; rewrite E0 in *.
  - by intros E0; rewrite E0 in *.
  - by intros E0; rewrite E0 in *.
Qed.

(** ** What the checks say of the store *)

Lemma best_left_ge ring r : 0 < r → (r ≤ best_left ring ↔ ∃ s, s ∈ kr_Submitters ring ∧ r ≤ left_by ring s).
Proof.
  intros Hr. unfold best_left. generalize (kr_Submitters ring) as l. intros l.
  assert (∀ b, r ≤ foldl (λ best k, if best <? left_by ring k then left_by ring k else best) b l ↔ r ≤ b ∨ ∃ s, s ∈ l ∧ r ≤ left_by ring s) as HG.
  { induction l as [|x l IH]; intros b; cbn [foldl]; [set_solver|]. rewrite IH.
    destruct (Z.ltb_spec b (left_by ring x)); split.
    - intros [?|(s & ? & ?)]; [right; exists x|right; exists s]; set_solver.
    - intros [?|(s & [->|?]%elem_of_cons & ?)]; [left; lia|by left|right; eauto].
    - intros [?|(s & ? & ?)]; [by left|right; exists s; set_solver].
    - intros [?|(s & [->|?]%elem_of_cons & ?)]; [by left|left; lia|right; eauto]. }
  rewrite HG. split; [intros [?|?]; [lia|done]|by right].
Qed.

(** What the check counts is what the store counts for a submission signed by that key. *)
Lemma left_by_store g ring s sub : cc_approverKeys g = kr_Approvers ring → ss_kid sub = KeyIDFromPublicKey s →
  left_by ring s = Z.of_nat (approversApartFrom g (Some sub)).
Proof.
  intros EA EK. unfold left_by, approversApartFrom, approver_kids. rewrite EA, EK. set (kids := KeyIDFromPublicKey <$> kr_Approvers ring).
  set (kid := KeyIDFromPublicKey s). assert (list_to_set (filter (λ k, k ≠ kid) kids) = (list_to_set kids ∖ {[kid]} : gset bytes)) as ->.
  { apply set_eq. intros x. rewrite elem_of_list_to_set, list_elem_of_filter, elem_of_difference, elem_of_list_to_set, elem_of_singleton. tauto. }
  rewrite size_difference_alt. case_bool_decide as HI.
  - replace (list_to_set kids ∩ {[kid]} : gset bytes) with ({[kid]} : gset bytes) by set_solver. rewrite size_singleton.
    assert (size (list_to_set kids : gset bytes) ≠ 0%nat) by (intros E%size_empty_iff; set_solver). lia.
  - replace (list_to_set kids ∩ {[kid]} : gset bytes) with (∅ : gset bytes) by set_solver. rewrite size_empty. lia.
Qed.

Lemma planApprovalsRequired_pos (reg : StaticAgentRegistry) k subject : 2 ≤ k → 0 < planApprovalsRequired reg k subject.
Proof. intros. unfold planApprovalsRequired. repeat case_match; lia. Qed.

Lemma left_by_le ring s : left_by ring s ≤ Z.of_nat (countDistinctKeys (kr_Approvers ring)).
Proof. unfold left_by, countDistinctKeys, approver_kids. case_bool_decide; lia. Qed.

(** A configuration starts exactly when its plans can be approved. With separated duties (a quorum of two or more), over the
    plan store that the daemon builds from its keyring, the two checks of a start pass exactly when somebody can submit and every
    registered agent that runs plans has a submitter whose signed submissions the store does not refuse for want of approvers. *)
Theorem start_needs_reachable_approvals `{Env} reg k ring cellID policyID salt leaves journal mp ma mt ttl ptl onTrip g st :
  2 ≤ k → kr_Approvers ring ≠ [] →
  NewContractStore cellID policyID (kr_All ring) (Some (kr_Approvers ring)) (Some (kr_Revokers ring)) (Some (kr_Submitters ring))
    (separateDuties k) (Some (planApprovalsRequired reg k)) salt leaves journal mp ma mt ttl ptl onTrip = Some (g, st) →
  (operators_checked reg k ring = true ↔
   kr_Submitters ring ≠ [] ∧
   ∀ subject rec, reg !! subject = Some rec → ag_Class rec ≠ ClassOut →
     ∃ s, s ∈ kr_Submitters ring ∧ ∀ sub, ss_kid sub = KeyIDFromPublicKey s →
       (required_for g subject ≤ approversApartFrom g (Some sub))%nat).
Proof.
  intros Hk HA HN. assert (cc_approverKeys g = kr_Approvers ring ∧ cc_approvalsReq g = Some (planApprovalsRequired reg k)) as [EA ER].
  { unfold NewContractStore in HN. repeat case_match; try done. unfold roleKeys in HN. repeat (case_match; try done); simplify_eq/=; done. }
  assert (∀ subject, Z.of_nat (required_for g subject) = planApprovalsRequired reg k subject) as HR.
  { intros subject. unfold required_for. rewrite ER. pose proof (planApprovalsRequired_pos reg k subject Hk). destruct (Z.ltb_spec 1 (planApprovalsRequired reg k subject)); lia. }
  assert (∀ subject, planApprovalsRequired reg k subject ≤ best_left ring ↔ ∃ s, s ∈ kr_Submitters ring ∧ ∀ sub, ss_kid sub = KeyIDFromPublicKey s →
    (required_for g subject ≤ approversApartFrom g (Some sub))%nat) as HB.
  { intros subject. rewrite best_left_ge by (by apply planApprovalsRequired_pos). split; intros (s & Hs & HL); exists s; (split; [done|]).
    - intros sub Es. rewrite (left_by_store g ring s sub EA Es) in HL. specialize (HR subject). lia.
    - specialize (HL (mkSigned (KeyIDFromPublicKey s) 0 []) eq_refl). rewrite (left_by_store g ring s (mkSigned (KeyIDFromPublicKey s) 0 []) EA eq_refl).
      specialize (HR subject). lia. }
  unfold operators_checked, checkSeparatedDuties, separateDuties. rewrite (proj2 (Z.leb_le 2 k)) by done. cbn [negb]. cbv zeta.
  destruct (Nat.eqb_spec (length (kr_Submitters ring)) 0) as [E0|E0].
  { rewrite andb_false_r. split; [done|]. intros [Hs _]. by destruct (kr_Submitters ring). }
  rewrite andb_true_iff, bool_decide_eq_true. split.
  - intros [_ HM]. split; [by intros E1; rewrite E1 in E0|]. intros subject rec Hreg Hout. apply HB. by destruct (HM subject rec Hreg).
  - intros [_ HM]. split.
    + unfold checkOperatorQuorum. rewrite (proj2 (Z.leb_gt k 1)) by lia. cbn [orb]. apply orb_true_iff.
      destruct (decide (map_Forall (λ _ rec, needs_quorum (ag_Class rec) = false) reg)) as [HF|HF]; [right; by apply bool_decide_eq_true|left].
      apply map_not_Forall in HF as (subject & rec & Hreg & HQ); [|apply _]. apply not_false_is_true in HQ. apply Z.leb_le.
      assert (planApprovalsRequired reg k subject = k) as EP by (unfold planApprovalsRequired; replace (resolve_agent reg subject) with (Some rec) by (symmetry; exact Hreg); by rewrite HQ).
      destruct (HM subject rec Hreg) as (s & Hs & HL); [by intros E1; rewrite E1 in HQ|]. pose proof (left_by_le ring s) as HLe.
      rewrite (left_by_store g ring s (mkSigned (KeyIDFromPublicKey s) 0 []) EA eq_refl) in HLe. specialize (HL (mkSigned (KeyIDFromPublicKey s) 0 []) eq_refl).
      specialize (HR subject). lia.
    + intros subject rec Hreg. destruct (decide (ag_Class rec = ClassOut)); [by left|right]. apply HB. by apply (HM subject rec).
Qed.

End operators.
