(* ===== verification/Examples.v ===== *)
(** The theorems of the development on a concrete cell.

    Each lemma below applies one theorem at a concrete input, with the hypotheses discharged
    by evaluation: the premises of the theorems are satisfiable on the cell the sources would
    build. Digests are those of Sha256.v, tokens those of DemoCose.v. *)
From S2P Require Import Prelude.
From S2P Require Import Hex.
From S2P Require Import Sha256.
From S2P Require Import Leaf.
From S2P Require Import Effects.
From S2P Require Import AntiReplay.
From S2P Require Import Records.
From S2P Require Import Token.
From S2P Require Import Issuer.
From S2P Require Import DemoCose.
From S2P Require Import Quota.
From S2P Require Import Quorum.
From S2P Require Import FailClosed.
From S2P Require Import AutoClear.
From S2P Require Import Mode.
From S2P Require Import Validator.
From S2P Require Import PlanContract.
From S2P Require Import Admission.
From S2P Require Import OPAClient.
From S2P Require Import ObjectSeal.
From S2P Require Import DryRun.
From S2P Require Import Listener.
From S2P Require Import Admin.

#[local] Existing Instance demo_crypto.
#[local] Existing Instance demo_env.
#[local] Existing Instance demo_order.
#[local] Existing Instance demo_cose.
#[local] Existing Instance demo_sort.

(** ** The cell *)

Definition demo_salt : bytes := replicate 16 Byte.x2a.
Definition demo_producer : Producer := mkProducer "cell-a" demo_salt true.
Definition demo_t0 : Z := of_Unix 1700000000.
Definition demo_jti : bytes := replicate 16 Byte.x09.
Definition demo_jti2 : bytes := replicate 16 Byte.x0a.

(** Keys: the issuer and three controllers. *)
Definition demo_pub : bytes := replicate 32 Byte.x07.
Definition demo_key (n : byte) : bytes := replicate 32 n.
Definition demo_ring : gmap bytes bytes :=
  list_to_map ((λ k, (KeyIDFromPublicKey k, k)) <$> [demo_key Byte.x11; demo_key Byte.x12; demo_key Byte.x13]).

Definition demo_policy : bytes := replicate 32 Byte.x01.
Definition demo_issuer : Issuer :=
  mkIssuer "cell-a" demo_policy 60 (KeyIDFromPublicKey demo_pub) demo_pub.
Definition demo_params : IssueParams :=
  mkIssueParams "agent" "read" "db" None None (Some (mkQuota "db" "read" 1000 10)) None
    demo_jti 3 1700000000.
Definition demo_token : Token := issued_token demo_issuer demo_params.
Definition demo_wire : bytes :=
  match @Issue demo_cose (demo_signer demo_pub) demo_issuer demo_params with
  | inr w => w | inl _ => [] end.
Definition demo_keyring : gmap bytes bytes := {[ KeyIDFromPublicKey demo_pub := demo_pub ]}.

(** ** Leaves and records *)

Lemma appendLeaf_journalled_example :
  journalled (appendLeaf demo_producer KindDecision (sb "record") 5 []).2.
Proof.
  apply (appendLeaf_journalled demo_producer KindDecision (sb "record") 5 []); [reflexivity|].
  intros i l Hi. by rewrite lookup_nil in Hi.
Defined.

Lemma QuorumMessage_injective_example :
  "mode-closed" = "mode-closed" ∧ "cell-a" = "cell-a" ∧ Unix demo_t0 = Unix (demo_t0 + 1).
Proof.
  apply (QuorumMessage_injective "mode-closed" "mode-closed" "cell-a" "cell-a" demo_t0 (demo_t0 + 1));
    try (vm_compute; done); vm_compute; reflexivity.
Defined.

Definition demo_steps : list PlanStep :=
  [mkStep "read" "db" (HashParams (sb "q=1")); mkStep "write" "db" (HashParams (sb "q=2"))].

Lemma HashPlan_binds_plan_example :
  ("cell-a" = "cell-a" ∧ "agent" = "agent" ∧ Unix demo_t0 = Unix (demo_t0 + 5) ∧
   demo_policy = demo_policy ∧ demo_steps = demo_steps) ∨ sha256_collision.
Proof.
  apply (HashPlan_binds_plan "cell-a" "cell-a" "agent" "agent" demo_t0 (demo_t0 + 5) demo_policy
    demo_policy demo_steps demo_steps); try (vm_compute; done);
    try (simpl; lia); try reflexivity;
    repeat constructor; simpl; lia.
Defined.

(** ** Anti-replay *)

Definition demo_cache : AntiReplay :=
  default (mkAntiReplay [] 0 0 ∅ false false) (NewAntiReplay 2 true).

Lemma demo_cache_new : NewAntiReplay 2 true = Some demo_cache.
Proof. reflexivity. Qed.

Lemma demo_cache_wf : ar_wf demo_cache.
Proof. by destruct (NewAntiReplay_wf _ _ _ demo_cache_new). Qed.

(** A token valid for a minute is consumed, another one after it, then the first again. *)
Definition demo_calls : list call :=
  [mkCall (demo_t0 + second) demo_jti2 (demo_t0 + minute);
   mkCall (demo_t0 + 2 * second) demo_jti (demo_t0 + minute)].

Lemma no_double_consumption_example :
  (run_calls demo_calls (CheckAndConsume demo_t0 demo_jti (demo_t0 + minute) demo_cache []).1.2 []).1.1
    !! 1 = Some false.
Proof.
  apply (no_double_consumption demo_t0 demo_jti (demo_t0 + minute) demo_cache []
    (CheckAndConsume demo_t0 demo_jti (demo_t0 + minute) demo_cache []).1.2 [] demo_calls
    (mkCall (demo_t0 + 2 * second) demo_jti (demo_t0 + minute)) 1);
    [apply demo_cache_wf|vm_compute; reflexivity| |reflexivity|reflexivity].
  intros k Hk. unfold demo_calls in Hk.
  rewrite !elem_of_cons, elem_of_nil in Hk. destruct Hk as [->|[->|[]]]; vm_compute; done.
Defined.

Lemma antireplay_refines_queue_example :
  let '(oks, c', t') := run_calls demo_calls demo_cache [] in
  let '(vs, q') := spec_run 2 demo_calls [] in
  oks = accepted <$> vs ∧ ar_contents c' = q' ∧
  ar_Len c' ≤ 2 ∧ ar_Capacity c' = 2 ∧ ar_tripped c' = saturates vs ∧
  t' = [] ++ (if true && saturates vs then [EvAlarm TripReasonJTISaturated] else []).
Proof. exact (antireplay_refines_queue 2 true demo_cache demo_calls [] demo_cache_new). Defined.

(** A cache of one slot, taken. *)
Definition demo_full : AntiReplay :=
  (CheckAndConsume demo_t0 demo_jti2 (demo_t0 + minute)
     (default demo_cache (NewAntiReplay 1 true)) []).1.2.

Lemma demo_full_wf : ar_wf demo_full.
Proof.
  apply (CheckAndConsume_step demo_t0 demo_jti2 (demo_t0 + minute)
    (default demo_cache (NewAntiReplay 1 true)) []).
  by destruct (NewAntiReplay_wf 1 true (default demo_cache (NewAntiReplay 1 true)) eq_refl).
Qed.

Lemma refusal_means_full_example :
  length (filter (λ e, (Unix demo_t0 ≤ e_exp e)%Z) (ar_contents demo_full)) = ar_Capacity demo_full ∧
  ar_tripped (CheckAndConsume demo_t0 demo_jti (demo_t0 + minute) demo_full []).1.2 = true.
Proof.
  apply (refusal_means_full demo_t0 demo_jti (demo_t0 + minute) demo_full []
    (CheckAndConsume demo_t0 demo_jti (demo_t0 + minute) demo_full []).1.2
    (CheckAndConsume demo_t0 demo_jti (demo_t0 + minute) demo_full []).2);
    [apply demo_full_wf|vm_compute; reflexivity|].
  intros Hin. vm_compute in Hin. apply elem_of_cons in Hin as [Hin|Hin]; [done|by apply elem_of_nil in Hin].
Defined.

(** ** Tokens *)

Lemma issued_token_verifies_example :
  verifySignedToken demo_keyring demo_wire = (Some demo_token, "").
Proof.
  apply (@issued_token_verifies demo_cose (demo_signer demo_pub) demo_issuer demo_params demo_keyring
    demo_wire (demo_round_trip demo_pub eq_refl)); [|vm_compute; reflexivity..].
  split; [repeat (apply Forall_cons; split; [apply Json.utf8_ascii; vm_compute; reflexivity|]); apply Forall_nil_2|].
  split; [reflexivity|]. split; [reflexivity|]. split; [vm_compute; reflexivity|].
  split; [intros s Hs; discriminate Hs|]. split; [intros s Hs; discriminate Hs|].
  split; [split; vm_compute; lia|]. split; [vm_compute; done|]. split; vm_compute; done.
Defined.

Definition demo_payload : bytes :=
  match demo_unmarshal demo_wire with Some msg => payload msg | None => [] end.

Lemma demo_payload_decodes : decodePayload demo_payload = inr demo_token.
Proof. vm_compute. reflexivity. Qed.

Lemma decoded_token_conforms_example : schema_ok demo_token.
Proof.
  exact (proj1 (@decoded_token_conforms demo_cose demo_cose_laws demo_payload demo_token
    demo_payload_decodes)).
Defined.

Lemma VerifyPossession_authentic_example : authentic demo_keyring demo_wire demo_token.
Proof. apply (VerifyPossession_authentic demo_keyring demo_wire demo_token). vm_compute. reflexivity. Defined.

(** ** Quota passports *)

Definition demo_cfg : LedgerConfig := mkLedgerConfig demo_producer true true.
Definition demo_quota : Quota := mkQuota "db" "read" 1000 10.

Lemma quota_volume_bound_example :
  (0 ≤ (consume_all demo_cfg [(demo_t0, demo_t0, 600); (demo_t0 + 11 * second, demo_t0, 600)]
          (new_counter (Unix demo_t0) demo_token demo_quota) []).1.1
     ≤ 1000 * (1 + (t_Exp demo_token - Unix demo_t0) / 10))%Z.
Proof.
  apply (quota_volume_bound demo_cfg demo_t0 demo_token demo_quota
    [(demo_t0, demo_t0, 600); (demo_t0 + 11 * second, demo_t0, 600)]%Z []);
    [reflexivity|split; vm_compute; done|split; vm_compute; done|vm_compute; done
    |split; vm_compute; done|vm_compute; done|].
  repeat constructor; vm_compute; done.
Defined.

Definition demo_ledger : QuotaLedger :=
  default (mkQuotaLedger 0 ∅ [] false [] demo_cfg) (NewQuotaLedger 2 "cell-a" demo_salt true true true true).

Lemma demo_ledger_wf : ledger_wf demo_ledger.
Proof. split_and!; [vm_compute; lia..|]. intros jti p Hp. vm_compute in Hp. done. Qed.

(** The passport is opened, then an excess cuts it. *)
Definition demo_opened : QuotaLedger := (Open demo_t0 (Some demo_token) demo_ledger []).1.2.
Definition demo_cut : QuotaLedger :=
  match ConsumeAt 0 demo_t0 demo_t0 2000 demo_opened [] with Some (_, l, _) => l | None => demo_opened end.
Definition demo_cut_trace : trace :=
  match ConsumeAt 0 demo_t0 demo_t0 2000 demo_opened [] with Some (_, _, t) => t | None => [] end.

Lemma demo_cut_run P :
  P (Unix demo_t0) → ledger_run P (demo_ledger, []) (demo_cut, demo_cut_trace).
Proof.
  intros HP. apply run_step with demo_t0 (demo_opened, []); [done| |].
  - apply step_open with (Some demo_token) (inr 0). vm_compute. reflexivity.
  - apply run_step with demo_t0 (demo_cut, demo_cut_trace); [done| |apply run_refl].
    apply step_consume with 0 demo_t0 2000%Z (Some ErrQuotaExceeded). vm_compute. reflexivity.
Qed.

Lemma ledger_stays_bounded_example :
  ledger_wf demo_cut ∧ Len demo_cut ≤ ql_max demo_cut ∧ length (ql_evicted demo_cut) ≤ ql_max demo_cut.
Proof.
  apply (ledger_stays_bounded (λ _, True) demo_ledger [] demo_cut demo_cut_trace);
    [by apply demo_cut_run|apply demo_ledger_wf].
Defined.

Definition demo_counter : PassportCounter :=
  default (new_counter 0 demo_token demo_quota) (Counter demo_jti demo_cut).

Lemma cut_passport_stays_exhausted_example :
  Exhausted demo_jti (Snapshot demo_t0 demo_cut).2 = true.
Proof.
  apply (cut_passport_stays_exhausted demo_cut demo_cut_trace (Snapshot demo_t0 demo_cut).2
    demo_cut_trace demo_jti demo_counter);
    [apply (ledger_run_wf (λ _, True) _ _ (demo_cut_run (λ _, True) I) demo_ledger_wf)
    |vm_compute; reflexivity|vm_compute; reflexivity|].
  apply run_step with demo_t0 ((Snapshot demo_t0 demo_cut).2, demo_cut_trace);
    [vm_compute; done| |apply run_refl].
  apply step_snapshot with (Snapshot demo_t0 demo_cut).1. by destruct (Snapshot demo_t0 demo_cut).
Defined.

Lemma snapshot_misses_nothing_example :
  snap true demo_counter ∈ (Snapshot (demo_t0 + hour) demo_cut).1.
Proof.
  apply (proj2 (snapshot_misses_nothing (demo_t0 + hour) demo_cut ltac:(vm_compute; lia))
    demo_jti demo_counter). vm_compute. reflexivity.
Defined.

(** ** Quorum *)

Definition demo_expiry : Z := (demo_t0 + minute)%Z.
Definition demo_quorum (condition : string) (expiry : Z) : QuorumProof :=
  mkQuorumProof expiry
    ((λ k, mkQuorumSignature (KeyIDFromPublicKey k)
             (demo_sign k (QuorumMessage condition "cell-a" expiry)))
       <$> [demo_key Byte.x11; demo_key Byte.x12]).
Definition demo_verifier : QuorumVerifier := verify_quorum "cell-a" demo_ring 2 DefaultQuorumProofTTL.

Lemma demo_verifier_new : NewSignatureQuorumVerifier "cell-a" demo_ring 2 0 = Some demo_verifier.
Proof.
  unfold NewSignatureQuorumVerifier. rewrite bool_decide_false by done.
  replace (size demo_ring) with 3 by (vm_compute; reflexivity). simpl (3 =? 0). cbv iota.
  replace (existsb _ (map_to_list demo_ring)) with false by (vm_compute; reflexivity). reflexivity.
Qed.

Lemma demo_quorum_accepted :
  demo_verifier demo_t0 "mode-closed" (demo_quorum "mode-closed" demo_expiry) = true.
Proof. vm_compute. reflexivity. Qed.

Lemma quorum_verifier_exact_example :
  ∃ kids, NoDup kids ∧ (2 ≤ Z.of_nat (length kids))%Z ∧
    ∀ kid, kid ∈ kids →
      controller_signed demo_ring
        (QuorumMessage "mode-closed" "cell-a" (qp_Expiry (demo_quorum "mode-closed" demo_expiry)))
        (qp_Signatures (demo_quorum "mode-closed" demo_expiry)) kid.
Proof.
  exact (proj2 (proj2 (proj1 (quorum_verifier_exact "cell-a" demo_ring 2 0 demo_verifier demo_verifier_new
    demo_t0 "mode-closed" (demo_quorum "mode-closed" demo_expiry)) demo_quorum_accepted))).
Defined.

Definition demo_store : FileQuorumStateStore := mkFileStore None [].

Definition demo_store1 : FileQuorumStateStore := (qs_Consume "mode-closed" 200 demo_store).2.

Lemma demo_store1_eq : qs_Consume "mode-closed" 200 demo_store = (Some true, demo_store1).
Proof. vm_compute. reflexivity. Qed.

Lemma consumed_expiry_never_accepted_again_example :
  (qs_Consume "mode-closed" 100 (consume_run [("mode-closed", 250%Z)] demo_store1).2).1 ≠ Some true.
Proof.
  exact (consumed_expiry_never_accepted_again "mode-closed" 200 demo_store demo_store1
    [("mode-closed", 250%Z)] 100 demo_store1_eq ltac:(lia)).
Defined.

(** ** The fail-closed point *)

Definition demo_skew : Condition := mkCondition "clock-skew" ClassW true demo_t0 "".
Definition demo_opa : Condition := mkCondition "opa-timeout" ClassI true demo_t0 "slow".
Definition demo_fc : FailClosed FileQuorumStateStore :=
  mkFailClosed _ demo_producer true {[ "clock-skew" := demo_skew; "opa-timeout" := demo_opa ]}
    (Some demo_verifier) (Some demo_store).

Lemma demo_fc_wf : fc_wf demo_fc.
Proof.
  intros n c Hc. change (fc_conds demo_fc) with
    (<["clock-skew" := demo_skew]> ({[ "opa-timeout" := demo_opa ]} : gmap string Condition)) in Hc.
  apply lookup_insert_Some in Hc as [[<- <-]|[_ Hc]]; [done|].
  by apply lookup_singleton_Some in Hc as [<- <-].
Qed.

Lemma gate_refuses_iff_tripped_example :
  (Gate demo_fc = None ↔ ∀ n, ¬ is_tripped demo_fc n).
Proof. exact (proj1 (gate_refuses_iff_tripped demo_fc demo_fc_wf)). Defined.

Definition demo_skew_proof : QuorumProof := demo_quorum "clock-skew" demo_expiry.
Definition demo_clear : fc_op := OpClear demo_t0 demo_t0 "clock-skew" demo_skew_proof.

Lemma demo_fc_skew : fc_conds demo_fc !! "clock-skew" = Some demo_skew.
Proof. vm_compute. reflexivity. Qed.

Lemma demo_cleared_not : ¬ is_tripped (fc_run [demo_clear] demo_fc []).1 "clock-skew".
Proof.
  intros (c & Hc & Ht).
  assert (fc_conds (fc_run [demo_clear] demo_fc []).1 !! "clock-skew"
    = Some (mkCondition "clock-skew" ClassW false zero_time "")) as E by (vm_compute; reflexivity).
  rewrite E in Hc. injection Hc as <-. discriminate Ht.
Qed.

Lemma class_W_lifted_only_by_quorum_example :
  ∃ ops1 now ts proof ops2 v,
    [demo_clear] = ops1 ++ OpClear now ts "clock-skew" proof :: ops2 ∧
    fc_verifier demo_fc = Some v ∧ v now "clock-skew" proof = true ∧
    (∀ fl, fc_floor (fc_run ops1 demo_fc []).1 "clock-skew" = Some fl →
           (fl < Unix (qp_Expiry proof))%Z) ∧
    fc_floor (fc_run (ops1 ++ [OpClear now ts "clock-skew" proof]) demo_fc []).1 "clock-skew"
      = Some (Unix (qp_Expiry proof)).
Proof.
  exact (class_W_lifted_only_by_quorum [demo_clear] demo_fc [] "clock-skew" demo_skew demo_fc_skew
    eq_refl eq_refl demo_cleared_not).
Defined.

Definition demo_clear_result : option fc_error * FailClosed FileQuorumStateStore * trace :=
  Clear demo_t0 demo_t0 "clock-skew" demo_skew_proof demo_fc [].

Lemma demo_clear_ok :
  Clear demo_t0 demo_t0 "clock-skew" demo_skew_proof demo_fc [] =
    (None, demo_clear_result.1.2, demo_clear_result.2).
Proof.
  unfold demo_clear_result.
  assert ((Clear demo_t0 demo_t0 "clock-skew" demo_skew_proof demo_fc []).1.1 = None) as E
    by (vm_compute; reflexivity).
  destruct (Clear demo_t0 demo_t0 "clock-skew" demo_skew_proof demo_fc []) as [[e f] t].
  cbn [fst snd] in *. rewrite E. reflexivity.
Qed.

(** The condition trips again; the proof that lifted it does not lift it twice. *)
Lemma quorum_proof_single_use_example :
  let '(f2, t2) := fc_run [OpTrip (demo_t0 + 1) demo_t0 "clock-skew" "again"]
                     demo_clear_result.1.2 demo_clear_result.2 in
  (Clear (demo_t0 + 2) demo_t0 "clock-skew" demo_skew_proof f2 t2).1.1 ≠ None.
Proof.
  exact (quorum_proof_single_use demo_t0 demo_t0 "clock-skew" demo_skew_proof demo_fc []
    demo_clear_result.1.2 demo_clear_result.2 [OpTrip (demo_t0 + 1) demo_t0 "clock-skew" "again"]
    (demo_t0 + 2) demo_t0 demo_skew_proof demo_skew demo_fc_skew eq_refl demo_clear_ok
    (Z.le_refl _)).
Defined.

(** ** Automatic recovery *)

Definition demo_clearer : OPAAutoClearer :=
  mkAutoClearer {[ "opa-timeout" ]} 1 DefaultOPAAutoClearInterval 0 0 false 1 zero_time.

Lemma demo_clearer_reach : ac_reach (S := FileQuorumStateStore) [] demo_clearer.
Proof.
  apply reach_new with ["opa-timeout"] 1%Z 0%Z. unfold NewOPAAutoClearer, demo_clearer. simpl.
  reflexivity.
Qed.

Definition demo_tick : OPAAutoClearer * FailClosed FileQuorumStateStore * trace :=
  Tick demo_t0 demo_t0 (λ _, demo_t0) true demo_fc demo_clearer demo_fc [].

Lemma auto_clear_bounded_example : fc_conds demo_tick.1.2 !! "clock-skew" = Some demo_skew.
Proof.
  refine (proj1 (auto_clear_bounded [] demo_clearer demo_t0 demo_t0 (λ _, demo_t0) true demo_fc demo_fc []
    demo_tick.1.1 demo_tick.1.2 demo_tick.2 demo_clearer_reach _) "clock-skew" demo_skew demo_fc_skew _).
  - unfold demo_tick. destruct (Tick _ _ _ _ _ _ _ _) as [[a f] t]. reflexivity.
  - right. reflexivity.
Defined.

(** ** The posture *)

Definition demo_mode : ModeController FileQuorumStateStore :=
  mkModeController _ demo_producer true ModeRefused (Some demo_verifier) None (Some demo_store).
Definition demo_closed_proof : QuorumProof := demo_quorum "mode-closed" demo_expiry.
Definition demo_close : mode_call :=
  mkModeCall demo_t0 demo_t0 demo_t0 demo_t0 ModeClosed demo_closed_proof.
Definition demo_mode_result : option mode_error * ModeController FileQuorumStateStore * trace :=
  SetMode demo_t0 demo_t0 demo_t0 demo_t0 ModeClosed demo_closed_proof demo_mode [].

Lemma demo_mode_ok :
  SetMode demo_t0 demo_t0 demo_t0 demo_t0 ModeClosed demo_closed_proof demo_mode [] =
    (None, demo_mode_result.1.2, demo_mode_result.2).
Proof.
  unfold demo_mode_result.
  assert ((SetMode demo_t0 demo_t0 demo_t0 demo_t0 ModeClosed demo_closed_proof demo_mode []).1.1 = None)
    as E by (vm_compute; reflexivity).
  destruct (SetMode _ _ _ _ _ _ demo_mode []) as [[e c] t]. cbn [fst snd] in *. rewrite E. reflexivity.
Qed.

Lemma mode_change_governed_example :
  match demo_mode_result with
  | (Some _, c', t') => mc_mode c' = mc_mode demo_mode ∧ t' = []
  | (None, c', t') => mc_mode c' = ModeClosed
  end.
Proof.
  pose proof (mode_change_governed demo_t0 demo_t0 demo_t0 demo_t0 ModeClosed demo_closed_proof
    demo_mode []) as HM. unfold demo_mode_result.
  destruct (SetMode _ _ _ _ _ _ demo_mode []) as [[[e|] c] t]; [exact HM|exact (proj1 HM)].
Defined.

Lemma refused_left_only_by_full_quorum_example :
  (∀ allow, Allows demo_mode allow = false) ∧
  (mc_mode (mode_run [demo_close] demo_mode []).1 ≠ ModeRefused →
   ∃ ks1 k ks2 v, [demo_close] = ks1 ++ k :: ks2 ∧
     mc_mode (mode_run ks1 demo_mode []).1 = ModeRefused ∧ mc_verifier demo_mode = Some v ∧
     v (ml_now1 k) (mode_condition (ml_mode k)) (ml_proof k) = true).
Proof. exact (refused_left_only_by_full_quorum [demo_close] demo_mode [] eq_refl). Defined.

(** Back to monitor with a proof of its own, then closed again with the old proof. *)
Definition demo_monitor : mode_call :=
  mkModeCall demo_t0 demo_t0 demo_t0 demo_t0 ModeMonitor (demo_quorum "mode-monitor" demo_expiry).

Lemma mode_proof_single_use_example :
  let '(c2, t2) := mode_run [demo_monitor] demo_mode_result.1.2 demo_mode_result.2 in
  mc_mode c2 ≠ ModeClosed → (mode_apply demo_close c2 t2).1.1 ≠ None.
Proof.
  exact (mode_proof_single_use demo_t0 demo_t0 demo_t0 demo_t0 ModeClosed demo_closed_proof demo_mode []
    demo_mode_result.1.2 demo_mode_result.2 [demo_monitor] demo_close demo_mode_ok ltac:(discriminate)
    eq_refl (Z.le_refl _)).
Defined.

(** ** The validator *)

Definition demo_validator : Validator :=
  mkValidator (mkProducer "cell-a" demo_salt false) demo_keyring demo_policy.
Definition demo_seams : Seams := mkSeams (Some None) (FixedEpoch 3) (Some (λ _, false)).
Definition demo_request : Request := mkRequest "read" "db" None.
Definition demo_now : Z := of_Unix 1700000010.

Definition demo_decision : Decision * AntiReplay * trace :=
  ValidateAt demo_validator demo_seams demo_wire demo_request demo_now demo_now demo_cache [].

Lemma demo_verified : verifySignedToken (v_keyring demo_validator) demo_wire = (Some demo_token, "").
Proof. vm_compute. reflexivity. Qed.

Lemma demo_acceptable now :
  (1700000000 ≤ Unix now ≤ 1700000060)%Z →
  acceptable demo_validator demo_seams demo_request now demo_token.
Proof.
  intros Hn. split; [exact Hn|]. split; [split; vm_compute; discriminate|].
  split; [reflexivity|]. split; [reflexivity|]. split; [reflexivity|]. split; [reflexivity|].
  split; [intros s Hs; discriminate Hs|]. intros _. exists (λ _, false). split; reflexivity.
Qed.

Lemma demo_allowed : d_Allow demo_decision.1.1 = true.
Proof. vm_compute. reflexivity. Qed.

Lemma demo_allows :
  d_Allow (ValidateAt demo_validator demo_seams demo_wire demo_request demo_now demo_now demo_cache []).1.1
    = true.
Proof. exact demo_allowed. Qed.

Lemma validator_allows_exactly_example :
  ∃ tok c1 t1, verifySignedToken (v_keyring demo_validator) demo_wire = (Some tok, "") ∧
    acceptable demo_validator demo_seams demo_request demo_now tok ∧
    cac demo_now (t_JTI tok) (of_Unix (t_Exp tok)) demo_cache [] = (true, c1, t1) ∧
    (appendLeaf (v_producer demo_validator) KindDecision
       (validatorRecord (t_JTI tok) true ReasonOK (t_PlanSeal tok)) (UnixNano demo_now) t1).1 = None.
Proof.
  exact (proj2 (proj1 (@validator_allows_exactly AntiReplay _ _ demo_cose _ demo_cose_laws demo_validator
    demo_seams demo_wire demo_request demo_now demo_now demo_cache []) demo_allows)).
Defined.

Lemma every_decision_leaves_its_leaf_example :
  let '(d, c', t') := demo_decision in
  recordable d ∧ (d_LeafWritten d = false → d_Allow d = false).
Proof.
  pose proof (every_decision_leaves_its_leaf demo_validator demo_seams demo_wire demo_request demo_now
    demo_now demo_cache [] ltac:(intros ref Hr; discriminate Hr)) as HL. unfold demo_decision.
  destruct (ValidateAt _ _ _ _ _ _ demo_cache []) as [[d c'] t']. exact (conj (proj1 HL) (proj2 (proj2 (proj2 (proj2 HL))))).
Defined.

Lemma demo_decision_eq :
  ValidateAt demo_validator demo_seams demo_wire demo_request demo_now demo_now demo_cache [] =
    (demo_decision.1.1, demo_decision.1.2, demo_decision.2).
Proof. unfold demo_decision. destruct (ValidateAt _ _ _ _ _ _ demo_cache []) as [[d c] t]. reflexivity. Qed.

Lemma demo_decision_token : d_Token demo_decision.1.1 = Some demo_token.
Proof. vm_compute. reflexivity. Qed.

Definition demo_replay : list vcall :=
  [mkVcall demo_seams demo_wire demo_request (demo_now + second) (demo_now + second)].

Lemma token_allowed_at_most_once_example :
  Forall (λ d', d_JTI d' = demo_jti → d_Allow d' = false)
    (validate_run demo_validator demo_replay demo_decision.1.2 demo_decision.2).1.1.
Proof.
  refine (token_allowed_at_most_once demo_validator demo_seams demo_wire demo_request demo_now demo_now
    demo_cache [] demo_decision.1.1 demo_decision.1.2 demo_decision.2 demo_token demo_replay
    demo_cache_wf demo_decision_eq demo_allowed demo_decision_token _).
  constructor; [vm_compute; discriminate|constructor].
Defined.

Lemma replay_allowed_across_expiry_second_example :
  let '(d1, c1, t1) := ValidateAt demo_validator demo_seams demo_wire demo_request demo_now demo_now
                         demo_cache [] in
  d_Allow d1 = true ∧
  d_Allow (ValidateAt demo_validator demo_seams demo_wire demo_request
             (of_Unix 1700000060 + 999999999) (of_Unix 1700000061) c1 t1).1.1 = true.
Proof.
  refine (@replay_allowed_across_expiry_second _ _ demo_cose demo_cose_laws demo_validator demo_seams
    demo_wire demo_request demo_now demo_now (of_Unix 1700000060 + 999999999) (of_Unix 1700000061)
    demo_token 2 true demo_cache [] (λ _ _, eq_refl) eq_refl (or_intror eq_refl) demo_verified
    (demo_acceptable _ _) (demo_acceptable _ _) demo_cache_new _);
    [split; vm_compute; discriminate|split; vm_compute; discriminate|vm_compute; reflexivity].
Defined.

(** ** Plan contracts *)

Definition demo_operators : list bytes := [demo_key Byte.x11; demo_key Byte.x12; demo_key Byte.x13].
Definition demo_contract (separate : bool) : ContractConfig :=
  mkContractConfig (mkProducer "cell-a" demo_salt false) demo_policy demo_operators demo_operators
    demo_operators demo_operators separate None 3 64 64 128 DefaultApprovalTTL DefaultPendingTTL true.
Definition demo_empty : ContractStore := mkContractStore ∅ ∅.
Definition demo_hash : bytes := HashPlan "cell-a" "agent" demo_t0 demo_policy demo_steps.
Definition demo_approval (k : bytes) (expiry : Z) : bytes :=
  demo_sign k (ApprovalMessage demo_hash expiry).
Definition demo_until : Z := (demo_t0 + 2 * minute)%Z.
Definition demo_binding (params : bytes) : bytes := default [] (BuildBinding demo_hash params).

Section plan_life.
Context (env : Env).

(** Submitted, then approved by one operator until [demo_until]. *)
Definition plan_submitted : (plan_error + bytes) * ContractStore * trace :=
  Submit (demo_contract false) "agent" demo_steps demo_t0 demo_empty [].
Definition plan_approved : option plan_error * ContractStore * trace :=
  ApproveAll (demo_contract false) demo_hash demo_until [demo_approval (demo_key Byte.x11) demo_until]
    demo_t0 plan_submitted.1.2 plan_submitted.2.
Definition plan_verify (now : Z) : (plan_error + bytes) * ContractStore * trace :=
  VerifyStep (demo_contract false) "agent" (demo_binding (sb "q=1")) "read" "db" now
    plan_approved.1.2 plan_approved.2.
End plan_life.

(** An expired plan can still be executed. When the write of its expiry leaf fails, the
    plan is not marked expired, and nothing else looks at its date: with a sink that refuses
    that one leaf and accepts the next, [VerifyStep] grants a step one minute after the end
    of the approval. *)
Theorem expired_plan_granted_after_leaf_fault :
  (∃ e, ct_plans (plan_approved (faulty_env [2])).1.2 !! demo_hash = Some e ∧
        pe_status e = planStatusApproved ∧ (pe_expiresAt e < demo_until + minute)%Z) ∧
  (plan_verify (faulty_env [2]) (demo_until + minute)).1.1 = inr demo_hash ∧
  (plan_verify demo_env (demo_until + minute)).1.1 = inl ErrPlanExpired.
Proof.
  split; [|split; vm_compute; reflexivity].
  destruct (ct_plans (plan_approved (faulty_env [2])).1.2 !! demo_hash) as [e|] eqn:E;
    vm_compute in E; [|discriminate].
  exists e. injection E as <-. split; [reflexivity|]. split; [reflexivity|]. vm_compute. reflexivity.
Qed.

(** A cell that separates duties: two operators sign the same plan in the same second. *)
Definition demo_submission (k : bytes) (expiry : Z) : bytes :=
  demo_sign k (SubmissionMessage "cell-a" "agent" demo_steps expiry).
Definition signed_submit (k : bytes) (expiry : Z) (s : ContractStore) (t : trace) :
    (plan_error + bytes) * ContractStore * trace :=
  SubmitSigned (demo_contract true) "agent" demo_steps expiry (demo_submission k expiry) demo_t0 s t.
Definition first_submission := signed_submit (demo_key Byte.x11) demo_until demo_empty [].
Definition second_submission :=
  signed_submit (demo_key Byte.x12) (demo_until + second) first_submission.1.2 first_submission.2.

(** A submitter can approve a plan it also submitted. Only the first of two signed
    submissions of the same plan in the same second is remembered as the submitter: the
    second one, accepted too, then approves the plan on its own, while the first is
    refused. *)
Theorem second_submitter_may_approve :
  first_submission.1.1 = inr demo_hash ∧ second_submission.1.1 = inr demo_hash ∧
  (ApproveAll (demo_contract true) demo_hash demo_until [demo_approval (demo_key Byte.x12) demo_until]
     demo_t0 second_submission.1.2 second_submission.2).1.1 = None ∧
  (ApproveAll (demo_contract true) demo_hash demo_until [demo_approval (demo_key Byte.x11) demo_until]
     demo_t0 second_submission.1.2 second_submission.2).1.1 = Some ErrPlanApprovalSelf.
Proof. split_and!; vm_compute; reflexivity. Qed.

Definition live_approved := plan_approved demo_env.
Definition live_verify : plan_op :=
  PVerify "agent" (demo_binding (sb "q=1")) "read" "db" (demo_t0 + second).
Definition live_step := plan_apply (demo_contract false) live_verify live_approved.1.2 live_approved.2.

Definition demo_entry : planEntry :=
  mkPlan "agent" demo_steps demo_t0 demo_until planStatusApproved 1 None 0 false.

Lemma live_entry : ct_plans live_approved.1.2 !! demo_hash = Some demo_entry.
Proof. vm_compute. reflexivity. Qed.

Lemma live_run :
  plan_runs (demo_contract false) demo_hash live_approved.1.2 live_approved.2
    (steps_of demo_hash live_step.1.1 ++ []) live_step.1.2 live_step.2.
Proof.
  apply runs_cons with live_verify live_step.1.2 live_step.2.
  - unfold live_step. destruct (plan_apply _ live_verify _ _) as [[log s] t]. reflexivity.
  - exists demo_entry. vm_compute. reflexivity.
  - apply runs_nil.
Qed.

Lemma plan_steps_in_order_example :
  ∃ e', ct_plans live_step.1.2 !! demo_hash = Some e' ∧ pe_subject e' = "agent" ∧
        pe_steps e' = demo_steps ∧
        take (pe_cursor e') demo_steps = take 0 demo_steps ++ (steps_of demo_hash live_step.1.1 ++ []).
Proof.
  refine (plan_steps_in_order (demo_contract false) demo_hash live_approved.1.2 live_approved.2
    (steps_of demo_hash live_step.1.1 ++ []) live_step.1.2 live_step.2 demo_entry live_run live_entry _).
  intros HP. discriminate HP.
Defined.

Lemma live_approved_eq :
  ApproveAll (demo_contract false) demo_hash demo_until [demo_approval (demo_key Byte.x11) demo_until]
    demo_t0 (plan_submitted demo_env).1.2 (plan_submitted demo_env).2 =
  (None, live_approved.1.2, live_approved.2).
Proof.
  unfold live_approved, plan_approved.
  assert ((ApproveAll (demo_contract false) demo_hash demo_until
    [demo_approval (demo_key Byte.x11) demo_until] demo_t0 (plan_submitted demo_env).1.2
    (plan_submitted demo_env).2).1.1 = None) as E by (vm_compute; reflexivity).
  destruct (ApproveAll _ _ _ _ _ _ _) as [[e s] t]. cbn [fst snd] in *. rewrite E. reflexivity.
Qed.

Lemma approval_needs_distinct_operators_example :
  let '(s1, t1) := expireLocked (demo_contract false) demo_t0 (plan_submitted demo_env).1.2
                     (plan_submitted demo_env).2 in
  ∃ e (kids : list bytes), ct_plans s1 !! demo_hash = Some e ∧ NoDup kids ∧ pe_required e ≤ length kids.
Proof.
  pose proof (approval_needs_distinct_operators (demo_contract false) demo_hash demo_until
    [demo_approval (demo_key Byte.x11) demo_until] demo_t0 (plan_submitted demo_env).1.2
    (plan_submitted demo_env).2 live_approved.1.2 live_approved.2 live_approved_eq) as HA.
  destruct (expireLocked _ _ _ _) as [s1 t1].
  destruct HA as (e & kids & He & _ & _ & _ & _ & Hd & Hr & _). exists e, kids.
  split; [exact He|]. split; [exact Hd|exact Hr].
Defined.

Lemma demo_empty_bounded : store_bounded (demo_contract false) demo_empty.
Proof. split_and!; vm_compute; lia. Qed.

Lemma plan_store_bounded_example :
  store_bounded (demo_contract false) (plan_run (demo_contract false) [live_verify] demo_empty []).1 ∧
  size (ct_plans (plan_run (demo_contract false) [live_verify] demo_empty []).1) ≤ 64 + 64 + 128 + 1.
Proof. exact (plan_store_bounded (demo_contract false) [live_verify] demo_empty [] demo_empty_bounded). Defined.

Lemma first_submission_eq :
  SubmitSigned (demo_contract true) "agent" demo_steps demo_until
    (demo_submission (demo_key Byte.x11) demo_until) demo_t0 demo_empty [] =
  (inr demo_hash, first_submission.1.2, first_submission.2).
Proof.
  unfold first_submission, signed_submit.
  assert ((SubmitSigned (demo_contract true) "agent" demo_steps demo_until
    (demo_submission (demo_key Byte.x11) demo_until) demo_t0 demo_empty []).1.1 = inr demo_hash) as E
    by (vm_compute; reflexivity).
  destruct (SubmitSigned _ _ _ _ _ _ _ _) as [[r s] t]. cbn [fst snd] in *. rewrite E. reflexivity.
Qed.

Lemma signed_submission_received_once_example :
  let '(s2, t2) := plan_run (demo_contract true) [live_verify] first_submission.1.2 first_submission.2 in
  ∃ e, (SubmitSigned (demo_contract true) "agent" demo_steps demo_until
          (demo_submission (demo_key Byte.x12) demo_until) (demo_t0 + 3 * second) s2 t2).1.1 = inl e.
Proof.
  refine (signed_submission_received_once (demo_contract true) "agent" demo_steps demo_until
    (demo_submission (demo_key Byte.x11) demo_until) demo_t0 demo_empty [] demo_hash
    first_submission.1.2 first_submission.2 [live_verify] (demo_submission (demo_key Byte.x12) demo_until)
    (demo_t0 + 3 * second) first_submission_eq _).
  constructor; [vm_compute; reflexivity|constructor].
Defined.

(** ** The queue in front of the engine *)

Definition demo_adm : admission :=
  default (mkAdmission 0 0 0 0 0 [] ∅ ∅ (mkAdmStats 0 0 0 0) 0 ∅) (newAdmission 1 4 100 0).

Lemma demo_adm_new : newAdmission 1 4 100 0 = Some demo_adm.
Proof. reflexivity. Qed.

Definition demo_deadline : Z := (demo_t0 + second)%Z.

(** The first request takes the only place, the second and the third wait. *)
Definition adm_one : admission := (acquire_begin 1 "a" demo_deadline demo_t0 demo_adm).2.
Definition adm_two : admission := (acquire_begin 2 "a" demo_deadline demo_t0 adm_one).2.
Definition adm_three : admission := (acquire_begin 3 "b" demo_deadline demo_t0 adm_two).2.
Definition adm_threads : gmap nat thread :=
  <[3 := TWaiting "b"]> (<[2 := TWaiting "a"]> (<[1 := THolding "a"]> ∅)).

Lemma demo_adm_run : rtc adm_step (demo_adm, ∅) (adm_three, adm_threads).
Proof.
  apply rtc_l with (adm_one, <[1 := THolding "a"]> ∅);
    [exact (step_acquire 1 "a" demo_deadline demo_t0 demo_adm ∅ eq_refl)|].
  apply rtc_l with (adm_two, <[2 := TWaiting "a"]> (<[1 := THolding "a"]> ∅));
    [exact (step_acquire 2 "a" demo_deadline demo_t0 adm_one (<[1 := THolding "a"]> ∅) eq_refl)|].
  apply rtc_once.
  exact (step_acquire 3 "b" demo_deadline demo_t0 adm_two
    (<[2 := TWaiting "a"]> (<[1 := THolding "a"]> ∅)) eq_refl).
Qed.

Lemma admission_bounded_example : ad_inflight adm_three = 1%Z.
Proof.
  refine (proj1 (proj2 (proj2 (proj2 (proj2 (admission_bounded 1 4 100 0 demo_adm adm_three adm_threads
    demo_adm_new _ demo_adm_run))))) _); [vm_compute; discriminate|vm_compute; discriminate].
Defined.

(** The place of the first request goes to the subject that has none. *)
Definition demo_scan := dispatch_scan (λ _, demo_t0) (ad_queue adm_three) None 0 adm_three.

Lemma demo_scan_best : demo_scan.1.1 = Some (mkWaiter 3 "b" demo_deadline).
Proof. vm_compute. reflexivity. Qed.

Lemma demo_ids_distinct : NoDup (w_id <$> ad_queue adm_three).
Proof. apply (bool_decide_unpack _). vm_compute. exact I. Qed.

Lemma dispatch_serves_fairly_example :
  ∃ l1 l2, ad_queue demo_scan.2 = l1 ++ mkWaiter 3 "b" demo_deadline :: l2.
Proof.
  pose proof (dispatch_serves_fairly (λ _, demo_t0) 0 adm_three demo_ids_distinct) as HD.
  pose proof demo_scan_best as HB. unfold demo_scan in *.
  destruct (dispatch_scan _ _ _ _ _) as [[best k] a']. simpl in HB. subst best.
  destruct HD as (_ & _ & l1 & l2 & E & _). exists l1, l2. exact E.
Defined.

(** ** The engine *)

Definition demo_engine (producer : Producer) : OPAClient :=
  mkOPAClient producer EvalTimeout true 2 (10 * second) 0 (UnixNano demo_t0) 0.
Definition demo_input : OPAInput :=
  mkOPAInput demo_jti "agent" "read" "db" ClassOut 3 None None.
Definition demo_ctx : opa_ctx := mkOpaCtx false false.
Definition opa_error_call : opa_call :=
  mkOpaCall (λ _, IoStatus 500) demo_ctx demo_t0 demo_t0 demo_input.

(** The second error in a row raises the alarm. *)
Lemma demo_streak :
  (unanswered opa_error_call && (0 <? oc_stallWindow (demo_engine demo_producer))
   && (3 <=? unanswered_streak ([opa_error_call] ++ [opa_error_call]))
   && (oc_stallWindow (demo_engine demo_producer) <=?
       Sub (k_now opa_error_call) (last_answer (oc_lastAlive (demo_engine demo_producer)) [opa_error_call])))%Z
    = false ∧
  (bool_decide (k_reason opa_error_call = ReasonOPABadResponse) ||
   (is_fault opa_error_call &&
    (oc_tripAfter (demo_engine demo_producer) <=? fault_streak ([opa_error_call] ++ [opa_error_call]))))%Z
    = true.
Proof. split; vm_compute; reflexivity. Qed.

Lemma opa_alarms_follow_history_example :
  let '(c, t) := opa_run [opa_error_call] (demo_engine demo_producer) [] in
  alarms_of (opa_apply opa_error_call c t).2 = alarms_of t ++ [k_reason opa_error_call].
Proof.
  pose proof (opa_alarms_follow_history (demo_engine demo_producer) [] [opa_error_call] opa_error_call
    eq_refl eq_refl eq_refl ltac:(vm_compute; reflexivity)) as HA.
  destruct (opa_run _ _ _) as [c t]. rewrite (proj1 demo_streak), (proj2 demo_streak) in HA. exact HA.
Defined.

(** ** Objects and diffs *)

Definition demo_fields : list ObjectField :=
  [mkObjectField "pod/x" "image" (sb "v2"); mkObjectField "pod/x" "cpu" (sb "4")].

Lemma object_seal_canonical_example :
  ComputeObjectSeal "cell-a" demo_policy demo_fields =
    ComputeObjectSeal "cell-a" demo_policy (reverse demo_fields).
Proof.
  apply (object_seal_canonical demo_sort demo_sort "cell-a" "cell-a" demo_policy demo_policy
    demo_fields (reverse demo_fields) eq_refl eq_refl). symmetry. apply reverse_Permutation.
Defined.

Definition demo_change (object field : string) : DiffEntry :=
  mkDiffEntry object field DiffUpdate (demo_key Byte.x01) (demo_key Byte.x02).
Definition demo_diff : list DiffEntry := [demo_change "pod/x" "image"; demo_change "pod/x" "cpu"].

Lemma demo_diff_sized : Forall entry_sized demo_diff.
Proof. repeat constructor. Qed.

Lemma diff_hash_binds_example :
  HashDiff "cell-a" demo_diff = HashDiff "cell-a" demo_diff.
Proof.
  refine (proj1 (diff_hash_binds demo_sort demo_sort "cell-a" "cell-a" demo_diff demo_diff
    demo_diff_sized demo_diff_sized) _ _); [done|]. apply (bool_decide_unpack _). reflexivity.
Defined.

(** Two reports of the same object, field and kind: the sort leaves them in the order the
    component listed them, and the hash tells the two orders apart. *)
Definition demo_change' : DiffEntry :=
  mkDiffEntry "pod/x" "image" DiffUpdate (demo_key Byte.x03) (demo_key Byte.x04).

Lemma diff_hash_depends_on_order :
  HashDiff "cell-a" [demo_change "pod/x" "image"; demo_change'] ≠
  HashDiff "cell-a" [demo_change'; demo_change "pod/x" "image"].
Proof. vm_compute. discriminate. Qed.

(** ** The decision chain *)

Definition plain_producer : Producer := mkProducer "cell-a" demo_salt false.
Definition plain_ledger : QuotaLedger :=
  mkQuotaLedger 2 ∅ [] false [] (mkLedgerConfig plain_producer true true).
Definition demo_listener : Listener AntiReplay FileQuorumStateStore :=
  mkListener _ _ demo_validator demo_cache
    (mkModeController _ plain_producer true ModeClosed (Some demo_verifier) None (Some demo_store))
    (Some plain_ledger) (Some (demo_engine plain_producer))
    (Some (mkDryRunGate plain_producer DefaultDryRunTimeout true)) None
    (mkListenerStats 0 0 0 0 0 0).

(** An engine that answers [verdict], and a component that reports one change. *)
Definition demo_x (verdict : bool) : eval_env :=
  mkEvalEnv demo_now demo_now (λ _ _, Some demo_diff) demo_ctx demo_now demo_now demo_now demo_now
    demo_now demo_now (λ _, IoResult (Some (Some verdict))) demo_ctx demo_now demo_now 1000.

Definition demo_evaluation (verdict : bool) :
    evalOutcome * Listener AntiReplay FileQuorumStateStore * trace :=
  evaluate demo_seams (demo_x verdict) demo_wire demo_request demo_listener [].

Lemma demo_forwarded : eo_Forwarded (demo_evaluation true).1.1 = true.
Proof. vm_compute. reflexivity. Qed.

Lemma demo_dry_run_cell g :
  ln_dryRun demo_listener = Some g → 0 < slen (p_cellID (dg_producer g)) ≤ 255.
Proof. intros [= <-]. vm_compute. lia. Qed.

Lemma evaluate_allows_only_if_all_agree_example :
  ∃ tok dry, authentic demo_keyring demo_wire tok ∧
    shown_dry_run demo_listener (demo_x true) demo_request tok dry.
Proof.
  pose proof (evaluate_allows_only_if_all_agree (H5 := demo_cose_laws) demo_seams (demo_x true)
    demo_wire demo_request demo_listener [] demo_dry_run_cell) as HE.
  pose proof demo_forwarded as HF. unfold demo_evaluation in HF.
  destruct (evaluate _ _ _ _ _ _) as [[o l'] t'].
  destruct (HE eq_refl HF) as (_ & tok & Ha & _ & _ & HO).
  destruct (HO (mk_is_Some _ _ eq_refl)) as (dry & HD & _). exists tok, dry. split; [exact Ha|exact HD].
Defined.

Lemma plain_writable ts : writable plain_producer ts.
Proof. intros kind record t _. by apply appendLeaf_accepts. Qed.

(** The veto of the engine is the last decision on record. *)
Lemma evaluate_verdict_traced_example :
  verdict_traced (eo_Decision (demo_evaluation false).1.1) (demo_evaluation false).2.
Proof.
  pose proof (evaluate_verdict_traced (H5 := demo_cose_laws) demo_seams (demo_x false) demo_wire
    demo_request demo_listener [] (plain_writable _)
    ltac:(intros g [= <-]; split; apply plain_writable) ltac:(intros q [= <-]; apply plain_writable)
    ltac:(intros o [= <-]; apply plain_writable)) as HT.
  unfold demo_evaluation. destruct (evaluate _ _ _ _ _ _) as [[o l'] t']. exact HT.
Defined.

Definition open_listener : Listener AntiReplay FileQuorumStateStore :=
  set_stats demo_cache (Some demo_opened) None (mkListenerStats 0 0 0 0 0 0) demo_listener.

Lemma demo_opened_wf : ledger_wf demo_opened.
Proof.
  apply (ledger_step_wf demo_t0 (demo_ledger, []) (demo_opened, [])); [|exact demo_ledger_wf].
  apply step_open with (Some demo_token) (inr 0). vm_compute. reflexivity.
Qed.

Lemma demo_consumed : consume_ok (handleConsume (Some demo_wire) 7 demo_now demo_now open_listener []).1.1 = true.
Proof. vm_compute. reflexivity. Qed.

Lemma consume_needs_possession_example :
  ∃ jti c, presents open_listener demo_opened (Some demo_wire) jti c.
Proof.
  pose proof (consume_needs_possession (Some demo_wire) 7 demo_now demo_now open_listener demo_opened []
    eq_refl demo_opened_wf) as HC.
  pose proof demo_consumed as HK.
  destruct (handleConsume _ _ _ _ _ _) as [[r l'] t']. destruct HC as (q' & _ & _ & _ & HA).
  destruct (proj1 HA HK) as (jti & c & HP & _). exists jti, c. exact HP.
Defined.

(** A veto of the engine can leave no trace. When the write of its leaf fails, [finish]
    keeps the error in [LeafErr], which [evaluate] drops: the request is refused, the
    answer still says that its leaf was written, no alarm is raised, and the only decision
    leaf on record is the validator's, which says the request was allowed. *)
Theorem veto_leaf_lost_silently :
  let '(o, _, t) := evaluate (H0 := faulty_env [2]) demo_seams (demo_x false) demo_wire demo_request
                      demo_listener [] in
  d_Allow (eo_Decision o) = false ∧ d_Reason (eo_Decision o) = ReasonOPADeny ∧
  d_LeafWritten (eo_Decision o) = true ∧ alarms_of t = [] ∧
  decisions t = [leaf_for plain_producer KindDecision
                   (validatorRecord demo_jti true ReasonOK None) (UnixNano demo_now)].
Proof. vm_compute. split_and!; reflexivity. Qed.

(** ** Administration *)

Definition wire_proof : QuorumProof :=
  mkQuorumProof demo_expiry [mkQuorumSignature (replicate 16 Byte.x1f) (replicate 64 Byte.xe0)].

Lemma wire_proof_sized : Forall sig_sized (qp_Signatures wire_proof).
Proof. repeat constructor. Qed.

Lemma quorum_proof_wire_roundtrip_example :
  decodeQuorumProof (encode_proof "closed" wire_proof) =
    Some (mkQuorumProof (of_Unix (Unix (qp_Expiry wire_proof))) (qp_Signatures wire_proof)).
Proof. exact (proj1 (quorum_proof_wire_roundtrip "closed") wire_proof wire_proof_sized). Defined.
