(* ===== verification/ClusterExamples.v ===== *)
(** The theorems on the cluster, the arbiter and the supervision at concrete inputs, and the
    behaviours of that code worth knowing, run on a small cluster. Dates are decimal numbers of
    milliseconds. *)
From S2P Require Import Prelude.
From S2P Require Import Hex.
From S2P Require Import Json.
From S2P Require Import Sha256.
From S2P Require Import Leaf.
From S2P Require Import Effects.
From S2P Require Import Token.
From S2P Require Import PlanContract.
From S2P Require Import Controllers.
From S2P Require Import Epoch.
From S2P Require Import ProofStore.
From S2P Require Import ClassW.
From S2P Require Import Promotion.
From S2P Require Import Arbiter.
From S2P Require Import ArbiterRuns.
From S2P Require Import Degradation.
From S2P Require Import Guard.
From S2P Require Import Alert.
From S2P Require Import Watcher.
From S2P Require Import Supervision.

Local Open Scope Z_scope.

#[local] Existing Instance demo_crypto.
#[local] Existing Instance demo_crypto_laws.
#[local] Existing Instance demo_env.

(** Milliseconds, in decimal. *)
Definition demo_time : TimeParser := λ s,
  match DecimalString.NilEmpty.uint_of_string s with
  | Some u => if bool_decide (s = "") then None else Some (Z.of_uint u * 1000000)
  | None => None
  end.
#[local] Existing Instance demo_time.

Definition ms (n : Z) : Z := n * 1000000.

(** ** The cluster *)

Definition cx_salt : bytes := replicate 16 Byte.x2a.
Definition cx_key (n : byte) : bytes := replicate 32 n.
Definition cx_ctrls : gmap Z bytes :=
  list_to_map [(1, cx_key Byte.x11); (2, cx_key Byte.x12); (3, cx_key Byte.x13)].
Definition cx_sig (id : Z) (k : byte) (msg : bytes) : ControllerSignature :=
  mkCtrlSig id (hex (demo_sign (cx_key k) msg)).
Definition cx_sigs (msg : bytes) : list ControllerSignature := [cx_sig 1 Byte.x11 msg; cx_sig 3 Byte.x13 msg].

Definition cx_tracker (cell : string) : Tracker :=
  match NewTracker cell cx_salt true true cx_ctrls 2 ["cell-a"; "cell-b"] 2 10 300 true with
  | Some t => t
  | None => mkTracker (mkProducer "" [] false) ∅ 0 ∅ 0 0 0 false None ∅ []
  end.

Definition cx_token (n : Z) (authority issued : string) (ttl : Z) (mode : string) : EpochToken :=
  let p := mkEpochPayload n authority issued ttl mode None in
  mkEpochToken p "2-of-3" (cx_sigs (canonicalPayload p)).

Definition cx_accept (now : Z) (tok : EpochToken) (t : Tracker) : Tracker :=
  (Accept now now (Some tok) t []).1.2.

(** Epoch 1 of [cell-a], then epoch 2 of [cell-b] before the end of the first. *)
Definition cx_tok1 : EpochToken := cx_token 1 "cell-a" "1000000" 100 "auto".
Definition cx_tok2 : EpochToken := cx_token 2 "cell-b" "1010000" 100 "auto".
Definition cx_b1 : Tracker := cx_accept (ms 1000000) cx_tok1 (cx_tracker "cell-b").
Definition cx_b2 : Tracker := cx_accept (ms 1010000) cx_tok2 cx_b1.

Definition cx_past : list epochState := replaced cx_b1 cx_b2 ++ replaced (cx_tracker "cell-b") cx_b1 ++ [].
Definition cx_autos : list Z :=
  ([] ++ auto_install (cx_tracker "cell-b") cx_b1 (ms 1000000)) ++ auto_install cx_b1 cx_b2 (ms 1010000).

Lemma cx_tracked : tracked (ms 1010000) cx_past cx_autos cx_b2.
Proof.
  unfold cx_past, cx_autos, cx_b2, cx_accept. apply (tracked_step (ms 1000000)); [|vm_compute; discriminate].
  unfold cx_b1, cx_accept. apply (tracked_step 0); [|vm_compute; discriminate]. by apply tracked_new.
Qed.

Example cx_switch : (length cx_past, cx_autos, CurrentEpoch (ms 1105000) cx_b2, CurrentEpoch (ms 1050000) cx_b2) =
  (1%nat, [ms 1000000; ms 1010000], inr 2, inl ErrEpochNotYetEffective).
Proof. vm_compute. reflexivity. Qed.

Lemma non_shrinking_dates es : StronglySorted (λ x y, y ≤ x) (es_expiresAt <$> es) → non_shrinking es.
Proof.
  induction es as [|e es IH]; [constructor|]. rewrite fmap_cons. intros [HS HF]%StronglySorted_inv.
  constructor; [by apply IH|]. by rewrite Forall_fmap in HF.
Qed.

Lemma no_double_authority_example :
  ∃ e, tk_current cx_b2 = Some e ∧ Forall (λ h, ep_N (es_payload h) < ep_N (es_payload e) ∧
    ∀ last' past' autos' t', tracked last' past' autos' t' →
      es_payload <$> tk_current t' = Some (es_payload h) →
      ∀ m, CurrentEpoch (ms 1105000) t' ≠ inr m) cx_past.
Proof.
  apply (no_double_authority (ms 1010000) cx_past cx_autos cx_b2 (ms 1105000) 2).
  - exact cx_tracked.
  - apply non_shrinking_dates.
    assert (es_expiresAt <$> option_list (tk_current cx_b2) ++ cx_past = [ms 1110000; ms 1100000]) as ->
      by (vm_compute; reflexivity). repeat constructor; discriminate.
  - vm_compute. discriminate.
  - vm_compute. reflexivity.
Defined.

Lemma auto_failovers_bounded_example :
  Z.of_nat (length (filter (λ x, ms 1010000 - hour < x ≤ ms 1010000) cx_autos)) ≤ tk_maxAutoHr cx_b2.
Proof.
  apply (auto_failovers_bounded (ms 1010000) cx_past); [exact cx_tracked|vm_compute; discriminate].
Defined.

(** A third automatic switch within the hour is refused. *)
Example cx_third_refused :
  (Accept (ms 1020000) (ms 1020000) (Some (cx_token 3 "cell-a" "1020000" 100 "auto")) cx_b2 []).1.1 =
  Some (EpochRefused "failover-budget-exhausted").
Proof. vm_compute. reflexivity. Qed.

(** Two payloads for one number. *)
Definition cx_tok1' : EpochToken := cx_token 1 "cell-b" "1000000" 100 "auto".

Lemma equivocation_detected_example :
  sha256_collision ∨
  let '(e, t', tr') := Accept (ms 1001000) (ms 1001000) (Some cx_tok1') cx_b1 [] in
  t' = cx_b1 ∧ alarms_of tr' = alarms_of [] ++ (if tk_onAlarm cx_b1 then ["epoch-equivocation"] else []) ∧
  match e with
  | Some (EpochRefused reason) => reason = "epoch-equivocation" ∧
      leaves_of tr' = leaves_of [] ++ [leaf_for (tk_producer cx_b1) KindEpoch
        (epochRecord epochEventEquivocate (ep_N (et_Payload cx_tok1')) (ep_Authority (et_Payload cx_tok1')) reason)
        (UnixNano (ms 1001000))]
  | Some (EpochRefusedUntraced reason _) => reason = "epoch-equivocation" ∧ leaves_of tr' = leaves_of []
  | _ => False
  end.
Proof.
  apply (equivocation_detected (ms 1001000) (ms 1001000) cx_tok1' cx_b1 []
    (new_epoch (cx_tracker "cell-b") (ms 1000000) (ms 1000000) (et_Payload cx_tok1)) (ms 1000000)).
  - vm_compute. reflexivity.
  - vm_compute. reflexivity.
  - apply check_token_spec. vm_compute. reflexivity.
  - reflexivity.
  - split_and!; try (apply utf8_ascii; vm_compute; reflexivity). done.
  - split_and!; try (apply utf8_ascii; vm_compute; reflexivity). done.
  - discriminate.
Defined.

(** ** Behaviours of the tracker worth knowing *)

(** Epoch 2 is so short that it ends before it takes effect; epoch 3 then follows at once. *)
Definition cx_short2 : EpochToken := cx_token 2 "cell-b" "1001000" 10 "manual".
Definition cx_next3 : EpochToken := cx_token 3 "cell-b" "1012000" 100 "manual".
Definition cx_a1 : Tracker := cx_accept (ms 1000000) cx_tok1 (cx_tracker "cell-a").
Definition cx_b3 : Tracker :=
  cx_accept (ms 1012000) cx_next3 (cx_accept (ms 1001000) cx_short2 cx_b1).

(** A window of double authority. The handover waits for the lease of the previous epoch
    only. After an epoch whose lease ends before that of its predecessor, the next authority
    serves at once, while a cell that has seen only the first epoch still serves it. *)
Theorem double_authority_after_short_lease :
  CurrentEpoch (ms 1050000) cx_a1 = inr 1 ∧ CurrentEpoch (ms 1050000) cx_b3 = inr 3.
Proof. vm_compute. split; reflexivity. Qed.

(** The leaf of the acceptance fails: the caller gets an error, and the epoch is in force. *)
Example epoch_in_force_after_failed_leaf :
  let '(e, t, _) := @Accept demo_crypto (faulty_env [0%nat]) demo_time (ms 1000000) (ms 1000000) (Some cx_tok1)
                      (cx_tracker "cell-a") [] in
  (match e with Some (EpochLeafFailed _) => True | _ => False end) ∧ CurrentEpoch (ms 1000000) t = inr 1.
Proof. vm_compute. split; [exact I|reflexivity]. Qed.

(** A token refused for its roster has used the budget of automatic switches. *)
Definition cx_bad_roster : EpochToken :=
  let p := mkEpochPayload 1 "cell-a" "1000000" 100 "auto" (Some ["cell-b"]) in
  mkEpochToken p "2-of-3" (cx_sigs (canonicalPayload p)).
Example refused_token_uses_budget :
  let '(e, t, _) := Accept (ms 1000000) (ms 1000000) (Some cx_bad_roster) (cx_tracker "cell-a") [] in
  (e, tk_current t, tk_autoLog t) = (Some (EpochRefused "authority-not-in-roster"), None, [ms 1000000]).
Proof. vm_compute. reflexivity. Qed.

(** ** Class W *)

Definition cx_gate : ClassWGate := mkClassWGate (mkProducer "cell-a" cx_salt true) cx_ctrls 2 (replicate 32 Byte.x01) (seconds 300).
Definition cx_proof (resource expiry : string) : ClassWProof :=
  let st := mkQuorumStatement "write" resource (hex (replicate 32 Byte.x01)) 7 expiry in
  mkClassWProof st "2-of-3" (cx_sigs (canonicalStatement st)).
Definition cx_verify (now : Z) (p : ClassWProof) (resource : string) (c : consumedProofs) :=
  VerifyClassW cx_gate now now true (Some (Some p)) "write" resource 7 c [].
Definition cx_store : consumedProofs := mkConsumedProofs ∅ 16 (Some ∅).

Definition cx_whole : ClassWProof := cx_proof "db" "1060000".
Definition cx_after : consumedProofs := (cx_verify (ms 1000000) cx_whole "db" cx_store).1.2.

Lemma classW_proof_single_use_example :
  (VerifyClassW cx_gate (ms 1030000) (ms 1030000) true (Some (Some cx_whole)) "write" "db" 7 cx_after []).1.1 ≠ None.
Proof.
  apply (classW_proof_single_use cx_gate (ms 1000000) (ms 1000000) true cx_whole "write" "db" 7 cx_store []
    cx_after (cx_verify (ms 1000000) cx_whole "db" cx_store).2 1060 cx_after).
  - split_and!; [vm_compute; discriminate|vm_compute; discriminate|by right].
  - vm_compute. reflexivity.
  - vm_compute. reflexivity.
  - apply rtc_refl.
  - reflexivity.
Defined.

(** A proof used twice. A proof whose end is not a whole second can be used again in the last
    fraction of its window: the store forgets it at the start of that second, when another proof
    is used, while the gate still accepts it. *)
Theorem classW_replay_in_last_second :
  let p := cx_proof "db" "1060900" in let q := cx_proof "other" "1100000" in
  let '(e1, c1, _) := cx_verify (ms 1000000) p "db" cx_store in
  let '(e2, c2, _) := cx_verify (ms 1060100) q "other" c1 in
  let '(e3, _, _) := cx_verify (ms 1060200) p "db" c2 in
  (e1, e2, e3) = (None, None, None).
Proof. vm_compute. reflexivity. Qed.

(** ** Promotions *)

Definition cx_bundle : string := hex (replicate 32 Byte.x05).
Definition cx_anchors : anchor_content :=
  let p := mkAnchorPayload anchorsKind (Some [mkAnchorEntry 7 cx_bundle "1000000" "2000000"]) in
  mkAnchorContent 500 (Some (mkAnchorFile p (cx_sigs (canonicalAnchors p)))).
Definition cx_source : FileAnchorSource := mkFileAnchorSource cx_ctrls 2.
Definition cx_promoter : PromotionController :=
  mkPromotion (mkProducer "cell-a" cx_salt true) {[ "cell-b" := cx_key Byte.x21 ]}.
Definition cx_receipt : SignedReceipt :=
  let r := mkReceipt "cell-b" 7 cx_bundle "1500000" in
  mkSignedReceipt r (hex (demo_sign (cx_key Byte.x21) (canonicalReceipt r))).

Lemma promotion_needs_signed_anchors_example :
  ∃ f1 es1 e1 f2 es2 e2 bundle start stop,
    Some cx_anchors = Some f1 ∧ anchors_valid cx_source f1 es1 ∧ e1 ∈ es1 ∧
    ae_Epoch e1 = rc_Epoch (sr_Receipt cx_receipt) ∧
    hex_DecodeString (ae_BundleHash e1) = Some bundle ∧
    hex_DecodeString (rc_BundleHash (sr_Receipt cx_receipt)) = Some bundle ∧ length bundle = 32%nat ∧
    Some cx_anchors = Some f2 ∧ anchors_valid cx_source f2 es2 ∧ e2 ∈ es2 ∧
    ae_Epoch e2 = rc_Epoch (sr_Receipt cx_receipt) ∧
    parse_rfc3339 (ae_WindowStart e2) = Some start ∧ parse_rfc3339 (ae_WindowEnd e2) = Some stop ∧
    start ≤ ms 1600000 < stop ∧ stop ≤ start + MaxAnchorWindow.
Proof.
  apply (promotion_needs_signed_anchors cx_source (Some cx_anchors) (Some cx_anchors) cx_promoter
    (ms 1600000) (ms 1600000) cx_receipt []). vm_compute. reflexivity.
Defined.

Lemma signed_document_unique_example :
  let d := DocReceipt (mkReceipt "cell-b" 7 cx_bundle "1500000") in d = d.
Proof.
  apply signed_document_unique; [|repeat (apply Forall_cons; split; [apply utf8_ascii; vm_compute; reflexivity|]);
    apply Forall_nil_2|reflexivity].
  repeat (apply Forall_cons; split; [apply utf8_ascii; vm_compute; reflexivity|]). apply Forall_nil_2.
Defined.

(** ** The arbiter *)

Definition cx_op (n : byte) : bytes := cx_key n.
Definition cx_queue : Queue :=
  match NewQueue "cell-a" cx_salt true true [cx_op Byte.x31; cx_op Byte.x32] (Some [cx_op Byte.x31]) None 0 0 2 true with
  | Some q => q
  | None => mkQueue (mkProducer "" [] false) [] [] [] 0 0 0 false ∅ 0
  end.
Definition cx_ticket (n : byte) : bytes := replicate 16 n.
Definition cx_intent : bytes := sb "restart the pump".
Definition cx_id : bytes := IntentID "agent" cx_intent.
Definition cx_decision (ticket : bytes) (expiry : Z) : bytes :=
  demo_sign (cx_op Byte.x31) (DecisionMessage "cell-a" cx_id ticket VerdictApprove expiry).

(** A request is queued and approved. *)
Definition cx_q1 := arb_Enqueue (ms 2000000) (Some (cx_ticket Byte.x01)) "agent" cx_intent cx_queue [].
Definition cx_q2 := arb_Decide (ms 2010000) cx_id VerdictApprove (ms 2100000)
  (cx_decision (cx_ticket Byte.x01) (ms 2100000)) cx_q1.1.2 cx_q1.2.
(** The process stops and starts again, then the agent comes back twice. *)
Definition cx_inlog (t : trace) (r : SealedRecord) : bool := bool_decide (sl_Leaf r ∈ leaves_of t).
Definition cx_q3 : Queue := reopened (ms 2020000) (cx_inlog cx_q2.2) cx_q2.1.2 cx_q2.2.
Definition cx_take1 := arb_Take (ms 2030000) "agent" cx_intent cx_q3 cx_q2.2.
Definition cx_take2 := arb_Take (ms 2040000) "agent" cx_intent cx_take1.1.2 cx_take1.2.

Example cx_arbitration :
  (cx_q1.1.1, cx_q2.1.1, cx_take1.1.1.1.1, cx_take2.1.1.1.1) = (None, None, OutcomeApproved, OutcomeNone).
Proof. vm_compute. reflexivity. Qed.

Lemma cx_run :
  arb_run cx_queue [] [(cx_id, cx_ticket Byte.x01)]
    (admission_of (ms 2030000) cx_q3 cx_take1.1.1.1.1 cx_take1.1.1.1.2 ++ []) cx_take1.1.2 cx_take1.2.
Proof.
  apply (run_take _ _ _ _ cx_q3 cx_q2.2 (ms 2030000) "agent" cx_intent _ _ cx_take1.1.1.2).
  2: { unfold cx_take1. by destruct (arb_Take _ _ _ _ _) as [[[[? ?] ?] ?] ?]. }
  unfold cx_q3. apply run_reopen. unfold cx_q2. apply run_decide; [|split; vm_compute; [discriminate|reflexivity]].
  unfold cx_q1, cx_id. apply run_enqueue; [apply run_start|split; vm_compute; [discriminate|reflexivity]|reflexivity|].
  apply not_elem_of_nil.
Qed.

Lemma approval_admits_once_example :
  let A := admission_of (ms 2030000) cx_q3 cx_take1.1.1.1.1 cx_take1.1.1.1.2 ++ [] in
  NoDup (pair_of <$> A) ∧
  ∀ id ticket now, (id, ticket, now) ∈ A →
    ∃ pub sig expiry, pub ∈ q_keys cx_queue ∧ now < expiry ∧
      ed25519_verify pub (DecisionMessage (p_cellID (q_producer cx_queue)) id ticket VerdictApprove expiry) sig = true.
Proof.
  apply (approval_admits_once "cell-a" cx_salt true [cx_op Byte.x31; cx_op Byte.x32] (Some [cx_op Byte.x31]) None 0 0 2
    true cx_queue [] [(cx_id, cx_ticket Byte.x01)] _ cx_take1.1.2 cx_take1.2).
  - vm_compute. reflexivity.
  - apply Forall_nil_2.
  - exact cx_run.
Defined.

Lemma arbiter_queue_bounded_example :
  Z.of_nat (size (q_entries cx_take1.1.2)) ≤ q_max cx_queue ∧
  map_Forall (λ id e, fields_wf id (en_ticket e) (en_subject e) (en_by e)) (q_entries cx_take1.1.2).
Proof.
  apply (arbiter_queue_bounded "cell-a" cx_salt true [cx_op Byte.x31; cx_op Byte.x32] (Some [cx_op Byte.x31]) None 0 0 2
    true cx_queue [] [(cx_id, cx_ticket Byte.x01)]
    (admission_of (ms 2030000) cx_q3 cx_take1.1.1.1.1 cx_take1.1.1.1.2 ++ []) cx_take1.1.2 cx_take1.2).
  - vm_compute. reflexivity.
  - apply Forall_nil_2.
  - exact cx_run.
Defined.

Lemma cx_quiet : quiet_run cx_queue [] cx_q2.1.2 cx_q2.2.
Proof.
  unfold cx_q2. apply quiet_decide.
  - unfold cx_q1. apply quiet_enqueue; [apply quiet_start|vm_compute; discriminate
      |split; vm_compute; [discriminate|reflexivity]|reflexivity| | |].
    + apply (bool_decide_unpack _). vm_compute. exact I.
    + intros e. vm_compute. discriminate.
    + apply (bool_decide_unpack _). vm_compute. exact I.
  - split; vm_compute; [discriminate|reflexivity].
  - apply (bool_decide_unpack _). vm_compute. exact I.
  - apply (bool_decide_unpack _). vm_compute. exact I.
Qed.

Lemma restore_refines_queue_example :
  q_entries (reopened (ms 2020000) (cx_inlog cx_q2.2) cx_q2.1.2 cx_q2.2) =
  prune_entries (ms 2020000) (kept_entry <$> q_entries cx_q2.1.2).
Proof.
  apply (restore_refines_queue "cell-a" cx_salt true [cx_op Byte.x31; cx_op Byte.x32] (Some [cx_op Byte.x31]) None 0 0 2
    true cx_queue []).
  - vm_compute. reflexivity.
  - apply Forall_nil_2.
  - exact cx_quiet.
  - intros r Hr. by apply bool_decide_eq_true.
Defined.

(** ** What a restart of the arbiter loses *)

(** The request expires in the queue and is queued again under a new ticket; then the process
    starts again. *)
Definition cx_r1 := arb_Enqueue (ms 2000000) (Some (cx_ticket Byte.x01)) "agent" cx_intent cx_queue [].
Definition cx_r2 := arb_Enqueue (ms 2700000) (Some (cx_ticket Byte.x02)) "agent" cx_intent cx_r1.1.2 cx_r1.2.

(** A waiting request is lost by a restart. The restoration does not drop the expired entries
    as it reads the journal, so an entry that expired hides the new entry of the same request; the
    queue held a live request and the restored queue is empty. *)
Theorem restore_loses_requeued_request :
  cx_r2.1.1 = None ∧ size (q_entries cx_r2.1.2) = 1%nat ∧
  size (q_entries (reopened (ms 2710000) (cx_inlog cx_r2.2) cx_r2.1.2 cx_r2.2)) = 0%nat.
Proof. vm_compute. split_and!; reflexivity. Qed.

(** The expired entries also fill the queue while the journal is read: with room for two, two
    requests that expired keep a third one, still waiting, from being restored. *)
Definition cx_enq (now : Z) (n : byte) (intent : string) (r : option arbiter_error * Queue * trace) :=
  arb_Enqueue now (Some (cx_ticket n)) "agent" (sb intent) r.1.2 r.2.
Definition cx_f3 := cx_enq (ms 2700000) Byte.x03 "three"
  (cx_enq (ms 2000000) Byte.x02 "two" (cx_enq (ms 2000000) Byte.x01 "one" (None, cx_queue, []))).
Example restore_full_of_expired :
  size (q_entries cx_f3.1.2) = 1%nat ∧
  size (q_entries (reopened (ms 2710000) (cx_inlog cx_f3.2) cx_f3.1.2 cx_f3.2)) = 0%nat.
Proof. vm_compute. split; reflexivity. Qed.

(** ** Degraded admissions *)

Definition cx_guard : controllerGate := mkControllerGate None true.
Definition cx_ctl : Controller :=
  match NewController "cell-a" cx_salt true true true true true (ms 1900000) with
  | Some c => c
  | None => mkController (mkProducer "" [] false) false false true 0 false
  end.
Definition cx_rd : readings := mkReadings (ms 2030000) (ms 2030000) (ms 2030000) (ms 2030000).

Lemma cx_run3 : arb_run cx_queue [] [(cx_id, cx_ticket Byte.x01)] [] cx_q3 cx_q2.2.
Proof.
  unfold cx_q3. apply run_reopen. unfold cx_q2. apply run_decide; [|split; vm_compute; [discriminate|reflexivity]].
  unfold cx_q1, cx_id. apply run_enqueue; [apply run_start|split; vm_compute; [discriminate|reflexivity]|reflexivity|].
  apply not_elem_of_nil.
Qed.

Lemma degraded_admission_signed_example :
  ∃ tk pub sig expiry, pub ∈ q_keys cx_queue ∧ rd_take cx_rd < expiry ∧
    ed25519_verify pub (DecisionMessage (p_cellID (q_producer cx_queue)) (IntentID "agent" cx_intent) tk
      VerdictApprove expiry) sig = true ∧
    ((IntentID "agent" cx_intent, tk) ∉ pair_of <$> []).
Proof.
  apply (degraded_admission_signed "cell-a" cx_salt true [cx_op Byte.x31; cx_op Byte.x32] (Some [cx_op Byte.x31]) None
    0 0 2 true cx_queue [] [(cx_id, cx_ticket Byte.x01)] [] cx_q3 cx_q2.2 cx_guard false cx_ctl None cx_rd
    (Some (cx_ticket Byte.x02)) (Some (cx_ticket Byte.x09)) "agent" false cx_intent).
  - vm_compute. reflexivity.
  - apply Forall_nil_2.
  - exact cx_run3.
  - split; vm_compute; [discriminate|reflexivity].
  - intros tk [= <-]. split; [reflexivity|]. apply (bool_decide_unpack _). vm_compute. exact I.
  - vm_compute. reflexivity.
  - vm_compute. reflexivity.
  - reflexivity.
Defined.

Definition cx_probes : list (option string * Z * Z) :=
  [(Some "refused", 1, 1); (Some "refused", 2, 2); (None, 3, 3); (Some "timeout", 4, 4); (None, 5, 5)].

Lemma degradation_episodes_example :
  let '(c1, t1) := check_all cx_probes cx_ctl [] in
  downs_of t1 = episodes false cx_probes ∧
  dc_up c1 = match last cx_probes with Some (p, _, _) => bool_decide (p = None) | None => false end.
Proof.
  apply (degradation_episodes "cell-a" cx_salt true true true true (ms 1900000)). vm_compute. reflexivity.
Defined.

(** ** The supervision *)

Definition demo_log : LogClient := {| EntryBundleWidth := 256; HashLeaf e := Sum256 (Byte.x00 :: e) |}.
#[local] Existing Instance demo_log.

Definition cx_anchor_leaf : Leaf := mkLeaf KindAnchor "cell-a" (replicate 32 Byte.x03) (ms 3000000).
Definition cx_entry : bytes := match Marshal cx_anchor_leaf with inr b => b | inl _ => [] end.
(** A log of one entry, and a log that does not move. *)
Definition cx_read1 : log_read := mkLogRead (UpdateTo 1) (Some [HashLeaf cx_entry]) (λ _, Some [cx_entry]).
Definition cx_still (size : Z) : log_read := mkLogRead (UpdateTo size) None (λ _, None).
Definition cx_watch0 : ChainWatcher := mkWatcher "master" 0 None.

Lemma tick_verifies_example :
  let ls := [cx_anchor_leaf] in let w' := mkWatcher "master" 1 None in
  (w' = cx_watch0 ∧ ls = []) ∨
  (wt_size cx_watch0 < wt_size w' ∧ lr_update cx_read1 = UpdateTo (wt_size w') ∧
   Z.of_nat (length ls) = wt_size w' - wt_size cx_watch0 ∧
   ∃ hashes raw, lr_hashes cx_read1 = Some hashes ∧
     read_bundles (lr_bundles cx_read1) (wt_size cx_watch0 / EntryBundleWidth)
       (Z.to_nat ((wt_size w' - 1) / EntryBundleWidth - wt_size cx_watch0 / EntryBundleWidth + 1)) = Some raw ∧
     ∀ j leaf, ls !! j = Some leaf →
       ∃ entry, raw !! (Z.to_nat (wt_size cx_watch0 mod EntryBundleWidth) + j)%nat = Some entry ∧
         hashes !! j = Some (HashLeaf entry) ∧ UnmarshalLeaf entry = inr leaf).
Proof. apply (tick_verifies cx_read1 cx_watch0); [reflexivity|vm_compute; reflexivity]. Defined.

Definition cx_monitor : Monitor :=
  match NewMonitor "monitor" true true true
          [mkCellSpec "cell-a" true (inr ([], mkWatcher "cell-a" 5 None))] true
          (inr ([cx_anchor_leaf], mkWatcher "master" 1 None)) 0 0 0 true [ms 3000000] with
  | Some m => m
  | None => mkMonitor "" false false 0 false 0 0 [] cx_watch0 ∅ ∅ [] ∅
  end.

Definition cx_alert (now : Z) : alert_in := mkAlertIn now (Some (replicate 16 Byte.x04)) (sb "detail").
(** A pass at [now] in which no chain moves. *)
Definition cx_cell (now : Z) : cell_in :=
  mkCellIn (cx_still 5) (cx_alert now) now (cx_alert now) true (cx_alert now) now None (cx_alert now).
Definition cx_pass (now : Z) : pass_in := mkPassIn (cx_still 1) (cx_alert now) (λ _, cx_cell now).

Lemma tick_still size w : wt_fault w = None → wt_size w = size → cw_Tick (cx_still size) w = (inr [], w).
Proof. intros Hf <-. unfold cw_Tick, tick. rewrite Hf. simpl. by rewrite Z.ltb_irrefl, Z.eqb_refl. Qed.

Lemma still_size size w : wt_size w = size → wt_size (cw_Tick (cx_still size) w).2 = size.
Proof.
  intros Hw. destruct (wt_fault w) as [f|] eqn:E; [by rewrite (Tick_locked _ _ f)|]. by rewrite tick_still.
Qed.

Lemma still_leaves size w leaves w' : cw_Tick (cx_still size) w = (inr leaves, w') → leaves = [].
Proof.
  unfold cw_Tick, tick. destruct (wt_fault w); [done|]. simpl. destruct (_ <? _); [done|].
  destruct (_ =? _); [by intros [= <- <-]|]. done.
Qed.

Definition cx_p1 := CheckOnce (cx_pass (ms 3241000)) cx_monitor [].
Definition cx_p2 := CheckOnce (cx_pass (ms 3300000)) cx_p1.1.2 cx_p1.2.
Definition cx_alerts : list Alert := cx_p1.1.1.2 ++ cx_p2.1.1.2 ++ [].

Lemma pass_ok (r : bool * list Alert * Monitor * trace) : r.1.1.1 = true → r = (true, r.1.1.2, r.1.2, r.2).
Proof. destruct r as [[[b al] m] t]. simpl. by intros ->. Qed.

Lemma cx_passes : passes_any cx_monitor [] [cx_pass (ms 3241000); cx_pass (ms 3300000)] [true; true] cx_alerts cx_p2.1.2 cx_p2.2.
Proof.
  unfold cx_alerts. apply (passes_any_cons _ _ _ _ _ _ _ _ cx_p1.1.2 cx_p1.2); [apply pass_ok; vm_compute; reflexivity|].
  apply (passes_any_cons _ _ _ _ _ _ _ _ cx_p2.1.2 cx_p2.2); [apply pass_ok; vm_compute; reflexivity|]. apply passes_any_nil.
Qed.

Lemma cx_lifeless now : mo_fallDelay cx_monitor < Sub now (ms 3000000) → lifeless cx_monitor 5 "cell-a" (cx_pass now).
Proof.
  intros Hn. split_and!.
  - intros w Hw. by apply still_size.
  - intros w leaves w' E. by rewrite (still_leaves _ _ _ _ E).
  - exact Hn.
Qed.

(** The fall is acted on once: one failover in the first pass, nothing more in the second. *)
Lemma dead_cell_handled_once_example :
  let due := if decide (Exists (overdue (mo_fallDelay cx_monitor) (ms 3000000) "cell-a")
      [cx_pass (ms 3241000); cx_pass (ms 3300000)]) then 1%nat else 0%nat in
  (acts "cell-a" cx_alerts ≤ due)%nat ∧ (calls "cell-a" cx_p2.2 ≤ calls "cell-a" [] + due)%nat ∧
  (Forall (eq true) [true; true] → acts "cell-a" cx_alerts = due).
Proof.
  apply (dead_cell_handled_once cx_monitor [] _ _ cx_alerts cx_p2.1.2 cx_p2.2 "cell-a"
    (mkFall 5 (ms 3000000) false) (mkWatcher "cell-a" 5 None)).
  - apply (NewMonitor_ok "monitor" true true true
      [mkCellSpec "cell-a" true (inr ([], mkWatcher "cell-a" 5 None))] true
      (inr ([cx_anchor_leaf], mkWatcher "master" 1 None)) 0 0 0 true [ms 3000000]). vm_compute. reflexivity.
  - vm_compute. left.
  - vm_compute. reflexivity.
  - vm_compute. reflexivity.
  - reflexivity.
  - reflexivity.
  - repeat (apply Forall_cons; split; [apply cx_lifeless; vm_compute; reflexivity|]). apply Forall_nil_2.
  - exact cx_passes.
Defined.

(** A monitor without a failover, and a first pass after the delay whose alert on the fall gets no salt: it ends on a fault, and
    the next one, in which everything can be written again, says nothing of the fall. *)
Definition cx_monitor_plain : Monitor :=
  match NewMonitor "monitor" true true true
          [mkCellSpec "cell-a" true (inr ([], mkWatcher "cell-a" 5 None))] true
          (inr ([cx_anchor_leaf], mkWatcher "master" 1 None)) 0 0 0 false [ms 3000000] with
  | Some m => m
  | None => cx_monitor
  end.
Definition cx_pass_unsalted (now : Z) : pass_in :=
  mkPassIn (cx_still 1) (cx_alert now) (λ _, mkCellIn (cx_still 5) (cx_alert now) now (cx_alert now) true (cx_alert now) now None
    (mkAlertIn now None (sb "detail"))).

Example unwritten_fall_stays_silent :
  let '(ok1, al1, m1, t1) := CheckOnce (cx_pass_unsalted (ms 3241000)) cx_monitor_plain [] in
  let '(ok2, al2, m2, t2) := CheckOnce (cx_pass (ms 3300000)) m1 t1 in
  (ok1, acts "cell-a" al1, ok2, acts "cell-a" al2) = (false, 0%nat, true, 0%nat).
Proof. vm_compute. reflexivity. Qed.

Definition cx_c1 := check_cell cx_monitor (cx_cell (ms 3241000)) "cell-a" [].

Lemma warned_before_failover_example :
  ∃ d1 d2 ok a, cx_c1.2 = [] ++ d1 ++ EvTrigger "cell-a" (ms 3241000) ok :: d2 ∧
    al_Event (a_Record a) = AlertEventAnchorStale ∧ al_CellID (a_Record a) = "cell-a" ∧
    al_Verdict (a_Record a) = AlertVerdictAlarm ∧ alert_leaf cx_monitor (ms 3241000) a ∈ leaves_of d1.
Proof.
  apply (warned_before_failover cx_monitor (cx_cell (ms 3241000)) "cell-a" [] cx_c1.1.1.1 cx_c1.1.1.2 cx_c1.1.2 cx_c1.2).
  - vm_compute. reflexivity.
  - vm_compute. discriminate.
  - unfold cx_c1. by destruct (check_cell _ _ _ _) as [[[? ?] ?] ?].
  - vm_compute. discriminate.
Defined.

Lemma failovers_bounded_example :
  Z.of_nat (length (filter (λ x, ms 3300000 - hour < x ≤ ms 3300000) (triggers_of cx_p2.2))) ≤ mo_maxTriggers cx_monitor.
Proof.
  apply (failovers_bounded "monitor" true true true
    [mkCellSpec "cell-a" true (inr ([], mkWatcher "cell-a" 5 None))] true
    (inr ([cx_anchor_leaf], mkWatcher "master" 1 None)) 0 0 0 true [ms 3000000] cx_monitor [] (ms 3300000) cx_p2.1.2).
  - vm_compute. reflexivity.
  - reflexivity.
  - apply (monitored_pass _ _ (ms 3241000) _ cx_p1.1.2 cx_p1.2 (cx_pass (ms 3300000)) true cx_p2.1.1.2);
      [|apply pass_ok; vm_compute; reflexivity|].
    + apply (monitored_pass _ _ 0 _ cx_monitor [] (cx_pass (ms 3241000)) true cx_p1.1.1.2);
        [apply monitored_start|apply pass_ok; vm_compute; reflexivity|].
      assert (fall_reading (cx_pass (ms 3241000)) <$> mo_cells cx_monitor = [ms 3241000]) as -> by (vm_compute; reflexivity).
      repeat constructor; vm_compute; discriminate.
    + assert (fall_reading (cx_pass (ms 3300000)) <$> mo_cells cx_p1.1.2 = [ms 3300000]) as -> by (vm_compute; reflexivity).
      repeat constructor; vm_compute; discriminate.
Defined.

Example cx_failover : (acts "cell-a" cx_alerts, triggers_of cx_p2.2) = (1%nat, [ms 3241000]).
Proof. vm_compute. reflexivity. Qed.
