(* ===== verification/BrokerExamples.v ===== *)
(** The theorems on the broker at concrete inputs: a cell that holds an epoch, an agent of class W
    with a plan, a quorum proof and a passport; the passports of concurrent requests; the bytes of an
    intention and the readers of it. *)
From S2P Require Import Prelude.
From S2P Require Import Hex.
From S2P Require Import Json.
From S2P Require Import Sha256.
From S2P Require Import Leaf.
From S2P Require Import Effects.
From S2P Require Import Token.
From S2P Require Import Issuer.
From S2P Require Import DemoCose.
From S2P Require Import OPAClient.
From S2P Require Import PlanContract.
From S2P Require Import Controllers.
From S2P Require Import Epoch.
From S2P Require Import ProofStore.
From S2P Require Import ClassW.
From S2P Require Import Envelope.
From S2P Require Import Registries.
From S2P Require Import StrictJson.
From S2P Require Import Translation.
From S2P Require Import Intent.
From S2P Require Import Broker.
From S2P Require Import BrokerChain.
From S2P Require Import Examples.
From S2P Require Import ClusterExamples.

Local Open Scope Z_scope.

#[local] Existing Instance demo_crypto.
#[local] Existing Instance demo_crypto_laws.
#[local] Existing Instance demo_env.
#[local] Existing Instance demo_order.
#[local] Existing Instance demo_cose.
#[local] Existing Instance demo_time.
#[local] Instance bx_signer : CoseSign := demo_signer demo_pub.

(** ** The cell *)

Definition bx_tracker : Tracker :=
  cx_accept demo_t0 (cx_token 7 "cell-a" "1700000000000" 100 "manual") (cx_tracker "cell-a").

Definition bx_proof : ClassWProof :=
  let st := mkQuorumStatement "read" "db" (hex (replicate 32 Byte.x01)) 7 "1700000060000" in
  mkClassWProof st "2-of-3" (cx_sigs (canonicalStatement st)).

Definition bx_intent : structuredIntent :=
  mkStructuredIntent "read" "db" None "" "00" (hex (demo_binding (sb "q=1"))) (Some (mkQuota "db" "read" 40 10)).
Definition bx_decode (_ : string) : Detail + structuredIntent := inr bx_intent.
#[local] Instance bx_decode_utf8 : Utf8Intents bx_decode.
Proof.
  intros intent s [= <-]. repeat (apply Forall_cons; split; [apply utf8_ascii; vm_compute; reflexivity|]). apply Forall_nil_2.
Qed.

Definition bx_translator : Translator unit unit := structured_translator bx_decode.

Definition bx_agents : StaticAgentRegistry := {[ "agent" := mkAgentRecord ClassW (Some (mkAgentQuotaPolicy 100 60)) "" ]}.
Definition bx_skills : StaticSkillRegistry := {[ "read" := mkSkillRecord "core" ["db"] TierLow ]}.

Definition bx_evaluator : EnvelopeEvaluator := mkEnvelopeEvaluator EnvelopeEvalTimeout true.
(** The rule: at most 100 per entity and epoch. *)
Definition bx_rule (inp : EnvelopeInput) : opa_io := IoResult (Some (Some (ei_Issued inp <=? 100))).
Definition bx_ledger : EnvelopeLedger := mkEnvelopeLedger 2 ∅ true false.

Definition bx_broker : Broker StaticAgentRegistry StaticSkillRegistry :=
  mkBroker _ _ demo_producer demo_issuer bx_agents (Some bx_skills) true true (Some bx_evaluator) true.

Definition bx_world : World Tracker unit consumedProofs ContractStore :=
  mkWorld _ _ _ _ bx_tracker tt (demo_engine demo_producer) cx_store live_approved.1.2 bx_ledger
    (mkBrokerStats 0 0 0 0 0 0 0 0 0 0 0 0) live_approved.2.

Definition bx_reads (jti : bytes) : request_env unit (Z * Z * bool) Z :=
  mkRequestEnv _ _ _ (Some jti) demo_t0 tt (λ _, IoResult (Some (Some true))) demo_ctx demo_t0 demo_t0
    (demo_t0, demo_t0, true) demo_t0 bx_rule demo_ctx demo_t0 demo_t0.

Definition bx_handle (jti : bytes) (w : World Tracker unit consumedProofs ContractStore) :
    Result * World Tracker unit consumedProofs ContractStore :=
  @HandleAction _ _ _ _ _ _ _ _ _ _ bx_signer demo_crypto demo_env tracker_epochs bx_translator
    (classW_gate cx_gate (λ _, Some bx_proof)) (plan_gate (demo_contract false)) static_agents static_skills
    bx_broker (bx_reads jti) (λ _ w, w) "agent" "{}" "" w.

(** The request is granted; the same one again is refused, because the proof is spent. *)
Example bx_granted :
  let '(r, w) := bx_handle demo_jti bx_world in
  (rs_Allow r, rs_Reason r, Aggregate "agent" 7 (w_ledger w), bs_Allows (w_stats w), rs_Reason (bx_handle demo_jti2 w).1) =
  (true, "ok", 40, 1, "quorum-insufficient").
Proof. vm_compute. reflexivity. Qed.

Lemma issued_token_governed_example :
  ∃ wire tok agent tracker, rs_Token (bx_handle demo_jti bx_world).1 = Some wire ∧
    verifySignedToken demo_keyring wire = (Some tok, "") ∧
    t_Sub tok = "agent" ∧ t_JTI tok = demo_jti ∧
    resolve_agent (br_registry bx_broker) "agent" = Some agent ∧ ag_TransportIdentity agent = "" ∧
    t_Class tok = ag_Class agent ∧
    tracker = bx_tracker ∧ CurrentEpoch demo_t0 tracker = inr (t_Epoch tok) ∧
    (t_Class tok = ClassW → ∃ p expiry, proof_valid cx_gate demo_t0 p (t_Action tok) (t_Resource tok) (t_Epoch tok) expiry) ∧
    (t_Class tok ≠ ClassOut → planned (demo_contract false) (λ s, s = live_approved.1.2) (bx_reads demo_jti) tok).
Proof.
  pose (RT := demo_round_trip demo_pub eq_refl).
  apply (issued_token_governed bx_translator cx_gate (λ _, Some bx_proof) (demo_contract false) (λ t, t = bx_tracker)
    (λ s, s = live_approved.1.2) bx_broker (bx_reads demo_jti) (λ _ w, w) "agent" "{}" "" bx_world demo_keyring
    (bx_handle demo_jti bx_world).1 (bx_handle demo_jti bx_world).2 demo_jti).
  - split; intros k w; exact (λ x, x).
  - reflexivity.
  - reflexivity.
  - split_and!; [apply utf8_ascii; vm_compute; reflexivity|reflexivity|vm_compute; reflexivity| |vm_compute; discriminate]. split; vm_compute; lia.
  - apply utf8_ascii. vm_compute. reflexivity.
  - vm_compute. reflexivity.
  - reflexivity.
  - reflexivity.
  - vm_compute. discriminate.
  - vm_compute. reflexivity.
  - unfold bx_handle. apply surjective_pairing.
  - vm_compute. reflexivity.
Defined.

Lemma translation_hides_nothing_example :
  let tr := match Translate_structured (inr bx_intent) with inr tr => tr | inl _ => mkTranslation "" "" None None None [] [] end in
  (∃ s, inr bx_intent = (inr s : Detail + structuredIntent) ∧ tl_Action tr = si_Action s ∧ tl_Resource tr = si_Resource s ∧
     tl_Class tr = Class_of <$> si_Class s ∧ tl_Quota tr = si_Quota s) ∧
  (∀ x p q r, x ∈ tl_Action tr :: tl_Resource tr :: quota_texts (tl_Quota tr) →
     sb x = p ++ encode_rune r ++ q → smuggled r = false) ∧
  (∀ sl, tl_ObjectSeal tr = Some sl → length sl = 32%nat) ∧
  (length (tl_QuorumProof tr) ≤ maxQuorumProofBytes)%nat ∧ (length (tl_PlanBinding tr) ≤ maxPlanBindingBytes)%nat.
Proof. cbv zeta. apply (translation_hides_nothing (inr bx_intent)). vm_compute. reflexivity. Defined.

(** A tag character hidden in an action is refused, with no detail for the agent. *)
Example hidden_tag_refused :
  Translate_structured (inr (mkStructuredIntent (bs (sb "re" ++ encode_rune 0xe0061 ++ sb "ad")) "db" None "" "" "" None)) =
  inl (TranslateFailed None).
Proof. vm_compute. reflexivity. Qed.

(** ** Passports in flight *)

Definition bx_ask (subject : string) (epoch volume : Z) (l : EnvelopeLedger) := Reserve subject epoch volume l [].
Definition bx_l1 : EnvelopeLedger := (bx_ask "agent" 7 60 bx_ledger).1.2.
Definition bx_l2 : EnvelopeLedger := (bx_ask "agent" 7 60 bx_l1).1.2.
Definition bx_p1 : passport := mkPassport ("agent", 7) 60 60 false.
Definition bx_p2 : passport := mkPassport ("agent", 7) 60 120 false.

(** Two requests reserve 60 each before either is answered; the first is granted. *)
Lemma bx_run : passport_run bx_evaluator bx_rule 2 true 7 [bx_p2; grant bx_p1] bx_l2.
Proof.
  apply (pr_answer bx_evaluator bx_rule 2 true 7 [bx_p2] bx_p1 [] bx_l2 demo_ctx [] "db" "read"); [|done].
  apply (pr_reserve _ _ _ _ 7 [bx_p1] bx_l1 [] "agent" 7 60 (inr 120) bx_l2 []); [|lia|split; lia|vm_compute; reflexivity].
  apply (pr_reserve _ _ _ _ 0 [] bx_ledger [] "agent" 7 60 (inr 60) bx_l1 []); [|lia|split; lia|vm_compute; reflexivity].
  by apply pr_new.
Qed.

Lemma no_over_issue_example :
  volume_of ("agent", 7) (reservation <$> filter (λ p, pt_granted p = true) [bx_p2; grant bx_p1]) ≤ 100.
Proof.
  apply (no_over_issue bx_evaluator bx_rule 2 true (λ _ _, 100) 7 [bx_p2; grant bx_p1] bx_l2 "agent" 7).
  - intros inp. unfold bx_rule. intros [= E%Z.leb_le]. exact E.
  - lia.
  - exact bx_run.
Defined.

Lemma envelope_counts_outstanding_example :
  let '(r, l', t') := Reserve "agent" 7 60 bx_l1 [] in
  let out := volume_of ("agent", 7) (current 7 [(("agent", 7), 60)]) + 60 in
  el_Len l' ≤ 2 ∧
  match r with
  | inr total => total = out ∧ in_u64 total ∧ Aggregate "agent" 7 l' = total
  | inl ErrEnvelopeOverflow => 2^64 ≤ out
  | inl ErrEnvelopeSaturated =>
      Aggregate "agent" 7 l' = 0 ∧ el_Len l' = 2 ∧ el_tripped l' = true ∧
      alarms_of t' = alarms_of [] ++ (if true && negb (el_tripped bx_l1) then [TripReasonEnvelopeSaturated] else [])
  end.
Proof.
  apply (envelope_counts_outstanding 2 true 7 [(("agent", 7), 60)] bx_l1 [] "agent" 7 60); [|lia|split; lia].
  apply (env_reserve 2 true 0 [] bx_ledger [] "agent" 7 60 (inr 60) bx_l1 []); [by apply env_new|lia|split; lia|].
  vm_compute. reflexivity.
Defined.

(** Why the epochs must not go back: a request that read its epoch before a switch and reserves
    after it finds its aggregate forgotten, and is counted alone. *)
Theorem late_request_recounted :
  let '(r1, l1, _) := Reserve "agent" 7 60 bx_ledger [] in
  let '(_, l2, _) := Reserve "other" 8 1 l1 [] in
  let '(r3, _, _) := Reserve "agent" 7 60 l2 [] in
  r1 = inr 60 ∧ r3 = inr 60.
Proof. vm_compute. split; reflexivity. Qed.

(** ** The strict decoder *)

(** A last pass that checks what the laws say. *)
Definition bx_unmarshal (t : gtype) (v : jdoc) : option unmarshal_error :=
  if transparent t && negb (numbers_fit v && fits v t) then Some (WrongType "") else None.

#[local] Instance bx_unmarshal_laws : UnmarshalLaws bx_unmarshal.
Proof.
  split; intros t v HT; unfold bx_unmarshal; rewrite HT; simpl; destruct (numbers_fit v), (fits v t); done.
Defined.

(** The document of an intention, its bytes being read by a parameter. *)
Definition bx_doc : jdoc := JObj [("action", JStr "read"); ("resource", JStr "db");
  ("quota", JObj [("resource", JStr "db"); ("operation", JStr "read"); ("volume_max", JNum 60 0); ("window_s", JNum 10 0)])].
Definition bx_read (_ : bytes) : reading := Document bx_doc None.

(** A reader that ignores the case of ASCII letters. *)
Definition lower_byte (b : byte) : byte := if (65 <=? b2z b) && (b2z b <=? 90) then z2b (b2z b + 32) else b.
Definition lower (s : string) : string := bs (lower_byte <$> sb s).

(** The structures of an intention. *)
Lemma intent_reaches t u : reaches t u →
  t ∈ [structuredIntent_type; GPtr quota_type; quota_type; GScalar KString; GScalar KNumber; GPtr (GScalar KNumber)] →
  u ∈ [structuredIntent_type; quota_type; GScalar KString; GScalar KNumber].
Proof.
  induction 1 as [t|t fs k ft u Hd Hk _ IH|t e u Hd _ IH]; intros Ht.
  - repeat (apply elem_of_cons in Ht as [->|Ht]; [set_solver|]). by apply elem_of_nil in Ht.
  - apply IH. clear IH. apply elem_of_map_to_list in Hk.
    repeat (apply elem_of_cons in Ht as [->|Ht]; [simpl in Hd; try discriminate Hd; injection Hd as <-; vm_compute in Hk;
      repeat (apply elem_of_cons in Hk as [Hk|Hk]; [injection Hk as _ ->; set_solver|]); by apply elem_of_nil in Hk|]).
    by apply elem_of_nil in Ht.
  - repeat (apply elem_of_cons in Ht as [->|Ht]; [by destruct Hd|]). by apply elem_of_nil in Ht.
Qed.

Lemma NoDup_image_inj {A B} (f : A → B) l x y : NoDup (f <$> l) → x ∈ l → y ∈ l → f x = f y → x = y.
Proof.
  intros HN [i Hi]%list_elem_of_lookup [j Hj]%list_elem_of_lookup E.
  assert (i = j) as ->; [|by simplify_eq].
  apply (NoDup_lookup _ i j (f x) HN); rewrite list_lookup_fmap, ?Hi, ?Hj; simpl; by rewrite ?E.
Qed.

Lemma intent_separated_by fold :
  NoDup (fold <$> elements (dom (fieldTypes structuredIntent_type))) → NoDup (fold <$> elements (dom (fieldTypes quota_type))) →
  separated fold structuredIntent_type.
Proof.
  intros H1 H2 fs k1 k2 HR%intent_reaches Hk1 Hk2 E; [|by left]. apply elem_of_elements in Hk1, Hk2.
  apply elem_of_cons in HR as [HR|HR]; [rewrite HR in Hk1, Hk2; first [exact (NoDup_image_inj fold _ _ _ H1 Hk1 Hk2 E)|exact (NoDup_image_inj fold _ _ _ H2 Hk1 Hk2 E)]|].
  apply elem_of_cons in HR as [HR|HR]; [rewrite HR in Hk1, Hk2; first [exact (NoDup_image_inj fold _ _ _ H1 Hk1 Hk2 E)|exact (NoDup_image_inj fold _ _ _ H2 Hk1 Hk2 E)]|]. repeat (apply elem_of_cons in HR as [HR|HR]; [discriminate HR|]). by apply elem_of_nil in HR.
Qed.

Lemma intent_separated : separated lower structuredIntent_type.
Proof. apply intent_separated_by; apply (bool_decide_eq_true_1 _); vm_compute; reflexivity. Qed.

Lemma duplicateKey_searches_example : duplicateKey (tokens bx_doc) = first_dup bx_doc ∧ (duplicateKey (tokens bx_doc) = None ↔ unique bx_doc).
Proof. apply (duplicateKey_searches bx_doc). vm_compute. reflexivity. Defined.

Lemma strict_accepts_exactly_example :
  Decode bx_unmarshal [] (Document bx_doc None) structuredIntent_type = inr bx_doc ↔
  utf8_Valid [] = true ∧ Document bx_doc None = Document bx_doc None ∧ unique bx_doc ∧ exact bx_doc structuredIntent_type ∧
  bx_unmarshal structuredIntent_type bx_doc = None.
Proof. apply (strict_accepts_exactly bx_unmarshal [] (Document bx_doc None) structuredIntent_type bx_doc). reflexivity. Defined.

Lemma intention_read_alike_example : ∃ v, bx_read (sb "") = Document v None ∧
  (∀ x, reads lower structuredIntent_type v [Field "action"] x ↔ x = JStr "read") ∧
  (∀ x, reads lower structuredIntent_type v [Field "resource"] x ↔ x = JStr "db").
Proof.
  apply (intention_read_alike bx_unmarshal bx_read "" (mkTranslation "read" "db" None None (Some (mkQuota "db" "read" 60 10)) [] []) lower).
  - vm_compute. reflexivity.
  - exact intent_separated.
Defined.

(** The decoder refuses a repeated key and one of another case. *)
Example repeated_key_refused :
  Decode bx_unmarshal [] (Document (JObj [("action", JStr "read"); ("resource", JStr "db"); ("action", JStr "drop")]) None)
    structuredIntent_type = inl (fail CodeDuplicateKey "action" "" []).
Proof. vm_compute. reflexivity. Qed.
Example miscased_key_refused :
  Decode bx_unmarshal [] (Document (JObj [("action", JStr "read"); ("quota", JObj [("Volume_max", JNum 1 0)])]) None)
    structuredIntent_type =
  inl (fail CodeUnknownField "Volume_max" "quota" ["operation"; "resource"; "volume_max"; "window_s"]).
Proof. vm_compute. reflexivity. Qed.

(** Why the types must be transparent. In a type with a field that keeps its bytes, a number that
    fits no [float64] stops the search for repeated keys: both passes of the package accept a
    document in which a later object repeats a key. *)
Definition opaque_type : gtype := GStruct [
  tagged "Raw" "raw" (GSelf (GSlice (GScalar KNumber))); tagged "Action" "action" (GScalar KString)].
Definition opaque_doc : jdoc := JObj [("raw", JNum 1 999); ("action", JStr "read"); ("action", JStr "drop")].

Theorem number_hides_repeated_key :
  duplicateKey (tokens opaque_doc) = None ∧ walk opaque_doc opaque_type "" = None ∧ first_dup opaque_doc = Some "action".
Proof. vm_compute. done. Qed.
