(* ===== verification/TelemetryExamples.v ===== *)
(** The theorems on telemetry at concrete inputs: a pipeline of the demonstration cell, its windows, its
    detector and its exporter; and the behaviours in which the code falls short of its comments. *)
From S2P Require Import Prelude.
From S2P Require Import Sha256.
From S2P Require Import Leaf.
From S2P Require Import Effects.
From S2P Require Import Token.
From S2P Require Import DemoCose.
From S2P Require Import Quota.
From S2P Require Import Telemetry.
From S2P Require Import Retention.
From S2P Require Import Aggregator.
From S2P Require Import AntiDribble.
From S2P Require Import Exporter.
From S2P Require Import Pipeline.
From S2P Require Import Examples.

Local Open Scope Z_scope.

#[local] Existing Instance demo_crypto.
#[local] Existing Instance demo_crypto_laws.
#[local] Existing Instance demo_env.
#[local] Existing Instance demo_order.
#[local] Existing Instance demo_sort.

Definition tx_options : PipelineOptions :=
  mkPipelineOptions "cell-a" demo_salt true true true 0 0 "" 0 0 (mkScoreParams 0 0 0 0 0 0 0 0 0 0 0) true true.
Definition tx_pipeline : telemetry_error + Pipeline := NewPipeline tx_options.

(** A record of [n] octets to [dst], [ms] milliseconds after the epoch. *)
Definition tx_record (dst : string) (n ms : Z) : FlowRecord :=
  mkFlowRecord demo_jti "cell-a" dst "read" (replicate 4 Byte.x00) false 0 n (ms - 10) ms.

(** ** The aggregator and the store *)

Definition tx_aggregator : Aggregator :=
  mkAggregator demo_producer defaultWindow defaultTopK true true (-1) [] (mkAggregatorStats 0 0 0 0 0 0).
Definition tx_store : RetentionStore := mkRetentionStore demo_producer defaultRetentionTTL defaultMaxBatches true ∅ (mkRetentionStats 0 0 0).

Definition tx_clk (_ : Z) : seal_clock := mkSealClock demo_t0 demo_t0.
Definition tx_fed := ag_Feed tx_clk demo_t0 demo_t0 (tx_record "db" 40 5) tx_aggregator tx_store [].
Definition tx_ticked := ag_Tick tx_clk (demo_t0 + 2 * minute) tx_fed.1.1.2 tx_fed.1.2 tx_fed.2.

(** Two minutes after its record, the first window and an empty one are sealed. *)
Lemma tx_ticked_two : length (leaves_of tx_ticked.2) = 2%nat ∧ ag_curID tx_ticked.1.1.2 = ag_curID tx_fed.1.1.2 + 2 ∧
  size (rt_batches tx_ticked.1.2) = 1%nat.
Proof. vm_compute. done. Qed.

Definition tx_marks : list (byte * bytes) := leaf_mark <$> leaves_of tx_ticked.2.

Lemma tx_run_feed : agg_run tx_aggregator ([] ++ []) ([] ++ [tx_record "db" 40 5]) tx_fed.1.1.2.
Proof.
  apply (run_feed tx_aggregator [] [] tx_aggregator tx_clk demo_t0 demo_t0 (tx_record "db" 40 5) tx_store []
    None tx_fed.1.1.2 tx_fed.1.2 tx_fed.2 []); [constructor|vm_compute; done..|vm_compute; reflexivity|exists []; vm_compute; done].
Qed.

Lemma tx_run : agg_run tx_aggregator (([] ++ []) ++ tx_marks) ([] ++ [tx_record "db" 40 5]) tx_ticked.1.1.2.
Proof.
  apply (run_tick tx_aggregator ([] ++ []) ([] ++ [tx_record "db" 40 5]) tx_fed.1.1.2 tx_clk (demo_t0 + 2 * minute) tx_fed.1.2 tx_fed.2
    None tx_ticked.1.1.2 tx_ticked.1.2 tx_ticked.2 tx_marks);
    [apply tx_run_feed|vm_compute; done|vm_compute; done|vm_compute; reflexivity|].
  exists (leaves_of tx_ticked.2). split; [vm_compute; reflexivity|reflexivity].
Qed.

Lemma windows_partition_records_example :
  ∃ first ws, ([] ++ []) ++ tx_marks = window_mark tx_aggregator <$> ws ∧ ws.*1 = seqZ first (Z.of_nat (length ws)) ∧
    concat ws.*2 ++ ag_curRec tx_ticked.1.1.2 = [] ++ [tx_record "db" 40 5] ∧
    (ag_curID tx_ticked.1.1.2 = first + Z.of_nat (length ws) ∨
     (ag_curID tx_ticked.1.1.2 = -1 ∧ ws = [] ∧ [] ++ [tx_record "db" 40 5] = [])).
Proof.
  apply (windows_partition_records tx_aggregator (([] ++ []) ++ tx_marks) ([] ++ [tx_record "db" 40 5]) tx_ticked.1.1.2); [|apply tx_run].
  vm_compute. done.
Defined.

Lemma tick_seals_elapsed_windows_example :
  sane_time (demo_t0 + 2 * minute) ∧
  let '(r, a', s', t') := ag_Tick tx_clk (demo_t0 + 2 * minute) tx_fed.1.1.2 tx_fed.1.2 tx_fed.2 in
  ∃ ws, seals tx_fed.1.1.2 tx_fed.2 ws a' t' ∧ (ag_curID tx_fed.1.1.2 = -1 → ws = []) ∧
    match r with
    | None => ag_curID a' = if ag_curID tx_fed.1.1.2 =? -1 then -1 else Z.max (ag_curID tx_fed.1.1.2) (windowID (demo_t0 + 2 * minute) tx_fed.1.1.2)
    | Some e => ag_curID a' < windowID (demo_t0 + 2 * minute) tx_fed.1.1.2 ∧ ∃ t0 ts, appendLeaf (ag_producer a') KindTelemetry
        (aggregateBytes (window_aggregate (ag_curID a') (ag_curRec a') a')) ts t0 = (Some e, t')
    end.
Proof.
  split; [vm_compute; done|]. apply (tick_seals_elapsed_windows tx_clk (demo_t0 + 2 * minute) tx_fed.1.1.2 tx_fed.1.2 tx_fed.2);
    vm_compute; done.
Defined.

(** The store after the tick verifies the window against its leaf. *)
Definition tx_audited : RetentionStore := tx_ticked.1.2.
Definition tx_batch : RawBatch :=
  sealed_batch (rt_producer tx_audited) 10 28333333 (28333333 * 60000) (28333334 * 60000) (UnixMilli demo_t0) [tx_record "db" 40 5].

Lemma tx_records_wf : Forall record_wf [tx_record "db" 40 5].
Proof. apply Forall_singleton. vm_compute. intuition (done || lia). Qed.

Lemma audit_exact_example : Verify 28333333 (rb_LeafHash tx_batch) tx_audited = inr true.
Proof.
  destruct (audit_exact demo_order demo_order demo_sort demo_sort tx_audited 10 28333333 (28333333 * 60000) (28333334 * 60000)
    (UnixMilli demo_t0) [tx_record "db" 40 5]) as [HA _].
  - lia.
  - discriminate.
  - vm_compute. lia.
  - vm_compute. done.
  - vm_compute. done.
  - vm_compute. done.
  - vm_compute. done.
  - apply tx_records_wf.
  - apply HA. vm_compute. reflexivity.
Defined.

(** ** The detector *)

Definition tx_det_of (r : telemetry_error + Detector) : Detector :=
  match r with
  | inr d => d
  | inl _ => mkDetector demo_producer DefaultScoreParams [] 0 0 false false 0 ∅ (mkDetectorStats 0 0 0 0 0 0 0)
  end.
Definition tx_detector : Detector := tx_det_of (NewDetector "cell-a" demo_salt true true DefaultScoreParams 0 0 true true).
Definition tx_ck (_ : bytes) : Z * Z := (demo_t0, demo_t0).
(** A record of [n] octets in minute [m]. *)
Definition tx_at (dst : string) (n m : Z) : det_op := OpFeed tx_ck (tx_record dst n (m * 60000 + 1)).

(** One gibibyte in each of two minutes to one destination. *)
Definition tx_ops : list det_op := [tx_at "db" (2^30) 1; tx_at "db" (2^30) 61].
Definition tx_key : bytes := hashDestination demo_salt "db".
Definition tx_after : Detector * trace := det_run tx_ops (tx_detector, []).
Definition tx_profile : entityProfile := default newEntityProfile (dt_entities tx_after.1 !! tx_key).
Definition tx_log : list (Z * Z) := [(61, 2^30); (1, 2^30)].

Lemma tx_tracked : dt_entities tx_after.1 !! tx_key = Some tx_profile ∧ mt_logs (meter_run tx_detector tx_ops) !! tx_key = Some tx_log.
Proof. vm_compute. done. Qed.

Lemma detector_measures_exactly_example :
  sum64 (fresh24 61 tx_profile) = u64 (vol (61 - 1439) 61 tx_log) ∧ fresh7 61 tx_profile = u64 (vol (61 / 60 - 167) (61 / 60) (by_hour tx_log)).
Proof.
  destruct (detector_measures_exactly "cell-a" demo_salt true true DefaultScoreParams 0 0 true true tx_detector tx_ops []) as (_ & _ & HM).
  - vm_compute. reflexivity.
  - apply (HM tx_key tx_profile tx_log 61 (proj1 tx_tracked) (proj2 tx_tracked)). vm_compute. done.
Defined.

Lemma heavy_destination_alerted_example :
  let x := det_run tx_ops (tx_detector, []) in
  let t := dt_watermark x.1 in
  let '(e, _, tr') := Flush tx_ck x.1 x.2 in
  is_Some e ∨ alert_traced x.1 t tx_key (u64 (vol (t - 1439) t tx_log)) (u64 (vol (t / 60 - 167) (t / 60) (by_hour tx_log))) tr'.
Proof.
  refine (heavy_destination_alerted "cell-a" demo_salt true true DefaultScoreParams 0 0 true true tx_detector tx_ops [] tx_ck tx_key
    tx_profile tx_log _ _ _ (proj1 tx_tracked) (proj2 tx_tracked) _ _ _).
  - vm_compute. reflexivity.
  - vm_compute. done.
  - vm_compute. done.
  - vm_compute. done.
  - left. vm_compute. done.
  - left. vm_compute. done.
Defined.

Definition alerts_in (t : trace) : nat := length (omap (λ e, match e with EvDribble _ _ _ _ _ _ => Some () | _ => None end) t).

(** The running sum can wrap to zero. A destination receives two gibibytes and is alerted; two days later, when
    nothing is left in its window, another record makes the detector resynchronise the sum, which forgets
    them and rearms the alert. The next burst of the same size that falls in the same slot of the ring takes
    the stale slot off the sum a second time: the sum is zero again, the destination is taken for
    dormant, and no flush evaluates it, with two gibibytes in its window. *)
Definition tx_wrap : list det_op :=
  [tx_at "db" (2^31) 1; tx_at "other" 1 2; tx_at "other" 1 3000; tx_at "db" (2^31) 4321; tx_at "other" 1 4322; OpFlush tx_ck].
Lemma burst_taken_for_dormant :
  let '(d, t) := det_run tx_wrap (tx_detector, []) in
  alerts_in t = 1%nat ∧ dt_watermark d = 4322 ∧ ep_alerted <$> dt_entities d !! tx_key = Some false ∧
  (λ p, sum64 (fresh24 4322 p)) <$> dt_entities d !! tx_key = Some (2^31) ∧ sp_ByteThreshold24h (dt_params d) < 2^31.
Proof. vm_compute. done. Qed.

(** A burst followed by more than a day of silence is evaluated once it has left the window of a day: the first
    threshold, which it is over, raises no alert. *)
Lemma burst_before_silence_not_alerted :
  let '(d, t) := det_run [tx_at "db" (2^31) 1; tx_at "db" 1 1500; OpFlush tx_ck] (tx_detector, []) in
  alerts_in t = 0%nat ∧ sp_ByteThreshold24h (dt_params d) < 2^31.
Proof. vm_compute. done. Qed.

(** ** The exporter *)

#[local] Instance tx_sink : RecordSink unit := {| reading := unit; sink_Feed _ _ s t := (None, s, t) |}.

Definition tx_exporter : Exporter :=
  mkExporter "cell-a" "" (10 * second) 0 true 0 ∅ 0 0 (mkExporterStats 0 0 0 0 0 0).
Definition tx_session (consumed : Z) (closed : bool) : Session := mkSession demo_jti "10.0.0.7" "read" consumed closed.
Definition tx_cycle (now : Z) (s : Session) : cycle unit := mkCycle (λ _, true) now (λ _, ()) [s].
Definition tx_cycles : list (cycle unit) :=
  [tx_cycle demo_t0 (tx_session 10 false); tx_cycle (demo_t0 + second) (tx_session 25 false); tx_cycle (demo_t0 + 2 * second) (tx_session 40 true)].

Lemma deltas_add_up_example : octets demo_jti (foldl run_cycle (tx_exporter, ([], ()), []) tx_cycles).1.2.1 = 0 + 40.
Proof.
  apply (deltas_add_up demo_jti tx_cycles 40 tx_exporter [] () []).
  - apply (steady_more _ 0 _ (tx_session 10 false)); [apply list_elem_of_singleton; reflexivity|reflexivity|vm_compute; done|reflexivity|].
    apply (steady_more _ 10 _ (tx_session 25 false)); [apply list_elem_of_singleton; reflexivity|reflexivity|vm_compute; done|reflexivity|].
    apply (steady_last _ 25 _ (tx_session 40 true)); [apply list_elem_of_singleton; reflexivity|reflexivity|vm_compute; done].
  - repeat (constructor; [split; [apply NoDup_singleton|vm_compute; lia]|]). constructor.
  - reflexivity.
Defined.

(** The destination of a literal address. *)
Lemma literal_addresses :
  parse_ipv4 "10.0.0.7" = Some [z2b 10; z2b 0; z2b 0; z2b 7] ∧ parse_ipv4 "10.0.0.07" = None ∧ parse_ipv4 "10.0.0.256" = None ∧
  parse_ipv4 "10..0.7" = None ∧ parse_ipv4 "10.0.7" = None ∧ parse_ipv4 "db" = None ∧ parse_ipv4 "10.0.0.7." = None.
Proof. vm_compute. done. Qed.

(** A session that stays in the snapshot after it is closed, as a cut passport does until it expires, is
    exported whole at every cycle: 40 octets consumed, 120 exported. *)
Lemma closed_session_exported_again :
  octets demo_jti (foldl run_cycle (tx_exporter, ([], ()), [])
    (tx_cycles ++ [tx_cycle (demo_t0 + 3 * second) (tx_session 40 true); tx_cycle (demo_t0 + 4 * second) (tx_session 40 true)])).1.2.1 = 120.
Proof. vm_compute. done. Qed.

(** Sixty-four records with resources and operations of 1024 bytes do not fit in one message: its 16-bit length
    is not its length. *)
Definition tx_long : string := bs (replicate 1024 Byte.x61).
Lemma full_message_overflows :
  let l := replicate maxRecordsPerMsg (mkFlowRecord demo_jti "cell-a" tx_long tx_long (replicate 4 Byte.x00) false 0 1 0 1) in
  let m := encodeMessage 0 0 0 l in
  Z.of_nat (length m) = 135056 ∧ be_val (take 2 (drop 2 m)) = 135056 - 2 * 65536.
Proof. vm_compute. done. Qed.

(** ** The pipeline *)

Definition tx_pipe : Pipeline :=
  match tx_pipeline with inr p => p | inl _ => mkPipeline tx_exporter tx_aggregator tx_detector tx_store 0 false end.
Definition tx_input : step_input :=
  mkStepInput demo_t0 demo_t0 (λ _, true) (λ _ _, ((tx_clk, demo_t0, demo_t0), tx_ck)) demo_t0 tx_clk demo_t0 (λ _, demo_t0).
(** The passport has consumed 300 octets. *)
Definition tx_ledger : QuotaLedger :=
  match ConsumeAt 0 demo_t0 demo_t0 300 demo_opened [] with Some (_, l, _) => l | None => demo_opened end.
Definition tx_stepped : Pipeline := (Step tx_input tx_ledger tx_pipe []).1.2.

Lemma pipeline_bounded_example :
  Z.of_nat (size (rt_batches (pl_Store tx_stepped))) ≤ defaultMaxBatches ∧
  Z.of_nat (size (dt_entities (pl_Detector tx_stepped))) ≤ defaultMaxEntities.
Proof.
  destruct (pipeline_bounded tx_options tx_pipe tx_stepped) as (HB & _ & HD & _).
  - vm_compute. reflexivity.
  - apply (pipe_step tx_pipe tx_pipe tx_input tx_ledger []). apply pipe_refl.
  - split; [exact HB|exact HD].
Defined.

(** The step exports what the passport of the ledger has consumed, to the aggregator and to the detector. *)
Lemma step_reaches_both : length (ag_curRec (pl_Aggregator tx_stepped)) = 1%nat ∧ size (dt_entities (pl_Detector tx_stepped)) = 1%nat.
Proof. vm_compute. done. Qed.
