(* ===== verification/RegistryExamples.v ===== *)
(** The theorems on the log of a cell at concrete interleavings: a caller that is overtaken by the engagement of the
    backpressure, a cut and its end; and two behaviours in which the asynchronous writer falls short of its comments. *)
From S2P Require Import Prelude.
From S2P Require Import Json.
From S2P Require Import Sha256.
From S2P Require Import Leaf.
From S2P Require Import Effects.
From S2P Require Import AsyncWriter.
From S2P Require Import Backpressure.
From S2P Require Import Examples.

Local Open Scope Z_scope.

#[local] Existing Instance demo_crypto.
#[local] Existing Instance demo_env.
#[local] Instance demo_fmt : GoFmt := {| fmt_q s := [quote] ++ sb s ++ [quote]; fmt_date := json_int |}.

Definition rx_monitor : DiskMonitor := mkDiskMonitor true "cell-a" 1000 800 0 second true true true demo_salt true.
Definition rx_writer : AsyncWriter :=
  mkAsyncWriter "cell-a" demo_salt true true second 2 true true [] 0 false 0 0 0 false false 0 0 0.

(** The writer is one that the constructor makes. *)
Lemma rx_writer_new : NewAsyncWriter true (100 * millisecond) "cell-a" demo_salt true true 0 2 true true = Some rx_writer.
Proof. reflexivity. Qed.

Lemma rx_writer_wf : aw_wf rx_writer.
Proof. vm_compute. split_and!; (done || lia). Qed.

Definition rx_leaf (n : Z) : Leaf := mkLeaf KindDecision "cell-a" (replicate 32 Byte.x05) n.

(** An asynchronous leaf is accepted; a synchronous caller is in flight when the monitor engages; the monitor drains both. *)
Definition rx_engage : list action :=
  [ACall 1 true (rx_leaf 1) 0; ACaller 1 true 0; ACaller 1 true 0; ACall 0 false (rx_leaf 2) 0; ACaller 0 true 0;
   AMonitor (Some 900) (Some 10000) demo_t0 true 0; AMonitor None None 0 true 0;
   ACaller 0 true 0; ACaller 0 true 0; AMonitor None None 0 true 0;
   APublish 1; ATracker true 0 0 0; ATracker true 0 0 0; ATracker true 0 0 0; AMonitor None None 0 true 0; AMonitor None None 0 true 0].
Definition rx_start : log_sys := opened [] rx_writer.
Definition rx_before : log_sys := default rx_start (act_run rx_monitor rx_engage rx_start).
Definition rx_stopped : log_sys := default rx_start (act_step rx_monitor (AMonitor None None 0 true 0) rx_before).
(** Others try to write afterwards. *)
Definition rx_after : list action :=
  [ACall 2 false (rx_leaf 3) 0; ACall 3 true (rx_leaf 4) 0; APublish 2; AMonitor None None 0 true 0; AMonitor None None 0 true 0].
Definition rx_end : log_sys := default rx_start (act_run rx_monitor rx_after rx_stopped).
Definition rx_alarm : DiskAlarm := mkDiskAlarm "registry-disk-80%" "cell-a" 900 1000 10000 demo_t0.
Definition rx_stop_leaf : Leaf := mkLeaf KindBackpressure "cell-a" (HashPayload demo_salt (stop_payload rx_alarm)) (UnixNano demo_t0).

Lemma stop_leaf_is_last_example :
  Kind rx_stop_leaf = KindBackpressure ∧
  lg_added rx_end = lg_added rx_before ++ match encodeLeaf 0 rx_stop_leaf with inl _ => [] | inr d => [d] end.
Proof.
  apply (stop_leaf_is_last rx_monitor eq_refl [] rx_writer rx_engage rx_before rx_alarm rx_stop_leaf None None 0 true 0 rx_stopped rx_after rx_end).
  - apply rx_writer_wf.
  - reflexivity.
  - vm_compute. reflexivity.
  - vm_compute. reflexivity.
  - vm_compute. reflexivity.
  - vm_compute. reflexivity.
  - repeat (constructor; [discriminate|]). constructor.
  - vm_compute. reflexivity.
Defined.

(** The leaf of stop follows the leaf that was accepted, and both callbacks fired. *)
Lemma rx_end_leaves : length (lg_added rx_end) = 2%nat ∧ lg_calls rx_end = [CallTrip rx_alarm; CallAlarm rx_alarm] ∧
  lg_callers rx_end !! 2%nat = Some (PReturned (inl ErrBackpressure)) ∧ lg_callers rx_end !! 3%nat = Some (PReturned (inl ErrBackpressure)).
Proof. vm_compute. done. Qed.

(** A leaf is accepted and not published for two seconds: the writer cuts. *)
Definition rx_cut_acts : list action :=
  [ACall 1 true (rx_leaf 1) 0; ACaller 1 true 0; ACaller 1 true 0; ATracker true 0 0 0; AWatch (2 * second) (2 * second);
   ACall 2 true (rx_leaf 2) 0; ACaller 2 true 0; ACaller 2 true 0].
Definition rx_cut : log_sys := default rx_start (act_run rx_monitor rx_cut_acts rx_start).
Lemma rx_cut_refuses : aw_tripped (lg_aw rx_cut) = true ∧ lg_callers rx_cut !! 2%nat = Some (PReturned (inl ErrDurabilityCut)) ∧
  lg_calls rx_cut = [CallCut (2 * second) second 1].
Proof. vm_compute. done. Qed.

Lemma cut_can_end_example :
  ∃ ys s', act_run rx_monitor (APublish (length (lg_added rx_cut)) :: ys) rx_cut = Some s' ∧ Forall (λ y, ∃ ok, y = ATracker ok 0 0 0) ys ∧
    outstanding (lg_aw s') = [] ∧ aw_tripped (lg_aw s') = false ∧ aw_catchup (lg_aw s') = false.
Proof.
  apply (cut_can_end rx_monitor eq_refl [] rx_writer rx_cut_acts rx_cut).
  - apply rx_writer_wf.
  - reflexivity.
  - reflexivity.
  - reflexivity.
  - vm_compute. reflexivity.
  - vm_compute. discriminate.
  - vm_compute. reflexivity.
Defined.

(** One future that fails ends the tracker for good: the leaf accepted after it is published, and never confirmed. *)
Lemma failed_future_ends_tracker :
  match act_run rx_monitor [ACall 1 true (rx_leaf 1) 0; ACaller 1 true 0; ACaller 1 true 0; ATracker true 0 0 0; ATracker false 0 0 0;
      ACall 2 true (rx_leaf 2) 0; ACaller 2 true 0; ACaller 2 true 0; APublish 2; AWatch (2 * second) (2 * second)] rx_start with
  | Some s => lg_tracker s = TDone ∧ aw_stop (lg_aw s) = false ∧ lg_published s = 2%nat ∧ length (outstanding (lg_aw s)) = 2%nat ∧
              aw_tripped (lg_aw s) = true
  | None => False
  end.
Proof. vm_compute. done. Qed.

(** The slice of the queue keeps its confirmed prefix until it is empty: a writer of capacity 2 that always has a leaf waiting
    holds as many as it has ever accepted. *)
Definition rx_round (i : nat) : list action :=
  [ACall i true (rx_leaf 1) 0; ACaller i true 0; ACaller i true 0; APublish i; ATracker true 0 0 0; ATracker true 0 0 0; ATracker true 0 0 0].
Lemma queue_outgrows_capacity :
  match act_run rx_monitor ([ACall 0 true (rx_leaf 1) 0; ACaller 0 true 0; ACaller 0 true 0] ++ rx_round 1 ++ rx_round 2 ++ rx_round 3 ++ rx_round 4)
      rx_start with
  | Some s => aw_capacity (lg_aw s) = 2 ∧ length (outstanding (lg_aw s)) = 1%nat ∧ length (aw_queue (lg_aw s)) = 5%nat
  | None => False
  end.
Proof. vm_compute. done. Qed.
