(* ===== verification/ProvisioningExamples.v ===== *)
(** The theorems on manifests, provisioning and posture at a concrete cell: a chain of manifests across a restart, a measured boot, a pepd whose
    issuer keyring is changed with the signatures of two controllers; and two behaviours in which the witness falls short of its purpose. *)
From S2P Require Import Prelude.
From S2P Require Import Hex.
From S2P Require Import Json.
From S2P Require Import GoStrings.
From S2P Require Import Leaf.
From S2P Require Import Effects.
From S2P Require Import Records.
From S2P Require Import Quorum.
From S2P Require Import StrictJson.
From S2P Require Import Manifest.
From S2P Require Import Provisioning.
From S2P Require Import Authorizer.
From S2P Require Import Posture.
From S2P Require Import Examples.

Local Open Scope Z_scope.

(** A cheap stand-in for the hash, and signatures made with it. *)
Definition px_hash (m : bytes) : bytes := be 32 (foldl (λ acc b, (acc * 257 + b2z b + 1) mod 2305843009213693951) 0 m).
Definition px_sign (pub msg : bytes) : bytes := px_hash (pub ++ msg) ++ replicate 32 Byte.x00.
#[local] Instance px_crypto : Crypto := {| sha256 := px_hash; ed25519_verify pub msg sig := bool_decide (sig = px_sign pub msg) |}.
#[local] Instance px_crypto_laws : CryptoLaws.
Proof. intros m. apply length_be. Qed.
#[local] Existing Instance demo_env.
#[local] Existing Instance demo_order.
#[local] Existing Instance demo_sort.

(** The key of the cell. *)
#[local] Instance px_key : CellKey := {|
  key_Sign _ m := Some (px_sign demo_pub m); key_Verify m sig := bool_decide (sig = px_sign demo_pub m) |}.
#[local] Instance px_key_laws : CellKeyLaws.
Proof. intros t m sig [= <-]. by apply bool_decide_eq_true. Qed.

(** ** Manifests *)

Definition px_files (path : string) : option bytes := Some (sb path).
Definition px_paths : ComponentPaths := mkComponentPaths "/bundle" "/opa" "/broker" "/ai".
Definition px_state1 : ManifestState := mkManifestState (px_hash (sb "/bundle")) (px_hash (sb "/opa")) (px_hash (sb "old")) (px_hash (sb "/ai")) zero32.
Definition px_state2 : ManifestState := mkManifestState (px_hash (sb "/bundle")) (px_hash (sb "/opa")) (px_hash (sb "/broker")) (px_hash (sb "/ai")) (px_hash []).
Definition px_m0 : Manifester := mkManifester demo_producer true false [] (mkSignedManifest [] []) state0 0 0.
Definition px_ops : list mf_op :=
  [OpTransition 0 px_state1 demo_t0 demo_t0; OpGenesis 0 px_state1 demo_t0 demo_t0; OpReopen; OpTransition 0 px_state1 demo_t0 demo_t0;
   OpTransition 1 px_state2 (demo_t0 + second) demo_t0; OpGenesis 5 px_state2 demo_t0 demo_t0].
Definition px_world : mf_world := default (mkMfWorld px_m0 [] []) (mf_run px_ops (mkMfWorld px_m0 [] [])).

Lemma px_new : NewManifester "cell-a" true true true true demo_salt None true = inr px_m0.
Proof. reflexivity. Qed.

Lemma px_state_typed st : st = px_state1 ∨ st = px_state2 → state_typed st.
Proof. intros [-> | ->]; vm_compute; done. Qed.

Lemma px_typed : Forall op_typed px_ops.
Proof.
  repeat constructor; simpl; try done; try lia; first [apply (px_state_typed px_state1); by left | apply (px_state_typed px_state2); by right].
Qed.

Lemma produced_chain_verifies_example :
  ∃ w, mf_run px_ops (mkMfWorld px_m0 [] []) = Some w ∧
    (wd_published w = [] ∨ VerifyManifestChain (wd_published w) = None) ∧
    (∀ i a b, wd_published w !! i = Some a → wd_published w !! S i = Some b → changes a b) ∧
    Forall (attested (mf_prod px_m0) (wd_trace w)) (wd_published w).
Proof. apply (produced_chain_verifies "cell-a" true demo_salt true px_m0 [] px_ops); [exact px_new|exact px_typed]. Defined.

(** The chain has the genesis and one transition. *)
Lemma px_run : mf_run px_ops (mkMfWorld px_m0 [] []) = Some px_world.
Proof. vm_compute. reflexivity. Qed.
Lemma px_chain : length (wd_published px_world) = 2%nat ∧ VerifyManifestChain (wd_published px_world) = None.
Proof. vm_compute. done. Qed.

Definition px_first : SignedManifest := default (mkSignedManifest [] []) (wd_published px_world !! 0%nat).

Lemma manifest_binds_history_example :
  (0%nat = 0%nat ∧ take 1 (sm_Record <$> wd_published px_world) = take 1 (sm_Record <$> [px_first])) ∨ sha256_collision.
Proof.
  apply (manifest_binds_history (wd_published px_world) [px_first] 0 0 px_first px_first);
    [exact (proj2 px_chain)|vm_compute; reflexivity..].
Defined.

Lemma boot_allowed_exactly_example :
  (CheckBoot (Some (wd_mf px_world)) (Some (Some demo_policy)) demo_policy px_files px_paths id demo_t0 (wd_trace px_world)).1 = None.
Proof.
  apply (boot_allowed_exactly "cell-a" true demo_salt true px_m0 [] px_ops px_world (Some demo_policy) demo_policy px_files px_paths id demo_t0);
    [exact px_new|exact px_typed|exact px_run|].
  split.
  - eexists _, _. split; [vm_compute; reflexivity|]. split; [vm_compute; reflexivity|]. split; [exact (proj2 px_chain)|].
    split_and!; (split; [done|eexists; split; [reflexivity|vm_compute; reflexivity]]).
  - split; [vm_compute; discriminate|]. split; [reflexivity|]. vm_compute. reflexivity.
Defined.

(** ** Provisioning *)

Definition px_kid (n : byte) : bytes := replicate 16 n.
(** The document the standard decoder reads in the file of the controllers. *)
Definition px_read (data : bytes) : reading :=
  Document (JObj ((λ n, (hex (px_kid n), JStr (hex (demo_key n)))) <$> [Byte.x11; Byte.x12; Byte.x13])) None.
Definition px_unmarshal (t : gtype) (v : jdoc) : option unmarshal_error := None.

Definition px_file (content : string) : option file_view := Some (mkFileView true (Z.of_nat (slen content)) (Some (sb content))).
Definition px_disk (issuers : string) : disk := λ path,
  if bool_decide (path = "/k") then px_file issuers else if bool_decide (path = "/q") then px_file "controllers" else None.

Definition px_env (name : string) : string :=
  if bool_decide (name = "TBP_PROVISIONING_WITNESS_FILE") then "/w"
  else if bool_decide (name = "TBP_PROVISIONING_TRANSITION_PROOF_FILE") then "/p" else "".

Definition px_posture : bytes :=
  match pepdPosture px_env (λ _, true) 3 (10 * second) with PostureBytes b => b | _ => [] end.

(** The commits of an empty environment. *)
Lemma px_posture_lines : px_posture = sb "ano-proxy=off" ++ [newline] ++ sb "durability=async-bounded" ++ [newline] ++ sb "mode-restrict-quorum=1" ++ [newline]
  ++ sb "opa=on" ++ [newline] ++ sb "opa-admission=on" ++ [newline] ++ sb "opa-autoclear=on" ++ [newline] ++ sb "opa-stall-detection=on" ++ [newline]
  ++ sb "opa-trip-after=3" ++ [newline] ++ sb "telemetry=off" ++ [newline].
Proof. vm_compute. reflexivity. Qed.

Lemma posture_commits_switches_example :
  read_switches px_env (λ _, true) 3 (10 * second) = read_switches (λ _, "") (λ _, true) 3 (10 * second).
Proof.
  apply (proj2 (posture_commits_switches px_env (λ _, "") (λ _, true) 3 (10 * second)) px_posture); vm_compute; reflexivity.
Defined.

Definition px_in : provisioningInputs := mkInputs "cell-a" "/reg" demo_salt "/k" "/q" ∅ 2 "mono" px_posture true.
Definition px_digest (d : disk) : bytes :=
  match pepdProvisioningFiles px_in px_env with
  | inr files => match measureProvisioning d files with inr (digest, _, _) => digest | inl _ => [] end
  | inl _ => []
  end.

(** Two of the three controllers sign the transition. *)
Definition px_expiry : Z := 1700000120.
Definition px_proof (from to : bytes) : quorumProofFile :=
  mkProofFile px_expiry ((λ n, mkSigWire (hex (px_kid n)) (hex (px_sign (demo_key n)
    (QuorumMessage (TransitionCondition conditionProvisioningTransition from to) "cell-a" (of_Unix px_expiry))))) <$> [Byte.x11; Byte.x13]).

Definition px_boot (issuers : string) (head : Z) : boot_env := mkBootEnv (px_disk issuers) (Some head) demo_t0 demo_t0 true.
Definition px_start (issuers : string) (head : Z) (proof : option quorumProofFile) : pepd_start :=
  mkPepdStart (px_boot issuers head) px_in px_env proof (of_Unix 1700000060) Some.

Definition px_s1 : pepd_start := px_start "one issuer" 0 None.
(** The issuers are changed without a proof. *)
Definition px_s2 : pepd_start := px_start "two issuers" 5 None.
Definition px_s3 : pepd_start := px_start "two issuers" 5 (Some (px_proof (px_digest (px_disk "one issuer")) (px_digest (px_disk "two issuers")))).

Definition px_starts (ss : list pepd_start) := pepd_starts px_unmarshal px_read ss ∅ [].

Lemma px_results : (px_starts [px_s1; px_s2; px_s3]).1.1 = [None; Some (ErrProvisioningDivergence "modifié(s) : issuer-keyring"); None].
Proof. vm_compute. reflexivity. Qed.

Lemma px_measured s : s ∈ [px_s1; px_s2; px_s3] → measured_start "cell-a" "/w" s.
Proof.
  rewrite !elem_of_cons, elem_of_nil. intros [-> |[-> |[-> |[]]]];
    (split; [done|]; split; [reflexivity|]; split; [reflexivity|]; split; [simpl; lia|by left]).
Qed.

(** Another path for the witness is another witness: the changed files are not compared with those of the first start, and an absent
    witness on a registry that is not empty asks for a proof, from nothing, by the keyring that this start found. *)
Definition px_env2 (name : string) : string := if bool_decide (name = "TBP_PROVISIONING_WITNESS_FILE") then "/w2" else px_env name.
Definition px_in2 : provisioningInputs :=
  mkInputs "cell-a" "/reg" demo_salt "/k" "/q" (list_to_map ((λ n, (px_kid n, demo_key n)) <$> [Byte.x11; Byte.x13])) 2 "mono" px_posture true.
Definition px_elsewhere (proof : option quorumProofFile) : pepd_start :=
  mkPepdStart (px_boot "two issuers" 5) px_in2 px_env2 proof (of_Unix 1700000060) Some.
Example other_path_other_witness :
  (px_starts [px_s1; px_elsewhere None; px_elsewhere (Some (px_proof (replicate 32 Byte.x00) (px_digest (px_disk "two issuers"))))]).1.1 =
    [None; Some ErrProvisioningWitnessMissing; None].
Proof. vm_compute. reflexivity. Qed.

Lemma provisioning_change_needs_quorum_example :
  same_files (pepd_file px_s1) (pepd_file px_s3) ∨
  sha256_collision ∨
  ∃ raw keyring from to, pepd_file px_s1 ProvisioningQuorumKeyringName raw ∧ ParseKeyring px_unmarshal px_read raw = Some keyring ∧ keyring_ok keyring ∧
    transition_signed "cell-a" keyring (in_quorumMin (sp_in px_s1)) from to (sp_proof px_s3) ∧
    (∃ files per auths, pepdProvisioningFiles (sp_in px_s1) (sp_env px_s1) = inr files ∧ measureProvisioning (be_disk (sp_boot px_s1)) files = inr (from, per, auths)) ∧
    (∃ files per auths, pepdProvisioningFiles (sp_in px_s3) (sp_env px_s3) = inr files ∧ measureProvisioning (be_disk (sp_boot px_s3)) files = inr (to, per, auths)).
Proof.
  refine (provisioning_change_needs_quorum px_unmarshal px_read "cell-a" "/w" ∅ [] px_s1 [px_s2] px_s3 [] [] [Some (ErrProvisioningDivergence "modifié(s) : issuer-keyring")]
    (px_starts [px_s1; px_s2; px_s3]).1.2 (px_starts [px_s1; px_s2; px_s3]).2 _ _ _ _ _ _).
  - split; vm_compute; lia.
  - apply Forall_forall. exact px_measured.
  - reflexivity.
  - change ([] ++ px_s1 :: [px_s2] ++ [px_s3]) with [px_s1; px_s2; px_s3]. change ([] ++ None :: ?r ++ [None]) with (None :: r ++ [None]).
    fold (px_starts [px_s1; px_s2; px_s3]). pose proof px_results as E. destruct (px_starts [px_s1; px_s2; px_s3]) as [[rs w] t]. simpl in *. by rewrite E.
  - reflexivity.
  - by repeat constructor.
Defined.

Definition px_guard : ProvisioningGuard :=
  match pepd_guard px_unmarshal px_read Some (px_disk "one issuer") px_in px_env None demo_t0 with
  | inr g => g
  | inl _ => mkGuard demo_producer "" [] None false
  end.
Definition px_wit : wit := default WitAbsent ((px_starts [px_s1]).1.2 !! "/w").
Definition px_preview : ProvisioningPreview :=
  match PreviewProvisioning (px_disk "two issuers") (pg_files px_guard) "/w" px_wit "cell-a" "pepd" true with
  | inr pv => pv
  | inl _ => mkPreview false [] 0 [] [] false ""
  end.
(** An authoriser for one transition, and one for every transition. *)
Definition px_only (f x : bytes) : authorizer := λ _ from to, bool_decide (from = f) && bool_decide (to = x).
Definition px_authorize1 : authorizer := px_only (pv_From px_preview) (pv_To px_preview).
Definition px_authorize2 : authorizer := λ _ _ _, true.

Lemma px_preview_ok : PreviewProvisioning (px_disk "two issuers") (pg_files px_guard) "/w" px_wit (p_cellID (pg_prod px_guard)) (pg_component px_guard) true = inr px_preview.
Proof. vm_compute. reflexivity. Qed.

Lemma preview_is_what_is_asked_example :
  pg_Check (px_boot "two issuers" 5) (set_authorize (Some px_authorize1) px_guard) px_wit [] =
    pg_Check (px_boot "two issuers" 5) (set_authorize (Some px_authorize2) px_guard) px_wit [] ∧
  (pv_Conforming px_preview = true → pg_Check (px_boot "two issuers" 5) (set_authorize (Some px_authorize1) px_guard) px_wit [] =
    pg_Check (px_boot "two issuers" 5) (set_authorize None px_guard) px_wit []).
Proof.
  apply (preview_is_what_is_asked (px_boot "two issuers" 5) px_guard "/w" px_wit [] px_preview px_authorize1 px_authorize2).
  - exact px_preview_ok.
  - intros prev. unfold px_authorize1, px_only, px_authorize2. by rewrite !bool_decide_eq_true_2.
Defined.

(** ** Two defects of the witness *)

(** With 256 files kept in the witness, which the measure accepts, their count is written as zero: the first start succeeds and writes
    a witness that every later start refuses. It does not depend on the hash and the key, which are trivial here. *)
Definition px_many (n : nat) : ProvisioningGuard :=
  mkGuard demo_producer "pepd" ((λ i, mkProvisioningFile (Itoa (Z.of_nat i)) "" false (Some [])) <$> seq 0 n) None true.
Definition px_flat : Crypto := {| sha256 _ := zero32; ed25519_verify _ _ _ := true |}.
Definition px_flat_key : CellKey := {| key_Sign _ _ := Some []; key_Verify _ _ := true |}.
Definition px_flat_check (head : Z) (n : nat) : wit → trace → option prov_error * wit * trace :=
  @pg_Check px_flat demo_env px_flat_key demo_order demo_sort (px_boot "" head) (px_many n).
Definition px_two_starts (n : nat) : option prov_error * option prov_error :=
  let '(r1, w1, t1) := px_flat_check 0 n WitAbsent [] in (r1, (px_flat_check 1 n w1 t1).1.1).

Lemma witness_of_256_unreadable : px_two_starts 255 = (None, None) ∧ px_two_starts 256 = (None, Some ErrProvisioningWitnessBad).
Proof. vm_compute. done. Qed.

(** A witness of version 1: no authorities. *)
Definition px_legacy : bytes :=
  sb witnessPrefix ++ [Byte.x01; Byte.x06] ++ sb "cell-a" ++ [Byte.x04] ++ sb "pepd" ++ be 8 3 ++ zero32 ++ px_digest (px_disk "one issuer")
  ++ be 2 1 ++ [Byte.x01] ++ sb "f" ++ zero32 ++ be 8 1700000000.

(** The upgrade of that witness seals other bytes than its own. *)
Lemma legacy_seal_broken :
  ∃ pw, parseWitnessRecord px_legacy = Some pw ∧ pw_Legacy pw = true ∧ HashManifest (marshalWitnessRecord pw) ≠ HashManifest px_legacy.
Proof. eexists. split; [vm_compute; reflexivity|]. split; [reflexivity|]. vm_compute. discriminate. Qed.
