(* ===== verification/AnonymityExamples.v ===== *)
(** Concrete runs of the anonymiser: the theorems of [Anonymity] applied, and what a digit after a masked part does. *)
From S2P Require Import Prelude.
From S2P Require Import Json.
From S2P Require Import Leaf.
From S2P Require Import Effects.
From S2P Require Import GoStrings.
From S2P Require Import GoJson.
From S2P Require Import Ano.
From S2P Require Import Masking.
From S2P Require Import Anonymity.

Local Open Scope Z_scope.

(** ** Patterns that are words *)

(** The occurrences of a word, from left to right and without overlaps. *)
Fixpoint occurrences (w : bytes) (skip pos : nat) (s : bytes) : list (nat * nat) :=
  match s with
  | [] => []
  | _ :: s' =>
      match skip with
      | S skip => occurrences w skip (S pos) s'
      | O => if bool_decide (take (length w) s = w) then (pos, (pos + length w)%nat) :: occurrences w (length w - 1) (S pos) s' else occurrences w 0 (S pos) s'
      end
  end.

Definition a_word (w : bytes) : bool := bool_decide (w ≠ []) && forallb ascii w.

#[local] Instance word_regexp : Regexp := {|
  regex := bytes;
  Compile s := if a_word (sb s) then Some (sb s) else None;
  FindAllIndex w s := if a_word w then occurrences w 0 0 s else [] |}.

Lemma occurrences_spec w skip pos s i j :
  (i, j) ∈ occurrences w skip pos s → (pos ≤ i)%nat ∧ j = (i + length w)%nat ∧ take (length w) (drop (i - pos) s) = w.
Proof.
  revert skip pos. induction s as [|b s IH]; intros skip pos; cbn [occurrences]; [by intros ?%not_elem_of_nil|].
  assert (∀ skip, (i, j) ∈ occurrences w skip (S pos) s → (pos ≤ i)%nat ∧ j = (i + length w)%nat ∧ take (length w) (drop (i - pos) (b :: s)) = w) as HS.
  { intros k (HP & -> & HT)%IH. split_and!; [lia|done|]. replace (i - pos)%nat with (S (i - S pos)) by lia. done. }
  destruct skip as [|skip]; [|apply HS]. case_bool_decide as E; [|apply HS]. rewrite elem_of_cons. intros [Ep|Hin]; [|by apply (HS _ Hin)].
  injection Ep as -> ->. split_and!; [lia|done|]. by rewrite Nat.sub_diag, drop_0.
Qed.

(** A character below 0x80 stands alone. *)
Lemma ascii_boundary s i b : utf8 s → s !! i = Some b → ascii b = true → on_boundary s i ∧ on_boundary s (S i).
Proof.
  intros Hs. revert i. induction Hs as [|b0 s H0 Hs IH|b0 b1 s Hr Hs IH|b0 b1 b2 s Hr Hs IH|b0 b1 b2 b3 s Hr Hs IH]; intros i Hi Hb; [done|..].
  - destruct i as [|i]; [split; (split; simpl; [repeat constructor; done|rewrite ?drop_0; eauto using utf8])|].
    destruct (IH i Hi Hb) as [[? ?] [? ?]]. split; (split; simpl; [by apply utf8_1|done]).
  - destruct (rune2_high _ _ Hr) as [A0 A1]. destruct i as [|[|i]]; simpl in Hi; [congruence..|].
    destruct (IH i Hi Hb) as [[? ?] [? ?]]. split; (split; simpl; [by apply utf8_2|done]).
  - destruct (rune3_high _ _ _ Hr) as (A0 & A1 & A2 & _). destruct i as [|[|[|i]]]; simpl in Hi; [congruence..|].
    destruct (IH i Hi Hb) as [[? ?] [? ?]]. split; (split; simpl; [by apply utf8_3|done]).
  - destruct (rune4_high _ _ _ _ Hr) as (A0 & A1 & A2 & A3 & _). destruct i as [|[|[|[|i]]]]; simpl in Hi; [congruence..|].
    destruct (IH i Hi Hb) as [[? ?] [? ?]]. split; (split; simpl; [by apply utf8_4|done]).
Qed.

#[local] Instance word_laws : RegexpLaws.
Proof.
  intros w s i j Hin. simpl in Hin. destruct (a_word w) eqn:Ew; [|by apply not_elem_of_nil in Hin].
  apply andb_true_iff in Ew as [Hne%bool_decide_eq_true Hw]. rewrite forallb_forall in Hw.
  destruct (occurrences_spec _ _ _ _ _ _ Hin) as (_ & -> & HT). rewrite Nat.sub_0_r in HT.
  assert (length w ≤ length s - i)%nat as HL. { apply (f_equal length) in HT. rewrite length_take, length_drop in HT. lia. }
  assert (0 < length w)%nat as Hpos by (destruct w; [done|simpl; lia]). split; [lia|]. intros Hs.
  assert (∀ k b, w !! k = Some b → s !! (i + k)%nat = Some b ∧ ascii b = true) as HK.
  { intros k b Hk. split; [|by apply Hw, list_elem_of_In, (list_elem_of_lookup_2 _ k)]. rewrite <-HT in Hk. apply lookup_take_Some in Hk as [Hk _]. by rewrite lookup_drop in Hk. }
  destruct (lookup_lt_is_Some_2 w 0 Hpos) as [b0 Hb0]. destruct (lookup_lt_is_Some_2 w (length w - 1) ltac:(lia)) as [b1 Hb1].
  destruct (HK _ _ Hb0) as [Hs0 Ha0]. destruct (HK _ _ Hb1) as [Hs1 Ha1]. rewrite Nat.add_0_r in Hs0. split.
  - by apply (ascii_boundary s i b0).
  - replace (i + length w)%nat with (S (i + (length w - 1))) by lia. by apply (ascii_boundary s _ b1).
Qed.

(** A hash without collisions: it keeps its argument. *)
#[local] Instance ax_crypto : Crypto := {| sha256 m := m; ed25519_verify _ _ _ := true |}.

(** ** A deployment *)

Definition ax_rules : option Rules :=
  NewRules (mkRulesConfig ["note"; "action"] ["secret"; "beneficiary.*.iban"] [mkPatternRule "iban" "FR76"; mkPatternRule "name" "Jean"]).
Definition ax_new : option (Ano * vault) := NewAno ax_rules None 0 0 0 0 0 0 0 true.
Definition ax_ano : Ano := match ax_new with Some (a, _) => a | None => mkAno (mkRules [] [] []) None 0 0 0 0 0 false end.
Definition ax_vault : vault := match ax_new with Some (_, v) => v | None => mkVault ∅ 0 0 0 false end.

Lemma ax_new_ok : ax_new = Some (ax_ano, ax_vault).
Proof. vm_compute. reflexivity. Qed.

Definition ax_open : list ano_op := [OpOpen "jti-1" (100 * second) second (Some (sb "0123456789abcdef"))].

(** An order, with a name and an account in the text that is kept. *)
Definition ax_doc : jval :=
  VObj [(sb "action", VStr (sb "pay")); (sb "note", VStr (sb "Jean asks: FR76.")); (sb "secret", VArr [VStr (sb "a"); VNum (sb "12"); VStr (sb "a")]);
        (sb "free", VStr (sb "text")); (sb "ok", VBool true)].

Definition ax_payload : bytes := print ax_doc.
Definition ax_before := ano_run ax_ano ax_open (ax_vault, []).
Definition ax_masked := MaskJSON ax_ano "jti-1" ax_payload (2 * second) ax_before.1 ax_before.2.
Definition ax_out : bytes := match ax_masked.1.1.1 with inr o => o | inl _ => [] end.

(** What leaves the cell. *)
Definition ax_expected : jval :=
  VObj [(sb "action", VStr (sb "pay")); (sb "note", VStr (sb "TBP_VAR_1 asks: TBP_VAR_2.")); (sb "secret", VArr [VStr (sb "TBP_VAR_3"); VStr (sb "TBP_VAR_4"); VStr (sb "TBP_VAR_3")]);
        (sb "free", VStr (sb "TBP_VAR_5")); (sb "ok", VBool true)].
Lemma ax_masked_text : ax_masked.1.1 = (inr (print ax_expected), mkReport 6 2 3 0 1 0 0 2 0).
Proof. vm_compute. reflexivity. Qed.

Lemma number_plain n : digits n → head n ≠ Some zero_digit → number n.
Proof. intros Hd Hh. exists [], n, [], []. rewrite !app_nil_r. split_and!; [done|by left|by right|by left..]. Qed.

Ltac ascii_text := apply utf8_of_ascii; repeat constructor.
Ltac doc_ok := repeat match goal with
  | |- _ ∧ _ => split
  | |- True => exact I
  | |- utf8 _ => ascii_text
  | |- number _ => apply number_plain; [split; [by repeat constructor|done]|done]
  end.

Lemma ax_doc_ok : val_ok ax_doc.
Proof. unfold ax_doc. cbn [val_ok fold_right fst snd]. doc_ok. Qed.

Lemma ax_masked_eq : MaskJSON ax_ano "jti-1" ax_payload (2 * second) ax_before.1 ax_before.2 = (inr ax_out, ax_masked.1.1.2, ax_masked.1.2, ax_masked.2).
Proof. unfold ax_out. fold ax_masked. destruct ax_masked as [[[r rep] v] t] eqn:E. apply (f_equal (λ x, x.1.1)) in E. rewrite ax_masked_text in E. simpl in *. by injection E as <- <-. Qed.

(** The exchange after the document was masked. *)
Definition ax_exchange : exchange := match va_ex ax_masked.1.2 !! "jti-1" with Some e => e | None => mkExchange 0 [] 0 ∅ ∅ 0 end.
Lemma ax_exchange_ok : va_ex ax_masked.1.2 !! "jti-1" = Some ax_exchange ∧ ex_expires ax_exchange = 100 * second.
Proof. vm_compute. split; reflexivity. Qed.

(** Other calls in the meantime: another document of the same exchange, another exchange, a look at the table. *)
Definition ax_between : list ano_op :=
  [OpMaskJSON "jti-1" (sb "[true, 7") (3 * second); OpOpen "jti-2" (90 * second) (4 * second) (Some []); OpClose "jti-2"; OpExchanges (5 * second)].
Definition ax_later := ano_run ax_ano ax_between (ax_masked.1.2, ax_masked.2).

Lemma ax_between_spares : Forall (spares "jti-1" (ex_expires ax_exchange)) ax_between.
Proof. rewrite (proj2 ax_exchange_ok). unfold ax_between. repeat constructor; try done; intros now E; simplify_eq/=; done. Qed.

Lemma ax_separated : all_strings (separated_spans ax_ano) ax_doc.
Proof. unfold ax_doc. cbn [all_strings fold_right fst snd]. repeat split; vm_compute; repeat constructor. Qed.

Lemma exchanges_bounded_and_kept_example :
  ∃ e', va_ex ax_later.1 !! "jti-1" = Some e' ∧ ex_byTok e' !! "TBP_VAR_2" = Some (mkEntry kindSpan (sb "FR76")).
Proof.
  destruct (exchanges_bounded_and_kept ax_rules None 0 0 0 0 0 0 0 true ax_ano ax_vault (ax_open ++ [OpMaskJSON "jti-1" ax_payload (2 * second)]) ax_masked.1.2 ax_masked.2 ax_new_ok) as [_ HB].
  - vm_compute. reflexivity.
  - destruct (HB "jti-1" ax_exchange (proj1 ax_exchange_ok)) as (_ & _ & HK). destruct (HK ax_between ax_between_spares) as (e' & He' & _ & HT).
    exists e'. split; [exact He'|]. apply HT. vm_compute. reflexivity.
Defined.

Lemma masked_document_restored_example :
  (Unmask ax_ano "jti-1" ax_out (6 * second) ax_later.1 ax_later.2).1.1.1 = inr (print ax_doc) ∨ sha256_collision.
Proof.
  apply (masked_document_restored ax_rules None 0 0 0 0 0 0 0 true ax_ano ax_vault ax_open ax_before.1 ax_before.2 "jti-1" ax_payload (2 * second) ax_out
    ax_masked.1.1.2 ax_masked.1.2 ax_masked.2 ax_doc ax_between ax_later.1 ax_later.2 (6 * second) ax_exchange).
  - exact ax_new_ok.
  - vm_compute. reflexivity.
  - apply surjective_pairing.
  - exact ax_masked_eq.
  - apply document_print, ax_doc_ok.
  - exact ax_separated.
  - vm_compute. reflexivity.
  - exact (proj1 ax_exchange_ok).
  - exact ax_between_spares.
  - apply surjective_pairing.
  - rewrite (proj2 ax_exchange_ok). done.
Defined.

(** ** Another secret *)

(** The two values change places. *)
Definition ax_swap (x : bytes) : bytes :=
  if bool_decide (x = encode_string (sb "a")) then encode_string (sb "Dupont") else if bool_decide (x = encode_string (sb "Dupont")) then encode_string (sb "a") else x.

#[local] Instance ax_swap_inj : Inj (=) (=) ax_swap.
Proof. intros x y. unfold ax_swap. repeat case_bool_decide; congruence. Qed.

Definition ax_other : jval :=
  VObj [(sb "action", VStr (sb "pay")); (sb "note", VStr (sb "Jean asks: FR76.")); (sb "secret", VArr [VStr (sb "Dupont"); VNum (sb "12"); VStr (sb "Dupont")]);
        (sb "free", VStr (sb "text")); (sb "ok", VBool true)].

Lemma ax_other_ok : val_ok ax_other.
Proof. unfold ax_other. cbn [val_ok fold_right fst snd]. doc_ok. Qed.

Lemma ax_differ : differ ax_swap ax_ano [] ax_doc ax_other.
Proof.
  unfold ax_doc, ax_other. apply differ_obj.
  repeat match goal with
  | |- differ_pairs _ _ _ [] [] => apply differ_pnil
  | |- differ_pairs _ _ _ _ _ => apply differ_pcons
  | |- differ _ _ _ (VArr _) _ => apply differ_arr
  | |- differ_list _ _ _ _ [] [] => apply differ_nil
  | |- differ_list _ _ _ _ _ _ => apply differ_cons
  | |- differ _ _ _ ?v ?v => apply differ_same; [reflexivity|vm_compute; reflexivity]
  | |- differ _ _ _ _ _ => apply differ_secret; vm_compute; reflexivity
  end.
Qed.

Lemma mask_hides_values_example :
  let '(r1, rep1, _, t1) := MaskJSON ax_ano "jti-1" ax_payload (2 * second) ax_before.1 ax_before.2 in
  let '(r2, rep2, _, t2) := MaskJSON ax_ano "jti-1" (print ax_other) (2 * second) ax_before.1 ax_before.2 in
  (r1 = r2 ∧ rep1 = rep2 ∧ t1 = t2) ∨ sha256_collision.
Proof.
  apply (mask_hides_values ax_swap ax_rules None 0 0 0 0 0 0 0 true ax_ano ax_vault ax_open ax_before.1 ax_before.2 "jti-1" (2 * second) ax_payload (print ax_other) ax_doc ax_other
    (mkExchange (100 * second) (sb "0123456789abcdef") 0 ∅ ∅ 0)).
  - exact ax_new_ok.
  - apply surjective_pairing.
  - vm_compute. reflexivity.
  - vm_compute. reflexivity.
  - intros tok en Hen. simpl in Hen. by rewrite lookup_empty in Hen.
  - apply document_print, ax_doc_ok.
  - apply document_print, ax_other_ok.
  - exact ax_differ.
  - vm_compute. reflexivity.
  - vm_compute. reflexivity.
Defined.

(** ** A number written with an exponent *)

Lemma expanded_number_same_value_example : expandExponent (sb "4.111e+003") = Some (sb "4111") ∧
  (expandExponent (sb "4.111e+003") ≠ None ↔ digits_value (sb "003") ≤ 99).
Proof.
  split; [vm_compute; reflexivity|].
  apply (expanded_number_same_value [] (sb "4") (sb "111") Byte.x65 [plus] (sb "003")); try (by left); try (by right; right); try (right; split; [by repeat constructor|done]); try done; split; [by repeat constructor|done|by repeat constructor|done].
Defined.

(** ** A digit after a masked part *)

Definition ax_confused : jval :=
  VObj [(sb "note", VStr (sb "Jean5")); (sb "secret", VArr (VNum <$> (sb <$> ["1"; "2"; "3"; "4"; "5"; "6"; "7"; "8"; "9"; "10"; "11"; "12"; "13"; "14"])))].
Definition ax_confused_masked := MaskJSON ax_ano "jti-1" (print ax_confused) (2 * second) ax_before.1 ax_before.2.

Definition ax_confused_out : bytes := match ax_confused_masked.1.1.1 with inr o => o | inl _ => [] end.

(** A digit after a masked part changes its token. A kept text in which a digit follows a part that a pattern replaces, as in
    Jean5, leaves as TBP_VAR_15 when the part has the token TBP_VAR_1. When it comes back [Unmask] takes the fifteenth token: it succeeds and returns the
    number 14, which the document had elsewhere, in the place of the text. *)
Example digit_after_span_restores_other :
  ax_confused_masked.1.1.1 = inr ax_confused_out ∧
  (Unmask ax_ano "jti-1" ax_confused_out (3 * second) ax_confused_masked.1.2 ax_confused_masked.2).1.1.1 =
  inr (print (VObj [(sb "note", VNum (sb "14")); (sb "secret", VArr (VNum <$> (sb <$> ["1"; "2"; "3"; "4"; "5"; "6"; "7"; "8"; "9"; "10"; "11"; "12"; "13"; "14"])))])).
Proof. split; vm_compute; reflexivity. Qed.

(** Overlapping matches: the one that begins later is dropped, and what it has beyond the other leaves in clear. *)
Lemma overlap_leaks :
  match NewRules (mkRulesConfig ["note"] [] [mkPatternRule "a" "FR76 1234"; mkPatternRule "b" "1234 5678"]) with
  | Some r => (λ sp, (sp_start sp, sp_end sp)) <$> findSpans r (sb "FR76 1234 5678")
  | None => []
  end = [(0, 9)]%nat.
Proof. vm_compute. reflexivity. Qed.
