(* ===== verification/ProxyExamples.v ===== *)
(** A concrete proxy in front of a service outside the cell, with its anonymiser: the theorems of Proxy, AnoService and AnoClient
    applied, and two divergences between the code and its comments. *)
From S2P Require Import Prelude.
From S2P Require Import Hex.
From S2P Require Import Sha256.
From S2P Require Import Json.
From S2P Require Import Leaf.
From S2P Require Import Effects.
From S2P Require Import AntiReplay.
From S2P Require Import Token.
From S2P Require Import Issuer.
From S2P Require Import DemoCose.
From S2P Require Import Quota.
From S2P Require Import Quorum.
From S2P Require Import Mode.
From S2P Require Import Validator.
From S2P Require Import OPAClient.
From S2P Require Import DryRun.
From S2P Require Import Listener.
From S2P Require Import GoStrings.
From S2P Require Import GoUrl.
From S2P Require Import GoJson.
From S2P Require Import Proxy.
From S2P Require Import Ano.
From S2P Require Import Masking.
From S2P Require Import Anonymity.
From S2P Require Import AnoService.
From S2P Require Import AnoClient.
From S2P Require Import Examples.
From S2P Require Import AnonymityExamples.

Local Open Scope Z_scope.

#[local] Existing Instance demo_crypto.
#[local] Existing Instance demo_env.
#[local] Existing Instance demo_order.
#[local] Existing Instance demo_cose.
#[local] Existing Instance demo_sort.
#[local] Existing Instance word_regexp.

(** ** A request *)

Definition bx_body : bytes := print (VObj [(sb "amount", VNum (sb "12")); (sb "to", VStr (sb "Ann"))]).
Definition bx_url : URL := mkURL [] [] (sb "/orders") [] false (sb "to=ann").
Definition bx_params : IssueParams :=
  mkIssueParams "agent" "write" "/orders?to=ann" None (Some (sha256 bx_body)) (Some (mkQuota "db" "read" 1000 10)) None demo_jti 3 1700000000.
Definition bx_wire : bytes := match @Issue demo_cose (demo_signer demo_pub) demo_issuer bx_params with inr w => w | inl _ => [] end.
Definition bx_post (u : URL) : HttpRequest :=
  mkHttpRequest "POST" u {[ "X-Tbp-Token" := [bs (bearer ++ b64_encode bx_wire)]; "Authorization" := ["Basic x"] ]} (BodyOf bx_body false)
    (Z.of_nat (length bx_body)).

(** The backend, with a path of its own, answers with what it is sent. *)
Definition bx_target : URL := mkURL (sb "http") [] (sb "/api/") [] false [].
Definition bx_echo (r : HttpRequest) : option HttpResponse := Some (mkHttpResponse 200 ∅ (hr_Body r) (hr_ContentLength r)).

(** ** The anonymiser *)

Definition bx_rules : Rules := default (mkRules [] [] []) (NewRules (mkRulesConfig [] [] [])).
Definition bx_new : option (Ano * vault) := NewAno (Some bx_rules) None 0 0 0 0 0 0 0 true.
Definition bx_ano : Ano := match bx_new with Some (a, _) => a | None => mkAno bx_rules None 0 0 0 0 0 false end.
Definition bx_vault : vault := match bx_new with Some (_, v) => v | None => mkVault ∅ 0 0 0 false end.
Definition bx_server : AnoServer :=
  default (mkAnoServer (mkPossessionVerifier ∅) 0 0) (NewAnoServer true (NewPossessionVerifier demo_keyring) 0 0).

Definition bx_ano_env : ano_env := mkAnoEnv demo_now demo_now (Some (sb "0123456789abcdef")) (λ _, demo_now).
Definition bx_client_env : client_env := mkClientEnv (λ _, SocketOK) (λ _, bx_ano_env) (λ _ _ vt, vt).
#[local] Instance bx_rewriter_inst : Rewriter (vault * trace) client_env svc_error := client_rewriter bx_server bx_ano.

Definition bx_env (verdict : bool) : proxy_env client_env :=
  mkProxyEnv client_env (demo_x verdict) demo_now demo_now bx_client_env demo_now bx_client_env demo_now bx_client_env bx_echo.

(** ** The proxy *)

Definition bx_proxy (rewriter : bool) : BlockingProxy svc_error :=
  match NewBlockingProxy true (Some bx_target) None None "" false rewriter (Some (ano_onRewrite "cell-a" demo_salt)) with
  | Some p => p
  | None => mkBlockingProxy _ bx_target defaultDeriveRequest (tokenFromHeader "") "" false rewriter None
  end.
Lemma bx_proxy_new rewriter :
  NewBlockingProxy true (Some bx_target) None None "" false rewriter (Some (ano_onRewrite "cell-a" demo_salt)) = Some (bx_proxy rewriter).
Proof. reflexivity. Qed.

Abbreviation bx_world := (proxy_world (C := AntiReplay) (S := FileQuorumStateStore) (R := vault * trace)).
Definition bx_start : bx_world := mkProxyWorld demo_listener (bx_vault, []) [].
Definition bx_alone (k : nat) (w : bx_world) : bx_world := w.

Definition bx_served (rewriter : bool) (u : URL) : proxy_result * bx_world :=
  ServeHTTP bx_alone (bx_proxy rewriter) demo_seams (bx_env true) (bx_post u) bx_start.
Definition bx_sent_by (rewriter : bool) : HttpRequest := default (bx_post bx_url) (pr_sent (bx_served rewriter bx_url).1).

Lemma bx_sent_ok rewriter : pr_sent (bx_served rewriter bx_url).1 = Some (bx_sent_by rewriter).
Proof. destruct rewriter; vm_compute; reflexivity. Qed.

(** Another query than the one of the token is refused, before anything is sent. *)
Lemma bx_other_query : pr_answer (bx_served false (mkURL [] [] (sb "/orders") [] false (sb "to=bob"))).1 = PolicyRefused ReasonScopeMismatch.
Proof. vm_compute. reflexivity. Qed.

Lemma proxy_sends_only_what_was_decided_example :
  RequestURI (hr_URL (bx_sent_by false)) = sb "/api/orders?to=ann" ∧ hr_Header (bx_sent_by false) !! "X-Tbp-Token" = None.
Proof.
  destruct (proxy_sends_only_what_was_decided (H5 := demo_cose_laws) bx_alone bx_target "" false false (Some (ano_onRewrite "cell-a" demo_salt)) (bx_proxy false) demo_seams
    (bx_env true) (bx_post bx_url) bx_start (bx_served false bx_url).1 (bx_served false bx_url).2 (bx_sent_by false))
    as (wire & tok & req & out & l1 & t1 & l2 & t2 & _ & _ & _ & _ & _ & HRes & _ & _ & _ & _ & _ & _ & _ & _ & _ & HH & HS & HU).
  - intros g [= <-]. vm_compute. lia.
  - reflexivity.
  - split; [reflexivity|]. right. vm_compute. reflexivity.
  - vm_compute. discriminate.
  - reflexivity.
  - reflexivity.
  - unfold bx_served. apply surjective_pairing.
  - apply bx_sent_ok.
  - split.
    + rewrite HU, HRes. vm_compute. reflexivity.
    + rewrite HS. cbn [set_url hr_Header]. rewrite HH. unfold Header_Del. apply lookup_delete_eq.
Defined.

(** What leaves the cell, and what the agent gets back. *)
Lemma bx_outside :
  hr_Body (bx_sent_by true) = BodyOf (print (VObj [(sb "amount", VStr (sb "TBP_VAR_1")); (sb "to", VStr (sb "TBP_VAR_2"))])) false ∧
  u_RawQuery (hr_URL (bx_sent_by true)) = sb "to=TBP_VAR_3" ∧
  match pr_answer (bx_served true bx_url).1 with FromBackend resp => hs_Body resp = BodyOf bx_body false | _ => False end ∧
  va_ex (pw_rewriter (bx_served true bx_url).2).1 = ∅.
Proof. vm_compute. split_and!; reflexivity. Qed.

Lemma nothing_leaves_unmasked_example :
  ∃ wire body out rep jti rep2, hr_Body (bx_sent_by true) = BodyOf out false ∧ masked_by bx_server bx_ano wire body out rep ∧
    recorded "cell-a" demo_salt (mkRewriteEvent svc_error RewriteOpMask jti rep2 None) demo_now (pw_trace (bx_served true bx_url).2).
Proof.
  destruct (nothing_leaves_unmasked bx_server bx_ano bx_alone bx_target "" false "cell-a" demo_salt (bx_proxy true) demo_seams (bx_env true) (bx_post bx_url) bx_start
    (bx_served true bx_url).1 (bx_served true bx_url).2 (bx_sent_by true)) as (wire & req & jti & _ & _ & _ & HB & _ & (vt & rep & r1 & vt1 & _ & _ & HR) & _).
  - intros k w. exists []. symmetry. apply app_nil_r.
  - reflexivity.
  - reflexivity.
  - unfold bx_served. apply surjective_pairing.
  - apply bx_sent_ok.
  - destruct HB as [[HB _]|(body & out & rep1 & _ & HB & HM)].
    + exfalso. pose proof (proj1 bx_outside) as HO. rewrite HO in HB. discriminate HB.
    + exists wire, body, out, rep1, jti, rep. split; [exact HB|]. split; [exact HM|exact HR].
Defined.

(** ** Another caller *)

Definition bx_wire2 : bytes :=
  match @Issue demo_cose (demo_signer demo_pub) demo_issuer (mkIssueParams "other" "write" "/orders" None None None None demo_jti2 3 1700000000) with
  | inr w => w | inl _ => [] end.
Definition bx_opened : vault * trace :=
  (ano_serve (λ _ vt, vt) bx_server bx_ano bx_ano_env (client_request "/v1/mask" bx_wire bx_body) (bx_vault, [])).2.
Definition bx_exchange : exchange := match va_ex bx_opened.1 !! hex demo_jti with Some ex => ex | None => mkExchange 0 [] 0 ∅ ∅ 0 end.
Lemma bx_exchange_ok : va_ex bx_opened.1 !! hex demo_jti = Some bx_exchange ∧ ex_expires bx_exchange = of_Unix (1700000060 + 60).
Proof. vm_compute. split; reflexivity. Qed.

(** With its own token the other caller asks for the values of the first one. *)
Definition bx_intruder : HttpRequest := client_request "/v1/unmask" bx_wire2 (sb "TBP_VAR_2").
Lemma bx_intruder_token : option_map t_JTI (shown_token bx_server bx_intruder) = Some demo_jti2.
Proof. vm_compute. reflexivity. Qed.

Lemma exchange_reached_only_with_its_token_example :
  va_ex (ano_serve (λ _ vt, vt) bx_server bx_ano bx_ano_env bx_intruder bx_opened).2.1 !! hex demo_jti = Some bx_exchange.
Proof.
  apply (exchange_reached_only_with_its_token (λ _ vt, vt) bx_server bx_ano [(bx_ano_env, bx_intruder)] bx_ano_env bx_intruder bx_opened (hex demo_jti) bx_exchange).
  - intros k vt. exists []. split; [constructor|reflexivity].
  - left.
  - apply bx_exchange_ok.
  - rewrite (proj2 bx_exchange_ok). constructor; [|constructor]. split; [|split].
    + intros tok Htok. pose proof bx_intruder_token as HT. cbn [snd] in Htok. rewrite Htok in HT. injection HT as ->. vm_compute. discriminate.
    + reflexivity.
    + intros k. reflexivity.
Defined.

(** ** Behaviours worth knowing *)

(** The other requests, just before the quantum is taken: the token has expired meanwhile, and a passport is opened. *)
Definition bx_late : Z := of_Unix 1700000062.
Definition bx_purge (k : nat) (w : bx_world) : bx_world :=
  match k, ln_ledger (pw_listener w) with
  | 1%nat, Some q =>
      let l := pw_listener w in
      let tok := issued_token demo_issuer (mkIssueParams "other" "read" "db" None None (Some (mkQuota "db" "read" 1 1)) None demo_jti2 3 1700000060) in
      let '(_, q1, t1) := Open bx_late (Some tok) q (pw_trace w) in
      mkProxyWorld (set_stats (ln_cache l) (Some q1) (ln_opa l) (ln_stats l) l) (pw_rewriter w) t1
  | _, _ => w
  end.
Definition bx_late_env : proxy_env client_env :=
  mkProxyEnv client_env (demo_x true) bx_late bx_late bx_client_env demo_now bx_client_env demo_now bx_client_env bx_echo.

(** A passport that has been purged is not counted. A request is decided just before its token expires, and its quantum is taken just after.
    Alone, it is refused: the passport has expired. When another request opens a passport in between, the expired one leaves the
    ledger; the proxy then finds no counter, takes nothing and sends the request. *)
Theorem purged_passport_lets_through :
  pr_answer (ServeHTTP bx_alone (bx_proxy false) demo_seams bx_late_env (bx_post bx_url) bx_start).1 = QuotaSpent ReasonPassportExpired ∧
  is_Some (pr_sent (ServeHTTP bx_purge (bx_proxy false) demo_seams bx_late_env (bx_post bx_url) bx_start).1).
Proof. split; [vm_compute; reflexivity|]. eexists. vm_compute. reflexivity. Qed.

(** A grace of zero is sixty seconds. *)
Lemma zero_grace_is_a_minute v : as_grace <$> NewAnoServer true (Some v) 0 0 = Some (60 * second).
Proof. reflexivity. Qed.

(** In the second in which it expires a token passes the validator and not the anonymiser. *)
Lemma last_second_refused :
  let now := of_Unix 1700000060 in
  option_map (pv_Fresh now ∘ Some) (shown_token bx_server (client_request "/v1/mask" bx_wire bx_body)) = Some false ∧
  d_Allow (ValidateAt demo_validator demo_seams bx_wire (mkRequest "write" "/orders?to=ann" (Some (sha256 bx_body))) now now demo_cache []).1.1 = true.
Proof. vm_compute. split; reflexivity. Qed.
