(* ===== verification/JournalExamples.v ===== *)
(** A concrete journal, its log and its auditor, and the mirror of a broker restored from them: the theorems of Journal, Auditor and
    Mirror applied, and two defects of the journal. *)
From S2P Require Import Prelude.
From S2P Require Import Hex.
From S2P Require Import Sha256.
From S2P Require Import Leaf.
From S2P Require Import Effects.
From S2P Require Import Controllers.
From S2P Require Import Epoch.
From S2P Require Import Promotion.
From S2P Require Import Arbiter.
From S2P Require Import Watcher.
From S2P Require Import GoStrings.
From S2P Require Import Journal.
From S2P Require Import Auditor.
From S2P Require Import Mirror.
From S2P Require Import ClusterExamples.

Local Open Scope Z_scope.

#[local] Existing Instance demo_crypto.
#[local] Existing Instance demo_env.
#[local] Existing Instance demo_time.

(** ** Encryption and the log *)

(** A tag in the place of AES-GCM; the text is left clear. *)
Definition jx_tag (key nonce plain aad : bytes) : bytes := take 16 (sha256 (key ++ nonce ++ be 8 (Z.of_nat (length aad)) ++ aad ++ plain)).
#[local] Instance jx_aead : AEAD := {|
  NonceSize := 12;
  gcm_Seal key nonce plain aad := jx_tag key nonce plain aad ++ plain;
  gcm_Open key nonce ct aad :=
    if bool_decide (take 16 ct = jx_tag key nonce (drop 16 ct) aad) then Some (drop 16 ct) else None |}.
#[local] Instance jx_aead_laws : AEADLaws.
Proof.
  intros key nonce plain aad _ _. cbn [gcm_Open gcm_Seal jx_aead].
  assert (length (jx_tag key nonce plain aad) = 16%nat) as HL.
  { unfold jx_tag. rewrite length_take, (@sha256_length demo_crypto demo_crypto_laws). done. }
  rewrite take_app_exact, drop_app_exact by done. by rewrite bool_decide_true.
Qed.

(** A log of one leaf: its root is the hash of the leaf, and the signed checkpoint carries it. *)
#[local] Instance jx_log : LogClient := {| EntryBundleWidth := 256; HashLeaf e := Byte.x00 :: e |}.
#[local] Instance jx_proofs : LogProofs := {|
  note_Open raw := if bool_decide (take 6 raw = sb "signed") then Some (drop 6 raw) else None;
  checkpoint_Unmarshal text := Some (1, text);
  VerifyInclusion idx size h p root := bool_decide (idx = 0) && bool_decide (size = 1) && bool_decide (p = []) && bool_decide (root = h) |}.

(** ** A promotion, its journal and its log *)

Definition jx_config : mirrorConfig := mkMirrorConfig true "anchors.json" "keys.json".
Definition jx_keys : option (Z * option (gmap string string)) := Some (100, Some {[ "cell-b" := hex (cx_key Byte.x21) ]}).
Definition jx_gate : mirrorGate :=
  default (mkMirrorGate "" [] ∅ cx_promoter cx_source "" 0 0) (newMirrorGate jx_config "cell-a" cx_salt true true cx_ctrls 2 jx_keys).
Definition jx_decided : (mirror_error + (string * Z * Z)) * trace :=
  mg_decide jx_gate (Some cx_anchors) (Some cx_anchors) (Some cx_anchors) (ms 1600000) (ms 1600000) (Some cx_receipt) [].
Definition jx_sealed : SealedRecord :=
  match jx_decided.2 with EvJournal l salt record :: _ => mkSealed l salt record | _ => mkSealed cx_anchor_leaf [] [] end.
Definition jx_data : bytes := match Marshal (sl_Leaf jx_sealed) with inr d => d | inl _ => [] end.

Definition jx_key : bytes := replicate 32 Byte.x0c.
Definition jx_nonce : bytes := replicate 12 Byte.x0d.
Definition jx_put (o : write_outcome) : put_call := mkPut (sl_Leaf jx_sealed) (sl_Salt jx_sealed) (sl_Record jx_sealed) (Some jx_nonce) o.
Definition jx_store : RecordStore := default (mkStore [] []) (OpenRecordStore jx_key true None).
Definition jx_file : bytes := st_file (store_run [jx_put (WroteAll true)] jx_store).2.
Definition jx_one (data : bytes) : log_view :=
  mkLogView (Some (sb "signed" ++ HashLeaf data)) (λ _, Some [HashLeaf data]) (λ _, true) (λ _ _, Some []).
Definition jx_view : log_view := jx_one jx_data.

Lemma jx_sound o : o ∈ [WroteAll true; WroteAll false; WroteOnly 0] → put_sound jx_key (jx_put o).
Proof.
  intros Ho. split; [by vm_compute|]. split; [by vm_compute|]. split; [exact Ho|]. intros nonce [= <-]. split; [reflexivity|].
  intros d Hd. apply Z.leb_le. assert (d = jx_data) as -> by (unfold jx_data; cbn [put_leaf jx_put] in Hd; by rewrite Hd). vm_compute. reflexivity.
Qed.

(** A write, a write that the disk refuses whole, and one that it does not sync. *)
Definition jx_calls : list put_call := [jx_put (WroteAll true); jx_put (WroteOnly 0); jx_put (WroteAll false)].
Definition jx_run := store_run jx_calls jx_store.


(** One torn write loses the journal: a Put that the disk cuts short returns an error, the next one succeeds on the same line, and
    from then on no record can be read, neither the ones before nor the ones after. *)
Example torn_write_loses_journal :
  let r := store_run [jx_put (WroteAll true); jx_put (WroteOnly 40); jx_put (WroteAll true); jx_put (WroteAll true)] jx_store in
  r.1 = [None; Some ErrJournalIO; None; None] ∧ ReadRecords jx_key (Some (st_file r.2)) = inl (2, RecMalformed).
Proof. vm_compute. split; reflexivity. Qed.

(** What follows the object of a line is not refused when it begins with a closing bracket. *)
Example trailing_content_accepted :
  let line := record_text jx_key jx_nonce jx_data (sl_Salt jx_sealed) (sl_Record jx_sealed) in
  ReadRecords jx_key (Some (line ++ sb "} anything")) = ReadRecords jx_key (Some line) ∧
  ReadRecords jx_key (Some (line ++ sb " anything")) = inl (1, RecTrailing).
Proof. vm_compute. split; reflexivity. Qed.

(** ** An edited file *)

(** Opens what was sealed for the one call, and nothing else. *)
Definition jx_strict : AEAD := {|
  NonceSize := 12;
  gcm_Seal := @gcm_Seal jx_aead;
  gcm_Open key nonce ct aad :=
    let plain := frame (sl_Salt jx_sealed) (sl_Record jx_sealed) in
    if bool_decide (aad = jx_data) && bool_decide (ct = @gcm_Seal jx_aead key nonce plain aad) then Some plain else None |}.

Definition jx_entry : journal_entry := mkJournalEntry jx_data jx_sealed.
(** The line of the call, written twice. *)
Definition jx_edited : bytes := jx_file ++ jx_file.

Lemma jx_unforged : @unforged _ jx_strict jx_key [jx_put (WroteAll true)].
Proof.
  intros nonce ct aad plain. cbn [gcm_Open jx_strict]. case_bool_decide as Ha; [|done]. case_bool_decide; [|done]. intros [= <-].
  exists (jx_put (WroteAll true)), jx_entry. split; [by left|]. split; [by vm_compute|]. by split.
Qed.

Lemma edited_journal_reveals_only_puts_example :
  ∃ c, c ∈ [jx_put (WroteAll true)] ∧ put_entry c = Some jx_entry ∧ VerifyHash (je_sealed jx_entry) = true.
Proof.
  apply (@edited_journal_reveals_only_puts _ jx_strict jx_key [jx_put (WroteAll true)] jx_edited [jx_entry; jx_entry] jx_entry).
  - exact jx_unforged.
  - apply Forall_cons; split; [|apply Forall_nil_2]. split; [by vm_compute|]. vm_compute. reflexivity.
  - vm_compute. reflexivity.
  - by left.
Defined.

(** ** The auditor *)

Definition jx_flags : verify_flags := mkFlags "records.jsonl" "records.key" "registry" "cell-a+key" "" (-1) false false false.
Definition jx_audit (file : bytes) : audit_env :=
  mkAuditEnv (Some 384) (GenerateRecordKey false (Some jx_key)) (Some file) None (λ _, true) (λ _, jx_view) (Some 1)
    (mkLogRead (UpdateTo 1) (Some [HashLeaf jx_data]) (λ _, Some [jx_data])).

Lemma audit_succeeds_exactly_example :
  ∃ key recs leaves w, LoadRecordKey (ae_keyPerm (jx_audit jx_file)) (ae_keyRaw (jx_audit jx_file)) = Some key ∧
    ReadRecords key (ae_file (jx_audit jx_file)) = inr recs ∧ audit_verifier (jx_audit jx_file) jx_flags = Some tt ∧
    (∀ i r, recs !! i = Some r → VerifyHash (je_sealed r) = true ∧ ∃ idx, VerifyInLog (ae_view (jx_audit jx_file) i) r = inr idx) ∧
    NewChainWatcher "tbp-audit" true (ae_checkpoint (jx_audit jx_file)) (ae_leaves (jx_audit jx_file)) 0 = inr (leaves, w) ∧
    ∀ l, (times l leaves ≤ times l (leaves_of_journal recs))%nat.
Proof. apply (audit_succeeds_exactly (jx_audit jx_file) jx_flags); [split_and!; done|]. vm_compute. reflexivity. Defined.

(** An erased record is seen, and listed. *)
Example erased_record_seen :
  cmdVerify (jx_audit []) jx_flags = mkAudit 1 [] [(0, sl_Leaf jx_sealed)].
Proof. vm_compute. reflexivity. Qed.

(** ** The mirror after a restart *)

Definition jx_restart : restore_env :=
  mkRestoreEnv (Some 384) (GenerateRecordKey false (Some jx_key)) (Some jx_file) jx_view (Some cx_anchors) (Some cx_anchors) (ms 1650000) (ms 1650000).
Definition jx_restored := restorePersistedState jx_restart (Some jx_gate) None jx_decided.2.
Definition jx_gate' : mirrorGate := default jx_gate jx_restored.1.1.

Lemma jx_one_leaf data r : in_log (jx_one data) r = true → je_LeafData r = data.
Proof.
  unfold in_log, VerifyInLog. destruct (VerifyHash (je_sealed r)); [|done]. cbn [negb lv_checkpoint jx_one].
  change (ParseCheckpoint _) with (Some (1, HashLeaf data)). cbn [lv_hashes jx_one index_of]. cbv zeta.
  case_bool_decide as Hh; [|done]. by injection Hh.
Qed.

Lemma jx_log_sound : log_sound jx_view jx_decided.2.
Proof.
  intros r HU HI%jx_one_leaf. rewrite HI in HU. assert (UnmarshalLeaf jx_data = inr (sl_Leaf jx_sealed)) as E by (vm_compute; reflexivity).
  assert (sl_Leaf (je_sealed r) = sl_Leaf jx_sealed) as -> by congruence. apply list_elem_of_lookup. exists 0%nat. vm_compute. reflexivity.
Qed.

Lemma mirror_available_only_if_promoted_example :
  Some 7 = Some (mg_epoch jx_gate') ∧ ms 1700000 < mg_end jx_gate' ∧
  promotion_backed jx_gate' jx_restored.2 (mg_cell jx_gate') (mg_epoch jx_gate') (mg_end jx_gate').
Proof.
  apply (mirror_available_only_if_promoted jx_config "cell-a" cx_salt true true cx_ctrls 2 jx_keys jx_gate jx_gate' [] jx_restored.2 (Some 7) (ms 1700000)).
  - vm_compute. reflexivity.
  - eapply (run_restart jx_gate jx_gate _ jx_decided.2 jx_restart None); [|exact jx_log_sound|vm_compute; reflexivity].
    apply (run_decide jx_gate jx_gate [] [] (Some cx_anchors) (Some cx_anchors) (Some cx_anchors) (ms 1600000) (ms 1600000) (Some cx_receipt) jx_decided.1);
      [apply run_start|split; done|vm_compute; reflexivity].
  - vm_compute. reflexivity.
Defined.
